(* ===== verification/_CoqProject ===== *)
-Q . S2P
Prelude.v
Roles.v
Bytes.v
SlotNode.v
Acceptor.v
AcceptorConc.v
KvOp.v
Coalescer.v
Learner.v
LearnerConc.v
Phases.v
WalRecord.v
WalSegment.v
WalReplay.v
Replica.v
Propose.v
Consensus.v
Election.v
Lease.v
Jitter.v
KeyEncoding.v
ChunkSlots.v
Handoff.v
BinaryKeys.v
TextKeys.v
UsageBitmap.v
ZoneAlloc.v
Gf256.v
Ec.v
EcSchemes.v
Frame.v
FrameGeometry.v
FrameGroup.v
FrameScan.v
StreamMappings.v
StreamChunk.v
StreamStore.v
StreamView.v
StreamLogic.v
StreamSteps.v
StreamRules.v
StreamOps.v
StreamPins.v
StreamCollect.v
StreamSystem.v
StreamSafety.v
StreamDemo.v
Multipart.v
