(* ===== verification/Prelude.v ===== *)
(** * CROWDB verification

    CROWDB is a storage cluster.  A replicated key-value store (crowdb-kv) runs
    multi-Paxos groups over write-ahead logs.  A disk service (crowdb-diskdb)
    hands out zones of disks.  A chunk service (crowdb-chunkdb) keeps objects as
    erasure-coded chunks of framed bytes.  Streams (crowdb-chunk-stream) are
    append-only sequences of chunks whose metadata lives in the key-value store.
    All of them share the keys, records and frames of crowdb-protocol, and the
    access libraries put S3, Iceberg and dataset protocols on top.

    This library models parts of these programs as executable definitions with
    the names of the source, and proves what callers rely on.  Paths below are
    relative to src/lib unless they begin with src/.

    ** Files and the code they model

    Shared: [Prelude] (this file: 64-bit arithmetic, ordered maps, quorum
    counting, [result] with the question-mark operator, tactics, hints) and
    [Bytes] (integers and text as bytes).

    The replicated store, crowdb-kv/src:
    - [Roles]: paxos/roles.rs, ballots, log entries and replies.
    - [SlotNode]: paxos/slot_node.rs, the lock-free cell of a slot, one atomic
      instruction at a time on a heap of boxes.
    - [Acceptor], [AcceptorConc]: paxos/acceptor.rs, whole operations on values,
      and the same bodies interleaved one atomic access at a time.
    - [KvOp]: kv/op.rs, the payload codec of cluster/px_kv_store.rs, and the
      engine trait of kv/kv_engine.rs as the classes [KVEngine] and
      [KVEngineLaws].
    - [Coalescer]: cluster/group_coalesce.rs, as a machine of its shared accesses.
    - [Learner], [LearnerConc]: paxos/learner.rs and the learner side of
      cluster/local_replica_apply.rs; the frontier updates interleaved.
    - [Phases], [Propose]: cluster/group_inflight.rs, group_prepare.rs,
      group_accept.rs and group_propose.rs, a proposal with its retry loops.
    - [WalRecord], [WalSegment], [WalReplay]: wal/record.rs, segment.rs,
      replay.rs, index.rs and gc.rs, from bytes of files to recovered state.
    - [Replica]: cluster/local_replica.rs with its handler files.  A replica is an
      acceptor, a learner, the election state and a log.
    - [Consensus]: replicas and proposers as one system with lost, repeated and
      reordered messages and restarts.
    - [Election], [Lease], [Jitter]: cluster/group_election.rs with its candidate
      and leader files, on top of [Replica].

    The shared protocol, crowdb-protocol/src:
    - [KeyEncoding], [BinaryKeys], [TextKeys]: the key directory.
    - [ChunkSlots], [Handoff]: chunk_id.rs, chunk_domain.rs, chunk_slot.rs and its
      modules; slots, their owners, and the transfer of slots.
    - [UsageBitmap]: bitmap.rs.  [ZoneAlloc] interleaves it with
      src/app/crowdb-diskdb/src/model/zone.rs, one atomic access at a time.
    - [Frame], [FrameGeometry], [FrameGroup], [FrameScan]: frame.rs and its
      modules; the frames of a chunk, where they lie, groups of frames that form
      one append, and the scan that finds the complete prefix after a crash.
    - [StreamMappings], [StreamChunk]: chunk_stream.rs and
      chunk_stream/chunk_record, the record of one chunk of a stream.

    Erasure coding, crowdb-common/rust/src/ec.rs and ec_isal.rs: [Gf256] (the
    field and its tables), [Ec] (split, encode, decode, incremental parity) and
    [EcSchemes] (the schemes in use).

    The stream record store, crowdb-chunk-stream/src/records.rs and records/:
    - [StreamStore]: every operation as a program, a tree of backend calls, clock
      readings and cache accesses, and the backend of memory/record_backend.rs.
    - [StreamView]: the byte store as typed maps of records and pins.
    - [StreamLogic], [StreamSteps], [StreamRules]: the shared world with its
      ghost history, its invariant, the steps that keep it, and rely-guarantee
      rules for programs.
    - [StreamOps], [StreamPins], [StreamCollect]: the rules of each operation.
    - [StreamSystem]: any number of concurrent calls as a step relation; every
      reachable world satisfies the invariant.
    - [StreamSafety]: the promises to callers.  [StreamDemo]: a concrete run.

    Multipart uploads, crowdb-access-multipart/src: [Multipart], the whole crate.

    ** How state and operations correspond

    A struct is a record and an enum an inductive type with the same
    constructors.  A method that takes [&mut self] returns the new state; [Result]
    is [result], a panic is [None] or a separate outcome.  A [u64] is a [Z], kept
    in range by the typing hypotheses of the theorems; where the code wraps,
    saturates or checks, so does the definition.  Concurrent maps are finite maps
    or, where their accesses interleave, machines whose steps are the single
    atomic accesses; atomics are sequentially consistent.  Asynchronous code runs
    other tasks between any two of its calls.

    ** What the theorems show

    - Consensus: agreement on every slot under arbitrary delivery, failed and late
      appends and restarts, with the assumptions below, and runs that break it
      without the first two; learners of one payload per slot converge whatever the
      order; frontiers are exact under concurrency; a proposal does bounded work and
      accounts for its request; coalesced requests are answered exactly once.
    - Elections and leases: a term is won once and no later term is won under a
      valid lease, with the exact provisos, and runs that break both where the code
      does not ensure a proviso.
    - Durability: what a restart keeps of promises and accepted entries, record by
      record; replay of torn files recovers, from every append, the term, the vote
      and the records of highest ballot; garbage collection loses nothing of these.
    - Protocol: keys decode exactly and scans select exactly what they name; slot
      maps are total and reassignments exact; handoffs go forward only.
    - Disks: no two allocations of a zone overlap, whatever the interleaving.
    - Chunks: decoding recovers what encoding wrote after any tolerable loss;
      incremental parity equals batch parity; frames, groups and scans read back
      exactly what was written, and nothing else.
    - Streams: an acknowledged tail is never lost, retained and pinned offsets can
      be located, two answers about an offset agree, a released chunk is needed by
      nobody, and a publication that is not disturbed takes effect.
    - Multipart: every byte of a composed object lies where its part has it.

    ** Parameters

    Code outside the source tree is a class or an argument: ISA-L
    ([Ec.IsaL] with [IsaLSpec], and [WalRecord.Crc32c] for its checksum),
    xxHash ([ChunkSlots.Xxh64]), bincode ([StreamChunk.Bincode]), serde_json for
    pins ([StreamStore.PinJson]), SHA-256, MD5 and the key-value engine
    ([KvOp.KVEngine]).  Each class of laws has an instance, and the witnesses of the
    theorems use it.

    ** Bounds and fuel

    Loops that the code bounds recurse on the bound: the attempts of a
    proposal (18 prepare phases, 18 accept phases and 4 slots at most), the retries of
    publications and pins.  Loops over data take the
    length of the data as fuel, and a lemma or the theorem itself shows that this
    suffices: a frame, a block of lengths, a record and a drained slot each consume
    at least one unit.  A loop without a bound, the renewal task of a pin, takes the
    list of its stop signals.  The concrete runs are examples, never the scope of a
    theorem.

    ** Assumptions of the replicated store

    Each is a named condition of the model that the code does not ensure.
    - At most one entry is proposed for a slot in round 0, the round without a
      prepare phase ([Consensus.fast_unique]; [steady_state_terms_disagree] is a run
      without it).
    - A replica restarts only when every record it answered for is in its log
      ([Replica.durable]).  A failed append is only logged, and with
      [wal_early_ack], the default, the leader's own append runs after its answer
      ([early_ack_crash_disagrees]).
    - The calls of one replica's handlers do not overlap.  [AcceptorConc] interleaves
      those of the acceptor: promises stay monotone, but [accept_race_breaks_fence]
      has schedules in which an accept passes a higher promise.
    - A replica that votes for itself is still below the term of its pre-vote round,
      and in that term when it starts its campaign ([Election.steady];
      [prevote_race_elects_two]).
    - For leases: one clock for all replicas, and a candidate and a restarted
      replica wait for their own vote lockout ([Lease.honours];
      [lease_outlives_leadership]).

    ** Assumptions of the record store

    A batch whose reply is lost was applied at once or never.  Callers pass
    snapshots they obtained from the store.  The nonces of pins are unique.  The
    clocks of all processes, the wall clock and the monotonic one, stay within a
    skew of which twice is at most the grace period of pins (31 seconds), and below
    2^62 milliseconds.  The contract of the backend is that of the in-memory one.

    ** Not modelled

    - Remote calls, sockets, device I/O, io_uring, files and processes: the RPC
      library, the disk I/O service, the WAL backends and pipeline, the clients,
      the web console, the command line, containers and tools.  That an
      append which succeeded is durable is an assumption of the replay theorems.
    - The C++ tree engine and the partitions built on it, crowdb-tree and
      crowdb-chunk-kv; the learner relies on the laws of the engine trait only.
    - paxos/slot_list.rs, the list that holds the slot nodes: the models see it as
      a finite map.
    - Changes of group membership, owner fences, snapshots and watches of the
      key-value store, and the engine's side of compare-and-swap conditions.
    - Handlers of the chunk and disk services, the append worker of streams and the
      chunk client: task scheduling around the codecs, allocators and records
      that are modelled.
    - Wire messages, whose accessors are generated from schemas during the build.
    - The access protocols (S3, Iceberg, datasets) beyond multipart composition.
    - Metrics, logging and configuration, on which no modelled decision depends.
    - Liveness under contention: how often a retried operation loses its race.
    - Weak memory: orderings other than sequential consistency. *)

From stdpp Require Import prelude gmap sorting list.
From Stdlib Require Import ZArith Lia.

#[global] Open Scope Z_scope.

Declare Scope crowdb_scope.
Delimit Scope crowdb_scope with crowdb.

(** ** Machine integers

    Every [u64] of the code is a [Z]; the operations that can leave the range
    are written out.  Release builds wrap on [+]. *)

Definition u64_max : Z := 2 ^ 64 - 1.

Definition wrap64 (z : Z) : Z := z mod 2 ^ 64.

Definition sat_add64 (a b : Z) : Z := Z.min (a + b) u64_max.

Definition sat_sub64 (a b : Z) : Z := Z.max (a - b) 0.

Definition is_u64 (z : Z) : Prop := 0 <= z <= u64_max.

Notation "a +w b" := (wrap64 (a + b)) (at level 50, left associativity) : crowdb_scope.

#[global] Open Scope crowdb_scope.

Lemma wrap64_id z : is_u64 z -> wrap64 z = z.
Proof. unfold is_u64, wrap64, u64_max. intros. apply Z.mod_small. lia. Qed.

Lemma wrap64_range z : is_u64 (wrap64 z).
Proof.
  unfold is_u64, wrap64, u64_max. pose proof (Z.mod_pos_bound z (2 ^ 64)). lia.
Qed.

(** ** Boolean tests of the code as case splits *)

Ltac zcase_step :=
  match goal with
  | |- context [ ?a <? ?b ] => destruct (Z.ltb_spec a b)
  | |- context [ ?a <=? ?b ] => destruct (Z.leb_spec a b)
  | |- context [ ?a =? ?b ] => destruct (Z.eqb_spec a b)
  | H : context [ ?a <? ?b ] |- _ => destruct (Z.ltb_spec a b)
  | H : context [ ?a <=? ?b ] |- _ => destruct (Z.leb_spec a b)
  | H : context [ ?a =? ?b ] |- _ => destruct (Z.eqb_spec a b)
  end.

Ltac zcase := repeat (zcase_step; simpl in *; try lia; try discriminate).

Create HintDb crowdb discriminated.

(** ** Ordered iteration over maps

    The code keeps several [SkipMap<u64, _>] and [BTreeMap<u64, _>]; both
    iterate in key order.  [sorted_entries] is that iteration. *)

Lemma NoDup_option_list {A} (l : list A) (o : option A) :
  NoDup l -> (forall x, x ∈ l <-> o = Some x) -> l = option_list o.
Proof.
  intros Hn H. destruct l as [|x l].
  - destruct o as [y|]; [|done]. destruct (not_elem_of_nil y). by apply H.
  - assert (o = Some x) as -> by (apply H; set_solver). simpl. f_equal.
    destruct l as [|y l]; [done|]. apply NoDup_cons in Hn as [Hn _].
    assert (Some x = Some y) as [= ->] by (apply H; set_solver). set_solver.
Qed.

Lemma NoDup_lfilter {A} (f : A -> bool) (l : list A) : NoDup l -> NoDup (List.filter f l).
Proof.
  induction 1 as [|x l Hx Hl IH]; simpl; [constructor|]. destruct (f x); [|done]. constructor; [|done].
  intros H. apply Hx. rewrite list_elem_of_In, List.filter_In, <- list_elem_of_In in H. by destruct H.
Qed.

Lemma NoDup_fmap_elem {A B} (f : A -> B) (l : list A) x y :
  NoDup (f <$> l) -> x ∈ l -> y ∈ l -> f x = f y -> x = y.
Proof.
  induction l as [|z l IH]; simpl; intros Hn Hx Hy E; [by apply not_elem_of_nil in Hx|].
  apply NoDup_cons in Hn as [Hz Hn]. apply elem_of_cons in Hx as [->|Hx], Hy as [->|Hy]; auto.
  - exfalso. apply Hz. rewrite E. by apply list_elem_of_fmap_2.
  - exfalso. apply Hz. rewrite <- E. by apply list_elem_of_fmap_2.
Qed.

Lemma StronglySorted_strict {A} (key : A -> Z) (l : list A) :
  StronglySorted (fun x y => key x <= key y) l -> NoDup (key <$> l) ->
  StronglySorted (fun x y => key x < key y) l.
Proof.
  induction 1 as [|x l Hs IH Hx]; intros Hn; [constructor|]. apply NoDup_cons in Hn as [Hx' Hn].
  constructor; [by apply IH|]. rewrite Forall_forall in *. intros y Hy. specialize (Hx y Hy).
  assert (key x <> key y); [|lia]. intros E. apply Hx'. rewrite E. by apply list_elem_of_fmap_2.
Qed.

Section ordered_maps.
Context {A : Type}.

Definition key_le (x y : Z * A) : Prop := x.1 <= y.1.

#[export] Instance key_le_dec : RelDecision key_le.
Proof. intros x y. unfold key_le. apply _. Defined.

#[export] Instance key_le_total : Total key_le.
Proof. intros x y. unfold key_le. lia. Qed.

#[export] Instance key_le_trans : Transitive key_le.
Proof. intros x y z. unfold key_le. lia. Qed.

Definition sorted_entries (m : gmap Z A) : list (Z * A) :=
  merge_sort key_le (map_to_list m).

Lemma elem_of_sorted_entries (m : gmap Z A) k x :
  (k, x) ∈ sorted_entries m <-> m !! k = Some x.
Proof.
  unfold sorted_entries. rewrite merge_sort_Permutation. apply elem_of_map_to_list.
Qed.

Lemma sorted_entries_sorted (m : gmap Z A) :
  StronglySorted key_le (sorted_entries m).
Proof. apply (StronglySorted_merge_sort key_le). Qed.

Lemma sorted_entries_NoDup (m : gmap Z A) : NoDup (sorted_entries m).*1.
Proof.
  unfold sorted_entries. rewrite merge_sort_Permutation. apply NoDup_fst_map_to_list.
Qed.

Definition key_lt (x y : Z * A) : Prop := x.1 < y.1.

Lemma sorted_entries_strict (m : gmap Z A) : StronglySorted key_lt (sorted_entries m).
Proof.
  apply (StronglySorted_strict fst); [apply sorted_entries_sorted|apply sorted_entries_NoDup].
Qed.
End ordered_maps.

(** ** Iterator adaptors of the code *)

Fixpoint take_while {A} (p : A -> bool) (l : list A) : list A :=
  match l with
  | [] => []
  | x :: l => if p x then x :: take_while p l else []
  end.

Fixpoint skip_while {A} (p : A -> bool) (l : list A) : list A :=
  match l with
  | [] => []
  | x :: l => if p x then skip_while p l else x :: l
  end.

Fixpoint find_map {A B} (f : A -> option B) (l : list A) : option B :=
  match l with
  | [] => None
  | x :: l => match f x with Some y => Some y | None => find_map f l end
  end.

Section adaptors.
Context {A : Type} (R : A -> A -> Prop) (p : A -> bool).

Lemma elem_of_take_while l x :
  StronglySorted R l -> (forall x y, R x y -> p y = true -> p x = true) ->
  x ∈ take_while p l <-> x ∈ l /\ p x = true.
Proof.
  intros Hs Hp. induction Hs as [|y l Hs IH Hy]; simpl; [set_solver|].
  rewrite elem_of_cons. destruct (p y) eqn:E.
  - rewrite elem_of_cons, IH. naive_solver.
  - split; [set_solver|]. intros [[->|Hx] Hpx]; [congruence|].
    rewrite Forall_forall in Hy. rewrite (Hp y x) in E; auto; congruence.
Qed.

Lemma elem_of_skip_while l x :
  StronglySorted R l -> (forall x y, R x y -> p y = true -> p x = true) ->
  x ∈ skip_while p l <-> x ∈ l /\ p x = false.
Proof.
  intros Hs Hp. induction Hs as [|y l Hs IH Hy]; simpl; [set_solver|].
  rewrite elem_of_cons. destruct (p y) eqn:E.
  - rewrite IH. split; [naive_solver|]. intros [[->|?] ?]; [congruence|done].
  - rewrite elem_of_cons. split; [|tauto]. intros [->|Hx]; [tauto|]. split; [tauto|].
    rewrite Forall_forall in Hy. destruct (p x) eqn:Ex; [|done].
    rewrite (Hp y x) in E; auto.
Qed.

Lemma take_while_sorted l : StronglySorted R l -> StronglySorted R (take_while p l).
Proof.
  induction 1 as [|y l Hs IH Hy]; simpl; [constructor|]. destruct (p y); constructor; [done|].
  clear -Hy. induction Hy as [|x l Hx _ IH]; simpl; [constructor|].
  destruct (p x); constructor; done.
Qed.

Lemma skip_while_sorted l : StronglySorted R l -> StronglySorted R (skip_while p l).
Proof.
  induction 1 as [|y l Hs IH Hy]; simpl; [constructor|]. destruct (p y); [done|].
  by constructor.
Qed.

Lemma reverse_sorted l : StronglySorted R l -> StronglySorted (flip R) (reverse l).
Proof.
  induction 1 as [|y l Hs IH Hy]; [constructor|]. rewrite reverse_cons.
  apply StronglySorted_app. split_and!; [|done|repeat constructor].
  intros x z Hx ->%list_elem_of_singleton. rewrite Forall_forall in Hy. apply Hy.
  by apply elem_of_reverse.
Qed.
End adaptors.

Lemma take_while_sublist {A} (p : A -> bool) l : take_while p l `sublist_of` l.
Proof.
  induction l as [|x l IH]; simpl; [constructor|]. destruct (p x); [by constructor|apply sublist_nil_l].
Qed.

Lemma take_while_elem {A} (p : A -> bool) l x : x ∈ take_while p l -> x ∈ l.
Proof. induction l as [|y l IH]; simpl; [done|]. destruct (p y); set_solver. Qed.

(** Strictly ordered lists with the same elements are equal. *)
Lemma StronglySorted_ext {A} (R : A -> A -> Prop) (l k : list A) :
  (forall x, ~ R x x) -> (forall x y, R x y -> ~ R y x) ->
  StronglySorted R l -> StronglySorted R k -> (forall x, x ∈ l <-> x ∈ k) -> l = k.
Proof.
  intros Hirr Hasym Hl. revert k. induction Hl as [|x l Hl IH Hx]; intros k Hk Heq.
  { destruct k as [|y k]; [done|]. exfalso. specialize (Heq y). set_solver. }
  destruct Hk as [|y k Hk Hy]; [exfalso; specialize (Heq x); set_solver|].
  rewrite Forall_forall in Hx, Hy.
  assert (x = y) as ->.
  { assert (x ∈ y :: k) as [|Hxk]%elem_of_cons by (apply Heq; set_solver); [done|].
    assert (y ∈ x :: l) as [|Hyl]%elem_of_cons by (apply Heq; set_solver); [done|].
    exfalso. apply (Hasym x y); auto. }
  f_equal. apply IH; [done|]. intros z. specialize (Heq z).
  rewrite !elem_of_cons in Heq. split; intros Hz.
  - destruct (proj1 Heq) as [->|]; [by right|exfalso; eapply Hirr; eauto|done].
  - destruct (proj2 Heq) as [->|]; [by right|exfalso; eapply Hirr; eauto|done].
Qed.

(** The first hit of a strictly ordered walk is the extreme one. *)
Lemma find_map_Some {A B} (R : A -> A -> Prop) (f : A -> option B) l y :
  StronglySorted R l -> find_map f l = Some y ->
  exists x, x ∈ l /\ f x = Some y /\ forall z w, z ∈ l -> f z = Some w -> z = x \/ R x z.
Proof.
  induction 1 as [|x l Hs IH Hx]; simpl; [done|]. destruct (f x) as [w|] eqn:E.
  - intros [= ->]. exists x. split_and!; [set_solver|done|].
    intros z w [->|Hz]%elem_of_cons _; [by left|]. right. rewrite Forall_forall in Hx. auto.
  - intros Hf. destruct (IH Hf) as (x' & Hin & Hx' & Hmax). exists x'. split_and!; [set_solver|done|].
    intros z w [->|Hz]%elem_of_cons Hw; [congruence|eauto].
Qed.

Lemma find_map_None {A B} (f : A -> option B) l :
  find_map f l = None <-> forall x, x ∈ l -> f x = None.
Proof.
  induction l as [|x l IH]; simpl; [set_solver|]. destruct (f x) as [w|] eqn:E.
  - split; [done|]. intros H. rewrite H in E; [done|set_solver].
  - rewrite IH. split.
    + intros H z [->|Hz]%elem_of_cons; auto.
    + intros H z Hz. apply H. set_solver.
Qed.

(** ** Counting: two majorities of the same membership share a member *)

Lemma NoDup_subset_length {A} (l k : list A) :
  NoDup l -> (forall x, x ∈ l -> x ∈ k) -> (length l <= length k)%nat.
Proof. intros Hnd Hsub. apply submseteq_length, NoDup_submseteq; [done|exact Hsub]. Qed.

Lemma majorities_intersect {A} `{EqDecision A} (members q1 q2 : list A) :
  NoDup q1 -> NoDup q2 ->
  (forall x, x ∈ q1 -> x ∈ members) -> (forall x, x ∈ q2 -> x ∈ members) ->
  (length members < length q1 + length q2)%nat ->
  exists x, x ∈ q1 /\ x ∈ q2.
Proof.
  intros Hn1 Hn2 Hs1 Hs2 Hlen.
  destruct (decide (Exists (fun x => x ∈ q2) q1)) as [Hex|Hno].
  { apply Exists_exists in Hex as (x & ? & ?). eauto. }
  apply not_Exists_Forall in Hno; [|intros ?; apply _].
  exfalso. pose proof (NoDup_subset_length (q1 ++ q2) members) as Hle.
  rewrite length_app in Hle. apply Nat.lt_nge in Hlen. apply Hlen, Hle.
  - apply NoDup_app. split_and!; [done| |done].
    intros x Hx. rewrite Forall_forall in Hno. by apply Hno.
  - intros x [Hx|Hx]%elem_of_app; auto.
Qed.

(** ** Options as the code folds them *)

(** [self.field = Some(self.field.map_or(x, |r| r.max(x)))] *)
Definition opt_max (o : option Z) (x : Z) : option Z :=
  Some (match o with Some r => Z.max r x | None => x end).

(** [position(a) <= position(b)] where an absent value is below every present one. *)
Definition opt_le {A} (le : A -> A -> Prop) (x y : option A) : Prop :=
  match x, y with
  | None, _ => True
  | Some _, None => False
  | Some a, Some b => le a b
  end.

Lemma opt_le_refl {A} (le : A -> A -> Prop) x :
  (forall a, le a a) -> opt_le le x x.
Proof. intros. destruct x; simpl; auto. Qed.

Lemma opt_le_trans {A} (le : A -> A -> Prop) x y z :
  (forall a b c, le a b -> le b c -> le a c) ->
  opt_le le x y -> opt_le le y z -> opt_le le x z.
Proof. intros ?. destruct x, y, z; simpl; try done. eauto. Qed.

(** ** Fallible code

    [Result<A, E>] with the [?] operator. *)

Inductive result (A E : Type) :=
| Ok (a : A)
| Err (e : E).
Arguments Ok {A E}.
Arguments Err {A E}.

Definition result_bind {A B E} (r : result A E) (k : A -> result B E) : result B E :=
  match r with Ok a => k a | Err e => Err e end.

(** [o.ok_or(e)?] *)
Definition ok_or {A E} (o : option A) (e : E) : result A E :=
  match o with Some a => Ok a | None => Err e end.

Notation "'let?' x := r 'in' k" := (result_bind r (fun x => k))
  (at level 10, x pattern, r at level 100, k at level 200) : crowdb_scope.
