(* ===== verification/Roles.v ===== *)
(** * Paxos roles: ballots, log entries and replies

    Models [src/lib/crowdb-kv/src/paxos/roles.rs]: the proposal number, the
    durable log record and the two reply enums every other consensus file is
    written in. *)

From stdpp Require Import prelude gmap list.
From Stdlib Require Import ZArith Lia.
From S2P Require Import Prelude.

(** [PxBallot]: derived [Ord] is lexicographic in field order. *)
Record PxBallot := mkBallot { round : Z; leader_id : Z }.

#[export] Instance PxBallot_eq_dec : EqDecision PxBallot.
Proof. solve_decision. Defined.

Definition ballot_ltb (a b : PxBallot) : bool :=
  (round a <? round b) || ((round a =? round b) && (leader_id a <? leader_id b)).

Definition ballot_leb (a b : PxBallot) : bool := negb (ballot_ltb b a).

Definition ballot_lt (a b : PxBallot) : Prop :=
  round a < round b \/ (round a = round b /\ leader_id a < leader_id b).

Definition ballot_le (a b : PxBallot) : Prop := ballot_lt a b \/ a = b.

Definition ballot_zero : PxBallot := mkBallot 0 0.

Notation "a <b b" := (ballot_lt a b) (at level 70) : crowdb_scope.
Notation "a <=b b" := (ballot_le a b) (at level 70) : crowdb_scope.

Lemma ballot_ext a b : round a = round b -> leader_id a = leader_id b -> a = b.
Proof. destruct a, b; simpl; congruence. Qed.

Lemma ballot_le_spec a b :
  a <=b b <-> round a < round b \/ (round a = round b /\ leader_id a <= leader_id b).
Proof.
  unfold ballot_le, ballot_lt. split.
  - intros [?| ->]; lia.
  - intros [?|[? ?]]; [lia|].
    destruct (Z.eq_dec (leader_id a) (leader_id b)); [|lia].
    right. by apply ballot_ext.
Qed.

(** [bsolve] turns ballot comparisons into arithmetic on the two fields. *)
Ltac bunfold :=
  repeat match goal with
  | H : context [ ballot_le _ _ ] |- _ => rewrite ballot_le_spec in H
  | |- context [ ballot_le _ _ ] => rewrite ballot_le_spec
  end;
  unfold ballot_lt in *.

Ltac bsolve := solve [ subst; bunfold; simpl in *; lia
                     | subst; bunfold; simpl in *; apply ballot_ext; lia ].

Lemma ballot_ltb_spec a b : reflect (a <b b) (ballot_ltb a b).
Proof. apply iff_reflect. unfold ballot_ltb, ballot_lt. lia. Qed.

Lemma ballot_leb_spec a b : reflect (a <=b b) (ballot_leb a b).
Proof.
  unfold ballot_leb. destruct (ballot_ltb_spec b a); simpl; constructor; bsolve.
Qed.

Lemma ballot_lt_irrefl a : ~ a <b a.
Proof. bunfold. lia. Qed.

Lemma ballot_le_refl a : a <=b a.
Proof. bsolve. Qed.

Lemma ballot_le_trans a b c : a <=b b -> b <=b c -> a <=b c.
Proof. intros. bsolve. Qed.

Lemma ballot_lt_le_trans a b c : a <b b -> b <=b c -> a <b c.
Proof. intros. bsolve. Qed.

Lemma ballot_le_lt_trans a b c : a <=b b -> b <b c -> a <b c.
Proof. intros. bsolve. Qed.

Lemma ballot_lt_le a b : a <b b -> a <=b b.
Proof. intros. bsolve. Qed.

Lemma ballot_nlt a b : ~ a <b b <-> b <=b a.
Proof. bunfold. lia. Qed.

Lemma ballot_le_antisym a b : a <=b b -> b <=b a -> a = b.
Proof. intros. bsolve. Qed.

#[export] Hint Resolve ballot_le_refl ballot_lt_le : crowdb.
#[export] Hint Resolve ballot_le_trans ballot_lt_le_trans ballot_le_lt_trans : crowdb.

Ltac bcase_step :=
  match goal with
  | |- context [ ballot_ltb ?a ?b ] => destruct (ballot_ltb_spec a b)
  | |- context [ ballot_leb ?a ?b ] => destruct (ballot_leb_spec a b)
  | H : context [ ballot_ltb ?a ?b ] |- _ => destruct (ballot_ltb_spec a b)
  | H : context [ ballot_leb ?a ?b ] |- _ => destruct (ballot_leb_spec a b)
  end.

Ltac bcase := repeat (bcase_step; simpl in *; try done).

(** [PxLogEntry]; [Bytes] is a list of byte values. *)
Record PxLogEntry := mkEntry {
  slot : Z;
  ballot : PxBallot;
  term : Z;
  payload : list Z;
}.

#[export] Instance PxLogEntry_eq_dec : EqDecision PxLogEntry.
Proof. solve_decision. Defined.

(** [RequestIdentity] *)
Record RequestIdentity := mkIdentity { client_id : Z; seq : Z }.

(** [PxPrepareReply] *)
Inductive PxPrepareReply :=
| Promised (slot : Z) (accepted : option PxLogEntry)
| PrepareRejected (slot : Z) (current_promised : PxBallot)
| PrepareTermStale (slot : Z) (new_term : Z)
| PrepareEpochMismatch (responder_epoch : Z).

(** [PxAcceptReply] *)
Inductive PxAcceptReply :=
| Accepted (slot : Z) (ballot : PxBallot)
| AcceptRejected (slot : Z) (current_promised : PxBallot)
| AcceptTermStale (slot : Z) (new_term : Z)
| AcceptEpochMismatch (responder_epoch : Z).

#[export] Instance PxPrepareReply_eq_dec : EqDecision PxPrepareReply.
Proof. solve_decision. Defined.

#[export] Instance PxAcceptReply_eq_dec : EqDecision PxAcceptReply.
Proof. solve_decision. Defined.
