(* ===== verification/Bytes.v ===== *)
(** * Bytes, integers and text

    Little- and big-endian integers ([to_le_bytes], [from_le_bytes],
    [to_be_bytes], [from_be_bytes]), decimal and hexadecimal text ([Display],
    [str::parse], [from_str_radix], [{:08x}]) and the string splits the codecs
    use.  A byte is a [Z] in [0, 256); text is a list of bytes. *)

From stdpp Require Import prelude list strings.
From Stdlib Require Import ZArith Lia.
From S2P Require Import Prelude.

Local Open Scope list_scope.

Abbreviation bytes := (list Z).

Definition is_byte (b : Z) : Prop := 0 <= b < 256.

(** ** Fixed-width integers *)

Fixpoint to_le_bytes (n : nat) (z : Z) : bytes :=
  match n with
  | O => []
  | S n => z mod 256 :: to_le_bytes n (z / 256)
  end.

Fixpoint from_le_bytes (l : bytes) : Z :=
  match l with
  | [] => 0
  | b :: l => b + 256 * from_le_bytes l
  end.

Definition to_be_bytes (n : nat) (z : Z) : bytes := reverse (to_le_bytes n z).

Definition from_be_bytes (l : bytes) : Z := from_le_bytes (reverse l).

Definition width (n : nat) : Z := 256 ^ Z.of_nat n.

Lemma width_S n : width (S n) = 256 * width n.
Proof. unfold width. rewrite Nat2Z.inj_succ, Z.pow_succ_r by lia. done. Qed.

Lemma width_pos n : 0 < width n.
Proof. unfold width. apply Z.pow_pos_nonneg; lia. Qed.

Lemma to_le_bytes_length n z : length (to_le_bytes n z) = n.
Proof. revert z. induction n; intros; simpl; auto. Qed.

Lemma to_le_bytes_ok n z : Forall is_byte (to_le_bytes n z).
Proof.
  revert z. induction n as [|n IH]; intros z; simpl; constructor; [|done].
  unfold is_byte. apply Z.mod_pos_bound. lia.
Qed.

Lemma from_to_le n z : 0 <= z < width n -> from_le_bytes (to_le_bytes n z) = z.
Proof.
  revert z. induction n as [|n IH]; intros z Hz; simpl.
  - unfold width in Hz. simpl in Hz. lia.
  - rewrite width_S in Hz. rewrite IH.
    + pose proof (Z.div_mod z 256). lia.
    + split; [apply Z.div_pos; lia|]. apply Z.div_lt_upper_bound; lia.
Qed.

Lemma from_to_le_mod n z : from_le_bytes (to_le_bytes n z) = z mod width n.
Proof.
  revert z. induction n as [|n IH]; intros z; [by rewrite Z.mod_1_r|]. cbn [to_le_bytes from_le_bytes].
  rewrite IH, width_S. pose proof (width_pos n). rewrite Z.rem_mul_r by lia. lia.
Qed.

Lemma from_le_bound l : Forall is_byte l -> 0 <= from_le_bytes l < width (length l).
Proof.
  induction 1 as [|b l Hb _ IH]; simpl; [unfold width; simpl; lia|].
  rewrite width_S. unfold is_byte in Hb. lia.
Qed.

Lemma to_from_le l : Forall is_byte l -> to_le_bytes (length l) (from_le_bytes l) = l.
Proof.
  induction 1 as [|b l Hb Hl IH]; simpl; [done|]. unfold is_byte in Hb.
  f_equal.
  - rewrite Z.mul_comm, Z.mod_add by lia. by apply Z.mod_small.
  - rewrite Z.mul_comm, Z.div_add by lia. rewrite Z.div_small by lia. by rewrite Z.add_0_l.
Qed.

Lemma to_be_bytes_length n z : length (to_be_bytes n z) = n.
Proof. unfold to_be_bytes. rewrite length_reverse. apply to_le_bytes_length. Qed.

Lemma from_to_be n z : 0 <= z < width n -> from_be_bytes (to_be_bytes n z) = z.
Proof. intros. unfold from_be_bytes, to_be_bytes. rewrite reverse_involutive. by apply from_to_le. Qed.

(** ** Slices *)

(** [&data[off..off + n]]; the callers check the bounds. *)
Definition slice (data : bytes) (off n : nat) : bytes := take n (drop off data).

Lemma slice_app_exact (pre mid post : bytes) :
  slice (pre ++ mid ++ post) (length pre) (length mid) = mid.
Proof. unfold slice. by rewrite drop_app_length, take_app_length. Qed.

Lemma slice_at (pre mid post : bytes) off n :
  length pre = off -> length mid = n -> slice (pre ++ mid ++ post) off n = mid.
Proof. intros <- <-. apply slice_app_exact. Qed.

Lemma slice_length (data : bytes) off n :
  (off + n <= length data)%nat -> length (slice data off n) = n.
Proof. intros. unfold slice. rewrite length_take, length_drop. lia. Qed.

Lemma slice_skip (a b : bytes) off n :
  (length a <= off)%nat -> slice (a ++ b) off n = slice b (off - length a) n.
Proof. intros H. unfold slice. rewrite drop_app_ge by done. done. Qed.

Lemma slice_hit (a b : bytes) n : length a = n -> slice (a ++ b) 0 n = a.
Proof. intros <-. unfold slice. rewrite drop_0. apply take_app_length. Qed.

Lemma slice_all (a : bytes) n : length a = n -> slice a 0 n = a.
Proof. intros <-. unfold slice. rewrite drop_0. by rewrite take_ge. Qed.

(** Walk to the field at a constant offset of a concatenation. *)
Ltac slice_field :=
  repeat (rewrite slice_skip by (rewrite ?to_le_bytes_length, ?to_be_bytes_length; simpl; lia);
          rewrite ?to_le_bytes_length, ?to_be_bytes_length; simpl Nat.sub; simpl length);
  rewrite ?slice_hit by (rewrite ?to_le_bytes_length, ?to_be_bytes_length; simpl; lia).

(** ** Hexadecimal *)

Definition nibble_to_hex (v : Z) : Z := if v <=? 9 then 48 + v else 97 + (v - 10).

Definition hex_to_nibble (c : Z) : option Z :=
  if (48 <=? c) && (c <=? 57) then Some (c - 48)
  else if (97 <=? c) && (c <=? 102) then Some (c - 97 + 10)
  else if (65 <=? c) && (c <=? 70) then Some (c - 65 + 10)
  else None.

Fixpoint encode_hex (l : bytes) : bytes :=
  match l with
  | [] => []
  | b :: l => nibble_to_hex (b / 16) :: nibble_to_hex (b mod 16) :: encode_hex l
  end.

(** [decode_hex]; [None] is an odd length or a bad digit. *)
Fixpoint decode_hex (l : bytes) : option bytes :=
  match l with
  | [] => Some []
  | [_] => None
  | h :: l :: rest =>
      match hex_to_nibble h, hex_to_nibble l, decode_hex rest with
      | Some h, Some l, Some out => Some (16 * h + l :: out)
      | _, _, _ => None
      end
  end.

Lemma hex_nibble v : 0 <= v < 16 -> hex_to_nibble (nibble_to_hex v) = Some v.
Proof. intros. unfold hex_to_nibble, nibble_to_hex. zcase; f_equal; lia. Qed.

Lemma decode_encode_hex l : Forall is_byte l -> decode_hex (encode_hex l) = Some l.
Proof.
  induction 1 as [|b l Hb _ IH]; [done|]. unfold is_byte in Hb.
  cbn [encode_hex decode_hex].
  rewrite !hex_nibble, IH.
  - f_equal. f_equal. pose proof (Z.div_mod b 16). lia.
  - apply Z.mod_pos_bound. lia.
  - split; [apply Z.div_pos; lia|apply Z.div_lt_upper_bound; lia].
Qed.

(** Digits of a number, least significant first: [n] of them. *)
Fixpoint digits_le (base : Z) (n : nat) (z : Z) : list Z :=
  match n with O => [] | S n => z mod base :: digits_le base n (z / base) end.

(** [{:08x}] of a [u32]: eight digits always suffice. *)
Definition format_08x (z : Z) : bytes := nibble_to_hex <$> reverse (digits_le 16 8 z).

(** [from_str_radix] and [str::parse] on unsigned types: an optional plus, at
    least one digit, every digit valid, and no overflow. *)
Fixpoint parse_digits (base bound : Z) (digit : Z -> option Z) (acc : Z) (l : bytes) : option Z :=
  match l with
  | [] => Some acc
  | c :: l =>
      match digit c with
      | Some d => let acc' := acc * base + d in
                  if acc' <? bound then parse_digits base bound digit acc' l else None
      | None => None
      end
  end.

Definition strip_plus (l : bytes) : bytes :=
  match l with c :: (_ :: _) as r => if c =? 43 then r else l | _ => l end.

Definition parse_uint (base bound : Z) (digit : Z -> option Z) (l : bytes) : option Z :=
  match strip_plus l with [] => None | r => parse_digits base bound digit 0 r end.

Definition dec_digit (c : Z) : option Z := if (48 <=? c) && (c <=? 57) then Some (c - 48) else None.

Definition parse_dec (bound : Z) (l : bytes) : option Z := parse_uint 10 bound dec_digit l.

Definition parse_hex_u32 (l : bytes) : option Z := parse_uint 16 (2 ^ 32) hex_to_nibble l.

(** [Display] of an unsigned integer: digits without leading zeros; twenty
    digits hold every [u64]. *)
Fixpoint drop_zeros (l : list Z) : list Z :=
  match l with
  | d :: (_ :: _) as r => if d =? 0 then drop_zeros r else l
  | _ => l
  end.

Definition show_dec (z : Z) : bytes :=
  (fun d => 48 + d) <$> drop_zeros (reverse (digits_le 10 20 z)).

#[global] Arguments show_dec _ : simpl never.
#[global] Arguments format_08x _ : simpl never.

(** ** Strings *)

(** The bytes of an ASCII literal. *)
Fixpoint bs (s : string) : bytes :=
  match s with
  | String.EmptyString => []
  | String.String c s => Z.of_N (Ascii.N_of_ascii c) :: bs s
  end.

(** [str::split(c)]: the pieces between the separators, at least one. *)
Fixpoint split_char (c : Z) (l : bytes) : list bytes :=
  match l with
  | [] => [[]]
  | x :: l =>
      if x =? c then [] :: split_char c l
      else match split_char c l with
           | p :: ps => (x :: p) :: ps
           | [] => [[x]]
           end
  end.

(** [str::split_once(c)]: around the first separator. *)
Fixpoint split_once (c : Z) (l : bytes) : option (bytes * bytes) :=
  match l with
  | [] => None
  | x :: l => if x =? c then Some ([], l)
              else match split_once c l with Some (a, b) => Some (x :: a, b) | None => None end
  end.

(** [str::rsplit_once(pat)]: around the last occurrence. *)
Fixpoint rsplit_once (pat l : bytes) : option (bytes * bytes) :=
  match l with
  | [] => None
  | x :: r =>
      match rsplit_once pat r with
      | Some (a, b) => Some (x :: a, b)
      | None => if bool_decide (take (length pat) l = pat) then Some ([], drop (length pat) l) else None
      end
  end.

(** [trim_end_matches(['\r', '\n'])] *)
Fixpoint trim_end (l : bytes) : bytes :=
  match l with
  | [] => []
  | x :: r => match trim_end r with
              | [] => if (x =? 13) || (x =? 10) then [] else [x]
              | t => x :: t
              end
  end.

Definition join_with (c : Z) (ps : list bytes) : bytes :=
  match ps with [] => [] | p :: ps => foldl (fun acc q => acc ++ c :: q) p ps end.

(** ** Round trips of the text forms *)

Definition digits_value (base : Z) (acc : Z) (ds : list Z) : Z := foldl (fun a d => a * base + d) acc ds.

Lemma digits_value_mono base ds acc :
  1 <= base -> 0 <= acc -> Forall (fun d => 0 <= d) ds -> acc <= digits_value base acc ds.
Proof.
  intros Hb. revert acc. induction ds as [|d ds IH]; intros acc Ha Hd; [unfold digits_value; simpl; lia|].
  apply Forall_cons in Hd as [Hd Hds].
  assert (acc * base + d <= digits_value base (acc * base + d) ds) by (apply IH; [nia|done]).
  unfold digits_value in *. simpl. nia.
Qed.

Lemma parse_digits_value base bound digit chr ds acc :
  1 <= base -> 0 <= acc ->
  Forall (fun d => 0 <= d /\ digit (chr d) = Some d) ds ->
  digits_value base acc ds < bound ->
  parse_digits base bound digit acc (chr <$> ds) = Some (digits_value base acc ds).
Proof.
  intros Hb. revert acc. induction ds as [|d ds IH]; intros acc Ha Hd Hv; simpl in *; [done|].
  apply Forall_cons in Hd as [[Hd Hdig] Hds]. rewrite Hdig.
  assert (acc * base + d <= digits_value base (acc * base + d) ds).
  { apply digits_value_mono; [lia|nia|]. eapply Forall_impl; [done|]. by intros ? []. }
  rewrite (proj2 (Z.ltb_lt _ _)) by lia. apply IH; [nia|done|done].
Qed.

Lemma digits_le_value base n z :
  1 < base -> 0 <= z < base ^ Z.of_nat n ->
  digits_value base 0 (reverse (digits_le base n z)) = z.
Proof.
  intros Hb. unfold digits_value. rewrite <- (reverse_involutive (digits_le base n z)) at 1.
  rewrite reverse_involutive. revert z. induction n as [|n IH]; intros z Hz; simpl.
  - simpl in Hz. change (foldl (fun a d => a * base + d) 0 (reverse []) = z). simpl. lia.
  - rewrite reverse_cons, foldl_app. simpl. rewrite IH.
    + pose proof (Z.div_mod z base). lia.
    + rewrite Nat2Z.inj_succ, Z.pow_succ_r in Hz by lia.
      split; [apply Z.div_pos; lia|apply Z.div_lt_upper_bound; lia].
Qed.

Lemma digits_le_range base n z : 0 < base -> Forall (fun d => 0 <= d < base) (digits_le base n z).
Proof.
  intros Hb. revert z. induction n as [|n IH]; intros z; simpl; constructor; [|done].
  by apply Z.mod_pos_bound.
Qed.

Lemma drop_zeros_value base ds : digits_value base 0 (drop_zeros ds) = digits_value base 0 ds.
Proof.
  induction ds as [|d ds IH]; [done|]. simpl. destruct ds as [|d' ds]; [done|].
  destruct (Z.eqb_spec d 0) as [->|]; [|done]. rewrite IH. done.
Qed.

Lemma drop_zeros_incl (P : Z -> Prop) ds : Forall P ds -> Forall P (drop_zeros ds).
Proof.
  induction 1 as [|d ds Hd Hds IH]; [constructor|]. simpl. destruct ds as [|d' ds]; [by constructor|].
  destruct (d =? 0); [done|by constructor].
Qed.

Lemma drop_zeros_ne ds : ds <> [] -> drop_zeros ds <> [].
Proof.
  induction ds as [|d ds IH]; [done|]. intros _. simpl. destruct ds as [|d' ds]; [done|].
  destruct (d =? 0); [by apply IH|done].
Qed.

Lemma strip_plus_id l : Forall (fun c => c <> 43) l -> strip_plus l = l.
Proof.
  intros H. destruct l as [|c [|c' l]]; [done..|]. simpl. apply Forall_cons in H as [H _].
  by destruct (Z.eqb_spec c 43).
Qed.

Lemma parse_uint_value base bound digit chr ds :
  1 <= base -> ds <> [] -> Forall (fun d => 0 <= d /\ digit (chr d) = Some d /\ chr d <> 43) ds ->
  digits_value base 0 ds < bound ->
  parse_uint base bound digit (chr <$> ds) = Some (digits_value base 0 ds).
Proof.
  intros Hb Hne Hd Hv. unfold parse_uint. rewrite strip_plus_id.
  - destruct ds as [|d ds]; [done|]. cbn [fmap list_fmap].
    change (chr d :: (chr <$> ds)) with (chr <$> (d :: ds)).
    apply parse_digits_value; [done|lia| |done]. eapply Forall_impl; [done|]. naive_solver.
  - apply Forall_fmap. eapply Forall_impl; [done|]. naive_solver.
Qed.

Lemma reverse_digits_ne base n z : reverse (digits_le base (S n) z) <> [].
Proof. intros H. apply (f_equal length) in H. rewrite length_reverse in H. done. Qed.

Lemma parse_show_dec bound z :
  0 <= z < bound -> bound <= 2 ^ 64 -> parse_dec bound (show_dec z) = Some z.
Proof.
  intros Hz Hb. unfold parse_dec, show_dec.
  assert (Hv : digits_value 10 0 (drop_zeros (reverse (digits_le 10 20 z))) = z).
  { rewrite drop_zeros_value. apply digits_le_value; [lia|].
    change (10 ^ Z.of_nat 20) with 100000000000000000000. lia. }
  rewrite parse_uint_value, Hv; [done|lia|apply drop_zeros_ne, reverse_digits_ne| |lia].
  apply drop_zeros_incl, Forall_reverse. eapply Forall_impl; [apply digits_le_range; lia|].
  simpl. intros d Hd. unfold dec_digit. split_and!; [lia| |lia].
  rewrite (proj2 (Z.leb_le _ _)), (proj2 (Z.leb_le _ _)) by lia. simpl. f_equal. lia.
Qed.

Lemma parse_format_08x z : 0 <= z < 2 ^ 32 -> parse_hex_u32 (format_08x z) = Some z.
Proof.
  intros Hz. unfold parse_hex_u32, format_08x.
  assert (Hv : digits_value 16 0 (reverse (digits_le 16 8 z)) = z) by (apply digits_le_value; lia).
  rewrite parse_uint_value, Hv; [done|lia|apply reverse_digits_ne| |lia].
  apply Forall_reverse. eapply Forall_impl; [apply digits_le_range; lia|].
  simpl. intros d Hd. split_and!; [lia|by apply hex_nibble|].
  unfold nibble_to_hex. zcase; lia.
Qed.

(** Characters that number and hex text never contain: space, newline, [=]. *)
Definition wordy (l : bytes) : Prop := Forall (fun c => c <> 32 /\ c <> 10 /\ c <> 13 /\ c <> 61) l.

Lemma show_dec_wordy z : wordy (show_dec z).
Proof.
  unfold wordy, show_dec. apply Forall_fmap, drop_zeros_incl, Forall_reverse.
  eapply Forall_impl; [apply digits_le_range; lia|]. simpl. lia.
Qed.

Lemma nibble_wordy v : 0 <= v < 16 -> nibble_to_hex v <> 32 /\ nibble_to_hex v <> 10 /\
  nibble_to_hex v <> 13 /\ nibble_to_hex v <> 61.
Proof. intros. unfold nibble_to_hex. zcase; lia. Qed.

Lemma format_08x_wordy z : wordy (format_08x z).
Proof.
  unfold wordy, format_08x. apply Forall_fmap, Forall_reverse.
  eapply Forall_impl; [apply digits_le_range; lia|]. simpl. apply nibble_wordy.
Qed.

Lemma encode_hex_wordy l : Forall is_byte l -> wordy (encode_hex l).
Proof.
  unfold wordy. induction 1 as [|b l Hb _ IH]; simpl; [constructor|]. unfold is_byte in Hb.
  constructor; [|constructor; [|done]]; apply nibble_wordy.
  - split; [apply Z.div_pos; lia|apply Z.div_lt_upper_bound; lia].
  - apply Z.mod_pos_bound. lia.
Qed.

(** ** Splits undo joins *)

Lemma split_char_none c l : c ∉ l -> split_char c l = [l].
Proof.
  induction l as [|x l IH]; intros Hn; [done|]. simpl.
  rewrite (proj2 (Z.eqb_neq x c)) by set_solver. rewrite IH by set_solver. done.
Qed.

Lemma split_char_app c p l : c ∉ p -> split_char c (p ++ c :: l) = p :: split_char c l.
Proof.
  induction p as [|x p IH]; intros Hn; simpl; [by rewrite Z.eqb_refl|].
  rewrite (proj2 (Z.eqb_neq x c)) by set_solver. rewrite IH by set_solver. done.
Qed.

Lemma split_once_app c p l : c ∉ p -> split_once c (p ++ c :: l) = Some (p, l).
Proof.
  induction p as [|x p IH]; intros Hn; simpl; [by rewrite Z.eqb_refl|].
  rewrite (proj2 (Z.eqb_neq x c)) by set_solver. rewrite IH by set_solver. done.
Qed.

Lemma rsplit_once_none c pat l : c ∉ l -> rsplit_once (c :: pat) l = None.
Proof.
  induction l as [|x l IH]; intros Hn; [done|]. simpl. rewrite IH by set_solver.
  rewrite bool_decide_eq_false_2; [done|]. intros [= -> _]. set_solver.
Qed.

Lemma rsplit_once_app c pat a b :
  c ∉ pat -> c ∉ b -> rsplit_once (c :: pat) (a ++ (c :: pat) ++ b) = Some (a, b).
Proof.
  intros Hp Hb. induction a as [|x a IH]; simpl.
  - rewrite rsplit_once_none by set_solver.
    rewrite bool_decide_eq_true_2; [by rewrite drop_app_length|]. by rewrite take_app_length.
  - simpl in IH. by rewrite IH.
Qed.

Lemma trim_end_id l c : c <> 13 -> c <> 10 -> trim_end (l ++ [c]) = l ++ [c].
Proof.
  intros H1 H2. induction l as [|x l IH]; simpl.
  - rewrite (proj2 (Z.eqb_neq c 13)), (proj2 (Z.eqb_neq c 10)) by done. done.
  - rewrite IH. by destruct (l ++ [c]) eqn:E; [destruct l|].
Qed.

Lemma trim_end_newline l c : c <> 13 -> c <> 10 -> trim_end (l ++ [c] ++ [10]) = l ++ [c].
Proof.
  intros H1 H2. induction l as [|x l IH]; simpl.
  - rewrite (proj2 (Z.eqb_neq c 13)), (proj2 (Z.eqb_neq c 10)) by done. done.
  - simpl in IH. rewrite IH. by destruct (l ++ [c]) eqn:E; [destruct l|].
Qed.

Lemma join_with_cons c p q ps : join_with c (p :: q :: ps) = p ++ c :: join_with c (q :: ps).
Proof.
  unfold join_with. simpl. revert q. induction ps as [|x ps IH] using rev_ind; intros q; simpl; [done|].
  rewrite !foldl_app. simpl. rewrite IH. by rewrite <- app_assoc, <- app_comm_cons.
Qed.

Lemma split_join c ps :
  ps <> [] -> Forall (fun p => c ∉ p) ps -> split_char c (join_with c ps) = ps.
Proof.
  induction ps as [|p ps IH]; intros Hne Hps; [done|]. apply Forall_cons in Hps as [Hp Hps].
  destruct ps as [|q ps]; [by apply split_char_none|].
  rewrite join_with_cons, split_char_app by done. f_equal. by apply IH.
Qed.

Lemma wordy_no_space l : wordy l -> 32 ∉ l.
Proof. unfold wordy. rewrite Forall_forall. intros H Hin. destruct (H _ Hin). done. Qed.

Lemma wordy_last l : wordy l -> l <> [] -> exists h c, l = h ++ [c] /\ c <> 13 /\ c <> 10.
Proof.
  intros Hw Hne. destruct l as [|x l _] using rev_ind; [done|]. exists l, x. split; [done|].
  apply Forall_app in Hw as [_ Hw]. apply Forall_cons in Hw as [Hw _]. tauto.
Qed.

Lemma slice_bytes data off n : Forall is_byte data -> Forall is_byte (slice data off n).
Proof. intros H. unfold slice. by apply Forall_take, Forall_drop. Qed.

Lemma slice_slice data o1 n1 o2 n2 :
  (o2 + n2 <= n1)%nat -> slice (slice data o1 n1) o2 n2 = slice data (o1 + o2) n2.
Proof.
  intros H. unfold slice. rewrite skipn_firstn_comm, drop_drop, take_take.
  f_equal. lia.
Qed.

Lemma from_le_u64 data off :
  Forall is_byte data -> 0 <= from_le_bytes (slice data off 8) < 2 ^ 64.
Proof.
  intros H. pose proof (from_le_bound _ (slice_bytes data off 8 H)) as Hb.
  assert (Hl : (length (slice data off 8) <= 8)%nat) by (unfold slice; rewrite length_take; lia).
  assert (width (length (slice data off 8)) <= 2 ^ 64); [|lia].
  unfold width. change (2 ^ 64) with (256 ^ 8). apply Z.pow_le_mono_r; lia.
Qed.

(** Printable text: ASCII and no newline. *)
Definition texty (l : bytes) : Prop := Forall (fun c => 0 <= c < 128 /\ c <> 10) l.

Lemma show_dec_texty z : texty (show_dec z).
Proof.
  unfold texty, show_dec. apply Forall_fmap, drop_zeros_incl, Forall_reverse.
  eapply Forall_impl; [apply digits_le_range; lia|]. simpl. lia.
Qed.

Lemma nibble_texty v : 0 <= v < 16 -> 0 <= nibble_to_hex v < 128 /\ nibble_to_hex v <> 10.
Proof. intros. unfold nibble_to_hex. zcase; lia. Qed.

Lemma format_08x_texty z : texty (format_08x z).
Proof.
  unfold texty, format_08x. apply Forall_fmap, Forall_reverse.
  eapply Forall_impl; [apply digits_le_range; lia|]. simpl. apply nibble_texty.
Qed.

Lemma encode_hex_texty l : Forall is_byte l -> texty (encode_hex l).
Proof.
  unfold texty. induction 1 as [|b l Hb _ IH]; simpl; [constructor|]. unfold is_byte in Hb.
  constructor; [|constructor; [|done]]; apply nibble_texty.
  - split; [apply Z.div_pos; lia|apply Z.div_lt_upper_bound; lia].
  - apply Z.mod_pos_bound. lia.
Qed.

Lemma texty_app l k : texty l -> texty k -> texty (l ++ k).
Proof. intros. by apply Forall_app. Qed.

Lemma join_with_texty ps : Forall texty ps -> texty (join_with 32 ps).
Proof.
  induction 1 as [|p ps Hp Hps IH]; [constructor|]. destruct ps as [|q ps]; [done|].
  rewrite join_with_cons. apply texty_app; [done|]. constructor; [lia|done].
Qed.

Lemma join_with_prefix c p ps : exists t, join_with c (p :: ps) = p ++ t.
Proof. destruct ps as [|q ps]; [exists []; by rewrite app_nil_r|]. rewrite join_with_cons. eauto. Qed.
