(* ===== verification/SlotNode.v ===== *)
(** * Slot nodes: the lock-free per-slot cell

    Models [src/lib/crowdb-kv/src/paxos/slot_node.rs] at the granularity of its
    atomic instructions: a heap of boxes, the four atomic pointers of a
    [PxSlotNode], threads that run [cas_promised] / [cas_accepted] (with
    [push_retired] inlined where the code calls it) in any interleaving, and
    [Drop].  Addresses are integers, null is [0]; the allocator may hand out any
    address that is not live, in particular one that was freed before.

    The theorems of this file are what allows the acceptor to be modelled on
    values instead of pointers: a loaded pointer stays dereferenceable for the
    life of the node, a pointer compare-and-swap succeeds only if the field has
    not changed since it was loaded (no ABA), and dropping the node frees every
    box exactly once. *)

From stdpp Require Import prelude gmap list.
From Stdlib Require Import ZArith Lia.
From S2P Require Import Prelude Roles.

Module SlotNode.

(** The two mutable fields of a node. *)
Inductive field := FPromised | FAccepted.

#[export] Instance field_eq_dec : EqDecision field.
Proof. solve_decision. Defined.

(** What a box holds: a ballot, an entry, or a [RetiredPtr { ptr, next }]. *)
Inductive box :=
| BBallot (b : PxBallot)
| BEntry (e : PxLogEntry)
| BRetired (ptr next : Z).

Definition box_of (f : field) (x : box) : Prop :=
  match f, x with
  | FPromised, BBallot _ => True
  | FAccepted, BEntry _ => True
  | _, _ => False
  end.

Abbreviation heap := (gmap Z box).

(** One field with its retired list.  [hist] is ghost: the pointers the field
    has held, most recent first. *)
Record cell := mkCell { ptr : Z; retired : Z; hist : list Z }.

Record node := mkNode { promised : cell; accepted : cell }.

Definition cell_of (n : node) (f : field) : cell :=
  match f with FPromised => promised n | FAccepted => accepted n end.

Definition set_cell (n : node) (f : field) (c : cell) : node :=
  match f with
  | FPromised => mkNode c (accepted n)
  | FAccepted => mkNode (promised n) c
  end.

(** [PxSlotNode::default()] *)
Definition default_cell : cell := mkCell 0 0 [].
Definition default_node : node := mkNode default_cell default_cell.

(** Program counters of one thread.  [h] in [Loaded] and [HasNew] is ghost:
    the field's history at the load. *)
Inductive pc :=
| Idle
| Loaded (f : field) (p : Z) (h : list Z)
| HasNew (f : field) (expected new_ptr : Z) (h : list Z)
| FailDrop (new_ptr : Z)
| Retire (f : field) (old : Z)
| RNode (f : field) (nd old : Z)
| RLoaded (f : field) (nd old head : Z)
| RLinked (f : field) (nd old head : Z).

(** Result of the compare-and-swap of [cas_promised] / [cas_accepted] on the
    cell: the new cell and whether it succeeded. *)
Definition cas_ptr (c : cell) (expected new_ptr : Z) : cell * bool :=
  if ptr c =? expected then (mkCell new_ptr (retired c) (new_ptr :: hist c), true)
  else (c, false).

(** [push_retired] returns at once on null. *)
Definition after_cas_ok (f : field) (old : Z) : pc :=
  if old =? 0 then Idle else Retire f old.

(** The compare-and-swap of [push_retired] on the list head. *)
Definition cas_head (c : cell) (expected nd : Z) : option cell :=
  if retired c =? expected then Some (mkCell (ptr c) nd (hist c)) else None.

(** One atomic instruction of one thread. *)
Inductive tstep : heap * node * pc -> heap * node * pc -> Prop :=
| ts_load hp n f :
    tstep (hp, n, Idle) (hp, n, Loaded f (ptr (cell_of n f)) (hist (cell_of n f)))
| ts_return hp n f p h :
    tstep (hp, n, Loaded f p h) (hp, n, Idle)
| ts_box_new hp n f p h v a :
    a <> 0 -> hp !! a = None -> box_of f v ->
    tstep (hp, n, Loaded f p h) (<[a := v]> hp, n, HasNew f p a h)
| ts_cas_ok hp n f p a h c :
    cas_ptr (cell_of n f) p a = (c, true) ->
    tstep (hp, n, HasNew f p a h) (hp, set_cell n f c, after_cas_ok f p)
| ts_cas_err hp n f p a h c :
    cas_ptr (cell_of n f) p a = (c, false) ->
    tstep (hp, n, HasNew f p a h) (hp, n, FailDrop a)
| ts_free_new hp n a :
    is_Some (hp !! a) ->
    tstep (hp, n, FailDrop a) (delete a hp, n, Idle)
| ts_box_retired hp n f old a :
    a <> 0 -> hp !! a = None ->
    tstep (hp, n, Retire f old) (<[a := BRetired old 0]> hp, n, RNode f a old)
| ts_load_head hp n f nd old :
    tstep (hp, n, RNode f nd old) (hp, n, RLoaded f nd old (retired (cell_of n f)))
| ts_write_next hp n f nd old top :
    is_Some (hp !! nd) ->
    tstep (hp, n, RLoaded f nd old top) (<[nd := BRetired old top]> hp, n, RLinked f nd old top)
| ts_push_ok hp n f nd old top c :
    cas_head (cell_of n f) top nd = Some c ->
    tstep (hp, n, RLinked f nd old top) (hp, set_cell n f c, Idle)
| ts_push_err hp n f nd old top :
    cas_head (cell_of n f) top nd = None ->
    tstep (hp, n, RLinked f nd old top) (hp, n, RNode f nd old).

Record state := mkState { mem : heap; nd : node; threads : list pc }.

Inductive step : state -> state -> Prop :=
| step_thread hp n t1 k t2 hp' n' k' :
    tstep (hp, n, k) (hp', n', k') ->
    step (mkState hp n (t1 ++ k :: t2)) (mkState hp' n' (t1 ++ k' :: t2)).

(** A fresh node shared by [count] threads, none of them inside an operation. *)
Definition init (count : nat) : state := mkState ∅ default_node (replicate count Idle).

Inductive reachable (count : nat) : state -> Prop :=
| reach_init : reachable count (init count)
| reach_step s s' : reachable count s -> step s s' -> reachable count s'.

(** [drop(Box::from_raw(p))]; [None] is a free of an address that is not live. *)
Definition free (hp : heap) (p : Z) : option heap :=
  match hp !! p with Some _ => Some (delete p hp) | None => None end.

Definition free_nonnull (hp : heap) (p : Z) : option heap :=
  if p =? 0 then Some hp else free hp p.

(** [drain_retired]; the loop runs once per list node, so the number of live
    boxes bounds it.  [None] is an invalid access or free, or no fuel. *)
Fixpoint drain_retired (fuel : nat) (hp : heap) (hd : Z) : option heap :=
  if hd =? 0 then Some hp else
  match fuel with
  | O => None
  | S fuel =>
      match hp !! hd with
      | Some (BRetired p next) =>
          match free_nonnull hp p with
          | Some hp1 =>
              match free hp1 hd with
              | Some hp2 => drain_retired fuel hp2 next
              | None => None
              end
          | None => None
          end
      | _ => None
      end
  end.

(** [impl Drop for PxSlotNode] *)
Definition drop (hp : heap) (n : node) : option heap :=
  match free_nonnull hp (ptr (promised n)) with
  | None => None
  | Some hp1 =>
  match free_nonnull hp1 (ptr (accepted n)) with
  | None => None
  | Some hp2 =>
  match drain_retired (size hp) hp2 (retired (promised n)) with
  | None => None
  | Some hp3 => drain_retired (size hp) hp3 (retired (accepted n))
  end end end.

(** ** Invariant *)

(** Linked list of retired nodes starting at [hd]: pairs (node, pointee). *)
Fixpoint chain (hp : heap) (hd : Z) (l : list (Z * Z)) : Prop :=
  match l with
  | [] => hd = 0
  | (a, p) :: l => hd = a /\ a <> 0 /\ exists next, hp !! a = Some (BRetired p next) /\ chain hp next l
  end.

(** Boxes only this thread can reach. *)
Definition private (k : pc) : list Z :=
  match k with
  | HasNew _ _ a _ | FailDrop a => [a]
  | RNode _ nd _ | RLoaded _ nd _ _ | RLinked _ nd _ _ => [nd]
  | _ => []
  end.

(** The replaced pointer of field [f] this thread still has to retire. *)
Definition pending (f : field) (k : pc) : list Z :=
  match k with
  | Retire g old | RNode g _ old | RLoaded g _ old _ | RLinked g _ old _ =>
      if decide (f = g) then [old] else []
  | _ => []
  end.

Definition thread_ok (hp : heap) (n : node) (k : pc) : Prop :=
  match k with
  | Loaded f p h | HasNew f p _ h =>
      p = hd 0 h /\ (exists newer, hist (cell_of n f) = newer ++ h) /\
      (forall a, a ∈ private k -> exists v, hp !! a = Some v /\ box_of f v)
  | RNode _ nd old | RLoaded _ nd old _ => exists x, hp !! nd = Some (BRetired old x)
  | RLinked _ nd old hd => hp !! nd = Some (BRetired old hd)
  | _ => True
  end.

Definition field_ok (s : state) (f : field) (l : list (Z * Z)) : Prop :=
  ptr (cell_of (nd s) f) = hd 0 (hist (cell_of (nd s) f)) /\
  chain (mem s) (retired (cell_of (nd s) f)) l /\
  tail (hist (cell_of (nd s) f)) ≡ₚ l.*2 ++ concat (pending f <$> threads s) /\
  (forall a, a ∈ hist (cell_of (nd s) f) -> exists v, mem s !! a = Some v /\ box_of f v).

(** [ls f] lists the retired chain of field [f]; every live box has exactly one
    owner: a field's history, a retired chain, or a thread. *)
Record inv_with (s : state) (ls : field -> list (Z * Z)) : Prop := {
  inv_live : hist (promised (nd s)) ++ hist (accepted (nd s))
               ++ (ls FPromised).*1 ++ (ls FAccepted).*1
               ++ concat (private <$> threads s) ≡ₚ elements (dom (mem s));
  inv_null : mem s !! 0 = None;
  inv_fields : forall f, field_ok s f (ls f);
  inv_threads : Forall (thread_ok (mem s) (nd s)) (threads s);
}.

Definition inv (s : state) : Prop := exists ls, inv_with s ls.

(** ** Preservation *)

Lemma chain_frame hp hp' hd l :
  (forall a, a ∈ l.*1 -> hp' !! a = hp !! a) -> chain hp hd l -> chain hp' hd l.
Proof.
  revert hd. induction l as [|[a p] l IH]; intros hd Hag; simpl; [done|].
  intros (-> & Hne & next & Hlk & Hch). split_and!; [done..|]. exists next. split.
  - rewrite Hag; [done|set_solver].
  - apply IH; [|done]. intros x Hx. apply Hag. set_solver.
Qed.

Lemma thread_ok_frame hp hp' n n' k :
  (forall a, a ∈ private k -> hp' !! a = hp !! a) ->
  (forall f, exists newer, hist (cell_of n' f) = newer ++ hist (cell_of n f)) ->
  thread_ok hp n k -> thread_ok hp' n' k.
Proof.
  intros Hag Hh. assert (Hgrow : forall f h, (exists nw, hist (cell_of n f) = nw ++ h) ->
    exists nw, hist (cell_of n' f) = nw ++ h).
  { intros f h [nw E]. destruct (Hh f) as [nw' ->]. rewrite E. exists (nw' ++ nw).
    by rewrite app_assoc. }
  destruct k; simpl in *; try done.
  - intros (-> & ? & ?). split_and!; auto. set_solver.
  - intros (-> & ? & Hp). split_and!; auto. intros a Ha. rewrite Hag by done. auto.
  - rewrite Hag by set_solver. done.
  - rewrite Hag by set_solver. done.
  - rewrite Hag by set_solver. done.
Qed.

Lemma inv_NoDup s ls : inv_with s ls ->
  NoDup (hist (promised (nd s)) ++ hist (accepted (nd s))
         ++ (ls FPromised).*1 ++ (ls FAccepted).*1 ++ concat (private <$> threads s)).
Proof. intros H. rewrite (inv_live _ _ H). apply NoDup_elements. Qed.

Lemma inv_owned s ls a : inv_with s ls ->
  (a ∈ hist (promised (nd s)) ++ hist (accepted (nd s))
         ++ (ls FPromised).*1 ++ (ls FAccepted).*1 ++ concat (private <$> threads s))
  <-> is_Some (mem s !! a).
Proof.
  intros H. rewrite (inv_live _ _ H), elem_of_elements, elem_of_dom. done.
Qed.

Lemma fmap_mid {B} (g : pc -> list B) t1 k t2 :
  concat (g <$> t1 ++ k :: t2) ≡ₚ g k ++ concat (g <$> t1) ++ concat (g <$> t2).
Proof. rewrite fmap_app, concat_app. simpl. solve_Permutation. Qed.

(** The boxes that are not private to thread [k]. *)
Definition shared (n : node) (ls : field -> list (Z * Z)) (t1 t2 : list pc) : list Z :=
  hist (promised n) ++ hist (accepted n) ++ (ls FPromised).*1 ++ (ls FAccepted).*1
    ++ concat (private <$> t1) ++ concat (private <$> t2).

Lemma inv_shared hp n t1 k t2 ls :
  inv_with (mkState hp n (t1 ++ k :: t2)) ls ->
  private k ++ shared n ls t1 t2 ≡ₚ elements (dom hp).
Proof.
  intros Hinv. rewrite <- (inv_live _ _ Hinv). simpl. rewrite fmap_mid.
  unfold shared. solve_Permutation.
Qed.

Lemma shared_frame hp n t1 k t2 ls (hp' : heap) a :
  inv_with (mkState hp n (t1 ++ k :: t2)) ls ->
  (forall a, a ∉ private k -> is_Some (hp !! a) -> hp' !! a = hp !! a) ->
  a ∈ shared n ls t1 t2 -> hp' !! a = hp !! a.
Proof.
  intros Hinv Hag Ha. pose proof (inv_shared _ _ _ _ _ _ Hinv) as Hp.
  pose proof (NoDup_elements (dom hp)) as Hnd. rewrite <- Hp in Hnd.
  apply NoDup_app in Hnd as (_ & Hdisj & _). apply Hag; [naive_solver|].
  apply elem_of_dom, elem_of_elements. rewrite <- Hp. apply elem_of_app. by right.
Qed.

Lemma hist_shared n ls t1 t2 f a : a ∈ hist (cell_of n f) -> a ∈ shared n ls t1 t2.
Proof. unfold shared. rewrite !elem_of_app. destruct f; simpl; tauto. Qed.

Lemma chain_shared n ls t1 t2 f a : a ∈ (ls f).*1 -> a ∈ shared n ls t1 t2.
Proof. unfold shared. rewrite !elem_of_app. destruct f; simpl; tauto. Qed.

Lemma private_shared n ls t1 t2 k a :
  k ∈ t1 ++ t2 -> a ∈ private k -> a ∈ shared n ls t1 t2.
Proof.
  intros Hk Ha. unfold shared. do 4 (apply elem_of_app; right).
  rewrite <- concat_app, <- fmap_app. apply list_elem_of_In, in_concat.
  exists (private k). split; apply list_elem_of_In; [|done]. by apply list_elem_of_fmap_2.
Qed.

(** A step that touches only the boxes of its own thread. *)
Lemma inv_local hp n t1 k t2 ls (hp' : heap) k' :
  inv_with (mkState hp n (t1 ++ k :: t2)) ls ->
  (forall f, pending f k' = pending f k) ->
  thread_ok hp' n k' ->
  hp' !! 0 = None ->
  (forall a, a ∉ private k -> is_Some (hp !! a) -> hp' !! a = hp !! a) ->
  (forall rest, private k ++ rest ≡ₚ elements (dom hp) ->
     private k' ++ rest ≡ₚ elements (dom hp')) ->
  inv_with (mkState hp' n (t1 ++ k' :: t2)) ls.
Proof.
  intros Hinv Hpend Hk' H0 Hag Hdom.
  pose proof (fun a => shared_frame _ _ _ _ _ _ hp' a Hinv Hag) as Hfr.
  pose proof (Hdom _ (inv_shared _ _ _ _ _ _ Hinv)) as Hlive.
  destruct Hinv as [_ _ Hf Ht]. simpl in *. split; simpl.
  - rewrite fmap_mid, <- Hlive. unfold shared. solve_Permutation.
  - done.
  - intros f. destruct (Hf f) as (Hptr & Hch & Htl & Hval). simpl in *. split_and!; simpl.
    + done.
    + eapply chain_frame; [|done]. eauto using chain_shared.
    + rewrite Htl, !fmap_mid, Hpend. done.
    + intros a Ha. rewrite Hfr; eauto using hist_shared.
  - rewrite Forall_app, Forall_cons in *. destruct Ht as (H1 & Hk & H2).
    assert (forall g, exists newer, hist (cell_of n g) = newer ++ hist (cell_of n g)) by (intros; by exists []).
    split_and!; [| done |]; rewrite Forall_forall in *; intros j Hj;
      (eapply thread_ok_frame; [|done|by auto]); intros; apply Hfr;
      eapply private_shared; [|done| |done]; set_solver.
Qed.

Lemma cell_of_set n f c g :
  cell_of (set_cell n f c) g = if decide (g = f) then c else cell_of n g.
Proof. destruct f, g; done. Qed.

Lemma hist_nonnull s ls f : inv_with s ls -> 0 ∉ hist (cell_of (nd s) f).
Proof.
  intros [_ Hn Hf _] Hin. destruct (Hf f) as (_ & _ & _ & Hv).
  destruct (Hv _ Hin) as (v & Hv' & _). congruence.
Qed.

(** A successful field CAS: the new box moves from the thread to the history. *)
Lemma inv_cas_ok hp n t1 f p a h t2 ls :
  inv_with (mkState hp n (t1 ++ HasNew f p a h :: t2)) ls ->
  ptr (cell_of n f) = p ->
  inv_with (mkState hp (set_cell n f
     (mkCell a (retired (cell_of n f)) (a :: hist (cell_of n f))))
     (t1 ++ after_cas_ok f p :: t2)) ls.
Proof.
  intros Hinv Hp. pose proof (hist_nonnull _ _ f Hinv) as Hnn. simpl in Hnn.
  destruct Hinv as [Hlive Hnull Hf Ht]. simpl in *.
  set (n' := set_cell _ _ _). set (k' := after_cas_ok f p).
  rewrite Forall_app, Forall_cons in Ht. destruct Ht as (H1 & Hk & H2).
  assert (Hgrow : forall g, exists nw, hist (cell_of n' g) = nw ++ hist (cell_of n g)).
  { intros g. unfold n'. rewrite cell_of_set. case_decide; subst; [by exists [a]|by exists []]. }
  assert (Hpriv : private k' = []) by (unfold k', after_cas_ok; destruct (p =? 0); done).
  split; simpl.
  - rewrite <- Hlive, !fmap_mid, Hpriv. unfold n'. destruct f; simpl; solve_Permutation.
  - done.
  - intros g. destruct (Hf g) as (Hptr & Hch & Htl & Hval). unfold field_ok. simpl in *.
    rewrite fmap_mid in Htl. simpl in Htl. unfold n'. rewrite cell_of_set, fmap_mid.
    unfold k', after_cas_ok. case_decide; try subst g; simpl; split_and!; try done.
    + destruct (hist (cell_of n f)) as [|x xs] eqn:Eh; simpl in *.
      * rewrite Hptr in Hp. subst p. simpl. done.
      * assert (x = p) as -> by congruence. destruct (Z.eqb_spec p 0); [set_solver|].
        simpl. rewrite decide_True by done. rewrite Htl. solve_Permutation.
    + intros x [->|Hx]%elem_of_cons; [|auto]. destruct Hk as (_ & _ & Hk). apply Hk. set_solver.
    + rewrite Htl. destruct (p =? 0); simpl; [done|]. by rewrite decide_False.
  - rewrite Forall_app, Forall_cons, !Forall_forall in *. split_and!.
    + intros j Hj. eapply thread_ok_frame; eauto.
    + unfold k', after_cas_ok. destruct (p =? 0); done.
    + intros j Hj. eapply thread_ok_frame; eauto.
Qed.

(** A successful push: the retired node moves from the thread to the chain. *)
Lemma inv_push_ok hp n t1 f a old hd0 t2 ls :
  inv_with (mkState hp n (t1 ++ RLinked f a old hd0 :: t2)) ls ->
  retired (cell_of n f) = hd0 ->
  inv_with (mkState hp (set_cell n f
     (mkCell (ptr (cell_of n f)) a (hist (cell_of n f)))) (t1 ++ Idle :: t2))
    (fun g => if decide (g = f) then (a, old) :: ls g else ls g).
Proof.
  intros [Hlive Hnull Hf Ht] Hh. simpl in *. set (n' := set_cell _ _ _).
  rewrite Forall_app, Forall_cons in Ht. destruct Ht as (H1 & Hk & H2). simpl in Hk.
  assert (Hhist : forall g, hist (cell_of n' g) = hist (cell_of n g)).
  { intros g. unfold n'. rewrite cell_of_set. by case_decide; subst. }
  assert (Hgrow : forall g, exists nw, hist (cell_of n' g) = nw ++ hist (cell_of n g)).
  { intros g. exists []. apply Hhist. }
  split; simpl.
  - pose proof (Hhist FPromised) as Ep. pose proof (Hhist FAccepted) as Ea. simpl in Ep, Ea.
    rewrite <- Hlive, !fmap_mid, Ep, Ea. destruct f; simpl; solve_Permutation.
  - done.
  - intros g. destruct (Hf g) as (Hptr & Hch & Htl & Hval). unfold field_ok. simpl in *.
    rewrite fmap_mid in Htl. simpl in Htl. rewrite Hhist, fmap_mid. unfold n'.
    rewrite cell_of_set. case_decide; try subst g; simpl; split_and!; try done.
    + intros ->. congruence.
    + exists hd0. subst hd0. done.
    + rewrite Htl. solve_Permutation.
  - rewrite Forall_app, Forall_cons, !Forall_forall in *. split_and!; [|done|];
      intros j Hj; eapply thread_ok_frame; eauto.
Qed.

Lemma elements_insert_fresh (hp : heap) a v :
  hp !! a = None -> elements (dom (<[a:=v]> hp)) ≡ₚ a :: elements (dom hp).
Proof.
  intros Hn. rewrite dom_insert_L. apply elements_union_singleton. by apply not_elem_of_dom.
Qed.

Lemma elements_delete_live (hp : heap) a :
  is_Some (hp !! a) -> elements (dom hp) ≡ₚ a :: elements (dom (delete a hp)).
Proof.
  intros [v Hv]. rewrite <- (insert_delete_id hp a v Hv) at 1.
  apply elements_insert_fresh, lookup_delete_eq.
Qed.

Lemma step_inv s s' : inv s -> step s s' -> inv s'.
Proof.
  intros [ls Hinv] Hstep. destruct Hstep as [hp n t1 k t2 hp' n' k' Ht].
  pose proof (inv_threads _ _ Hinv) as Hk. simpl in Hk.
  rewrite Forall_app, Forall_cons in Hk. destruct Hk as (_ & Hk & _).
  pose proof (inv_null _ _ Hinv) as Hnull. simpl in Hnull.
  inv Ht.
  - exists ls. eapply inv_local; try done. destruct (inv_fields _ _ Hinv f) as (Hp & _).
    simpl in *. split_and!; [done|by exists []|set_solver].
  - exists ls. eapply inv_local; try done.
  - exists ls. destruct Hk as (Hp & Hh & _). eapply inv_local; try done.
    + simpl. split_and!; [done..|]. intros x Hx. assert (x = a) as -> by set_solver.
      exists v. by rewrite lookup_insert_eq.
    + by rewrite lookup_insert_ne.
    + intros x _ [? Hx]. rewrite lookup_insert_ne; congruence.
    + intros rest Hr. simpl in *. by rewrite elements_insert_fresh, <- Hr.
  - exists ls. unfold cas_ptr in *. destruct (Z.eqb_spec (ptr (cell_of n f)) p); simplify_eq.
    by apply inv_cas_ok with (h := h).
  - exists ls. eapply inv_local; try done.
  - exists ls. eapply inv_local; try done.
    + apply lookup_delete_None. by right.
    + intros x Hx _. apply lookup_delete_ne. set_solver.
    + intros rest Hr. simpl in *. rewrite (elements_delete_live _ a) in Hr by done.
      by apply Permutation_cons_inv in Hr.
  - exists ls. eapply inv_local; try done.
    + simpl. exists 0. by rewrite lookup_insert_eq.
    + by rewrite lookup_insert_ne.
    + intros x _ [? Hx]. rewrite lookup_insert_ne; congruence.
    + intros rest Hr. simpl in *. by rewrite elements_insert_fresh, <- Hr.
  - exists ls. eapply inv_local; try done.
  - exists ls. eapply inv_local; try done.
    + simpl. by rewrite lookup_insert_eq.
    + rewrite lookup_insert_ne; [done|]. intros ->. destruct Hk. congruence.
    + intros x Hx _. rewrite lookup_insert_ne; [done|set_solver].
    + intros rest Hr. simpl in *. rewrite dom_insert_lookup_L by done. done.
  - unfold cas_head in *. destruct (Z.eqb_spec (retired (cell_of n f)) top); simplify_eq.
    eexists. by eapply inv_push_ok.
  - exists ls. eapply inv_local; try done. simpl in *. by exists top.
Qed.

Lemma init_inv count : inv (init count).
Proof.
  assert (Hc : forall B (g : pc -> list B), g Idle = [] -> concat (g <$> replicate count Idle) = []).
  { intros B g Hg. induction count as [|c IH]; simpl; [done|]. by rewrite Hg. }
  exists (fun _ => []). split; simpl.
  - rewrite Hc by done. rewrite dom_empty_L, elements_empty. done.
  - done.
  - intros f. unfold field_ok. simpl. rewrite Hc by done.
    destruct f; simpl; split_and!; try done; set_solver.
  - apply Forall_replicate. done.
Qed.

Lemma reachable_inv count s : reachable count s -> inv s.
Proof. induction 1; eauto using init_inv, step_inv. Qed.

(** ** Drop *)

(** [frees hp l hp']: [hp'] is [hp] without exactly the boxes at [l]. *)
Definition frees (hp : heap) (l : list Z) (hp' : heap) : Prop :=
  (forall a, a ∈ l -> hp' !! a = None) /\ (forall a, a ∉ l -> hp' !! a = hp !! a).

Lemma frees_nil hp : frees hp [] hp.
Proof. split; [set_solver|done]. Qed.

Lemma frees_one hp a : frees hp [a] (delete a hp).
Proof.
  split; intros x Hx.
  - assert (x = a) as -> by set_solver. apply lookup_delete_eq.
  - apply lookup_delete_ne. set_solver.
Qed.

Lemma frees_app hp l hp1 k hp2 : frees hp l hp1 -> frees hp1 k hp2 -> frees hp (l ++ k) hp2.
Proof.
  intros [L1 L2] [K1 K2]. split; intros a Ha; rewrite elem_of_app in Ha.
  - destruct (decide (a ∈ k)); [auto|]. rewrite K2 by done. apply L1. tauto.
  - rewrite K2, L2; tauto.
Qed.

Lemma frees_perm hp l k hp' : l ≡ₚ k -> frees hp l hp' -> frees hp k hp'.
Proof. intros E [H1 H2]. split; intros a; rewrite <- E; auto. Qed.

(** Draining a chain whose nodes and pointees are live and distinct frees
    exactly them. *)
Lemma drain_retired_spec fuel hp hd0 l :
  (length l <= fuel)%nat -> chain hp hd0 l -> hp !! 0 = None ->
  NoDup (l.*1 ++ l.*2) -> (forall a, a ∈ l.*2 -> is_Some (hp !! a)) ->
  exists hp', drain_retired fuel hp hd0 = Some hp' /\ frees hp (l.*1 ++ l.*2) hp'.
Proof.
  revert fuel hp hd0. induction l as [|[x p] l IH]; intros fuel hp hd0 Hlen Hch H0 Hnd Hlive.
  { simpl in *. subst hd0. exists hp. split; [destruct fuel; done|apply frees_nil]. }
  destruct fuel as [|fuel]; simpl in Hlen; [lia|].
  destruct Hch as (-> & Hx & next & Hlk & Hch). simpl.
  rewrite (proj2 (Z.eqb_neq x 0) Hx), Hlk. unfold free_nonnull, free.
  simpl in Hnd. apply NoDup_cons in Hnd as (Hx' & Hnd).
  rewrite <- Permutation_middle in Hnd. apply NoDup_cons in Hnd as (Hp' & Hnd).
  destruct (Hlive p) as [v Hv]; [set_solver|].
  destruct (Z.eqb_spec p 0) as [->|_]; [congruence|]. rewrite Hv.
  assert (Hpx : p <> x) by (intros ->; apply Hx'; set_solver).
  rewrite lookup_delete_ne, Hlk by done.
  assert (Hfr : frees hp ([p] ++ [x]) (delete x (delete p hp)))
    by (eapply frees_app; apply frees_one).
  assert (Hout : forall a, a ∈ l.*1 ++ l.*2 -> delete x (delete p hp) !! a = hp !! a).
  { intros a Ha. apply Hfr. intros [->| ->%list_elem_of_singleton]%elem_of_cons; [done|].
    apply Hx'. rewrite elem_of_app in *. set_solver. }
  destruct (IH fuel (delete x (delete p hp)) next) as (hp' & -> & Hres).
  - lia.
  - eapply chain_frame; [|done]. intros a Ha. apply Hout, elem_of_app. by left.
  - rewrite (proj2 Hfr); [done|]. intros Hin. assert (0 = p) by set_solver. congruence.
  - done.
  - intros a Ha. rewrite Hout by (apply elem_of_app; by right). apply Hlive. set_solver.
  - exists hp'. split; [done|]. eapply frees_perm, (frees_app _ _ _ _ _ Hfr Hres).
    simpl. solve_Permutation.
Qed.

(** Freeing a field's current box. *)
Lemma free_nonnull_spec (hp : heap) l :
  (forall a, a ∈ l -> is_Some (hp !! a)) -> hp !! 0 = None ->
  exists hp', free_nonnull hp (hd 0 l) = Some hp' /\ frees hp (take 1 l) hp'.
Proof.
  intros Hl H0. unfold free_nonnull, free. destruct l as [|p l]; simpl.
  { exists hp. split; [done|apply frees_nil]. }
  destruct (Hl p) as [v Hv]; [set_solver|]. rewrite Hv.
  destruct (Z.eqb_spec p 0) as [->|_]; [congruence|]. rewrite take_0.
  eexists. split; [done|apply frees_one].
Qed.

Lemma frees_all hp l hp' : l ≡ₚ elements (dom hp) -> frees hp l hp' -> hp' = ∅.
Proof.
  intros E [H1 H2]. apply map_eq. intros a. rewrite lookup_empty.
  destruct (decide (a ∈ l)) as [|Hn]; [auto|]. rewrite H2 by done.
  apply not_elem_of_dom. rewrite <- elem_of_elements, <- E. done.
Qed.

Lemma idle_concat {B} (g : pc -> list B) ts :
  g Idle = [] -> Forall (eq Idle) ts -> concat (g <$> ts) = [].
Proof. intros Hg. induction 1 as [|k t <- _ IH]; simpl; [done|]. by rewrite Hg. Qed.

Lemma frees_frame hp pre seg post hp' a :
  NoDup (pre ++ seg ++ post) -> frees hp pre hp' -> a ∈ seg -> hp' !! a = hp !! a.
Proof.
  intros (_ & Hd & _)%NoDup_app [_ H] Ha. apply H. intros Hp. apply (Hd a Hp).
  apply elem_of_app. by left.
Qed.

Section drop_quiescent.
Context (hp : heap) (n : node) (P A : list Z) (lp la : list (Z * Z)).
Context (HpP : ptr (promised n) = hd 0 P) (HpA : ptr (accepted n) = hd 0 A).
Context (Hlive : P ++ A ++ lp.*1 ++ la.*1 ≡ₚ elements (dom hp)).
Context (Htp : tail P ≡ₚ lp.*2) (Hta : tail A ≡ₚ la.*2).
Context (Hcp : chain hp (retired (promised n)) lp) (Hca : chain hp (retired (accepted n)) la).
Context (H0 : hp !! 0 = None).

Lemma owned_split :
  take 1 P ++ take 1 A ++ (lp.*1 ++ lp.*2) ++ (la.*1 ++ la.*2) ≡ₚ elements (dom hp).
Proof.
  rewrite <- Hlive, <- Htp, <- Hta. clear. destruct P, A; simpl; rewrite ?take_0; solve_Permutation.
Qed.

Lemma drop_frees_all : drop hp n = Some ∅.
Proof.
  pose proof owned_split as E. pose proof (NoDup_elements (dom hp)) as Hnd.
  rewrite <- E in Hnd.
  set (S1 := take 1 P) in *. set (S2 := take 1 A) in *.
  set (S3 := lp.*1 ++ lp.*2) in *. set (S4 := la.*1 ++ la.*2) in *.
  assert (Hin : forall a, a ∈ S1 ++ S2 ++ S3 ++ S4 -> is_Some (hp !! a))
    by (intros a; rewrite E, elem_of_elements, elem_of_dom; done).
  assert (Hz : forall l hp', frees hp l hp' -> hp' !! 0 = None).
  { intros l hp' [F1 F2]. destruct (decide (0 ∈ l)); [auto|]. by rewrite F2. }
  assert (Hsz : (length lp <= size hp /\ length la <= size hp)%nat).
  { rewrite <- size_dom. unfold size, set_size. simpl.
    rewrite <- E. unfold S3, S4. rewrite !length_app, !length_fmap. lia. }
  setoid_rewrite elem_of_app in Hin. setoid_rewrite elem_of_app in Hin.
  setoid_rewrite elem_of_app in Hin.
  unfold drop. rewrite HpP, HpA.
  destruct (free_nonnull_spec hp P) as (hp1 & -> & F1); [|done|].
  { intros a Ha. rewrite <- elem_of_dom, <- elem_of_elements, <- Hlive, elem_of_app. by left. }
  assert (hd 0 A = hd 0 S2) as -> by (unfold S2; destruct A; done).
  destruct (free_nonnull_spec hp1 S2) as (hp2 & -> & F2); [|by eauto|].
  { intros a Ha. rewrite (frees_frame _ _ _ _ _ _ Hnd F1) by done. auto. }
  unfold S2 in F2. rewrite take_take in F2. fold S1 in F1. change (take (1 `min` 1) A) with S2 in F2.
  pose proof (frees_app _ _ _ _ _ F1 F2) as F12. rewrite app_assoc in Hnd.
  assert (Hnd34 := proj2 (proj2 (proj1 (NoDup_app _ _) Hnd))).
  apply NoDup_app in Hnd34 as (N3 & _ & N4).
  pose proof (fun a => frees_frame _ _ _ _ _ a Hnd F12) as Fr3.
  destruct (drain_retired_spec (size hp) hp2 (retired (promised n)) lp) as (hp3 & -> & F3);
    [tauto| |by eauto|done| |].
  { eapply chain_frame; [|done]. intros a Ha. apply Fr3, elem_of_app. by left. }
  { intros a Ha. assert (a ∈ S3) by (apply elem_of_app; by right). rewrite Fr3; auto. }
  pose proof (frees_app _ _ _ _ _ F12 F3) as F123.
  assert (Hnd' : NoDup ((((S1 ++ S2) ++ S3)) ++ S4 ++ [])) by (by rewrite app_nil_r, <- app_assoc).
  pose proof (fun a => frees_frame _ _ _ _ _ a Hnd' F123) as Fr4.
  destruct (drain_retired_spec (size hp) hp3 (retired (accepted n)) la) as (hp4 & -> & F4);
    [tauto| |by eauto|done| |].
  { eapply chain_frame; [|done]. intros a Ha. apply Fr4, elem_of_app. by left. }
  { intros a Ha. assert (a ∈ S4) by (apply elem_of_app; by right). rewrite Fr4; auto. }
  f_equal. eapply frees_all, (frees_app _ _ _ _ _ F123 F4).
  rewrite <- E. solve_Permutation.
Qed.
End drop_quiescent.

(** ** Properties *)

Lemma hd_suffix_eq (newer h : list Z) :
  NoDup (newer ++ h) -> 0 ∉ newer ++ h -> hd 0 (newer ++ h) = hd 0 h -> newer = [].
Proof.
  destruct newer as [|x nw]; [done|]. simpl. intros [Hx _]%NoDup_cons Hz E.
  destruct h as [|y h]; simpl in E; subst; exfalso; set_solver.
Qed.

(** In every interleaving, a pointer a thread has loaded from [promised] or
    [accepted] is null or still addresses a box of the field's type, and when
    the compare-and-swap that expects it would succeed, the field has not been
    written since the load: pointer comparison has no ABA. *)
Theorem slot_node_pointers_safe count s f p h :
  reachable count s ->
  (Loaded f p h ∈ threads s ->
     p = 0 \/ exists v, mem s !! p = Some v /\ box_of f v) /\
  (forall a, HasNew f p a h ∈ threads s ->
     (cas_ptr (cell_of (nd s) f) p a).2 = true -> hist (cell_of (nd s) f) = h).
Proof.
  intros [ls Hinv]%reachable_inv. pose proof (inv_NoDup _ _ Hinv) as Hnd.
  pose proof (hist_nonnull _ _ f Hinv) as Hz.
  assert (Hnf : NoDup (hist (cell_of (nd s) f))).
  { apply NoDup_app in Hnd as (? & _ & Hnd). apply NoDup_app in Hnd as (? & _ & _).
    destruct f; done. }
  destruct Hinv as [_ _ Hf Ht]. destruct (Hf f) as (Hp & _ & _ & Hv). rewrite Forall_forall in Ht.
  split.
  - intros (-> & [nw E] & _)%Ht. destruct h as [|x h]; simpl; [auto|].
    right. apply Hv. rewrite E. set_solver.
  - intros a (-> & [nw E] & _)%Ht. unfold cas_ptr.
    destruct (Z.eqb_spec (ptr (cell_of (nd s) f)) (hd 0 h)) as [Ec|]; [|done]. intros _.
    rewrite E in *. rewrite (hd_suffix_eq nw h); [done..|]. congruence.
Qed.

(** Once no operation is in flight, dropping the node frees every box that
    was ever allocated for it and is still live, each exactly once and none
    that is not live, and leaves nothing behind. *)
Theorem slot_node_drop_exact count s :
  reachable count s -> Forall (eq Idle) (threads s) -> drop (mem s) (nd s) = Some ∅.
Proof.
  intros [ls Hinv]%reachable_inv Hq. destruct Hinv as [Hlive H0 Hf _].
  destruct (Hf FPromised) as (Hp & Hpc & Hpt & Hpv), (Hf FAccepted) as (Ha & Hac & Hat & Hav).
  rewrite (idle_concat _ _ eq_refl Hq), app_nil_r in Hpt.
  rewrite (idle_concat _ _ eq_refl Hq), app_nil_r in Hat.
  rewrite (idle_concat _ _ eq_refl Hq), app_nil_r in Hlive. simpl in *.
  eapply drop_frees_all with (P := hist (promised (nd s))) (A := hist (accepted (nd s)))
    (lp := ls FPromised) (la := ls FAccepted); done.
Qed.

Definition b11 : PxBallot := mkBallot 1 1.
Definition b12 : PxBallot := mkBallot 1 2.

(** Two threads race on [promised]: both load null, thread 1 publishes, thread
    0 fails and frees its box, then reloads, and the allocator reuses the
    address it freed. *)
Definition race_mid : state :=
  mkState (<[2 := BBallot b12]> (<[1 := BBallot b11]> ∅))
    (mkNode (mkCell 1 0 [1]) default_cell)
    [HasNew FPromised 1 2 [1]; Loaded FPromised 1 [1]].

Definition race_done : state :=
  mkState (<[3 := BRetired 1 0]> (<[2 := BBallot b12]> (<[1 := BBallot b11]> ∅)))
    (mkNode (mkCell 2 3 [2; 1]) default_cell) [Idle; Idle].

Lemma reach_thread count hp n t1 k t2 hp' n' k' :
  reachable count (mkState hp n (t1 ++ k :: t2)) ->
  tstep (hp, n, k) (hp', n', k') ->
  reachable count (mkState hp' n' (t1 ++ k' :: t2)).
Proof. eauto using reach_step, step_thread. Qed.

(** [fire H t1 t2 tac]: the thread between [t1] and [t2] takes the instruction
    that [tac] picks. *)
Ltac fire H t1 t2 tac :=
  let H' := fresh in
  refine ((fun H' => _) (reach_thread _ _ _ t1 _ t2 _ _ _ H _));
  [|tac; (lia || reflexivity || exact I || (vm_compute; eauto))];
  clear H; rename H' into H; vm_compute in H.

Lemma race_mid_reachable : reachable 2 race_mid.
Proof.
  pose proof (reach_init 2) as H. vm_compute in H.
  fire H (@nil pc) [Idle] ltac:(eapply (ts_load _ _ FPromised)).
  fire H [Loaded FPromised 0 []] (@nil pc) ltac:(eapply (ts_load _ _ FPromised)).
  fire H [Loaded FPromised 0 []] (@nil pc)
    ltac:(eapply (ts_box_new _ _ _ _ _ (BBallot b11) 1)).
  fire H (@nil pc) [HasNew FPromised 0 1 []]
    ltac:(eapply (ts_box_new _ _ _ _ _ (BBallot b12) 2)).
  fire H [HasNew FPromised 0 2 []] (@nil pc) ltac:(eapply ts_cas_ok).
  fire H (@nil pc) [Idle] ltac:(eapply ts_cas_err).
  fire H (@nil pc) [Idle] ltac:(eapply ts_free_new).
  fire H (@nil pc) [Idle] ltac:(eapply (ts_load _ _ FPromised)).
  fire H (@nil pc) [Idle] ltac:(eapply (ts_box_new _ _ _ _ _ (BBallot b12) 2)).
  fire H [HasNew FPromised 1 2 [1]] (@nil pc) ltac:(eapply (ts_load _ _ FPromised)).
  exact H.
Qed.

Lemma race_done_reachable : reachable 2 race_done.
Proof.
  pose proof race_mid_reachable as H. vm_compute in H.
  fire H (@nil pc) [Loaded FPromised 1 [1]] ltac:(eapply ts_cas_ok).
  fire H [Retire FPromised 1] (@nil pc) ltac:(eapply ts_return).
  fire H (@nil pc) [Idle] ltac:(eapply (ts_box_retired _ _ _ _ 3)).
  fire H (@nil pc) [Idle] ltac:(eapply ts_load_head).
  fire H (@nil pc) [Idle] ltac:(eapply ts_write_next).
  fire H (@nil pc) [Idle] ltac:(eapply ts_push_ok).
  exact H.
Qed.

Lemma slot_node_pointers_safe_witness :
  reachable 2 race_mid /\
  (1 = 0 \/ exists v, mem race_mid !! 1 = Some v /\ box_of FPromised v) /\
  hist (cell_of (nd race_mid) FPromised) = [1].
Proof.
  split; [apply race_mid_reachable|].
  destruct (slot_node_pointers_safe 2 race_mid FPromised 1 [1] race_mid_reachable) as [H1 H2].
  split.
  - apply H1. unfold race_mid. simpl. set_solver.
  - apply (H2 2); [unfold race_mid; simpl; set_solver|reflexivity].
Defined.

Lemma slot_node_drop_exact_witness :
  reachable 2 race_done /\ drop (mem race_done) (nd race_done) = Some ∅.
Proof.
  split; [apply race_done_reachable|].
  apply (slot_node_drop_exact 2 race_done race_done_reachable). repeat constructor.
Defined.

End SlotNode.
