(* ===== verification/Acceptor.v ===== *)
(** * The acceptor: per-slot promises and accepted values

    Models [src/lib/crowdb-kv/src/paxos/acceptor.rs] on values: each operation
    runs without interference, so each compare-and-swap loop body runs once.
    [SlotNode] justifies replacing pointers by values; [AcceptorConc] lifts the
    no-interference assumption.

    The properties: every operation preserves the well-formedness invariant,
    promises and accepted ballots only grow, a promise fences every lower
    accept and every repeated prepare whatever runs in between, scans return
    exactly the retained accepted entries in slot order, and reclamation cannot
    be observed. *)

From stdpp Require Import prelude gmap sorting list.
From Stdlib Require Import ZArith Lia.
From S2P Require Import Prelude Roles.

Module Acceptor.

(** The fields of [PxSlotNode] that an operation can read. *)
Record slot_state := mkSlot {
  promised : option PxBallot;
  accepted : option PxLogEntry;
}.

#[export] Instance slot_state_eq_dec : EqDecision slot_state.
Proof. solve_decision. Defined.

Definition default_slot : slot_state := mkSlot None None.

Record PxAcceptor := mkAcceptor {
  slots : gmap Z slot_state;
  trim_slot : Z;
  highest_seen_slot : Z;
}.

#[export] Instance PxAcceptor_eq_dec : EqDecision PxAcceptor.
Proof. solve_decision. Defined.

Definition new : PxAcceptor := mkAcceptor ∅ 0 0.

Definition set_slots (a : PxAcceptor) (m : gmap Z slot_state) : PxAcceptor :=
  mkAcceptor m (trim_slot a) (highest_seen_slot a).

Definition set_slot (a : PxAcceptor) (s : Z) (x : slot_state) : PxAcceptor :=
  set_slots a (<[s := x]> (slots a)).

Definition slot_at (a : PxAcceptor) (s : Z) : slot_state :=
  default default_slot (slots a !! s).

(** [get_or_insert_with], between the two reads of the trim point. *)
Definition open_slot (a : PxAcceptor) (s : Z) : PxAcceptor * bool :=
  if s <? trim_slot a then (a, false) else
  let a1 := match slots a !! s with
            | Some _ => a
            | None => set_slot a s default_slot
            end in
  if s <? trim_slot a1 then (set_slots a1 (delete s (slots a1)), false) else (a1, true).

Definition bump_highest_seen (a : PxAcceptor) (s : Z) : PxAcceptor :=
  if highest_seen_slot a <? s then mkAcceptor (slots a) (trim_slot a) s else a.

Definition prepare (a : PxAcceptor) (s : Z) (b : PxBallot) : PxAcceptor * PxPrepareReply :=
  let '(a1, ok) := open_slot a s in
  if negb ok then (a1, PrepareRejected s ballot_zero) else
  let a2 := bump_highest_seen a1 s in
  let nd := slot_at a2 s in
  match promised nd with
  | Some current =>
      if ballot_leb b current then (a2, PrepareRejected s current)
      else (set_slot a2 s (mkSlot (Some b) (accepted nd)), Promised s (accepted nd))
  | None => (set_slot a2 s (mkSlot (Some b) (accepted nd)), Promised s (accepted nd))
  end.

Inductive PxAcceptResult :=
| RAccepted (slot : Z) (ballot : PxBallot)
| RRejected (current : PxBallot).

Definition inner_accept (a : PxAcceptor) (e : PxLogEntry) : PxAcceptor * option PxAcceptResult :=
  let s := slot e in
  let b := ballot e in
  let '(a1, ok) := open_slot a s in
  if negb ok then (a1, None) else
  let a2 := bump_highest_seen a1 s in
  let nd := slot_at a2 s in
  let refused := match promised nd with
                 | Some p => if ballot_ltb b p then Some p else None
                 | None => None
                 end in
  match refused with
  | Some p => (a2, Some (RRejected p))
  | None =>
      let promised' := if ballot_ltb (default ballot_zero (promised nd)) b then Some b
                       else promised nd in
      (set_slot a2 s (mkSlot promised' (Some e)), Some (RAccepted s b))
  end.

Definition accept (a : PxAcceptor) (e : PxLogEntry) : PxAcceptor * PxAcceptReply :=
  match inner_accept a e with
  | (a', Some (RAccepted s b)) => (a', Accepted s b)
  | (a', Some (RRejected cur)) => (a', AcceptRejected (slot e) cur)
  | (a', None) => (a', AcceptRejected (slot e) ballot_zero)
  end.

Definition install_chosen (a : PxAcceptor) (e : PxLogEntry) : PxAcceptor * bool :=
  let '(a0, _) := prepare a (slot e) (ballot e) in
  let '(a1, ok) := open_slot a0 (slot e) in
  if negb ok then (a1, false) else
  let a2 := bump_highest_seen a1 (slot e) in
  let nd := slot_at a2 (slot e) in
  let install := (set_slot a2 (slot e) (mkSlot (promised nd) (Some e)), true) in
  match accepted nd with
  | Some acc =>
      if ballot_leb (ballot e) (ballot acc)
      then (a2, bool_decide (payload acc = payload e)) else install
  | None => install
  end.

Definition accepted_at (a : PxAcceptor) (s : Z) : option PxLogEntry :=
  if s <? trim_slot a then None else slots a !! s ≫= accepted.

Definition promised_at (a : PxAcceptor) (s : Z) : option PxBallot :=
  if s <? trim_slot a then None else slots a !! s ≫= promised.

Definition trim (a : PxAcceptor) (before : Z) : PxAcceptor :=
  mkAcceptor (slots a) (Z.max (trim_slot a) before) (highest_seen_slot a).

Definition reclaim (a : PxAcceptor) : PxAcceptor * nat :=
  let victims := take_while (fun kv => kv.1 <? trim_slot a) (sorted_entries (slots a)) in
  (set_slots a (foldr (fun kv m => delete kv.1 m) (slots a) victims), length victims).

Definition retained_slots (a : PxAcceptor) : nat := size (slots a).

Definition accepted_log_tip (a : PxAcceptor) : option (Z * Z) :=
  find_map (fun kv => e ← accepted kv.2; Some (slot e, term e))
    (take_while (fun kv => trim_slot a <=? kv.1) (reverse (sorted_entries (slots a)))).

(** [lower_bound(Included(start))], then the cursor loop up to the end slot. *)
Definition accepted_iter_range (a : PxAcceptor) (start_slot end_slot_exclusive : Z)
  : list (Z * PxLogEntry) :=
  let start := Z.max start_slot (trim_slot a) in
  if end_slot_exclusive <=? start then [] else
  omap (fun kv => e ← accepted kv.2; Some (kv.1, e))
    (take_while (fun kv => kv.1 <? end_slot_exclusive)
       (skip_while (fun kv => kv.1 <? start) (sorted_entries (slots a)))).

(** The operations as values, to speak of sequences of them. *)
Inductive op :=
| OpPrepare (s : Z) (b : PxBallot)
| OpAccept (e : PxLogEntry)
| OpInstall (e : PxLogEntry)
| OpTrim (before : Z)
| OpReclaim.

Definition exec (a : PxAcceptor) (o : op) : PxAcceptor :=
  match o with
  | OpPrepare s b => (prepare a s b).1
  | OpAccept e => (accept a e).1
  | OpInstall e => (install_chosen a e).1
  | OpTrim before => trim a before
  | OpReclaim => (reclaim a).1
  end.

Definition run (a : PxAcceptor) (ops : list op) : PxAcceptor := foldl exec a ops.

(** Ballots built from [u64]s. *)
Definition ballot_ok (b : PxBallot) : Prop := 0 <= round b /\ 0 <= leader_id b.

Definition op_ok (o : op) : Prop :=
  match o with
  | OpPrepare _ b => ballot_ok b
  | OpAccept e | OpInstall e => ballot_ok (ballot e)
  | _ => True
  end.

(** An accepted entry sits at its own slot and never above the promise, where
    a missing promise counts as [(0, 0)]; no slot is above the high mark. *)
Record wf (a : PxAcceptor) : Prop := {
  wf_slot : forall s x e, slots a !! s = Some x -> accepted x = Some e -> slot e = s;
  wf_promise : forall s x e, slots a !! s = Some x -> accepted x = Some e ->
    ballot e <=b default ballot_zero (promised x);
  wf_highest : forall s, is_Some (slots a !! s) -> s <= highest_seen_slot a;
}.

(** ** Closed forms of the operations *)

(** The state after an operation leaves [x] at an open slot [s]. *)
Definition put (a : PxAcceptor) (s : Z) (x : slot_state) : PxAcceptor :=
  mkAcceptor (<[s := x]> (slots a)) (trim_slot a) (Z.max (highest_seen_slot a) s).

Lemma slot_at_put a s x s' : slot_at (put a s x) s' = if decide (s' = s) then x else slot_at a s'.
Proof.
  unfold slot_at, put. simpl. case_decide; subst.
  - by rewrite lookup_insert_eq.
  - by rewrite lookup_insert_ne.
Qed.

Lemma put_put a s x y : put (put a s x) s y = put a s y.
Proof. unfold put. simpl. rewrite insert_insert_eq. f_equal. lia. Qed.

Lemma open_slot_eq a s :
  open_slot a s = if s <? trim_slot a then (a, false) else (set_slot a s (slot_at a s), true).
Proof.
  unfold open_slot, slot_at. zcase_step; [done|].
  destruct (slots a !! s) as [x|] eqn:E; simpl.
  - rewrite (proj2 (Z.ltb_ge _ _)) by done. unfold set_slot, set_slots.
    rewrite insert_id by done. by destruct a.
  - rewrite (proj2 (Z.ltb_ge _ _)) by done. done.
Qed.

Lemma opened a s : bump_highest_seen (set_slot a s (slot_at a s)) s = put a s (slot_at a s).
Proof.
  unfold bump_highest_seen, put. simpl. zcase_step; simpl; f_equal; try lia.
  unfold set_slot, set_slots. f_equal. lia.
Qed.

Lemma set_slot_put a s x y : set_slot (put a s x) s y = put a s y.
Proof. unfold set_slot, set_slots, put. simpl. by rewrite insert_insert_eq. Qed.

(** [promised < b], with no promise below everything: the test of [prepare]. *)
Definition may_promise (b : PxBallot) (x : slot_state) : bool :=
  match promised x with Some c => negb (ballot_leb b c) | None => true end.

(** [promised <= b]: the test of [accept]. *)
Definition may_accept (b : PxBallot) (x : slot_state) : bool :=
  match promised x with Some c => negb (ballot_ltb b c) | None => true end.

Definition promise_slot (b : PxBallot) (x : slot_state) : slot_state :=
  mkSlot (Some b) (accepted x).

Definition accept_slot (e : PxLogEntry) (x : slot_state) : slot_state :=
  mkSlot (if ballot_ltb (default ballot_zero (promised x)) (ballot e)
          then Some (ballot e) else promised x) (Some e).

(** The slot after [install_chosen], and its answer. *)
Definition install_slot (e : PxLogEntry) (x : slot_state) : slot_state * bool :=
  let y := if may_promise (ballot e) x then promise_slot (ballot e) x else x in
  match accepted x with
  | Some acc =>
      if ballot_leb (ballot e) (ballot acc)
      then (y, bool_decide (payload acc = payload e)) else (mkSlot (promised y) (Some e), true)
  | None => (mkSlot (promised y) (Some e), true)
  end.

Lemma prepare_eq a s b :
  prepare a s b =
    if s <? trim_slot a then (a, PrepareRejected s ballot_zero) else
    let x := slot_at a s in
    if may_promise b x then (put a s (promise_slot b x), Promised s (accepted x))
    else (put a s x, PrepareRejected s (default ballot_zero (promised x))).
Proof.
  unfold prepare. rewrite open_slot_eq. zcase_step; [done|]. simpl.
  rewrite opened, slot_at_put, decide_True by done. unfold may_promise.
  destruct (promised (slot_at a s)) as [c|]; simpl; [|by rewrite set_slot_put].
  destruct (ballot_leb b c); simpl; [done|]. by rewrite set_slot_put.
Qed.

Lemma accept_eq a e :
  accept a e =
    if slot e <? trim_slot a then (a, AcceptRejected (slot e) ballot_zero) else
    let x := slot_at a (slot e) in
    if may_accept (ballot e) x
    then (put a (slot e) (accept_slot e x), Accepted (slot e) (ballot e))
    else (put a (slot e) x, AcceptRejected (slot e) (default ballot_zero (promised x))).
Proof.
  unfold accept, inner_accept. rewrite open_slot_eq. zcase_step; [done|]. simpl.
  rewrite opened, slot_at_put, decide_True by done. unfold may_accept.
  destruct (promised (slot_at a (slot e))) as [c|] eqn:Ep; simpl.
  - destruct (ballot_ltb (ballot e) c); simpl; [done|]. rewrite set_slot_put.
    unfold accept_slot. by rewrite Ep.
  - rewrite set_slot_put. unfold accept_slot. by rewrite Ep.
Qed.

Lemma prepare_state a s b :
  (prepare a s b).1 = if s <? trim_slot a then a else
    put a s (if may_promise b (slot_at a s) then promise_slot b (slot_at a s) else slot_at a s).
Proof. rewrite prepare_eq. zcase_step; [done|]. simpl. by destruct may_promise. Qed.

Lemma install_eq a e :
  install_chosen a e =
    if slot e <? trim_slot a then (a, false) else
    let '(x, ok) := install_slot e (slot_at a (slot e)) in (put a (slot e) x, ok).
Proof.
  unfold install_chosen. rewrite (surjective_pairing (prepare _ _ _)), prepare_state.
  rewrite open_slot_eq. destruct (Z.ltb_spec (slot e) (trim_slot a)) as [H|H].
  { by rewrite (proj2 (Z.ltb_lt _ _) H). }
  set (y := if may_promise _ _ then _ else _). simpl.
  rewrite (proj2 (Z.ltb_ge _ _) H). simpl.
  rewrite opened, !slot_at_put, !decide_True by done. rewrite put_put.
  unfold install_slot. fold y.
  assert (accepted y = accepted (slot_at a (slot e))) as -> by (unfold y; by destruct may_promise).
  destruct (accepted (slot_at a (slot e))) as [acc|]; [destruct (ballot_leb _ _)|];
    rewrite ?set_slot_put; done.
Qed.

(** ** One slot: what an operation may do to it *)

Definition slot_wf (s : Z) (x : slot_state) : Prop :=
  forall e, accepted x = Some e -> slot e = s /\ ballot e <=b default ballot_zero (promised x).

Definition slot_le (x y : slot_state) : Prop :=
  opt_le ballot_le (promised x) (promised y) /\
  opt_le (fun e e' => ballot e <=b ballot e') (accepted x) (accepted y).

Lemma slot_le_refl x : slot_le x x.
Proof. split; apply opt_le_refl; eauto with crowdb. Qed.

Lemma slot_le_trans x y z : slot_le x y -> slot_le y z -> slot_le x z.
Proof.
  intros [P1 A1] [P2 A2]. split; eapply opt_le_trans; eauto; simpl; eauto using ballot_le_trans.
Qed.

#[export] Instance slot_le_preorder : PreOrder slot_le.
Proof. split; [exact slot_le_refl|exact slot_le_trans]. Qed.

Lemma promise_slot_ok s b x :
  ballot_ok b -> slot_wf s x -> may_promise b x = true ->
  slot_wf s (promise_slot b x) /\ slot_le x (promise_slot b x).
Proof.
  intros [Hr Hl] Hwf. unfold may_promise. intros Hm. split.
  - intros e He. destruct (Hwf e He) as [? Hle]. split; [done|]. simpl in *.
    destruct (promised x); simpl in *; bcase; bsolve.
  - split; simpl; [|apply opt_le_refl; eauto with crowdb].
    destruct (promised x); simpl; [|done]. bcase. bsolve.
Qed.

Lemma accept_slot_ok e x :
  ballot_ok (ballot e) -> slot_wf (slot e) x -> may_accept (ballot e) x = true ->
  slot_wf (slot e) (accept_slot e x) /\ slot_le x (accept_slot e x).
Proof.
  intros [Hr Hl] Hwf. unfold may_accept. intros Hm. split.
  - intros e' [= <-]. split; [done|]. unfold accept_slot. simpl.
    bcase; [bsolve|]. by apply ballot_nlt.
  - unfold slot_wf in Hwf. split; unfold accept_slot; simpl.
    + destruct (promised x) as [c|]; simpl in *; [|done]. bcase; bsolve.
    + destruct (accepted x) as [e'|] eqn:Ea; simpl; [|done].
      destruct (Hwf e' eq_refl) as [_ Hle]. destruct (promised x) as [c|]; simpl in *.
      * bcase. bsolve.
      * bsolve.
Qed.

Lemma install_slot_ok e x :
  ballot_ok (ballot e) -> slot_wf (slot e) x ->
  slot_wf (slot e) (install_slot e x).1 /\ slot_le x (install_slot e x).1.
Proof.
  intros Hok Hwf. unfold install_slot.
  set (y := if may_promise (ballot e) x then promise_slot (ballot e) x else x).
  assert (Hy : slot_wf (slot e) y /\ slot_le x y).
  { unfold y. destruct (may_promise (ballot e) x) eqn:E; [by apply promise_slot_ok|].
    split; [done|reflexivity]. }
  assert (Hp : ballot e <=b default ballot_zero (promised y)).
  { unfold y, may_promise. destruct (promised x) eqn:E; simpl; [|bsolve].
    bcase; [by rewrite E|bsolve]. }
  destruct Hy as [Hyw [Hyp Hya]].
  destruct (accepted x) as [acc|] eqn:Ea; [destruct (ballot_leb_spec (ballot e) (ballot acc))|];
    simpl; split; try done; try (split; simpl; rewrite ?Ea in *; simpl; try done; bsolve).
  - by intros e' [= <-].
  - by intros e' [= <-].
Qed.

(** ** Whole-acceptor lemmas *)

Lemma wf_slot_at a s : wf a -> slot_wf s (slot_at a s).
Proof.
  intros [H1 H2 _] e He. unfold slot_at in *. destruct (slots a !! s) as [x|] eqn:E; simpl in *.
  - eauto.
  - done.
Qed.

Lemma wf_put a s x : wf a -> slot_wf s x -> wf (put a s x).
Proof.
  intros [H1 H2 H3] Hx. split; unfold put; simpl.
  - intros s' y e. destruct (decide (s' = s)) as [->|]; [rewrite lookup_insert_eq|rewrite lookup_insert_ne by done].
    + intros [= <-] He. by apply Hx.
    + eauto.
  - intros s' y e. destruct (decide (s' = s)) as [->|]; [rewrite lookup_insert_eq|rewrite lookup_insert_ne by done].
    + intros [= <-] He. by apply Hx.
    + eauto.
  - intros s'. destruct (decide (s' = s)) as [->|]; [lia|rewrite lookup_insert_ne by done].
    intros Hs. specialize (H3 s' Hs). lia.
Qed.

Lemma delete_all_lookup (l : list (Z * slot_state)) (m : gmap Z slot_state) s :
  foldr (fun kv m => delete kv.1 m) m l !! s = if decide (s ∈ l.*1) then None else m !! s.
Proof.
  induction l as [|[k x] l IH]; simpl; [done|]. destruct (decide (k = s)) as [->|].
  - rewrite lookup_delete_eq. rewrite decide_True by set_solver. done.
  - rewrite lookup_delete_ne, IH by done. repeat case_decide; try done; exfalso; set_solver.
Qed.

Lemma reclaim_lookup a s :
  slots (reclaim a).1 !! s = if s <? trim_slot a then None else slots a !! s.
Proof.
  unfold reclaim. simpl. set (v := take_while _ _).
  rewrite delete_all_lookup.
  assert (Hv : forall kv, kv ∈ v <-> kv ∈ sorted_entries (slots a) /\ (kv.1 <? trim_slot a) = true).
  { intros kv. apply (elem_of_take_while key_le (fun kv => kv.1 <? trim_slot a)); [apply sorted_entries_sorted|].
    unfold key_le. intros x y. rewrite !Z.ltb_lt. lia. }
  case_decide as Hin.
  - apply list_elem_of_fmap in Hin as ([k x] & -> & [Hk1 Hk2]%Hv). simpl in *. by rewrite Hk2.
  - zcase_step; [|done]. apply eq_None_not_Some. intros [x Hx]. apply Hin.
    apply list_elem_of_fmap. exists (s, x). split; [done|]. apply Hv.
    rewrite elem_of_sorted_entries. simpl. split; [done|]. by apply Z.ltb_lt.
Qed.

(** What every operation does: the trim point grows, the invariant is kept, and
    each slot at or above the new trim point moves up. *)
Lemma exec_ok a o :
  wf a -> op_ok o ->
  wf (exec a o) /\ trim_slot a <= trim_slot (exec a o) /\
  forall s, trim_slot (exec a o) <= s -> slot_le (slot_at a s) (slot_at (exec a o) s).
Proof.
  intros Hwf Hok. pose proof (fun s => wf_slot_at a s Hwf) as Hs.
  assert (Hput : forall s x, slot_wf s x -> slot_le (slot_at a s) x ->
    wf (put a s x) /\ trim_slot a <= trim_slot (put a s x) /\
    forall s', trim_slot (put a s x) <= s' -> slot_le (slot_at a s') (slot_at (put a s x) s')).
  { intros s x Hx Hle. split_and!; [by apply wf_put|simpl; lia|].
    intros s' _. rewrite slot_at_put. case_decide; subst; [done|reflexivity]. }
  assert (Hid : wf a /\ trim_slot a <= trim_slot a /\
    forall s', trim_slot a <= s' -> slot_le (slot_at a s') (slot_at a s')).
  { split_and!; [done|lia|reflexivity]. }
  destruct o as [s b|e|e|before|]; simpl in *.
  - rewrite prepare_state. zcase_step; [done|]. destruct (may_promise b (slot_at a s)) eqn:E.
    + destruct (promise_slot_ok s b (slot_at a s)); auto.
    + apply Hput; [done|reflexivity].
  - rewrite accept_eq. zcase_step; [done|]. simpl. destruct (may_accept (ballot e) (slot_at a (slot e))) eqn:E.
    + destruct (accept_slot_ok e (slot_at a (slot e))); simpl; auto.
    + apply Hput; [done|reflexivity].
  - rewrite install_eq. zcase_step; [done|].
    pose proof (install_slot_ok e (slot_at a (slot e)) Hok (Hs _)) as [H1 H2].
    destruct (install_slot e (slot_at a (slot e))) as [x ok]. simpl in *. by apply Hput.
  - destruct Hwf as [H1 H2 H3]. split_and!; [by split|lia|reflexivity].
  - destruct Hwf as [H1 H2 H3]. split_and!; [|lia|].
    + split; simpl; intros s; specialize (reclaim_lookup a s); unfold reclaim; simpl; intros ->;
        zcase_step; try done; eauto.
    + intros s Hge. pose proof (reclaim_lookup a s) as E.
      rewrite (proj2 (Z.ltb_ge _ _)) in E by done.
      change (slot_le (slot_at a s) (default default_slot (slots (reclaim a).1 !! s))).
      rewrite E. reflexivity.
Qed.

Lemma run_ok ops : forall a,
  wf a -> Forall op_ok ops ->
  wf (run a ops) /\ trim_slot a <= trim_slot (run a ops) /\
  forall s, trim_slot (run a ops) <= s -> slot_le (slot_at a s) (slot_at (run a ops) s).
Proof.
  induction ops as [|o ops IH]; intros a Hwf Hok; simpl.
  { split_and!; [done|lia|reflexivity]. }
  apply Forall_cons in Hok as [Ho Hops].
  destruct (exec_ok a o Hwf Ho) as (Hw1 & Ht1 & Hs1).
  destruct (IH _ Hw1 Hops) as (Hw2 & Ht2 & Hs2).
  split_and!; [done|unfold run in *; lia|]. intros s Hge.
  etrans; [apply Hs1; unfold run in *; lia|by apply Hs2].
Qed.

Lemma wf_new : wf new.
Proof. split; unfold new; simpl; intros s; rewrite lookup_empty; done. Qed.

(** From the empty acceptor, after any sequence of prepare, accept,
    install, trim and reclaim operations: each accepted entry sits at its own
    slot and at or below the slot's promise, no opened slot is above
    [highest_seen_slot], and neither the trim point, nor the promise, nor the
    accepted ballot of a slot that is not trimmed has ever gone down. *)
Theorem acceptor_invariant ops ops' :
  Forall op_ok (ops ++ ops') ->
  wf (run new ops) /\
  trim_slot (run new ops) <= trim_slot (run new (ops ++ ops')) /\
  forall s, trim_slot (run new (ops ++ ops')) <= s ->
    slot_le (slot_at (run new ops) s) (slot_at (run new (ops ++ ops')) s).
Proof.
  intros [H1 H2]%Forall_app. destruct (run_ok ops new wf_new H1) as (Hw & _).
  unfold run in *. rewrite foldl_app. split; [done|]. by apply run_ok.
Qed.

Definition demo_entry (s r l : Z) (p : list Z) : PxLogEntry := mkEntry s (mkBallot r l) 1 p.

Lemma acceptor_invariant_witness :
  let ops := [OpAccept (demo_entry 4 0 1 [7]); OpPrepare 4 (mkBallot 2 3)] in
  let ops' := [OpAccept (demo_entry 4 2 3 [8]); OpTrim 2; OpReclaim] in
  slot_le (slot_at (run new ops) 4) (slot_at (run new (ops ++ ops')) 4).
Proof.
  intros ops ops'. apply (acceptor_invariant ops ops').
  - repeat constructor; simpl; lia.
  - vm_compute. discriminate.
Defined.

(** ** The promise as a fence *)

Lemma promised_reply a s b acc :
  (prepare a s b).2 = Promised s acc ->
  trim_slot a <= s /\ acc = accepted (slot_at a s) /\ may_promise b (slot_at a s) = true /\
  (prepare a s b).1 = put a s (promise_slot b (slot_at a s)).
Proof.
  rewrite prepare_eq. zcase_step; [done|]. simpl. destruct may_promise; simpl; [|done].
  intros [= <-]. done.
Qed.

Lemma trim_fence a s b :
  s < trim_slot a -> prepare a s b = (a, PrepareRejected s ballot_zero).
Proof. intros H. rewrite prepare_eq, (proj2 (Z.ltb_lt _ _) H). done. Qed.

(** Once [prepare] has promised ballot [b] at slot [s], then whatever
    operations the acceptor runs afterwards, it never promises a ballot at or
    below [b] at [s] again, and never accepts an entry of [s] below [b]. *)
Theorem promise_is_a_fence a s b acc ops b' e :
  wf a -> ballot_ok b -> Forall op_ok ops ->
  (prepare a s b).2 = Promised s acc ->
  let a' := run (prepare a s b).1 ops in
  (b' <=b b -> exists cur, prepare a' s b' = ((prepare a' s b').1, PrepareRejected s cur)) /\
  (slot e = s -> ballot e <b b -> exists cur, accept a' e = ((accept a' e).1, AcceptRejected s cur)).
Proof.
  intros Hwf Hb Hops Hp a'. destruct (exec_ok a (OpPrepare s b) Hwf Hb) as (Hw1 & _ & _).
  simpl in Hw1. destruct (run_ok ops _ Hw1 Hops) as (_ & _ & Hle). fold a' in Hle.
  apply promised_reply in Hp as (_ & _ & _ & Hst).
  assert (Hpr : trim_slot a' <= s -> exists c, promised (slot_at a' s) = Some c /\ b <=b c).
  { intros Ht. destruct (Hle s Ht) as [Hpl _]. rewrite Hst, slot_at_put, decide_True in Hpl by done.
    simpl in Hpl. destruct (promised (slot_at a' s)) as [c|]; [|done]. eauto. }
  split.
  - intros Hb'. rewrite prepare_eq. zcase_step; [eauto|]. destruct Hpr as (c & Hc & Hbc); [done|].
    unfold may_promise. simpl. rewrite Hc. bcase_step; [simpl; eauto|]. exfalso. eauto with crowdb.
  - intros Hs Hlt. rewrite accept_eq, Hs. zcase_step; [eauto|].
    destruct Hpr as (c & Hc & Hbc); [done|].
    unfold may_accept. simpl. rewrite Hc. bcase_step; [simpl; eauto|]. exfalso. eauto with crowdb.
Qed.

Lemma promise_is_a_fence_witness :
  let a := run new [OpAccept (demo_entry 4 0 1 [7])] in
  let a' := run (prepare a 4 (mkBallot 2 3)).1 [OpTrim 2; OpPrepare 4 (mkBallot 5 1)] in
  exists cur, accept a' (demo_entry 4 1 9 [8]) =
    ((accept a' (demo_entry 4 1 9 [8])).1, AcceptRejected 4 cur).
Proof.
  intros a. apply (promise_is_a_fence a 4 (mkBallot 2 3) (Some (demo_entry 4 0 1 [7]))
    [OpTrim 2; OpPrepare 4 (mkBallot 5 1)] (mkBallot 0 0) (demo_entry 4 1 9 [8])).
  - unfold a. destruct (run_ok [OpAccept (demo_entry 4 0 1 [7])] new wf_new) as [H _]; [|exact H].
    repeat constructor; simpl; lia.
  - split; simpl; lia.
  - repeat constructor; simpl; lia.
  - reflexivity.
  - reflexivity.
  - left. simpl. lia.
Defined.

(** ** Scans *)

Lemma slots_lookup_at a s x e :
  slots a !! s = Some x -> accepted x = Some e -> trim_slot a <= s -> accepted_at a s = Some e.
Proof.
  intros Hx He Ht. unfold accepted_at. rewrite (proj2 (Z.ltb_ge _ _) Ht), Hx. done.
Qed.

Lemma accepted_at_inv a s e :
  accepted_at a s = Some e -> trim_slot a <= s /\ exists x, slots a !! s = Some x /\ accepted x = Some e.
Proof.
  unfold accepted_at. zcase_step; [done|]. destruct (slots a !! s) as [x|]; [|done]. eauto.
Qed.

Lemma elem_of_scan a lo hi kv :
  kv ∈ take_while (fun kv => kv.1 <? hi) (skip_while (fun kv => kv.1 <? lo) (sorted_entries (slots a)))
  <-> slots a !! kv.1 = Some kv.2 /\ lo <= kv.1 < hi.
Proof.
  assert (Hmono : forall c (x y : Z * slot_state), key_le x y -> (y.1 <? c) = true -> (x.1 <? c) = true).
  { unfold key_le. intros c x y. rewrite !Z.ltb_lt. lia. }
  pose proof (sorted_entries_sorted (slots a)) as Hs.
  rewrite (elem_of_take_while key_le) by (try apply skip_while_sorted; eauto).
  rewrite (elem_of_skip_while key_le) by eauto.
  destruct kv as [k x]. rewrite elem_of_sorted_entries, Z.ltb_lt, Z.ltb_ge. simpl. tauto.
Qed.

Lemma omap_entry_sorted l :
  StronglySorted key_lt l ->
  StronglySorted key_lt (omap (fun kv : Z * slot_state => e ← accepted kv.2; Some (kv.1, e)) l).
Proof.
  induction 1 as [|[k x] l Hs IH Hx]; simpl; [constructor|].
  destruct (accepted x) as [e|]; simpl; [|done]. constructor; [done|].
  rewrite Forall_forall. rewrite Forall_forall in Hx. intros y (z & Hz & Hy)%list_elem_of_omap.
  specialize (Hx z Hz). destruct (accepted z.2); simplify_eq/=. done.
Qed.

Lemma range_exact a lo hi :
  (forall s e, (s, e) ∈ accepted_iter_range a lo hi <-> lo <= s < hi /\ accepted_at a s = Some e) /\
  StronglySorted key_lt (accepted_iter_range a lo hi).
Proof.
  unfold accepted_iter_range. destruct (Z.leb_spec hi (Z.max lo (trim_slot a))) as [Hc|Hc].
  { split; [|constructor]. intros s e. split; [set_solver|].
    intros [? [? _]%accepted_at_inv]. lia. }
  split.
  - intros s e. rewrite list_elem_of_omap. split.
    + intros ([k x] & [Hx Hr]%elem_of_scan & He). simpl in *.
      destruct (accepted x) as [e'|] eqn:Ex; simplify_eq/=.
      split; [lia|]. eapply slots_lookup_at; eauto. lia.
    + intros [Hr (Ht & x & Hx & He)%accepted_at_inv]. exists (s, x). split.
      * apply elem_of_scan. simpl. split; [done|lia].
      * simpl. by rewrite He.
  - apply omap_entry_sorted, take_while_sorted, skip_while_sorted, sorted_entries_strict.
Qed.

(** [accepted_iter_range lo hi] returns exactly the entries that
    [accepted_at] serves for the slots of [lo, hi), each under its slot, in
    strictly increasing slot order: a complete and duplicate-free journal. *)
Theorem accepted_iter_range_exact a lo hi :
  (forall s e, (s, e) ∈ accepted_iter_range a lo hi <-> lo <= s < hi /\ accepted_at a s = Some e) /\
  StronglySorted key_lt (accepted_iter_range a lo hi).
Proof. apply range_exact. Qed.

Lemma elem_of_tail a kv :
  kv ∈ take_while (fun kv => trim_slot a <=? kv.1) (reverse (sorted_entries (slots a)))
  <-> slots a !! kv.1 = Some kv.2 /\ trim_slot a <= kv.1.
Proof.
  rewrite (elem_of_take_while (flip key_lt)).
  - destruct kv as [k x]. rewrite elem_of_reverse, elem_of_sorted_entries, Z.leb_le. done.
  - apply reverse_sorted, sorted_entries_strict.
  - unfold flip, key_lt. intros x y. rewrite !Z.leb_le. lia.
Qed.

(** [accepted_log_tip], the position an election compares, is the slot and
    term of the highest accepted entry that is not trimmed, and is absent only
    when there is none. *)
Theorem accepted_log_tip_exact a :
  wf a ->
  match accepted_log_tip a with
  | Some (s, t) => (exists e, accepted_at a s = Some e /\ term e = t) /\
      forall s', s < s' -> accepted_at a s' = None
  | None => forall s, accepted_at a s = None
  end.
Proof.
  intros Hwf. unfold accepted_log_tip.
  destruct (find_map _ _) as [[s t]|] eqn:E.
  - apply (find_map_Some (flip key_lt)) in E
      as ([k x] & [Hx Ht]%elem_of_tail & Hf & Hmax); simpl in *.
    2: apply take_while_sorted, reverse_sorted, sorted_entries_strict.
    destruct (accepted x) as [e|] eqn:Ex; simplify_eq/=.
    assert (slot e = k) as -> by (eapply wf_slot; eauto).
    split; [eauto using slots_lookup_at|]. intros s' Hlt. apply eq_None_not_Some.
    intros [e' (Ht' & x' & Hx' & He')%accepted_at_inv].
    destruct (Hmax (s', x') (slot e', term e')) as [?|Hk].
    + apply elem_of_tail. done.
    + simpl. by rewrite He'.
    + simplify_eq. lia.
    + unfold flip, key_lt in Hk. simpl in Hk. lia.
  - rewrite find_map_None in E. intros s. apply eq_None_not_Some.
    intros [e (Ht & x & Hx & He)%accepted_at_inv].
    specialize (E (s, x)). simpl in E. rewrite He in E. discriminate E. by apply elem_of_tail.
Qed.

Definition tip_demo : PxAcceptor :=
  run new [OpAccept (demo_entry 4 0 1 [7]); OpPrepare 9 (mkBallot 2 3); OpAccept (demo_entry 6 0 1 [])].

Lemma accepted_log_tip_exact_witness :
  accepted_log_tip tip_demo = Some (6, 1) /\ accepted_at tip_demo 9 = None.
Proof.
  assert (Hw : wf tip_demo).
  { unfold tip_demo. apply run_ok; [apply wf_new|]. repeat constructor; simpl; lia. }
  split; [reflexivity|]. pose proof (accepted_log_tip_exact tip_demo Hw) as H.
  replace (accepted_log_tip tip_demo) with (Some (6, 1)) in H by reflexivity.
  apply H. lia.
Defined.

(** ** Reclamation *)

Lemma range_ext a a' lo hi :
  (forall s, accepted_at a' s = accepted_at a s) ->
  accepted_iter_range a' lo hi = accepted_iter_range a lo hi.
Proof.
  intros H. apply (StronglySorted_ext key_lt); unfold key_lt; try lia; try apply range_exact.
  intros [s e]. destruct (range_exact a lo hi) as [-> _], (range_exact a' lo hi) as [-> _].
  by rewrite H.
Qed.

Lemma tail_ext a a' :
  trim_slot a' = trim_slot a ->
  (forall k, trim_slot a <= k -> slots a' !! k = slots a !! k) ->
  take_while (fun kv => trim_slot a <=? kv.1) (reverse (sorted_entries (slots a'))) =
  take_while (fun kv => trim_slot a <=? kv.1) (reverse (sorted_entries (slots a))).
Proof.
  intros Ht H. apply (StronglySorted_ext (flip key_lt)); unfold flip, key_lt; try lia;
    try (apply (take_while_sorted (flip key_lt)), reverse_sorted, sorted_entries_strict).
  intros kv. rewrite elem_of_tail. rewrite <- Ht, elem_of_tail, Ht.
  split; intros [? ?]; (split; [|done]); [rewrite <- H|rewrite H]; done.
Qed.

Lemma size_delete_all (l : list (Z * slot_state)) (m : gmap Z slot_state) :
  NoDup l.*1 -> (forall k, k ∈ l.*1 -> is_Some (m !! k)) ->
  (size (foldr (fun kv m => delete kv.1 m) m l) + length l = size m)%nat.
Proof.
  induction l as [|[k x] l IH]; simpl; [lia|]. intros [Hk Hn]%NoDup_cons Hin.
  rewrite <- (IH Hn) by set_solver. set (m' := foldr _ _ _).
  assert (Hs : is_Some (m' !! k)).
  { unfold m'. rewrite delete_all_lookup, decide_False by done. apply Hin. set_solver. }
  destruct Hs as [y Hy]. rewrite (map_size_delete_Some k m') by eauto.
  assert (size m' <> 0%nat); [|lia]. rewrite map_size_ne_0_lookup. eauto.
Qed.

(** [reclaim] removes exactly the trimmed slots, reports how many there
    were, and cannot be observed: reads, scans, the log tip and every later
    prepare or accept answer as before. *)
Theorem reclaim_unobservable a s b e lo hi :
  let a' := (reclaim a).1 in
  (forall k, is_Some (slots a' !! k) <-> is_Some (slots a !! k) /\ trim_slot a <= k) /\
  (retained_slots a' + (reclaim a).2 = retained_slots a)%nat /\
  accepted_at a' s = accepted_at a s /\ promised_at a' s = promised_at a s /\
  accepted_iter_range a' lo hi = accepted_iter_range a lo hi /\
  accepted_log_tip a' = accepted_log_tip a /\
  (prepare a' s b).2 = (prepare a s b).2 /\ (accept a' e).2 = (accept a e).2.
Proof.
  intros a'. assert (Ht : trim_slot a' = trim_slot a) by done.
  assert (Hl : forall k, slots a' !! k = if k <? trim_slot a then None else slots a !! k)
    by apply reclaim_lookup.
  assert (Hsl : forall k, trim_slot a <= k -> slot_at a' k = slot_at a k).
  { intros k Hk. unfold slot_at. by rewrite Hl, (proj2 (Z.ltb_ge _ _) Hk). }
  assert (Hat : forall k, accepted_at a' k = accepted_at a k).
  { intros k. unfold accepted_at. rewrite Ht, Hl. by zcase_step. }
  split_and!.
  - intros k. rewrite Hl. zcase_step; [|tauto]. split; [by intros []|lia].
  - apply size_delete_all.
    + eapply sublist_NoDup; [apply (sorted_entries_NoDup (slots a))|].
      apply fmap_sublist, take_while_sublist.
    + intros k ([? x] & -> & Hx)%list_elem_of_fmap. apply take_while_elem in Hx.
      apply elem_of_sorted_entries in Hx. simpl. eauto.
  - apply Hat.
  - unfold promised_at. rewrite Ht, Hl. by zcase_step.
  - apply range_ext, Hat.
  - unfold accepted_log_tip. rewrite Ht. f_equal. apply tail_ext; [done|].
    intros k Hk. by rewrite Hl, (proj2 (Z.ltb_ge _ _) Hk).
  - rewrite !prepare_eq, Ht. zcase_step; [done|]. rewrite Hsl by done. simpl.
    by destruct may_promise.
  - rewrite !accept_eq, Ht. zcase_step; [done|]. rewrite Hsl by done. simpl.
    by destruct may_accept.
Qed.

End Acceptor.
