(* ===== verification/AcceptorConc.v ===== *)
(** * Interleavings of acceptor operations on one slot

    Models the bodies of [prepare], [inner_accept] and [install_chosen] of
    [src/lib/crowdb-kv/src/paxos/acceptor.rs] one atomic access at a time, for
    any number of threads on one open, untrimmed slot.  A pointer is a version
    number: [SlotNode] shows that a pointer compare-and-swap succeeds exactly
    when the field has not been written since the load.

    In every schedule promises only grow and a ballot is promised at most once.
    The promise does not fence a concurrent accept: [inner_accept] goes on to
    write the accepted entry after its compare-and-swap on the promise failed. *)

From stdpp Require Import prelude list.
From Stdlib Require Import ZArith Lia.
From S2P Require Import Prelude Roles.

Module AcceptorConc.

(** The two fields with the number of writes each has seen. *)
Record cell := mkCell {
  promised : option PxBallot;
  pver : nat;
  accepted : option PxLogEntry;
  aver : nat;
}.

Definition init_cell : cell := mkCell None 0 None 0.

Definition cas_promised (c : cell) (expected : nat) (b : PxBallot) : cell * bool :=
  if decide (pver c = expected)
  then (mkCell (Some b) (S (pver c)) (accepted c) (aver c), true) else (c, false).

Definition cas_accepted (c : cell) (expected : nat) (e : PxLogEntry) : cell * bool :=
  if decide (aver c = expected)
  then (mkCell (promised c) (pver c) (Some e) (S (aver c)), true) else (c, false).

(** Where a thread is.  [after] in the prepare states is the entry when the
    prepare is the first statement of [install_chosen]. *)
Inductive pc :=
| PLoad (b : PxBallot) (after : option PxLogEntry)
| PReadAccepted (b : PxBallot) (after : option PxLogEntry) (ptr : nat) (cur : option PxBallot)
| PCas (b : PxBallot) (after : option PxLogEntry) (ptr : nat) (cur : option PxBallot)
       (acc : option PxLogEntry)
| PDone (b : PxBallot) (reply : PxPrepareReply)
| ALoad (e : PxLogEntry)
| ACheck (e : PxLogEntry) (ptr : nat) (cur : option PxBallot)
| ACasPromised (e : PxLogEntry) (ptr : nat) (cur : option PxBallot)
| ALoadAccepted (e : PxLogEntry)
| ACasAccepted (e : PxLogEntry) (ptr : nat)
| ADone (e : PxLogEntry) (reply : PxAcceptReply)
| ILoad (e : PxLogEntry)
| ICheck (e : PxLogEntry) (ptr : nat)
| ICas (e : PxLogEntry) (ptr : nat)
| IDone (e : PxLogEntry) (ok : bool).

(** The end of a [prepare]: return, or go on with [install_chosen]. *)
Definition prepare_return (after : option PxLogEntry) (b : PxBallot) (r : PxPrepareReply) : pc :=
  match after with Some e => ILoad e | None => PDone b r end.

(** One atomic access of the thread, and where it is then. *)
Definition tstep (s : Z) (c : cell) (k : pc) : cell * pc :=
  match k with
  | PLoad b after =>
      match promised c with
      | Some cur =>
          if ballot_leb b cur then (c, prepare_return after b (PrepareRejected s cur))
          else (c, PReadAccepted b after (pver c) (Some cur))
      | None => (c, PReadAccepted b after (pver c) None)
      end
  | PReadAccepted b after ptr cur => (c, PCas b after ptr cur (accepted c))
  | PCas b after ptr cur acc =>
      match cas_promised c ptr b with
      | (c', true) => (c', prepare_return after b (Promised s acc))
      | (c', false) => (c', PLoad b after)
      end
  | ALoad e =>
      match promised c with
      | Some cur =>
          if ballot_ltb (ballot e) cur then (c, ADone e (AcceptRejected s cur))
          else (c, ACheck e (pver c) (Some cur))
      | None => (c, ACheck e (pver c) None)
      end
  | ACheck e ptr cur =>
      if ballot_ltb (default ballot_zero (promised c)) (ballot e)
      then (c, ACasPromised e ptr cur) else (c, ALoadAccepted e)
  | ACasPromised e ptr cur => ((cas_promised c ptr (ballot e)).1, ALoadAccepted e)
  | ALoadAccepted e => (c, ACasAccepted e (aver c))
  | ACasAccepted e ptr =>
      match cas_accepted c ptr e with
      | (c', true) => (c', ADone e (Accepted s (ballot e)))
      | (c', false) => (c', ALoad e)
      end
  | ILoad e => (c, ICheck e (aver c))
  | ICheck e ptr =>
      match accepted c with
      | Some acc =>
          if ballot_leb (ballot e) (ballot acc)
          then (c, IDone e (bool_decide (payload acc = payload e))) else (c, ICas e ptr)
      | None => (c, ICas e ptr)
      end
  | ICas e ptr =>
      match cas_accepted c ptr e with
      | (c', true) => (c', IDone e true)
      | (c', false) => (c', ILoad e)
      end
  | PDone _ _ | ADone _ _ | IDone _ _ => (c, k)
  end.

(** A schedule names the thread that runs next. *)
Definition sched_step (s : Z) (st : cell * list pc) (i : nat) : cell * list pc :=
  match st.2 !! i with
  | Some k => let '(c', k') := tstep s st.1 k in (c', <[i := k']> st.2)
  | None => st
  end.

Definition run (s : Z) (st : cell * list pc) (sched : list nat) : cell * list pc :=
  foldl (sched_step s) st sched.

(** Threads that have only been called. *)
Definition start_prepare (b : PxBallot) : pc := PLoad b None.
Definition start_accept (e : PxLogEntry) : pc := ALoad e.
Definition start_install (e : PxLogEntry) : pc := PLoad (ballot e) (Some e).

Definition fresh (k : pc) : bool :=
  match k with PLoad _ _ | ALoad _ => true | _ => false end.

(** What a thread's captured pointer and promise still say about the cell. *)
Definition captured_ok (c : cell) (b : PxBallot) (strict : bool) (ptr : nat)
  (cur : option PxBallot) : Prop :=
  (ptr <= pver c)%nat /\ (ptr = pver c -> cur = promised c) /\
  match cur with Some p => if strict then p <b b else p <=b b | None => True end.

Definition thread_ok (c : cell) (k : pc) : Prop :=
  match k with
  | PReadAccepted b _ ptr cur | PCas b _ ptr cur _ => captured_ok c b true ptr cur
  | ACheck e ptr cur | ACasPromised e ptr cur => captured_ok c (ballot e) false ptr cur
  | PDone b (Promised _ _) => opt_le ballot_le (Some b) (promised c)
  | _ => True
  end.

(** The ballots promised so far. *)
Definition granted (k : pc) : option PxBallot :=
  match k with PDone b (Promised _ _) => Some b | _ => None end.

Record inv (st : cell * list pc) : Prop := {
  inv_threads : Forall (thread_ok st.1) st.2;
  inv_unique : forall i j k k' b, st.2 !! i = Some k -> st.2 !! j = Some k' ->
    granted k = Some b -> granted k' = Some b -> i = j;
}.

(** A cell moves up: the promise grows, and the version tells if it was written. *)
Definition cell_le (c c' : cell) : Prop :=
  opt_le ballot_le (promised c) (promised c') /\ (pver c <= pver c')%nat /\
  (pver c = pver c' -> promised c = promised c').

Lemma cell_le_refl c : cell_le c c.
Proof. split_and!; [apply opt_le_refl; eauto with crowdb|lia|done]. Qed.

Lemma cell_le_trans c1 c2 c3 : cell_le c1 c2 -> cell_le c2 c3 -> cell_le c1 c3.
Proof.
  intros (P1 & V1 & E1) (P2 & V2 & E2). split_and!; [|lia|].
  - eapply opt_le_trans; eauto using ballot_le_trans.
  - intros E. rewrite E1, E2 by lia. done.
Qed.

#[export] Instance cell_le_preorder : PreOrder cell_le.
Proof. split; [exact cell_le_refl|exact cell_le_trans]. Qed.

Lemma thread_ok_mono c c' k : cell_le c c' -> thread_ok c k -> thread_ok c' k.
Proof.
  intros (Hp & Hv & He).
  assert (Hcap : forall b st ptr cur, captured_ok c b st ptr cur -> captured_ok c' b st ptr cur).
  { intros b st ptr cur (H1 & H2 & H3). split_and!; [lia| |done]. intros ->.
    rewrite <- He by lia. apply H2. lia. }
  destruct k as [| | |b r| | | | | | | | | |]; simpl; auto.
  destruct r; auto. intros H.
  exact (opt_le_trans ballot_le (Some b) _ _ ballot_le_trans H Hp).
Qed.

Lemma captured_load c b (strict : bool) :
  match promised c with Some p => if strict then p <b b else p <=b b | None => True end ->
  captured_ok c b strict (pver c) (promised c).
Proof. intros H. split_and!; [lia|done|done]. Qed.

(** A compare-and-swap on the promise by a thread whose capture is valid. *)
Lemma cas_promised_le c b (strict : bool) ptr cur c' ok :
  captured_ok c b strict ptr cur -> cas_promised c ptr b = (c', ok) ->
  cell_le c c' /\ (ok = true -> promised c' = Some b).
Proof.
  intros (Hv & He & Hc). unfold cas_promised. case_decide as Hd; intros [= <- <-].
  - split; [|done]. split_and!; simpl; [|lia|lia]. rewrite <- He by done.
    destruct cur as [p|]; simpl; [|done]. destruct strict; eauto with crowdb.
  - split; [reflexivity|done].
Qed.

Lemma cas_accepted_le c ptr e c' ok : cas_accepted c ptr e = (c', ok) -> cell_le c c'.
Proof.
  unfold cas_accepted. case_decide; intros [= <- _]; [|reflexivity].
  split_and!; simpl; [apply opt_le_refl; eauto with crowdb|lia|done].
Qed.

Lemma prepare_return_ok c after b r :
  (match r with Promised _ _ => opt_le ballot_le (Some b) (promised c) | _ => True end) ->
  thread_ok c (prepare_return after b r).
Proof. destruct after; simpl; [done|]. by destruct r. Qed.

Lemma tstep_ok s c k :
  thread_ok c k -> cell_le c (tstep s c k).1 /\ thread_ok (tstep s c k).1 (tstep s c k).2.
Proof.
  intros Hk. destruct k; simpl in *; try (split; [reflexivity|done]).
  - destruct (promised c) as [cur|] eqn:Ep.
    + bcase_step; simpl; (split; [reflexivity|]).
      * by apply prepare_return_ok.
      * simpl. rewrite <- Ep. apply captured_load. rewrite Ep. bsolve.
    + simpl. split; [reflexivity|]. rewrite <- Ep. apply captured_load. by rewrite Ep.
  - destruct (cas_promised c ptr b) as [c' []] eqn:Ec; simpl;
      destruct (cas_promised_le _ _ _ _ _ _ _ Hk Ec) as [Hle Hok]; (split; [done|]); [|done].
    apply prepare_return_ok. rewrite Hok by done. simpl. eauto with crowdb.
  - destruct (promised c) as [cur|] eqn:Ep.
    + bcase_step; simpl; (split; [reflexivity|]); [done|].
      simpl. rewrite <- Ep. apply captured_load. rewrite Ep. bsolve.
    + simpl. split; [reflexivity|]. rewrite <- Ep. apply captured_load. by rewrite Ep.
  - bcase_step; simpl; (split; [reflexivity|done]).
  - destruct (cas_promised c ptr (ballot e)) as [c' ok] eqn:Ec; simpl.
    destruct (cas_promised_le _ _ _ _ _ _ _ Hk Ec) as [Hle _]. done.
  - destruct (cas_accepted c ptr e) as [c' []] eqn:Ec; apply cas_accepted_le in Ec; done.
  - destruct (accepted c); [bcase_step|]; split; try reflexivity; done.
  - destruct (cas_accepted c ptr e) as [c' []] eqn:Ec; apply cas_accepted_le in Ec; done.
Qed.

(** A thread that has just been promised [b] found every earlier promise below [b]. *)
Lemma tstep_grants s c k b :
  thread_ok c k -> granted k = None -> granted (tstep s c k).2 = Some b ->
  match promised c with Some p => p <b b | None => True end.
Proof.
  intros Hk Hn. destruct k; simpl in *; try done.
  - destruct (promised c) as [p|]; [destruct (ballot_leb_spec b0 p)|]; destruct after; simpl; done.
  - unfold cas_promised. case_decide as Hd; [|done]. destruct after; simpl; [done|].
    intros [= <-]. destruct Hk as (_ & He & Hc). by rewrite <- He.
  - by destruct reply.
  - destruct (promised c); [bcase_step|]; simpl; done.
  - bcase_step; done.
  - by destruct (cas_accepted c ptr e) as [c' []].
  - destruct (accepted c); [bcase_step|]; done.
  - by destruct (cas_accepted c ptr e) as [c' []].
Qed.

Lemma granted_stable s c k b : granted k = Some b -> tstep s c k = (c, k).
Proof. by destruct k. Qed.

Lemma sched_step_ok s st i :
  inv st -> cell_le st.1 (sched_step s st i).1 /\ inv (sched_step s st i).
Proof.
  intros Hinv. unfold sched_step. destruct (st.2 !! i) as [k|] eqn:Ei; [|split; [reflexivity|done]].
  destruct Hinv as [Ht Hu]. assert (Hk : thread_ok st.1 k) by (by eapply Forall_lookup_1).
  pose proof (tstep_ok s _ _ Hk) as [Hle Hok]. pose proof (tstep_grants s st.1 k) as Hg.
  pose proof (granted_stable s st.1 k) as Hst.
  destruct (tstep s st.1 k) as [c' k'] eqn:E. simpl in *. split; [done|].
  assert (Hnew : forall j kj b, i <> j -> st.2 !! j = Some kj -> granted kj = Some b ->
    granted k' = Some b -> False).
  { intros j kj b Hij Hj Hgj Hgk'. destruct (granted k) as [b0|] eqn:Egk.
    - pose proof (Hst b0 eq_refl) as [= -> ->]. apply Hij. eapply Hu; eauto.
    - specialize (Hg b Hk eq_refl Hgk'). assert (Hj' : thread_ok st.1 kj) by (by eapply Forall_lookup_1).
      destruct kj as [| | |bj r| | | | | | | | | |]; simpl in *; try done.
      destruct r; simplify_eq. destruct (promised st.1); [|done].
      eapply ballot_lt_irrefl. eauto with crowdb. }
  split; simpl.
  - apply Forall_insert; [|done]. eapply Forall_impl; eauto using thread_ok_mono.
  - intros j1 j2 k1 k2 b H1 H2 G1 G2.
    apply list_lookup_insert_Some in H1 as [(<- & -> & _)|(Hn1 & H1)];
      apply list_lookup_insert_Some in H2 as [(<- & -> & _)|(Hn2 & H2)]; try done.
    + exfalso. eauto.
    + exfalso. eauto.
    + eauto.
Qed.

Lemma conc_run_ok s sched : forall st,
  inv st -> cell_le st.1 (run s st sched).1 /\ inv (run s st sched).
Proof.
  induction sched as [|i sched IH]; intros st Hinv; simpl; [split; [reflexivity|done]|].
  destruct (sched_step_ok s st i Hinv) as [Hle Hinv']. destruct (IH _ Hinv') as [Hle' Hi].
  split; [|done]. etrans; eassumption.
Qed.

Lemma conc_init_inv ts c : Forall (fun k => fresh k = true) ts -> inv (c, ts).
Proof.
  intros Hf. split; simpl.
  - eapply Forall_impl; [exact Hf|]. intros []; simpl; done.
  - intros i j k k' b Hi _ Hg. rewrite Forall_lookup in Hf. specialize (Hf i k Hi).
    destruct k; done.
Qed.

(** C38. Any number of prepare, accept and install calls on one slot, in any
    interleaving of their atomic accesses: the promise never goes down, and no
    ballot is ever promised to two calls. *)
Theorem concurrent_promises s c ts sched sched' i j b acc acc' :
  Forall (fun k => fresh k = true) ts ->
  let st := run s (c, ts) sched in
  let st' := run s (c, ts) (sched ++ sched') in
  opt_le ballot_le (promised st.1) (promised st'.1) /\
  (st'.2 !! i = Some (PDone b (Promised s acc)) ->
   st'.2 !! j = Some (PDone b (Promised s acc')) -> i = j).
Proof.
  intros Hf st st'. destruct (conc_run_ok s sched (c, ts) (conc_init_inv ts c Hf)) as [_ Hinv]. fold st in Hinv.
  assert (E : st' = run s st sched') by (unfold st', st, run; by rewrite foldl_app).
  destruct (conc_run_ok s sched' st Hinv) as [(Hle & _) [_ Hu]]. rewrite <- E in *.
  split; [done|]. intros Hi Hj. by eapply Hu.
Qed.

Definition low : PxLogEntry := mkEntry 5 (mkBallot 0 1) 1 [1].
Definition high : PxLogEntry := mkEntry 5 (mkBallot 1 2) 2 [2].

Lemma concurrent_promises_witness :
  let st' := run 5 (init_cell, [start_prepare (mkBallot 1 2); start_prepare (mkBallot 1 2); start_install high])
    ([0; 0]%nat ++ [1; 1; 1; 0; 0; 2; 2; 2; 2]%nat) in
  st'.2 !! 1%nat = Some (PDone (mkBallot 1 2) (Promised 5 None)) /\
  (0%nat <> 1%nat -> st'.2 !! 0%nat <> Some (PDone (mkBallot 1 2) (Promised 5 None))).
Proof.
  split; [reflexivity|]. intros Hne H0. apply Hne.
  apply (concurrent_promises 5 init_cell
    [start_prepare (mkBallot 1 2); start_prepare (mkBallot 1 2); start_install high]
    [0; 0]%nat [1; 1; 1; 0; 0; 2; 2; 2; 2]%nat 0 1 (mkBallot 1 2) None None);
    [repeat constructor|exact H0|reflexivity].
Defined.

(** The promise does not fence a concurrent accept.  In one schedule a
    prepare of ballot (1,2) is promised with no accepted value, and an accept
    of ballot (0,1) is acknowledged after it.  In another, an accept of (1,2)
    is acknowledged and an accept of (0,1) then replaces its entry.  In both the
    low accept read the promise before the other call and ignores that its
    compare-and-swap on the promise fails. *)
Theorem accept_race_breaks_fence :
  (let st := run 5 (init_cell, [start_accept low; start_prepare (mkBallot 1 2)])
     [0; 0; 1; 1; 1]%nat in
   st.2 !! 1%nat = Some (PDone (mkBallot 1 2) (Promised 5 None)) /\
   accepted st.1 = None /\
   (run 5 st [0; 0; 0]%nat).2 !! 0%nat = Some (ADone low (Accepted 5 (mkBallot 0 1))) /\
   promised (run 5 st [0; 0; 0]%nat).1 = Some (mkBallot 1 2)) /\
  (let st := run 5 (init_cell, [start_accept low; start_accept high])
     [0; 0; 1; 1; 1; 1; 1]%nat in
   st.2 !! 1%nat = Some (ADone high (Accepted 5 (mkBallot 1 2))) /\
   accepted st.1 = Some high /\
   accepted (run 5 st [0; 0; 0]%nat).1 = Some low /\
   promised (run 5 st [0; 0; 0]%nat).1 = Some (mkBallot 1 2)).
Proof. vm_compute. repeat split. Qed.

End AcceptorConc.
