(* ===== verification/Coalescer.v ===== *)
(** * The write coalescer

    Models [cluster/group_coalesce.rs]: single requests join a shared batch that
    goes through consensus as one proposal.  Every access to shared state is one
    step: the locked section of [coalesce_enqueue], the two updates of the
    in-flight counter, its load in [coalesce_drain_after_round], and the locked
    section of [coalesce_take_pending].  A spawned round goes on as the thread
    that spawned it.

    [coalescer_exactly_once]: under every schedule a request is in at most one
    round and answered at most once, each round carries the operations of its
    requests in order, and once all threads have finished no request is left
    behind.  A request announces its number of operations in 16 bits and so does a
    round: of its operations a round carries as many as its requests announce
    together, at most 65535, which is all of them when they are no more than
    65535.  A request that announces none (65536 operations, say) is excluded. *)

From stdpp Require Import prelude gmap list.
From Stdlib Require Import ZArith Lia.
From S2P Require Import Prelude Roles Bytes KvOp.

Module Coalescer.
Import KvOp.

Record PendingBatch := mkBatch {
  op_bodies : bytes;
  op_count : Z;
  identities : list RequestIdentity;
  waiters : list nat;
}.

Definition default_batch : PendingBatch := mkBatch [] 0 [] [].

(** A call of [coalesce_enqueue]; its oneshot sender is the index of the call. *)
Record request := mkRequest { payload : bytes; identity : option RequestIdentity }.

Definition request_op_count (q : request) : Z :=
  if (2 <=? length (payload q))%nat then from_le_bytes (take 2 (payload q)) else 0.

Definition op_body (q : request) : bytes := drop 2 (payload q).

(** What a round proposes, and whom it answers. *)
Record round := mkRound {
  r_payload : bytes;
  r_identities : list RequestIdentity;
  r_waiters : list nat;
}.

Definition round_of (b : PendingBatch) : round :=
  mkRound (to_le_bytes 2 (op_count b) ++ op_bodies b) (identities b) (waiters b).

(** [u16::saturating_add] *)
Definition sat_add16 (a b : Z) : Z := Z.min (a + b) 65535.

Definition join (b : PendingBatch) (w : nat) (q : request) : PendingBatch :=
  mkBatch (op_bodies b ++ op_body q) (sat_add16 (op_count b) (request_op_count q))
    (identities b ++ option_list (identity q)) (waiters b ++ [w]).

(** Shared state, with what was proposed and who was answered. *)
Record shared := mkShared {
  coalescer : option PendingBatch;
  rounds_inflight : Z;
  proposed : list round;
  answered : list nat;
}.

Inductive pc :=
| Enqueue (w : nat) (q : request)
| StartRound (r : round)
| InRound (r : round)
| EndRound
| DrainCheck
| TakePending
| Done.

Section coalescer.
Context (max_keys threshold : Z).

Definition tstep (g : shared) (p : pc) : shared * pc :=
  match p with
  | Enqueue w q =>
      match coalescer g with
      | None =>
          (mkShared (Some default_batch) (rounds_inflight g) (proposed g) (answered g),
           StartRound (mkRound (to_le_bytes 2 (request_op_count q) ++ op_body q) (option_list (identity q)) [w]))
      | Some b =>
          let b := join b w q in
          if max_keys <=? op_count b then
            (mkShared (Some default_batch) (rounds_inflight g) (proposed g) (answered g), StartRound (round_of b))
          else (mkShared (Some b) (rounds_inflight g) (proposed g) (answered g), Done)
      end
  | StartRound r => (mkShared (coalescer g) (rounds_inflight g + 1) (proposed g) (answered g), InRound r)
  | InRound r =>
      (mkShared (coalescer g) (rounds_inflight g) (proposed g ++ [r]) (answered g ++ r_waiters r), EndRound)
  | EndRound => (mkShared (coalescer g) (rounds_inflight g - 1) (proposed g) (answered g), DrainCheck)
  | DrainCheck => (g, if (0 <? threshold) && (threshold <=? rounds_inflight g) then Done else TakePending)
  | TakePending =>
      match coalescer g with
      | None => (g, Done)
      | Some b =>
          let next := if (0 <? op_count b) || (0 <? rounds_inflight g) then Some default_batch else None in
          (mkShared next (rounds_inflight g) (proposed g) (answered g),
           if op_count b =? 0 then Done else StartRound (round_of b))
      end
  | Done => (g, Done)
  end.

Definition config : Type := shared * list pc.

Definition step (c : config) (i : nat) : config :=
  match c.2 !! i with
  | Some p => let '(g, p) := tstep c.1 p in (g, <[i := p]> c.2)
  | None => c
  end.

Definition exec (c : config) (schedule : list nat) : config := foldl step c schedule.

(** The requests, and any number of wake-ups of the watchdog. *)
Definition start (reqs : list request) (watchdogs : nat) : config :=
  (mkShared None 0 [] [], imap Enqueue reqs ++ repeat TakePending watchdogs).

End coalescer.

Definition quiescent (c : config) : Prop := Forall (fun p => p = Done) c.2.

(** ** Proof *)

Section proof.
Context (max_keys threshold : Z).
(** The calls: operations and identity of each. *)
Context (calls : list (list (bytes * option bytes) * option RequestIdentity)).

Definition request_of (c : list (bytes * option bytes) * option RequestIdentity) : request :=
  mkRequest (encode_kv_payload c.1) c.2.

Definition call_ok (c : list (bytes * option bytes) * option RequestIdentity) : Prop :=
  (0 < u16_len c.1)%nat /\ Forall op_fits c.1.

Context (Hcalls : Forall call_ok calls).

Definition ops_of (ws : list nat) : list (bytes * option bytes) :=
  concat ((fun w => match calls !! w with Some c => c.1 | None => [] end) <$> ws).

Definition ids_of (ws : list nat) : list RequestIdentity :=
  concat ((fun w => match calls !! w with Some c => option_list c.2 | None => [] end) <$> ws).

(** The operations the requests announce, and what a round can carry of them. *)
Definition announced (ws : list nat) : nat :=
  foldr (fun w n => match calls !! w with Some c => u16_len c.1 + n | None => n end)%nat 0%nat ws.

Definition max_ops : nat := Z.to_nat 65535.
Definition sat16 (n : nat) : Z := Z.min (Z.of_nat n) 65535.

Definition batch_ok (b : PendingBatch) : Prop :=
  op_bodies b = encode_bodies (ops_of (waiters b)) /\ op_count b = sat16 (announced (waiters b)) /\
  identities b = ids_of (waiters b) /\ Forall (fun w => is_Some (calls !! w)) (waiters b).

Definition round_ok (r : round) : Prop :=
  r_payload r = to_le_bytes 2 (sat16 (announced (r_waiters r))) ++ encode_bodies (ops_of (r_waiters r)) /\
  r_identities r = ids_of (r_waiters r) /\ Forall (fun w => is_Some (calls !! w)) (r_waiters r).

Lemma round_of_ok b : batch_ok b -> round_ok (round_of b).
Proof. intros (H1 & H2 & H3 & H4). unfold round_ok, round_of. simpl. by rewrite H1, H2, H3. Qed.

Lemma encode_bodies_app l k : encode_bodies (l ++ k) = encode_bodies l ++ encode_bodies k.
Proof. unfold encode_bodies. by rewrite fmap_app, concat_app. Qed.

Lemma ops_of_app l k : ops_of (l ++ k) = ops_of l ++ ops_of k.
Proof. unfold ops_of. by rewrite fmap_app, concat_app. Qed.

Lemma announced_app l k : announced (l ++ k) = (announced l + announced k)%nat.
Proof. induction l as [|w l IH]; [done|]. simpl. rewrite IH. destruct (calls !! w); lia. Qed.

Lemma announced_all ws : (length (ops_of ws) <= max_ops)%nat -> announced ws = length (ops_of ws).
Proof.
  unfold ops_of, max_ops. induction ws as [|w ws IH]; [done|]. rewrite fmap_cons. cbn [concat]. rewrite length_app. intros H.
  simpl. rewrite IH by lia. destruct (calls !! w) as [c|]; [|done]. unfold u16_len. rewrite Z.mod_small; lia.
Qed.

Lemma ids_of_app l k : ids_of (l ++ k) = ids_of l ++ ids_of k.
Proof. unfold ids_of. by rewrite fmap_app, concat_app. Qed.

Lemma default_batch_ok : batch_ok default_batch.
Proof. by unfold batch_ok. Qed.

Lemma request_count c : call_ok c -> request_op_count (request_of c) = Z.of_nat (u16_len c.1).
Proof.
  intros _. unfold request_op_count, request_of, encode_kv_payload. cbn [payload].
  rewrite (proj2 (Nat.leb_le _ _)) by (rewrite length_app, to_le_bytes_length; lia).
  rewrite take_app_le, take_ge by (rewrite to_le_bytes_length; lia).
  rewrite from_to_le_mod. change (width 2) with 65536. unfold u16_len. rewrite Z2Nat.id; [done|]. by apply Z.mod_pos_bound.
Qed.

Lemma request_body c : op_body (request_of c) = encode_bodies c.1.
Proof. reflexivity. Qed.

Lemma join_ok b w c : batch_ok b -> calls !! w = Some c -> batch_ok (join b w (request_of c)).
Proof.
  intros (H1 & H2 & H3 & H4) Hw. pose proof (Forall_lookup_1 _ _ _ _ Hcalls Hw) as Hc.
  assert (Ho : ops_of [w] = c.1) by (unfold ops_of; simpl; rewrite Hw; apply app_nil_r).
  assert (Hi : ids_of [w] = option_list c.2) by (unfold ids_of; simpl; rewrite Hw; apply app_nil_r).
  unfold batch_ok, join. cbn [op_bodies op_count identities waiters].
  rewrite ops_of_app, announced_app, ids_of_app, encode_bodies_app, Ho, Hi, H1, H2, H3, request_body, (request_count c Hc).
  split_and!; [done| |done|].
  - unfold sat_add16, sat16. simpl. rewrite Hw. lia.
  - apply Forall_app. split; [done|]. apply Forall_singleton. eauto.
Qed.

Lemma single_ok w c : calls !! w = Some c ->
  round_ok (mkRound (to_le_bytes 2 (request_op_count (request_of c)) ++ op_body (request_of c))
    (option_list (identity (request_of c))) [w]).
Proof.
  intros Hw. pose proof (Forall_lookup_1 _ _ _ _ Hcalls Hw) as Hc. unfold round_ok. cbn [r_payload r_identities r_waiters].
  assert (Ho : ops_of [w] = c.1) by (unfold ops_of; simpl; rewrite Hw; apply app_nil_r).
  assert (Hi : ids_of [w] = option_list c.2) by (unfold ids_of; simpl; rewrite Hw; apply app_nil_r).
  rewrite Ho, Hi, request_body, (request_count c Hc). split_and!; [|done|apply Forall_singleton; eauto].
  f_equal. f_equal. unfold announced, foldr. rewrite Hw. unfold sat16, u16_len.
  pose proof (Z.mod_pos_bound (Z.of_nat (length c.1)) 65536). lia.
Qed.

(** A batch with no operations has no requests. *)
Lemma empty_batch b : batch_ok b -> op_count b = 0 -> waiters b = [].
Proof.
  intros (_ & H2 & _ & H4) H0. rewrite H2 in H0. destruct (waiters b) as [|w ws]; [done|]. exfalso.
  apply Forall_cons in H4 as [[c Hw] _]. pose proof (Forall_lookup_1 _ _ _ _ Hcalls Hw) as (Hc & _).
  unfold sat16 in H0. simpl in H0. rewrite Hw in H0. lia.
Qed.

(** The requests a thread carries, and what it adds to the counter. *)
Definition carries (p : pc) : list nat :=
  match p with Enqueue w _ => [w] | StartRound r | InRound r => r_waiters r | _ => [] end.

Definition counted (p : pc) : Z := match p with InRound _ | EndRound => 1 | _ => 0 end.

(** A thread that will look at the pending batch. *)
Definition active (p : pc) : bool := match p with Enqueue _ _ | Done => false | _ => true end.

Definition pc_ok (p : pc) : Prop :=
  match p with
  | Enqueue w q => exists c, calls !! w = Some c /\ q = request_of c
  | StartRound r | InRound r => round_ok r
  | _ => True
  end.

Definition pending (g : shared) : list nat := match coalescer g with Some b => waiters b | None => [] end.

Definition held (ps : list pc) : list nat := concat (carries <$> ps).

Definition total_counted (ps : list pc) : Z := foldr (fun p n => counted p + n) 0 ps.

Record inv (g : shared) (ps : list pc) : Prop := {
  c_total : pending g ++ answered g ++ held ps ≡ₚ List.seq 0 (length calls);
  c_inflight : rounds_inflight g = total_counted ps;
  c_active : is_Some (coalescer g) -> exists i p, ps !! i = Some p /\ active p = true;
  c_batch : forall b, coalescer g = Some b -> batch_ok b;
  c_threads : Forall pc_ok ps;
  c_rounds : Forall round_ok (proposed g);
  c_answered : answered g = concat (r_waiters <$> proposed g);
}.

Lemma insert_split (ps : list pc) i p p' : ps !! i = Some p ->
  ps = take i ps ++ p :: drop (S i) ps /\ <[i := p']> ps = take i ps ++ p' :: drop (S i) ps.
Proof.
  intros Hi. split; [symmetry; by apply take_drop_middle|].
  apply insert_take_drop. by apply lookup_lt_Some in Hi.
Qed.

Lemma held_insert ps i p p' : ps !! i = Some p ->
  held (<[i := p']> ps) ++ carries p ≡ₚ held ps ++ carries p'.
Proof.
  intros Hi. destruct (insert_split ps i p p' Hi) as [H1 H2]. rewrite H2. rewrite H1 at 3. unfold held.
  rewrite !fmap_app, !concat_app, !fmap_cons. simpl. solve_Permutation.
Qed.

Lemma total_app l k : total_counted (l ++ k) = total_counted l + total_counted k.
Proof. induction l; simpl; lia. Qed.

Lemma total_insert ps i p p' : ps !! i = Some p ->
  total_counted (<[i := p']> ps) = total_counted ps - counted p + counted p'.
Proof.
  intros Hi. destruct (insert_split ps i p p' Hi) as [H1 H2]. rewrite H2. rewrite H1 at 3.
  rewrite !total_app. simpl. lia.
Qed.

Lemma total_nonneg ps : 0 <= total_counted ps.
Proof. induction ps as [|[] ps IH]; simpl; lia. Qed.

(** A positive counter belongs to some round. *)
Lemma total_active ps : 0 < total_counted ps -> exists i p, ps !! i = Some p /\ active p = true /\ counted p = 1.
Proof.
  induction ps as [|p ps IH]; simpl; [lia|]. intros H.
  destruct (decide (counted p = 1)) as [Hc|Hc].
  - exists 0%nat, p. split; [done|]. by destruct p.
  - destruct IH as (i & q & Hi & Hq); [destruct p; simpl in *; lia|]. by exists (S i), q.
Qed.

(** One thread moves. *)
Lemma coalescer_move_inv g ps i p g' p' :
  inv g ps -> ps !! i = Some p ->
  pending g' ++ answered g' ++ carries p' ≡ₚ pending g ++ answered g ++ carries p ->
  rounds_inflight g' = rounds_inflight g - counted p + counted p' ->
  (is_Some (coalescer g') -> active p' = true \/ (exists j q, j <> i /\ ps !! j = Some q /\ active q = true)) ->
  (forall b, coalescer g' = Some b -> batch_ok b) ->
  pc_ok p' -> Forall round_ok (proposed g') -> answered g' = concat (r_waiters <$> proposed g') ->
  inv g' (<[i := p']> ps).
Proof.
  intros [I1 I2 I3 I4 I5 I6 I7] Hi Hp Hc Ha Hb Hok Hr Han. constructor; auto.
  - pose proof (held_insert ps i p p' Hi) as Hh.
    apply (Permutation_app_inv_r (carries p)). rewrite <- I1.
    transitivity ((pending g' ++ answered g') ++ (held (<[i:=p']> ps) ++ carries p)); [solve_Permutation|].
    rewrite Hh. transitivity (held ps ++ (pending g' ++ answered g' ++ carries p')); [solve_Permutation|].
    rewrite Hp. solve_Permutation.
  - rewrite (total_insert ps i p p' Hi), Hc, I2. done.
  - intros H. destruct (Ha H) as [H'|(j & q & Hne & Hj & Hq)].
    + exists i, p'. split; [|done]. apply list_lookup_insert_eq. by apply lookup_lt_Some in Hi.
    + exists j, q. split; [|done]. by rewrite list_lookup_insert_ne.
  - apply Forall_insert; auto.
Qed.

(** Another thread is active. *)
Lemma other_active g ps i p :
  inv g ps -> ps !! i = Some p -> active p = false -> is_Some (coalescer g) ->
  exists j q, j <> i /\ ps !! j = Some q /\ active q = true.
Proof.
  intros I Hi Hp Hs. destruct (c_active _ _ I Hs) as (j & q & Hj & Hq). exists j, q. split; [|done].
  intros ->. congruence.
Qed.

Lemma other_counted g ps i p :
  inv g ps -> ps !! i = Some p -> counted p = 0 -> 0 < rounds_inflight g ->
  exists j q, j <> i /\ ps !! j = Some q /\ active q = true.
Proof.
  intros I Hi Hp Hpos. rewrite (c_inflight _ _ I) in Hpos.
  destruct (total_active ps Hpos) as (j & q & Hj & Hq & Hc). exists j, q. split; [|done].
  intros ->. assert (p = q) by congruence. subst. lia.
Qed.

Lemma coalescer_step_inv g ps i p :
  inv g ps -> ps !! i = Some p ->
  let '(g', p') := tstep max_keys threshold g p in inv g' (<[i := p']> ps).
Proof.
  intros I Hi. pose proof (Forall_lookup_1 _ _ _ _ (c_threads _ _ I) Hi) as Hok.
  assert (Hact : active p = true -> forall q, active q = true ->
    is_Some (coalescer g) -> active q = true \/ (exists j q, j <> i /\ ps !! j = Some q /\ active q = true)) by auto.
  destruct p as [w q|r|r| | | |]; simpl in *.
  - destruct Hok as (c & Hw & ->). destruct (coalescer g) as [b|] eqn:Eb.
    + pose proof (join_ok b w c (c_batch _ _ I b Eb) Hw) as Hj.
      assert (Hp : pending g = waiters b) by (unfold pending; by rewrite Eb).
      destruct (max_keys <=? _); (eapply coalescer_move_inv; [exact I|exact Hi|..]); simpl; auto; try apply I.
      * rewrite Hp. simpl. solve_Permutation.
      * lia.
      * intros b' [= <-]. apply default_batch_ok.
      * by apply round_of_ok.
      * rewrite Hp. unfold pending. simpl. solve_Permutation.
      * lia.
      * intros _. right. eapply other_active; [exact I|exact Hi|done|]. rewrite Eb. eauto.
      * by intros b' [= <-].
    + eapply coalescer_move_inv; [exact I|exact Hi|..]; simpl; auto; try apply I.
      * unfold pending. rewrite Eb. simpl. solve_Permutation.
      * lia.
      * intros b' [= <-]. apply default_batch_ok.
      * by apply single_ok.
  - eapply coalescer_move_inv; [exact I|exact Hi|..]; simpl; auto; try apply I; lia.
  - eapply coalescer_move_inv; [exact I|exact Hi|..]; simpl; auto; try apply I.
    + unfold pending. simpl. solve_Permutation.
    + lia.
    + apply Forall_app. split; [apply I|by apply Forall_singleton].
    + rewrite (c_answered _ _ I), fmap_app, concat_app. simpl. by rewrite app_nil_r.
  - eapply coalescer_move_inv; [exact I|exact Hi|..]; simpl; auto; try apply I; lia.
  - destruct (_ && _) eqn:Et; (eapply coalescer_move_inv; [exact I|exact Hi|..]); simpl; auto; try apply I; try lia.
    intros _. right. apply andb_true_iff in Et as [H1 H2]. apply Z.ltb_lt in H1. apply Z.leb_le in H2.
    eapply other_counted; [exact I|exact Hi|done|lia].
  - destruct (coalescer g) as [b|] eqn:Eb.
    2: { eapply coalescer_move_inv; [exact I|exact Hi|..]; simpl; auto; try apply I; try lia. rewrite Eb. by intros [? ?]. }
    pose proof (c_batch _ _ I b Eb) as Hb.
    assert (Hp : pending g = waiters b) by (unfold pending; by rewrite Eb).
    assert (Hnext : forall x, (if (0 <? op_count b) || (0 <? rounds_inflight g) then Some default_batch else None) = Some x ->
      batch_ok x) by (intros x; destruct (_ || _); [intros [= <-]; apply default_batch_ok|done]).
    assert (Hnw : pending (mkShared (if (0 <? op_count b) || (0 <? rounds_inflight g) then Some default_batch else None)
      (rounds_inflight g) (proposed g) (answered g)) = []) by (unfold pending; simpl; by destruct (_ || _)).
    destruct (Z.eqb_spec (op_count b) 0) as [H0|H0]; (eapply coalescer_move_inv; [exact I|exact Hi|..]); simpl; auto; try apply I.
    + rewrite Hnw, Hp, (empty_batch b Hb H0). solve_Permutation.
    + lia.
    + intros Hs. right. rewrite H0 in Hs. simpl in Hs. destruct (Z.ltb_spec 0 (rounds_inflight g)); [|by destruct Hs].
      eapply other_counted; [exact I|exact Hi|done|done].
    + rewrite Hnw, Hp. simpl. solve_Permutation.
    + lia.
    + by apply round_of_ok.
  - rewrite list_insert_id by done. done.
Qed.

Lemma coalescer_exec_inv sched : forall g ps, inv g ps ->
  let '(g', ps') := exec max_keys threshold (g, ps) sched in inv g' ps'.
Proof.
  induction sched as [|i sched IH]; intros g ps I; [done|]. simpl. unfold step. simpl.
  destruct (ps !! i) as [p|] eqn:Ei; [|by apply IH]. pose proof (coalescer_step_inv g ps i p I Ei) as H.
  destruct (tstep max_keys threshold g p) as [g' p']. by apply IH.
Qed.

Lemma held_start watchdogs :
  held (imap Enqueue (request_of <$> calls) ++ repeat TakePending watchdogs) = List.seq 0 (length calls) /\
  total_counted (imap Enqueue (request_of <$> calls) ++ repeat TakePending watchdogs) = 0 /\
  Forall pc_ok (imap Enqueue (request_of <$> calls) ++ repeat TakePending watchdogs).
Proof.
  assert (Hw : held (repeat TakePending watchdogs) = [] /\ total_counted (repeat TakePending watchdogs) = 0 /\
    Forall pc_ok (repeat TakePending watchdogs)).
  { induction watchdogs as [|n (IH1 & IH2 & IH3)]; [done|]. unfold held in *. simpl. by split_and!; [| |constructor]. }
  destruct Hw as (Hw1 & Hw2 & Hw3).
  assert (Hgen : forall l k, held (imap (fun i => Enqueue (k + i)) (request_of <$> l)) = List.seq k (length l) /\
    total_counted (imap (fun i => Enqueue (k + i)) (request_of <$> l)) = 0).
  { clear. induction l as [|c l IH]; intros k; [done|]. destruct (IH (S k)) as [H1 H2].
    assert (He : imap ((fun i => Enqueue (k + i)) ∘ S) (request_of <$> l) = imap (fun i => Enqueue (S k + i)) (request_of <$> l))
      by (apply imap_ext; intros; simpl; f_equal; lia).
    rewrite fmap_cons, imap_cons, He. split.
    - unfold held in *. rewrite fmap_cons. cbn [concat]. rewrite H1. simpl. by rewrite Nat.add_0_r.
    - change (0 + total_counted (imap (fun i => Enqueue (S k + i)) (request_of <$> l)) = 0). lia. }
  destruct (Hgen calls 0%nat) as [H1 H2].
  change (held (imap Enqueue (request_of <$> calls)) = List.seq 0 (length calls)) in H1.
  change (total_counted (imap Enqueue (request_of <$> calls)) = 0) in H2. split_and!.
  - unfold held in *. rewrite fmap_app, concat_app, H1, Hw1. apply app_nil_r.
  - rewrite total_app. lia.
  - apply Forall_app. split; [|done]. apply Forall_lookup. intros j p Hj.
    rewrite list_lookup_imap, list_lookup_fmap in Hj. destruct (calls !! j) as [c|] eqn:Ec; simplify_eq/=. eauto.
Qed.

Lemma coalescer_start_inv watchdogs :
  inv (start (request_of <$> calls) watchdogs).1 (start (request_of <$> calls) watchdogs).2.
Proof.
  destruct (held_start watchdogs) as (H1 & H2 & H3). constructor; simpl; auto.
  - by rewrite H1.
  - by intros [? ?].
  - done.
Qed.

Lemma ops_of_fit ws : Forall op_fits (ops_of ws).
Proof.
  unfold ops_of. induction ws as [|w ws IH]; [by constructor|]. cbn [fmap list_fmap concat]. apply Forall_app.
  split; [|done]. destruct (calls !! w) as [c|] eqn:Ew; [|by constructor].
  apply (Forall_lookup_1 _ _ _ _ Hcalls Ew).
Qed.

Lemma round_decodes r : round_ok r ->
  decode (r_payload r) = take (announced (r_waiters r) `min` max_ops) (batch_of (ops_of (r_waiters r))).
Proof.
  intros (-> & _). rewrite decode_counted; [|unfold sat16; lia|apply ops_of_fit].
  rewrite Z.mod_small by (unfold sat16; lia). f_equal. unfold sat16, max_ops. lia.
Qed.

(** Up to 65535 operations a round carries them all. *)
Lemma round_decodes_all r : round_ok r -> (length (ops_of (r_waiters r)) <= max_ops)%nat ->
  decode (r_payload r) = batch_of (ops_of (r_waiters r)).
Proof.
  intros Hr Hl. rewrite (round_decodes r Hr), announced_all by done.
  apply take_ge. unfold batch_of. rewrite length_fmap. lia.
Qed.

End proof.

(** C9. Coalescing loses nothing, repeats nothing and reorders nothing within a
    round: whatever the schedule of the requests, the rounds and the watchdog, no
    request is answered twice, every round holds the identities of the requests it
    answers and their operations, in order, and when every thread has finished
    every request has been answered.  A round holds all its operations if they are
    at most 65535, and else the first ones, as many as the 16-bit counts of its
    requests and its own announce.  A request's count must not be 0: one of 65536
    operations can be dropped with its batch. *)
Theorem coalescer_exactly_once max_keys threshold calls watchdogs sched :
  Forall call_ok calls ->
  let c := exec max_keys threshold (start (request_of <$> calls) watchdogs) sched in
  NoDup (answered c.1) /\ answered c.1 = concat (r_waiters <$> proposed c.1) /\
  (forall r, r ∈ proposed c.1 ->
     ((length (ops_of calls (r_waiters r)) <= max_ops)%nat -> decode (r_payload r) = batch_of (ops_of calls (r_waiters r))) /\
     decode (r_payload r) =
       take (announced calls (r_waiters r) `min` max_ops) (batch_of (ops_of calls (r_waiters r))) /\
     r_identities r = ids_of calls (r_waiters r)) /\
  (quiescent c -> answered c.1 ≡ₚ List.seq 0 (length calls)).
Proof.
  intros Hc c. pose proof (coalescer_exec_inv max_keys threshold calls Hc sched _ _ (coalescer_start_inv calls watchdogs)) as I.
  rewrite <- surjective_pairing in I. fold c in I. destruct c as [g ps]. simpl. split_and!.
  - assert (Hnd : NoDup (pending g ++ answered g ++ held ps)) by (rewrite (c_total _ _ _ I); apply NoDup_ListNoDup, seq_NoDup).
    apply NoDup_app in Hnd as (_ & _ & Hnd). by apply NoDup_app in Hnd as (Hnd & _).
  - apply I.
  - intros r Hr. pose proof (proj1 (Forall_forall _ _) (c_rounds _ _ _ I) r Hr) as Hok.
    split_and!; [by apply round_decodes_all|by apply round_decodes|apply Hok].
  - intros Hq. unfold quiescent in Hq. simpl in Hq. rewrite <- (c_total _ _ _ I).
    assert (Hh : held ps = []).
    { clear -Hq. unfold held. induction Hq as [|p ps -> Hq IH]; [done|]. simpl. done. }
    assert (Hp : pending g = []).
    { unfold pending. destruct (coalescer g) as [b|] eqn:Eb; [|done]. exfalso.
      destruct (c_active _ _ _ I) as (i & p & Hi & Ha); [rewrite Eb; eauto|].
      pose proof (Forall_lookup_1 _ _ _ _ Hq Hi) as ->. done. }
    rewrite Hh, Hp. by rewrite app_nil_r.
Qed.

(** Three writes: the second and the third join while the first is in flight. *)
Definition demo_calls : list (list (bytes * option bytes) * option RequestIdentity) :=
  [([([1], Some [7])], None); ([([2], Some [8])], Some (mkIdentity 4 1)); ([([1], None)], None)].

Definition demo_schedule : list nat := [0; 0; 1; 2; 0; 0; 0; 0; 0; 0; 0; 0; 0]%nat.

Lemma coalescer_exactly_once_witness :
  let c := exec 32 1 (start (request_of <$> demo_calls) 0) demo_schedule in
  quiescent c /\ r_waiters <$> proposed c.1 = [[0%nat]; [1%nat; 2%nat]] /\ answered c.1 ≡ₚ [0; 1; 2]%nat.
Proof.
  intros c. destruct (coalescer_exactly_once 32 1 demo_calls 0 demo_schedule) as (_ & _ & _ & H).
  - repeat constructor; vm_compute; congruence.
  - assert (Hq : quiescent c) by (vm_compute; repeat constructor).
    split; [exact Hq|]. split; [vm_compute; reflexivity|]. apply (H Hq).
Defined.

End Coalescer.
