(* ===== verification/Learner.v ===== *)
(** * The learner

    Models [src/lib/crowdb-kv/src/paxos/learner.rs] and the learner half of
    [cluster/local_replica_apply.rs]: the chosen and applied frontiers with their
    out-of-order maps, the high-water mark, the per-client request-result
    windows, [apply_entry], [learn] and the split [spawn_learn_chosen].  Each
    operation runs here without interference; [LearnerConc] interleaves the
    frontier updates.

    The theorems say that both frontiers are exactly the longest prefix learned
    or applied so far, that learners of the same entries reach the same state
    whatever the order and the repetitions, and what a request-result window
    remembers. *)

From stdpp Require Import prelude gmap list.
From Stdlib Require Import ZArith Lia.
From S2P Require Import Prelude Roles Bytes KvOp.

Module Learner.
Import KvOp.

(** ** Request results *)

Definition REQUEST_RESULT_WINDOW : nat := 64.

(** [(seq, slot)] pairs, oldest first. *)
Abbreviation RequestResultWindow := (list (Z * Z)).

Definition window_record (w : RequestResultWindow) (seq slot : Z) : RequestResultWindow :=
  if existsb (fun e => e.1 =? seq) w then w
  else let w' := w ++ [(seq, slot)] in
       if (REQUEST_RESULT_WINDOW <? length w')%nat then tail w' else w'.

Definition window_lookup (w : RequestResultWindow) (seq : Z) : option Z :=
  snd <$> find (fun e => e.1 =? seq) (rev w).

(** ** State *)

Record PxLearner (E : Type) := mkLearner {
  engine : E;
  contiguous_chosen : Z;
  contiguous_applied : Z;
  last_chosen_slot : Z;
  last_chosen_term : Z;
  out_of_order : gmap Z Z;
  applied_out_of_order : gmap Z unit;
  request_results : gmap Z RequestResultWindow;
}.
Arguments mkLearner {E}.
Arguments engine {E}.
Arguments contiguous_chosen {E}.
Arguments contiguous_applied {E}.
Arguments last_chosen_slot {E}.
Arguments last_chosen_term {E}.
Arguments out_of_order {E}.
Arguments applied_out_of_order {E}.
Arguments request_results {E}.

(** [while out_of_order contains next]: the frontier swallows it.  The map bounds
    the number of turns. *)
Fixpoint drain_frontier {V} (fuel : nat) (c : Z) (m : gmap Z V) : Z * gmap Z V :=
  match fuel with
  | O => (c, m)
  | S fuel =>
      let next := c +w 1 in
      match m !! next with
      | None => (c, m)
      | Some _ => drain_frontier fuel next (delete next m)
      end
  end.

(** [get_or_insert] followed by the drain. *)
Definition advance_frontier {V} (c : Z) (m : gmap Z V) (slot : Z) (v : V) : Z * gmap Z V :=
  if c <? slot then
    let m := match m !! slot with Some _ => m | None => <[slot := v]> m end in
    drain_frontier (size m) c m
  else (c, m).

Section learner.
Context {E : Type} `{!KVEngine E}.

(** [with_engine] *)
Definition with_engine (e : E) : PxLearner E := mkLearner e 0 0 0 0 ∅ ∅ ∅.

Definition update_last_chosen (l : PxLearner E) (slot term : Z) : PxLearner E * bool :=
  if last_chosen_slot l <? slot then
    (mkLearner (engine l) (contiguous_chosen l) (contiguous_applied l) slot term
       (out_of_order l) (applied_out_of_order l) (request_results l), true)
  else (l, false).

Definition note_chosen (l : PxLearner E) (slot term : Z) : PxLearner E * bool :=
  update_last_chosen l slot term.

Definition update_chosen_frontier (l : PxLearner E) (slot term : Z) : PxLearner E :=
  let l := (update_last_chosen l slot term).1 in
  let '(c, m) := advance_frontier (contiguous_chosen l) (out_of_order l) slot term in
  mkLearner (engine l) c (contiguous_applied l) (last_chosen_slot l) (last_chosen_term l) m
    (applied_out_of_order l) (request_results l).

Definition advance_applied_frontier (l : PxLearner E) (slot : Z) : PxLearner E :=
  let '(c, m) := advance_frontier (contiguous_applied l) (applied_out_of_order l) slot tt in
  mkLearner (engine l) (contiguous_chosen l) c (last_chosen_slot l) (last_chosen_term l)
    (out_of_order l) m (request_results l).

Definition is_chosen (l : PxLearner E) (slot : Z) : bool :=
  (slot <=? contiguous_chosen l) || bool_decide (is_Some (out_of_order l !! slot)).

Definition seed_resume_frontier (l : PxLearner E) (slot term : Z) : PxLearner E :=
  mkLearner (engine l) slot slot slot term (out_of_order l) (applied_out_of_order l) (request_results l).

Definition request_result_lookup (l : PxLearner E) (client_id seq : Z) : option Z :=
  if client_id =? 0 then None
  else w ← request_results l !! client_id; window_lookup w seq.

Definition record_one (m : gmap Z RequestResultWindow) (slot : Z) (i : RequestIdentity)
  : gmap Z RequestResultWindow :=
  if client_id i =? 0 then m
  else <[client_id i := window_record (default [] (m !! client_id i)) (seq i) slot]> m.

Definition record_request_results (l : PxLearner E) (ids : list RequestIdentity) (slot : Z)
  : PxLearner E :=
  mkLearner (engine l) (contiguous_chosen l) (contiguous_applied l) (last_chosen_slot l)
    (last_chosen_term l) (out_of_order l) (applied_out_of_order l)
    (foldl (fun m i => record_one m slot i) (request_results l) ids).

(** [apply_entry] on the engine: an empty batch only advances its watermark. *)
Definition apply_entry (e : E) (slot : Z) (payload : bytes) : E * bool :=
  let batch := decode payload in
  if bool_decide (batch = []) then (engine_noop e slot, true) else engine_apply e slot batch.

Definition set_engine (l : PxLearner E) (e : E) : PxLearner E :=
  mkLearner e (contiguous_chosen l) (contiguous_applied l) (last_chosen_slot l)
    (last_chosen_term l) (out_of_order l) (applied_out_of_order l) (request_results l).

(** The deferred half of [spawn_learn_chosen], also one turn of the apply loop. *)
Definition apply_and_advance (l : PxLearner E) (slot : Z) (payload : bytes) : PxLearner E :=
  let '(e, ok) := apply_entry (engine l) slot payload in
  if ok then advance_applied_frontier (set_engine l e) slot else set_engine l e.

Definition learn (l : PxLearner E) (entry : PxLogEntry) (ids : list RequestIdentity) : PxLearner E :=
  let '(e, ok) := apply_entry (engine l) (slot entry) (payload entry) in
  let l := update_chosen_frontier (set_engine l e) (slot entry) (term entry) in
  let l := if ok then advance_applied_frontier l (slot entry) else l in
  record_request_results l ids (slot entry).

(** The synchronous half of [spawn_learn_chosen]. *)
Definition spawn_learn_chosen (l : PxLearner E) (entry : PxLogEntry) (ids : list RequestIdentity)
  : PxLearner E :=
  record_request_results (update_chosen_frontier l (slot entry) (term entry)) ids (slot entry).

End learner.

(** ** Frontiers *)

(** The frontier of a set of slots: the longest prefix from 1, with the rest of
    the set in the out-of-order map. *)
Definition frontier_of {V} (c : Z) (m : gmap Z V) (S : gset Z) : Prop :=
  0 <= c <= u64_max /\
  (forall s, 1 <= s <= c -> s ∈ S) /\
  ~ (c + 1 ∈ S) /\
  (forall s, is_Some (m !! s) <-> s ∈ S /\ c < s).

(** Slots are [u64] and start at 1. *)
Definition slot_set (S : gset Z) : Prop := forall s, s ∈ S -> 1 <= s <= u64_max.

Lemma frontier_empty {V} : frontier_of 0 (∅ : gmap Z V) ∅.
Proof.
  unfold frontier_of, u64_max. split_and!; try lia; try set_solver.
  intros s. rewrite lookup_empty. split; [by intros [? ?]|set_solver].
Qed.

Lemma next_slot c : 0 <= c < u64_max -> c +w 1 = c + 1.
Proof. intros H. rewrite wrap64_id; [done|]. unfold is_u64. lia. Qed.

Lemma drain_spec {V} (S : gset Z) (fuel : nat) : forall c (m : gmap Z V),
  slot_set S -> 0 <= c <= u64_max -> (forall s, 1 <= s <= c -> s ∈ S) ->
  (forall s, is_Some (m !! s) <-> s ∈ S /\ c < s) -> (size m <= fuel)%nat ->
  let '(c', m') := drain_frontier fuel c m in frontier_of c' m' S.
Proof.
  induction fuel as [|fuel IH]; intros c m HS Hc Hp Hm Hf; simpl.
  - assert (m = ∅) as -> by (apply map_size_empty_inv; lia). split_and!; try done; try lia.
    intros Hin. specialize (Hm (c + 1)). rewrite lookup_empty in Hm.
    destruct (proj2 Hm) as [? ?]; [split; [done|lia]|done].
  - destruct (m !! (c +w 1)) as [v|] eqn:E.
    + assert (Hin : c +w 1 ∈ S /\ c < c +w 1) by (apply Hm; eauto). destruct Hin as [Hin Hlt].
      assert (Hcu : c < u64_max).
      { destruct (Z.eq_dec c u64_max) as [->|]; [|lia]. exfalso. vm_compute in Hlt. done. }
      rewrite next_slot in * by lia.
      apply IH; try done.
      * lia.
      * intros s Hs. destruct (Z.eq_dec s (c + 1)) as [->|]; [done|]. apply Hp. lia.
      * intros s. destruct (Z.eq_dec s (c + 1)) as [->|].
        { rewrite lookup_delete_eq. split; [by intros [? ?]|lia]. }
        rewrite lookup_delete_ne by done. rewrite Hm. intuition lia.
      * rewrite (map_size_delete_Some (c + 1) m) by eauto. lia.
    + split_and!; try done; try lia. intros Hin. pose proof (HS _ Hin).
      rewrite next_slot in E by lia. destruct (proj2 (Hm (c + 1))) as [? ?]; [split; [done|lia]|congruence].
Qed.

Lemma drain_mono {V} (fuel : nat) : forall c (m : gmap Z V),
  0 <= c -> (forall s, is_Some (m !! s) -> c < s) -> c <= (drain_frontier fuel c m).1.
Proof.
  induction fuel as [|fuel IH]; intros c m Hc Hm; simpl; [lia|].
  destruct (m !! (c +w 1)) as [v|] eqn:E; simpl; [|lia].
  assert (c < c +w 1) by (apply Hm; eauto).
  assert (c +w 1 <= c + 1) by (unfold wrap64; apply Z.mod_le; lia).
  transitivity (c +w 1); [lia|]. apply IH; [lia|].
  intros s [x Hx]. apply lookup_delete_Some in Hx as [Hne Hx].
  assert (c < s) by (apply Hm; eauto). lia.
Qed.

Lemma advance_frontier_spec {V} c (m : gmap Z V) (S : gset Z) slot v :
  slot_set S -> 1 <= slot <= u64_max -> frontier_of c m S ->
  let '(c', m') := advance_frontier c m slot v in frontier_of c' m' ({[slot]} ∪ S) /\ c <= c'.
Proof.
  intros HS Hslot (Hc & Hp & Hn & Hm). unfold advance_frontier.
  assert (HS' : slot_set ({[slot]} ∪ S)) by (intros s; rewrite elem_of_union, elem_of_singleton; intros [->|?]; auto).
  destruct (Z.ltb_spec c slot) as [Hlt|Hge].
  - set (m1 := match m !! slot with Some _ => m | None => <[slot := v]> m end).
    assert (Hm1 : forall s, is_Some (m1 !! s) <-> s ∈ ({[slot]} ∪ S : gset Z) /\ c < s).
    { intros s. rewrite elem_of_union, elem_of_singleton. unfold m1.
      destruct (m !! slot) as [x|] eqn:E.
      - rewrite Hm. destruct (proj1 (Hm slot)) as [? _]; [eauto|]. naive_solver.
      - destruct (Z.eq_dec s slot) as [->|].
        + rewrite lookup_insert_eq. split; [intuition lia|eauto].
        + rewrite lookup_insert_ne by done. rewrite Hm. naive_solver. }
    pose proof (drain_spec ({[slot]} ∪ S) (size m1) c m1 HS' Hc) as Hd.
    pose proof (drain_mono (size m1) c m1) as Hmo.
    destruct (drain_frontier (size m1) c m1) as [c' m']. split.
    + apply Hd; try done. intros s Hs. apply elem_of_union_r, Hp, Hs.
    + apply Hmo; [lia|]. intros s Hs. by apply Hm1 in Hs as [_ ?].
  - split; [|lia]. assert (E : ({[slot]} ∪ S : gset Z) = S).
    { apply set_eq. intros s. rewrite elem_of_union, elem_of_singleton. split; [|auto].
      intros [->|?]; [|done]. apply Hp. lia. }
    rewrite E. split_and!; try done; lia.
Qed.

Lemma frontier_chosen {V} c (m : gmap Z V) (S : gset Z) s :
  slot_set S -> frontier_of c m S -> 1 <= s -> (s <= c \/ is_Some (m !! s)) <-> s ∈ S.
Proof.
  intros HS (Hc & Hp & Hn & Hm) Hs. rewrite Hm. split.
  - intros [?|[? _]]; [apply Hp; lia|done].
  - intros Hin. destruct (Z_le_gt_dec s c); [by left|right]. split; [done|lia].
Qed.

(** ** Every history of a learner *)

Inductive learner_op :=
| OLearn (entry : PxLogEntry) (ids : list RequestIdentity)
| OSpawnLearn (entry : PxLogEntry) (ids : list RequestIdentity)
| OApply (slot : Z) (payload : bytes)
| OChosenNotice (slot term : Z) (ballot_matches : bool).

Definition op_slot (o : learner_op) : Z :=
  match o with
  | OLearn e _ | OSpawnLearn e _ => slot e
  | OApply s _ | OChosenNotice s _ _ => s
  end.

Section histories.
Context {E : Type} `{!KVEngine E}.

Definition exec (l : PxLearner E) (o : learner_op) : PxLearner E :=
  match o with
  | OLearn e ids => learn l e ids
  | OSpawnLearn e ids => spawn_learn_chosen l e ids
  | OApply s p => apply_and_advance l s p
  | OChosenNotice s t true => update_chosen_frontier l s t
  | OChosenNotice s t false => (note_chosen l s t).1
  end.

(** Slots an operation reports chosen, and slots it applied successfully. *)
Definition chosen_by (o : learner_op) : gset Z :=
  match o with
  | OLearn e _ | OSpawnLearn e _ => {[slot e]}
  | OChosenNotice s _ true => {[s]}
  | _ => ∅
  end.

Definition applied_by (l : PxLearner E) (o : learner_op) : gset Z :=
  match o with
  | OLearn e _ => if (apply_entry (engine l) (slot e) (payload e)).2 then {[slot e]} else ∅
  | OApply s p => if (apply_entry (engine l) s p).2 then {[s]} else ∅
  | _ => ∅
  end.

Fixpoint run (l : PxLearner E) (ops : list learner_op) (chosen applied : gset Z)
  : PxLearner E * gset Z * gset Z :=
  match ops with
  | [] => (l, chosen, applied)
  | o :: ops => run (exec l o) ops (chosen_by o ∪ chosen) (applied_by l o ∪ applied)
  end.

Definition learner_ok (l : PxLearner E) (chosen applied : gset Z) : Prop :=
  slot_set chosen /\ slot_set applied /\
  frontier_of (contiguous_chosen l) (out_of_order l) chosen /\
  frontier_of (contiguous_applied l) (applied_out_of_order l) applied /\
  (forall s, s ∈ chosen -> s <= last_chosen_slot l).

Lemma slot_set_add S s : slot_set S -> 1 <= s <= u64_max -> slot_set ({[s]} ∪ S).
Proof. intros HS Hs x. rewrite elem_of_union, elem_of_singleton. intros [->|?]; auto. Qed.

Lemma update_chosen_ok l C A s t :
  1 <= s <= u64_max -> learner_ok l C A -> learner_ok (update_chosen_frontier l s t) ({[s]} ∪ C) A.
Proof.
  intros Hs (HC & HA & Hc & Ha & Hl). unfold update_chosen_frontier, update_last_chosen.
  assert (Hin : forall x, x ∈ ({[s]} ∪ C : gset Z) -> x = s \/ x ∈ C) by set_solver.
  destruct (Z.ltb_spec (last_chosen_slot l) s); simpl;
    pose proof (advance_frontier_spec _ _ _ s t HC Hs Hc) as Hf;
    destruct (advance_frontier (contiguous_chosen l) (out_of_order l) s t) as [c m]; destruct Hf as [Hf _];
    split_and!; simpl; auto using slot_set_add; intros x [->|Hx]%Hin; try lia; specialize (Hl x Hx); lia.
Qed.

Lemma advance_applied_ok l C A s :
  1 <= s <= u64_max -> learner_ok l C A -> learner_ok (advance_applied_frontier l s) C ({[s]} ∪ A).
Proof.
  intros Hs (HC & HA & Hc & Ha & Hl). unfold advance_applied_frontier.
  pose proof (advance_frontier_spec _ _ _ s tt HA Hs Ha) as Hf.
  destruct (advance_frontier (contiguous_applied l) (applied_out_of_order l) s tt) as [c m].
  destruct Hf as [Hf _]. split_and!; simpl; auto using slot_set_add.
Qed.

Lemma learner_exec_ok l o C A :
  1 <= op_slot o <= u64_max -> learner_ok l C A ->
  learner_ok (exec l o) (chosen_by o ∪ C) (applied_by l o ∪ A).
Proof.
  intros Hs Hok. destruct o as [e ids|e ids|s p|s t [|]]; simpl in *.
  - unfold learn. destruct (apply_entry (engine l) (slot e) (payload e)) as [e' [|]]; simpl.
    + apply (advance_applied_ok (update_chosen_frontier (set_engine l e') (slot e) (term e))); [done|].
      by apply update_chosen_ok.
    + rewrite union_empty_l_L. by apply (update_chosen_ok (set_engine l e')).
  - rewrite union_empty_l_L. by apply (update_chosen_ok l).
  - unfold apply_and_advance. rewrite union_empty_l_L.
    destruct (apply_entry (engine l) s p) as [e' [|]]; simpl.
    + by apply (advance_applied_ok (set_engine l e')).
    + rewrite union_empty_l_L. exact Hok.
  - rewrite union_empty_l_L. by apply update_chosen_ok.
  - rewrite !union_empty_l_L. destruct Hok as (HC & HA & Hc & Ha & Hl). unfold note_chosen, update_last_chosen.
    destruct (Z.ltb_spec (last_chosen_slot l) s); split_and!; simpl; auto.
    intros x Hx. specialize (Hl x Hx). lia.
Qed.

Lemma learner_run_ok ops : forall l C A,
  Forall (fun o => 1 <= op_slot o <= u64_max) ops -> learner_ok l C A ->
  let '(l', C', A') := run l ops C A in learner_ok l' C' A'.
Proof.
  induction ops as [|o ops IH]; intros l C A Ho Hok; simpl; [done|].
  apply Forall_cons in Ho as [H1 H2]. apply IH; [done|]. by apply learner_exec_ok.
Qed.

(** After any sequence of learner calls on a fresh learner, whatever the
    engine answers, the chosen frontier is exactly the longest prefix of slots
    reported chosen, a slot counts as chosen exactly when it was reported, the
    applied frontier is exactly the longest prefix of slots whose apply
    succeeded, and no slot below a frontier is left in an out-of-order map. *)
Theorem learner_frontiers_exact e ops :
  Forall (fun o => 1 <= op_slot o <= u64_max) ops ->
  let '(l, chosen, applied) := run (with_engine e) ops ∅ ∅ in
  frontier_of (contiguous_chosen l) (out_of_order l) chosen /\
  frontier_of (contiguous_applied l) (applied_out_of_order l) applied /\
  (forall s, 1 <= s -> is_chosen l s = true <-> s ∈ chosen) /\
  (forall s, s ∈ chosen -> s <= last_chosen_slot l).
Proof.
  intros Ho. assert (H0 : learner_ok (with_engine e) ∅ ∅).
  { split_and!; try done; apply frontier_empty. }
  pose proof (learner_run_ok ops _ _ _ Ho H0) as H. destruct (run _ ops ∅ ∅) as [[l C] A].
  destruct H as (HC & HA & Hc & Ha & Hl). split_and!; try done.
  intros s Hs. unfold is_chosen. rewrite orb_true_iff, Z.leb_le, bool_decide_eq_true.
  by apply frontier_chosen.
Qed.

End histories.

Definition demo_ops : list learner_op :=
  [OLearn (mkEntry 2 (mkBallot 1 1) 1 [0]) []; OChosenNotice 4 1 true; OSpawnLearn (mkEntry 1 (mkBallot 0 1) 1 []) [];
   OApply 1 []; OChosenNotice 9 1 false].

Lemma learner_frontiers_exact_witness :
  let '(l, chosen, applied) := run (with_engine (∅ : gmap bytes (Z * Cell))) demo_ops ∅ ∅ in
  frontier_of (contiguous_chosen l) (out_of_order l) chosen /\ contiguous_chosen l = 2 /\
  contiguous_applied l = 2 /\ last_chosen_slot l = 9 /\ out_of_order l = {[4 := 1]}.
Proof.
  pose proof (learner_frontiers_exact (∅ : gmap bytes (Z * Cell)) demo_ops) as H.
  assert (E : (run (with_engine (∅ : gmap bytes (Z * Cell))) demo_ops ∅ ∅).1.1 =
    mkLearner ∅ 2 2 9 1 {[4 := 1]} ∅ ∅) by (vm_compute; reflexivity).
  destruct (run (with_engine (∅ : gmap bytes (Z * Cell))) demo_ops ∅ ∅) as [[l C] A].
  simpl in E. subst l. destruct H as [H _].
  - unfold demo_ops, u64_max. repeat (apply Forall_cons; split; [simpl; lia|]). apply Forall_nil_2.
  - split; [exact H|]. split_and!; reflexivity.
Defined.

(** ** Convergence *)

Section convergence.
Context {E : Type} `{!KVEngine E} `{!KVEngineLaws E}.

(** The applies of a history, in the order the engine sees them. *)
Definition applies (ops : list learner_op) : list (Z * bytes) :=
  omap (fun o => match o with
                 | OLearn e _ => Some (slot e, payload e)
                 | OApply s p => Some (s, p)
                 | _ => None
                 end) ops.

Fixpoint apply_all (e : E) (l : list (Z * bytes)) : E * bool :=
  match l with
  | [] => (e, true)
  | (s, p) :: l => let '(e, ok) := apply_entry e s p in
                   let '(e, ok') := apply_all e l in (e, ok && ok')
  end.

Lemma engine_frontier (l : PxLearner E) s t : engine (update_chosen_frontier l s t) = engine l.
Proof.
  unfold update_chosen_frontier, update_last_chosen. destruct (last_chosen_slot l <? s); simpl;
    by destruct (advance_frontier _ _ s t).
Qed.

Lemma engine_applied_frontier (l : PxLearner E) s : engine (advance_applied_frontier l s) = engine l.
Proof. unfold advance_applied_frontier. by destruct (advance_frontier _ _ s tt). Qed.

Lemma engine_run ops : forall (l : PxLearner E) C A, engine (run l ops C A).1.1 = (apply_all (engine l) (applies ops)).1.
Proof.
  induction ops as [|o ops IH]; intros l C A; simpl; [done|]. rewrite IH. clear IH.
  destruct o as [e ids|e ids|s p|s t [|]]; simpl.
  - unfold learn. destruct (apply_entry (engine l) (slot e) (payload e)) as [e' [|]]; simpl;
      rewrite ?engine_applied_frontier, engine_frontier; simpl; by destruct (apply_all e' (applies ops)).
  - by rewrite engine_frontier.
  - unfold apply_and_advance. destruct (apply_entry (engine l) s p) as [e' [|]]; simpl;
      rewrite ?engine_applied_frontier; simpl; by destruct (apply_all e' (applies ops)).
  - by rewrite engine_frontier.
  - unfold note_chosen, update_last_chosen. by destruct (last_chosen_slot l <? s).
Qed.

(** What a list of applies leaves at a key. *)
Definition resolve (k : bytes) (old : option (Z * Cell)) (l : list (Z * bytes)) : option (Z * Cell) :=
  foldl (fun old '(s, p) => apply_cell s (last_op (decode p) k) old) old l.

Lemma apply_entry_cell e s p e' k :
  apply_entry e s p = (e', true) ->
  engine_cell e' k = apply_cell s (last_op (decode p) k) (engine_cell e k).
Proof.
  unfold apply_entry. case_bool_decide as Hd.
  - intros [= <-]. rewrite Hd. apply engine_noop_cell.
  - apply engine_apply_cell.
Qed.

Lemma apply_all_cell l k : forall e e',
  apply_all e l = (e', true) -> engine_cell e' k = resolve k (engine_cell e k) l.
Proof.
  induction l as [|[s p] l IH]; intros e e' H; simpl in *; [by simplify_eq|].
  destruct (apply_entry e s p) as [e1 ok] eqn:E1. destruct (apply_all e1 l) as [e2 ok'] eqn:E2.
  injection H as <- H. apply andb_true_iff in H as [-> ->].
  rewrite (IH _ _ E2). by rewrite (apply_entry_cell _ _ _ _ _ E1).
Qed.

Definition resolved (k : bytes) (old : option (Z * Cell)) (l : list (Z * bytes)) (res : option (Z * Cell))
  : Prop :=
  match res with
  | None => old = None /\ forall s p, (s, p) ∈ l -> last_op (decode p) k = None
  | Some (r, c) =>
      (old = Some (r, c) \/
       (forall r0 c0, old = Some (r0, c0) -> r0 < r) /\
       exists p o, (r, p) ∈ l /\ last_op (decode p) k = Some o /\ c = cell_of o) /\
      (forall s p, (s, p) ∈ l -> last_op (decode p) k <> None -> s <= r) /\
      (forall r0 c0, old = Some (r0, c0) -> r0 <= r)
  end.

Lemma resolve_spec k l old : resolved k old l (resolve k old l).
Proof.
  induction l as [|[s p] l IH] using rev_ind.
  { destruct old as [[r c]|]; simpl; [|set_solver]. split_and!; [auto|set_solver|].
    intros ? ? [= -> ->]. lia. }
  unfold resolve. rewrite foldl_app. cbn [foldl]. change (foldl _ old l) with (resolve k old l).
  assert (Hin : forall x y, (x, y) ∈ l ++ [(s, p)] -> (x, y) ∈ l \/ x = s /\ y = p).
  { intros x y. rewrite elem_of_app, list_elem_of_singleton. naive_solver. }
  assert (Hl : forall x, x ∈ l -> x ∈ l ++ [(s, p)]) by set_solver.
  assert (Hsp : (s, p) ∈ l ++ [(s, p)]) by set_solver.
  destruct (last_op (decode p) k) as [o|] eqn:Eo; simpl.
  - destruct (resolve k old l) as [[r c]|]; simpl in *.
    + destruct IH as (H1 & H2 & H3). destruct (Z.ltb_spec r s); simpl; split_and!.
      * right. split; [intros ? ? Ex; specialize (H3 _ _ Ex); lia|eauto].
      * intros x y [Hx|[-> ->]]%Hin Hy; [specialize (H2 x y Hx Hy); lia|lia].
      * intros ? ? Ex. specialize (H3 _ _ Ex). lia.
      * destruct H1 as [H1|(H1 & p' & o' & Hp & Ho)]; [by left|right]. split; [done|]. exists p', o'. auto.
      * intros x y [Hx|[-> ->]]%Hin Hy; [eauto|lia].
      * done.
    + destruct IH as [-> H]. split_and!; [right; split; [done|eauto]| |done].
      intros x y [Hx|[-> ->]]%Hin Hy; [|lia]. by rewrite (H x y Hx) in Hy.
  - destruct (resolve k old l) as [[r c]|]; simpl in *.
    + destruct IH as (H1 & H2 & H3). split_and!; try done.
      * destruct H1 as [H1|(H1 & p' & o' & Hp & Ho)]; [by left|right]. split; [done|]. exists p', o'. auto.
      * intros x y [Hx|[-> ->]]%Hin Hy; [eauto|]. by rewrite Eo in Hy.
    + destruct IH as [-> H]. split; [done|]. intros x y [Hx|[-> ->]]%Hin; [eauto|done].
Qed.

(** One payload per slot. *)
Definition consistent (l : list (Z * bytes)) : Prop :=
  forall s p p', (s, p) ∈ l -> (s, p') ∈ l -> p = p'.

Lemma resolved_unique k old l1 l2 r1 r2 :
  consistent l1 -> (forall x, x ∈ l1 <-> x ∈ l2) ->
  resolved k old l1 r1 -> resolved k old l2 r2 -> r1 = r2.
Proof.
  intros Hc Heq H1 H2.
  assert (Hle : forall l l' r c r' c', (forall x, x ∈ l -> x ∈ l') -> resolved k old l (Some (r, c)) ->
    resolved k old l' (Some (r', c')) -> r <= r').
  { clear. intros l l' r c r' c' Hsub (H1 & _) (_ & H2 & H3).
    destruct H1 as [H1|(_ & p & o & Hp & Ho & _)]; [eauto|]. apply (H2 r p); [auto|]. by rewrite Ho. }
  assert (Hnone : forall l l' r c, (forall x, x ∈ l -> x ∈ l') -> resolved k old l (Some (r, c)) ->
    ~ resolved k old l' None).
  { clear. intros l l' r c Hsub (H1 & _) [Ho Hn].
    destruct H1 as [H1|(_ & p & o & Hp & Hl & _)]; [congruence|]. by rewrite (Hn r p (Hsub _ Hp)) in Hl. }
  destruct r1 as [[r1 c1]|], r2 as [[r2 c2]|]; try done.
  - assert (r1 = r2) as ->.
    { apply Z.le_antisymm; [eapply (Hle l1 l2)|eapply (Hle l2 l1)]; eauto; intros x; apply Heq. }
    destruct H1 as (H1 & _), H2 as (H2 & _). destruct H1 as [H1|(Hlt1 & p1 & o1 & Hp1 & Ho1 & ->)],
      H2 as [H2|(Hlt2 & p2 & o2 & Hp2 & Ho2 & ->)].
    + congruence.
    + specialize (Hlt2 _ _ H1). lia.
    + specialize (Hlt1 _ _ H2). lia.
    + apply Heq in Hp2. rewrite (Hc _ _ _ Hp1 Hp2) in Ho1. congruence.
  - exfalso. eapply (Hnone l1 l2); eauto. intros x. apply Heq.
  - exfalso. eapply (Hnone l2 l1); eauto. intros x. apply Heq.
Qed.

(** State machine safety below agreement: two learners whose engines start
    alike and which apply the same entries, each in its own order and with its
    own repetitions, end with the same cell for every key, as long as no two
    entries of one slot differ and no apply fails. *)
Theorem learners_converge (l1 l2 : PxLearner E) ops1 ops2 :
  consistent (applies ops1) ->
  (forall x, x ∈ applies ops1 <-> x ∈ applies ops2) ->
  (forall k, engine_cell (engine l1) k = engine_cell (engine l2) k) ->
  (apply_all (engine l1) (applies ops1)).2 = true ->
  (apply_all (engine l2) (applies ops2)).2 = true ->
  forall k, engine_cell (engine (run l1 ops1 ∅ ∅).1.1) k = engine_cell (engine (run l2 ops2 ∅ ∅).1.1) k.
Proof.
  intros Hc Heq H0 Ho1 Ho2 k. rewrite !engine_run.
  destruct (apply_all (engine l1) (applies ops1)) as [e1 ok1] eqn:E1.
  destruct (apply_all (engine l2) (applies ops2)) as [e2 ok2] eqn:E2. simpl in *. subst ok1 ok2.
  rewrite (apply_all_cell _ k _ _ E1), (apply_all_cell _ k _ _ E2), H0.
  eapply resolved_unique; eauto using resolve_spec.
Qed.

End convergence.

Definition demo_put (v : Z) : bytes := encode_kv_payload [([1], Some [v])].

Lemma learners_converge_witness :
  let l := with_engine (∅ : gmap bytes (Z * Cell)) in
  engine_cell (engine (run l [OApply 2 (demo_put 8); OApply 1 (demo_put 7); OApply 2 (demo_put 8)] ∅ ∅).1.1) [1]
    = Some (2, Value [8]).
Proof.
  intros l. rewrite (learners_converge l l _ [OApply 1 (demo_put 7); OApply 2 (demo_put 8)]).
  - vm_compute. reflexivity.
  - intros s p p'. cbn [applies omap list_omap]. rewrite !elem_of_cons.
    intros [[= -> ->]|[[= -> ->]|[[= -> ->]|[]%elem_of_nil]]] [[= ->]|[[= ->]|[[= ->]|[]%elem_of_nil]]]; reflexivity.
  - intros x. cbn [applies omap list_omap]. rewrite !elem_of_cons, elem_of_nil. tauto.
  - reflexivity.
  - vm_compute. reflexivity.
  - vm_compute. reflexivity.
Defined.

(** ** Request results *)

Lemma window_lookup_spec w q : NoDup w.*1 ->
  match window_lookup w q with
  | Some s => (q, s) ∈ w
  | None => q ∉ w.*1
  end.
Proof.
  intros Hn. unfold window_lookup. destruct (find _ (rev w)) as [[q' s]|] eqn:E; simpl.
  - apply find_some in E as [Hin Hq]. simpl in Hq. apply Z.eqb_eq in Hq as ->.
    apply in_rev in Hin. by apply list_elem_of_In.
  - intros Hin. apply list_elem_of_fmap in Hin as ([q' s] & -> & Hin).
    apply list_elem_of_In, in_rev in Hin. apply (find_none _ _ E) in Hin. simpl in Hin.
    by rewrite Z.eqb_refl in Hin.
Qed.

Lemma window_lookup_some w q s : NoDup w.*1 -> (q, s) ∈ w -> window_lookup w q = Some s.
Proof.
  intros Hn Hin. pose proof (window_lookup_spec w q Hn) as H. destruct (window_lookup w q) as [s'|].
  - f_equal. assert (E : (q, s') = (q, s)) by (by apply (NoDup_fmap_elem fst w)). by simplify_eq.
  - exfalso. apply H. apply list_elem_of_fmap. by exists (q, s).
Qed.

Definition window_ok (w : RequestResultWindow) : Prop :=
  NoDup w.*1 /\ (length w <= REQUEST_RESULT_WINDOW)%nat.

Lemma existsb_seq w q : existsb (fun e : Z * Z => e.1 =? q) w = true <-> q ∈ w.*1.
Proof.
  rewrite existsb_exists, list_elem_of_fmap. split.
  - intros (x & Hx & E). apply Z.eqb_eq in E. apply list_elem_of_In in Hx. eauto.
  - intros (x & -> & Hx). exists x. apply list_elem_of_In in Hx. by rewrite Z.eqb_refl.
Qed.

(** Recording keeps the window, or appends and drops at most the oldest entry. *)
Lemma window_record_cases w q s : window_ok w ->
  window_ok (window_record w q s) /\
  (q ∈ w.*1 /\ window_record w q s = w \/
   ~ (q ∈ w.*1) /\ exists k, window_record w q s = drop k (w ++ [(q, s)]) /\ (k <= 1)%nat /\
     (k = 1%nat -> length w = REQUEST_RESULT_WINDOW)).
Proof.
  intros [Hn Hl]. unfold window_record. destruct (existsb _ w) eqn:E.
  { apply existsb_seq in E. split; [done|auto]. }
  assert (Hq : q ∉ w.*1) by (intros Hx; apply existsb_seq in Hx; congruence).
  assert (Hn' : NoDup (w ++ [(q, s)]).*1).
  { rewrite fmap_app, NoDup_app. split_and!; [done| |apply NoDup_singleton]. set_solver. }
  cbv zeta. rewrite length_app. simpl.
  destruct (Nat.ltb_spec REQUEST_RESULT_WINDOW (length w + 1)).
  - split.
    + split; [|destruct w; simpl; [unfold REQUEST_RESULT_WINDOW; lia|rewrite length_app; simpl in *; lia]].
      destruct w; [constructor|]. simpl in *. by apply NoDup_cons in Hn' as [_ ?].
    + right. split; [done|]. exists 1%nat. split_and!; [by destruct w|lia..].
  - split; [split; [done|rewrite length_app; simpl; lia]|]. right. split; [done|]. exists 0%nat. split_and!; [done|lia..].
Qed.

Lemma window_keeps_suffix h : forall w pre q s rest,
  window_ok w -> w = pre ++ (q, s) :: rest -> (length rest + length h < REQUEST_RESULT_WINDOW)%nat ->
  exists pre' rest', foldl (fun w '(q, s) => window_record w q s) w h = pre' ++ (q, s) :: rest'.
Proof.
  induction h as [|[q1 s1] h IH]; intros w pre q s rest Hw E Hl; simpl; [eauto|].
  destruct (window_record_cases w q1 s1 Hw) as [Hok [[_ ->]|(_ & k & Hk & Hk1 & Hk2)]].
  - eapply IH; [done|done|]. simpl in Hl. lia.
  - assert (Hkp : (k <= length pre)%nat).
    { destruct k as [|[|]]; [lia| |lia]. specialize (Hk2 eq_refl). destruct pre; [|simpl; lia].
      exfalso. rewrite E in Hk2. simpl in Hk2, Hl. lia. }
    eapply (IH _ (drop k pre) q s (rest ++ [(q1, s1)])); [done| |].
    + rewrite Hk, E, <- app_assoc, drop_app_le by lia. simpl. done.
    + rewrite length_app. simpl in *. lia.
Qed.

(** The records of one client in a list of calls, as its window sees them. *)
Definition client_history (c : Z) (calls : list (list RequestIdentity * Z)) : list (Z * Z) :=
  concat ((fun '(ids, s) => (fun i => (seq i, s)) <$> List.filter (fun i => client_id i =? c) ids) <$> calls).

Definition window_of (h : list (Z * Z)) : RequestResultWindow :=
  foldl (fun w '(q, s) => window_record w q s) [] h.

Lemma window_of_ok h : window_ok (window_of h).
Proof.
  unfold window_of. induction h as [|[q s] h IH] using rev_ind.
  { split; [constructor|]. simpl. unfold REQUEST_RESULT_WINDOW. lia. }
  rewrite foldl_app. simpl. by apply window_record_cases.
Qed.

Lemma window_of_sound h q s : (q, s) ∈ window_of h -> (q, s) ∈ h.
Proof.
  unfold window_of. induction h as [|[q1 s1] h IH] using rev_ind; [done|]. rewrite foldl_app. simpl.
  intros Hin. destruct (window_record_cases (window_of h) q1 s1 (window_of_ok h)) as [_ [[_ E]|(_ & k & E & _)]];
    unfold window_of in E; rewrite E in Hin; [set_solver|].
  assert (Hd : (q, s) ∈ window_of h ++ [(q1, s1)]).
  { rewrite <- (take_drop k (window_of h ++ [(q1, s1)])). apply elem_of_app. by right. }
  set_solver.
Qed.

Section results.
Context {E : Type} `{!KVEngine E}.

Definition record_calls (l : PxLearner E) (calls : list (list RequestIdentity * Z)) : PxLearner E :=
  foldl (fun l '(ids, s) => record_request_results l ids s) l calls.

Lemma record_ids c ids s : c <> 0 -> forall m,
  default [] (foldl (fun m i => record_one m s i) m ids !! c) =
  foldl (fun w '(q, s) => window_record w q s) (default [] (m !! c))
    ((fun i => (seq i, s)) <$> List.filter (fun i => client_id i =? c) ids).
Proof.
  intros Hc. induction ids as [|i ids IH]; intros m; simpl; [done|]. rewrite IH. unfold record_one.
  destruct (Z.eqb_spec (client_id i) 0) as [E0|E0], (Z.eqb_spec (client_id i) c) as [Ec|Ec]; simpl; try congruence.
  - rewrite Ec, lookup_insert_eq. done.
  - by rewrite lookup_insert_ne.
Qed.

Lemma record_calls_window c calls : c <> 0 -> forall l,
  default [] (request_results (record_calls l calls) !! c) =
  foldl (fun w '(q, s) => window_record w q s) (default [] (request_results l !! c)) (client_history c calls).
Proof.
  intros Hc. induction calls as [|[ids s] calls IH]; intros l; simpl; [done|].
  unfold client_history in *. rewrite IH. simpl. rewrite record_ids by done. by rewrite foldl_app.
Qed.

Lemma request_result_lookup_window e calls c q : c <> 0 ->
  request_result_lookup (record_calls (with_engine e) calls) c q =
  window_lookup (window_of (client_history c calls)) q.
Proof.
  intros Hc. unfold request_result_lookup. rewrite (proj2 (Z.eqb_neq _ _)) by done.
  pose proof (record_calls_window c calls Hc (with_engine e)) as H. simpl in H.
  rewrite lookup_empty in H. simpl in H. unfold window_of. rewrite <- H.
  by destruct (request_results _ !! c).
Qed.

(** The request-result cache is an exact memory of recent commits: a hit for
    [(client, seq)] is a slot that was recorded for exactly that request, a
    request recorded when it was not cached is found again as long as fewer than
    64 records of its client followed, and client 0 never hits. *)
Theorem request_results_exact e calls c q :
  request_result_lookup (record_calls (with_engine e) calls) 0 q = None /\
  (forall s, request_result_lookup (record_calls (with_engine e) calls) c q = Some s ->
     (q, s) ∈ client_history c calls) /\
  (forall h1 s h2, c <> 0 -> client_history c calls = h1 ++ (q, s) :: h2 ->
     window_lookup (window_of h1) q = None -> (length h2 < REQUEST_RESULT_WINDOW)%nat ->
     request_result_lookup (record_calls (with_engine e) calls) c q = Some s).
Proof.
  split_and!.
  - done.
  - intros s H. destruct (Z.eq_dec c 0) as [->|Hc]; [done|]. rewrite request_result_lookup_window in H by done.
    pose proof (window_lookup_spec (window_of (client_history c calls)) q (proj1 (window_of_ok _))) as Hs.
    rewrite H in Hs. by apply window_of_sound.
  - intros h1 s h2 Hc Eh Hnone Hlen. rewrite request_result_lookup_window, Eh by done.
    apply window_lookup_some; [apply window_of_ok|].
    pose proof (window_lookup_spec (window_of h1) q (proj1 (window_of_ok h1))) as Hq. rewrite Hnone in Hq.
    destruct (window_record_cases (window_of h1) q s (window_of_ok h1)) as [Hok [[? _]|(_ & k & Ek & Hk & Hk')]]; [done|].
    assert (Hkl : (k <= length (window_of h1))%nat).
    { destruct k as [|[|]]; [lia| |lia]. specialize (Hk' eq_refl). unfold REQUEST_RESULT_WINDOW in *. lia. }
    destruct (window_keeps_suffix h2 (window_record (window_of h1) q s) (drop k (window_of h1)) q s [])
      as (pre & rest & Ew); [done| |simpl; lia|].
    { by rewrite Ek, drop_app_le. }
    assert (Ew' : window_of (h1 ++ (q, s) :: h2) = pre ++ (q, s) :: rest).
    { unfold window_of in *. rewrite foldl_app. simpl. exact Ew. }
    rewrite Ew'. set_solver.
Qed.

End results.

Lemma request_results_exact_witness :
  request_result_lookup (record_calls (with_engine (∅ : gmap bytes (Z * Cell)))
    [([mkIdentity 5 1], 10); ([mkIdentity 5 1; mkIdentity 6 1; mkIdentity 5 2], 11)]) 5 1 = Some 10.
Proof.
  destruct (request_results_exact (∅ : gmap bytes (Z * Cell))
    [([mkIdentity 5 1], 10); ([mkIdentity 5 1; mkIdentity 6 1; mkIdentity 5 2], 11)] 5 1) as (_ & _ & H).
  apply (H [] 10 [(1, 11); (2, 11)]).
  - discriminate.
  - reflexivity.
  - reflexivity.
  - unfold REQUEST_RESULT_WINDOW. simpl. lia.
Defined.

End Learner.
