(* ===== verification/LearnerConc.v ===== *)
(** * Frontier updates under concurrency

    [update_chosen_frontier] / [drain_chosen_frontier] and
    [advance_applied_frontier] / [drain_applied_frontier] of
    [src/lib/crowdb-kv/src/paxos/learner.rs], one atomic access at a time.  The
    two pairs have the same shape: a frontier counter, a concurrent ordered map
    of slots above it, and a flag that makes one caller the drainer.  Any number
    of calls run at once; a schedule names the call that moves next.  Atomics are
    sequentially consistent here.

    The theorem says that no schedule loses a wake-up: when every call has
    returned, the frontier is the longest prefix of the slots passed in, and it
    never ran ahead of them on the way.  A second theorem exhibits a schedule that
    leaves a slot below the frontier in the map. *)

From stdpp Require Import prelude gmap list.
From Stdlib Require Import ZArith Lia.
From S2P Require Import Prelude Learner.

Module LearnerConc.

(** ** The machine *)

(** The frontier, the map (each entry a node of its own) and the drain flag. *)
Record shared := mkShared {
  frontier : Z;
  pending : gmap Z nat;
  drain_owner : bool;
  fresh : nat;
}.

Inductive pc :=
(** [if slot > frontier.load()] *)
| Check (slot : Z)
(** [pending.get_or_insert(slot, _)] *)
| Insert (slot : Z)
(** [if slot <= frontier.load()] *)
| Recheck (slot : Z) (node : nat)
(** [entry.remove(); return] *)
| RemoveStale (slot : Z) (node : nat)
(** first [drain_owner.compare_exchange(false, true)] *)
| Acquire
(** [next = frontier.load() + 1] *)
| LoadNext
(** [pending.get(&next)] *)
| Get (next : Z)
(** [drain_owner.store(false)] *)
| Release (next : Z)
(** [pending.get(&next).is_none()] after the release *)
| GetAgain (next : Z)
(** second [compare_exchange] *)
| Reacquire
(** [entry.remove()] of the next slot *)
| RemoveNext (next : Z) (node : nat)
(** [frontier.store(next)] *)
| Store (next : Z)
| Done.

#[export] Instance pc_eq_dec : EqDecision pc.
Proof. solve_decision. Defined.

(** [Entry::remove]: only the node it holds. *)
Definition remove_node (m : gmap Z nat) (slot : Z) (node : nat) : gmap Z nat :=
  if decide (m !! slot = Some node) then delete slot m else m.

Definition tstep (g : shared) (p : pc) : shared * pc :=
  match p with
  | Check s => (g, if frontier g <? s then Insert s else Done)
  | Insert s =>
      match pending g !! s with
      | Some n => (g, Recheck s n)
      | None => (mkShared (frontier g) (<[s := fresh g]> (pending g)) (drain_owner g) (S (fresh g)),
                 Recheck s (fresh g))
      end
  | Recheck s n => (g, if s <=? frontier g then RemoveStale s n else Acquire)
  | RemoveStale s n =>
      (mkShared (frontier g) (remove_node (pending g) s n) (drain_owner g) (fresh g), Done)
  | Acquire =>
      if drain_owner g then (g, Done)
      else (mkShared (frontier g) (pending g) true (fresh g), LoadNext)
  | LoadNext => (g, Get (frontier g +w 1))
  | Get next => (g, match pending g !! next with Some n => RemoveNext next n | None => Release next end)
  | Release next => (mkShared (frontier g) (pending g) false (fresh g), GetAgain next)
  | GetAgain next => (g, match pending g !! next with Some _ => Reacquire | None => Done end)
  | Reacquire =>
      if drain_owner g then (g, Done)
      else (mkShared (frontier g) (pending g) true (fresh g), LoadNext)
  | RemoveNext next n =>
      (mkShared (frontier g) (remove_node (pending g) next n) (drain_owner g) (fresh g), Store next)
  | Store next => (mkShared next (pending g) (drain_owner g) (fresh g), LoadNext)
  | Done => (g, Done)
  end.

Definition config : Type := shared * list pc.

Definition step (c : config) (i : nat) : config :=
  match c.2 !! i with
  | Some p => let '(g, p') := tstep c.1 p in (g, <[i := p']> c.2)
  | None => c
  end.

Definition exec (c : config) (schedule : list nat) : config := foldl step c schedule.

(** One call per slot, none started. *)
Definition start (slots : list Z) : config := (mkShared 0 ∅ false 0, Check <$> slots).

Definition quiescent (c : config) : Prop := Forall (fun p => p = Done) c.2.

(** ** Invariant *)

Definition holds_drain (p : pc) : bool :=
  match p with
  | LoadNext | Get _ | Release _ | RemoveNext _ _ | Store _ => true
  | _ => false
  end.

(** The call will look at the slot above the frontier before it returns. *)
Definition will_look (next : Z) (p : pc) : Prop :=
  match p with
  | Recheck s _ => s = next
  | Acquire | Reacquire => True
  | GetAgain n => n = next
  | _ => False
  end.

Section proof.
Context (slots : list Z).

(** What the position of one call says of the shared state. *)
Definition pc_ok (g : shared) (p : pc) : Prop :=
  match p with
  | Check s | Insert s | Recheck s _ => s ∈ slots
  | RemoveStale s _ => s <= frontier g
  | Get next | Release next => next = frontier g +w 1
  | RemoveNext next n => next = frontier g +w 1 /\ pending g !! next = Some n
  | Store next => next = frontier g +w 1 /\ next ∈ slots
  | _ => True
  end.

(** Where the slot of a call is. *)
Definition accounted (g : shared) (ps : list pc) (s : Z) : Prop :=
  Check s ∈ ps \/ Insert s ∈ ps \/ s <= frontier g \/ is_Some (pending g !! s) \/ Store s ∈ ps.

Record inv (g : shared) (ps : list pc) : Prop := {
  inv_range : 0 <= frontier g <= u64_max;
  inv_prefix : forall s, 1 <= s <= frontier g -> s ∈ slots;
  inv_pending : forall s, is_Some (pending g !! s) -> s ∈ slots;
  inv_pcs : forall i p, ps !! i = Some p -> pc_ok g p;
  inv_owner : drain_owner g = true <-> exists i p, ps !! i = Some p /\ holds_drain p = true;
  inv_unique : forall i j p q, ps !! i = Some p -> ps !! j = Some q ->
    holds_drain p = true -> holds_drain q = true -> i = j;
  inv_accounted : forall s, s ∈ slots -> accounted g ps s;
  inv_wakeup : is_Some (pending g !! (frontier g +w 1)) -> drain_owner g = false ->
    exists i p, ps !! i = Some p /\ will_look (frontier g +w 1) p;
}.

Context (Hslots : forall s, s ∈ slots -> 1 <= s <= u64_max).

Lemma next_plain c : 0 <= c <= u64_max -> c +w 1 ∈ slots -> c +w 1 = c + 1 /\ c < u64_max.
Proof.
  intros Hc Hin. destruct (Z.eq_dec c u64_max) as [->|]; [|rewrite Learner.next_slot by lia; lia].
  apply Hslots in Hin. exfalso. vm_compute in Hin. by destruct Hin.
Qed.

(** Another call keeps its position, so only its view of the state matters. *)
Lemma inv_move g ps i p g' p' :
  inv g ps -> ps !! i = Some p ->
  0 <= frontier g' <= u64_max -> frontier g <= frontier g' ->
  (forall s, 1 <= s <= frontier g' -> s ∈ slots) ->
  (forall s, is_Some (pending g' !! s) -> s ∈ slots) ->
  pc_ok g' p' ->
  (forall q, (holds_drain q = true -> holds_drain p = false) -> pc_ok g q -> pc_ok g' q) ->
  (drain_owner g' = if holds_drain p' then true else if holds_drain p then false else drain_owner g) ->
  (holds_drain p' = true -> holds_drain p = false -> drain_owner g = false) ->
  (forall s, s ∈ slots -> p = Check s \/ p = Insert s \/ is_Some (pending g !! s) \/ p = Store s ->
     accounted g' (<[i := p']> ps) s) ->
  (is_Some (pending g' !! (frontier g' +w 1)) -> drain_owner g' = false ->
     exists j q, <[i := p']> ps !! j = Some q /\ will_look (frontier g' +w 1) q) ->
  inv g' (<[i := p']> ps).
Proof.
  intros Hinv Hi Hr Hf Hp Hpe Hok Hoth Ho Hacq Hacc Hw.
  assert (Hii : <[i := p']> ps !! i = Some p') by (apply list_lookup_insert_eq; by eapply lookup_lt_Some).
  assert (Hcase : forall j q, <[i := p']> ps !! j = Some q -> j = i /\ q = p' \/ j <> i /\ ps !! j = Some q).
  { intros j q Hj. destruct (decide (j = i)) as [->|Hne]; [rewrite Hii in Hj; simplify_eq; auto|].
    rewrite list_lookup_insert_ne in Hj by done. auto. }
  destruct Hinv as [Ir Ip Ipe Ipc Io Iu Ia Iw]. constructor; try done.
  - intros j q [[-> ->]|[Hne Hj]]%Hcase; [done|]. apply Hoth; [|by eapply Ipc].
    intros Hq. destruct (holds_drain p) eqn:Hhp; [|done]. exfalso. apply Hne. by eapply Iu.
  - rewrite Ho. split.
    + destruct (holds_drain p') eqn:E; [eauto|]. destruct (holds_drain p) eqn:E2; [done|].
      intros H. apply Io in H as (j & q & Hj & Hq). exists j, q. split; [|done].
      rewrite list_lookup_insert_ne; [done|]. intros ->. congruence.
    + intros (j & q & [[-> ->]|[Hne Hj]]%Hcase & Hq); [by rewrite Hq|].
      destruct (holds_drain p'); [done|]. destruct (holds_drain p) eqn:E2; [|apply Io; eauto].
      exfalso. apply Hne. by eapply Iu.
  - intros j k q q' [[-> ->]|[Hne Hj]]%Hcase [[-> ->]|[Hne' Hk]]%Hcase Hq Hq'; try done.
    + destruct (holds_drain p) eqn:E; [by eapply Iu|]. specialize (Hacq Hq eq_refl).
      assert (drain_owner g = true) by (apply Io; eauto). congruence.
    + destruct (holds_drain p) eqn:E; [by eapply Iu|]. specialize (Hacq Hq' eq_refl).
      assert (drain_owner g = true) by (apply Io; eauto). congruence.
    + by eapply Iu.
  - intros s Hs.
    assert (Hkeep : forall q, q ∈ ps -> q <> p -> q ∈ <[i := p']> ps).
    { intros q Hq Hne. apply list_elem_of_lookup in Hq as [j Hj]. apply list_elem_of_lookup. exists j.
      rewrite list_lookup_insert_ne; [done|]. intros ->. congruence. }
    destruct (Ia s Hs) as [H|[H|[H|[H|H]]]].
    + destruct (decide (p = Check s)) as [->|]; [apply Hacc; auto|]. left. apply Hkeep; congruence.
    + destruct (decide (p = Insert s)) as [->|]; [apply Hacc; auto|]. right; left. apply Hkeep; congruence.
    + right; right; left. lia.
    + apply Hacc; auto.
    + destruct (decide (p = Store s)) as [->|]; [apply Hacc; auto|]. do 4 right. apply Hkeep; congruence.
Qed.

(** A move that leaves the shared state alone. *)
Lemma inv_pure g ps i p p' :
  inv g ps -> ps !! i = Some p -> pc_ok g p' -> holds_drain p' = holds_drain p ->
  (forall s, s ∈ slots -> p = Check s \/ p = Insert s \/ p = Store s -> accounted g (<[i := p']> ps) s) ->
  (will_look (frontier g +w 1) p -> is_Some (pending g !! (frontier g +w 1)) -> drain_owner g = false ->
   will_look (frontier g +w 1) p') ->
  inv g (<[i := p']> ps).
Proof.
  intros Hinv Hi Hok Hh Hacc Hw. apply (inv_move g ps i p); try done; try apply Hinv; try lia.
  - rewrite Hh. destruct (holds_drain p) eqn:E; [|done]. apply (inv_owner _ _ Hinv). eauto.
  - congruence.
  - intros s Hs [H|[H|[H|H]]]; [apply Hacc; auto..| |apply Hacc; auto]. do 3 right. by left.
  - intros Hp Ho. destruct (inv_wakeup _ _ Hinv Hp Ho) as (j & q & Hj & Hq).
    destruct (decide (j = i)) as [->|Hne].
    + exists i, p'. split; [apply list_lookup_insert_eq; by eapply lookup_lt_Some|].
      apply Hw; [|done..]. congruence.
    + exists j, q. by rewrite list_lookup_insert_ne.
Qed.

(** Taking the drain flag. *)
Lemma inv_acquire g ps i p :
  inv g ps -> ps !! i = Some p -> p = Acquire \/ p = Reacquire -> drain_owner g = false ->
  inv (mkShared (frontier g) (pending g) true (fresh g)) (<[i := LoadNext]> ps).
Proof.
  intros Hinv Hi Hp Ho. apply (inv_move g ps i p); simpl; try done; try apply Hinv; try lia.
  intros s Hs [->|[->|[H| ->]]]; [by destruct Hp..| |by destruct Hp]. do 3 right. by left.
Qed.

Lemma inv_wakeup_other g ps i p p' next :
  inv g ps -> ps !! i = Some p -> is_Some (pending g !! next) -> next = frontier g +w 1 ->
  drain_owner g = false -> ~ will_look next p ->
  exists j q, <[i := p']> ps !! j = Some q /\ will_look next q.
Proof.
  intros Hinv Hi Hp -> Ho Hno. destruct (inv_wakeup _ _ Hinv Hp Ho) as (j & q & Hj & Hq).
  exists j, q. split; [|done]. rewrite list_lookup_insert_ne; [done|]. intros ->. congruence.
Qed.

Lemma lookup_remove_node m s n x : is_Some (remove_node m s n !! x) -> is_Some (m !! x).
Proof.
  unfold remove_node. case_decide; [|done]. intros [y Hy]. apply lookup_delete_Some in Hy as [_ Hy]. eauto.
Qed.

Lemma remove_node_other m s n x : x <> s -> remove_node m s n !! x = m !! x.
Proof. intros Hx. unfold remove_node. case_decide; [|done]. by rewrite lookup_delete_ne. Qed.

Lemma inv_insert g ps i s :
  inv g ps -> ps !! i = Some (Insert s) -> pending g !! s = None ->
  inv (mkShared (frontier g) (<[s := fresh g]> (pending g)) (drain_owner g) (S (fresh g)))
    (<[i := Recheck s (fresh g)]> ps).
Proof.
  intros Hinv Hi Hn. pose proof (inv_pcs _ _ Hinv _ _ Hi) as Hs. simpl in Hs.
  apply (inv_move g ps i (Insert s)); simpl; try done; try apply Hinv; try lia.
  - intros x [y Hy]. apply lookup_insert_Some in Hy as [[-> _]|[_ Hy]]; [done|]. apply (inv_pending _ _ Hinv). eauto.
  - intros [] _; simpl; try done. intros [-> Hp]. split; [done|]. rewrite lookup_insert_ne; congruence.
  - intros x Hx [?|[[= ->]|[H|?]]]; try done; do 3 right; left; simpl; [rewrite lookup_insert_eq; eauto|].
    destruct (decide (x = s)) as [->|]; [rewrite lookup_insert_eq; eauto|]. by rewrite lookup_insert_ne.
  - intros Hp Ho. destruct (decide (frontier g +w 1 = s)) as [E|E].
    + exists i, (Recheck s (fresh g)). split; [apply list_lookup_insert_eq; by eapply lookup_lt_Some|]. by simpl.
    + rewrite lookup_insert_ne in Hp by done. eapply (inv_wakeup_other g); eauto.
Qed.

Lemma inv_remove_stale g ps i s n :
  inv g ps -> ps !! i = Some (RemoveStale s n) ->
  inv (mkShared (frontier g) (remove_node (pending g) s n) (drain_owner g) (fresh g)) (<[i := Done]> ps).
Proof.
  intros Hinv Hi. pose proof (inv_pcs _ _ Hinv _ _ Hi) as Hs. simpl in Hs.
  pose proof (inv_range _ _ Hinv) as Hr.
  apply (inv_move g ps i (RemoveStale s n)); simpl; try done; try apply Hinv; try lia.
  - intros x Hx. apply lookup_remove_node in Hx. by apply (inv_pending _ _ Hinv).
  - intros [] _; simpl; try done. intros [-> Hp]. split; [done|].
    assert (Hin : frontier g +w 1 ∈ slots) by (apply (inv_pending _ _ Hinv); eauto).
    apply next_plain in Hin as [E _]; [|done]. rewrite remove_node_other; [done|lia].
  - intros x Hx [?|[?|[H|?]]]; try done. destruct (Z_le_gt_dec x (frontier g)) as [Hle|Hgt].
    + right; right; left. simpl. lia.
    + do 3 right. left. simpl. by rewrite remove_node_other by lia.
  - intros Hp Ho. apply lookup_remove_node in Hp. eapply (inv_wakeup_other g); eauto.
Qed.

Lemma inv_release g ps i next :
  inv g ps -> ps !! i = Some (Release next) ->
  inv (mkShared (frontier g) (pending g) false (fresh g)) (<[i := GetAgain next]> ps).
Proof.
  intros Hinv Hi. pose proof (inv_pcs _ _ Hinv _ _ Hi) as Hs. simpl in Hs. subst next.
  apply (inv_move g ps i (Release (frontier g +w 1))); simpl; try done; try apply Hinv; try lia.
  - intros s Hs [?|[?|[H|?]]]; try done. do 3 right. by left.
  - intros Hp _. exists i, (GetAgain (frontier g +w 1)).
    split; [apply list_lookup_insert_eq; by eapply lookup_lt_Some|done].
Qed.

Lemma inv_remove_next g ps i next n :
  inv g ps -> ps !! i = Some (RemoveNext next n) ->
  inv (mkShared (frontier g) (remove_node (pending g) next n) (drain_owner g) (fresh g)) (<[i := Store next]> ps).
Proof.
  intros Hinv Hi. pose proof (inv_pcs _ _ Hinv _ _ Hi) as [-> Hp].
  assert (Hin : frontier g +w 1 ∈ slots) by (apply (inv_pending _ _ Hinv); eauto).
  assert (Ho : drain_owner g = true) by (apply (inv_owner _ _ Hinv); eauto).
  apply (inv_move g ps i (RemoveNext (frontier g +w 1) n)); simpl; try done; try apply Hinv; try lia.
  - intros x Hx. apply lookup_remove_node in Hx. by apply (inv_pending _ _ Hinv).
  - intros q Hq. destruct q; simpl in *; try done. by specialize (Hq eq_refl).
  - intros x Hx [?|[?|[H|?]]]; try done. destruct (decide (x = frontier g +w 1)) as [->|Hne].
    + do 4 right. apply list_elem_of_lookup. exists i. apply list_lookup_insert_eq. by eapply lookup_lt_Some.
    + do 3 right. left. simpl. by rewrite remove_node_other.
  - congruence.
Qed.

Lemma inv_store g ps i next :
  inv g ps -> ps !! i = Some (Store next) ->
  inv (mkShared next (pending g) (drain_owner g) (fresh g)) (<[i := LoadNext]> ps).
Proof.
  intros Hinv Hi. pose proof (inv_pcs _ _ Hinv _ _ Hi) as [-> Hin].
  pose proof (inv_range _ _ Hinv) as Hr. destruct (next_plain _ Hr Hin) as [E Hlt].
  assert (Ho : drain_owner g = true) by (apply (inv_owner _ _ Hinv); eauto).
  apply (inv_move g ps i (Store (frontier g +w 1))); simpl; try done; try apply Hinv; try lia.
  - intros s Hs. destruct (Z.eq_dec s (frontier g + 1)) as [->|]; [by rewrite <- E|].
    apply (inv_prefix _ _ Hinv). lia.
  - intros q Hq. destruct q; simpl in *; try done; try (by specialize (Hq eq_refl)). intros. lia.
  - intros x Hx [?|[?|[H|[= <-]]]]; try done; [do 3 right; by left|]. right; right; left. simpl. lia.
  - congruence.
Qed.

(** The move concerns no slot of its own. *)
Local Ltac no_slot := try done; try (intros ? ? [?|[?|?]]; done); intros; congruence.

Lemma frontier_step_inv c i : inv c.1 c.2 -> inv (step c i).1 (step c i).2.
Proof.
  destruct c as [g ps]. intros Hinv. unfold step. simpl. destruct (ps !! i) as [p|] eqn:Hi; [|done].
  pose proof (inv_pcs _ _ Hinv _ _ Hi) as Hp. pose proof (inv_range _ _ Hinv) as Hr.
  assert (Hii : forall q, q ∈ <[i := q]> ps).
  { intros q. apply list_elem_of_lookup. exists i. apply list_lookup_insert_eq. by eapply lookup_lt_Some. }
  destruct p as [s|s|s n|s n| | |next|next|next| |next n|next|]; simpl in *.
  - destruct (Z.ltb_spec (frontier g) s); eapply inv_pure; simpl; try done.
    + intros x Hx [[= ->]|[?|?]]; try done. right; left. apply Hii.
    + intros x Hx [[= ->]|[?|?]]; try done. right; right; left. simpl. lia.
  - destruct (pending g !! s) as [n|] eqn:E; [|by apply inv_insert].
    eapply inv_pure; simpl; try done. intros x Hx [?|[[= ->]|?]]; try done. do 3 right. left. simpl. eauto.
  - destruct (Z.leb_spec s (frontier g)); eapply inv_pure; simpl; try by no_slot.
    intros -> Hpe _. apply (inv_pending _ _ Hinv) in Hpe. apply next_plain in Hpe; [lia|done].
  - by apply inv_remove_stale.
  - destruct (drain_owner g) eqn:E; [|eapply inv_acquire; eauto]. eapply inv_pure; simpl; no_slot.
  - eapply inv_pure; simpl; no_slot.
  - destruct (pending g !! next) as [n|] eqn:E; eapply inv_pure; simpl; no_slot.
  - by apply inv_release.
  - destruct (pending g !! next) as [n|] eqn:E; eapply inv_pure; simpl; try by no_slot.
    intros -> [? ?]. congruence.
  - destruct (drain_owner g) eqn:E; [|eapply inv_acquire; eauto]. eapply inv_pure; simpl; no_slot.
  - by apply inv_remove_next.
  - by apply inv_store.
  - eapply inv_pure; simpl; no_slot.
Qed.

Lemma frontier_exec_inv c sched : inv c.1 c.2 -> inv (exec c sched).1 (exec c sched).2.
Proof.
  revert c. induction sched as [|i sched IH]; intros c Hc; simpl; [done|]. apply IH. by apply frontier_step_inv.
Qed.

Lemma start_inv : inv (start slots).1 (start slots).2.
Proof.
  constructor; simpl.
  - unfold u64_max. lia.
  - lia.
  - intros s. rewrite lookup_empty. by intros [? ?].
  - intros i p Hi. apply list_lookup_fmap_Some in Hi as (s & -> & Hs). simpl. by eapply list_elem_of_lookup_2.
  - split; [done|]. intros (i & p & Hi & Hp). apply list_lookup_fmap_Some in Hi as (s & -> & Hs). done.
  - intros i j p q Hi _ Hp. apply list_lookup_fmap_Some in Hi as (s & -> & Hs). done.
  - intros s Hs. left. simpl. by apply list_elem_of_fmap_2.
  - rewrite lookup_empty. by intros [? ?].
Qed.

End proof.

(** C36. No wake-up is lost: for any number of concurrent frontier updates and
    any schedule of their atomic accesses, the frontier never covers a slot that
    was not passed in, and once every call has returned it is exactly the
    longest prefix of the slots passed in. *)
Theorem concurrent_frontier_exact slots sched :
  (forall s, s ∈ slots -> 1 <= s <= u64_max) ->
  let c := exec (start slots) sched in
  (forall s, 1 <= s <= frontier c.1 -> s ∈ slots) /\
  (quiescent c -> ~ (frontier c.1 + 1 ∈ slots) /\ drain_owner c.1 = false).
Proof.
  intros Hs c. assert (Hinv : inv slots c.1 c.2) by (apply frontier_exec_inv; [done|by apply start_inv]).
  split; [apply Hinv|]. intros Hq. unfold quiescent in Hq. rewrite Forall_lookup in Hq.
  assert (Hno : forall p, p ∈ c.2 -> p = Done) by (intros p [i Hi]%list_elem_of_lookup; eauto).
  assert (Ho : drain_owner c.1 = false).
  { destruct (drain_owner c.1) eqn:E; [|done]. apply (inv_owner _ _ _ Hinv) in E as (i & p & Hi & Hp).
    rewrite (Hq i p Hi) in Hp. done. }
  split; [|done]. intros Hin. pose proof (inv_range _ _ _ Hinv) as Hr.
  assert (Hlt : frontier c.1 < u64_max) by (apply Hs in Hin; lia).
  destruct (inv_accounted _ _ _ Hinv _ Hin) as [H|[H|[H|[H|H]]]];
    try (apply Hno in H; done); [lia|].
  rewrite <- (Learner.next_slot (frontier c.1)) in H by lia.
  destruct (inv_wakeup _ _ _ Hinv H Ho) as (i & p & Hi & Hp). by rewrite (Hq i p Hi) in Hp.
Qed.

(** Three calls, the second one drained by the first. *)
Definition demo_schedule : list nat :=
  [1; 1; 1; 0; 0; 0; 0; 0; 0; 1; 0; 0; 0; 0; 0; 0; 0; 0; 0; 0; 2; 0; 0; 0; 0; 0; 0; 2; 2; 2; 2; 2; 2; 2; 2; 2; 2;
   2; 2]%nat.

Lemma concurrent_frontier_exact_witness :
  let c := exec (start [1; 2; 4]) demo_schedule in
  quiescent c /\ frontier c.1 = 2 /\ ~ (frontier c.1 + 1 ∈ [1; 2; 4]).
Proof.
  destruct (concurrent_frontier_exact [1; 2; 4] demo_schedule) as [_ H].
  - intros s. rewrite !elem_of_cons, elem_of_nil. unfold u64_max. intros [->|[->|[->|[]]]]; lia.
  - assert (Hq : quiescent (exec (start [1; 2; 4]) demo_schedule)) by (vm_compute; repeat constructor).
    split; [exact Hq|]. split; [vm_compute; reflexivity|]. apply (H Hq).
Defined.

(** The drain removes an entry before it publishes the new frontier, and a
    second update of the same slot that runs in between puts the slot back: after
    both calls returned the frontier is 1 and slot 1 is still in the map, where
    no later drain looks. *)
Theorem duplicate_update_leaves_stale_gap :
  let c := exec (start [1; 1]) [0; 0; 0; 0; 0; 0; 0; 1; 1; 1; 1; 0; 0; 0; 0; 0]%nat in
  quiescent c /\ frontier c.1 = 1 /\ is_Some (pending c.1 !! 1).
Proof. vm_compute. split_and!; [repeat constructor|done|eauto]. Qed.

End LearnerConc.
