(* ===== verification/Phases.v ===== *)
(** * Prepare and accept phases of one proposal attempt

    Models the proposer's two fan-outs:
    [src/lib/crowdb-kv/src/cluster/group_inflight.rs] ([ReplyFold]),
    [group_prepare.rs], [group_accept.rs], the parts of [group.rs] they call
    and the retry classification of [src/lib/crowdb-kv/src/paxos/error.rs].

    A fan-out is the list of tagged replies in the order in which they arrive;
    a failed call is a reply of [None].  The fold stops at the quorum
    short-circuit and the replies behind it go to the detached drain.  A
    [None] result of a phase is one of the code's [unreachable!] panics. *)

From stdpp Require Import prelude list.
From Stdlib Require Import ZArith Lia.
From S2P Require Import Prelude Roles.

Module Phases.

(** ** Errors and what to do about them *)

Inductive PxPaxosPhase := PhasePrepare | PhaseAccept | PhaseLearn.

#[export] Instance PxPaxosPhase_eq_dec : EqDecision PxPaxosPhase.
Proof. solve_decision. Defined.

Inductive PxPaxosError :=
| NotLeader (leader_hint : Z)
| ErrPrepareRejected (promised : PxBallot)
| ErrAcceptRejected (promised : PxBallot)
| ForeignValueChosen (slot : Z)
| QuorumUnavailable (phase : PxPaxosPhase)
| MembershipEpochMismatch (responder_epoch : Z)
| TransportFailure (phase : PxPaxosPhase)
| Busy
| TermStale (current_term : Z)
| LeaseUnrenewable
| InternalInvariantViolation.

#[export] Instance PxPaxosError_eq_dec : EqDecision PxPaxosError.
Proof. solve_decision. Defined.

Inductive PxRetryAction :=
| RetrySameSlot (min_round : option Z) (force_prepare : bool)
| RetryNextSlot
| Redirect (leader_hint : Z)
| FailRetryable
| FailFatal.

Definition retry_action (e : PxPaxosError) : PxRetryAction :=
  match e with
  | NotLeader hint => Redirect hint
  | ErrPrepareRejected p => RetrySameSlot (Some (round p)) true
  | ErrAcceptRejected p => RetrySameSlot (Some (round p +w 1)) true
  | ForeignValueChosen _ => RetryNextSlot
  | QuorumUnavailable _ | TransportFailure _ | MembershipEpochMismatch _ => RetrySameSlot None false
  | Busy => FailRetryable
  | TermStale _ | LeaseUnrenewable | InternalInvariantViolation => FailFatal
  end.

(** ** The reply fold *)

Record ReplyFold := mkFold {
  accepted : nat;
  highest_rejected_round : option Z;
  highest_seen_term : option Z;
  epoch_mismatch : option Z;
  adopted : option PxLogEntry;
  local_folded : bool;
}.

Definition new_fold : ReplyFold := mkFold 0 None None None None false.

(** [if voting { self.accepted += 1 }] *)
Definition count_vote (voting : bool) (f : ReplyFold) : ReplyFold :=
  if voting then mkFold (S (accepted f)) (highest_rejected_round f) (highest_seen_term f)
                   (epoch_mismatch f) (adopted f) (local_folded f) else f.

Definition set_adopted (f : ReplyFold) (a : option PxLogEntry) : ReplyFold :=
  mkFold (accepted f) (highest_rejected_round f) (highest_seen_term f) (epoch_mismatch f) a
    (local_folded f).

Definition set_local_folded (f : ReplyFold) : ReplyFold :=
  mkFold (accepted f) (highest_rejected_round f) (highest_seen_term f) (epoch_mismatch f)
    (adopted f) true.

Definition set_epoch_mismatch (f : ReplyFold) (e : Z) : ReplyFold :=
  mkFold (accepted f) (highest_rejected_round f) (highest_seen_term f) (Some e) (adopted f)
    (local_folded f).

Definition note_rejected (f : ReplyFold) (current_promised : PxBallot) : ReplyFold :=
  mkFold (accepted f) (opt_max (highest_rejected_round f) (round current_promised))
    (highest_seen_term f) (epoch_mismatch f) (adopted f) (local_folded f).

Definition note_term_stale (f : ReplyFold) (new_term : Z) : ReplyFold :=
  mkFold (accepted f) (highest_rejected_round f) (opt_max (highest_seen_term f) new_term)
    (epoch_mismatch f) (adopted f) (local_folded f).

(** [PxGroup::consider_accepted]: strictly higher ballots replace. *)
Definition consider_accepted (adopted : option PxLogEntry) (candidate : PxLogEntry)
  : option PxLogEntry :=
  match adopted with
  | None => Some candidate
  | Some current => if ballot_ltb (ballot current) (ballot candidate) then Some candidate
                    else adopted
  end.

Definition fold_promised (voting : bool) (f : ReplyFold) (acc : option PxLogEntry) : ReplyFold :=
  let f := count_vote voting f in
  match acc with
  | Some prev => set_adopted f (consider_accepted (adopted f) prev)
  | None => f
  end.

Definition fold_prepare_local (voting : bool) (f : ReplyFold) (reply : PxPrepareReply)
  : option ReplyFold :=
  match reply with
  | Promised _ acc => Some (set_local_folded (fold_promised voting f acc))
  | PrepareRejected _ cur => Some (set_local_folded (note_rejected f cur))
  | PrepareTermStale _ t => Some (set_local_folded (note_term_stale f t))
  | PrepareEpochMismatch _ => None
  end.

Definition fold_prepare_remote (voting : bool) (f : ReplyFold) (reply : PxPrepareReply)
  : ReplyFold :=
  match reply with
  | Promised _ acc => fold_promised voting f acc
  | PrepareRejected _ cur => note_rejected f cur
  | PrepareTermStale _ t => note_term_stale f t
  | PrepareEpochMismatch e => set_epoch_mismatch f e
  end.

Definition fold_accept_local (voting : bool) (f : ReplyFold) (reply : PxAcceptReply)
  : option ReplyFold :=
  match reply with
  | Accepted _ _ => Some (set_local_folded (count_vote voting f))
  | AcceptRejected _ cur => Some (set_local_folded (note_rejected f cur))
  | AcceptTermStale _ t => Some (set_local_folded (note_term_stale f t))
  | AcceptEpochMismatch _ => None
  end.

Definition fold_accept_remote (voting : bool) (f : ReplyFold) (reply : PxAcceptReply)
  : ReplyFold :=
  match reply with
  | Accepted _ _ => count_vote voting f
  | AcceptRejected _ cur => note_rejected f cur
  | AcceptTermStale _ t => note_term_stale f t
  | AcceptEpochMismatch e => set_epoch_mismatch f e
  end.

(** ** The group as the phases see it *)

Record PxGroup := mkGroup {
  local_id : Z;
  local_voting : bool;
  current_term : Z;
  cached_quorum : nat;
  wal_early_ack : bool;
  (** [self_weak] is set: the fan-out folds in arrival order *)
  self_weak : bool;
}.

Definition base_entry (g : PxGroup) (slot : Z) (payload : list Z) : PxLogEntry :=
  mkEntry slot (mkBallot 0 (local_id g)) (current_term g) payload.

(** [RemoteReplicaKind] *)
Inductive RemoteReplicaKind :=
| Real (node_id : Z) (voting : bool)
| Placeholder.

Definition remote_voting (r : RemoteReplicaKind) : bool :=
  match r with Real _ v => v | Placeholder => false end.

Definition recompute_quorum (remotes : list RemoteReplicaKind) (local_voting : bool) : nat :=
  let voting_count := (length (filter (fun r => remote_voting r = true) remotes)
                       + if local_voting then 1 else 0)%nat in
  (voting_count / 2 + 1)%nat.

(** [TaggedPrepareReply] and [TaggedAcceptReply]; a failed call has no reply. *)
Inductive tagged (R : Type) :=
| Local (reply : option R)
| Remote (voting : bool) (remote_id : Z) (reply : option R).
Arguments Local {R}.
Arguments Remote {R}.

Inductive PrepareAttempt :=
| Proceed (entry : PxLogEntry) (foreign_value : bool)
| PrepareRetry (next_min_round : Z) (error : PxPaxosError)
| PrepareFail (error : PxPaxosError).

Inductive AcceptAttempt :=
| Chosen
| AcceptRetry (next_min_round : Z) (error : PxPaxosError)
| AcceptFail (error : PxPaxosError).

(** ** The prepare phase *)

Definition prepare_fold_one (voting : bool) (f : ReplyFold) (t : tagged PxPrepareReply)
  : option ReplyFold :=
  match t with
  | Local (Some reply) => fold_prepare_local voting f reply
  | Local None => Some (set_local_folded f)
  | Remote v _ (Some reply) => Some (fold_prepare_remote v f reply)
  | Remote _ _ None => Some f
  end.

(** [fold.accepted >= quorum && fold.local_folded && fold.highest_seen_term.is_none()] *)
Definition prepare_short_circuit (quorum : nat) (f : ReplyFold) : bool :=
  bool_decide (quorum <= accepted f)%nat && local_folded f
    && match highest_seen_term f with None => true | Some _ => false end.

(** The [while let Some(tagged) = futs.next().await] loop; the second component
    is what the detached drain gets. *)
Fixpoint prepare_loop (quorum : nat) (voting : bool) (f : ReplyFold)
  (replies : list (tagged PxPrepareReply)) : option (ReplyFold * list (tagged PxPrepareReply)) :=
  match replies with
  | [] => Some (f, [])
  | t :: rest =>
      match prepare_fold_one voting f t with
      | None => None
      | Some f' => if prepare_short_circuit quorum f' then Some (f', rest)
                   else prepare_loop quorum voting f' rest
      end
  end.

(** The [join_all] fallback: every reply, the local one first, no short-circuit. *)
Fixpoint prepare_join (voting : bool) (f : ReplyFold) (replies : list (tagged PxPrepareReply))
  : option ReplyFold :=
  match replies with
  | [] => Some f
  | t :: rest => match prepare_fold_one voting f t with
                 | None => None
                 | Some f' => prepare_join voting f' rest
                 end
  end.

(** The decision on the folded replies. *)
Definition prepare_decide (quorum : nat) (entry : PxLogEntry) (own : list Z) (f : ReplyFold)
  : PrepareAttempt :=
  match highest_seen_term f with
  | Some new_term => PrepareFail (TermStale new_term)
  | None =>
    if bool_decide (accepted f < quorum)%nat then
      match highest_rejected_round f with
      | Some r =>
          let error := ErrPrepareRejected (mkBallot r 0) in
          PrepareRetry (match retry_action error with
                        | RetrySameSlot (Some r') _ => r'
                        | _ => r
                        end) error
      | None =>
        match epoch_mismatch f with
        | Some e => PrepareFail (MembershipEpochMismatch e)
        | None => PrepareFail (QuorumUnavailable PhasePrepare)
        end
      end
    else
      match adopted f with
      | Some prev =>
          Proceed (mkEntry (slot entry) (ballot entry) (term entry) (payload prev))
            (negb (bool_decide (payload prev = own)))
      | None => Proceed entry false
      end
  end.

(** The ballot of the attempt, above [min_round] and the local promise. *)
Definition prepare_ballot (g : PxGroup) (local_promised : option PxBallot) (min_round : Z)
  : PxBallot :=
  let max_round := match local_promised with
                   | Some b => Z.max min_round (round b)
                   | None => min_round
                   end in
  mkBallot (max_round +w 1) (local_id g).

(** The request the attempt sends: [base_entry] under the attempt's ballot. *)
Definition prepare_entry (g : PxGroup) (local_promised : option PxBallot) (slot : Z)
  (own : list Z) (min_round : Z) : PxLogEntry :=
  let e := base_entry g slot own in
  mkEntry (Roles.slot e) (prepare_ballot g local_promised min_round) (term e) (payload e).

(** [run_prepare_phase_impl], with the replies in arrival order. *)
Definition run_prepare_phase (g : PxGroup) (local_promised : option PxBallot) (slot : Z)
  (own : list Z) (quorum : nat) (min_round : Z) (replies : list (tagged PxPrepareReply))
  : option (PrepareAttempt * list (tagged PxPrepareReply)) :=
  let entry := prepare_entry g local_promised slot own min_round in
  if self_weak g then
    match prepare_loop quorum (local_voting g) new_fold replies with
    | Some (f, drained) => Some (prepare_decide quorum entry own f, drained)
    | None => None
    end
  else
    match prepare_join (local_voting g) new_fold replies with
    | Some f => Some (prepare_decide quorum entry own f, [])
    | None => None
    end.

(** ** The accept phase *)

Definition is_accepted (r : PxAcceptReply) : bool :=
  match r with Accepted _ _ => true | _ => false end.

Definition accept_fold_one (voting : bool) (f : ReplyFold) (t : tagged PxAcceptReply)
  : option ReplyFold :=
  match t with
  | Local (Some reply) => fold_accept_local voting f reply
  | Local None => Some (set_local_folded f)
  | Remote v _ (Some reply) => Some (fold_accept_remote v f reply)
  | Remote _ _ None => Some f
  end.

(** R16b: [local_accepted] is what the local reply said, once it is in; a local
    error is unreachable. *)
Definition local_accepted_after (la : bool) (t : tagged PxAcceptReply) : option bool :=
  match t with
  | Local (Some reply) => Some (is_accepted reply)
  | Local None => None
  | Remote _ _ _ => Some la
  end.

(** R16b loop.  [Some (f, la, Some rest)]: the short-circuit fired. *)
Fixpoint accept_loop_early (quorum : nat) (voting : bool) (f : ReplyFold) (la : bool)
  (replies : list (tagged PxAcceptReply))
  : option (ReplyFold * bool * option (list (tagged PxAcceptReply))) :=
  match replies with
  | [] => Some (f, la, None)
  | t :: rest =>
      match local_accepted_after la t, accept_fold_one voting f t with
      | Some la', Some f' =>
          if la' && bool_decide (quorum <= accepted f')%nat then Some (f', la', Some rest)
          else accept_loop_early quorum voting f' la' rest
      | _, _ => None
      end
  end.

(** R16a loop: quorum and local reply folded. *)
Fixpoint accept_loop (quorum : nat) (voting : bool) (f : ReplyFold)
  (replies : list (tagged PxAcceptReply)) : option (ReplyFold * list (tagged PxAcceptReply)) :=
  match replies with
  | [] => Some (f, [])
  | t :: rest =>
      match accept_fold_one voting f t with
      | None => None
      | Some f' => if bool_decide (quorum <= accepted f')%nat && local_folded f'
                   then Some (f', rest) else accept_loop quorum voting f' rest
      end
  end.

Fixpoint accept_join (voting : bool) (f : ReplyFold) (replies : list (tagged PxAcceptReply))
  : option ReplyFold :=
  match replies with
  | [] => Some f
  | t :: rest => match accept_fold_one voting f t with
                 | None => None
                 | Some f' => accept_join voting f' rest
                 end
  end.

(** [join_all] fallback of R16b: was the local reply an accept? *)
Fixpoint join_local_accepted (la : bool) (replies : list (tagged PxAcceptReply)) : option bool :=
  match replies with
  | [] => Some la
  | t :: rest => match local_accepted_after la t with
                 | Some la' => join_local_accepted la' rest
                 | None => None
                 end
  end.

Definition accept_decide (quorum : nat) (f : ReplyFold) : AcceptAttempt :=
  if bool_decide (quorum <= accepted f)%nat then Chosen else
  match highest_seen_term f with
  | Some new_term => AcceptFail (TermStale new_term)
  | None =>
    match highest_rejected_round f with
    | Some r =>
        let error := ErrAcceptRejected (mkBallot r 0) in
        AcceptRetry (match retry_action error with
                     | RetrySameSlot (Some r') _ => r'
                     | _ => r +w 1
                     end) error
    | None =>
      match epoch_mismatch f with
      | Some e => AcceptFail (MembershipEpochMismatch e)
      | None => AcceptFail (QuorumUnavailable PhaseAccept)
      end
    end
  end.

(** Outcome of [run_accept_phase]: the attempt, whether the deferred local
    persist was spawned, and the replies left to the drain. *)
Record accept_outcome := mkAcceptOutcome {
  attempt : AcceptAttempt;
  spawn_persist : bool;
  drained : list (tagged PxAcceptReply);
}.

Definition run_accept_phase (g : PxGroup) (quorum : nat) (replies : list (tagged PxAcceptReply))
  : option accept_outcome :=
  let early := wal_early_ack g && bool_decide (1 < cached_quorum g)%nat in
  if self_weak g then
    if early then
      match accept_loop_early quorum (local_voting g) new_fold false replies with
      | None => None
      | Some (f, _, Some rest) => Some (mkAcceptOutcome Chosen true rest)
      | Some (f, _, None) => Some (mkAcceptOutcome (accept_decide quorum f) false [])
      end
    else
      match accept_loop quorum (local_voting g) new_fold replies with
      | None => None
      | Some (f, rest) => Some (mkAcceptOutcome (accept_decide quorum f) false rest)
      end
  else if early then
    match join_local_accepted false replies, accept_join (local_voting g) new_fold replies with
    | Some la, Some f =>
        if la && bool_decide (quorum <= accepted f)%nat
        then Some (mkAcceptOutcome Chosen true [])
        else Some (mkAcceptOutcome (accept_decide quorum f) false [])
    | _, _ => None
    end
  else
    match accept_join (local_voting g) new_fold replies with
    | Some f => Some (mkAcceptOutcome (accept_decide quorum f) false [])
    | None => None
    end.

(** ** Late replies *)

Inductive drain_effect := DrainStepDown (new_term : Z) | DrainAdoptEpoch (epoch : Z).

Definition prepare_drain_side_effect (t : tagged PxPrepareReply) : option drain_effect :=
  match t with
  | Remote _ _ (Some (PrepareTermStale _ t)) => Some (DrainStepDown t)
  | Remote _ _ (Some (PrepareEpochMismatch e)) => Some (DrainAdoptEpoch e)
  | _ => None
  end.

Definition accept_drain_side_effect (t : tagged PxAcceptReply) : option drain_effect :=
  match t with
  | Remote _ _ (Some (AcceptTermStale _ t)) => Some (DrainStepDown t)
  | Remote _ _ (Some (AcceptEpochMismatch e)) => Some (DrainAdoptEpoch e)
  | _ => None
  end.

(** [adopt_membership_epoch]: the epoch converges upward. *)
Definition adopt_membership_epoch (current epoch : Z) : Z :=
  if current <? epoch then epoch else current.

(** ** What the folds compute *)

(** The reply inside a tagged reply and whether its sender votes. *)
Definition reply_of {R} (t : tagged R) : option R :=
  match t with Local r => r | Remote _ _ r => r end.

Definition votes_of {R} (voting : bool) (t : tagged R) : bool :=
  match t with Local _ => voting | Remote v _ _ => v end.

Definition is_promise_vote (voting : bool) (t : tagged PxPrepareReply) : bool :=
  match reply_of t with Some (Promised _ _) => votes_of voting t | _ => false end.

Definition is_accept_vote (voting : bool) (t : tagged PxAcceptReply) : bool :=
  match reply_of t with Some (Accepted _ _) => votes_of voting t | _ => false end.

Definition promise_votes (voting : bool) (l : list (tagged PxPrepareReply)) : nat :=
  length (List.filter (is_promise_vote voting) l).

Definition accept_votes (voting : bool) (l : list (tagged PxAcceptReply)) : nat :=
  length (List.filter (is_accept_vote voting) l).

(** The accepted entries that the promises report. *)
Definition reported (l : list (tagged PxPrepareReply)) : list PxLogEntry :=
  omap (fun t => match reply_of t with Some (Promised _ acc) => acc | _ => None end) l.

Definition prepare_rejections (l : list (tagged PxPrepareReply)) : list PxBallot :=
  omap (fun t => match reply_of t with Some (PrepareRejected _ c) => Some c | _ => None end) l.

Definition accept_rejections (l : list (tagged PxAcceptReply)) : list PxBallot :=
  omap (fun t => match reply_of t with Some (AcceptRejected _ c) => Some c | _ => None end) l.

Definition prepare_stale (l : list (tagged PxPrepareReply)) : list Z :=
  omap (fun t => match reply_of t with Some (PrepareTermStale _ t) => Some t | _ => None end) l.

(** Replies a local handler can produce. *)
Definition prepare_tagged_ok (t : tagged PxPrepareReply) : bool :=
  match t with Local (Some (PrepareEpochMismatch _)) => false | _ => true end.

Definition accept_tagged_ok (t : tagged PxAcceptReply) : bool :=
  match t with Local (Some (AcceptEpochMismatch _)) | Local None => false | _ => true end.

Lemma prepare_fold_one_spec v f t f' :
  prepare_fold_one v f t = Some f' ->
  accepted f' = ((if is_promise_vote v t then 1 else 0) + accepted f)%nat /\
  adopted f' = foldl consider_accepted (adopted f) (reported [t]) /\
  highest_rejected_round f' = foldl opt_max (highest_rejected_round f) (round <$> prepare_rejections [t]) /\
  highest_seen_term f' = foldl opt_max (highest_seen_term f) (prepare_stale [t]).
Proof.
  intros H. unfold is_promise_vote, votes_of.
  destruct t as [[[sl [acc|]|sl c|sl t|e]|]|w i [[sl [acc|]|sl c|sl t|e]|]]; simpl in *; simplify_eq;
    unfold fold_promised, count_vote; try destruct v; try destruct w; done.
Qed.

Lemma prepare_join_spec v l : forall f f',
  prepare_join v f l = Some f' ->
  accepted f' = (promise_votes v l + accepted f)%nat /\
  adopted f' = foldl consider_accepted (adopted f) (reported l) /\
  highest_rejected_round f' = foldl opt_max (highest_rejected_round f) (round <$> prepare_rejections l) /\
  highest_seen_term f' = foldl opt_max (highest_seen_term f) (prepare_stale l).
Proof.
  induction l as [|t l IH]; intros f f' H; simpl in H; [by simplify_eq|].
  destruct (prepare_fold_one v f t) as [f1|] eqn:E; [|done].
  apply prepare_fold_one_spec in E as (E1 & E2 & E3 & E4).
  destruct (IH _ _ H) as (H1 & H2 & H3 & H4). rewrite H1, H2, H3, H4, E1, E2, E3, E4.
  unfold promise_votes, reported, prepare_rejections, prepare_stale. simpl.
  split_and!; [destruct (is_promise_vote v t); simpl; lia|..];
    destruct t as [[[sl [acc|]|sl c|sl t|e]|]|w i [[sl [acc|]|sl c|sl t|e]|]]; done.
Qed.

Lemma prepare_loop_join q v l : forall f f' rest,
  prepare_loop q v f l = Some (f', rest) ->
  exists folded, l = folded ++ rest /\ prepare_join v f folded = Some f' /\
    (rest = [] \/ (q <= accepted f')%nat).
Proof.
  induction l as [|t l IH]; intros f f' rest H; simpl in H; [simplify_eq; exists []; auto|].
  destruct (prepare_fold_one v f t) as [f1|] eqn:E; [|done].
  destruct (prepare_short_circuit q f1) eqn:Es.
  - simplify_eq. exists [t]. simpl. rewrite E. split_and!; [done..|]. right.
    unfold prepare_short_circuit in Es. rewrite !andb_true_iff in Es.
    destruct Es as [[Es _] _]. by apply bool_decide_eq_true in Es.
  - destruct (IH _ _ _ H) as (folded & -> & Hj & Hr). exists (t :: folded). simpl. by rewrite E.
Qed.

Lemma run_prepare_folded g lp s own q mr l a rest :
  run_prepare_phase g lp s own q mr l = Some (a, rest) ->
  exists folded f, l = folded ++ rest /\ prepare_join (local_voting g) new_fold folded = Some f /\
    a = prepare_decide q (prepare_entry g lp s own mr) own f /\ (rest = [] \/ (q <= accepted f)%nat).
Proof.
  unfold run_prepare_phase. destruct (self_weak g).
  - destruct (prepare_loop _ _ _ _) as [[f r]|] eqn:E; [|done]. intros [= <- <-].
    apply prepare_loop_join in E as (folded & -> & ? & ?). exists folded, f. auto.
  - destruct (prepare_join _ _ _) as [f|] eqn:E; [|done]. intros [= <- <-].
    exists l, f. rewrite app_nil_r. auto.
Qed.

(** Folding [consider_accepted] keeps a maximal ballot. *)
Lemma consider_accepted_max l : forall a,
  match foldl consider_accepted a l with
  | None => a = None /\ l = []
  | Some e => (a = Some e \/ e ∈ l) /\
      (forall e', e' ∈ l -> ballot e' <=b ballot e) /\
      (forall e', a = Some e' -> ballot e' <=b ballot e)
  end.
Proof.
  induction l as [|x l IH]; intros a; simpl.
  { destruct a; [|done]. split_and!; [auto|set_solver|]. intros e' [= ->]. eauto with crowdb. }
  specialize (IH (consider_accepted a x)). destruct (foldl _ _ _) as [e|].
  - destruct IH as (Hin & Hl & Ha). unfold consider_accepted in *.
    destruct a as [c|]; [bcase_step|].
    + split_and!; [set_solver|set_solver|]. intros e' [= ->]. specialize (Ha x eq_refl). bsolve.
    + split_and!; [set_solver| |auto]. specialize (Ha c eq_refl).
      intros e' [->|He]%elem_of_cons; [bsolve|auto].
    + split_and!; [set_solver| |done].
      intros e' [->|He]%elem_of_cons; auto.
  - destruct IH as [IH _]. unfold consider_accepted in IH.
    destruct a as [c|]; [destruct (ballot_ltb _ _)|]; done.
Qed.

Lemma opt_max_fold l : forall o,
  match foldl opt_max o l with
  | None => o = None /\ l = []
  | Some m => (o = Some m \/ m ∈ l) /\ (forall x, x ∈ l -> x <= m) /\ (forall x, o = Some x -> x <= m)
  end.
Proof.
  induction l as [|x l IH]; intros o; simpl.
  { destruct o; [|done]. split_and!; [auto|set_solver|]. intros ? [= ->]. lia. }
  specialize (IH (opt_max o x)). destruct (foldl _ _ _) as [m|].
  - destruct IH as (Hin & Hl & Ho). unfold opt_max in *. specialize (Ho _ eq_refl).
    destruct o as [r|]; split_and!; try (intros ? [= ->]; lia); try done;
      try (intros y [->|Hy]%elem_of_cons; [lia|auto]); [|set_solver].
    destruct Hin as [[= <-]|]; [|set_solver].
    destruct (Z.max_spec r x) as [[_ ->]|[_ ->]]; [set_solver|auto].
  - destruct IH. done.
Qed.

Lemma accept_fold_one_spec v f t f' :
  accept_fold_one v f t = Some f' ->
  accepted f' = ((if is_accept_vote v t then 1 else 0) + accepted f)%nat /\
  highest_rejected_round f' = foldl opt_max (highest_rejected_round f) (round <$> accept_rejections [t]).
Proof.
  intros H. unfold is_accept_vote, votes_of.
  destruct t as [[[sl b|sl c|sl t|e]|]|w i [[sl b|sl c|sl t|e]|]]; simpl in *; simplify_eq;
    unfold count_vote; try destruct v; try destruct w; done.
Qed.

Lemma accept_join_spec v l : forall f f',
  accept_join v f l = Some f' ->
  accepted f' = (accept_votes v l + accepted f)%nat /\
  highest_rejected_round f' = foldl opt_max (highest_rejected_round f) (round <$> accept_rejections l).
Proof.
  induction l as [|t l IH]; intros f f' H; simpl in H; [by simplify_eq|].
  destruct (accept_fold_one v f t) as [f1|] eqn:E; [|done].
  apply accept_fold_one_spec in E as (E1 & E2).
  destruct (IH _ _ H) as (H1 & H2). rewrite H1, H2, E1, E2.
  unfold accept_votes, accept_rejections. simpl.
  split; [destruct (is_accept_vote v t); simpl; lia|].
  destruct t as [[[sl b|sl c|sl t|e]|]|w i [[sl b|sl c|sl t|e]|]]; done.
Qed.

Lemma accept_loop_join q v l : forall f f' rest,
  accept_loop q v f l = Some (f', rest) ->
  exists folded, l = folded ++ rest /\ accept_join v f folded = Some f' /\
    (rest = [] \/ (q <= accepted f')%nat).
Proof.
  induction l as [|t l IH]; intros f f' rest H; simpl in H.
  { simplify_eq. exists []. auto. }
  destruct (accept_fold_one v f t) as [f1|] eqn:E; [|done].
  destruct (bool_decide (q <= accepted f1)%nat && local_folded f1) eqn:Es.
  - simplify_eq. exists [t]. simpl. rewrite E. split_and!; [done..|].
    right. apply andb_true_iff in Es as [Es _]. by apply bool_decide_eq_true in Es.
  - destruct (IH _ _ _ H) as (folded & -> & Hj & Hr). exists (t :: folded). simpl. by rewrite E.
Qed.

Lemma accept_loop_early_join q v l : forall f la f' la' r,
  accept_loop_early q v f la l = Some (f', la', r) ->
  exists folded, l = folded ++ default [] r /\ accept_join v f folded = Some f' /\
    join_local_accepted la folded = Some la' /\
    (r <> None -> la' = true /\ (q <= accepted f')%nat).
Proof.
  induction l as [|t l IH]; intros f la f' la' r H; simpl in H.
  { simplify_eq. exists []. done. }
  destruct (local_accepted_after la t) as [la1|] eqn:El; [|done].
  destruct (accept_fold_one v f t) as [f1|] eqn:E; [|done].
  destruct (la1 && bool_decide (q <= accepted f1)%nat) eqn:Es.
  - simplify_eq. exists [t]. simpl. rewrite E, El. split_and!; [done..|].
    intros _. apply andb_true_iff in Es as [-> Es]. by apply bool_decide_eq_true in Es.
  - destruct (IH _ _ _ _ _ H) as (folded & -> & Hj & Hl & Hr). exists (t :: folded). simpl.
    by rewrite E, El.
Qed.

Lemma accept_votes_app v l k : accept_votes v (l ++ k) = (accept_votes v l + accept_votes v k)%nat.
Proof. unfold accept_votes. by rewrite List.filter_app, length_app. Qed.

(** Every path of the accept phase: what was folded, and when the rest was left. *)
Lemma run_accept_folded g q l o :
  run_accept_phase g q l = Some o ->
  exists folded f, l = folded ++ drained o /\ accept_join (local_voting g) new_fold folded = Some f /\
    attempt o = accept_decide q f /\ (drained o = [] \/ (q <= accepted f)%nat) /\
    (spawn_persist o = true -> join_local_accepted false folded = Some true /\ (q <= accepted f)%nat).
Proof.
  unfold run_accept_phase. set (early := _ && _). intros H. destruct (self_weak g), early.
  - destruct (accept_loop_early _ _ _ _ _) as [[[f la] [rest|]]|] eqn:E; [| |done];
      apply accept_loop_early_join in E as (folded & -> & Hj & Hl & Hr); simplify_eq; exists folded, f; simpl.
    + destruct Hr as [-> Hq]; [done|]. unfold accept_decide. rewrite bool_decide_eq_true_2 by done.
      split_and!; auto.
    + split_and!; auto. done.
  - destruct (accept_loop _ _ _ _) as [[f rest]|] eqn:E; [|done].
    apply accept_loop_join in E as (folded & -> & Hj & Hr). simplify_eq. exists folded, f. simpl.
    split_and!; auto. done.
  - destruct (join_local_accepted _ _) as [la|] eqn:El; [|done].
    destruct (accept_join _ _ _) as [f|] eqn:E; [|done]. exists l, f.
    destruct (la && bool_decide (q <= accepted f)%nat) eqn:Es; simplify_eq; simpl; rewrite app_nil_r;
      (split_and!; auto; try done).
    + apply andb_true_iff in Es as [_ Es]. unfold accept_decide. by rewrite Es.
    + intros _. apply andb_true_iff in Es as [-> Es]. by apply bool_decide_eq_true in Es.
  - destruct (accept_join _ _ _) as [f|] eqn:E; [|done]. simplify_eq. exists l, f. simpl.
    rewrite app_nil_r. split_and!; auto. done.
Qed.

Lemma accept_decide_chosen q f : accept_decide q f = Chosen <-> (q <= accepted f)%nat.
Proof.
  unfold accept_decide. case_bool_decide; [done|]. split; [|done].
  destruct (highest_seen_term f), (highest_rejected_round f), (epoch_mismatch f); done.
Qed.

Lemma accept_join_total v l : forall f,
  forallb accept_tagged_ok l = true -> exists f', accept_join v f l = Some f'.
Proof.
  induction l as [|t l IH]; intros f H; simpl; [eauto|].
  simpl in H. apply andb_true_iff in H as [Ht Hl].
  destruct t as [[[]|]|w i [[]|]]; simpl in *; try done; by apply IH.
Qed.

Lemma accept_phase_total g q l :
  forallb accept_tagged_ok l = true -> exists o, run_accept_phase g q l = Some o.
Proof.
  intros H. unfold run_accept_phase.
  assert (Hloop : forall l f, forallb accept_tagged_ok l = true ->
    exists x, accept_loop q (local_voting g) f l = Some x).
  { clear. intros l. induction l as [|t l IH]; intros f H; simpl; [eauto|].
    simpl in H. apply andb_true_iff in H as [Ht Hl].
    destruct t as [[[]|]|w i [[]|]]; simpl in *; try done; repeat case_match; eauto. }
  assert (Hearly : forall l f la, forallb accept_tagged_ok l = true ->
    exists x, accept_loop_early q (local_voting g) f la l = Some x).
  { clear. intros l. induction l as [|t l IH]; intros f la H; simpl; [eauto|].
    simpl in H. apply andb_true_iff in H as [Ht Hl].
    destruct t as [[[]|]|w i [[]|]]; simpl in *; try done; repeat case_match; eauto. }
  assert (Hla : forall l la, forallb accept_tagged_ok l = true ->
    exists x, join_local_accepted la l = Some x).
  { clear. intros l. induction l as [|t l IH]; intros la H; simpl; [eauto|].
    simpl in H. apply andb_true_iff in H as [Ht Hl].
    destruct t as [[[]|]|w i [[]|]]; simpl in *; try done; eauto. }
  destruct (self_weak g); destruct (_ && _).
  - destruct (Hearly l new_fold false H) as [[[f la] [rest|]] ->]; eauto.
  - destruct (Hloop l new_fold H) as [[f rest] ->]; eauto.
  - destruct (Hla l false H) as [la ->]. destruct (accept_join_total (local_voting g) l new_fold H) as [f ->].
    case_match; eauto.
  - destruct (accept_join_total (local_voting g) l new_fold H) as [f ->]; eauto.
Qed.

Lemma prepare_proceed_facts g lp s own q mr replies e fv rest :
  run_prepare_phase g lp s own q mr replies = Some (Proceed e fv, rest) ->
  exists folded, replies = folded ++ rest /\
    (q <= promise_votes (local_voting g) folded)%nat /\ prepare_stale folded = [] /\
    slot e = s /\ ballot e = prepare_ballot g lp mr /\ term e = current_term g /\
    fv = negb (bool_decide (payload e = own)) /\
    ((reported folded = [] /\ payload e = own) \/
     exists prev, prev ∈ reported folded /\ payload e = payload prev /\
       forall e', e' ∈ reported folded -> ballot e' <=b ballot prev).
Proof.
  intros (folded & f & -> & Hj & Ha & _)%run_prepare_folded. exists folded.
  apply prepare_join_spec in Hj as (H1 & H2 & H3 & H4). simpl in *.
  pose proof (consider_accepted_max (reported folded) None) as Hmax. rewrite <- H2 in Hmax.
  pose proof (opt_max_fold (prepare_stale folded) None) as Hst. rewrite <- H4 in Hst.
  unfold prepare_decide in Ha. destruct (highest_seen_term f); [done|].
  case_bool_decide as Hq; [by destruct (highest_rejected_round f), (epoch_mismatch f)|].
  destruct (adopted f) as [prev|]; simplify_eq/=.
  - destruct Hmax as ([?|Hin] & Hle & _); [done|]. split_and!; try done; [lia|tauto|]. right. eauto.
  - destruct Hmax as [_ Hnil]. rewrite bool_decide_eq_true_2 by done.
    split_and!; try done; [lia|tauto|]. by left.
Qed.

(** When the prepare phase proceeds: a quorum of voting promises was among
    the replies it folded and none of those reported a newer term; the entry
    carries the attempt's slot, ballot and term; and its payload is that of a
    reported entry of highest ballot, or the proposer's own if none was
    reported.  [foreign_value] says whether it differs from the proposer's. *)
Theorem prepare_proceeds_safely g lp s own q mr replies e fv rest :
  run_prepare_phase g lp s own q mr replies = Some (Proceed e fv, rest) ->
  exists folded, replies = folded ++ rest /\
    (q <= promise_votes (local_voting g) folded)%nat /\ prepare_stale folded = [] /\
    slot e = s /\ ballot e = prepare_ballot g lp mr /\ term e = current_term g /\
    fv = negb (bool_decide (payload e = own)) /\
    ((reported folded = [] /\ payload e = own) \/
     exists prev, prev ∈ reported folded /\ payload e = payload prev /\
       forall e', e' ∈ reported folded -> ballot e' <=b ballot prev).
Proof. apply prepare_proceed_facts. Qed.

Definition demo_group : PxGroup := mkGroup 1 true 7 2 true true.

Definition demo_replies : list (tagged PxPrepareReply) :=
  [Remote true 2 (Some (Promised 5 (Some (mkEntry 5 (mkBallot 0 2) 6 [9]))));
   Remote true 3 None; Local (Some (Promised 5 None));
   Remote false 4 (Some (PrepareTermStale 5 8))].

Lemma prepare_proceeds_safely_witness :
  exists folded, demo_replies = folded ++ [Remote false 4 (Some (PrepareTermStale 5 8))] /\
    (2 <= promise_votes true folded)%nat.
Proof.
  destruct (prepare_proceeds_safely demo_group (Some (mkBallot 0 2)) 5 [1] 2 0 demo_replies
    (mkEntry 5 (mkBallot 1 1) 7 [9]) true [Remote false 4 (Some (PrepareTermStale 5 8))])
    as (folded & H1 & H2 & _); [vm_compute; reflexivity|]. exists folded. split; assumption.
Defined.

(** For any replies a fan-out can deliver, the accept phase decides, and it
    decides [Chosen] exactly when a quorum of voting replicas accepted: on each
    of its four paths, in every arrival order, wherever the short-circuit falls.
    The deferred local persist is spawned only for a chosen entry that the local
    acceptor holds. *)
Theorem accept_chosen_iff_quorum g q replies :
  forallb accept_tagged_ok replies = true ->
  exists o, run_accept_phase g q replies = Some o /\
    (attempt o = Chosen <-> (q <= accept_votes (local_voting g) replies)%nat) /\
    (spawn_persist o = true -> attempt o = Chosen /\
       exists sl b, Local (Some (Accepted sl b)) ∈ replies).
Proof.
  intros Hok. destruct (accept_phase_total g q replies Hok) as [o Ho]. exists o. split; [done|].
  apply run_accept_folded in Ho as (folded & f & -> & Hj & -> & Hr & Hp).
  apply accept_join_spec in Hj as [Hv _]. simpl in Hv. rewrite accept_decide_chosen, accept_votes_app.
  split.
  - destruct Hr as [->|Hr]; [|lia]. unfold accept_votes at 2. simpl. lia.
  - intros [Hl Hq]%Hp. split; [done|].
    enough (forall l la, join_local_accepted la l = Some true -> la = true \/
      exists sl b, Local (Some (Accepted sl b)) ∈ l) as Hx.
    { destruct (Hx _ _ Hl) as [|(sl & b & Hin)]; [done|]. exists sl, b. set_solver. }
    clear. intros l. induction l as [|t l IH]; intros la; simpl; [intros [= ->]; auto|].
    destruct (local_accepted_after la t) as [la'|] eqn:E; [|done]. intros H.
    destruct (IH _ H) as [->|(sl & b & Hin)]; [|right; set_solver].
    destruct t as [[[]|]|w i r]; simplify_eq/=; [right; set_solver|auto].
Qed.

Lemma accept_chosen_iff_quorum_witness :
  let replies := [Remote true 2 (Some (Accepted 5 (mkBallot 1 1)));
                  Remote true 3 (Some (AcceptTermStale 5 9)); Local (Some (Accepted 5 (mkBallot 1 1)))] in
  exists o, run_accept_phase demo_group 2 replies = Some o /\ attempt o = Chosen.
Proof.
  intros replies. destruct (accept_chosen_iff_quorum demo_group 2 replies) as (o & Ho & [_ Hc] & _);
    [reflexivity|]. exists o. split; [exact Ho|]. apply Hc. vm_compute. lia.
Defined.

(** The next attempt's round does not wrap. *)
Definition round_fits (lp : option PxBallot) (min_round : Z) : Prop :=
  0 <= min_round < u64_max /\ forall b, lp = Some b -> 0 <= round b < u64_max.

Lemma prepare_ballot_above g lp m b :
  round_fits lp m -> round b <= m \/ lp = Some b -> b <b prepare_ballot g lp m.
Proof.
  intros [Hm Hl] Hb. unfold prepare_ballot. left. simpl.
  destruct lp as [b'|]; [specialize (Hl b' eq_refl)|];
    rewrite wrap64_id by (unfold is_u64 in *; lia).
  - destruct Hb as [?|[= ->]]; lia.
  - destruct Hb as [?|?]; [lia|done].
Qed.

Lemma prepare_retry_floor g lp s own q mr replies m err rest c :
  run_prepare_phase g lp s own q mr replies = Some (PrepareRetry m err, rest) ->
  c ∈ prepare_rejections replies -> round c <= m.
Proof.
  intros (folded & f & -> & Hj & Ha & Hr)%run_prepare_folded Hc.
  apply prepare_join_spec in Hj as (_ & _ & H3 & _). simpl in H3.
  pose proof (opt_max_fold (round <$> prepare_rejections folded) None) as Hm. rewrite <- H3 in Hm.
  unfold prepare_decide in Ha. destruct (highest_seen_term f); [done|].
  case_bool_decide as Hq; [|by destruct (adopted f)].
  destruct (highest_rejected_round f) as [r|]; [|by destruct (epoch_mismatch f)].
  simpl in Ha. simplify_eq. destruct Hr as [->|]; [|lia]. rewrite app_nil_r in Hc.
  destruct Hm as (_ & Hm & _). apply Hm, list_elem_of_fmap_2, Hc.
Qed.

Lemma accept_retry_floor g q replies o m err c :
  run_accept_phase g q replies = Some o -> attempt o = AcceptRetry m err ->
  (forall c, c ∈ accept_rejections replies -> 0 <= round c < u64_max) ->
  c ∈ accept_rejections replies -> round c < m.
Proof.
  intros (folded & f & -> & Hj & Ha & Hr & _)%run_accept_folded Ho Hb Hc.
  apply accept_join_spec in Hj as (_ & H3). simpl in H3.
  pose proof (opt_max_fold (round <$> accept_rejections folded) None) as Hm. rewrite <- H3 in Hm.
  rewrite Ha in Ho. unfold accept_decide in Ho. case_bool_decide as Hq; [done|].
  destruct Hr as [Hd|]; [|done]. rewrite Hd, app_nil_r in Hb, Hc.
  destruct (highest_seen_term f); [done|].
  destruct (highest_rejected_round f) as [r|]; [|by destruct (epoch_mismatch f)].
  simpl in Ho. simplify_eq. destruct Hm as ([?|Hin] & Hle & _); [done|].
  specialize (Hle (round c) (list_elem_of_fmap_2 _ _ _ Hc)).
  apply list_elem_of_fmap in Hin as (c' & -> & Hc'). specialize (Hb c' Hc').
  rewrite wrap64_id; [lia|]. unfold is_u64 in *. lia.
Qed.

(** A retry makes progress: after a rejected prepare or accept attempt, the
    round floor it returns puts the ballot of the next prepare strictly above
    every promise that rejected it and above the local promise, as long as
    rounds stay within [u64]. *)
Theorem retry_rises_above_rejections g lp' m :
  round_fits lp' m ->
  (forall lp s own q mr replies err rest c,
     run_prepare_phase g lp s own q mr replies = Some (PrepareRetry m err, rest) ->
     c ∈ prepare_rejections replies -> c <b prepare_ballot g lp' m) /\
  (forall q replies o err c,
     run_accept_phase g q replies = Some o -> attempt o = AcceptRetry m err ->
     (forall c, c ∈ accept_rejections replies -> 0 <= round c < u64_max) ->
     c ∈ accept_rejections replies -> c <b prepare_ballot g lp' m) /\
  (forall b, lp' = Some b -> b <b prepare_ballot g lp' m).
Proof.
  intros Hfit. split_and!.
  - intros. apply prepare_ballot_above; [done|]. left. eauto using prepare_retry_floor.
  - intros q replies o err c Ho Ha Hb Hc. apply prepare_ballot_above; [done|]. left.
    pose proof (accept_retry_floor _ _ _ _ _ _ _ Ho Ha Hb Hc). lia.
  - intros. apply prepare_ballot_above; auto.
Qed.

Lemma retry_rises_above_rejections_witness :
  mkBallot 4 3 <b prepare_ballot demo_group (Some (mkBallot 0 2)) 4.
Proof.
  destruct (retry_rises_above_rejections demo_group (Some (mkBallot 0 2)) 4) as [H _].
  - split; [vm_compute; split; [discriminate|reflexivity]|].
    intros b [= <-]. vm_compute. split; [discriminate|reflexivity].
  - apply (H None 5 [1] 2%nat 0 [Local (Some (Promised 5 None));
      Remote true 2 (Some (PrepareRejected 5 (mkBallot 4 3)))]
      (ErrPrepareRejected (mkBallot 4 0)) []); [reflexivity|].
    vm_compute. apply list_elem_of_here.
Defined.

(** ** Quorums *)

Lemma recompute_quorum_majority remotes (lv : bool) :
  let n := (length (filter (fun r => remote_voting r = true) remotes) + if lv then 1 else 0)%nat in
  (n < recompute_quorum remotes lv + recompute_quorum remotes lv)%nat.
Proof.
  intros n. unfold recompute_quorum. fold n. pose proof (Nat.div_mod_eq n 2).
  pose proof (Nat.mod_upper_bound n 2). lia.
Qed.

End Phases.
