(* ===== verification/WalRecord.v ===== *)
(** * WAL record codec

    Models [src/lib/crowdb-kv/src/wal/record.rs]: the frozen binary frame, the
    text line, and the constructors of the three record kinds.

    The checksum is ISA-L's [crc32_iscsi] (through
    [src/lib/crowdb-common/cpp/include/crowdb-common/crc32c.h]), a parameter of
    which the codec uses only that it returns a [u32] and that it can be
    continued over the next slice.  A reference bitwise CRC32C instantiates it. *)

From stdpp Require Import prelude list strings.
From Stdlib Require Import ZArith Lia.
From S2P Require Import Prelude Roles Bytes.

Module WalRecord.

(** [crc32_iscsi data len crc] *)
Class Crc32c (upd : Z -> bytes -> Z) : Prop := {
  crc_range : forall c l, 0 <= c < 2 ^ 32 -> 0 <= upd c l < 2 ^ 32;
  crc_app : forall c l k, upd (upd c l) k = upd c (l ++ k);
}.

Definition WAL_MAGIC : Z := 1129467735. (* 0x43524F57 *)
Definition WAL_VERSION : Z := 1.
Definition HEADER_BODY_LEN : nat := 4 + 2 + 1 + 8 + 8 + 8 + 8 + 8 + 4.
Definition MIN_RECORD_SIZE : nat := 4 + HEADER_BODY_LEN + 4.

Inductive RecordType := RPromised | RAccepted | RVoteGranted.

#[export] Instance RecordType_eq_dec : EqDecision RecordType.
Proof. solve_decision. Defined.

Definition as_u8 (t : RecordType) : Z :=
  match t with RPromised => 0 | RAccepted => 1 | RVoteGranted => 2 end.

Definition from_u8 (v : Z) : option RecordType :=
  if v =? 0 then Some RPromised else if v =? 1 then Some RAccepted
  else if v =? 2 then Some RVoteGranted else None.

(** Which text error; the code carries a message. *)
Inductive text_error :=
| MissingCrc | InvalidCrc | MissingPrefix | BadPrefix | MalformedField | UnknownField
| UnknownType | InvalidNumber | InvalidHex | MissingField | InvalidUtf8.

Inductive RecordError :=
| Truncated
| BadCrc (expected got : Z)
| BadMagic (m : Z)
| BadVersion (v : Z)
| BadRecordType (t : Z)
| BadText (why : text_error).

Record WALRecord := mkRecord {
  record_type : RecordType;
  group_id : Z;
  term : Z;
  slot : Z;
  ballot : PxBallot;
  payload : bytes;
}.

#[export] Instance WALRecord_eq_dec : EqDecision WALRecord.
Proof. solve_decision. Defined.

(** ** Constructors and projections *)

Definition from_accepted (gid : Z) (e : PxLogEntry) : WALRecord :=
  mkRecord RAccepted gid (Roles.term e) (Roles.slot e) (Roles.ballot e) (Roles.payload e).

Definition from_promised (gid t s : Z) (b : PxBallot) : WALRecord :=
  mkRecord RPromised gid t s b [].

Definition from_vote_granted (gid t voted_for_id : Z) : WALRecord :=
  mkRecord RVoteGranted gid t 0 (mkBallot 0 0) (to_le_bytes 8 voted_for_id).

Definition to_log_entry (r : WALRecord) : option PxLogEntry :=
  if decide (record_type r = RAccepted)
  then Some (mkEntry (slot r) (ballot r) (term r) (payload r)) else None.

Definition voted_for_id (r : WALRecord) : option Z :=
  if decide (record_type r = RVoteGranted) then
    if (length (payload r) <? 8)%nat then None
    else Some (from_le_bytes (slice (payload r) 0 8))
  else None.

(** ** The binary frame *)

Section codec.
Context (crc32_iscsi : Z -> bytes -> Z).

Definition crc32c_update (crc : Z) (data : bytes) : Z := crc32_iscsi crc data.
Definition crc32c (data : bytes) : Z := crc32c_update 0 data.

(** [write_header_body]; [None] is the [expect] on a payload beyond [u32]. *)
Definition write_header_body (r : WALRecord) (payload_len : nat) : option bytes :=
  if Z.of_nat payload_len <? 2 ^ 32 then
    Some (to_le_bytes 4 WAL_MAGIC ++ to_le_bytes 2 WAL_VERSION ++ [as_u8 (record_type r)]
          ++ to_le_bytes 8 (group_id r) ++ to_le_bytes 8 (term r) ++ to_le_bytes 8 (slot r)
          ++ to_le_bytes 8 (round (ballot r)) ++ to_le_bytes 8 (leader_id (ballot r))
          ++ to_le_bytes 4 (Z.of_nat payload_len))
  else None.

Record RecordFrame := mkFrame {
  frame_len : bytes;
  header : bytes;
  frame_payload : bytes;
  crc : bytes;
}.

Definition total_len (f : RecordFrame) : nat := 4 + HEADER_BODY_LEN + length (frame_payload f) + 4.

(** The slices of the vectored write, in order. *)
Definition append_io_slices (f : RecordFrame) (slices : list bytes) : list bytes :=
  slices ++ [frame_len f; header f; frame_payload f; crc f].

Definition encode_frame (r : WALRecord) : option RecordFrame :=
  let payload_len := length (payload r) in
  let frame_len_value := Z.of_nat (HEADER_BODY_LEN + payload_len + 4) in
  if frame_len_value <? 2 ^ 32 then
    match write_header_body r payload_len with
    | Some header =>
        let c := crc32c_update (crc32c header) (payload r) in
        Some (mkFrame (to_le_bytes 4 frame_len_value) header (payload r) (to_le_bytes 4 c))
    | None => None
    end
  else None.

Definition encode (r : WALRecord) : option bytes :=
  match encode_frame r with
  | Some f => Some (frame_len f ++ header f ++ frame_payload f ++ crc f)
  | None => None
  end.

(** [read_u16], [read_u32], [read_u64] at an offset. *)
Definition read_uint (n : nat) (buf : bytes) (off : nat) : Z := from_le_bytes (slice buf off n).

Definition decode (data : bytes) : result (WALRecord * nat) RecordError :=
  if (length data <? MIN_RECORD_SIZE)%nat then Err Truncated else
  let frame_len := Z.to_nat (read_uint 4 data 0) in
  if (frame_len <? HEADER_BODY_LEN + 4)%nat then Err Truncated else
  let total := (4 + frame_len)%nat in
  if (length data <? total)%nat then Err Truncated else
  let body := slice data 4 frame_len in
  let crc_stored := read_uint 4 body (frame_len - 4) in
  let crc_computed := crc32c (slice body 0 (frame_len - 4)) in
  if negb (crc_stored =? crc_computed) then Err (BadCrc crc_computed crc_stored) else
  let magic := read_uint 4 body 0 in
  if negb (magic =? WAL_MAGIC) then Err (BadMagic magic) else
  let version := read_uint 2 body 4 in
  if negb (version =? WAL_VERSION) then Err (BadVersion version) else
  let rt_raw := read_uint 1 body 6 in
  let? rt := ok_or (from_u8 rt_raw) (BadRecordType rt_raw) in
  let payload_len := Z.to_nat (read_uint 4 body 47) in
  if (length body <? 51 + payload_len + 4)%nat then Err Truncated else
  Ok (mkRecord rt (read_uint 8 body 7) (read_uint 8 body 15) (read_uint 8 body 23)
        (mkBallot (read_uint 8 body 31) (read_uint 8 body 39)) (slice body 51 payload_len), total).

(** ** The text line *)

Definition TEXT_PREFIX : bytes := bs "CROWDB_WAL_TEXT".

Definition as_str (t : RecordType) : bytes :=
  match t with
  | RPromised => bs "Promised"
  | RAccepted => bs "Accepted"
  | RVoteGranted => bs "VoteGranted"
  end.

Definition from_name (v : bytes) : result RecordType RecordError :=
  if decide (v = bs "Promised") then Ok RPromised
  else if decide (v = bs "Accepted") then Ok RAccepted
  else if decide (v = bs "VoteGranted") then Ok RVoteGranted
  else Err (BadText UnknownType).

Definition encode_text_line (r : WALRecord) : bytes :=
  let line := join_with 32
    [TEXT_PREFIX; bs "v=" ++ show_dec WAL_VERSION; bs "type=" ++ as_str (record_type r);
     bs "group_id=" ++ show_dec (group_id r); bs "term=" ++ show_dec (term r);
     bs "slot=" ++ show_dec (slot r); bs "ballot_round=" ++ show_dec (round (ballot r));
     bs "ballot_leader_id=" ++ show_dec (leader_id (ballot r));
     bs "payload_hex=" ++ encode_hex (payload r)] in
  line ++ bs " crc32c=" ++ format_08x (crc32c line) ++ [10].

(** The fields seen so far. *)
Record text_fields := mkFields {
  f_version : option Z;
  f_type : option RecordType;
  f_group : option Z;
  f_term : option Z;
  f_slot : option Z;
  f_round : option Z;
  f_leader : option Z;
  f_payload : option bytes;
}.

Definition no_fields : text_fields := mkFields None None None None None None None None.

Definition parse_num (bound : Z) (v : bytes) : result Z RecordError :=
  ok_or (parse_dec bound v) (BadText InvalidNumber).

(** One iteration of [for field in fields]. *)
Definition take_field (f : text_fields) (field : bytes) : result text_fields RecordError :=
  let? (key, value) := ok_or (split_once 61 field) (BadText MalformedField) in
  let '(mkFields v t g tm s rd ld p) := f in
  if decide (key = bs "v") then
    let? x := parse_num (2 ^ 16) value in Ok (mkFields (Some x) t g tm s rd ld p)
  else if decide (key = bs "type") then
    let? x := from_name value in Ok (mkFields v (Some x) g tm s rd ld p)
  else if decide (key = bs "group_id") then
    let? x := parse_num (2 ^ 64) value in Ok (mkFields v t (Some x) tm s rd ld p)
  else if decide (key = bs "term") then
    let? x := parse_num (2 ^ 64) value in Ok (mkFields v t g (Some x) s rd ld p)
  else if decide (key = bs "slot") then
    let? x := parse_num (2 ^ 64) value in Ok (mkFields v t g tm (Some x) rd ld p)
  else if decide (key = bs "ballot_round") then
    let? x := parse_num (2 ^ 64) value in Ok (mkFields v t g tm s (Some x) ld p)
  else if decide (key = bs "ballot_leader_id") then
    let? x := parse_num (2 ^ 64) value in Ok (mkFields v t g tm s rd (Some x) p)
  else if decide (key = bs "payload_hex") then
    let? x := ok_or (decode_hex value) (BadText InvalidHex) in
    Ok (mkFields v t g tm s rd ld (Some x))
  else Err (BadText UnknownField).

Fixpoint take_fields (f : text_fields) (fields : list bytes) : result text_fields RecordError :=
  match fields with
  | [] => Ok f
  | x :: fields => let? f' := take_field f x in take_fields f' fields
  end.

Definition finish_fields (f : text_fields) : result WALRecord RecordError :=
  let? v := ok_or (f_version f) (BadText MissingField) in
  if negb (v =? WAL_VERSION) then Err (BadVersion v) else
  let? t := ok_or (f_type f) (BadText MissingField) in
  let? g := ok_or (f_group f) (BadText MissingField) in
  let? tm := ok_or (f_term f) (BadText MissingField) in
  let? s := ok_or (f_slot f) (BadText MissingField) in
  let? rd := ok_or (f_round f) (BadText MissingField) in
  let? ld := ok_or (f_leader f) (BadText MissingField) in
  let? p := ok_or (f_payload f) (BadText MissingField) in
  Ok (mkRecord t g tm s (mkBallot rd ld) p).

Definition decode_text_line (line : bytes) : result WALRecord RecordError :=
  let? (body, crc_hex) := ok_or (rsplit_once (bs " crc32c=") (trim_end line)) (BadText MissingCrc) in
  let? got := ok_or (parse_hex_u32 crc_hex) (BadText InvalidCrc) in
  let expected := crc32c body in
  if negb (got =? expected) then Err (BadCrc expected got) else
  match split_char 32 body with
  | [] => Err (BadText MissingPrefix)
  | prefix :: fields =>
      if decide (prefix = TEXT_PREFIX)
      then let? f := take_fields no_fields fields in finish_fields f
      else Err (BadText BadPrefix)
  end.

End codec.

(** Field ranges of the Rust types. *)
Definition record_ok (r : WALRecord) : Prop :=
  is_u64 (group_id r) /\ is_u64 (term r) /\ is_u64 (slot r) /\
  is_u64 (round (ballot r)) /\ is_u64 (leader_id (ballot r)) /\ Forall is_byte (payload r).

(** Payloads the frame can carry. *)
Definition fits (r : WALRecord) : Prop :=
  Z.of_nat (HEADER_BODY_LEN + length (payload r) + 4) < 2 ^ 32.

(** Bitwise CRC32C (reflected polynomial), the reference instance. *)
Definition crc_bit (c : Z) : Z :=
  Z.lxor (Z.shiftr c 1) (if Z.odd c then 2197175160 else 0). (* 0x82F63B78 *)

Definition crc_byte (c b : Z) : Z :=
  Nat.iter 8 crc_bit (Z.lxor c b mod 2 ^ 32).

Definition crc_ref (c : Z) (data : bytes) : Z := foldl crc_byte c data.

Lemma log2_u32 x : 0 <= x < 2 ^ 32 -> Z.log2 x < 32.
Proof.
  intros Hx. destruct (Z.eq_dec x 0) as [->|]; [done|]. apply Z.log2_lt_pow2; lia.
Qed.

Lemma crc_bit_range c : 0 <= c < 2 ^ 32 -> 0 <= crc_bit c < 2 ^ 32.
Proof.
  intros Hc. unfold crc_bit. assert (0 <= Z.shiftr c 1 < 2 ^ 31).
  { rewrite Z.shiftr_div_pow2 by lia. split; [apply Z.div_pos; lia|apply Z.div_lt_upper_bound; lia]. }
  set (p := if Z.odd c then _ else _). assert (0 <= p < 2 ^ 32) by (unfold p; destruct (Z.odd c); lia).
  assert (0 <= Z.lxor (Z.shiftr c 1) p) by (apply Z.lxor_nonneg; lia). split; [done|].
  destruct (Z.eq_dec (Z.lxor (Z.shiftr c 1) p) 0) as [->|Hne]; [lia|].
  apply Z.log2_lt_pow2; [lia|]. eapply Z.le_lt_trans; [apply Z.log2_lxor; lia|].
  apply Z.max_lub_lt; apply log2_u32; lia.
Qed.

#[export] Instance crc_ref_ok : Crc32c crc_ref.
Proof.
  split.
  - intros c l. unfold crc_ref. revert c. induction l as [|b l IH]; intros c Hc; simpl; [done|].
    apply IH. unfold crc_byte. set (x := Z.lxor c b mod 2 ^ 32).
    assert (Hx : 0 <= x < 2 ^ 32) by (apply Z.mod_pos_bound; lia).
    clearbody x. do 8 apply crc_bit_range in Hx. exact Hx.
  - intros c l k. unfold crc_ref. by rewrite foldl_app.
Qed.

(** Decide a fact about literals. *)
Ltac byte_dec := apply (bool_decide_unpack _); vm_compute; exact I.

(** ** The binary round trip *)

Lemma from_to_u64 z : is_u64 z -> from_le_bytes (to_le_bytes 8 z) = z.
Proof. intros. apply from_to_le. unfold is_u64, u64_max, width in *. simpl. lia. Qed.

Lemma from_as_u8 t : from_u8 (as_u8 t) = Some t.
Proof. by destruct t. Qed.

Section codec_proofs.
Context (upd : Z -> bytes -> Z) `{!Crc32c upd}.

Lemma crc32c_range l : 0 <= crc32c upd l < 2 ^ 32.
Proof. unfold crc32c, crc32c_update. apply crc_range. lia. Qed.

Lemma crc32c_app l k : crc32c_update upd (crc32c upd l) k = crc32c upd (l ++ k).
Proof. unfold crc32c, crc32c_update. apply crc_app. Qed.

Lemma write_header_length r n h : write_header_body r n = Some h -> length h = HEADER_BODY_LEN.
Proof.
  unfold write_header_body. zcase_step; [|done]. intros Eb%(inj Some). subst h.
  rewrite !length_app, !to_le_bytes_length. done.
Qed.

Lemma encode_frame_fits r : fits r -> exists h,
  write_header_body r (length (payload r)) = Some h /\
  encode upd r = Some (to_le_bytes 4 (Z.of_nat (HEADER_BODY_LEN + length (payload r) + 4))
    ++ h ++ payload r ++ to_le_bytes 4 (crc32c upd (h ++ payload r))).
Proof.
  unfold fits. intros Hf. unfold encode, encode_frame. rewrite (proj2 (Z.ltb_lt _ _) Hf).
  unfold write_header_body. rewrite (proj2 (Z.ltb_lt _ _)) by lia.
  eexists. split; [done|]. cbv zeta. rewrite crc32c_app. done.
Qed.

Lemma encode_length r b : encode upd r = Some b -> length b = (59 + length (payload r))%nat.
Proof.
  unfold encode, encode_frame. zcase_step; [|done].
  destruct (write_header_body _ _) as [h|] eqn:E; [|done]. apply write_header_length in E.
  intros Eb%(inj Some). subst b. cbn [frame_len header frame_payload crc].
  rewrite !length_app, !to_le_bytes_length, E. unfold HEADER_BODY_LEN. lia.
Qed.

(** What [decode] sees of a frame it has cut out of the data. *)
Lemma decode_body (body rest : bytes) :
  (55 <= length body)%nat -> Z.of_nat (length body) < 2 ^ 32 ->
  decode upd ((to_le_bytes 4 (Z.of_nat (length body)) ++ body) ++ rest) =
  let n := length body in
  let crc_stored := read_uint 4 body (n - 4) in
  let crc_computed := crc32c upd (slice body 0 (n - 4)) in
  if negb (crc_stored =? crc_computed) then Err (BadCrc crc_computed crc_stored) else
  let magic := read_uint 4 body 0 in
  if negb (magic =? WAL_MAGIC) then Err (BadMagic magic) else
  let version := read_uint 2 body 4 in
  if negb (version =? WAL_VERSION) then Err (BadVersion version) else
  let rt_raw := read_uint 1 body 6 in
  let? rt := ok_or (from_u8 rt_raw) (BadRecordType rt_raw) in
  let payload_len := Z.to_nat (read_uint 4 body 47) in
  if (n <? 51 + payload_len + 4)%nat then Err Truncated else
  Ok (mkRecord rt (read_uint 8 body 7) (read_uint 8 body 15) (read_uint 8 body 23)
        (mkBallot (read_uint 8 body 31) (read_uint 8 body 39)) (slice body 51 payload_len),
      (4 + n)%nat).
Proof.
  intros Hn Hm. unfold decode, MIN_RECORD_SIZE, HEADER_BODY_LEN.
  set (n := length body) in *. rewrite <- app_assoc.
  assert (Hr : Z.to_nat (read_uint 4 (to_le_bytes 4 (Z.of_nat n) ++ body ++ rest) 0) = n).
  { unfold read_uint. rewrite slice_hit by apply to_le_bytes_length.
    rewrite from_to_le by (unfold width; simpl; lia). lia. }
  assert (Hs : slice (to_le_bytes 4 (Z.of_nat n) ++ body ++ rest) 4 n = body).
  { apply slice_at; [apply to_le_bytes_length|done]. }
  cbv zeta. rewrite Hr, Hs, !length_app, to_le_bytes_length. fold n.
  rewrite !(proj2 (Nat.ltb_ge _ _)) by lia. done.
Qed.

(** Each field of a written header is where [decode] reads it. *)
Lemma header_fields r h tl :
  record_ok r -> write_header_body r (length (payload r)) = Some h ->
  let body := h ++ payload r ++ tl in
  read_uint 4 body 0 = WAL_MAGIC /\ read_uint 2 body 4 = WAL_VERSION /\
  read_uint 1 body 6 = as_u8 (record_type r) /\ read_uint 8 body 7 = group_id r /\
  read_uint 8 body 15 = term r /\ read_uint 8 body 23 = slot r /\
  read_uint 8 body 31 = round (ballot r) /\ read_uint 8 body 39 = leader_id (ballot r) /\
  read_uint 4 body 47 = Z.of_nat (length (payload r)) /\
  slice body 51 (length (payload r)) = payload r.
Proof.
  intros (Hg & Ht & Hs & Hr & Hl & _) Hh. unfold write_header_body in Hh.
  destruct (Z.ltb_spec (Z.of_nat (length (payload r))) (2 ^ 32)) as [Hn|]; [|done].
  apply (inj Some) in Hh. subst h. cbv zeta. unfold read_uint. rewrite <- !app_assoc.
  split_and!; slice_field; rewrite ?from_to_u64 by done; try done.
  - simpl. lia.
  - apply from_to_le. unfold width. simpl. lia.
Qed.

Lemma decode_encode r b rest :
  record_ok r -> fits r -> encode upd r = Some b -> decode upd (b ++ rest) = Ok (r, length b).
Proof.
  intros Hok Hf. destruct (encode_frame_fits r Hf) as (h & Hh & ->).
  intros Eb%(inj Some). subst b. pose proof (write_header_length _ _ _ Hh) as Hhl. unfold fits in Hf.
  set (c := to_le_bytes 4 (crc32c upd (h ++ payload r))).
  assert (Hcl : length c = 4%nat) by apply to_le_bytes_length.
  destruct (header_fields r h c Hok Hh) as (F1 & F2 & F3 & F4 & F5 & F6 & F7 & F8 & F9 & F10).
  set (body := h ++ payload r ++ c) in *.
  assert (Hbl : length body = (HEADER_BODY_LEN + length (payload r) + 4)%nat).
  { unfold body. rewrite !length_app, Hhl, Hcl. lia. }
  rewrite <- Hbl in *. unfold HEADER_BODY_LEN in Hbl.
  rewrite decode_body by lia. cbv zeta.
  assert (Hcrc : read_uint 4 body (length body - 4) = crc32c upd (slice body 0 (length body - 4))).
  { assert (Hn4 : (length body - 4 = length (h ++ payload r))%nat)
      by (unfold body; rewrite !length_app, Hcl; lia).
    rewrite Hn4. unfold body. rewrite (app_assoc h), slice_hit by done.
    unfold read_uint. rewrite slice_skip, Nat.sub_diag, slice_all by lia.
    apply from_to_le. unfold width. simpl. apply crc32c_range. }
  rewrite Hcrc, F1, F2, F3, F4, F5, F6, F7, F8, F9, Z.eqb_refl, from_as_u8, !Z.eqb_refl.
  cbn [negb ok_or result_bind]. rewrite Nat2Z.id, F10, (proj2 (Nat.ltb_ge _ _)) by lia.
  rewrite length_app, to_le_bytes_length. destruct r as [? ? ? ? []]. done.
Qed.

(** A frame cut short is reported as truncated, wherever it is cut. *)
Lemma decode_prefix r b p q :
  fits r -> encode upd r = Some b -> b = p ++ q -> q <> [] -> decode upd p = Err Truncated.
Proof.
  intros Hf He Hpq Hq. pose proof (encode_length _ _ He) as Hlen.
  destruct (encode_frame_fits r Hf) as (h & Hh & He'). rewrite He in He'. apply (inj Some) in He'.
  assert (Hpl : (length p < length b)%nat) by (rewrite Hpq, length_app; destruct q; [done|simpl; lia]).
  unfold decode. destruct (Nat.ltb_spec (length p) MIN_RECORD_SIZE) as [|Hm]; [done|].
  unfold MIN_RECORD_SIZE, HEADER_BODY_LEN in Hm. simpl in Hm. cbv zeta.
  assert (Hfl : Z.to_nat (read_uint 4 p 0) = (HEADER_BODY_LEN + length (payload r) + 4)%nat).
  { assert (E : slice p 0 4 = slice b 0 4).
    { rewrite Hpq. unfold slice. rewrite !drop_0, take_app_le by lia. done. }
    unfold read_uint. rewrite E, He', slice_hit by apply to_le_bytes_length.
    rewrite from_to_le; [lia|]. change (width 4) with (2 ^ 32). unfold fits in Hf. lia. }
  rewrite Hfl. unfold HEADER_BODY_LEN.
  rewrite (proj2 (Nat.ltb_ge _ _)) by lia. rewrite (proj2 (Nat.ltb_lt _ _)) by lia. done.
Qed.

Lemma text_word_no_space (k : string) l : 32 ∉ bs k -> wordy l -> 32 ∉ bs k ++ l.
Proof. intros Hk Hl%wordy_no_space. rewrite elem_of_app. tauto. Qed.

Lemma as_str_no_space t : 32 ∉ as_str t.
Proof. destruct t; byte_dec. Qed.

Lemma from_as_str t : from_name (as_str t) = Ok t.
Proof. by destruct t. Qed.

Definition text_words (r : WALRecord) : list bytes :=
  [bs "v=" ++ show_dec WAL_VERSION; bs "type=" ++ as_str (record_type r);
   bs "group_id=" ++ show_dec (group_id r); bs "term=" ++ show_dec (term r);
   bs "slot=" ++ show_dec (slot r); bs "ballot_round=" ++ show_dec (round (ballot r));
   bs "ballot_leader_id=" ++ show_dec (leader_id (ballot r));
   bs "payload_hex=" ++ encode_hex (payload r)].

Lemma text_words_no_space r :
  Forall is_byte (payload r) -> Forall (fun p => 32 ∉ p) (TEXT_PREFIX :: text_words r).
Proof.
  intros Hp. pose proof (encode_hex_wordy _ Hp) as Hx. unfold text_words.
  repeat (apply Forall_cons; split); try apply Forall_nil; auto;
    try (apply text_word_no_space; [byte_dec|done || apply show_dec_wordy]).
  - byte_dec.
  - rewrite elem_of_app. intros [H|H]; [revert H; byte_dec|].
    by apply as_str_no_space in H.
Qed.

Lemma take_text_words r :
  record_ok r ->
  take_fields no_fields (text_words r) =
    Ok (mkFields (Some WAL_VERSION) (Some (record_type r)) (Some (group_id r)) (Some (term r))
          (Some (slot r)) (Some (round (ballot r))) (Some (leader_id (ballot r))) (Some (payload r))).
Proof.
  intros (Hg & Ht & Hs & Hr & Hl & Hp).
  assert (Hn : forall z, is_u64 z -> parse_dec (2 ^ 64) (show_dec z) = Some z).
  { intros z Hz. apply parse_show_dec; [unfold is_u64, u64_max in Hz; lia|lia]. }
  unfold text_words, take_fields.
  change (bs "v=" ++ ?x) with (bs "v" ++ 61 :: x).
  change (bs "type=" ++ ?x) with (bs "type" ++ 61 :: x).
  change (bs "group_id=" ++ ?x) with (bs "group_id" ++ 61 :: x).
  change (bs "term=" ++ ?x) with (bs "term" ++ 61 :: x).
  change (bs "slot=" ++ ?x) with (bs "slot" ++ 61 :: x).
  change (bs "ballot_round=" ++ ?x) with (bs "ballot_round" ++ 61 :: x).
  change (bs "ballot_leader_id=" ++ ?x) with (bs "ballot_leader_id" ++ 61 :: x).
  change (bs "payload_hex=" ++ ?x) with (bs "payload_hex" ++ 61 :: x).
  unfold take_field, parse_num. rewrite !split_once_app by byte_dec.
  cbn [ok_or result_bind no_fields].
  repeat (repeat rewrite decide_False by byte_dec; rewrite decide_True by done;
    rewrite ?Hn, ?from_as_str, ?decode_encode_hex, ?parse_show_dec by (done || unfold WAL_VERSION; lia);
    cbn [ok_or result_bind]).
  done.
Qed.

Lemma decode_text_encode r : record_ok r -> decode_text_line upd (encode_text_line upd r) = Ok r.
Proof.
  intros Hok. unfold encode_text_line.
  change [TEXT_PREFIX; _; _; _; _; _; _; _; _] with (TEXT_PREFIX :: text_words r).
  set (line := join_with 32 (TEXT_PREFIX :: text_words r)). cbv zeta.
  set (hex := format_08x (crc32c upd line)).
  assert (Hhex : exists h c, hex = h ++ [c] /\ c <> 13 /\ c <> 10)
    by (apply wordy_last; [apply format_08x_wordy|done]).
  destruct Hhex as (h & c & Eh & Hc1 & Hc2). unfold decode_text_line.
  assert (Htrim : trim_end (line ++ bs " crc32c=" ++ hex ++ [10]) = line ++ bs " crc32c=" ++ hex).
  { rewrite Eh, <- !app_assoc. rewrite !(app_assoc line), !(app_assoc (_ ++ bs " crc32c=")).
    by apply trim_end_newline. }
  rewrite Htrim. change (bs " crc32c=") with (32 :: bs "crc32c=").
  rewrite rsplit_once_app; [|byte_dec|apply wordy_no_space, format_08x_wordy].
  cbn [ok_or result_bind]. unfold hex. rewrite parse_format_08x by apply crc32c_range.
  cbn [ok_or result_bind]. rewrite Z.eqb_refl. cbn [negb]. unfold line.
  destruct Hok as (Hg & Ht & Hs & Hr & Hl & Hp).
  rewrite split_join by (done || by apply text_words_no_space).
  rewrite decide_True by done. rewrite take_text_words by done.
  by destruct r as [? ? ? ? []].
Qed.

(** A record that decodes passed its checksum and lies within the data. *)
Lemma decode_sound_facts data r n :
  Forall is_byte data -> decode upd data = Ok (r, n) ->
  record_ok r /\ (59 <= n <= length data)%nat /\
  from_le_bytes (slice data (n - 4) 4) = crc32c upd (slice data 4 (n - 8)).
Proof.
  intros Hd. unfold decode, MIN_RECORD_SIZE, HEADER_BODY_LEN.
  destruct (Nat.ltb_spec (length data) (4 + (4 + 2 + 1 + 8 + 8 + 8 + 8 + 8 + 4) + 4)) as [|Hl]; [done|].
  cbv zeta. set (fl := Z.to_nat (read_uint 4 data 0)).
  destruct (Nat.ltb_spec fl (4 + 2 + 1 + 8 + 8 + 8 + 8 + 8 + 4 + 4)) as [|Hfl]; [done|].
  destruct (Nat.ltb_spec (length data) (4 + fl)) as [|Ht]; [done|].
  destruct (Z.eqb_spec (read_uint 4 (slice data 4 fl) (fl - 4))
    (crc32c upd (slice (slice data 4 fl) 0 (fl - 4)))) as [Hc|]; [|done]. cbn [negb].
  destruct (_ =? WAL_MAGIC); [|done]. cbn [negb]. destruct (_ =? WAL_VERSION); [|done]. cbn [negb].
  destruct (from_u8 _) as [rt|]; [|done]. cbn [ok_or result_bind].
  destruct (Nat.ltb_spec (length (slice data 4 fl)) (51 + Z.to_nat (read_uint 4 (slice data 4 fl) 47) + 4));
    [done|].
  intros [= <- <-]. unfold read_uint in *. split_and!; try lia.
  - unfold record_ok, is_u64, u64_max. simpl.
    split_and!; try (apply (from_le_u64 (slice data 4 fl)); by apply slice_bytes);
      try (pose proof (from_le_u64 (slice data 4 fl)) as Hx;
           match goal with |- from_le_bytes (slice _ ?o _) <= _ => specialize (Hx o) end;
           destruct Hx; [by apply slice_bytes|lia]).
    by apply slice_bytes, slice_bytes.
  - rewrite !slice_slice in Hc by lia.
    etrans; [|etrans; [exact Hc|]]; repeat f_equal; lia.
Qed.

(** A record of [u64] fields whose frame fits [u32] encodes to the bytes
    of the vectored write, of the announced length; it decodes back to itself
    from any data that starts with them; and every proper prefix of them is
    reported as truncated. *)
Theorem wal_record_roundtrip r :
  record_ok r -> fits r ->
  exists f b, encode_frame upd r = Some f /\ encode upd r = Some b /\
    length b = total_len f /\ concat (append_io_slices f []) = b /\
    (forall rest, decode upd (b ++ rest) = Ok (r, length b)) /\
    (forall p q, b = p ++ q -> q <> [] -> decode upd p = Err Truncated).
Proof.
  intros Hok Hf. destruct (encode_frame_fits r Hf) as (h & Hh & He).
  unfold encode in He. destruct (encode_frame upd r) as [f|] eqn:Ef; [|done].
  exists f, (frame_len f ++ header f ++ frame_payload f ++ crc f).
  assert (He' : encode upd r = Some (frame_len f ++ header f ++ frame_payload f ++ crc f))
    by (unfold encode; by rewrite Ef).
  assert (Hp : frame_payload f = payload r).
  { unfold encode_frame in Ef. rewrite Hh in Ef. zcase_step; [|done]. by injection Ef as <-. }
  split_and!; [done..| | | |].
  - rewrite (encode_length _ _ He'). unfold total_len, HEADER_BODY_LEN. rewrite Hp. lia.
  - unfold append_io_slices. simpl. by rewrite app_nil_r.
  - intros rest. by apply decode_encode.
  - intros p q. by apply (decode_prefix r).
Qed.

(** Whatever the bytes, a record that decodes has fields in range, consumes
    no more than the data, and passed its checksum. *)
Theorem wal_decode_sound data r n :
  Forall is_byte data -> decode upd data = Ok (r, n) ->
  record_ok r /\ (59 <= n <= length data)%nat /\
  from_le_bytes (slice data (n - 4) 4) = crc32c upd (slice data 4 (n - 8)).
Proof. apply decode_sound_facts. Qed.

(** The text line of a record decodes back to the record. *)
Theorem wal_text_roundtrip r :
  record_ok r -> decode_text_line upd (encode_text_line upd r) = Ok r.
Proof. apply decode_text_encode. Qed.

End codec_proofs.

Definition demo_record : WALRecord := mkRecord RAccepted 3 7 12 (mkBallot 2 9) [1; 255; 0].

Lemma demo_record_ok : record_ok demo_record.
Proof.
  unfold record_ok, is_u64, u64_max, demo_record. simpl.
  split_and!; try lia. repeat constructor; unfold is_byte; lia.
Qed.

Lemma wal_record_roundtrip_witness :
  exists f b, encode_frame crc_ref demo_record = Some f /\ encode crc_ref demo_record = Some b /\
    length b = total_len f /\ (forall rest, decode crc_ref (b ++ rest) = Ok (demo_record, length b)).
Proof.
  destruct (wal_record_roundtrip crc_ref demo_record demo_record_ok) as (f & b & H1 & H2 & H3 & _ & H5 & _).
  - unfold fits. vm_compute. reflexivity.
  - exists f, b. split_and!; assumption.
Defined.

Definition demo_bytes : bytes := default [] (encode crc_ref demo_record).

Lemma wal_decode_sound_witness :
  decode crc_ref demo_bytes = Ok (demo_record, 62%nat) /\ (59 <= 62 <= length demo_bytes)%nat.
Proof.
  split; [vm_compute; reflexivity|].
  apply (wal_decode_sound crc_ref demo_bytes demo_record 62).
  - apply (bool_decide_unpack _). vm_compute. exact I.
  - vm_compute. reflexivity.
Defined.

Lemma wal_text_roundtrip_witness :
  decode_text_line crc_ref (encode_text_line crc_ref demo_record) = Ok demo_record.
Proof. apply (wal_text_roundtrip crc_ref demo_record demo_record_ok). Defined.

End WalRecord.
