(* ===== verification/WalSegment.v ===== *)
(** * WAL segment files

    Models [src/lib/crowdb-kv/src/wal/segment.rs] and
    [segment/read_buffer.rs]: the header and footer codecs, the writer
    ([create_with_format], [append], [seal]) and the reader ([open],
    [next_record], [read_footer]), on the bytes of one file.  Writes and reads
    that succeed are modelled; what a torn write leaves is any prefix.

    The theorems: a written segment reads back record by record, whether or not
    it was sealed or padded to a block; a torn tail costs only the torn record;
    the read-ahead buffer is invisible. *)

From stdpp Require Import prelude list strings.
From Stdlib Require Import ZArith Lia.
From S2P Require Import Prelude Roles Bytes WalRecord.

Module WalSegment.
Import WalRecord.

Definition SEG_MAGIC : Z := 1397049165. (* 0x5345474D *)
Definition SEG_VERSION : Z := 1.
Definition SEG_HEADER_LEN : nat := 4 + 2 + 8 + 8.
Definition FOOTER_MAGIC : Z := 1179602772. (* 0x464F4F54 *)
Definition FOOTER_LEN : nat := 4 + 8 + 8 + 4 + 4.
Definition SEG_TEXT_PREFIX : bytes := bs "CROWDB_WAL_SEG".
Definition FOOTER_TEXT_PREFIX : bytes := bs "CROWDB_WAL_FOOTER".
Definition FOOTER_TAIL_SCAN_BYTES : nat := 64 * 1024.

Inductive WalRecordFormat := Auto | Binary | TextLine.

Record SegmentHeader := mkHeader { h_segment_id : Z; h_group_id : Z }.
Record SegmentFooter := mkFooter { ft_min_slot : Z; ft_max_slot : Z; ft_record_count : Z }.

(** ** Header *)

Definition encode_seg_header (segment_id gid : Z) : bytes :=
  to_le_bytes 4 SEG_MAGIC ++ to_le_bytes 2 SEG_VERSION ++ to_le_bytes 8 segment_id ++ to_le_bytes 8 gid.

(** Any failure is one [InvalidData]. *)
Definition decode_seg_header (buf : bytes) : option SegmentHeader :=
  if negb (read_uint 4 buf 0 =? SEG_MAGIC) then None
  else Some (mkHeader (read_uint 8 buf 6) (read_uint 8 buf 14)).

Definition encode_text_seg_header (segment_id gid : Z) : bytes :=
  join_with 32 [SEG_TEXT_PREFIX; bs "v=" ++ show_dec SEG_VERSION;
                bs "segment_id=" ++ show_dec segment_id; bs "group_id=" ++ show_dec gid] ++ [10].

Fixpoint take_header_fields (sid gid : option Z) (fields : list bytes) : option (option Z * option Z) :=
  match fields with
  | [] => Some (sid, gid)
  | f :: fields =>
      match split_once 61 f with
      | None => None
      | Some (key, value) =>
          if decide (key = bs "v") then take_header_fields sid gid fields
          else if decide (key = bs "segment_id") then
            match parse_dec (2 ^ 64) value with
            | Some x => take_header_fields (Some x) gid fields
            | None => None
            end
          else if decide (key = bs "group_id") then
            match parse_dec (2 ^ 64) value with
            | Some x => take_header_fields sid (Some x) fields
            | None => None
            end
          else None
      end
  end.

Definition decode_text_seg_header (line : bytes) : option SegmentHeader :=
  match split_char 32 line with
  | [] => None
  | prefix :: fields =>
      if decide (prefix = SEG_TEXT_PREFIX) then
        match take_header_fields None None fields with
        | Some (Some sid, Some gid) => Some (mkHeader sid gid)
        | _ => None
        end
      else None
  end.

(** ** [std::str::from_utf8] *)

Definition cont (b : Z) : bool := (128 <=? b) && (b <=? 191).
Definition btw (lo b hi : Z) : bool := (lo <=? b) && (b <=? hi).

(** Well-formed UTF-8, with the shortest-form and surrogate rules. *)
Fixpoint is_utf8 (l : bytes) : bool :=
  match l with
  | [] => true
  | a :: l1 =>
    if a <? 128 then is_utf8 l1 else
    match l1 with
    | [] => false
    | b :: l2 =>
      if btw 194 a 223 then cont b && is_utf8 l2 else
      match l2 with
      | [] => false
      | c :: l3 =>
        if btw 224 a 239 then
          (if a =? 224 then btw 160 b 191 else if a =? 237 then btw 128 b 159 else cont b)
            && cont c && is_utf8 l3
        else
        match l3 with
        | [] => false
        | d :: l4 =>
          btw 240 a 244
            && (if a =? 240 then btw 144 b 191 else if a =? 244 then btw 128 b 143 else cont b)
            && cont c && cont d && is_utf8 l4
        end
      end
    end
  end.

(** [iter().position(|b| b == c)] and [rposition]. *)
Fixpoint position (p : Z -> bool) (l : bytes) : option nat :=
  match l with
  | [] => None
  | x :: l => if p x then Some O else match position p l with Some n => Some (S n) | None => None end
  end.

Fixpoint rposition (p : Z -> bool) (l : bytes) : option nat :=
  match l with
  | [] => None
  | x :: l => match rposition p l with Some n => Some (S n) | None => if p x then Some O else None end
  end.

(** [windows(pat.len()).rposition(|w| w == pat)] *)
Fixpoint rfind (pat l : bytes) : option nat :=
  match l with
  | [] => if bool_decide (pat = []) then Some O else None
  | _ :: l' => match rfind pat l' with
               | Some n => Some (S n)
               | None => if bool_decide (take (length pat) l = pat) then Some O else None
               end
  end.

Section segment.
Context (crc32_iscsi : Z -> bytes -> Z).

Abbreviation crc32c := (WalRecord.crc32c crc32_iscsi).

(** ** Footer *)

Definition encode_footer (min_slot max_slot record_count : Z) : bytes :=
  let buf := to_le_bytes 4 FOOTER_MAGIC ++ to_le_bytes 8 min_slot ++ to_le_bytes 8 max_slot
             ++ to_le_bytes 4 record_count in
  buf ++ to_le_bytes 4 (crc32c buf).

Definition decode_footer (buf : bytes) : option SegmentFooter :=
  if negb (read_uint 4 buf 0 =? FOOTER_MAGIC) then None
  else if negb (read_uint 4 buf 24 =? crc32c (slice buf 0 24)) then None
  else Some (mkFooter (read_uint 8 buf 4) (read_uint 8 buf 12) (read_uint 4 buf 20)).

Definition encode_text_footer (min_slot max_slot record_count : Z) : bytes :=
  let line := join_with 32 [FOOTER_TEXT_PREFIX; bs "min_slot=" ++ show_dec min_slot;
    bs "max_slot=" ++ show_dec max_slot; bs "record_count=" ++ show_dec record_count] in
  line ++ bs " crc32c=" ++ format_08x (crc32c line) ++ [10].

Fixpoint take_footer_fields (mn mx rc : option Z) (fields : list bytes)
  : result (option Z * option Z * option Z) RecordError :=
  match fields with
  | [] => Ok (mn, mx, rc)
  | f :: fields =>
      let? (key, value) := ok_or (split_once 61 f) (BadText MalformedField) in
      if decide (key = bs "min_slot") then
        let? x := parse_num (2 ^ 64) value in take_footer_fields (Some x) mx rc fields
      else if decide (key = bs "max_slot") then
        let? x := parse_num (2 ^ 64) value in take_footer_fields mn (Some x) rc fields
      else if decide (key = bs "record_count") then
        let? x := parse_num (2 ^ 32) value in take_footer_fields mn mx (Some x) fields
      else Err (BadText UnknownField)
  end.

Definition decode_text_footer (line : bytes) : result SegmentFooter RecordError :=
  let? (body, crc_hex) := ok_or (rsplit_once (bs " crc32c=") (trim_end line)) (BadText MissingCrc) in
  let? got := ok_or (parse_hex_u32 crc_hex) (BadText InvalidCrc) in
  let expected := crc32c body in
  if negb (got =? expected) then Err (BadCrc expected got) else
  match split_char 32 body with
  | [] => Err (BadText MissingPrefix)
  | prefix :: fields =>
      if decide (prefix = FOOTER_TEXT_PREFIX) then
        let? (mn, mx, rc) := take_footer_fields None None None fields in
        let? mn := ok_or mn (BadText MissingField) in
        let? mx := ok_or mx (BadText MissingField) in
        let? rc := ok_or rc (BadText MissingField) in
        Ok (mkFooter mn mx rc)
      else Err (BadText BadPrefix)
  end.

Definition try_decode_text_footer_from_tail (tail : bytes) : option SegmentFooter :=
  match rposition (fun b => negb (b =? 0)) tail with
  | None => None
  | Some last =>
      let data := take (last + 1) tail in
      match rfind FOOTER_TEXT_PREFIX data with
      | None => None
      | Some pos =>
          match position (fun b => b =? 10) (drop pos data) with
          | None => None
          | Some newline_rel =>
              let line := slice data pos newline_rel in
              if is_utf8 line then
                match decode_text_footer line with Ok f => Some f | Err _ => None end
              else None
          end
      end
  end.

(** ** Writer *)

Record WalSegment := mkSegment {
  file : bytes;
  segment_id : Z;
  seg_group_id : Z;
  min_slot : Z;
  max_slot : Z;
  record_count : Z;
  max_term : Z;
  vote_term : option Z;
  sealed : bool;
  record_format : WalRecordFormat;
}.

(** [write_offset] is the length of the file: every write goes to its end. *)
Definition write_offset (s : WalSegment) : nat := length (file s).

Definition create_with_format (sid gid : Z) (fmt : WalRecordFormat) : WalSegment :=
  let header := match fmt with
                | TextLine => encode_text_seg_header sid gid
                | Auto | Binary => encode_seg_header sid gid
                end in
  mkSegment header sid gid u64_max 0 0 0 None false fmt.

(** Bytes of one record in the segment's format. *)
Definition encode_record (fmt : WalRecordFormat) (r : WALRecord) : option bytes :=
  match fmt with
  | Auto | Binary => encode crc32_iscsi r
  | TextLine => Some (encode_text_line crc32_iscsi r)
  end.

(** [append]: the new segment and the record's offset; [None] is a panic. *)
Definition append (s : WalSegment) (r : WALRecord) : option (WalSegment * nat) :=
  if sealed s then None else
  match encode_record (record_format s) r with
  | None => None
  | Some encoded =>
      let offset := write_offset s in
      Some (mkSegment (file s ++ encoded) (segment_id s) (seg_group_id s)
              (if negb (slot r =? 0) && (slot r <? min_slot s) then slot r else min_slot s)
              (if negb (slot r =? 0) && (max_slot s <? slot r) then slot r else max_slot s)
              ((record_count s + 1) mod 2 ^ 32)
              (Z.max (max_term s) (term r))
              (if decide (record_type r = RVoteGranted) then opt_max (vote_term s) (term r)
               else vote_term s)
              (sealed s) (record_format s), offset)
  end.

Definition seal (s : WalSegment) : WalSegment :=
  if sealed s then s else
  let footer := match record_format s with
                | TextLine => encode_text_footer (min_slot s) (max_slot s) (record_count s)
                | Auto | Binary => encode_footer (min_slot s) (max_slot s) (record_count s)
                end in
  mkSegment (file s ++ footer) (segment_id s) (seg_group_id s) (min_slot s) (max_slot s)
    (record_count s) (max_term s) (vote_term s) true (record_format s).

Definition is_full (s : WalSegment) (threshold : nat) : bool := bool_decide (threshold <= write_offset s)%nat.

(** ** Reader *)

Record SegmentReader := mkReader { r_file : bytes; r_header : SegmentHeader; r_offset : nat }.

(** [open]; every failure is an I/O error. *)
Definition open_segment (f : bytes) : option SegmentReader :=
  if (length f <? SEG_HEADER_LEN)%nat then None else
  if bool_decide (take (length SEG_TEXT_PREFIX) f = SEG_TEXT_PREFIX) then
    match position (fun b => b =? 10) f with
    | None => None
    | Some nl =>
        if is_utf8 (take nl f) then
          match decode_text_seg_header (take nl f) with
          | Some h => Some (mkReader f h (nl + 1))
          | None => None
          end
        else None
    end
  else
    match decode_seg_header (take SEG_HEADER_LEN f) with
    | Some h => Some (mkReader f h SEG_HEADER_LEN)
    | None => None
    end.

(** The bytes at the cursor start with this prefix. *)
Definition next_is (prefix : bytes) (rd : SegmentReader) : bool :=
  let rest := drop (r_offset rd) (r_file rd) in
  if (length rest <? length prefix)%nat then false
  else bool_decide (slice (r_file rd) (r_offset rd) (length prefix) = prefix).

Definition advance (rd : SegmentReader) (n : nat) : SegmentReader :=
  mkReader (r_file rd) (r_header rd) (r_offset rd + n).

Definition next_text_record (rd : SegmentReader)
  : result (option (WALRecord * nat)) (RecordError * nat) * SegmentReader :=
  let buf := drop (r_offset rd) (r_file rd) in
  match position (fun b => b =? 10) buf with
  | None => (Err (Truncated, r_offset rd), rd)
  | Some nl =>
      let line := take (nl + 1) buf in
      if is_utf8 line then
        match decode_text_line crc32_iscsi line with
        | Ok record => (Ok (Some (record, r_offset rd)), advance rd (nl + 1))
        | Err e => (Err (e, r_offset rd), rd)
        end
      else (Err (BadText InvalidUtf8, r_offset rd), rd)
  end.

Definition next_record (rd : SegmentReader)
  : result (option (WALRecord * nat)) (RecordError * nat) * SegmentReader :=
  let file_len := length (r_file rd) in
  if (file_len <=? r_offset rd)%nat then (Ok None, rd) else
  let remaining := (file_len - r_offset rd)%nat in
  if (remaining <? 4)%nat then (Ok None, rd) else
  if next_is TEXT_PREFIX rd then next_text_record rd else
  if next_is FOOTER_TEXT_PREFIX rd then (Ok None, rd) else
  let marker := read_uint 4 (r_file rd) (r_offset rd) in
  if marker =? FOOTER_MAGIC then (Ok None, rd) else
  if marker =? 0 then (Ok None, rd) else
  if (remaining <? MIN_RECORD_SIZE)%nat then (Err (Truncated, r_offset rd), rd) else
  let total := (4 + Z.to_nat marker)%nat in
  if (file_len <? r_offset rd + total)%nat then (Err (Truncated, r_offset rd), rd) else
  match decode crc32_iscsi (slice (r_file rd) (r_offset rd) total) with
  | Ok (record, consumed) => (Ok (Some (record, r_offset rd)), advance rd consumed)
  | Err e => (Err (e, r_offset rd), rd)
  end.

(** The slow path of [read_footer]: candidate footer ends [first..last]. *)
Fixpoint scan_footer (tail : bytes) (first : nat) (count : nat) : option SegmentFooter :=
  match count with
  | O => None
  | S count =>
      let here := if (first <? FOOTER_LEN)%nat then None
                  else decode_footer (slice tail (first - FOOTER_LEN) FOOTER_LEN) in
      match here with Some f => Some f | None => scan_footer tail (S first) count end
  end.

Definition read_footer (f : bytes) : option SegmentFooter :=
  let file_len := length f in
  if (file_len <? SEG_HEADER_LEN + FOOTER_LEN)%nat then None else
  match decode_footer (slice f (file_len - FOOTER_LEN) FOOTER_LEN) with
  | Some ft => Some ft
  | None =>
      let tail_start := Nat.max (file_len - FOOTER_TAIL_SCAN_BYTES) SEG_HEADER_LEN in
      let tail := drop tail_start f in
      match try_decode_text_footer_from_tail tail with
      | Some ft => Some ft
      | None =>
          match rposition (fun b => negb (b =? 0)) tail with
          | None => None
          | Some last_nonzero =>
              let first_end := (last_nonzero + 1)%nat in
              let max_end := Nat.min (first_end + 4) (length tail) in
              scan_footer tail first_end (max_end + 1 - first_end)
          end
      end
  end.

(** The replay loop over one segment: the records with their offsets, and the
    error that stopped it, if one did.  Every record is at least
    [MIN_RECORD_SIZE] bytes (a text line is longer), so the file length bounds
    the iterations. *)
Fixpoint read_all (fuel : nat) (rd : SegmentReader)
  : list (WALRecord * nat) * option (RecordError * nat) :=
  match fuel with
  | O => ([], None)
  | S fuel =>
      match next_record rd with
      | (Ok (Some ro), rd') => let '(l, e) := read_all fuel rd' in (ro :: l, e)
      | (Ok None, _) => ([], None)
      | (Err e, _) => ([], Some e)
      end
  end.

End segment.

(** ** Read-ahead buffer *)

Definition READ_AHEAD : nat := 1024 * 1024.

Record SegmentReadBuffer := mkBuf { b_bytes : bytes; b_offset : nat }.

Definition empty_buf : SegmentReadBuffer := mkBuf [] 0.

(** [read]: [None] is an unexpected end of file. *)
Definition buf_read (buf : SegmentReadBuffer) (f : bytes) (offset len : nat)
  : option bytes * SegmentReadBuffer :=
  let cached :=
    if (b_offset buf <=? offset)%nat then
      let start := (offset - b_offset buf)%nat in
      if ((start <=? length (b_bytes buf)) && (len <=? length (b_bytes buf) - start))%nat
      then Some (slice (b_bytes buf) start len) else None
    else None in
  match cached with
  | Some bytes => (Some bytes, buf)
  | None =>
      if (length f <? offset)%nat then (None, buf) else
      let available := (length f - offset)%nat in
      if (available <? len)%nat then (None, buf) else
      let read_ahead := Nat.min available READ_AHEAD in
      let bytes := slice f offset (Nat.max len read_ahead) in
      (Some (take len bytes), mkBuf bytes offset)
  end.

(** ** Reading what was written *)

Section segment_proofs.
Context (upd : Z -> bytes -> Z) `{!Crc32c upd}.

Lemma slice_drop (f : bytes) off n : slice f off n = slice (drop off f) 0 n.
Proof. unfold slice. by rewrite drop_0. Qed.

(** [next_record] sees only the bytes from the cursor on. *)
Lemma next_record_rest rd rest :
  drop (r_offset rd) (r_file rd) = rest -> (4 <= length rest)%nat ->
  next_record upd rd =
    if bool_decide (take 15 rest = TEXT_PREFIX) then next_text_record upd rd else
    if bool_decide (take 17 rest = FOOTER_TEXT_PREFIX) then (Ok None, rd) else
    let marker := from_le_bytes (take 4 rest) in
    if marker =? FOOTER_MAGIC then (Ok None, rd) else
    if marker =? 0 then (Ok None, rd) else
    if (length rest <? 59)%nat then (Err (Truncated, r_offset rd), rd) else
    let total := (4 + Z.to_nat marker)%nat in
    if (length rest <? total)%nat then (Err (Truncated, r_offset rd), rd) else
    match decode upd (take total rest) with
    | Ok (record, consumed) => (Ok (Some (record, r_offset rd)), advance rd consumed)
    | Err e => (Err (e, r_offset rd), rd)
    end.
Proof.
  intros Hr H4. assert (Hlen : (length (r_file rd) - r_offset rd = length rest)%nat)
    by (rewrite <- Hr, length_drop; done).
  unfold next_record. rewrite (proj2 (Nat.leb_gt _ _)) by lia. cbv zeta. rewrite Hlen.
  rewrite (proj2 (Nat.ltb_ge (length rest) 4)) by lia.
  assert (Hnext : forall p n, length p = n -> next_is p rd = bool_decide (take n rest = p)).
  { intros p n <-. unfold next_is. rewrite slice_drop, Hr. unfold slice. rewrite drop_0.
    destruct (Nat.ltb_spec (length rest) (length p)); [|done].
    symmetry. apply bool_decide_eq_false. intros E. apply (f_equal length) in E.
    rewrite length_take in E. lia. }
  rewrite (Hnext _ 15%nat), (Hnext _ 17%nat) by done.
  unfold read_uint. rewrite (slice_drop _ _ 4), (slice_drop _ _ (4 + _)), Hr.
  unfold slice. rewrite !drop_0. unfold MIN_RECORD_SIZE, HEADER_BODY_LEN.
  repeat case_match; try done;
    repeat match goal with
    | H : (_ <? _)%nat = true |- _ => apply Nat.ltb_lt in H
    | H : (_ <? _)%nat = false |- _ => apply Nat.ltb_ge in H
    end; try lia; congruence.
Qed.

(** Frames below the footer magic: no confusion with the end markers. *)
Definition frame_small (r : WALRecord) : Prop :=
  Z.of_nat (HEADER_BODY_LEN + length (payload r) + 4) < FOOTER_MAGIC.

Definition writable (fmt : WalRecordFormat) (r : WALRecord) : Prop :=
  record_ok r /\ match fmt with TextLine => True | _ => frame_small r end.

Lemma frame_small_fits r : frame_small r -> fits r.
Proof. unfold frame_small, fits, FOOTER_MAGIC. lia. Qed.

(** A text prefix read as a frame length is above the footer magic. *)
Lemma text_prefix_marker n rest :
  0 <= n < FOOTER_MAGIC -> from_le_bytes (take 4 rest) = n -> (4 <= length rest)%nat ->
  take 15 rest <> TEXT_PREFIX /\ take 17 rest <> FOOTER_TEXT_PREFIX.
Proof.
  intros Hn Hm Hl.
  assert (Hp : forall k p, (4 <= k)%nat -> take k rest = p -> take 4 rest = take 4 p).
  { intros k p Hk <-. by rewrite take_take, Nat.min_l. }
  split; intros E; apply Hp in E; try lia; rewrite E in Hm; vm_compute in Hm;
    unfold FOOTER_MAGIC in Hn; lia.
Qed.

Lemma encode_marker r b :
  frame_small r -> encode upd r = Some b ->
  from_le_bytes (take 4 b) = Z.of_nat (HEADER_BODY_LEN + length (payload r) + 4) /\ (59 <= length b)%nat.
Proof.
  intros Hs He. pose proof (encode_length _ _ _ He) as Hl. split; [|lia].
  destruct (encode_frame_fits upd r (frame_small_fits r Hs)) as (h & _ & He'). rewrite He in He'.
  apply (inj Some) in He'. rewrite He', take_app_le, take_ge by (rewrite to_le_bytes_length; lia).
  apply from_to_le. change (width 4) with (2 ^ 32). unfold frame_small, FOOTER_MAGIC in Hs. lia.
Qed.

Lemma next_record_binary rd r b rest :
  record_ok r -> frame_small r -> encode upd r = Some b ->
  drop (r_offset rd) (r_file rd) = b ++ rest ->
  next_record upd rd = (Ok (Some (r, r_offset rd)), advance rd (length b)).
Proof.
  intros Hok Hs He Hd. destruct (encode_marker r b Hs He) as [Hm Hl].
  pose proof (encode_length _ _ _ He) as Hbl.
  rewrite (next_record_rest rd _ Hd) by (rewrite length_app; lia).
  assert (Hm' : from_le_bytes (take 4 (b ++ rest)) = Z.of_nat (HEADER_BODY_LEN + length (payload r) + 4))
    by (rewrite take_app_le by lia; done).
  destruct (text_prefix_marker _ _ (conj (Nat2Z.is_nonneg _) Hs) Hm') as [H1 H2];
    [rewrite length_app; lia|].
  rewrite !bool_decide_eq_false_2 by done. cbv zeta. rewrite Hm'.
  unfold frame_small in Hs. set (n := (HEADER_BODY_LEN + length (payload r) + 4)%nat) in *.
  rewrite (proj2 (Z.eqb_neq _ _)), (proj2 (Z.eqb_neq _ _)) by (unfold n; lia).
  rewrite Nat2Z.id, length_app. unfold HEADER_BODY_LEN in n.
  rewrite !(proj2 (Nat.ltb_ge _ _)) by (unfold n; lia).
  rewrite take_app_length' by (unfold n; lia).
  pose proof (decode_encode upd r b [] Hok (frame_small_fits r Hs) He) as Hdec.
  rewrite app_nil_r in Hdec. by rewrite Hdec.
Qed.

(** A torn binary record. *)
Lemma next_record_torn_binary rd r b p q :
  frame_small r -> encode upd r = Some b -> b = p ++ q -> q <> [] -> (4 <= length p)%nat ->
  drop (r_offset rd) (r_file rd) = p ->
  next_record upd rd = (Err (Truncated, r_offset rd), rd).
Proof.
  intros Hs He Hb Hq Hl Hd. destruct (encode_marker r b Hs He) as [Hm _].
  pose proof (encode_length _ _ _ He) as Hbl. rewrite (next_record_rest rd _ Hd) by done.
  assert (Hm' : from_le_bytes (take 4 p) = Z.of_nat (HEADER_BODY_LEN + length (payload r) + 4))
    by (rewrite <- Hm, Hb, take_app_le by lia; done).
  destruct (text_prefix_marker _ _ (conj (Nat2Z.is_nonneg _) Hs) Hm' Hl) as [H1 H2].
  rewrite !bool_decide_eq_false_2 by done. cbv zeta. rewrite Hm'. unfold frame_small in Hs.
  rewrite (proj2 (Z.eqb_neq _ _)), (proj2 (Z.eqb_neq _ _)) by (unfold HEADER_BODY_LEN in *; lia).
  assert (length p < length b)%nat by (rewrite Hb, length_app; destruct q; [done|simpl; lia]).
  destruct (Nat.ltb_spec (length p) 59); [done|]. rewrite Nat2Z.id.
  rewrite (proj2 (Nat.ltb_lt _ _)) by (unfold HEADER_BODY_LEN; lia). done.
Qed.

(** ** Text segments *)

Lemma literal_texty (k : string) :
  forallb (fun c => (0 <=? c) && (c <? 128) && negb (c =? 10)) (bs k) = true -> texty (bs k).
Proof.
  intros H. apply Forall_forall. intros c Hc. rewrite forallb_forall in H.
  specialize (H c (proj1 (list_elem_of_In _ _) Hc)).
  rewrite !andb_true_iff, negb_true_iff, Z.leb_le, Z.ltb_lt, Z.eqb_neq in H. tauto.
Qed.

Ltac texty_words :=
  match goal with
  | |- Forall texty [] => apply Forall_nil_2
  | |- Forall texty (_ :: _) => apply Forall_cons; split; [|texty_words]
  end.

Lemma texty_utf8 l : texty l -> is_utf8 (l ++ [10]) = true /\ is_utf8 l = true.
Proof.
  induction 1 as [|c l [Hc _] _ IH]; [done|]. cbn [app is_utf8].
  rewrite (proj2 (Z.ltb_lt c 128)) by lia. done.
Qed.

Lemma position_newline l rest : texty l -> position (fun b => b =? 10) (l ++ 10 :: rest) = Some (length l).
Proof.
  induction 1 as [|c l [_ Hc] _ IH]; [done|]. simpl. rewrite (proj2 (Z.eqb_neq c 10)) by done.
  by rewrite IH.
Qed.

Lemma position_none l : texty l -> position (fun b => b =? 10) l = None.
Proof.
  induction 1 as [|c l [_ Hc] _ IH]; [done|]. simpl. rewrite (proj2 (Z.eqb_neq c 10)) by done.
  by rewrite IH.
Qed.

Lemma text_line_shape r :
  Forall is_byte (payload r) ->
  exists l, encode_text_line upd r = l ++ [10] /\ texty l /\ take 15 l = TEXT_PREFIX /\ (15 <= length l)%nat.
Proof.
  intros Hp. unfold encode_text_line.
  change [TEXT_PREFIX; _; _; _; _; _; _; _; _] with (TEXT_PREFIX :: text_words r).
  set (line := join_with 32 (TEXT_PREFIX :: text_words r)). cbv zeta.
  exists (line ++ bs " crc32c=" ++ format_08x (crc32c upd line)). split; [by rewrite <- !app_assoc|].
  destruct (join_with_prefix 32 TEXT_PREFIX (text_words r)) as [t Et]. fold line in Et. split_and!.
  - apply texty_app; [|apply texty_app; [by apply literal_texty|apply format_08x_texty]].
    apply join_with_texty. unfold text_words.
    texty_words; try (by apply literal_texty); (apply texty_app; [by apply literal_texty|]);
      try apply show_dec_texty; try by apply encode_hex_texty.
    destruct (record_type r); by apply literal_texty.
  - rewrite Et, <- app_assoc. apply take_app_length'. done.
  - rewrite Et, !length_app. change (length TEXT_PREFIX) with 15%nat. lia.
Qed.

Lemma next_record_text rd r rest :
  record_ok r -> drop (r_offset rd) (r_file rd) = encode_text_line upd r ++ rest ->
  next_record upd rd = (Ok (Some (r, r_offset rd)), advance rd (length (encode_text_line upd r))).
Proof.
  intros Hok Hd. pose proof Hok as (_ & _ & _ & _ & _ & Hp).
  destruct (text_line_shape r Hp) as (l & El & Htx & Hpre & H15).
  rewrite (next_record_rest rd _ Hd) by (rewrite El, !length_app; lia).
  rewrite bool_decide_eq_true_2.
  2: { rewrite El, <- app_assoc, take_app_le by done. done. }
  unfold next_text_record. rewrite Hd, El, <- app_assoc. cbn [app].
  rewrite position_newline by done. cbv zeta.
  assert (Htake : take (length l + 1) (l ++ 10 :: rest) = l ++ [10]).
  { change (l ++ 10 :: rest) with (l ++ [10] ++ rest). rewrite app_assoc.
    apply take_app_length'. rewrite length_app. done. }
  rewrite Htake, (proj1 (texty_utf8 l Htx)), <- El, decode_text_encode by done.
  by rewrite El, length_app.
Qed.

(** A torn text record: no newline, whatever is left of the prefix. *)
Lemma next_record_torn_text rd r p q :
  Forall is_byte (payload r) -> encode_text_line upd r = p ++ q -> q <> [] -> (4 <= length p)%nat ->
  drop (r_offset rd) (r_file rd) = p ->
  next_record upd rd = (Err (Truncated, r_offset rd), rd).
Proof.
  intros Hp Hb Hq Hl Hd. destruct (text_line_shape r Hp) as (l & El & Htx & Hpre & H15).
  assert (Hpl : exists q', l = p ++ q').
  { destruct q as [|x q _] using rev_ind; [done|]. rewrite El, app_assoc in Hb.
    apply app_inj_tail in Hb as [-> _]. eauto. }
  destruct Hpl as [q' ->]. apply Forall_app in Htx as [Htx _].
  rewrite (next_record_rest rd _ Hd) by done.
  assert (Hp4 : take 4 p = take 4 TEXT_PREFIX).
  { rewrite <- Hpre, take_take, Nat.min_l, take_app_le by lia. done. }
  destruct (decide (15 <= length p)%nat) as [Hge|Hlt].
  - rewrite bool_decide_eq_true_2 by (rewrite <- Hpre, take_app_le by lia; done).
    unfold next_text_record. by rewrite Hd, position_none.
  - assert (Hshort : forall n pre, length pre = n -> (length p < n)%nat -> take n p <> pre).
    { intros n pre <- Hn E. apply (f_equal length) in E. rewrite length_take in E. lia. }
    rewrite !bool_decide_eq_false_2 by (apply Hshort; [done|lia]).
    cbv zeta. rewrite Hp4. change (from_le_bytes (take 4 TEXT_PREFIX)) with 1464816195.
    change (1464816195 =? FOOTER_MAGIC) with false. change (1464816195 =? 0) with false. cbn iota.
    rewrite (proj2 (Nat.ltb_lt _ _)) by lia. done.
Qed.

(** ** The end markers *)

Lemma zeros_marker n : (4 <= n)%nat -> take 4 (replicate n 0) = [0; 0; 0; 0].
Proof. intros H. rewrite take_replicate, Nat.min_l by lia. done. Qed.

Lemma next_record_padding rd n :
  drop (r_offset rd) (r_file rd) = replicate n 0 -> next_record upd rd = (Ok None, rd).
Proof.
  intros Hd. destruct (decide (4 <= n)%nat) as [Hn|Hn].
  - rewrite (next_record_rest rd _ Hd) by (rewrite length_replicate; lia).
    destruct (text_prefix_marker 0 (replicate n 0)) as [H1 H2];
      [unfold FOOTER_MAGIC; lia|by rewrite zeros_marker|rewrite length_replicate; lia|].
    rewrite !bool_decide_eq_false_2 by done. cbv zeta. rewrite zeros_marker by done. done.
  - assert (Hl : (length (r_file rd) - r_offset rd = n)%nat)
      by (rewrite <- length_drop, Hd, length_replicate; done).
    unfold next_record. destruct (Nat.leb_spec (length (r_file rd)) (r_offset rd)); [done|].
    cbv zeta. rewrite Hl, (proj2 (Nat.ltb_lt _ _)) by lia. done.
Qed.

(** What [seal] and block padding leave behind the records. *)
Definition footer_of (s : WalSegment) : bytes :=
  match record_format s with
  | TextLine => encode_text_footer upd (min_slot s) (max_slot s) (record_count s)
  | _ => encode_footer upd (min_slot s) (max_slot s) (record_count s)
  end.

Lemma next_record_footer rd s rest :
  drop (r_offset rd) (r_file rd) = footer_of s ++ rest -> next_record upd rd = (Ok None, rd).
Proof.
  unfold footer_of. destruct (record_format s).
  1,2: intros Hd; rewrite (next_record_rest rd _ Hd)
      by (rewrite length_app; unfold encode_footer; rewrite !length_app, !to_le_bytes_length; lia);
    assert (Hm : take 4 (encode_footer upd (min_slot s) (max_slot s) (record_count s) ++ rest)
      = to_le_bytes 4 FOOTER_MAGIC)
      by (unfold encode_footer; rewrite <- !app_assoc, take_app_length' by done; done);
    assert (Hb : forall k pre, (4 <= k)%nat -> take 4 pre <> to_le_bytes 4 FOOTER_MAGIC ->
      take k (encode_footer upd (min_slot s) (max_slot s) (record_count s) ++ rest) <> pre)
      by (intros k pre Hk Hne E; apply Hne; rewrite <- E, take_take, Nat.min_l by lia; exact Hm);
    rewrite !bool_decide_eq_false_2 by (apply Hb; [lia|by vm_compute]); cbv zeta; by rewrite Hm.
  intros Hd. unfold encode_text_footer in Hd.
  destruct (join_with_prefix 32 FOOTER_TEXT_PREFIX [bs "min_slot=" ++ show_dec (min_slot s);
    bs "max_slot=" ++ show_dec (max_slot s); bs "record_count=" ++ show_dec (record_count s)]) as [t Et].
  rewrite Et in Hd. cbv zeta in Hd. rewrite <- !app_assoc in Hd.
  rewrite (next_record_rest rd _ Hd) by (rewrite length_app; vm_compute (length FOOTER_TEXT_PREFIX); lia).
  rewrite bool_decide_eq_false_2.
  - rewrite bool_decide_eq_true_2; [done|]. by apply take_app_length'.
  - rewrite take_app_le by (vm_compute; lia). by vm_compute.
Qed.

(** ** Whole segments *)

Definition header_of (fmt : WalRecordFormat) (sid gid : Z) : bytes :=
  match fmt with
  | TextLine => encode_text_seg_header sid gid
  | _ => encode_seg_header sid gid
  end.

Lemma decode_encode_seg_header sid gid :
  is_u64 sid -> is_u64 gid ->
  decode_seg_header (encode_seg_header sid gid) = Some (mkHeader sid gid).
Proof.
  intros Hs Hg. unfold decode_seg_header, encode_seg_header, read_uint.
  rewrite slice_hit by apply to_le_bytes_length.
  rewrite (from_to_le 4) by (unfold width, SEG_MAGIC; simpl; lia). rewrite Z.eqb_refl. cbn [negb].
  do 2 f_equal; slice_field; rewrite ?slice_all by apply to_le_bytes_length; by rewrite from_to_u64.
Qed.

Lemma seg_header_not_text sid gid rest :
  take (length SEG_TEXT_PREFIX) (encode_seg_header sid gid ++ rest) <> SEG_TEXT_PREFIX.
Proof.
  intros E. apply (f_equal (take 1)) in E. rewrite take_take in E.
  change (1 `min` length SEG_TEXT_PREFIX)%nat with 1%nat in E. discriminate E.
Qed.

Lemma open_header fmt sid gid rest :
  is_u64 sid -> is_u64 gid ->
  open_segment (header_of fmt sid gid ++ rest) =
    Some (mkReader (header_of fmt sid gid ++ rest) (mkHeader sid gid) (length (header_of fmt sid gid))).
Proof.
  intros Hs Hg. destruct fmt; cbn [header_of].
  1,2: assert (Hl : length (encode_seg_header sid gid) = 22%nat)
      by (unfold encode_seg_header; rewrite !length_app, !to_le_bytes_length; done);
    unfold open_segment; rewrite length_app, Hl, (proj2 (Nat.ltb_ge _ _)) by (unfold SEG_HEADER_LEN; lia);
    rewrite bool_decide_eq_false_2 by apply seg_header_not_text;
    rewrite take_app_length', decode_encode_seg_header by done; done.
  set (line := join_with 32 [SEG_TEXT_PREFIX; bs "v=" ++ show_dec SEG_VERSION;
    bs "segment_id=" ++ show_dec sid; bs "group_id=" ++ show_dec gid]).
  change (encode_text_seg_header sid gid) with (line ++ [10]).
  assert (Htx : texty line).
  { apply join_with_texty. texty_words; try (by apply literal_texty);
      (apply texty_app; [by apply literal_texty|apply show_dec_texty]). }
  destruct (join_with_prefix 32 SEG_TEXT_PREFIX [bs "v=" ++ show_dec SEG_VERSION;
    bs "segment_id=" ++ show_dec sid; bs "group_id=" ++ show_dec gid]) as [t Et]. fold line in Et.
  assert (Hlen : (22 <= length (line ++ [10%Z]))%nat).
  { unfold line. rewrite !join_with_cons. repeat (rewrite length_app || rewrite length_cons).
    change (length SEG_TEXT_PREFIX) with 14%nat. change (length (bs "v=")) with 2%nat.
    change (length (bs "segment_id=")) with 11%nat. lia. }
  unfold open_segment. rewrite (length_app (line ++ [10])), (proj2 (Nat.ltb_ge _ _)) by (unfold SEG_HEADER_LEN; lia).
  rewrite <- app_assoc. cbn [app].
  rewrite bool_decide_eq_true_2 by (rewrite Et, <- app_assoc; by apply take_app_length').
  rewrite position_newline by done. rewrite take_app_length, (proj2 (texty_utf8 line Htx)).
  unfold decode_text_seg_header, line. rewrite split_join; [|done|].
  2: { repeat (apply Forall_cons; split); try apply Forall_nil_2; [byte_dec|..];
       (apply text_word_no_space; [byte_dec|apply show_dec_wordy]). }
  rewrite decide_True by done.
  change (bs "v=" ++ ?x) with (bs "v" ++ 61 :: x).
  change (bs "segment_id=" ++ ?x) with (bs "segment_id" ++ 61 :: x).
  change (bs "group_id=" ++ ?x) with (bs "group_id" ++ 61 :: x).
  unfold take_header_fields. rewrite !split_once_app by byte_dec.
  assert (Hn : forall z, is_u64 z -> parse_dec (2 ^ 64) (show_dec z) = Some z).
  { intros z Hz. apply parse_show_dec; [unfold is_u64, u64_max in Hz; lia|lia]. }
  repeat (repeat rewrite decide_False by byte_dec; rewrite decide_True by done; rewrite ?Hn by done).
  by rewrite length_app.
Qed.

Fixpoint append_all (s : WalSegment) (rs : list WALRecord) : option (WalSegment * list nat) :=
  match rs with
  | [] => Some (s, [])
  | r :: rs =>
      match append upd s r with
      | Some (s1, off) =>
          match append_all s1 rs with
          | Some (s2, offs) => Some (s2, off :: offs)
          | None => None
          end
      | None => None
      end
  end.

Lemma encode_record_writable fmt r : writable fmt r -> exists b, encode_record upd fmt r = Some b.
Proof.
  intros [_ H]. destruct fmt; simpl; eauto;
    destruct (encode_frame_fits upd r (frame_small_fits r H)) as (h & _ & ->); eauto.
Qed.

Lemma next_record_writable fmt rd r b rest :
  writable fmt r -> encode_record upd fmt r = Some b ->
  drop (r_offset rd) (r_file rd) = b ++ rest ->
  next_record upd rd = (Ok (Some (r, r_offset rd)), advance rd (length b)).
Proof.
  intros [Hok Hs] He Hd. destruct fmt; simpl in *; try (by eapply next_record_binary).
  simplify_eq. by eapply next_record_text.
Qed.

Lemma append_all_spec fmt rs : forall s,
  sealed s = false -> record_format s = fmt -> Forall (writable fmt) rs ->
  exists s' offs tl, append_all s rs = Some (s', offs) /\ file s' = file s ++ tl /\
    sealed s' = false /\ record_format s' = fmt /\ length offs = length rs /\
    forall f h rest fuel, take (length (file s)) f = file s ->
      drop (length (file s)) f = tl ++ rest -> (length rs <= fuel)%nat ->
      read_all upd fuel (mkReader f h (length (file s))) =
        let '(l, e) := read_all upd (fuel - length rs) (mkReader f h (length (file s'))) in
        (zip rs offs ++ l, e).
Proof.
  induction rs as [|r rs IH]; intros s Hsl Hfmt Hw; cbn [append_all].
  { exists s, [], []. rewrite app_nil_r. split_and!; try done. intros f h rest fuel _ _ _.
    rewrite Nat.sub_0_r. by destruct (read_all _ _ _). }
  apply Forall_cons in Hw as [Hr Hw]. destruct (encode_record_writable fmt r Hr) as [b Hb].
  unfold append. rewrite Hsl, Hfmt, Hb.
  match goal with |- context [append_all ?x rs] => set (s1 := x) end.
  destruct (IH s1) as (s' & offs & tl & -> & Hf & Hs' & Hfm' & Hlo & Hread); [done|done|done|].
  assert (Hf1 : file s1 = file s ++ b) by done.
  exists s', (length (file s) :: offs), (b ++ tl). split_and!; try done.
  - by rewrite Hf, Hf1, <- app_assoc.
  - simpl. by rewrite Hlo.
  - intros f h rest fuel Ht Hd Hfuel. destruct fuel as [|fuel]; [simpl in Hfuel; lia|].
    cbn [read_all]. rewrite (next_record_writable fmt _ r b (tl ++ rest)) by (try done; by rewrite <- app_assoc in Hd).
    unfold advance. cbn [r_file r_header r_offset].
    assert (Hsplit : f = (file s ++ b) ++ tl ++ rest).
    { rewrite <- (take_drop (length (file s)) f), Ht, Hd. by rewrite <- !app_assoc. }
    replace (length (file s) + length b)%nat with (length (file s1)) by (by rewrite Hf1, length_app).
    rewrite (Hread f h rest fuel).
    + change (S fuel - length (r :: rs))%nat with (fuel - length rs)%nat.
      destruct (read_all upd (fuel - length rs) _) as [l e]. done.
    + rewrite Hsplit, Hf1. apply take_app_length.
    + rewrite Hsplit, Hf1. apply drop_app_length.
    + simpl in Hfuel. lia.
Qed.

Lemma create_file sid gid fmt : file (create_with_format sid gid fmt) = header_of fmt sid gid.
Proof. by destruct fmt. Qed.

(** Everything up to [tl] reads back; what follows is [rest]. *)
Lemma segment_prefix fmt sid gid rs rest fuel :
  is_u64 sid -> is_u64 gid -> Forall (writable fmt) rs -> (length rs <= fuel)%nat ->
  exists s offs rd, append_all (create_with_format sid gid fmt) rs = Some (s, offs) /\
    sealed s = false /\ record_format s = fmt /\ length offs = length rs /\
    open_segment (file s ++ rest) = Some rd /\ r_header rd = mkHeader sid gid /\
    read_all upd fuel rd =
      let '(l, e) := read_all upd (fuel - length rs)
        (mkReader (file s ++ rest) (mkHeader sid gid) (length (file s))) in
      (zip rs offs ++ l, e).
Proof.
  intros Hs Hg Hw Hfuel.
  destruct (append_all_spec fmt rs (create_with_format sid gid fmt)) as
    (s & offs & tl & Ha & Hf & Hsl & Hfm & Hlo & Hread); [done|by destruct fmt|done|].
  rewrite create_file in Hf, Hread.
  exists s, offs, (mkReader (file s ++ rest) (mkHeader sid gid) (length (header_of fmt sid gid))).
  split_and!; try done.
  - rewrite Hf, <- app_assoc. by apply open_header.
  - apply (Hread _ _ rest).
    + rewrite Hf, <- app_assoc. apply take_app_length.
    + rewrite Hf, <- app_assoc. apply drop_app_length.
    + done.
Qed.

Lemma written_reads_back fmt sid gid rs (do_seal : bool) pad fuel :
  is_u64 sid -> is_u64 gid -> Forall (writable fmt) rs -> (length rs < fuel)%nat ->
  exists s offs rd, append_all (create_with_format sid gid fmt) rs = Some (s, offs) /\
    open_segment (file (if do_seal then seal upd s else s) ++ replicate pad 0) = Some rd /\
    r_header rd = mkHeader sid gid /\ length offs = length rs /\
    read_all upd fuel rd = (zip rs offs, None).
Proof.
  intros Hs Hg Hw Hfuel.
  destruct (append_all_spec fmt rs (create_with_format sid gid fmt)) as
    (s0 & offs0 & _ & Ha0 & _); [done|by destruct fmt|done|].
  set (rest := (if do_seal then footer_of s0 else []) ++ replicate pad 0).
  destruct (segment_prefix fmt sid gid rs rest fuel) as
    (s & offs & rd & Ha & Hsl & Hfm & Hlo & Ho & Hh & Hr); [done..|lia|].
  rewrite Ha0 in Ha. simplify_eq. exists s, offs, rd. split_and!; try done.
  - assert (Hfile : file (if do_seal then seal upd s else s) ++ replicate pad 0 = file s ++ rest).
    { unfold rest. destruct do_seal; [|done]. unfold seal. rewrite Hsl. cbn [file].
      rewrite <- app_assoc. unfold footer_of. by destruct (record_format s). }
    by rewrite Hfile.
  - rewrite Hr. destruct (fuel - length rs)%nat as [|k] eqn:Ek; [lia|]. cbn [read_all].
    assert (Hend : next_record upd (mkReader (file s ++ rest) (mkHeader sid gid) (length (file s)))
      = (Ok None, mkReader (file s ++ rest) (mkHeader sid gid) (length (file s)))).
    { unfold rest. destruct do_seal.
      - eapply (next_record_footer _ s (replicate pad 0)). simpl. apply drop_app_length.
      - apply (next_record_padding _ pad). simpl. apply drop_app_length. }
    rewrite Hend. by rewrite app_nil_r.
Qed.

(** A segment created in any format, with any writable records appended, at
    most sealed and padded with zeros to a block boundary, opens with its header
    and reads back exactly the appended records, at the offsets [append]
    returned, and then stops cleanly. *)
Theorem segment_reads_back fmt sid gid rs (do_seal : bool) pad fuel :
  is_u64 sid -> is_u64 gid -> Forall (writable fmt) rs -> (length rs < fuel)%nat ->
  exists s offs rd, append_all (create_with_format sid gid fmt) rs = Some (s, offs) /\
    open_segment (file (if do_seal then seal upd s else s) ++ replicate pad 0) = Some rd /\
    r_header rd = mkHeader sid gid /\ length offs = length rs /\
    read_all upd fuel rd = (zip rs offs, None).
Proof. exact (written_reads_back fmt sid gid rs do_seal pad fuel). Qed.

Lemma torn_reads_back fmt sid gid rs r b p q fuel :
  is_u64 sid -> is_u64 gid -> Forall (writable fmt) rs -> writable fmt r -> (length rs < fuel)%nat ->
  encode_record upd fmt r = Some b -> b = p ++ q -> q <> [] ->
  exists s offs rd e, append_all (create_with_format sid gid fmt) rs = Some (s, offs) /\
    open_segment (file s ++ p) = Some rd /\
    read_all upd fuel rd = (zip rs offs, e) /\
    (e = None \/ e = Some (Truncated, length (file s))) /\
    take (length (file s)) (file s ++ p) = file s.
Proof.
  intros Hs Hg Hw Hr Hfuel He Hb Hq.
  destruct (segment_prefix fmt sid gid rs p fuel) as
    (s & offs & rd & Ha & Hsl & Hfm & Hlo & Ho & Hh & Hrd); [done..|lia|].
  set (rd' := mkReader (file s ++ p) (mkHeader sid gid) (length (file s))) in *.
  assert (Hd : drop (r_offset rd') (r_file rd') = p) by apply drop_app_length.
  assert (Hnext : exists e, (e = None \/ e = Some (Truncated, length (file s))) /\
    next_record upd rd' = (match e with None => Ok None | Some x => Err x end, rd')).
  { destruct (decide (4 <= length p)%nat) as [H4|H4].
    - exists (Some (Truncated, length (file s))). split; [by right|].
      destruct Hr as [Hok Hsm]. destruct fmt; simpl in He.
      1,2: by eapply next_record_torn_binary.
      simplify_eq. destruct Hok as (_ & _ & _ & _ & _ & Hp). by eapply next_record_torn_text.
    - exists None. split; [by left|]. unfold next_record.
      destruct (Nat.leb_spec (length (r_file rd')) (r_offset rd')); [done|]. cbv zeta.
      assert (length (r_file rd') - r_offset rd' = length p)%nat as -> by (rewrite <- length_drop, Hd; done).
      by rewrite (proj2 (Nat.ltb_lt _ _)) by lia. }
  destruct Hnext as (e & He' & Hn). exists s, offs, rd, e. split_and!; try done.
  - rewrite Hrd. destruct (fuel - length rs)%nat as [|k] eqn:Ek; [lia|]. cbn [read_all].
    rewrite Hn. destruct e; by rewrite app_nil_r.
  - apply take_app_length.
Qed.

(** A crash while a record is being appended to an unsealed segment costs
    only that record: replay returns every earlier record, and either stops
    cleanly or reports truncation at exactly the end of the last whole record,
    so that truncating there leaves the segment as it was before the append. *)
Theorem torn_append_loses_only_itself fmt sid gid rs r b p q fuel :
  is_u64 sid -> is_u64 gid -> Forall (writable fmt) rs -> writable fmt r -> (length rs < fuel)%nat ->
  encode_record upd fmt r = Some b -> b = p ++ q -> q <> [] ->
  exists s offs rd e, append_all (create_with_format sid gid fmt) rs = Some (s, offs) /\
    open_segment (file s ++ p) = Some rd /\
    read_all upd fuel rd = (zip rs offs, e) /\
    (e = None \/ e = Some (Truncated, length (file s))) /\
    take (length (file s)) (file s ++ p) = file s.
Proof. exact (torn_reads_back fmt sid gid rs r b p q fuel). Qed.

End segment_proofs.

(** ** The read-ahead buffer *)

Definition buf_ok (buf : SegmentReadBuffer) (f : bytes) : Prop :=
  exists n, b_bytes buf = slice f (b_offset buf) n /\ (b_offset buf + length (b_bytes buf) <= length f)%nat.

Lemma buf_read_spec buf f off len :
  buf_ok buf f -> exists buf', buf_ok buf' f /\ buf_read buf f off len =
    (if (off + len <=? length f)%nat then Some (slice f off len) else None, buf').
Proof.
  intros Hok. pose proof Hok as (n & Hb & Hl). unfold buf_read.
  assert (Hn : (length (b_bytes buf) <= n)%nat) by (rewrite Hb; unfold slice; rewrite length_take; lia).
  set (c := if (_ <=? _)%nat then _ else None).
  assert (Hc : match c with
    | Some x => (off + len <= length f)%nat /\ x = slice f off len
    | None => True end).
  { unfold c. destruct (Nat.leb_spec (b_offset buf) off); [|done]. cbv zeta.
    destruct (Nat.leb_spec (off - b_offset buf) (length (b_bytes buf))); [|done].
    destruct (Nat.leb_spec len (length (b_bytes buf) - (off - b_offset buf))); [|done]. simpl.
    split; [lia|]. rewrite Hb, slice_slice by lia. f_equal. lia. }
  destruct c as [x|].
  { destruct Hc as [Hin ->]. rewrite (proj2 (Nat.leb_le _ _)) by lia. eauto. }
  destruct (Nat.ltb_spec (length f) off).
  { rewrite (proj2 (Nat.leb_gt _ _)) by lia. eauto. }
  destruct (Nat.ltb_spec (length f - off) len).
  { rewrite (proj2 (Nat.leb_gt _ _)) by lia. eauto. }
  rewrite (proj2 (Nat.leb_le _ _)) by lia. eexists. split.
  2: { f_equal. f_equal. unfold slice. rewrite take_take. f_equal. lia. }
  exists (Nat.max len (Nat.min (length f - off) READ_AHEAD)). cbn [b_bytes b_offset].
  split; [done|]. unfold slice. rewrite length_take, length_drop. lia.
Qed.

(** Reading through the buffer, in any sequence of offsets and lengths, is
    reading the file: the bytes asked for, or an error exactly when they extend
    past the end. *)
Theorem read_buffer_transparent f reqs :
  let run := foldl (fun '(out, buf) '(off, len) =>
               let '(r, buf') := buf_read buf f off len in (out ++ [r], buf'))
               (@nil (option bytes), empty_buf) reqs in
  run.1 = (fun '(off, len) => if (off + len <=? length f)%nat then Some (slice f off len) else None) <$> reqs.
Proof.
  intros run. unfold run. clear run.
  enough (forall out buf, buf_ok buf f ->
    (foldl (fun '(out, buf) '(off, len) =>
       let '(r, buf') := buf_read buf f off len in (out ++ [r], buf')) (out, buf) reqs).1 =
    out ++ ((fun '(off, len) => if (off + len <=? length f)%nat then Some (slice f off len) else None) <$> reqs)) as H.
  { rewrite H; [done|]. exists O. split; [done|simpl; lia]. }
  induction reqs as [|[off len] reqs IH]; intros out buf Hok; simpl; [by rewrite app_nil_r|].
  destruct (buf_read_spec buf f off len Hok) as (buf' & Hok' & ->).
  rewrite IH by done. by rewrite <- app_assoc.
Qed.

Definition demo_vote : WALRecord := from_vote_granted 3 8 2.

Lemma demo_vote_ok : record_ok demo_vote.
Proof.
  unfold record_ok. split_and!; try (unfold is_u64, u64_max, demo_vote; simpl; lia).
  apply to_le_bytes_ok.
Qed.

Lemma demo_writable fmt : Forall (writable fmt) [demo_record; demo_vote].
Proof.
  assert (Hs : frame_small demo_record /\ frame_small demo_vote) by (split; vm_compute; reflexivity).
  destruct Hs. apply Forall_cons; split; [|apply Forall_cons; split; [|apply Forall_nil_2]].
  - split; [apply demo_record_ok|]. by destruct fmt.
  - split; [apply demo_vote_ok|]. by destruct fmt.
Qed.

Lemma segment_reads_back_witness :
  exists s offs rd, append_all crc_ref (create_with_format 5 3 TextLine) [demo_record; demo_vote] = Some (s, offs) /\
    open_segment (file (seal crc_ref s) ++ replicate 100 0) = Some rd /\
    read_all crc_ref 10 rd = (zip [demo_record; demo_vote] offs, None).
Proof.
  destruct (segment_reads_back crc_ref TextLine 5 3 [demo_record; demo_vote] true 100 10)
    as (s & offs & rd & H1 & H2 & _ & _ & H5).
  - vm_compute. split; discriminate.
  - vm_compute. split; discriminate.
  - apply demo_writable.
  - simpl. lia.
  - exists s, offs, rd. split_and!; assumption.
Defined.

Lemma torn_append_loses_only_itself_witness :
  exists s offs rd e, append_all crc_ref (create_with_format 5 3 Binary) [demo_vote] = Some (s, offs) /\
    open_segment (file s ++ take 30 demo_bytes) = Some rd /\
    read_all crc_ref 10 rd = (zip [demo_vote] offs, e).
Proof.
  destruct (torn_append_loses_only_itself crc_ref Binary 5 3 [demo_vote] demo_record demo_bytes
    (take 30 demo_bytes) (drop 30 demo_bytes) 10) as (s & offs & rd & e & H1 & H2 & H3 & _).
  - vm_compute. split; discriminate.
  - vm_compute. split; discriminate.
  - pose proof (demo_writable Binary) as H. apply Forall_cons in H as [_ H]. exact H.
  - pose proof (demo_writable Binary) as H. apply Forall_cons in H as [H _]. exact H.
  - simpl. lia.
  - vm_compute. reflexivity.
  - rewrite take_drop. reflexivity.
  - vm_compute. discriminate.
  - exists s, offs, rd, e. split_and!; assumption.
Defined.

End WalSegment.
