(* ===== verification/WalReplay.v ===== *)
(** * WAL replay and garbage collection

    Models [src/lib/crowdb-kv/src/wal/replay.rs], [replay/records.rs],
    [gc.rs] and the [SegmentIndex] of [index.rs].  The segment files come as
    they are discovered on the disks; I/O that the code only propagates is
    assumed to succeed.

    The theorems say what a replay recovers from the records it scanned
    (highest term, last vote of that term, highest ballots per slot), that a
    garbage-collection pass changes none of it at or above the watermark, and
    where replay truncates instead of refusing. *)

From stdpp Require Import prelude gmap sorting list.
From Stdlib Require Import ZArith Lia.
From S2P Require Import Prelude Roles Bytes WalRecord WalSegment.

Module WalReplay.
Import WalRecord WalSegment.

(** ** [ReplayRecords] *)

Record ReplayRecords := mkReplay {
  slots : gmap (Z * Z) WALRecord;
  votes : list WALRecord;
  current_term : Z;
  voted_for : option Z;
  scanned : Z;
}.

Definition empty_replay : ReplayRecords := mkReplay ∅ [] 0 None 0.

Definition record_key (r : WALRecord) : Z * Z := (slot r, as_u8 (record_type r)).

(** The vacant/occupied entry of the slot map. *)
Definition keep_highest (old : option WALRecord) (r : WALRecord) : option WALRecord :=
  match old with
  | None => Some r
  | Some o => if ballot_leb (ballot o) (ballot r) then Some r else Some o
  end.

Definition push (s : ReplayRecords) (r : WALRecord) : ReplayRecords :=
  let '(ct, vf) := if current_term s <? term r then (term r, None)
                   else (current_term s, voted_for s) in
  if decide (record_type r = RVoteGranted) then
    mkReplay (slots s) (votes s ++ [r]) ct (if term r =? ct then voted_for_id r else vf)
      (scanned s + 1)
  else
    mkReplay (partial_alter (fun old => keep_highest old r) (record_key r) (slots s))
      (votes s) ct vf (scanned s + 1).

(** Keys of the [BTreeMap<(u64, u8), _>] in order. *)
Definition lex_le (x y : (Z * Z) * WALRecord) : Prop :=
  x.1.1 < y.1.1 \/ (x.1.1 = y.1.1 /\ x.1.2 <= y.1.2).

#[export] Instance lex_le_dec : RelDecision lex_le.
Proof. intros x y. unfold lex_le. apply _. Defined.

Definition into_records (s : ReplayRecords) : list WALRecord :=
  votes s ++ (merge_sort lex_le (map_to_list (slots s))).*2.

(** ** The segment index *)

Record SlotLocation := mkLoc { l_disk_idx : nat; l_segment_id : Z; l_file_offset : nat }.

Record SegmentMeta := mkMeta {
  m_segment_id : Z;
  m_disk_idx : nat;
  m_min_slot : Z;
  m_max_slot : Z;
  m_record_count : Z;
  m_max_term : Z;
  m_vote_term : option Z;
}.

Record SegmentIndex := mkIndex {
  locations : gmap Z SlotLocation;
  segments : gmap Z SegmentMeta;
}.

Definition empty_index : SegmentIndex := mkIndex ∅ ∅.

Definition index_insert (ix : SegmentIndex) (s : Z) (l : SlotLocation) : SegmentIndex :=
  mkIndex (<[s := l]> (locations ix)) (segments ix).

Definition register_segment (ix : SegmentIndex) (m : SegmentMeta) : SegmentIndex :=
  mkIndex (locations ix) (<[m_segment_id m := m]> (segments ix)).

Definition remove_segment (ix : SegmentIndex) (sid : Z) : SegmentIndex :=
  match segments ix !! sid with
  | Some m => mkIndex (filter (fun kv => l_segment_id kv.2 <> m_segment_id m) (locations ix))
                (delete sid (segments ix))
  | None => ix
  end.

(** ** The index of the live log: one shard per pipeline *)

Abbreviation ShardedSegmentIndex := (list SegmentIndex).

Definition new_sharded (pipeline_count : nat) : ShardedSegmentIndex :=
  replicate pipeline_count empty_index.

Definition shard_for_slot (shards : ShardedSegmentIndex) (group_id s : Z) : nat :=
  if (length shards =? 1)%nat then 0%nat
  else Z.to_nat (Z.lxor (wrap64 (s * 11400714819323198485)) group_id mod Z.of_nat (length shards)).

Definition sharded_insert (shards : ShardedSegmentIndex) (pipeline : nat) (s : Z) (l : SlotLocation)
  : ShardedSegmentIndex := alter (fun ix => index_insert ix s l) pipeline shards.

Definition locate (shards : ShardedSegmentIndex) (group_id s : Z) : option SlotLocation :=
  ix ← shards !! shard_for_slot shards group_id s; locations ix !! s.

Definition sharded_register_segment (shards : ShardedSegmentIndex) (pipeline : nat) (m : SegmentMeta)
  : ShardedSegmentIndex := alter (fun ix => register_segment ix m) pipeline shards.

Definition sharded_remove_segment (shards : ShardedSegmentIndex) (pipeline : nat) (sid : Z)
  : ShardedSegmentIndex := alter (fun ix => remove_segment ix sid) pipeline shards.

Definition segments_snapshot (shards : ShardedSegmentIndex) : list SegmentMeta :=
  concat ((fun ix => (sorted_entries (segments ix)).*2) <$> shards).

(** Recovered locations and segments go to the shard of their disk; a disk that
    is no longer configured is an error. *)
Fixpoint from_replay_slots (shards : ShardedSegmentIndex) (l : list (Z * SlotLocation))
  : option ShardedSegmentIndex :=
  match l with
  | [] => Some shards
  | (s, loc) :: l =>
      if (l_disk_idx loc <? length shards)%nat
      then from_replay_slots (sharded_insert shards (l_disk_idx loc) s loc) l else None
  end.

Fixpoint from_replay_segments (shards : ShardedSegmentIndex) (l : list SegmentMeta)
  : option ShardedSegmentIndex :=
  match l with
  | [] => Some shards
  | m :: l =>
      if (m_disk_idx m <? length shards)%nat
      then from_replay_segments (sharded_register_segment shards (m_disk_idx m) m) l else None
  end.

Definition from_replay (pipeline_count : nat) (recovered : SegmentIndex) : option ShardedSegmentIndex :=
  shards ← from_replay_slots (new_sharded pipeline_count) (sorted_entries (locations recovered));
  from_replay_segments shards (sorted_entries (segments recovered)).*2.

(** ** [replay_group] *)

(** What the scan of one segment accumulates. *)
Record scan := mkScan {
  seg_records : list (Z * nat);
  seg_min_slot : Z;
  seg_max_slot : Z;
  seg_record_count : Z;
  seg_max_term : Z;
  seg_vote_term : option Z;
}.

Definition empty_scan : scan := mkScan [] u64_max 0 0 0 None.

Definition scan_record (s : scan) (ro : WALRecord * nat) : scan :=
  let '(r, offset) := ro in
  let nz := negb (slot r =? 0) in
  mkScan (if nz then seg_records s ++ [(slot r, offset)] else seg_records s)
    (if nz && (slot r <? seg_min_slot s) then slot r else seg_min_slot s)
    (if nz && (seg_max_slot s <? slot r) then slot r else seg_max_slot s)
    ((seg_record_count s + 1) mod 2 ^ 32)
    (Z.max (seg_max_term s) (term r))
    (if decide (record_type r = RVoteGranted) then opt_max (seg_vote_term s) (term r)
     else seg_vote_term s).

Definition scan_meta (sid : Z) (disk : nat) (s : scan) : SegmentMeta :=
  mkMeta sid disk (if seg_min_slot s =? u64_max then 0 else seg_min_slot s) (seg_max_slot s)
    (seg_record_count s) (seg_max_term s) (seg_vote_term s).

(** A discovered segment: disk, id from the file name, contents. *)
Record seg_file := mkSegFile { sf_disk : nat; sf_id : Z; sf_bytes : bytes }.

Inductive replay_error :=
| UnreadableSegment (sid : Z)
| CorruptSealedSegment (sid : Z) (e : RecordError) (offset : nat).

(** What replay does to a file besides reading it. *)
Inductive repair := Truncate (sid : Z) (offset : nat) | Unlink (sid : Z).

Record replay_state := mkRState {
  verified : ReplayRecords;
  index : SegmentIndex;
  max_segment_id : Z;
  repairs : list repair;
}.

Definition seg_le (x y : seg_file) : Prop := sf_id x <= sf_id y.

#[export] Instance seg_le_dec : RelDecision seg_le.
Proof. intros x y. unfold seg_le. apply _. Defined.

#[export] Instance seg_le_trans : Transitive seg_le.
Proof. intros x y z. unfold seg_le. lia. Qed.

#[export] Instance seg_le_total : Total seg_le.
Proof. intros x y. unfold seg_le. lia. Qed.

(** Highest segment id of a disk. *)
Definition disk_tail (all : list seg_file) (disk : nat) : Z :=
  foldl (fun t f => if decide (sf_disk f = disk) then Z.max t (sf_id f) else t) 0 all.

Section replay.
Context (crc32_iscsi : Z -> bytes -> Z).

Definition replay_segment (all : list seg_file) (is_last : bool) (st : replay_state) (f : seg_file)
  : result replay_state replay_error :=
  let max_id := Z.max (max_segment_id st) (sf_id f) in
  match open_segment (sf_bytes f) with
  | None =>
      if (sf_id f =? disk_tail all (sf_disk f)) && bool_decide (sf_bytes f = [])
      then Ok (mkRState (verified st) (index st) max_id (repairs st ++ [Unlink (sf_id f)]))
      else Err (UnreadableSegment (sf_id f))
  | Some rd =>
      let is_sealed := match read_footer crc32_iscsi (sf_bytes f) with Some _ => true | None => false end in
      let '(records, stop) := read_all crc32_iscsi (S (length (sf_bytes f))) rd in
      let sc := foldl scan_record empty_scan records in
      let ix := foldl (fun ix '(s, off) => index_insert ix s (mkLoc (sf_disk f) (sf_id f) off))
                  (index st) (seg_records sc) in
      let ix := register_segment ix (scan_meta (sf_id f) (sf_disk f) sc) in
      let verified := foldl push (verified st) records.*1 in
      match stop with
      | None => Ok (mkRState verified ix max_id (repairs st))
      | Some (e, offset) =>
          if is_sealed && negb is_last then Err (CorruptSealedSegment (sf_id f) e offset)
          else Ok (mkRState verified ix max_id (repairs st ++ [Truncate (sf_id f) offset]))
      end
  end.

Fixpoint replay_segments (all : list seg_file) (st : replay_state) (todo : list seg_file)
  : result replay_state replay_error :=
  match todo with
  | [] => Ok st
  | f :: todo =>
      let? st' := replay_segment all (bool_decide (todo = [])) st f in
      replay_segments all st' todo
  end.

Record ReplayResult := mkResult {
  res_records : list WALRecord;
  res_index : SegmentIndex;
  res_max_segment_id : Z;
  res_current_term : Z;
  res_voted_for : option Z;
  res_repairs : list repair;
}.

Definition replay_group (found : list seg_file) : result ReplayResult replay_error :=
  let all := merge_sort seg_le found in
  let? st := replay_segments all (mkRState empty_replay empty_index 0 []) all in
  Ok (mkResult (into_records (verified st)) (index st) (max_segment_id st)
        (current_term (verified st)) (voted_for (verified st)) (repairs st)).

End replay.

(** ** Garbage collection *)

Definition compute_gc_slot (safe_slot snapshot_slot : Z) : Z := Z.min safe_slot snapshot_slot.

(** [max_by_key(|meta| (meta.max_term, meta.segment_id))] *)
Definition term_key_lt (a b : SegmentMeta) : bool :=
  (m_max_term a <? m_max_term b)
    || ((m_max_term a =? m_max_term b) && (m_segment_id a <? m_segment_id b)).

Definition term_segment (ms : list SegmentMeta) : option Z :=
  m_segment_id <$> foldl (fun best m => match best with
                                        | None => Some m
                                        | Some b => if term_key_lt m b then Some b else Some m
                                        end) None ms.

(** [filter_map(vote_term, id)] then [max()] on pairs *)
Definition pair_lt (a b : Z * Z) : bool := (a.1 <? b.1) || ((a.1 =? b.1) && (a.2 <? b.2)).

Definition vote_segment (ms : list SegmentMeta) : option Z :=
  snd <$> foldl (fun best p => match best with
                               | None => Some p
                               | Some b => if pair_lt p b then Some b else Some p
                               end) None
            (omap (fun m => t ← m_vote_term m; Some (t, m_segment_id m)) ms).

Definition gc_eligible (ms : list SegmentMeta) (gc_slot : Z) (m : SegmentMeta) : bool :=
  (0 <? m_max_slot m) && (m_max_slot m <? gc_slot)
    && negb (bool_decide (Some (m_segment_id m) = term_segment ms))
    && negb (bool_decide (Some (m_segment_id m) = vote_segment ms)).

(** The segments a pass tries to unlink. *)
Definition gc_victims (ms : list SegmentMeta) (gc_slot : Z) : list SegmentMeta :=
  if gc_slot =? 0 then [] else List.filter (gc_eligible ms gc_slot) ms.

(** What the backend answers when a segment file is unlinked. *)
Inductive unlink_outcome := Unlinked | NotFound | UnlinkFailed.

(** One pass: the index it leaves, the files it unlinked and the ids it dropped
    from the index (a file already gone is dropped too). *)
Definition gc_step (unlink : Z -> unlink_outcome) (st : ShardedSegmentIndex * list Z * list Z)
  (m : SegmentMeta) : ShardedSegmentIndex * list Z * list Z :=
  let '(shards, unlinked, dropped) := st in
  let id := m_segment_id m in
  match unlink id with
  | Unlinked => (sharded_remove_segment shards (m_disk_idx m) id, unlinked ++ [id], dropped ++ [id])
  | NotFound => (sharded_remove_segment shards (m_disk_idx m) id, unlinked, dropped ++ [id])
  | UnlinkFailed => (shards, unlinked, dropped)
  end.

Definition run_gc_with_watermark (unlink : Z -> unlink_outcome) (shards : ShardedSegmentIndex) (gc_slot : Z)
  : ShardedSegmentIndex * list Z * list Z :=
  foldl (gc_step unlink) (shards, [], []) (gc_victims (segments_snapshot shards) gc_slot).

(** ** What replay recovers *)

Definition is_vote (r : WALRecord) : bool := bool_decide (record_type r = RVoteGranted).

(** Slot records of one key, in scan order. *)
Definition key_records (k : Z * Z) (rs : list WALRecord) : list WALRecord :=
  List.filter (fun r => negb (is_vote r) && bool_decide (record_key r = k)) rs.

(** Votes of one term, in scan order. *)
Definition term_votes (t : Z) (rs : list WALRecord) : list WALRecord :=
  List.filter (fun r => is_vote r && (term r =? t)) rs.

Definition replayed (rs : list WALRecord) : ReplayRecords := foldl push empty_replay rs.

Lemma push_slots st r k :
  slots (push st r) !! k =
    if negb (is_vote r) && bool_decide (record_key r = k) then keep_highest (slots st !! k) r
    else slots st !! k.
Proof.
  unfold push, is_vote. destruct (current_term st <? term r); case_decide; simpl;
    repeat case_bool_decide; simpl; try done; try (subst k; by rewrite lookup_partial_alter_eq);
    by rewrite lookup_partial_alter_ne.
Qed.

Lemma replay_slots rs k : forall st,
  slots (foldl push st rs) !! k = foldl keep_highest (slots st !! k) (key_records k rs).
Proof.
  induction rs as [|r rs IH]; intros st; simpl; [done|]. rewrite IH, push_slots.
  unfold key_records. by destruct (negb (is_vote r) && bool_decide (record_key r = k)).
Qed.

Lemma keep_highest_spec l : forall o,
  match foldl keep_highest o l with
  | None => o = None /\ l = []
  | Some r => (o = Some r \/ r ∈ l) /\ (forall x, x ∈ l -> ballot x <=b ballot r) /\
      (forall x, o = Some x -> ballot x <=b ballot r)
  end.
Proof.
  induction l as [|x l IH]; intros o; simpl.
  { destruct o; [|done]. split_and!; [auto|set_solver|]. intros ? [= ->]. eauto with crowdb. }
  specialize (IH (keep_highest o x)). destruct (foldl _ _ _) as [r|].
  - destruct IH as (Hin & Hl & Ho). unfold keep_highest in *. destruct o as [y|]; [bcase_step|].
    + split_and!; [set_solver| |]; specialize (Ho x eq_refl).
      * intros z [->|?]%elem_of_cons; auto.
      * intros z [= ->]. eauto with crowdb.
    + split_and!; [set_solver| |]; specialize (Ho y eq_refl).
      * intros z [->|?]%elem_of_cons; [bsolve|auto].
      * by intros z [= ->].
    + split_and!; [set_solver| |done]. specialize (Ho x eq_refl).
      intros z [->|?]%elem_of_cons; auto.
  - destruct IH as [IH _]. unfold keep_highest in IH.
    destruct o; [destruct (ballot_leb _ _)|]; done.
Qed.

Lemma push_term st r : current_term (push st r) = Z.max (current_term st) (term r).
Proof.
  unfold push. destruct (Z.ltb_spec (current_term st) (term r)); case_decide; simpl; lia.
Qed.

Lemma replay_term rs : forall st,
  (forall r, r ∈ rs -> term r <= current_term (foldl push st rs)) /\
  current_term st <= current_term (foldl push st rs) /\
  (current_term (foldl push st rs) = current_term st \/
   exists r, r ∈ rs /\ term r = current_term (foldl push st rs)).
Proof.
  induction rs as [|r rs IH]; intros st; simpl; [set_solver by lia|].
  destruct (IH (push st r)) as (H1 & H2 & H3). rewrite push_term in H2, H3. split_and!.
  - intros x [->|Hx]%elem_of_cons; [lia|auto].
  - lia.
  - destruct H3 as [H3|(x & Hx & H3)].
    + destruct (Z.max_spec (current_term st) (term r)) as [[_ E]|[_ E]]; rewrite E in H3;
        [right; exists r; set_solver|by left].
    + right. exists x. set_solver.
Qed.

Lemma term_votes_app t l k : term_votes t (l ++ k) = term_votes t l ++ term_votes t k.
Proof. unfold term_votes. by rewrite List.filter_app. Qed.

Lemma term_votes_none t rs : (forall r, r ∈ rs -> term r <> t) -> term_votes t rs = [].
Proof.
  intros H. induction rs as [|r rs IH]; [done|]. unfold term_votes in *. simpl.
  rewrite (proj2 (Z.eqb_neq _ _)) by (apply H; set_solver). rewrite andb_false_r.
  apply IH. set_solver.
Qed.

Lemma elem_of_term_votes t rs r : r ∈ term_votes t rs <-> r ∈ rs /\ is_vote r = true /\ term r = t.
Proof.
  unfold term_votes. rewrite list_elem_of_In, List.filter_In, <- list_elem_of_In, andb_true_iff, Z.eqb_eq.
  done.
Qed.

Lemma replay_vote rs :
  Forall (fun r => 0 <= term r) rs ->
  voted_for (replayed rs) = (r ← last (term_votes (current_term (replayed rs)) rs); voted_for_id r).
Proof.
  unfold replayed. induction rs as [|r rs IH] using rev_ind; intros Hpos; [done|].
  apply Forall_app in Hpos as [Hpos Hr]. apply Forall_cons in Hr as [Hr _].
  specialize (IH Hpos). rewrite foldl_app. cbn [foldl]. set (st := foldl push empty_replay rs) in *.
  destruct (replay_term rs empty_replay) as (Hle & H0 & _). fold st in Hle, H0. simpl in H0.
  rewrite term_votes_app, push_term. unfold push, is_vote.
  destruct (Z.ltb_spec (current_term st) (term r)) as [Hlt|Hge].
  - rewrite Z.max_r by lia. rewrite (term_votes_none (term r) rs) by (intros x Hx; specialize (Hle x Hx); lia).
    unfold term_votes, is_vote. simpl. rewrite Z.eqb_refl, andb_true_r. case_decide.
    + by rewrite bool_decide_eq_true_2.
    + by rewrite bool_decide_eq_false_2 by done.
  - rewrite Z.max_l by lia. unfold term_votes at 2, is_vote. simpl. case_decide.
    + rewrite bool_decide_eq_true_2 by done. simpl. destruct (Z.eqb_spec (term r) (current_term st)).
      * by rewrite last_snoc.
      * by rewrite app_nil_r.
    + rewrite bool_decide_eq_false_2 by done. simpl. by rewrite app_nil_r.
Qed.

Lemma elem_of_key_records k rs r :
  r ∈ key_records k rs <-> r ∈ rs /\ is_vote r = false /\ record_key r = k.
Proof.
  unfold key_records. rewrite list_elem_of_In, List.filter_In, <- list_elem_of_In, andb_true_iff,
    negb_true_iff, bool_decide_eq_true. done.
Qed.

Lemma push_votes st r : votes (push st r) = votes st ++ (if is_vote r then [r] else []).
Proof.
  unfold push, is_vote. destruct (current_term st <? term r); case_decide; simpl;
    case_bool_decide; try done; by rewrite app_nil_r.
Qed.

Lemma replay_votes rs : forall st, votes (foldl push st rs) = votes st ++ List.filter is_vote rs.
Proof.
  induction rs as [|r rs IH]; intros st; simpl; [by rewrite app_nil_r|]. rewrite IH, push_votes.
  destruct (is_vote r); by rewrite <- app_assoc.
Qed.

Lemma elem_of_into_records rs r :
  r ∈ into_records (replayed rs) <->
  if is_vote r then r ∈ rs else slots (replayed rs) !! record_key r = Some r.
Proof.
  unfold into_records, replayed. rewrite elem_of_app, replay_votes. simpl.
  assert (Hkey : forall k x, slots (foldl push empty_replay rs) !! k = Some x ->
    is_vote x = false /\ record_key x = k).
  { intros k x. rewrite replay_slots. pose proof (keep_highest_spec (key_records k rs) None) as H.
    intros E. change (slots empty_replay !! k) with (@None WALRecord) in E.
    rewrite E in H. destruct H as ([?|Hin] & _); [done|].
    apply elem_of_key_records in Hin. tauto. }
  assert (Hs : r ∈ (merge_sort lex_le (map_to_list (slots (foldl push empty_replay rs)))).*2 <->
    slots (foldl push empty_replay rs) !! record_key r = Some r /\ is_vote r = false).
  { rewrite list_elem_of_fmap. split.
    - intros ([k x] & -> & Hx). rewrite merge_sort_Permutation, elem_of_map_to_list in Hx.
      simpl. destruct (Hkey _ _ Hx) as [? <-]. done.
    - intros [Hx _]. exists (record_key r, r). split; [done|].
      by rewrite merge_sort_Permutation, elem_of_map_to_list. }
  rewrite Hs, list_elem_of_In, List.filter_In, <- list_elem_of_In. destruct (is_vote r); naive_solver.
Qed.

(** ** The recovered list *)

(** [r] is the latest of the records of highest ballot of its slot and kind. *)
Definition latest_highest (log : list WALRecord) (r : WALRecord) : Prop :=
  exists pre post, log = pre ++ r :: post /\
    (forall x, x ∈ pre -> slot x = slot r -> record_type x = record_type r -> ballot x <=b ballot r) /\
    (forall x, x ∈ post -> slot x = slot r -> record_type x = record_type r -> ballot x <b ballot r).

(** The order of the slot records: by slot, then by kind. *)
Definition key_before (a b : WALRecord) : Prop :=
  slot a < slot b \/ slot a = slot b /\ as_u8 (record_type a) < as_u8 (record_type b).

Lemma keep_highest_last l r :
  foldl keep_highest None l = Some r <->
  exists pre post, l = pre ++ r :: post /\ (forall x, x ∈ pre -> ballot x <=b ballot r) /\
    (forall x, x ∈ post -> ballot x <b ballot r).
Proof.
  split.
  - revert r. induction l as [|y l IH] using rev_ind; intros r; [done|]. rewrite foldl_app. cbn [foldl].
    pose proof (keep_highest_spec l None) as Hs. destruct (foldl keep_highest None l) as [o|]; cbn [keep_highest].
    + destruct Hs as (_ & Hle & _). bcase_step; intros [= <-].
      * exists l, []. split_and!; [done| |by intros x ?%not_elem_of_nil]. intros x Hx. specialize (Hle x Hx). eauto with crowdb.
      * destruct (IH o eq_refl) as (pre & post & -> & H1 & H2). exists pre, (post ++ [y]). split_and!; [by rewrite <- app_assoc|done|].
        intros x [Hx|Hx]%elem_of_app; [auto|]. apply list_elem_of_singleton in Hx as ->. bsolve.
    + destruct Hs as [_ ->]. intros [= <-]. exists [], []. split_and!; [done|..]; by intros x ?%not_elem_of_nil.
  - intros (pre & post & -> & H1 & H2). rewrite foldl_app. cbn [foldl].
    assert (Hr : keep_highest (foldl keep_highest None pre) r = Some r).
    { pose proof (keep_highest_spec pre None) as Hs. destruct (foldl keep_highest None pre) as [o|]; [|done].
      destruct Hs as ([?|Hin] & _); [done|]. specialize (H1 o Hin). cbn [keep_highest]. by bcase_step. }
    rewrite Hr. clear Hr. induction post as [|x post IH]; [done|]. cbn [foldl keep_highest].
    assert (ballot x <b ballot r) by (apply H2; by left). bcase_step; [exfalso; bsolve|]. apply IH. intros; apply H2; by right.
Qed.

Lemma filter_split {A} (f : A -> bool) l a x b : List.filter f l = a ++ x :: b ->
  exists a' b', l = a' ++ x :: b' /\ List.filter f a' = a /\ List.filter f b' = b.
Proof.
  revert a. induction l as [|y l IH]; intros a; simpl; [by destruct a|]. destruct (f y) eqn:E.
  - destruct a as [|z a]; intros [= -> Hl].
    + exists [], l. done.
    + destruct (IH a Hl) as (a' & b' & -> & <- & <-). exists (z :: a'), b'. simpl. by rewrite E.
  - intros Hl. destruct (IH a Hl) as (a' & b' & -> & <- & <-). exists (y :: a'), b'. simpl. by rewrite E.
Qed.

Lemma record_key_eq x r : record_key x = record_key r <-> slot x = slot r /\ record_type x = record_type r.
Proof.
  unfold record_key. split; [|by intros [-> ->]]. intros [= Hs Ht]. split; [done|].
  apply (f_equal from_u8) in Ht. rewrite !from_as_u8 in Ht. congruence.
Qed.

Lemma kept_is_latest rs r : is_vote r = false ->
  slots (replayed rs) !! record_key r = Some r <-> latest_highest rs r.
Proof.
  intros Hv. unfold replayed. rewrite replay_slots. change (slots empty_replay !! record_key r) with (@None WALRecord).
  rewrite keep_highest_last.
  assert (Hkind : forall x, slot x = slot r -> record_type x = record_type r -> is_vote x = false)
    by (intros x _ E; unfold is_vote in *; by rewrite E).
  split.
  - intros (pre & post & E & H1 & H2). apply filter_split in E as (pre' & post' & -> & <- & <-).
    exists pre', post'. split; [done|]. split; intros x Hx Hs Ht; [apply H1|apply H2];
      (apply elem_of_key_records; split_and!; [done|auto|by apply record_key_eq]).
  - intros (pre & post & -> & H1 & H2). exists (key_records (record_key r) pre), (key_records (record_key r) post).
    split; [|split; intros x (Hx & _ & [Hs Ht]%record_key_eq)%elem_of_key_records; auto].
    unfold key_records. rewrite List.filter_app. simpl. by rewrite Hv, bool_decide_eq_true_2.
Qed.

#[export] Instance lex_le_total : Total lex_le.
Proof. intros x y. unfold lex_le. lia. Qed.

#[export] Instance lex_le_trans : Transitive lex_le.
Proof. intros x y z. unfold lex_le. lia. Qed.

Lemma sorted_keys (l : list ((Z * Z) * WALRecord)) :
  (forall k x, (k, x) ∈ l -> record_key x = k) -> NoDup l.*1 -> StronglySorted lex_le l -> StronglySorted key_before l.*2.
Proof.
  induction l as [|[k x] l IH]; intros Hk Hn Hs; [constructor|]. simpl in *. apply NoDup_cons in Hn as [Hnin Hn].
  inversion_clear Hs as [|? ? Hs1 Hs2]. constructor; [apply IH; [intros; apply Hk; by right|done|done]|].
  rewrite Forall_fmap, Forall_forall in *. intros [k' y] Hy. specialize (Hs2 _ Hy). unfold lex_le in Hs2. cbn [fst snd compose] in *.
  assert (k <> k') as Hne by (intros ->; apply Hnin; change k' with ((k', y).1); by apply list_elem_of_fmap_2).
  pose proof (Hk k x ltac:(by left)) as <-. pose proof (Hk k' y ltac:(by right)) as <-.
  unfold key_before, record_key in *. cbn [fst snd] in *.
  destruct (decide (slot x = slot y)) as [E|]; [|lia]. destruct (decide (as_u8 (record_type x) = as_u8 (record_type y))) as [E'|]; [|lia].
  by rewrite E, E' in Hne.
Qed.

(** What recovery is given of the slots, from the log alone: for each slot and
    kind the latest record of highest ballot, in the order of slots and kinds. *)
Definition recovered (log rest : list WALRecord) : Prop :=
  StronglySorted key_before rest /\ forall r, r ∈ rest <-> is_vote r = false /\ latest_highest log r.

Lemma into_records_recovered rs :
  exists rest, into_records (replayed rs) = List.filter is_vote rs ++ rest /\ recovered rs rest.
Proof.
  exists (merge_sort lex_le (map_to_list (slots (replayed rs)))).*2. split; [|split].
  - unfold into_records, replayed. by rewrite replay_votes.
  - apply sorted_keys; [| |apply StronglySorted_merge_sort; apply _].
    + intros k x. rewrite merge_sort_Permutation, elem_of_map_to_list. unfold replayed. rewrite replay_slots.
      pose proof (keep_highest_spec (key_records k rs) None) as H. intros E.
      change (slots empty_replay !! k) with (@None WALRecord) in E. rewrite E in H. destruct H as ([?|Hin] & _); [done|].
      by apply elem_of_key_records in Hin as (_ & _ & ?).
    + rewrite merge_sort_Permutation. apply NoDup_fst_map_to_list.
  - intros r. pose proof (elem_of_into_records rs r) as H. unfold into_records, replayed in H. rewrite replay_votes in H.
    fold (replayed rs) in H. cbn [votes empty_replay app] in H.
    destruct (is_vote r) eqn:E.
    + split; [|by intros [? _]]. rewrite list_elem_of_fmap. intros ([k x] & Ex & Hx). simpl in Ex. subst x.
      rewrite merge_sort_Permutation, elem_of_map_to_list in Hx. unfold replayed in Hx. rewrite replay_slots in Hx.
      pose proof (keep_highest_spec (key_records k rs) None) as Hs. change (slots empty_replay !! k) with (@None WALRecord) in Hx.
      rewrite Hx in Hs. destruct Hs as ([?|Hin] & _); [done|]. apply elem_of_key_records in Hin as (_ & ? & _). congruence.
    + assert (Hno : ~ r ∈ List.filter is_vote rs) by (rewrite list_elem_of_In, List.filter_In, E; by intros [_ ?]).
      rewrite elem_of_app in H. rewrite <- (kept_is_latest rs r E). tauto.
Qed.

(** What replay hands to recovery is determined by the verified records:
    the term is the highest of any record, the vote is the last vote record of
    that term, and of the accepted and of the promised records of each slot the
    one of highest ballot is returned, each under its own kind, so that neither
    erases the other. *)
Theorem replay_recovers rs s rt :
  Forall (fun r => 0 <= term r) rs -> rt <> RVoteGranted ->
  let st := replayed rs in
  (forall r, r ∈ rs -> term r <= current_term st) /\
  (current_term st = 0 \/ exists r, r ∈ rs /\ term r = current_term st) /\
  voted_for st = (r ← last (term_votes (current_term st) rs); voted_for_id r) /\
  match slots st !! (s, as_u8 rt) with
  | Some r => r ∈ rs /\ r ∈ into_records st /\ slot r = s /\ record_type r = rt /\
      forall x, x ∈ rs -> slot x = s -> record_type x = rt -> ballot x <=b ballot r
  | None => forall x, x ∈ rs -> slot x = s -> record_type x <> rt
  end.
Proof.
  intros Hpos Hrt st. destruct (replay_term rs empty_replay) as (H1 & _ & H3).
  split_and!; [done|done|by apply replay_vote|].
  assert (Hk : forall x, x ∈ rs -> slot x = s -> record_type x = rt -> x ∈ key_records (s, as_u8 rt) rs).
  { intros x Hx <- <-. apply elem_of_key_records. split_and!; [done| |done].
    unfold is_vote. by rewrite bool_decide_eq_false_2. }
  pose proof (keep_highest_spec (key_records (s, as_u8 rt) rs) None) as Hsp.
  assert (E : slots st !! (s, as_u8 rt) = foldl keep_highest None (key_records (s, as_u8 rt) rs))
    by (unfold st, replayed; rewrite replay_slots; done).
  rewrite E. destruct (foldl keep_highest None _) as [r|].
  - destruct Hsp as ([?|Hin] & Hle & _); [done|].
    apply elem_of_key_records in Hin as (Hin & Hv & Hkey). injection Hkey as Hs Ht.
    assert (record_type r = rt).
    { apply (f_equal from_u8) in Ht. rewrite !from_as_u8 in Ht. congruence. }
    split_and!; auto. apply elem_of_into_records. rewrite Hv. unfold record_key. by rewrite Hs, Ht.
  - destruct Hsp as [_ Hnil]. intros x Hx Hs Ht. specialize (Hk x Hx Hs Ht). rewrite Hnil in Hk. set_solver.
Qed.

Lemma replay_recovers_witness :
  let rs := [from_accepted 1 (mkEntry 4 (mkBallot 0 1) 2 [7]); from_promised 1 3 4 (mkBallot 5 2);
             from_vote_granted 1 3 2; from_accepted 1 (mkEntry 4 (mkBallot 0 3) 2 [8])] in
  voted_for (replayed rs) = Some 2 /\ current_term (replayed rs) = 3 /\
  exists r, slots (replayed rs) !! (4, as_u8 RAccepted) = Some r /\ r ∈ into_records (replayed rs) /\
    payload r = [8].
Proof.
  intros rs. pose proof (replay_recovers rs 4 RAccepted) as H.
  destruct H as (_ & _ & _ & H); [repeat constructor; simpl; lia|discriminate|].
  split; [vm_compute; reflexivity|]. split; [vm_compute; reflexivity|].
  destruct (slots (replayed rs) !! (4, as_u8 RAccepted)) as [r|] eqn:E; [|vm_compute in E; discriminate].
  exists r. split; [reflexivity|]. destruct H as (_ & H & _). split; [exact H|].
  vm_compute in E. injection E as <-. reflexivity.
Defined.

(** ** From files to records *)

Section replay_files.
Context (upd : Z -> bytes -> Z) `{!Crc32c upd}.

(** A segment as the writer left it: records appended, at most sealed and padded. *)
Record written := mkWritten {
  w_disk : nat;
  w_id : Z;
  w_gid : Z;
  w_format : WalRecordFormat;
  w_records : list WALRecord;
  w_sealed : bool;
  w_pad : nat;
}.

Definition written_ok (w : written) : Prop :=
  is_u64 (w_id w) /\ is_u64 (w_gid w) /\ Forall (writable (w_format w)) (w_records w).

Definition body_of (w : written) : bytes :=
  match append_all upd (create_with_format (w_id w) (w_gid w) (w_format w)) (w_records w) with
  | Some (s, _) => file (if w_sealed w then seal upd s else s)
  | None => []
  end.

Definition file_of (w : written) (torn : bytes) : seg_file :=
  mkSegFile (w_disk w) (w_id w) (body_of w ++ replicate (w_pad w) 0 ++ torn).

Lemma record_bytes_pos fmt r b : writable fmt r -> encode_record upd fmt r = Some b -> (1 <= length b)%nat.
Proof.
  intros [Hok Hs] He. destruct fmt; simpl in He; try (apply encode_length in He; lia).
  simplify_eq. destruct Hok as (_ & _ & _ & _ & _ & Hp).
  destruct (text_line_shape upd r Hp) as (l & -> & _ & _ & H). rewrite length_app. simpl. lia.
Qed.

(** The file is longer than its record count: the scan's fuel is enough. *)
Lemma append_all_length rs fmt : forall s s' offs,
  record_format s = fmt -> Forall (writable fmt) rs -> append_all upd s rs = Some (s', offs) ->
  (length (file s) + length rs <= length (file s'))%nat.
Proof.
  induction rs as [|r rs IH]; intros s s' offs Hf Hw H; cbn [append_all] in H.
  { simplify_eq. simpl. lia. }
  apply Forall_cons in Hw as [Hr Hw]. unfold append in H. destruct (sealed s); [done|].
  rewrite Hf in H. destruct (encode_record upd fmt r) as [b|] eqn:Eb; [|done].
  match type of H with context [append_all upd ?x rs] => set (s1 := x) in * end.
  destruct (append_all upd s1 rs) as [[s2 offs2]|] eqn:Ea; [|done]. simplify_eq.
  specialize (IH s1 s' offs2 eq_refl Hw Ea). pose proof (record_bytes_pos _ _ _ Hr Eb).
  unfold s1 in IH. cbn [file] in IH. rewrite length_app in IH. simpl. lia.
Qed.

Lemma replay_written all is_last st w :
  written_ok w ->
  exists ix, replay_segment upd all is_last st (file_of w []) =
    Ok (mkRState (foldl push (verified st) (w_records w)) ix
          (Z.max (max_segment_id st) (w_id w)) (repairs st)).
Proof.
  intros (Hi & Hg & Hw). unfold replay_segment, file_of. cbn [sf_bytes sf_id sf_disk].
  rewrite app_nil_r. set (f := body_of w ++ replicate (w_pad w) 0).
  destruct (written_reads_back upd (w_format w) (w_id w) (w_gid w) (w_records w) (w_sealed w) (w_pad w)
    (S (length f))) as (s & offs & rd & Ha & Ho & Hh & Hlo & Hr); [done..| |].
  { assert (exists s offs, append_all upd (create_with_format (w_id w) (w_gid w) (w_format w)) (w_records w)
      = Some (s, offs)) as (s & offs & Ha).
    { destruct (append_all_spec upd (w_format w) (w_records w) (create_with_format (w_id w) (w_gid w) (w_format w)))
        as (s & offs & _ & Ha & _); [done|by destruct (w_format w)|done|]. eauto. }
    pose proof (append_all_length _ (w_format w) (create_with_format (w_id w) (w_gid w) (w_format w)) _ _ eq_refl Hw Ha) as Hl.
    unfold f, body_of. rewrite Ha, length_app.
    assert (length (file s) <= length (file (if w_sealed w then seal upd s else s)))%nat.
    { destruct (w_sealed w); [|done]. unfold seal. destruct (sealed s); [done|]. cbn [file].
      rewrite length_app. lia. }
    lia. }
  assert (Ef : file (if w_sealed w then seal upd s else s) ++ replicate (w_pad w) 0 = f).
  { unfold f, body_of. by rewrite Ha. }
  rewrite Ef in Ho. rewrite Ho, Hr. eexists. rewrite fst_zip by lia. done.
Qed.

(** The last segment of a crashed process: unsealed, with part of one record. *)
Definition torn_ok (w : written) (torn : bytes) : Prop :=
  written_ok w /\ (torn = [] \/ w_sealed w = false /\ w_pad w = 0%nat /\
    exists r b q, writable (w_format w) r /\ encode_record upd (w_format w) r = Some b /\
      b = torn ++ q /\ q <> []).

Lemma replay_torn all st w torn :
  torn_ok w torn ->
  exists ix rep, replay_segment upd all true st (file_of w torn) =
    Ok (mkRState (foldl push (verified st) (w_records w)) ix
          (Z.max (max_segment_id st) (w_id w)) (repairs st ++ rep)) /\
    (rep = [] \/ rep = [Truncate (w_id w) (length (body_of w))]).
Proof.
  intros [Hok [->|(Hs & Hp & r & b & q & Hr & He & Hb & Hq)]].
  { destruct (replay_written all true st w Hok) as (ix & ->). exists ix, []. rewrite app_nil_r. auto. }
  destruct Hok as (Hi & Hg & Hw). unfold replay_segment, file_of. cbn [sf_bytes sf_id sf_disk].
  rewrite Hp. cbn [replicate app]. set (f := body_of w ++ torn).
  assert (exists s offs, append_all upd (create_with_format (w_id w) (w_gid w) (w_format w)) (w_records w)
      = Some (s, offs)) as (s & offs & Ha).
  { destruct (append_all_spec upd (w_format w) (w_records w) (create_with_format (w_id w) (w_gid w) (w_format w)))
      as (s & offs & _ & Ha & _); [done|by destruct (w_format w)|done|]. eauto. }
  pose proof (append_all_length _ (w_format w) (create_with_format (w_id w) (w_gid w) (w_format w)) _ _
    eq_refl Hw Ha) as Hl.
  assert (Ef : f = file s ++ torn) by (unfold f, body_of; rewrite Ha, Hs; done).
  destruct (torn_reads_back upd (w_format w) (w_id w) (w_gid w) (w_records w) r b torn q
    (S (length f))) as (s' & offs' & rd & e & Ha' & Ho & Hrd & Hee & Ht); try done.
  { rewrite Ef, length_app. lia. }
  rewrite Ha in Ha'. injection Ha' as <- <-. rewrite <- Ef in Ho. rewrite Ho, Hrd.
  assert (Hz : (zip (w_records w) offs).*1 = w_records w).
  { apply fst_zip. destruct (written_reads_back upd (w_format w) (w_id w) (w_gid w) (w_records w) false 0
      (S (length (w_records w)))) as (s2 & offs2 & rd2 & Ha2 & _ & _ & Hlo & _); [done..|lia|].
    rewrite Ha in Ha2. injection Ha2 as <- <-. lia. }
  rewrite Hz. destruct Hee as [->| ->].
  - eexists _, []. rewrite app_nil_r. split; [done|by left].
  - rewrite andb_false_r. eexists _, _. split; [done|right].
    assert (body_of w = file s) as -> by (unfold body_of; rewrite Ha, Hs; done). done.
Qed.

Lemma replay_segments_written all ws w torn : forall st,
  Forall written_ok ws -> torn_ok w torn ->
  exists ix rep, replay_segments upd all st (((fun w => file_of w []) <$> ws) ++ [file_of w torn]) =
    Ok (mkRState (foldl push (verified st) (concat (w_records <$> ws ++ [w]))) ix
          (foldl Z.max (max_segment_id st) (w_id <$> ws ++ [w])) (repairs st ++ rep)) /\
    (rep = [] \/ rep = [Truncate (w_id w) (length (body_of w))]).
Proof.
  induction ws as [|v ws IH]; intros st Hws Hw.
  - destruct (replay_torn all st w torn Hw) as (ix & rep & H & Hrep). exists ix, rep. split; [|done].
    cbn [fmap list_fmap app replay_segments]. rewrite bool_decide_eq_true_2 by done. rewrite H.
    cbn. by rewrite app_nil_r.
  - apply Forall_cons in Hws as [Hv Hws]. cbn [fmap list_fmap app replay_segments concat].
    rewrite bool_decide_eq_false_2 by by destruct ws.
    destruct (replay_written all false st v Hv) as (ix & ->). cbn [result_bind].
    destruct (IH (mkRState (foldl push (verified st) (w_records v)) ix
      (Z.max (max_segment_id st) (w_id v)) (repairs st)) Hws Hw) as (ix' & rep & H & Hrep).
    exists ix', rep. split; [|done]. cbn [verified max_segment_id repairs foldl] in *.
    rewrite foldl_app. exact H.
Qed.

(** However the directory lists them, segments of ascending ids are replayed in
    that order. *)
Lemma replay_order found fs :
  found ≡ₚ fs -> StronglySorted Z.lt (sf_id <$> fs) -> merge_sort seg_le found = fs.
Proof.
  intros Hp Hs. assert (Hn : NoDup (sf_id <$> fs)).
  { clear Hp. induction (sf_id <$> fs) as [|x l IH]; [constructor|]. inversion_clear Hs as [|? ? H1 H2].
    constructor; [|auto]. rewrite Forall_forall in H2. intros Hx. specialize (H2 _ Hx). lia. }
  apply (StronglySorted_ext (fun x y => sf_id x < sf_id y)).
  - intros x. lia.
  - intros x y ??. lia.
  - apply StronglySorted_strict.
    + apply (StronglySorted_merge_sort seg_le).
    + by rewrite merge_sort_Permutation, Hp.
  - clear Hp Hn. induction fs as [|f fs IH]; [constructor|]. simpl in Hs.
    inversion_clear Hs as [|? ? H1 H2]. constructor; [exact (IH H1)|].
    exact (proj1 (Forall_fmap sf_id (Z.lt (sf_id f)) fs) H2).
  - intros x. by rewrite merge_sort_Permutation, Hp.
Qed.

Lemma written_terms ws : Forall written_ok ws -> Forall (fun r => 0 <= term r) (concat (w_records <$> ws)).
Proof.
  induction 1 as [|w ws (_ & _ & Hw) _ IH]; [done|]. rewrite fmap_cons. cbn [concat]. apply Forall_app. split; [|done].
  eapply Forall_impl; [exact Hw|]. intros r [Hr _]. unfold record_ok in Hr. unfold is_u64 in Hr. lia.
Qed.

(** C39. Crash recovery is end to end.  Take the segments a log wrote, in any of
    the three formats, sealed and padded or not, of ascending ids, the last one
    possibly with a partly written record at its end.  Whatever order the
    directory scan finds the files in, replay succeeds, if every binary frame is
    shorter than the footer magic read as a length (1179602772 bytes).  Its term is the highest
    of any appended record, its vote the last appended vote of that term.  Its
    records are all appended votes in order, then for each slot the latest
    accepted and the latest promised record of highest ballot, and no others, by
    slot and kind.  The only file it touches is the last one, and only to cut it
    back to the end of its last whole record. *)
Theorem replay_recovers_every_append ws w torn found :
  Forall written_ok ws -> torn_ok w torn ->
  StronglySorted Z.lt (w_id <$> ws ++ [w]) ->
  found ≡ₚ ((fun w => file_of w []) <$> ws) ++ [file_of w torn] ->
  let log := concat (w_records <$> ws ++ [w]) in
  exists res rest, replay_group upd found = Ok res /\
    res_records res = List.filter is_vote log ++ rest /\ recovered log rest /\
    (forall r, r ∈ log -> term r <= res_current_term res) /\
    (res_current_term res = 0 \/ exists r, r ∈ log /\ term r = res_current_term res) /\
    res_voted_for res = (r ← last (term_votes (res_current_term res) log); voted_for_id r) /\
    res_max_segment_id res = w_id w /\
    (res_repairs res = [] \/ res_repairs res = [Truncate (w_id w) (length (body_of w))]).
Proof.
  intros Hws Hw Hs Hp log. unfold replay_group.
  rewrite (fmap_app w_id ws [w]) in Hs.
  rewrite (replay_order found _ Hp) by (rewrite fmap_app, <- list_fmap_compose; exact Hs).
  destruct (replay_segments_written (((fun w => file_of w []) <$> ws) ++ [file_of w torn]) ws w torn
    (mkRState empty_replay empty_index 0 []) Hws Hw) as (ix & rep & -> & Hrep).
  assert (Hpos : Forall (fun r => 0 <= term r) log).
  { apply written_terms. apply Forall_app. split; [done|]. apply Forall_singleton, Hw. }
  destruct (into_records_recovered log) as (rest & Hrest & Hrec). destruct (replay_term log empty_replay) as (Ht1 & _ & Ht2).
  cbn [result_bind]. eexists _, rest. split; [done|]. cbn. fold log. split_and!; try done.
  - by apply replay_vote.
  - rewrite fmap_app, foldl_app. simpl.
    assert (Hlast : forall l m x, m <= x -> StronglySorted Z.lt (l ++ [x]) -> foldl Z.max m l <= x).
    { clear. induction l as [|y l IH]; intros m x Hm H; [done|]. inversion_clear H as [|? ? H1 H2].
      simpl. apply IH; [|done]. apply Forall_app in H2 as [_ H2]. apply Forall_cons in H2 as [H2 _]. lia. }
    apply Z.max_r, Hlast; [|done]. destruct Hw as [(Hi & _) _]. unfold is_u64 in Hi. lia.
Qed.

End replay_files.

Lemma replay_recovers_every_append_witness :
  exists res rest, replay_group crc_ref
      [file_of crc_ref (mkWritten 0 6 3 Binary [demo_vote] false 0) (take 30 demo_bytes);
       file_of crc_ref (mkWritten 1 5 3 TextLine [demo_record; demo_vote] true 100) []] = Ok res /\
    res_records res = [demo_vote; demo_vote] ++ rest /\ recovered [demo_record; demo_vote; demo_vote] rest.
Proof.
  destruct (replay_recovers_every_append crc_ref [mkWritten 1 5 3 TextLine [demo_record; demo_vote] true 100]
    (mkWritten 0 6 3 Binary [demo_vote] false 0) (take 30 demo_bytes)
    [file_of crc_ref (mkWritten 0 6 3 Binary [demo_vote] false 0) (take 30 demo_bytes);
     file_of crc_ref (mkWritten 1 5 3 TextLine [demo_record; demo_vote] true 100) []])
    as (res & rest & H1 & H2 & H3 & _).
  - apply Forall_cons; split; [|apply Forall_nil_2].
    split_and!; [vm_compute; split; discriminate..|apply demo_writable].
  - pose proof (demo_writable Binary) as H. apply Forall_cons in H as [H1 H2].
    split; [split_and!; [vm_compute; split; discriminate..|exact H2]|]. right.
    split_and!; [done..|]. exists demo_record, demo_bytes, (drop 30 demo_bytes).
    split_and!; [exact H1|vm_compute; reflexivity|by rewrite take_drop|vm_compute; discriminate].
  - simpl. repeat constructor.
  - simpl. apply Permutation_swap.
  - exists res, rest. split; [exact H1|]. split; [exact H2|exact H3].
Defined.

(** ** Garbage collection keeps what recovery needs *)

(** A segment on disk with the records replay reads from it. *)
Record stored := mkStored { st_id : Z; st_disk : nat; st_records : list (WALRecord * nat) }.

Definition meta_of (g : stored) : SegmentMeta :=
  scan_meta (st_id g) (st_disk g) (foldl scan_record empty_scan (st_records g)).

Definition log_of (gs : list stored) : list WALRecord := concat ((fun g => (st_records g).*1) <$> gs).

Definition surviving (gone : list Z) (gs : list stored) : list stored :=
  List.filter (fun g => negb (bool_decide (st_id g ∈ gone))) gs.

(** The segments the live index lists; the others are still being written. *)
Definition listed (ids : list Z) (gs : list stored) : list stored :=
  List.filter (fun g => bool_decide (st_id g ∈ ids)) gs.

Lemma elem_of_listed ids gs g : g ∈ listed ids gs <-> g ∈ gs /\ st_id g ∈ ids.
Proof.
  unfold listed. rewrite list_elem_of_In, List.filter_In, <- list_elem_of_In, bool_decide_eq_true. done.
Qed.

Lemma elem_of_log gs r : r ∈ log_of gs <-> exists g, g ∈ gs /\ r ∈ (st_records g).*1.
Proof.
  unfold log_of. induction gs as [|g gs IH]; simpl; [set_solver|]. rewrite elem_of_app.
  change (concat _) with (log_of gs) in *. set_solver.
Qed.

Lemma elem_of_surviving gone gs g : g ∈ surviving gone gs <-> g ∈ gs /\ st_id g ∉ gone.
Proof.
  unfold surviving. rewrite list_elem_of_In, List.filter_In, <- list_elem_of_In, negb_true_iff,
    bool_decide_eq_false. done.
Qed.

Lemma scan_slots_mono l : forall sc, seg_max_slot sc <= seg_max_slot (foldl scan_record sc l).
Proof.
  induction l as [|[r off] l IH]; intros sc; simpl; [lia|]. etransitivity; [|apply IH].
  simpl. destruct (negb (slot r =? 0)); simpl; [|lia].
  destruct (Z.ltb_spec (seg_max_slot sc) (slot r)); lia.
Qed.

Lemma scan_slots l : forall sc r off, (r, off) ∈ l -> slot r <> 0 ->
  slot r <= seg_max_slot (foldl scan_record sc l).
Proof.
  induction l as [|[r0 off0] l IH]; intros sc r off Hin Hz; [set_solver|].
  apply elem_of_cons in Hin as [[= -> ->]|Hin]; [|by eapply IH]. cbn [foldl].
  etransitivity; [|apply scan_slots_mono]. simpl. rewrite (proj2 (Z.eqb_neq _ _) Hz). simpl.
  destruct (Z.ltb_spec (seg_max_slot sc) (slot r0)); lia.
Qed.

Lemma scan_term l : forall sc,
  seg_max_term (foldl scan_record sc l) = foldl Z.max (seg_max_term sc) (term <$> l.*1).
Proof. induction l as [|[r off] l IH]; intros sc; simpl; [done|]. by rewrite IH. Qed.

Lemma scan_vote l : forall sc,
  seg_vote_term (foldl scan_record sc l) =
    foldl opt_max (seg_vote_term sc) (term <$> List.filter is_vote l.*1).
Proof.
  induction l as [|[r off] l IH]; intros sc; simpl; [done|]. rewrite IH. unfold is_vote at 2.
  simpl. case_decide; [by rewrite bool_decide_eq_true_2|by rewrite bool_decide_eq_false_2].
Qed.

Lemma foldl_max_spec l : forall m,
  m <= foldl Z.max m l /\ (forall x, x ∈ l -> x <= foldl Z.max m l) /\
  (foldl Z.max m l = m \/ foldl Z.max m l ∈ l).
Proof.
  induction l as [|y l IH]; intros m; simpl; [set_solver by lia|].
  destruct (IH (Z.max m y)) as (H1 & H2 & H3). split_and!; [lia| |].
  - intros x [->|Hx]%elem_of_cons; [lia|auto].
  - destruct H3 as [H3|H3]; [|set_solver]. rewrite H3.
    destruct (Z.max_spec m y) as [[_ ->]|[_ ->]]; set_solver.
Qed.

Lemma foldl_opt_max_spec l : forall o,
  match foldl opt_max o l with
  | None => o = None /\ l = []
  | Some t => (o = Some t \/ t ∈ l) /\ (forall x, x ∈ l -> x <= t) /\ (forall x, o = Some x -> x <= t)
  end.
Proof.
  induction l as [|y l IH]; intros o; simpl; [destruct o; set_solver by lia|].
  specialize (IH (opt_max o y)). destruct (foldl opt_max (opt_max o y) l) as [t|].
  - destruct IH as (H1 & H2 & H3). unfold opt_max in H1, H3.
    assert (y <= t /\ forall x, o = Some x -> x <= t) as [Hy Ho].
    { destruct o as [z|]; [|specialize (H3 _ eq_refl); naive_solver].
      specialize (H3 _ eq_refl). naive_solver lia. }
    split_and!; [|set_solver|done]. destruct H1 as [H1|H1]; [|set_solver].
    destruct o as [z|]; simplify_eq; [|set_solver].
    destruct (Z.max_spec z y) as [[_ ->]|[_ ->]]; set_solver.
  - destruct IH as [IH _]. by destruct o.
Qed.

(** Iterator [max_by_key]: the result is an element no other exceeds. *)
Lemma max_by_spec {A} (lt : A -> A -> bool) (le : A -> A -> Prop) `{!PreOrder le} (l : list A) :
  (forall x y, if lt x y then le x y else le y x) ->
  forall o,
  match foldl (fun best m => match best with
                             | None => Some m
                             | Some b => if lt m b then Some b else Some m
                             end) o l with
  | None => o = None /\ l = []
  | Some r => (o = Some r \/ r ∈ l) /\ (forall x, x ∈ l -> le x r) /\ (forall x, o = Some x -> le x r)
  end.
Proof.
  intros Hlt. induction l as [|y l IH]; intros o; simpl.
  { destruct o as [z|]; [|done]. split_and!; [by left|by intros x ?%not_elem_of_nil|]. by intros x [= ->]. }
  destruct o as [z|].
  - specialize (Hlt y z). destruct (lt y z).
    + specialize (IH (Some z)). destruct (foldl _ (Some z) l); [|naive_solver].
      destruct IH as (H1 & H2 & H3). specialize (H3 z eq_refl). split_and!; [set_solver| |naive_solver].
      intros x [->|Hx]%elem_of_cons; [by etrans|auto].
    + specialize (IH (Some y)). destruct (foldl _ (Some y) l); [|naive_solver].
      destruct IH as (H1 & H2 & H3). specialize (H3 y eq_refl). split_and!; [set_solver| |].
      * intros x [->|Hx]%elem_of_cons; auto.
      * intros x [= ->]. by etrans.
  - specialize (IH (Some y)). destruct (foldl _ (Some y) l); [|naive_solver].
    destruct IH as (H1 & H2 & H3). specialize (H3 y eq_refl). split_and!; [set_solver| |done].
    intros x [->|Hx]%elem_of_cons; auto.
Qed.

(** Pairs in the order of [max]. *)
Definition pair_le (a b : Z * Z) : Prop := a.1 < b.1 \/ a.1 = b.1 /\ a.2 <= b.2.

#[export] Instance pair_le_order : PreOrder pair_le.
Proof. split; [intros x; unfold pair_le; lia|intros x y z; unfold pair_le; lia]. Qed.

#[export] Instance term_le_order : PreOrder (fun a b => m_max_term a <= m_max_term b).
Proof. split; [intros x; lia|intros x y z; lia]. Qed.

Lemma key_records_surviving k gone gs :
  (forall g, g ∈ gs -> st_id g ∈ gone -> key_records k (st_records g).*1 = []) ->
  key_records k (log_of (surviving gone gs)) = key_records k (log_of gs).
Proof.
  intros H. induction gs as [|g gs IH]; [done|].
  assert (Happ : forall x l, key_records k (log_of (x :: l)) =
    key_records k (st_records x).*1 ++ key_records k (log_of l)).
  { intros x l. unfold log_of, key_records. simpl. by rewrite List.filter_app. }
  rewrite Happ, <- IH by (intros; apply H; set_solver). unfold surviving at 1. simpl. case_bool_decide; simpl.
  - rewrite (H g) by set_solver. done.
  - by rewrite Happ.
Qed.

Lemma term_segment_spec ms g :
  g ∈ ms -> exists m, m ∈ ms /\ term_segment ms = Some (m_segment_id m) /\
    m_max_term g <= m_max_term m.
Proof.
  intros Hg. pose proof (max_by_spec term_key_lt (fun a b => m_max_term a <= m_max_term b) ms) as H.
  assert (Hlt : forall x y, if term_key_lt x y then m_max_term x <= m_max_term y
                            else m_max_term y <= m_max_term x).
  { intros x y. unfold term_key_lt. zcase; simpl; lia. }
  specialize (H Hlt None). unfold term_segment. destruct (foldl _ None ms) as [m|];
    [|destruct H as [_ ->]; by apply not_elem_of_nil in Hg].
  destruct H as ([?|H1] & H2 & _); [done|]. exists m. auto.
Qed.

Lemma vote_segment_spec ms g t :
  g ∈ ms -> m_vote_term g = Some t ->
  exists m t', m ∈ ms /\ vote_segment ms = Some (m_segment_id m) /\ m_vote_term m = Some t' /\
    pair_le (t, m_segment_id g) (t', m_segment_id m).
Proof.
  intros Hg Ht. set (ps := omap (fun m => t ← m_vote_term m; Some (t, m_segment_id m)) ms).
  pose proof (max_by_spec pair_lt pair_le ps) as H.
  assert (Hlt : forall x y, if pair_lt x y then pair_le x y else pair_le y x).
  { intros x y. unfold pair_lt, pair_le. zcase; simpl; lia. }
  specialize (H Hlt None). unfold vote_segment. fold ps.
  assert (Hin : (t, m_segment_id g) ∈ ps).
  { apply list_elem_of_omap. exists g. by rewrite Ht. }
  destruct (foldl _ None ps) as [[t' sid]|];
    [|destruct H as [_ ->]; by apply not_elem_of_nil in Hin].
  destruct H as ([?|H1] & H2 & _); [done|]. apply list_elem_of_omap in H1 as (m & Hm & E).
  destruct (m_vote_term m) as [t2|] eqn:E2; [|done]. simpl in E. injection E as <- <-.
  exists m, t2. split_and!; try done.
  exact (H2 _ Hin).
Qed.

Lemma meta_term g : Forall (fun r => 0 <= term r) (st_records g).*1 ->
  (forall r, r ∈ (st_records g).*1 -> term r <= m_max_term (meta_of g)) /\
  (m_max_term (meta_of g) = 0 \/ exists r, r ∈ (st_records g).*1 /\ term r = m_max_term (meta_of g)).
Proof.
  intros Hpos. unfold meta_of, scan_meta. cbn [m_max_term]. rewrite scan_term. cbn [seg_max_term empty_scan].
  destruct (foldl_max_spec (term <$> (st_records g).*1) 0) as (H1 & H2 & H3). split.
  - intros r Hr. apply H2. by apply list_elem_of_fmap_2.
  - destruct H3 as [H3|H3]; [by left|right]. apply list_elem_of_fmap in H3 as (r & E & Hr). eauto.
Qed.

Lemma meta_vote g r : r ∈ (st_records g).*1 -> is_vote r = true ->
  exists t, m_vote_term (meta_of g) = Some t /\ term r <= t.
Proof.
  intros Hr Hv. unfold meta_of, scan_meta. cbn [m_vote_term]. rewrite scan_vote. cbn [seg_vote_term empty_scan].
  pose proof (foldl_opt_max_spec (term <$> List.filter is_vote (st_records g).*1) None) as H.
  assert (Hin : term r ∈ term <$> List.filter is_vote (st_records g).*1).
  { apply list_elem_of_fmap_2. rewrite list_elem_of_In, List.filter_In, <- list_elem_of_In. done. }
  destruct (foldl opt_max None _) as [t|]; [exists t; naive_solver|].
  destruct H as [_ E]. rewrite E in Hin. by apply not_elem_of_nil in Hin.
Qed.

Lemma meta_vote_inv g t : m_vote_term (meta_of g) = Some t ->
  exists r, r ∈ (st_records g).*1 /\ is_vote r = true /\ term r = t.
Proof.
  unfold meta_of, scan_meta. cbn [m_vote_term]. rewrite scan_vote. cbn [seg_vote_term empty_scan].
  pose proof (foldl_opt_max_spec (term <$> List.filter is_vote (st_records g).*1) None) as H.
  intros E. rewrite E in H. destruct H as ([?|H] & _); [done|].
  apply list_elem_of_fmap in H as (r & -> & Hr). exists r.
  rewrite list_elem_of_In, List.filter_In, <- list_elem_of_In in Hr. naive_solver.
Qed.

(** The last segment with a property. *)
Lemma last_with (f : stored -> bool) gs :
  (forall g, g ∈ gs -> f g = false) \/
  exists pre g post, gs = pre ++ g :: post /\ f g = true /\ forall h, h ∈ post -> f h = false.
Proof.
  induction gs as [|g gs [IH|(pre & x & post & -> & Hx & Hpost)]].
  - left. by intros g ?%not_elem_of_nil.
  - destruct (f g) eqn:E; [right; by exists [], g, gs|left]. by intros h [->|Hh]%elem_of_cons; auto.
  - right. by exists (g :: pre), x, post.
Qed.

Lemma log_of_app l k : log_of (l ++ k) = log_of l ++ log_of k.
Proof. unfold log_of. by rewrite fmap_app, concat_app. Qed.

Definition has_vote (t : Z) (g : stored) : bool := negb (bool_decide (term_votes t (st_records g).*1 = [])).

Lemma no_votes t gs : (forall g, g ∈ gs -> has_vote t g = false) -> term_votes t (log_of gs) = [].
Proof.
  induction gs as [|g gs IH]; intros H; [done|]. unfold log_of. cbn [fmap list_fmap concat]. fold (log_of gs).
  rewrite term_votes_app, IH by (intros; apply H; by right). rewrite app_nil_r.
  specialize (H g ltac:(by left)). unfold has_vote in H. by apply negb_false_iff, bool_decide_eq_true in H.
Qed.

(** The last vote of a term is in the last segment with such a vote. *)
Lemma last_vote t pre g post :
  has_vote t g = true -> (forall h, h ∈ post -> has_vote t h = false) ->
  last (term_votes t (log_of (pre ++ g :: post))) = last (term_votes t (st_records g).*1).
Proof.
  intros Hg Hpost. rewrite log_of_app. change (log_of (g :: post)) with ((st_records g).*1 ++ log_of post).
  rewrite !term_votes_app, (no_votes t post Hpost), app_nil_r, last_app.
  unfold has_vote in Hg. apply negb_true_iff, bool_decide_eq_false in Hg.
  destruct (last (term_votes t (st_records g).*1)) eqn:E; [done|]. by apply last_None in E.
Qed.

Section gc.
Context (gs : list stored) (ids : list Z) (ms : list SegmentMeta) (gc_slot : Z) (gone : list Z).
Context (Hids : StronglySorted Z.lt (st_id <$> gs)) (Hpos : Forall (fun r => 0 <= term r) (log_of gs)).
Context (Hms : ms ≡ₚ meta_of <$> listed ids gs).
Context (Hgone : forall i, i ∈ gone -> i ∈ m_segment_id <$> gc_victims ms gc_slot).

Lemma ids_unique g g' : g ∈ gs -> g' ∈ gs -> st_id g = st_id g' -> g = g'.
Proof using Hids.
  clear -Hids. induction gs as [|x l IH]; intros Hg Hg' E; [by apply not_elem_of_nil in Hg|].
  rewrite fmap_cons in Hids. inversion_clear Hids as [|? ? H1 H2]. rewrite Forall_fmap, Forall_forall in H2.
  apply elem_of_cons in Hg as [->|Hg], Hg' as [->|Hg']; [done| | |by apply IH].
  - specialize (H2 _ Hg'). simpl in H2. lia.
  - specialize (H2 _ Hg). simpl in H2. lia.
Qed.

Lemma listed_meta g : g ∈ gs -> st_id g ∈ ids -> meta_of g ∈ ms.
Proof using Hms. intros Hg Hi. rewrite Hms. apply list_elem_of_fmap_2, elem_of_listed. done. Qed.

Lemma meta_listed m : m ∈ ms -> exists g, m = meta_of g /\ g ∈ gs.
Proof using Hms. rewrite Hms. intros (g & -> & [Hg _]%elem_of_listed)%list_elem_of_fmap. eauto. Qed.

Lemma gone_facts g : g ∈ gs -> st_id g ∈ gone ->
  st_id g ∈ ids /\ gc_slot <> 0 /\ m_max_slot (meta_of g) < gc_slot /\
  Some (st_id g) <> term_segment ms /\ Some (st_id g) <> vote_segment ms.
Proof using All.
  intros Hg Hi. apply Hgone in Hi. unfold gc_victims in Hi. destruct (Z.eqb_spec gc_slot 0); [set_solver|].
  apply list_elem_of_fmap in Hi as (m & E & Hm).
  rewrite list_elem_of_In, List.filter_In, <- list_elem_of_In in Hm. destruct Hm as [Hm He].
  rewrite Hms in Hm. apply list_elem_of_fmap in Hm as (g' & -> & [Hg' Hin]%elem_of_listed). simpl in E.
  assert (g' = g) as -> by (by apply ids_unique).
  unfold gc_eligible in He. rewrite !andb_true_iff, !negb_true_iff, !bool_decide_eq_false in He.
  simpl in *. destruct He as (((_ & H1) & H2) & H3). apply Z.ltb_lt in H1. done.
Qed.

Lemma kept_term : current_term (replayed (log_of (surviving gone gs))) = current_term (replayed (log_of gs)).
Proof using All.
  destruct (replay_term (log_of gs) empty_replay) as (Ha & Ha0 & Hae).
  destruct (replay_term (log_of (surviving gone gs)) empty_replay) as (Hk & Hk0 & Hke).
  fold (replayed (log_of gs)) in *. fold (replayed (log_of (surviving gone gs))) in *.
  cbn [current_term empty_replay] in *. apply Z.le_antisymm.
  - destruct Hke as [->|(r & Hr & <-)]; [done|]. apply Ha. apply elem_of_log in Hr as (g & Hg & Hr).
    apply elem_of_surviving in Hg as [Hg _]. apply elem_of_log. eauto.
  - destruct Hae as [->|(r & Hr & Et)]; [done|]. rewrite <- Et.
    apply elem_of_log in Hr as (g & Hg & Hr).
    assert (Hpg : forall h, h ∈ gs -> Forall (fun r => 0 <= term r) (st_records h).*1).
    { intros h Hh. rewrite Forall_forall in *. intros x Hx. apply Hpos, elem_of_log. eauto. }
    assert (Hstay : forall h x, h ∈ gs -> x ∈ (st_records h).*1 -> st_id h ∉ gone ->
      term x <= current_term (replayed (log_of (surviving gone gs)))).
    { intros h x Hh Hx Hn. apply Hk, elem_of_log. exists h. split; [by apply elem_of_surviving|done]. }
    destruct (decide (st_id g ∈ gone)) as [Hi|Hi]; [|by eapply Hstay].
    destruct (gone_facts g Hg Hi) as (Hl & _).
    destruct (term_segment_spec ms (meta_of g) (listed_meta g Hg Hl)) as (m & Hm & Hs & Hle).
    apply meta_listed in Hm as (g' & -> & Hg').
    pose proof (proj1 (meta_term g (Hpg g Hg)) r Hr) as Hrt.
    destruct (proj2 (meta_term g' (Hpg g' Hg'))) as [Hz|(r' & Hr' & Er')]; [lia|].
    transitivity (term r'); [lia|]. eapply Hstay; [done|done|]. intros Hin.
    destruct (gone_facts g' Hg' Hin) as (_ & _ & _ & Hne & _). by apply Hne.
Qed.

(** The last segment with a vote of the current term is never unlinked. *)
Lemma voter_survives pre g post :
  gs = pre ++ g :: post -> has_vote (current_term (replayed (log_of gs))) g = true ->
  (forall h, h ∈ post -> has_vote (current_term (replayed (log_of gs))) h = false) -> st_id g ∉ gone.
Proof using All.
  set (T := current_term (replayed (log_of gs))). intros Egs Hg Hpost Hin.
  assert (Hgg : g ∈ gs) by (rewrite Egs; set_solver). destruct (gone_facts g Hgg Hin) as (Hl & _ & _ & _ & Hne).
  destruct (replay_term (log_of gs) empty_replay) as (Ha & _). fold (replayed (log_of gs)) in Ha. fold T in Ha.
  assert (Hv : exists r, r ∈ (st_records g).*1 /\ is_vote r = true /\ term r = T).
  { unfold has_vote in Hg. apply negb_true_iff, bool_decide_eq_false in Hg.
    destruct (term_votes T (st_records g).*1) as [|r l] eqn:E; [done|]. exists r. apply elem_of_term_votes. rewrite E. by left. }
  destruct Hv as (r & Hr & Hvr & Hrt). destruct (meta_vote g r Hr Hvr) as (t & Ht & Hle).
  destruct (vote_segment_spec ms (meta_of g) t (listed_meta g Hgg Hl) Ht) as (m & t' & Hm & Hs & Ht' & Hp).
  apply meta_listed in Hm as (g' & -> & Hg'). destruct (meta_vote_inv _ _ Ht') as (x & Hx & Hvx & Ex).
  assert (term x <= T) by (apply Ha, elem_of_log; eauto). unfold pair_le in Hp. simpl in Hp.
  assert (has_vote T g' = true) as Hg'v.
  { unfold has_vote. apply negb_true_iff, bool_decide_eq_false. intros E.
    apply (not_elem_of_nil x). rewrite <- E. apply elem_of_term_votes. split_and!; [done|done|lia]. }
  apply Hne. rewrite Hs. simpl. f_equal.
  destruct (decide (st_id g = st_id g')) as [|Hneq]; [done|]. exfalso.
  assert (st_id g < st_id g') as Hlt by lia. rewrite Egs in Hg', Hids.
  apply elem_of_app in Hg' as [Hg'|[->|Hg']%elem_of_cons]; [|done|by rewrite Hpost in Hg'v].
  rewrite fmap_app in Hids. apply StronglySorted_app in Hids as (Hs1 & _).
  assert (st_id g' < st_id g); [|lia]. apply Hs1; [by apply list_elem_of_fmap_2|by left].
Qed.

Lemma kept_vote : voted_for (replayed (log_of (surviving gone gs))) = voted_for (replayed (log_of gs)).
Proof using All.
  assert (Hsub : forall g, g ∈ surviving gone gs -> g ∈ gs) by (by intros g [Hg _]%elem_of_surviving).
  rewrite !replay_vote; [|done|].
  2: { rewrite Forall_forall in *. intros r (g & Hg & Hr)%elem_of_log. apply Hpos, elem_of_log. eauto. }
  rewrite kept_term. set (T := current_term (replayed (log_of gs))). f_equal.
  destruct (last_with (has_vote T) gs) as [Hnone|(pre & g & post & Egs & Hg & Hpost)].
  { rewrite !no_votes; [done|done|]. intros g Hg. by apply Hnone, Hsub. }
  pose proof (voter_survives pre g post Egs Hg Hpost) as Hin. rewrite Egs.
  assert (surviving gone (pre ++ g :: post) = surviving gone pre ++ g :: surviving gone post) as ->.
  { unfold surviving. rewrite List.filter_app. simpl. by rewrite bool_decide_eq_false_2. }
  rewrite !last_vote; [done|done|done|done|]. intros h [Hh _]%elem_of_surviving. by apply Hpost.
Qed.

Lemma kept_records k : gc_slot <= k.1 ->
  key_records k (log_of (surviving gone gs)) = key_records k (log_of gs).
Proof using All.
  intros Hk. apply key_records_surviving. intros g Hg Hin.
  { destruct (gone_facts g Hg Hin) as (_ & H0 & H1 & _).
    destruct (key_records k (st_records g).*1) as [|r l] eqn:E; [done|]. exfalso.
    assert (Hr : r ∈ key_records k (st_records g).*1) by (rewrite E; set_solver).
    apply elem_of_key_records in Hr as (Hr & _ & <-). simpl in Hk.
    apply list_elem_of_fmap in Hr as ([r0 off] & -> & Hr). simpl in *.
    destruct (Z.eq_dec (slot r0) 0) as [E0|E0].
    - assert (gc_slot < 0) by lia.
      unfold meta_of, scan_meta in H1. cbn [m_max_slot] in H1.
      pose proof (scan_slots_mono (st_records g) empty_scan) as Hm. simpl in Hm. lia.
    - pose proof (scan_slots _ empty_scan _ _ Hr E0). unfold meta_of, scan_meta in H1. simpl in H1. lia. }
Qed.

End gc.

Lemma gc_dropped unlink vs : forall shards unlinked dropped,
  let '(_, unlinked', dropped') := foldl (gc_step unlink) (shards, unlinked, dropped) vs in
  (forall i, i ∈ unlinked' -> i ∈ unlinked \/ i ∈ m_segment_id <$> vs) /\
  (forall i, i ∈ dropped' -> i ∈ dropped \/ i ∈ m_segment_id <$> vs).
Proof.
  induction vs as [|m vs IH]; intros shards unlinked dropped; [simpl; auto|].
  cbn [foldl gc_step]. destruct (unlink (m_segment_id m)).
  - specialize (IH (sharded_remove_segment shards (m_disk_idx m) (m_segment_id m))
      (unlinked ++ [m_segment_id m]) (dropped ++ [m_segment_id m])).
    destruct (foldl _ _ vs) as [[? ?] ?]. set_solver.
  - specialize (IH (sharded_remove_segment shards (m_disk_idx m) (m_segment_id m))
      unlinked (dropped ++ [m_segment_id m])).
    destruct (foldl _ _ vs) as [[? ?] ?]. set_solver.
  - specialize (IH shards unlinked dropped). destruct (foldl _ _ vs) as [[? ?] ?]. set_solver.
Qed.

(** C40. Garbage collection is invisible to recovery at and above its watermark.
    Take the segments of a log in the order of their ids, of which the live index
    lists some (the sealed ones) with their metadata and not the others, and let a
    pass run with any outcome for each unlink.  Replaying the segments that were
    not unlinked gives the same current term, the same vote and, for every slot
    from the watermark on, the same promised and the same accepted record. *)
Theorem gc_preserves_recovery gs ids shards gc_slot unlink :
  StronglySorted Z.lt (st_id <$> gs) -> Forall (fun r => 0 <= term r) (log_of gs) ->
  segments_snapshot shards ≡ₚ meta_of <$> listed ids gs ->
  let '(_, unlinked, _) := run_gc_with_watermark unlink shards gc_slot in
  let before := replayed (log_of gs) in
  let after := replayed (log_of (surviving unlinked gs)) in
  current_term after = current_term before /\
  (forall s rt, gc_slot <= s -> slots after !! (s, rt) = slots before !! (s, rt)) /\
  voted_for after = voted_for before.
Proof.
  intros Hids Hpos Hms. unfold run_gc_with_watermark.
  pose proof (gc_dropped unlink (gc_victims (segments_snapshot shards) gc_slot) shards [] []) as Hd.
  destruct (foldl _ _ _) as [[shards' gone] dropped]. destruct Hd as [Hd _].
  assert (Hgone : forall i, i ∈ gone -> i ∈ m_segment_id <$> gc_victims (segments_snapshot shards) gc_slot).
  { intros i Hi. destruct (Hd i Hi) as [H|H]; [by apply not_elem_of_nil in H|done]. }
  cbv zeta. split_and!.
  - by eapply kept_term.
  - intros s rt Hs. unfold replayed. rewrite !replay_slots.
    by rewrite (kept_records gs ids (segments_snapshot shards) gc_slot gone Hids Hpos Hms Hgone (s, rt)).
  - by eapply kept_vote.
Qed.

(** Four segments, the last of which is not sealed; the second is below the
    watermark and holds neither the highest term nor the latest vote. *)
Definition demo_segments : list stored :=
  [mkStored 1 0 [(mkRecord RVoteGranted 1 7 0 (mkBallot 0 0) (to_le_bytes 8 2), 0%nat)];
   mkStored 2 0 [(mkRecord RAccepted 1 3 4 (mkBallot 1 1) [65], 0%nat)];
   mkStored 3 1 [(mkRecord RAccepted 1 5 9 (mkBallot 1 1) [66], 0%nat)];
   mkStored 4 0 [(mkRecord RVoteGranted 1 6 0 (mkBallot 0 0) (to_le_bytes 8 3), 0%nat)]].

Definition demo_shards : ShardedSegmentIndex :=
  foldl (fun sh g => sharded_register_segment sh (st_disk g) (meta_of g)) (new_sharded 2) (listed [1; 2; 3] demo_segments).

Lemma gc_preserves_recovery_witness :
  (run_gc_with_watermark (fun _ => Unlinked) demo_shards 6).1.2 = [2] /\
  voted_for (replayed (log_of (surviving [2] demo_segments))) = Some 2 /\
  slots (replayed (log_of (surviving [2] demo_segments))) !! (9, 1) =
    slots (replayed (log_of demo_segments)) !! (9, 1).
Proof.
  pose proof (gc_preserves_recovery demo_segments [1; 2; 3] demo_shards 6 (fun _ => Unlinked)) as H.
  assert (E : (run_gc_with_watermark (fun _ => Unlinked) demo_shards 6).1.2 = [2]) by (vm_compute; reflexivity).
  destruct (run_gc_with_watermark (fun _ => Unlinked) demo_shards 6) as [[sh gone] dropped].
  simpl in E. subst gone. destruct H as (_ & H2 & H3).
  - simpl. repeat constructor.
  - repeat constructor; discriminate.
  - vm_compute. reflexivity.
  - split; [reflexivity|]. split.
    + rewrite H3. vm_compute. reflexivity.
    + apply H2. lia.
Defined.

(** ** Corruption of a sealed last segment *)

(** One byte of the first record's payload is flipped after the seal. *)
Definition rotten_file : bytes :=
  let f := body_of crc_ref (mkWritten 0 5 3 Binary [demo_record; demo_vote] true 0) in
  <[ (SEG_HEADER_LEN + 51)%nat := 255 ]> f.

(** A sealed segment is not refused when it is the last one: here a sealed
    segment holding an accepted record and a vote has one payload byte flipped.
    Followed by a later segment, replay aborts, as documented for sealed
    segments; alone, replay succeeds, returns neither record and cuts the file
    back to its header, so the intact vote behind the corruption is lost. *)
Theorem sealed_last_segment_truncated :
  read_footer crc_ref rotten_file <> None /\
  (exists res, replay_group crc_ref [mkSegFile 0 5 rotten_file] = Ok res /\
     res_records res = [] /\ res_voted_for res = None /\
     res_repairs res = [Truncate 5 SEG_HEADER_LEN]) /\
  (exists e off, replay_group crc_ref
     [mkSegFile 0 5 rotten_file;
      file_of crc_ref (mkWritten 0 6 3 Binary [demo_vote] false 0) []]
     = Err (CorruptSealedSegment 5 e off)).
Proof.
  split; [vm_compute; discriminate|]. split.
  - eexists. split; [vm_compute; reflexivity|]. split_and!; vm_compute; reflexivity.
  - eexists _, _. vm_compute. reflexivity.
Qed.

End WalReplay.
