(* ===== verification/Replica.v ===== *)
(** * The local replica

    Models [src/lib/crowdb-kv/src/cluster/local_replica.rs] and its handler
    files [local_replica_accept.rs], [local_replica_election.rs],
    [local_replica_apply.rs] and [local_replica_replay.rs], with the follower
    side of chosen notices and gap fetches from
    [rpc/px_rpc_service/notifications.rs] and [cluster/group_fetchgap.rs].

    A replica is an acceptor, a learner, the election state with its lock-free
    mirrors, the lease clocks, and a write-ahead log as the list of records
    appended so far ([WalSegment] and [WalReplay] justify the list).  Each handler
    runs as a whole; time is the argument [now], in milliseconds of one monotonic
    clock; whether an append succeeds is the argument [wal_ok].

    The code logs a failed append and answers all the same, and with
    [wal_early_ack] the leader answers for its own accept before the append has
    run.  The model therefore keeps, beside the log, the records a replica has
    answered for and not appended ([owed]).

    The theorems say that a restart from the log gives back every promise and
    every accepted entry of the slots nothing is owed for and invents none, and
    that a replica never gives two candidates its vote in one term. *)

From stdpp Require Import prelude gmap sorting list.
From Stdlib Require Import ZArith Lia.
From S2P Require Import Prelude Roles Bytes KvOp Learner Acceptor WalRecord WalReplay.

Module Replica.
Import KvOp.
Import (hints) WalRecord.

(** ** State *)

Inductive PxLocalReplicaRole := Follower | PreCandidate | Candidate | Leader.

#[export] Instance PxLocalReplicaRole_eq_dec : EqDecision PxLocalReplicaRole.
Proof. solve_decision. Defined.

Definition role_as_u8 (r : PxLocalReplicaRole) : Z :=
  match r with Follower => 0 | PreCandidate => 1 | Candidate => 2 | Leader => 3 end.

Definition role_from_u8 (v : Z) : PxLocalReplicaRole :=
  if v =? 0 then Follower else if v =? 1 then PreCandidate
  else if v =? 2 then Candidate else if v =? 3 then Leader else Follower.

Record ElectionPersistentState := mkElection {
  current_term : Z;
  voted_for : option Z;
  role : PxLocalReplicaRole;
  leader_id : option Z;
  vote_lockout_until : Z;
}.

Definition initial_election (id : Z) (r : PxLocalReplicaRole) (now : Z) : ElectionPersistentState :=
  mkElection 0 None r (if decide (r = Leader) then Some id else None) now.

(** [LeaseState], its two clocks. *)
Record LeaseState := mkLease { lease_read_until : Z; last_quorum_heartbeat_at : Z }.

(** The attached log: its group and what was appended.  [owed] is not in the code:
    the records whose append failed or has not run yet. *)
Record Wal := mkWal {
  wal_group_id : Z;
  wal_log : list WalRecord.WALRecord;
  snapshot_slot : Z;
  owed : list WalRecord.WALRecord;
}.

Record PxLocalReplica (E : Type) := mkReplica {
  id : Z;
  voting : bool;
  acceptor : Acceptor.PxAcceptor;
  learner : Learner.PxLearner E;
  election : ElectionPersistentState;
  current_term_atomic : Z;
  role_atomic : Z;
  lease : LeaseState;
  lease_duration_ms : Z;
  wal : option Wal;
  known_commit_slot : Z;
  gap_slots : gset Z;
  fetchgap_inflight : Z;
}.
Arguments mkReplica {E}.
Arguments id {E}.
Arguments voting {E}.
Arguments acceptor {E}.
Arguments learner {E}.
Arguments election {E}.
Arguments current_term_atomic {E}.
Arguments role_atomic {E}.
Arguments lease {E}.
Arguments lease_duration_ms {E}.
Arguments wal {E}.
Arguments known_commit_slot {E}.
Arguments gap_slots {E}.
Arguments fetchgap_inflight {E}.

(** ** Messages *)

Record VoteRequestPayload := mkVoteReq {
  vr_term : Z;
  candidate_id : Z;
  accepted_log_tip_slot : Z;
  accepted_log_tip_term : Z;
}.

Record VoteReply := mkVoteReply {
  vote_term : Z;
  granted : bool;
  vote_contiguous_chosen : Z;
  vote_last_chosen_term : Z;
  vote_highest_seen_slot : Z;
}.

Record HeartbeatRequestPayload := mkHeartbeat {
  hb_term : Z;
  hb_leader_id : Z;
  committed_safe_slot : Z;
}.

Record HeartbeatReply := mkHeartbeatReply {
  hbr_term : Z;
  success : bool;
  hbr_contiguous_chosen : Z;
  hbr_last_chosen_term : Z;
  hbr_contiguous_applied : Z;
  hbr_highest_seen_slot : Z;
  durable_snapshot_slot : Z;
}.

Record StepDownRequestPayload := mkStepDown { sd_term : Z; target_leader_id : Z }.

Record StepDownReply := mkStepDownReply {
  sd_accepted : bool;
  sd_current_term : Z;
  current_leader_id : Z;
}.

Section replica.
Context {E : Type} `{!KVEngine E}.
Abbreviation PxLocalReplica := (PxLocalReplica E).

(** ** Construction *)

Definition new_with_learner (rid : Z) (r : PxLocalReplicaRole) (l : Learner.PxLearner E)
  (default_lease now : Z) : PxLocalReplica :=
  mkReplica rid true Acceptor.new l (initial_election rid r now) 0 (role_as_u8 r)
    (mkLease now now) default_lease None 0 ∅ 0.

Definition set_acceptor (r : PxLocalReplica) (a : Acceptor.PxAcceptor) : PxLocalReplica :=
  mkReplica (id r) (voting r) a (learner r) (election r) (current_term_atomic r) (role_atomic r)
    (lease r) (lease_duration_ms r) (wal r) (known_commit_slot r) (gap_slots r) (fetchgap_inflight r).

Definition set_learner (r : PxLocalReplica) (l : Learner.PxLearner E) : PxLocalReplica :=
  mkReplica (id r) (voting r) (acceptor r) l (election r) (current_term_atomic r) (role_atomic r)
    (lease r) (lease_duration_ms r) (wal r) (known_commit_slot r) (gap_slots r) (fetchgap_inflight r).

(** The election state with both mirrors. *)
Definition set_election (r : PxLocalReplica) (s : ElectionPersistentState) (term_mirror role_mirror : Z)
  : PxLocalReplica :=
  mkReplica (id r) (voting r) (acceptor r) (learner r) s term_mirror role_mirror
    (lease r) (lease_duration_ms r) (wal r) (known_commit_slot r) (gap_slots r) (fetchgap_inflight r).

Definition set_lease (r : PxLocalReplica) (l : LeaseState) : PxLocalReplica :=
  mkReplica (id r) (voting r) (acceptor r) (learner r) (election r) (current_term_atomic r) (role_atomic r)
    l (lease_duration_ms r) (wal r) (known_commit_slot r) (gap_slots r) (fetchgap_inflight r).

Definition set_wal (r : PxLocalReplica) (w : option Wal) : PxLocalReplica :=
  mkReplica (id r) (voting r) (acceptor r) (learner r) (election r) (current_term_atomic r) (role_atomic r)
    (lease r) (lease_duration_ms r) w (known_commit_slot r) (gap_slots r) (fetchgap_inflight r).

Definition set_apply (r : PxLocalReplica) (known : Z) (gaps : gset Z) (inflight : Z) : PxLocalReplica :=
  mkReplica (id r) (voting r) (acceptor r) (learner r) (election r) (current_term_atomic r) (role_atomic r)
    (lease r) (lease_duration_ms r) (wal r) known gaps inflight.

(** [new_inheriting_election_state]: the rebuild of a group keeps acceptor,
    learner and election state, and starts the rest afresh. *)
Definition new_inheriting_election_state (prior : PxLocalReplica) (now : Z) : PxLocalReplica :=
  mkReplica (id prior) (voting prior) (acceptor prior) (learner prior) (election prior)
    (current_term (election prior)) (role_as_u8 (role (election prior))) (mkLease now now)
    (lease_duration_ms prior) (wal prior) 0 ∅ 0.

(** ** Log *)

(** [wal.append(&record)]; a failure is only logged, and the record stays owed. *)
Definition wal_append (r : PxLocalReplica) (mk : Z -> WalRecord.WALRecord) (wal_ok : bool) : PxLocalReplica :=
  match wal r with
  | Some w =>
      let rec := mk (wal_group_id w) in
      set_wal r (Some (if wal_ok then mkWal (wal_group_id w) (wal_log w ++ [rec]) (snapshot_slot w) (owed w)
                       else mkWal (wal_group_id w) (wal_log w) (snapshot_slot w) (owed w ++ [rec])))
  | None => r
  end.

(** An append that runs after the answer: the task of [spawn_accept_persist]. *)
Definition append_owed (r : PxLocalReplica) (i : nat) : PxLocalReplica :=
  match wal r with
  | Some w =>
      match owed w !! i with
      | Some rec => set_wal r (Some (mkWal (wal_group_id w) (wal_log w ++ [rec]) (snapshot_slot w) (delete i (owed w))))
      | None => r
      end
  | None => r
  end.

(** ** Role transitions *)

(** [with_election_state]: the term mirror follows the state. *)
Definition with_election_state (r : PxLocalReplica)
  (f : ElectionPersistentState -> ElectionPersistentState) : PxLocalReplica :=
  let s := f (election r) in set_election r s (current_term s) (role_atomic r).

Definition store_role (r : PxLocalReplica) (x : PxLocalReplicaRole) : PxLocalReplica :=
  set_election r (election r) (current_term_atomic r) (role_as_u8 x).

Definition reset_lease_to (r : PxLocalReplica) (now : Z) : PxLocalReplica := set_lease r (mkLease now now).

Definition become_follower (now : Z) (r : PxLocalReplica) (new_term : Z) : PxLocalReplica :=
  let r := with_election_state r (fun s =>
    let '(t, v) := if current_term s <? new_term then (new_term, None) else (current_term s, voted_for s) in
    mkElection t v Follower None (vote_lockout_until s)) in
  reset_lease_to (store_role r Follower) now.

Definition become_precandidate (r : PxLocalReplica) : PxLocalReplica :=
  store_role (with_election_state r (fun s =>
    mkElection (current_term s) (voted_for s) PreCandidate (leader_id s) (vote_lockout_until s))) PreCandidate.

Definition become_candidate (now : Z) (r : PxLocalReplica) (new_term : Z) : PxLocalReplica :=
  store_role (with_election_state r (fun s =>
    mkElection new_term (Some (id r)) Candidate (leader_id s) (now + lease_duration_ms r))) Candidate.

Definition become_leader (now : Z) (r : PxLocalReplica) : PxLocalReplica :=
  reset_lease_to (store_role (with_election_state r (fun s =>
    mkElection (current_term s) (voted_for s) Leader (Some (id r)) (vote_lockout_until s))) Leader) now.

Definition is_leader (r : PxLocalReplica) : bool := bool_decide (role_from_u8 (role_atomic r) = Leader).

(** ** Lease *)

Definition extend_lease_read_until (r : PxLocalReplica) (candidate : Z) : PxLocalReplica :=
  set_lease r (mkLease (Z.max (lease_read_until (lease r)) candidate) (last_quorum_heartbeat_at (lease r))).

Definition record_quorum_heartbeat (r : PxLocalReplica) (now : Z) : PxLocalReplica :=
  set_lease r (mkLease (lease_read_until (lease r)) now).

(** [lease_dur.saturating_sub(skew)] *)
Definition renew_lease (now : Z) (r : PxLocalReplica) (t_send cfg_lease_ms cfg_skew_ms : Z) : PxLocalReplica :=
  record_quorum_heartbeat (extend_lease_read_until r (t_send + Z.max 0 (cfg_lease_ms - cfg_skew_ms))) now.

Definition lease_read_valid (r : PxLocalReplica) (now : Z) : bool :=
  is_leader r && (now <? lease_read_until (lease r)).

(** ** Election handlers *)

Definition persist_current_vote (r : PxLocalReplica) (wal_ok : bool) : PxLocalReplica :=
  wal_append r (fun gid => WalRecord.from_vote_granted gid (current_term_atomic r)
                             (default (id r) (voted_for (election r)))) wal_ok.

Definition frontier_triple (r : PxLocalReplica) : Z * Z * Z :=
  (Learner.contiguous_chosen (learner r), Learner.last_chosen_term (learner r),
   Acceptor.highest_seen_slot (acceptor r)).

Definition accepted_log_tip (r : PxLocalReplica) : Z * Z :=
  default (0, 0) (Acceptor.accepted_log_tip (acceptor r)).

(** [(req.term, req.slot) >= (my_term, my_slot)] *)
Definition candidate_log_up_to_date (r : PxLocalReplica) (req : VoteRequestPayload) : bool :=
  let '(my_slot, my_term) := accepted_log_tip r in
  (my_term <? accepted_log_tip_term req)
    || ((my_term =? accepted_log_tip_term req) && (my_slot <=? accepted_log_tip_slot req)).

Definition lockout_ok (now : Z) (r : PxLocalReplica) : bool :=
  (vote_lockout_until (election r) <=? now)
    && (negb (bool_decide (role (election r) = Leader)) || (lease_read_until (lease r) <=? now)).

Definition vote_reply (r : PxLocalReplica) (t : Z) (g : bool) : VoteReply :=
  let '(c, l, h) := frontier_triple r in mkVoteReply t g c l h.

Definition handle_pre_vote (now : Z) (r : PxLocalReplica) (req : VoteRequestPayload) : VoteReply :=
  let g := (current_term (election r) <? vr_term req) && candidate_log_up_to_date r req && lockout_ok now r in
  vote_reply r (current_term (election r)) g.

Definition handle_request_vote (now : Z) (wal_ok : bool) (r : PxLocalReplica) (req : VoteRequestPayload)
  : PxLocalReplica * VoteReply :=
  let s := election r in
  let term_ok := (current_term s <? vr_term req)
    || ((vr_term req =? current_term s)
        && match voted_for s with None => true | Some v => v =? candidate_id req end) in
  if term_ok && candidate_log_up_to_date r req && lockout_ok now r then
    let s1 := if current_term s <? vr_term req
              then mkElection (vr_term req) None Follower None (vote_lockout_until s) else s in
    let s2 := mkElection (current_term s1) (Some (candidate_id req)) (role s1) (leader_id s1)
                (now + lease_duration_ms r) in
    let r := set_election r s2 (current_term s2) (role_as_u8 Follower) in
    let r := persist_current_vote r wal_ok in
    (r, vote_reply r (current_term s2) true)
  else (r, vote_reply r (current_term s) false).

Definition advance_known_commit_slot (r : PxLocalReplica) (s : Z) : PxLocalReplica :=
  set_apply r (Z.max (known_commit_slot r) s) (gap_slots r) (fetchgap_inflight r).

Definition heartbeat_reply (r : PxLocalReplica) (t : Z) (ok : bool) : HeartbeatReply :=
  let '(c, l, h) := frontier_triple r in
  mkHeartbeatReply t ok c l (Learner.contiguous_applied (learner r)) h
    (match wal r with Some w => snapshot_slot w | None => 0 end).

Definition handle_heartbeat (now : Z) (r : PxLocalReplica) (req : HeartbeatRequestPayload)
  : PxLocalReplica * HeartbeatReply :=
  let s := election r in
  if hb_term req <? current_term s then (r, heartbeat_reply r (current_term s) false)
  else
    let '(t, v) := if current_term s <? hb_term req then (hb_term req, None) else (current_term s, voted_for s) in
    let s' := mkElection t v Follower (Some (hb_leader_id req)) (now + lease_duration_ms r) in
    let r := set_election r s' t (role_as_u8 Follower) in
    let r := advance_known_commit_slot r (committed_safe_slot req) in
    (r, heartbeat_reply r t true).

Definition handle_step_down (now : Z) (r : PxLocalReplica) (req : StepDownRequestPayload)
  : PxLocalReplica * StepDownReply :=
  let s := election r in
  let ok := bool_decide (role s = Leader) && (id r =? target_leader_id req) && (sd_term req =? current_term s) in
  ((if ok then become_follower now r (current_term s) else r),
   mkStepDownReply ok (current_term s) (default 0 (leader_id s))).

(** ** Prepare and accept *)

(** The term fence shared by both handlers: refuse, or adopt a higher term. *)
Definition term_fence (now : Z) (r : PxLocalReplica) (t : Z) : option PxLocalReplica :=
  if t <? current_term_atomic r then None
  else Some (if current_term_atomic r <? t then become_follower now r t else r).

Definition on_prepare (now : Z) (wal_ok : bool) (r : PxLocalReplica) (s : Z) (b : PxBallot) (t : Z)
  : PxLocalReplica * PxPrepareReply :=
  match term_fence now r t with
  | None => (r, PrepareTermStale s (current_term_atomic r))
  | Some r =>
      let '(a, reply) := Acceptor.prepare (acceptor r) s b in
      let r := set_acceptor r a in
      match reply with
      | Promised _ _ => (wal_append r (fun gid => WalRecord.from_promised gid t s b) wal_ok, reply)
      | _ => (r, reply)
      end
  end.

Definition on_accept_inner (now : Z) (r : PxLocalReplica) (e : PxLogEntry) : PxLocalReplica * PxAcceptReply :=
  match term_fence now r (term e) with
  | None => (r, AcceptTermStale (slot e) (current_term_atomic r))
  | Some r => let '(a, reply) := Acceptor.accept (acceptor r) e in (set_acceptor r a, reply)
  end.

(** Also the body of the task [spawn_accept_persist] detaches. *)
Definition on_accept_persist (wal_ok : bool) (r : PxLocalReplica) (e : PxLogEntry) : PxLocalReplica :=
  wal_append r (fun gid => WalRecord.from_accepted gid e) wal_ok.

Definition on_accept (now : Z) (wal_ok : bool) (r : PxLocalReplica) (e : PxLogEntry)
  : PxLocalReplica * PxAcceptReply :=
  let '(r, reply) := on_accept_inner now r e in
  match reply with
  | Accepted _ _ => (on_accept_persist wal_ok r e, reply)
  | _ => (r, reply)
  end.

(** ** Learning *)

Definition learn_chosen (r : PxLocalReplica) (e : PxLogEntry) (ids : list RequestIdentity) : PxLocalReplica :=
  set_learner r (Learner.learn (learner r) e ids).

Definition record_gap (r : PxLocalReplica) (s : Z) : PxLocalReplica :=
  set_apply r (known_commit_slot r) ({[s]} ∪ gap_slots r) (fetchgap_inflight r).

Definition note_chosen (r : PxLocalReplica) (s t : Z) : PxLocalReplica :=
  set_learner r (Learner.note_chosen (learner r) s t).1.

(** [handle_chosen_notice], and one slot of [handle_batch_chosen]: the frontier
    advances only if the local value was accepted at the announced ballot. *)
Definition handle_chosen_notice (r : PxLocalReplica) (s t : Z) (chosen : PxBallot) : PxLocalReplica :=
  match Acceptor.accepted_at (acceptor r) s with
  | Some e => if bool_decide (ballot e = chosen)
              then set_learner r (Learner.update_chosen_frontier (learner r) s t)
              else record_gap (note_chosen r s t) s
  | None => record_gap (note_chosen r s t) s
  end.

(** [for slot in start_slot..=end_slot] *)
Definition handle_batch_chosen (r : PxLocalReplica) (start_slot end_slot t : Z) (chosen : PxBallot)
  : PxLocalReplica :=
  foldl (fun r s => handle_chosen_notice r s t chosen) r (seqZ start_slot (end_slot - start_slot + 1)).

Definition MAX_INFLIGHT_FETCHGAP : Z := 16.

(** The lowest gaps, as many as the in-flight budget allows. *)
Definition drain_gaps_for_fetchgap (r : PxLocalReplica) : PxLocalReplica * list Z :=
  let max := Z.max 0 (MAX_INFLIGHT_FETCHGAP - fetchgap_inflight r) in
  let taken := take (Z.to_nat max) (merge_sort Z.le (elements (gap_slots r))) in
  (set_apply r (known_commit_slot r) (gap_slots r ∖ list_to_set taken)
     (fetchgap_inflight r + Z.of_nat (length taken)), taken).

(** The answer to a gap fetch: persist, install, then advance the frontier; a
    failure puts the gap back. *)
Definition fetch_gap_reply (wal_ok : bool) (r : PxLocalReplica) (s : Z) (e : PxLogEntry) : PxLocalReplica :=
  let persisted := match wal r with Some _ => wal_ok | None => true end in
  if negb persisted then record_gap r s
  else
    let r := wal_append r (fun gid => WalRecord.from_accepted gid e) true in
    let '(a, ok) := Acceptor.install_chosen (acceptor r) e in
    let r := set_acceptor r a in
    if ok then set_learner r (Learner.update_chosen_frontier (learner r) (slot e) (term e))
    else record_gap r s.

Definition MAX_APPLY_PER_BATCH : Z := 64.

(** One slot of the apply loop. *)
Definition apply_slot (r : PxLocalReplica) (next : Z) : PxLocalReplica :=
  if (next <=? known_commit_slot r) || Learner.is_chosen (learner r) next then
    match Acceptor.accepted_at (acceptor r) next with
    | Some e => set_learner r (Learner.apply_and_advance (learner r) (slot e) (payload e))
    | None => record_gap r next
    end
  else r.

(** One turn of [apply_loop_task]: [None] when it waits to be notified. *)
Definition apply_turn (r : PxLocalReplica) : option PxLocalReplica :=
  let target := Z.max (known_commit_slot r) (Learner.last_chosen_slot (learner r)) in
  let current := Learner.contiguous_applied (learner r) in
  if target <=? current then None
  else
    let next := current + 1 in
    let last := Z.min target (next + MAX_APPLY_PER_BATCH - 1) in
    Some (foldl apply_slot r (seqZ next (last - next + 1))).

(** ** Restart *)

Definition is_type (t : WalRecord.RecordType) (rec : WalRecord.WALRecord) : bool :=
  bool_decide (WalRecord.record_type rec = t).

(** First every accepted record ([to_log_entry] fails only on other kinds), then
    every promise. *)
Definition restore_acceptor (records : list WalRecord.WALRecord) : Acceptor.PxAcceptor :=
  let a := foldl (fun a rec => match WalRecord.to_log_entry rec with
                               | Some e => (Acceptor.accept a e).1
                               | None => a
                               end) Acceptor.new (List.filter (is_type WalRecord.RAccepted) records) in
  foldl (fun a rec => (Acceptor.prepare a (WalRecord.slot rec) (WalRecord.ballot rec)).1) a
    (List.filter (is_type WalRecord.RPromised) records).

(** Walk the slots above the engine's durable prefix and learn what was accepted. *)
Definition restore_learner (a : Acceptor.PxAcceptor) (l : Learner.PxLearner E) (resume_from : Z)
  : Learner.PxLearner E :=
  let l := if 0 <? resume_from
           then Learner.seed_resume_frontier l resume_from
                  (match Acceptor.accepted_at a resume_from with Some e => term e | None => 0 end)
           else l in
  let start := if 0 <? resume_from then Z.min u64_max (resume_from + 1) else 1 in
  foldl (fun l s => match Acceptor.accepted_at a s with Some e => Learner.learn l e [] | None => l end) l
    (seqZ start (Acceptor.highest_seen_slot a - start + 1)).

Definition restore_from_replay_with_engine (rid : Z) (x : PxLocalReplicaRole) (default_lease now : Z)
  (replay : WalReplay.ReplayResult) (engine : E) (resume_from : Z) : PxLocalReplica :=
  let r := new_with_learner rid x (Learner.with_engine engine) default_lease now in
  let a := restore_acceptor (WalReplay.res_records replay) in
  let s := mkElection (WalReplay.res_current_term replay) (WalReplay.res_voted_for replay) x
             (if decide (x = Leader) then Some rid else None) (vote_lockout_until (election r)) in
  let r := set_election (set_acceptor r a) s (current_term s) (role_as_u8 x) in
  set_learner r (restore_learner a (learner r) resume_from).

End replica.

(** ** What the log says of a slot *)

(** The highest of an optional ballot and another. *)
Definition bmax (o : option PxBallot) (b : PxBallot) : option PxBallot :=
  Some (match o with Some c => if ballot_ltb c b then b else c | None => b end).

Definition slot_records (s : Z) (log : list WalRecord.WALRecord) : list WalRecord.WALRecord :=
  List.filter (fun r => negb (WalReplay.is_vote r) && (WalRecord.slot r =? s)) log.

(** The slot a log describes: the accepted record of highest ballot and the
    highest ballot of any record. *)
Definition rebuild (s : Z) (log : list WalRecord.WALRecord) : Acceptor.slot_state :=
  Acceptor.mkSlot (foldl bmax None (WalRecord.ballot <$> slot_records s log))
    (r ← foldl WalReplay.keep_highest None (WalReplay.key_records (s, WalRecord.as_u8 WalRecord.RAccepted) log);
     WalRecord.to_log_entry r).

Lemma slot_records_app s l k : slot_records s (l ++ k) = slot_records s l ++ slot_records s k.
Proof. unfold slot_records. by rewrite List.filter_app. Qed.

Lemma key_records_app k l l' :
  WalReplay.key_records k (l ++ l') = WalReplay.key_records k l ++ WalReplay.key_records k l'.
Proof. unfold WalReplay.key_records. by rewrite List.filter_app. Qed.

Lemma bmax_spec l : forall o,
  match foldl bmax o l with
  | None => o = None /\ l = []
  | Some b => (o = Some b \/ b ∈ l) /\ (forall x, x ∈ l -> x <=b b) /\ (forall x, o = Some x -> x <=b b)
  end.
Proof.
  induction l as [|y l IH]; intros o; simpl.
  { destruct o; [|done]. split_and!; [auto|set_solver|]. intros ? [= ->]. eauto with crowdb. }
  specialize (IH (bmax o y)). destruct (foldl bmax (bmax o y) l) as [t|].
  - destruct IH as (H1 & H2 & H3). unfold bmax in H1, H3. specialize (H3 _ eq_refl).
    assert (Hy : y <=b t /\ forall x, o = Some x -> x <=b t).
    { destruct o as [z|]; [|naive_solver]. revert H3. bcase_step; intros H3; split; try done; try bsolve;
        intros ? [= ->]; done || bsolve. }
    destruct Hy as [Hy Ho]. split_and!; [| |done].
    + destruct H1 as [H1|H1]; [|set_solver]. destruct o as [z|]; simplify_eq; [|set_solver].
      destruct (ballot_ltb z y); set_solver.
    + intros x [->|Hx]%elem_of_cons; auto.
  - destruct IH as [IH _]. by destruct o.
Qed.

Lemma elem_of_slot_records s log r :
  r ∈ slot_records s log <-> r ∈ log /\ WalReplay.is_vote r = false /\ WalRecord.slot r = s.
Proof.
  unfold slot_records. rewrite list_elem_of_In, List.filter_In, <- list_elem_of_In, andb_true_iff, negb_true_iff,
    Z.eqb_eq. done.
Qed.

(** Every record of a slot is at or below its rebuilt promise. *)
Lemma rebuild_promise s log r :
  r ∈ slot_records s log ->
  exists b, Acceptor.promised (rebuild s log) = Some b /\ WalRecord.ballot r <=b b.
Proof.
  intros Hr. simpl. pose proof (bmax_spec (WalRecord.ballot <$> slot_records s log) None) as H.
  destruct (foldl bmax None _) as [b|].
  - exists b. split; [done|]. destruct H as (_ & H & _). apply H. by apply list_elem_of_fmap_2.
  - destruct H as [_ H]. apply fmap_nil_inv in H. rewrite H in Hr. by apply not_elem_of_nil in Hr.
Qed.

(** A record that is not about the slot changes nothing. *)
Lemma rebuild_other s log r :
  WalReplay.is_vote r = true \/ WalRecord.slot r <> s -> rebuild s (log ++ [r]) = rebuild s log.
Proof.
  intros H. unfold rebuild. rewrite slot_records_app, key_records_app.
  assert (slot_records s [r] = []) as ->.
  { unfold slot_records. simpl. destruct (WalReplay.is_vote r); [done|].
    rewrite (proj2 (Z.eqb_neq _ _)); [done|]. by destruct H. }
  assert (WalReplay.key_records (s, WalRecord.as_u8 WalRecord.RAccepted) [r] = []) as ->.
  { unfold WalReplay.key_records. simpl. destruct (WalReplay.is_vote r); [done|]. simpl.
    rewrite bool_decide_eq_false_2; [done|]. unfold WalReplay.record_key. intros [= ? ?]. by destruct H. }
  by rewrite !app_nil_r.
Qed.

Lemma rebuild_promised s log gid t b :
  rebuild s (log ++ [WalRecord.from_promised gid t s b]) =
    Acceptor.mkSlot (bmax (Acceptor.promised (rebuild s log)) b) (Acceptor.accepted (rebuild s log)).
Proof.
  set (r := WalRecord.from_promised gid t s b).
  unfold rebuild. rewrite slot_records_app, key_records_app.
  assert (slot_records s [r] = [r]) as -> by (unfold slot_records; simpl; by rewrite Z.eqb_refl).
  assert (WalReplay.key_records (s, WalRecord.as_u8 WalRecord.RAccepted) [r] = []) as ->.
  { unfold WalReplay.key_records. simpl. by rewrite bool_decide_eq_false_2. }
  rewrite app_nil_r, fmap_app, foldl_app. done.
Qed.

Lemma rebuild_accepted log gid e :
  rebuild (slot e) (log ++ [WalRecord.from_accepted gid e]) =
    Acceptor.mkSlot (bmax (Acceptor.promised (rebuild (slot e) log)) (ballot e))
      (r ← WalReplay.keep_highest
             (foldl WalReplay.keep_highest None
                (WalReplay.key_records (slot e, WalRecord.as_u8 WalRecord.RAccepted) log))
             (WalRecord.from_accepted gid e);
       WalRecord.to_log_entry r).
Proof.
  set (r := WalRecord.from_accepted gid e).
  unfold rebuild. rewrite slot_records_app, key_records_app.
  assert (slot_records (slot e) [r] = [r]) as -> by (unfold slot_records; simpl; by rewrite Z.eqb_refl).
  assert (WalReplay.key_records (slot e, WalRecord.as_u8 WalRecord.RAccepted) [r] = [r]) as ->.
  { unfold WalReplay.key_records. simpl. by rewrite bool_decide_eq_true_2. }
  rewrite fmap_app, !foldl_app. done.
Qed.

(** The accepted record of highest ballot, if any. *)
Lemma best_accepted s log :
  match foldl WalReplay.keep_highest None (WalReplay.key_records (s, WalRecord.as_u8 WalRecord.RAccepted) log) with
  | Some r => r ∈ slot_records s log /\ WalRecord.record_type r = WalRecord.RAccepted /\
      Acceptor.accepted (rebuild s log) = WalRecord.to_log_entry r
  | None => Acceptor.accepted (rebuild s log) = None
  end.
Proof.
  unfold rebuild. simpl.
  pose proof (WalReplay.keep_highest_spec
    (WalReplay.key_records (s, WalRecord.as_u8 WalRecord.RAccepted) log) None) as H.
  destruct (foldl WalReplay.keep_highest None _) as [r|]; [|done].
  destruct H as ([?|H] & _); [done|]. apply WalReplay.elem_of_key_records in H as (H1 & H2 & H3).
  injection H3 as Hs Ht. split_and!; [by apply elem_of_slot_records|by destruct (WalRecord.record_type r)|done].
Qed.

Lemma to_log_entry_ballot r e : WalRecord.to_log_entry r = Some e -> ballot e = WalRecord.ballot r.
Proof. unfold WalRecord.to_log_entry. case_decide; intros; simplify_eq. done. Qed.

Lemma to_from_accepted gid e : WalRecord.to_log_entry (WalRecord.from_accepted gid e) = Some e.
Proof. by destruct e. Qed.

(** ** Granted requests and their records agree *)

Lemma promise_logged s log gid t b :
  Acceptor.may_promise b (rebuild s log) = true ->
  Acceptor.promise_slot b (rebuild s log) = rebuild s (log ++ [WalRecord.from_promised gid t s b]).
Proof.
  intros Hm. rewrite rebuild_promised. unfold Acceptor.promise_slot. f_equal.
  unfold Acceptor.may_promise in Hm. unfold bmax. destruct (Acceptor.promised (rebuild s log)) as [c|]; [|done].
  f_equal. apply negb_true_iff in Hm. revert Hm. bcase; try done; bsolve.
Qed.

Lemma accept_logged log gid e :
  ballot_zero <b ballot e -> Acceptor.may_accept (ballot e) (rebuild (slot e) log) = true ->
  Acceptor.accept_slot e (rebuild (slot e) log) = rebuild (slot e) (log ++ [WalRecord.from_accepted gid e]).
Proof.
  intros Hz Hm. rewrite rebuild_accepted. unfold Acceptor.accept_slot, Acceptor.may_accept in *. f_equal.
  - unfold bmax. destruct (Acceptor.promised (rebuild (slot e) log)) as [c|]; simpl.
    + by destruct (ballot_ltb c (ballot e)).
    + bcase_step; [done|]. bsolve.
  - pose proof (best_accepted (slot e) log) as Hb.
    destruct (foldl WalReplay.keep_highest None _) as [r|]; simpl; [|by rewrite to_from_accepted].
    destruct Hb as (Hr & _ & _). apply rebuild_promise in Hr as (b & Hb & Hle). rewrite Hb in Hm.
    apply negb_true_iff in Hm. bcase_step; [simpl; by rewrite to_from_accepted|].
    exfalso. revert Hm. bcase_step; [done|]. bsolve.
Qed.

(** The accepted entries of a list of records. *)
Definition storied (log : list WalRecord.WALRecord) (e : PxLogEntry) : Prop :=
  exists r, r ∈ log /\ WalRecord.to_log_entry r = Some e.

(** [e] is the entry [log] has at its slot and ballot, if it has one. *)
Definition agrees (log : list WalRecord.WALRecord) (e : PxLogEntry) : Prop :=
  forall e', storied log e' -> slot e' = slot e -> ballot e' = ballot e -> e' = e.

Definition entries_agree (log : list WalRecord.WALRecord) : Prop := forall e, storied log e -> agrees log e.

Lemma install_logged log gid e :
  ballot_zero <b ballot e -> agrees log e ->
  (Acceptor.install_slot e (rebuild (slot e) log)).1 = rebuild (slot e) (log ++ [WalRecord.from_accepted gid e]).
Proof.
  intros Hz Hag. rewrite rebuild_accepted. unfold Acceptor.install_slot.
  set (x := rebuild (slot e) log) in *.
  assert (Hp : Acceptor.promised (if Acceptor.may_promise (ballot e) x then Acceptor.promise_slot (ballot e) x else x)
    = bmax (Acceptor.promised x) (ballot e)).
  { clearbody x. unfold Acceptor.may_promise, bmax. destruct (Acceptor.promised x) as [c|] eqn:Ec; [|done].
    destruct (ballot_leb_spec (ballot e) c); simpl; [rewrite Ec|]; bcase_step; simpl; f_equal; try done; bsolve. }
  assert (Ha : Acceptor.accepted (if Acceptor.may_promise (ballot e) x then Acceptor.promise_slot (ballot e) x else x)
    = Acceptor.accepted x) by (by destruct (Acceptor.may_promise (ballot e) x)).
  pose proof (best_accepted (slot e) log) as Hb. fold x in Hb. clearbody x.
  destruct (foldl WalReplay.keep_highest None _) as [r|]; simpl.
  - destruct Hb as (Hr & Ht & Hx). rewrite Hx.
    assert (exists acc, WalRecord.to_log_entry r = Some acc) as [acc Hacc].
    { unfold WalRecord.to_log_entry. rewrite Ht. by eexists. }
    rewrite Hacc. rewrite <- (to_log_entry_ballot _ _ Hacc). bcase_step; bcase_step; simpl.
    + assert (acc = e) as ->.
      { apply elem_of_slot_records in Hr as (Hr & _ & Hsl). apply Hag; [by exists r| |bsolve].
        rewrite <- Hsl. unfold WalRecord.to_log_entry in Hacc. case_decide; by simplify_eq/=. }
      rewrite to_from_accepted. destruct (if Acceptor.may_promise _ _ then _ else _) as [pr ac]. simpl in *.
      congruence.
    + rewrite Hacc. destruct (if Acceptor.may_promise _ _ then _ else _) as [pr ac]. simpl in *. congruence.
    + rewrite to_from_accepted. by rewrite Hp.
    + exfalso. bsolve.
  - rewrite Hb. simpl. by rewrite Hp, to_from_accepted.
Qed.

(** ** The order of the records does not matter *)

Lemma storied_perm l l' e : l ≡ₚ l' -> storied l e -> storied l' e.
Proof. intros Hp (r & Hr & He). exists r. by rewrite <- Hp. Qed.

Lemma entries_agree_perm l l' : l ≡ₚ l' -> entries_agree l -> entries_agree l'.
Proof. intros Hp H e He e' He'. apply H; by eapply storied_perm. Qed.

Lemma storied_app l r e : storied (l ++ [r]) e -> storied l e \/ WalRecord.to_log_entry r = Some e.
Proof.
  intros (x & Hx & He). rewrite elem_of_app, list_elem_of_singleton in Hx.
  destruct Hx as [Hx| ->]; [left; by exists x|by right].
Qed.

Lemma entries_agree_app l r :
  entries_agree l -> (forall e, WalRecord.to_log_entry r = Some e -> agrees l e) -> entries_agree (l ++ [r]).
Proof.
  intros H Hr e [He|He]%storied_app e' [He'|He']%storied_app Hs Hb.
  - by apply H.
  - symmetry. by apply (Hr e').
  - by apply (Hr e).
  - congruence.
Qed.

Lemma slot_records_perm s l l' : l ≡ₚ l' -> slot_records s l ≡ₚ slot_records s l'.
Proof.
  unfold slot_records. induction 1 as [|x l l' _ IH|x y l|l1 l2 l3 _ IH1 _ IH2]; simpl; [done|..].
  - by destruct (_ && _); rewrite IH.
  - destruct (_ && _), (_ && _); try done. apply Permutation_swap.
  - by rewrite IH1.
Qed.

Lemma bmax_perm l l' : l ≡ₚ l' -> foldl bmax None l = foldl bmax None l'.
Proof.
  intros Hp. pose proof (bmax_spec l None) as H. pose proof (bmax_spec l' None) as H'.
  destruct (foldl bmax None l) as [b|], (foldl bmax None l') as [b'|].
  - destruct H as ([?|Hb] & Hle & _), H' as ([?|Hb'] & Hle' & _); try done. f_equal.
    rewrite Hp in Hb. rewrite <- Hp in Hb'. specialize (Hle _ Hb'). specialize (Hle' _ Hb). bsolve.
  - destruct H as ([?|Hb] & _); [done|]. destruct H' as [_ ->]. rewrite Hp in Hb. by apply not_elem_of_nil in Hb.
  - destruct H' as ([?|Hb] & _); [done|]. destruct H as [_ ->]. rewrite <- Hp in Hb. by apply not_elem_of_nil in Hb.
  - done.
Qed.

(** ** The restored acceptor *)

(** A fold whose steps each touch one slot, seen from one slot. *)
Lemma slot_at_foldl {X} (f : Acceptor.PxAcceptor -> X -> Acceptor.PxAcceptor) (key : X -> Z)
  (F : Acceptor.slot_state -> X -> Acceptor.slot_state) (l : list X) s :
  (forall a x, x ∈ l -> Acceptor.trim_slot a = 0 -> Acceptor.trim_slot (f a x) = 0 /\
     forall s', Acceptor.slot_at (f a x) s' =
       if decide (s' = key x) then F (Acceptor.slot_at a s') x else Acceptor.slot_at a s') ->
  forall a, Acceptor.trim_slot a = 0 ->
  Acceptor.trim_slot (foldl f a l) = 0 /\
  Acceptor.slot_at (foldl f a l) s = foldl F (Acceptor.slot_at a s) (List.filter (fun x => key x =? s) l).
Proof.
  induction l as [|x l IH]; intros Hf a Ha; simpl; [done|].
  destruct (Hf a x) as [Ht Hs]; [set_solver|done|].
  destruct (IH (fun a y Hy => Hf a y (list_elem_of_further y x l Hy)) (f a x) Ht) as [H1 H2].
  split; [done|]. rewrite H2, Hs. destruct (Z.eqb_spec (key x) s) as [->|Hne].
  - rewrite decide_True by done. done.
  - rewrite decide_False by congruence. done.
Qed.

Lemma accept_slots a e : Acceptor.trim_slot a = 0 -> 0 <= slot e ->
  Acceptor.trim_slot (Acceptor.accept a e).1 = 0 /\ forall s, Acceptor.slot_at (Acceptor.accept a e).1 s =
    if decide (s = slot e)
    then (if Acceptor.may_accept (ballot e) (Acceptor.slot_at a s)
          then Acceptor.accept_slot e (Acceptor.slot_at a s) else Acceptor.slot_at a s)
    else Acceptor.slot_at a s.
Proof.
  intros Ht Hs. rewrite Acceptor.accept_eq, Ht, (proj2 (Z.ltb_ge _ _)) by done. cbv zeta.
  destruct (Acceptor.may_accept _ _) eqn:Em; (split; [done|]); intros s; simpl; rewrite Acceptor.slot_at_put;
    case_decide as Hd; try done; subst s; by rewrite Em.
Qed.

Lemma prepare_slots a s0 b : Acceptor.trim_slot a = 0 -> 0 <= s0 ->
  Acceptor.trim_slot (Acceptor.prepare a s0 b).1 = 0 /\ forall s, Acceptor.slot_at (Acceptor.prepare a s0 b).1 s =
    if decide (s = s0)
    then (if Acceptor.may_promise b (Acceptor.slot_at a s)
          then Acceptor.promise_slot b (Acceptor.slot_at a s) else Acceptor.slot_at a s)
    else Acceptor.slot_at a s.
Proof.
  intros Ht Hs. rewrite Acceptor.prepare_eq, Ht, (proj2 (Z.ltb_ge _ _)) by done. cbv zeta.
  destruct (Acceptor.may_promise _ _) eqn:Em; (split; [done|]); intros s; simpl; rewrite Acceptor.slot_at_put;
    case_decide as Hd; try done; subst s; by rewrite Em.
Qed.

(** The records replay returns for a slot and a kind: the kept one, if any. *)
Lemma replayed_of_kind log t s :
  t <> WalRecord.RVoteGranted ->
  List.filter (fun r => WalRecord.slot r =? s)
    (List.filter (is_type t) (WalReplay.into_records (WalReplay.replayed log))) =
  option_list (foldl WalReplay.keep_highest None (WalReplay.key_records (s, WalRecord.as_u8 t) log)).
Proof.
  intros Ht. set (st := WalReplay.replayed log).
  assert (Hlk : forall k, WalReplay.slots st !! k = foldl WalReplay.keep_highest None (WalReplay.key_records k log))
    by (intros k; unfold st, WalReplay.replayed; rewrite WalReplay.replay_slots; done).
  assert (Hkey : forall k x, WalReplay.slots st !! k = Some x -> WalReplay.is_vote x = false /\ WalReplay.record_key x = k).
  { intros k x. rewrite Hlk. pose proof (WalReplay.keep_highest_spec (WalReplay.key_records k log) None) as H.
    intros E. rewrite E in H. destruct H as ([?|Hin] & _); [done|].
    apply WalReplay.elem_of_key_records in Hin. tauto. }
  rewrite <- Hlk. apply NoDup_option_list.
  - assert (Hv : List.filter (is_type t) (WalReplay.votes st) = []).
    { unfold st, WalReplay.replayed. rewrite WalReplay.replay_votes. simpl. clear -Ht.
      induction log as [|r log' IH]; [done|]. simpl. destruct (WalReplay.is_vote r) eqn:Ev; [|exact IH].
      simpl. unfold is_type at 1. unfold WalReplay.is_vote in Ev. apply bool_decide_eq_true in Ev.
      rewrite bool_decide_eq_false_2 by congruence. exact IH. }
    unfold WalReplay.into_records. rewrite List.filter_app, Hv. simpl.
    do 2 apply NoDup_lfilter. apply NoDup_fmap_2_strong.
    + intros [k1 x1] [k2 x2] H1 H2 E. simpl in E. subst x2.
      rewrite merge_sort_Permutation, elem_of_map_to_list in H1, H2.
      apply Hkey in H1 as [_ <-], H2 as [_ <-]. done.
    + rewrite merge_sort_Permutation. apply NoDup_map_to_list.
  - intros x. rewrite list_elem_of_In, !List.filter_In, <- list_elem_of_In. unfold st.
    rewrite WalReplay.elem_of_into_records. unfold is_type. rewrite bool_decide_eq_true, Z.eqb_eq. fold st. split.
    + intros [[Hx Htx] Hs]. unfold WalReplay.is_vote in Hx. rewrite bool_decide_eq_false_2 in Hx by congruence.
      unfold WalReplay.record_key in Hx. by rewrite Hs, Htx in Hx.
    + intros Hx. destruct (Hkey _ _ Hx) as [Hvx [= Hsx Htx]]. rewrite Hvx.
      unfold WalReplay.record_key. rewrite Hsx, Htx. split_and!; [done| |done].
      apply (f_equal WalRecord.from_u8) in Htx. rewrite !WalRecord.from_as_u8 in Htx. congruence.
Qed.

(** The rebuilt promise from the two kept records. *)
Definition best_of (t : WalRecord.RecordType) (s : Z) (log : list WalRecord.WALRecord) : option WalRecord.WALRecord :=
  foldl WalReplay.keep_highest None (WalReplay.key_records (s, WalRecord.as_u8 t) log).

Lemma best_of_spec t s log :
  t <> WalRecord.RVoteGranted ->
  match best_of t s log with
  | Some r => r ∈ slot_records s log /\ WalRecord.record_type r = t /\
      forall x, x ∈ slot_records s log -> WalRecord.record_type x = t -> WalRecord.ballot x <=b WalRecord.ballot r
  | None => forall x, x ∈ slot_records s log -> WalRecord.record_type x <> t
  end.
Proof.
  intros Ht. unfold best_of.
  pose proof (WalReplay.keep_highest_spec (WalReplay.key_records (s, WalRecord.as_u8 t) log) None) as H.
  assert (Hk : forall x, x ∈ slot_records s log -> WalRecord.record_type x = t ->
    x ∈ WalReplay.key_records (s, WalRecord.as_u8 t) log).
  { intros x Hx <-. apply elem_of_slot_records in Hx as (H1 & H2 & <-). by apply WalReplay.elem_of_key_records. }
  destruct (foldl WalReplay.keep_highest None _) as [r|].
  - destruct H as ([?|Hr] & Hle & _); [done|]. apply WalReplay.elem_of_key_records in Hr as (H1 & H2 & [= H3 H4]).
    apply (f_equal WalRecord.from_u8) in H4. rewrite !WalRecord.from_as_u8 in H4. injection H4 as H4.
    split_and!; [by apply elem_of_slot_records|done|auto].
  - destruct H as [_ H]. intros x Hx Hxt. specialize (Hk x Hx Hxt). rewrite H in Hk.
    by apply not_elem_of_nil in Hk.
Qed.

Lemma rebuild_perm s l l' : l ≡ₚ l' -> entries_agree l -> rebuild s l = rebuild s l'.
Proof.
  intros Hp Hag. pose proof (slot_records_perm s _ _ Hp) as Hs. unfold rebuild. f_equal.
  { apply bmax_perm. by rewrite Hs. }
  fold (best_of WalRecord.RAccepted s l) (best_of WalRecord.RAccepted s l').
  pose proof (best_of_spec WalRecord.RAccepted s l ltac:(done)) as H.
  pose proof (best_of_spec WalRecord.RAccepted s l' ltac:(done)) as H'.
  destruct (best_of WalRecord.RAccepted s l) as [r|], (best_of WalRecord.RAccepted s l') as [r'|]; simpl.
  - destruct H as (Hr & Ht & Hle), H' as (Hr' & Ht' & Hle').
    pose proof Hr as Hr2. rewrite Hs in Hr2. pose proof Hr' as Hr2'. rewrite <- Hs in Hr2'.
    assert (WalRecord.ballot r = WalRecord.ballot r') as Hb.
    { specialize (Hle r' Hr2' Ht'). specialize (Hle' r Hr2 Ht). bsolve. }
    apply elem_of_slot_records in Hr as (Hr & _ & Hsl), Hr2' as (Hr2' & _ & Hsl').
    destruct (WalRecord.to_log_entry r) as [e|] eqn:Ee, (WalRecord.to_log_entry r') as [e'|] eqn:Ee'.
    + f_equal. apply (Hag e'); [by exists r'|by exists r| |].
      * unfold WalRecord.to_log_entry in Ee, Ee'. case_decide; case_decide; by simplify_eq/=.
      * by rewrite (to_log_entry_ballot _ _ Ee), (to_log_entry_ballot _ _ Ee').
    + unfold WalRecord.to_log_entry in Ee'. case_decide; done.
    + unfold WalRecord.to_log_entry in Ee. case_decide; done.
    + done.
  - destruct H as (Hr & Ht & _). rewrite Hs in Hr. by destruct (H' r Hr).
  - destruct H' as (Hr & Ht & _). rewrite <- Hs in Hr. by destruct (H r' Hr).
  - done.
Qed.

Lemma rebuild_promise_best s log :
  Acceptor.promised (rebuild s log) =
    match best_of WalRecord.RAccepted s log, best_of WalRecord.RPromised s log with
    | None, None => None
    | Some a, None => Some (WalRecord.ballot a)
    | None, Some p => Some (WalRecord.ballot p)
    | Some a, Some p => if ballot_ltb (WalRecord.ballot a) (WalRecord.ballot p)
                        then Some (WalRecord.ballot p) else Some (WalRecord.ballot a)
    end.
Proof.
  simpl. pose proof (bmax_spec (WalRecord.ballot <$> slot_records s log) None) as H.
  pose proof (best_of_spec WalRecord.RAccepted s log ltac:(done)) as Ha.
  pose proof (best_of_spec WalRecord.RPromised s log ltac:(done)) as Hp.
  assert (Hle : forall b r, foldl bmax None (WalRecord.ballot <$> slot_records s log) = Some b ->
    r ∈ slot_records s log -> WalRecord.ballot r <=b b).
  { intros b r E Hr. rewrite E in H. destruct H as (_ & H & _). apply H. by apply list_elem_of_fmap_2. }
  destruct (foldl bmax None _) as [b|].
  - destruct H as ([?|Hb] & _); [done|]. apply list_elem_of_fmap in Hb as (r & -> & Hr).
    assert (Hk : WalRecord.record_type r = WalRecord.RAccepted \/ WalRecord.record_type r = WalRecord.RPromised).
    { apply elem_of_slot_records in Hr as (_ & Hv & _). unfold WalReplay.is_vote in Hv.
      apply bool_decide_eq_false in Hv. destruct (WalRecord.record_type r); auto; done. }
    destruct (best_of WalRecord.RAccepted s log) as [ra|], (best_of WalRecord.RPromised s log) as [rp|].
    + destruct Ha as (Ha1 & _ & Ha2), Hp as (Hp1 & _ & Hp2).
      pose proof (Hle _ _ eq_refl Ha1). pose proof (Hle _ _ eq_refl Hp1).
      destruct Hk as [Hk|Hk]; [specialize (Ha2 r Hr Hk)|specialize (Hp2 r Hr Hk)];
        bcase_step; f_equal; bsolve.
    + destruct Ha as (Ha1 & _ & Ha2). pose proof (Hle _ _ eq_refl Ha1).
      destruct Hk as [Hk|Hk]; [specialize (Ha2 r Hr Hk); f_equal; bsolve|]. by destruct (Hp r Hr).
    + destruct Hp as (Hp1 & _ & Hp2). pose proof (Hle _ _ eq_refl Hp1).
      destruct Hk as [Hk|Hk]; [by destruct (Ha r Hr)|]. specialize (Hp2 r Hr Hk). f_equal. bsolve.
    + destruct Hk as [Hk|Hk]; [by destruct (Ha r Hr)|by destruct (Hp r Hr)].
  - destruct H as [_ H]. apply fmap_nil_inv in H. rewrite H in Ha, Hp.
    destruct (best_of WalRecord.RAccepted s log) as [ra|]; [by destruct Ha as [?%not_elem_of_nil _]|].
    destruct (best_of WalRecord.RPromised s log) as [rp|]; [by destruct Hp as [?%not_elem_of_nil _]|done].
Qed.

(** Records whose slot and ballot the restore can use: [u64] slots and ballots
    above the zero ballot. *)
Definition record_sound (r : WalRecord.WALRecord) : Prop :=
  0 <= WalRecord.term r /\
  (WalReplay.is_vote r = false -> 0 <= WalRecord.slot r /\ ballot_zero <b WalRecord.ballot r).

Lemma restored_slot log s :
  Forall record_sound log ->
  let a := restore_acceptor (WalReplay.into_records (WalReplay.replayed log)) in
  Acceptor.trim_slot a = 0 /\ Acceptor.slot_at a s = rebuild s log.
Proof.
  intros Hok. set (recs := WalReplay.into_records (WalReplay.replayed log)).
  assert (Hin : forall t r, r ∈ List.filter (is_type t) recs -> t <> WalRecord.RVoteGranted ->
    WalRecord.record_type r = t /\ record_sound r /\ WalReplay.is_vote r = false).
  { intros t r Hr Ht. rewrite list_elem_of_In, List.filter_In, <- list_elem_of_In in Hr. destruct Hr as [Hr Htr].
    apply bool_decide_eq_true in Htr. unfold recs in Hr.
    assert (Hv : WalReplay.is_vote r = false) by (unfold WalReplay.is_vote; rewrite bool_decide_eq_false_2; congruence).
    split_and!; try done. rewrite Forall_forall in Hok. apply Hok.
    apply WalReplay.elem_of_into_records in Hr. rewrite Hv in Hr.
    unfold WalReplay.replayed in Hr. rewrite WalReplay.replay_slots in Hr.
    change (WalReplay.slots WalReplay.empty_replay !! WalReplay.record_key r) with (@None WalRecord.WALRecord) in Hr.
    pose proof (WalReplay.keep_highest_spec (WalReplay.key_records (WalReplay.record_key r) log) None) as Hk.
    rewrite Hr in Hk. destruct Hk as ([?|Hk] & _); [done|]. by apply WalReplay.elem_of_key_records in Hk as [? _]. }
  unfold restore_acceptor. set (accs := List.filter (is_type WalRecord.RAccepted) recs).
  set (proms := List.filter (is_type WalRecord.RPromised) recs).
  destruct (slot_at_foldl (fun a rec => match WalRecord.to_log_entry rec with
      | Some e => (Acceptor.accept a e).1 | None => a end) WalRecord.slot
    (fun x rec => match WalRecord.to_log_entry rec with
      | Some e => if Acceptor.may_accept (ballot e) x then Acceptor.accept_slot e x else x
      | None => x end) accs s) with (a := Acceptor.new) as [Ht1 Hs1]; [|done|].
  { intros a r Hr Ha. destruct (Hin _ _ Hr) as (Htr & [_ Hsr] & Hvr); [done|]. destruct (Hsr Hvr) as [Hsl _].
    unfold WalRecord.to_log_entry. rewrite decide_True by done.
    destruct (accept_slots a (mkEntry (WalRecord.slot r) (WalRecord.ballot r) (WalRecord.term r)
      (WalRecord.payload r)) Ha Hsl) as [H1 H2]. done. }
  destruct (slot_at_foldl (fun a rec => (Acceptor.prepare a (WalRecord.slot rec) (WalRecord.ballot rec)).1)
    WalRecord.slot (fun x rec => if Acceptor.may_promise (WalRecord.ballot rec) x
      then Acceptor.promise_slot (WalRecord.ballot rec) x else x) proms s) with
    (a := foldl (fun a rec => match WalRecord.to_log_entry rec with
      | Some e => (Acceptor.accept a e).1 | None => a end) Acceptor.new accs) as [Ht2 Hs2]; [|done|].
  { intros a r Hr Ha. destruct (Hin _ _ Hr) as (Htr & [_ Hsr] & Hvr); [done|]. destruct (Hsr Hvr) as [Hsl _].
    destruct (prepare_slots a (WalRecord.slot r) (WalRecord.ballot r) Ha Hsl) as [H1 H2]. done. }
  split; [done|]. rewrite Hs2, Hs1.
  assert (Acceptor.slot_at Acceptor.new s = Acceptor.default_slot) as ->.
  { unfold Acceptor.slot_at. simpl. by rewrite lookup_empty. }
  unfold accs, proms, recs. rewrite !replayed_of_kind by done.
  fold (best_of WalRecord.RAccepted s log) (best_of WalRecord.RPromised s log).
  assert (Hr : rebuild s log = Acceptor.mkSlot (Acceptor.promised (rebuild s log))
    (r ← best_of WalRecord.RAccepted s log; WalRecord.to_log_entry r)) by done.
  rewrite Hr, rebuild_promise_best. clear Hr Hs1 Hs2.
  pose proof (best_of_spec WalRecord.RAccepted s log ltac:(done)) as Ha.
  pose proof (best_of_spec WalRecord.RPromised s log ltac:(done)) as Hp.
  assert (Hz : forall r, r ∈ slot_records s log -> ballot_zero <b WalRecord.ballot r).
  { intros r Hr. apply elem_of_slot_records in Hr as (Hr & Hv & _). rewrite Forall_forall in Hok.
    by apply (Hok r Hr). }
  destruct (best_of WalRecord.RAccepted s log) as [ra|], (best_of WalRecord.RPromised s log) as [rp|]; simpl.
  - destruct Ha as (Ha1 & Hat & _), Hp as (Hp1 & _). pose proof (Hz _ Ha1). pose proof (Hz _ Hp1).
    unfold WalRecord.to_log_entry. rewrite Hat, decide_True by done. simpl.
    unfold Acceptor.accept_slot, Acceptor.may_promise. simpl.
    destruct (ballot_ltb_spec ballot_zero (WalRecord.ballot ra)); [|done]. simpl.
    bcase_step; bcase_step; simpl; try done; exfalso; bsolve.
  - destruct Ha as (Ha1 & Hat & _). pose proof (Hz _ Ha1).
    unfold WalRecord.to_log_entry. rewrite Hat, decide_True by done. simpl.
    unfold Acceptor.accept_slot. simpl.
    destruct (ballot_ltb_spec ballot_zero (WalRecord.ballot ra)); done.
  - done.
  - done.
Qed.

(** ** Histories with restarts *)

Section histories.
Context {E : Type} `{!KVEngine E}.
Abbreviation PxLocalReplica := (PxLocalReplica E).

(** Everything that can happen to a replica with a log.  [DoCandidate] is the start
    of an election: [become_candidate], then [persist_current_vote].  [DoPersist]
    appends an owed record late.  [DoTrim] is the acceptor's part of a maintenance
    pass, [trim] and [reclaim]. *)
Inductive event :=
| DoPrepare (now : Z) (wal_ok : bool) (s : Z) (b : PxBallot) (t : Z)
| DoAccept (now : Z) (wal_ok : bool) (e : PxLogEntry)
| DoFetchGap (wal_ok : bool) (s : Z) (e : PxLogEntry)
| DoVote (now : Z) (wal_ok : bool) (req : VoteRequestPayload)
| DoCandidate (now : Z) (wal_ok : bool) (t : Z)
| DoPersist (i : nat)
| DoHeartbeat (now : Z) (req : HeartbeatRequestPayload)
| DoStepDown (now : Z) (req : StepDownRequestPayload)
| DoFollower (now t : Z)
| DoPreCandidate
| DoLeader (now : Z)
| DoChosenNotice (s t : Z) (b : PxBallot)
| DoLearn (e : PxLogEntry) (ids : list RequestIdentity)
| DoApply
| DoTrim (before : Z)
| DoRestart (now : Z) (x : PxLocalReplicaRole) (engine : E) (resume_from : Z).

Definition log_of (r : PxLocalReplica) : list WalRecord.WALRecord :=
  match wal r with Some w => wal_log w | None => [] end.

Definition owed_of (r : PxLocalReplica) : list WalRecord.WALRecord :=
  match wal r with Some w => owed w | None => [] end.

(** Everything the replica answered for, appended or not. *)
Definition story (r : PxLocalReplica) : list WalRecord.WALRecord := log_of r ++ owed_of r.

(** What [replay_group] returns for a log ([replay_recovers_every_append]). *)
Definition replay_of (log : list WalRecord.WALRecord) : WalReplay.ReplayResult :=
  let st := WalReplay.replayed log in
  WalReplay.mkResult (WalReplay.into_records st) WalReplay.empty_index 0
    (WalReplay.current_term st) (WalReplay.voted_for st) [].

(** A new process on the same log; what was owed is lost with the old one. *)
Definition restart (now : Z) (x : PxLocalReplicaRole) (engine : E) (resume_from : Z) (r : PxLocalReplica)
  : PxLocalReplica :=
  set_wal (restore_from_replay_with_engine (id r) x (lease_duration_ms r) now
             (replay_of (log_of r)) engine resume_from)
    (w ← wal r; Some (mkWal (wal_group_id w) (wal_log w) (snapshot_slot w) [])).

Definition exec (r : PxLocalReplica) (o : event) : PxLocalReplica :=
  match o with
  | DoPrepare now ok s b t => (on_prepare now ok r s b t).1
  | DoAccept now ok e => (on_accept now ok r e).1
  | DoFetchGap ok s e => fetch_gap_reply ok r s e
  | DoVote now ok req => (handle_request_vote now ok r req).1
  | DoCandidate now ok t => persist_current_vote (become_candidate now r t) ok
  | DoPersist i => append_owed r i
  | DoHeartbeat now req => (handle_heartbeat now r req).1
  | DoStepDown now req => (handle_step_down now r req).1
  | DoFollower now t => become_follower now r t
  | DoPreCandidate => become_precandidate r
  | DoLeader now => become_leader now r
  | DoChosenNotice s t b => handle_chosen_notice r s t b
  | DoLearn e ids => learn_chosen r e ids
  | DoApply => default r (apply_turn r)
  | DoTrim before => set_acceptor r (Acceptor.reclaim (Acceptor.trim (acceptor r) before)).1
  | DoRestart now x engine resume_from => restart now x engine resume_from r
  end.

(** Arguments as the wire delivers them: [u64]s, and ballots above zero. *)
Definition event_ok (o : event) : Prop :=
  match o with
  | DoPrepare _ _ s b t => 0 <= s /\ ballot_zero <b b /\ 0 <= t
  | DoAccept _ _ e | DoFetchGap _ _ e => 0 <= slot e /\ ballot_zero <b ballot e /\ 0 <= term e
  | DoVote _ _ req => is_u64 (candidate_id req) /\ 0 <= vr_term req
  | DoCandidate _ _ t => 0 <= t
  | _ => True
  end.

(** The entry an event brings. *)
Definition brings (o : event) : option PxLogEntry :=
  match o with DoAccept _ _ e | DoFetchGap _ _ e => Some e | _ => None end.

(** A replica restarts with nothing owed. *)
Definition durable (r : PxLocalReplica) (o : event) : Prop :=
  match o with DoRestart _ _ _ _ => owed_of r = [] | _ => True end.

Definition fresh (rid gid default_lease now : Z) (x : PxLocalReplicaRole) (engine : E) : PxLocalReplica :=
  set_wal (new_with_learner rid x (Learner.with_engine engine) default_lease now) (Some (mkWal gid [] 0 [])).

(** Histories in which every entry a replica is sent is one of [known] and every
    event passes [guard]. *)
Inductive reachable (known : PxLogEntry -> Prop) (guard : PxLocalReplica -> event -> Prop) (rid gid : Z)
  : PxLocalReplica -> Prop :=
| reach_fresh lease now x engine : reachable known guard rid gid (fresh rid gid lease now x engine)
| reach_step r o : reachable known guard rid gid r -> event_ok o -> (forall e, brings o = Some e -> known e) ->
    guard r o -> reachable known guard rid gid (exec r o).

(** Acceptor and records tell the same story of the slots that are not trimmed. *)
Definition acceptor_logged (a : Acceptor.PxAcceptor) (l : list WalRecord.WALRecord) : Prop :=
  (forall s, Acceptor.trim_slot a <= s -> Acceptor.slot_at a s = rebuild s l) /\
  Forall record_sound l /\ entries_agree l.

Lemma acceptor_logged_perm a l l' : l ≡ₚ l' -> acceptor_logged a l -> acceptor_logged a l'.
Proof.
  intros Hp (H1 & H2 & H3). split_and!; [|by rewrite <- Hp|by eapply entries_agree_perm].
  intros s Hs. rewrite H1 by done. by apply rebuild_perm.
Qed.

(** A record that does not concern the open slots. *)
Lemma acceptor_logged_other a l r :
  acceptor_logged a l -> record_sound r -> WalReplay.is_vote r = true \/ WalRecord.slot r < Acceptor.trim_slot a ->
  (forall e, WalRecord.to_log_entry r = Some e -> agrees l e) -> acceptor_logged a (l ++ [r]).
Proof.
  intros (H1 & H2 & H3) Hr Hv Hag. split_and!.
  - intros s Hs. rewrite rebuild_other; [auto|]. destruct Hv as [|Hv]; [auto|right; lia].
  - apply Forall_app. split; [done|]. by apply Forall_singleton.
  - by apply entries_agree_app.
Qed.

(** The acceptor moved at one slot, as the new record says. *)
Lemma acceptor_logged_put a l r x :
  acceptor_logged a l -> record_sound r -> (forall e, WalRecord.to_log_entry r = Some e -> agrees l e) ->
  x = rebuild (WalRecord.slot r) (l ++ [r]) ->
  acceptor_logged (Acceptor.put a (WalRecord.slot r) x) (l ++ [r]).
Proof.
  intros (H1 & H2 & H3) Hr Hag ->. split_and!.
  - intros s Hs. rewrite Acceptor.slot_at_put. case_decide as Hd; [by subst s|].
    rewrite rebuild_other by auto. auto.
  - apply Forall_app. split; [done|]. by apply Forall_singleton.
  - by apply entries_agree_app.
Qed.

(** Opening a slot without changing it. *)
Lemma acceptor_logged_open a l s :
  acceptor_logged a l -> acceptor_logged (Acceptor.put a s (Acceptor.slot_at a s)) l.
Proof.
  intros (H1 & H2 & H3). split_and!; try done. intros s' Hs'. rewrite Acceptor.slot_at_put.
  case_decide; subst; by apply H1.
Qed.

Lemma acceptor_logged_trim a l before :
  acceptor_logged a l -> acceptor_logged (Acceptor.reclaim (Acceptor.trim a before)).1 l.
Proof.
  intros (H1 & H2 & H3). split_and!; try done. intros s Hs.
  unfold Acceptor.slot_at. rewrite Acceptor.reclaim_lookup.
  change (Acceptor.trim_slot (Acceptor.reclaim (Acceptor.trim a before)).1)
    with (Acceptor.trim_slot (Acceptor.trim a before)) in Hs.
  rewrite (proj2 (Z.ltb_ge _ _)) by done. apply H1. simpl in Hs. lia.
Qed.

(** Identity, log and term of a replica. *)
Record replica_base (rid gid : Z) (r : PxLocalReplica) : Prop := {
  ri_id : id r = rid;
  ri_wal : exists w, wal r = Some w /\ wal_group_id w = gid;
  ri_mirror : current_term_atomic r = current_term (election r);
  ri_term : 0 <= current_term (election r);
  ri_terms : Forall (fun rec => 0 <= WalRecord.term rec) (story r);
}.

Definition replica_inv (rid gid : Z) (r : PxLocalReplica) : Prop :=
  replica_base rid gid r /\ acceptor_logged (acceptor r) (story r).

(** What was answered for, after an append that may fail. *)
Lemma story_append rid gid r mk ok :
  replica_base rid gid r -> story (wal_append r mk ok) ≡ₚ story r ++ [mk gid].
Proof.
  intros Hi. destruct (ri_wal _ _ _ Hi) as (w & Hw & <-). unfold story, log_of, owed_of, wal_append. rewrite Hw.
  destruct ok; simpl; [|by rewrite (assoc_L app)].
  rewrite <- !(assoc_L app). f_equiv. apply Permutation_app_comm.
Qed.

Lemma story_append_owed r i : story (append_owed r i) ≡ₚ story r.
Proof.
  unfold story, log_of, owed_of, append_owed. destruct (wal r) as [w|] eqn:Hw; [|by rewrite Hw].
  destruct (owed w !! i) as [rec|] eqn:Hi; [|by rewrite Hw]. simpl.
  rewrite <- (assoc_L app). f_equiv. simpl. symmetry. by apply delete_Permutation.
Qed.

Lemma set_acceptor_story r a mk ok : story (wal_append (set_acceptor r a) mk ok) = story (wal_append r mk ok).
Proof. unfold story, log_of, owed_of, wal_append. simpl. by destruct (wal r). Qed.

(** *** The base *)

Lemma base_election rid gid r r' :
  replica_base rid gid r -> id r' = id r -> wal r' = wal r ->
  current_term_atomic r' = current_term (election r') -> 0 <= current_term (election r') ->
  replica_base rid gid r'.
Proof.
  intros [H1 H2 H3 H4 H5] Hi Hw Hm Ht. constructor; [congruence|by rewrite Hw|done|lia|].
  unfold story, log_of, owed_of in *. by rewrite Hw.
Qed.

Lemma base_append rid gid r mk ok :
  replica_base rid gid r -> 0 <= WalRecord.term (mk gid) -> replica_base rid gid (wal_append r mk ok).
Proof.
  intros Hi Ht. pose proof (story_append rid gid r mk ok Hi) as Hp. pose proof Hi as [H1 (w & Hw & Hg) H3 H4 H5].
  assert (Ht' : Forall (fun rec => 0 <= WalRecord.term rec) (story (wal_append r mk ok)))
    by (rewrite Hp; apply Forall_app; by rewrite Forall_singleton).
  unfold wal_append in *. rewrite Hw in *. constructor; simpl; [done|by destruct ok; eexists|done|done|done].
Qed.

Lemma base_follower rid gid now r t : replica_base rid gid r -> replica_base rid gid (become_follower now r t).
Proof.
  intros H. eapply base_election; [exact H|done|done|done|]. unfold become_follower. simpl.
  pose proof (ri_term _ _ _ H). destruct (Z.ltb_spec (current_term (election r)) t); simpl; lia.
Qed.

Lemma term_fence_base rid gid now r t r' :
  replica_base rid gid r -> term_fence now r t = Some r' ->
  replica_base rid gid r' /\ acceptor r' = acceptor r /\ story r' = story r.
Proof.
  intros Hi. unfold term_fence. destruct (t <? current_term_atomic r); [done|]. intros [= <-].
  destruct (current_term_atomic r <? t); [|done]. split; [by apply base_follower|done].
Qed.

Lemma base_vote rid gid r s' rm ok :
  replica_base rid gid r -> 0 <= current_term s' ->
  replica_base rid gid (persist_current_vote (set_election r s' (current_term s') rm) ok).
Proof.
  intros Hi H0. apply base_append; [|done]. by eapply base_election.
Qed.

Lemma story_restart rid gid now x engine resume_from r :
  replica_base rid gid r -> story (restart now x engine resume_from r) = log_of r.
Proof.
  intros Hi. destruct (ri_wal _ _ _ Hi) as (w & Hw & _). unfold story, log_of, owed_of, restart. rewrite Hw. simpl.
  by rewrite app_nil_r.
Qed.

(** Learner-side events touch neither acceptor, log nor election state. *)
Definition same_core (r r' : PxLocalReplica) : Prop :=
  id r' = id r /\ wal r' = wal r /\ acceptor r' = acceptor r /\ election r' = election r /\
  current_term_atomic r' = current_term_atomic r.

Lemma same_core_base rid gid r r' : replica_base rid gid r -> same_core r r' -> replica_base rid gid r'.
Proof.
  intros Hi (H1 & H2 & H3 & H4 & H5). eapply base_election; eauto; rewrite ?H5, H4; apply Hi.
Qed.

Lemma same_core_story r r' : same_core r r' -> story r' = story r.
Proof. intros (_ & Hw & _). unfold story, log_of, owed_of. by rewrite Hw. Qed.

Lemma chosen_notice_core r s t b : same_core r (handle_chosen_notice r s t b).
Proof.
  unfold handle_chosen_notice. destruct (Acceptor.accepted_at _ _); [case_bool_decide|]; done.
Qed.

Lemma apply_slot_core r s : same_core r (apply_slot r s).
Proof.
  unfold apply_slot. destruct (_ || _); [|done]. by destruct (Acceptor.accepted_at _ _).
Qed.

Lemma apply_turn_core r : same_core r (default r (apply_turn r)).
Proof.
  unfold apply_turn. destruct (_ <=? _); [done|]. simpl. generalize (seqZ (Learner.contiguous_applied (learner r) + 1)
    (Z.min (Z.max (known_commit_slot r) (Learner.last_chosen_slot (learner r)))
      (Learner.contiguous_applied (learner r) + 1 + MAX_APPLY_PER_BATCH - 1) -
      (Learner.contiguous_applied (learner r) + 1) + 1)) as l. intros l. revert r.
  induction l as [|s l IH]; intros r; [done|]. simpl. specialize (IH (apply_slot r s)).
  pose proof (apply_slot_core r s) as Hs. unfold same_core in *. intuition congruence.
Qed.

Lemma append_owed_same (r : PxLocalReplica) i :
  acceptor (append_owed r i) = acceptor r /\ election (append_owed r i) = election r /\
  current_term_atomic (append_owed r i) = current_term_atomic r /\ id (append_owed r i) = id r.
Proof. unfold append_owed. destruct (wal r) as [w|]; [|done]. by destruct (owed w !! i). Qed.

Lemma event_base rid gid r o : replica_base rid gid r -> event_ok o -> replica_base rid gid (exec r o).
Proof.
  intros Hi Ho. pose proof (ri_term _ _ _ Hi).
  destruct o as [now ok s b t|now ok e|ok s e|now ok req|now ok t|i|now req|now req|now t| |now
    |s t b|e ids| |before|now x en rf]; simpl in *.
  - unfold on_prepare. destruct (term_fence now r t) as [r1|] eqn:Ef; [|done].
    apply (term_fence_base _ _ _ _ _ _ Hi) in Ef as (Hi1 & _ & _).
    assert (Hset : forall a, replica_base rid gid (set_acceptor r1 a)) by (intros a; destruct Hi1; by constructor).
    destruct (Acceptor.prepare _ _ _) as [a []]; simpl; [|apply Hset..]. apply base_append; [apply Hset|]. simpl. tauto.
  - unfold on_accept, on_accept_inner. destruct (term_fence now r (term e)) as [r1|] eqn:Ef; [|done].
    apply (term_fence_base _ _ _ _ _ _ Hi) in Ef as (Hi1 & _ & _).
    assert (Hset : forall a, replica_base rid gid (set_acceptor r1 a)) by (intros a; destruct Hi1; by constructor).
    destruct (Acceptor.accept _ _) as [a []]; simpl; [|apply Hset..]. apply base_append; [apply Hset|]. simpl. tauto.
  - unfold fetch_gap_reply. destruct (negb _); [destruct Hi; by constructor|].
    assert (Hb : replica_base rid gid (wal_append r (fun gid => WalRecord.from_accepted gid e) true))
      by (apply base_append; [done|simpl; tauto]).
    destruct (Acceptor.install_chosen _ _) as [a []]; destruct Hb; by constructor.
  - unfold handle_request_vote. destruct (_ && candidate_log_up_to_date r req && lockout_ok now r); [|done].
    cbn [fst]. apply base_vote; [done|]. cbn [current_term]. destruct (_ <? _); simpl; tauto.
  - by apply (base_vote rid gid r (mkElection t (Some (id r)) Candidate (leader_id (election r))
      (now + lease_duration_ms r)) (role_as_u8 Candidate) ok).
  - destruct (append_owed_same r i) as (_ & Ee & Et & Ei). pose proof Hi as [H1 (w & Hw & Hg) H3 H4 H5].
    constructor; rewrite ?Ee, ?Et, ?Ei; [done| |done|done|by rewrite story_append_owed].
    unfold append_owed. rewrite Hw. destruct (owed w !! i); by eexists.
  - unfold handle_heartbeat. destruct (Z.ltb_spec (hb_term req) (current_term (election r))); [done|].
    destruct (Z.ltb_spec (current_term (election r)) (hb_term req)); eapply base_election; simpl; eauto; lia.
  - unfold handle_step_down. destruct (bool_decide _ && _ && _); [|done]. by apply base_follower.
  - by apply base_follower.
  - by eapply base_election.
  - by eapply base_election.
  - eapply same_core_base; [done|]. apply chosen_notice_core.
  - by eapply same_core_base.
  - eapply same_core_base; [done|]. apply apply_turn_core.
  - destruct Hi; by constructor.
  - pose proof Hi as [H1 (w & Hw & Hg) H3 H4 H5].
    destruct (WalReplay.replay_term (log_of r) WalReplay.empty_replay) as (_ & Hz & _).
    constructor; [done|unfold restart; rewrite Hw; by eexists|done|exact Hz|].
    rewrite (story_restart rid gid) by done. unfold story in H5. by apply Forall_app in H5 as [H5 _].
Qed.

(** *** The acceptor *)

(** The acceptor moved as one appended record says. *)
Lemma logged_append rid gid r a mk ok :
  replica_base rid gid r -> acceptor_logged a (story r ++ [mk gid]) ->
  acceptor_logged a (story (wal_append (set_acceptor r a) mk ok)).
Proof.
  intros Hi Ha. rewrite set_acceptor_story. eapply acceptor_logged_perm; [|exact Ha]. symmetry. by eapply story_append.
Qed.

Lemma acceptor_append (r : PxLocalReplica) mk ok : acceptor (wal_append r mk ok) = acceptor r.
Proof. unfold wal_append. by destruct (wal r). Qed.

Lemma on_prepare_logged rid gid now ok r s b t :
  replica_inv rid gid r -> 0 <= s -> ballot_zero <b b -> 0 <= t ->
  let r' := (on_prepare now ok r s b t).1 in acceptor_logged (acceptor r') (story r').
Proof.
  intros [Hi Hl] Hs Hb Ht. unfold on_prepare. destruct (term_fence now r t) as [r1|] eqn:Ef; [|done].
  apply (term_fence_base _ _ _ _ _ _ Hi) in Ef as (Hi1 & Ha & Hst). rewrite <- Ha, <- Hst in Hl. clear Hi Ha Hst r.
  pose proof Hl as (Hsl & _ & _).
  rewrite Acceptor.prepare_eq. destruct (Z.ltb_spec s (Acceptor.trim_slot (acceptor r1))); [done|].
  cbv zeta. destruct (Acceptor.may_promise b (Acceptor.slot_at (acceptor r1) s)) eqn:Em; simpl.
  - rewrite acceptor_append. eapply logged_append; [done|].
    apply (acceptor_logged_put _ _ (WalRecord.from_promised gid t s b)); [done|by split|done|].
    rewrite Hsl in * by done. by apply promise_logged.
  - by apply acceptor_logged_open.
Qed.

Lemma from_accepted_agrees gid l e :
  agrees l e -> forall x, WalRecord.to_log_entry (WalRecord.from_accepted gid e) = Some x -> agrees l x.
Proof. intros H x. rewrite to_from_accepted. by intros [= <-]. Qed.

Lemma on_accept_logged rid gid now ok r e :
  replica_inv rid gid r -> 0 <= slot e -> ballot_zero <b ballot e -> 0 <= term e -> agrees (story r) e ->
  let r' := (on_accept now ok r e).1 in acceptor_logged (acceptor r') (story r').
Proof.
  intros [Hi Hl] Hs Hb Ht Hag. unfold on_accept, on_accept_inner, on_accept_persist.
  destruct (term_fence now r (term e)) as [r1|] eqn:Ef; [|done].
  apply (term_fence_base _ _ _ _ _ _ Hi) in Ef as (Hi1 & Ha & Hst). rewrite <- Ha, <- Hst in Hl. rewrite <- Hst in Hag.
  clear Hi Ha Hst r. pose proof Hl as (Hsl & _ & _).
  rewrite Acceptor.accept_eq. destruct (Z.ltb_spec (slot e) (Acceptor.trim_slot (acceptor r1))); [done|].
  cbv zeta. destruct (Acceptor.may_accept (ballot e) (Acceptor.slot_at (acceptor r1) (slot e))) eqn:Em; simpl.
  - rewrite acceptor_append. eapply logged_append; [done|].
    apply (acceptor_logged_put _ _ (WalRecord.from_accepted gid e)); [done|by split|by apply from_accepted_agrees|].
    rewrite Hsl in * by done. by apply accept_logged.
  - by apply acceptor_logged_open.
Qed.

(** Installing a fetched entry and appending it tell the same story, also where
    the acceptor refuses it. *)
Lemma install_acceptor_logged a l gid e :
  acceptor_logged a l -> 0 <= slot e -> ballot_zero <b ballot e -> 0 <= term e -> agrees l e ->
  acceptor_logged (Acceptor.install_chosen a e).1 (l ++ [WalRecord.from_accepted gid e]).
Proof.
  intros Hl Hs Hb Ht Hag. pose proof Hl as (Hsl & _ & _). rewrite Acceptor.install_eq.
  pose proof (from_accepted_agrees gid _ _ Hag) as Hx.
  destruct (Z.ltb_spec (slot e) (Acceptor.trim_slot a)).
  { apply acceptor_logged_other; [done|by split|by right|done]. }
  destruct (Acceptor.install_slot e (Acceptor.slot_at a (slot e))) as [x ok] eqn:Ex. simpl.
  apply (acceptor_logged_put _ _ (WalRecord.from_accepted gid e)); [done|by split|done|].
  change (WalRecord.slot (WalRecord.from_accepted gid e)) with (slot e).
  rewrite <- install_logged by done. rewrite <- Hsl by done. by rewrite Ex.
Qed.

Lemma fetch_gap_logged rid gid ok r s e :
  replica_inv rid gid r -> 0 <= slot e -> ballot_zero <b ballot e -> 0 <= term e -> agrees (story r) e ->
  let r' := fetch_gap_reply ok r s e in acceptor_logged (acceptor r') (story r').
Proof.
  intros [Hi Hl] Hs Hb Ht Hag. unfold fetch_gap_reply. destruct (negb _); [done|].
  rewrite acceptor_append. pose proof (install_acceptor_logged _ _ gid e Hl Hs Hb Ht Hag) as Hx.
  destruct (Acceptor.install_chosen (acceptor r) e) as [a ok']. simpl in Hx.
  apply (logged_append rid gid r a (fun gid => WalRecord.from_accepted gid e) true Hi) in Hx.
  rewrite set_acceptor_story in Hx. by destruct ok'.
Qed.

Lemma vote_logged_acceptor rid gid r s' rm ok :
  replica_inv rid gid r -> 0 <= current_term s' ->
  let r' := persist_current_vote (set_election r s' (current_term s') rm) ok in
  acceptor_logged (acceptor r') (story r').
Proof.
  intros [Hi Hl] H0. cbv zeta. unfold persist_current_vote. rewrite acceptor_append.
  assert (Hi' : replica_base rid gid (set_election r s' (current_term s') rm)) by (by eapply base_election).
  eapply acceptor_logged_perm; [symmetry; by eapply story_append|].
  apply acceptor_logged_other; [done|by split|by left|done].
Qed.

Lemma restart_logged rid gid now x engine resume_from r :
  replica_inv rid gid r ->
  let r' := restart now x engine resume_from r in acceptor_logged (acceptor r') (story r').
Proof.
  intros [Hi (_ & H5 & H6)]. cbv zeta. rewrite (story_restart rid gid) by done.
  unfold story in H5, H6. apply Forall_app in H5 as [H5 _]. split_and!; [|done|].
  - intros s _. by apply (restored_slot (log_of r) s).
  - intros e (rec & Hin & He) e' (rec' & Hin' & He'). apply H6.
    + exists rec. split; [|done]. apply elem_of_app. by left.
    + exists rec'. split; [|done]. apply elem_of_app. by left.
Qed.

Lemma event_inv rid gid r o :
  replica_inv rid gid r -> event_ok o -> (forall e, brings o = Some e -> agrees (story r) e) ->
  replica_inv rid gid (exec r o).
Proof.
  intros H Ho Hag. pose proof H as [Hi Hl]. split; [by apply event_base|].
  destruct o as [now ok s b t|now ok e|ok s e|now ok req|now ok t|i|now req|now req|now t| |now
    |s t b|e ids| |before|now x en rf]; simpl in *; try done.
  - destruct Ho as (? & ? & ?). by apply (on_prepare_logged rid gid).
  - destruct Ho as (? & ? & ?). apply (on_accept_logged rid gid); auto.
  - destruct Ho as (? & ? & ?). apply (fetch_gap_logged rid gid); auto.
  - unfold handle_request_vote. destruct (_ && candidate_log_up_to_date r req && lockout_ok now r); [|done].
    cbn [fst]. apply (vote_logged_acceptor rid gid); [done|]. cbn [current_term]. pose proof (ri_term _ _ _ Hi).
    destruct (_ <? _); simpl; tauto.
  - by apply (vote_logged_acceptor rid gid r (mkElection t (Some (id r)) Candidate (leader_id (election r))
      (now + lease_duration_ms r)) (role_as_u8 Candidate) ok).
  - destruct (append_owed_same r i) as (-> & _). eapply acceptor_logged_perm; [|exact Hl].
    symmetry. apply story_append_owed.
  - unfold handle_heartbeat. destruct (_ <? _); [done|]. by destruct (if _ <? _ then _ else _).
  - unfold handle_step_down. by destruct (bool_decide _ && _ && _).
  - pose proof (chosen_notice_core r s t b) as Hc. rewrite (same_core_story _ _ Hc). by destruct Hc as (_ & _ & -> & _).
  - pose proof (apply_turn_core r) as Hc. rewrite (same_core_story _ _ Hc). by destruct Hc as (_ & _ & -> & _).
  - by apply acceptor_logged_trim.
  - by apply (restart_logged rid gid).
Qed.

Lemma fresh_base rid gid lease now x engine : replica_base rid gid (fresh rid gid lease now x engine).
Proof. constructor; simpl; [done|by eexists|done|done|constructor]. Qed.

Lemma fresh_inv rid gid lease now x engine : replica_inv rid gid (fresh rid gid lease now x engine).
Proof.
  split; [apply fresh_base|]. split_and!; [done|constructor|].
  intros e (rec & Hrec & _). by apply not_elem_of_nil in Hrec.
Qed.

(** ** What was answered for grows by what an event brings *)

Lemma storied_append rid gid r mk ok e :
  replica_base rid gid r -> storied (story (wal_append r mk ok)) e ->
  storied (story r) e \/ WalRecord.to_log_entry (mk gid) = Some e.
Proof. intros Hi He. eapply storied_perm in He; [|by eapply story_append]. by apply storied_app. Qed.

Lemma story_vote_storied rid gid r s' rm ok e :
  replica_base rid gid r -> 0 <= current_term s' ->
  storied (story (persist_current_vote (set_election r s' (current_term s') rm) ok)) e -> storied (story r) e.
Proof.
  intros Hi H0 He.
  assert (Hi' : replica_base rid gid (set_election r s' (current_term s') rm)) by (by eapply base_election).
  by destruct (storied_append rid gid _ _ _ _ Hi' He).
Qed.

Lemma exec_storied rid gid r o e :
  replica_base rid gid r -> event_ok o -> storied (story (exec r o)) e -> storied (story r) e \/ brings o = Some e.
Proof.
  intros Hi Ho. destruct o as [now ok s b t|now ok x|ok s x|now ok req|now ok t|i|now req|now req|now t| |now
    |s t b|x ids| |before|now x en rf]; simpl; try by left.
  - unfold on_prepare. destruct (term_fence now r t) as [r1|] eqn:Ef; [|by left].
    apply (term_fence_base _ _ _ _ _ _ Hi) in Ef as (Hi1 & _ & Hst). rewrite <- Hst.
    destruct (Acceptor.prepare _ _ _) as [a []]; simpl; try by left.
    assert (story (wal_append (set_acceptor r1 a) (fun gid => WalRecord.from_promised gid t s b) ok)
      = story (wal_append r1 (fun gid => WalRecord.from_promised gid t s b) ok)) as ->
      by (unfold story, log_of, owed_of, wal_append; simpl; by destruct (wal r1)).
    intros He. destruct (storied_append rid gid _ _ _ _ Hi1 He) as [|Hx]; [by left|by destruct b].
  - unfold on_accept, on_accept_inner, on_accept_persist.
    destruct (term_fence now r (term x)) as [r1|] eqn:Ef; [|by left].
    apply (term_fence_base _ _ _ _ _ _ Hi) in Ef as (Hi1 & _ & Hst). rewrite <- Hst.
    destruct (Acceptor.accept _ _) as [a []]; simpl; try by left.
    assert (story (wal_append (set_acceptor r1 a) (fun gid => WalRecord.from_accepted gid x) ok)
      = story (wal_append r1 (fun gid => WalRecord.from_accepted gid x) ok)) as ->
      by (unfold story, log_of, owed_of, wal_append; simpl; by destruct (wal r1)).
    intros He. destruct (storied_append rid gid _ _ _ _ Hi1 He) as [|Hx]; [by left|]. right. by rewrite to_from_accepted in Hx.
  - unfold fetch_gap_reply. destruct (negb _); [by left|]. destruct (Acceptor.install_chosen _ _) as [a []]; simpl;
      (intros He; destruct (storied_append rid gid r (fun gid => WalRecord.from_accepted gid x) true e Hi He) as [|Hx];
        [by left|]; right; by rewrite to_from_accepted in Hx).
  - unfold handle_request_vote. destruct (_ && candidate_log_up_to_date r req && lockout_ok now r); [|by left].
    cbn [fst]. intros He. left. eapply story_vote_storied; [done| |exact He]. cbn [current_term].
    pose proof (ri_term _ _ _ Hi). destruct Ho as [_ ?]. by destruct (_ <? _).
  - intros He. left. by eapply (story_vote_storied rid gid r (mkElection t (Some (id r)) Candidate
      (leader_id (election r)) (now + lease_duration_ms r)) (role_as_u8 Candidate) ok).
  - intros He. left. eapply storied_perm; [apply story_append_owed|done].
  - unfold handle_heartbeat. destruct (_ <? _); [by left|]. destruct (if _ <? _ then _ else _). by left.
  - unfold handle_step_down. destruct (_ && _ && _); by left.
  - rewrite (same_core_story _ _ (chosen_notice_core r s t b)). by left.
  - rewrite (same_core_story _ _ (apply_turn_core r)). by left.
  - destruct (ri_wal _ _ _ Hi) as (w & Hw & _). unfold story, log_of, owed_of, restart. rewrite Hw. simpl.
    rewrite app_nil_r. intros (rec & Hin & He). left. exists rec. split; [|done]. apply elem_of_app. by left.
Qed.

Lemma replica_reachable_inv known guard rid gid r :
  (forall e e', known e -> known e' -> slot e = slot e' -> ballot e = ballot e' -> e = e') ->
  reachable known guard rid gid r -> replica_inv rid gid r /\ forall e, storied (story r) e -> known e.
Proof.
  intros U. induction 1 as [ls now x en|r o Hr [IH IHk] Ho Hk _].
  { split; [apply fresh_inv|]. intros e (rec & Hrec & _). by apply not_elem_of_nil in Hrec. }
  split.
  - apply event_inv; [done|done|]. intros e He e' He' Hs Hb. apply U; auto.
  - intros e He. destruct IH as [IH _]. destruct (exec_storied rid gid _ _ _ IH Ho He); auto.
Qed.

(** More records only raise a slot. *)
Lemma rebuild_mono s l l' : Acceptor.slot_le (rebuild s l) (rebuild s (l ++ l')).
Proof.
  assert (Hin : forall r, r ∈ slot_records s l -> r ∈ slot_records s (l ++ l')).
  { intros r Hr. rewrite slot_records_app. apply elem_of_app. by left. }
  split; unfold rebuild; cbn [Acceptor.promised Acceptor.accepted].
  - pose proof (bmax_spec (WalRecord.ballot <$> slot_records s l) None) as H.
    pose proof (bmax_spec (WalRecord.ballot <$> slot_records s (l ++ l')) None) as H'.
    destruct (foldl bmax None (WalRecord.ballot <$> slot_records s l)) as [b|]; [|done].
    destruct H as ([?|Hb] & _); [done|]. apply list_elem_of_fmap in Hb as (r & -> & Hr%Hin).
    apply (list_elem_of_fmap_2 WalRecord.ballot) in Hr.
    destruct (foldl bmax None _) as [b'|]; simpl; [destruct H' as (_ & H' & _); by apply H'|].
    destruct H' as [_ H']. rewrite H' in Hr. by apply not_elem_of_nil in Hr.
  - fold (best_of WalRecord.RAccepted s l) (best_of WalRecord.RAccepted s (l ++ l')).
    pose proof (best_of_spec WalRecord.RAccepted s l ltac:(done)) as H.
    pose proof (best_of_spec WalRecord.RAccepted s (l ++ l') ltac:(done)) as H'.
    destruct (best_of WalRecord.RAccepted s l) as [r|]; simpl; [|done]. destruct H as (Hr%Hin & Ht & _).
    destruct (best_of WalRecord.RAccepted s (l ++ l')) as [r'|]; simpl; [|by destruct (H' r Hr)].
    destruct H' as (_ & Ht' & Hle). specialize (Hle r Hr Ht).
    unfold WalRecord.to_log_entry. rewrite !decide_True by done. done.
Qed.

Lemma rebuild_no_records s l l' :
  (forall rec, rec ∈ l' -> WalReplay.is_vote rec = false -> WalRecord.slot rec <> s) ->
  rebuild s (l ++ l') = rebuild s l.
Proof.
  induction l' as [|r l' IH] using rev_ind; intros H; [by rewrite app_nil_r|].
  rewrite (assoc_L app), rebuild_other.
  - apply IH. intros rec Hrec. apply H, elem_of_app. by left.
  - destruct (WalReplay.is_vote r) eqn:Ev; [by left|right]. apply H; [|done].
    apply elem_of_app. right. by apply list_elem_of_singleton.
Qed.

(** C37. What a restart keeps.  Take a replica after any history of prepares,
    accepts, gap fetches, votes, heartbeats, role changes, learning, trims and
    earlier restarts, in which appends may fail, or run long after the answer, or
    never.  The entries it was sent have one entry per slot and ballot.  A new
    process that replays its log has, at every slot that was not trimmed, no
    higher promise and no higher accepted entry than the old one had; it has
    exactly the same ones where no record of the slot is owed; and it honours
    every record of the log, trimmed slots included. *)
Theorem restart_restores_acceptor known rid gid r now x engine resume_from :
  (forall e e', known e -> known e' -> slot e = slot e' -> ballot e = ballot e' -> e = e') ->
  reachable known (fun _ _ => True) rid gid r ->
  let a := acceptor (restart now x engine resume_from r) in
  (forall s, Acceptor.trim_slot (acceptor r) <= s ->
     Acceptor.slot_le (Acceptor.slot_at a s) (Acceptor.slot_at (acceptor r) s) /\
     ((forall rec, rec ∈ owed_of r -> WalReplay.is_vote rec = false -> WalRecord.slot rec <> s) ->
      Acceptor.slot_at a s = Acceptor.slot_at (acceptor r) s)) /\
  (forall rec, rec ∈ log_of r -> WalReplay.is_vote rec = false ->
     exists b, Acceptor.promised (Acceptor.slot_at a (WalRecord.slot rec)) = Some b /\ WalRecord.ballot rec <=b b).
Proof.
  intros U [[Hr (Hsl & Hrs & _)] _]%replica_reachable_inv a; [|exact U].
  unfold story in Hrs. apply Forall_app in Hrs as [Hrs _].
  assert (Ha : forall s, Acceptor.slot_at a s = rebuild s (log_of r)) by (intros s; by apply (restored_slot (log_of r) s)).
  split.
  - intros s Hs. rewrite Ha, Hsl by done. split; [apply rebuild_mono|]. intros Hno. symmetry. by apply rebuild_no_records.
  - intros rec Hrec Hv. rewrite Ha. apply rebuild_promise. by apply elem_of_slot_records.
Qed.

(** ** Votes *)

(** Votes in the log are remembered by the election state. *)
Definition votes_logged (s : ElectionPersistentState) (log : list WalRecord.WALRecord) : Prop :=
  0 <= current_term s /\
  (forall r, r ∈ log -> WalReplay.is_vote r = true ->
     is_Some (WalRecord.voted_for_id r) /\ WalRecord.term r <= current_term s /\
     (WalRecord.term r = current_term s -> voted_for s = WalRecord.voted_for_id r)) /\
  (forall r1 r2, r1 ∈ log -> r2 ∈ log -> WalReplay.is_vote r1 = true -> WalReplay.is_vote r2 = true ->
     WalRecord.term r1 = WalRecord.term r2 -> WalRecord.voted_for_id r1 = WalRecord.voted_for_id r2).

(** A higher term forgets the vote, and nothing else. *)
Lemma votes_adopt s log s' :
  votes_logged s log ->
  (current_term s < current_term s' \/ current_term s' = current_term s /\ voted_for s' = voted_for s) ->
  votes_logged s' log.
Proof.
  intros (H0 & H1 & H2) H. split_and!; [lia| |done]. intros r Hr Hv. destruct (H1 r Hr Hv) as (Hi & Hle & Heq).
  destruct H as [H|[H Hf]]; [split_and!; [done|lia|lia]|]. rewrite H, Hf. done.
Qed.

Lemma votes_other s log r : WalReplay.is_vote r = false -> votes_logged s log -> votes_logged s (log ++ [r]).
Proof.
  intros Hr (H0 & H1 & H2). split_and!; [done| |].
  - intros x Hx Hv. apply elem_of_app in Hx as [Hx|Hx]; [auto|]. apply list_elem_of_singleton in Hx. congruence.
  - intros x y Hx Hy Hvx Hvy. apply elem_of_app in Hx as [Hx|Hx], Hy as [Hy|Hy]; [auto|..];
      apply list_elem_of_singleton in Hx || apply list_elem_of_singleton in Hy; congruence.
Qed.

Lemma vote_record_id gid t c : is_u64 c -> WalRecord.voted_for_id (WalRecord.from_vote_granted gid t c) = Some c.
Proof.
  intros Hc. unfold WalRecord.voted_for_id, WalRecord.from_vote_granted. cbn [WalRecord.record_type WalRecord.payload].
  rewrite decide_True by done. rewrite to_le_bytes_length. simpl (8 <? 8)%nat. cbn iota.
  rewrite slice_all by apply to_le_bytes_length. rewrite from_to_le; [done|].
  unfold is_u64, u64_max in Hc. unfold width. simpl. lia.
Qed.

Lemma votes_grant s log s' gid c :
  votes_logged s log -> is_u64 c -> voted_for s' = Some c ->
  (current_term s < current_term s' \/
   current_term s' = current_term s /\ (voted_for s = None \/ voted_for s = Some c)) ->
  votes_logged s' (log ++ [WalRecord.from_vote_granted gid (current_term s') c]).
Proof.
  intros (H0 & H1 & H2) Hc Hv' H. pose proof (vote_record_id gid (current_term s') c Hc) as Hid.
  set (r := WalRecord.from_vote_granted gid (current_term s') c) in *.
  assert (Hold : forall x, x ∈ log -> WalReplay.is_vote x = true -> is_Some (WalRecord.voted_for_id x) /\
    WalRecord.term x <= current_term s' /\ (WalRecord.term x = current_term s' -> WalRecord.voted_for_id x = Some c)).
  { intros x Hx Hv. destruct (H1 x Hx Hv) as (Hi & Hle & Heq).
    destruct H as [H|[H Hf]]; [split_and!; [done|lia|lia]|]. rewrite H. split_and!; [done|lia|].
    intros Ht. specialize (Heq Ht). destruct Hi as [i Hi]. destruct Hf as [Hf|Hf]; congruence. }
  assert (Hnew : forall x, x ∈ log ++ [r] -> x ∈ log \/ x = r) by set_solver.
  split_and!.
  - destruct H as [H|[H _]]; lia.
  - intros x [Hx| ->]%Hnew Hv.
    + destruct (Hold x Hx Hv) as (? & ? & Heq). split_and!; [done..|]. intros Ht. rewrite Heq by done. done.
    + rewrite Hid, Hv'. split_and!; [eauto|done|done].
  - intros x y [Hx| ->]%Hnew [Hy| ->]%Hnew Hvx Hvy Ht; [auto|..|done].
    + destruct (Hold x Hx Hvx) as (_ & _ & Heq). rewrite Hid. by apply Heq.
    + destruct (Hold y Hy Hvy) as (_ & _ & Heq). rewrite Hid. symmetry. by apply Heq.
Qed.

Lemma votes_subset s l l' : (forall r, r ∈ l' -> r ∈ l) -> votes_logged s l -> votes_logged s l'.
Proof. intros Hin (H0 & H1 & H2). split_and!; auto. Qed.

Lemma votes_perm s l l' : l ≡ₚ l' -> votes_logged s l -> votes_logged s l'.
Proof. intros Hp. apply votes_subset. intros r. by rewrite Hp. Qed.

Lemma election_append (r : PxLocalReplica) mk ok : election (wal_append r mk ok) = election r.
Proof. unfold wal_append. by destruct (wal r). Qed.

Lemma votes_append rid gid r mk ok :
  replica_base rid gid r -> WalReplay.is_vote (mk gid) = false -> votes_logged (election r) (story r) ->
  votes_logged (election (wal_append r mk ok)) (story (wal_append r mk ok)).
Proof.
  intros Hi Hv H. rewrite election_append. eapply votes_perm; [symmetry; by eapply story_append|].
  by apply votes_other.
Qed.

Lemma votes_follower now (r : PxLocalReplica) t :
  votes_logged (election r) (story r) ->
  votes_logged (election (become_follower now r t)) (story (become_follower now r t)).
Proof.
  intros H. eapply votes_adopt; [exact H|]. unfold become_follower. simpl.
  destruct (Z.ltb_spec (current_term (election r)) t); simpl; auto.
Qed.

Lemma votes_fence now (r : PxLocalReplica) t r' :
  votes_logged (election r) (story r) -> term_fence now r t = Some r' -> votes_logged (election r') (story r').
Proof.
  intros H. unfold term_fence. destruct (t <? current_term_atomic r); [done|]. intros [= <-].
  destruct (current_term_atomic r <? t); [by apply votes_follower|done].
Qed.

Lemma votes_cast rid gid r s' rm ok c :
  replica_base rid gid r -> votes_logged (election r) (story r) -> is_u64 c -> 0 <= current_term s' -> voted_for s' = Some c ->
  (current_term (election r) < current_term s' \/
   current_term s' = current_term (election r) /\
   (voted_for (election r) = None \/ voted_for (election r) = Some c)) ->
  let r' := persist_current_vote (set_election r s' (current_term s') rm) ok in
  votes_logged (election r') (story r') /\ WalRecord.from_vote_granted gid (current_term s') c ∈ story r'.
Proof.
  intros Hi H Hc H0 Hv Ht r'.
  assert (Hi' : replica_base rid gid (set_election r s' (current_term s') rm)) by (by eapply base_election).
  pose proof (story_append rid gid _ (fun gid => WalRecord.from_vote_granted gid (current_term s')
    (default (id r) (voted_for s'))) ok Hi') as Hp. rewrite Hv in Hp. simpl in Hp.
  assert (Hst : story r' ≡ₚ story r ++ [WalRecord.from_vote_granted gid (current_term s') c]).
  { unfold r', persist_current_vote. simpl. rewrite Hv. exact Hp. }
  assert (election r' = s') as -> by (unfold r', persist_current_vote; by rewrite election_append).
  split.
  - eapply votes_perm; [symmetry; exact Hst|]. by eapply votes_grant.
  - rewrite Hst. apply elem_of_app. right. by apply list_elem_of_singleton.
Qed.

(** A granted vote is answered for, and remembered. *)
Lemma handle_request_vote_votes rid gid now ok r req :
  replica_base rid gid r -> votes_logged (election r) (story r) -> is_u64 (candidate_id req) -> 0 <= vr_term req ->
  let '(r', rep) := handle_request_vote now ok r req in
  votes_logged (election r') (story r') /\
  (granted rep = true -> WalRecord.from_vote_granted gid (vr_term req) (candidate_id req) ∈ story r').
Proof.
  intros Hi H Hc Ht. unfold handle_request_vote.
  destruct (_ && candidate_log_up_to_date r req && lockout_ok now r) eqn:Eg.
  2: { split; [done|]. unfold vote_reply. by destruct (frontier_triple r) as [[? ?] ?]. }
  apply andb_true_iff in Eg as [Eg _]. apply andb_true_iff in Eg as [Eg _].
  destruct (Z.ltb_spec (current_term (election r)) (vr_term req)) as [Hlt|Hge]; cbn [current_term].
  - destruct (votes_cast rid gid r (mkElection (vr_term req) (Some (candidate_id req)) Follower None
      (now + lease_duration_ms r)) (role_as_u8 Follower) ok (candidate_id req)); simpl; auto.
  - simpl in Eg. apply andb_true_iff in Eg as [Et Ev]. apply Z.eqb_eq in Et.
    destruct (votes_cast rid gid r (mkElection (current_term (election r)) (Some (candidate_id req))
      (role (election r)) (leader_id (election r)) (now + lease_duration_ms r)) (role_as_u8 Follower) ok
      (candidate_id req)) as [H1 H2]; simpl; auto; [apply Hi| |split; [done|by rewrite Et]].
    right. split; [done|]. destruct (voted_for (election r)) as [v|]; [|auto].
    apply Z.eqb_eq in Ev as ->. auto.
Qed.

Lemma votes_restart rid gid now x engine resume_from r :
  replica_base rid gid r -> votes_logged (election r) (story r) ->
  votes_logged (election (restart now x engine resume_from r)) (story (restart now x engine resume_from r)).
Proof.
  intros Hi (H5 & H5' & H5''). pose proof (ri_terms _ _ _ Hi) as Hrs.
  pose proof (story_restart rid gid now x engine resume_from r Hi) as Hst.
  assert (Hin : forall v, v ∈ log_of r -> v ∈ story r) by (intros v Hv; unfold story; apply elem_of_app; by left).
  assert (Hpos : Forall (fun r => 0 <= WalRecord.term r) (log_of r)).
  { unfold story in Hrs. by apply Forall_app in Hrs as [Hrs _]. }
  destruct (WalReplay.replay_term (log_of r) WalReplay.empty_replay) as (Hmax & Hz & Hex).
  fold (WalReplay.replayed (log_of r)) in *. rewrite Hst. split_and!; [exact Hz| |auto].
  intros v Hv Hvv. destruct (H5' v (Hin v Hv) Hvv) as (Hid & Hle & _).
  split_and!; [done|by apply Hmax|]. intros Ht. simpl in Ht |- *.
  rewrite (WalReplay.replay_vote _ Hpos).
  destruct (last (WalReplay.term_votes (WalReplay.current_term (WalReplay.replayed (log_of r))) (log_of r)))
    as [v'|] eqn:El; simpl.
  - apply last_Some_elem_of, WalReplay.elem_of_term_votes in El as (Hv' & Hvv' & Ht').
    apply H5''; auto. congruence.
  - apply last_None in El. exfalso. apply (not_elem_of_nil v). rewrite <- El.
    by apply WalReplay.elem_of_term_votes.
Qed.

(** An election is only started above the current term. *)
Definition starts_above (r : PxLocalReplica) (o : event) : Prop :=
  match o with DoCandidate _ _ t => current_term (election r) < t | _ => True end.

Lemma event_votes rid gid r o :
  is_u64 rid -> replica_base rid gid r -> votes_logged (election r) (story r) -> event_ok o -> starts_above r o ->
  votes_logged (election (exec r o)) (story (exec r o)).
Proof.
  intros Hid Hi H Ho Hs. destruct o as [now ok s b t|now ok x|ok s x|now ok req|now ok t|i|now req|now req|now t| |now
    |s t b|x ids| |before|now x en rf]; simpl; try done.
  - unfold on_prepare. destruct (term_fence now r t) as [r1|] eqn:Ef; [|done].
    pose proof (votes_fence _ _ _ _ H Ef) as H'. apply (term_fence_base _ _ _ _ _ _ Hi) in Ef as (Hi1 & _ & _).
    destruct (Acceptor.prepare _ _ _) as [a []]; simpl; try done.
    pose proof (votes_append rid gid r1 (fun gid => WalRecord.from_promised gid t s b) ok Hi1 eq_refl H') as Hv.
    revert Hv. unfold story, log_of, owed_of, wal_append. simpl. by destruct (wal r1).
  - unfold on_accept, on_accept_inner, on_accept_persist.
    destruct (term_fence now r (term x)) as [r1|] eqn:Ef; [|done].
    pose proof (votes_fence _ _ _ _ H Ef) as H'. apply (term_fence_base _ _ _ _ _ _ Hi) in Ef as (Hi1 & _ & _).
    destruct (Acceptor.accept _ _) as [a []]; simpl; try done.
    pose proof (votes_append rid gid r1 (fun gid => WalRecord.from_accepted gid x) ok Hi1 eq_refl H') as Hv.
    revert Hv. unfold story, log_of, owed_of, wal_append. simpl. by destruct (wal r1).
  - unfold fetch_gap_reply. destruct (negb _); [done|]. destruct (Acceptor.install_chosen _ _) as [a []]; simpl;
      exact (votes_append rid gid r (fun gid => WalRecord.from_accepted gid x) true Hi eq_refl H).
  - destruct Ho as [Hc Ht]. pose proof (handle_request_vote_votes rid gid now ok r req Hi H Hc Ht) as Hv.
    destruct (handle_request_vote now ok r req). by destruct Hv.
  - apply (votes_cast rid gid r (mkElection t (Some (id r)) Candidate (leader_id (election r))
      (now + lease_duration_ms r)) (role_as_u8 Candidate) ok (id r)); simpl; auto. by rewrite (ri_id _ _ _ Hi).
  - eapply votes_perm; [symmetry; apply story_append_owed|].
    assert (election (append_owed r i) = election r) as ->; [|done].
    unfold append_owed. destruct (wal r) as [w|]; [|done]. by destruct (owed w !! i).
  - unfold handle_heartbeat. destruct (Z.ltb_spec (hb_term req) (current_term (election r))); [done|].
    destruct (Z.ltb_spec (current_term (election r)) (hb_term req)); eapply votes_adopt; try exact H; simpl; auto.
  - unfold handle_step_down. destruct (bool_decide _ && _ && _); [by apply votes_follower|done].
  - by apply votes_follower.
  - pose proof (chosen_notice_core r s t b) as Hc. rewrite (same_core_story _ _ Hc).
    destruct Hc as (_ & _ & _ & -> & _). done.
  - pose proof (apply_turn_core r) as Hc. rewrite (same_core_story _ _ Hc).
    destruct Hc as (_ & _ & _ & -> & _). done.
  - by apply (votes_restart rid gid).
Qed.

Lemma fresh_votes rid gid lease now x engine :
  votes_logged (election (fresh rid gid lease now x engine)) (story (fresh rid gid lease now x engine)).
Proof. split_and!; [done| |]; [intros v Hv|intros v v' Hv]; by apply not_elem_of_nil in Hv. Qed.

(** One vote per term: in any such history in which an election is only started
    above the current term and a restart finds nothing owed, a granted vote is
    among the records answered for, and no two votes of one term name different
    candidates. *)
Theorem one_vote_per_term known rid gid r :
  (forall e e', known e -> known e' -> slot e = slot e' -> ballot e = ballot e' -> e = e') ->
  is_u64 rid ->
  reachable known (fun r o => starts_above r o /\ durable r o) rid gid r ->
  (forall r1 r2, r1 ∈ story r -> r2 ∈ story r -> WalReplay.is_vote r1 = true -> WalReplay.is_vote r2 = true ->
     WalRecord.term r1 = WalRecord.term r2 -> WalRecord.voted_for_id r1 = WalRecord.voted_for_id r2) /\
  (forall now ok req, granted (handle_request_vote now ok r req).2 = true -> is_u64 (candidate_id req) ->
     0 <= vr_term req ->
     WalRecord.from_vote_granted gid (vr_term req) (candidate_id req) ∈ story (handle_request_vote now ok r req).1).
Proof.
  intros U Hid Hr. pose proof (replica_reachable_inv _ _ _ _ _ U Hr) as [[Hi _] _].
  assert (Hv : votes_logged (election r) (story r)).
  { induction Hr as [|r o Hr IH Ho Hk [Hs _]]; [apply fresh_votes|].
    destruct (replica_reachable_inv _ _ _ _ _ U Hr) as [[Hi' _] _]. by eapply event_votes; eauto. }
  split; [apply Hv|]. intros now ok req Hg Hc Ht.
  pose proof (handle_request_vote_votes rid gid now ok r req Hi Hv Hc Ht) as H.
  destruct (handle_request_vote now ok r req). by apply H.
Qed.

End histories.

(** A prepare, an accept whose append is late, a vote, a prepare whose append
    fails, and a trim, on the in-memory engine. *)
Definition demo_entry : PxLogEntry := mkEntry 5 (mkBallot 1 2) 3 [7].

Definition demo_events : list (@event (gmap bytes (Z * Cell))) :=
  [DoPrepare 0 true 5 (mkBallot 1 2) 3; DoAccept 0 false demo_entry; DoVote 100000 true (mkVoteReq 9 4 5 3);
   DoPrepare 0 true 5 (mkBallot 2 1) 9; DoPersist 0; DoPrepare 0 false 6 (mkBallot 2 1) 9; DoTrim 5].

Definition demo_replica : PxLocalReplica (gmap bytes (Z * Cell)) :=
  foldl exec (fresh 1 7 3000 0 Follower ∅) demo_events.

Lemma demo_reachable guard :
  (forall r o, o ∈ demo_events -> guard r o) -> reachable (eq demo_entry) guard 1 7 demo_replica.
Proof.
  intros Hg. unfold demo_replica, demo_events in *. cbn [foldl].
  repeat (apply reach_step;
    [|simpl; unfold is_u64, u64_max, ballot_lt, ballot_zero; simpl; try lia; done
     |simpl; intros; congruence
     |apply Hg; repeat (apply list_elem_of_here || apply list_elem_of_further)]).
  apply reach_fresh.
Qed.

Lemma restart_restores_acceptor_witness :
  Acceptor.slot_at (acceptor (restart 0 Follower ∅ 0 demo_replica)) 5 =
    Acceptor.mkSlot (Some (mkBallot 2 1)) (Some demo_entry).
Proof.
  destruct (restart_restores_acceptor (eq demo_entry) 1 7 demo_replica 0 Follower ∅ 0) as [H _].
  - intros. congruence.
  - by apply demo_reachable.
  - destruct (H 5) as [_ H5]; [vm_compute; discriminate|]. rewrite H5; [vm_compute; reflexivity|].
    intros rec Hrec _. vm_compute in Hrec. apply list_elem_of_singleton in Hrec as ->. discriminate.
Defined.

Lemma one_vote_per_term_witness :
  WalRecord.from_vote_granted 7 9 4 ∈ story demo_replica /\
  forall r, r ∈ story demo_replica -> WalReplay.is_vote r = true -> WalRecord.term r = 9 ->
    WalRecord.voted_for_id r = Some 4.
Proof.
  destruct (one_vote_per_term (eq demo_entry) 1 7 demo_replica) as [H _].
  - intros. congruence.
  - vm_compute. split; discriminate.
  - apply demo_reachable. intros r o Ho. unfold demo_events in Ho. rewrite !elem_of_cons, elem_of_nil in Ho.
    destruct Ho as [->|[->|[->|[->|[->|[->|[->|[]]]]]]]]; done.
  - assert (Hin : WalRecord.from_vote_granted 7 9 4 ∈ story demo_replica).
    { vm_compute. repeat (apply list_elem_of_here || apply list_elem_of_further). }
    split; [exact Hin|]. intros r Hr Hv Ht. rewrite (H r _ Hr Hin Hv); [vm_compute; reflexivity|reflexivity|exact Ht].
Defined.

End Replica.
