(* ===== verification/Propose.v ===== *)
(** * Proposing a value

    Models [cluster/group_propose.rs]: the leadership gate and the two nested
    retry loops of [propose_inner_impl], plain and conditional, with
    [resolve_conditional_slot].  The phases are those of [Phases]; what the
    network answers to each call, which slot each allocation returns and what the
    engine holds at each read is an environment the theorems quantify over.

    [propose_accounts] bounds the work and shows that a request's identity is
    recorded exactly when its caller is told [Chosen], for the slot it is told
    and the value it sent. *)

From stdpp Require Import prelude gmap list.
From Stdlib Require Import ZArith Lia.
From S2P Require Import Prelude Roles Bytes KvOp Acceptor Learner WalRecord WalReplay Phases Replica.

Module Propose.
Import Phases.

Definition max_paxos_retries : nat := 3.
Definition max_slot_retries : nat := 3.

(** [ProposeResult]; [Panicked] is an [unreachable!] of a phase. *)
Inductive ProposeResult :=
| RChosen (slot : Z)
| RNotLeader
| RBusy
| RCasFailed (observed : option (Z * list Z))
| RCasBusy
| ROutcomeUnknown
| RErr (last_error : option PxPaxosError)
| REngineErr
| Panicked.

(** The outside of a proposal, by number of the call; [view] is what the group
    shows (its term, its voters) after that many calls. *)
Record environment := mkEnv {
  local_promised : nat -> option PxBallot;
  prepare_replies : nat -> list (tagged PxPrepareReply);
  accept_replies : nat -> list (tagged PxAcceptReply);
  fresh_slot : nat -> Z;
  versioned : nat -> result (option (Z * list Z)) unit;
  view : nat -> PxGroup;
}.

(** Calls made so far and what they left behind. *)
Record pstate := mkPState {
  prepares : nat;
  accepts : nat;
  allocations : nat;
  reads : nat;
  epoch : Z;
  learned : list (PxLogEntry * list RequestIdentity);
  stepped_down : option Z;
}.

Definition start (epoch : Z) : pstate := mkPState 0 0 0 0 epoch [] None.

Definition clock (st : pstate) : nat := prepares st + accepts st + allocations st.

(** How one attempt of a slot ends. *)
Inductive verdict :=
| Return (r : ProposeResult)
| Again (force_prepare : bool) (min_round : Z) (error : PxPaxosError)
| NextSlot (error : PxPaxosError)
| Break (error : PxPaxosError).

Section proposal.
Context (env : environment) (quorum : nat) (force_classic : bool).
Context (own : list Z) (ids : list RequestIdentity) (condition : option (list Z * Z)).

Definition count_prepare (st : pstate) : pstate :=
  mkPState (S (prepares st)) (accepts st) (allocations st) (reads st) (epoch st) (learned st) (stepped_down st).
Definition count_accept (st : pstate) : pstate :=
  mkPState (prepares st) (S (accepts st)) (allocations st) (reads st) (epoch st) (learned st) (stepped_down st).
Definition learn (st : pstate) (e : PxLogEntry) (l : list RequestIdentity) : pstate :=
  mkPState (prepares st) (accepts st) (allocations st) (reads st) (epoch st) (learned st ++ [(e, l)])
    (stepped_down st).
Definition adopt_epoch (st : pstate) (e : Z) : pstate :=
  mkPState (prepares st) (accepts st) (allocations st) (reads st) (adopt_membership_epoch (epoch st) e)
    (learned st) (stepped_down st).
Definition step_down (st : pstate) (t : Z) : pstate :=
  mkPState (prepares st) (accepts st) (allocations st) (reads st) (epoch st) (learned st) (Some t).

(** [next_slot.fetch_add(1)] *)
Definition allocate (st : pstate) : pstate * Z :=
  (mkPState (prepares st) (accepts st) (S (allocations st)) (reads st) (epoch st) (learned st) (stepped_down st),
   fresh_slot env (allocations st)).

Definition prepare_call (st : pstate) (slot min_round : Z) (value : list Z)
  : pstate * option (PrepareAttempt * list (tagged PxPrepareReply)) :=
  (count_prepare st,
   run_prepare_phase (view env (clock st)) (local_promised env (prepares st)) slot value quorum min_round
     (prepare_replies env (prepares st))).

Definition accept_call (st : pstate) : pstate * option accept_outcome :=
  (count_accept st, run_accept_phase (view env (clock st)) quorum (accept_replies env (accepts st))).

(** The revision check of a conditional request: [Some] result ends it. *)
Definition check_condition (st : pstate) : pstate * option ProposeResult :=
  match condition with
  | None => (st, None)
  | Some (_, expected) =>
      let st' := mkPState (prepares st) (accepts st) (allocations st) (S (reads st)) (epoch st) (learned st)
                   (stepped_down st) in
      match versioned env (reads st) with
      | Ok v => (st', if match v with Some (rev, _) => rev | None => 0 end =? expected then None
                      else Some (RCasFailed v))
      | Err _ => (st', Some REngineErr)
      end
  end.

(** A phase that failed: step down, adopt the epoch and try again, or give the slot up. *)
Definition phase_failed (st : pstate) (force : bool) (min_round : Z) (error : PxPaxosError) : pstate * verdict :=
  match error with
  | TermStale t => (step_down st t, Return RNotLeader)
  | MembershipEpochMismatch e => (adopt_epoch st e, Again force min_round error)
  | _ => (st, Break error)
  end.

Definition accept_step (st : pstate) (slot : Z) (force : bool) (min_round : Z) (entry : PxLogEntry) (foreign : bool)
  : pstate * verdict :=
  let own_payload := negb foreign && bool_decide (payload entry = own) in
  let '(st, o) := accept_call st in
  match o with
  | None => (st, Return Panicked)
  | Some o =>
      match attempt o with
      | Chosen =>
          let st := learn st entry (if own_payload then ids else []) in
          if foreign || negb (bool_decide (payload entry = own)) then
            let '(st, stop) := check_condition st in
            match stop with
            | Some r => (st, Return r)
            | None => (st, NextSlot (ForeignValueChosen slot))
            end
          else (st, Return (RChosen slot))
      | AcceptRetry next_min_round error => (st, Again true next_min_round error)
      | AcceptFail error => phase_failed st force min_round error
      end
  end.

(** One turn of the inner loop; [base] is the slot's [base_entry]. *)
Definition attempt_once (st : pstate) (base : PxLogEntry) (force : bool) (min_round : Z) : pstate * verdict :=
  let slot := Roles.slot base in
  if force then
    let '(st, p) := prepare_call st slot min_round own in
    match p with
    | None => (st, Return Panicked)
    | Some (Proceed entry foreign, _) => accept_step st slot force min_round entry foreign
    | Some (PrepareRetry next_min_round error, _) => (st, Again true next_min_round error)
    | Some (PrepareFail error, _) => phase_failed st force min_round error
    end
  else
    let b := ballot base in
    let entry := if round b <? min_round
                 then mkEntry (Roles.slot base) (mkBallot min_round (leader_id b)) (term base) (payload base)
                 else base in
    accept_step st slot force min_round entry false.

Inductive slot_end :=
| Returned (r : ProposeResult)
| Foreign (error : PxPaxosError)
| Exhausted (error : option PxPaxosError).

Fixpoint attempts (fuel : nat) (st : pstate) (base : PxLogEntry) (force : bool) (min_round : Z)
  (last_error : option PxPaxosError) : pstate * slot_end :=
  match fuel with
  | 0%nat => (st, Exhausted last_error)
  | S fuel =>
      let '(st, v) := attempt_once st base force min_round in
      match v with
      | Return r => (st, Returned r)
      | Again force min_round error => attempts fuel st base force min_round (Some error)
      | NextSlot error => (st, Foreign error)
      | Break error => (st, Exhausted (Some error))
      end
  end.

(** Close the slot of a conditional request with a prepare and an accept; the
    outer [None] is a panic of a phase. *)
Fixpoint resolve_conditional_slot (fuel : nat) (st : pstate) (slot min_round : Z)
  : pstate * option (option PxLogEntry) :=
  match fuel with
  | 0%nat => (st, Some None)
  | S fuel =>
      let '(st, p) := prepare_call st slot min_round [] in
      match p with
      | None => (st, None)
      | Some (Proceed entry _, _) =>
          let '(st, o) := accept_call st in
          match o with
          | None => (st, None)
          | Some o =>
              match attempt o with
              | Chosen => (learn st entry [], Some (Some entry))
              | AcceptRetry next_min_round _ => resolve_conditional_slot fuel st slot next_min_round
              | AcceptFail _ => (st, Some None)
              end
          end
      | Some (PrepareRetry next_min_round _, _) => resolve_conditional_slot fuel st slot next_min_round
      | Some (PrepareFail _, _) => (st, Some None)
      end
  end.

(** What a conditional request does with a slot that it gives up. *)
Definition after_exhausted (st : pstate) (slot : Z) : pstate * option ProposeResult :=
  match condition with
  | None => (st, None)
  | Some _ =>
      let '(st, resolved) := resolve_conditional_slot max_paxos_retries st slot 0 in
      match resolved with
      | None => (st, Some Panicked)
      | Some None => (st, Some ROutcomeUnknown)
      | Some (Some e) => if bool_decide (payload e = own) then (st, Some ROutcomeUnknown) else check_condition st
      end
  end.

Fixpoint slot_retry (fuel : nat) (st : pstate) (slot : Z) (last_error : option PxPaxosError)
  : pstate * ProposeResult :=
  match fuel with
  | 0%nat => (st, RErr last_error)
  | S fuel =>
      let '(st, e) := attempts max_paxos_retries st (base_entry (view env (clock st)) slot own) force_classic 0 last_error in
      match e with
      | Returned r => (st, r)
      | Foreign error => let '(st, slot) := allocate st in slot_retry fuel st slot (Some error)
      | Exhausted error =>
          let '(st, stop) := after_exhausted st slot in
          match stop with
          | Some r => (st, r)
          | None => let '(st, slot) := allocate st in slot_retry fuel st slot error
          end
      end
  end.

(** ** What the loops do *)

Definition no_identity (l : list (PxLogEntry * list RequestIdentity)) : Prop := Forall (fun x => x.2 = []) l.

(** An accept phase, on the group as it then was, that reported the quorum. *)
Definition accepted_by_quorum (st : pstate) : Prop :=
  exists j c o, (j < accepts st)%nat /\
    run_accept_phase (view env c) quorum (accept_replies env j) = Some o /\ attempt o = Chosen.

(** From [st] to [st'] with at most [n] prepares, [m] accepts, [a] allocations
    and the entries [new] learned. *)
Record moved (st st' : pstate) (n m a : nat) (new : list (PxLogEntry * list RequestIdentity)) : Prop := {
  m_prepares : (prepares st <= prepares st' <= prepares st + n)%nat;
  m_accepts : (accepts st <= accepts st' <= accepts st + m)%nat;
  m_allocations : (allocations st <= allocations st' <= allocations st + a)%nat;
  m_learned : learned st' = learned st ++ new;
  m_stepped : is_Some (stepped_down st) -> is_Some (stepped_down st');
}.

Ltac moves := constructor; simpl; try lia; [first [done|by rewrite app_nil_r]|done].

Lemma moved_refl st : moved st st 0 0 0 [].
Proof. moves. Qed.

Lemma moved_trans st1 st2 st3 n n' m m' a b l k :
  moved st1 st2 n m a l -> moved st2 st3 n' m' b k -> moved st1 st3 (n + n') (m + m') (a + b) (l ++ k).
Proof.
  intros [H1 H2 H3 H4 H5] [K1 K2 K3 K4 K5]. constructor; try lia; [|auto]. rewrite K4, H4. by rewrite app_assoc.
Qed.

Lemma moved_weaken st st' n m a n' m' a' l : (n <= n')%nat -> (m <= m')%nat -> (a <= a')%nat ->
  moved st st' n m a l -> moved st st' n' m' a' l.
Proof. intros Hn Hm Ha [H1 H2 H3 H4 H5]. constructor; try lia; done. Qed.

Lemma check_condition_moved st st' stop : check_condition st = (st', stop) ->
  moved st st' 0 0 0 [] /\ (forall s, stop <> Some (RChosen s)) /\ stop <> Some RNotLeader.
Proof.
  unfold check_condition. destruct condition as [[k x]|].
  - destruct (versioned env (reads st)) as [v|]; intros [= <- <-].
    + split; [moves|]. by destruct (_ =? _).
    + split; [moves|done].
  - intros [= <- <-]. split; [apply moved_refl|done].
Qed.

(** What an end says of the entries learned on the way to it. *)
Definition result_ok (st' : pstate) (slot : Z) (r : ProposeResult) (new : list (PxLogEntry * list RequestIdentity))
  : Prop :=
  match r with
  | RChosen s => s = slot /\ accepted_by_quorum st' /\
      exists pre e, new = pre ++ [(e, ids)] /\ no_identity pre /\ Roles.slot e = slot /\ payload e = own
  | RNotLeader => no_identity new /\ is_Some (stepped_down st')
  | _ => no_identity new
  end.

Definition verdict_ok (st' : pstate) (slot : Z) (v : verdict) (new : list (PxLogEntry * list RequestIdentity)) : Prop :=
  match v with Return r => result_ok st' slot r new | _ => no_identity new end.

Definition slot_end_ok (st' : pstate) (slot : Z) (e : slot_end) (new : list (PxLogEntry * list RequestIdentity)) : Prop :=
  match e with Returned r => result_ok st' slot r new | _ => no_identity new end.

Lemma no_identity_nil : no_identity [].
Proof. constructor. Qed.
Hint Resolve no_identity_nil : core.

Ltac none_learned := intros [= <- <-]; exists []; split; [|exact no_identity_nil].

Lemma result_ok_prefix st slot r l l' : no_identity l -> result_ok st slot r l' -> result_ok st slot r (l ++ l').
Proof.
  intros Hl. assert (Hno : forall k, no_identity k -> no_identity (l ++ k)) by (intros k Hk; by apply Forall_app).
  destruct r; simpl; auto.
  - intros (-> & Hq & pre & en & -> & Hpre & Hs & Hp). split_and!; [done|done|].
    exists (l ++ pre), en. split_and!; [by rewrite app_assoc|auto|done|done].
  - intros [He Hsd]. auto.
Qed.

Lemma phase_failed_ok st slot force mr error st' v :
  phase_failed st force mr error = (st', v) -> moved st st' 0 0 0 [] /\ verdict_ok st' slot v [].
Proof.
  unfold phase_failed. destruct error; intros [= <- <-]; (split; [moves|]); simpl; auto.
Qed.

Lemma accept_step_ok st slot force mr entry foreign st' v :
  Roles.slot entry = slot -> accept_step st slot force mr entry foreign = (st', v) ->
  exists new, moved st st' 0 1 0 new /\ verdict_ok st' slot v new.
Proof.
  intros Hs. unfold accept_step, accept_call.
  assert (Hc : moved st (count_accept st) 0 1 0 []) by moves.
  destruct (run_accept_phase _ _ _) as [o|] eqn:Er; [|by none_learned].
  destruct (attempt o) as [|r error|error] eqn:Ea.
  - assert (Hl : forall l, moved st (learn (count_accept st) entry l) 0 1 0 [(entry, l)]) by (intros l; moves).
    destruct (foreign || negb (bool_decide (payload entry = own))) eqn:Ef.
    + assert (negb foreign && bool_decide (payload entry = own) = false) as ->
        by (destruct foreign; [done|]; by destruct (bool_decide _)).
      destruct (check_condition _) as [st1 stop] eqn:Ec. apply check_condition_moved in Ec as (Hm & Hnc & Hnl).
      pose proof (moved_trans _ _ _ _ _ _ _ _ _ _ _ (Hl []) Hm) as Ht.
      assert (no_identity [(entry, [])]) by (by apply Forall_singleton).
      destruct stop as [r|]; intros [= <- <-]; exists [(entry, [])]; (split; [done|]); [|done].
      destruct r; simpl; try done; exfalso; by eapply Hnc.
    + destruct foreign; [done|]. destruct (bool_decide_reflect (payload entry = own)) as [Hp|]; [|done].
      intros [= <- <-]. exists [(entry, ids)]. split; [apply Hl|]. simpl. split_and!; [done| |by exists [], entry].
      exists (accepts st), (clock st), o. simpl. split_and!; [lia|done|done].
  - by none_learned.
  - intros H. apply (phase_failed_ok _ slot) in H as [Hm Hv]. exists []. split; [|done].
    exact (moved_trans _ _ _ _ _ _ _ _ _ _ _ Hc Hm).
Qed.

Lemma attempt_once_ok st base force mr st' v :
  attempt_once st base force mr = (st', v) ->
  exists new, moved st st' 1 1 0 new /\ verdict_ok st' (Roles.slot base) v new.
Proof.
  assert (Hc : moved st (count_prepare st) 1 0 0 []) by moves.
  unfold attempt_once, prepare_call. destruct force.
  - destruct (run_prepare_phase _ _ _ _ _ _ _) as [[[e foreign|r error|error] rest]|] eqn:Er.
    + intros H. apply accept_step_ok in H as (new & Hm & Hv).
      * exists new. split; [|done]. exact (moved_trans _ _ _ _ _ _ _ _ _ _ _ Hc Hm).
      * by apply prepare_proceed_facts in Er as (folded & _ & _ & _ & Hs & _).
    + none_learned. by eapply moved_weaken; [..|exact Hc]; lia.
    + intros H. apply (phase_failed_ok _ (Roles.slot base)) in H as [Hm Hv]. exists []. split; [|done].
      pose proof (moved_trans _ _ _ _ _ _ _ _ _ _ _ Hc Hm). by eapply moved_weaken; [..|done]; lia.
    + none_learned. by eapply moved_weaken; [..|exact Hc]; lia.
  - intros H. apply accept_step_ok in H as (new & Hm & Hv); [|by destruct (_ <? _)].
    exists new. split; [|done]. by eapply moved_weaken; [..|exact Hm]; lia.
Qed.

Lemma attempts_ok fuel : forall st base force mr err st' e,
  attempts fuel st base force mr err = (st', e) ->
  exists new, moved st st' fuel fuel 0 new /\ slot_end_ok st' (Roles.slot base) e new.
Proof.
  induction fuel as [|fuel IH]; intros st base force mr err st' e; simpl.
  { none_learned. apply moved_refl. }
  destruct (attempt_once st base force mr) as [st1 v] eqn:Ea. apply attempt_once_ok in Ea as (new & Hm & Hv).
  assert (Hm' : moved st st1 (S fuel) (S fuel) 0 new) by (eapply moved_weaken; [..|exact Hm]; lia).
  destruct v as [r|force' mr' error|error|error]; try (intros [= <- <-]; by exists new).
  intros H. apply IH in H as (new' & Hn & He). exists (new ++ new').
  split; [exact (moved_trans _ _ _ _ _ _ _ _ _ _ _ Hm Hn)|].
  destruct e as [r| |]; simpl in *; [by apply result_ok_prefix|by apply Forall_app..].
Qed.

Lemma resolve_ok fuel : forall st slot mr st' r,
  resolve_conditional_slot fuel st slot mr = (st', r) -> exists new, moved st st' fuel fuel 0 new /\ no_identity new.
Proof.
  induction fuel as [|fuel IH]; intros st slot mr st' r; simpl.
  { none_learned. apply moved_refl. }
  unfold prepare_call, accept_call.
  assert (Hc : moved st (count_prepare st) 1 1 0 []) by moves.
  assert (Hca : moved st (count_accept (count_prepare st)) 1 1 0 []) by moves.
  assert (Hstop : forall s', moved st s' 1 1 0 [] -> exists new, moved st s' (S fuel) (S fuel) 0 new /\ no_identity new).
  { intros s' H. exists []. split; [by eapply moved_weaken; [..|exact H]; lia|done]. }
  assert (Hnext : forall s' mr', moved st s' 1 1 0 [] -> resolve_conditional_slot fuel s' slot mr' = (st', r) ->
    exists new, moved st st' (S fuel) (S fuel) 0 new /\ no_identity new).
  { intros s' mr' H (new & Hm & Hn)%IH. exists new. split; [|done].
    exact (moved_trans _ _ _ _ _ _ _ _ _ _ _ H Hm). }
  destruct (run_prepare_phase _ _ _ _ _ _ _) as [[[e foreign|r' error|error] rest]|] eqn:Er;
    [|by apply Hnext|intros [= <- <-]; auto..].
  destruct (run_accept_phase _ _ _) as [o|]; [|intros [= <- <-]; auto].
  destruct (attempt o) as [|r' error|error]; [|by apply Hnext|intros [= <- <-]; auto].
  intros [= <- <-]. exists [(e, [])]. split; [moves|by apply Forall_singleton].
Qed.

Lemma after_exhausted_ok st slot st' stop :
  after_exhausted st slot = (st', stop) -> exists new, moved st st' 3 3 0 new /\ no_identity new /\
    (forall s, stop <> Some (RChosen s)) /\ stop <> Some RNotLeader.
Proof.
  unfold after_exhausted. destruct condition as [c|] eqn:Ec.
  2: { intros [= <- <-]. exists []. split; [by eapply moved_weaken; [..|apply moved_refl]; lia|done]. }
  destruct (resolve_conditional_slot _ _ _ _) as [st1 resolved] eqn:Er.
  apply resolve_ok in Er as (new & Hm & Hn).
  destruct resolved as [[e|]|]; [destruct (bool_decide _)|..]; try (intros [= <- <-]; by exists new).
  intros (Hm' & Hs)%check_condition_moved. exists new. split; [|done].
  rewrite <- (app_nil_r new). exact (moved_trans _ _ _ _ _ _ _ _ _ _ _ Hm Hm').
Qed.

(** The slot loop: the answer [Chosen] is for a slot that one of its allocations
    gave. *)
Lemma slot_retry_ok fuel : forall st slot err st' r,
  slot = fresh_slot env (pred (allocations st)) -> allocations st <> 0%nat ->
  slot_retry fuel st slot err = (st', r) ->
  exists new s n, moved st st' (6 * fuel) (6 * fuel) fuel new /\ result_ok st' s r new /\
    s = fresh_slot env n /\ (n < allocations st')%nat.
Proof.
  induction fuel as [|fuel IH]; intros st slot err st' r Hslot Ha; cbn [slot_retry].
  { intros [= <- <-]. exists [], slot, (pred (allocations st)). split_and!; [apply moved_refl|exact no_identity_nil|done|lia]. }
  destruct (attempts _ _ _ _ _ _) as [st1 e] eqn:Ea. apply attempts_ok in Ea as (new & Hm & He).
  assert (Hdone : forall st2 r new', moved st st2 6 6 0 new' -> result_ok st2 slot r new' ->
    exists l s n, moved st st2 (6 * S fuel) (6 * S fuel) (S fuel) l /\ result_ok st2 s r l /\
      s = fresh_slot env n /\ (n < allocations st2)%nat).
  { intros st2 r2 new' H Hr. exists new', slot, (pred (allocations st)).
    split_and!; [by eapply moved_weaken; [..|exact H]; lia|done|done|]. pose proof (m_allocations _ _ _ _ _ _ H). lia. }
  assert (Hnext : forall st2 new' err', moved st st2 6 6 0 new' -> no_identity new' ->
    slot_retry fuel (allocate st2).1 (allocate st2).2 err' = (st', r) ->
    exists l s n, moved st st' (6 * S fuel) (6 * S fuel) (S fuel) l /\ result_ok st' s r l /\
      s = fresh_slot env n /\ (n < allocations st')%nat).
  { intros st2 new' err' H Hn (l & s & n & Hl & Hr & Hs & Hlt)%IH; [|done|done].
    assert (Hal : moved st2 (allocate st2).1 0 0 1 []) by moves.
    pose proof (moved_trans _ _ _ _ _ _ _ _ _ _ _ (moved_trans _ _ _ _ _ _ _ _ _ _ _ H Hal) Hl) as Ht.
    rewrite app_nil_r in Ht. exists (new' ++ l), s, n.
    split_and!; [by eapply moved_weaken; [..|exact Ht]; lia|by apply result_ok_prefix|done|done]. }
  assert (Hm6 : moved st st1 6 6 0 new) by (eapply moved_weaken; [..|exact Hm]; unfold max_paxos_retries; lia).
  destruct e as [r1|err1|err1]; simpl in He.
  - intros [= <- <-]. by eapply Hdone.
  - apply (Hnext st1 new); done.
  - destruct (after_exhausted st1 slot) as [st2 stop] eqn:Eo.
    apply after_exhausted_ok in Eo as (new' & Hm' & Hn' & Hnc & Hnl).
    pose proof (moved_trans _ _ _ _ _ _ _ _ _ _ _ Hm Hm') as Ht.
    assert (Hn2 : no_identity (new ++ new')) by (by apply Forall_app).
    destruct stop as [r2|]; [|by apply (Hnext st2 (new ++ new'))].
    intros [= <- <-]. eapply Hdone; [exact Ht|]. destruct r2; simpl; try done. exfalso; by eapply Hnc.
Qed.
End proposal.

(** [propose_inner_impl]: gate, window permit, then the loops. *)
Definition propose_inner_impl (env : environment) (force_classic : bool) (own : list Z) (ids : list RequestIdentity)
  (condition : option (list Z * Z)) (is_leader : bool) (current_term proposing_term : Z) (required_term : option Z)
  (permit : bool) (st : pstate) : pstate * ProposeResult :=
  if negb (is_leader && (current_term =? proposing_term)
           && match required_term with Some t => t =? current_term | None => true end)
  then (st, RNotLeader)
  else if negb permit then (st, RBusy)
  else
    let quorum := cached_quorum (view env (clock st)) in
    let '(st, slot) := allocate env st in
    slot_retry env quorum force_classic own ids condition max_slot_retries st slot None.

Definition request_identity (client_id seq : option Z) : option RequestIdentity :=
  match client_id, seq with
  | Some cid, Some s => if cid =? 0 then None else Some (mkIdentity cid s)
  | _, _ => None
  end.

(** What [propose_with_tenure] does with a request. *)
Inductive admission :=
| Answered (r : ProposeResult)
| Coalesced (payload : list Z) (identity : option RequestIdentity)
| Proposed (st : pstate) (r : ProposeResult).

(** [cached] is [request_result_lookup] of the learner; the second gate of
    [propose_inner_impl] reads the role and the terms again. *)
Definition propose_with_tenure (env : environment) (force_classic : bool) (coalesce_max_keys : Z) (has_self_weak : bool)
  (cached : Z -> Z -> option Z) (payload : list Z) (client_id seq required_term : option Z)
  (is_leader : bool) (current_term proposing_term : Z)
  (is_leader' : bool) (current_term' proposing_term' : Z) (permit : bool) (st : pstate) : admission :=
  if negb (is_leader && (current_term =? proposing_term)
           && match required_term with Some t => t =? current_term | None => true end)
  then Answered RNotLeader
  else
    match (cid ← client_id; s ← seq; cached cid s) with
    | Some slot => Answered (RChosen slot)
    | None =>
        let identity := request_identity client_id seq in
        if bool_decide (required_term = None) && (0 <? coalesce_max_keys) && has_self_weak
        then Coalesced payload identity
        else
          let '(st, r) := propose_inner_impl env force_classic payload (option_list identity) None
                            is_leader' current_term' proposing_term' required_term permit st in
          Proposed st r
    end.

(** C10. A proposal, plain or conditional, whatever the network answers, whichever
    slots other proposals take and however the group changes meanwhile: it ends
    after at most 18 prepare phases, 18 accept phases and 4 slot allocations; the
    identities of the request are recorded exactly when the caller is told
    [Chosen], once, with an entry that holds the caller's own payload, in a slot
    this proposal allocated and is named in the answer, after an accept phase
    that saw a quorum; every other entry it learned on the way carries no
    identity; and [NotLeader] is answered only by the leadership gate, before any
    slot is taken, or after stepping down to a newer term. *)
Theorem propose_accounts env force own ids condition leader term proposing required permit ep :
  let '(st, r) := propose_inner_impl env force own ids condition leader term proposing required permit (start ep) in
  (prepares st <= 18)%nat /\ (accepts st <= 18)%nat /\ (allocations st <= 4)%nat /\
  match r with
  | RChosen s =>
      accepted_by_quorum env (cached_quorum (view env 0)) st /\
      exists n pre e, (n < allocations st)%nat /\ s = fresh_slot env n /\
        learned st = pre ++ [(e, ids)] /\ no_identity pre /\ Roles.slot e = s /\ payload e = own
  | RNotLeader => no_identity (learned st) /\ (st = start ep \/ is_Some (stepped_down st))
  | _ => no_identity (learned st)
  end.
Proof.
  unfold propose_inner_impl. destruct (negb (leader && _ && _)).
  { simpl. split_and!; [lia..|exact no_identity_nil|by left]. }
  destruct permit; [|simpl; split_and!; [lia..|exact no_identity_nil]]. cbn [negb].
  destruct (allocate env (start ep)) as [st0 slot] eqn:Ea. injection Ea as <- <-.
  destruct (slot_retry _ _ _ _ _ _ _ _ _ _) as [st r] eqn:Es.
  apply slot_retry_ok in Es as (new & s & n & [M1 M2 M3 M4 M5] & Hr & Hs & Hn); [|done|done].
  simpl in M1, M2, M3, M4. unfold max_slot_retries in *.
  split_and!; [lia..|]. rewrite M4. destruct r; simpl in Hr; try done.
  - destruct Hr as (-> & Hq & pre & e & -> & Hpre & He & Hp). split; [done|]. by exists n, pre, e.
  - destruct Hr as [Hr Hd]. auto.
Qed.

(** A run in which the first slot turns out to hold another proposer's value and
    the request lands in the second. *)
Definition demo_env : environment :=
  mkEnv (fun _ => None)
    (fun k => if (k =? 0)%nat
              then [Local (Some (Promised 5 None)); Remote true 2 (Some (Promised 5 (Some (mkEntry 5 (mkBallot 0 2) 7 [9]))))]
              else [Local (Some (Promised 8 None)); Remote true 2 (Some (Promised 8 None))])
    (fun _ => [Local (Some (Accepted 5 (mkBallot 1 1))); Remote true 2 (Some (Accepted 5 (mkBallot 1 1)))])
    (fun k => if (k =? 0)%nat then 5 else 8) (fun _ => Ok None) (fun _ => mkGroup 1 true 7 2 true true).

Example propose_past_foreign_value :
  let '(st, r) := propose_inner_impl demo_env true [4] [mkIdentity 3 1] None true 7 7 None true (start 0) in
  r = RChosen 8 /\ learned st = [(mkEntry 5 (mkBallot 1 1) 7 [9], []); (mkEntry 8 (mkBallot 1 1) 7 [4], [mkIdentity 3 1])].
Proof. vm_compute. done. Qed.

End Propose.
