(* ===== verification/Consensus.v ===== *)
(** * Consensus: the replicas of a group as one system

    Composes the handlers of [Replica] with the phases of [Phases]: any number
    of proposers run prepare and accept attempts against the voting replicas,
    messages arrive in any order or not at all, appends fail or run after the
    answer, replicas restart from their logs, hold elections, fetch gaps, trim
    their acceptors and apply entries in between.

    The theorem is agreement: two accept phases that end in [Chosen] for one
    slot chose the same payload.  It rests on three assumptions.  At most one
    entry is ever proposed for a slot in round 0, the round that skips the
    prepare phase; the code leaves that to the election, and
    [steady_state_terms_disagree] shows what happens without it.  A replica
    restarts only when every record it answered for is in its log; the code
    neither checks that an append succeeded nor, with [wal_early_ack], waits for
    it, and [early_ack_crash_disagrees] shows what happens without it.  The
    calls of one replica's acceptor do not overlap; [AcceptorConc] shows what
    happens when they do. *)

From stdpp Require Import prelude gmap list.
From Stdlib Require Import ZArith Lia.
From S2P Require Import Prelude Roles Bytes KvOp Acceptor Learner WalRecord WalReplay Phases Replica.

Import (hints) WalRecord.

Module Consensus.
Import KvOp Phases Replica.

(** Induction along the order of ballots built from [u64]s. *)
Lemma ballot_ind (P : PxBallot -> Prop) :
  (forall b, Acceptor.ballot_ok b -> (forall b', Acceptor.ballot_ok b' -> b' <b b -> P b') -> P b) ->
  forall b, Acceptor.ballot_ok b -> P b.
Proof.
  intros Hstep [r l] [Hr Hl]. simpl in *. revert l Hl.
  pattern r. apply Zlt_0_ind; [|done]. clear r Hr. intros r IHr Hr l Hl.
  pattern l. apply Zlt_0_ind; [|done]. clear l Hl. intros l IHl Hl.
  apply Hstep; [done|]. intros [r' l'] [Hr' Hl'] Hlt. unfold ballot_lt in Hlt. simpl in *.
  destruct Hlt as [?|[-> ?]]; [apply IHr|apply IHl]; lia.
Qed.

(** A promise that a replica sent back to the attempt that asked for it. *)
Record grant := mkGrant {
  g_attempt : nat;
  g_node : Z;
  g_slot : Z;
  g_ballot : PxBallot;
  g_accepted : option PxLogEntry;
}.

(** The voting members, and the entries a slot may be proposed with in round 0. *)
Record membership := mkMembers {
  voters : list Z;
  fast : Z -> PxLogEntry -> Prop;
}.

Definition fast_unique (m : membership) : Prop :=
  forall s e e', fast m s e -> fast m s e' -> e = e'.

Definition majority (m : membership) : nat := (length (voters m) / 2 + 1)%nat.

(** The replicas, and everything they ever answered or were asked.  A proposal
    remembers the prepare attempt it came from. *)
Record sys (E : Type) := mkSys {
  nodes : Z -> PxLocalReplica E;
  grants : list grant;
  proposals : list (option nat * PxLogEntry);
  accepts : list (Z * PxLogEntry);
  decided : list PxLogEntry;
}.
Arguments mkSys {E}.
Arguments nodes {E}.
Arguments grants {E}.
Arguments proposals {E}.
Arguments accepts {E}.
Arguments decided {E}.

Definition proposed (P : list (option nat * PxLogEntry)) (e : PxLogEntry) : Prop := exists o, (o, e) ∈ P.

(** The replica a reply came from. *)
Definition node_of {R} (g : PxGroup) (t : tagged R) : Z :=
  match t with Local _ => local_id g | Remote _ i _ => i end.

(** One reply per replica, and voting flags that match the membership. *)
Definition fan_out_ok {R} (m : membership) (g : PxGroup) (l : list (tagged R)) : Prop :=
  NoDup (node_of g <$> l) /\
  forall t, t ∈ l -> votes_of (local_voting g) t = true -> node_of g t ∈ voters m.

Section system.
Context {E : Type} `{!KVEngine E}.
(** The members, and whether restarts are durable. *)
Context (m : membership) (checked : bool).

Definition set_node (s : sys E) (n : Z) (r : PxLocalReplica E) : Z -> PxLocalReplica E :=
  fun n' => if decide (n' = n) then r else nodes s n'.

(** What can happen next. *)
Inductive action :=
| HandlePrepare (n : Z) (k : nat) (now : Z) (wal_ok : bool) (s : Z) (b : PxBallot) (t : Z)
| HandleAccept (n now : Z) (wal_ok : bool) (e : PxLogEntry)
| Fetched (n : Z) (wal_ok : bool) (s : Z) (e : PxLogEntry)
| Propose (k : nat) (g : PxGroup) (lp : option PxBallot) (s : Z) (own : list Z) (mr : Z)
    (replies : list (tagged PxPrepareReply))
| ProposeFast (g : PxGroup) (s : Z) (own : list Z)
| Decide (g : PxGroup) (e : PxLogEntry) (replies : list (tagged PxAcceptReply))
| Other (n : Z) (o : @event E).

Definition act (s : sys E) (a : action) : sys E :=
  match a with
  | HandlePrepare n k now ok sl b t =>
      let '(r, reply) := on_prepare now ok (nodes s n) sl b t in
      mkSys (set_node s n r)
        (match reply with Promised _ acc => mkGrant k n sl b acc :: grants s | _ => grants s end)
        (proposals s) (accepts s) (decided s)
  | HandleAccept n now ok e =>
      let '(r, reply) := on_accept now ok (nodes s n) e in
      mkSys (set_node s n r) (grants s) (proposals s)
        (match reply with Accepted _ _ => (n, e) :: accepts s | _ => accepts s end) (decided s)
  | Fetched n ok sl e =>
      mkSys (set_node s n (fetch_gap_reply ok (nodes s n) sl e)) (grants s) (proposals s) (accepts s) (decided s)
  | Propose k g lp sl own mr replies =>
      match run_prepare_phase g lp sl own (majority m) mr replies with
      | Some (Proceed e _, _) => mkSys (nodes s) (grants s) ((Some k, e) :: proposals s) (accepts s) (decided s)
      | _ => s
      end
  | ProposeFast g sl own =>
      mkSys (nodes s) (grants s) ((None, base_entry g sl own) :: proposals s) (accepts s) (decided s)
  | Decide g e replies =>
      match run_accept_phase g (majority m) replies with
      | Some o => match attempt o with
                  | Chosen => mkSys (nodes s) (grants s) (proposals s) (accepts s) (e :: decided s)
                  | _ => s
                  end
      | None => s
      end
  | Other n o => mkSys (set_node s n (exec (nodes s n) o)) (grants s) (proposals s) (accepts s) (decided s)
  end.

Definition elsewhere (o : @event E) : bool :=
  match o with DoPrepare _ _ _ _ _ | DoAccept _ _ _ | DoFetchGap _ _ _ => false | _ => true end.

(** Replies come from the replicas that sent them, to the attempt that asked; an
    attempt proposes once; accepts are only sent for proposals; with [checked],
    restarts are [durable]. *)
Definition act_ok (s : sys E) (a : action) : Prop :=
  match a with
  | HandlePrepare n _ _ _ sl b t => is_u64 n /\ 0 <= sl /\ ballot_zero <b b /\ 0 <= t
  | HandleAccept n _ _ e | Fetched n _ _ e => is_u64 n /\ proposed (proposals s) e
  | Propose k g lp sl own mr replies =>
      0 <= sl /\ 0 <= local_id g /\ 0 <= Phases.current_term g /\ round_fits lp mr /\
      ~ (Some k ∈ (proposals s).*1) /\ fan_out_ok m g replies /\
      forall t sl' acc, t ∈ replies -> reply_of t = Some (Promised sl' acc) ->
        mkGrant k (node_of g t) sl (prepare_ballot g lp mr) acc ∈ grants s
  | ProposeFast g sl own =>
      0 <= sl /\ 0 < local_id g /\ 0 <= Phases.current_term g /\ fast m sl (base_entry g sl own)
  | Decide g e replies =>
      fan_out_ok m g replies /\
      forall t sl b, t ∈ replies -> reply_of t = Some (Accepted sl b) -> (node_of g t, e) ∈ accepts s
  | Other n o => is_u64 n /\ elsewhere o = true /\ event_ok o /\ (checked = true -> durable (nodes s n) o)
  end.

(** A group of new replicas. *)
Definition initial (gid lease now : Z) (engine : E) : sys E :=
  mkSys (fun n => fresh n gid lease now Follower engine) [] [] [] [].

Inductive reachable (gid : Z) : sys E -> Prop :=
| reach_initial lease now engine : reachable gid (initial gid lease now engine)
| reach_act s a : reachable gid s -> act_ok s a -> reachable gid (act s a).

End system.

(** ** What the handlers do to a slot *)

Section views.
Context {E : Type} `{!KVEngine E}.
Implicit Types r : PxLocalReplica E.

(** What a replica answered for at a slot, trimmed or not. *)
Definition view (r : PxLocalReplica E) (s : Z) : Acceptor.slot_state := rebuild s (story r).

Lemma view_append rid gid r mk ok s :
  replica_base rid gid r -> entries_agree (story r ++ [mk gid]) ->
  view (wal_append r mk ok) s = rebuild s (story r ++ [mk gid]).
Proof.
  intros Hi Hag. unfold view. pose proof (story_append rid gid r mk ok Hi) as Hp.
  apply rebuild_perm; [done|]. eapply entries_agree_perm; [symmetry; exact Hp|done].
Qed.

Lemma on_prepare_view rid gid now ok r s b t r' reply :
  replica_inv rid gid r -> 0 <= s -> on_prepare now ok r s b t = (r', reply) ->
  match reply with
  | Promised _ acc =>
      Acceptor.may_promise b (view r s) = true /\ acc = Acceptor.accepted (view r s) /\
      forall s', view r' s' = if decide (s' = s) then Acceptor.promise_slot b (view r s) else view r s'
  | _ => forall s', view r' s' = view r s'
  end.
Proof.
  intros [Hi Hal] Hs. unfold on_prepare. destruct (term_fence now r t) as [r1|] eqn:Ef; [|by intros [= <- <-]].
  apply (term_fence_base _ _ _ _ _ _ Hi) in Ef as (Hi1 & Ha & Hl). rewrite <- Ha, <- Hl in Hal.
  assert (Hv : forall s', view r s' = view r1 s') by (intros s'; unfold view; by rewrite Hl).
  destruct Hal as (Hsl & _ & Hag).
  rewrite Acceptor.prepare_eq. destruct (Z.ltb_spec s (Acceptor.trim_slot (acceptor r1))).
  { by intros [= <- <-]. }
  cbv zeta. rewrite Hsl by done. fold (view r1 s).
  destruct (Acceptor.may_promise b (view r1 s)) eqn:Em; intros [= <- <-]; [|done].
  rewrite !Hv. split_and!; [done|done|]. intros s'. rewrite Hv. unfold view at 1. rewrite set_acceptor_story.
  fold (view (wal_append r1 (fun gid => WalRecord.from_promised gid t s b) ok) s').
  rewrite (view_append rid gid) by (done || by apply entries_agree_app).
  destruct (decide (s' = s)) as [->|Hne]; [|apply rebuild_other; by right].
  symmetry. by apply promise_logged.
Qed.

Lemma accepted_views rid gid r ok e s' :
  replica_inv rid gid r -> agrees (story r) e ->
  view (wal_append r (fun gid => WalRecord.from_accepted gid e) ok) s' =
    if decide (s' = slot e) then rebuild (slot e) (story r ++ [WalRecord.from_accepted gid e]) else view r s'.
Proof.
  intros [Hi (_ & _ & Hag')] Hag.
  rewrite (view_append rid gid) by (done || by apply entries_agree_app, from_accepted_agrees).
  destruct (decide (s' = slot e)) as [->|Hne]; [done|]. apply rebuild_other. by right.
Qed.

Lemma on_accept_view rid gid now ok r e r' reply :
  replica_inv rid gid r -> 0 <= slot e -> ballot_zero <b ballot e -> agrees (story r) e ->
  on_accept now ok r e = (r', reply) ->
  match reply with
  | Accepted _ _ =>
      Acceptor.may_accept (ballot e) (view r (slot e)) = true /\
      forall s', view r' s' = if decide (s' = slot e) then Acceptor.accept_slot e (view r (slot e)) else view r s'
  | _ => forall s', view r' s' = view r s'
  end.
Proof.
  intros [Hi Hal] Hs Hb Hag. unfold on_accept, on_accept_inner, on_accept_persist.
  destruct (term_fence now r (term e)) as [r1|] eqn:Ef; [|by intros [= <- <-]].
  apply (term_fence_base _ _ _ _ _ _ Hi) in Ef as (Hi1 & Ha & Hl). rewrite <- Ha, <- Hl in Hal.
  assert (Hv : forall s', view r s' = view r1 s') by (intros s'; unfold view; by rewrite Hl).
  rewrite <- Hl in Hag. pose proof Hal as (Hsl & _ & _).
  rewrite Acceptor.accept_eq. destruct (Z.ltb_spec (slot e) (Acceptor.trim_slot (acceptor r1))).
  { by intros [= <- <-]. }
  cbv zeta. rewrite Hsl by done. fold (view r1 (slot e)).
  destruct (Acceptor.may_accept (ballot e) (view r1 (slot e))) eqn:Em; intros [= <- <-]; [|done].
  rewrite !Hv. split_and!; [done|]. intros s'. rewrite Hv. unfold view at 1. rewrite set_acceptor_story.
  fold (view (wal_append r1 (fun gid => WalRecord.from_accepted gid e) ok) s').
  rewrite (accepted_views rid gid) by (done || by split). case_decide; [|done]. symmetry. by apply accept_logged.
Qed.

Lemma fetch_gap_view rid gid ok r s e :
  replica_inv rid gid r -> ballot_zero <b ballot e -> agrees (story r) e ->
  (forall s', view (fetch_gap_reply ok r s e) s' = view r s') \/
  forall s', view (fetch_gap_reply ok r s e) s' =
    if decide (s' = slot e) then (Acceptor.install_slot e (view r (slot e))).1 else view r s'.
Proof.
  intros Hi Hb Hag. unfold fetch_gap_reply. destruct (negb _); [by left|right]. intros s'.
  assert (Hst : forall a l, story (set_learner (set_acceptor (wal_append r (fun gid => WalRecord.from_accepted gid e) true) a) l)
    = story (wal_append r (fun gid => WalRecord.from_accepted gid e) true)) by done.
  change (view r (slot e)) with (rebuild (slot e) (story r)).
  rewrite install_logged with (gid := gid) by done. rewrite <- (accepted_views rid gid r true) by done.
  by destruct (Acceptor.install_chosen _ _) as [a []].
Qed.

(** No other event touches a slot. *)
Lemma other_event_view rid gid r o s :
  is_u64 rid -> replica_inv rid gid r -> elsewhere o = true -> event_ok o -> durable r o ->
  view (exec r o) s = view r s.
Proof.
  intros Hid [Hi Hal] Ho Hok Hd.
  assert (Hvote : forall s' rm ok, 0 <= current_term s' ->
    view (persist_current_vote (set_election r s' (current_term s') rm) ok) s = view r s).
  { intros s' rm ok H0.
    assert (Hi' : replica_base rid gid (set_election r s' (current_term s') rm)) by (by eapply base_election).
    unfold persist_current_vote. rewrite (view_append rid gid) by
      first [done|apply entries_agree_app; [apply Hal|done]].
    rewrite rebuild_other by (by left). done. }
  destruct o as [now ok s0 b t|now ok x|ok s0 x|now ok req|now ok t|i|now req|now req|now t| |now
    |s0 t b|x ids| |before|now x en rf]; simpl in Ho; try done; simpl.
  - unfold handle_request_vote. destruct (_ && candidate_log_up_to_date r req && lockout_ok now r); [|done].
    cbn [fst]. apply Hvote. cbn [current_term]. pose proof (ri_term _ _ _ Hi). destruct Hok as [_ ?].
    by destruct (_ <? _).
  - by apply (Hvote (mkElection t (Some (id r)) Candidate (leader_id (election r)) (now + lease_duration_ms r))).
  - symmetry. apply rebuild_perm; [symmetry; apply story_append_owed|apply Hal].
  - unfold handle_heartbeat. destruct (_ <? _); [done|]. by destruct (if _ <? _ then _ else _).
  - unfold handle_step_down. by destruct (_ && _ && _).
  - unfold view. by rewrite (same_core_story _ _ (chosen_notice_core r s0 t b)).
  - unfold view. by rewrite (same_core_story _ _ (apply_turn_core r)).
  - simpl in Hd. unfold view, story, log_of, owed_of, restart in *. destruct (wal r) as [w|]; [|done].
    simpl. by rewrite Hd.
Qed.

End views.

(** ** The invariant *)

Section agreement.
Context (m : membership).
Implicit Types (V : Z -> Z -> Acceptor.slot_state) (G : list grant) (P : list (option nat * PxLogEntry))
  (A : list (Z * PxLogEntry)).

Definition is_majority (Q : list Z) : Prop :=
  NoDup Q /\ (forall n, n ∈ Q -> n ∈ voters m) /\ (majority m <= length Q)%nat.

Lemma majorities_meet Q1 Q2 : is_majority Q1 -> is_majority Q2 -> exists n, n ∈ Q1 /\ n ∈ Q2.
Proof.
  intros (H1 & H2 & H3) (H4 & H5 & H6). apply (majorities_intersect (voters m)); try done.
  unfold majority in *. pose proof (Nat.div_mod_eq (length (voters m)) 2).
  pose proof (Nat.mod_upper_bound (length (voters m)) 2). lia.
Qed.

Definition entry_ok (e : PxLogEntry) : Prop :=
  0 <= slot e /\ ballot_zero <b ballot e /\ Acceptor.ballot_ok (ballot e) /\ 0 <= term e.

(** A proposal of a prepare attempt: a majority promised its ballot to that
    attempt, and whatever entry one of them reported, the payload is that of a
    reported entry at least as high. *)
Definition backed G (k : nat) (e : PxLogEntry) : Prop :=
  0 < round (ballot e) /\ exists Q, is_majority Q /\
  forall n, n ∈ Q -> exists acc, mkGrant k n (slot e) (ballot e) acc ∈ G /\
    forall a, acc = Some a -> exists n' top, mkGrant k n' (slot e) (ballot e) (Some top) ∈ G /\
      ballot a <=b ballot top /\ payload e = payload top.

Record inv V G P A : Prop := {
  i_promised : forall g, g ∈ G -> exists p, Acceptor.promised (V (g_node g) (g_slot g)) = Some p /\ g_ballot g <=b p;
  i_once : forall g g', g ∈ G -> g' ∈ G -> g_node g = g_node g' -> g_slot g = g_slot g' ->
    g_ballot g = g_ballot g' -> g = g';
  i_voted : forall n e, (n, e) ∈ A -> proposed P e /\
    exists a, Acceptor.accepted (V n (slot e)) = Some a /\ ballot e <=b ballot a;
  i_accepted : forall n s a, Acceptor.accepted (V n s) = Some a -> proposed P a /\ slot a = s /\
    exists p, Acceptor.promised (V n s) = Some p /\ ballot a <=b p;
  i_report : forall g e, g ∈ G -> (g_node g, e) ∈ A -> slot e = g_slot g -> ballot e <b g_ballot g ->
    exists a, g_accepted g = Some a /\ ballot e <=b ballot a;
  i_reported : forall g a, g ∈ G -> g_accepted g = Some a ->
    proposed P a /\ slot a = g_slot g /\ ballot a <b g_ballot g;
  i_proposed : forall o e, (o, e) ∈ P -> entry_ok e /\
    match o with
    | None => round (ballot e) = 0 /\ fast m (slot e) e
    | Some k => backed G k e
    end;
  i_attempt : forall k e e', (Some k, e) ∈ P -> (Some k, e') ∈ P -> e = e';
}.

Section safety.
Context (U : fast_unique m) V G P A (I : inv V G P A).

(** A ballot carries one entry per slot: an acceptor promises it to one attempt. *)
Lemma one_entry_per_ballot e e' :
  proposed P e -> proposed P e' -> slot e = slot e' -> ballot e = ballot e' -> e = e'.
Proof.
  intros [o Ho] [o' Ho'] Hs Hb.
  destruct (i_proposed _ _ _ _ I _ _ Ho) as [_ H], (i_proposed _ _ _ _ I _ _ Ho') as [_ H'].
  destruct o as [k|], o' as [k'|].
  - destruct H as (_ & Q & HQ & H), H' as (_ & Q' & HQ' & H').
    destruct (majorities_meet Q Q' HQ HQ') as (n & Hn & Hn').
    destruct (H n Hn) as (acc & Hg & _), (H' n Hn') as (acc' & Hg' & _).
    pose proof (i_once _ _ _ _ I _ _ Hg Hg') as Heq. simpl in Heq.
    specialize (Heq eq_refl Hs Hb). injection Heq as -> _ _ _.
    exact (i_attempt _ _ _ _ I _ _ _ Ho Ho').
  - destruct H as (Hr & _), H' as (Hr' & _). rewrite Hb in Hr. lia.
  - destruct H as (Hr & _), H' as (Hr' & _). rewrite Hb in Hr. lia.
  - destruct H as (_ & Hf), H' as (_ & Hf'). rewrite Hs in Hf. exact (U _ _ _ Hf Hf').
Qed.

Definition chosen A (e : PxLogEntry) : Prop := exists Q, is_majority Q /\ forall n, n ∈ Q -> (n, e) ∈ A.

Lemma majority_inhabited Q : is_majority Q -> exists n, n ∈ Q.
Proof. intros HQ. destruct (majorities_meet Q Q HQ HQ) as (n & ? & _). eauto. Qed.

Lemma chosen_proposed e : chosen A e -> proposed P e.
Proof.
  intros (Q & HQ & H). destruct (majority_inhabited Q HQ) as [n Hn]. by apply (i_voted _ _ _ _ I n e), H.
Qed.

(** Every proposal above a chosen ballot repeats the chosen payload. *)
Lemma safe_value e : chosen A e ->
  forall b, Acceptor.ballot_ok b -> forall e', ballot e' = b -> proposed P e' -> slot e' = slot e ->
    ballot e <b ballot e' -> payload e' = payload e.
Proof.
  intros Hch. pose proof Hch as (Q & HQ & Hv). refine (ballot_ind _ _).
  intros b Hb IH e' <- Hp Hs Hlt. pose proof Hp as [o Ho].
  destruct (i_proposed _ _ _ _ I _ _ Ho) as [_ H]. destruct o as [k|].
  - destruct H as (_ & Q' & HQ' & H). destruct (majorities_meet Q Q' HQ HQ') as (n & Hn & Hn').
    destruct (H n Hn') as (acc & Hg & Htop).
    destruct (i_report _ _ _ _ I _ e Hg) as (a & Ha & Hle); simpl; auto. simpl in Ha.
    destruct (Htop a Ha) as (n' & top & Hg' & Hat & ->).
    destruct (i_reported _ _ _ _ I _ top Hg' eq_refl) as (Hpt & Hst & Hlt'). simpl in Hst, Hlt'.
    assert (ballot e <=b ballot top) as [Hlt''|Heq] by eauto using ballot_le_trans.
    + destruct Hpt as [ot Hot]. pose proof (i_proposed _ _ _ _ I _ _ Hot) as [(_ & _ & Hok & _) _].
      apply (IH (ballot top)); auto; [by exists ot|congruence].
    + f_equal. apply one_entry_per_ballot; [done|by apply chosen_proposed|congruence|done].
  - destruct H as [Hr Hf]. pose proof (chosen_proposed e Hch) as [o He].
    destruct (i_proposed _ _ _ _ I _ _ He) as [(_ & _ & (Hok & _) & _) H]. destruct o as [k|].
    + destruct H as (Hr' & _). bunfold. lia.
    + destruct H as [_ Hf']. rewrite Hs in Hf. by rewrite (U _ _ _ Hf Hf').
Qed.

Lemma chosen_agree e e' : chosen A e -> chosen A e' -> slot e = slot e' -> payload e = payload e'.
Proof.
  intros H H' Hs. pose proof (chosen_proposed _ H) as Hp. pose proof (chosen_proposed _ H') as Hp'.
  assert (forall x, proposed P x -> Acceptor.ballot_ok (ballot x)) as Hok.
  { intros x [o Ho]. apply (i_proposed _ _ _ _ I _ _ Ho). }
  destruct (decide (ballot e = ballot e')) as [Hb|Hne].
  - f_equal. by apply one_entry_per_ballot.
  - destruct (decide (ballot_ltb (ballot e) (ballot e') = true)) as [Hlt|Hge].
    + symmetry. eapply (safe_value e H (ballot e')); eauto.
      by destruct (ballot_ltb_spec (ballot e) (ballot e')).
    + eapply (safe_value e' H' (ballot e)); eauto.
      destruct (ballot_ltb_spec (ballot e) (ballot e')) as [|Hn]; [done|].
      apply ballot_nlt in Hn as [?|?]; [done|congruence].
Qed.

End safety.

(** ** Every action preserves it *)

(** [V'] is [V] with [y] at slot [s] of node [n]. *)
Definition upd V (n s : Z) (y : Acceptor.slot_state) V' : Prop :=
  forall n' s', V' n' s' = if decide (n' = n /\ s' = s) then y else V n' s'.

Lemma upd_hit V n s y V' : upd V n s y V' -> V' n s = y.
Proof. intros H. rewrite H. by rewrite decide_True. Qed.

Lemma upd_miss V n s y V' n' s' : upd V n s y V' -> ~ (n' = n /\ s' = s) -> V' n' s' = V n' s'.
Proof. intros H Hne. rewrite H. by rewrite decide_False. Qed.

(** A slot that only rises and holds proposals keeps the invariant. *)
Lemma inv_slot V G P A n s y V' :
  inv V G P A -> upd V n s y V' -> Acceptor.slot_le (V n s) y ->
  (forall a, Acceptor.accepted y = Some a -> proposed P a /\ slot a = s /\
     exists p, Acceptor.promised y = Some p /\ ballot a <=b p) ->
  inv V' G P A.
Proof.
  intros I Hu [Hp Ha] Hy. destruct I as [I1 I2 I3 I4 I5 I6 I7 I8]. constructor; try done.
  - intros g Hg. destruct (I1 g Hg) as (p & Hpg & Hle).
    destruct (decide (g_node g = n /\ g_slot g = s)) as [[Hn Hs]|Hne].
    + rewrite Hn, Hs in *. rewrite (upd_hit _ _ _ _ _ Hu). rewrite Hpg in Hp.
      destruct (Acceptor.promised y) as [p'|]; [|done]. simpl in Hp. eauto using ballot_le_trans.
    + rewrite (upd_miss _ _ _ _ _ _ _ Hu Hne). eauto.
  - intros n' e He. destruct (I3 n' e He) as (Hpr & a & Hae & Hle). split; [done|].
    destruct (decide (n' = n /\ slot e = s)) as [[Hn Hs]|Hne].
    + rewrite Hn, Hs in *. rewrite (upd_hit _ _ _ _ _ Hu). rewrite Hae in Ha.
      destruct (Acceptor.accepted y) as [a'|]; [|done]. simpl in Ha. eauto using ballot_le_trans.
    + rewrite (upd_miss _ _ _ _ _ _ _ Hu Hne). eauto.
  - intros n' s' a. destruct (decide (n' = n /\ s' = s)) as [[-> ->]|Hne].
    + rewrite (upd_hit _ _ _ _ _ Hu). apply Hy.
    + rewrite (upd_miss _ _ _ _ _ _ _ Hu Hne). apply I4.
Qed.

Lemma inv_ext V G P A V' : inv V G P A -> (forall n s, V' n s = V n s) -> inv V' G P A.
Proof.
  intros I Hv. apply (inv_slot V G P A 0 0 (V 0 0)); [done| |apply Acceptor.slot_le_refl|].
  - intros n s. rewrite Hv. case_decide as Hd; [|done]. by destruct Hd as [-> ->].
  - apply (i_accepted _ _ _ _ I).
Qed.

Lemma inv_slot_wf V G P A n s : inv V G P A -> Acceptor.slot_wf s (V n s).
Proof.
  intros I a Ha. destruct (i_accepted _ _ _ _ I _ _ _ Ha) as (_ & Hs & p & -> & Hle). done.
Qed.

Lemma inv_prepare V G P A k n s b V' :
  inv V G P A -> ballot_zero <b b -> Acceptor.may_promise b (V n s) = true ->
  upd V n s (Acceptor.promise_slot b (V n s)) V' ->
  inv V' (mkGrant k n s b (Acceptor.accepted (V n s)) :: G) P A.
Proof.
  intros I Hb Hm Hu.
  assert (Habove : forall p, Acceptor.promised (V n s) = Some p -> p <b b).
  { intros p Hp. unfold Acceptor.may_promise in Hm. rewrite Hp in Hm. revert Hm.
    destruct (ballot_leb_spec b p) as [|Hn]; [done|]. intros _. bunfold. lia. }
  assert (I' : inv V' G P A).
  { eapply inv_slot; [exact I|exact Hu| |].
    - split; simpl; [|apply opt_le_refl; eauto with crowdb].
      destruct (Acceptor.promised (V n s)) as [p|]; [|done]. simpl. by apply ballot_lt_le, Habove.
    - simpl. intros a Ha. destruct (i_accepted _ _ _ _ I _ _ _ Ha) as (? & ? & p & Hp & Hle).
      split_and!; [done|done|]. exists b. split; [done|]. specialize (Habove p Hp). bsolve. }
  assert (Hnew : forall g, g ∈ G -> g_node g = n -> g_slot g = s -> g_ballot g = b -> False).
  { intros g Hg <- <- <-. destruct (i_promised _ _ _ _ I g Hg) as (p & Hp & Hle).
    specialize (Habove p Hp). bsolve. }
  destruct I' as [I1 I2 I3 I4 I5 I6 I7 I8]. constructor; try done.
  - intros g [->|Hg]%elem_of_cons; [|auto]. simpl. rewrite (upd_hit _ _ _ _ _ Hu). simpl. eauto with crowdb.
  - intros g g' [->|Hg]%elem_of_cons [->|Hg']%elem_of_cons; simpl; auto; intros; exfalso; eauto.
  - intros g e [->|Hg]%elem_of_cons; [|auto]. simpl. intros He Hs _.
    destruct (i_voted _ _ _ _ I n e He) as (_ & Hx). by rewrite Hs in Hx.
  - intros g a [->|Hg]%elem_of_cons; [|auto]. simpl. intros Ha.
    destruct (i_accepted _ _ _ _ I _ _ _ Ha) as (? & ? & p & Hp & Hle). specialize (Habove p Hp).
    split_and!; [done|done|]. bsolve.
  - intros o e He. destruct (I7 o e He) as [Hok H]. split; [done|]. destruct o as [k'|]; [|done].
    destruct H as (Hr & Q & HQ & H). split; [done|]. exists Q. split; [done|]. intros x Hx.
    destruct (H x Hx) as (acc & Hg & Ht). exists acc. split; [by right|]. intros a Ha.
    destruct (Ht a Ha) as (x' & top & Hg' & ?). exists x', top. split; [by right|done].
Qed.

Lemma inv_accept V G P A n e V' :
  inv V G P A -> proposed P e -> Acceptor.may_accept (ballot e) (V n (slot e)) = true ->
  upd V n (slot e) (Acceptor.accept_slot e (V n (slot e))) V' ->
  inv V' G P ((n, e) :: A).
Proof.
  intros I [o Ho] Hm Hu. pose proof (i_proposed _ _ _ _ I _ _ Ho) as [(Hs & Hz & Hok & Ht) _].
  destruct (Acceptor.accept_slot_ok e (V n (slot e)) Hok (inv_slot_wf _ _ _ _ _ _ I) Hm) as [Hwf Hle].
  assert (Hp : exists p, Acceptor.promised (Acceptor.accept_slot e (V n (slot e))) = Some p /\ ballot e <=b p).
  { destruct (Hwf e eq_refl) as [_ Hb]. destruct (Acceptor.promised (Acceptor.accept_slot e _)) as [p|]; eauto.
    simpl in Hb. exfalso. bsolve. }
  assert (I' : inv V' G P A).
  { eapply inv_slot; [exact I|exact Hu|exact Hle|]. intros a [= <-]. split_and!; [by exists o|done|exact Hp]. }
  destruct I' as [I1 I2 I3 I4 I5 I6 I7 I8]. constructor; try done.
  - intros n' e' [[= -> ->]|He]%elem_of_cons; [|auto]. split; [by exists o|].
    rewrite (upd_hit _ _ _ _ _ Hu). simpl. eauto with crowdb.
  - intros g e' Hg [[= Hn ->]|He]%elem_of_cons; [|auto]. intros Hsl Hlt. exfalso.
    destruct (i_promised _ _ _ _ I g Hg) as (p & Hpg & Hge). rewrite Hn, <- Hsl in Hpg.
    unfold Acceptor.may_accept in Hm. rewrite Hpg in Hm. revert Hm.
    destruct (ballot_ltb_spec (ballot e) p) as [|Hn']; [done|]. intros _. bsolve.
Qed.

Lemma inv_install V G P A n e V' :
  inv V G P A -> proposed P e -> upd V n (slot e) (Acceptor.install_slot e (V n (slot e))).1 V' -> inv V' G P A.
Proof.
  intros I [o Ho] Hu. pose proof (i_proposed _ _ _ _ I _ _ Ho) as [(Hs & Hz & Hok & Ht) _].
  destruct (Acceptor.install_slot_ok e (V n (slot e)) Hok (inv_slot_wf _ _ _ _ _ _ I)) as [Hwf Hle].
  eapply inv_slot; [exact I|exact Hu|exact Hle|]. intros a Ha. destruct (Hwf a Ha) as [Hsa Hb].
  assert (Hpa : proposed P a).
  { unfold Acceptor.install_slot in Ha.
    assert (Hold : forall x, Acceptor.accepted (if Acceptor.may_promise (ballot e) (V n (slot e))
      then Acceptor.promise_slot (ballot e) (V n (slot e)) else V n (slot e)) = Some x -> proposed P x).
    { intros x Hx. apply (i_accepted _ _ _ _ I n (slot e)). by destruct (Acceptor.may_promise _ _). }
    destruct (Acceptor.accepted (V n (slot e))) as [acc|]; [destruct (ballot_leb _ _)|]; simpl in Ha; eauto;
      injection Ha as <-; by exists o. }
  split_and!; [done|done|].
  destruct (Acceptor.promised (Acceptor.install_slot e (V n (slot e))).1) as [p|]; [by exists p|].
  exfalso. simpl in Hb. destruct Hpa as [oa Hoa].
  pose proof (i_proposed _ _ _ _ I _ _ Hoa) as [(_ & Hza & _) _]. bsolve.
Qed.

Lemma inv_propose V G P A o e :
  inv V G P A -> entry_ok e ->
  match o with
  | None => round (ballot e) = 0 /\ fast m (slot e) e
  | Some k => backed G k e /\ forall e', ~ (Some k, e') ∈ P
  end ->
  inv V G ((o, e) :: P) A.
Proof.
  intros I Hok Ho. destruct I as [I1 I2 I3 I4 I5 I6 I7 I8].
  assert (Hgrow : forall x, proposed P x -> proposed ((o, e) :: P) x) by (intros x [ox Hx]; exists ox; by right).
  constructor; try done.
  - intros n x Hx. destruct (I3 n x Hx). auto.
  - intros n s a Ha. destruct (I4 n s a Ha). auto.
  - intros g a Hg Ha. destruct (I6 g a Hg Ha). auto.
  - intros o' e' [[= -> ->]|He]%elem_of_cons; [|auto]. split; [done|]. destruct o; tauto.
  - intros k x y Hx Hy. rewrite elem_of_cons in Hx, Hy.
    destruct Hx as [Hx|Hx], Hy as [Hy|Hy]; simplify_eq; eauto; destruct Ho as [_ Ho]; exfalso; eapply Ho; eassumption.
Qed.

(** The replicas behind the votes of a fan-out. *)
Lemma fan_out_majority {R} g (l rest : list (tagged R)) (f : tagged R -> bool) :
  fan_out_ok m g (l ++ rest) -> (forall t, f t = true -> votes_of (local_voting g) t = true) ->
  (majority m <= length (List.filter f l))%nat ->
  is_majority (node_of g <$> List.filter f l).
Proof.
  intros [Hnd Hv] Hf Hlen. rewrite fmap_app in Hnd. apply NoDup_app in Hnd as (Hnd & _).
  split_and!.
  - revert Hnd. clear. induction l as [|t l IH]; simpl; [done|]. intros [Hn Hnd]%NoDup_cons.
    destruct (f t); simpl; [|auto]. apply NoDup_cons. split; [|auto]. intros Hin. apply Hn.
    apply list_elem_of_fmap in Hin as (t' & -> & Ht'). apply list_elem_of_fmap. exists t'. split; [done|].
    apply list_elem_of_In, filter_In in Ht' as [Ht' _]. by apply list_elem_of_In.
  - intros n Hn. apply list_elem_of_fmap in Hn as (t & -> & Ht).
    apply list_elem_of_In, filter_In in Ht as [Ht Hft]. apply Hv; [|by apply Hf].
    apply elem_of_app. left. by apply list_elem_of_In.
  - by rewrite length_fmap.
Qed.

Lemma elem_of_filtered {R} g (l : list (tagged R)) f n :
  n ∈ node_of g <$> List.filter f l -> exists t, t ∈ l /\ f t = true /\ node_of g t = n.
Proof.
  intros (t & -> & Ht)%list_elem_of_fmap. apply list_elem_of_In, filter_In in Ht as [Ht Hf].
  exists t. split_and!; [by apply list_elem_of_In|done|done].
Qed.

Lemma elem_of_reported l a : a ∈ reported l ->
  exists t s, t ∈ l /\ reply_of t = Some (Promised s (Some a)).
Proof.
  intros (t & Ht & Hr)%list_elem_of_omap. exists t. destruct (reply_of t) as [[s acc| | |]|]; try done.
  exists s. by rewrite Hr.
Qed.

Lemma prepared_backed V G P A k g lp s own mr replies e fv rest :
  inv V G P A -> fan_out_ok m g replies -> round_fits lp mr ->
  (forall t sl acc, t ∈ replies -> reply_of t = Some (Promised sl acc) ->
     mkGrant k (node_of g t) s (prepare_ballot g lp mr) acc ∈ G) ->
  run_prepare_phase g lp s own (majority m) mr replies = Some (Proceed e fv, rest) ->
  backed G k e.
Proof.
  intros I Hf Hfit Hg Hrun.
  apply prepare_proceed_facts in Hrun as (folded & -> & Hq & _ & Hs & Hb & _ & _ & Hval).
  split.
  { rewrite Hb. unfold prepare_ballot. simpl. destruct Hfit as [Hmr Hlp]. unfold wrap64.
    assert (H : 0 <= match lp with Some b => Z.max mr (round b) | None => mr end < u64_max).
    { destruct lp as [b|]; [|lia]. specialize (Hlp b eq_refl). lia. }
    unfold u64_max in H. rewrite Z.mod_small; lia. }
  exists (node_of g <$> List.filter (is_promise_vote (local_voting g)) folded). split.
  { eapply fan_out_majority; [exact Hf| |exact Hq]. intros t. unfold is_promise_vote.
    by destruct (reply_of t) as [[]|]. }
  intros n (t & Ht & Hv & <-)%elem_of_filtered. unfold is_promise_vote in Hv.
  destruct (reply_of t) as [[sl acc| | |]|] eqn:Er; try done. exists acc.
  assert (Ht' : t ∈ folded ++ rest) by (apply elem_of_app; by left).
  rewrite Hs, Hb. split; [eauto|]. intros a ->.
  assert (Ha : a ∈ reported folded) by (apply list_elem_of_omap; exists t; by rewrite Er).
  destruct Hval as [[Hnil _]|(prev & Hin & Hpay & Hmax)]; [rewrite Hnil in Ha; by apply not_elem_of_nil in Ha|].
  destruct (elem_of_reported _ _ Hin) as (t' & s' & Hin' & Hr'). exists (node_of g t'), prev.
  split_and!; [|by apply Hmax|done]. eapply Hg; [apply elem_of_app; by left|exact Hr'].
Qed.

(** ** The whole system *)

Context {E : Type} `{!KVEngine E} (gid : Z) (U : fast_unique m).
Definition views (s : sys E) : Z -> Z -> Acceptor.slot_state := fun n => view (nodes s n).

Record sys_inv (s : sys E) : Prop := {
  si_replicas : forall n, is_u64 n -> replica_inv n gid (nodes s n);
  si_logged : forall n e, is_u64 n -> storied (story (nodes s n)) e -> proposed (proposals s) e;
  si_inv : inv (views s) (grants s) (proposals s) (accepts s);
  si_decided : forall e, e ∈ decided s -> chosen (accepts s) e;
}.

Lemma set_node_upd (s : sys E) n r sl y :
  (forall s', view r s' = if decide (s' = sl) then y else view (nodes s n) s') ->
  upd (views s) n sl y (fun n' => view (set_node s n r n')).
Proof.
  intros H n' s'. unfold set_node, views. destruct (decide (n' = n)) as [->|Hn].
  - rewrite H. destruct (decide (s' = sl)); [rewrite decide_True by done|rewrite decide_False by tauto]; done.
  - rewrite decide_False by tauto. done.
Qed.

(** A step of one replica: the rest of the system does not notice. *)
Lemma replica_step (s : sys E) n r G A :
  sys_inv s -> is_u64 n -> replica_inv n gid r ->
  (forall e, storied (story r) e -> storied (story (nodes s n)) e \/ proposed (proposals s) e) ->
  inv (fun n' => view (set_node s n r n')) G (proposals s) A ->
  (forall x, x ∈ accepts s -> x ∈ A) ->
  sys_inv (mkSys (set_node s n r) G (proposals s) A (decided s)).
Proof.
  intros [S1 S2 S3 S4] Hn Hr Hl Hi HA. constructor; simpl.
  - intros n' Hn'. unfold set_node. case_decide; [by subst|auto].
  - intros n' e Hn'. unfold set_node. case_decide; [subst|by apply S2].
    intros [He|He]%Hl; [by apply (S2 n)|done].
  - exact Hi.
  - intros e He. destruct (S4 e He) as (Q & HQ & Hv). exists Q. split; [done|]. auto.
Qed.

Lemma inv_unchanged (s : sys E) n r :
  sys_inv s -> (forall s', view r s' = view (nodes s n) s') ->
  inv (fun n' => view (set_node s n r n')) (grants s) (proposals s) (accepts s).
Proof.
  intros S Hv. eapply inv_ext; [apply S|]. intros n' s'. unfold set_node, views. case_decide; [by subst|done].
Qed.

Lemma proposed_ok (s : sys E) e : sys_inv s -> proposed (proposals s) e -> entry_ok e.
Proof. intros [_ _ S3 _] [o Ho]. apply (i_proposed _ _ _ _ S3 _ _ Ho). Qed.

(** A proposal is the one entry of its ballot in whatever a replica answered for. *)
Lemma proposed_agrees (s : sys E) n e :
  sys_inv s -> is_u64 n -> proposed (proposals s) e -> agrees (story (nodes s n)) e.
Proof.
  intros S Hn Hp e' He'. apply (one_entry_per_ballot U _ _ _ _ (si_inv _ S)); [|done]. by apply (si_logged _ S n).
Qed.

Lemma prepare_inv (s : sys E) n k now ok sl b t :
  sys_inv s -> act_ok m true s (HandlePrepare n k now ok sl b t) -> sys_inv (act m s (HandlePrepare n k now ok sl b t)).
Proof.
  intros S (Hn & Hs & Hb & Ht). pose proof (si_replicas _ S n Hn) as Hr. simpl.
  pose proof (event_inv n gid (nodes s n) (DoPrepare now ok sl b t) Hr (conj Hs (conj Hb Ht)) ltac:(done)) as Hr'.
  pose proof (fun e => exec_storied n gid (nodes s n) (DoPrepare now ok sl b t) e (proj1 Hr) (conj Hs (conj Hb Ht))) as Hl.
  simpl in Hl. destruct (on_prepare now ok (nodes s n) sl b t) as [r reply] eqn:Er.
  pose proof (on_prepare_view n gid now ok _ sl b t r reply Hr Hs Er) as Hv. cbn [fst exec] in Hr', Hl. rewrite Er in Hr'. simpl in Hr', Hl.
  apply replica_step; auto.
  { intros e [|]%Hl; [by left|done]. }
  destruct reply as [sl' acc| | |].
  - destruct Hv as (Hm & -> & Hv). apply (inv_prepare (views s)); [apply S|done|done|].
    by apply set_node_upd.
  - by apply inv_unchanged.
  - by apply inv_unchanged.
  - by apply inv_unchanged.
Qed.

Lemma accept_inv (s : sys E) n now ok e :
  sys_inv s -> act_ok m true s (HandleAccept n now ok e) -> sys_inv (act m s (HandleAccept n now ok e)).
Proof.
  intros S (Hn & Hp). pose proof (proposed_ok s e S Hp) as (Hs & Hz & _ & Ht).
  pose proof (si_replicas _ S n Hn) as Hr. pose proof (proposed_agrees s n e S Hn Hp) as Hag. simpl.
  pose proof (event_inv n gid (nodes s n) (DoAccept now ok e) Hr (conj Hs (conj Hz Ht))) as Hr'.
  specialize (Hr' ltac:(by intros x [= <-])).
  pose proof (fun x => exec_storied n gid (nodes s n) (DoAccept now ok e) x (proj1 Hr) (conj Hs (conj Hz Ht))) as Hl.
  simpl in Hl. destruct (on_accept now ok (nodes s n) e) as [r reply] eqn:Er.
  pose proof (on_accept_view n gid now ok _ e r reply Hr Hs Hz Hag Er) as Hv. cbn [fst exec] in Hr', Hl. rewrite Er in Hr'. simpl in Hr', Hl.
  assert (Hl' : forall x, storied (story r) x -> storied (story (nodes s n)) x \/ proposed (proposals s) x).
  { intros x [|[= ->]]%Hl; auto. }
  destruct reply as [sl' acc| | |]; apply replica_step; auto.
  - destruct Hv as (Hm & Hv). apply (inv_accept (views s)); [apply S|done|done|]. by apply set_node_upd.
  - intros x Hx. by right.
  - by apply inv_unchanged.
  - by apply inv_unchanged.
  - by apply inv_unchanged.
Qed.

Lemma fetched_inv (s : sys E) n ok sl e :
  sys_inv s -> act_ok m true s (Fetched n ok sl e) -> sys_inv (act m s (Fetched n ok sl e)).
Proof.
  intros S (Hn & Hp). pose proof (proposed_ok s e S Hp) as (Hs & Hz & _ & Ht).
  pose proof (si_replicas _ S n Hn) as Hr. pose proof (proposed_agrees s n e S Hn Hp) as Hag. simpl.
  apply replica_step; auto.
  - apply (event_inv n gid (nodes s n) (DoFetchGap ok sl e)); [done|done|by intros x [= <-]].
  - intros x Hx. destruct (exec_storied n gid (nodes s n) (DoFetchGap ok sl e) x (proj1 Hr)) as [|[= ->]]; auto. done.
  - destruct (fetch_gap_view n gid ok (nodes s n) sl e Hr Hz Hag) as [Hv|Hv]; [by apply inv_unchanged|].
    apply (inv_install (views s) _ _ _ n e); [apply S|done|]. by apply set_node_upd.
Qed.

(** A step of a proposer: replicas and votes stay as they are. *)
Lemma proposer_step (s : sys E) o e :
  sys_inv s -> inv (views s) (grants s) ((o, e) :: proposals s) (accepts s) ->
  sys_inv (mkSys (nodes s) (grants s) ((o, e) :: proposals s) (accepts s) (decided s)).
Proof.
  intros [S1 S2 S3 S4] Hi. constructor; simpl; auto. intros n x Hn Hx.
  destruct (S2 n x Hn Hx) as [ox Hox]. exists ox. by right.
Qed.

Lemma propose_inv (s : sys E) k g lp sl own mr replies :
  sys_inv s -> act_ok m true s (Propose k g lp sl own mr replies) ->
  sys_inv (act m s (Propose k g lp sl own mr replies)).
Proof.
  intros S (Hs & Hid & Ht & Hfit & Hk & Hf & Hg). simpl.
  destruct (run_prepare_phase g lp sl own (majority m) mr replies) as [[[e fv| |] rest]|] eqn:Er; try done.
  pose proof (prepared_backed _ _ _ _ k g lp sl own mr replies e fv rest (si_inv _ S) Hf Hfit Hg Er) as Hb.
  apply proposer_step; [done|].
  apply inv_propose; [apply S| |split; [done|intros e' He'; by apply Hk, (list_elem_of_fmap_2 fst _ _ He')]].
  apply prepare_proceed_facts in Er as (folded & _ & _ & _ & He & Hbe & Hte & _). pose proof Hb as [Hr _].
  unfold entry_ok, Acceptor.ballot_ok. rewrite He, Hte. split_and!; [done| |lia| |done].
  - unfold ballot_lt. simpl. lia.
  - by rewrite Hbe.
Qed.

Lemma decide_inv (s : sys E) g e replies :
  sys_inv s -> act_ok m true s (Decide g e replies) -> sys_inv (act m s (Decide g e replies)).
Proof.
  intros S (Hf & Hv). simpl. destruct (run_accept_phase g (majority m) replies) as [o|] eqn:Er; [|done].
  destruct (attempt o) eqn:Ea; try done.
  apply run_accept_folded in Er as (folded & f & -> & Hj & Ha & _). rewrite Ea in Ha. symmetry in Ha.
  apply accept_decide_chosen in Ha. apply accept_join_spec in Hj as [Hc _]. simpl in Hc.
  destruct S as [S1 S2 S3 S4]. constructor; simpl; auto.
  intros x [->|Hx]%elem_of_cons; [|auto].
  exists (node_of g <$> List.filter (is_accept_vote (local_voting g)) folded). split.
  - eapply fan_out_majority; [exact Hf| |].
    + intros t. unfold is_accept_vote. by destruct (reply_of t) as [[]|].
    + unfold accept_votes in Hc. lia.
  - intros n (t & Ht & Hvt & <-)%elem_of_filtered. unfold is_accept_vote in Hvt.
    destruct (reply_of t) as [[sl b| | |]|] eqn:Et; try done.
    eapply Hv; [apply elem_of_app; by left|exact Et].
Qed.

Lemma act_inv (s : sys E) a : sys_inv s -> act_ok m true s a -> sys_inv (act m s a).
Proof.
  intros S Ha. destruct a as [n k now ok sl b t|n now ok e|n ok sl e|k g lp sl own mr replies|g sl own|g e replies|n o].
  - by apply prepare_inv.
  - by apply accept_inv.
  - by apply fetched_inv.
  - by apply propose_inv.
  - destruct Ha as (Hs & Hid & Ht & Hf). apply proposer_step; [done|]. apply inv_propose; [apply S| |done].
    unfold entry_ok, Acceptor.ballot_ok, ballot_lt. simpl. lia.
  - by apply decide_inv.
  - destruct Ha as (Hn & Ho & Hok & Hd). specialize (Hd eq_refl). pose proof (si_replicas _ S n Hn) as Hr.
    assert (brings o = None) as Hc by (by destruct o).
    apply replica_step; auto.
    + apply event_inv; [done|done|]. by rewrite Hc.
    + intros e He. destruct (exec_storied n gid (nodes s n) o e (proj1 Hr) Hok He) as [|He']; [by left|by rewrite Hc in He'].
    + apply inv_unchanged; [done|]. intros s'. by apply (other_event_view n gid).
Qed.

Lemma initial_inv lease now (engine : E) : sys_inv (initial gid lease now engine).
Proof.
  constructor; simpl.
  - intros n Hn. apply fresh_inv.
  - intros n e _ (rec & Hrec & _). by apply not_elem_of_nil in Hrec.
  - constructor; simpl; intros; try done; match goal with H : _ ∈ [] |- _ => by apply not_elem_of_nil in H end.
  - intros e He. by apply not_elem_of_nil in He.
Qed.

Lemma reachable_sys_inv (s : sys E) : reachable m true gid s -> sys_inv s.
Proof. induction 1; [apply initial_inv|by apply act_inv]. Qed.

(** C1. Agreement.  Whatever proposers attempt, however messages are delayed,
    lost or reordered, whichever appends fail or run after the answer, and
    whichever replicas restart from their logs, vote, fetch gaps, trim or apply
    entries in between: two accept phases that end in [Chosen] for the same slot
    chose the same payload.  Assumed: a slot has at most one round-0 proposal
    ([fast_unique]), a replica restarts only with nothing owed to its log
    ([durable]), and each call of an acceptor runs as a whole. *)
Theorem agreement (s : sys E) e e' :
  reachable m true gid s -> e ∈ decided s -> e' ∈ decided s -> slot e = slot e' -> payload e = payload e'.
Proof.
  intros S%reachable_sys_inv He He'.
  exact (chosen_agree U _ _ _ _ (si_inv _ S) e e' (si_decided _ S e He) (si_decided _ S e' He')).
Qed.

End agreement.

(** ** Runs of three replicas *)

Definition run_actions (m : membership) (l : list (@action (gmap bytes (Z * Cell)))) : sys (gmap bytes (Z * Cell)) :=
  foldl (act m) (initial 7 3000 0 ∅) l.

(** Discharges [act_ok] on concrete states. *)
Ltac find_member := solve [repeat (apply list_elem_of_here || apply list_elem_of_further)].

Ltac each_member :=
  repeat match goal with
  | H : _ ∈ _ :: _ |- _ => apply elem_of_cons in H as [H|H]; [subst|]
  | H : _ ∈ [] |- _ => by apply not_elem_of_nil in H
  end.

Ltac fan_out_tac :=
  split; [vm_compute; rewrite !NoDup_cons, !elem_of_cons, !elem_of_nil; split_and!; try lia; by apply NoDup_nil_2
         |intros; each_member; vm_compute; find_member].

Ltac act_ok_tac :=
  lazymatch goal with
  | |- act_ok _ _ _ (HandlePrepare _ _ _ _ _ _ _) =>
      unfold act_ok, is_u64, u64_max, ballot_lt; simpl; lia
  | |- act_ok _ _ _ (HandleAccept _ _ _ _) =>
      split; [unfold is_u64, u64_max; lia|eexists; vm_compute; find_member]
  | |- act_ok _ _ _ (Propose _ _ _ _ _ _ _) =>
      unfold act_ok; split_and!;
        [simpl; lia|simpl; lia|simpl; lia
        |unfold round_fits, u64_max; split; [lia|intros ? ?; simplify_eq/=; lia]
        |refine (bool_decide_eq_false_1 _ _); vm_compute; reflexivity
        |fan_out_tac|intros; each_member; cbn [reply_of] in *; simplify_eq; vm_compute; find_member]
  | |- act_ok _ _ _ (ProposeFast _ _ _) => unfold act_ok; simpl; split_and!; try lia; try done
  | |- act_ok _ _ _ (Decide _ _ _) =>
      split; [fan_out_tac|intros; each_member; cbn [reply_of] in *; simplify_eq; vm_compute; find_member]
  | |- act_ok _ _ _ (Other _ _) =>
      unfold act_ok, is_u64, u64_max; split_and!; [lia|lia|done|vm_compute; done|vm_compute; done]
  end.

Definition demo_members : membership := mkMembers [1; 2; 3] (fun _ _ => False).
Definition demo_proposer (i t : Z) : PxGroup := mkGroup i true t 2 false true.

(** Node 1 gets payload [[7]] chosen by 1, whose append fails, and 2, whose append
    is late; 2 restarts; node 3 then wants [[8]] and asks 2 and 3. *)
Definition demo_actions : list (@action (gmap bytes (Z * Cell))) :=
  [HandlePrepare 1 0 0 true 5 (mkBallot 1 1) 1; HandlePrepare 2 0 0 true 5 (mkBallot 1 1) 1;
   Propose 0 (demo_proposer 1 1) None 5 [7] 0
     [Local (Some (Promised 5 None)); Remote true 2 (Some (Promised 5 None))];
   HandleAccept 1 0 false (mkEntry 5 (mkBallot 1 1) 1 [7]); HandleAccept 2 0 false (mkEntry 5 (mkBallot 1 1) 1 [7]);
   Decide (demo_proposer 1 1) (mkEntry 5 (mkBallot 1 1) 1 [7])
     [Local (Some (Accepted 5 (mkBallot 1 1))); Remote true 2 (Some (Accepted 5 (mkBallot 1 1)))];
   Other 2 (DoPersist 0); Other 2 (DoRestart 0 Follower ∅ 0);
   HandlePrepare 3 1 0 true 5 (mkBallot 2 3) 2; HandlePrepare 2 1 0 true 5 (mkBallot 2 3) 2;
   Propose 1 (demo_proposer 3 2) None 5 [8] 1
     [Local (Some (Promised 5 None)); Remote true 2 (Some (Promised 5 (Some (mkEntry 5 (mkBallot 1 1) 1 [7]))))];
   HandleAccept 3 0 true (mkEntry 5 (mkBallot 2 3) 2 [7]); HandleAccept 2 0 true (mkEntry 5 (mkBallot 2 3) 2 [7]);
   Decide (demo_proposer 3 2) (mkEntry 5 (mkBallot 2 3) 2 [7])
     [Local (Some (Accepted 5 (mkBallot 2 3))); Remote true 2 (Some (Accepted 5 (mkBallot 2 3)))]].

Lemma demo_decided :
  decided (run_actions demo_members demo_actions) =
    [mkEntry 5 (mkBallot 2 3) 2 [7]; mkEntry 5 (mkBallot 1 1) 1 [7]].
Proof. vm_compute. reflexivity. Qed.

Lemma demo_run_reachable : reachable demo_members true 7 (run_actions demo_members demo_actions).
Proof.
  unfold run_actions, demo_actions. cbn [foldl].
  repeat (refine (reach_act _ _ _ _ _ _ _); [|act_ok_tac]). apply reach_initial.
Qed.

Lemma agreement_witness :
  payload (mkEntry 5 (mkBallot 2 3) 2 [7]) = payload (mkEntry 5 (mkBallot 1 1) 1 [7]) /\
  mkEntry 5 (mkBallot 2 3) 2 [7] ∈ decided (run_actions demo_members demo_actions).
Proof.
  assert (He : mkEntry 5 (mkBallot 2 3) 2 [7] ∈ decided (run_actions demo_members demo_actions))
    by (rewrite demo_decided; find_member).
  split; [|exact He].
  apply (agreement demo_members 7 (fun s e e' H => match H with end) (run_actions demo_members demo_actions)).
  - exact demo_run_reachable.
  - exact He.
  - rewrite demo_decided. find_member.
  - reflexivity.
Defined.

(** Three elections and no fault but a slow replica.  In term 2 leader 3 proposes
    [[7]] for slot 1 in round 0 and only 3 accepts it.  In term 3 leader 1, elected
    by 2, proposes [[8]] for slot 1 in round 0: 1 and 2 accept, it is chosen.  In
    term 4 leader 2, elected by 3, recovers slot 1 with a prepare phase. *)
Definition any_fast : membership := mkMembers [1; 2; 3] (fun _ _ => True).

Definition e3 : PxLogEntry := mkEntry 1 (mkBallot 0 3) 2 [7].
Definition e1 : PxLogEntry := mkEntry 1 (mkBallot 0 1) 3 [8].
Definition e2 : PxLogEntry := mkEntry 1 (mkBallot 1 2) 4 [7].

Definition steady_state_actions : list (@action (gmap bytes (Z * Cell))) :=
  [Other 3 (DoCandidate 10000 true 2); Other 2 (DoVote 10000 true (mkVoteReq 2 3 0 0)); Other 3 (DoLeader 10000);
   ProposeFast (demo_proposer 3 2) 1 [7]; HandleAccept 3 10000 true e3;
   Other 1 (DoCandidate 20000 true 3); Other 2 (DoVote 20000 true (mkVoteReq 3 1 0 0)); Other 1 (DoLeader 20000);
   ProposeFast (demo_proposer 1 3) 1 [8]; HandleAccept 1 20000 true e1; HandleAccept 2 20000 true e1;
   Decide (demo_proposer 1 3) e1
     [Local (Some (Accepted 1 (mkBallot 0 1))); Remote true 2 (Some (Accepted 1 (mkBallot 0 1)))];
   Other 2 (DoCandidate 30000 true 4); Other 3 (DoVote 30000 true (mkVoteReq 4 2 1 3)); Other 2 (DoLeader 30000);
   HandlePrepare 2 0 30000 true 1 (mkBallot 1 2) 4; HandlePrepare 3 0 30000 true 1 (mkBallot 1 2) 4;
   Propose 0 (demo_proposer 2 4) (Some (mkBallot 0 1)) 1 [] 0
     [Local (Some (Promised 1 (Some e1))); Remote true 3 (Some (Promised 1 (Some e3)))];
   HandleAccept 2 30000 true e2; HandleAccept 3 30000 true e2;
   Decide (demo_proposer 2 4) e2
     [Local (Some (Accepted 1 (mkBallot 1 2))); Remote true 3 (Some (Accepted 1 (mkBallot 1 2)))]].

(** C2. Agreement fails when two leaders propose for a slot in round 0, although
    their terms differ and every vote and term fence is respected: the prepare
    phase prefers the higher ballot [(0, 3)] of term 2 to the chosen [(0, 1)] of
    term 3, since ballots of round 0 are ordered by replica id and the term plays
    no part.  Both payloads end up chosen. *)
Theorem steady_state_terms_disagree :
  let s := run_actions any_fast steady_state_actions in
  reachable any_fast true 7 s /\ decided s = [e2; e1] /\ slot e2 = slot e1 /\ payload e2 <> payload e1 /\
  WalRecord.from_vote_granted 7 2 3 ∈ log_of (nodes s 2) /\
  WalRecord.from_vote_granted 7 3 1 ∈ log_of (nodes s 2) /\
  WalRecord.from_vote_granted 7 4 2 ∈ log_of (nodes s 3).
Proof.
  intros s. split.
  { unfold s, run_actions, steady_state_actions. cbn [foldl].
    repeat (refine (reach_act _ _ _ _ _ _ _); [|act_ok_tac]). apply reach_initial. }
  vm_compute. split_and!; try done; find_member.
Qed.

(** The same first two terms with payloads that write a key.  Leader 1 learns what
    it got chosen; its heartbeat tells 3 that slot 1 is committed. *)
Definition put_key (v : Z) : list Z := encode_kv_payload [([1], Some [v])].
Definition w3 : PxLogEntry := mkEntry 1 (mkBallot 0 3) 2 (put_key 7).
Definition w1 : PxLogEntry := mkEntry 1 (mkBallot 0 1) 3 (put_key 8).

Definition stale_apply_actions : list (@action (gmap bytes (Z * Cell))) :=
  [Other 3 (DoCandidate 10000 true 2); Other 2 (DoVote 10000 true (mkVoteReq 2 3 0 0)); Other 3 (DoLeader 10000);
   ProposeFast (demo_proposer 3 2) 1 (put_key 7); HandleAccept 3 10000 true w3;
   Other 1 (DoCandidate 20000 true 3); Other 2 (DoVote 20000 true (mkVoteReq 3 1 0 0)); Other 1 (DoLeader 20000);
   ProposeFast (demo_proposer 1 3) 1 (put_key 8); HandleAccept 1 20000 true w1; HandleAccept 2 20000 true w1;
   Decide (demo_proposer 1 3) w1
     [Local (Some (Accepted 1 (mkBallot 0 1))); Remote true 2 (Some (Accepted 1 (mkBallot 0 1)))];
   Other 1 (DoLearn w1 []);
   Other 3 (DoHeartbeat 20000 (mkHeartbeat 3 1 1)); Other 3 DoApply].

(** C4. A replica that accepted a value which lost applies it as soon as a
    heartbeat says its slot is committed: the apply loop takes whatever the
    acceptor holds at a slot up to the known commit slot and does not compare
    ballots.  One value is chosen for the slot, and two replicas hold different
    values for the key at the same slot. *)
Theorem apply_loop_diverges :
  let s := run_actions any_fast stale_apply_actions in
  reachable any_fast true 7 s /\ decided s = [w1] /\
  engine_cell (Learner.engine (learner (nodes s 1))) [1] = Some (1, Value [8]) /\
  engine_cell (Learner.engine (learner (nodes s 3))) [1] = Some (1, Value [7]).
Proof.
  intros s. split.
  { unfold s, run_actions, stale_apply_actions. cbn [foldl].
    repeat (refine (reach_act _ _ _ _ _ _ _); [|act_ok_tac]). apply reach_initial. }
  vm_compute. split_and!; done.
Qed.

(** Leader 1 gets [[7]] chosen by itself and 2, counting its own accept before the
    append, as [wal_early_ack] has it, and restarts before the append has run.
    Leader 3 then asks 1 and 3. *)
Definition x1 : PxLogEntry := mkEntry 5 (mkBallot 1 1) 1 [7].
Definition x3 : PxLogEntry := mkEntry 5 (mkBallot 2 3) 2 [8].

Definition early_ack_actions : list (@action (gmap bytes (Z * Cell))) :=
  [HandlePrepare 1 0 0 true 5 (mkBallot 1 1) 1; HandlePrepare 2 0 0 true 5 (mkBallot 1 1) 1;
   Propose 0 (demo_proposer 1 1) None 5 [7] 0
     [Local (Some (Promised 5 None)); Remote true 2 (Some (Promised 5 None))];
   HandleAccept 1 0 false x1; HandleAccept 2 0 true x1;
   Decide (demo_proposer 1 1) x1
     [Local (Some (Accepted 5 (mkBallot 1 1))); Remote true 2 (Some (Accepted 5 (mkBallot 1 1)))];
   Other 1 (DoRestart 0 Follower ∅ 0);
   HandlePrepare 3 1 0 true 5 (mkBallot 2 3) 2; HandlePrepare 1 1 0 true 5 (mkBallot 2 3) 2;
   Propose 1 (demo_proposer 3 2) None 5 [8] 1
     [Local (Some (Promised 5 None)); Remote true 1 (Some (Promised 5 None))];
   HandleAccept 3 0 true x3; HandleAccept 1 0 true x3;
   Decide (demo_proposer 3 2) x3
     [Local (Some (Accepted 5 (mkBallot 2 3))); Remote true 1 (Some (Accepted 5 (mkBallot 2 3)))]].

(** C3. Agreement fails when a replica restarts before an accept it acknowledged
    is in its log.  No round-0 proposal is involved, and one replica of three
    fails: the leader counts its own accept towards the quorum, answers, and loses
    the accept in a restart.  A majority without the other acceptor then chooses a
    second payload. *)
Theorem early_ack_crash_disagrees :
  let s := run_actions demo_members early_ack_actions in
  fast_unique demo_members /\ reachable demo_members false 7 s /\
  decided s = [x3; x1] /\ slot x3 = slot x1 /\ payload x3 <> payload x1.
Proof.
  intros s. split; [by intros ? ? ? []|]. split.
  { unfold s, run_actions, early_ack_actions. cbn [foldl].
    repeat (refine (reach_act _ _ _ _ _ _ _); [|act_ok_tac]). apply reach_initial. }
  vm_compute. done.
Qed.

End Consensus.
