(* ===== verification/Election.v ===== *)
(** * Leader election

    Models [cluster/group_election.rs], [group_election_candidate.rs] and the
    entry into leadership of [group_election_leader.rs]: the tally of a PreVote
    round and of a RequestVote round over the replies in arrival order, the
    attempt that drives them, and [finalize_leader].  An attempt runs beside the
    handlers of its replica, so any event of [Replica] may come between two of
    its steps.

    [election_safety]: a term is won by one replica, if attempts and restarts are
    [steady].  A replica that votes for itself at the end of a PreVote round must
    still be below the proposed term, it must be in that term when it starts its
    campaign, and it restarts only with nothing owed to its log.  The code checks
    none of the three; [prevote_race_elects_two] is a run in which the first
    matters. *)

From stdpp Require Import prelude gmap list.
From Stdlib Require Import ZArith Lia.
From S2P Require Import Prelude Roles Bytes KvOp Acceptor Learner WalRecord WalReplay Replica.

Module Election.
Import KvOp Replica.
Import (hints) WalRecord.

(** ** Tallies *)

(** What [join_next] and the cancellation token deliver. *)
Inductive joined :=
| Cancelled
| Panicked
| Failed (peer : Z)
| Replied (peer : Z) (vote : VoteReply).

Inductive PreVoteOutcome := Won (proposed_term : Z) | HigherTerm (t : Z) | Lost.

Fixpoint prevote_loop (quorum grants : nat) (proposed_term : Z) (l : list joined) : PreVoteOutcome :=
  match l with
  | [] => Lost
  | Cancelled :: _ => Lost
  | Panicked :: l | Failed _ :: l => prevote_loop quorum grants proposed_term l
  | Replied _ vote :: l =>
      if proposed_term <? vote_term vote then HigherTerm (vote_term vote)
      else if granted vote then
        if (quorum <=? S grants)%nat then Won proposed_term else prevote_loop quorum (S grants) proposed_term l
      else prevote_loop quorum grants proposed_term l
  end.

(** [run_prevote_round] after the fan-out: a voting singleton wins at once. *)
Definition run_prevote_round (no_peers voting : bool) (quorum : nat) (proposed_term : Z) (l : list joined)
  : PreVoteOutcome :=
  if no_peers && voting then Won proposed_term
  else prevote_loop quorum (if voting then 1 else 0) proposed_term l.

Inductive CandidateOutcome :=
| Elected (peer_floor peer_ceiling : Z)
| SteppedDown (t : Z)
| Aborted
| NoQuorum.

Fixpoint candidate_loop (quorum grants : nat) (t peer_floor peer_ceiling : Z) (l : list joined) : CandidateOutcome :=
  match l with
  | [] => NoQuorum
  | Cancelled :: _ => Aborted
  | Panicked :: l | Failed _ :: l => candidate_loop quorum grants t peer_floor peer_ceiling l
  | Replied _ vote :: l =>
      if t <? vote_term vote then SteppedDown (vote_term vote)
      else if granted vote then
        let peer_floor := Z.max peer_floor (vote_contiguous_chosen vote) in
        let peer_ceiling := Z.max peer_ceiling (vote_highest_seen_slot vote) in
        if (quorum <=? S grants)%nat then Elected peer_floor peer_ceiling
        else candidate_loop quorum (S grants) t peer_floor peer_ceiling l
      else candidate_loop quorum grants t peer_floor peer_ceiling l
  end.

(** ** Taking office *)

(** The fields of [PxGroup] an election touches. *)
Record group_state := mkGroupState {
  next_slot : Z;
  proposing_term : Z;
  pending_leader_handoff : option (Z * Z * Z);
}.

(** What the election driver of a replica is waiting for. *)
Inductive attempt :=
| Idle
| PreVoting (proposed_term : Z)
| Voted (new_term : Z)
| Campaigning (t : Z).

Section driver.
Context {E : Type} `{!KVEngine E}.

Definition finalize_leader (now : Z) (r : PxLocalReplica E) (g : group_state) (t peer_floor peer_ceiling : Z)
  : PxLocalReplica E * group_state :=
  let local_ceiling := Acceptor.highest_seen_slot (acceptor r) in
  let next_slot_minus_one := sat_sub64 (next_slot g) 1 in
  let ceiling := Z.max (Z.max local_ceiling next_slot_minus_one) peer_ceiling in
  let next := sat_add64 ceiling 1 in
  (become_leader now r, mkGroupState (Z.max (next_slot g) next) t (Some (t, peer_floor, peer_ceiling))).

(** [run_candidate_election] after the fan-out: [None] when the loop was
    cancelled or found no quorum and leaves the replica as it is. *)
Definition run_candidate_election (now : Z) (no_peers : bool) (quorum : nat) (t : Z) (l : list joined)
  (r : PxLocalReplica E) (g : group_state) : PxLocalReplica E * group_state * bool :=
  let peer_floor := Learner.contiguous_chosen (learner r) in
  let peer_ceiling := Acceptor.highest_seen_slot (acceptor r) in
  let outcome := if no_peers && voting r then Elected peer_floor peer_ceiling
                 else candidate_loop quorum (if voting r then 1 else 0) t peer_floor peer_ceiling l in
  match outcome with
  | Elected f c => let '(r, g) := finalize_leader now r g t f c in (r, g, true)
  | SteppedDown t' => (become_follower now r t', g, false)
  | Aborted | NoQuorum => (r, g, false)
  end.

(** The rest of [run_election_attempt] once the PreVote round is over. *)
Definition after_prevote (now : Z) (wal_ok : bool) (o : PreVoteOutcome) (r : PxLocalReplica E)
  : PxLocalReplica E * attempt :=
  match o with
  | Won p => (persist_current_vote (become_candidate now r p) wal_ok, Voted p)
  | HigherTerm t => (become_follower now r t, Idle)
  | Lost => (become_follower now r (current_term_atomic r), Idle)
  end.

End driver.

(** ** The replicas of a group *)

(** Granted votes are remembered as (voter, term, candidate). *)
Record esys (E : Type) := mkESys {
  replicas : Z -> PxLocalReplica E;
  attempts : Z -> attempt;
  groups : Z -> group_state;
  votes : list (Z * Z * Z);
  winners : list (Z * Z);
}.
Arguments mkESys {E}.
Arguments replicas {E}.
Arguments attempts {E}.
Arguments groups {E}.
Arguments votes {E}.
Arguments winners {E}.

Definition put {A} (f : Z -> A) (n : Z) (x : A) : Z -> A := fun n' => if decide (n' = n) then x else f n'.

Section system.
Context {E : Type} `{!KVEngine E}.
(** The voting members, and whether attempts and restarts are [steady]. *)
Context (voters : list Z) (checked : bool).

Definition majority : nat := (length voters / 2 + 1)%nat.

(** [voting_remote_ids().is_empty()] *)
Definition no_peers (n : Z) : bool := forallb (Z.eqb n) voters.

Inductive action :=
| StartPreVote (n : Z)
| EndPreVote (n now : Z) (wal_ok : bool) (l : list joined)
| SkipPreVote (n now : Z) (wal_ok : bool)
| StartCampaign (n : Z)
| EndCampaign (n now : Z) (l : list joined)
| AskVote (n now : Z) (wal_ok : bool) (req : VoteRequestPayload)
| Other (n : Z) (o : @event E).

Definition act (s : esys E) (a : action) : esys E :=
  match a with
  | StartPreVote n =>
      let r := become_precandidate (replicas s n) in
      mkESys (put (replicas s) n r) (put (attempts s) n (PreVoting (current_term_atomic r +w 1)))
        (groups s) (votes s) (winners s)
  | EndPreVote n now ok l =>
      match attempts s n with
      | PreVoting p =>
          let r := replicas s n in
          let o := run_prevote_round (no_peers n) (voting r) majority p l in
          let '(r, a) := after_prevote now ok o r in
          mkESys (put (replicas s) n r) (put (attempts s) n a) (groups s)
            (match o with Won p => (n, p, n) :: votes s | _ => votes s end) (winners s)
      | _ => s
      end
  | SkipPreVote n now ok =>
      let p := current_term_atomic (replicas s n) +w 1 in
      let '(r, a) := after_prevote now ok (Won p) (replicas s n) in
      mkESys (put (replicas s) n r) (put (attempts s) n a) (groups s) ((n, p, n) :: votes s) (winners s)
  | StartCampaign n =>
      match attempts s n with
      | Voted _ => mkESys (replicas s) (put (attempts s) n (Campaigning (current_term_atomic (replicas s n))))
                     (groups s) (votes s) (winners s)
      | _ => s
      end
  | EndCampaign n now l =>
      match attempts s n with
      | Campaigning t =>
          let '(r, g, won) := run_candidate_election now (no_peers n) majority t l
                                (replicas s n) (groups s n) in
          mkESys (put (replicas s) n r) (put (attempts s) n Idle) (put (groups s) n g) (votes s)
            (if won then (t, n) :: winners s else winners s)
      | _ => s
      end
  | AskVote n now ok req =>
      let '(r, reply) := handle_request_vote now ok (replicas s n) req in
      mkESys (put (replicas s) n r) (attempts s) (groups s)
        (if granted reply then (n, vr_term req, candidate_id req) :: votes s else votes s) (winners s)
  | Other n o =>
      mkESys (put (replicas s) n (exec (replicas s n) o))
        (match o with DoRestart _ _ _ _ => put (attempts s) n Idle | _ => attempts s end)
        (groups s) (votes s) (winners s)
  end.

(** Events that no other action stands for; a replica restarts as a follower. *)
Definition elsewhere (o : @event E) : bool :=
  match o with
  | DoVote _ _ _ | DoCandidate _ _ _ | DoLeader _ | DoRestart _ Leader _ _ => false
  | _ => true
  end.

Definition grants_of (l : list joined) : list (Z * VoteReply) :=
  omap (fun j => match j with Replied n v => if granted v then Some (n, v) else None | _ => None end) l.

(** One reply per voting peer; a granted one is a vote that peer gave in this
    term to this candidate. *)
Definition campaign_ok (s : esys E) (n t : Z) (l : list joined) : Prop :=
  NoDup (grants_of l).*1 /\
  forall x v, (x, v) ∈ grants_of l -> x ∈ voters /\ x <> n /\ (x, t, n) ∈ votes s.

(** A replica that votes for itself is below the term it proposed, it starts its
    campaign in that term, and it restarts with nothing owed. *)
Definition steady (s : esys E) (a : action) : Prop :=
  match a with
  | EndPreVote n _ _ l =>
      forall p, attempts s n = PreVoting p ->
        run_prevote_round (no_peers n) (voting (replicas s n)) majority p l = Won p ->
        current_term (election (replicas s n)) < p
  | StartCampaign n => forall p, attempts s n = Voted p -> current_term (election (replicas s n)) = p
  | Other n o => durable (replicas s n) o
  | _ => True
  end.

Definition act_ok (s : esys E) (a : action) : Prop :=
  (checked = true -> steady s a) /\
  match a with
  | StartPreVote n | EndPreVote n _ _ _ => is_u64 n
  | SkipPreVote n _ _ => is_u64 n /\ current_term (election (replicas s n)) < u64_max
  | StartCampaign n => True
  | EndCampaign n now l => is_u64 n /\
      forall t, attempts s n = Campaigning t -> campaign_ok s n t l /\ (voting (replicas s n) = true -> n ∈ voters)
  | AskVote n _ _ req => is_u64 n /\ is_u64 (candidate_id req) /\ 0 <= vr_term req
  | Other n o => is_u64 n /\ elsewhere o = true /\ event_ok o
  end.

Definition initial (gid lease now : Z) (engine : E) : esys E :=
  mkESys (fun n => fresh n gid lease now Follower engine) (fun _ => Idle) (fun _ => mkGroupState 1 0 None) [] [].

Inductive reachable (gid : Z) : esys E -> Prop :=
| reach_initial lease now engine : reachable gid (initial gid lease now engine)
| reach_act s a : reachable gid s -> act_ok s a -> reachable gid (act s a).

End system.

(** ** What the tallies count *)

(** A PreVote round is only won for the term it proposed. *)
Lemma prevote_won no_peers voting quorum p l p' : run_prevote_round no_peers voting quorum p l = Won p' -> p' = p.
Proof.
  assert (Hwon : forall l k, prevote_loop quorum k p l = Won p' -> p' = p).
  { intros l0. induction l0 as [|[| |x|x v] l0 IH]; intros k; simpl; try done; [apply IH|apply IH|].
    destruct (_ <? _); [done|]. destruct (granted v); [|apply IH]. destruct (_ <=? _)%nat; [congruence|apply IH]. }
  unfold run_prevote_round. destruct (no_peers && voting); [congruence|apply Hwon].
Qed.

Lemma candidate_loop_spec quorum t l : forall k f c f' c',
  candidate_loop quorum k t f c l = Elected f' c' ->
  exists pre rest, l = pre ++ rest /\ (quorum <= k + length (grants_of pre))%nat /\
    f' = foldl (fun f x => Z.max f (vote_contiguous_chosen x.2)) f (grants_of pre) /\
    c' = foldl (fun c x => Z.max c (vote_highest_seen_slot x.2)) c (grants_of pre) /\
    Forall (fun x => vote_term x.2 <= t) (grants_of pre).
Proof.
  induction l as [|j l IH]; intros k f c f' c' H; [done|].
  assert (Hskip : (forall pre, grants_of (j :: pre) = grants_of pre) ->
    candidate_loop quorum k t f c l = Elected f' c' -> exists pre rest, j :: l = pre ++ rest /\
      (quorum <= k + length (grants_of pre))%nat /\
      f' = foldl (fun f x => Z.max f (vote_contiguous_chosen x.2)) f (grants_of pre) /\
      c' = foldl (fun c x => Z.max c (vote_highest_seen_slot x.2)) c (grants_of pre) /\
      Forall (fun x => vote_term x.2 <= t) (grants_of pre)).
  { intros Hj (pre & rest & -> & Hpre)%IH. exists (j :: pre), rest. by rewrite Hj. }
  destruct j as [| |x|x v]; simpl in H; [done|by apply Hskip|by apply Hskip|].
  destruct (Z.ltb_spec t (vote_term v)) as [|Hle]; [done|].
  destruct (granted v) eqn:Eg.
  2: { apply Hskip; [|done]. intros pre. unfold grants_of. simpl. by rewrite Eg. }
  assert (Hg : forall pre, grants_of (Replied x v :: pre) = (x, v) :: grants_of pre)
    by (intros; unfold grants_of; simpl; by rewrite Eg).
  destruct (Nat.leb_spec quorum (S k)).
  - exists [Replied x v], l. rewrite Hg. simplify_eq/=. split_and!; [done|lia|done|done|]. by repeat constructor.
  - apply IH in H as (pre & rest & -> & Hq & -> & -> & Hf). exists (Replied x v :: pre), rest. rewrite Hg. simpl.
    split_and!; [done|lia|done|done|by constructor].
Qed.

(** ** Safety of steady elections *)

Section replica_lemmas.
Context {E : Type} `{!KVEngine E}.
Implicit Types r : PxLocalReplica E.

(** What was answered for stays answered for. *)
Lemma exec_story_mono rid gid r o rec :
  replica_base rid gid r -> durable r o -> rec ∈ story r -> rec ∈ story (exec r o).
Proof.
  intros Hi Hd Hin.
  assert (Happ : forall r' mk ok, replica_base rid gid r' -> rec ∈ story r' -> rec ∈ story (wal_append r' mk ok)).
  { intros r' mk ok Hi' Hr'. rewrite (story_append rid gid) by done. apply elem_of_app. by left. }
  assert (Hpv : forall x cta rm ok, rec ∈ story (persist_current_vote (set_election r x cta rm) ok)).
  { intros x cta rm ok. revert Hin. unfold persist_current_vote, story, log_of, owed_of, wal_append. simpl.
    destruct (ri_wal _ _ _ Hi) as (w & -> & _). destruct ok; simpl; rewrite !elem_of_app; tauto. }
  destruct o as [now ok s b t|now ok e|ok s e|now ok req|now ok t|i|now req|now req|now t| |now
    |s t b|e ids| |before|now x en rf]; simpl in *; try done.
  - unfold on_prepare. destruct (term_fence now r t) as [r1|] eqn:Ef; [|done].
    apply (term_fence_base _ _ _ _ _ _ Hi) in Ef as (Hi1 & _ & Hst). rewrite <- Hst in Hin.
    destruct (Acceptor.prepare _ _ _) as [a []]; simpl; rewrite ?set_acceptor_story; auto.
  - unfold on_accept, on_accept_inner, on_accept_persist. destruct (term_fence now r (term e)) as [r1|] eqn:Ef; [|done].
    apply (term_fence_base _ _ _ _ _ _ Hi) in Ef as (Hi1 & _ & Hst). rewrite <- Hst in Hin.
    destruct (Acceptor.accept _ _) as [a []]; simpl; rewrite ?set_acceptor_story; auto.
  - unfold fetch_gap_reply. destruct (negb _); [done|]. destruct (Acceptor.install_chosen _ _) as [a []];
      apply (Happ r (fun gid => WalRecord.from_accepted gid e) true Hi Hin).
  - unfold handle_request_vote. destruct (_ && candidate_log_up_to_date r req && lockout_ok now r); [|done]. by apply Hpv.
  - by apply Hpv.
  - by rewrite story_append_owed.
  - unfold handle_heartbeat. destruct (_ <? _); [done|]. by destruct (if _ <? _ then _ else _).
  - unfold handle_step_down. by destruct (_ && _ && _).
  - by rewrite (same_core_story _ _ (chosen_notice_core r s t b)).
  - by rewrite (same_core_story _ _ (apply_turn_core r)).
  - rewrite (story_restart rid gid) by done. unfold story in Hin. by rewrite Hd, app_nil_r in Hin.
Qed.

End replica_lemmas.

Section safety.
Context {E : Type} `{!KVEngine E} (voters : list Z) (gid : Z).
Implicit Types (s : esys E) (vs : list (Z * Z * Z)).

(** A majority of the members voted for [c] in term [t]. *)
Definition carried vs (t c : Z) : Prop :=
  exists Q, NoDup Q /\ (forall v, v ∈ Q -> v ∈ voters /\ (v, t, c) ∈ vs) /\ (majority voters <= length Q)%nat.

Definition attempt_ok vs (n : Z) (a : attempt) : Prop :=
  match a with Voted p | Campaigning p => (n, p, n) ∈ vs | _ => True end.

Record einv s : Prop := {
  ei_replica : forall n, is_u64 n -> replica_base n gid (replicas s n);
  ei_voted : forall n, is_u64 n -> votes_logged (election (replicas s n)) (story (replicas s n));
  ei_votes : forall v t c, (v, t, c) ∈ votes s -> is_u64 v /\ is_u64 c /\
    WalRecord.from_vote_granted gid t c ∈ story (replicas s v);
  ei_attempts : forall n, attempt_ok (votes s) n (attempts s n);
  ei_winners : forall t c, (t, c) ∈ winners s -> carried (votes s) t c;
  ei_proposing : forall n, proposing_term (groups s n) = 0 \/ (proposing_term (groups s n), n) ∈ winners s;
}.

(** Two majorities of one term share a voter, whose log holds one vote. *)
Lemma carried_unique s t c c' : einv s -> carried (votes s) t c -> carried (votes s) t c' -> c = c'.
Proof.
  intros I (Q & Hn & Hv & Hq) (Q' & Hn' & Hv' & Hq').
  destruct (majorities_intersect voters Q Q') as (v & H & H'); try done.
  - intros v Hin. by apply Hv.
  - intros v Hin. by apply Hv'.
  - unfold majority in *. pose proof (Nat.div_mod_eq (length voters) 2).
    pose proof (Nat.mod_upper_bound (length voters) 2). lia.
  - destruct (Hv v H) as [_ Hx], (Hv' v H') as [_ Hx'].
    destruct (ei_votes _ I _ _ _ Hx) as (Hu & Hc & Hl), (ei_votes _ I _ _ _ Hx') as (_ & Hc' & Hl').
    destruct (ei_voted _ I v Hu) as (_ & _ & Huniq).
    pose proof (Huniq _ _ Hl Hl' eq_refl eq_refl eq_refl) as Heq.
    rewrite !vote_record_id in Heq by done. congruence.
Qed.

Lemma carried_mono vs vs' t c : (forall x, x ∈ vs -> x ∈ vs') -> carried vs t c -> carried vs' t c.
Proof. intros Hm (Q & Hn & Hv & Hq). exists Q. split_and!; [done| |done]. intros v Hin. destruct (Hv v Hin). auto. Qed.

(** One replica moves; votes and winners may be added. *)
Lemma einv_step s n r att g vs ws :
  einv s -> is_u64 n -> replica_base n gid r -> votes_logged (election r) (story r) ->
  (forall rec, rec ∈ story (replicas s n) -> rec ∈ story r) ->
  (forall x, x ∈ votes s -> x ∈ vs) ->
  (forall v t c, (v, t, c) ∈ vs -> (v, t, c) ∈ votes s \/
     (v = n /\ is_u64 c /\ WalRecord.from_vote_granted gid t c ∈ story r)) ->
  (forall x, x ∈ winners s -> x ∈ ws) ->
  (forall t c, (t, c) ∈ ws -> (t, c) ∈ winners s \/ carried vs t c) ->
  (forall n', proposing_term (g n') = proposing_term (groups s n') \/ (proposing_term (g n'), n') ∈ ws) ->
  (forall n', att n' = attempts s n' \/ attempt_ok vs n' (att n')) ->
  einv (mkESys (put (replicas s) n r) att g vs ws).
Proof.
  intros [I1 I1' I2 I3 I4 I5] Hn Hr Hvl Hlog Hvs Hnew Hws Hwin Hg Hatt. constructor; simpl.
  - intros n' Hn'. unfold put. case_decide; [by subst|auto].
  - intros n' Hn'. unfold put. case_decide; [by subst|auto].
  - intros v t c Hin. unfold put. destruct (Hnew v t c Hin) as [Hold|(-> & Hc & Hl)].
    + destruct (I2 v t c Hold) as (? & ? & ?). split_and!; try done. case_decide; [subst; auto|done].
    + rewrite decide_True by done. done.
  - intros n'. destruct (Hatt n') as [->|]; [|done]. specialize (I3 n'). unfold attempt_ok in *.
    destruct (attempts s n'); auto.
  - intros t c Hin. destruct (Hwin t c Hin) as [Hold|]; [|done]. eapply carried_mono; eauto.
  - intros n'. destruct (Hg n') as [->|]; [|by right]. destruct (I5 n'); auto.
Qed.

(** Events that neither grant a vote nor end an attempt. *)
Lemma einv_event s n o att :
  einv s -> is_u64 n -> elsewhere o = true -> event_ok o -> durable (replicas s n) o ->
  (forall n', att n' = attempts s n' \/ att n' = Idle \/ exists p, att n' = PreVoting p) ->
  einv (mkESys (put (replicas s) n (exec (replicas s n) o)) att (groups s) (votes s) (winners s)).
Proof.
  intros I Hn Ho Hok Hd Hatt. pose proof (ei_replica _ I n Hn) as Hr. apply einv_step; auto.
  - by apply event_base.
  - apply (event_votes n gid); [done|done|by apply I|done|]. by destruct o.
  - intros rec. by apply (exec_story_mono n gid).
  - intros n'. destruct (Hatt n') as [?|[->|[p ->]]]; simpl; auto.
Qed.

(** A replica votes for itself in a new term. *)
Lemma einv_self_vote s n now ok p :
  einv s -> is_u64 n -> current_term (election (replicas s n)) < p ->
  einv (mkESys (put (replicas s) n (persist_current_vote (become_candidate now (replicas s n) p) ok))
          (put (attempts s) n (Voted p)) (groups s) ((n, p, n) :: votes s) (winners s)).
Proof.
  intros I Hn Hp. pose proof (ei_replica _ I n Hn) as Hr. pose proof (ri_term _ _ _ Hr) as H0.
  destruct (votes_cast n gid (replicas s n) (mkElection p (Some (id (replicas s n))) Candidate
    (leader_id (election (replicas s n))) (now + lease_duration_ms (replicas s n))) (role_as_u8 Candidate) ok
    (id (replicas s n)) Hr (ei_voted _ I n Hn)) as [Hv Hin]; simpl; [by rewrite (ri_id _ _ _ Hr)|lia|done|by left|].
  change (persist_current_vote (become_candidate now (replicas s n) p) ok)
    with (exec (replicas s n) (DoCandidate now ok p)) in *.
  apply einv_step; auto.
  - apply event_base; [done|]. simpl. lia.
  - intros rec. by apply (exec_story_mono n gid).
  - intros x Hx. by right.
  - intros v t c [[= -> -> ->]|Hx]%elem_of_cons; [|by left]. right. split_and!; [done|done|].
    assert (WalRecord.from_vote_granted gid p n = WalRecord.from_vote_granted gid p (id (replicas s n))) as ->
      by (by rewrite (ri_id _ _ _ Hr)). exact Hin.
  - intros n'. unfold put. case_decide; [|by left]. right. subst. by left.
Qed.

Lemma grants_of_app l l' : grants_of (l ++ l') = grants_of l ++ grants_of l'.
Proof. apply omap_app. Qed.

(** What a candidate that takes office has behind it. *)
Lemma elected_carried s n now t l r' g' :
  NoDup voters -> campaign_ok voters s n t l -> (voting (replicas s n) = true -> n ∈ voters) -> (n, t, n) ∈ votes s ->
  run_candidate_election now (no_peers voters n) (majority voters) t l (replicas s n) (groups s n) = (r', g', true) ->
  carried (votes s) t n /\ r' = become_leader now (replicas s n) /\ proposing_term g' = t.
Proof.
  intros Hnd [Hg Hv] Hvot Hself. unfold run_candidate_election.
  destruct (no_peers voters n && voting (replicas s n)) eqn:Es.
  - intros [= <- <-]. split; [|done]. apply andb_true_iff in Es as [Hnp Hvt]. specialize (Hvot Hvt).
    exists [n]. split_and!; [by apply NoDup_singleton| |].
    + by intros v ->%list_elem_of_singleton.
    + unfold no_peers in Hnp. rewrite forallb_forall in Hnp. unfold majority.
      assert (length voters <= 1)%nat.
      { apply (NoDup_subset_length voters [n]); [done|]. intros v Hin. apply list_elem_of_singleton.
        apply list_elem_of_In, Hnp, Z.eqb_eq in Hin. done. }
      simpl. destruct (length voters) as [|[|]]; simpl; lia.
  - destruct (candidate_loop _ _ _ _ _ _) as [f c|t'| |] eqn:Ec; try done. intros [= <- <-]. split; [|done].
    apply candidate_loop_spec in Ec as (pre & rest & -> & Hq & _). rewrite grants_of_app, fmap_app in Hg.
    apply NoDup_app in Hg as (Hg & _). rewrite grants_of_app in Hv.
    assert (Hpre : forall v, v ∈ (grants_of pre).*1 -> v ∈ voters /\ v <> n /\ (v, t, n) ∈ votes s).
    { intros v ([v' x] & -> & Hx)%list_elem_of_fmap. apply (Hv _ x). apply elem_of_app. by left. }
    destruct (voting (replicas s n)) eqn:Ev.
    + exists (n :: (grants_of pre).*1). split_and!.
      * apply NoDup_cons. split; [|done]. intros Hin. by apply Hpre in Hin as (_ & ? & _).
      * intros v [->|Hin]%elem_of_cons; [auto|]. destruct (Hpre v Hin) as (? & _ & ?). done.
      * simpl. rewrite length_fmap. lia.
    + exists (grants_of pre).*1. split_and!; [done| |rewrite length_fmap; lia].
      intros v Hin. destruct (Hpre v Hin) as (? & _ & ?). done.
Qed.

Lemma campaign_inv s n now l :
  NoDup voters -> einv s -> act_ok voters true s (EndCampaign n now l) -> einv (act voters s (EndCampaign n now l)).
Proof.
  intros Hnd I [_ [Hn Hok]]. simpl. pose proof (ei_attempts _ I n) as Ha.
  destruct (attempts s n) as [| | |t] eqn:Et; try done. destruct (Hok t eq_refl) as (Hc & Hvot).
  simpl in Ha. pose proof (ei_replica _ I n Hn) as Hr. pose proof (ei_voted _ I n Hn) as Hv.
  destruct (run_candidate_election now _ _ t l _ _) as [[r g] won] eqn:Er.
  assert (Hatt : forall n', put (attempts s) n Idle n' = attempts s n' \/
    attempt_ok (votes s) n' (put (attempts s) n Idle n')) by (intros n'; unfold put; case_decide; simpl; auto).
  destruct won.
  - destruct (elected_carried _ _ _ _ _ _ _ Hnd Hc Hvot Ha Er) as (Hcar & -> & Hg).
    apply einv_step; auto.
    + by apply (event_base n gid (replicas s n) (DoLeader now)).
    + intros x Hx. by right.
    + intros t' c [[= -> ->]|Hx]%elem_of_cons; auto.
    + intros n'. unfold put. case_decide; [subst n'|by left]. right. rewrite Hg. by left.
  - assert (Hgs : forall n', proposing_term (put (groups s) n g n') = proposing_term (groups s n') \/
      (proposing_term (put (groups s) n g n'), n') ∈ winners s).
    { intros n'. unfold put. case_decide; [subst n'; left|by left]. unfold run_candidate_election in Er.
      destruct (_ && _); [done|]. destruct (candidate_loop _ _ _ _ _ _); by simplify_eq. }
    unfold run_candidate_election in Er. destruct (_ && _); [done|].
    destruct (candidate_loop _ _ _ _ _ _) as [f c|t'| |]; try done; injection Er as <- <-.
    + apply einv_step; auto; [by apply base_follower|by apply votes_follower].
    + apply einv_step; auto.
    + apply einv_step; auto.
Qed.

Lemma ask_vote_inv s n now ok req :
  einv s -> act_ok voters true s (AskVote n now ok req) -> einv (act voters s (AskVote n now ok req)).
Proof.
  intros I (_ & Hn & Hc & Ht). pose proof (ei_replica _ I n Hn) as Hr. simpl.
  pose proof (event_base n gid (replicas s n) (DoVote now ok req) Hr (conj Hc Ht)) as Hr'.
  pose proof (fun rec => exec_story_mono n gid (replicas s n) (DoVote now ok req) rec Hr Logic.I) as Hlog.
  pose proof (handle_request_vote_votes n gid now ok (replicas s n) req Hr (ei_voted _ I n Hn) Hc Ht) as Hv. simpl in *.
  destruct (handle_request_vote now ok (replicas s n) req) as [r reply]. simpl in *. destruct Hv as [Hv Hrec].
  destruct (granted reply); apply einv_step; auto.
  - intros x Hx. by right.
  - intros v t c [[= -> -> ->]|Hx]%elem_of_cons; auto.
Qed.

Lemma eact_inv s a : NoDup voters -> einv s -> act_ok voters true s a -> einv (act voters s a).
Proof.
  intros Hnd I Hok. pose proof Hok as [Hst Ha]. specialize (Hst eq_refl).
  destruct a as [n|n now ok l|n now ok|n|n now l|n now ok req|n o].
  - apply (einv_event s n DoPreCandidate); [done|exact Ha|done|done|done|]. intros n'. unfold put. case_decide; eauto.
  - simpl. destruct (attempts s n) as [|p| |] eqn:Ea; try done. specialize (Hst p Ea).
    assert (Hatt : forall n', put (attempts s) n Idle n' = attempts s n' \/ put (attempts s) n Idle n' = Idle \/
      exists p, put (attempts s) n Idle n' = PreVoting p) by (intros n'; unfold put; case_decide; auto).
    destruct (run_prevote_round _ _ _ p l) as [p'|t|] eqn:Eo; simpl.
    + pose proof (prevote_won _ _ _ _ _ _ Eo) as ->. by apply einv_self_vote; auto.
    + by apply (einv_event s n (DoFollower now t)).
    + by apply (einv_event s n (DoFollower now (current_term_atomic (replicas s n)))).
  - destruct Ha as [Hn Hlt]. pose proof (ei_replica _ I n Hn) as Hr. apply einv_self_vote; auto.
    rewrite (ri_mirror _ _ _ Hr). pose proof (ri_term _ _ _ Hr). rewrite Learner.next_slot; lia.
  - simpl in *. destruct (attempts s n) as [| |p|] eqn:Ea; try done. specialize (Hst p eq_refl).
    destruct I as [I1 I1' I2 I3 I4 I5]. constructor; simpl; auto. intros n'. unfold put. case_decide; [subst n'|auto].
    simpl. specialize (I3 n). rewrite Ea in I3. simpl in I3.
    destruct (I2 _ _ _ I3) as (Hn & _). rewrite (ri_mirror _ _ _ (I1 n Hn)), Hst. done.
  - by apply campaign_inv.
  - by apply ask_vote_inv.
  - destruct Ha as (Hn & Ho & Ho'). apply einv_event; auto. intros n'.
    destruct o; auto. unfold put. case_decide; auto.
Qed.

Lemma einitial_inv lease now (engine : E) : einv (initial gid lease now engine).
Proof.
  constructor; simpl; try done.
  - intros n Hn. apply fresh_base.
  - intros n Hn. apply fresh_votes.
  - intros v t c Hin. by apply not_elem_of_nil in Hin.
  - intros t c Hin. by apply not_elem_of_nil in Hin.
  - by left.
Qed.

Lemma ereachable_inv s : NoDup voters -> reachable voters true gid s -> einv s.
Proof. intros Hnd. induction 1; [apply einitial_inv|by apply eact_inv]. Qed.


End safety.

(** ** Runs of three replicas *)

Definition run_actions (l : list (@action (gmap bytes (Z * Cell)))) : esys (gmap bytes (Z * Cell)) :=
  foldl (act [1; 2; 3]) (initial 7 3000 0 ∅) l.

Ltac find_member := solve [repeat (apply list_elem_of_here || apply list_elem_of_further)].

(** Discharges [act_ok] on concrete states. *)
Ltac steady_tac :=
  let Hc := fresh in
  intros Hc; first [discriminate Hc|vm_compute; intros; simplify_eq; first [reflexivity|congruence|done]].

Ltac act_ok_tac :=
  lazymatch goal with
  | |- act_ok _ _ _ (EndCampaign _ _ _) =>
      split; [steady_tac|]; split; [unfold is_u64, u64_max; lia|intros ? Ht; vm_compute in Ht; simplify_eq; split;
        [split; [vm_compute; rewrite !NoDup_cons, !elem_of_nil; split_and!; try tauto; by apply NoDup_nil_2
                |intros ? ? Hin; vm_compute in Hin; inversion Hin as [|? ? ? Hin']; subst;
                 [split_and!; [find_member|lia|vm_compute; find_member]|inversion Hin']]
        |intros; find_member]]
  | |- act_ok _ _ _ (Other _ _) =>
      split; [steady_tac|]; split; [unfold is_u64, u64_max; lia|split; [reflexivity|simpl; unfold ballot_lt; simpl; try lia; done]]
  | |- _ => split; [steady_tac|]; unfold is_u64, u64_max; simpl; try lia; done
  end.

Definition yes (t : Z) : VoteReply := mkVoteReply t true 0 0 0.

(** Replica 2 wins term 1 with its own vote and that of 1. *)
Definition plain_election : list (@action (gmap bytes (Z * Cell))) :=
  [StartPreVote 2; EndPreVote 2 10000 true [Failed 1; Replied 3 (yes 0)]; StartCampaign 2;
   AskVote 1 10000 true (mkVoteReq 1 2 0 0); EndCampaign 2 10000 [Replied 1 (yes 1)]].

Lemma plain_election_reachable : reachable [1; 2; 3] true 7 (run_actions plain_election).
Proof.
  unfold run_actions, plain_election. cbn [foldl].
  repeat (refine (reach_act _ _ _ _ _ _ _); [|act_ok_tac]). apply reach_initial.
Qed.


(** Replica 1 starts a PreVote round in term 0; before its answers are in it
    votes for 2 in term 1, and 2 takes office. *)
Definition prevote_race : list (@action (gmap bytes (Z * Cell))) :=
  StartPreVote 1 :: plain_election ++
  [EndPreVote 1 10001 true [Replied 3 (yes 0)]; StartCampaign 1; AskVote 3 10001 true (mkVoteReq 1 1 0 0);
   EndCampaign 1 10001 [Replied 3 (yes 1)]].

(** C6. A PreVote round that ends after its replica has voted elects a second
    leader: [become_candidate] takes the proposed term without looking at the
    term and the vote the replica has by then, so replica 1 votes twice in term 1
    and both 1 and 2 lead it. *)
Theorem prevote_race_elects_two :
  let s := run_actions prevote_race in
  reachable [1; 2; 3] false 7 s /\
  role (election (replicas s 1)) = Leader /\ role (election (replicas s 2)) = Leader /\
  current_term (election (replicas s 1)) = 1 /\ current_term (election (replicas s 2)) = 1 /\
  WalRecord.from_vote_granted 7 1 2 ∈ log_of (replicas s 1) /\
  WalRecord.from_vote_granted 7 1 1 ∈ log_of (replicas s 1).
Proof.
  intros s. split.
  { unfold s, run_actions, prevote_race, plain_election. cbn [foldl app].
    repeat (refine (reach_act _ _ _ _ _ _ _); [|act_ok_tac]). apply reach_initial. }
  vm_compute. split_and!; try done; find_member.
Qed.

End Election.
