(* ===== verification/Lease.v ===== *)
(** * Leases: reads without a round trip

    Models the heartbeat round of [cluster/group_election_leader.rs] with its
    lease renewal on top of [Election], under one clock that all replicas share.

    [lease_excludes_later_leaders] is what the lease fast path of
    [linearizable_read_barrier] needs: while a leader holds a valid lease nobody
    has won a later term.  It assumes that elections are [steady], that a candidate
    waits for its own vote lockout to end, and that a replica is not back from a
    restart before the lockout it had granted ends.  The code enforces none of
    these, and [lease_outlives_leadership] gives a run for each of the last two. *)

From stdpp Require Import prelude gmap list.
From Stdlib Require Import ZArith Lia.
From S2P Require Import Prelude Roles Bytes KvOp Acceptor Learner WalRecord WalReplay Replica Election.

Module Lease.
Import KvOp Replica.
Import (hints) WalRecord.

(** ** The heartbeat round *)

Inductive HeartbeatOutcome := Continued (quorum_acked : bool) | SteppedDown (peer_term : Z).

(** A joined heartbeat task: whether the peer votes, and its reply. *)
Record joined := mkJoined { peer : Z; peer_voting : bool; reply : option HeartbeatReply }.

Fixpoint heartbeat_loop (quorum acks : nat) (leader_term : Z) (l : list joined) : HeartbeatOutcome :=
  match l with
  | [] => Continued (quorum <=? acks)%nat
  | mkJoined _ _ None :: l => heartbeat_loop quorum acks leader_term l
  | mkJoined _ v (Some hb) :: l =>
      if leader_term <? hbr_term hb then SteppedDown (hbr_term hb)
      else if success hb then
        let acks := (acks + if v then 1 else 0)%nat in
        if (quorum <=? acks)%nat then Continued true else heartbeat_loop quorum acks leader_term l
      else heartbeat_loop quorum acks leader_term l
  end.

(** The acknowledgements that the loop counts. *)
Definition acks_of (l : list joined) : list Z :=
  omap (fun j => match reply j with
                 | Some hb => if success hb && peer_voting j then Some (peer j) else None
                 | None => None
                 end) l.

Lemma heartbeat_loop_spec quorum t l : forall k,
  heartbeat_loop quorum k t l = Continued true ->
  exists pre rest, l = pre ++ rest /\ (quorum <= k + length (acks_of pre))%nat.
Proof.
  induction l as [|[x v hb] l IH]; intros k H; simpl in H.
  - exists [], []. split; [done|]. simpl. injection H as H. apply Nat.leb_le in H. lia.
  - destruct hb as [hb|].
    2: { apply IH in H as (pre & rest & -> & H). by exists (mkJoined x v None :: pre), rest. }
    destruct (_ <? _); [done|].
    assert (Ha : forall pre, length (acks_of (mkJoined x v (Some hb) :: pre))
      = ((if success hb && v then 1 else 0) + length (acks_of pre))%nat).
    { intros pre. unfold acks_of. simpl. by destruct (success hb && v). }
    destruct (success hb) eqn:Es.
    + destruct (Nat.leb_spec quorum (k + if v then 1 else 0)).
      * exists [mkJoined x v (Some hb)], l. split; [done|]. rewrite Ha. simpl. destruct v; simpl; lia.
      * apply IH in H as (pre & rest & -> & H). exists (mkJoined x v (Some hb) :: pre), rest. split; [done|].
        rewrite Ha. destruct v; simpl; lia.
    + apply IH in H as (pre & rest & -> & H). exists (mkJoined x v (Some hb) :: pre), rest. split; [done|].
      rewrite Ha. simpl. lia.
Qed.

Section round.
Context {E : Type} `{!KVEngine E}.

(** [run_heartbeat_round] once the fan-out is sent: the sender counts itself, and
    a quorum renews its lease from the time of sending. *)
Definition run_heartbeat_round (now : Z) (quorum : nat) (leader_term t_send lease_ms skew_ms : Z) (l : list joined)
  (r : PxLocalReplica E) : PxLocalReplica E * HeartbeatOutcome :=
  if (quorum <=? 1)%nat then (renew_lease now r t_send lease_ms skew_ms, Continued true)
  else match heartbeat_loop quorum 1 leader_term l with
       | Continued true => (renew_lease now r t_send lease_ms skew_ms, Continued true)
       | o => (r, o)
       end.

(** ** Replicas under one clock *)

(** Successful heartbeat replies are remembered as (peer, term, time of sending). *)
Record lsys := mkLSys {
  base : Election.esys E;
  clock : Z;
  acks : list (Z * Z * Z);
}.

Context (voters : list Z) (lease_ms skew_ms : Z).
(** Whether candidates and restarts wait for the replica's own lockout to end. *)
Context (honoured : bool).

Inductive action :=
| Elect (now : Z) (a : @Election.action E)
| Beat (n now : Z) (req : HeartbeatRequestPayload) (t_send : Z)
| Round (n now leader_term t_send : Z) (l : list joined).

Definition set_replica (s : Election.esys E) (n : Z) (r : PxLocalReplica E) : Election.esys E :=
  Election.mkESys (Election.put (Election.replicas s) n r) (Election.attempts s) (Election.groups s)
    (Election.votes s) (Election.winners s).

Definition act (s : lsys) (a : action) : lsys :=
  match a with
  | Elect now a => mkLSys (Election.act voters (base s) a) now (acks s)
  | Beat n now req t_send =>
      let '(r, rep) := handle_heartbeat now (Election.replicas (base s) n) req in
      mkLSys (set_replica (base s) n r) now
        (if success rep then (n, hb_term req, t_send) :: acks s else acks s)
  | Round n now t t_send l =>
      let '(r, _) := run_heartbeat_round now (Election.majority voters) t t_send lease_ms skew_ms l
                       (Election.replicas (base s) n) in
      mkLSys (set_replica (base s) n r) now (acks s)
  end.

(** The time an event reads, if any. *)
Definition event_now (o : @event E) : option Z :=
  match o with
  | DoPrepare now _ _ _ _ | DoAccept now _ _ | DoVote now _ _ | DoCandidate now _ _ | DoHeartbeat now _
  | DoStepDown now _ | DoFollower now _ | DoLeader now | DoRestart now _ _ _ => Some now
  | _ => None
  end.

Definition elect_now (a : @Election.action E) : option Z :=
  match a with
  | Election.StartPreVote _ | Election.StartCampaign _ => None
  | Election.EndPreVote _ now _ _ | Election.SkipPreVote _ now _ | Election.EndCampaign _ now _
  | Election.AskVote _ now _ _ => Some now
  | Election.Other _ o => event_now o
  end.

Definition lockout (s : lsys) (n : Z) : Z := vote_lockout_until (election (Election.replicas (base s) n)).

Definition honours (s : lsys) (now : Z) (a : @Election.action E) : Prop :=
  match a with
  | Election.EndPreVote n _ _ l =>
      forall p, Election.attempts (base s) n = Election.PreVoting p ->
        Election.run_prevote_round (Election.no_peers voters n) (voting (Election.replicas (base s) n))
          (Election.majority voters) p l = Election.Won p -> lockout s n <= now
  | Election.SkipPreVote n _ _ => lockout s n <= now
  | Election.Other n (DoRestart _ _ _ _) => lockout s n <= now
  | _ => True
  end.

Definition act_ok (s : lsys) (a : action) : Prop :=
  match a with
  | Elect now a => clock s <= now /\ Election.act_ok voters true (base s) a /\
      (forall x, elect_now a = Some x -> x = now) /\
      (forall n x req, a <> Election.Other n (DoHeartbeat x req)) /\
      (honoured = true -> honours s now a)
  | Beat n now req t_send => clock s <= now /\ is_u64 n /\ t_send <= now
  | Round n now t t_send l => clock s <= now /\ is_u64 n /\ n ∈ voters /\
      t <= current_term (election (Election.replicas (base s) n)) /\
      NoDup (acks_of l) /\ (forall v, v ∈ acks_of l -> v ∈ voters /\ v <> n /\ (v, t, t_send) ∈ acks s)
  end.

Definition initial (gid now : Z) (engine : E) : lsys :=
  mkLSys (Election.initial gid lease_ms now engine) now [].

Inductive reachable (gid : Z) : lsys -> Prop :=
| reach_initial now engine : reachable gid (initial gid now engine)
| reach_act s a : reachable gid s -> act_ok s a -> reachable gid (act s a).

End round.

(** ** Clocks of one replica *)

Section times.
Context {E : Type} `{!KVEngine E}.
Implicit Types r : PxLocalReplica E.

(** What an event may do to lockout, lease and term: the lockout is kept, starts
    anew, or ends once it was over; a term never drops under a lease. *)
Record timed r r' (now : option Z) : Prop := {
  t_lockout : vote_lockout_until (election r') = vote_lockout_until (election r) \/
    exists x, now = Some x /\ (vote_lockout_until (election r') = x + lease_duration_ms r \/
      vote_lockout_until (election r) <= x /\ vote_lockout_until (election r') = x);
  t_lease : lease r' = lease r /\ current_term (election r) <= current_term (election r') \/
    exists x, now = Some x /\ lease r' = mkLease x x;
  t_duration : lease_duration_ms r' = lease_duration_ms r;
}.

Lemma timed_same r r' now :
  election r' = election r -> lease r' = lease r -> lease_duration_ms r' = lease_duration_ms r -> timed r r' now.
Proof. intros He Hl Hd. constructor; rewrite ?He; auto. left. split; [done|lia]. Qed.

Lemma timed_follower now r t : timed r (become_follower now r t) (Some now).
Proof.
  unfold become_follower. constructor; simpl; eauto. destruct (_ <? _); simpl; auto.
Qed.

Lemma timed_fence now r t r' : term_fence now r t = Some r' -> timed r r' (Some now).
Proof.
  unfold term_fence. destruct (_ <? _); [done|]. destruct (_ <? _); intros [= <-];
    [apply timed_follower|by apply timed_same].
Qed.

Lemma append_same r mk ok :
  election (wal_append r mk ok) = election r /\ lease (wal_append r mk ok) = lease r /\
  lease_duration_ms (wal_append r mk ok) = lease_duration_ms r.
Proof. unfold wal_append. destruct (wal r); [|done]. by destruct ok. Qed.

Lemma timed_after r r1 r2 now :
  timed r r1 now -> election r2 = election r1 -> lease r2 = lease r1 -> lease_duration_ms r2 = lease_duration_ms r1 ->
  timed r r2 now.
Proof. intros [H1 H2 H3] He Hl Hd. constructor; rewrite ?He, ?Hl, ?Hd; auto. Qed.

Lemma timed_core r r' now : same_core r r' -> lease r' = lease r -> lease_duration_ms r' = lease_duration_ms r ->
  timed r r' now.
Proof. intros (_ & _ & _ & He & _). by apply timed_same. Qed.

Lemma apply_turn_times r :
  lease (default r (apply_turn r)) = lease r /\ lease_duration_ms (default r (apply_turn r)) = lease_duration_ms r.
Proof.
  unfold apply_turn. destruct (_ <=? _); [done|]. simpl.
  generalize (seqZ (Learner.contiguous_applied (learner r) + 1)
    (Z.min (Z.max (known_commit_slot r) (Learner.last_chosen_slot (learner r)))
      (Learner.contiguous_applied (learner r) + 1 + MAX_APPLY_PER_BATCH - 1) -
      (Learner.contiguous_applied (learner r) + 1) + 1)) as l. intros l. revert r.
  induction l as [|s l IH]; intros r; [done|]. simpl. destruct (IH (apply_slot r s)) as [-> ->].
  unfold apply_slot. destruct (_ || _); [|done]. by destruct (Acceptor.accepted_at _ _).
Qed.

Lemma timed_vote r x cta rm mk ok now :
  current_term (election r) <= current_term x -> vote_lockout_until x = now + lease_duration_ms r ->
  timed r (wal_append (set_election r x cta rm) mk ok) (Some now).
Proof.
  intros Ht Hv. destruct (append_same (set_election r x cta rm) mk ok) as (He & Hl & Hd).
  constructor; rewrite ?He, ?Hl, ?Hd; simpl; eauto.
Qed.

Lemma exec_timed r o :
  (forall now t ok, o = DoCandidate now ok t -> current_term (election r) < t) ->
  (forall now x en rf, o = DoRestart now x en rf -> x <> Leader /\ vote_lockout_until (election r) <= now) ->
  timed r (exec r o) (event_now o).
Proof.
  intros Hcand Hre.
  destruct o as [now ok s b t|now ok e|ok s e|now ok req|now ok t|i|now req|now req|now t| |now
    |s t b|e ids| |before|now x en rf]; simpl in *.
  - unfold on_prepare. destruct (term_fence now r t) as [r1|] eqn:Ef; [|by apply timed_same].
    apply timed_fence in Ef. destruct (Acceptor.prepare _ _ _) as [a []]; simpl;
      try (by eapply timed_after; [exact Ef|..]).
    destruct (append_same (set_acceptor r1 a) (fun gid => WalRecord.from_promised gid t s b) ok) as (? & ? & ?).
    by eapply timed_after; [exact Ef|..].
  - unfold on_accept, on_accept_inner, on_accept_persist.
    destruct (term_fence now r (term e)) as [r1|] eqn:Ef; [|by apply timed_same].
    apply timed_fence in Ef. destruct (Acceptor.accept _ _) as [a []]; simpl;
      try (by eapply timed_after; [exact Ef|..]).
    destruct (append_same (set_acceptor r1 a) (fun gid => WalRecord.from_accepted gid e) ok) as (? & ? & ?).
    by eapply timed_after; [exact Ef|..].
  - destruct (append_same r (fun gid => WalRecord.from_accepted gid e) true) as (? & ? & ?).
    unfold fetch_gap_reply. destruct (negb _); [by apply timed_same|].
    destruct (Acceptor.install_chosen _ _) as [a []]; by apply timed_same.
  - unfold handle_request_vote. destruct (_ && candidate_log_up_to_date r req && lockout_ok now r);
      [|by apply timed_same]. apply timed_vote; [|done].
    destruct (Z.ltb_spec (current_term (election r)) (vr_term req)); simpl; lia.
  - specialize (Hcand now t ok eq_refl).
    change (become_candidate now r t) with (set_election r (mkElection t (Some (id r)) Candidate (leader_id (election r))
      (now + lease_duration_ms r)) t (role_as_u8 Candidate)). apply timed_vote; simpl; lia.
  - unfold append_owed. destruct (wal r) as [w|]; [|by apply timed_same].
    destruct (owed w !! i); by apply timed_same.
  - unfold handle_heartbeat. destruct (Z.ltb_spec (hb_term req) (current_term (election r))); [by apply timed_same|].
    destruct (Z.ltb_spec (current_term (election r)) (hb_term req)); constructor; simpl; eauto; left; split; lia || done.
  - unfold handle_step_down. destruct (_ && _ && _); [apply timed_follower|by apply timed_same].
  - apply timed_follower.
  - constructor; simpl; eauto. left. split; [done|lia].
  - constructor; simpl; eauto.
  - apply timed_core; [apply chosen_notice_core| |]; unfold handle_chosen_notice;
      (destruct (Acceptor.accepted_at _ _); [case_bool_decide|]; done).
  - by apply timed_same.
  - destruct (apply_turn_times r). apply timed_core; [apply apply_turn_core|done|done].
  - by apply timed_same.
  - destruct (Hre now x en rf eq_refl) as [Hx Hl]. constructor; simpl; eauto. right. exists now. split; [done|]. right. eauto.
Qed.

End times.

(** ** The invariant *)

Section safety.
Context {E : Type} `{!KVEngine E} (voters : list Z) (lease_ms skew_ms gid : Z).
Implicit Types s : @lsys E.
Abbreviation rep s n := (Election.replicas (base s) n).

(** The acknowledgements behind a lease of [n] up to [until]. *)
Definition granted_lease s (n until : Z) : Prop :=
  exists t ts Q, t <= current_term (election (rep s n)) /\ until <= ts + lease_ms /\ NoDup Q /\
    (Election.majority voters <= length Q)%nat /\ forall v, v ∈ Q -> v ∈ voters /\ (v = n \/ (v, t, ts) ∈ acks s).

Record linv s : Prop := {
  li_base : Election.einv voters gid (base s);
  li_duration : forall n, lease_duration_ms (rep s n) = lease_ms;
  li_lockout : forall n, lockout s n <= clock s + lease_ms;
  li_acks : forall v t ts, (v, t, ts) ∈ acks s -> is_u64 v /\ ts + lease_ms <= lockout s v /\
    forall t' c, (v, t', c) ∈ Election.votes (base s) -> t < t' -> ts + lease_ms <= clock s;
  li_lease : forall n, lease_read_until (lease (rep s n)) <= clock s \/
    granted_lease s n (lease_read_until (lease (rep s n)));
}.

(** One replica moves at [now]; a vote it gives finds its lockout over. *)
Lemma linv_move s b n now x :
  0 <= lease_ms -> linv s -> clock s <= now -> Election.einv voters gid b ->
  (forall n', n' <> n -> Election.replicas b n' = rep s n') ->
  timed (rep s n) (Election.replicas b n) x -> (forall y, x = Some y -> y = now) ->
  (forall v t c, (v, t, c) ∈ Election.votes b -> (v, t, c) ∈ Election.votes (base s) \/ (v = n /\ lockout s n <= now)) ->
  linv (mkLSys b now (acks s)).
Proof.
  intros Hls [L1 L2 L3 L4 L5] Hnow Hb Hrest [Ht Hl Hd] Hx Hv.
  assert (Hlock : lockout s n <= vote_lockout_until (election (Election.replicas b n)) <= now + lease_ms).
  { specialize (L3 n). unfold lockout in *. destruct Ht as [->|(y & Hy & Ht)]; [lia|].
    rewrite (Hx y Hy), L2 in Ht. lia. }
  assert (Hlock' : forall n', lockout s n' <= vote_lockout_until (election (Election.replicas b n')) <= now + lease_ms).
  { intros n'. destruct (decide (n' = n)) as [->|Hne]; [done|]. rewrite Hrest by done.
    specialize (L3 n'). unfold lockout in *. lia. }
  constructor; simpl.
  - done.
  - intros n'. destruct (decide (n' = n)) as [->|Hne]; [by rewrite Hd|by rewrite Hrest].
  - intros n'. apply Hlock'.
  - intros v t ts Ha. destruct (L4 v t ts Ha) as (Hu & Hlo & Hvo). split_and!; [done| |].
    + specialize (Hlock' v). unfold lockout in *. simpl. lia.
    + intros t' c Hin Hlt. destruct (Hv v t' c Hin) as [Hold|[-> Hl']]; [|lia]. specialize (Hvo t' c Hold Hlt). lia.
  - intros n'. unfold granted_lease. simpl.
    assert (Hcase : lease (Election.replicas b n') = lease (rep s n') /\
        current_term (election (rep s n')) <= current_term (election (Election.replicas b n')) \/
      lease (Election.replicas b n') = mkLease now now).
    { destruct (decide (n' = n)) as [->|Hne]; [|rewrite Hrest by done; left; split; [done|lia]].
      destruct Hl as [|(y & Hy & ->)]; [auto|]. rewrite (Hx y Hy). auto. }
    destruct Hcase as [[-> Htm]| ->]; [|left; simpl; lia].
    destruct (L5 n') as [|(t & ts & Q & Hle & H)]; [left; lia|]. right. exists t, ts, Q. split; [lia|done].
Qed.

(** What an election action does, as a move of one replica. *)
Definition one_move s (b : Election.esys E) (now : Z) : Prop :=
  exists n x, (forall n', n' <> n -> Election.replicas b n' = rep s n') /\
    timed (rep s n) (Election.replicas b n) x /\ (forall y, x = Some y -> y = now) /\
    (forall v t c, (v, t, c) ∈ Election.votes b ->
       (v, t, c) ∈ Election.votes (base s) \/ (v = n /\ lockout s n <= now)).

Lemma one_move_event s n o now att g vs ws :
  (forall now t ok, o = DoCandidate now ok t -> current_term (election (rep s n)) < t) ->
  (forall now x en rf, o = DoRestart now x en rf -> x <> Leader /\ lockout s n <= now) ->
  (forall y, event_now o = Some y -> y = now) ->
  (forall v t c, (v, t, c) ∈ vs -> (v, t, c) ∈ Election.votes (base s) \/ (v = n /\ lockout s n <= now)) ->
  one_move s (Election.mkESys (Election.put (Election.replicas (base s)) n (exec (rep s n) o)) att g vs ws) now.
Proof.
  intros Hc Hre Hnow Hv. exists n, (event_now o). unfold Election.put. simpl. split_and!; [|..|done|done].
  - intros n' Hne. by rewrite decide_False.
  - rewrite decide_True by done. by apply exec_timed.
Qed.

Lemma one_move_none s b now :
  (forall n, Election.replicas b n = rep s n) -> Election.votes b = Election.votes (base s) -> one_move s b now.
Proof.
  intros Hr Hv. exists 0, None. rewrite Hv, Hr. split_and!; auto; [by apply timed_same|done].
Qed.

Lemma elect_move s a now :
  Election.einv voters gid (base s) -> Election.act_ok voters true (base s) a ->
  (forall x, elect_now a = Some x -> x = now) -> honours voters s now a ->
  one_move s (Election.act voters (base s) a) now.
Proof.
  intros I [Hst Hok] Hnow Hh. specialize (Hst eq_refl).
  destruct a as [n|n x ok l|n x ok|n|n x l|n x ok req|n o]; simpl in *.
  - apply (one_move_event s n DoPreCandidate); [done|done|done|auto].
  - rewrite (Hnow x eq_refl) in *. destruct (Election.attempts (base s) n) as [|p| |] eqn:Ea;
      try (by apply one_move_none). specialize (Hst p eq_refl).
    destruct (Election.run_prevote_round _ _ _ p l) as [p'|t|] eqn:Eo; simpl.
    + pose proof (Election.prevote_won _ _ _ _ _ _ Eo) as ->. specialize (Hh p eq_refl Eo). specialize (Hst eq_refl).
      apply (one_move_event s n (DoCandidate now ok p)); [by intros ??? [= _ _ <-]|done|by intros y [= <-]|].
      intros v t c [[= -> -> ->]|Hin]%elem_of_cons; auto.
    + apply (one_move_event s n (DoFollower now t)); [done|done|by intros y [= <-]|auto].
    + apply (one_move_event s n (DoFollower now (current_term_atomic (rep s n)))); [done|done|by intros y [= <-]|auto].
  - rewrite (Hnow x eq_refl) in *. destruct Hok as [Hn Hlt].
    pose proof (Election.ei_replica _ _ _ I n Hn) as Hr.
    apply (one_move_event s n (DoCandidate now ok _)); [|done|by intros y [= <-]|].
    + intros ??? [= _ _ <-]. rewrite (ri_mirror _ _ _ Hr). pose proof (ri_term _ _ _ Hr). rewrite Learner.next_slot; lia.
    + intros v t c [[= -> -> ->]|Hin]%elem_of_cons; auto.
  - destruct (Election.attempts (base s) n); by apply one_move_none.
  - rewrite (Hnow x eq_refl) in *. destruct (Election.attempts (base s) n) as [| | |t]; try (by apply one_move_none).
    unfold Election.run_candidate_election, Election.finalize_leader.
    destruct (if _ && _ then _ else _) as [f c|t'| |].
    + apply (one_move_event s n (DoLeader now)); [done|done|by intros y [= <-]|auto].
    + apply (one_move_event s n (DoFollower now t')); [done|done|by intros y [= <-]|auto].
    + apply one_move_none; [|done]. intros n'. simpl. unfold Election.put. case_decide; by subst.
    + apply one_move_none; [|done]. intros n'. simpl. unfold Election.put. case_decide; by subst.
  - rewrite (Hnow x eq_refl) in *. destruct Hok as (Hn & Hc & Ht).
    assert (Hg : granted (handle_request_vote now ok (rep s n) req).2 = true -> lockout s n <= now).
    { unfold handle_request_vote. destruct (_ && candidate_log_up_to_date (rep s n) req && _) eqn:Eg.
      - intros _. apply andb_true_iff in Eg as [_ Eg]. unfold lockout_ok in Eg.
        apply andb_true_iff in Eg as [Eg _]. by apply Z.leb_le in Eg.
      - unfold vote_reply. by destruct (frontier_triple (rep s n)) as [[? ?] ?]. }
    pose proof (one_move_event s n (DoVote now ok req) now (Election.attempts (base s)) (Election.groups (base s))
      (if granted (handle_request_vote now ok (rep s n) req).2
       then (n, vr_term req, candidate_id req) :: Election.votes (base s) else Election.votes (base s))
      (Election.winners (base s))) as Hm. simpl in Hm.
    destruct (handle_request_vote now ok (rep s n) req) as [r rp]. simpl in *.
    apply Hm; [done|done|by intros y [= <-]|]. intros v t c. destruct (granted rp); [|auto]. intros [[= -> -> ->]|Hin]%elem_of_cons; auto.
  - destruct Hok as (Hn & Ho & Hok). apply one_move_event; [by intros ??? ->| |done|auto].
    intros y z en rf ->. simpl in *. rewrite (Hnow y eq_refl). by destruct z.
Qed.

Lemma linv_beat s n now req ts :
  0 <= lease_ms -> linv s -> clock s <= now -> is_u64 n -> ts <= now ->
  linv (act voters lease_ms skew_ms s (Beat n now req ts)).
Proof.
  intros Hls L Hnow Hn Hts. pose proof (li_base _ L) as I. pose proof (Election.ei_replica _ _ _ I n Hn) as Hr.
  assert (Hm : linv (mkLSys (set_replica (base s) n (exec (rep s n) (DoHeartbeat now req))) now (acks s))).
  { destruct (one_move_event s n (DoHeartbeat now req) now (Election.attempts (base s)) (Election.groups (base s))
      (Election.votes (base s)) (Election.winners (base s))) as (n' & x & H1 & H2 & H3 & H4);
      [done|done|by intros y [= <-]|auto|].
    eapply linv_move; [done|done|done| |exact H1|exact H2|exact H3|exact H4].
    apply (Election.einv_event voters gid (base s) n (DoHeartbeat now req)); [done|done|done|done|done|auto]. }
  assert (Hold : forall t c, (n, t, c) ∈ Election.votes (base s) -> t <= current_term (election (rep s n))).
  { intros t c Hin. destruct (Election.ei_votes _ _ _ I _ _ _ Hin) as (_ & _ & Hl).
    destruct (Election.ei_voted _ _ _ I n Hn) as (_ & Hv & _). by apply (Hv _ Hl). }
  simpl in *. pose proof (li_duration _ L n) as Hd.
  assert (Hack : success (handle_heartbeat now (rep s n) req).2 = true ->
    current_term (election (rep s n)) <= hb_term req /\
    vote_lockout_until (election (handle_heartbeat now (rep s n) req).1) = now + lease_ms).
  { unfold handle_heartbeat. destruct (Z.ltb_spec (hb_term req) (current_term (election (rep s n)))) as [Hlt|Hge].
    - unfold heartbeat_reply. by destruct (frontier_triple (rep s n)) as [[? ?] ?].
    - intros _. split; [done|]. rewrite <- Hd. by destruct (if _ <? _ then _ else _). }
  destruct (handle_heartbeat now (rep s n) req) as [r rp]. simpl in *.
  destruct (success rp); [|done]. destruct (Hack eq_refl) as [Hterm Hlock].
  destruct Hm as [M1 M2 M3 M4 M5]. constructor; simpl in *; auto.
  - intros v t ts' [[= -> -> ->]|Ha]%elem_of_cons; [|by apply M4]. split_and!; [done| |].
    + unfold lockout. simpl. unfold Election.put. rewrite decide_True by done. lia.
    + intros t' c Hin Hlt. specialize (Hold t' c Hin). lia.
  - intros n'. destruct (M5 n') as [|(t & ts' & Q & Hc & Hu & Hq & Hlen & Hin)]; [by left|]. right.
    exists t, ts', Q. split_and!; try done. intros v Hv. destruct (Hin v Hv) as [? [->|Ha]]; [by auto|].
    split; [done|]. right. by right.
Qed.

Lemma linv_round s n now t ts l :
  linv s -> act_ok voters true s (Round n now t ts l) -> 0 <= lease_ms -> 0 <= skew_ms ->
  linv (act voters lease_ms skew_ms s (Round n now t ts l)).
Proof.
  intros L (Hnow & Hn & Hnv & Ht & Hnd & Hacks) Hls Hsk. pose proof (li_base _ L) as I. simpl.
  assert (Hkeep : forall r, same_core (rep s n) r -> lease_duration_ms r = lease_duration_ms (rep s n) ->
    (lease_read_until (lease r) <= now \/ lease_read_until (lease r) = lease_read_until (lease (rep s n)) \/
     granted_lease s n (lease_read_until (lease r))) ->
    linv (mkLSys (set_replica (base s) n r) now (acks s))).
  { intros r Hc Hd Hl. pose proof Hc as (_ & Hw & _ & He & _). destruct L as [L1 L2 L3 L4 L5].
    assert (Hel : forall n', election (Election.put (Election.replicas (base s)) n r n') = election (rep s n'))
      by (intros n'; unfold Election.put; case_decide; by subst).
    constructor; simpl.
    - apply Election.einv_step; auto.
      + eapply same_core_base; [by apply I|done].
      + rewrite He, (same_core_story _ _ Hc). by apply I.
      + intros rec. by rewrite (same_core_story _ _ Hc).
    - intros n'. unfold Election.put. case_decide; [subst|done]. by rewrite Hd.
    - intros n'. unfold lockout. simpl. rewrite Hel. specialize (L3 n'). unfold lockout in L3. lia.
    - intros v t' ts' Ha. destruct (L4 v t' ts' Ha) as (? & Hlo & Hv). unfold lockout in *. simpl. rewrite Hel.
      split_and!; [done|done|]. intros t2 c Hin Hlt. specialize (Hv t2 c Hin Hlt). lia.
    - intros n'. unfold granted_lease. simpl. rewrite Hel. unfold Election.put. case_decide as Hd'; [subst n'|].
      + destruct Hl as [|[->|Hg]]; [by left| |by right].
        destruct (L5 n) as [|Hg]; [left; lia|by right].
      + destruct (L5 n') as [|Hg]; [left; lia|by right]. }
  assert (Hrenew : forall pre rest, l = pre ++ rest -> (Election.majority voters <= 1 + length (acks_of pre))%nat ->
    linv (mkLSys (set_replica (base s) n (renew_lease now (rep s n) ts lease_ms skew_ms)) now (acks s))).
  { intros pre rest -> Hq. apply Hkeep; [done|done|]. simpl.
    destruct (Z.max_spec (lease_read_until (lease (rep s n))) (ts + Z.max 0 (lease_ms - skew_ms))) as [[_ ->]|[_ ->]];
      [|by right; left]. right. right. unfold acks_of in *. rewrite omap_app in Hnd.
    apply NoDup_app in Hnd as (Hnd & _). exists t, ts, (n :: acks_of pre). split_and!; [done|lia| |simpl; unfold acks_of; lia|].
    - apply NoDup_cons. split; [|done]. intros Hin.
      destruct (Hacks n) as (_ & ? & _); [rewrite omap_app; apply elem_of_app; by left|done].
    - intros v [->|Hin]%elem_of_cons; [by auto|].
      destruct (Hacks v) as (? & _ & ?); [rewrite omap_app; apply elem_of_app; by left|]. auto. }
  unfold run_heartbeat_round. destruct (Nat.leb_spec (Election.majority voters) 1).
  { apply (Hrenew [] l); [done|simpl; lia]. }
  destruct (heartbeat_loop _ 1 t l) as [[]|t'] eqn:Eh.
  - apply heartbeat_loop_spec in Eh as (pre & rest & Hl & Hq). by eapply Hrenew.
  - apply Hkeep; [done|done|auto].
  - apply Hkeep; [done|done|auto].
Qed.

Lemma linitial_inv now (engine : E) : 0 <= lease_ms -> linv (initial lease_ms gid now engine).
Proof.
  intros H. constructor; simpl; try done.
  - apply Election.einitial_inv.
  - intros n. unfold lockout. simpl. lia.
  - intros v t ts Hin. by apply not_elem_of_nil in Hin.
  - intros n. left. simpl. lia.
Qed.

Lemma lact_inv s a :
  NoDup voters -> 0 <= lease_ms -> 0 <= skew_ms -> linv s -> act_ok voters true s a ->
  linv (act voters lease_ms skew_ms s a).
Proof.
  intros Hnd Hl Hs L Ha. destruct a as [now a|n now req ts|n now t ts l].
  - destruct Ha as (Hnow & Hok & Ht & _ & Hh). simpl.
    destruct (elect_move s a now (li_base _ L) Hok Ht (Hh eq_refl)) as (n & x & H1 & H2 & H3 & H4).
    eapply linv_move; [done|done|done| |exact H1|exact H2|exact H3|exact H4].
    apply Election.eact_inv; [done|apply L|done].
  - destruct Ha as (Hnow & Hn & Hts). by apply linv_beat.
  - by apply linv_round.
Qed.

Lemma lreachable_inv s :
  NoDup voters -> 0 <= lease_ms -> 0 <= skew_ms -> reachable voters lease_ms skew_ms true gid s -> linv s.
Proof. intros Hnd Hl Hs. induction 1; [by apply linitial_inv|by apply lact_inv]. Qed.

(** C7. While a replica may serve reads on its lease, nobody has won a term above
    its own, and if it won its term nobody else did, so nothing it has not seen
    can have been chosen by a leader elected since.  Assumed: one clock for all
    replicas; steady elections, as in [Election.election_safety]; a candidate
    votes for itself, and a replica is back from a restart, only when its own
    vote lockout has ended. *)
Theorem lease_excludes_later_leaders s n :
  NoDup voters -> 0 <= lease_ms -> 0 <= skew_ms -> reachable voters lease_ms skew_ms true gid s ->
  is_u64 n -> lease_read_valid (rep s n) (clock s) = true ->
  (forall t n', (t, n') ∈ Election.winners (base s) -> t <= current_term (election (rep s n))) /\
  (forall n', (current_term (election (rep s n)), n) ∈ Election.winners (base s) ->
     (current_term (election (rep s n)), n') ∈ Election.winners (base s) -> n' = n).
Proof.
  intros Hnd Hl Hs Hr Hn Hvalid. pose proof (lreachable_inv s Hnd Hl Hs Hr) as L.
  pose proof (li_base _ L) as I. pose proof (Election.ei_winners _ _ _ I) as Hwin. split.
  2: { intros n' H H'. exact (Election.carried_unique voters gid (base s) _ _ _ I (Hwin _ _ H') (Hwin _ _ H)). }
  intros t' n' (Q' & HndQ' & HQ' & Hq')%Hwin.
  apply andb_true_iff in Hvalid as [_ Hv]. apply Z.ltb_lt in Hv.
  destruct (li_lease _ L n) as [?|(t & ts & Q & Ht & Hu & HndQ & Hq & HQ)]; [lia|].
  destruct (Z_lt_le_dec (current_term (election (rep s n))) t') as [Hlt|]; [|done].
  exfalso. destruct (majorities_intersect voters Q Q') as (v & Hin & Hin'); try done.
  - intros v Hin. by apply HQ.
  - intros v Hin. by apply HQ'.
  - unfold Election.majority in *. pose proof (Nat.div_mod_eq (length voters) 2).
    pose proof (Nat.mod_upper_bound (length voters) 2). lia.
  - destruct (HQ' v Hin') as [_ Hvote]. destruct (HQ v Hin) as [_ [->|Hack]].
    + destruct (Election.ei_votes _ _ _ I _ _ _ Hvote) as (_ & _ & Hlog).
      destruct (Election.ei_voted _ _ _ I n Hn) as (_ & Hterm & _).
      destruct (Hterm _ Hlog eq_refl) as (_ & Hle & _). simpl in Hle. lia.
    + destruct (li_acks _ L _ _ _ Hack) as (_ & _ & Hexp). specialize (Hexp _ _ Hvote). lia.
Qed.

End safety.

(** ** Runs of three replicas *)

Definition run_actions (l : list (@action (gmap bytes (Z * Cell)))) : lsys :=
  foldl (act [1; 2; 3] 3000 500) (initial 3000 7 0 ∅) l.

Ltac zdec := vm_compute; first [reflexivity|discriminate|split; discriminate].

(** Discharges [act_ok] on concrete states. *)
Ltac lact_ok_tac :=
  lazymatch goal with
  | |- act_ok _ _ _ (Elect _ _) =>
      refine (conj _ (conj _ (conj _ (conj _ _))));
        [zdec|Election.act_ok_tac|vm_compute; congruence|congruence
        |first [discriminate|intros _; vm_compute; intros; first [discriminate|done]]]
  | |- act_ok _ _ _ (Beat _ _ _ _) => refine (conj _ (conj _ _)); zdec
  | |- act_ok _ _ _ (Round _ _ _ _ _) =>
      refine (conj _ (conj _ (conj _ (conj _ (conj _ _)))));
        [zdec|zdec|Election.find_member|zdec
        |vm_compute; rewrite !NoDup_cons, !elem_of_nil; split_and!; try tauto; by apply NoDup_nil_2
        |intros ? Hin; vm_compute in Hin; inversion Hin as [|? ? ? Hin']; subst;
          [split_and!; [Election.find_member|lia|vm_compute; Election.find_member]|inversion Hin']]
  end.

(** Replica 1 leads term 1, elected by 2, and holds a lease that 2 acknowledged;
    3 has only heard a prepare of term 1. *)
Definition leased : list (@action (gmap bytes (Z * Cell))) :=
  [Elect 10000 (Election.StartPreVote 1); Elect 10000 (Election.EndPreVote 1 10000 true [Election.Replied 2 (Election.yes 0)]);
   Elect 10000 (Election.StartCampaign 1); Elect 10000 (Election.AskVote 2 10000 true (mkVoteReq 1 1 0 0));
   Elect 10000 (Election.EndCampaign 1 10000 [Election.Replied 2 (Election.yes 1)]);
   Elect 10000 (Election.Other 3 (DoPrepare 10000 true 5 (mkBallot 1 1) 1));
   Beat 2 10001 (mkHeartbeat 1 1 0) 10001;
   Round 1 10002 1 10001 [mkJoined 2 true (Some (mkHeartbeatReply 1 true 0 0 0 0 0))]].

(** 3 restarts while 1 holds its lease. *)
Definition leased_restart : list (@action (gmap bytes (Z * Cell))) :=
  leased ++ [Elect 10003 (Election.Other 3 (DoRestart 10003 Follower ∅ 0))].

Lemma leased_restart_reachable : reachable [1; 2; 3] 3000 500 true 7 (run_actions leased_restart).
Proof.
  unfold run_actions, leased_restart, leased. cbn [foldl app].
  repeat (refine (reach_act _ _ _ _ _ _ _ _ _); [|lact_ok_tac]). apply reach_initial.
Qed.

Lemma lease_excludes_later_leaders_witness :
  let s := run_actions leased_restart in
  lease_read_valid (Election.replicas (base s) 1) (clock s) = true /\
  forall t n, (t, n) ∈ Election.winners (base s) -> t <= 1.
Proof.
  intros s. assert (Hv : lease_read_valid (Election.replicas (base s) 1) (clock s) = true)
    by (vm_compute; reflexivity).
  split; [exact Hv|]. intros t n Hin.
  destruct (lease_excludes_later_leaders [1; 2; 3] 3000 500 7 s 1) as [H _].
  - rewrite !NoDup_cons, !elem_of_cons, !elem_of_nil. split_and!; try lia. apply NoDup_nil_2.
  - lia.
  - lia.
  - exact leased_restart_reachable.
  - vm_compute. split; discriminate.
  - exact Hv.
  - etrans; [exact (H t n Hin)|]. vm_compute. discriminate.
Defined.

(** 2 runs for office before its lockout ends: it asks 3 for a vote and counts its own. *)
Definition self_vote : list (@action (gmap bytes (Z * Cell))) :=
  leased ++
  [Elect 11500 (Election.StartPreVote 2); Elect 11600 (Election.EndPreVote 2 11600 true [Election.Replied 3 (Election.yes 1)]);
   Elect 11600 (Election.StartCampaign 2); Elect 11600 (Election.AskVote 3 11600 true (mkVoteReq 2 2 0 0));
   Elect 11600 (Election.EndCampaign 2 11600 [Election.Replied 3 (Election.yes 2)])].

(** 2 restarts, which ends its lockout, and votes for 3. *)
Definition early_restart : list (@action (gmap bytes (Z * Cell))) :=
  leased ++
  [Elect 10400 (Election.StartPreVote 3); Elect 10500 (Election.Other 2 (DoRestart 10500 Follower ∅ 0));
   Elect 10600 (Election.EndPreVote 3 10600 true [Election.Replied 2 (Election.yes 1)]);
   Elect 10600 (Election.StartCampaign 3); Elect 10600 (Election.AskVote 2 10600 true (mkVoteReq 2 3 0 0));
   Elect 10600 (Election.EndCampaign 3 10600 [Election.Replied 2 (Election.yes 2)])].

(** C8. With the default durations a lease can outlive the leadership it stands
    for: a candidate counts its own vote whatever it has acknowledged, and a
    restarted replica votes at once.  In each run replica 1 may still serve reads
    on its lease while another replica leads term 2. *)
Theorem lease_outlives_leadership :
  (let s := run_actions self_vote in
   reachable [1; 2; 3] 3000 500 false 7 s /\
   lease_read_valid (Election.replicas (base s) 1) (clock s) = true /\
   role (election (Election.replicas (base s) 2)) = Leader /\
   current_term (election (Election.replicas (base s) 1)) = 1 /\
   current_term (election (Election.replicas (base s) 2)) = 2) /\
  (let s := run_actions early_restart in
   reachable [1; 2; 3] 3000 500 false 7 s /\
   lease_read_valid (Election.replicas (base s) 1) (clock s) = true /\
   role (election (Election.replicas (base s) 3)) = Leader /\
   current_term (election (Election.replicas (base s) 1)) = 1 /\
   current_term (election (Election.replicas (base s) 3)) = 2).
Proof.
  split; intros s; (split; [|vm_compute; done]).
  - unfold s, run_actions, self_vote, leased. cbn [foldl app].
    repeat (refine (reach_act _ _ _ _ _ _ _ _ _); [|lact_ok_tac]). apply reach_initial.
  - unfold s, run_actions, early_restart, leased. cbn [foldl app].
    repeat (refine (reach_act _ _ _ _ _ _ _ _ _); [|lact_ok_tac]). apply reach_initial.
Qed.

End Lease.
