(* ===== verification/Jitter.v ===== *)
(** * Randomised waits

    Models [XorShift64] and [next_election_deadline] of
    [cluster/group_election.rs] and [retry_backoff] of [cluster/group_propose.rs]:
    the 64-bit generator with its shifts cut to the width, the election deadline
    and the back-off between attempts.

    [jitter_in_range]: the generator is a permutation of the non-zero words, so it
    never sticks at its fixed point 0, and every wait drawn from it stays in its
    interval.  The one interval it cannot draw from is the whole word. *)

From stdpp Require Import prelude list.
From Stdlib Require Import ZArith Lia.
From S2P Require Import Prelude.

Module Jitter.

Definition mul64 (a b : Z) : Z := wrap64 (a * b).
Definition sat_mul64 (a b : Z) : Z := Z.min (a * b) u64_max.

(** [x << k] drops what leaves the word. *)
Definition shl64 (x k : Z) : Z := wrap64 (Z.shiftl x k).

Definition golden : Z := 11400714819323198485. (* 0x9E37_79B9_7F4A_7C15 *)
Definition multiplier : Z := 2685821657736338717. (* 0x2545_F491_4F6C_DD1D *)

Record XorShift64 := mkRng { state : Z }.

Definition new (seed : Z) : XorShift64 := mkRng (if seed =? 0 then golden else seed).

Definition scramble (x : Z) : Z :=
  let x := Z.lxor x (shl64 x 13) in
  let x := Z.lxor x (Z.shiftr x 7) in
  Z.lxor x (shl64 x 17).

Definition next_u64 (rng : XorShift64) : XorShift64 * Z :=
  let x := scramble (state rng) in
  (mkRng x, mul64 x multiplier).

(** [None] is a panic: the span of the whole word is 0 and divides. *)
Definition random_between_ms (rng : XorShift64) (lo hi : Z) : option (XorShift64 * Z) :=
  if lo =? hi then Some (rng, lo)
  else
    let span := wrap64 (hi - lo + 1) in
    if span =? 0 then None
    else let '(rng, r) := next_u64 rng in Some (rng, wrap64 (lo + r mod span)).

(** The deadline in milliseconds after [now]. *)
Definition next_election_deadline (now election_min_ms election_max_ms : Z) (rng : XorShift64) : option (XorShift64 * Z) :=
  '(rng, jitter_ms) ← random_between_ms rng election_min_ms election_max_ms; Some (rng, now + jitter_ms).

Definition retry_base_backoff_ms : Z := 5.

Definition retry_jitter_multiplier (rng : XorShift64) : XorShift64 * Z :=
  let '(rng, r) := next_u64 rng in (rng, 500 + r mod 1001).

Definition retry_backoff (rng : XorShift64) (attempt : nat) : XorShift64 * Z :=
  let factor := Z.shiftl 1 (Z.of_nat (Nat.min attempt 6)) in
  let base := sat_mul64 retry_base_backoff_ms factor in
  let '(rng, jitter_mult) := retry_jitter_multiplier rng in
  (rng, sat_mul64 base jitter_mult / 1000).

(** ** The generator *)

Lemma u64_testbit x k : is_u64 x -> 64 <= k -> Z.testbit x k = false.
Proof.
  intros [H0 H1] Hk. unfold u64_max in H1. destruct (Z.eq_dec x 0) as [->|]; [apply Z.bits_0|].
  apply Z.bits_above_log2; [done|]. apply Z.log2_lt_pow2; [lia|].
  pose proof (Z.pow_le_mono_r 2 64 k). lia.
Qed.

Lemma u64_lxor x y : is_u64 x -> is_u64 y -> is_u64 (Z.lxor x y).
Proof.
  intros Hx Hy. assert (H0 : 0 <= Z.lxor x y) by (apply Z.lxor_nonneg; unfold is_u64 in *; lia).
  assert (E : Z.lxor x y mod 2 ^ 64 = Z.lxor x y).
  { apply Z.bits_inj'. intros k Hk. destruct (Z.lt_ge_cases k 64).
    - by rewrite Z.mod_pow2_bits_low by done.
    - rewrite Z.mod_pow2_bits_high by lia. by rewrite Z.lxor_spec, !u64_testbit by done. }
  rewrite <- E. apply wrap64_range.
Qed.

Lemma shl64_testbit x k i : 0 <= k -> 0 <= i < 64 -> Z.testbit (shl64 x k) i = Z.testbit x (i - k).
Proof. intros Hk Hi. unfold shl64, wrap64. rewrite Z.mod_pow2_bits_low by lia. apply Z.shiftl_spec. lia. Qed.

Lemma shl64_lxor x y k : 0 <= k -> shl64 (Z.lxor x y) k = Z.lxor (shl64 x k) (shl64 y k).
Proof.
  intros Hk. apply Z.bits_inj'. intros i Hi. rewrite Z.lxor_spec. destruct (Z.lt_ge_cases i 64).
  - by rewrite !shl64_testbit, Z.lxor_spec by lia.
  - unfold shl64, wrap64. by rewrite !Z.mod_pow2_bits_high by lia.
Qed.

Lemma shl_step_range x k : is_u64 x -> is_u64 (Z.lxor x (shl64 x k)).
Proof. intros H. apply u64_lxor; [done|apply wrap64_range]. Qed.

Lemma shr_step_range x k : 0 <= k -> is_u64 x -> is_u64 (Z.lxor x (Z.shiftr x k)).
Proof.
  intros Hk H. apply u64_lxor; [done|]. destruct H as [H0 H1]. rewrite Z.shiftr_div_pow2 by done.
  pose proof (Z.pow_pos_nonneg 2 k). split; [apply Z.div_pos; lia|].
  pose proof (Z.div_le_upper_bound x (2 ^ k) x). nia.
Qed.

(** A word equal to its own shift is 0. *)
Lemma shl_step_kernel x k : 0 < k -> is_u64 x -> Z.lxor x (shl64 x k) = 0 -> x = 0.
Proof.
  intros Hk Hx E. apply Z.lxor_eq in E. apply Z.bits_inj_0. intros i.
  destruct (Z.lt_ge_cases i 0) as [|Hi]; [by apply Z.testbit_neg_r|]. revert i Hi.
  apply (well_founded_induction (Z.lt_wf 0) (fun i => 0 <= i -> Z.testbit x i = false)). intros i IH Hi.
  destruct (Z.lt_ge_cases i 64); [|by apply u64_testbit]. rewrite E, shl64_testbit by lia.
  destruct (Z.lt_ge_cases (i - k) 0); [by apply Z.testbit_neg_r|]. apply IH; lia.
Qed.

Lemma shr_step_kernel x k : 0 < k -> is_u64 x -> Z.lxor x (Z.shiftr x k) = 0 -> x = 0.
Proof.
  intros Hk [H0 _] E. apply Z.lxor_eq in E. rewrite Z.shiftr_div_pow2 in E by lia.
  destruct (Z.eq_dec x 0); [done|]. pose proof (Z.pow_gt_1 2 k). pose proof (Z.div_lt x (2 ^ k)). lia.
Qed.

Lemma scramble_range x : is_u64 x -> is_u64 (scramble x).
Proof. intros H. unfold scramble. by repeat first [apply shl_step_range|apply shr_step_range; [done|]]. Qed.

Lemma scramble_zero x : is_u64 x -> scramble x = 0 -> x = 0.
Proof.
  intros H E. unfold scramble in E.
  apply shl_step_kernel in E; [|done|by repeat first [apply shl_step_range|apply shr_step_range; [done|]]].
  apply shr_step_kernel in E; [|done|by apply shl_step_range]. by apply shl_step_kernel in E.
Qed.

Lemma scramble_lxor x y : scramble (Z.lxor x y) = Z.lxor (scramble x) (scramble y).
Proof.
  assert (Hx : forall a b c d, Z.lxor (Z.lxor a b) (Z.lxor c d) = Z.lxor (Z.lxor a c) (Z.lxor b d)).
  { intros a b c d. rewrite !Z.lxor_assoc. f_equal. rewrite <- !Z.lxor_assoc. f_equal. apply Z.lxor_comm. }
  unfold scramble. rewrite shl64_lxor, Hx by done. rewrite Z.shiftr_lxor, Hx.
  by rewrite shl64_lxor, Hx by done.
Qed.

Lemma scramble_inj x y : is_u64 x -> is_u64 y -> scramble x = scramble y -> x = y.
Proof.
  intros Hx Hy E. apply Z.lxor_eq, scramble_zero; [by apply u64_lxor|]. rewrite scramble_lxor, E. apply Z.lxor_nilpotent.
Qed.

(** What the generator's state always is. *)
Definition live (rng : XorShift64) : Prop := is_u64 (state rng) /\ state rng <> 0.

Lemma next_u64_live rng : live rng -> live (next_u64 rng).1 /\ is_u64 (next_u64 rng).2.
Proof.
  intros [H Hn]. split_and!; simpl; [split|apply wrap64_range]; [by apply scramble_range|].
  intros E. by apply Hn, scramble_zero.
Qed.

Lemma backoff_range k m : 5 <= k <= 320 -> 0 <= m <= 1000 -> k * 500 <= k * (500 + m) <= u64_max /\
  k / 2 <= k * (500 + m) / 1000 <= 3 * k / 2.
Proof.
  intros Hk Hm. split; [unfold u64_max; nia|]. split.
  - apply Z.div_le_lower_bound; [lia|]. pose proof (Z.mul_div_le k 2). nia.
  - apply Z.div_le_lower_bound; [lia|]. pose proof (Z.mul_div_le (k * (500 + m)) 1000). nia.
Qed.

Lemma retry_backoff_range rng attempt : let base := 5 * 2 ^ Z.of_nat (Nat.min attempt 6) in
  base / 2 <= (retry_backoff rng attempt).2 <= 3 * base / 2 /\ (retry_backoff rng attempt).2 <= 480.
Proof.
  intros base. assert (Hb : 5 <= base <= 320).
  { pose proof (Z.pow_le_mono_r 2 (Z.of_nat (Nat.min attempt 6)) 6).
    pose proof (Z.pow_pos_nonneg 2 (Z.of_nat (Nat.min attempt 6))). lia. }
  unfold retry_backoff, retry_jitter_multiplier. destruct (next_u64 rng) as [g r]. simpl snd.
  rewrite Z.shiftl_1_l. pose proof (Z.mod_pos_bound r 1001).
  pose proof (backoff_range base (r mod 1001)) as [H1 H2]; [done|lia|].
  assert (Hbase : sat_mul64 retry_base_backoff_ms (2 ^ Z.of_nat (Nat.min attempt 6)) = base).
  { unfold sat_mul64, retry_base_backoff_ms. fold base. unfold u64_max. lia. }
  rewrite Hbase. unfold sat_mul64. rewrite Z.min_l by lia. split; [done|].
  assert (3 * base / 2 <= 480) by (apply Z.div_le_upper_bound; lia). lia.
Qed.

(** From any seed, after any number of draws: the state is a non-zero 64-bit
    word and distinct states have distinct successors, so the sequence never
    falls into the fixed point 0; a draw between [lo <= hi] succeeds unless the
    interval is the whole word and stays in [lo, hi], so an election deadline is
    between its configured bounds; and the back-off of an attempt is within half
    and one and a half of 5 ms times 2 to the attempt, at most 480 ms. *)
Theorem jitter_in_range seed n lo hi now attempt : is_u64 seed -> 0 <= lo <= hi -> hi <= u64_max ->
  let rng := Nat.iter n (fun g => (next_u64 g).1) (new seed) in
  live rng /\
  (forall rng', live rng' -> (next_u64 rng).1 = (next_u64 rng').1 -> rng = rng') /\
  (random_between_ms rng lo hi = None <-> lo = 0 /\ hi = u64_max) /\
  (forall rng' d, next_election_deadline now lo hi rng = Some (rng', d) -> now + lo <= d <= now + hi /\ live rng') /\
  let base := 5 * 2 ^ Z.of_nat (Nat.min attempt 6) in
  base / 2 <= (retry_backoff rng attempt).2 <= 3 * base / 2 /\ (retry_backoff rng attempt).2 <= 480.
Proof.
  intros Hs Hlo Hhi rng. assert (Hl : live rng).
  { subst rng. induction n as [|n IH]; [|by apply next_u64_live].
    unfold live, new. simpl. destruct (Z.eqb_spec seed 0); [split; [unfold golden, is_u64, u64_max; lia|done]|done]. }
  clearbody rng. pose proof (next_u64_live rng Hl) as [Hl' Hr]. split_and!; [done|..].
  - intros rng' [Hu _] [= E]. destruct rng as [x], rng' as [y], Hl. f_equal. by apply scramble_inj.
  - unfold random_between_ms. destruct (Z.eqb_spec lo hi) as [->|Hne]; [split; [done|unfold u64_max; lia]|].
    destruct (Z.eqb_spec (wrap64 (hi - lo + 1)) 0) as [E|E].
    + split; [intros _|done]. unfold u64_max in *. destruct (Z.lt_ge_cases (hi - lo + 1) (2 ^ 64)); [|lia].
      unfold wrap64 in E. rewrite Z.mod_small in E; lia.
    + destruct (next_u64 rng). split; [done|]. intros [-> ->]. by destruct E.
  - intros rng' d H. unfold next_election_deadline in H. apply bind_Some in H as ([g j] & Hj & [= <- <-]).
    unfold random_between_ms in Hj. destruct (Z.eqb_spec lo hi) as [->|Hne]; [simplify_eq; split; [lia|done]|].
    destruct (Z.eqb_spec (wrap64 (hi - lo + 1)) 0) as [E|E]; [done|].
    destruct (next_u64 rng) as [g' r]. injection Hj as <- <-. split; [|done].
    pose proof (wrap64_range (hi - lo + 1)) as [Hw _].
    assert (Hspan : wrap64 (hi - lo + 1) <= hi - lo + 1) by (apply Z.mod_le; lia).
    pose proof (Z.mod_pos_bound r (wrap64 (hi - lo + 1))). rewrite wrap64_id; [lia|].
    unfold is_u64. lia.
  - apply retry_backoff_range.
Qed.

(** The default configuration draws deadlines between 1 and 2 seconds. *)
Lemma jitter_in_range_witness : exists rng' d,
  next_election_deadline 100 1000 2000 (new 0) = Some (rng', d) /\ 1100 <= d <= 2100.
Proof.
  destruct (jitter_in_range 0 0 1000 2000 100 2) as (_ & _ & _ & H & _); [unfold is_u64, u64_max; lia|lia|unfold u64_max; lia|].
  destruct (next_election_deadline 100 1000 2000 (new 0)) as [[rng' d]|] eqn:E; [|vm_compute in E; discriminate].
  exists rng', d. split; [reflexivity|]. destruct (H rng' d); [exact E|lia].
Defined.

End Jitter.
