(* ===== verification/KeyEncoding.v ===== *)
(** * Key encoding primitives

    Models [crowdb-protocol/src/key/encoding.rs]: the header of a binary key, the
    big-endian integers and identifiers appended to a buffer, their readers at an
    offset, and the check that nothing is left.

    The second half is the shared theory of fixed layouts: a frame is a header
    and fields of given widths; reading one back is exact, comparing two compares
    their fields, and a frame with fewer fields is a prefix of exactly the frames
    that begin with the same ones. *)

From stdpp Require Import prelude list strings.
From Stdlib Require Import ZArith Lia.
From S2P Require Import Prelude Bytes.

Module KeyEncoding.

Definition CROWDB_KEY_MAGIC : Z := 192.

Inductive KeyError := BadMagic | BadTag | ShortInput | TrailingBytes.

#[export] Instance KeyError_eq_dec : EqDecision KeyError.
Proof. solve_decision. Defined.

Record DiskId := mkDiskId { disk_high : Z; disk_low : Z }.
Record ChunkId := mkChunkId { chunk_high : Z; chunk_low : Z }.

(** ** Writers *)

Definition encode_header (out : bytes) (type_tag : Z) : bytes := (out ++ [CROWDB_KEY_MAGIC]) ++ to_be_bytes 2 type_tag.

Definition encode_u64 (out : bytes) (v : Z) : bytes := out ++ to_be_bytes 8 v.
Definition encode_u32 (out : bytes) (v : Z) : bytes := out ++ to_be_bytes 4 v.
Definition encode_u16 (out : bytes) (v : Z) : bytes := out ++ to_be_bytes 2 v.
Definition encode_u8 (out : bytes) (v : Z) : bytes := out ++ [v].

Definition encode_chunk_id (out : bytes) (id : ChunkId) : bytes :=
  encode_u64 (encode_u64 out (chunk_high id)) (chunk_low id).

Definition encode_disk_id (out : bytes) (id : DiskId) : bytes :=
  encode_u64 (encode_u64 out (disk_high id)) (disk_low id).

(** ** Readers *)

Definition decode_header (buf : bytes) (expected_tag : Z) : result bytes KeyError :=
  if (length buf <? 3)%nat then Err ShortInput
  else if negb (buf !!! 0%nat =? CROWDB_KEY_MAGIC) then Err BadMagic
  else if negb (from_be_bytes [buf !!! 1%nat; buf !!! 2%nat] =? expected_tag) then Err BadTag
  else Ok (drop 3 buf).

(** The common body of [decode_u64], [decode_u32] and [decode_u16]. *)
Definition decode_uint (n : nat) (buf : bytes) (offset : nat) : result (Z * nat) KeyError :=
  if (length buf <? offset + n)%nat then Err ShortInput
  else Ok (from_be_bytes (slice buf offset n), (offset + n)%nat).

Definition decode_u64 := decode_uint 8.
Definition decode_u32 := decode_uint 4.
Definition decode_u16 := decode_uint 2.

Definition decode_u8 (buf : bytes) (offset : nat) : result (Z * nat) KeyError :=
  let? value := ok_or (buf !! offset) ShortInput in Ok (value, (offset + 1)%nat).

Definition decode_chunk_id (buf : bytes) (offset : nat) : result (ChunkId * nat) KeyError :=
  let? (high, o) := decode_u64 buf offset in
  let? (low, o) := decode_u64 buf o in
  Ok (mkChunkId high low, o).

Definition decode_disk_id (buf : bytes) (offset : nat) : result (DiskId * nat) KeyError :=
  let? (high, o) := decode_u64 buf offset in
  let? (low, o) := decode_u64 buf o in
  Ok (mkDiskId high low, o).

Definition check_exact (buf : bytes) (consumed : nat) : result unit KeyError :=
  if (consumed =? length buf)%nat then Ok () else Err TrailingBytes.

(** [BinaryKey] *)
Class BinaryKey (K : Type) := {
  TYPE_TAG : Z;
  encode_to : K -> bytes -> bytes;
  decode : bytes -> result K KeyError;
}.
Arguments TYPE_TAG K {_}.

Definition to_bytes {K} `{BinaryKey K} (k : K) : bytes := encode_to k [].
Definition from_bytes {K} `{BinaryKey K} (buf : bytes) : result K KeyError := decode buf.

(** ** Byte order *)

(** Order of byte strings, and of lists of integers. *)
Fixpoint lex_lt (a b : list Z) : bool :=
  match a, b with
  | [], _ :: _ => true
  | x :: a, y :: b => (x <? y) || ((x =? y) && lex_lt a b)
  | _, [] => false
  end.

Lemma to_le_snoc n : forall z, to_le_bytes (S n) z = to_le_bytes n z ++ [z / width n mod 256].
Proof.
  induction n as [|n IH]; intros z; [simpl; by rewrite Z.div_1_r|].
  change (to_le_bytes (S (S n)) z) with (z mod 256 :: to_le_bytes (S n) (z / 256)). rewrite IH.
  cbn [to_le_bytes app]. do 3 f_equal. rewrite width_S. pose proof (width_pos n).
  by rewrite Z.div_div by lia.
Qed.

Lemma to_be_cons n z : to_be_bytes (S n) z = z / width n mod 256 :: to_be_bytes n z.
Proof. unfold to_be_bytes. by rewrite to_le_snoc, reverse_app. Qed.

Lemma to_be_mod n z : to_be_bytes n (z mod width n) = to_be_bytes n z.
Proof.
  unfold to_be_bytes. f_equal. revert z. induction n as [|n IH]; intros z; [done|].
  rewrite width_S. pose proof (width_pos n). cbn [to_le_bytes].
  rewrite Z.rem_mul_r by lia. f_equal.
  - by rewrite (Z.mul_comm 256), Z.mod_add, Z.mod_mod by lia.
  - rewrite (Z.mul_comm 256), Z.div_add, Z.div_small by (try apply Z.mod_pos_bound; lia). by rewrite Z.add_0_l, IH.
Qed.

Lemma lex_lt_be n : forall x y a b, 0 <= x < width n -> 0 <= y < width n ->
  lex_lt (to_be_bytes n x ++ a) (to_be_bytes n y ++ b) = (x <? y) || ((x =? y) && lex_lt a b).
Proof.
  induction n as [|n IH]; intros x y a b Hx Hy.
  { unfold width in *. simpl in Hx, Hy. replace x with y by lia. by rewrite Z.ltb_irrefl, Z.eqb_refl. }
  rewrite !to_be_cons. rewrite width_S in Hx, Hy. pose proof (width_pos n) as Hw.
  rewrite <- (to_be_mod n x), <- (to_be_mod n y). cbn [app lex_lt].
  assert (Hq : forall z, 0 <= z < 256 * width n -> z / width n mod 256 = z / width n).
  { intros z Hz. apply Z.mod_small. split; [apply Z.div_pos; lia|apply Z.div_lt_upper_bound; lia]. }
  rewrite !Hq, IH by (try apply Z.mod_pos_bound; lia).
  pose proof (Z.div_mod x (width n)). pose proof (Z.div_mod y (width n)).
  pose proof (Z.mod_pos_bound x (width n)). pose proof (Z.mod_pos_bound y (width n)).
  destruct (Z.ltb_spec x y), (Z.eqb_spec x y), (Z.ltb_spec (x / width n) (y / width n)),
    (Z.eqb_spec (x / width n) (y / width n)), (Z.ltb_spec (x mod width n) (y mod width n)),
    (Z.eqb_spec (x mod width n) (y mod width n)); simpl; try done; nia.
Qed.

Lemma lex_lt_app l a b : lex_lt (l ++ a) (l ++ b) = lex_lt a b.
Proof. induction l as [|x l IH]; [done|]. simpl. by rewrite Z.ltb_irrefl, Z.eqb_refl, IH. Qed.

(** ** Frames *)

(** A field is its width in bytes and its value. *)
Definition field : Type := nat * Z.
Definition in_range (f : field) : Prop := 0 <= f.2 < width f.1.

Definition body (fs : list field) : bytes := concat ((fun f => to_be_bytes f.1 f.2) <$> fs).
Definition frame (tag : Z) (fs : list field) : bytes := CROWDB_KEY_MAGIC :: to_be_bytes 2 tag ++ body fs.

Fixpoint read_fields (ws : list nat) (buf : bytes) (o : nat) : result (list Z * nat) KeyError :=
  match ws with
  | [] => Ok ([], o)
  | w :: ws =>
      let? (v, o) := decode_uint w buf o in
      let? (vs, o) := read_fields ws buf o in
      Ok (v :: vs, o)
  end.

Definition decode_frame (tag : Z) (ws : list nat) (buf : bytes) : result (list Z) KeyError :=
  let? fields := decode_header buf tag in
  let? (vs, o) := read_fields ws fields 0 in
  let? _ := check_exact fields o in
  Ok vs.

Lemma body_cons w v fs : body ((w, v) :: fs) = to_be_bytes w v ++ body fs.
Proof. reflexivity. Qed.

Lemma be_range n z : Forall is_byte (to_be_bytes n z).
Proof. unfold to_be_bytes. apply Forall_reverse, to_le_bytes_ok. Qed.

Lemma body_bytes fs : Forall is_byte (body fs).
Proof.
  induction fs as [|[w v] fs IH]; [constructor|]. rewrite body_cons. apply Forall_app. split; [apply be_range|done].
Qed.

Lemma be_inj n x y : 0 <= x < width n -> 0 <= y < width n -> to_be_bytes n x = to_be_bytes n y -> x = y.
Proof. intros Hx Hy E. apply (f_equal from_be_bytes) in E. by rewrite !from_to_be in E. Qed.

Lemma to_from_be l : Forall is_byte l -> to_be_bytes (length l) (from_be_bytes l) = l.
Proof.
  intros H. unfold to_be_bytes, from_be_bytes. rewrite <- (length_reverse l), to_from_le by by apply Forall_reverse.
  apply reverse_involutive.
Qed.

Lemma from_be_bound l : Forall is_byte l -> 0 <= from_be_bytes l < width (length l).
Proof.
  intros H. unfold from_be_bytes. rewrite <- (length_reverse l). apply from_le_bound. by apply Forall_reverse.
Qed.

Lemma decode_header_ok tag rest : 0 <= tag < 65536 ->
  decode_header (CROWDB_KEY_MAGIC :: to_be_bytes 2 tag ++ rest) tag = Ok rest.
Proof.
  intros Ht. pose proof (from_to_be 2 tag Ht) as Hf. unfold decode_header.
  destruct (to_be_bytes 2 tag) as [|x [|y []]] eqn:E;
    try (apply (f_equal length) in E; rewrite to_be_bytes_length in E; done).
  cbn [app length Nat.ltb Nat.leb lookup_total list_lookup_total]. rewrite Z.eqb_refl, Hf, Z.eqb_refl. done.
Qed.

Lemma decode_header_other tag tag' rest : 0 <= tag < 65536 -> tag <> tag' ->
  decode_header (CROWDB_KEY_MAGIC :: to_be_bytes 2 tag ++ rest) tag' = Err BadTag.
Proof.
  intros Ht Hne. pose proof (from_to_be 2 tag Ht) as Hf. unfold decode_header.
  destruct (to_be_bytes 2 tag) as [|x [|y []]] eqn:E;
    try (apply (f_equal length) in E; rewrite to_be_bytes_length in E; done).
  cbn [app length Nat.ltb Nat.leb lookup_total list_lookup_total]. rewrite Z.eqb_refl, Hf.
  by rewrite (proj2 (Z.eqb_neq _ _)) by done.
Qed.

Lemma decode_header_inv buf tag rest : Forall is_byte buf -> decode_header buf tag = Ok rest ->
  buf = CROWDB_KEY_MAGIC :: to_be_bytes 2 tag ++ rest /\ 0 <= tag < 65536 /\ Forall is_byte rest.
Proof.
  intros Hb. unfold decode_header. destruct buf as [|m [|x [|y buf]]]; [done..|].
  cbn [length Nat.ltb Nat.leb lookup_total list_lookup_total].
  destruct (Z.eqb_spec m CROWDB_KEY_MAGIC) as [->|]; [|done]. cbn [negb].
  destruct (Z.eqb_spec (from_be_bytes [x; y]) tag) as [<-|]; [|done]. cbn [negb]. intros [= <-].
  apply Forall_cons in Hb as [_ Hb]. apply Forall_cons in Hb as [Hx Hb]. apply Forall_cons in Hb as [Hy Hb].
  assert (Hxy : Forall is_byte [x; y]) by (apply Forall_cons; split; [done|by apply Forall_singleton]).
  split_and!; [|apply (from_be_bound _ Hxy)..|done].
  f_equal. change 2%nat with (length [x; y]). by rewrite (to_from_be _ Hxy).
Qed.

Lemma decode_uint_inv n buf o v o' : Forall is_byte buf -> decode_uint n buf o = Ok (v, o') ->
  o' = (o + n)%nat /\ (o' <= length buf)%nat /\ 0 <= v < width n /\ slice buf o n = to_be_bytes n v.
Proof.
  intros Hb. unfold decode_uint. destruct (Nat.ltb_spec (length buf) (o + n)); [done|]. intros [= <- <-].
  assert (Hs : Forall is_byte (slice buf o n)) by (by apply Forall_take, Forall_drop).
  pose proof (slice_length buf o n ltac:(lia)) as Hl. pose proof (from_be_bound _ Hs). pose proof (to_from_be _ Hs).
  rewrite Hl in *. auto.
Qed.

Lemma read_fields_ok fs : forall pre rest, Forall in_range fs ->
  read_fields fs.*1 (pre ++ body fs ++ rest) (length pre) = Ok (fs.*2, (length pre + length (body fs))%nat).
Proof.
  induction fs as [|[w v] fs IH]; intros pre rest Hr; [simpl; by rewrite Nat.add_0_r|].
  apply Forall_cons in Hr as [Hv Hr]. rewrite body_cons. cbn [fmap list_fmap fst snd read_fields].
  pose proof (to_be_bytes_length w v) as Hw. unfold decode_uint.
  rewrite (proj2 (Nat.ltb_ge _ _)) by (rewrite !length_app; lia). cbn [result_bind].
  rewrite <- app_assoc, (slice_at pre _ _ (length pre) w) by done. rewrite from_to_be by done.
  replace (length pre + w)%nat with (length (pre ++ to_be_bytes w v)) by (rewrite length_app; lia).
  rewrite app_assoc, IH by done. cbn [result_bind]. rewrite !length_app. do 2 f_equal. lia.
Qed.

Lemma read_fields_inv ws : forall buf o vs o', Forall is_byte buf -> (o <= length buf)%nat ->
  read_fields ws buf o = Ok (vs, o') ->
  length ws = length vs /\ Forall in_range (zip ws vs) /\ (o' <= length buf)%nat /\
  drop o buf = body (zip ws vs) ++ drop o' buf.
Proof.
  induction ws as [|w ws IH]; intros buf o vs o' Hb Ho; cbn [read_fields].
  { intros [= <- <-]. split_and!; [done|constructor|done|done]. }
  destruct (decode_uint w buf o) as [[v o1]|] eqn:Ev; [|done]. cbn [result_bind].
  apply decode_uint_inv in Ev as (-> & Hle & Hv & Hs); [|done].
  destruct (read_fields ws buf (o + w)) as [[vs1 o2]|] eqn:Er; [|done]. cbn [result_bind]. intros [= <- <-].
  apply IH in Er as (Hl & Hr & Hle2 & Hd); [|done..]. split_and!; [simpl; lia|by constructor|done|].
  cbn [zip zip_with]. rewrite body_cons, <- app_assoc, <- Hd, <- Hs. unfold slice.
  rewrite <- (take_drop w (drop o buf)) at 1. by rewrite drop_drop.
Qed.

Lemma decode_frame_ok tag fs : 0 <= tag < 65536 -> Forall in_range fs -> decode_frame tag fs.*1 (frame tag fs) = Ok fs.*2.
Proof.
  intros Ht Hr. unfold decode_frame, frame. rewrite decode_header_ok by done. cbn [result_bind].
  pose proof (read_fields_ok fs [] [] Hr) as H. rewrite app_nil_r in H. simpl in H. rewrite H. cbn [result_bind].
  unfold check_exact. by rewrite Nat.eqb_refl.
Qed.

Lemma decode_frame_inv tag ws buf vs : Forall is_byte buf -> decode_frame tag ws buf = Ok vs ->
  buf = frame tag (zip ws vs) /\ Forall in_range (zip ws vs) /\ length ws = length vs.
Proof.
  intros Hb. unfold decode_frame. destruct (decode_header buf tag) as [rest|] eqn:Eh; [|done]. cbn [result_bind].
  apply decode_header_inv in Eh as (-> & Ht & Hr); [|done].
  destruct (read_fields ws rest 0) as [[vs1 o]|] eqn:Er; [|done]. cbn [result_bind].
  apply read_fields_inv in Er as (Hl & Hin & Hle & Hd); [|done|lia]. unfold check_exact.
  destruct (Nat.eqb_spec o (length rest)) as [->|]; [|done]. cbn [result_bind]. intros [= <-].
  rewrite drop_0, drop_all, app_nil_r in Hd. subst rest. done.
Qed.

Lemma frame_lt tag fs gs : Forall in_range fs -> Forall in_range gs -> fs.*1 = gs.*1 ->
  lex_lt (frame tag fs) (frame tag gs) = lex_lt fs.*2 gs.*2.
Proof.
  intros Hf Hg Hw. unfold frame. cbn [lex_lt]. rewrite Z.ltb_irrefl, Z.eqb_refl. cbn [orb andb]. rewrite lex_lt_app.
  revert gs Hg Hw. induction Hf as [|[w v] fs Hv Hf IH]; intros [|[w' v'] gs] Hg Hw; try done.
  injection Hw as -> Hw. apply Forall_cons in Hg as [Hv' Hg]. rewrite !body_cons.
  cbn [fmap list_fmap snd lex_lt]. rewrite lex_lt_be by done. by rewrite IH.
Qed.

Lemma be_prefix n x y a b : 0 <= x < width n -> 0 <= y < width n ->
  to_be_bytes n x ++ a `prefix_of` to_be_bytes n y ++ b <-> x = y /\ a `prefix_of` b.
Proof.
  intros Hx Hy. split.
  - intros [k E]. rewrite <- app_assoc in E. apply app_inj_1 in E as [E1 E2]; [|by rewrite !to_be_bytes_length].
    split; [symmetry; by apply (be_inj n)|by exists k].
  - intros [-> Hp]. by apply prefix_app.
Qed.

Lemma frame_prefix tag tag' fs gs : 0 <= tag < 65536 -> 0 <= tag' < 65536 ->
  Forall in_range fs -> Forall in_range gs -> (tag = tag' -> fs.*1 `prefix_of` gs.*1) ->
  frame tag fs `prefix_of` frame tag' gs <-> tag = tag' /\ fs.*2 `prefix_of` gs.*2.
Proof.
  intros Ht Ht' Hf Hg Hw. unfold frame.
  assert (Hcons : forall a b, CROWDB_KEY_MAGIC :: a `prefix_of` CROWDB_KEY_MAGIC :: b <-> a `prefix_of` b).
  { intros a b. split; [apply prefix_cons_inv_2|apply prefix_cons]. }
  rewrite Hcons, be_prefix by done.
  enough (fs.*1 `prefix_of` gs.*1 -> body fs `prefix_of` body gs <-> fs.*2 `prefix_of` gs.*2) by naive_solver.
  clear -Hf Hg. revert gs Hg. induction Hf as [|[w v] fs Hv Hf IH]; intros gs Hg Hw.
  { split; intros _; apply prefix_nil. }
  destruct gs as [|[w' v'] gs]; [by apply prefix_nil_not in Hw|]. apply Forall_cons in Hg as [Hv' Hg]. simpl in Hw.
  pose proof (prefix_cons_inv_1 _ _ _ _ Hw) as ->. apply prefix_cons_inv_2 in Hw.
  rewrite !body_cons, be_prefix, IH by done. split.
  - intros [-> ?]. by apply prefix_cons.
  - intros H. split; [by apply prefix_cons_inv_1 in H|by apply prefix_cons_inv_2 in H].
Qed.

(** ** Layouts

    A decoder that reads fields of given widths from an offset, checks that
    nothing is left and builds the key with [fin]. *)

Definition decode_layout {K} (tag : Z) (off : nat) (ws : list nat) (fin : bytes -> list Z -> result K KeyError)
  (buf : bytes) : result K KeyError :=
  let? fields := decode_header buf tag in
  let? (vs, o) := read_fields ws fields off in
  let? _ := check_exact fields o in
  fin fields vs.

Lemma body_app fs gs : body (fs ++ gs) = body fs ++ body gs.
Proof. unfold body. by rewrite fmap_app, concat_app. Qed.

Lemma layout_ok {K} tag off ws fin pre fs (k : K) : 0 <= tag < 65536 -> Forall in_range fs ->
  length (body pre) = off -> fs.*1 = ws -> fin (body (pre ++ fs)) fs.*2 = Ok k ->
  decode_layout tag off ws fin (frame tag (pre ++ fs)) = Ok k.
Proof.
  intros Ht Hr <- <- Hf. unfold decode_layout, frame. rewrite decode_header_ok by done. cbn [result_bind].
  pose proof (read_fields_ok fs (body pre) [] Hr) as H. rewrite app_nil_r, <- body_app in H. rewrite H. cbn [result_bind].
  unfold check_exact. rewrite body_app, length_app, Nat.eqb_refl. cbn [result_bind]. by rewrite <- body_app.
Qed.

Lemma layout_inv {K} tag off ws fin buf (k : K) : Forall is_byte buf -> decode_layout tag off ws fin buf = Ok k ->
  exists fields vs, buf = CROWDB_KEY_MAGIC :: to_be_bytes 2 tag ++ fields /\ Forall is_byte fields /\
    (off <= length fields \/ ws = [])%nat /\ read_fields ws fields off = Ok (vs, length fields) /\ fin fields vs = Ok k.
Proof.
  intros Hb. unfold decode_layout. destruct (decode_header buf tag) as [fields|] eqn:Eh; [|done]. cbn [result_bind].
  apply decode_header_inv in Eh as (-> & Ht & Hf); [|done].
  destruct (read_fields ws fields off) as [[vs o]|] eqn:Er; [|done]. cbn [result_bind]. unfold check_exact.
  destruct (Nat.eqb_spec o (length fields)) as [->|]; [|done]. cbn [result_bind]. intros Hk. exists fields, vs.
  split_and!; try done. destruct ws as [|w ws]; [by right|left]. cbn [read_fields] in Er. unfold decode_uint in Er.
  destruct (Nat.ltb_spec (length fields) (off + w)); [done|]. lia.
Qed.

Lemma layout_inv0 {K} tag ws fin buf (k : K) : Forall is_byte buf -> decode_layout tag 0 ws fin buf = Ok k ->
  exists vs, length ws = length vs /\ Forall in_range (zip ws vs) /\ buf = frame tag (zip ws vs) /\
    fin (body (zip ws vs)) vs = Ok k.
Proof.
  intros Hb (fields & vs & -> & Hf & _ & Hr & Hk)%layout_inv; [|done]. exists vs.
  apply read_fields_inv in Hr as (Hl & Hin & _ & Hd); [|done|lia]. rewrite drop_0, drop_all, app_nil_r in Hd. by subst fields.
Qed.

Lemma layout_err {K} tag off ws (fin : bytes -> list Z -> result K KeyError) buf e :
  decode_header buf tag = Err e -> decode_layout tag off ws fin buf = Err e.
Proof. intros H. unfold decode_layout. by rewrite H. Qed.

(** The layouts that skip a scope of one byte and one 16-bit word. *)
Lemma layout_inv3 {K} tag ws fin buf (k : K) : Forall is_byte buf -> ws <> [] -> decode_layout tag 3 ws fin buf = Ok k ->
  exists d s vs, let fs := (1%nat, d) :: (2%nat, s) :: zip ws vs in
    length ws = length vs /\ Forall in_range fs /\ buf = frame tag fs /\ fin (body fs) vs = Ok k.
Proof.
  intros Hb Hne (fields & vs & -> & Hf & Hoff & Hr & Hk)%layout_inv; [|done]. destruct Hoff as [Hoff|]; [|done].
  apply read_fields_inv in Hr as (Hl & Hin & _ & Hd); [|done|done]. rewrite drop_all, app_nil_r in Hd.
  destruct fields as [|x [|y [|z fields]]]; [simpl in Hoff; lia..|]. change (fields = body (zip ws vs)) in Hd. subst fields.
  apply Forall_cons in Hf as [Hx Hf]. apply Forall_cons in Hf as [Hy Hf]. apply Forall_cons in Hf as [Hz _].
  assert (Hyz : Forall is_byte [y; z]) by (apply Forall_cons; split; [done|by apply Forall_singleton]).
  assert (Hx1 : Forall is_byte [x]) by by apply Forall_singleton.
  exists (from_be_bytes [x]), (from_be_bytes [y; z]), vs. cbv zeta.
  assert (E : body ((1%nat, from_be_bytes [x]) :: (2%nat, from_be_bytes [y; z]) :: zip ws vs) = x :: y :: z :: body (zip ws vs)).
  { rewrite !body_cons. pose proof (to_from_be _ Hx1) as E1. pose proof (to_from_be _ Hyz) as E2. cbn [length] in E1, E2.
    by rewrite E1, E2. }
  split_and!; [done| | |by rewrite E].
  - constructor; [apply (from_be_bound _ Hx1)|]. constructor; [apply (from_be_bound _ Hyz)|done].
  - unfold frame. by rewrite E.
Qed.

End KeyEncoding.
