(* ===== verification/ChunkSlots.v ===== *)
(** * Chunk slots and their owners

    Models [crowdb-protocol/src/chunk_id.rs], [chunk_domain.rs] and
    [chunk_slot.rs] with its modules [bitmap], [authority], [map],
    [reassignment] and [bootstrap]: the fixed space of 1024 slots a chunk id is
    hashed into, the 128-byte bitmaps, the validated map from slots to owners, the
    reassignment of slots to instances with their epochs, and the initial maps.

    The hash function is the third-party [xxhash_rust] and a parameter.

    [slot_map_total_unique]: a map is built exactly when every slot has one owner
    among distinct valid ones.  [reassign_moves_exactly]: a reassignment changes
    the owners of the slots it names, raising their epoch by one, and nothing
    else.  [bootstrap_balanced]: the initial maps spread the slots evenly. *)

From stdpp Require Import prelude gmap list sorting.
From Stdlib Require Import ZArith Lia.
From S2P Require Import Prelude Bytes KeyEncoding.

Module ChunkSlots.
Import KeyEncoding.

(** [xxh64(data, seed)] *)
Class Xxh64 := xxh64 : bytes -> Z -> Z.

(** ** Chunk ids *)

(** [ChunkIdParts::to_bytes] and [from_bytes]; parts and [ChunkId] hold the same
    two words. *)
Definition id_to_bytes (id : ChunkId) : bytes := to_be_bytes 8 (chunk_high id) ++ to_be_bytes 8 (chunk_low id).
Definition id_from_bytes (buf : bytes) : ChunkId :=
  mkChunkId (from_be_bytes (slice buf 0 8)) (from_be_bytes (slice buf 8 8)).

Definition chunk_type (id : ChunkId) : Z := Z.shiftr (chunk_high id) 56 mod 256.

Definition hash_to_bucket `{Xxh64} (id : ChunkId) : Z := Z.land (xxh64 (id_to_bytes id) 0) 65535.

(** [generate], given the clock and the two random words. *)
Definition generate (chunk_type now_ms random1 random2 : Z) : ChunkId :=
  let ts_48 := Z.land now_ms 281474976710655 in
  let type_bits := wrap64 (Z.shiftl chunk_type 56) in
  let ts_bits := wrap64 (Z.shiftl ts_48 8) in
  let rand_high := Z.land random1 255 in
  mkChunkId (Z.lor (Z.lor type_bits ts_bits) rand_high) random2.

Definition is_zero (id : ChunkId) : bool := (chunk_high id =? 0) && (chunk_low id =? 0).

Inductive ChunkDomain := System | UserData.

Definition domain_as_u8 (d : ChunkDomain) : Z := match d with System => 1 | UserData => 2 end.

Definition domain_for_chunk (id : ChunkId) : option ChunkDomain :=
  let b := to_be_bytes 8 (chunk_high id) !!! 0%nat in
  if (1 <=? b) && (b <=? 3) then Some System
  else if (4 <=? b) && (b <=? 7) then Some UserData
  else None.

(** ** Slots *)

Definition CHUNK_SLOT_COUNT : Z := 1024.
Definition CHUNK_SLOT_BITMAP_BYTES : nat := 128.
Definition CHUNK_SLOT_LAYOUT_VERSION : Z := 1.

Inductive ChunkSlotError :=
| InvalidSlot (s : Z)
| BitmapLength (n : nat)
| InvalidHead
| InvalidOwner
| MixedGeneration
| Overlap (s : Z)
| Missing (s : Z).

(** A [ChunkSlot] is its number, below 1024 by construction. *)
Definition slot_ok (s : Z) : Prop := 0 <= s < CHUNK_SLOT_COUNT.

Definition slot_for_chunk `{Xxh64} (id : ChunkId) : Z :=
  let hash := to_le_bytes 8 (xxh64 (id_to_bytes id) 0) in
  from_le_bytes [hash !!! 0%nat; hash !!! 1%nat] mod CHUNK_SLOT_COUNT.

Definition slot_try_from (value : Z) : result Z ChunkSlotError :=
  if CHUNK_SLOT_COUNT <=? value then Err (InvalidSlot value) else Ok value.

Definition all_slots : list Z := seqZ 0 CHUNK_SLOT_COUNT.

(** ** Bitmaps *)

Definition bitmap_default : bytes := replicate CHUNK_SLOT_BITMAP_BYTES 0.

Definition contains (b : bytes) (slot : Z) : bool :=
  negb (Z.land (b !!! Z.to_nat (slot / 8)) (Z.shiftl 1 (slot mod 8)) =? 0).

Definition bitmap_insert (b : bytes) (slot : Z) : bytes :=
  let i := Z.to_nat (slot / 8) in
  <[i := Z.lor (b !!! i) (Z.shiftl 1 (slot mod 8))]> b.

Definition is_empty (b : bytes) : bool := forallb (Z.eqb 0) b.

Definition slots (b : bytes) : list Z := List.filter (contains b) all_slots.

Definition from_iter (l : list Z) : bytes := foldl bitmap_insert bitmap_default l.

Definition bitmap_try_from (b : bytes) : result bytes ChunkSlotError :=
  if (length b =? CHUNK_SLOT_BITMAP_BYTES)%nat then Ok b else Err (BitmapLength (length b)).

(** ** Authorities *)

Record ChunkSlotAuthority := mkAuthority {
  instance_id : Z;
  incarnation : bytes;
  epoch : Z;
}.

#[export] Instance authority_eq_dec : EqDecision ChunkSlotAuthority.
Proof. solve_decision. Defined.

#[export] Instance authority_countable : Countable ChunkSlotAuthority.
Proof.
  refine (inj_countable' (fun a => (instance_id a, incarnation a, epoch a))
    (fun '(i, c, e) => mkAuthority i c e) _). by intros [].
Defined.

(** [ChunkServiceIncarnation::try_from] on a 16-byte array *)
Definition incarnation_try_from (b : bytes) : option bytes :=
  if bool_decide (b = replicate 16 0) then None else Some b.

(** [ChunkSlotAuthority::new]; [None] is [ChunkSlotAuthorityError]. *)
Definition authority_new (instance : Z) (inc : bytes) (generation : Z) : option ChunkSlotAuthority :=
  if instance =? 0 then None else if generation =? 0 then None else Some (mkAuthority instance inc generation).

Definition to_fence_value (a : ChunkSlotAuthority) : bytes :=
  1 :: to_be_bytes 8 (instance_id a) ++ incarnation a ++ to_be_bytes 8 (epoch a).

Definition from_fence_value (b : bytes) : option ChunkSlotAuthority :=
  if negb (length b =? 33)%nat then None
  else if negb (b !!! 0%nat =? 1) then None
  else
    inc ← incarnation_try_from (slice b 9 16);
    authority_new (from_be_bytes (slice b 1 8)) inc (from_be_bytes (slice b 25 8)).

(** ** The map *)

Record ChunkSlotMapHead := mkHead { layout_version : Z; generation : Z; owner_count : Z }.

Record ChunkSlotBinding (O : Type) := mkBinding {
  binding_generation : Z;
  owner_of : O;
  binding_slots : bytes;
}.
Arguments mkBinding {O}.
Arguments binding_generation {O}.
Arguments owner_of {O}.
Arguments binding_slots {O}.

Class ChunkSlotOwner (O : Type) := {
  owner_eq_dec :: EqDecision O;
  is_valid : O -> bool;
}.

#[export] Instance u64_owner : ChunkSlotOwner Z := {| is_valid o := negb (o =? 0) |}.
#[export] Instance authority_owner : ChunkSlotOwner ChunkSlotAuthority := {| is_valid _ := true |}.

Record ChunkStorageGroup := mkGroupRef { store_id : Z; group_id : Z }.

#[export] Instance storage_group_eq_dec : EqDecision ChunkStorageGroup.
Proof. solve_decision. Defined.

#[export] Instance storage_group_owner : ChunkSlotOwner ChunkStorageGroup := {| is_valid o := negb (group_id o =? 0) |}.

Record ChunkSlotMap (O : Type) := mkMap {
  head : ChunkSlotMapHead;
  bindings : list (ChunkSlotBinding O);
  owner_indices : list Z;
}.
Arguments mkMap {O}.
Arguments head {O}.
Arguments bindings {O}.
Arguments owner_indices {O}.

Definition usize_max : Z := 2 ^ 64 - 1.

Section map.
Context {O : Type} `{!ChunkSlotOwner O}.

(** The inner loop over the slots of one binding. *)
Fixpoint place (index : Z) (l : list Z) (oi : list Z) : result (list Z) ChunkSlotError :=
  match l with
  | [] => Ok oi
  | s :: l =>
      if negb (oi !!! Z.to_nat s =? usize_max) then Err (Overlap s)
      else place index l (<[Z.to_nat s := index]> oi)
  end.

(** The loop over the bindings. *)
Fixpoint place_all (gen index : Z) (bs : list (ChunkSlotBinding O)) (owners : list O) (oi : list Z)
  : result (list Z) ChunkSlotError :=
  match bs with
  | [] => Ok oi
  | b :: bs =>
      if negb (binding_generation b =? gen) then Err MixedGeneration
      else if negb (is_valid (owner_of b)) || bool_decide (owner_of b ∈ owners) then Err InvalidOwner
      else let? oi := place index (slots (binding_slots b)) oi in
           place_all gen (index + 1) bs (owner_of b :: owners) oi
  end.

(** The coverage loop. *)
Fixpoint check_coverage (l : list Z) (oi : list Z) : result unit ChunkSlotError :=
  match l with
  | [] => Ok ()
  | s :: l => if oi !!! Z.to_nat s =? usize_max then Err (Missing s) else check_coverage l oi
  end.

Definition map_new (h : ChunkSlotMapHead) (bs : list (ChunkSlotBinding O)) : result (ChunkSlotMap O) ChunkSlotError :=
  if negb (layout_version h =? CHUNK_SLOT_LAYOUT_VERSION) || (generation h =? 0) || (owner_count h =? 0)
     || negb (owner_count h =? Z.of_nat (length bs))
  then Err InvalidHead
  else
    let? oi := place_all (generation h) 0 bs [] (replicate (Z.to_nat CHUNK_SLOT_COUNT) usize_max) in
    let? _ := check_coverage all_slots oi in
    Ok (mkMap h bs oi).

(** [None] would be an index out of bounds. *)
Definition owner (m : ChunkSlotMap O) (slot : Z) : option O :=
  i ← owner_indices m !! Z.to_nat slot;
  b ← bindings m !! Z.to_nat i;
  Some (owner_of b).

End map.

(** ** Reassignment *)

(** The loop over the assignments: the new authorities by slot. *)
Fixpoint targets_of (m : ChunkSlotMap ChunkSlotAuthority) (l : list (Z * Z)) (targets : gmap Z ChunkSlotAuthority)
  : result (gmap Z ChunkSlotAuthority) ChunkSlotError :=
  match l with
  | [] => Ok targets
  | (slot, instance) :: l =>
      let? previous := ok_or (owner m slot) InvalidOwner in
      if epoch previous =? u64_max then Err InvalidHead
      else if bool_decide (is_Some (targets !! slot)) then Err InvalidOwner
      else
        let? target := ok_or (authority_new instance (incarnation previous) (epoch previous + 1)) InvalidOwner in
        targets_of m l (<[slot := target]> targets)
  end.

(** [owners.entry(..).or_default().insert(slot)] for every slot. *)
Definition group_slots (f : Z -> ChunkSlotAuthority) : gmap ChunkSlotAuthority bytes :=
  foldl (fun owners slot =>
           <[f slot := bitmap_insert (default bitmap_default (owners !! f slot)) slot]> owners) ∅ all_slots.

Definition fence_le (a b : ChunkSlotBinding ChunkSlotAuthority) : Prop :=
  lex_lt (to_fence_value (owner_of b)) (to_fence_value (owner_of a)) = false.

#[export] Instance fence_le_dec : RelDecision fence_le.
Proof. intros a b. unfold fence_le. solve_decision. Defined.

Definition dummy_authority : ChunkSlotAuthority := mkAuthority 0 [] 0.

Definition reassign (m : ChunkSlotMap ChunkSlotAuthority) (assignments : list (Z * Z))
  : result (ChunkSlotMap ChunkSlotAuthority) ChunkSlotError :=
  if generation (head m) =? u64_max then Err InvalidHead
  else
    let gen := generation (head m) + 1 in
    let? targets := targets_of m assignments ∅ in
    let owners := group_slots (fun slot => default (default dummy_authority (owner m slot)) (targets !! slot)) in
    let bs := merge_sort fence_le ((fun '(o, s) => mkBinding gen o s) <$> map_to_list owners) in
    let h := mkHead (layout_version (head m)) gen (Z.of_nat (length bs)) in
    if 2 ^ 32 <=? Z.of_nat (length bs) then Err InvalidHead else map_new h bs.

(** ** Bootstrap *)

Section bootstrap.
Context {O : Type} `{!ChunkSlotOwner O}.

Definition slot_index (interleaved : bool) (count slot : Z) : Z :=
  if interleaved then slot mod count else slot * count / CHUNK_SLOT_COUNT.

Definition add_slot (bs : list (ChunkSlotBinding O)) (i : nat) (slot : Z) : list (ChunkSlotBinding O) :=
  alter (fun b => mkBinding (binding_generation b) (owner_of b) (bitmap_insert (binding_slots b) slot)) i bs.

Definition assign (owners : list O) (interleaved : bool) : result (ChunkSlotMap O) ChunkSlotError :=
  let count := Z.of_nat (length owners) in
  if 2 ^ 32 <=? count then Err InvalidHead
  else if count =? 0 then Err InvalidHead
  else
    let bs := (fun o => mkBinding 1 o bitmap_default) <$> owners in
    let bs := foldl (fun bs slot => add_slot bs (Z.to_nat (slot_index interleaved count slot)) slot) bs all_slots in
    map_new (mkHead CHUNK_SLOT_LAYOUT_VERSION 1 count) bs.

End bootstrap.

Record ChunkSlotBootstrap := mkBootstrap { service_instances : list Z; storage_groups : list ChunkStorageGroup }.

Definition service_map (b : ChunkSlotBootstrap) : result (ChunkSlotMap Z) ChunkSlotError :=
  assign (service_instances b) false.
Definition storage_map (b : ChunkSlotBootstrap) : result (ChunkSlotMap ChunkStorageGroup) ChunkSlotError :=
  assign (storage_groups b) true.

(** ** Bitmaps as sets *)

Lemma land_bit x k : 0 <= k -> negb (Z.land x (Z.shiftl 1 k) =? 0) = Z.testbit x k.
Proof.
  intros Hk. rewrite Z.shiftl_1_l. destruct (Z.testbit x k) eqn:E.
  - destruct (Z.eqb_spec (Z.land x (2 ^ k)) 0) as [H|]; [|done].
    apply (f_equal (fun z => Z.testbit z k)) in H. rewrite Z.land_spec, E, Z.pow2_bits_true, Z.bits_0 in H by done. done.
  - assert (Z.land x (2 ^ k) = 0) as ->; [|done]. apply Z.bits_inj'. intros i Hi.
    rewrite Z.land_spec, Z.bits_0, Z.pow2_bits_eqb by done. destruct (Z.eqb_spec k i) as [<-|]; [by rewrite E|].
    by rewrite andb_false_r.
Qed.

Lemma contains_testbit b s : contains b s = Z.testbit (b !!! Z.to_nat (s / 8)) (s mod 8).
Proof. apply land_bit. apply Z.mod_pos_bound. lia. Qed.

Lemma slot_byte s : slot_ok s -> (Z.to_nat (s / 8) < CHUNK_SLOT_BITMAP_BYTES)%nat.
Proof.
  unfold slot_ok, CHUNK_SLOT_COUNT, CHUNK_SLOT_BITMAP_BYTES. intros H.
  pose proof (Z.div_lt_upper_bound s 8 128). pose proof (Z.div_pos s 8). lia.
Qed.

Lemma contains_default s : slot_ok s -> contains bitmap_default s = false.
Proof.
  intros H. rewrite contains_testbit. unfold bitmap_default.
  rewrite lookup_total_replicate_2 by by apply slot_byte. apply Z.bits_0.
Qed.

Lemma bitmap_insert_length b s : length (bitmap_insert b s) = length b.
Proof. apply length_insert. Qed.

Lemma contains_insert b s s' : length b = CHUNK_SLOT_BITMAP_BYTES -> slot_ok s -> slot_ok s' ->
  contains (bitmap_insert b s) s' = bool_decide (s = s') || contains b s'.
Proof.
  intros Hl Hs Hs'. pose proof (slot_byte s Hs) as Hb. pose proof (slot_byte s' Hs') as Hb'.
  rewrite !contains_testbit. unfold bitmap_insert.
  pose proof (Z.div_mod s 8). pose proof (Z.div_mod s' 8).
  pose proof (Z.mod_pos_bound s 8). pose proof (Z.mod_pos_bound s' 8).
  destruct (decide (Z.to_nat (s / 8) = Z.to_nat (s' / 8))) as [E|E].
  - rewrite <- E, list_lookup_total_insert_eq by lia. rewrite Z.lor_spec, Z.shiftl_1_l, Z.pow2_bits_eqb by lia.
    assert (s / 8 = s' / 8).
    { pose proof (Z.div_pos s 8). pose proof (Z.div_pos s' 8). unfold slot_ok in *. lia. }
    destruct (Z.eqb_spec (s mod 8) (s' mod 8)), (bool_decide_reflect (s = s')); try lia;
      by rewrite ?orb_true_r, ?orb_false_r.
  - rewrite list_lookup_total_insert_ne by done. rewrite bool_decide_eq_false_2; [done|]. by intros ->.
Qed.

Lemma elem_of_all_slots s : s ∈ all_slots <-> slot_ok s.
Proof. unfold all_slots. rewrite elem_of_seqZ. unfold slot_ok. lia. Qed.

Lemma all_slots_length : length all_slots = 1024%nat.
Proof. reflexivity. Qed.

Lemma all_slots_NoDup : NoDup all_slots.
Proof. apply NoDup_seqZ. Qed.

Lemma all_slots_seq : all_slots = seqZ 0 (Z.of_nat 1024).
Proof. reflexivity. Qed.

#[local] Opaque all_slots.

Lemma elem_of_slots b s : s ∈ slots b <-> slot_ok s /\ contains b s = true.
Proof.
  unfold slots. rewrite list_elem_of_In, List.filter_In, <- list_elem_of_In, elem_of_all_slots. done.
Qed.

Lemma NoDup_slots b : NoDup (slots b).
Proof. apply NoDup_lfilter, all_slots_NoDup. Qed.

(** ** Building a map *)

Section map_facts.
Context {O : Type} `{!ChunkSlotOwner O}.
Implicit Types (bs : list (ChunkSlotBinding O)) (oi : list Z).

Definition disjoint_slots bs : Prop := forall i j b b' s, bs !! i = Some b -> bs !! j = Some b' -> slot_ok s ->
  contains (binding_slots b) s = true -> contains (binding_slots b') s = true -> i = j.

(** What the table of owner indices says. *)
Definition table bs oi : Prop := length oi = Z.to_nat CHUNK_SLOT_COUNT /\ forall s, slot_ok s ->
  (oi !!! Z.to_nat s = usize_max /\ forall b, b ∈ bs -> contains (binding_slots b) s = false) \/
  (exists i b, bs !! i = Some b /\ contains (binding_slots b) s = true /\ oi !!! Z.to_nat s = Z.of_nat i).

Definition good (gen : Z) bs : Prop :=
  Forall (fun b => binding_generation b = gen /\ is_valid (owner_of b) = true) bs /\
  NoDup (owner_of <$> bs) /\ disjoint_slots bs.

Lemma good_prefix gen bs bs' : good gen (bs ++ bs') -> good gen bs.
Proof.
  intros (H1 & H2 & H3). apply Forall_app in H1 as [H1 _]. rewrite fmap_app in H2. apply NoDup_app in H2 as (H2 & _ & _).
  split_and!; [done|done|]. intros i j b b' s Hi Hj. apply H3; by apply lookup_app_l_Some.
Qed.

Lemma slot_lt s oi : slot_ok s -> length oi = Z.to_nat CHUNK_SLOT_COUNT -> (Z.to_nat s < length oi)%nat.
Proof. unfold slot_ok, CHUNK_SLOT_COUNT. lia. Qed.

Lemma place_spec index l : index <> usize_max -> forall oi, NoDup l -> Forall slot_ok l ->
  length oi = Z.to_nat CHUNK_SLOT_COUNT ->
  match place index l oi with
  | Ok oi' => length oi' = length oi /\ (forall s, s ∈ l -> oi !!! Z.to_nat s = usize_max) /\
      forall s, slot_ok s -> oi' !!! Z.to_nat s = if decide (s ∈ l) then index else oi !!! Z.to_nat s
  | Err _ => exists s, s ∈ l /\ oi !!! Z.to_nat s <> usize_max
  end.
Proof.
  intros Hix. induction l as [|x l IH]; intros oi Hn Hl Hlen; cbn [place].
  { split_and!; [done|set_solver|]. intros s Hs. by rewrite decide_False by set_solver. }
  apply NoDup_cons in Hn as [Hx Hn]. apply Forall_cons in Hl as [Hxo Hl]. pose proof (slot_lt x oi Hxo Hlen) as Hlt.
  destruct (Z.eqb_spec (oi !!! Z.to_nat x) usize_max) as [Hf|Hf]; cbn [negb].
  2: { exists x. split; [set_solver|done]. }
  assert (Hne : forall s, slot_ok s -> s <> x -> Z.to_nat x <> Z.to_nat s) by (unfold slot_ok in *; lia).
  specialize (IH (<[Z.to_nat x := index]> oi) Hn Hl). rewrite length_insert in IH. specialize (IH Hlen).
  destruct (place index l _) as [oi'|e].
  - destruct IH as (H1 & H2 & H3). split_and!; [done| |].
    + intros s [->|Hs]%elem_of_cons; [done|]. rewrite <- (H2 s Hs). rewrite list_lookup_total_insert_ne; [done|].
      apply Hne; [by eapply Forall_forall|by intros ->].
    + intros s Hs. rewrite H3 by done. destruct (decide (s ∈ l)).
      * by rewrite decide_True by set_solver.
      * destruct (decide (s = x)) as [->|].
        -- rewrite decide_True by set_solver. by apply list_lookup_total_insert_eq.
        -- rewrite decide_False by set_solver. apply list_lookup_total_insert_ne. by apply Hne.
  - destruct IH as (s & Hs & Hu). exists s. split; [set_solver|]. intros E. apply Hu.
    rewrite list_lookup_total_insert_ne; [done|]. apply Hne; [by eapply Forall_forall|by intros ->].
Qed.

Lemma place_binding bs b oi : good (binding_generation b) bs -> table bs oi ->
  is_valid (owner_of b) = true -> owner_of b ∉ owner_of <$> bs -> Z.of_nat (length bs) < usize_max ->
  match place (Z.of_nat (length bs)) (slots (binding_slots b)) oi with
  | Ok oi' => good (binding_generation b) (bs ++ [b]) /\ table (bs ++ [b]) oi'
  | Err _ => ~ disjoint_slots (bs ++ [b])
  end.
Proof.
  intros (G1 & G2 & G3) [Hlen Ht] Hv Ho Hlt. assert (Hix : Z.of_nat (length bs) <> usize_max) by lia.
  pose proof (place_spec _ (slots (binding_slots b)) Hix oi (NoDup_slots _)) as Hp.
  specialize (Hp (proj2 (Forall_forall _ _) (fun s Hs => proj1 (proj1 (elem_of_slots _ s) Hs))) Hlen).
  destruct (place _ _ oi) as [oi'|e].
  - destruct Hp as (H1 & H2 & H3).
    assert (Hfree : forall b' s, b' ∈ bs -> slot_ok s -> contains (binding_slots b') s = true ->
      contains (binding_slots b) s = true -> False).
    { intros b' s Hb' Hs Hc' Hc. destruct (Ht s Hs) as [[_ Hno]|(i & b'' & Hi & _ & Hoi)].
      - rewrite (Hno b' Hb') in Hc'. done.
      - rewrite H2 in Hoi by (apply elem_of_slots; done). apply lookup_lt_Some in Hi. unfold usize_max in *. lia. }
    split; [|split].
    + split_and!.
      * apply Forall_app. split; [done|by apply Forall_singleton].
      * rewrite fmap_app. apply NoDup_app. split_and!; [done|set_solver|apply NoDup_singleton].
      * intros i j x y s Hi Hj Hs Hx Hy.
        apply lookup_app_Some in Hi as [Hi|[Hi1 Hi]]; apply lookup_app_Some in Hj as [Hj|[Hj1 Hj]].
        -- by eapply G3.
        -- apply list_lookup_singleton_Some in Hj as [? <-]. exfalso. eapply (Hfree x s); [by eapply list_elem_of_lookup_2|done..].
        -- apply list_lookup_singleton_Some in Hi as [? <-]. exfalso. eapply (Hfree y s); [by eapply list_elem_of_lookup_2|done..].
        -- apply list_lookup_singleton_Some in Hi as [? _]. apply list_lookup_singleton_Some in Hj as [? _]. lia.
    + by rewrite H1.
    + intros s Hs. rewrite H3 by done. destruct (decide (s ∈ slots (binding_slots b))) as [Hin|Hin].
      * right. exists (length bs), b. split_and!; [by apply list_lookup_middle|by destruct (proj1 (elem_of_slots _ _) Hin)|done].
      * assert (contains (binding_slots b) s = false).
        { destruct (contains (binding_slots b) s) eqn:E; [|done]. exfalso. by apply Hin, elem_of_slots. }
        destruct (Ht s Hs) as [[E Hno]|(i & b' & Hi & Hc & E)].
        -- left. split; [done|]. intros b' [Hb'|Hb']%elem_of_app; [auto|]. by apply list_elem_of_singleton in Hb' as ->.
        -- right. exists i, b'. split_and!; [by apply lookup_app_l_Some|done|done].
  - destruct Hp as (s & Hs & Hu). apply elem_of_slots in Hs as [Hs Hc]. intros Hd.
    destruct (Ht s Hs) as [[E _]|(i & b' & Hi & Hc' & _)]; [done|].
    pose proof (lookup_lt_Some _ _ _ Hi). enough (i = length bs) by lia.
    eapply (Hd i (length bs) b' b s); [by apply lookup_app_l_Some|by apply list_lookup_middle|done..].
Qed.

Lemma place_all_spec gen rest : forall bs owners oi, good gen bs -> table bs oi ->
  (forall o, o ∈ owners <-> o ∈ owner_of <$> bs) -> Z.of_nat (length bs + length rest) < usize_max ->
  match place_all gen (Z.of_nat (length bs)) rest owners oi with
  | Ok oi' => good gen (bs ++ rest) /\ table (bs ++ rest) oi'
  | Err _ => ~ good gen (bs ++ rest)
  end.
Proof.
  induction rest as [|b rest IH]; intros bs owners oi Hg Ht Ho Hlt; cbn [place_all].
  { by rewrite app_nil_r. }
  rewrite (cons_middle b bs rest), app_assoc. simpl in Hlt.
  destruct (Z.eqb_spec (binding_generation b) gen) as [<-|Hgen]; cbn [negb].
  2: { intros (H & _ & _)%good_prefix. apply Forall_app in H as [_ H]. apply Forall_singleton in H as [? _]. done. }
  destruct (negb (is_valid (owner_of b)) || bool_decide (owner_of b ∈ owners)) eqn:Eo.
  { intros (H1 & H2 & _)%good_prefix. apply orb_true_iff in Eo as [Eo|Eo].
    - apply Forall_app in H1 as [_ H1]. apply Forall_singleton in H1 as [_ H1]. by rewrite H1 in Eo.
    - apply bool_decide_eq_true, Ho in Eo. rewrite fmap_app in H2. apply NoDup_app in H2 as (_ & H2 & _).
      apply (H2 _ Eo). set_solver. }
  apply orb_false_iff in Eo as [Ev Eo]. apply negb_false_iff in Ev. apply bool_decide_eq_false in Eo.
  pose proof (place_binding bs b oi Hg Ht Ev ltac:(by rewrite <- Ho) ltac:(lia)) as Hp.
  destruct (place _ _ oi) as [oi'|e]; cbn [result_bind].
  - destruct Hp as [Hg' Ht']. replace (Z.of_nat (length bs) + 1) with (Z.of_nat (length (bs ++ [b]))) by (rewrite length_app; simpl; lia).
    apply IH; [done|done| |rewrite length_app; simpl; lia]. intros o. rewrite fmap_app, elem_of_cons, elem_of_app, Ho. simpl. set_solver.
  - intros H%good_prefix. by destruct H as (_ & _ & H).
Qed.

Lemma good_nil gen : good gen [].
Proof. split_and!; [constructor|constructor|]. intros i j b b' s H. by rewrite lookup_nil in H. Qed.

Lemma table_nil : table [] (replicate (Z.to_nat CHUNK_SLOT_COUNT) usize_max).
Proof.
  split; [apply length_replicate|]. intros s Hs. left. split; [|set_solver].
  apply lookup_total_replicate_2. unfold slot_ok, CHUNK_SLOT_COUNT in *. lia.
Qed.

Lemma check_coverage_ok l oi : check_coverage l oi = Ok () <-> forall s, s ∈ l -> oi !!! Z.to_nat s <> usize_max.
Proof.
  induction l as [|x l IH]; cbn [check_coverage]; [split; [set_solver|done]|].
  destruct (Z.eqb_spec (oi !!! Z.to_nat x) usize_max) as [E|E].
  - split; [done|]. intros H. exfalso. eapply H; [|done]. set_solver.
  - rewrite IH. set_solver.
Qed.

(** A complete set of bindings: valid distinct owners of one generation, and each
    slot in exactly one of them. *)
Definition complete (h : ChunkSlotMapHead) bs : Prop :=
  layout_version h = CHUNK_SLOT_LAYOUT_VERSION /\ generation h <> 0 /\ bs <> [] /\
  owner_count h = Z.of_nat (length bs) /\ good (generation h) bs /\
  forall s, slot_ok s -> exists b, b ∈ bs /\ contains (binding_slots b) s = true.

Lemma map_new_spec h bs : owner_count h < 2 ^ 32 ->
  match map_new h bs with
  | Ok m => complete h bs /\ head m = h /\ bindings m = bs /\ table bs (owner_indices m)
  | Err _ => ~ complete h bs
  end.
Proof.
  intros Hc. unfold map_new. destruct (negb _ || _ || _ || _) eqn:Eh.
  { intros (H1 & H2 & H3 & H4 & _). rewrite H1, H4, !Z.eqb_refl in Eh. simpl in Eh. rewrite orb_false_r in Eh.
    apply orb_true_iff in Eh as [E|E]; apply Z.eqb_eq in E; [done|]. by destruct bs. }
  apply orb_false_iff in Eh as [Eh E4]. apply orb_false_iff in Eh as [Eh E3]. apply orb_false_iff in Eh as [E1 E2].
  apply negb_false_iff, Z.eqb_eq in E1, E4. apply Z.eqb_neq in E2, E3.
  assert (Hn : Z.of_nat (length bs) < usize_max) by (unfold usize_max; lia).
  pose proof (place_all_spec (generation h) bs [] [] _ (good_nil _) table_nil ltac:(done) Hn) as Hp.
  cbn [length app] in Hp. change (Z.of_nat 0) with 0 in Hp.
  destruct (place_all _ _ _ _ _) as [oi|e]; cbn [result_bind].
  - destruct Hp as [Hg Ht]. destruct (check_coverage all_slots oi) as [[]|e] eqn:Ec; cbn [result_bind].
    + split; [|done]. split_and!; try done; [by intros ->|]. intros s Hs. destruct Ht as [_ Ht].
      destruct (Ht s Hs) as [[E _]|(i & b & Hi & Hb & _)].
      * exfalso. by apply (proj1 (check_coverage_ok _ _) Ec s); [apply elem_of_all_slots|].
      * exists b. split; [by eapply list_elem_of_lookup_2|done].
    + intros (_ & _ & _ & _ & _ & Hall). enough (check_coverage all_slots oi = Ok ()) by congruence.
      apply check_coverage_ok. intros s Hs%elem_of_all_slots E. destruct (Hall s Hs) as (b & Hb & Hcb).
      destruct Ht as [_ Ht]. destruct (Ht s Hs) as [[_ Hno]|(i & b' & Hi & _ & Hoi)].
      * by rewrite (Hno b Hb) in Hcb.
      * apply lookup_lt_Some in Hi. rewrite E in Hoi. unfold usize_max in *. lia.
  - by intros (_ & _ & _ & _ & Hg & _).
Qed.

(** The owner of a slot is the owner of the one binding that holds it. *)
Lemma owner_spec h bs oi s : complete h bs -> table bs oi -> slot_ok s ->
  exists o, owner (mkMap h bs oi) s = Some o /\
    forall b, b ∈ bs -> contains (binding_slots b) s = bool_decide (owner_of b = o).
Proof.
  intros (_ & _ & _ & _ & (_ & Hn & Hd) & Hall) [Hl Ht] Hs.
  destruct (Ht s Hs) as [[_ Hno]|(i & b & Hi & Hb & Ho)].
  { destruct (Hall s Hs) as (b & Hin & Hc). by rewrite (Hno b Hin) in Hc. }
  exists (owner_of b). split.
  - unfold owner. cbn [owner_indices bindings]. rewrite list_lookup_lookup_total_lt by by apply slot_lt.
    cbn [mbind option_bind]. rewrite Ho, Nat2Z.id, Hi. done.
  - intros b' Hin. apply list_elem_of_lookup in Hin as [j Hj].
    destruct (bool_decide_reflect (owner_of b' = owner_of b)) as [E|E].
    + enough (i = j) as <- by congruence. eapply NoDup_lookup; [exact Hn|..]; rewrite list_lookup_fmap, ?Hi, ?Hj; simpl; by rewrite ?E.
    + destruct (contains (binding_slots b') s) eqn:Ec; [|done]. destruct E.
      rewrite (Hd i j b b' s) in Hi by done. congruence.
Qed.

End map_facts.

(** ** Authorities on the wire *)

Definition authority_wf (a : ChunkSlotAuthority) : Prop :=
  0 < instance_id a <= u64_max /\ 0 < epoch a <= u64_max /\ length (incarnation a) = 16%nat /\
  Forall is_byte (incarnation a) /\ incarnation a <> replicate 16 0.

Lemma fence_value_length a : length (incarnation a) = 16%nat -> length (to_fence_value a) = 33%nat.
Proof. intros H. unfold to_fence_value. simpl. rewrite !length_app, !to_be_bytes_length, H. done. Qed.

Lemma fence_value_roundtrip a : authority_wf a -> from_fence_value (to_fence_value a) = Some a.
Proof.
  intros (Hi & He & Hl & _ & Hz). unfold from_fence_value. rewrite fence_value_length by done. cbn [negb Nat.eqb].
  unfold to_fence_value. cbn [lookup_total list_lookup_total]. rewrite Z.eqb_refl. cbn [negb].
  pose proof (to_be_bytes_length 8 (instance_id a)) as L1. pose proof (to_be_bytes_length 8 (epoch a)) as L2.
  set (x := to_be_bytes 8 (instance_id a)) in *. set (y := to_be_bytes 8 (epoch a)) in *.
  change (1 :: x ++ incarnation a ++ y) with ([1] ++ x ++ incarnation a ++ y).
  assert (slice ([1] ++ x ++ incarnation a ++ y) 9 16 = incarnation a) as ->.
  { rewrite app_assoc. apply slice_at; [rewrite length_app, L1; done|done]. }
  assert (slice ([1] ++ x ++ incarnation a ++ y) 1 8 = x) as -> by (by apply slice_at).
  assert (slice ([1] ++ x ++ incarnation a ++ y) 25 8 = y) as ->.
  { rewrite <- (app_nil_r y), !app_assoc, <- (app_assoc _ y []). apply slice_at; [rewrite !length_app, L1, Hl; done|done]. }
  unfold incarnation_try_from. rewrite bool_decide_eq_false_2 by done. cbn [mbind option_bind].
  subst x y. unfold u64_max in *. rewrite !from_to_be by (change (width 8) with (2 ^ 64); lia). unfold authority_new.
  rewrite !(proj2 (Z.eqb_neq _ _)) by lia. by destruct a.
Qed.

(** ** Reassigning *)

Definition authority_ok (a : ChunkSlotAuthority) : Prop := 0 < instance_id a /\ 0 < epoch a <= u64_max.

(** What an assignment needs, and what it grants. *)
Definition grantable (m : ChunkSlotMap ChunkSlotAuthority) (x : Z * Z) : Prop :=
  x.2 <> 0 /\ exists a, owner m x.1 = Some a /\ epoch a <> u64_max.

Definition regrant (l : list (Z * Z)) (s : Z) (a : ChunkSlotAuthority) : ChunkSlotAuthority :=
  match (list_to_map l : gmap Z Z) !! s with
  | Some instance => mkAuthority instance (incarnation a) (epoch a + 1)
  | None => a
  end.

Definition fresh_in (t : gmap Z ChunkSlotAuthority) (l : list (Z * Z)) : Prop :=
  NoDup l.*1 /\ forall s, s ∈ l.*1 -> t !! s = None.

Lemma targets_of_spec m l : (forall s, slot_ok s -> exists a, owner m s = Some a /\ 0 < epoch a) ->
  Forall (fun x => slot_ok x.1) l -> forall t,
  match targets_of m l t with
  | Ok t' => fresh_in t l /\ Forall (grantable m) l /\
      forall s, t' !! s = match (list_to_map l : gmap Z Z) !! s with
                          | Some _ => regrant l s <$> owner m s
                          | None => t !! s
                          end
  | Err _ => ~ (fresh_in t l /\ Forall (grantable m) l)
  end.
Proof.
  intros Hm Hl. induction Hl as [|[s i] l Hs Hl IH]; intros t; cbn [targets_of].
  { split; [split; [constructor|set_solver]|split; [constructor|done]]. }
  cbn [fst] in Hs. destruct (Hm s Hs) as (a & Ha & He). rewrite Ha. cbn [ok_or result_bind].
  destruct (Z.eqb_spec (epoch a) u64_max) as [Em|Em].
  { intros [_ H]. apply Forall_cons in H as [(_ & a' & Ha' & H) _]. simpl in Ha'. congruence. }
  destruct (bool_decide_reflect (is_Some (t !! s))) as [[x Hx]|Hnone].
  { intros [[_ H] _]. rewrite H in Hx; [done|]. set_solver. }
  apply eq_None_not_Some in Hnone. unfold authority_new. destruct (Z.eqb_spec i 0) as [->|Hi]; cbn [ok_or result_bind].
  { intros [_ H]. apply Forall_cons in H as [[H _] _]. done. }
  rewrite (proj2 (Z.eqb_neq (epoch a + 1) 0)) by lia. cbn [ok_or result_bind].
  specialize (IH (<[s:=mkAuthority i (incarnation a) (epoch a + 1)]> t)).
  assert (Hfresh : fresh_in (<[s:=mkAuthority i (incarnation a) (epoch a + 1)]> t) l <-> fresh_in t ((s, i) :: l)).
  { unfold fresh_in. cbn [fmap list_fmap fst]. rewrite NoDup_cons. split.
    - intros [H1 H2]. split_and!; [|done|].
      + intros Hin. apply H2 in Hin. by rewrite lookup_insert_eq in Hin.
      + intros s' [->|Hin]%elem_of_cons; [done|]. by apply H2, lookup_insert_None in Hin as [? _].
    - intros [[H1 H1'] H2]. split; [done|]. intros s' Hin. apply lookup_insert_None. split; [set_solver|by intros ->]. }
  assert (Hg : Forall (grantable m) ((s, i) :: l) <-> Forall (grantable m) l).
  { rewrite Forall_cons. split; [by intros []|]. intros H. split; [|done]. split; [done|]. by exists a. }
  destruct (targets_of m l _) as [t'|e]; [|intros [H1%Hfresh H2%Hg]; by apply IH].
  destruct IH as (H1%Hfresh & H2%Hg & H3). split; [done|]. split; [done|]. intros s'. rewrite H3. unfold regrant. cbn [list_to_map foldr uncurry].
  destruct H1 as [H1 _]. cbn [fmap list_fmap fst] in H1. apply NoDup_cons in H1 as [H1 _].
  destruct (decide (s' = s)) as [->|Hne].
  - cbn. rewrite !lookup_insert_eq. rewrite (not_elem_of_list_to_map_1 l s) by done. by rewrite Ha.
  - cbn. rewrite !lookup_insert_ne by done. done.
Qed.

(** ** Grouping the slots by owner *)

Lemma group_step f (l : list Z) : Forall slot_ok l -> forall o,
  match foldl (fun owners slot =>
           <[f slot := bitmap_insert (default bitmap_default (owners !! f slot)) slot]> owners)
           (∅ : gmap ChunkSlotAuthority bytes) l !! o with
  | Some b => length b = CHUNK_SLOT_BITMAP_BYTES /\ (exists s, s ∈ l /\ f s = o) /\
      forall s, slot_ok s -> contains b s = bool_decide (s ∈ l /\ f s = o)
  | None => forall s, s ∈ l -> f s <> o
  end.
Proof.
  induction l as [|x l IH] using rev_ind; intros Hl o; [cbn [foldl]; rewrite lookup_empty; set_solver|].
  apply Forall_app in Hl as [Hl Hx]. rewrite Forall_singleton in Hx. specialize (IH Hl). rewrite foldl_app. cbn [foldl].
  set (g := foldl _ ∅ l) in *. destruct (decide (f x = o)) as [<-|Hne].
  - rewrite lookup_insert_eq. specialize (IH (f x)).
    assert (Hd : length (default bitmap_default (g !! f x)) = CHUNK_SLOT_BITMAP_BYTES /\
      forall s, slot_ok s -> contains (default bitmap_default (g !! f x)) s = bool_decide (s ∈ l /\ f s = f x)).
    { destruct (g !! f x) as [b|]; [by destruct IH as (? & _ & ?)|]. split; [apply length_replicate|]. intros s Hs. simpl.
      rewrite contains_default by done. symmetry. apply bool_decide_eq_false. intros [? ?]. by eapply IH. }
    destruct Hd as [Hd1 Hd2]. split_and!; [by rewrite bitmap_insert_length|exists x; set_solver|].
    intros s Hs. rewrite contains_insert, Hd2 by done. rewrite <- bool_decide_or. apply bool_decide_ext. set_solver.
  - rewrite lookup_insert_ne by done. specialize (IH o). destruct (g !! o) as [b|].
    + destruct IH as (H1 & (s & Hs & Hf) & H3). split_and!; [done|exists s; set_solver|]. intros s' Hs'. rewrite H3 by done.
      apply bool_decide_ext. set_solver.
    + set_solver.
Qed.

Lemma all_slots_ok : Forall slot_ok all_slots.
Proof. apply Forall_forall. intros s. apply elem_of_all_slots. Qed.

Lemma group_slots_spec f o :
  match group_slots f !! o with
  | Some b => (exists s, slot_ok s /\ f s = o) /\ forall s, slot_ok s -> contains b s = bool_decide (f s = o)
  | None => forall s, slot_ok s -> f s <> o
  end.
Proof.
  pose proof (group_step f all_slots all_slots_ok o) as H. unfold group_slots. destruct (foldl _ _ _ !! o) as [b|].
  - destruct H as (_ & (s & Hs & E) & H). split; [exists s; by rewrite <- elem_of_all_slots|]. intros s' Hs'.
    rewrite H by done. apply bool_decide_ext. rewrite elem_of_all_slots. tauto.
  - intros s Hs. apply H. by apply elem_of_all_slots.
Qed.

#[local] Opaque group_slots.

(** The bindings of a new generation. *)
Definition regrouped (gen : Z) (f : Z -> ChunkSlotAuthority) : list (ChunkSlotBinding ChunkSlotAuthority) :=
  merge_sort fence_le ((fun '(o, s) => mkBinding gen o s) <$> map_to_list (group_slots f)).

Lemma slot_ok_0 : slot_ok 0.
Proof. done. Qed.

Lemma elem_of_perm {A} (l k : list A) x : l ≡ₚ k -> x ∈ l <-> x ∈ k.
Proof. intros H. by rewrite H. Qed.

Lemma elem_of_regrouped gen f b : b ∈ regrouped gen f <->
  binding_generation b = gen /\ group_slots f !! owner_of b = Some (binding_slots b).
Proof.
  unfold regrouped. rewrite (elem_of_perm _ _ _ (merge_sort_Permutation fence_le _)), list_elem_of_fmap. split.
  - intros ([o s] & -> & Hin). apply elem_of_map_to_list in Hin. split; [reflexivity|exact Hin].
  - destruct b as [g o s]. simpl. intros [-> H]. exists (o, s). split; [reflexivity|]. apply elem_of_map_to_list. exact H.
Qed.

Lemma regrouped_NoDup gen f : NoDup (owner_of <$> regrouped gen f).
Proof.
  assert (E : owner_of <$> regrouped gen f ≡ₚ (map_to_list (group_slots f)).*1).
  { etrans; [apply fmap_Permutation, (merge_sort_Permutation fence_le)|].
    apply reflexive_eq. rewrite <- list_fmap_compose. apply list_fmap_ext. by intros i [o s] _. }
  rewrite E. apply NoDup_fst_map_to_list.
Qed.

Lemma regrouped_length gen f : (length (regrouped gen f) <= 1024)%nat.
Proof.
  rewrite <- (length_fmap owner_of). assert (E : length (f <$> all_slots) = 1024%nat) by (rewrite length_fmap; apply all_slots_length).
  rewrite <- E. clear E.
  apply submseteq_length, NoDup_submseteq; [apply regrouped_NoDup|]. intros o Ho.
  apply list_elem_of_fmap in Ho as (b & -> & Hb). apply elem_of_regrouped in Hb as [_ Hb].
  pose proof (group_slots_spec f (owner_of b)) as H. rewrite Hb in H. destruct H as [(s & Hs & <-) _].
  apply list_elem_of_fmap. exists s. split; [reflexivity|]. apply elem_of_all_slots. exact Hs.
Qed.

Lemma regrouped_contains gen f b s : b ∈ regrouped gen f -> slot_ok s ->
  contains (binding_slots b) s = bool_decide (f s = owner_of b).
Proof.
  intros [_ Hb]%elem_of_regrouped Hs. pose proof (group_slots_spec f (owner_of b)) as H. rewrite Hb in H.
  destruct H as [_ H]. by apply H.
Qed.

Lemma regrouped_complete gen f : gen <> 0 ->
  complete (mkHead CHUNK_SLOT_LAYOUT_VERSION gen (Z.of_nat (length (regrouped gen f)))) (regrouped gen f).
Proof.
  intros Hg. assert (Hall : forall s, slot_ok s -> exists b, b ∈ regrouped gen f /\ contains (binding_slots b) s = true).
  { intros s Hs. pose proof (group_slots_spec f (f s)) as H. destruct (group_slots f !! f s) as [sl|] eqn:E.
    - exists (mkBinding gen (f s) sl). split; [apply elem_of_regrouped; split; [reflexivity|exact E]|]. destruct H as [_ H]. cbn [binding_slots].
      rewrite H by done. by apply bool_decide_eq_true.
    - by destruct (H s Hs). }
  split; [reflexivity|]. split; [exact Hg|]. split; [|split; [reflexivity|split; [|exact Hall]]].
  - destruct (Hall 0 slot_ok_0) as (b & Hb & _). clear Hall. intros E. rewrite E in Hb. exact (not_elem_of_nil b Hb).
  - split; [|split; [apply regrouped_NoDup|]].
    + apply Forall_forall. intros b [Hb _]%elem_of_regrouped. done.
    + intros i j b b' s Hi Hj Hs Hc Hc'.
      rewrite (regrouped_contains gen f b s (list_elem_of_lookup_2 _ _ _ Hi) Hs) in Hc.
      rewrite (regrouped_contains gen f b' s (list_elem_of_lookup_2 _ _ _ Hj) Hs) in Hc'.
      apply bool_decide_eq_true in Hc, Hc'. eapply NoDup_lookup; [apply (regrouped_NoDup gen f)|..];
        rewrite list_lookup_fmap, ?Hi, ?Hj; simpl; [done|]. congruence.
Qed.

(** Building the map of a regrouping succeeds and gives each slot its owner. *)
Lemma regrouped_map gen f : gen <> 0 ->
  exists m, map_new (mkHead CHUNK_SLOT_LAYOUT_VERSION gen (Z.of_nat (length (regrouped gen f)))) (regrouped gen f) = Ok m /\
    generation (head m) = gen /\ complete (head m) (bindings m) /\ forall s, slot_ok s -> owner m s = Some (f s).
Proof.
  intros Hg. set (h := mkHead CHUNK_SLOT_LAYOUT_VERSION gen (Z.of_nat (length (regrouped gen f)))).
  assert (Hc : owner_count h < 2 ^ 32) by (pose proof (regrouped_length gen f); simpl; lia).
  pose proof (map_new_spec h (regrouped gen f) Hc) as Hs. destruct (map_new h (regrouped gen f)) as [m|e].
  2: { destruct (Hs (regrouped_complete gen f Hg)). }
  destruct Hs as (Hcomp & Eh & Eb & Ht). exists m. split; [reflexivity|]. rewrite Eh, Eb. split; [reflexivity|].
  split; [exact Hcomp|]. intros s Hs. destruct m as [h' bs oi]. cbn [head bindings owner_indices] in Eh, Eb, Ht. rewrite Eh, Eb.
  destruct (owner_spec h (regrouped gen f) oi s Hcomp Ht Hs) as (o & Ho & Hall). rewrite Ho. f_equal.
  destruct Hcomp as (_ & _ & _ & _ & _ & Hcov). destruct (Hcov s Hs) as (b & Hb & Hcb).
  pose proof (Hall b Hb) as H1. rewrite Hcb in H1. symmetry in H1. apply bool_decide_eq_true in H1.
  rewrite (regrouped_contains gen f b s Hb Hs) in Hcb. apply bool_decide_eq_true in Hcb. congruence.
Qed.

(** C20. A slot map is built exactly when the bindings are complete: a supported
    layout, a non-zero generation shared by all bindings, distinct valid owners,
    as many as the head says, and every one of the 1024 slots in exactly one
    bitmap.  In a map that was built every slot has an owner, and it is the owner
    of the one binding whose bitmap holds the slot. *)
Theorem slot_map_total_unique {O} `{!ChunkSlotOwner O} (h : ChunkSlotMapHead) (bs : list (ChunkSlotBinding O)) :
  owner_count h < 2 ^ 32 ->
  ((exists m, map_new h bs = Ok m) <-> complete h bs) /\
  forall m, map_new h bs = Ok m -> head m = h /\ bindings m = bs /\ forall s, slot_ok s ->
    exists o, owner m s = Some o /\ forall b, b ∈ bs -> contains (binding_slots b) s = bool_decide (owner_of b = o).
Proof.
  intros Hc. pose proof (map_new_spec h bs Hc) as Hs. destruct (map_new h bs) as [m|e].
  - destruct Hs as (Hcomp & Eh & Eb & Ht). split; [split; [done|by exists m]|]. intros m' [= <-].
    split; [done|]. split; [done|]. intros s Hsl. destruct m as [h' bs' oi]. simpl in Eh, Eb, Ht. subst h' bs'.
    by apply owner_spec.
  - split; [|done]. split; [by intros []|done].
Qed.

(** C22. Reassigning slots of a built authority map succeeds exactly when the map
    has generations left, the named slots are distinct, every target instance is
    non-zero and every named slot has epochs left.  The new map is complete, one
    generation later; each named slot belongs to its new instance with the old
    incarnation and an epoch one higher, and every other slot keeps its authority
    untouched. *)
Theorem reassign_moves_exactly h bs m l :
  owner_count h < 2 ^ 32 -> 0 < generation h <= u64_max -> map_new h bs = Ok m ->
  Forall (fun b => authority_ok (owner_of b)) bs -> Forall (fun x => slot_ok x.1) l ->
  ((exists m', reassign m l = Ok m') <-> generation h <> u64_max /\ NoDup l.*1 /\ Forall (grantable m) l) /\
  forall m', reassign m l = Ok m' ->
    generation (head m') = generation h + 1 /\ complete (head m') (bindings m') /\
    forall s, slot_ok s -> exists a, owner m s = Some a /\ owner m' s = Some (regrant l s a).
Proof.
  intros Hc Hgen Hm Ha Hl. pose proof (map_new_spec h bs Hc) as Hspec. rewrite Hm in Hspec.
  destruct Hspec as (Hcomp & Eh & Eb & Ht). destruct m as [h' bs' oi]. simpl in Eh, Eb, Ht. subst h' bs'. clear Hm.
  set (m := mkMap h bs oi) in *.
  assert (Hown : forall s, slot_ok s -> exists a, owner m s = Some a /\ 0 < epoch a).
  { intros s Hs. destruct (owner_spec h bs oi s Hcomp Ht Hs) as (a & Hoa & Hall). exists a. split; [done|].
    destruct Hcomp as (_ & _ & _ & _ & _ & Hcov). destruct (Hcov s Hs) as (b & Hb & Hcb). rewrite (Hall b Hb) in Hcb.
    apply bool_decide_eq_true in Hcb as <-. rewrite Forall_forall in Ha. by apply Ha. }
  unfold reassign. change (head m) with h. destruct (Z.eqb_spec (generation h) u64_max) as [E|E].
  { split; [|done]. split; [by intros []|]. intros [? _]. done. }
  pose proof (targets_of_spec m l Hown Hl ∅) as Ht'. destruct (targets_of m l ∅) as [t|e]; cbn [result_bind].
  2: { split; [|done]. split; [by intros []|]. intros (_ & H1 & H2). exfalso. apply Ht'. split; [|done]. by split. }
  destruct Ht' as ([Hn _] & Hg & Hlook).
  set (f := fun slot => default (default dummy_authority (owner m slot)) (t !! slot)).
  change (merge_sort fence_le _) with (regrouped (generation h + 1) f).
  assert (Hf : forall s, slot_ok s -> exists a, owner m s = Some a /\ f s = regrant l s a).
  { intros s Hs. destruct (Hown s Hs) as (a & Hoa & _). exists a. split; [done|]. unfold f. rewrite Hlook, Hoa. unfold regrant.
    by destruct (list_to_map l !! s). }
  assert (layout_version h = CHUNK_SLOT_LAYOUT_VERSION) as -> by apply Hcomp.
  pose proof (regrouped_length (generation h + 1) f). rewrite (proj2 (Z.leb_gt _ _)) by lia.
  destruct (regrouped_map (generation h + 1) f) as (m' & -> & H1 & H2 & H3); [lia|]. split.
  - split; [done|]. intros _. by exists m'.
  - intros m1 [= <-]. split; [done|]. split; [done|]. intros s Hs. destruct (Hf s Hs) as (a & Hoa & Ef).
    exists a. split; [done|]. rewrite <- Ef. by apply H3.
Qed.

(** ** The initial maps *)

Lemma count_by (P : Z -> bool) (g : Z -> Z) : g 0 = 0 ->
  (forall k, 0 <= k -> g (k + 1) = g k + (if P k then 1 else 0)) ->
  forall n : nat, Z.of_nat (length (List.filter P (seqZ 0 (Z.of_nat n)))) = g (Z.of_nat n).
Proof.
  intros H0 Hstep. induction n as [|n IH]; [exact (eq_sym H0)|].
  rewrite Nat2Z.inj_succ, <- Z.add_1_r, seqZ_app, List.filter_app, length_app by lia. rewrite Hstep, <- IH by lia.
  cbn [seqZ]. change (seqZ (0 + Z.of_nat n) 1) with [0 + Z.of_nat n]. rewrite Z.add_0_l. simpl.
  destruct (P (Z.of_nat n)); simpl; lia.
Qed.

Lemma mod_step k n i : 0 <= k -> 0 <= i < n ->
  (k + 1 + (n - 1 - i)) / n = (k + (n - 1 - i)) / n + (if k mod n =? i then 1 else 0).
Proof.
  intros Hk Hi. pose proof (Z.div_mod k n) as Hd. pose proof (Z.mod_pos_bound k n) as Hb.
  set (q := k / n) in *. set (r := k mod n) in *. destruct (Z.eqb_spec r i) as [Ei|Ei].
  - rewrite <- (Z.div_unique (k + 1 + (n - 1 - i)) n (q + 1) 0); [|lia|lia].
    rewrite <- (Z.div_unique (k + (n - 1 - i)) n q (n - 1)); lia.
  - destruct (Z.lt_ge_cases r i).
    + rewrite <- (Z.div_unique (k + 1 + (n - 1 - i)) n q (r + 1 + (n - 1 - i))); [|lia|lia].
      rewrite <- (Z.div_unique (k + (n - 1 - i)) n q (r + (n - 1 - i))); lia.
    + rewrite <- (Z.div_unique (k + 1 + (n - 1 - i)) n (q + 1) (r - i)); [|lia|lia].
      rewrite <- (Z.div_unique (k + (n - 1 - i)) n (q + 1) (r - i - 1)); lia.
Qed.

Lemma ceil_le x n s : 0 < n -> (x + (n - 1)) / n <= s <-> x <= s * n.
Proof.
  intros Hn. pose proof (Z.div_mod (x + (n - 1)) n). pose proof (Z.mod_pos_bound (x + (n - 1)) n).
  set (c := (x + (n - 1)) / n) in *. split; intros; nia.
Qed.

(** Slots of the [i]-th of [n] owners. *)
Definition share (interleaved : bool) (n i : Z) : list Z :=
  List.filter (fun s => slot_index interleaved n s =? i) all_slots.

Lemma share_balanced interleaved n i : 0 <= i < n ->
  CHUNK_SLOT_COUNT / n <= Z.of_nat (length (share interleaved n i)) <= (CHUNK_SLOT_COUNT + (n - 1)) / n.
Proof.
  intros Hi. unfold share. rewrite all_slots_seq.
  assert (Hceil : (CHUNK_SLOT_COUNT + (n - 1)) / n - 1 <= CHUNK_SLOT_COUNT / n).
  { rewrite <- (Z.add_0_r CHUNK_SLOT_COUNT) at 2. pose proof (Z.div_le_mono (CHUNK_SLOT_COUNT + (n - 1)) (CHUNK_SLOT_COUNT + 0 + 1 * n) n).
    rewrite Z.div_add in * by lia. lia. }
  destruct interleaved; cbn [slot_index].
  - rewrite (count_by _ (fun k => (k + (n - 1 - i)) / n)).
    + change (Z.of_nat 1024) with CHUNK_SLOT_COUNT. split; apply Z.div_le_mono; lia.
    + apply Z.div_small. lia.
    + intros k Hk. by apply mod_step.
  - set (a := (i * CHUNK_SLOT_COUNT + (n - 1)) / n). set (b := ((i + 1) * CHUNK_SLOT_COUNT + (n - 1)) / n).
    assert (Ha : 0 <= a) by (apply Z.div_pos; unfold CHUNK_SLOT_COUNT; lia).
    assert (Hab : a <= b) by (apply Z.div_le_mono; unfold CHUNK_SLOT_COUNT; lia).
    assert (Hb : b <= CHUNK_SLOT_COUNT) by (apply ceil_le; unfold CHUNK_SLOT_COUNT; nia).
    rewrite (count_by _ (fun k => Z.max 0 (Z.min k b - a))).
    + change (Z.of_nat 1024) with CHUNK_SLOT_COUNT. rewrite Z.min_r, Z.max_r by lia.
      assert (H1 : i * CHUNK_SLOT_COUNT <= a * n) by (by apply ceil_le; lia).
      assert (H2 : (i + 1) * CHUNK_SLOT_COUNT <= b * n) by (by apply ceil_le; lia).
      assert (H3 : ~ i * CHUNK_SLOT_COUNT <= (a - 1) * n) by (intros H%ceil_le; unfold a in H; lia).
      assert (H4 : ~ (i + 1) * CHUNK_SLOT_COUNT <= (b - 1) * n) by (intros H%ceil_le; unfold b in H; lia).
      pose proof (Z.mul_div_le CHUNK_SLOT_COUNT n). pose proof (Z.mul_succ_div_gt CHUNK_SLOT_COUNT n).
      assert (H5 : CHUNK_SLOT_COUNT <= (CHUNK_SLOT_COUNT + (n - 1)) / n * n) by (by apply ceil_le; lia).
      split; nia.
    + lia.
    + intros k Hk. assert (E : (k * n / CHUNK_SLOT_COUNT =? i) = (a <=? k) && (k <? b)).
      { assert (Hd : k * n / CHUNK_SLOT_COUNT = i <-> i * CHUNK_SLOT_COUNT <= k * n < (i + 1) * CHUNK_SLOT_COUNT).
        { pose proof (Z.div_mod (k * n) CHUNK_SLOT_COUNT). pose proof (Z.mod_pos_bound (k * n) CHUNK_SLOT_COUNT).
          unfold CHUNK_SLOT_COUNT in *. split; intros; nia. }
        pose proof (ceil_le (i * CHUNK_SLOT_COUNT) n k) as Hca. pose proof (ceil_le ((i + 1) * CHUNK_SLOT_COUNT) n k) as Hcb.
        fold a in Hca. fold b in Hcb.
        destruct (Z.eqb_spec (k * n / CHUNK_SLOT_COUNT) i), (Z.leb_spec a k), (Z.ltb_spec k b); simpl; try done; lia. }
      rewrite E. destruct (Z.leb_spec a k), (Z.ltb_spec k b); simpl; lia.
Qed.

Section assign_facts.
Context {O : Type} `{!ChunkSlotOwner O}.
Implicit Types (owners : list O).

Definition initial_bindings owners (ix : Z -> nat) (l : list Z) : list (ChunkSlotBinding O) :=
  foldl (fun bs slot => add_slot bs (ix slot) slot) ((fun o => mkBinding 1 o bitmap_default) <$> owners) l.

Lemma initial_bindings_spec owners ix l : Forall slot_ok l ->
  length (initial_bindings owners ix l) = length owners /\
  forall i o, owners !! i = Some o -> exists b, initial_bindings owners ix l !! i = Some (mkBinding 1 o b) /\
    length b = CHUNK_SLOT_BITMAP_BYTES /\ forall s, slot_ok s -> contains b s = bool_decide (s ∈ l /\ ix s = i).
Proof.
  induction l as [|x l IH] using rev_ind; intros Hl.
  - split; [apply length_fmap|]. intros i o Ho. exists bitmap_default. split_and!; [|apply length_replicate|].
    + unfold initial_bindings. cbn [foldl]. by rewrite list_lookup_fmap, Ho.
    + intros s Hs. rewrite contains_default by done. symmetry. apply bool_decide_eq_false. set_solver.
  - apply Forall_app in Hl as [Hl Hx]. rewrite Forall_singleton in Hx. destruct (IH Hl) as [Hlen Hb].
    unfold initial_bindings in *. rewrite foldl_app. cbn [foldl]. set (bs := foldl _ _ l) in *. unfold add_slot. split.
    { by rewrite length_alter. }
    intros i o Ho. destruct (Hb i o Ho) as (b & Hi & Hbl & Hc). destruct (decide (ix x = i)) as [<-|Hne].
    + exists (bitmap_insert b x). rewrite list_lookup_alter_eq, Hi. split_and!; [done|by rewrite bitmap_insert_length|].
      intros s Hs. rewrite contains_insert, Hc by done. rewrite <- bool_decide_or. apply bool_decide_ext. set_solver.
    + exists b. rewrite list_lookup_alter_ne by done. split_and!; [done|done|]. intros s Hs. rewrite Hc by done.
      apply bool_decide_ext. set_solver.
Qed.

Lemma slot_index_range interleaved n s : 0 < n -> slot_ok s -> 0 <= slot_index interleaved n s < n.
Proof.
  intros Hn Hs. unfold slot_index, slot_ok, CHUNK_SLOT_COUNT in *. destruct interleaved; [by apply Z.mod_pos_bound|].
  split; [apply Z.div_pos; nia|apply Z.div_lt_upper_bound; nia].
Qed.

(** The binding of the [i]-th owner holds exactly the slots of its index. *)
Lemma initial_binding_holds owners ix i b s : initial_bindings owners ix all_slots !! i = Some b -> slot_ok s ->
  owners !! i = Some (owner_of b) /\ binding_generation b = 1 /\
  contains (binding_slots b) s = bool_decide (ix s = i).
Proof.
  intros Hi Hs. destruct (initial_bindings_spec owners ix all_slots all_slots_ok) as [Hlen Hb].
  destruct (lookup_lt_is_Some_2 owners i) as [o Ho]; [rewrite <- Hlen; by eapply lookup_lt_Some|].
  destruct (Hb i o Ho) as (sl & E & _ & Hc). rewrite Hi in E. injection E as ->. split_and!; [done|done|].
  cbn [binding_slots]. rewrite Hc by done. apply bool_decide_ext. rewrite elem_of_all_slots. tauto.
Qed.

Lemma initial_owners owners ix : owner_of <$> initial_bindings owners ix all_slots = owners.
Proof.
  destruct (initial_bindings_spec owners ix all_slots all_slots_ok) as [Hlen Hb].
  apply list_eq. intros i. rewrite list_lookup_fmap. destruct (owners !! i) as [o|] eqn:Ho.
  - destruct (Hb i o Ho) as (b & -> & _). done.
  - apply lookup_ge_None in Ho. by rewrite (proj2 (lookup_ge_None _ _)) by lia.
Qed.

Definition assignable owners : Prop :=
  owners <> [] /\ Z.of_nat (length owners) < 2 ^ 32 /\ Forall (fun o => is_valid o = true) owners /\ NoDup owners.

Lemma initial_complete owners ix : owners <> [] -> (forall s, slot_ok s -> (ix s < length owners)%nat) ->
  complete (mkHead CHUNK_SLOT_LAYOUT_VERSION 1 (Z.of_nat (length owners))) (initial_bindings owners ix all_slots) <->
  Forall (fun o => is_valid o = true) owners /\ NoDup owners.
Proof.
  intros Hne Hix. pose proof (initial_owners owners ix) as Eo.
  destruct (initial_bindings_spec owners ix all_slots all_slots_ok) as [Hlen Hb].
  pose proof (initial_binding_holds owners ix) as Hh. generalize dependent (initial_bindings owners ix all_slots).
  intros bs Eo Hlen Hb Hh. split.
  - intros (_ & _ & _ & _ & (Hg & Hn & _) & _). rewrite Eo in Hn. split; [|done]. rewrite <- Eo. apply Forall_fmap.
    eapply Forall_impl; [exact Hg|]. by intros b [_ ?].
  - intros [Hv Hn]. rewrite <- Eo in Hv. apply Forall_fmap in Hv. split; [done|]. split; [done|].
    split; [intros E; by rewrite E in Hlen; destruct owners|]. split; [by rewrite Hlen|]. split.
    + split; [|split].
      * apply Forall_forall. intros b Hin. split; [|by eapply Forall_forall in Hv].
        apply list_elem_of_lookup in Hin as [i Hi]. by apply (Hh i b 0 Hi slot_ok_0).
      * by rewrite Eo.
      * intros i j b b' s Hi Hj Hs Hc Hc'. apply (Hh i b s) in Hi as (_ & _ & Hi); [|done].
        apply (Hh j b' s) in Hj as (_ & _ & Hj); [|done].
        rewrite Hi in Hc. rewrite Hj in Hc'. apply bool_decide_eq_true in Hc, Hc'. congruence.
    + intros s Hs. destruct (lookup_lt_is_Some_2 owners (ix s) (Hix s Hs)) as [o Ho]. destruct (Hb _ _ Ho) as (b & E & _ & Hc).
      exists (mkBinding 1 o b). split; [by eapply list_elem_of_lookup_2|]. cbn [binding_slots]. rewrite Hc by done.
      apply bool_decide_eq_true. by rewrite elem_of_all_slots.
Qed.

Lemma assign_spec owners interleaved :
  let n := Z.of_nat (length owners) in
  match assign owners interleaved with
  | Ok m => assignable owners /\ forall s, slot_ok s -> owner m s = owners !! Z.to_nat (slot_index interleaved n s)
  | Err _ => ~ assignable owners
  end.
Proof.
  intros n. unfold assign. fold n. destruct (Z.leb_spec (2 ^ 32) n); [intros (_ & ? & _); lia|].
  destruct (Z.eqb_spec n 0) as [E|E]; [intros (? & _); by destruct owners|].
  set (ix := fun s => Z.to_nat (slot_index interleaved n s)).
  change (foldl _ _ all_slots) with (initial_bindings owners ix all_slots).
  assert (Hne : owners <> []) by (by intros ->).
  assert (Hix : forall s, slot_ok s -> (ix s < length owners)%nat).
  { intros s Hs. pose proof (slot_index_range interleaved n s ltac:(lia) Hs). unfold ix. lia. }
  pose proof (initial_complete owners ix Hne Hix) as Hcomp. pose proof (initial_binding_holds owners ix) as Hh.
  pose proof (map_new_spec (mkHead CHUNK_SLOT_LAYOUT_VERSION 1 n) (initial_bindings owners ix all_slots)) as Hm.
  destruct (initial_bindings_spec owners ix all_slots all_slots_ok) as [Hlen _].
  generalize dependent (initial_bindings owners ix all_slots). intros bs Hcomp Hh Hm Hlen. specialize (Hm ltac:(done)).
  destruct (map_new _ bs) as [[h' bs' oi]|e].
  - cbn [head bindings owner_indices] in Hm. destruct Hm as (Hc & -> & -> & Ht). split.
    { destruct (proj1 Hcomp Hc). by split_and!. }
    intros s Hs. destruct (owner_spec _ bs oi s Hc Ht Hs) as (o & -> & Hall). fold (ix s).
    destruct (lookup_lt_is_Some_2 bs (ix s)) as [b Hb]; [rewrite Hlen; auto|].
    destruct (Hh _ _ s Hb Hs) as (-> & _ & Hcb). rewrite (Hall b) in Hcb by (by eapply list_elem_of_lookup_2). f_equal.
    rewrite (bool_decide_eq_true_2 (ix s = ix s)) in Hcb by done. by apply bool_decide_eq_true in Hcb.
  - intros (_ & _ & H1 & H2). by apply Hm, Hcomp.
Qed.

End assign_facts.

(** The initial maps: built exactly from a non-empty list of distinct valid
    owners; the owner of a slot is the one its band or its residue points at; and
    every owner holds its even share of the 1024 slots, rounded down or up. *)
Theorem bootstrap_balanced {O} `{!ChunkSlotOwner O} (owners : list O) interleaved :
  ((exists m, assign owners interleaved = Ok m) <-> assignable owners) /\
  forall m, assign owners interleaved = Ok m ->
    let n := Z.of_nat (length owners) in
    (forall s, slot_ok s -> owner m s = owners !! Z.to_nat (slot_index interleaved n s)) /\
    forall o, o ∈ owners ->
      CHUNK_SLOT_COUNT / n <= Z.of_nat (length (List.filter (fun s => bool_decide (owner m s = Some o)) all_slots))
        <= (CHUNK_SLOT_COUNT + (n - 1)) / n.
Proof.
  pose proof (assign_spec owners interleaved) as Hs. cbv zeta in *. set (n := Z.of_nat (length owners)) in *.
  destruct (assign owners interleaved) as [m|e].
  2: { split; [|done]. split; [by intros []|done]. }
  destruct Hs as [Ha Ho]. split; [split; [done|by exists m]|]. intros m' [= <-]. split; [exact Ho|]. intros o Hin.
  destruct Ha as (_ & _ & _ & Hn). apply list_elem_of_lookup in Hin as [i Hi]. pose proof (lookup_lt_Some _ _ _ Hi) as Hlt.
  rewrite (List.filter_ext_in _ (fun s => slot_index interleaved n s =? Z.of_nat i)).
  - apply share_balanced. lia.
  - intros s Hs%list_elem_of_In%elem_of_all_slots. rewrite Ho by done.
    pose proof (slot_index_range interleaved n s ltac:(lia) Hs) as Hr.
    destruct (Z.eqb_spec (slot_index interleaved n s) (Z.of_nat i)) as [->|Hne].
    + rewrite Nat2Z.id. by apply bool_decide_eq_true.
    + apply bool_decide_eq_false. intros Hs'. apply Hne. rewrite (NoDup_lookup _ _ _ _ Hn Hi Hs'). lia.
Qed.

(** ** Instances of the hypotheses *)

Definition full_bitmap : bytes := replicate 128 255.

Lemma slot_map_total_unique_witness :
  let h := mkHead 1 1 1 in let bs := [mkBinding 1 (7 : Z) full_bitmap] in
  complete h bs /\ exists m, map_new h bs = Ok m /\ owner m 1000 = Some 7.
Proof.
  intros h bs. destruct (slot_map_total_unique h bs) as [Hiff Hm]; [reflexivity|].
  destruct (map_new h bs) as [m|] eqn:E; [|vm_compute in E; discriminate]. split; [apply Hiff; exists m; reflexivity|].
  exists m. split; [reflexivity|]. destruct (Hm m eq_refl) as (_ & _ & Ho).
  destruct (Ho 1000) as (o & -> & Hb); [unfold slot_ok, CHUNK_SLOT_COUNT; lia|]. f_equal.
  specialize (Hb (mkBinding 1 7 full_bitmap) ltac:(apply list_elem_of_here)).
  assert (Hc : contains full_bitmap 1000 = true) by (vm_compute; reflexivity). cbn [binding_slots] in Hb.
  rewrite Hb in Hc. apply bool_decide_eq_true in Hc. exact (eq_sym Hc).
Defined.

Definition demo_authority : ChunkSlotAuthority := mkAuthority 7 (replicate 16 1) 3.

Lemma reassign_moves_exactly_witness :
  let h := mkHead 1 4 1 in let bs := [mkBinding 4 demo_authority full_bitmap] in
  exists m m', map_new h bs = Ok m /\ reassign m [(5, 9)] = Ok m' /\ generation (head m') = 5 /\
    owner m' 5 = Some (mkAuthority 9 (replicate 16 1) 4) /\ owner m' 6 = Some demo_authority.
Proof.
  intros h bs. destruct (map_new h bs) as [m|] eqn:E; [|vm_compute in E; discriminate].
  assert (Ho : owner m 5 = Some demo_authority /\ owner m 6 = Some demo_authority)
    by (vm_compute in E; injection E as <-; vm_compute; split; reflexivity).
  destruct (reassign_moves_exactly h bs m [(5, 9)]) as [Hiff Hall].
  - reflexivity.
  - unfold u64_max. simpl. lia.
  - exact E.
  - apply Forall_singleton. unfold authority_ok, u64_max. simpl. lia.
  - apply Forall_singleton. unfold slot_ok, CHUNK_SLOT_COUNT. simpl. lia.
  - destruct (proj2 Hiff) as [m' Em'].
    { split; [unfold u64_max; simpl; lia|]. split; [apply NoDup_singleton|]. apply Forall_singleton. split; [simpl; lia|].
      exists demo_authority. split; [apply Ho|]. unfold u64_max. simpl. lia. }
    exists m, m'. split; [reflexivity|]. split; [exact Em'|]. destruct (Hall m' Em') as (Hg & _ & Hs). split; [exact Hg|].
    destruct (Hs 5) as (a & Ha & ->); [unfold slot_ok, CHUNK_SLOT_COUNT; lia|].
    destruct (Hs 6) as (b & Hb & ->); [unfold slot_ok, CHUNK_SLOT_COUNT; lia|].
    destruct Ho as [H5 H6]. rewrite H5 in Ha. rewrite H6 in Hb. injection Ha as <-. injection Hb as <-.
    split; vm_compute; reflexivity.
Defined.

End ChunkSlots.
