(* ===== verification/Handoff.v ===== *)
(** * Service handoff

    Models [crowdb-protocol/src/chunk_slot/handoff.rs]: the durable record of a
    cohort of slot transfers, its validation, and the operations that take it
    from preparation through fencing and publication to activation.

    [handoff_forward_only]: whatever sequence of operations is attempted on a
    prepared cohort, failed ones included, the record stays one that reloads to
    itself, every later state may replace every earlier one, and publication is
    reached only with a fence receipt for every transfer. *)

From stdpp Require Import prelude gmap list sorting.
From Stdlib Require Import ZArith Lia.
From S2P Require Import Prelude Bytes KeyEncoding ChunkSlots.

Module Handoff.
Import ChunkSlots.

Record ChunkSlotTransfer := mkTransfer {
  transfer_slot : Z;
  previous : option ChunkSlotAuthority;
  target : ChunkSlotAuthority;
  storage : ChunkStorageGroup;
}.

Inductive ChunkServiceHandoffPhase := Prepare | Fence | Publish | Activate.

Record ChunkSlotFenceReceipt := mkReceipt { receipt_slot : Z; revision : Z }.

#[export] Instance transfer_eq_dec : EqDecision ChunkSlotTransfer.
Proof. solve_decision. Defined.
#[export] Instance phase_eq_dec : EqDecision ChunkServiceHandoffPhase.
Proof. solve_decision. Defined.
#[export] Instance receipt_eq_dec : EqDecision ChunkSlotFenceReceipt.
Proof. solve_decision. Defined.

Record ChunkServiceHandoffRecord := mkRecord {
  base_service_generation : Z;
  storage_generation : Z;
  transfers : list ChunkSlotTransfer;
  phase : ChunkServiceHandoffPhase;
  fences : list ChunkSlotFenceReceipt;
}.

(** [ChunkServiceHandoffError] *)
Inductive HandoffError := ChunkServiceHandoffError.

Definition by_slot (a b : ChunkSlotTransfer) : Prop := transfer_slot a <= transfer_slot b.
Definition by_receipt (a b : ChunkSlotFenceReceipt) : Prop := receipt_slot a <= receipt_slot b.
#[export] Instance by_slot_dec : RelDecision by_slot.
Proof. intros a b. unfold by_slot. apply _. Defined.
#[export] Instance by_receipt_dec : RelDecision by_receipt.
Proof. intros a b. unfold by_receipt. apply _. Defined.

(** The epoch the target of a transfer must have; [None] is an overflow. *)
Definition next_epoch (t : ChunkSlotTransfer) : option Z :=
  match previous t with
  | None => Some 1
  | Some a => if epoch a =? u64_max then None else Some (epoch a + 1)
  end.

(** The loop over the transfers, with the set of slots seen. *)
Fixpoint check_transfers (l : list ChunkSlotTransfer) (slots : list Z) : option (list Z) :=
  match l with
  | [] => Some slots
  | t :: l =>
      if bool_decide (transfer_slot t ∈ slots) || (group_id (storage t) =? 0)
         || negb (bool_decide (next_epoch t = Some (epoch (target t))))
      then None
      else check_transfers l (transfer_slot t :: slots)
  end.

(** The loop over the receipts. *)
Fixpoint check_fences (l : list ChunkSlotFenceReceipt) (slots fenced : list Z) : option (list Z) :=
  match l with
  | [] => Some fenced
  | r :: l =>
      if (revision r =? 0) || negb (bool_decide (receipt_slot r ∈ slots)) || bool_decide (receipt_slot r ∈ fenced)
      then None
      else check_fences l slots (receipt_slot r :: fenced)
  end.

Definition phase_allows (p : ChunkServiceHandoffPhase) (fenced slots : nat) : bool :=
  match p with
  | Prepare => (fenced =? 0)%nat
  | Publish | Activate => (fenced =? slots)%nat
  | Fence => true
  end.

(** [TryFrom<ChunkServiceHandoffRecord>] *)
Definition try_from (r : ChunkServiceHandoffRecord) : result ChunkServiceHandoffRecord HandoffError :=
  if (base_service_generation r =? 0) || (base_service_generation r =? u64_max) || (storage_generation r =? 0)
     || bool_decide (transfers r = []) || (Z.to_nat CHUNK_SLOT_COUNT <? length (transfers r))%nat
  then Err ChunkServiceHandoffError
  else
    match check_transfers (transfers r) [] with
    | None => Err ChunkServiceHandoffError
    | Some slots =>
        match check_fences (fences r) slots [] with
        | None => Err ChunkServiceHandoffError
        | Some fenced =>
            let r := mkRecord (base_service_generation r) (storage_generation r) (merge_sort by_slot (transfers r))
                       (phase r) (merge_sort by_receipt (fences r)) in
            if phase_allows (phase r) (length fenced) (length slots) then Ok r else Err ChunkServiceHandoffError
        end
    end.

Definition prepare (base storage_gen : Z) (ts : list ChunkSlotTransfer) : result ChunkServiceHandoffRecord HandoffError :=
  try_from (mkRecord base storage_gen ts Prepare []).

Definition publication_generation (r : ChunkServiceHandoffRecord) : Z := wrap64 (base_service_generation r + 1).

Definition rank (p : ChunkServiceHandoffPhase) : Z :=
  match p with Prepare => 0 | Fence => 1 | Publish => 2 | Activate => 3 end.

Definition can_follow (r prev : ChunkServiceHandoffRecord) : bool :=
  (base_service_generation r =? base_service_generation prev) && (storage_generation r =? storage_generation prev)
  && bool_decide (transfers r = transfers prev) && (rank (phase prev) <=? rank (phase r))
  && forallb (fun x => bool_decide (x ∈ fences r)) (fences prev).

Definition set_phase (r : ChunkServiceHandoffRecord) (p : ChunkServiceHandoffPhase) : ChunkServiceHandoffRecord :=
  mkRecord (base_service_generation r) (storage_generation r) (transfers r) p (fences r).

Definition begin_fencing (r : ChunkServiceHandoffRecord) : result ChunkServiceHandoffRecord HandoffError :=
  match phase r with
  | Prepare | Fence => Ok (set_phase r Fence)
  | _ => Err ChunkServiceHandoffError
  end.

Definition record_fence (r : ChunkServiceHandoffRecord) (x : ChunkSlotFenceReceipt)
  : result ChunkServiceHandoffRecord HandoffError :=
  if negb (bool_decide (phase r = Fence)) || (revision x =? 0)
     || negb (existsb (fun t => transfer_slot t =? receipt_slot x) (transfers r))
  then Err ChunkServiceHandoffError
  else
    match List.find (fun prior => receipt_slot prior =? receipt_slot x) (fences r) with
    | Some prior => if bool_decide (prior = x) then Ok r else Err ChunkServiceHandoffError
    | None => Ok (mkRecord (base_service_generation r) (storage_generation r) (transfers r) (phase r)
                    (merge_sort by_receipt (fences r ++ [x])))
    end.

Definition record_publication (r : ChunkServiceHandoffRecord) (gen : Z) : result ChunkServiceHandoffRecord HandoffError :=
  if negb (gen =? publication_generation r) || negb (length (fences r) =? length (transfers r))%nat
     || bool_decide (phase r = Prepare)
  then Err ChunkServiceHandoffError
  else Ok (if bool_decide (phase r = Activate) then r else set_phase r Publish).

Definition record_activation (r : ChunkServiceHandoffRecord) : result ChunkServiceHandoffRecord HandoffError :=
  match phase r with
  | Publish | Activate => Ok (set_phase r Activate)
  | _ => Err ChunkServiceHandoffError
  end.

(** ** Histories *)

Inductive op :=
| BeginFencing
| RecordFence (x : ChunkSlotFenceReceipt)
| RecordPublication (gen : Z)
| RecordActivation
| Reload.

(** One attempt; an error leaves the cohort as it was.  [Reload] is a restart
    that decodes the stored record. *)
Definition attempt (r : ChunkServiceHandoffRecord) (o : op) : ChunkServiceHandoffRecord :=
  match match o with
        | BeginFencing => begin_fencing r
        | RecordFence x => record_fence r x
        | RecordPublication gen => record_publication r gen
        | RecordActivation => record_activation r
        | Reload => try_from r
        end with
  | Ok r' => r'
  | Err _ => r
  end.

Definition run (r : ChunkServiceHandoffRecord) (ops : list op) : ChunkServiceHandoffRecord := foldl attempt r ops.

(** ** Validated records *)

Definition transfer_ok (t : ChunkSlotTransfer) : Prop :=
  group_id (storage t) <> 0 /\ next_epoch t = Some (epoch (target t)).

Record valid (r : ChunkServiceHandoffRecord) : Prop := {
  v_base : base_service_generation r <> 0 /\ base_service_generation r <> u64_max;
  v_storage : storage_generation r <> 0;
  v_some : transfers r <> [];
  v_few : (length (transfers r) <= 1024)%nat;
  v_slots : NoDup (transfer_slot <$> transfers r);
  v_transfers : Forall transfer_ok (transfers r);
  v_receipts : Forall (fun x => revision x <> 0 /\ receipt_slot x ∈ transfer_slot <$> transfers r) (fences r);
  v_fenced : NoDup (receipt_slot <$> fences r);
  v_phase : phase_allows (phase r) (length (fences r)) (length (transfers r)) = true;
}.

Record stored (r : ChunkServiceHandoffRecord) : Prop := {
  s_valid : valid r;
  s_transfers : Sorted by_slot (transfers r);
  s_fences : Sorted by_receipt (fences r);
}.

Lemma check_transfers_spec l : forall slots,
  match check_transfers l slots with
  | Some s => s = reverse (transfer_slot <$> l) ++ slots /\ Forall transfer_ok l /\ NoDup (transfer_slot <$> l) /\
      (forall x, x ∈ transfer_slot <$> l -> x ∉ slots)
  | None => ~ (Forall transfer_ok l /\ NoDup (transfer_slot <$> l) /\ (forall x, x ∈ transfer_slot <$> l -> x ∉ slots))
  end.
Proof.
  induction l as [|t l IH]; intros slots; cbn [check_transfers].
  { split_and!; [done|constructor|constructor|set_solver]. }
  cbn [fmap list_fmap]. destruct (bool_decide_reflect (transfer_slot t ∈ slots)) as [Hin|Hin]; simpl.
  { intros (_ & _ & H). by apply (H (transfer_slot t)); [set_solver|]. }
  destruct (Z.eqb_spec (group_id (storage t)) 0) as [Hz|Hz]; simpl.
  { intros (H & _). apply Forall_cons in H as [[H _] _]. done. }
  destruct (bool_decide_reflect (next_epoch t = Some (epoch (target t)))) as [He|He]; simpl.
  2: { intros (H & _). apply Forall_cons in H as [[_ H] _]. done. }
  specialize (IH (transfer_slot t :: slots)). rewrite reverse_cons, <- app_assoc.
  assert (Hiff : (Forall transfer_ok l /\ NoDup (transfer_slot <$> l) /\
      (forall x, x ∈ transfer_slot <$> l -> x ∉ transfer_slot t :: slots)) <->
    (Forall transfer_ok (t :: l) /\ NoDup (transfer_slot t :: (transfer_slot <$> l)) /\
      (forall x, x ∈ transfer_slot t :: (transfer_slot <$> l) -> x ∉ slots))).
  { rewrite Forall_cons, NoDup_cons. unfold transfer_ok at 2. set_solver. }
  destruct (check_transfers l _) as [s|]; [|by rewrite <- Hiff]. destruct IH as [-> IH]. split; [done|]. by apply Hiff.
Qed.

Lemma check_fences_spec l slots : forall fenced,
  match check_fences l slots fenced with
  | Some s => s = reverse (receipt_slot <$> l) ++ fenced /\
      Forall (fun x => revision x <> 0 /\ receipt_slot x ∈ slots) l /\ NoDup (receipt_slot <$> l) /\
      (forall x, x ∈ receipt_slot <$> l -> x ∉ fenced)
  | None => ~ (Forall (fun x => revision x <> 0 /\ receipt_slot x ∈ slots) l /\ NoDup (receipt_slot <$> l) /\
      (forall x, x ∈ receipt_slot <$> l -> x ∉ fenced))
  end.
Proof.
  induction l as [|r l IH]; intros fenced; cbn [check_fences].
  { split_and!; [done|constructor|constructor|set_solver]. }
  cbn [fmap list_fmap]. destruct (Z.eqb_spec (revision r) 0) as [Hz|Hz]; simpl.
  { intros (H & _). apply Forall_cons in H as [[H _] _]. done. }
  destruct (bool_decide_reflect (receipt_slot r ∈ slots)) as [Hs|Hs]; simpl.
  2: { intros (H & _). apply Forall_cons in H as [[_ H] _]. done. }
  destruct (bool_decide_reflect (receipt_slot r ∈ fenced)) as [Hin|Hin]; simpl.
  { intros (_ & _ & H). by apply (H (receipt_slot r)); [set_solver|]. }
  specialize (IH (receipt_slot r :: fenced)). rewrite reverse_cons, <- app_assoc.
  assert (Hiff : (Forall (fun x => revision x <> 0 /\ receipt_slot x ∈ slots) l /\ NoDup (receipt_slot <$> l) /\
      (forall x, x ∈ receipt_slot <$> l -> x ∉ receipt_slot r :: fenced)) <->
    (Forall (fun x => revision x <> 0 /\ receipt_slot x ∈ slots) (r :: l) /\
      NoDup (receipt_slot r :: (receipt_slot <$> l)) /\
      (forall x, x ∈ receipt_slot r :: (receipt_slot <$> l) -> x ∉ fenced))).
  { rewrite Forall_cons, NoDup_cons. set_solver. }
  destruct (check_fences l slots _) as [s|]; [|by rewrite <- Hiff]. destruct IH as [-> IH]. split; [done|]. by apply Hiff.
Qed.

Definition sorted (r : ChunkServiceHandoffRecord) : ChunkServiceHandoffRecord :=
  mkRecord (base_service_generation r) (storage_generation r) (merge_sort by_slot (transfers r)) (phase r)
    (merge_sort by_receipt (fences r)).

Lemma try_from_spec r :
  match try_from r with
  | Ok r' => valid r /\ r' = sorted r
  | Err _ => ~ valid r
  end.
Proof.
  unfold try_from. destruct (_ || _ || _ || _ || _) eqn:Eh.
  { intros [[] ? ? ?]. apply orb_true_iff in Eh as [Eh|Eh]; [|apply Nat.ltb_lt in Eh; unfold CHUNK_SLOT_COUNT in Eh; lia].
    apply orb_true_iff in Eh as [Eh|Eh]; [|by apply bool_decide_eq_true in Eh].
    apply orb_true_iff in Eh as [Eh|Eh]; [|by apply Z.eqb_eq in Eh].
    apply orb_true_iff in Eh as [Eh|Eh]; by apply Z.eqb_eq in Eh. }
  apply orb_false_iff in Eh as [Eh E5]. apply orb_false_iff in Eh as [Eh E4]. apply orb_false_iff in Eh as [Eh E3].
  apply orb_false_iff in Eh as [E1 E2]. apply Z.eqb_neq in E1, E2, E3. apply bool_decide_eq_false in E4.
  apply Nat.ltb_ge in E5. change (Z.to_nat CHUNK_SLOT_COUNT) with 1024%nat in E5.
  pose proof (check_transfers_spec (transfers r) []) as Ht. destruct (check_transfers (transfers r) []) as [slots|].
  2: { intros []. apply Ht. split_and!; [done|done|set_solver]. }
  destruct Ht as (-> & Ht & Hn & _). rewrite app_nil_r.
  pose proof (check_fences_spec (fences r) (reverse (transfer_slot <$> transfers r)) []) as Hf.
  destruct (check_fences _ _ _) as [fenced|].
  2: { intros []. apply Hf. split_and!; [|done|set_solver]. eapply Forall_impl; [done|]. intros x [? ?]. split; [done|].
       by apply elem_of_reverse. }
  destruct Hf as (-> & Hf & Hn' & _). rewrite app_nil_r. cbn [phase]. rewrite !length_reverse, !length_fmap.
  destruct (phase_allows (phase r) (length (fences r)) (length (transfers r))) eqn:Ep.
  - split; [|done]. constructor; try done. eapply Forall_impl; [done|]. intros x [? ?]. split; [done|]. by apply elem_of_reverse.
  - intros []. congruence.
Qed.

Lemma valid_perm r r' : base_service_generation r' = base_service_generation r ->
  storage_generation r' = storage_generation r -> phase r' = phase r ->
  transfers r' ≡ₚ transfers r -> fences r' ≡ₚ fences r -> valid r -> valid r'.
Proof.
  intros E1 E2 E3 Ht Hf [[V1 V1'] V2 V3 V4 V5 V6 V7 V8 V9]. constructor; rewrite ?E1, ?E2, ?E3, ?Ht, ?Hf; try done.
  - intros E. rewrite E in Ht. by apply V3, Permutation_nil_r.
  - eapply Forall_impl; [exact V7|]. intros x [? ?]. split; [done|]. by rewrite Ht.
Qed.

#[export] Instance by_slot_total : Total by_slot.
Proof. intros a b. unfold by_slot. lia. Qed.
#[export] Instance by_receipt_total : Total by_receipt.
Proof. intros a b. unfold by_receipt. lia. Qed.
#[export] Instance by_slot_trans : Transitive by_slot.
Proof. intros a b c. unfold by_slot. lia. Qed.
#[export] Instance by_receipt_trans : Transitive by_receipt.
Proof. intros a b c. unfold by_receipt. lia. Qed.

Lemma sorted_stored r : valid r -> stored (sorted r).
Proof.
  intros H. constructor; [|apply Sorted_merge_sort, _|apply Sorted_merge_sort, _].
  by apply (valid_perm r); [..|apply merge_sort_Permutation|apply merge_sort_Permutation|].
Qed.

(** Sorting a sorted list with distinct keys changes nothing. *)
Lemma sort_sorted {A} (key : A -> Z) (R : relation A) `{!RelDecision R, !Total R, !Transitive R} l :
  (forall a b, R a b -> R b a -> key a = key b) -> Sorted R l -> NoDup (key <$> l) -> merge_sort R l = l.
Proof.
  intros HR Hs Hn. apply (StronglySorted_unique_strong R).
  - intros x y Hx Hy Hxy Hyx. rewrite (merge_sort_Permutation R l) in Hx. by eapply NoDup_fmap_elem; [done|done|done|apply HR].
  - by apply Sorted_StronglySorted, Sorted_merge_sort.
  - by apply Sorted_StronglySorted.
  - apply merge_sort_Permutation.
Qed.

Lemma stored_sorted r : stored r -> sorted r = r.
Proof.
  intros [[] Ht Hf]. unfold sorted. rewrite (sort_sorted transfer_slot by_slot), (sort_sorted receipt_slot by_receipt); try done.
  - by destruct r.
  - unfold by_receipt. lia.
  - unfold by_slot. lia.
Qed.

(** A stored record reloads to itself. *)
Lemma stored_reload r : stored r -> try_from r = Ok r.
Proof.
  intros H. pose proof (try_from_spec r) as Hs. destruct (try_from r) as [r'|e].
  - destruct Hs as [_ ->]. by rewrite stored_sorted.
  - destruct Hs. apply H.
Qed.

(** ** The operations *)

Record follows (r prev : ChunkServiceHandoffRecord) : Prop := {
  f_base : base_service_generation r = base_service_generation prev;
  f_storage : storage_generation r = storage_generation prev;
  f_transfers : transfers r = transfers prev;
  f_phase : rank (phase prev) <= rank (phase r);
  f_fences : forall x, x ∈ fences prev -> x ∈ fences r;
}.

Lemma can_follow_iff r prev : can_follow r prev = true <-> follows r prev.
Proof.
  unfold can_follow. rewrite !andb_true_iff, !Z.eqb_eq, bool_decide_eq_true, Z.leb_le, forallb_forall. split.
  - intros [[[[H1 H2] H3] H4] H5]. constructor; try done. intros x Hx. apply list_elem_of_In in Hx. specialize (H5 x Hx).
    by apply bool_decide_eq_true in H5.
  - intros [H1 H2 H3 H4 H5]. split_and!; try done. intros x Hx. apply bool_decide_eq_true, H5. by apply list_elem_of_In.
Qed.

Lemma follows_refl r : follows r r.
Proof. constructor; auto; lia. Qed.

Lemma follows_trans r1 r2 r3 : follows r2 r1 -> follows r3 r2 -> follows r3 r1.
Proof. intros [A1 A2 A3 A4 A5] [B1 B2 B3 B4 B5]. constructor; [congruence..|lia|auto]. Qed.

Lemma set_phase_stored r p : stored r -> phase_allows p (length (fences r)) (length (transfers r)) = true ->
  rank (phase r) <= rank p -> stored (set_phase r p) /\ follows (set_phase r p) r.
Proof.
  intros [[V1 V2 V3 V4 V5 V6 V7 V8 V9] Ht Hf] Hp Hr. split; [constructor; [by constructor|done|done]|constructor; auto].
Qed.

Lemma find_none_slot x l : List.find (fun prior => receipt_slot prior =? receipt_slot x) l = None ->
  receipt_slot x ∉ receipt_slot <$> l.
Proof.
  intros H Hin. apply list_elem_of_fmap in Hin as (y & E & Hy). apply list_elem_of_In in Hy.
  pose proof (List.find_none _ _ H y Hy) as Hn. cbv beta in Hn. apply Z.eqb_neq in Hn. congruence.
Qed.

Lemma record_fence_stored r x r' : stored r -> record_fence r x = Ok r' -> stored r' /\ follows r' r.
Proof.
  intros Hs. unfold record_fence. destruct (negb _ || _ || _) eqn:Eg; [done|].
  apply orb_false_iff in Eg as [Eg E3]. apply orb_false_iff in Eg as [E1 E2]. apply negb_false_iff in E1, E3.
  apply bool_decide_eq_true in E1. apply Z.eqb_neq in E2.
  apply existsb_exists in E3 as (t & Ht & Et). apply Z.eqb_eq in Et. apply list_elem_of_In in Ht.
  destruct (List.find _ _) as [prior|] eqn:Ef.
  { destruct (bool_decide _); [|done]. intros [= <-]. split; [done|apply follows_refl]. }
  intros [= <-]. apply find_none_slot in Ef. destruct Hs as [[V1 V2 V3 V4 V5 V6 V7 V8 V9] Hst Hsf].
  assert (Hp : merge_sort by_receipt (fences r ++ [x]) ≡ₚ fences r ++ [x]) by apply merge_sort_Permutation.
  split.
  - constructor; [|done|apply Sorted_merge_sort, _]. constructor; try done.
    + simpl. rewrite Hp. apply Forall_app. split; [done|]. apply Forall_singleton. split; [done|].
      apply list_elem_of_fmap. by exists t.
    + simpl. rewrite Hp, fmap_app. apply NoDup_app. split_and!; [done|set_solver|apply NoDup_singleton].
    + simpl. by rewrite E1.
  - constructor; simpl; try done. intros y Hy. rewrite Hp. set_solver.
Qed.

Lemma attempt_stored r o : stored r -> stored (attempt r o) /\ follows (attempt r o) r.
Proof.
  intros Hs. pose proof (conj Hs (follows_refl r)) as Hsame. pose proof (v_phase _ (s_valid _ Hs)) as Hp.
  unfold attempt. destruct o as [|x|gen| |].
  - unfold begin_fencing. destruct (phase r) eqn:E; try done; apply set_phase_stored; rewrite ?E; done.
  - destruct (record_fence r x) as [r'|] eqn:E; [|done]. by eapply record_fence_stored.
  - unfold record_publication. destruct (negb _ || _ || _) eqn:Eg; [done|].
    apply orb_false_iff in Eg as [Eg E3]. apply orb_false_iff in Eg as [_ E2]. apply negb_false_iff in E2.
    apply bool_decide_eq_false in E3. destruct (bool_decide_reflect (phase r = Activate)); [done|].
    apply set_phase_stored; [done|done|]. by destruct (phase r).
  - unfold record_activation. destruct (phase r) eqn:E; try done; apply set_phase_stored; rewrite ?E; done.
  - by rewrite stored_reload.
Qed.

Lemma run_stored ops : forall r, stored r -> stored (run r ops) /\ follows (run r ops) r.
Proof.
  induction ops as [|o ops IH]; intros r Hs; [by split; [|apply follows_refl]|].
  destruct (attempt_stored r o Hs) as [Hs' Hf]. destruct (IH _ Hs') as [Hs'' Hf']. split; [done|].
  by eapply follows_trans.
Qed.

Lemma Sorted_keys {A} (key : A -> Z) (R : relation A) l : (forall a b, R a b -> key a <= key b) ->
  Sorted R l -> Sorted Z.le (key <$> l).
Proof.
  intros HR. induction 1 as [|a l Hs IH Hh]; simpl; constructor; [done|].
  destruct Hh; simpl; constructor. auto.
Qed.

(** A published record has a receipt for each transfer. *)
Lemma published_fenced r : stored r -> length (fences r) = length (transfers r) ->
  receipt_slot <$> fences r = transfer_slot <$> transfers r.
Proof.
  intros [[V1 V2 V3 V4 V5 V6 V7 V8 V9] Ht Hf] Hlen. apply (Sorted_unique Z.le).
  - by apply (Sorted_keys _ by_receipt).
  - by apply (Sorted_keys _ by_slot).
  - apply submseteq_length_Permutation; [|by rewrite !length_fmap, Hlen]. apply NoDup_submseteq; [done|].
    intros s Hs. apply list_elem_of_fmap in Hs as (x & -> & Hx). rewrite Forall_forall in V7. by apply V7.
Qed.

(** C25. Any history of a prepared cohort, failed calls and restarts included: at
    every point the record decodes to itself, so a restart changes nothing; a
    later state always passes [can_follow] against an earlier one; the transfers
    are those prepared, one per slot, each with the next epoch; and once the phase
    is [Publish] or [Activate] every transfer has exactly one fence receipt, with
    a non-zero revision, and nothing else is receipted. *)
Theorem handoff_forward_only base sg ts r0 before after :
  prepare base sg ts = Ok r0 ->
  let r1 := run r0 before in let r2 := run r1 after in
  try_from r2 = Ok r2 /\ can_follow r2 r1 = true /\
  transfers r2 ≡ₚ ts /\ NoDup (transfer_slot <$> ts) /\ Forall transfer_ok ts /\
  (phase r2 = Publish \/ phase r2 = Activate ->
     receipt_slot <$> fences r2 = transfer_slot <$> transfers r2 /\ Forall (fun x => revision x <> 0) (fences r2)).
Proof.
  intros Hp r1 r2. unfold prepare in Hp. pose proof (try_from_spec (mkRecord base sg ts Prepare [])) as Hs. rewrite Hp in Hs.
  destruct Hs as [Hv ->]. pose proof (sorted_stored _ Hv) as Hst.
  destruct (run_stored before _ Hst) as [H1 F1]. fold r1 in H1, F1. destruct (run_stored after _ H1) as [H2 F2]. fold r2 in H2, F2.
  pose proof (follows_trans _ _ _ F1 F2) as F. split; [by apply stored_reload|]. split; [by apply can_follow_iff|].
  rewrite (f_transfers _ _ F). split; [apply merge_sort_Permutation|]. split; [apply Hv|]. split; [apply Hv|].
  intros Hph. rewrite <- (f_transfers _ _ F). split.
  - apply published_fenced; [done|]. pose proof (v_phase _ (s_valid _ H2)) as Hp2. destruct Hph as [E|E]; rewrite E in Hp2;
      by apply Nat.eqb_eq in Hp2.
  - eapply Forall_impl; [apply (v_receipts _ (s_valid _ H2))|by intros x []].
Qed.

Definition demo_transfers : list ChunkSlotTransfer :=
  [mkTransfer 9 (Some (mkAuthority 4 (replicate 16 1) 2)) (mkAuthority 5 (replicate 16 1) 3) (mkGroupRef 1 2);
   mkTransfer 3 None (mkAuthority 5 (replicate 16 1) 1) (mkGroupRef 1 2)].

(** A cohort of two slots, with a contradicting receipt, a premature publication
    and a restart on the way. *)
Definition demo_ops : list op :=
  [RecordPublication 8; BeginFencing; RecordFence (mkReceipt 9 40); Reload; RecordFence (mkReceipt 9 41);
   RecordPublication 8; RecordFence (mkReceipt 3 44); RecordPublication 8].

Lemma handoff_forward_only_witness : exists r0, prepare 7 1 demo_transfers = Ok r0 /\
  phase (run r0 demo_ops) = Publish /\ receipt_slot <$> fences (run r0 demo_ops) = [3; 9].
Proof.
  destruct (prepare 7 1 demo_transfers) as [r0|] eqn:E; [|vm_compute in E; discriminate].
  exists r0. split; [reflexivity|].
  destruct (handoff_forward_only 7 1 demo_transfers r0 [] demo_ops E) as (_ & _ & _ & _ & _ & H).
  change (run r0 []) with r0 in H. vm_compute in E. injection E as <-.
  split; [vm_compute; reflexivity|]. destruct H as [-> _]; [left; vm_compute; reflexivity|]. vm_compute. reflexivity.
Defined.

End Handoff.
