(* ===== verification/BinaryKeys.v ===== *)
(** * Binary keys

    Models the [BinaryKey] kinds of [crowdb-protocol/src/key]: the hardware keys
    of [common.rs], the disk keys of [diskdb.rs], the task keys and indexes of
    [chunk_task.rs] and the stream keys of [chunk_stream.rs].  Each kind has its
    [encode_to] and [decode] as an instance of the class, and its scan prefixes.

    [binary_keys_exact]: every kind decodes what it encodes, accepts nothing else,
    and no two kinds share a key.  [binary_scans_exact]: a scan prefix selects
    exactly the keys it names, and the byte order of the keys of a kind is the
    order of their fields. *)

From stdpp Require Import prelude list strings.
From Stdlib Require Import ZArith Lia.
From S2P Require Import Prelude Bytes KeyEncoding ChunkSlots.

Module BinaryKeys.
Import KeyEncoding ChunkSlots.

(** ** Hardware hierarchy *)

Record RackKey := mkRackKey { rk_rack_id : Z }.

#[export] Instance RackKey_binary : BinaryKey RackKey := {
  TYPE_TAG := 2;
  encode_to k out := encode_u64 (encode_header out 2) (rk_rack_id k);
  decode buf :=
    let? fields := decode_header buf 2 in
    let? (rack_id, o) := decode_u64 fields 0 in
    let? _ := check_exact fields o in
    Ok (mkRackKey rack_id);
}.

Record NodeKey := mkNodeKey { nk_rack_id : Z; nk_node_id : Z }.

#[export] Instance NodeKey_binary : BinaryKey NodeKey := {
  TYPE_TAG := 1;
  encode_to k out := encode_u64 (encode_u64 (encode_header out 1) (nk_rack_id k)) (nk_node_id k);
  decode buf :=
    let? fields := decode_header buf 1 in
    let? (rack_id, o) := decode_u64 fields 0 in
    let? (node_id, o) := decode_u64 fields o in
    let? _ := check_exact fields o in
    Ok (mkNodeKey rack_id node_id);
}.

Record DiskGroupKey := mkDiskGroupKey { dgk_rack_id : Z; dgk_node_id : Z; dgk_disk_group_id : Z }.

#[export] Instance DiskGroupKey_binary : BinaryKey DiskGroupKey := {
  TYPE_TAG := 3;
  encode_to k out :=
    encode_u64 (encode_u64 (encode_u64 (encode_header out 3) (dgk_rack_id k)) (dgk_node_id k)) (dgk_disk_group_id k);
  decode buf :=
    let? fields := decode_header buf 3 in
    let? (rack_id, o) := decode_u64 fields 0 in
    let? (node_id, o) := decode_u64 fields o in
    let? (disk_group_id, o) := decode_u64 fields o in
    let? _ := check_exact fields o in
    Ok (mkDiskGroupKey rack_id node_id disk_group_id);
}.

Record DiskKey := mkDiskKey { dk_rack_id : Z; dk_node_id : Z; dk_disk_group_id : Z; dk_disk_id : DiskId }.

#[export] Instance DiskKey_binary : BinaryKey DiskKey := {
  TYPE_TAG := 4;
  encode_to k out :=
    encode_disk_id
      (encode_u64 (encode_u64 (encode_u64 (encode_header out 4) (dk_rack_id k)) (dk_node_id k)) (dk_disk_group_id k))
      (dk_disk_id k);
  decode buf :=
    let? fields := decode_header buf 4 in
    let? (rack_id, o) := decode_u64 fields 0 in
    let? (node_id, o) := decode_u64 fields o in
    let? (disk_group_id, o) := decode_u64 fields o in
    let? (disk_id, o) := decode_disk_id fields o in
    let? _ := check_exact fields o in
    Ok (mkDiskKey rack_id node_id disk_group_id disk_id);
}.

(** ** Zones and blocks *)

Record ZoneKey := mkZoneKey { zk_disk_id : DiskId; zk_zone_index : Z }.

#[export] Instance ZoneKey_binary : BinaryKey ZoneKey := {
  TYPE_TAG := 5;
  encode_to k out := encode_u32 (encode_disk_id (encode_header out 5) (zk_disk_id k)) (zk_zone_index k);
  decode buf :=
    let? fields := decode_header buf 5 in
    let? (disk_id, o) := decode_disk_id fields 0 in
    let? (zone_index, o) := decode_u32 fields o in
    let? _ := check_exact fields o in
    Ok (mkZoneKey disk_id zone_index);
}.

Record BusyBlockKey := mkBusyBlockKey { bbk_disk_id : DiskId; bbk_zone_index : Z; bbk_unit_offset : Z }.

#[export] Instance BusyBlockKey_binary : BinaryKey BusyBlockKey := {
  TYPE_TAG := 6;
  encode_to k out :=
    encode_u64 (encode_u32 (encode_disk_id (encode_header out 6) (bbk_disk_id k)) (bbk_zone_index k)) (bbk_unit_offset k);
  decode buf :=
    let? fields := decode_header buf 6 in
    let? (disk_id, o) := decode_disk_id fields 0 in
    let? (zone_index, o) := decode_u32 fields o in
    let? (unit_offset, o) := decode_u64 fields o in
    let? _ := check_exact fields o in
    Ok (mkBusyBlockKey disk_id zone_index unit_offset);
}.

Record FreeBlockKey := mkFreeBlockKey {
  fbk_disk_id : DiskId; fbk_zone_index : Z; fbk_unit_offset : Z; fbk_allocation_ts : Z }.

#[export] Instance FreeBlockKey_binary : BinaryKey FreeBlockKey := {
  TYPE_TAG := 7;
  encode_to k out :=
    encode_u64
      (encode_u64 (encode_u32 (encode_disk_id (encode_header out 7) (fbk_disk_id k)) (fbk_zone_index k))
         (fbk_unit_offset k))
      (fbk_allocation_ts k);
  decode buf :=
    let? fields := decode_header buf 7 in
    let? (disk_id, o) := decode_disk_id fields 0 in
    let? (zone_index, o) := decode_u32 fields o in
    let? (unit_offset, o) := decode_u64 fields o in
    let? (allocation_ts, o) := decode_u64 fields o in
    let? _ := check_exact fields o in
    Ok (mkFreeBlockKey disk_id zone_index unit_offset allocation_ts);
}.

(** ** Ownership, binding, usage and recovery *)

Record OwnerMapKey := mkOwnerMapKey { omk_rack_id : Z; omk_node_id : Z; omk_disk_group_id : Z }.

#[export] Instance OwnerMapKey_binary : BinaryKey OwnerMapKey := {
  TYPE_TAG := 8;
  encode_to k out :=
    encode_u64 (encode_u64 (encode_u64 (encode_header out 8) (omk_rack_id k)) (omk_node_id k)) (omk_disk_group_id k);
  decode buf :=
    let? fields := decode_header buf 8 in
    let? (rack_id, o) := decode_u64 fields 0 in
    let? (node_id, o) := decode_u64 fields o in
    let? (disk_group_id, o) := decode_u64 fields o in
    let? _ := check_exact fields o in
    Ok (mkOwnerMapKey rack_id node_id disk_group_id);
}.

Record BindMapKey := mkBindMapKey { bmk_rack_id : Z; bmk_node_id : Z; bmk_disk_group_id : Z }.

#[export] Instance BindMapKey_binary : BinaryKey BindMapKey := {
  TYPE_TAG := 9;
  encode_to k out :=
    encode_u64 (encode_u64 (encode_u64 (encode_header out 9) (bmk_rack_id k)) (bmk_node_id k)) (bmk_disk_group_id k);
  decode buf :=
    let? fields := decode_header buf 9 in
    let? (rack_id, o) := decode_u64 fields 0 in
    let? (node_id, o) := decode_u64 fields o in
    let? (disk_group_id, o) := decode_u64 fields o in
    let? _ := check_exact fields o in
    Ok (mkBindMapKey rack_id node_id disk_group_id);
}.

Record DiskGroupUsageKey := mkDiskGroupUsageKey { dguk_disk_group_id : Z }.

#[export] Instance DiskGroupUsageKey_binary : BinaryKey DiskGroupUsageKey := {
  TYPE_TAG := 11;
  encode_to k out := encode_u64 (encode_header out 11) (dguk_disk_group_id k);
  decode buf :=
    let? fields := decode_header buf 11 in
    let? (disk_group_id, o) := decode_u64 fields 0 in
    let? _ := check_exact fields o in
    Ok (mkDiskGroupUsageKey disk_group_id);
}.

Record RecoveryScanProgressKey := mkRecoveryScanProgressKey { rspk_disk_id : DiskId }.

#[export] Instance RecoveryScanProgressKey_binary : BinaryKey RecoveryScanProgressKey := {
  TYPE_TAG := 12;
  encode_to k out := encode_disk_id (encode_header out 12) (rspk_disk_id k);
  decode buf :=
    let? fields := decode_header buf 12 in
    let? (disk_id, o) := decode_disk_id fields 0 in
    let? _ := check_exact fields o in
    Ok (mkRecoveryScanProgressKey disk_id);
}.

Record TentativeOwnerGraceKey := mkTentativeOwnerGraceKey {
  togk_disk_id : DiskId; togk_zone_index : Z; togk_unit_offset : Z; togk_allocation_ts : Z }.

#[export] Instance TentativeOwnerGraceKey_binary : BinaryKey TentativeOwnerGraceKey := {
  TYPE_TAG := 32;
  encode_to k out :=
    encode_u64
      (encode_u64 (encode_u32 (encode_disk_id (encode_header out 32) (togk_disk_id k)) (togk_zone_index k))
         (togk_unit_offset k))
      (togk_allocation_ts k);
  decode buf :=
    let? fields := decode_header buf 32 in
    let? (disk_id, o) := decode_disk_id fields 0 in
    let? (zone_index, o) := decode_u32 fields o in
    let? (unit_offset, o) := decode_u64 fields o in
    let? (allocation_ts, o) := decode_u64 fields o in
    let? _ := check_exact fields o in
    Ok (mkTentativeOwnerGraceKey disk_id zone_index unit_offset allocation_ts);
}.

Record RelocationJournalKey := mkRelocationJournalKey {
  rjk_disk_id : DiskId; rjk_zone_index : Z; rjk_unit_offset : Z; rjk_allocation_ts : Z }.

#[export] Instance RelocationJournalKey_binary : BinaryKey RelocationJournalKey := {
  TYPE_TAG := 33;
  encode_to k out :=
    encode_u64
      (encode_u64 (encode_u32 (encode_disk_id (encode_header out 33) (rjk_disk_id k)) (rjk_zone_index k))
         (rjk_unit_offset k))
      (rjk_allocation_ts k);
  decode buf :=
    let? fields := decode_header buf 33 in
    let? (disk_id, o) := decode_disk_id fields 0 in
    let? (zone_index, o) := decode_u32 fields o in
    let? (unit_offset, o) := decode_u64 fields o in
    let? (allocation_ts, o) := decode_u64 fields o in
    let? _ := check_exact fields o in
    Ok (mkRelocationJournalKey disk_id zone_index unit_offset allocation_ts);
}.

(** ** Service instances *)

(** [str::from_utf8] *)
Definition cont (b : Z) : bool := (128 <=? b) && (b <=? 191).

Fixpoint valid_utf8 (l : bytes) : bool :=
  match l with
  | [] => true
  | b :: l1 =>
      if b <=? 127 then valid_utf8 l1
      else match l1 with
      | [] => false
      | c :: l2 =>
          if (194 <=? b) && (b <=? 223) then cont c && valid_utf8 l2
          else match l2 with
          | [] => false
          | d :: l3 =>
              if (224 <=? b) && (b <=? 239) then
                (if b =? 224 then (160 <=? c) && (c <=? 191)
                 else if b =? 237 then (128 <=? c) && (c <=? 159)
                 else cont c) && cont d && valid_utf8 l3
              else match l3 with
              | [] => false
              | e :: l4 =>
                  (240 <=? b) && (b <=? 244) &&
                  (if b =? 240 then (144 <=? c) && (c <=? 191)
                   else if b =? 244 then (128 <=? c) && (c <=? 143)
                   else cont c) && cont d && cont e && valid_utf8 l4
              end
          end
      end
  end.

(** A [String] is the list of its bytes. *)
Record InstanceKey := mkInstanceKey { ik_service : bytes; ik_instance_id : Z }.

Definition sat_u32 (n : nat) : Z := Z.min (Z.of_nat n) (2 ^ 32 - 1).

#[export] Instance InstanceKey_binary : BinaryKey InstanceKey := {
  TYPE_TAG := 10;
  encode_to k out :=
    encode_u64 (encode_u32 (encode_header out 10) (sat_u32 (length (ik_service k))) ++ ik_service k) (ik_instance_id k);
  decode buf :=
    let? fields := decode_header buf 10 in
    let? (len, o) := decode_u32 fields 0 in
    let len := Z.to_nat len in
    if (length fields <? o + len)%nat then Err ShortInput
    else if negb (valid_utf8 (slice fields o len)) then Err ShortInput
    else
      let service := slice fields o len in
      let o := (o + len)%nat in
      let? (instance_id, o) := decode_u64 fields o in
      let? _ := check_exact fields o in
      Ok (mkInstanceKey service instance_id);
}.

(** ** Streams *)

Record StreamName := mkStreamName { stream_high : Z; stream_low : Z }.

Record StreamRecordKey := mkStreamRecordKey { srk_stream_name : StreamName }.

#[export] Instance StreamRecordKey_binary : BinaryKey StreamRecordKey := {
  TYPE_TAG := 29;
  encode_to k out :=
    encode_u64 (encode_u64 (encode_header out 29) (stream_high (srk_stream_name k))) (stream_low (srk_stream_name k));
  decode buf :=
    let? fields := decode_header buf 29 in
    let? (high, o) := decode_u64 fields 0 in
    let? (low, o) := decode_u64 fields o in
    let? _ := check_exact fields o in
    Ok (mkStreamRecordKey (mkStreamName high low));
}.

Inductive StreamChunkRecordOrder := Attached (start : Z) | Candidate (sequence : Z).

Record StreamChunkRecordKey := mkStreamChunkRecordKey { scrk_stream_id : StreamName; scrk_order : StreamChunkRecordOrder }.

Definition stream_prefix (id : StreamName) : bytes :=
  encode_u64 (encode_u64 (encode_header [] 28) (stream_high id)) (stream_low id).
Definition attached_prefix (id : StreamName) : bytes := stream_prefix id ++ [0].
Definition candidate_prefix (id : StreamName) : bytes := stream_prefix id ++ [1].

#[export] Instance StreamChunkRecordKey_binary : BinaryKey StreamChunkRecordKey := {
  TYPE_TAG := 28;
  encode_to k out :=
    let out := out ++ stream_prefix (scrk_stream_id k) in
    let '(kind, value) := match scrk_order k with Attached start => (0, start) | Candidate sequence => (1, sequence) end in
    encode_u64 (out ++ [kind]) value;
  decode buf :=
    let? fields := decode_header buf 28 in
    let? (high, o) := decode_u64 fields 0 in
    let? (low, o) := decode_u64 fields o in
    let? kind := ok_or (fields !! o) ShortInput in
    let? (value, o) := decode_u64 fields (o + 1)%nat in
    let? _ := check_exact fields o in
    let? order := (if kind =? 0 then Ok (Attached value) else if kind =? 1 then Ok (Candidate value) else Err BadTag) in
    Ok (mkStreamChunkRecordKey (mkStreamName high low) order);
}.

(** ** Chunk tasks *)

Section tasks.
Context `{Xxh64}.

Definition encode_scope (out : bytes) (id : ChunkId) : bytes :=
  encode_u16 (encode_u8 out (match domain_for_chunk id with Some d => domain_as_u8 d | None => 0 end)) (slot_for_chunk id).

Definition check_scope (fields : bytes) (id : ChunkId) : result unit KeyError :=
  if (length fields <? 3)%nat || negb (bool_decide (take 3 fields = encode_scope [] id)) then Err BadTag else Ok ().

Record ChunkTaskKey := mkChunkTaskKey { ctk_partition_id : ChunkId; ctk_kind : Z; ctk_task_id : ChunkId }.

#[export] Instance ChunkTaskKey_binary : BinaryKey ChunkTaskKey := {
  TYPE_TAG := 13;
  encode_to k out :=
    encode_chunk_id (encode_u16 (encode_chunk_id (encode_header out 13) (ctk_partition_id k)) (ctk_kind k)) (ctk_task_id k);
  decode buf :=
    let? fields := decode_header buf 13 in
    let? (partition_id, o) := decode_chunk_id fields 0 in
    let? (kind, o) := decode_u16 fields o in
    let? (task_id, o) := decode_chunk_id fields o in
    let? _ := check_exact fields o in
    Ok (mkChunkTaskKey partition_id kind task_id);
}.

Record ReadyChunkTaskKey := mkReadyChunkTaskKey {
  rtk_priority_inverse : Z; rtk_eligible_at_ms : Z; rtk_partition_id : ChunkId; rtk_kind : Z; rtk_task_id : ChunkId }.

#[export] Instance ReadyChunkTaskKey_binary : BinaryKey ReadyChunkTaskKey := {
  TYPE_TAG := 19;
  encode_to k out :=
    let out := encode_scope (encode_header out 19) (rtk_partition_id k) in
    let out := encode_u64 (encode_u8 out (rtk_priority_inverse k)) (rtk_eligible_at_ms k) in
    encode_chunk_id (encode_u16 (encode_chunk_id out (rtk_partition_id k)) (rtk_kind k)) (rtk_task_id k);
  decode buf :=
    let? fields := decode_header buf 19 in
    let? (priority_inverse, o) := decode_u8 fields 3 in
    let? (eligible_at_ms, o) := decode_u64 fields o in
    let? (partition_id, o) := decode_chunk_id fields o in
    let? (kind, o) := decode_u16 fields o in
    let? (task_id, o) := decode_chunk_id fields o in
    let? _ := check_exact fields o in
    let? _ := check_scope fields partition_id in
    Ok (mkReadyChunkTaskKey priority_inverse eligible_at_ms partition_id kind task_id);
}.

Record FinalizeChunkTaskKey := mkFinalizeChunkTaskKey {
  ftk_expires_at_ms : Z; ftk_partition_id : ChunkId; ftk_task_id : ChunkId }.

#[export] Instance FinalizeChunkTaskKey_binary : BinaryKey FinalizeChunkTaskKey := {
  TYPE_TAG := 21;
  encode_to k out :=
    let out := encode_scope (encode_header out 21) (ftk_partition_id k) in
    encode_chunk_id (encode_chunk_id (encode_u64 out (ftk_expires_at_ms k)) (ftk_partition_id k)) (ftk_task_id k);
  decode buf :=
    let? fields := decode_header buf 21 in
    let? (expires_at_ms, o) := decode_u64 fields 3 in
    let? (partition_id, o) := decode_chunk_id fields o in
    let? (task_id, o) := decode_chunk_id fields o in
    let? _ := check_exact fields o in
    let? _ := check_scope fields partition_id in
    Ok (mkFinalizeChunkTaskKey expires_at_ms partition_id task_id);
}.

Record LeasedChunkTaskKey := mkLeasedChunkTaskKey {
  ltk_lease_deadline_ms : Z; ltk_partition_id : ChunkId; ltk_kind : Z; ltk_task_id : ChunkId }.

#[export] Instance LeasedChunkTaskKey_binary : BinaryKey LeasedChunkTaskKey := {
  TYPE_TAG := 20;
  encode_to k out :=
    let out := encode_scope (encode_header out 20) (ltk_partition_id k) in
    let out := encode_chunk_id (encode_u64 out (ltk_lease_deadline_ms k)) (ltk_partition_id k) in
    encode_chunk_id (encode_u16 out (ltk_kind k)) (ltk_task_id k);
  decode buf :=
    let? fields := decode_header buf 20 in
    let? (lease_deadline_ms, o) := decode_u64 fields 3 in
    let? (partition_id, o) := decode_chunk_id fields o in
    let? (kind, o) := decode_u16 fields o in
    let? (task_id, o) := decode_chunk_id fields o in
    let? _ := check_exact fields o in
    let? _ := check_scope fields partition_id in
    Ok (mkLeasedChunkTaskKey lease_deadline_ms partition_id kind task_id);
}.
End tasks.

(** ** All kinds together *)

Inductive kind :=
| RackKind
| NodeKind
| DiskGroupKind
| DiskKind
| ZoneKind
| BusyBlockKind
| FreeBlockKind
| OwnerMapKind
| BindMapKind
| InstanceKind
| DiskGroupUsageKind
| RecoveryScanProgressKind
| TentativeOwnerGraceKind
| RelocationJournalKind
| ChunkTaskKind
| ReadyChunkTaskKind
| FinalizeChunkTaskKind
| LeasedChunkTaskKind
| StreamRecordKind
| StreamChunkRecordKind.

#[export] Instance kind_eq_dec : EqDecision kind.
Proof. solve_decision. Defined.

Inductive AnyKey :=
| KRack (k : RackKey)
| KNode (k : NodeKey)
| KDiskGroup (k : DiskGroupKey)
| KDisk (k : DiskKey)
| KZone (k : ZoneKey)
| KBusyBlock (k : BusyBlockKey)
| KFreeBlock (k : FreeBlockKey)
| KOwnerMap (k : OwnerMapKey)
| KBindMap (k : BindMapKey)
| KInstance (k : InstanceKey)
| KDiskGroupUsage (k : DiskGroupUsageKey)
| KRecoveryScanProgress (k : RecoveryScanProgressKey)
| KTentativeOwnerGrace (k : TentativeOwnerGraceKey)
| KRelocationJournal (k : RelocationJournalKey)
| KChunkTask (k : ChunkTaskKey)
| KReadyChunkTask (k : ReadyChunkTaskKey)
| KFinalizeChunkTask (k : FinalizeChunkTaskKey)
| KLeasedChunkTask (k : LeasedChunkTaskKey)
| KStreamRecord (k : StreamRecordKey)
| KStreamChunkRecord (k : StreamChunkRecordKey).

Definition kind_of (k : AnyKey) : kind :=
  match k with
  | KRack _ => RackKind
  | KNode _ => NodeKind
  | KDiskGroup _ => DiskGroupKind
  | KDisk _ => DiskKind
  | KZone _ => ZoneKind
  | KBusyBlock _ => BusyBlockKind
  | KFreeBlock _ => FreeBlockKind
  | KOwnerMap _ => OwnerMapKind
  | KBindMap _ => BindMapKind
  | KInstance _ => InstanceKind
  | KDiskGroupUsage _ => DiskGroupUsageKind
  | KRecoveryScanProgress _ => RecoveryScanProgressKind
  | KTentativeOwnerGrace _ => TentativeOwnerGraceKind
  | KRelocationJournal _ => RelocationJournalKind
  | KChunkTask _ => ChunkTaskKind
  | KReadyChunkTask _ => ReadyChunkTaskKind
  | KFinalizeChunkTask _ => FinalizeChunkTaskKind
  | KLeasedChunkTask _ => LeasedChunkTaskKind
  | KStreamRecord _ => StreamRecordKind
  | KStreamChunkRecord _ => StreamChunkRecordKind
  end.

Section any.
Context `{Xxh64}.

Definition tag_of (kd : kind) : Z :=
  match kd with
  | RackKind => TYPE_TAG RackKey
  | NodeKind => TYPE_TAG NodeKey
  | DiskGroupKind => TYPE_TAG DiskGroupKey
  | DiskKind => TYPE_TAG DiskKey
  | ZoneKind => TYPE_TAG ZoneKey
  | BusyBlockKind => TYPE_TAG BusyBlockKey
  | FreeBlockKind => TYPE_TAG FreeBlockKey
  | OwnerMapKind => TYPE_TAG OwnerMapKey
  | BindMapKind => TYPE_TAG BindMapKey
  | InstanceKind => TYPE_TAG InstanceKey
  | DiskGroupUsageKind => TYPE_TAG DiskGroupUsageKey
  | RecoveryScanProgressKind => TYPE_TAG RecoveryScanProgressKey
  | TentativeOwnerGraceKind => TYPE_TAG TentativeOwnerGraceKey
  | RelocationJournalKind => TYPE_TAG RelocationJournalKey
  | ChunkTaskKind => TYPE_TAG ChunkTaskKey
  | ReadyChunkTaskKind => TYPE_TAG ReadyChunkTaskKey
  | FinalizeChunkTaskKind => TYPE_TAG FinalizeChunkTaskKey
  | LeasedChunkTaskKind => TYPE_TAG LeasedChunkTaskKey
  | StreamRecordKind => TYPE_TAG StreamRecordKey
  | StreamChunkRecordKind => TYPE_TAG StreamChunkRecordKey
  end.

Definition any_to_bytes (k : AnyKey) : bytes :=
  match k with
  | KRack k => to_bytes k
  | KNode k => to_bytes k
  | KDiskGroup k => to_bytes k
  | KDisk k => to_bytes k
  | KZone k => to_bytes k
  | KBusyBlock k => to_bytes k
  | KFreeBlock k => to_bytes k
  | KOwnerMap k => to_bytes k
  | KBindMap k => to_bytes k
  | KInstance k => to_bytes k
  | KDiskGroupUsage k => to_bytes k
  | KRecoveryScanProgress k => to_bytes k
  | KTentativeOwnerGrace k => to_bytes k
  | KRelocationJournal k => to_bytes k
  | KChunkTask k => to_bytes k
  | KReadyChunkTask k => to_bytes k
  | KFinalizeChunkTask k => to_bytes k
  | KLeasedChunkTask k => to_bytes k
  | KStreamRecord k => to_bytes k
  | KStreamChunkRecord k => to_bytes k
  end.

Definition decode_as (kd : kind) (buf : bytes) : result AnyKey KeyError :=
  match kd with
  | RackKind => let? k := from_bytes buf in Ok (KRack k)
  | NodeKind => let? k := from_bytes buf in Ok (KNode k)
  | DiskGroupKind => let? k := from_bytes buf in Ok (KDiskGroup k)
  | DiskKind => let? k := from_bytes buf in Ok (KDisk k)
  | ZoneKind => let? k := from_bytes buf in Ok (KZone k)
  | BusyBlockKind => let? k := from_bytes buf in Ok (KBusyBlock k)
  | FreeBlockKind => let? k := from_bytes buf in Ok (KFreeBlock k)
  | OwnerMapKind => let? k := from_bytes buf in Ok (KOwnerMap k)
  | BindMapKind => let? k := from_bytes buf in Ok (KBindMap k)
  | InstanceKind => let? k := from_bytes buf in Ok (KInstance k)
  | DiskGroupUsageKind => let? k := from_bytes buf in Ok (KDiskGroupUsage k)
  | RecoveryScanProgressKind => let? k := from_bytes buf in Ok (KRecoveryScanProgress k)
  | TentativeOwnerGraceKind => let? k := from_bytes buf in Ok (KTentativeOwnerGrace k)
  | RelocationJournalKind => let? k := from_bytes buf in Ok (KRelocationJournal k)
  | ChunkTaskKind => let? k := from_bytes buf in Ok (KChunkTask k)
  | ReadyChunkTaskKind => let? k := from_bytes buf in Ok (KReadyChunkTask k)
  | FinalizeChunkTaskKind => let? k := from_bytes buf in Ok (KFinalizeChunkTask k)
  | LeasedChunkTaskKind => let? k := from_bytes buf in Ok (KLeasedChunkTask k)
  | StreamRecordKind => let? k := from_bytes buf in Ok (KStreamRecord k)
  | StreamChunkRecordKind => let? k := from_bytes buf in Ok (KStreamChunkRecord k)
  end.

(** The fields of a key in the order of its layout. *)
Definition u64 (v : Z) : field := (8%nat, v).
Definition disk_fields (d : DiskId) : list field := [u64 (disk_high d); u64 (disk_low d)].
Definition chunk_fields (c : ChunkId) : list field := [u64 (chunk_high c); u64 (chunk_low c)].
Definition scope_fields (c : ChunkId) : list field :=
  [(1%nat, match domain_for_chunk c with Some d => domain_as_u8 d | None => 0 end); (2%nat, slot_for_chunk c)].

Definition fields_of (k : AnyKey) : list field :=
  match k with
  | KRack k => [u64 (rk_rack_id k)]
  | KNode k => [u64 (nk_rack_id k); u64 (nk_node_id k)]
  | KDiskGroup k => [u64 (dgk_rack_id k); u64 (dgk_node_id k); u64 (dgk_disk_group_id k)]
  | KDisk k => [u64 (dk_rack_id k); u64 (dk_node_id k); u64 (dk_disk_group_id k)] ++ disk_fields (dk_disk_id k)
  | KZone k => disk_fields (zk_disk_id k) ++ [(4%nat, zk_zone_index k)]
  | KBusyBlock k => disk_fields (bbk_disk_id k) ++ [(4%nat, bbk_zone_index k); u64 (bbk_unit_offset k)]
  | KFreeBlock k =>
      disk_fields (fbk_disk_id k) ++ [(4%nat, fbk_zone_index k); u64 (fbk_unit_offset k); u64 (fbk_allocation_ts k)]
  | KOwnerMap k => [u64 (omk_rack_id k); u64 (omk_node_id k); u64 (omk_disk_group_id k)]
  | KBindMap k => [u64 (bmk_rack_id k); u64 (bmk_node_id k); u64 (bmk_disk_group_id k)]
  | KInstance k =>
      (4%nat, sat_u32 (length (ik_service k))) :: ((fun b => (1%nat, b)) <$> ik_service k) ++ [u64 (ik_instance_id k)]
  | KDiskGroupUsage k => [u64 (dguk_disk_group_id k)]
  | KRecoveryScanProgress k => disk_fields (rspk_disk_id k)
  | KTentativeOwnerGrace k =>
      disk_fields (togk_disk_id k) ++ [(4%nat, togk_zone_index k); u64 (togk_unit_offset k); u64 (togk_allocation_ts k)]
  | KRelocationJournal k =>
      disk_fields (rjk_disk_id k) ++ [(4%nat, rjk_zone_index k); u64 (rjk_unit_offset k); u64 (rjk_allocation_ts k)]
  | KChunkTask k => chunk_fields (ctk_partition_id k) ++ (2%nat, ctk_kind k) :: chunk_fields (ctk_task_id k)
  | KReadyChunkTask k =>
      scope_fields (rtk_partition_id k) ++ [(1%nat, rtk_priority_inverse k); u64 (rtk_eligible_at_ms k)] ++
      chunk_fields (rtk_partition_id k) ++ (2%nat, rtk_kind k) :: chunk_fields (rtk_task_id k)
  | KFinalizeChunkTask k =>
      scope_fields (ftk_partition_id k) ++ u64 (ftk_expires_at_ms k) ::
      chunk_fields (ftk_partition_id k) ++ chunk_fields (ftk_task_id k)
  | KLeasedChunkTask k =>
      scope_fields (ltk_partition_id k) ++ u64 (ltk_lease_deadline_ms k) ::
      chunk_fields (ltk_partition_id k) ++ (2%nat, ltk_kind k) :: chunk_fields (ltk_task_id k)
  | KStreamRecord k => [u64 (stream_high (srk_stream_name k)); u64 (stream_low (srk_stream_name k))]
  | KStreamChunkRecord k =>
      let '(kind, value) := match scrk_order k with Attached v => (0, v) | Candidate v => (1, v) end in
      [u64 (stream_high (scrk_stream_id k)); u64 (stream_low (scrk_stream_id k)); (1%nat, kind); u64 value]
  end.

(** The values the Rust types can hold: every integer in its width; a service
    name is UTF-8 and shorter than 4 GiB. *)
Definition key_ok (k : AnyKey) : Prop :=
  Forall in_range (fields_of k) /\
  match k with
  | KInstance k => valid_utf8 (ik_service k) = true /\ Z.of_nat (length (ik_service k)) < 2 ^ 32
  | _ => True
  end.

Lemma tag_range kd : 0 <= tag_of kd < 65536.
Proof. by destruct kd. Qed.

Lemma tag_inj kd kd' : tag_of kd = tag_of kd' -> kd = kd'.
Proof. by destruct kd, kd'. Qed.

Lemma single_byte b : 0 <= b < 256 -> to_be_bytes 1 b = [b].
Proof. intros Hb. unfold to_be_bytes. cbn. by rewrite Z.mod_small. Qed.

Lemma service_body l : Forall is_byte l -> body ((fun b => (1%nat, b)) <$> l) = l.
Proof.
  induction 1 as [|b l Hb _ IH]; [done|]. cbn [fmap list_fmap]. rewrite body_cons, single_byte, IH by done. done.
Qed.

Ltac flatten_frame :=
  unfold to_bytes, encode_scope, encode_disk_id, encode_chunk_id, encode_u64, encode_u32, encode_u16, encode_u8,
    encode_header, stream_prefix, frame, disk_fields, chunk_fields, scope_fields, u64;
  cbn [app]; rewrite ?body_cons, ?app_nil_l, <- ?app_assoc; cbn [app]; rewrite ?body_cons; change (body []) with (@nil Z);
  rewrite ?app_nil_r.

Lemma domain_byte id : 0 <= match domain_for_chunk id with Some d => domain_as_u8 d | None => 0 end < 256.
Proof. destruct (domain_for_chunk id) as [[]|]; simpl; lia. Qed.

Lemma slot_range id : 0 <= slot_for_chunk id < 1024.
Proof. apply Z.mod_pos_bound. done. Qed.

Lemma scope_in_range id : Forall in_range (scope_fields id).
Proof.
  pose proof (domain_byte id). pose proof (slot_range id). unfold scope_fields, in_range. repeat constructor; simpl;
    change (width 1) with 256; change (width 2) with 65536; lia.
Qed.

Lemma any_frame k : key_ok k -> any_to_bytes k = frame (tag_of (kind_of k)) (fields_of k).
Proof.
  intros [Hr Hx].
  destruct k; try (unfold fields_of; cbn [any_to_bytes kind_of tag_of TYPE_TAG]; cbn [encode_to]; flatten_frame; reflexivity).
  - unfold fields_of in *. apply Forall_cons in Hr as [_ Hr]. apply Forall_app in Hr as [Hr _]. rewrite Forall_fmap in Hr.
    cbn [any_to_bytes kind_of tag_of TYPE_TAG]. cbn [encode_to]. flatten_frame. rewrite body_app, service_body by exact Hr.
    rewrite body_cons. change (body []) with (@nil Z). by rewrite app_nil_r.
  - assert (Hp : 0 <= rtk_priority_inverse k < 256).
    { unfold fields_of in Hr. apply Forall_app in Hr as [_ Hr]. by apply Forall_cons in Hr as [Hr _]. }
    unfold fields_of. cbn [any_to_bytes kind_of tag_of TYPE_TAG]. cbn [encode_to]. flatten_frame.
    by rewrite !single_byte by (done || apply domain_byte).
  - unfold fields_of. cbn [any_to_bytes kind_of tag_of TYPE_TAG]. cbn [encode_to]. flatten_frame.
    by rewrite !single_byte by apply domain_byte.
  - unfold fields_of. cbn [any_to_bytes kind_of tag_of TYPE_TAG]. cbn [encode_to]. flatten_frame.
    by rewrite !single_byte by apply domain_byte.
  - destruct k as [id [v|v]]; unfold fields_of; cbn [any_to_bytes kind_of tag_of TYPE_TAG scrk_order scrk_stream_id];
      unfold to_bytes, encode_to, StreamChunkRecordKey_binary; cbn [scrk_order scrk_stream_id]; flatten_frame; reflexivity.
Qed.

(** ** Decoding *)

Lemma decode_u8_uint buf o : decode_u8 buf o = decode_uint 1 buf o.
Proof.
  unfold decode_u8, decode_uint. destruct (Nat.ltb_spec (length buf) (o + 1)).
  - by rewrite (proj2 (lookup_ge_None buf o)) by lia.
  - destruct (lookup_lt_is_Some_2 buf o) as [x Hx]; [lia|]. rewrite Hx. cbn [ok_or result_bind]. do 2 f_equal.
    unfold slice. rewrite (drop_S _ _ _ Hx). change (x = from_be_bytes [x]). unfold from_be_bytes. cbn. lia.
Qed.

(** Follow a decoder and its layout through the same reads. *)
Ltac same_reads :=
  unfold from_bytes, decode, decode_layout, decode_disk_id, decode_chunk_id, decode_u64, decode_u32, decode_u16;
  cbn [read_fields];
  destruct (decode_header _ _) as [fields|e]; [|reflexivity]; cbn [result_bind]; rewrite ?decode_u8_uint;
  repeat (match goal with
          | |- context [decode_uint ?n ?f ?o] => destruct (decode_uint n f o) as [[? ?]|?]
          end; cbn [result_bind]; try reflexivity);
  try (destruct (check_exact _ _); cbn [result_bind]; reflexivity).

Lemma layout_Rack buf : @from_bytes RackKey _ buf =
  decode_layout 2 0 [8]%nat (fun _ vs => match vs with [a] => Ok (mkRackKey a) | _ => Err ShortInput end) buf.
Proof. cbv [RackKey_binary]. same_reads. Qed.

Lemma layout_Node buf : @from_bytes NodeKey _ buf =
  decode_layout 1 0 [8; 8]%nat (fun _ vs => match vs with [a; b] => Ok (mkNodeKey a b) | _ => Err ShortInput end) buf.
Proof. cbv [NodeKey_binary]. same_reads. Qed.

Lemma layout_DiskGroup buf : @from_bytes DiskGroupKey _ buf =
  decode_layout 3 0 [8; 8; 8]%nat (fun _ vs => match vs with [a; b; c] => Ok (mkDiskGroupKey a b c) | _ => Err ShortInput end) buf.
Proof. cbv [DiskGroupKey_binary]. same_reads. Qed.

Lemma layout_Disk buf : @from_bytes DiskKey _ buf =
  decode_layout 4 0 [8; 8; 8; 8; 8]%nat (fun _ vs => match vs with [a; b; c; d; e] => Ok (mkDiskKey a b c (mkDiskId d e)) | _ => Err ShortInput end) buf.
Proof. cbv [DiskKey_binary]. same_reads. Qed.

Lemma layout_Zone buf : @from_bytes ZoneKey _ buf =
  decode_layout 5 0 [8; 8; 4]%nat (fun _ vs => match vs with [a; b; c] => Ok (mkZoneKey (mkDiskId a b) c) | _ => Err ShortInput end) buf.
Proof. cbv [ZoneKey_binary]. same_reads. Qed.

Lemma layout_BusyBlock buf : @from_bytes BusyBlockKey _ buf =
  decode_layout 6 0 [8; 8; 4; 8]%nat (fun _ vs => match vs with [a; b; c; d] => Ok (mkBusyBlockKey (mkDiskId a b) c d) | _ => Err ShortInput end) buf.
Proof. cbv [BusyBlockKey_binary]. same_reads. Qed.

Lemma layout_FreeBlock buf : @from_bytes FreeBlockKey _ buf =
  decode_layout 7 0 [8; 8; 4; 8; 8]%nat (fun _ vs => match vs with [a; b; c; d; e] => Ok (mkFreeBlockKey (mkDiskId a b) c d e) | _ => Err ShortInput end) buf.
Proof. cbv [FreeBlockKey_binary]. same_reads. Qed.

Lemma layout_OwnerMap buf : @from_bytes OwnerMapKey _ buf =
  decode_layout 8 0 [8; 8; 8]%nat (fun _ vs => match vs with [a; b; c] => Ok (mkOwnerMapKey a b c) | _ => Err ShortInput end) buf.
Proof. cbv [OwnerMapKey_binary]. same_reads. Qed.

Lemma layout_BindMap buf : @from_bytes BindMapKey _ buf =
  decode_layout 9 0 [8; 8; 8]%nat (fun _ vs => match vs with [a; b; c] => Ok (mkBindMapKey a b c) | _ => Err ShortInput end) buf.
Proof. cbv [BindMapKey_binary]. same_reads. Qed.

Lemma layout_DiskGroupUsage buf : @from_bytes DiskGroupUsageKey _ buf =
  decode_layout 11 0 [8]%nat (fun _ vs => match vs with [a] => Ok (mkDiskGroupUsageKey a) | _ => Err ShortInput end) buf.
Proof. cbv [DiskGroupUsageKey_binary]. same_reads. Qed.

Lemma layout_RecoveryScanProgress buf : @from_bytes RecoveryScanProgressKey _ buf =
  decode_layout 12 0 [8; 8]%nat (fun _ vs => match vs with [a; b] => Ok (mkRecoveryScanProgressKey (mkDiskId a b)) | _ => Err ShortInput end) buf.
Proof. cbv [RecoveryScanProgressKey_binary]. same_reads. Qed.

Lemma layout_TentativeOwnerGrace buf : @from_bytes TentativeOwnerGraceKey _ buf =
  decode_layout 32 0 [8; 8; 4; 8; 8]%nat (fun _ vs => match vs with [a; b; c; d; e] => Ok (mkTentativeOwnerGraceKey (mkDiskId a b) c d e) | _ => Err ShortInput end) buf.
Proof. cbv [TentativeOwnerGraceKey_binary]. same_reads. Qed.

Lemma layout_RelocationJournal buf : @from_bytes RelocationJournalKey _ buf =
  decode_layout 33 0 [8; 8; 4; 8; 8]%nat (fun _ vs => match vs with [a; b; c; d; e] => Ok (mkRelocationJournalKey (mkDiskId a b) c d e) | _ => Err ShortInput end) buf.
Proof. cbv [RelocationJournalKey_binary]. same_reads. Qed.

Lemma layout_ChunkTask buf : @from_bytes ChunkTaskKey _ buf =
  decode_layout 13 0 [8; 8; 2; 8; 8]%nat (fun _ vs => match vs with [a; b; c; d; e] => Ok (mkChunkTaskKey (mkChunkId a b) c (mkChunkId d e)) | _ => Err ShortInput end) buf.
Proof. cbv [ChunkTaskKey_binary]. same_reads. Qed.

Lemma layout_StreamRecord buf : @from_bytes StreamRecordKey _ buf =
  decode_layout 29 0 [8; 8]%nat (fun _ vs => match vs with [a; b] => Ok (mkStreamRecordKey (mkStreamName a b)) | _ => Err ShortInput end) buf.
Proof. cbv [StreamRecordKey_binary]. same_reads. Qed.

Lemma layout_StreamChunkRecord buf : @from_bytes StreamChunkRecordKey _ buf =
  decode_layout 28 0 [8; 8; 1; 8]%nat
    (fun _ vs => match vs with
                 | [a; b; kind; v] =>
                     let? order := (if kind =? 0 then Ok (Attached v) else if kind =? 1 then Ok (Candidate v) else Err BadTag) in
                     Ok (mkStreamChunkRecordKey (mkStreamName a b) order)
                 | _ => Err ShortInput end) buf.
Proof.
  cbv [StreamChunkRecordKey_binary]. unfold from_bytes, decode.
  assert (E : forall A fields o (f : Z -> nat -> result A KeyError),
    (let? kind := ok_or (fields !! o) ShortInput in f kind (o + 1)%nat) = (let? (kind, o) := decode_uint 1 fields o in f kind o)).
  { intros A fields o f. rewrite <- decode_u8_uint. unfold decode_u8. by destruct (fields !! o). }
  unfold decode_layout, decode_u64. destruct (decode_header _ _) as [fields|e]; [|reflexivity]. cbn [result_bind read_fields].
  destruct (decode_uint 8 fields 0) as [[a o]|]; [|reflexivity]. cbn [result_bind].
  destruct (decode_uint 8 fields o) as [[b o']|]; [|reflexivity]. cbn [result_bind].
  rewrite (E _ fields o' (fun kind o => let? (value, o) := decode_uint 8 fields o in
    let? _ := check_exact fields o in
    let? order := (if kind =? 0 then Ok (Attached value) else if kind =? 1 then Ok (Candidate value) else Err BadTag) in
    Ok (mkStreamChunkRecordKey (mkStreamName a b) order))).
  destruct (decode_uint 1 fields o') as [[kd o1]|]; [|reflexivity]. cbn [result_bind].
  destruct (decode_uint 8 fields o1) as [[v o2]|]; [|reflexivity]. cbn [result_bind].
  destruct (check_exact _ _); reflexivity.
Qed.

Lemma layout_ReadyChunkTask buf : @from_bytes ReadyChunkTaskKey _ buf =
  decode_layout 19 3 [1; 8; 8; 8; 2; 8; 8]%nat
    (fun fields vs => match vs with
                 | [p; t; a; b; kd; c; d] =>
                     let? _ := check_scope fields (mkChunkId a b) in
                     Ok (mkReadyChunkTaskKey p t (mkChunkId a b) kd (mkChunkId c d))
                 | _ => Err ShortInput end) buf.
Proof. cbv [ReadyChunkTaskKey_binary]. same_reads. Qed.

Lemma layout_FinalizeChunkTask buf : @from_bytes FinalizeChunkTaskKey _ buf =
  decode_layout 21 3 [8; 8; 8; 8; 8]%nat
    (fun fields vs => match vs with
                 | [t; a; b; c; d] =>
                     let? _ := check_scope fields (mkChunkId a b) in
                     Ok (mkFinalizeChunkTaskKey t (mkChunkId a b) (mkChunkId c d))
                 | _ => Err ShortInput end) buf.
Proof. cbv [FinalizeChunkTaskKey_binary]. same_reads. Qed.

Lemma layout_LeasedChunkTask buf : @from_bytes LeasedChunkTaskKey _ buf =
  decode_layout 20 3 [8; 8; 8; 2; 8; 8]%nat
    (fun fields vs => match vs with
                 | [t; a; b; kd; c; d] =>
                     let? _ := check_scope fields (mkChunkId a b) in
                     Ok (mkLeasedChunkTaskKey t (mkChunkId a b) kd (mkChunkId c d))
                 | _ => Err ShortInput end) buf.
Proof. cbv [LeasedChunkTaskKey_binary]. same_reads. Qed.

(** ** Round trips *)

Lemma scope_body id fs : Forall in_range fs -> body (scope_fields id ++ fs) = encode_scope [] id ++ body fs.
Proof.
  intros _. rewrite body_app. f_equal. unfold scope_fields, encode_scope, encode_u16, encode_u8.
  rewrite !body_cons. change (body []) with (@nil Z). rewrite app_nil_r. by rewrite single_byte by apply domain_byte.
Qed.

Lemma scope_length id : length (encode_scope [] id) = 3%nat.
Proof. unfold encode_scope, encode_u16, encode_u8. by rewrite length_app, to_be_bytes_length. Qed.

Lemma scope_body_length id : length (body (scope_fields id)) = 3%nat.
Proof. rewrite <- (app_nil_r (scope_fields id)), scope_body by constructor. change (body []) with (@nil Z). by rewrite app_nil_r, scope_length. Qed.

Lemma check_scope_ok id fs : Forall in_range fs -> check_scope (body (scope_fields id ++ fs)) id = Ok ().
Proof.
  intros Hr. unfold check_scope. rewrite scope_body by done. pose proof (scope_length id) as Hl.
  rewrite (proj2 (Nat.ltb_ge _ _)) by (rewrite length_app; lia).
  rewrite take_app_length' by done. by rewrite bool_decide_eq_true_2.
Qed.

Lemma check_scope_inv d s fs id : in_range (1%nat, d) -> in_range (2%nat, s) ->
  check_scope (body ((1%nat, d) :: (2%nat, s) :: fs)) id = Ok () -> [(1%nat, d); (2%nat, s)] = scope_fields id.
Proof.
  intros Hd Hs. unfold check_scope. destruct (_ || _) eqn:E; [done|]. intros _.
  apply orb_false_iff in E as [_ E]. apply negb_false_iff, bool_decide_eq_true in E.
  rewrite !body_cons, single_byte in E by done. unfold encode_scope, encode_u16, encode_u8 in E.
  pose proof (to_be_bytes_length 2 s) as Hl. cbn [app take] in E. rewrite take_app_length' in E by done.
  pose proof (f_equal (List.hd 0) E) as E1. pose proof (f_equal (@List.tl Z) E) as E2. cbn [List.hd List.tl] in E1, E2.
  apply be_inj in E2; [|done|pose proof (slot_range id); change (width 2) with 65536; lia].
  unfold scope_fields. congruence.
Qed.

Ltac encode_regular layout :=
  rewrite any_frame by done; unfold decode_as; cbn [kind_of]; rewrite layout;
  match goal with Hr : Forall in_range ?fs |- result_bind (decode_layout ?t ?o ?w ?f _) _ = Ok (_ ?k) =>
    let E := fresh in
    assert (E : decode_layout t o w f (frame t ([] ++ fs)) = Ok k)
      by (apply layout_ok; [done|exact Hr|reflexivity|reflexivity|reflexivity]);
    change (frame (tag_of _) fs) with (frame t ([] ++ fs)); rewrite E
  end; reflexivity.

Ltac encode_scoped layout id :=
  rewrite any_frame by done; unfold decode_as; cbn [kind_of]; rewrite layout;
  match goal with Hr : Forall in_range ?fs |- result_bind (decode_layout ?t ?o ?w ?f _) _ = Ok (_ ?k) =>
    let E := fresh in
    assert (E : decode_layout t o w f (frame t (scope_fields id ++ drop 2 fs)) = Ok k);
    [apply layout_ok;
      [done|by apply (Forall_drop _ 2) in Hr|apply scope_body_length|reflexivity|
       apply (Forall_drop _ 2) in Hr; pose proof (check_scope_ok id _ Hr) as Hsc; revert Hsc;
       generalize (body (scope_fields id ++ drop 2 fs)); intros ? Hsc; cbn; rewrite Hsc; reflexivity]
    |change (frame (tag_of _) fs) with (frame t (scope_fields id ++ drop 2 fs)); rewrite E]
  end; reflexivity.

Lemma instance_roundtrip k : key_ok (KInstance k) -> from_bytes (to_bytes k) = Ok k.
Proof.
  intros Hk. pose proof (any_frame _ Hk) as E. cbn [any_to_bytes] in E. destruct Hk as [Hr [Hu Hl]].
  destruct k as [sv id]. cbn [ik_service ik_instance_id] in *. unfold fields_of in Hr. cbn [ik_service ik_instance_id] in Hr.
  apply Forall_cons in Hr as [Hlen Hr]. apply Forall_app in Hr as [Hsv Hid]. rewrite Forall_fmap in Hsv.
  apply Forall_cons in Hid as [Hid _].
  rewrite E. unfold fields_of, frame, u64. cbn [ik_service ik_instance_id]. rewrite body_cons, body_app, service_body by exact Hsv.
  rewrite body_cons. change (body []) with (@nil Z). rewrite app_nil_r.
  cbn [from_bytes decode InstanceKey_binary kind_of tag_of TYPE_TAG]. rewrite decode_header_ok by done. cbn [result_bind].
  assert (Hs : sat_u32 (length sv) = Z.of_nat (length sv)) by (unfold sat_u32; lia). rewrite Hs in *.
  pose proof (to_be_bytes_length 4 (Z.of_nat (length sv))) as L4. pose proof (to_be_bytes_length 8 id) as L8.
  unfold decode_u32, decode_u64. unfold decode_uint at 1.
  rewrite (proj2 (Nat.ltb_ge _ _)) by (rewrite !length_app; lia). rewrite slice_hit by done. rewrite from_to_be by done.
  cbn [result_bind]. rewrite Nat2Z.id. change (0 + 4)%nat with 4%nat.
  rewrite (proj2 (Nat.ltb_ge _ _)) by (rewrite !length_app; lia).
  rewrite (slice_at (to_be_bytes 4 (Z.of_nat (length sv))) sv (to_be_bytes 8 id) 4 (length sv)) by done.
  rewrite Hu. cbn [negb]. unfold decode_uint. rewrite (proj2 (Nat.ltb_ge _ _)) by (rewrite !length_app; lia).
  rewrite <- (app_nil_r (to_be_bytes 8 id)), app_assoc. rewrite (slice_at (to_be_bytes 4 (Z.of_nat (length sv)) ++ sv) (to_be_bytes 8 id) [])
    by (rewrite ?length_app; lia).
  rewrite from_to_be by done. cbn [result_bind]. unfold check_exact. rewrite (proj2 (Nat.eqb_eq _ _)) by (rewrite !length_app; simpl; lia).
  done.
Qed.

Lemma any_roundtrip k : key_ok k -> decode_as (kind_of k) (any_to_bytes k) = Ok k.
Proof.
  intros Hk. pose proof (proj1 Hk) as Hr. destruct k as [k|k|k|k|k|k|k|k|k|k|k|k|k|k|k|k|k|k|k|k].
  - destruct k as []. encode_regular layout_Rack.
  - destruct k as []. encode_regular layout_Node.
  - destruct k as []. encode_regular layout_DiskGroup.
  - destruct k as [? ? ? []]. encode_regular layout_Disk.
  - destruct k as [[] ?]. encode_regular layout_Zone.
  - destruct k as [[] ? ?]. encode_regular layout_BusyBlock.
  - destruct k as [[] ? ? ?]. encode_regular layout_FreeBlock.
  - destruct k as []. encode_regular layout_OwnerMap.
  - destruct k as []. encode_regular layout_BindMap.
  - unfold decode_as. cbn [kind_of any_to_bytes]. by rewrite instance_roundtrip.
  - destruct k as []. encode_regular layout_DiskGroupUsage.
  - destruct k as [[]]. encode_regular layout_RecoveryScanProgress.
  - destruct k as [[] ? ? ?]. encode_regular layout_TentativeOwnerGrace.
  - destruct k as [[] ? ? ?]. encode_regular layout_RelocationJournal.
  - destruct k as [[] ? []]. encode_regular layout_ChunkTask.
  - destruct k as [? ? [a b] ? []]. encode_scoped layout_ReadyChunkTask (mkChunkId a b).
  - destruct k as [? [a b] []]. encode_scoped layout_FinalizeChunkTask (mkChunkId a b).
  - destruct k as [? [a b] ? []]. encode_scoped layout_LeasedChunkTask (mkChunkId a b).
  - destruct k as [[]]. encode_regular layout_StreamRecord.
  - destruct k as [[] [v|v]]; encode_regular layout_StreamChunkRecord.
Qed.

(** ** What decodes is an encoding *)

Lemma sound_from_frame kd k fs : kind_of k = kd -> fields_of k = fs -> Forall in_range fs ->
  match k with
  | KInstance k => valid_utf8 (ik_service k) = true /\ Z.of_nat (length (ik_service k)) < 2 ^ 32
  | _ => True
  end ->
  kind_of k = kd /\ key_ok k /\ any_to_bytes k = frame (tag_of kd) fs.
Proof. intros <- <- Hr Hx. assert (Hk : key_ok k) by (by split). by rewrite any_frame. Qed.

Ltac list_of_length :=
  repeat match goal with
         | Hl : _ = length ?vs |- _ => is_var vs; destruct vs as [|? ?]; simpl in Hl; try discriminate Hl
         | Hl : S _ = S _ |- _ => apply eq_add_S in Hl
         end.

Ltac open_layout layout :=
  unfold decode_as; rewrite layout;
  let x := fresh "x" in let E := fresh "E" in
  lazymatch goal with |- result_bind ?r _ = _ -> _ => destruct r as [x|] eqn:E end; [|done];
  cbn [result_bind]; intros [= <-]; revert E.

Ltac sound_regular layout :=
  open_layout layout; intros (vs & Hl & Hr & -> & Hf)%layout_inv0; [|done]; list_of_length.

Ltac sound_scoped layout :=
  let dm := fresh "dm" in let sl := fresh "sl" in let vs := fresh "vs" in let Hl := fresh "Hl" in
  let Hr := fresh "Hr" in let Hf := fresh "Hf" in let Hd := fresh "Hd" in let Hs := fresh "Hs" in
  let Es := fresh "Es" in open_layout layout; intros (dm & sl & vs & Hl & Hr & -> & Hf)%layout_inv3; [|done|done]; list_of_length;
  pose proof (Forall_inv Hr) as Hd; pose proof (Forall_inv (Forall_inv_tail Hr)) as Hs; revert Hf;
  match goal with |- context [check_scope ?f ?id] =>
    destruct (check_scope f id) as [[]|] eqn:Es; cbn [result_bind]; [|done]; revert Es
  end;
  intros Es%check_scope_inv; [|done|done]; intros [= <-]; revert Hr;
  match goal with |- Forall _ ((1%nat, ?d) :: (2%nat, ?s) :: ?r) -> _ =>
    change ((1%nat, d) :: (2%nat, s) :: r) with ([(1%nat, d); (2%nat, s)] ++ r)
  end; rewrite Es; intros Hr; apply sound_from_frame; [reflexivity|reflexivity|exact Hr|exact I].

Lemma instance_sound buf k : Forall is_byte buf -> from_bytes buf = Ok k ->
  key_ok (KInstance k) /\ to_bytes k = buf.
Proof.
  intros Hb. cbn [from_bytes decode InstanceKey_binary].
  destruct (decode_header buf 10) as [fields|] eqn:Eh; [|done]. cbn [result_bind].
  apply decode_header_inv in Eh as (-> & _ & Hf); [|done]. unfold decode_u32, decode_u64.
  destruct (decode_uint 4 fields 0) as [[len o]|] eqn:E4; [|done]. cbn [result_bind].
  apply decode_uint_inv in E4 as (-> & Hle & Hlen & Hs4); [|done]. change (0 + 4)%nat with 4%nat in *.
  destruct (Nat.ltb_spec (length fields) (4 + Z.to_nat len)) as [|Hl]; [done|].
  destruct (valid_utf8 (slice fields 4 (Z.to_nat len))) eqn:Eu; [|done]. cbn [negb].
  destruct (decode_uint 8 fields (4 + Z.to_nat len)) as [[id o]|] eqn:E8; [|done]. cbn [result_bind].
  apply decode_uint_inv in E8 as (-> & Hle8 & Hid & Hs8); [|done]. unfold check_exact.
  destruct (Nat.eqb_spec (4 + Z.to_nat len + 8) (length fields)) as [Ee|]; [|done]. cbn [result_bind]. intros [= <-].
  set (sv := slice fields 4 (Z.to_nat len)) in *.
  assert (Lsv : length sv = Z.to_nat len) by (apply slice_length; lia).
  assert (Hsv : Forall is_byte sv) by (by apply Forall_take, Forall_drop).
  assert (Hsat : sat_u32 (length sv) = len).
  { unfold sat_u32. rewrite Lsv. change (width 4) with (2 ^ 32) in Hlen. lia. }
  assert (Hk : key_ok (KInstance (mkInstanceKey sv id))).
  { split; [|cbn [ik_service]; split; [done|]; rewrite Lsv; change (width 4) with (2 ^ 32) in Hlen; lia].
    unfold fields_of. cbn [ik_service ik_instance_id]. rewrite Hsat. constructor; [done|]. apply Forall_app. split.
    - rewrite Forall_fmap. exact Hsv.
    - by apply Forall_singleton. }
  split; [done|]. pose proof (any_frame _ Hk) as E. cbn [any_to_bytes] in E. rewrite E. unfold fields_of, frame, u64.
  cbn [ik_service ik_instance_id kind_of tag_of TYPE_TAG InstanceKey_binary]. rewrite Hsat, body_cons, body_app, service_body by exact Hsv.
  rewrite body_cons. change (body []) with (@nil Z). rewrite app_nil_r. do 2 f_equal.
  rewrite <- Hs4, <- Hs8. subst sv. unfold slice. rewrite drop_0.
  rewrite (take_ge (drop (4 + Z.to_nat len) fields)) by (rewrite length_drop; lia).
  rewrite <- (drop_drop fields), take_drop. apply take_drop.
Qed.

Lemma any_sound kd buf k : Forall is_byte buf -> decode_as kd buf = Ok k ->
  kind_of k = kd /\ key_ok k /\ any_to_bytes k = buf.
Proof.
  intros Hb. destruct kd.
  - sound_regular layout_Rack. injection Hf as <-. apply sound_from_frame; [reflexivity|reflexivity|exact Hr|exact I].
  - sound_regular layout_Node. injection Hf as <-. apply sound_from_frame; [reflexivity|reflexivity|exact Hr|exact I].
  - sound_regular layout_DiskGroup. injection Hf as <-. apply sound_from_frame; [reflexivity|reflexivity|exact Hr|exact I].
  - sound_regular layout_Disk. injection Hf as <-. apply sound_from_frame; [reflexivity|reflexivity|exact Hr|exact I].
  - sound_regular layout_Zone. injection Hf as <-. apply sound_from_frame; [reflexivity|reflexivity|exact Hr|exact I].
  - sound_regular layout_BusyBlock. injection Hf as <-. apply sound_from_frame; [reflexivity|reflexivity|exact Hr|exact I].
  - sound_regular layout_FreeBlock. injection Hf as <-. apply sound_from_frame; [reflexivity|reflexivity|exact Hr|exact I].
  - sound_regular layout_OwnerMap. injection Hf as <-. apply sound_from_frame; [reflexivity|reflexivity|exact Hr|exact I].
  - sound_regular layout_BindMap. injection Hf as <-. apply sound_from_frame; [reflexivity|reflexivity|exact Hr|exact I].
  - unfold decode_as. destruct (from_bytes buf) as [x|] eqn:E; [|done]. cbn [result_bind]. intros [= <-].
    apply instance_sound in E as [Hk E]; [|done]. by split_and!.
  - sound_regular layout_DiskGroupUsage. injection Hf as <-. apply sound_from_frame; [reflexivity|reflexivity|exact Hr|exact I].
  - sound_regular layout_RecoveryScanProgress. injection Hf as <-. apply sound_from_frame; [reflexivity|reflexivity|exact Hr|exact I].
  - sound_regular layout_TentativeOwnerGrace. injection Hf as <-. apply sound_from_frame; [reflexivity|reflexivity|exact Hr|exact I].
  - sound_regular layout_RelocationJournal. injection Hf as <-. apply sound_from_frame; [reflexivity|reflexivity|exact Hr|exact I].
  - sound_regular layout_ChunkTask. injection Hf as <-. apply sound_from_frame; [reflexivity|reflexivity|exact Hr|exact I].
  - sound_scoped layout_ReadyChunkTask.
  - sound_scoped layout_FinalizeChunkTask.
  - sound_scoped layout_LeasedChunkTask.
  - sound_regular layout_StreamRecord. injection Hf as <-. apply sound_from_frame; [reflexivity|reflexivity|exact Hr|exact I].
  - sound_regular layout_StreamChunkRecord. cbv beta iota in Hf.
    lazymatch type of Hf with context [?kd =? 0] => destruct (Z.eqb_spec kd 0) as [->|] end; cbn [result_bind] in Hf.
    { injection Hf as <-. apply sound_from_frame; [reflexivity|reflexivity|exact Hr|exact I]. }
    lazymatch type of Hf with context [?kd =? 1] => destruct (Z.eqb_spec kd 1) as [->|] end; cbn [result_bind] in Hf; [|done].
    injection Hf as <-. apply sound_from_frame; [reflexivity|reflexivity|exact Hr|exact I].
Qed.

(** Decoding a key as another kind fails on the tag. *)
Lemma any_wrong_kind kd k : key_ok k -> kd <> kind_of k -> decode_as kd (any_to_bytes k) = Err BadTag.
Proof.
  intros Hk Hne. rewrite any_frame by done. assert (Ht : tag_of (kind_of k) <> tag_of kd) by (intros E; by apply tag_inj in E).
  pose proof (tag_range (kind_of k)) as Hr. revert Ht Hr. generalize (tag_of (kind_of k)). intros t Ht Hr.
  assert (Hh : decode_header (frame t (fields_of k)) (tag_of kd) = Err BadTag) by (by apply decode_header_other).
  destruct kd; unfold decode_as;
    [rewrite layout_Rack|rewrite layout_Node|rewrite layout_DiskGroup|rewrite layout_Disk
    |rewrite layout_Zone|rewrite layout_BusyBlock|rewrite layout_FreeBlock|rewrite layout_OwnerMap
    |rewrite layout_BindMap|idtac|rewrite layout_DiskGroupUsage|rewrite layout_RecoveryScanProgress
    |rewrite layout_TentativeOwnerGrace|rewrite layout_RelocationJournal|rewrite layout_ChunkTask
    |rewrite layout_ReadyChunkTask|rewrite layout_FinalizeChunkTask|rewrite layout_LeasedChunkTask
    |rewrite layout_StreamRecord|rewrite layout_StreamChunkRecord];
    lazymatch goal with
    | |- context [decode_layout ?t ?o ?w ?f ?b] => by rewrite (layout_err t o w f b _ Hh)
    | |- _ => cbn [from_bytes decode InstanceKey_binary];
              change (decode_header _ 10) with (decode_header (frame t (fields_of k)) (tag_of InstanceKind)); by rewrite Hh
    end.
Qed.

(** ** Scan prefixes *)

(** The prefix functions have one body per name; the key kind gives the tag. *)
Definition prefix_all (K : Type) `{BinaryKey K} : bytes := encode_header [] (TYPE_TAG K).
Definition prefix_for_rack (K : Type) `{BinaryKey K} (rack_id : Z) : bytes :=
  encode_u64 (encode_header [] (TYPE_TAG K)) rack_id.
Definition prefix_for_node (K : Type) `{BinaryKey K} (rack_id node_id : Z) : bytes :=
  encode_u64 (encode_u64 (encode_header [] (TYPE_TAG K)) rack_id) node_id.
Definition prefix_for_disk_group (rack_id node_id disk_group_id : Z) : bytes :=
  encode_u64 (encode_u64 (encode_u64 (encode_header [] (TYPE_TAG DiskKey)) rack_id) node_id) disk_group_id.
Definition prefix_for_disk (K : Type) `{BinaryKey K} (disk_id : DiskId) : bytes :=
  encode_disk_id (encode_header [] (TYPE_TAG K)) disk_id.
Definition prefix_for_zone (K : Type) `{BinaryKey K} (disk_id : DiskId) (zone_index : Z) : bytes :=
  encode_u32 (encode_disk_id (encode_header [] (TYPE_TAG K)) disk_id) zone_index.
Definition prefix_for_partition (partition_id : ChunkId) : bytes :=
  encode_chunk_id (prefix_all ChunkTaskKey) partition_id.

Inductive scan :=
| AllRacks
| AllNodes | NodesOfRack (r : Z)
| AllDiskGroups | DiskGroupsOfRack (r : Z) | DiskGroupsOfNode (r n : Z)
| AllDisks | DisksOfRack (r : Z) | DisksOfNode (r n : Z) | DisksOfDiskGroup (r n g : Z)
| ZonesOfDisk (d : DiskId)
| BusyOfDisk (d : DiskId) | BusyOfZone (d : DiskId) (z : Z)
| FreeOfDisk (d : DiskId) | FreeOfZone (d : DiskId) (z : Z)
| AllOwners | OwnersOfRack (r : Z) | OwnersOfNode (r n : Z)
| AllBinds | BindsOfRack (r : Z) | BindsOfNode (r n : Z)
| AllUsages | AllRelocations
| AllTasks | TasksOfPartition (c : ChunkId) | AllReady | AllFinalize | AllLeased
| ChunksOfStream (i : StreamName) | AttachedOfStream (i : StreamName) | CandidatesOfStream (i : StreamName).

Definition scan_prefix (q : scan) : bytes :=
  match q with
  | AllRacks => prefix_all RackKey
  | AllNodes => prefix_all NodeKey
  | NodesOfRack r => prefix_for_rack NodeKey r
  | AllDiskGroups => prefix_all DiskGroupKey
  | DiskGroupsOfRack r => prefix_for_rack DiskGroupKey r
  | DiskGroupsOfNode r n => prefix_for_node DiskGroupKey r n
  | AllDisks => prefix_all DiskKey
  | DisksOfRack r => prefix_for_rack DiskKey r
  | DisksOfNode r n => prefix_for_node DiskKey r n
  | DisksOfDiskGroup r n g => prefix_for_disk_group r n g
  | ZonesOfDisk d => prefix_for_disk ZoneKey d
  | BusyOfDisk d => prefix_for_disk BusyBlockKey d
  | BusyOfZone d z => prefix_for_zone BusyBlockKey d z
  | FreeOfDisk d => prefix_for_disk FreeBlockKey d
  | FreeOfZone d z => prefix_for_zone FreeBlockKey d z
  | AllOwners => prefix_all OwnerMapKey
  | OwnersOfRack r => prefix_for_rack OwnerMapKey r
  | OwnersOfNode r n => prefix_for_node OwnerMapKey r n
  | AllBinds => prefix_all BindMapKey
  | BindsOfRack r => prefix_for_rack BindMapKey r
  | BindsOfNode r n => prefix_for_node BindMapKey r n
  | AllUsages => prefix_all DiskGroupUsageKey
  | AllRelocations => prefix_all RelocationJournalKey
  | AllTasks => prefix_all ChunkTaskKey
  | TasksOfPartition c => prefix_for_partition c
  | AllReady => prefix_all ReadyChunkTaskKey
  | AllFinalize => prefix_all FinalizeChunkTaskKey
  | AllLeased => prefix_all LeasedChunkTaskKey
  | ChunksOfStream i => stream_prefix i
  | AttachedOfStream i => attached_prefix i
  | CandidatesOfStream i => candidate_prefix i
  end.

(** What the name and the arguments of a prefix function promise. *)
Definition scan_selects (q : scan) (k : AnyKey) : Prop :=
  match q, k with
  | AllRacks, KRack _ | AllNodes, KNode _ | AllDiskGroups, KDiskGroup _ | AllDisks, KDisk _
  | AllOwners, KOwnerMap _ | AllBinds, KBindMap _ | AllUsages, KDiskGroupUsage _
  | AllRelocations, KRelocationJournal _ | AllTasks, KChunkTask _ | AllReady, KReadyChunkTask _
  | AllFinalize, KFinalizeChunkTask _ | AllLeased, KLeasedChunkTask _ => True
  | NodesOfRack r, KNode k => nk_rack_id k = r
  | DiskGroupsOfRack r, KDiskGroup k => dgk_rack_id k = r
  | DiskGroupsOfNode r n, KDiskGroup k => dgk_rack_id k = r /\ dgk_node_id k = n
  | DisksOfRack r, KDisk k => dk_rack_id k = r
  | DisksOfNode r n, KDisk k => dk_rack_id k = r /\ dk_node_id k = n
  | DisksOfDiskGroup r n g, KDisk k => dk_rack_id k = r /\ dk_node_id k = n /\ dk_disk_group_id k = g
  | ZonesOfDisk d, KZone k => zk_disk_id k = d
  | BusyOfDisk d, KBusyBlock k => bbk_disk_id k = d
  | BusyOfZone d z, KBusyBlock k => bbk_disk_id k = d /\ bbk_zone_index k = z
  | FreeOfDisk d, KFreeBlock k => fbk_disk_id k = d
  | FreeOfZone d z, KFreeBlock k => fbk_disk_id k = d /\ fbk_zone_index k = z
  | OwnersOfRack r, KOwnerMap k => omk_rack_id k = r
  | OwnersOfNode r n, KOwnerMap k => omk_rack_id k = r /\ omk_node_id k = n
  | BindsOfRack r, KBindMap k => bmk_rack_id k = r
  | BindsOfNode r n, KBindMap k => bmk_rack_id k = r /\ bmk_node_id k = n
  | TasksOfPartition c, KChunkTask k => ctk_partition_id k = c
  | ChunksOfStream i, KStreamChunkRecord k => scrk_stream_id k = i
  | AttachedOfStream i, KStreamChunkRecord k => scrk_stream_id k = i /\ exists v, scrk_order k = Attached v
  | CandidatesOfStream i, KStreamChunkRecord k => scrk_stream_id k = i /\ exists v, scrk_order k = Candidate v
  | _, _ => False
  end.

Definition scan_kind (q : scan) : kind :=
  match q with
  | AllRacks => RackKind
  | AllNodes | NodesOfRack _ => NodeKind
  | AllDiskGroups | DiskGroupsOfRack _ | DiskGroupsOfNode _ _ => DiskGroupKind
  | AllDisks | DisksOfRack _ | DisksOfNode _ _ | DisksOfDiskGroup _ _ _ => DiskKind
  | ZonesOfDisk _ => ZoneKind
  | BusyOfDisk _ | BusyOfZone _ _ => BusyBlockKind
  | FreeOfDisk _ | FreeOfZone _ _ => FreeBlockKind
  | AllOwners | OwnersOfRack _ | OwnersOfNode _ _ => OwnerMapKind
  | AllBinds | BindsOfRack _ | BindsOfNode _ _ => BindMapKind
  | AllUsages => DiskGroupUsageKind
  | AllRelocations => RelocationJournalKind
  | AllTasks | TasksOfPartition _ => ChunkTaskKind
  | AllReady => ReadyChunkTaskKind
  | AllFinalize => FinalizeChunkTaskKind
  | AllLeased => LeasedChunkTaskKind
  | ChunksOfStream _ | AttachedOfStream _ | CandidatesOfStream _ => StreamChunkRecordKind
  end.

Definition scan_fields (q : scan) : list field :=
  match q with
  | NodesOfRack r | DiskGroupsOfRack r | DisksOfRack r | OwnersOfRack r | BindsOfRack r => [u64 r]
  | DiskGroupsOfNode r n | DisksOfNode r n | OwnersOfNode r n | BindsOfNode r n => [u64 r; u64 n]
  | DisksOfDiskGroup r n g => [u64 r; u64 n; u64 g]
  | ZonesOfDisk d | BusyOfDisk d | FreeOfDisk d => disk_fields d
  | BusyOfZone d z | FreeOfZone d z => disk_fields d ++ [(4%nat, z)]
  | TasksOfPartition c => chunk_fields c
  | ChunksOfStream i => [u64 (stream_high i); u64 (stream_low i)]
  | AttachedOfStream i => [u64 (stream_high i); u64 (stream_low i); (1%nat, 0)]
  | CandidatesOfStream i => [u64 (stream_high i); u64 (stream_low i); (1%nat, 1)]
  | _ => []
  end.

(** The arguments of a prefix function fit their types. *)
Definition scan_ok (q : scan) : Prop := Forall in_range (scan_fields q).

Lemma scan_frame q : scan_prefix q = frame (tag_of (scan_kind q)) (scan_fields q).
Proof.
  destruct q; unfold scan_prefix, scan_fields, prefix_all, prefix_for_rack, prefix_for_node, prefix_for_disk_group,
    prefix_for_disk, prefix_for_zone, prefix_for_partition, attached_prefix, candidate_prefix, prefix_all, scan_kind;
    cbn [tag_of TYPE_TAG]; flatten_frame; reflexivity.
Qed.

Lemma prefix_cons_iff {A} (x y : A) a b : x :: a `prefix_of` y :: b <-> x = y /\ a `prefix_of` b.
Proof.
  split; [intros Hp; split; [by apply prefix_cons_inv_1 in Hp|by apply prefix_cons_inv_2 in Hp]|].
  intros [-> Hp]. by apply prefix_cons.
Qed.

Lemma prefix_nil_iff {A} (b : list A) : [] `prefix_of` b <-> True.
Proof. split; [done|]. intros _. apply prefix_nil. Qed.

Ltac scan_fields_eq :=
  cbn [scan_fields fields_of disk_fields chunk_fields scope_fields scrk_order scrk_stream_id u64 app fmap list_fmap fst snd];
  rewrite ?prefix_cons_iff, ?prefix_nil_iff.

Lemma scan_widths q k : scan_kind q = kind_of k -> (scan_fields q).*1 `prefix_of` (fields_of k).*1.
Proof.
  destruct q, k; try done; intros _; try (scan_fields_eq; done);
    destruct k as [? [?|?]]; scan_fields_eq; done.
Qed.

Lemma scan_meaning q k : scan_selects q k <->
  scan_kind q = kind_of k /\ (scan_fields q).*2 `prefix_of` (fields_of k).*2.
Proof.
  destruct q, k; try (split; [done|by intros [? _]]); cbn [scan_selects scan_kind kind_of];
    try (lazymatch type of k with StreamChunkRecordKey => destruct k as [? [?|?]] end); scan_fields_eq;
    repeat match goal with
           | d : DiskId |- _ => destruct d
           | d : ChunkId |- _ => destruct d
           | d : StreamName |- _ => destruct d
           | |- context [zk_disk_id ?k] => is_var k; destruct k
           | |- context [bbk_disk_id ?k] => is_var k; destruct k
           | |- context [fbk_disk_id ?k] => is_var k; destruct k
           | |- context [ctk_partition_id ?k] => is_var k; destruct k
           end; simpl; naive_solver.
Qed.

Lemma scan_exact q k : scan_ok q -> key_ok k -> scan_prefix q `prefix_of` any_to_bytes k <-> scan_selects q k.
Proof.
  intros Hq Hk. rewrite scan_frame, any_frame, scan_meaning by done.
  rewrite frame_prefix; [|apply tag_range|apply tag_range|done|apply Hk|intros E; by apply scan_widths, tag_inj].
  split; intros [E Hp]; (split; [|done]); [by apply tag_inj|by rewrite E].
Qed.

Definition name_length (k : AnyKey) : nat := match k with KInstance i => length (ik_service i) | _ => 0 end.

Lemma byte_widths (l l' : bytes) : length l = length l' ->
  ((fun b => (1%nat, b)) <$> l).*1 = ((fun b => (1%nat, b)) <$> l').*1.
Proof.
  revert l'. induction l as [|b l IH]; intros [|b' l'] Hl; try done. cbn [fmap list_fmap]. f_equal. apply IH. by injection Hl.
Qed.

Lemma same_widths k k' : kind_of k = kind_of k' -> name_length k = name_length k' ->
  (fields_of k).*1 = (fields_of k').*1.
Proof.
  destruct k, k'; try done; intros _ Hl; try reflexivity.
  - cbn [fields_of fmap list_fmap fst]. rewrite !fmap_app. f_equal. f_equal. by apply byte_widths.
  - by destruct k as [? []], k0 as [? []].
Qed.

Lemma key_order k k' : key_ok k -> key_ok k' -> kind_of k = kind_of k' ->
  lex_lt (any_to_bytes k) (any_to_bytes k') = lex_lt (fields_of k).*2 (fields_of k').*2.
Proof.
  intros Hk Hk' Ek. rewrite !any_frame, <- Ek by done.
  destruct (decide (name_length k = name_length k')) as [Hl|Hl].
  { apply frame_lt; [apply Hk|apply Hk'|by apply same_widths]. }
  destruct k as [| | | | | | | | |i| | | | | | | | | |], k' as [| | | | | | | | |i'| | | | | | | | | |]; try done.
  destruct Hk as [Hr [_ Hn]], Hk' as [Hr' [_ Hn']]. unfold frame. cbn [lex_lt]. rewrite Z.ltb_irrefl, Z.eqb_refl.
  cbn [orb andb]. rewrite lex_lt_app. unfold fields_of in *. rewrite !body_cons.
  apply Forall_cons in Hr as [Hv _]. apply Forall_cons in Hr' as [Hv' _].
  rewrite lex_lt_be by done. cbn [fmap list_fmap snd lex_lt].
  rewrite (proj2 (Z.eqb_neq _ _)) by (unfold name_length in Hl; unfold sat_u32; lia). done.
Qed.

(** C17. The binary keys are an exact encoding.  A key of any of the twenty kinds
    decodes from its bytes, as its kind, to itself.  A buffer that decodes as a
    kind is the encoding of the key it decodes to, so nothing else (a longer
    buffer, a wrong scope, a foreign tag) is accepted.  Two keys with the same
    bytes are the same key, whatever their kinds, and decoding a key as another
    kind is refused with [BadTag]. *)
Theorem binary_keys_exact k kd : key_ok k ->
  decode_as (kind_of k) (any_to_bytes k) = Ok k /\
  (forall buf k', Forall is_byte buf -> decode_as kd buf = Ok k' ->
     kind_of k' = kd /\ key_ok k' /\ any_to_bytes k' = buf) /\
  (forall k', key_ok k' -> any_to_bytes k' = any_to_bytes k -> k' = k) /\
  (kd <> kind_of k -> decode_as kd (any_to_bytes k) = Err BadTag).
Proof.
  intros Hk. split_and!; [by apply any_roundtrip|intros ? ?; apply any_sound| |by apply any_wrong_kind].
  intros k' Hk' E. pose proof (any_roundtrip _ Hk) as R. pose proof (any_roundtrip _ Hk') as R'.
  destruct (decide (kind_of k' = kind_of k)) as [Ek|Ek].
  - rewrite E, Ek, R in R'. by injection R'.
  - pose proof (any_wrong_kind _ _ Hk Ek) as W. rewrite E, W in R'. done.
Qed.

(** C18. A scan prefix selects exactly the keys it names, among the keys of every
    kind, and the byte order a range scan follows within a kind is the order of
    the fields, first field first. *)
Theorem binary_scans_exact q k k' : scan_ok q -> key_ok k -> key_ok k' ->
  (scan_prefix q `prefix_of` any_to_bytes k <-> scan_selects q k) /\
  (kind_of k = kind_of k' ->
     lex_lt (any_to_bytes k) (any_to_bytes k') = lex_lt (fields_of k).*2 (fields_of k').*2).
Proof. intros Hq Hk Hk'. split; [by apply scan_exact|by apply key_order]. Qed.
End any.

#[local] Instance xxh_example : Xxh64 := fun _ _ => 5.

Definition ready_example : AnyKey :=
  KReadyChunkTask (mkReadyChunkTaskKey 254 1700000000000 (mkChunkId (2 ^ 56 + 9) 77) 3 (mkChunkId 1 2)).

Lemma binary_keys_exact_witness :
  decode_as ReadyChunkTaskKind (any_to_bytes ready_example) = Ok ready_example /\
  decode_as NodeKind (any_to_bytes ready_example) = Err BadTag.
Proof.
  destruct (binary_keys_exact ready_example NodeKind) as (R & _ & _ & W).
  - split; [|exact I]. repeat constructor; vm_compute; done.
  - split; [exact R|]. apply W. discriminate.
Defined.

Definition disk_example : AnyKey := KDisk (mkDiskKey 1 2 3 (mkDiskId 4 5)).

Lemma binary_scans_exact_witness :
  scan_prefix (DisksOfNode 1 2) `prefix_of` any_to_bytes disk_example /\
  ~ scan_prefix (DisksOfNode 1 3) `prefix_of` any_to_bytes disk_example.
Proof.
  assert (Hk : key_ok disk_example) by (split; [|exact I]; repeat constructor; vm_compute; done).
  split.
  - apply (binary_scans_exact (DisksOfNode 1 2) disk_example disk_example); [repeat constructor; vm_compute; done|done|done|done].
  - intros Hp. apply (binary_scans_exact (DisksOfNode 1 3) disk_example disk_example) in Hp; [|repeat constructor; vm_compute; done|done|done].
    destruct Hp as [_ Hp]. discriminate Hp.
Defined.

End BinaryKeys.
