(* ===== verification/TextKeys.v ===== *)
(** * Text keys

    Models the text paths of group 0: the [TextKey] trait of
    [crowdb-protocol/src/key/encoding.rs], its helpers, and its twenty-seven
    kinds in [common.rs], [diskdb.rs], [kv_cluster.rs], [chunkdb.rs],
    [chunk_kv.rs], [chunk_slot.rs] and [chunk_stream/ownership.rs], with the
    paths of [InstanceKey], whose second segment is the service name.

    A string is the list of its UTF-8 bytes.  Indexing and slicing panic where
    the source's do: [Panic] is an outcome beside the errors.

    [text_keys_exact]: every kind reads back the path it writes, no two keys share
    a path, a path is refused by every other kind, what a decoder returns is a
    key of its type, only the disk decoder can panic and only on a path that is
    not ASCII, and a scan prefix selects exactly the keys it names. *)

From stdpp Require Import prelude list strings.
From Stdlib Require Import ZArith Lia.
From S2P Require Import Prelude Bytes KeyEncoding ChunkSlots BinaryKeys.

Module TextKeys.
Import KeyEncoding ChunkSlots BinaryKeys.

(** ** The trait and its helpers *)

Inductive PathError := Key (e : KeyError) | Panic.

Class TextKey (K : Type) := {
  PATH_MAGIC : bytes;
  PATH_TYPE : bytes;
  encode_to_path : K -> bytes -> bytes;
  decode_path : list bytes -> result K PathError;
}.

#[global] Arguments PATH_MAGIC K {_}.
#[global] Arguments PATH_TYPE K {_}.

Definition to_path {K} `{TextKey K} (k : K) : bytes := encode_to_path k [].

(** [trim_start_matches('/')] *)
Fixpoint trim_start_slash (l : bytes) : bytes :=
  match l with c :: r => if c =? 47 then trim_start_slash r else l | [] => [] end.

Definition from_path {K} `{TextKey K} (s : bytes) : result K PathError :=
  let parts := split_char 47 s in
  if (length parts <? 3)%nat || negb (bool_decide (parts !!! 0%nat = [])) then Err (Key ShortInput)
  else if negb (bool_decide (parts !!! 1%nat = trim_start_slash (PATH_MAGIC K))) then Err (Key BadMagic)
  else if negb (bool_decide (parts !!! 2%nat = PATH_TYPE K)) then Err (Key BadTag)
  else decode_path (drop 3 parts).

Definition text_prefix_all (K : Type) `{TextKey K} : bytes := PATH_MAGIC K ++ 47 :: PATH_TYPE K ++ [47].

Definition encode_path_header (out magic type_name : bytes) : bytes := out ++ magic ++ 47 :: type_name.
Definition encode_path_u64 (out : bytes) (v : Z) : bytes := out ++ 47 :: show_dec v.

(** [{:016x}] of a [u64] *)
Definition format_016x (z : Z) : bytes := nibble_to_hex <$> reverse (digits_le 16 16 z).

Definition encode_path_disk_id (out : bytes) (id : DiskId) : bytes :=
  out ++ 47 :: format_016x (disk_high id) ++ format_016x (disk_low id).

Definition decode_path_u64 (part : bytes) : result Z PathError := ok_or (parse_dec (2 ^ 64) part) (Key ShortInput).

(** [u64::from_str_radix(_, 16)] *)
Definition parse_hex_u64 (l : bytes) : option Z := parse_uint 16 (2 ^ 64) hex_to_nibble l.

(** [str::is_char_boundary]: not a UTF-8 continuation byte *)
Definition is_char_boundary (s : bytes) (i : nat) : bool :=
  match s !! i with Some b => negb ((128 <=? b) && (b <? 192)) | None => (i =? length s)%nat end.

Definition decode_path_disk_id (part : bytes) : result DiskId PathError :=
  if negb (length part =? 32)%nat then Err (Key ShortInput)
  else if negb (is_char_boundary part 16) then Err Panic
  else
    let? high := ok_or (parse_hex_u64 (take 16 part)) (Key ShortInput) in
    let? low := ok_or (parse_hex_u64 (drop 16 part)) (Key ShortInput) in
    Ok (mkDiskId high low).

Definition check_path_exact (parts : list bytes) (consumed : nat) : result unit PathError :=
  if (consumed =? length parts)%nat then Ok () else Err (Key TrailingBytes).

(** [parts[i]] *)
Definition index (parts : list bytes) (i : nat) : result bytes PathError := ok_or (parts !! i) Panic.

(** [u32::try_from] of a parsed segment *)
Definition u32_try_from (v : Z) : result Z PathError := if v <? 2 ^ 32 then Ok v else Err (Key ShortInput).

(** ** Hardware hierarchy and disk groups *)

#[export] Instance RackKey_text : TextKey RackKey := {
  PATH_MAGIC := bs "/hw"; PATH_TYPE := bs "rack";
  encode_to_path k out :=
    let out := encode_path_header out (bs "/hw") (bs "rack") in
    encode_path_u64 out (rk_rack_id k);
  decode_path parts :=
    if (length parts <? 1)%nat then Err (Key ShortInput) else
    let? part := index parts 0 in
    let? rack_id := decode_path_u64 part in
    let? _ := check_path_exact parts 1 in
    Ok (mkRackKey rack_id);
}.

#[export] Instance NodeKey_text : TextKey NodeKey := {
  PATH_MAGIC := bs "/hw"; PATH_TYPE := bs "node";
  encode_to_path k out :=
    let out := encode_path_header out (bs "/hw") (bs "node") in
    let out := encode_path_u64 out (nk_rack_id k) in
    encode_path_u64 out (nk_node_id k);
  decode_path parts :=
    if (length parts <? 2)%nat then Err (Key ShortInput) else
    let? part := index parts 0 in
    let? rack_id := decode_path_u64 part in
    let? part := index parts 1 in
    let? node_id := decode_path_u64 part in
    let? _ := check_path_exact parts 2 in
    Ok (mkNodeKey rack_id node_id);
}.

#[export] Instance DiskGroupKey_text : TextKey DiskGroupKey := {
  PATH_MAGIC := bs "/hw"; PATH_TYPE := bs "dg";
  encode_to_path k out :=
    let out := encode_path_header out (bs "/hw") (bs "dg") in
    let out := encode_path_u64 out (dgk_rack_id k) in
    let out := encode_path_u64 out (dgk_node_id k) in
    encode_path_u64 out (dgk_disk_group_id k);
  decode_path parts :=
    if (length parts <? 3)%nat then Err (Key ShortInput) else
    let? part := index parts 0 in
    let? rack_id := decode_path_u64 part in
    let? part := index parts 1 in
    let? node_id := decode_path_u64 part in
    let? part := index parts 2 in
    let? disk_group_id := decode_path_u64 part in
    let? _ := check_path_exact parts 3 in
    Ok (mkDiskGroupKey rack_id node_id disk_group_id);
}.

#[export] Instance DiskKey_text : TextKey DiskKey := {
  PATH_MAGIC := bs "/hw"; PATH_TYPE := bs "disk";
  encode_to_path k out :=
    let out := encode_path_header out (bs "/hw") (bs "disk") in
    let out := encode_path_u64 out (dk_rack_id k) in
    let out := encode_path_u64 out (dk_node_id k) in
    let out := encode_path_u64 out (dk_disk_group_id k) in
    encode_path_disk_id out (dk_disk_id k);
  decode_path parts :=
    if (length parts <? 4)%nat then Err (Key ShortInput) else
    let? part := index parts 0 in
    let? rack_id := decode_path_u64 part in
    let? part := index parts 1 in
    let? node_id := decode_path_u64 part in
    let? part := index parts 2 in
    let? disk_group_id := decode_path_u64 part in
    let? part := index parts 3 in
    let? disk_id := decode_path_disk_id part in
    let? _ := check_path_exact parts 4 in
    Ok (mkDiskKey rack_id node_id disk_group_id disk_id);
}.

#[export] Instance OwnerMapKey_text : TextKey OwnerMapKey := {
  PATH_MAGIC := bs "/hw"; PATH_TYPE := bs "dg_owner";
  encode_to_path k out :=
    let out := encode_path_header out (bs "/hw") (bs "dg_owner") in
    let out := encode_path_u64 out (omk_rack_id k) in
    let out := encode_path_u64 out (omk_node_id k) in
    encode_path_u64 out (omk_disk_group_id k);
  decode_path parts :=
    if (length parts <? 3)%nat then Err (Key ShortInput) else
    let? part := index parts 0 in
    let? rack_id := decode_path_u64 part in
    let? part := index parts 1 in
    let? node_id := decode_path_u64 part in
    let? part := index parts 2 in
    let? disk_group_id := decode_path_u64 part in
    let? _ := check_path_exact parts 3 in
    Ok (mkOwnerMapKey rack_id node_id disk_group_id);
}.

#[export] Instance BindMapKey_text : TextKey BindMapKey := {
  PATH_MAGIC := bs "/hw"; PATH_TYPE := bs "dg_bind";
  encode_to_path k out :=
    let out := encode_path_header out (bs "/hw") (bs "dg_bind") in
    let out := encode_path_u64 out (bmk_rack_id k) in
    let out := encode_path_u64 out (bmk_node_id k) in
    encode_path_u64 out (bmk_disk_group_id k);
  decode_path parts :=
    if (length parts <? 3)%nat then Err (Key ShortInput) else
    let? part := index parts 0 in
    let? rack_id := decode_path_u64 part in
    let? part := index parts 1 in
    let? node_id := decode_path_u64 part in
    let? part := index parts 2 in
    let? disk_group_id := decode_path_u64 part in
    let? _ := check_path_exact parts 3 in
    Ok (mkBindMapKey rack_id node_id disk_group_id);
}.

#[export] Instance DiskGroupUsageKey_text : TextKey DiskGroupUsageKey := {
  PATH_MAGIC := bs "/hw"; PATH_TYPE := bs "dg_usage";
  encode_to_path k out :=
    let out := encode_path_header out (bs "/hw") (bs "dg_usage") in
    encode_path_u64 out (dguk_disk_group_id k);
  decode_path parts :=
    if (length parts <? 1)%nat then Err (Key ShortInput) else
    let? part := index parts 0 in
    let? disk_group_id := decode_path_u64 part in
    let? _ := check_path_exact parts 1 in
    Ok (mkDiskGroupUsageKey disk_group_id);
}.

(** ** KV cluster topology *)

Record KvStoreKey := mkKvStoreKey { ksk_store_id : Z }.

#[export] Instance KvStoreKey_text : TextKey KvStoreKey := {
  PATH_MAGIC := bs "/kv"; PATH_TYPE := bs "store";
  encode_to_path k out :=
    let out := encode_path_header out (bs "/kv") (bs "store") in
    encode_path_u64 out (ksk_store_id k);
  decode_path parts :=
    if (length parts <? 1)%nat then Err (Key ShortInput) else
    let? part := index parts 0 in
    let? store_id := decode_path_u64 part in
    let? _ := check_path_exact parts 1 in
    Ok (mkKvStoreKey store_id);
}.

Record KvGroupKey := mkKvGroupKey { kgk_store_id : Z; kgk_group_id : Z }.

#[export] Instance KvGroupKey_text : TextKey KvGroupKey := {
  PATH_MAGIC := bs "/kv"; PATH_TYPE := bs "group";
  encode_to_path k out :=
    let out := encode_path_header out (bs "/kv") (bs "group") in
    let out := encode_path_u64 out (kgk_store_id k) in
    encode_path_u64 out (kgk_group_id k);
  decode_path parts :=
    if (length parts <? 2)%nat then Err (Key ShortInput) else
    let? part := index parts 0 in
    let? store_id := decode_path_u64 part in
    let? part := index parts 1 in
    let? group_id := decode_path_u64 part in
    let? _ := check_path_exact parts 2 in
    Ok (mkKvGroupKey store_id group_id);
}.

Record KvGroupMembersKey := mkKvGroupMembersKey { kgm_store_id : Z; kgm_group_id : Z }.

#[export] Instance KvGroupMembersKey_text : TextKey KvGroupMembersKey := {
  PATH_MAGIC := bs "/kv"; PATH_TYPE := bs "members";
  encode_to_path k out :=
    let out := encode_path_header out (bs "/kv") (bs "members") in
    let out := encode_path_u64 out (kgm_store_id k) in
    encode_path_u64 out (kgm_group_id k);
  decode_path parts :=
    if (length parts <? 2)%nat then Err (Key ShortInput) else
    let? part := index parts 0 in
    let? store_id := decode_path_u64 part in
    let? part := index parts 1 in
    let? group_id := decode_path_u64 part in
    let? _ := check_path_exact parts 2 in
    Ok (mkKvGroupMembersKey store_id group_id);
}.

Record KvReplicaKey := mkKvReplicaKey { krk_store_id : Z; krk_group_id : Z; krk_replica_id : Z }.

#[export] Instance KvReplicaKey_text : TextKey KvReplicaKey := {
  PATH_MAGIC := bs "/kv"; PATH_TYPE := bs "replica";
  encode_to_path k out :=
    let out := encode_path_header out (bs "/kv") (bs "replica") in
    let out := encode_path_u64 out (krk_store_id k) in
    let out := encode_path_u64 out (krk_group_id k) in
    encode_path_u64 out (krk_replica_id k);
  decode_path parts :=
    if (length parts <? 3)%nat then Err (Key ShortInput) else
    let? part := index parts 0 in
    let? store_id := decode_path_u64 part in
    let? part := index parts 1 in
    let? group_id := decode_path_u64 part in
    let? part := index parts 2 in
    let? replica_id := decode_path_u64 part in
    let? _ := check_path_exact parts 3 in
    Ok (mkKvReplicaKey store_id group_id replica_id);
}.

(** ** Chunkdb ranges *)

Record ChunkdbRangeBindingKey := mkChunkdbRangeBindingKey { crb_sub_range_index : Z }.

#[export] Instance ChunkdbRangeBindingKey_text : TextKey ChunkdbRangeBindingKey := {
  PATH_MAGIC := bs "/chunkdb"; PATH_TYPE := bs "range_bind";
  encode_to_path k out :=
    let out := encode_path_header out (bs "/chunkdb") (bs "range_bind") in
    encode_path_u64 out (crb_sub_range_index k);
  decode_path parts :=
    if (length parts <? 1)%nat then Err (Key ShortInput) else
    let? part := index parts 0 in
    let? v := decode_path_u64 part in
    let? sub_range_index := u32_try_from v in
    let? _ := check_path_exact parts 1 in
    Ok (mkChunkdbRangeBindingKey sub_range_index);
}.

Record ChunkdbRangeMigrationKey := mkChunkdbRangeMigrationKey { crm_sub_range_index : Z }.

#[export] Instance ChunkdbRangeMigrationKey_text : TextKey ChunkdbRangeMigrationKey := {
  PATH_MAGIC := bs "/chunkdb"; PATH_TYPE := bs "range_mig";
  encode_to_path k out :=
    let out := encode_path_header out (bs "/chunkdb") (bs "range_mig") in
    encode_path_u64 out (crm_sub_range_index k);
  decode_path parts :=
    if (length parts <? 1)%nat then Err (Key ShortInput) else
    let? part := index parts 0 in
    let? v := decode_path_u64 part in
    let? sub_range_index := u32_try_from v in
    let? _ := check_path_exact parts 1 in
    Ok (mkChunkdbRangeMigrationKey sub_range_index);
}.

(** ** Chunk-KV catalog *)

Record Id128 := mkId128 { id_high : Z; id_low : Z }.

Record ChunkKvTransferKey := mkChunkKvTransferKey { ctr_transition_id : Id128 }.

#[export] Instance ChunkKvTransferKey_text : TextKey ChunkKvTransferKey := {
  PATH_MAGIC := bs "/chunk-kv"; PATH_TYPE := bs "transfer";
  encode_to_path k out :=
    let out := encode_path_header out (bs "/chunk-kv") (bs "transfer") in
    let out := encode_path_u64 out (id_high (ctr_transition_id k)) in
    encode_path_u64 out (id_low (ctr_transition_id k));
  decode_path parts :=
    if (length parts <? 2)%nat then Err (Key ShortInput) else
    let? part := index parts 0 in
    let? high := decode_path_u64 part in
    let? part := index parts 1 in
    let? low := decode_path_u64 part in
    let? _ := check_path_exact parts 2 in
    Ok (mkChunkKvTransferKey (mkId128 high low));
}.

Record ChunkKvSplitKey := mkChunkKvSplitKey { csp_transition_id : Id128 }.

#[export] Instance ChunkKvSplitKey_text : TextKey ChunkKvSplitKey := {
  PATH_MAGIC := bs "/chunk-kv"; PATH_TYPE := bs "split";
  encode_to_path k out :=
    let out := encode_path_header out (bs "/chunk-kv") (bs "split") in
    let out := encode_path_u64 out (id_high (csp_transition_id k)) in
    encode_path_u64 out (id_low (csp_transition_id k));
  decode_path parts :=
    if (length parts <? 2)%nat then Err (Key ShortInput) else
    let? part := index parts 0 in
    let? high := decode_path_u64 part in
    let? part := index parts 1 in
    let? low := decode_path_u64 part in
    let? _ := check_path_exact parts 2 in
    Ok (mkChunkKvSplitKey (mkId128 high low));
}.

Record ChunkKvRangeCatalogPageKey := mkChunkKvRangeCatalogPageKey { ccp_generation : Z; ccp_page_index : Z }.

#[export] Instance ChunkKvRangeCatalogPageKey_text : TextKey ChunkKvRangeCatalogPageKey := {
  PATH_MAGIC := bs "/chunk-kv"; PATH_TYPE := bs "catalog-page";
  encode_to_path k out :=
    let out := encode_path_header out (bs "/chunk-kv") (bs "catalog-page") in
    let out := encode_path_u64 out (ccp_generation k) in
    encode_path_u64 out (ccp_page_index k);
  decode_path parts :=
    if (length parts <? 2)%nat then Err (Key ShortInput) else
    let? part := index parts 0 in
    let? generation := decode_path_u64 part in
    let? part := index parts 1 in
    let? page_index := decode_path_u64 part in
    let? _ := check_path_exact parts 2 in
    Ok (mkChunkKvRangeCatalogPageKey generation page_index);
}.

(** A domain name is one segment of the path, not empty. *)
Record DomainMonitorKey := mkDomainMonitorKey { dmk_domain : bytes }.

#[export] Instance DomainMonitorKey_text : TextKey DomainMonitorKey := {
  PATH_MAGIC := bs "/monitor"; PATH_TYPE := bs "domain";
  encode_to_path k out := encode_path_header out (bs "/monitor") (bs "domain") ++ 47 :: dmk_domain k;
  decode_path parts :=
    let? _ := check_path_exact parts 1 in
    let? domain := ok_or (parts !! 0%nat) (Key ShortInput) in
    if bool_decide (domain = []) then Err (Key ShortInput) else Ok (mkDomainMonitorKey domain);
}.

Record ChunkKvRangeCatalogHeadKey := mkChunkKvRangeCatalogHeadKey { }.

#[export] Instance ChunkKvRangeCatalogHeadKey_text : TextKey ChunkKvRangeCatalogHeadKey := {
  PATH_MAGIC := bs "/chunk-kv"; PATH_TYPE := bs "catalog-head";
  encode_to_path k out := encode_path_header out (bs "/chunk-kv") (bs "catalog-head");
  decode_path parts :=
    let? _ := check_path_exact parts 0 in
    Ok mkChunkKvRangeCatalogHeadKey;
}.

Record ServingGrantKey := mkServingGrantKey { sgk_instance_id : Z }.

#[export] Instance ServingGrantKey_text : TextKey ServingGrantKey := {
  PATH_MAGIC := bs "/chunk-kv"; PATH_TYPE := bs "serving-grant";
  encode_to_path k out :=
    let out := encode_path_header out (bs "/chunk-kv") (bs "serving-grant") in
    encode_path_u64 out (sgk_instance_id k);
  decode_path parts :=
    let? part := ok_or (parts !! 0%nat) (Key ShortInput) in
    let? instance_id := decode_path_u64 part in
    let? _ := check_path_exact parts 1 in
    Ok (mkServingGrantKey instance_id);
}.

(** ** Chunk slots *)

Record ChunkServiceAuthorityKey := mkChunkServiceAuthorityKey { cak_authority : ChunkSlotAuthority }.

(** The closure [digit]: lower-case hexadecimal only *)
Definition authority_digit (b : Z) : result Z PathError :=
  if (48 <=? b) && (b <=? 57) then Ok (b - 48)
  else if (97 <=? b) && (b <=? 102) then Ok (b - 97 + 10)
  else Err (Key BadTag).

(** The loop over [chunks_exact(2)] *)
Fixpoint decode_pairs (text : bytes) : result bytes PathError :=
  match text with
  | x :: y :: rest =>
      let? h := authority_digit x in
      let? l := authority_digit y in
      let? value := decode_pairs rest in
      Ok (h * 16 + l :: value)
  | _ => Ok []
  end.

#[export] Instance ChunkServiceAuthorityKey_text : TextKey ChunkServiceAuthorityKey := {
  PATH_MAGIC := bs "/chunkdb"; PATH_TYPE := bs "slot_authority";
  encode_to_path k out :=
    encode_path_header out (bs "/chunkdb") (bs "slot_authority") ++ 47 :: encode_hex (to_fence_value (cak_authority k));
  decode_path parts :=
    let? _ := check_path_exact parts 1 in
    let? text := index parts 0 in
    if negb (length text =? 66)%nat then Err (Key BadTag) else
    let? value := decode_pairs text in
    let? authority := ok_or (from_fence_value value) (Key BadTag) in
    Ok (mkChunkServiceAuthorityKey authority);
}.

Record ChunkServiceHandoffKey := mkChunkServiceHandoffKey { }.

#[export] Instance ChunkServiceHandoffKey_text : TextKey ChunkServiceHandoffKey := {
  PATH_MAGIC := bs "/chunkdb"; PATH_TYPE := bs "slot_handoff";
  encode_to_path k out := encode_path_header out (bs "/chunkdb") (bs "slot_handoff") ++ bs "/service";
  decode_path parts :=
    let? _ := check_path_exact parts 1 in
    let? part := index parts 0 in
    if bool_decide (part = bs "service") then Ok mkChunkServiceHandoffKey else Err (Key BadTag);
}.

Record ChunkSlotFenceKey := mkChunkSlotFenceKey { csf_slot : Z }.

Definition is_ascii_digit (b : Z) : bool := (48 <=? b) && (b <=? 57).

#[export] Instance ChunkSlotFenceKey_text : TextKey ChunkSlotFenceKey := {
  PATH_MAGIC := bs "/chunkdb"; PATH_TYPE := bs "ownership-fence";
  encode_to_path k out :=
    let out := encode_path_header out (bs "/chunkdb") (bs "ownership-fence") in
    encode_path_u64 out (csf_slot k);
  decode_path parts :=
    let? _ := check_path_exact parts 1 in
    let? text := index parts 0 in
    if bool_decide (text = []) || ((1 <? length text)%nat && bool_decide (text !! 0%nat = Some 48))
       || negb (forallb is_ascii_digit text)
    then Err (Key BadTag) else
    let? value := ok_or (parse_dec (2 ^ 16) text) (Key BadTag) in
    match slot_try_from value with
    | Ok slot => Ok (mkChunkSlotFenceKey slot)
    | Err _ => Err (Key BadTag)
    end;
}.

Record ChunkServiceSlotsKey := mkChunkServiceSlotsKey { css_instance_id : Z }.

#[export] Instance ChunkServiceSlotsKey_text : TextKey ChunkServiceSlotsKey := {
  PATH_MAGIC := bs "/chunkdb"; PATH_TYPE := bs "slot_service";
  encode_to_path k out :=
    let out := encode_path_header out (bs "/chunkdb") (bs "slot_service") in
    encode_path_u64 out (css_instance_id k);
  decode_path parts :=
    let? _ := check_path_exact parts 1 in
    let? part := index parts 0 in
    let? instance_id := decode_path_u64 part in
    Ok (mkChunkServiceSlotsKey instance_id);
}.

Record ChunkStorageSlotsKey := mkChunkStorageSlotsKey { cst_store_id : Z; cst_group_id : Z }.

#[export] Instance ChunkStorageSlotsKey_text : TextKey ChunkStorageSlotsKey := {
  PATH_MAGIC := bs "/chunkdb"; PATH_TYPE := bs "slot_storage";
  encode_to_path k out :=
    let out := encode_path_header out (bs "/chunkdb") (bs "slot_storage") in
    let out := encode_path_u64 out (cst_store_id k) in
    encode_path_u64 out (cst_group_id k);
  decode_path parts :=
    let? _ := check_path_exact parts 2 in
    let? part := index parts 0 in
    let? store_id := decode_path_u64 part in
    let? part := index parts 1 in
    let? group_id := decode_path_u64 part in
    Ok (mkChunkStorageSlotsKey store_id group_id);
}.

Inductive ChunkSlotMapHeadKey := ServiceHead | StorageHead | AuthorityHead.

Definition head_name (k : ChunkSlotMapHeadKey) : bytes :=
  match k with
  | ServiceHead => bs "service"
  | StorageHead => bs "storage"
  | AuthorityHead => bs "authority"
  end.

#[export] Instance ChunkSlotMapHeadKey_text : TextKey ChunkSlotMapHeadKey := {
  PATH_MAGIC := bs "/chunkdb"; PATH_TYPE := bs "slot_head";
  encode_to_path k out := encode_path_header out (bs "/chunkdb") (bs "slot_head") ++ 47 :: head_name k;
  decode_path parts :=
    let? _ := check_path_exact parts 1 in
    let? part := index parts 0 in
    if bool_decide (part = bs "service") then Ok ServiceHead
    else if bool_decide (part = bs "storage") then Ok StorageHead
    else if bool_decide (part = bs "authority") then Ok AuthorityHead
    else Err (Key ShortInput);
}.

(** ** Stream owners *)

Inductive StreamPurpose := Wal | Stream.

Record StreamProcessLeaseKey := mkStreamProcessLeaseKey { spl_purpose : StreamPurpose; spl_instance_id : Z }.

#[export] Instance StreamProcessLeaseKey_text : TextKey StreamProcessLeaseKey := {
  PATH_MAGIC := bs "/stream-owner"; PATH_TYPE := bs "process";
  encode_to_path k out :=
    let out := encode_path_header out (bs "/stream-owner") (bs "process") in
    let out := encode_path_u64 out (match spl_purpose k with Wal => 1 | Stream => 0 end) in
    encode_path_u64 out (spl_instance_id k);
  decode_path parts :=
    let? _ := check_path_exact parts 2 in
    let? part := index parts 0 in
    let? tag := decode_path_u64 part in
    let? purpose :=
      (if tag =? 0 then Ok Stream else if tag =? 1 then Ok Wal else Err (Key BadTag)) in
    let? part := index parts 1 in
    let? instance_id := decode_path_u64 part in
    Ok (mkStreamProcessLeaseKey purpose instance_id);
}.

Record StreamWriterOwnerKey := mkStreamWriterOwnerKey { swo_stream_name : StreamName }.

#[export] Instance StreamWriterOwnerKey_text : TextKey StreamWriterOwnerKey := {
  PATH_MAGIC := bs "/stream-owner"; PATH_TYPE := bs "writer";
  encode_to_path k out :=
    let out := encode_path_header out (bs "/stream-owner") (bs "writer") in
    let out := encode_path_u64 out (stream_high (swo_stream_name k)) in
    encode_path_u64 out (stream_low (swo_stream_name k));
  decode_path parts :=
    let? _ := check_path_exact parts 2 in
    let? part := index parts 0 in
    let? high := decode_path_u64 part in
    let? part := index parts 1 in
    let? low := decode_path_u64 part in
    Ok (mkStreamWriterOwnerKey (mkStreamName high low));
}.

(** ** Service instances

    [InstanceKey] has its own [to_path] and [from_path]: the service name takes
    the place of the kind. *)

Definition instance_to_path (k : InstanceKey) : bytes :=
  bs "/srv/" ++ ik_service k ++ 47 :: show_dec (ik_instance_id k).

Definition instance_from_path (s : bytes) : result InstanceKey PathError :=
  let parts := split_char 47 s in
  if negb (length parts =? 4)%nat || negb (bool_decide (parts !!! 0%nat = []))
     || negb (bool_decide (parts !!! 1%nat = bs "srv"))
  then Err (Key BadMagic)
  else
    let? instance_id := decode_path_u64 (parts !!! 3%nat) in
    Ok (mkInstanceKey (parts !!! 2%nat) instance_id).

Definition text_prefix_for_service (service : bytes) : bytes := bs "/srv/" ++ service ++ [47].

(** ** Scan prefixes *)

Definition text_prefix_for_rack (rack_id : Z) : bytes := bs "/hw/node/" ++ show_dec rack_id ++ [47].
Definition dg_prefix_for_node (rack_id node_id : Z) : bytes :=
  bs "/hw/dg/" ++ show_dec rack_id ++ 47 :: show_dec node_id ++ [47].
Definition owner_prefix_for_node (rack_id node_id : Z) : bytes :=
  bs "/hw/dg_owner/" ++ show_dec rack_id ++ 47 :: show_dec node_id ++ [47].
Definition bind_prefix_for_node (rack_id node_id : Z) : bytes :=
  bs "/hw/dg_bind/" ++ show_dec rack_id ++ 47 :: show_dec node_id ++ [47].
Definition text_prefix_for_disk_group (rack_id node_id disk_group_id : Z) : bytes :=
  bs "/hw/disk/" ++ show_dec rack_id ++ 47 :: show_dec node_id ++ 47 :: show_dec disk_group_id ++ [47].
Definition group_prefix_for_store (store_id : Z) : bytes := bs "/kv/group/" ++ show_dec store_id ++ [47].
Definition members_prefix_all : bytes := bs "/kv/members/".
Definition members_prefix_for_store (store_id : Z) : bytes := bs "/kv/members/" ++ show_dec store_id ++ [47].
Definition replica_prefix_for_store (store_id : Z) : bytes := bs "/kv/replica/" ++ show_dec store_id ++ [47].
Definition replica_prefix_for_group (store_id group_id : Z) : bytes :=
  bs "/kv/replica/" ++ show_dec store_id ++ 47 :: show_dec group_id ++ [47].

(** ** All kinds together *)

Inductive text_kind :=
| RackText
| NodeText
| DiskGroupText
| DiskText
| OwnerMapText
| BindMapText
| DiskGroupUsageText
| KvStoreText
| KvGroupText
| KvGroupMembersText
| KvReplicaText
| ChunkdbRangeBindingText
| ChunkdbRangeMigrationText
| ChunkKvTransferText
| ChunkKvSplitText
| ChunkKvRangeCatalogPageText
| ChunkServiceSlotsText
| ChunkStorageSlotsText
| StreamWriterOwnerText
| DomainMonitorText
| ChunkKvRangeCatalogHeadText
| ServingGrantText
| ChunkServiceAuthorityText
| ChunkServiceHandoffText
| ChunkSlotFenceText
| ChunkSlotMapHeadText
| StreamProcessLeaseText
| InstanceText.

#[export] Instance text_kind_eq_dec : EqDecision text_kind.
Proof. solve_decision. Defined.

Inductive AnyText :=
| TRack (k : RackKey)
| TNode (k : NodeKey)
| TDiskGroup (k : DiskGroupKey)
| TDisk (k : DiskKey)
| TOwnerMap (k : OwnerMapKey)
| TBindMap (k : BindMapKey)
| TDiskGroupUsage (k : DiskGroupUsageKey)
| TKvStore (k : KvStoreKey)
| TKvGroup (k : KvGroupKey)
| TKvGroupMembers (k : KvGroupMembersKey)
| TKvReplica (k : KvReplicaKey)
| TChunkdbRangeBinding (k : ChunkdbRangeBindingKey)
| TChunkdbRangeMigration (k : ChunkdbRangeMigrationKey)
| TChunkKvTransfer (k : ChunkKvTransferKey)
| TChunkKvSplit (k : ChunkKvSplitKey)
| TChunkKvRangeCatalogPage (k : ChunkKvRangeCatalogPageKey)
| TChunkServiceSlots (k : ChunkServiceSlotsKey)
| TChunkStorageSlots (k : ChunkStorageSlotsKey)
| TStreamWriterOwner (k : StreamWriterOwnerKey)
| TDomainMonitor (k : DomainMonitorKey)
| TChunkKvRangeCatalogHead (k : ChunkKvRangeCatalogHeadKey)
| TServingGrant (k : ServingGrantKey)
| TChunkServiceAuthority (k : ChunkServiceAuthorityKey)
| TChunkServiceHandoff (k : ChunkServiceHandoffKey)
| TChunkSlotFence (k : ChunkSlotFenceKey)
| TChunkSlotMapHead (k : ChunkSlotMapHeadKey)
| TStreamProcessLease (k : StreamProcessLeaseKey)
| TInstance (k : InstanceKey).

Definition text_kind_of (k : AnyText) : text_kind :=
  match k with
  | TRack _ => RackText
  | TNode _ => NodeText
  | TDiskGroup _ => DiskGroupText
  | TDisk _ => DiskText
  | TOwnerMap _ => OwnerMapText
  | TBindMap _ => BindMapText
  | TDiskGroupUsage _ => DiskGroupUsageText
  | TKvStore _ => KvStoreText
  | TKvGroup _ => KvGroupText
  | TKvGroupMembers _ => KvGroupMembersText
  | TKvReplica _ => KvReplicaText
  | TChunkdbRangeBinding _ => ChunkdbRangeBindingText
  | TChunkdbRangeMigration _ => ChunkdbRangeMigrationText
  | TChunkKvTransfer _ => ChunkKvTransferText
  | TChunkKvSplit _ => ChunkKvSplitText
  | TChunkKvRangeCatalogPage _ => ChunkKvRangeCatalogPageText
  | TChunkServiceSlots _ => ChunkServiceSlotsText
  | TChunkStorageSlots _ => ChunkStorageSlotsText
  | TStreamWriterOwner _ => StreamWriterOwnerText
  | TDomainMonitor _ => DomainMonitorText
  | TChunkKvRangeCatalogHead _ => ChunkKvRangeCatalogHeadText
  | TServingGrant _ => ServingGrantText
  | TChunkServiceAuthority _ => ChunkServiceAuthorityText
  | TChunkServiceHandoff _ => ChunkServiceHandoffText
  | TChunkSlotFence _ => ChunkSlotFenceText
  | TChunkSlotMapHead _ => ChunkSlotMapHeadText
  | TStreamProcessLease _ => StreamProcessLeaseText
  | TInstance _ => InstanceText
  end.

Definition any_path (k : AnyText) : bytes :=
  match k with
  | TRack k => to_path k
  | TNode k => to_path k
  | TDiskGroup k => to_path k
  | TDisk k => to_path k
  | TOwnerMap k => to_path k
  | TBindMap k => to_path k
  | TDiskGroupUsage k => to_path k
  | TKvStore k => to_path k
  | TKvGroup k => to_path k
  | TKvGroupMembers k => to_path k
  | TKvReplica k => to_path k
  | TChunkdbRangeBinding k => to_path k
  | TChunkdbRangeMigration k => to_path k
  | TChunkKvTransfer k => to_path k
  | TChunkKvSplit k => to_path k
  | TChunkKvRangeCatalogPage k => to_path k
  | TChunkServiceSlots k => to_path k
  | TChunkStorageSlots k => to_path k
  | TStreamWriterOwner k => to_path k
  | TDomainMonitor k => to_path k
  | TChunkKvRangeCatalogHead k => to_path k
  | TServingGrant k => to_path k
  | TChunkServiceAuthority k => to_path k
  | TChunkServiceHandoff k => to_path k
  | TChunkSlotFence k => to_path k
  | TChunkSlotMapHead k => to_path k
  | TStreamProcessLease k => to_path k
  | TInstance k => instance_to_path k
  end.

Definition decode_text (kd : text_kind) (s : bytes) : result AnyText PathError :=
  match kd with
  | RackText => let? k := from_path s in Ok (TRack k)
  | NodeText => let? k := from_path s in Ok (TNode k)
  | DiskGroupText => let? k := from_path s in Ok (TDiskGroup k)
  | DiskText => let? k := from_path s in Ok (TDisk k)
  | OwnerMapText => let? k := from_path s in Ok (TOwnerMap k)
  | BindMapText => let? k := from_path s in Ok (TBindMap k)
  | DiskGroupUsageText => let? k := from_path s in Ok (TDiskGroupUsage k)
  | KvStoreText => let? k := from_path s in Ok (TKvStore k)
  | KvGroupText => let? k := from_path s in Ok (TKvGroup k)
  | KvGroupMembersText => let? k := from_path s in Ok (TKvGroupMembers k)
  | KvReplicaText => let? k := from_path s in Ok (TKvReplica k)
  | ChunkdbRangeBindingText => let? k := from_path s in Ok (TChunkdbRangeBinding k)
  | ChunkdbRangeMigrationText => let? k := from_path s in Ok (TChunkdbRangeMigration k)
  | ChunkKvTransferText => let? k := from_path s in Ok (TChunkKvTransfer k)
  | ChunkKvSplitText => let? k := from_path s in Ok (TChunkKvSplit k)
  | ChunkKvRangeCatalogPageText => let? k := from_path s in Ok (TChunkKvRangeCatalogPage k)
  | ChunkServiceSlotsText => let? k := from_path s in Ok (TChunkServiceSlots k)
  | ChunkStorageSlotsText => let? k := from_path s in Ok (TChunkStorageSlots k)
  | StreamWriterOwnerText => let? k := from_path s in Ok (TStreamWriterOwner k)
  | DomainMonitorText => let? k := from_path s in Ok (TDomainMonitor k)
  | ChunkKvRangeCatalogHeadText => let? k := from_path s in Ok (TChunkKvRangeCatalogHead k)
  | ServingGrantText => let? k := from_path s in Ok (TServingGrant k)
  | ChunkServiceAuthorityText => let? k := from_path s in Ok (TChunkServiceAuthority k)
  | ChunkServiceHandoffText => let? k := from_path s in Ok (TChunkServiceHandoff k)
  | ChunkSlotFenceText => let? k := from_path s in Ok (TChunkSlotFence k)
  | ChunkSlotMapHeadText => let? k := from_path s in Ok (TChunkSlotMapHead k)
  | StreamProcessLeaseText => let? k := from_path s in Ok (TStreamProcessLease k)
  | InstanceText => let? k := instance_from_path s in Ok (TInstance k)
  end.

(** The segments of a path after its leading slash. *)
Definition segments (k : AnyText) : list bytes :=
  match k with
  | TRack k => [bs "hw"; bs "rack"; show_dec (rk_rack_id k)]
  | TNode k => [bs "hw"; bs "node"; show_dec (nk_rack_id k); show_dec (nk_node_id k)]
  | TDiskGroup k =>
      [bs "hw"; bs "dg"; show_dec (dgk_rack_id k); show_dec (dgk_node_id k); show_dec (dgk_disk_group_id k)]
  | TDisk k =>
      [bs "hw"; bs "disk"; show_dec (dk_rack_id k); show_dec (dk_node_id k); show_dec (dk_disk_group_id k); format_016x (disk_high (dk_disk_id k)) ++ format_016x (disk_low (dk_disk_id k))]
  | TOwnerMap k =>
      [bs "hw"; bs "dg_owner"; show_dec (omk_rack_id k); show_dec (omk_node_id k); show_dec (omk_disk_group_id k)]
  | TBindMap k =>
      [bs "hw"; bs "dg_bind"; show_dec (bmk_rack_id k); show_dec (bmk_node_id k); show_dec (bmk_disk_group_id k)]
  | TDiskGroupUsage k => [bs "hw"; bs "dg_usage"; show_dec (dguk_disk_group_id k)]
  | TKvStore k => [bs "kv"; bs "store"; show_dec (ksk_store_id k)]
  | TKvGroup k => [bs "kv"; bs "group"; show_dec (kgk_store_id k); show_dec (kgk_group_id k)]
  | TKvGroupMembers k => [bs "kv"; bs "members"; show_dec (kgm_store_id k); show_dec (kgm_group_id k)]
  | TKvReplica k =>
      [bs "kv"; bs "replica"; show_dec (krk_store_id k); show_dec (krk_group_id k); show_dec (krk_replica_id k)]
  | TChunkdbRangeBinding k => [bs "chunkdb"; bs "range_bind"; show_dec (crb_sub_range_index k)]
  | TChunkdbRangeMigration k => [bs "chunkdb"; bs "range_mig"; show_dec (crm_sub_range_index k)]
  | TChunkKvTransfer k =>
      [bs "chunk-kv"; bs "transfer"; show_dec (id_high (ctr_transition_id k)); show_dec (id_low (ctr_transition_id k))]
  | TChunkKvSplit k =>
      [bs "chunk-kv"; bs "split"; show_dec (id_high (csp_transition_id k)); show_dec (id_low (csp_transition_id k))]
  | TChunkKvRangeCatalogPage k =>
      [bs "chunk-kv"; bs "catalog-page"; show_dec (ccp_generation k); show_dec (ccp_page_index k)]
  | TChunkServiceSlots k => [bs "chunkdb"; bs "slot_service"; show_dec (css_instance_id k)]
  | TChunkStorageSlots k => [bs "chunkdb"; bs "slot_storage"; show_dec (cst_store_id k); show_dec (cst_group_id k)]
  | TStreamWriterOwner k =>
      [bs "stream-owner"; bs "writer"; show_dec (stream_high (swo_stream_name k)); show_dec (stream_low (swo_stream_name k))]
  | TDomainMonitor k => [bs "monitor"; bs "domain"; dmk_domain k]
  | TChunkKvRangeCatalogHead _ => [bs "chunk-kv"; bs "catalog-head"]
  | TServingGrant k => [bs "chunk-kv"; bs "serving-grant"; show_dec (sgk_instance_id k)]
  | TChunkServiceAuthority k => [bs "chunkdb"; bs "slot_authority"; encode_hex (to_fence_value (cak_authority k))]
  | TChunkServiceHandoff _ => [bs "chunkdb"; bs "slot_handoff"; bs "service"]
  | TChunkSlotFence k => [bs "chunkdb"; bs "ownership-fence"; show_dec (csf_slot k)]
  | TChunkSlotMapHead k => [bs "chunkdb"; bs "slot_head"; head_name k]
  | TStreamProcessLease k =>
      [bs "stream-owner"; bs "process"; show_dec (match spl_purpose k with Wal => 1 | Stream => 0 end); show_dec (spl_instance_id k)]
  | TInstance k => [bs "srv"; ik_service k; show_dec (ik_instance_id k)]
  end.

(** The values the Rust types can hold; a service or domain name that is one
    segment. *)
Definition is_u64 (v : Z) : Prop := 0 <= v < 2 ^ 64.
Definition is_u32 (v : Z) : Prop := 0 <= v < 2 ^ 32.

Definition text_ok (k : AnyText) : Prop :=
  match k with
  | TRack k => is_u64 (rk_rack_id k)
  | TNode k => is_u64 (nk_rack_id k) /\ is_u64 (nk_node_id k)
  | TDiskGroup k => is_u64 (dgk_rack_id k) /\ is_u64 (dgk_node_id k) /\ is_u64 (dgk_disk_group_id k)
  | TDisk k =>
      is_u64 (dk_rack_id k) /\ is_u64 (dk_node_id k) /\ is_u64 (dk_disk_group_id k) /\ is_u64 (disk_high (dk_disk_id k)) /\ is_u64 (disk_low (dk_disk_id k))
  | TOwnerMap k => is_u64 (omk_rack_id k) /\ is_u64 (omk_node_id k) /\ is_u64 (omk_disk_group_id k)
  | TBindMap k => is_u64 (bmk_rack_id k) /\ is_u64 (bmk_node_id k) /\ is_u64 (bmk_disk_group_id k)
  | TDiskGroupUsage k => is_u64 (dguk_disk_group_id k)
  | TKvStore k => is_u64 (ksk_store_id k)
  | TKvGroup k => is_u64 (kgk_store_id k) /\ is_u64 (kgk_group_id k)
  | TKvGroupMembers k => is_u64 (kgm_store_id k) /\ is_u64 (kgm_group_id k)
  | TKvReplica k => is_u64 (krk_store_id k) /\ is_u64 (krk_group_id k) /\ is_u64 (krk_replica_id k)
  | TChunkdbRangeBinding k => is_u32 (crb_sub_range_index k)
  | TChunkdbRangeMigration k => is_u32 (crm_sub_range_index k)
  | TChunkKvTransfer k => is_u64 (id_high (ctr_transition_id k)) /\ is_u64 (id_low (ctr_transition_id k))
  | TChunkKvSplit k => is_u64 (id_high (csp_transition_id k)) /\ is_u64 (id_low (csp_transition_id k))
  | TChunkKvRangeCatalogPage k => is_u64 (ccp_generation k) /\ is_u64 (ccp_page_index k)
  | TChunkServiceSlots k => is_u64 (css_instance_id k)
  | TChunkStorageSlots k => is_u64 (cst_store_id k) /\ is_u64 (cst_group_id k)
  | TStreamWriterOwner k => is_u64 (stream_high (swo_stream_name k)) /\ is_u64 (stream_low (swo_stream_name k))
  | TDomainMonitor k => dmk_domain k <> [] /\ (47 ∉ dmk_domain k)
  | TChunkKvRangeCatalogHead _ => True
  | TServingGrant k => is_u64 (sgk_instance_id k)
  | TChunkServiceAuthority k => authority_wf (cak_authority k)
  | TChunkServiceHandoff _ => True
  | TChunkSlotFence k => 0 <= csf_slot k < CHUNK_SLOT_COUNT
  | TChunkSlotMapHead _ => True
  | TStreamProcessLease k => is_u64 (spl_instance_id k)
  | TInstance k => (47 ∉ ik_service k) /\ is_u64 (ik_instance_id k)
  end.

(** ** Segments *)

Lemma show_dec_slash v : 47 ∉ show_dec v.
Proof.
  intros Hin. unfold show_dec in Hin. apply list_elem_of_fmap in Hin as (d & E & Hd).
  assert (Hr : Forall (fun d => 0 <= d < 10) (drop_zeros (reverse (digits_le 10 20 v)))).
  { apply drop_zeros_incl, Forall_reverse, digits_le_range. lia. }
  rewrite Forall_forall in Hr. specialize (Hr d Hd). lia.
Qed.

Lemma nibble_slash v : 0 <= v < 16 -> nibble_to_hex v <> 47.
Proof. intros. unfold nibble_to_hex. zcase; lia. Qed.

Lemma nibbles_slash l : Forall (fun v => 0 <= v < 16) l -> 47 ∉ nibble_to_hex <$> l.
Proof.
  intros Hl Hin. apply list_elem_of_fmap in Hin as (d & E & Hd). rewrite Forall_forall in Hl.
  by apply (nibble_slash d (Hl d Hd)).
Qed.

Lemma format_016x_nibbles z : Forall (fun v => 0 <= v < 16) (reverse (digits_le 16 16 z)).
Proof. apply Forall_reverse, digits_le_range. lia. Qed.

Lemma encode_hex_slash l : Forall is_byte l -> 47 ∉ encode_hex l.
Proof.
  induction 1 as [|b l Hb _ IH]; cbn [encode_hex]; [apply not_elem_of_nil|].
  rewrite !not_elem_of_cons. unfold is_byte in Hb.
  split_and!; [apply not_eq_sym, nibble_slash|apply not_eq_sym, nibble_slash|done]; (split; [apply Z.div_pos; lia|]) || idtac;
    try (apply Z.div_lt_upper_bound; lia); apply Z.mod_pos_bound; lia.
Qed.

Lemma fence_value_bytes a : authority_wf a -> Forall is_byte (to_fence_value a).
Proof.
  intros (_ & _ & _ & Hb & _). unfold to_fence_value, to_be_bytes. constructor; [by split|].
  repeat (apply Forall_app; split); [..|done|]; apply Forall_reverse, to_le_bytes_ok.
Qed.

Lemma any_path_join k : any_path k = join_with 47 ([] :: segments k).
Proof. by destruct k. Qed.

Ltac no_slash :=
  first [apply show_dec_slash | apply not_elem_of_app; split; apply nibbles_slash, format_016x_nibbles
        | by apply encode_hex_slash, fence_value_bytes | vm_compute; set_solver].

Lemma segments_ok k : text_ok k -> Forall (fun p => 47 ∉ p) (segments k).
Proof.
  destruct k; cbn [text_ok segments]; intros Hk;
    repeat first [apply Forall_nil_2 | apply Forall_cons_2]; try no_slash; try apply Hk.
  destruct k; no_slash.
Qed.

Lemma split_path k : text_ok k -> split_char 47 (any_path k) = [] :: segments k.
Proof.
  intros Hk. rewrite any_path_join. apply split_join; [done|]. apply Forall_cons_2; [apply not_elem_of_nil|by apply segments_ok].
Qed.

(** ** Numbers *)

Lemma decode_show v : is_u64 v -> decode_path_u64 (show_dec v) = Ok v.
Proof. intros Hv. unfold decode_path_u64. by rewrite parse_show_dec by (unfold is_u64 in Hv; lia). Qed.

Lemma show_dec_inj v w : is_u64 v -> is_u64 w -> show_dec v = show_dec w -> v = w.
Proof. intros Hv Hw E. pose proof (decode_show v Hv) as R. rewrite E, decode_show in R by done. congruence. Qed.

Lemma format_016x_length z : length (format_016x z) = 16%nat.
Proof. reflexivity. Qed.

Lemma parse_format_016x z : is_u64 z -> parse_hex_u64 (format_016x z) = Some z.
Proof.
  intros Hz. unfold is_u64 in Hz. unfold parse_hex_u64, format_016x.
  assert (Hv : digits_value 16 0 (reverse (digits_le 16 16 z)) = z).
  { apply digits_le_value; [lia|]. change (16 ^ Z.of_nat 16) with (2 ^ 64). lia. }
  rewrite parse_uint_value, Hv; [done|lia|apply reverse_digits_ne| |lia].
  eapply Forall_impl; [apply format_016x_nibbles|].
  simpl. intros d Hd. split_and!; [lia|by apply hex_nibble|]. unfold nibble_to_hex. zcase; lia.
Qed.

Lemma disk_id_text id : is_u64 (disk_high id) -> is_u64 (disk_low id) ->
  decode_path_disk_id (format_016x (disk_high id) ++ format_016x (disk_low id)) = Ok id.
Proof.
  intros Hh Hl. unfold decode_path_disk_id. rewrite length_app, !format_016x_length. cbn [Nat.add Nat.eqb negb].
  assert (is_char_boundary (format_016x (disk_high id) ++ format_016x (disk_low id)) 16 = true) as ->.
  { unfold is_char_boundary. rewrite lookup_app_r by (by rewrite format_016x_length). rewrite format_016x_length.
    unfold format_016x. rewrite list_lookup_fmap. pose proof (format_016x_nibbles (disk_low id)) as Hn.
    destruct (reverse _ !! _) as [d|] eqn:E; [|by apply lookup_ge_None in E; rewrite length_reverse in E; vm_compute in E; lia].
    rewrite Forall_lookup in Hn. specialize (Hn _ _ E). cbn [fmap option_fmap option_map]. unfold nibble_to_hex. by zcase. }
  cbn [negb]. rewrite take_app_length', drop_app_length' by done.
  rewrite !parse_format_016x by done. by destruct id.
Qed.

Lemma parse_digits_range base bound digit l : 0 <= base -> (forall c d, digit c = Some d -> 0 <= d) ->
  forall acc v, 0 <= acc < bound -> parse_digits base bound digit acc l = Some v -> 0 <= v < bound.
Proof.
  intros Hb Hd. induction l as [|c l IH]; intros acc v Hacc; cbn [parse_digits]; [by intros [= <-]|].
  destruct (digit c) as [d|] eqn:E; [|done]. destruct (Z.ltb_spec (acc * base + d) bound); [|done].
  apply IH. specialize (Hd _ _ E). nia.
Qed.

Lemma parse_uint_range base bound digit l v : 0 <= base -> 0 < bound -> (forall c d, digit c = Some d -> 0 <= d) ->
  parse_uint base bound digit l = Some v -> 0 <= v < bound.
Proof.
  intros Hb Hbd Hd. unfold parse_uint. destruct (strip_plus l) as [|c r]; [done|]. apply parse_digits_range; [done|done|lia].
Qed.

Lemma parse_dec_range bound l v : 0 < bound -> parse_dec bound l = Some v -> 0 <= v < bound.
Proof. intros Hb. apply parse_uint_range; [lia|done|]. unfold dec_digit. intros c d. zcase; try done; intros [= <-]; lia. Qed.

Lemma parse_hex_range l v : parse_hex_u64 l = Some v -> is_u64 v.
Proof.
  apply parse_uint_range; [lia|done|]. unfold hex_to_nibble. intros c d. zcase; try done; intros [= <-]; lia.
Qed.

Lemma decode_u64_ok part v : decode_path_u64 part = Ok v -> is_u64 v.
Proof.
  unfold decode_path_u64. destruct (parse_dec _ part) as [w|] eqn:E; [|done]. intros [= <-]. by apply parse_dec_range in E.
Qed.

Lemma decode_disk_ok part id : decode_path_disk_id part = Ok id -> is_u64 (disk_high id) /\ is_u64 (disk_low id).
Proof.
  unfold decode_path_disk_id. do 2 (destruct (negb _); [done|]).
  destruct (parse_hex_u64 (take 16 part)) as [h|] eqn:Eh; [|done]. cbn [ok_or result_bind].
  destruct (parse_hex_u64 (drop 16 part)) as [l|] eqn:El; [|done]. cbn [ok_or result_bind]. intros [= <-].
  apply parse_hex_range in Eh. by apply parse_hex_range in El.
Qed.

(** ** Reading a path *)

Section from_path_facts.
Context {K : Type} `{TextKey K}.

Lemma from_path_hit s rest : split_char 47 s = [] :: trim_start_slash (PATH_MAGIC K) :: PATH_TYPE K :: rest ->
  from_path s = decode_path rest.
Proof. intros E. unfold from_path. rewrite E. cbn -[bool_decide]. by rewrite !bool_decide_eq_true_2 by done. Qed.

Lemma from_path_other s m t rest : split_char 47 s = [] :: m :: t :: rest ->
  (m, t) <> (trim_start_slash (PATH_MAGIC K), PATH_TYPE K) ->
  exists e, (e = BadMagic \/ e = BadTag) /\ from_path s = Err (Key e).
Proof.
  intros E Hne. unfold from_path. rewrite E. cbn -[bool_decide]. rewrite bool_decide_eq_true_2 by done. cbn -[bool_decide].
  case_bool_decide as Em; cbn -[bool_decide]; [|by eauto]. case_bool_decide; cbn; [congruence|by eauto].
Qed.

Lemma from_path_inv s r : from_path s = r -> (forall e, r <> Err (Key e)) ->
  exists rest, split_char 47 s = [] :: trim_start_slash (PATH_MAGIC K) :: PATH_TYPE K :: rest /\ decode_path rest = r.
Proof.
  intros <- Hr. unfold from_path in *. destruct (split_char 47 s) as [|a [|m [|t rest]]]; [exfalso; by eapply Hr..|].
  cbn -[bool_decide] in *. case_bool_decide; cbn -[bool_decide] in *; [|exfalso; by eapply Hr].
  case_bool_decide; cbn -[bool_decide] in *; [|exfalso; by eapply Hr].
  case_bool_decide; cbn -[bool_decide] in *; [|exfalso; by eapply Hr]. exists rest. by subst.
Qed.
End from_path_facts.

(** ** Round trip *)

Lemma decode_pairs_hex l : Forall is_byte l -> decode_pairs (encode_hex l) = Ok l.
Proof.
  assert (Hd : forall v, 0 <= v < 16 -> authority_digit (nibble_to_hex v) = Ok v).
  { intros v Hv. unfold authority_digit, nibble_to_hex. zcase; f_equal; lia. }
  induction 1 as [|b l Hb _ IH]; [done|]. unfold is_byte in Hb. cbn [encode_hex decode_pairs].
  rewrite Hd by (split; [apply Z.div_pos|apply Z.div_lt_upper_bound]; lia). cbn [result_bind].
  rewrite Hd by (apply Z.mod_pos_bound; lia). cbn [result_bind]. rewrite IH. cbn [result_bind]. do 2 f_equal.
  pose proof (Z.div_mod b 16). lia.
Qed.

Lemma encode_hex_length l : length (encode_hex l) = (2 * length l)%nat.
Proof. induction l as [|b l IH]; [done|]. cbn [encode_hex length]. lia. Qed.

Lemma fence_text slot : 0 <= slot < CHUNK_SLOT_COUNT -> decode_path [show_dec slot] = Ok (mkChunkSlotFenceKey slot).
Proof.
  intros Hs. change CHUNK_SLOT_COUNT with 1024 in Hs.
  assert (Hg : forallb (fun v =>
     match @decode_path ChunkSlotFenceKey _ [show_dec v] with Ok k => csf_slot k =? v | Err _ => false end) (seqZ 0 1024) = true).
  { vm_compute. reflexivity. }
  rewrite forallb_forall in Hg. specialize (Hg slot). destruct (decode_path _) as [[v]|].
  - rewrite Z.eqb_eq in Hg. rewrite <- Hg; [done|]. apply list_elem_of_In, elem_of_seqZ. lia.
  - exfalso. discriminate Hg. apply list_elem_of_In, elem_of_seqZ. lia.
Qed.

Ltac open_decode :=
  cbv [decode_path
        RackKey_text NodeKey_text DiskGroupKey_text DiskKey_text OwnerMapKey_text BindMapKey_text
        DiskGroupUsageKey_text KvStoreKey_text KvGroupKey_text KvGroupMembersKey_text KvReplicaKey_text
        ChunkdbRangeBindingKey_text ChunkdbRangeMigrationKey_text ChunkKvTransferKey_text
        ChunkKvSplitKey_text ChunkKvRangeCatalogPageKey_text ChunkServiceSlotsKey_text
        ChunkStorageSlotsKey_text StreamWriterOwnerKey_text DomainMonitorKey_text
        ChunkKvRangeCatalogHeadKey_text ServingGrantKey_text ChunkServiceAuthorityKey_text
        ChunkServiceHandoffKey_text ChunkSlotFenceKey_text ChunkSlotMapHeadKey_text
        StreamProcessLeaseKey_text].

Ltac read_segments :=
  cbn [length Nat.ltb Nat.leb index lookup list_lookup ok_or result_bind check_path_exact Nat.eqb negb];
  rewrite ?decode_show, ?disk_id_text by assumption; cbn [result_bind].

Lemma index_text v : is_u32 v -> (let? w := decode_path_u64 (show_dec v) in u32_try_from w) = Ok v.
Proof.
  unfold is_u32. intros Hv. rewrite decode_show by (unfold is_u64; lia). cbn [result_bind]. unfold u32_try_from.
  by rewrite (proj2 (Z.ltb_lt _ _)) by lia.
Qed.

Lemma authority_text a : authority_wf a ->
  decode_path [encode_hex (to_fence_value a)] = Ok (mkChunkServiceAuthorityKey a).
Proof.
  intros Ha. open_decode. read_segments. rewrite encode_hex_length, fence_value_length by apply Ha. cbn [Nat.mul Nat.add Nat.eqb negb].
  rewrite decode_pairs_hex by (by apply fence_value_bytes). cbn [result_bind]. by rewrite fence_value_roundtrip.
Qed.

Lemma text_roundtrip k : text_ok k -> decode_text (text_kind_of k) (any_path k) = Ok k.
Proof.
  intros Hk. pose proof (split_path k Hk) as Hs.
  destruct k; cbn [text_kind_of decode_text any_path]; try (erewrite from_path_hit; [|exact Hs]; clear Hs); cbn [text_ok] in Hk;
    repeat match goal with H : _ /\ _ |- _ => destruct H end;
    try (open_decode; repeat read_segments; first [by destruct k as []|by destruct k as [[]]]).
  - open_decode. read_segments. pose proof (index_text _ Hk) as E. destruct (decode_path_u64 _); [|done]. cbn [result_bind] in E |- *.
    rewrite E. cbn [result_bind]. by destruct k.
  - open_decode. read_segments. pose proof (index_text _ Hk) as E. destruct (decode_path_u64 _); [|done]. cbn [result_bind] in E |- *.
    rewrite E. cbn [result_bind]. by destruct k.
  - rewrite authority_text by done. by destruct k.
  - rewrite fence_text by done. by destruct k.
  - destruct k as [pu v]. open_decode. cbn [spl_purpose spl_instance_id] in *. read_segments.
    rewrite decode_show by (by destruct pu). by destruct pu; repeat read_segments.
  - unfold instance_from_path. change (any_path (TInstance k)) with (instance_to_path k) in Hs. rewrite Hs.
    cbn -[bool_decide bs decode_path_u64]. rewrite !bool_decide_eq_true_2 by done. cbn [negb orb]. read_segments. by destruct k.
Qed.

(** ** Every other kind refuses the path *)

Definition magic_of (kd : text_kind) : bytes :=
  match kd with
  | RackText | NodeText | DiskGroupText | DiskText | OwnerMapText | BindMapText | DiskGroupUsageText => bs "hw"
  | KvStoreText | KvGroupText | KvGroupMembersText | KvReplicaText => bs "kv"
  | ChunkdbRangeBindingText | ChunkdbRangeMigrationText | ChunkServiceSlotsText | ChunkStorageSlotsText |
  ChunkServiceAuthorityText | ChunkServiceHandoffText | ChunkSlotFenceText | ChunkSlotMapHeadText => bs
  "chunkdb"
  | ChunkKvTransferText | ChunkKvSplitText | ChunkKvRangeCatalogPageText | ChunkKvRangeCatalogHeadText |
  ServingGrantText => bs "chunk-kv"
  | StreamWriterOwnerText | StreamProcessLeaseText => bs "stream-owner"
  | DomainMonitorText => bs "monitor"
  | InstanceText => bs "srv"
  end.

Definition type_of (kd : text_kind) : bytes :=
  match kd with
  | RackText => bs "rack"
  | NodeText => bs "node"
  | DiskGroupText => bs "dg"
  | DiskText => bs "disk"
  | OwnerMapText => bs "dg_owner"
  | BindMapText => bs "dg_bind"
  | DiskGroupUsageText => bs "dg_usage"
  | KvStoreText => bs "store"
  | KvGroupText => bs "group"
  | KvGroupMembersText => bs "members"
  | KvReplicaText => bs "replica"
  | ChunkdbRangeBindingText => bs "range_bind"
  | ChunkdbRangeMigrationText => bs "range_mig"
  | ChunkKvTransferText => bs "transfer"
  | ChunkKvSplitText => bs "split"
  | ChunkKvRangeCatalogPageText => bs "catalog-page"
  | ChunkServiceSlotsText => bs "slot_service"
  | ChunkStorageSlotsText => bs "slot_storage"
  | StreamWriterOwnerText => bs "writer"
  | DomainMonitorText => bs "domain"
  | ChunkKvRangeCatalogHeadText => bs "catalog-head"
  | ServingGrantText => bs "serving-grant"
  | ChunkServiceAuthorityText => bs "slot_authority"
  | ChunkServiceHandoffText => bs "slot_handoff"
  | ChunkSlotFenceText => bs "ownership-fence"
  | ChunkSlotMapHeadText => bs "slot_head"
  | StreamProcessLeaseText => bs "process"
  | InstanceText => []
  end.

Definition kinds : list text_kind :=
  [RackText; NodeText; DiskGroupText; DiskText; OwnerMapText; BindMapText; DiskGroupUsageText; KvStoreText;
   KvGroupText; KvGroupMembersText; KvReplicaText; ChunkdbRangeBindingText; ChunkdbRangeMigrationText;
   ChunkKvTransferText; ChunkKvSplitText; ChunkKvRangeCatalogPageText; ChunkServiceSlotsText;
   ChunkStorageSlotsText; StreamWriterOwnerText; DomainMonitorText; ChunkKvRangeCatalogHeadText;
   ServingGrantText; ChunkServiceAuthorityText; ChunkServiceHandoffText; ChunkSlotFenceText;
   ChunkSlotMapHeadText; StreamProcessLeaseText; InstanceText].

Definition kind_of_names (n : bytes * bytes) : option text_kind :=
  List.find (fun kd => bool_decide ((magic_of kd, type_of kd) = n)) kinds.

Lemma names_inj kd kd' : (magic_of kd, type_of kd) = (magic_of kd', type_of kd') -> kd = kd'.
Proof.
  assert (Hk : forall kd, kind_of_names (magic_of kd, type_of kd) = Some kd) by (intros []; vm_compute; reflexivity).
  intros E. pose proof (Hk kd) as E1. rewrite E, Hk in E1. congruence.
Qed.

Lemma segments_head k : text_kind_of k <> InstanceText ->
  exists rest, segments k = magic_of (text_kind_of k) :: type_of (text_kind_of k) :: rest.
Proof. destruct k; try done; intros _; eexists; reflexivity. Qed.

Lemma decode_text_other kd s m t rest : split_char 47 s = [] :: m :: t :: rest -> kd <> InstanceText ->
  (m, t) <> (magic_of kd, type_of kd) -> exists e, (e = BadMagic \/ e = BadTag) /\ decode_text kd s = Err (Key e).
Proof.
  intros Hs Hi Hne. destruct kd; try done; cbn [decode_text];
    match goal with |- context [@from_path ?K ?I s] =>
      destruct (@from_path_other K I s m t rest Hs Hne) as (e & He & ->); by exists e
    end.
Qed.

Lemma instance_path_other s m t rest : split_char 47 s = [] :: m :: t :: rest -> m <> bs "srv" ->
  decode_text InstanceText s = Err (Key BadMagic).
Proof.
  intros Hs Hm. cbn [decode_text]. unfold instance_from_path. rewrite Hs. cbn [lookup_total list_lookup_total].
  rewrite (bool_decide_eq_false_2 (m = bs "srv")) by done. cbn [negb]. by rewrite !orb_true_r.
Qed.

Lemma text_wrong_kind k kd : text_ok k -> kd <> text_kind_of k ->
  exists e, (e = BadMagic \/ e = BadTag) /\ decode_text kd (any_path k) = Err (Key e).
Proof.
  intros Hk Hne. pose proof (split_path k Hk) as Hs.
  destruct (decide (text_kind_of k = InstanceText)) as [Ei|Ei].
  - destruct k; try done. eapply decode_text_other; [exact Hs|done|]. by destruct kd.
  - destruct (segments_head k Ei) as [rest E]. rewrite E in Hs.
    destruct (decide (kd = InstanceText)) as [->|Hi].
    + exists BadMagic. split; [by left|]. eapply instance_path_other; [exact Hs|]. by destruct k.
    + eapply decode_text_other; [exact Hs|done|]. intros En. apply Hne. symmetry. by apply names_inj.
Qed.

(** ** What a decoder returns *)

Lemma split_char_clean c l : Forall (fun p => c ∉ p) (split_char c l).
Proof.
  induction l as [|x l IH]; cbn [split_char]; [repeat constructor; apply not_elem_of_nil|].
  destruct (Z.eqb_spec x c) as [->|Hx]; [constructor; [apply not_elem_of_nil|done]|].
  destruct (split_char c l) as [|p ps]; [apply Forall_singleton; rewrite list_elem_of_singleton; congruence|].
  apply Forall_cons in IH as [Hp IH]. constructor; [rewrite elem_of_cons; naive_solver|done].
Qed.

Lemma split_char_elem c l p b : p ∈ split_char c l -> b ∈ p -> b ∈ l.
Proof.
  revert p. induction l as [|x l IH]; intros p; cbn [split_char].
  { rewrite list_elem_of_singleton. by intros ->. }
  rewrite (elem_of_cons l). destruct (Z.eqb_spec x c) as [->|Hx].
  { rewrite elem_of_cons. intros [->|Hp] Hb; [by apply elem_of_nil in Hb|]. right. by eapply IH. }
  destruct (split_char c l) as [|q ps].
  { rewrite list_elem_of_singleton. intros ->. rewrite list_elem_of_singleton. by left. }
  rewrite elem_of_cons. intros [->|Hp] Hb; [|right; eapply IH; [by right|done]].
  rewrite elem_of_cons in Hb. destruct Hb as [->|Hb]; [by left|right; eapply IH; [by left|done]].
Qed.

Lemma index_ok parts i p : index parts i = Ok p -> p ∈ parts.
Proof. unfold index. destruct (parts !! i) eqn:E; [|done]. intros [= <-]. by eapply list_elem_of_lookup_2. Qed.

Lemma index_err parts i e : index parts i = Err e -> (length parts <= i)%nat.
Proof. unfold index. destruct (parts !! i) eqn:E; [done|]. intros _. by apply lookup_ge_None. Qed.

Lemma exact_ok parts n u : check_path_exact parts n = Ok u -> n = length parts.
Proof. unfold check_path_exact. by destruct (Nat.eqb_spec n (length parts)). Qed.

Lemma exact_err parts n : check_path_exact parts n <> Err Panic.
Proof. unfold check_path_exact. by destruct (_ =? _)%nat. Qed.

Lemma ok_or_err {A} (o : option A) e : ok_or o (Key e) <> Err Panic.
Proof. by destruct o. Qed.

Lemma u32_ok v w : u32_try_from v = Ok w -> is_u64 v -> is_u32 w.
Proof. unfold u32_try_from, is_u64, is_u32. destruct (Z.ltb_spec v (2 ^ 32)); [|done]. intros [= <-]. lia. Qed.

Lemma u32_err v : u32_try_from v <> Err Panic.
Proof. unfold u32_try_from. by destruct (_ <? _). Qed.

Lemma decode_pairs_err l : decode_pairs l <> Err Panic.
Proof.
  assert (Hd : forall b, authority_digit b <> Err Panic) by (intros b; unfold authority_digit; by zcase).
  enough (forall n l, (length l <= n)%nat -> decode_pairs l <> Err Panic) by eauto. clear l.
  induction n as [|n IH]; intros [|x [|y l]] Hl; try done; [simpl in Hl; lia|]. cbn [decode_pairs]. specialize (IH l ltac:(simpl in Hl; lia)).
  pose proof (Hd x). pose proof (Hd y). destruct (authority_digit x); cbn [result_bind]; [|congruence].
  destruct (authority_digit y); cbn [result_bind]; [|congruence]. destruct (decode_pairs l); cbn [result_bind]; congruence.
Qed.

Lemma decode_pairs_bytes l v : decode_pairs l = Ok v -> Forall is_byte v.
Proof.
  assert (Hd : forall b d, authority_digit b = Ok d -> 0 <= d < 16).
  { intros b d. unfold authority_digit. zcase; try done; intros [= <-]; lia. }
  enough (forall n l v, (length l <= n)%nat -> decode_pairs l = Ok v -> Forall is_byte v) by eauto. clear l v.
  induction n as [|n IH]; intros [|x [|y l]] v Hl; try (intros [= <-]; constructor); [simpl in Hl; lia|]. cbn [decode_pairs].
  destruct (authority_digit x) eqn:Ex; cbn [result_bind]; [|done]. destruct (authority_digit y) eqn:Ey; cbn [result_bind]; [|done].
  destruct (decode_pairs l) eqn:El; cbn [result_bind]; [|done]. intros [= <-]. constructor; [|eapply IH; [|done]; simpl in Hl; lia].
  apply Hd in Ex. apply Hd in Ey. unfold is_byte. lia.
Qed.

Lemma fence_value_sound b a : Forall is_byte b -> from_fence_value b = Some a -> authority_wf a.
Proof.
  intros Hb. unfold from_fence_value. destruct (Nat.eqb_spec (length b) 33) as [Hl|]; [|done]. cbn [negb].
  destruct (negb _); [done|]. unfold incarnation_try_from. case_bool_decide as Hz; [done|]. cbn [mbind option_bind].
  unfold authority_new. destruct (Z.eqb_spec (from_be_bytes (slice b 1 8)) 0); [done|].
  destruct (Z.eqb_spec (from_be_bytes (slice b 25 8)) 0); [done|]. intros [= <-].
  assert (Hn : forall o, (o + 8 <= 33)%nat -> 0 <= from_be_bytes (slice b o 8) <= u64_max).
  { intros o Ho. assert (Hs : Forall is_byte (slice b o 8)) by (by apply Forall_take, Forall_drop).
    apply from_be_bound in Hs. rewrite slice_length in Hs by lia. change (width 8) with (2 ^ 64) in Hs. unfold u64_max. lia. }
  pose proof (Hn 1%nat). pose proof (Hn 25%nat). split_and!; cbn [instance_id epoch incarnation]; [lia..| | |done].
  - apply slice_length. lia.
  - by apply Forall_take, Forall_drop.
Qed.

Lemma disk_high_ok part id : decode_path_disk_id part = Ok id -> is_u64 (disk_high id).
Proof. intros E. apply decode_disk_ok in E. apply E. Qed.

Lemma disk_low_ok part id : decode_path_disk_id part = Ok id -> is_u64 (disk_low id).
Proof. intros E. apply decode_disk_ok in E. apply E. Qed.

(** Follow a decoder to its result. *)
Ltac run_decode :=
  repeat (match goal with
          | |- (if ?b then _ else _) = _ -> _ => destruct b eqn:?
          | |- result_bind ?r _ = _ -> _ => destruct r eqn:?; cbn [result_bind]
          end; try done).

Lemma text_decoded kd s k : decode_text kd s = Ok k -> text_kind_of k = kd /\ text_ok k.
Proof.
  destruct kd; cbn [decode_text];
    lazymatch goal with
    | |- result_bind (from_path s) _ = _ -> _ =>
        destruct (from_path s) as [x|] eqn:E; [|done]; cbn [result_bind]; intros [= <-]; split; [reflexivity|];
        apply from_path_inv in E as (rest & Hs & E); [|done]; pose proof (split_char_clean 47 s) as Hc; rewrite Hs in Hc;
        revert E; open_decode; run_decode
    | |- _ => idtac
    end; try (intros [= <-]; simpl; repeat match goal with |- _ /\ _ => split end;
              eauto using decode_u64_ok, disk_high_ok, disk_low_ok, u32_ok; done).
  - intros [= <-]. cbn [text_ok dmk_domain]. apply bool_decide_eq_false in Heqb. split; [done|].
    rewrite Forall_forall in Hc. apply Hc. do 3 right. destruct rest; [done|]. injection Heqr0 as <-. by left.
  - intros [= <-]. destruct (from_fence_value _) eqn:Ef; [|done]. injection Heqr2 as <-.
    eapply fence_value_sound; [by eapply decode_pairs_bytes|done].
  - destruct (parse_dec (2 ^ 16) a0) as [v|] eqn:Ep; [|done]. injection Heqr1 as <-. apply parse_dec_range in Ep; [|done].
    unfold slot_try_from. destruct (Z.leb_spec CHUNK_SLOT_COUNT v); [done|]. intros [= <-]. cbn [text_ok csf_slot]. lia.
  - unfold instance_from_path. destruct (split_char 47 s) as [|a [|b [|c [|d []]]]] eqn:Es; cbn -[bool_decide bs decode_path_u64];
      try done. destruct (_ || _); [done|]. destruct (decode_path_u64 d) eqn:E; [|done]. cbn [result_bind]. intros [= <-].
    split; [done|]. cbn [text_ok ik_service ik_instance_id]. pose proof (split_char_clean 47 s) as Hc. rewrite Es in Hc.
    split; [|by eapply decode_u64_ok]. rewrite Forall_forall in Hc. apply Hc. set_solver.
Qed.

(** Only the disk decoder can panic. *)
Lemma disk_panic part : decode_path_disk_id part = Err Panic -> exists b, b ∈ part /\ 128 <= b.
Proof.
  unfold decode_path_disk_id. destruct (Nat.eqb_spec (length part) 32) as [Hl|]; [|done]. cbn [negb].
  destruct (is_char_boundary part 16) eqn:E; cbn [negb].
  - destruct (parse_hex_u64 (take 16 part)); [|done]. cbn [ok_or result_bind]. by destruct (parse_hex_u64 (drop 16 part)).
  - intros _. unfold is_char_boundary in E. destruct (lookup_lt_is_Some_2 part 16) as [b Eb]; [lia|]. rewrite Eb in E.
    exists b. split; [by eapply list_elem_of_lookup_2|]. zcase; lia.
Qed.

(** An error on the way is not a panic: the segment is there, or the error is
    one of the four. *)
Ltac no_panic :=
  intros [= ->]; exfalso;
  repeat match goal with
         | E : index _ _ = Err _ |- _ => apply index_err in E
         | E : check_path_exact _ _ = Ok _ |- _ => apply exact_ok in E
         | E : (_ <? _)%nat = false |- _ => apply Nat.ltb_ge in E
         end;
  first [lia
        |by eapply ok_or_err|by eapply exact_err|by eapply u32_err|by eapply decode_pairs_err].

Lemma text_panic kd s : decode_text kd s = Err Panic -> kd = DiskText /\ exists b, b ∈ s /\ 128 <= b.
Proof.
  destruct kd; cbn [decode_text];
    lazymatch goal with
    | |- result_bind (from_path s) _ = _ -> _ =>
        destruct (from_path s) as [|x] eqn:E; [done|]; cbn [result_bind]; intros [= ->];
        apply from_path_inv in E as (rest & Hs & E); [|done];
        revert E; open_decode; run_decode; try no_panic
    | |- _ => idtac
    end.
  - intros [= ->]. split; [done|]. apply disk_panic in Heqr6 as (b & Hb & Hge). exists b. split; [|done].
    eapply split_char_elem; [|done]. rewrite Hs. do 3 right. by eapply index_ok.
  - by destruct (slot_try_from _).
  - intros [= ->]. exfalso. by zcase.
  - unfold instance_from_path. destruct (_ || _); [done|]. unfold decode_path_u64.
    by destruct (parse_dec _ _).
Qed.

(** ** Scans *)

Inductive text_scan :=
| TextAll (kd : text_kind)
| TextNodesOfRack (r : Z)
| TextDiskGroupsOfNode (r n : Z)
| TextDisksOfDiskGroup (r n g : Z)
| TextOwnersOfNode (r n : Z)
| TextBindsOfNode (r n : Z)
| TextGroupsOfStore (s : Z)
| TextMembersOfStore (s : Z)
| TextReplicasOfStore (s : Z)
| TextReplicasOfGroup (s g : Z)
| TextInstancesOfService (service : bytes).

(** [TextKey::prefix_all] of each kind; [InstanceKey] has none. *)
Definition kind_prefix (kd : text_kind) : bytes :=
  match kd with
  | RackText => text_prefix_all RackKey
  | NodeText => text_prefix_all NodeKey
  | DiskGroupText => text_prefix_all DiskGroupKey
  | DiskText => text_prefix_all DiskKey
  | OwnerMapText => text_prefix_all OwnerMapKey
  | BindMapText => text_prefix_all BindMapKey
  | DiskGroupUsageText => text_prefix_all DiskGroupUsageKey
  | KvStoreText => text_prefix_all KvStoreKey
  | KvGroupText => text_prefix_all KvGroupKey
  | KvGroupMembersText => members_prefix_all
  | KvReplicaText => text_prefix_all KvReplicaKey
  | ChunkdbRangeBindingText => text_prefix_all ChunkdbRangeBindingKey
  | ChunkdbRangeMigrationText => text_prefix_all ChunkdbRangeMigrationKey
  | ChunkKvTransferText => text_prefix_all ChunkKvTransferKey
  | ChunkKvSplitText => text_prefix_all ChunkKvSplitKey
  | ChunkKvRangeCatalogPageText => text_prefix_all ChunkKvRangeCatalogPageKey
  | ChunkServiceSlotsText => text_prefix_all ChunkServiceSlotsKey
  | ChunkStorageSlotsText => text_prefix_all ChunkStorageSlotsKey
  | StreamWriterOwnerText => text_prefix_all StreamWriterOwnerKey
  | DomainMonitorText => text_prefix_all DomainMonitorKey
  | ChunkKvRangeCatalogHeadText => text_prefix_all ChunkKvRangeCatalogHeadKey
  | ServingGrantText => text_prefix_all ServingGrantKey
  | ChunkServiceAuthorityText => text_prefix_all ChunkServiceAuthorityKey
  | ChunkServiceHandoffText => text_prefix_all ChunkServiceHandoffKey
  | ChunkSlotFenceText => text_prefix_all ChunkSlotFenceKey
  | ChunkSlotMapHeadText => text_prefix_all ChunkSlotMapHeadKey
  | StreamProcessLeaseText => text_prefix_all StreamProcessLeaseKey
  | InstanceText => []
  end.

Definition text_scan_prefix (q : text_scan) : bytes :=
  match q with
  | TextAll kd => kind_prefix kd
  | TextNodesOfRack r => text_prefix_for_rack r
  | TextDiskGroupsOfNode r n => dg_prefix_for_node r n
  | TextDisksOfDiskGroup r n g => text_prefix_for_disk_group r n g
  | TextOwnersOfNode r n => owner_prefix_for_node r n
  | TextBindsOfNode r n => bind_prefix_for_node r n
  | TextGroupsOfStore s => group_prefix_for_store s
  | TextMembersOfStore s => members_prefix_for_store s
  | TextReplicasOfStore s => replica_prefix_for_store s
  | TextReplicasOfGroup s g => replica_prefix_for_group s g
  | TextInstancesOfService service => text_prefix_for_service service
  end.

(** The prefix of all keys of a kind ends in a slash, so it misses the catalog
    head, whose path has no field. *)
Definition text_selects (q : text_scan) (k : AnyText) : Prop :=
  match q, k with
  | TextAll kd, _ => text_kind_of k = kd /\ kd <> ChunkKvRangeCatalogHeadText
  | TextNodesOfRack r, TNode k => nk_rack_id k = r
  | TextDiskGroupsOfNode r n, TDiskGroup k => dgk_rack_id k = r /\ dgk_node_id k = n
  | TextDisksOfDiskGroup r n g, TDisk k => dk_rack_id k = r /\ dk_node_id k = n /\ dk_disk_group_id k = g
  | TextOwnersOfNode r n, TOwnerMap k => omk_rack_id k = r /\ omk_node_id k = n
  | TextBindsOfNode r n, TBindMap k => bmk_rack_id k = r /\ bmk_node_id k = n
  | TextGroupsOfStore s, TKvGroup k => kgk_store_id k = s
  | TextMembersOfStore s, TKvGroupMembers k => kgm_store_id k = s
  | TextReplicasOfStore s, TKvReplica k => krk_store_id k = s
  | TextReplicasOfGroup s g, TKvReplica k => krk_store_id k = s /\ krk_group_id k = g
  | TextInstancesOfService service, TInstance k => ik_service k = service
  | _, _ => False
  end.

Definition text_scan_ok (q : text_scan) : Prop :=
  match q with
  | TextAll kd => kd <> InstanceText
  | TextNodesOfRack x | TextGroupsOfStore x | TextMembersOfStore x | TextReplicasOfStore x => is_u64 x
  | TextDiskGroupsOfNode x y | TextOwnersOfNode x y | TextBindsOfNode x y | TextReplicasOfGroup x y => is_u64 x /\ is_u64 y
  | TextDisksOfDiskGroup x y z => is_u64 x /\ is_u64 y /\ is_u64 z
  | TextInstancesOfService service => 47 ∉ service
  end.

Definition text_scan_kind (q : text_scan) : text_kind :=
  match q with
  | TextAll kd => kd
  | TextNodesOfRack _ => NodeText
  | TextDiskGroupsOfNode _ _ => DiskGroupText
  | TextDisksOfDiskGroup _ _ _ => DiskText
  | TextOwnersOfNode _ _ => OwnerMapText
  | TextBindsOfNode _ _ => BindMapText
  | TextGroupsOfStore _ => KvGroupText
  | TextMembersOfStore _ => KvGroupMembersText
  | TextReplicasOfStore _ | TextReplicasOfGroup _ _ => KvReplicaText
  | TextInstancesOfService _ => InstanceText
  end.

Definition scan_tail (q : text_scan) : list bytes :=
  match q with
  | TextAll _ => []
  | TextNodesOfRack x | TextGroupsOfStore x | TextMembersOfStore x | TextReplicasOfStore x => [show_dec x]
  | TextDiskGroupsOfNode x y | TextOwnersOfNode x y | TextBindsOfNode x y | TextReplicasOfGroup x y => [show_dec x; show_dec y]
  | TextDisksOfDiskGroup x y z => [show_dec x; show_dec y; show_dec z]
  | TextInstancesOfService _ => []
  end.

Definition scan_segments (q : text_scan) : list bytes :=
  match q with
  | TextInstancesOfService service => [bs "srv"; service]
  | _ => magic_of (text_scan_kind q) :: type_of (text_scan_kind q) :: scan_tail q
  end.

Lemma scan_join q : text_scan_ok q -> text_scan_prefix q = join_with 47 ([] :: scan_segments q) ++ [47].
Proof.
  destruct q as [kd| | | | | | | | | |]; intros Hq; [by destruct kd|..]; unfold join_with;
    cbn [scan_segments scan_tail text_scan_kind magic_of type_of foldl]; rewrite <- ?app_assoc; reflexivity.
Qed.

Lemma join_app c ps r : ps <> [] -> r <> [] -> join_with c (ps ++ r) = join_with c ps ++ c :: join_with c r.
Proof.
  intros Hp Hr. induction ps as [|p ps IH]; [done|]. destruct ps as [|q ps].
  - destruct r as [|x r]; [done|]. apply join_with_cons.
  - change ((p :: q :: ps) ++ r) with (p :: q :: (ps ++ r)). rewrite !join_with_cons, <- app_assoc. f_equal.
    cbn [app]. f_equal. by apply IH.
Qed.

Lemma split_join_app c ps t : ps <> [] -> Forall (fun p => c ∉ p) ps ->
  split_char c (join_with c ps ++ c :: t) = ps ++ split_char c t.
Proof.
  intros Hp Hc. induction Hc as [|p ps Hx Hc IH]; [done|]. destruct ps as [|q ps].
  - by apply split_char_app.
  - rewrite join_with_cons, <- app_assoc. cbn [app]. rewrite split_char_app by done. f_equal. by apply IH.
Qed.

Lemma join_prefix c ps qs : ps <> [] -> qs <> [] -> Forall (fun p => c ∉ p) ps -> Forall (fun p => c ∉ p) qs ->
  join_with c ps ++ [c] `prefix_of` join_with c qs <-> exists r, r <> [] /\ qs = ps ++ r.
Proof.
  intros Hp Hq Hcp Hcq. split.
  - intros [t E]. apply (f_equal (split_char c)) in E. rewrite split_join, <- app_assoc in E by done. cbn [app] in E.
    rewrite split_join_app in E by done. exists (split_char c t). split; [|done].
    destruct t as [|x t]; [done|]. cbn [split_char]. destruct (x =? c); [done|]. by destruct (split_char c t).
  - intros (r & Hr & ->). rewrite join_app by done. exists (join_with c r). by rewrite <- app_assoc.
Qed.

Lemma scan_segments_ok q : text_scan_ok q -> Forall (fun p => 47 ∉ p) (scan_segments q).
Proof.
  assert (Hn : forall kd, (47 ∉ magic_of kd) /\ (47 ∉ type_of kd)).
  { assert (Hb : forall kd, negb (bool_decide (47 ∈ magic_of kd)) && negb (bool_decide (47 ∈ type_of kd)) = true)
      by (intros []; vm_compute; reflexivity).
    intros kd. specialize (Hb kd). apply andb_true_iff in Hb as [H1 H2]. by split;
      [apply negb_true_iff, bool_decide_eq_false in H1|apply negb_true_iff, bool_decide_eq_false in H2]. }
  intros Hq. destruct q; cbn [scan_segments scan_tail]; repeat first [apply Forall_nil_2 | apply Forall_cons_2];
    try apply show_dec_slash; try apply Hn; [vm_compute; set_solver|apply Hq].
Qed.

Lemma scan_same_kind k kd r : kd <> InstanceText -> segments k = magic_of kd :: type_of kd :: r -> text_kind_of k = kd.
Proof.
  intros Hi E. destruct (decide (text_kind_of k = InstanceText)) as [Ei|Ei].
  - destruct k; try done. injection E as E _ _. by destruct kd.
  - destruct (segments_head k Ei) as [rest E']. rewrite E' in E. apply names_inj. congruence.
Qed.

Lemma text_all_meaning kd k : kd <> InstanceText ->
  (exists r, r <> [] /\ segments k = magic_of kd :: type_of kd :: r) <-> text_kind_of k = kd /\ kd <> ChunkKvRangeCatalogHeadText.
Proof.
  intros Hi. split.
  - intros (r & Hr & E). pose proof (scan_same_kind _ _ _ Hi E) as Ek. split; [done|]. intros ->.
    destruct k; try done. by injection E as <-.
  - intros [<- Hh]. destruct k; try done; eexists; (split; [|reflexivity]); done.
Qed.

Lemma text_scan_meaning q k : text_scan_ok q -> text_ok k ->
  (exists r, r <> [] /\ segments k = scan_segments q ++ r) <-> text_selects q k.
Proof.
  intros Hq Hk. destruct q as [kd| | | | | | | | | |service]; [by apply text_all_meaning|..]; cbn [scan_segments]; split.
  all: try (intros (rest & Hr & E); cbn [app] in E;
    lazymatch type of E with
    | _ = magic_of ?kd :: _ => pose proof (scan_same_kind k kd _ ltac:(discriminate) E) as Ek; destruct k; try done;
        cbn [segments scan_tail text_scan_kind magic_of type_of app] in E; cbn [text_ok text_scan_ok] in *;
        repeat match goal with H : _ /\ _ |- _ => destruct H end; simplify_list_eq; cbn [text_selects];
        repeat match goal with |- _ /\ _ => split end; by apply show_dec_inj
    | _ => idtac
    end).
  all: try (destruct k; try done; cbn [text_selects]; intros; destruct_and?; subst; eexists; (split; [|reflexivity]); done).
  destruct k; try done. cbn [segments app] in E. by injection E.
Qed.

Lemma text_scan_exact q k : text_scan_ok q -> text_ok k -> text_scan_prefix q `prefix_of` any_path k <-> text_selects q k.
Proof.
  intros Hq Hk. rewrite scan_join, any_path_join, <- text_scan_meaning by done.
  rewrite join_prefix; [|done|done|constructor; [apply not_elem_of_nil|by apply scan_segments_ok]
                       |constructor; [apply not_elem_of_nil|by apply segments_ok]].
  split; intros (r & Hr & E); exists r; (split; [done|]); [by injection E|by rewrite E].
Qed.

(** C19. The text paths of group 0 are an exact encoding.  A key of any of the
    twenty-eight kinds reads back from its path to itself, two keys with the same
    path are the same key, and every other kind refuses the path for its magic or
    its type.  This is for keys whose integers fit their types, whose service or
    domain name has no slash and whose domain name is not empty; others are
    written, and never read back.  Whatever the input, a decoder returns such a
    key of its kind, or one of the errors: it can panic only when it decodes a
    disk key and the path has a byte that is not ASCII.  A scan prefix is a prefix
    of exactly the paths of the keys it names, except that the one for all
    catalog heads misses the only such key. *)
Theorem text_keys_exact k kd q : text_ok k -> text_scan_ok q ->
  decode_text (text_kind_of k) (any_path k) = Ok k /\
  (forall k', text_ok k' -> any_path k' = any_path k -> k' = k) /\
  (kd <> text_kind_of k -> exists e, (e = BadMagic \/ e = BadTag) /\ decode_text kd (any_path k) = Err (Key e)) /\
  (forall s k', decode_text kd s = Ok k' -> text_kind_of k' = kd /\ text_ok k') /\
  (forall s, decode_text kd s = Err Panic -> kd = DiskText /\ exists b, b ∈ s /\ 128 <= b) /\
  (text_scan_prefix q `prefix_of` any_path k <-> text_selects q k).
Proof.
  intros Hk Hq. split_and!; [by apply text_roundtrip| |by apply text_wrong_kind|intros s k'; apply text_decoded
                            |intros s; apply text_panic|by apply text_scan_exact].
  intros k' Hk' E. pose proof (text_roundtrip _ Hk) as R. pose proof (text_roundtrip _ Hk') as R'.
  destruct (decide (text_kind_of k' = text_kind_of k)) as [Ek|Ek].
  - rewrite E, Ek, R in R'. by injection R'.
  - destruct (text_wrong_kind _ _ Hk Ek) as (e & _ & W). rewrite E, W in R'. done.
Qed.

Definition replica_example : AnyText := TKvReplica (mkKvReplicaKey 7 12 3).

Lemma text_keys_exact_witness :
  any_path replica_example = bs "/kv/replica/7/12/3" /\
  decode_text KvReplicaText (bs "/kv/replica/7/12/3") = Ok replica_example /\
  text_scan_prefix (TextReplicasOfGroup 7 12) `prefix_of` any_path replica_example /\
  ~ text_scan_prefix (TextReplicasOfGroup 7 1) `prefix_of` any_path replica_example.
Proof.
  assert (Hk : text_ok replica_example) by (split_and!; vm_compute; done).
  destruct (text_keys_exact replica_example RackText (TextReplicasOfGroup 7 12) Hk) as (R & _ & _ & _ & _ & Hs).
  { split; vm_compute; done. }
  destruct (text_keys_exact replica_example RackText (TextReplicasOfGroup 7 1) Hk) as (_ & _ & _ & _ & _ & Hs').
  { split; vm_compute; done. }
  split_and!; [reflexivity|exact R|by apply Hs|]. intros Hp. apply Hs' in Hp as [_ Hp]. discriminate Hp.
Defined.

(** A disk path whose last segment has 32 bytes and a two-byte character across
    the middle: the slice of [decode_path_disk_id] panics. *)
Definition split_character : bytes := replicate 15 97 ++ [195; 169] ++ replicate 15 97.

Example disk_path_panics : decode_text DiskText (bs "/hw/disk/1/2/3/" ++ split_character) = Err Panic.
Proof. vm_compute. reflexivity. Qed.

(** A number is read with a sign and leading zeros, which no key writes. *)
Example numbers_not_canonical : decode_text RackText (bs "/hw/rack/+007") = Ok (TRack (mkRackKey 7)).
Proof. vm_compute. reflexivity. Qed.

(** A service name with a slash writes a path that its own reader refuses. *)
Example slash_in_service : decode_text InstanceText (any_path (TInstance (mkInstanceKey (bs "a/b") 5))) = Err (Key BadMagic).
Proof. vm_compute. reflexivity. Qed.

End TextKeys.
