(* ===== verification/UsageBitmap.v ===== *)
(** * Usage bitmaps

    Models [crowdb-protocol/src/bitmap.rs]: the bitmap of a disk zone, one bit
    per block in words of 64 bits.  This file has each operation as one thread
    runs it; [ZoneAlloc] interleaves the single atomic accesses.

    A word is an integer below [2 ^ 64].  An index past the last word panics:
    the operations return [None].

    [bitmap_ranges_exact]: setting or clearing a range changes exactly its bits
    and counts them, or finds a collision and leaves the bitmap as it was.
    [bitmap_snapshot_exact]: a snapshot restored for a geometry has the bits the
    snapshot had below the geometry's block count, and no others. *)

From stdpp Require Import prelude list.
From Stdlib Require Import ZArith Lia.
From S2P Require Import Prelude Bytes.

Module UsageBitmap.

(** ** Words and bits *)

Definition word_ok (w : Z) : Prop := 0 <= w < 2 ^ 64.

Definition word_index (bit : Z) : nat := Z.to_nat (bit / 64).
Definition mask (bit : Z) : Z := Z.shiftl 1 (bit mod 64).

(** [!m] on [u64] *)
Definition not64 (m : Z) : Z := Z.lxor m (Z.ones 64).

(** [w & mask != 0] *)
Definition masked (w m : Z) : bool := negb (Z.land w m =? 0).

(** A word of the bitmap; 0 past its end. *)
Definition word_of (ws : list Z) (i : nat) : Z := default 0 (ws !! i).

Definition get_bit (ws : list Z) (bit : Z) : bool := masked (word_of ws (word_index bit)) (mask bit).
Definition set_bit (ws : list Z) (bit : Z) : list Z :=
  <[word_index bit := Z.lor (word_of ws (word_index bit)) (mask bit)]> ws.
Definition clear_bit (ws : list Z) (bit : Z) : list Z :=
  <[word_index bit := Z.land (word_of ws (word_index bit)) (not64 (mask bit))]> ws.

(** ** The bitmap *)

Record UsageBitmap := mkBitmap { bits : list Z; block_count : Z }.

Definition bitmap_new (block_count : Z) : UsageBitmap :=
  mkBitmap (replicate (Z.to_nat ((block_count + 63) / 64)) 0) block_count.

Definition word_count (b : UsageBitmap) : nat := length (bits b).

Definition load_word (b : UsageBitmap) (index : nat) : option Z := bits b !! index.

(** [compare_exchange]: the old word on success, the word found on failure *)
Definition cas_word (b : UsageBitmap) (index : nat) (expected new : Z) : option (result Z Z * UsageBitmap) :=
  current ← bits b !! index;
  if current =? expected then Some (Ok current, mkBitmap (<[index := new]> (bits b)) (block_count b))
  else Some (Err current, b).

Definition cas_bit (b : UsageBitmap) (bit_index : Z) (set : bool) : option (bool * UsageBitmap) :=
  current ← bits b !! word_index bit_index;
  let bit_set := masked current (mask bit_index) in
  if Bool.eqb set bit_set then Some (false, b)
  else
    let new := if set then Z.lor current (mask bit_index) else Z.land current (not64 (mask bit_index)) in
    '(r, b') ← cas_word b (word_index bit_index) current new;
    Some (match r with Ok _ => true | Err _ => false end, b').

(** The rollback loops of [range_set] and [range_clear]: undo the first [i]. *)
Fixpoint undo_set (ws : list Z) (offset : Z) (i : nat) : list Z :=
  match i with O => ws | S i => clear_bit (undo_set ws offset i) (offset + Z.of_nat i) end.
Fixpoint undo_clear (ws : list Z) (offset : Z) (i : nat) : list Z :=
  match i with O => ws | S i => set_bit (undo_clear ws offset i) (offset + Z.of_nat i) end.

(** The loop of [range_set] from its [i]-th bit, [k] bits to go. *)
Fixpoint set_loop (ws : list Z) (offset : Z) (i k : nat) : option (bool * list Z) :=
  match k with
  | O => Some (true, ws)
  | S k =>
      let bit_index := offset + Z.of_nat i in
      prev ← ws !! word_index bit_index;
      let ws' := set_bit ws bit_index in
      if masked prev (mask bit_index) then Some (false, undo_set ws' offset i)
      else set_loop ws' offset (S i) k
  end.

Fixpoint clear_loop (ws : list Z) (offset : Z) (i k : nat) : option (bool * list Z) :=
  match k with
  | O => Some (true, ws)
  | S k =>
      let bit_index := offset + Z.of_nat i in
      prev ← ws !! word_index bit_index;
      let ws' := clear_bit ws bit_index in
      if masked prev (mask bit_index) then clear_loop ws' offset (S i) k
      else Some (false, undo_clear ws' offset i)
  end.

Definition range_set (b : UsageBitmap) (offset : Z) (count : nat) : option (bool * UsageBitmap) :=
  '(ok, ws) ← set_loop (bits b) offset 0 count;
  Some (ok, mkBitmap ws (block_count b)).

Definition range_clear (b : UsageBitmap) (offset : Z) (count : nat) : option (bool * UsageBitmap) :=
  '(ok, ws) ← clear_loop (bits b) offset 0 count;
  Some (ok, mkBitmap ws (block_count b)).

Definition is_set (b : UsageBitmap) (offset : Z) : option bool :=
  w ← bits b !! word_index offset; Some (masked w (mask offset)).

Definition snapshot (b : UsageBitmap) : bytes := concat ((fun w => to_le_bytes 8 w) <$> bits b).

(** The loop of [restore]: eight bytes a word, the last one padded with zeros. *)
Fixpoint restore_words (n : nat) (data : bytes) : list Z :=
  match n with
  | O => []
  | S n =>
      let chunk := take 8 data in
      from_le_bytes (chunk ++ replicate (8 - length chunk) 0) :: restore_words n (drop 8 data)
  end.

(** [div_ceil] *)
Definition div_ceil (a b : nat) : nat := ((a + b - 1) / b)%nat.

Definition restore (data : bytes) : UsageBitmap :=
  let n := div_ceil (length data) 8 in
  mkBitmap (restore_words n data) (Z.of_nat (n * 64) mod 2 ^ 32).

Definition restore_for_block_count (data : bytes) (block_count : Z) : UsageBitmap :=
  let restored := restore data in
  let bitmap := bitmap_new block_count in
  let n := length (bits bitmap) in
  mkBitmap
    ((fun index =>
        let word := default 0 (bits restored !! index) in
        if (index + 1 =? n)%nat && negb (block_count mod 64 =? 0)
        then Z.land word (Z.shiftl 1 (block_count mod 64) - 1) else word) <$> seq 0 n)
    block_count.

(** [u64::count_ones] *)
Definition count_ones (w : Z) : Z :=
  Z.of_nat (length (List.filter (fun p => Z.testbit w (Z.of_nat p)) (seq 0 64))).

Definition count_set (b : UsageBitmap) : Z := foldr Z.add 0 (count_ones <$> bits b).

(** ** Bits of words *)

Lemma ones64 : Z.ones 64 = 2 ^ 64 - 1.
Proof. reflexivity. Qed.

Lemma mask_pow bit : mask bit = 2 ^ (bit mod 64).
Proof. unfold mask. rewrite Z.shiftl_1_l. done. Qed.

Lemma mod64 bit : 0 <= bit mod 64 < 64.
Proof. apply Z.mod_pos_bound. lia. Qed.

Lemma masked_testbit w bit : masked w (mask bit) = Z.testbit w (bit mod 64).
Proof.
  pose proof (mod64 bit). unfold masked. rewrite mask_pow. destruct (Z.testbit w (bit mod 64)) eqn:E.
  - destruct (Z.eqb_spec (Z.land w (2 ^ (bit mod 64))) 0) as [Hz|]; [|done].
    apply (f_equal (fun x => Z.testbit x (bit mod 64))) in Hz. rewrite Z.land_spec, E, Z.pow2_bits_true, Z.bits_0 in Hz by lia. done.
  - rewrite (proj2 (Z.eqb_eq _ _)); [done|]. apply Z.bits_inj'. intros n Hn. rewrite Z.land_spec, Z.bits_0.
    rewrite Z.pow2_bits_eqb by lia. destruct (Z.eqb_spec (bit mod 64) n) as [<-|]; [by rewrite E|by rewrite andb_false_r].
Qed.

Lemma word_high w n : word_ok w -> 64 <= n -> Z.testbit w n = false.
Proof.
  intros Hw Hn. destruct (decide (w = 0)) as [->|Hz]; [apply Z.bits_0|]. unfold word_ok in Hw.
  apply Z.bits_above_log2; [lia|]. assert (Z.log2 w < 64) by (apply Z.log2_lt_pow2; lia). lia.
Qed.

Lemma word_of_bits w : 0 <= w -> (forall n, 64 <= n -> Z.testbit w n = false) -> word_ok w.
Proof.
  intros Hw Hb. split; [done|]. destruct (Z.lt_ge_cases w (2 ^ 64)) as [|Hge]; [done|exfalso].
  assert (Hp : 0 < w) by (change (2 ^ 64) with 18446744073709551616 in Hge; lia).
  pose proof (Z.bit_log2 w Hp) as Hl. rewrite Hb in Hl; [done|]. apply Z.log2_le_pow2; [done|exact Hge].
Qed.

Lemma testbit_or w bit n : 0 <= n -> Z.testbit (Z.lor w (mask bit)) n = Z.testbit w n || (n =? bit mod 64).
Proof. intros Hn. pose proof (mod64 bit). rewrite Z.lor_spec, mask_pow, Z.pow2_bits_eqb by lia. by rewrite Z.eqb_sym. Qed.

Lemma testbit_andnot w bit n : word_ok w -> 0 <= n ->
  Z.testbit (Z.land w (not64 (mask bit))) n = Z.testbit w n && negb (n =? bit mod 64).
Proof.
  intros Hw Hn. pose proof (mod64 bit). unfold not64. rewrite Z.land_spec, Z.lxor_spec, mask_pow, Z.pow2_bits_eqb, Z.testbit_ones by lia.
  rewrite (Z.eqb_sym (bit mod 64)). destruct (Z.lt_ge_cases n 64) as [Hlt|Hge].
  - rewrite (proj2 (Z.leb_le 0 n)), (proj2 (Z.ltb_lt n 64)) by lia. by destruct (n =? bit mod 64).
  - by rewrite (word_high w n).
Qed.

Lemma or_ok w bit : word_ok w -> word_ok (Z.lor w (mask bit)).
Proof.
  intros Hw. pose proof (mod64 bit). apply word_of_bits.
  - apply Z.lor_nonneg. unfold word_ok in Hw. split; [lia|]. rewrite mask_pow. apply Z.pow_nonneg. lia.
  - intros n Hn. rewrite testbit_or, (word_high w n) by (done || lia). cbn [orb]. apply Z.eqb_neq. lia.
Qed.

Lemma andnot_ok w bit : word_ok w -> word_ok (Z.land w (not64 (mask bit))).
Proof.
  intros Hw. apply word_of_bits.
  - apply Z.land_nonneg. left. apply Hw.
  - intros n Hn. rewrite testbit_andnot, (word_high w n) by (done || lia). done.
Qed.

(** ** Bits of lists of words *)

Definition words_ok (ws : list Z) : Prop := Forall word_ok ws.

Definition in_words (ws : list Z) (bit : Z) : Prop := 0 <= bit < 64 * Z.of_nat (length ws).

Lemma word_index_lt ws bit : in_words ws bit -> (word_index bit < length ws)%nat.
Proof.
  intros Hb. unfold in_words in Hb. unfold word_index. pose proof (Z.div_lt_upper_bound bit 64 (Z.of_nat (length ws))).
  pose proof (Z.div_pos bit 64). lia.
Qed.

Lemma word_at ws bit : in_words ws bit -> ws !! word_index bit = Some (word_of ws (word_index bit)).
Proof.
  intros Hb. destruct (lookup_lt_is_Some_2 ws (word_index bit)) as [w E]; [by apply word_index_lt|].
  unfold word_of. by rewrite E.
Qed.

Lemma word_of_insert_eq ws i w : (i < length ws)%nat -> word_of (<[i := w]> ws) i = w.
Proof. intros Hi. unfold word_of. by rewrite list_lookup_insert_eq. Qed.

Lemma word_of_insert_ne ws i j w : i <> j -> word_of (<[i := w]> ws) j = word_of ws j.
Proof. intros Hi. unfold word_of. by rewrite list_lookup_insert_ne. Qed.

Lemma words_ok_at ws i : words_ok ws -> word_ok (word_of ws i).
Proof.
  intros Hw. unfold word_of. destruct (ws !! i) as [w|] eqn:E; [|by split].
  by apply (Forall_lookup_1 _ _ _ _ Hw E).
Qed.

Lemma same_bit a b : 0 <= a -> 0 <= b -> word_index a = word_index b -> a mod 64 = b mod 64 -> a = b.
Proof.
  unfold word_index. intros Ha Hb E Em. pose proof (Z.div_pos a 64). pose proof (Z.div_pos b 64).
  rewrite (Z.div_mod a 64), (Z.div_mod b 64) by lia. lia.
Qed.

Lemma length_set_bit ws bit : length (set_bit ws bit) = length ws.
Proof. apply length_insert. Qed.

Lemma length_clear_bit ws bit : length (clear_bit ws bit) = length ws.
Proof. apply length_insert. Qed.

Lemma set_bit_ok ws bit : words_ok ws -> words_ok (set_bit ws bit).
Proof. intros Hw. apply Forall_insert; [done|]. by apply or_ok, words_ok_at. Qed.

Lemma clear_bit_ok ws bit : words_ok ws -> words_ok (clear_bit ws bit).
Proof. intros Hw. apply Forall_insert; [done|]. by apply andnot_ok, words_ok_at. Qed.

Lemma get_set_bit ws a b : in_words ws a -> 0 <= b -> get_bit (set_bit ws a) b = get_bit ws b || (b =? a).
Proof.
  intros Ha Hb. unfold get_bit, set_bit. rewrite !masked_testbit. pose proof (mod64 b).
  destruct (decide (word_index a = word_index b)) as [E|E].
  - rewrite E, word_of_insert_eq by (rewrite <- E; by apply word_index_lt). rewrite testbit_or by lia. f_equal.
    destruct (Z.eqb_spec b a) as [->|Hne]; [apply Z.eqb_refl|]. apply Z.eqb_neq. intros Em. apply Hne.
    unfold in_words in Ha. apply same_bit; lia.
  - rewrite word_of_insert_ne by done. rewrite (proj2 (Z.eqb_neq b a)) by congruence. by rewrite orb_false_r.
Qed.

Lemma get_clear_bit ws a b : words_ok ws -> in_words ws a -> 0 <= b ->
  get_bit (clear_bit ws a) b = get_bit ws b && negb (b =? a).
Proof.
  intros Hw Ha Hb. unfold get_bit, clear_bit. rewrite !masked_testbit. pose proof (mod64 b).
  destruct (decide (word_index a = word_index b)) as [E|E].
  - rewrite E, word_of_insert_eq by (rewrite <- E; by apply word_index_lt).
    rewrite testbit_andnot by (by apply words_ok_at || lia). do 2 f_equal.
    destruct (Z.eqb_spec b a) as [->|Hne]; [apply Z.eqb_refl|]. apply Z.eqb_neq. intros Em. apply Hne.
    unfold in_words in Ha. apply same_bit; lia.
  - rewrite word_of_insert_ne by done. rewrite (proj2 (Z.eqb_neq b a)) by congruence. by rewrite andb_true_r.
Qed.

(** Words are their bits. *)
Lemma words_ext ws ws' : words_ok ws -> words_ok ws' -> length ws = length ws' ->
  (forall b, in_words ws b -> get_bit ws b = get_bit ws' b) -> ws = ws'.
Proof.
  intros Hw Hw' Hl Hb. apply list_eq_same_length with (length ws); [done|done|]. intros i x y Hi Hx Hy.
  apply Z.bits_inj'. intros n Hn. unfold words_ok in Hw, Hw'. rewrite Forall_lookup in Hw, Hw'. specialize (Hw _ _ Hx). specialize (Hw' _ _ Hy).
  destruct (Z.lt_ge_cases n 64) as [Hlt|Hge]; [|by rewrite !word_high].
  specialize (Hb (64 * Z.of_nat i + n)). unfold get_bit in Hb. rewrite !masked_testbit in Hb.
  assert (Ei : word_index (64 * Z.of_nat i + n) = i).
  { unfold word_index. rewrite Z.mul_comm, Z.div_add_l, Z.div_small by lia. lia. }
  assert (Em : (64 * Z.of_nat i + n) mod 64 = n) by (rewrite Z.mul_comm, Z.add_comm, Z.mod_add, Z.mod_small; lia).
  unfold word_of in Hb. rewrite Ei, Em, Hx, Hy in Hb. apply Hb. unfold in_words. lia.
Qed.

(** ** Ranges *)

Definition in_range (offset : Z) (n : nat) (b : Z) : bool := (offset <=? b) && (b <? offset + Z.of_nat n).

Lemma in_range_0 offset b : in_range offset 0 b = false.
Proof. unfold in_range. zcase; lia. Qed.

Lemma in_range_S offset n b : in_range offset (S n) b = in_range offset n b || (b =? offset + Z.of_nat n).
Proof. unfold in_range. zcase; lia. Qed.

Lemma in_range_split offset i k b : in_range offset (i + S k) b = true -> in_range offset i b = false ->
  b = offset + Z.of_nat i \/ in_range (offset + Z.of_nat (S i)) k b = true.
Proof. unfold in_range. zcase; lia. Qed.

(** A bitmap of the shape of another. *)
Definition same_shape (ws ws' : list Z) : Prop := words_ok ws' /\ length ws' = length ws.

Lemma undo_set_spec ws offset i : words_ok ws -> 0 <= offset -> offset + Z.of_nat i <= 64 * Z.of_nat (length ws) ->
  same_shape ws (undo_set ws offset i) /\
  forall b, 0 <= b -> get_bit (undo_set ws offset i) b = get_bit ws b && negb (in_range offset i b).
Proof.
  intros Hw Ho. induction i as [|i IH]; intros Hi.
  { split; [done|]. intros b Hb. cbn [undo_set]. by rewrite in_range_0, andb_true_r. }
  destruct IH as [[Hok Hl] Hg]; [lia|]. cbn [undo_set]. split.
  - split; [by apply clear_bit_ok|by rewrite length_clear_bit].
  - intros b Hb. rewrite get_clear_bit, Hg, in_range_S, negb_orb, andb_assoc; try done. unfold in_words. rewrite Hl. lia.
Qed.

Lemma undo_clear_spec ws offset i : words_ok ws -> 0 <= offset -> offset + Z.of_nat i <= 64 * Z.of_nat (length ws) ->
  same_shape ws (undo_clear ws offset i) /\
  forall b, 0 <= b -> get_bit (undo_clear ws offset i) b = get_bit ws b || in_range offset i b.
Proof.
  intros Hw Ho. induction i as [|i IH]; intros Hi.
  { split; [done|]. intros b Hb. cbn [undo_clear]. by rewrite in_range_0, orb_false_r. }
  destruct IH as [[Hok Hl] Hg]; [lia|]. cbn [undo_clear]. split.
  - split; [by apply set_bit_ok|by rewrite length_set_bit].
  - intros b Hb. rewrite get_set_bit, Hg, in_range_S, orb_assoc; try done. unfold in_words. rewrite Hl. lia.
Qed.

(** ** Counting *)

Lemma filter_length_add (f : nat -> bool) (q : nat) l : NoDup l -> q ∈ l -> f q = false ->
  length (List.filter (fun p => f p || (p =? q)%nat) l) = S (length (List.filter f l)).
Proof.
  intros Hn Hq Hf. induction Hn as [|x l Hx Hn IH]; [by apply elem_of_nil in Hq|]. cbn [List.filter].
  destruct (Nat.eqb_spec x q) as [->|Hne].
  - rewrite Hf. cbn [orb length]. f_equal. f_equal. apply List.filter_ext_in. intros a Ha. apply list_elem_of_In in Ha.
    rewrite (proj2 (Nat.eqb_neq a q)) by congruence. apply orb_false_r.
  - apply elem_of_cons in Hq as [|Hq]; [done|]. rewrite orb_false_r. destruct (f x); cbn [length]; by rewrite IH.
Qed.

Lemma count_ones_or w bit : Z.testbit w (bit mod 64) = false -> count_ones (Z.lor w (mask bit)) = count_ones w + 1.
Proof.
  intros Hb. pose proof (mod64 bit). unfold count_ones. set (q := Z.to_nat (bit mod 64)).
  rewrite (List.filter_ext _ (fun p => Z.testbit w (Z.of_nat p) || (p =? q)%nat)).
  - rewrite filter_length_add; [lia|apply NoDup_seq|apply elem_of_seq; lia|].
    unfold q. by rewrite Z2Nat.id by lia.
  - intros p. rewrite testbit_or by lia. f_equal. destruct (Nat.eqb_spec p q) as [->|Hne].
    + apply Z.eqb_eq. lia.
    + apply Z.eqb_neq. lia.
Qed.

Lemma sum_insert l i x y : l !! i = Some x -> foldr Z.add 0 (<[i := y]> l) = foldr Z.add 0 l + (y - x).
Proof.
  revert i. induction l as [|a l IH]; intros [|i] Hi; try done; cbn [insert list_insert foldr].
  - injection Hi as ->. lia.
  - change (foldr Z.add 0 (<[i:=y]> l)) with (foldr Z.add 0 (<[i := y]> l)). rewrite (IH i) by done. lia.
Qed.

Definition count_words (ws : list Z) : Z := foldr Z.add 0 (count_ones <$> ws).

Lemma count_insert ws i x y : ws !! i = Some x -> count_words (<[i := y]> ws) = count_words ws + (count_ones y - count_ones x).
Proof. intros Hi. unfold count_words. rewrite list_fmap_insert. apply sum_insert. by rewrite list_lookup_fmap, Hi. Qed.

Lemma count_set_bit ws bit : in_words ws bit -> get_bit ws bit = false -> count_words (set_bit ws bit) = count_words ws + 1.
Proof.
  intros Hb Hg. unfold get_bit in Hg. rewrite masked_testbit in Hg. unfold set_bit.
  rewrite (count_insert ws _ _ _ (word_at ws bit Hb)), count_ones_or by done. lia.
Qed.

Lemma set_clear_bit ws bit : words_ok ws -> in_words ws bit -> get_bit ws bit = true -> set_bit (clear_bit ws bit) bit = ws.
Proof.
  intros Hw Hb Hg. assert (Hin : in_words (clear_bit ws bit) bit) by (unfold in_words; by rewrite length_clear_bit).
  apply words_ext; [by apply set_bit_ok, clear_bit_ok|done|by rewrite length_set_bit, length_clear_bit|].
  intros b [H0 _]. rewrite get_set_bit, get_clear_bit by done. destruct (Z.eqb_spec b bit) as [->|]; [by rewrite Hg|].
  by rewrite andb_true_r, orb_false_r.
Qed.

Lemma count_clear_bit ws bit : words_ok ws -> in_words ws bit -> get_bit ws bit = true ->
  count_words (clear_bit ws bit) = count_words ws - 1.
Proof.
  intros Hw Hb Hg. rewrite <- (set_clear_bit ws bit) at 2 by done. rewrite count_set_bit; [lia|unfold in_words; by rewrite length_clear_bit|].
  rewrite get_clear_bit by (done || apply Hb). by rewrite Z.eqb_refl, andb_false_r.
Qed.

(** ** The loops *)

Lemma set_loop_spec ws0 offset k : words_ok ws0 -> 0 <= offset -> forall i ws,
  offset + Z.of_nat (i + k) <= 64 * Z.of_nat (length ws0) -> same_shape ws0 ws ->
  (forall b, 0 <= b -> get_bit ws b = get_bit ws0 b || in_range offset i b) ->
  (forall b, in_range offset i b = true -> get_bit ws0 b = false) ->
  exists ok ws', set_loop ws offset i k = Some (ok, ws') /\
    if ok : bool then
      same_shape ws0 ws' /\ (forall b, in_range offset (i + k) b = true -> get_bit ws0 b = false) /\
      (forall b, 0 <= b -> get_bit ws' b = get_bit ws0 b || in_range offset (i + k) b) /\
      count_words ws' = count_words ws + Z.of_nat k
    else ws' = ws0 /\ exists b, in_range offset (i + k) b = true /\ get_bit ws0 b = true.
Proof.
  intros Hw0 Ho. induction k as [|k IH]; intros i ws Hk [Hw Hl] Hg Hc.
  { exists true, ws. rewrite Nat.add_0_r in *. split_and!; try done. lia. }
  cbn [set_loop]. set (bi := offset + Z.of_nat i). assert (Hin : in_words ws bi) by (unfold in_words, bi; lia).
  rewrite (word_at ws bi Hin). cbn [mbind option_bind]. change (masked (word_of ws (word_index bi)) (mask bi)) with (get_bit ws bi).
  assert (Hi0 : in_range offset i bi = false) by (unfold in_range, bi; zcase; lia).
  assert (Hbi : get_bit ws bi = get_bit ws0 bi) by (rewrite Hg, Hi0 by (unfold in_words in Hin; lia); apply orb_false_r).
  destruct (get_bit ws bi) eqn:Eb.
  - exists false. eexists. split; [reflexivity|]. split.
    2:{ exists bi. split; [unfold in_range, bi; zcase; lia|done]. }
    pose proof (undo_set_spec (set_bit ws bi) offset i) as [[Hok' Hl'] Hg'];
      [by apply set_bit_ok|done|rewrite length_set_bit; lia|].
    apply words_ext; [done|done|by rewrite Hl', length_set_bit|]. intros b [Hb _].
    rewrite Hg', get_set_bit, Hg by done. destruct (Z.eqb_spec b bi) as [->|].
    + by rewrite Hi0, <- Hbi.
    + rewrite orb_false_r. destruct (in_range offset i b) eqn:Er; [by rewrite (Hc b Er)|]. by rewrite orb_false_r, andb_true_r.
  - destruct (IH (S i) (set_bit ws bi)) as (ok & ws' & E & Hr).
    + lia.
    + split; [by apply set_bit_ok|by rewrite length_set_bit].
    + intros b Hb. by rewrite get_set_bit, Hg, in_range_S, orb_assoc.
    + intros b. rewrite in_range_S. intros [Er|Er%Z.eqb_eq]%orb_true_iff; [by apply Hc|]. subst b. by fold bi.
    + exists ok, ws'. split; [exact E|]. replace (S i + k)%nat with (i + S k)%nat in Hr by lia.
      destruct ok; [|done]. destruct Hr as (Hs & Hc' & Hg' & Hn). split_and!; try done. rewrite count_set_bit in Hn by done. lia.
Qed.

Lemma clear_loop_spec ws0 offset k : words_ok ws0 -> 0 <= offset -> forall i ws,
  offset + Z.of_nat (i + k) <= 64 * Z.of_nat (length ws0) -> same_shape ws0 ws ->
  (forall b, 0 <= b -> get_bit ws b = get_bit ws0 b && negb (in_range offset i b)) ->
  (forall b, in_range offset i b = true -> get_bit ws0 b = true) ->
  exists ok ws', clear_loop ws offset i k = Some (ok, ws') /\
    if ok : bool then
      same_shape ws0 ws' /\ (forall b, in_range offset (i + k) b = true -> get_bit ws0 b = true) /\
      (forall b, 0 <= b -> get_bit ws' b = get_bit ws0 b && negb (in_range offset (i + k) b)) /\
      count_words ws' = count_words ws - Z.of_nat k
    else ws' = ws0 /\ exists b, in_range offset (i + k) b = true /\ get_bit ws0 b = false.
Proof.
  intros Hw0 Ho. induction k as [|k IH]; intros i ws Hk [Hw Hl] Hg Hc.
  { exists true, ws. rewrite Nat.add_0_r in *. split_and!; try done. lia. }
  cbn [clear_loop]. set (bi := offset + Z.of_nat i). assert (Hin : in_words ws bi) by (unfold in_words, bi; lia).
  rewrite (word_at ws bi Hin). cbn [mbind option_bind]. change (masked (word_of ws (word_index bi)) (mask bi)) with (get_bit ws bi).
  assert (Hi0 : in_range offset i bi = false) by (unfold in_range, bi; zcase; lia).
  assert (Hbi : get_bit ws bi = get_bit ws0 bi) by (rewrite Hg, Hi0 by (unfold in_words in Hin; lia); apply andb_true_r).
  destruct (get_bit ws bi) eqn:Eb.
  - destruct (IH (S i) (clear_bit ws bi)) as (ok & ws' & E & Hr).
    + lia.
    + split; [by apply clear_bit_ok|by rewrite length_clear_bit].
    + intros b Hb. by rewrite get_clear_bit, Hg, in_range_S, negb_orb, andb_assoc.
    + intros b. rewrite in_range_S. intros [Er|Er%Z.eqb_eq]%orb_true_iff; [by apply Hc|]. subst b. by fold bi.
    + exists ok, ws'. split; [exact E|]. replace (S i + k)%nat with (i + S k)%nat in Hr by lia.
      destruct ok; [|done]. destruct Hr as (Hs & Hc' & Hg' & Hn). split_and!; try done. rewrite count_clear_bit in Hn by done. lia.
  - exists false. eexists. split; [reflexivity|]. split.
    2:{ exists bi. split; [unfold in_range, bi; zcase; lia|done]. }
    pose proof (undo_clear_spec (clear_bit ws bi) offset i) as [[Hok' Hl'] Hg'];
      [by apply clear_bit_ok|done|rewrite length_clear_bit; lia|].
    apply words_ext; [done|done|by rewrite Hl', length_clear_bit|]. intros b [Hb _].
    rewrite Hg', get_clear_bit, Hg by done. destruct (Z.eqb_spec b bi) as [->|].
    + by rewrite Hi0, <- Hbi.
    + cbn [negb]. rewrite andb_true_r. destruct (in_range offset i b) eqn:Er; [by rewrite (Hc b Er)|]. by rewrite orb_false_r, andb_true_r.
Qed.

Definition bitmap_ok (b : UsageBitmap) : Prop :=
  words_ok (bits b) /\ 0 <= block_count b <= 64 * Z.of_nat (length (bits b)).

(** Setting a range of blocks below the block count sets exactly its bits and
    raises the count by its length when all of them are clear; when one is set it
    reports the collision and the bitmap is what it was, bit for bit.  Clearing is
    the mirror image, and neither panics. *)
Theorem bitmap_ranges_exact b offset count : bitmap_ok b -> 0 <= offset -> offset + Z.of_nat count <= block_count b ->
  (exists ok b', range_set b offset count = Some (ok, b') /\
     (ok = true <-> forall i, in_range offset count i = true -> get_bit (bits b) i = false) /\
     if ok : bool then
       bitmap_ok b' /\ count_set b' = count_set b + Z.of_nat count /\
       forall i, 0 <= i -> get_bit (bits b') i = get_bit (bits b) i || in_range offset count i
     else b' = b) /\
  (exists ok b', range_clear b offset count = Some (ok, b') /\
     (ok = true <-> forall i, in_range offset count i = true -> get_bit (bits b) i = true) /\
     if ok : bool then
       bitmap_ok b' /\ count_set b' = count_set b - Z.of_nat count /\
       forall i, 0 <= i -> get_bit (bits b') i = get_bit (bits b) i && negb (in_range offset count i)
     else b' = b).
Proof.
  intros [Hw Hb] Ho Hc. destruct b as [ws bc]. cbn [bits block_count] in *. unfold range_set, range_clear, bitmap_ok, count_set.
  cbn [bits block_count]. split.
  - destruct (set_loop_spec ws offset count Hw Ho 0 ws) as (ok & ws' & -> & Hr); [lia|done| | |].
    { intros b _. by rewrite in_range_0, orb_false_r. }
    { intros b. by rewrite in_range_0. }
    exists ok, (mkBitmap ws' bc). split; [done|]. destruct ok; cbn [bits block_count].
    + destruct Hr as ([Hw' Hl] & Hclear & Hg & Hn). split; [done|]. split_and!; try done; rewrite ?Hl; lia.
    + destruct Hr as [-> (b & Hr & Hs)]. split; [|done]. split; [done|]. intros Ha. specialize (Ha b Hr). congruence.
  - destruct (clear_loop_spec ws offset count Hw Ho 0 ws) as (ok & ws' & -> & Hr); [lia|done| | |].
    { intros b _. by rewrite in_range_0, andb_true_r. }
    { intros b. by rewrite in_range_0. }
    exists ok, (mkBitmap ws' bc). split; [done|]. destruct ok; cbn [bits block_count].
    + destruct Hr as ([Hw' Hl] & Hclear & Hg & Hn). split; [done|]. split_and!; try done; rewrite ?Hl; lia.
    + destruct Hr as [-> (b & Hr & Hs)]. split; [|done]. split; [done|]. intros Ha. specialize (Ha b Hr). congruence.
Qed.

Lemma bitmap_ranges_exact_witness : exists b', range_set (bitmap_new 128) 62 4 = Some (true, b') /\ count_set b' = 4.
Proof.
  destruct (bitmap_ranges_exact (bitmap_new 128) 62 4) as [(ok & b' & E & Hiff & Hr) _].
  - split; [repeat constructor; lia|]. split; vm_compute; discriminate.
  - lia.
  - vm_compute. discriminate.
  - destruct ok; [|vm_compute in E; discriminate E]. exists b'. split; [exact E|]. exact (proj1 (proj2 Hr)).
Defined.

(** ** Snapshots *)

Lemma snapshot_length ws : length (concat ((fun w => to_le_bytes 8 w) <$> ws)) = (8 * length ws)%nat.
Proof.
  induction ws as [|w ws IH]; [done|]. cbn [fmap list_fmap concat length]. rewrite length_app, to_le_bytes_length. 
  change (list_fmap Z bytes (fun w => to_le_bytes 8 w) ws) with ((fun w => to_le_bytes 8 w) <$> ws). rewrite IH. lia.
Qed.

Lemma restore_snapshot ws : words_ok ws -> restore_words (length ws) (concat ((fun w => to_le_bytes 8 w) <$> ws)) = ws.
Proof.
  induction 1 as [|w ws Hw _ IH]; [done|]. cbn [fmap list_fmap concat length restore_words].
  rewrite take_app_length', drop_app_length' by (by rewrite to_le_bytes_length).
  rewrite to_le_bytes_length, Nat.sub_diag. cbn [replicate]. rewrite app_nil_r, from_to_le by exact Hw. by rewrite IH.
Qed.

Lemma get_bit_past ws b : (length ws <= word_index b)%nat -> get_bit ws b = false.
Proof.
  intros Hl. unfold get_bit, word_of. rewrite masked_testbit, (proj2 (lookup_ge_None _ _)) by done. apply Z.bits_0.
Qed.

Lemma low_mask m : 0 <= m -> Z.shiftl 1 m - 1 = Z.ones m.
Proof. intros Hm. rewrite Z.ones_equiv, Z.shiftl_1_l. lia. Qed.

(** A zone snapshot survives a change of geometry: restored for a block count
    it has one word per 64 blocks, exactly the snapshot's bits below the block
    count, and no bit at or past it. *)
Theorem bitmap_snapshot_exact b bc : words_ok (bits b) -> 0 <= bc ->
  let r := restore_for_block_count (snapshot b) bc in
  block_count r = bc /\ bitmap_ok r /\ Z.of_nat (length (bits r)) = (bc + 63) / 64 /\
  forall i, 0 <= i -> get_bit (bits r) i = (i <? bc) && get_bit (bits b) i.
Proof.
  intros Hw Hbc. destruct b as [ws bc0]. cbn [bits] in *. cbv zeta.
  assert (Er : bits (restore (snapshot (mkBitmap ws bc0))) = ws).
  { unfold restore, snapshot. cbn [bits]. rewrite snapshot_length.
    replace (div_ceil (8 * length ws) 8) with (length ws); [by apply restore_snapshot|].
    unfold div_ceil. replace (8 * length ws + 8 - 1)%nat with (length ws * 8 + 7)%nat by lia. by rewrite Nat.div_add_l. }
  pose proof (Z.div_mod (bc + 63) 64 ltac:(lia)) as Hdm. pose proof (Z.mod_pos_bound (bc + 63) 64 ltac:(lia)) as Hm.
  pose proof (Z.div_pos (bc + 63) 64 ltac:(lia) ltac:(lia)) as Hq. pose proof (mod64 bc) as Hm64.
  unfold restore_for_block_count, bitmap_new, bitmap_ok. cbn [bits block_count]. rewrite Er, length_replicate.
  set (n := Z.to_nat ((bc + 63) / 64)). rewrite length_fmap, length_seq.
  assert (Hn : Z.of_nat n = (bc + 63) / 64) by (unfold n; lia).
  assert (Hd : forall i, word_ok (default 0 (ws !! i))).
  { intros i. exact (words_ok_at ws i Hw). }
  split; [done|]. split; [split; [|lia]|split; [done|]].
  - apply Forall_fmap, Forall_forall. intros i _. unfold compose. cbv zeta. destruct (_ && _); [|apply Hd].
    rewrite low_mask by lia. apply word_of_bits; [apply Z.land_nonneg; left; apply Hd|].
    intros p Hp. rewrite Z.land_spec, (word_high _ p (Hd i)) by lia. done.
  - intros i Hi. unfold get_bit at 1. rewrite masked_testbit. pose proof (mod64 i) as Hi64.
    pose proof (Z.div_mod i 64 ltac:(lia)) as Hid. pose proof (Z.div_pos i 64 Hi ltac:(lia)) as Hip.
    destruct (decide (word_index i < n)%nat) as [Hlt|Hge].
    + unfold word_of. rewrite list_lookup_fmap, lookup_seq_lt by done. cbn [fmap option_fmap option_map default Nat.add].
      assert (Eg : get_bit ws i = Z.testbit (default 0 (ws !! word_index i)) (i mod 64)) by apply masked_testbit.
      rewrite Eg. unfold word_index in *.
      destruct (Nat.eqb_spec (Z.to_nat (i / 64) + 1) n) as [El|El]; cbn [andb].
      * destruct (Z.eqb_spec (bc mod 64) 0) as [Ez|Ez]; cbn [negb].
        -- rewrite (proj2 (Z.ltb_lt i bc)); [done|]. pose proof (Z.div_mod bc 64 ltac:(lia)). lia.
        -- unfold id. rewrite low_mask, Z.land_spec, Z.testbit_ones by lia. pose proof (Z.div_mod bc 64 ltac:(lia)).
           rewrite (proj2 (Z.leb_le 0 (i mod 64))) by lia. cbn [andb].
           replace (i mod 64 <? bc mod 64) with (i <? bc) by (zcase; lia). apply andb_comm.
      * rewrite (proj2 (Z.ltb_lt i bc)); [done|]. lia.
    + unfold word_of. rewrite (proj2 (lookup_ge_None _ _)) by (rewrite length_fmap, length_seq; lia). cbn [default].
      rewrite Z.bits_0. rewrite (proj2 (Z.ltb_ge i bc)); [done|]. unfold word_index in Hge. lia.
Qed.

Lemma bitmap_snapshot_exact_witness :
  let b := mkBitmap [Z.ones 64; 5] 128 in
  get_bit (bits (restore_for_block_count (snapshot b) 66)) 64 = true /\
  get_bit (bits (restore_for_block_count (snapshot b) 66)) 66 = false.
Proof.
  destruct (bitmap_snapshot_exact (mkBitmap [Z.ones 64; 5] 128) 66) as (_ & _ & _ & Hg).
  - repeat constructor; vm_compute; congruence.
  - lia.
  - split; rewrite Hg by lia; reflexivity.
Defined.

End UsageBitmap.
