(* ===== verification/ZoneAlloc.v ===== *)
(** * The zone allocator

    Models the allocation state of [crowdb-diskdb/src/model/zone.rs]: [allocate]
    with [claim_in_word] and [try_claim_range], [rollback_allocate],
    [record_free] and [compact_zone_inner], on the bitmap of [UsageBitmap].

    Threads share the bitmap, the counter and the cursor without a lock, so an
    operation is a machine of its single atomic accesses ([exec]) and a run
    interleaves the machines of all threads in any order ([run]).  [cas_bit] is
    two accesses, a load of the word and a compare-exchange of the whole word; it
    fails when another bit of the word moved in between.

    A thread holds the ranges its allocations returned.  It can roll one back, or
    free it, which leaves the range to a compaction ([w_freed]); the records a
    compaction is given are freed ranges, each once, as [compaction.rs] matches
    them with the busy records they end.  The bitmap is the one [ZoneBitmap]
    materializes; an absent one reads as zeros and is replaced by zeros once.  The
    retry counters that only feed metrics are left out.  The zone lock is left
    out, so the theorems cover more interleavings than it admits.

    [zone_no_overlap]: whatever the schedule, no two ranges share a block and no
    access is out of bounds.  [zone_used_exact]: without compaction the used
    counter is the units allocated and not rolled back.  The examples at the end
    are schedules where a lost compare-exchange in a rollback leaves a block set
    that nobody holds, and where compaction makes the counter wrap. *)

From stdpp Require Import prelude list.
From Stdlib Require Import ZArith Lia.
From S2P Require Import Prelude Bytes UsageBitmap.

Module ZoneAlloc.
Import UsageBitmap.

(** ** The shared state of a zone *)

Inductive DdbZoneHealth := Healthy | Missing | Bad.

Record DdbZone := mkZone {
  words : list Z;
  unit_capacity : Z;
  health : DdbZoneHealth;
  last_pos_64 : Z;
  used_count : Z;
  compact_ts : Z;
}.

Definition zone_new (unit_capacity : Z) : DdbZone :=
  mkZone (bits (bitmap_new unit_capacity)) unit_capacity Healthy 0 0 0.

Definition with_words (z : DdbZone) (ws : list Z) : DdbZone :=
  mkZone ws (unit_capacity z) (health z) (last_pos_64 z) (used_count z) (compact_ts z).
Definition with_used (z : DdbZone) (u : Z) : DdbZone :=
  mkZone (words z) (unit_capacity z) (health z) (last_pos_64 z) u (compact_ts z).

Definition u64_max : Z := 2 ^ 64 - 1.
Definition u32_max : Z := 2 ^ 32 - 1.

(** [u32] addition *)
Definition add32 (a b : Z) : Z := (a + b) mod 2 ^ 32.

Definition zone_word_count (z : DdbZone) : Z := Z.of_nat (length (words z)).

(** [u64::trailing_ones] *)
Fixpoint trailing_from (fuel : nat) (w p : Z) : Z :=
  match fuel with O => p | S fuel => if Z.testbit w p then trailing_from fuel w (p + 1) else p end.
Definition trailing_ones (w : Z) : Z := trailing_from 64 w 0.

(** ** Where a thread is

    A claim carries the arguments of [allocate], the first word, the words tried
    and the retries; a probe carries [bit_scan], [bit_pos] and the start bit. *)

Definition range : Type := Z * Z.

Record claim := mkClaim { c_count : Z; c_limit : Z; c_start : Z; c_i : Z; c_retries : Z }.
Record probe := mkProbe { p_scan : Z; p_pos : Z; p_start : Z }.

Inductive pc :=
| Idle
| Panicked
(** [allocate] *)
| AllocHealth (n limit : Z)
| AllocUsed (n limit : Z)
| AllocPos (n limit : Z)
| ClaimWord (c : claim)
| Verify (c : claim) (p : probe) (k : Z)
| SetLoad (c : claim) (p : probe) (k : Z)
| SetSwap (c : claim) (p : probe) (k current : Z)
| UndoLoad (c : claim) (p : probe) (k r : Z)
| UndoSwap (c : claim) (p : probe) (k r current : Z)
| Recheck (c : claim) (p : probe) (k : Z)
| StorePos (c : claim) (p : probe)
| AddUsed (c : claim) (p : probe)
(** [rollback_allocate] *)
| RollVerify (off n k : Z)
| RollLoad (off n k : Z)
| RollSwap (off n k current : Z)
| RollFixLoad (off n k j : Z)
| RollFixSwap (off n k j current : Z)
| RollSub (off n : Z)
(** [compact_zone_inner] *)
| CompactClear (ts : Z) (recs : list range) (off n k : Z)
| CompactUndo (ts : Z) (recs : list range) (off k j : Z)
| CompactCount (ts : Z) (i : nat) (acc : Z)
| CompactStore (ts acc : Z)
| CompactTs (ts : Z).

(** What an operation leaves its caller: nothing, a range, or a range whose
    rollback returned [false]. *)
Inductive outcome := Silent | Gained (r : range) | Abandoned (r : range).

(** ** The code between two accesses *)

Definition word_idx (z : DdbZone) (c : claim) : Z := (c_start c + c_i c) mod zone_word_count z.

(** The loop of [allocate] over the words *)
Definition next_word (z : DdbZone) (c : claim) : pc :=
  if c_i c + 1 <? zone_word_count z
  then ClaimWord (mkClaim (c_count c) (c_limit c) (c_start c) (c_i c + 1) (c_retries c))
  else Idle.

(** The loop of [claim_in_word], at its head *)
Definition at_bit (z : DdbZone) (c : claim) (scan pos : Z) : pc :=
  if 64 <=? pos then next_word z c
  else
    let start_bit := word_idx z c * 64 + pos in
    if unit_capacity z <? add32 start_bit (c_count c) then next_word z c
    else Verify c (mkProbe scan pos start_bit) 0.

(** [try_claim_range] returned [false]: the next zero bit of the word *)
Definition tried (z : DdbZone) (c : claim) (p : probe) : pc :=
  let scan := Z.lor (p_scan p) (Z.shiftl 1 (p_pos p)) in
  if scan =? u64_max then next_word z c else at_bit z c scan (trailing_ones scan).

Definition undone (z : DdbZone) (c : claim) (p : probe) (k : Z) : pc :=
  if c_retries c <? c_limit c then Recheck c p k else tried z c p.

(** [cas_bit] returned [false] on the [k]-th bit: undo the bits before it *)
Definition cas_failed (z : DdbZone) (c : claim) (p : probe) (k : Z) : pc :=
  let c := mkClaim (c_count c) (c_limit c) (c_start c) (c_i c) (c_retries c + 1) in
  if k =? 0 then undone z c p k else UndoLoad c p k 0.

Definition undo_next (z : DdbZone) (c : claim) (p : probe) (k r : Z) : pc :=
  if r + 1 =? k then undone z c p k else UndoLoad c p k (r + 1).

Definition roll_fix (off n k j : Z) : pc * outcome :=
  if j =? k then (Idle, Abandoned (off, n)) else (RollFixLoad off n k j, Silent).

Definition count_from (z : DdbZone) (ts : Z) (i : nat) (acc : Z) : pc :=
  if (i <? length (words z))%nat then CompactCount ts i acc else CompactStore ts acc.

(** The next free record; one of no units clears nothing *)
Fixpoint next_record (z : DdbZone) (ts : Z) (recs : list range) : pc :=
  match recs with
  | [] => count_from z ts 0 0
  | (off, n) :: recs => if n =? 0 then next_record z ts recs else CompactClear ts recs off n 0
  end.

(** ** One atomic access *)

(** The bitmap word an access touches *)
Definition touched (z : DdbZone) (p : pc) : option nat :=
  match p with
  | ClaimWord c => Some (Z.to_nat (word_idx z c))
  | Verify c p k | SetLoad c p k | SetSwap c p k _ | Recheck c p k => Some (word_index (p_start p + k))
  | UndoLoad c p k r | UndoSwap c p k r _ => Some (word_index (p_start p + r))
  | RollVerify off n k | RollLoad off n k | RollSwap off n k _ => Some (word_index (off + k))
  | RollFixLoad off n k j | RollFixSwap off n k j _ => Some (word_index (off + j))
  | CompactClear ts recs off n k => Some (word_index (off + k))
  | CompactUndo ts recs off k j => Some (word_index (off + j))
  | _ => None
  end.

(** The load of [cas_bit] and its compare-exchange *)
Definition load_for (z : DdbZone) (bit : Z) : Z := word_of (words z) (word_index bit).
Definition swap (z : DdbZone) (bit current new : Z) : option DdbZone :=
  if load_for z bit =? current then Some (with_words z (<[word_index bit := new]> (words z))) else None.

Definition access (z : DdbZone) (p : pc) : DdbZone * pc * outcome :=
  match p with
  | Idle => (z, Idle, Silent)
  | Panicked => (z, Panicked, Silent)
  | AllocHealth n limit => (z, match health z with Healthy => AllocUsed n limit | _ => Idle end, Silent)
  | AllocUsed n limit =>
      (z, if negb (used_count z <? unit_capacity z) || (n =? 0) || (unit_capacity z <? n) || (zone_word_count z =? 0)
          then Idle else AllocPos n limit, Silent)
  | AllocPos n limit => (z, ClaimWord (mkClaim n limit (last_pos_64 z mod zone_word_count z) 0 0), Silent)
  | ClaimWord c =>
      let word := word_of (words z) (Z.to_nat (word_idx z c)) in
      (z, if word =? u64_max then next_word z c else at_bit z c word (trailing_ones word), Silent)
  | Verify c p k =>
      (z, if masked (load_for z (p_start p + k)) (mask (p_start p + k)) then tried z c p
          else if k + 1 =? c_count c then SetLoad c p 0 else Verify c p (k + 1), Silent)
  | SetLoad c p k =>
      let current := load_for z (p_start p + k) in
      (z, if masked current (mask (p_start p + k)) then cas_failed z c p k else SetSwap c p k current, Silent)
  | SetSwap c p k current =>
      match swap z (p_start p + k) current (Z.lor current (mask (p_start p + k))) with
      | Some z' => (z', if k + 1 =? c_count c then StorePos c p else SetLoad c p (k + 1), Silent)
      | None => (z, cas_failed z c p k, Silent)
      end
  | UndoLoad c p k r =>
      let current := load_for z (p_start p + r) in
      (z, if masked current (mask (p_start p + r)) then UndoSwap c p k r current else undo_next z c p k r, Silent)
  | UndoSwap c p k r current =>
      match swap z (p_start p + r) current (Z.land current (not64 (mask (p_start p + r)))) with
      | Some z' => (z', undo_next z c p k r, Silent)
      | None => (z, undo_next z c p k r, Silent)
      end
  | Recheck c p k =>
      (z, if masked (load_for z (p_start p + k)) (mask (p_start p + k)) then tried z c p else Verify c p 0, Silent)
  | StorePos c p =>
      (mkZone (words z) (unit_capacity z) (health z) (word_idx z c) (used_count z) (compact_ts z), AddUsed c p, Silent)
  | AddUsed c p => (with_used z (add32 (used_count z) (c_count c)), Idle, Gained (p_start p, c_count c))
  | RollVerify off n k =>
      if masked (load_for z (off + k)) (mask (off + k))
      then (z, if k + 1 =? n then RollLoad off n 0 else RollVerify off n (k + 1), Silent)
      else (z, Idle, Abandoned (off, n))
  | RollLoad off n k =>
      let current := load_for z (off + k) in
      if masked current (mask (off + k)) then (z, RollSwap off n k current, Silent)
      else let '(p, o) := roll_fix off n k 0 in (z, p, o)
  | RollSwap off n k current =>
      match swap z (off + k) current (Z.land current (not64 (mask (off + k)))) with
      | Some z' => (z', if k + 1 =? n then RollSub off n else RollLoad off n (k + 1), Silent)
      | None => let '(p, o) := roll_fix off n k 0 in (z, p, o)
      end
  | RollFixLoad off n k j =>
      let current := load_for z (off + j) in
      if masked current (mask (off + j)) then let '(p, o) := roll_fix off n k (j + 1) in (z, p, o)
      else (z, RollFixSwap off n k j current, Silent)
  | RollFixSwap off n k j current =>
      let '(p, o) := roll_fix off n k (j + 1) in
      match swap z (off + j) current (Z.lor current (mask (off + j))) with
      | Some z' => (z', p, o)
      | None => (z, p, o)
      end
  | RollSub off n => (with_used z ((used_count z - n) mod 2 ^ 32), Idle, Silent)
  | CompactClear ts recs off n k =>
      let prev := load_for z (off + k) in
      let z' := with_words z (clear_bit (words z) (off + k)) in
      (z', if masked prev (mask (off + k))
           then (if k + 1 =? n then next_record z ts recs else CompactClear ts recs off n (k + 1))
           else (if k =? 0 then next_record z ts recs else CompactUndo ts recs off k 0), Silent)
  | CompactUndo ts recs off k j =>
      (with_words z (set_bit (words z) (off + j)),
       if j + 1 =? k then next_record z ts recs else CompactUndo ts recs off k (j + 1), Silent)
  | CompactCount ts i acc => (z, count_from z ts (S i) (acc + count_ones (word_of (words z) i)), Silent)
  | CompactStore ts acc => (with_used z (Z.min acc u32_max), CompactTs ts, Silent)
  | CompactTs ts =>
      (mkZone (words z) (unit_capacity z) (health z) (last_pos_64 z) (used_count z) (Z.max (compact_ts z) ts), Idle, Silent)
  end.

(** An index past the last word panics. *)
Definition exec (z : DdbZone) (p : pc) : DdbZone * pc * outcome :=
  match touched z p with
  | Some i => if (i <? length (words z))%nat then access z p else (z, Panicked, Silent)
  | None => access z p
  end.

(** ** Threads and schedules *)

Record thread := mkThread { t_pc : pc; held : list range; abandoned : list range }.

Record world := mkWorld { w_zone : DdbZone; w_threads : list thread; w_freed : list range }.

Inductive call :=
| CallAllocate (n limit : Z)
| CallRollback (i : nat)
| CallFree (i : nat)
| CallCompact (ts : Z) (sel : range -> bool).

Inductive event := Call (t : nat) (c : call) | Step (t : nat).

Definition settle (th : thread) (p : pc) (o : outcome) : thread :=
  match o with
  | Silent => mkThread p (held th) (abandoned th)
  | Gained r => mkThread p (r :: held th) (abandoned th)
  | Abandoned r => mkThread p (held th) (r :: abandoned th)
  end.

Definition is_idle (th : thread) : bool := match t_pc th with Idle => true | _ => false end.

(** The checks of [rollback_allocate] before its first load *)
Definition roll_start (z : DdbZone) (r : range) : pc * outcome :=
  let '(off, n) := r in
  if (n =? 0) || (unit_capacity z <? add32 off n) then (Idle, Abandoned r) else (RollVerify off n 0, Silent).

Definition do_call (w : world) (t : nat) (th : thread) (c : call) : world :=
  let z := w_zone w in
  match c with
  | CallAllocate n limit =>
      mkWorld z (<[t := mkThread (AllocHealth n limit) (held th) (abandoned th)]> (w_threads w)) (w_freed w)
  | CallRollback i =>
      match held th !! i with
      | Some r =>
          let '(p, o) := roll_start z r in
          mkWorld z (<[t := settle (mkThread Idle (delete i (held th)) (abandoned th)) p o]> (w_threads w)) (w_freed w)
      | None => w
      end
  | CallFree i =>
      match held th !! i with
      | Some r => mkWorld z (<[t := mkThread Idle (delete i (held th)) (abandoned th)]> (w_threads w)) (r :: w_freed w)
      | None => w
      end
  | CallCompact ts sel =>
      mkWorld z (<[t := mkThread (next_record z ts (List.filter sel (w_freed w))) (held th) (abandoned th)]> (w_threads w))
        (List.filter (fun r => negb (sel r)) (w_freed w))
  end.

Definition do_event (w : world) (e : event) : world :=
  match e with
  | Call t c =>
      match w_threads w !! t with
      | Some th => if is_idle th then do_call w t th c else w
      | None => w
      end
  | Step t =>
      match w_threads w !! t with
      | Some th =>
          let '(z, p, o) := exec (w_zone w) (t_pc th) in
          mkWorld z (<[t := settle th p o]> (w_threads w)) (w_freed w)
      | None => w
      end
  end.

Definition run (w : world) (es : list event) : world := foldl do_event w es.

(** A recovered zone: the ranges its threads answer for, allocated before, and
    those freed and not yet compacted. *)
Definition start (z : DdbZone) (owners : list (list range)) (freed : list range) : world :=
  mkWorld z ((fun rs => mkThread Idle rs []) <$> owners) freed.

(** ** Ownership

    The blocks a thread owns: those of the ranges it holds, and those of the
    operation it is in.  A bit whose clearing compare-exchange was lost is owned
    by nobody and stays set. *)

Definition range_bits (r : range) : list Z := seqZ r.1 r.2.
Definition ranges_bits (rs : list range) : list Z := concat (range_bits <$> rs).

Definition pc_bits (p : pc) : list Z :=
  match p with
  | SetLoad c p k | SetSwap c p k _ => seqZ (p_start p) k
  | UndoLoad c p k r | UndoSwap c p k r _ => seqZ (p_start p + r) (k - r)
  | StorePos c p | AddUsed c p => seqZ (p_start p) (c_count c)
  | RollVerify off n _ => seqZ off n
  | RollLoad off n k | RollSwap off n k _ => seqZ (off + k) (n - k)
  | CompactClear ts recs off n k => seqZ (off + k) (n - k) ++ ranges_bits recs
  | CompactUndo ts recs off k j => ranges_bits recs
  | _ => []
  end.

Definition out_bits (o : outcome) : list Z := match o with Gained r => range_bits r | _ => [] end.

(** Blocks that are set, in bounds and owned once. *)
Definition good (ws : list Z) (l : list Z) : Prop :=
  NoDup l /\ Forall (fun b => in_words ws b /\ get_bit ws b = true) l.

Lemma good_perm ws l l' : l ≡ₚ l' -> good ws l -> good ws l'.
Proof. intros Hp [Hn Hf]. split; by rewrite <- Hp. Qed.

#[export] Instance good_proper ws : Proper ((≡ₚ) ==> iff) (good ws).
Proof. intros l l' Hp. split; apply good_perm; [done|by symmetry]. Qed.

Lemma good_app_r ws l l' : good ws (l ++ l') -> good ws l'.
Proof. intros [Hn Hf]. apply NoDup_app in Hn as (_ & _ & Hn). apply Forall_app in Hf as [_ Hf]. by split. Qed.

Lemma good_claim ws b l : in_words ws b -> get_bit ws b = false -> good ws l -> good (set_bit ws b) (b :: l).
Proof.
  intros Hb Hg [Hn Hf]. split.
  - constructor; [|done]. intros Hin. rewrite Forall_forall in Hf. destruct (Hf b Hin) as [_ Ht]. congruence.
  - apply Forall_cons. split.
    + unfold in_words. rewrite length_set_bit. split; [apply Hb|]. rewrite get_set_bit by (done || apply Hb). by rewrite Z.eqb_refl, orb_true_r.
    + eapply Forall_impl; [exact Hf|]. intros x [Hx Ht]. unfold in_words. rewrite length_set_bit. split; [apply Hx|].
      rewrite get_set_bit by (done || apply Hx). by rewrite Ht.
Qed.

Lemma good_mark ws b l : in_words ws b -> good ws l -> good (set_bit ws b) l.
Proof.
  intros Hb [Hn Hf]. split; [done|]. eapply Forall_impl; [exact Hf|]. intros x [Hx Ht].
  unfold in_words. rewrite length_set_bit. split; [apply Hx|]. rewrite get_set_bit by (done || apply Hx). by rewrite Ht.
Qed.

Lemma good_clear ws b l : words_ok ws -> good ws (b :: l) -> good (clear_bit ws b) l.
Proof.
  intros Hw [Hn Hf]. apply NoDup_cons in Hn as [Hb Hn]. apply Forall_cons in Hf as [[Hin _] Hf]. split; [done|].
  rewrite Forall_forall in Hf |- *. intros x Hx. destruct (Hf x Hx) as [Hxi Ht]. unfold in_words. rewrite length_clear_bit.
  split; [apply Hxi|]. rewrite get_clear_bit by (done || apply Hxi). rewrite Ht, (proj2 (Z.eqb_neq x b)); [done|]. congruence.
Qed.

(** ** Well-formed positions *)

Definition claim_ok (z : DdbZone) (c : claim) : Prop :=
  0 < c_count c <= unit_capacity z /\ 0 <= c_start c < zone_word_count z /\ 0 <= c_i c < zone_word_count z.

Definition span_ok (z : DdbZone) (off n : Z) : Prop := 0 <= off /\ 0 < n /\ off + n <= unit_capacity z.

Definition ranges_ok (z : DdbZone) (rs : list range) : Prop := Forall (fun r => span_ok z r.1 r.2) rs.

Definition pc_ok (z : DdbZone) (p : pc) : Prop :=
  match p with
  | Idle => True
  | Panicked => False
  | AllocHealth n _ | AllocUsed n _ => 0 <= n
  | AllocPos n _ => 0 < n <= unit_capacity z /\ 0 < zone_word_count z
  | ClaimWord c => claim_ok z c
  | Verify c p k | SetLoad c p k | Recheck c p k => claim_ok z c /\ span_ok z (p_start p) (c_count c) /\ 0 <= k < c_count c
  | SetSwap c p k current =>
      claim_ok z c /\ span_ok z (p_start p) (c_count c) /\ 0 <= k < c_count c /\ masked current (mask (p_start p + k)) = false
  | UndoLoad c p k r => claim_ok z c /\ span_ok z (p_start p) (c_count c) /\ 0 <= r < k /\ k < c_count c
  | UndoSwap c p k r current => claim_ok z c /\ span_ok z (p_start p) (c_count c) /\ 0 <= r < k /\ k < c_count c
  | StorePos c p | AddUsed c p => claim_ok z c /\ span_ok z (p_start p) (c_count c)
  | RollVerify off n k | RollLoad off n k | RollSwap off n k _ => span_ok z off n /\ 0 <= k < n
  | RollFixLoad off n k j | RollFixSwap off n k j _ => span_ok z off n /\ 0 <= j < k /\ k < n
  | RollSub off n => span_ok z off n
  | CompactClear ts recs off n k => span_ok z off n /\ 0 <= k < n /\ ranges_ok z recs
  | CompactUndo ts recs off k j => 0 <= off /\ 0 <= j < k /\ off + k <= unit_capacity z /\ ranges_ok z recs
  | CompactCount _ _ _ | CompactStore _ _ | CompactTs _ => True
  end.

Definition out_ok (z : DdbZone) (o : outcome) : Prop := match o with Gained r => span_ok z r.1 r.2 | _ => True end.

(** Capacities are far below the point where a [u32] sum wraps. *)
Definition zone_ok (z : DdbZone) : Prop :=
  words_ok (words z) /\ 0 <= unit_capacity z <= 2 ^ 30 /\ zone_word_count z = (unit_capacity z + 63) / 64 /\ 0 <= last_pos_64 z.

(** The parts of a zone that positions depend on. *)
Definition same_geometry (z z' : DdbZone) : Prop :=
  unit_capacity z' = unit_capacity z /\ length (words z') = length (words z).

Lemma span_in_words z off n b : zone_ok z -> span_ok z off n -> off <= b < off + n -> in_words (words z) b.
Proof.
  intros (_ & Hc & Hl & _) (Ho & Hn & He) Hb. unfold in_words. fold (zone_word_count z). rewrite Hl.
  pose proof (Z.div_mod (unit_capacity z + 63) 64 ltac:(lia)). pose proof (Z.mod_pos_bound (unit_capacity z + 63) 64 ltac:(lia)). lia.
Qed.

Lemma pc_ok_geometry z z' p : same_geometry z z' -> pc_ok z p -> pc_ok z' p.
Proof.
  intros [Hc Hl]. assert (Hw : zone_word_count z' = zone_word_count z) by (unfold zone_word_count; by rewrite Hl).
  destruct p; cbn [pc_ok]; unfold claim_ok, ranges_ok, span_ok; rewrite ?Hc, ?Hw; done.
Qed.

Lemma trailing_from_le fuel w : forall p, p <= trailing_from fuel w p <= p + Z.of_nat fuel.
Proof.
  induction fuel as [|fuel IH]; intros p; cbn [trailing_from]; [lia|]. destruct (Z.testbit w p); [|lia].
  specialize (IH (p + 1)). lia.
Qed.

Lemma trailing_ones_nonneg w : 0 <= trailing_ones w.
Proof. pose proof (trailing_from_le 64 w 0). unfold trailing_ones. lia. Qed.

(** ** The code between accesses keeps to the bounds and owns nothing *)

Lemma next_word_ok z c : claim_ok z c -> pc_ok z (next_word z c) /\ pc_bits (next_word z c) = [].
Proof.
  intros (Hn & Hs & Hi). unfold next_word. destruct (Z.ltb_spec (c_i c + 1) (zone_word_count z)); [|done]. split; [|done].
  cbn [pc_ok]. unfold claim_ok. cbn [c_count c_start c_i]. lia.
Qed.

Lemma at_bit_ok z c scan pos : zone_ok z -> claim_ok z c -> 0 <= pos ->
  pc_ok z (at_bit z c scan pos) /\ pc_bits (at_bit z c scan pos) = [].
Proof.
  intros Hz Hc Hp. unfold at_bit. destruct (Z.leb_spec 64 pos); [by apply next_word_ok|]. cbv zeta.
  destruct (Z.ltb_spec (unit_capacity z) (add32 (word_idx z c * 64 + pos) (c_count c))); [by apply next_word_ok|].
  split; [|done]. cbn [pc_ok p_start]. destruct Hz as (_ & Hcap & Hl & _). pose proof Hc as (Hn & Hs & Hi).
  pose proof (Z.mod_pos_bound (c_start c + c_i c) (zone_word_count z) ltac:(lia)) as Hw. fold (word_idx z c) in Hw.
  assert (Ha : add32 (word_idx z c * 64 + pos) (c_count c) = word_idx z c * 64 + pos + c_count c).
  { unfold add32. apply Z.mod_small. pose proof (Z.div_mod (unit_capacity z + 63) 64 ltac:(lia)).
    pose proof (Z.mod_pos_bound (unit_capacity z + 63) 64 ltac:(lia)).
    change (2 ^ 32) with 4294967296. change (2 ^ 30) with 1073741824 in Hcap. lia. }
  split_and!; try done; unfold span_ok; lia.
Qed.

Lemma tried_ok z c p : zone_ok z -> claim_ok z c -> pc_ok z (tried z c p) /\ pc_bits (tried z c p) = [].
Proof.
  intros Hz Hc. unfold tried. cbv zeta. destruct (_ =? _); [by apply next_word_ok|]. apply at_bit_ok; [done|done|].
  apply trailing_ones_nonneg.
Qed.

Lemma undone_ok z c p k : zone_ok z -> claim_ok z c -> span_ok z (p_start p) (c_count c) -> 0 <= k < c_count c ->
  pc_ok z (undone z c p k) /\ pc_bits (undone z c p k) = [].
Proof. intros Hz Hc Hs Hk. unfold undone. destruct (_ <? _); [done|]. by apply tried_ok. Qed.

Lemma cas_failed_ok z c p k : zone_ok z -> claim_ok z c -> span_ok z (p_start p) (c_count c) -> 0 <= k < c_count c ->
  pc_ok z (cas_failed z c p k) /\ pc_bits (cas_failed z c p k) = seqZ (p_start p) k.
Proof.
  intros Hz Hc Hs Hk. unfold cas_failed. cbv zeta. destruct (Z.eqb_spec k 0) as [->|].
  - apply undone_ok; done.
  - cbn [pc_ok pc_bits c_count]. rewrite Z.add_0_r, Z.sub_0_r. split; [|done]. split_and!; try done; lia.
Qed.

Lemma undo_next_ok z c p k r : zone_ok z -> claim_ok z c -> span_ok z (p_start p) (c_count c) -> 0 <= r < k -> k < c_count c ->
  pc_ok z (undo_next z c p k r) /\ pc_bits (undo_next z c p k r) = seqZ (p_start p + (r + 1)) (k - (r + 1)).
Proof.
  intros Hz Hc Hs Hr Hk. unfold undo_next. destruct (Z.eqb_spec (r + 1) k) as [<-|].
  - destruct (undone_ok z c p (r + 1)) as [H1 H2]; [done|done|done|lia|]. split; [done|]. rewrite H2, Z.sub_diag. done.
  - cbn [pc_ok pc_bits]. split_and!; try done; lia.
Qed.

Lemma next_record_ok z ts recs : ranges_ok z recs ->
  pc_ok z (next_record z ts recs) /\ pc_bits (next_record z ts recs) = ranges_bits recs.
Proof.
  induction 1 as [|[off n] recs Hr Hrs IH]; cbn [next_record].
  - unfold count_from. destruct (_ <? _)%nat; done.
  - destruct Hr as (Ho & Hn & He). cbn [fst snd] in *. rewrite (proj2 (Z.eqb_neq n 0)) by lia.
    cbn [pc_ok pc_bits]. rewrite Z.add_0_r, Z.sub_0_r. unfold span_ok. split; [|done]. split_and!; try done; lia.
Qed.

Lemma roll_fix_ok z off n k j : span_ok z off n -> 0 <= j <= k -> k < n ->
  pc_ok z (roll_fix off n k j).1 /\ pc_bits (roll_fix off n k j).1 = [] /\ out_bits (roll_fix off n k j).2 = [] /\
  out_ok z (roll_fix off n k j).2.
Proof.
  intros Hs Hj Hk. unfold roll_fix. destruct (Z.eqb_spec j k); [done|]. split_and!; try done. cbn [pc_ok fst]. split_and!; try done; lia.
Qed.

(** ** One access keeps ownership *)

Definition keeps (z : DdbZone) (rest : list Z) (x : DdbZone * pc * outcome) : Prop :=
  let '(z', p', o) := x in
  zone_ok z' /\ same_geometry z z' /\ pc_ok z' p' /\ out_ok z' o /\ good (words z') (pc_bits p' ++ out_bits o ++ rest).

Lemma keeps_words z ws p o rest : zone_ok z -> words_ok ws -> length ws = length (words z) -> pc_ok z p -> out_ok z o ->
  good ws (pc_bits p ++ out_bits o ++ rest) -> keeps z rest (with_words z ws, p, o).
Proof.
  intros (Hw & Hc & Hl & Hp) Hws Hlen Hpc Ho Hg. assert (Hs : same_geometry z (with_words z ws)) by (by split).
  assert (Hz : zone_ok (with_words z ws)).
  { unfold zone_ok, zone_word_count in *. cbn [words with_words unit_capacity last_pos_64]. by rewrite Hlen. }
  split_and!; try done. by eapply pc_ok_geometry.
Qed.

Lemma keeps_same z p o rest : zone_ok z -> pc_ok z p -> out_ok z o ->
  good (words z) (pc_bits p ++ out_bits o ++ rest) -> keeps z rest (z, p, o).
Proof. intros Hz Hpc Ho Hg. split_and!; try done; by split. Qed.

(** An access that moves on without owning more or less. *)
Lemma keeps_quiet z p p' rest : zone_ok z -> good (words z) (pc_bits p ++ rest) -> pc_ok z p' -> pc_bits p' = pc_bits p ->
  keeps z rest (z, p', Silent).
Proof. intros Hz Hg Hp E. apply keeps_same; [done|done|done|]. cbn [out_bits]. by rewrite E. Qed.

(** One that gives up what it owned. *)
Lemma keeps_drop z p p' o rest : zone_ok z -> good (words z) (pc_bits p ++ rest) -> pc_ok z p' -> pc_bits p' = [] ->
  out_bits o = [] -> out_ok z o -> keeps z rest (z, p', o).
Proof. intros Hz Hg Hp E Eo Ho. apply keeps_same; [done|done|done|]. rewrite E, Eo. by eapply good_app_r. Qed.

Lemma swap_inv z bit current new z' : swap z bit current new = Some z' ->
  current = word_of (words z) (word_index bit) /\ z' = with_words z (<[word_index bit := new]> (words z)).
Proof. unfold swap, load_for. destruct (Z.eqb_spec (word_of (words z) (word_index bit)) current); [|done]. by intros [= <-]. Qed.

Lemma seqZ_snoc m k : 0 <= k -> seqZ m (k + 1) = seqZ m k ++ [m + k].
Proof. intros Hk. by rewrite seqZ_app by lia. Qed.

Lemma seqZ_head m k : 0 < k -> seqZ m k = m :: seqZ (m + 1) (k - 1).
Proof. intros Hk. by rewrite seqZ_cons by done. Qed.

Lemma claim_next z b l rest : zone_ok z -> in_words (words z) b -> get_bit (words z) b = false ->
  good (words z) (l ++ rest) -> good (set_bit (words z) b) ((l ++ [b]) ++ rest).
Proof.
  intros Hz Hb Hg H. eapply good_perm; [|by apply good_claim]. rewrite <- app_assoc. by rewrite (Permutation_middle l rest b).
Qed.

Lemma touched_ok z p i : zone_ok z -> pc_ok z p -> touched z p = Some i -> (i < length (words z))%nat.
Proof.
  intros Hz Hp. destruct p; cbn [touched pc_ok] in *; try done; intros [= <-].
  - destruct Hp as (Hn & Hs & Hi). pose proof (Z.mod_pos_bound (c_start c + c_i c) (zone_word_count z) ltac:(lia)) as Hw.
    fold (word_idx z c) in Hw. unfold zone_word_count in Hw. lia.
  - apply word_index_lt. eapply span_in_words; [done|apply Hp|lia].
  - apply word_index_lt. eapply span_in_words; [done|apply Hp|lia].
  - apply word_index_lt. eapply span_in_words; [done|apply Hp|lia].
  - apply word_index_lt. eapply span_in_words; [done|apply Hp|lia].
  - apply word_index_lt. eapply span_in_words; [done|apply Hp|lia].
  - apply word_index_lt. eapply span_in_words; [done|apply Hp|lia].
  - apply word_index_lt. eapply span_in_words; [done|apply Hp|lia].
  - apply word_index_lt. eapply span_in_words; [done|apply Hp|lia].
  - apply word_index_lt. eapply span_in_words; [done|apply Hp|lia].
  - apply word_index_lt. eapply span_in_words; [done|apply Hp|lia].
  - apply word_index_lt. eapply span_in_words; [done|apply Hp|lia].
  - apply word_index_lt. eapply span_in_words; [done|apply Hp|lia].
  - apply word_index_lt. apply (span_in_words z off k); [done| |lia]. unfold span_ok. lia.
Qed.

Lemma access_keeps z p rest : zone_ok z -> pc_ok z p -> good (words z) (pc_bits p ++ rest) -> keeps z rest (access z p).
Proof.
  intros Hz Hp Hg. pose proof Hz as (Hw & Hcap & Hlen & Hpos).
  destruct p as [| |n lim|n lim|n lim|c|c p k|c p k|c p k cur|c p k r|c p k r cur|c p k|c p|c p
                |off n k|off n k|off n k cur|off n k j|off n k j cur|off n
                |ts recs off n k|ts recs off k j|ts i acc|ts acc|ts]; cbn [access pc_ok] in *; try done.
  - eapply keeps_quiet; [done|exact Hg| |]; by destruct (health z).
  - eapply keeps_quiet; [done|exact Hg| |]; destruct (_ || _) eqn:E; try done. cbn [pc_ok].
    apply orb_false_iff in E as [E E4%Z.eqb_neq]. apply orb_false_iff in E as [E E3%Z.ltb_ge].
    apply orb_false_iff in E as [_ E2%Z.eqb_neq]. unfold zone_word_count in *. lia.
  - eapply keeps_quiet; [done|exact Hg| |done]. cbn [pc_ok]. unfold claim_ok. cbn [c_count c_start c_i].
    pose proof (Z.mod_pos_bound (last_pos_64 z) (zone_word_count z) ltac:(lia)). lia.
  - destruct (next_word_ok z c Hp) as [H1 H2]. cbv zeta. destruct (_ =? _).
    + eapply keeps_quiet; [done|exact Hg|done|by rewrite H2].
    + destruct (at_bit_ok z c (word_of (words z) (Z.to_nat (word_idx z c)))
        (trailing_ones (word_of (words z) (Z.to_nat (word_idx z c)))) Hz Hp (trailing_ones_nonneg _)) as [H3 H4].
      eapply keeps_quiet; [done|exact Hg|done|by rewrite H4].
  - destruct Hp as (Hc & Hs & Hk). destruct (tried_ok z c p Hz Hc) as [H1 H2].
    destruct (masked _ _); [eapply keeps_quiet; [done|exact Hg|done|by rewrite H2]|].
    destruct (Z.eqb_spec (k + 1) (c_count c)); (eapply keeps_quiet; [done|exact Hg| |done]); cbn [pc_ok]; split_and!; try done; lia.
  - destruct Hp as (Hc & Hs & Hk). cbv zeta. destruct (masked _ _) eqn:Em.
    + destruct (cas_failed_ok z c p k Hz Hc Hs Hk) as [H1 H2]. eapply keeps_quiet; [done|exact Hg|done|by rewrite H2].
    + eapply keeps_quiet; [done|exact Hg| |done]. cbn [pc_ok]. split_and!; try done; lia.
  - destruct Hp as (Hc & Hs & Hk & Hm). destruct (swap _ _ _ _) as [z'|] eqn:Es.
    + apply swap_inv in Es as [-> ->]. change (get_bit (words z) (p_start p + k) = false) in Hm.
      assert (Hin : in_words (words z) (p_start p + k)) by (eapply span_in_words; [done|exact Hs|lia]).
      apply keeps_words; [done|by apply set_bit_ok|apply length_set_bit| |done|].
      * destruct (Z.eqb_spec (k + 1) (c_count c)); cbn [pc_ok]; split_and!; try done; lia.
      * cbn [out_bits app]. replace (pc_bits _) with (seqZ (p_start p) k ++ [p_start p + k]); [by apply claim_next|].
        rewrite <- seqZ_snoc by lia. by destruct (Z.eqb_spec (k + 1) (c_count c)) as [->|].
    + destruct (cas_failed_ok z c p k Hz Hc Hs Hk) as [H1 H2]. eapply keeps_quiet; [done|exact Hg|done|by rewrite H2].
  - destruct Hp as (Hc & Hs & Hr & Hk). cbv zeta. destruct (masked _ _) eqn:Em.
    + eapply keeps_quiet; [done|exact Hg|done|done].
    + destruct (undo_next_ok z c p k r Hz Hc Hs Hr Hk) as [H1 H2]. apply keeps_same; [done|done|done|].
      cbn [out_bits app]. rewrite H2. cbn [pc_bits] in Hg. rewrite seqZ_head in Hg by lia. 
      apply (good_app_r _ [p_start p + r]). cbn [app]. by rewrite Z.add_assoc, Z.sub_add_distr.
  - destruct Hp as (Hc & Hs & Hr & Hk). destruct (undo_next_ok z c p k r Hz Hc Hs Hr Hk) as [H1 H2].
    cbn [pc_bits] in Hg. rewrite seqZ_head in Hg by lia.
    assert (Hg' : good (words z) ((p_start p + r) :: pc_bits (undo_next z c p k r) ++ rest)).
    { rewrite H2. by rewrite Z.add_assoc, Z.sub_add_distr. }
    destruct (swap _ _ _ _) as [z'|] eqn:Es.
    + apply swap_inv in Es as [-> ->]. apply keeps_words; [done|by apply clear_bit_ok|apply length_clear_bit|done|done|].
      by apply good_clear.
    + apply keeps_same; [done|done|done|]. by apply (good_app_r _ [p_start p + r]).
  - destruct Hp as (Hc & Hs & Hk). destruct (tried_ok z c p Hz Hc) as [H1 H2].
    destruct (masked _ _); [eapply keeps_quiet; [done|exact Hg|done|by rewrite H2]|].
    eapply keeps_quiet; [done|exact Hg| |done]. cbn [pc_ok]. split_and!; try done; lia.
  - destruct Hp as (Hc & Hs). pose proof (Z.mod_pos_bound (c_start c + c_i c) (zone_word_count z)) as Hm. fold (word_idx z c) in Hm.
    split_and!; try done. do 3 (split; [done|]). apply Hm. destruct Hc as (? & ? & ?). lia.
  - destruct Hp as (Hc & Hs). split_and!; done.
  - destruct Hp as (Hs & Hk). destruct (masked _ _) eqn:Em.
    + destruct (Z.eqb_spec (k + 1) n) as [<-|]; (eapply keeps_quiet; [done|exact Hg| |]); cbn [pc_ok pc_bits];
        rewrite ?Z.add_0_r, ?Z.sub_0_r; try done; split_and!; try done; lia.
    + eapply keeps_drop; done.
  - destruct Hp as (Hs & Hk). cbv zeta. destruct (masked _ _) eqn:Em; [eapply keeps_quiet; done|].
    destruct (roll_fix_ok z off n k 0 Hs) as (H1 & H2 & H3 & H4); [lia|lia|].
    destruct (roll_fix off n k 0) as [p' o]. by eapply keeps_drop.
  - destruct Hp as (Hs & Hk). cbn [pc_bits] in Hg. destruct (swap _ _ _ _) as [z'|] eqn:Es.
    + apply swap_inv in Es as [-> ->]. rewrite seqZ_head in Hg by lia.
      apply keeps_words; [done|by apply clear_bit_ok|apply length_clear_bit| |done|].
      * destruct (Z.eqb_spec (k + 1) n); cbn [pc_ok]; [done|]. split_and!; try done; lia.
      * cbn [out_bits app]. apply good_clear in Hg; [|done]. destruct (Z.eqb_spec (k + 1) n) as [<-|]; cbn [pc_bits].
        -- by eapply good_app_r.
        -- by rewrite Z.add_assoc, Z.sub_add_distr.
    + destruct (roll_fix_ok z off n k 0 Hs) as (H1 & H2 & H3 & H4); [lia|lia|].
      destruct (roll_fix off n k 0) as [p' o]. eapply (keeps_drop z (RollLoad off n k)); done.
  - destruct Hp as (Hs & Hj & Hk). destruct (roll_fix_ok z off n k (j + 1) Hs) as (H1 & H2 & H3 & H4); [lia|lia|].
    cbv zeta. destruct (masked _ _).
    + destruct (roll_fix off n k (j + 1)) as [p' o]. by eapply keeps_drop.
    + by eapply keeps_quiet.
  - destruct Hp as (Hs & Hj & Hk). destruct (roll_fix_ok z off n k (j + 1) Hs) as (H1 & H2 & H3 & H4); [lia|lia|].
    destruct (roll_fix off n k (j + 1)) as [p' o]. cbn [fst snd] in *. destruct (swap _ _ _ _) as [z'|] eqn:Es.
    + apply swap_inv in Es as [-> ->]. apply keeps_words; [done|by apply set_bit_ok|apply length_set_bit|done|done|].
      rewrite H2, H3. apply good_mark; [|done]. eapply span_in_words; [done|exact Hs|lia].
    + by eapply keeps_drop.
  - destruct Hp as (Hs & Hk & Hrs). destruct (next_record_ok z ts recs Hrs) as [H1 H2]. cbn [pc_bits] in Hg. cbv zeta.
    rewrite seqZ_head, <- app_assoc in Hg by lia. cbn [app] in Hg.
    assert (Hset : masked (load_for z (off + k)) (mask (off + k)) = true).
    { destruct Hg as [_ Hf]. by apply Forall_inv in Hf as [_ Hf]. }
    rewrite Hset. apply good_clear in Hg; [|done].
    apply keeps_words; [done|by apply clear_bit_ok|apply length_clear_bit| |done|].
    + destruct (Z.eqb_spec (k + 1) n); [done|]. cbn [pc_ok]. split_and!; try done; lia.
    + cbn [out_bits app]. destruct (Z.eqb_spec (k + 1) n) as [<-|].
      * rewrite H2. by eapply good_app_r.
      * cbn [pc_bits]. by rewrite <- app_assoc, Z.add_assoc, Z.sub_add_distr.
  - destruct Hp as (Ho & Hj & Hk & Hrs). destruct (next_record_ok z ts recs Hrs) as [H1 H2].
    apply keeps_words; [done|by apply set_bit_ok|apply length_set_bit| |done|].
    + destruct (Z.eqb_spec (j + 1) k); [done|]. cbn [pc_ok]. split_and!; try done; lia.
    + cbn [out_bits app]. destruct (Z.eqb_spec (j + 1) k); [rewrite H2|cbn [pc_bits]]; (apply good_mark; [|done]);
        apply (span_in_words z off k); try done; unfold span_ok; lia.
  - unfold count_from. destruct (_ <? _)%nat; by eapply keeps_quiet.
Qed.

Lemma exec_keeps z p rest : zone_ok z -> pc_ok z p -> good (words z) (pc_bits p ++ rest) -> keeps z rest (exec z p).
Proof.
  intros Hz Hp Hg. unfold exec. destruct (touched z p) as [i|] eqn:E; [|by apply access_keeps].
  rewrite (proj2 (Nat.ltb_lt _ _)) by (by eapply touched_ok). by apply access_keeps.
Qed.


(** ** Runs *)

Section regroup.
Context {A B : Type} (f : A -> list B).

Lemma concat_delete l i x : l !! i = Some x -> concat (f <$> l) ≡ₚ f x ++ concat (f <$> delete i l).
Proof.
  revert i. induction l as [|a l IH]; intros [|i] Hi; try done; [by injection Hi as ->|].
  cbn [fmap list_fmap concat delete list_delete]. change (list_fmap A (list B) f) with (fmap (M := list) f).
  rewrite (IH i Hi). apply Permutation_app_swap_app.
Qed.

Lemma concat_insert l i x y : l !! i = Some x -> concat (f <$> <[i := y]> l) ≡ₚ f y ++ concat (f <$> delete i l).
Proof.
  revert i. induction l as [|a l IH]; intros [|i] Hi; try done.
  cbn [fmap list_fmap concat delete list_delete insert list_insert]. change (list_fmap A (list B) f) with (fmap (M := list) f).
  change (list_insert i y l) with (<[i := y]> l). rewrite (IH i Hi). apply Permutation_app_swap_app.
Qed.

Lemma concat_filter (sel : A -> bool) l :
  concat (f <$> l) ≡ₚ concat (f <$> List.filter sel l) ++ concat (f <$> List.filter (fun x => negb (sel x)) l).
Proof.
  induction l as [|a l IH]; [done|]. cbn [fmap list_fmap concat List.filter].
  change (list_fmap A (list B) f) with (fmap (M := list) f). rewrite IH.
  destruct (sel a); cbn [negb fmap list_fmap concat]; change (list_fmap A (list B) f) with (fmap (M := list) f).
  - by rewrite app_assoc.
  - apply Permutation_app_swap_app.
Qed.
End regroup.

Definition thread_bits (th : thread) : list Z := pc_bits (t_pc th) ++ ranges_bits (held th).
Definition owned (w : world) : list Z := concat (thread_bits <$> w_threads w) ++ ranges_bits (w_freed w).

Definition thread_ok (z : DdbZone) (th : thread) : Prop := pc_ok z (t_pc th) /\ ranges_ok z (held th).

Definition world_ok (w : world) : Prop :=
  zone_ok (w_zone w) /\ Forall (thread_ok (w_zone w)) (w_threads w) /\ ranges_ok (w_zone w) (w_freed w) /\
  good (words (w_zone w)) (owned w).

(** What a caller passes: a [u32] count. *)
Definition event_ok (e : event) : Prop := match e with Call _ (CallAllocate n _) => 0 <= n | _ => True end.

Lemma ranges_ok_geometry z z' rs : same_geometry z z' -> ranges_ok z rs -> ranges_ok z' rs.
Proof. intros [Hc _]. unfold ranges_ok, span_ok. by rewrite Hc. Qed.

Lemma thread_ok_geometry z z' th : same_geometry z z' -> thread_ok z th -> thread_ok z' th.
Proof. intros Hs [Hp Hh]. split; [by eapply pc_ok_geometry|by eapply ranges_ok_geometry]. Qed.

Lemma settle_bits th p o : thread_bits (settle th p o) = pc_bits p ++ out_bits o ++ ranges_bits (held th).
Proof. by destruct o. Qed.

Lemma settle_ok z th p o : ranges_ok z (held th) -> pc_ok z p -> out_ok z o -> thread_ok z (settle th p o).
Proof. intros Hh Hp Ho. destruct o; split; try done. by constructor. Qed.

(** Replacing a thread keeps the world when what the new one and the freed ranges
    own was owned by the old ones. *)
Lemma replace_ok w t th th' freed' : world_ok w -> w_threads w !! t = Some th ->
  thread_ok (w_zone w) th' -> ranges_ok (w_zone w) freed' ->
  (forall others, good (words (w_zone w)) (thread_bits th ++ ranges_bits (w_freed w) ++ others) ->
     good (words (w_zone w)) (thread_bits th' ++ ranges_bits freed' ++ others)) ->
  world_ok (mkWorld (w_zone w) (<[t := th']> (w_threads w)) freed').
Proof.
  intros (Hz & Hts & Hf & Hg) Ht Hth Hfr Hown. split_and!; try done; cbn [w_zone w_threads w_freed].
  - by apply Forall_insert.
  - unfold owned in *. cbn [w_threads w_freed]. eapply good_perm.
    + rewrite (concat_insert thread_bits _ _ _ th' Ht), <- app_assoc.
      rewrite (Permutation_app_comm (concat _) (ranges_bits freed')). reflexivity.
    + apply Hown. eapply good_perm; [|exact Hg]. rewrite (concat_delete thread_bits _ _ _ Ht), <- app_assoc.
      by rewrite (Permutation_app_comm (concat _) (ranges_bits (w_freed w))).
Qed.

Lemma held_split (rs : list range) i r : rs !! i = Some r -> ranges_bits rs ≡ₚ range_bits r ++ ranges_bits (delete i rs).
Proof. apply concat_delete. Qed.

Lemma call_ok w t th c : world_ok w -> event_ok (Call t c) -> w_threads w !! t = Some th -> is_idle th = true ->
  world_ok (do_call w t th c).
Proof.
  intros Hw He Ht Hi. pose proof Hw as (Hz & Hts & Hf & Hg). rewrite Forall_lookup in Hts. destruct (Hts _ _ Ht) as [Hp Hh].
  assert (Hb : thread_bits th = ranges_bits (held th)) by (unfold is_idle in Hi; unfold thread_bits; by destruct (t_pc th)).
  destruct c as [n lim|i|i|ts sel]; cbn [do_call].
  - eapply replace_ok; try done. intros others. by rewrite Hb.
  - destruct (held th !! i) as [r|] eqn:Er; [|done]. unfold ranges_ok in Hh. rewrite Forall_lookup in Hh. pose proof (Hh _ _ Er) as Hr.
    destruct (roll_start (w_zone w) r) as [p o] eqn:Es. destruct r as [off n]. unfold roll_start in Es. cbn [fst snd] in Hr.
    assert (Hdel : ranges_ok (w_zone w) (delete i (held th))) by (apply Forall_delete, Forall_lookup, Hh).
    pose proof (held_split (held th) i (off, n) Er) as Hperm.
    eapply replace_ok; try done.
    + apply settle_ok; [done|..]; destruct (_ || _); injection Es as <- <-; try done.
      destruct Hr as (Ho & Hn & He'). cbn [pc_ok]. unfold span_ok. split_and!; lia.
    + intros others. rewrite settle_bits, Hb, Hperm, <- !app_assoc. cbn [held].
      destruct (_ || _); injection Es as <- <-; [apply good_app_r|done].
  - destruct (held th !! i) as [r|] eqn:Er; [|done]. pose proof (held_split (held th) i r Er) as Hperm.
    unfold ranges_ok in Hh. rewrite Forall_lookup in Hh. pose proof (Hh _ _ Er) as Hr. eapply replace_ok; try done.
    + split; [done|]. apply Forall_delete, Forall_lookup, Hh.
    + by constructor.
    + intros others. rewrite Hb. apply good_perm. rewrite Hperm. unfold thread_bits. cbn [t_pc pc_bits held app].
      change (ranges_bits (r :: w_freed w)) with (range_bits r ++ ranges_bits (w_freed w)). rewrite <- !app_assoc.
      apply Permutation_app_swap_app.
  - assert (Hsub : forall g, ranges_ok (w_zone w) (List.filter g (w_freed w))).
    { intros g. unfold ranges_ok in *. rewrite Forall_forall in Hf |- *. intros x Hx. apply Hf.
      apply list_elem_of_In in Hx. apply List.filter_In in Hx as [Hx _]. by apply list_elem_of_In. }
    destruct (next_record_ok (w_zone w) ts (List.filter sel (w_freed w)) (Hsub sel)) as [H1 H2].
    eapply replace_ok; try done. intros others. unfold thread_bits at 2. cbn [t_pc held]. rewrite H2, Hb. apply good_perm.
    unfold ranges_bits at 2. rewrite (concat_filter range_bits sel (w_freed w)). fold (ranges_bits (List.filter sel (w_freed w))).
    rewrite <- !app_assoc. apply Permutation_app_swap_app.
Qed.

Lemma event_keeps w e : world_ok w -> event_ok e -> world_ok (do_event w e).
Proof.
  intros Hw He. destruct e as [t c|t]; cbn [do_event]; (destruct (w_threads w !! t) as [th|] eqn:Ht; [|done]).
  { destruct (is_idle th) eqn:Hi; [|done]. by apply call_ok. }
  pose proof Hw as (Hz & Hts & Hf & Hg). rewrite Forall_lookup in Hts. destruct (Hts _ _ Ht) as [Hp Hh].
  set (others := concat (thread_bits <$> delete t (w_threads w))).
  pose proof (exec_keeps (w_zone w) (t_pc th) (ranges_bits (held th) ++ others ++ ranges_bits (w_freed w)) Hz Hp) as Hk.
  destruct (exec (w_zone w) (t_pc th)) as [[z p] o]. destruct Hk as (Hz' & Hs & Hp' & Ho & Hg').
  { eapply good_perm; [|exact Hg]. unfold owned. rewrite (concat_delete thread_bits _ _ _ Ht). unfold thread_bits at 1.
    by rewrite <- !app_assoc. }
  split_and!; try done; cbn [w_zone w_threads w_freed].
  - apply Forall_insert; [|apply settle_ok; [by eapply ranges_ok_geometry|done|done]].
    apply Forall_lookup. intros i x Hx. eapply thread_ok_geometry; [exact Hs|by eapply Hts].
  - by eapply ranges_ok_geometry.
  - eapply good_perm; [|exact Hg']. unfold owned. cbn [w_threads w_freed].
    rewrite (concat_insert thread_bits _ _ _ (settle th p o) Ht), settle_bits. by rewrite <- !app_assoc.
Qed.

Lemma run_keeps w es : world_ok w -> Forall event_ok es -> world_ok (run w es).
Proof.
  intros Hw He. revert w Hw. induction He as [|e es He _ IH]; intros w Hw; [done|]. apply IH. by apply event_keeps.
Qed.

(** ** No two ranges overlap *)

(** The ranges known at recovery are within the capacity, set and disjoint. *)
Definition recovered (z : DdbZone) (owners : list (list range)) (freed : list range) : Prop :=
  ranges_ok z (concat owners ++ freed) /\ good (words z) (ranges_bits (concat owners ++ freed)).

Definition all_ranges (w : world) : list range := concat (held <$> w_threads w) ++ w_freed w.

Lemma ranges_bits_app rs rs' : ranges_bits (rs ++ rs') = ranges_bits rs ++ ranges_bits rs'.
Proof. unfold ranges_bits. by rewrite fmap_app, concat_app. Qed.

Lemma owned_ranges w : exists l, owned w ≡ₚ l ++ ranges_bits (all_ranges w).
Proof.
  unfold owned, all_ranges. exists (concat ((fun th => pc_bits (t_pc th)) <$> w_threads w)).
  rewrite ranges_bits_app, app_assoc. apply Permutation_app_tail. induction (w_threads w) as [|th ts IH]; [done|].
  cbn [fmap list_fmap concat]. rewrite ranges_bits_app.
  change (list_fmap thread (list Z) thread_bits ts) with (thread_bits <$> ts). rewrite IH. unfold thread_bits at 1.
  rewrite <- !app_assoc. apply Permutation_app_head. apply Permutation_app_swap_app.
Qed.

Lemma start_ok z owners freed : zone_ok z -> recovered z owners freed -> world_ok (start z owners freed).
Proof.
  intros Hz [Hr Hg]. apply Forall_app in Hr as [Hr Hf]. split; [done|]. split; [|split; [done|]].
  - cbn [start w_threads w_zone]. clear Hg. induction owners as [|rs owners IH]; [apply Forall_nil_2|].
    cbn [concat] in Hr. apply Forall_app in Hr as [Hrs Hr]. apply Forall_cons. split; [|by apply IH]. by split.
  - cbn [start w_zone]. rewrite ranges_bits_app in Hg. unfold owned. cbn [start w_threads w_freed].
    assert (concat (thread_bits <$> ((fun rs => mkThread Idle rs []) <$> owners)) = ranges_bits (concat owners)) as ->; [|done].
    clear. induction owners as [|rs owners IH]; [done|]. cbn [fmap list_fmap concat]. rewrite ranges_bits_app. by f_equal.
Qed.

Lemma start_ranges z owners freed : all_ranges (start z owners freed) = concat owners ++ freed.
Proof. unfold all_ranges, start. cbn [w_threads w_freed]. f_equal. induction owners as [|rs l IH]; [done|]. simpl. by f_equal. Qed.

Lemma range_bits_elem r b : b ∈ range_bits r <-> r.1 <= b < r.1 + r.2.
Proof. apply elem_of_seqZ. Qed.

Lemma ranges_bits_elem rs r b : r ∈ rs -> b ∈ range_bits r -> b ∈ ranges_bits rs.
Proof.
  intros Hr Hb. apply list_elem_of_In, List.in_concat. exists (range_bits r).
  split; apply list_elem_of_In; [by apply list_elem_of_fmap_2|done].
Qed.

Lemma all_ranges_ok w : world_ok w -> ranges_ok (w_zone w) (all_ranges w).
Proof.
  intros (_ & Hts & Hf & _). apply Forall_app. split; [|done].
  induction Hts as [|th ts [_ Hh] _ IH]; [constructor|]. cbn [fmap list_fmap concat]. by apply Forall_app.
Qed.

Lemma access_capacity z p : unit_capacity (access z p).1.1 = unit_capacity z.
Proof.
  destruct p; cbn [access]; try done; unfold swap, roll_fix;
    repeat match goal with |- context [if ?b then _ else _] => destruct b end; done.
Qed.

Lemma exec_capacity z p : unit_capacity (exec z p).1.1 = unit_capacity z.
Proof. unfold exec. destruct (touched z p); [|apply access_capacity]. destruct (_ <? _)%nat; [apply access_capacity|done]. Qed.

Lemma run_geometry w es : unit_capacity (w_zone (run w es)) = unit_capacity (w_zone w).
Proof.
  revert w. induction es as [|e es IH]; intros w; [done|]. unfold run in *. cbn [foldl]. rewrite IH.
  destruct e as [t c|t]; cbn [do_event]; (destruct (w_threads w !! t) as [th|]; [|done]).
  - destruct (is_idle th); [|done]. destruct c; cbn [do_call]; try done; destruct (held th !! i); try done.
    by destruct (roll_start _ _).
  - pose proof (exec_capacity (w_zone w) (t_pc th)) as Hc. by destruct (exec _ _) as [[z p] o].
Qed.

Lemma ranges_disjoint rs i j r r' : NoDup (ranges_bits rs) -> i <> j -> rs !! i = Some r -> rs !! j = Some r' ->
  0 < r.2 -> 0 < r'.2 -> r.1 + r.2 <= r'.1 \/ r'.1 + r'.2 <= r.1.
Proof.
  intros Hn Hij Hi Hj Hr Hr'. rewrite (held_split _ _ _ Hi) in Hn. apply NoDup_app in Hn as (_ & Hd & _).
  destruct (decide (r.1 + r.2 <= r'.1 \/ r'.1 + r'.2 <= r.1)) as [|Ho]; [done|exfalso].
  assert (Hin : r' ∈ delete i rs).
  { destruct (decide (j < i)%nat).
    - apply (list_elem_of_lookup_2 _ j). by rewrite list_lookup_delete_lt.
    - apply (list_elem_of_lookup_2 _ (j - 1)). rewrite list_lookup_delete_ge by lia. by replace (S (j - 1)) with j by lia. }
  apply (Hd (Z.max r.1 r'.1)); [apply range_bits_elem; lia|]. apply (ranges_bits_elem _ r'); [done|]. apply range_bits_elem. lia.
Qed.

(** C35. Lock-free allocation never hands a block out twice.  Whatever the zone's
    recovered bitmap, the ranges in it that were allocated or freed before, the
    number of threads and the interleaving of their allocations, rollbacks, frees
    and compactions, one atomic access at a time, no thread indexes the bitmap out
    of bounds, and the ranges that threads hold or have freed are within the
    capacity, set in the bitmap and pairwise disjoint.  A zone has at most 2^30
    units. *)
Theorem zone_no_overlap z owners freed es : zone_ok z -> recovered z owners freed -> Forall event_ok es ->
  let w := run (start z owners freed) es in
  Forall (fun th => t_pc th <> Panicked) (w_threads w) /\
  (forall r, r ∈ all_ranges w -> span_ok z r.1 r.2 /\
     forall b, r.1 <= b < r.1 + r.2 -> get_bit (words (w_zone w)) b = true) /\
  (forall i j r r', i <> j -> all_ranges w !! i = Some r -> all_ranges w !! j = Some r' ->
     r.1 + r.2 <= r'.1 \/ r'.1 + r'.2 <= r.1).
Proof.
  intros Hz Hre He w. pose proof (run_keeps _ _ (start_ok z owners freed Hz Hre) He) as Hw. fold w in Hw.
  pose proof (run_geometry (start z owners freed) es) as Hgeo. cbn [start w_zone] in Hgeo. fold w in Hgeo.
  assert (Hall : ranges_ok (w_zone w) (all_ranges w)) by (by apply all_ranges_ok).
  destruct Hw as (Hz' & Hts & Hf & Hg). destruct (owned_ranges w) as [l Hl]. rewrite Hl in Hg. apply good_app_r in Hg as [Hn Hb].
  split_and!.
  - eapply Forall_impl; [exact Hts|]. intros th [Hp _] E. by rewrite E in Hp.
  - intros r Hr. unfold ranges_ok in Hall. rewrite Forall_forall in Hall. specialize (Hall r Hr). split.
    + unfold span_ok in *. by rewrite <- Hgeo.
    + intros b Hb'. rewrite Forall_forall in Hb. apply (Hb b), (ranges_bits_elem _ r); [done|]. by apply range_bits_elem.
  - intros i j r r' Hij Hi Hj. unfold ranges_ok in Hall. rewrite Forall_lookup in Hall.
    eapply ranges_disjoint; [exact Hn|exact Hij|exact Hi|exact Hj|apply (Hall _ _ Hi)|apply (Hall _ _ Hj)].
Qed.


(** ** The used counter *)

Definition total {A} (f : A -> Z) (l : list A) : Z := foldr Z.add 0 (f <$> l).
Definition units (rs : list range) : Z := total (A := range) snd rs.

(** Units an operation has to subtract if it succeeds *)
Definition pc_units (p : pc) : Z :=
  match p with
  | RollVerify _ n _ | RollLoad _ n _ | RollSwap _ n _ _ | RollFixLoad _ n _ _ | RollFixSwap _ n _ _ _ | RollSub _ n => n
  | _ => 0
  end.

Definition out_units (o : outcome) : Z := match o with Gained r | Abandoned r => r.2 | Silent => 0 end.

Definition thread_units (th : thread) : Z := pc_units (t_pc th) + units (held th) + units (abandoned th).
Definition world_units (w : world) : Z := total thread_units (w_threads w) + units (w_freed w).

Definition is_compact (p : pc) : bool :=
  match p with
  | CompactClear _ _ _ _ _ | CompactUndo _ _ _ _ _ | CompactCount _ _ _ | CompactStore _ _ | CompactTs _ => true
  | _ => false
  end.

Definition no_compaction (e : event) : Prop := match e with Call _ (CallCompact _ _) => False | _ => True end.

Lemma total_of_insert {A} (f : A -> Z) l i x y : l !! i = Some x -> total f (<[i := y]> l) = total f l + (f y - f x).
Proof. intros Hi. unfold total. rewrite list_fmap_insert. apply sum_insert. by rewrite list_lookup_fmap, Hi. Qed.

Lemma total_of_cons {A} (f : A -> Z) a l : total f (a :: l) = f a + total f l.
Proof. reflexivity. Qed.

Lemma total_of_delete {A} (f : A -> Z) l i x : l !! i = Some x -> total f (delete i l) = total f l - f x.
Proof.
  revert i. induction l as [|a l IH]; intros [|i] Hi; try done; rewrite total_of_cons.
  - injection Hi as ->. change (delete 0%nat (x :: l)) with l. lia.
  - change (delete (S i) (a :: l)) with (a :: delete i l). rewrite total_of_cons, (IH i Hi). lia.
Qed.

Lemma total_of_app {A} (f : A -> Z) l l' : total f (l ++ l') = total f l + total f l'.
Proof. induction l as [|a l IH]; [done|]. cbn [app]. rewrite !total_of_cons. lia. Qed.

Lemma access_used z p : is_compact p = false -> 0 <= used_count z < 2 ^ 32 ->
  let x := access z p in
  is_compact x.1.2 = false /\ 0 <= used_count x.1.1 < 2 ^ 32 /\
  used_count x.1.1 = (used_count z + (pc_units x.1.2 + out_units x.2 - pc_units p)) mod 2 ^ 32.
Proof.
  intros Hc Hu. pose proof (fun v => Z.mod_pos_bound v (2 ^ 32) ltac:(lia)) as Hm.
  destruct p; try done; cbn [access]; unfold swap, roll_fix, cas_failed, undo_next, undone, tried, at_bit, next_word;
    cbv zeta; repeat match goal with
    | |- context [if ?b then _ else _] => destruct b
    | |- context [match ?h with Healthy => _ | Missing => _ | Bad => _ end] => destruct h
    end; cbn [fst snd is_compact pc_units out_units used_count with_used with_words c_count];
    (split; [reflexivity|]); unfold add32;
    first [split; [exact Hu|]; rewrite Z.mod_small by lia; lia | split; [apply Hm|]; f_equal; lia].
Qed.

Definition quiet (w : world) : Prop := Forall (fun th => is_compact (t_pc th) = false) (w_threads w).

Lemma settle_units th p o : thread_units (settle th p o) = pc_units p + out_units o + units (held th) + units (abandoned th).
Proof. destruct o; unfold thread_units; cbn [settle t_pc held abandoned out_units]; [lia|..];
  unfold units; rewrite total_of_cons; lia. Qed.

Lemma call_units w t th c : no_compaction (Call t c) -> quiet w -> w_threads w !! t = Some th -> is_idle th = true ->
  quiet (do_call w t th c) /\ w_zone (do_call w t th c) = w_zone w /\ world_units (do_call w t th c) = world_units w.
Proof.
  intros Hn Hq Ht Hi. unfold quiet, world_units in *.
  assert (Hu : thread_units th = units (held th) + units (abandoned th)).
  { unfold is_idle in Hi. unfold thread_units. by destruct (t_pc th). }
  destruct c as [n lim|i|i|ts sel]; cbn [do_call]; [| | |done].
  - cbn [w_zone w_threads w_freed]. rewrite (total_of_insert _ _ _ _ _ Ht), Hu. split_and!; [by apply Forall_insert|done|].
    unfold thread_units. cbn [t_pc pc_units held abandoned]. lia.
  - destruct (held th !! i) as [r|] eqn:Er; [|done]. destruct (roll_start (w_zone w) r) as [p o] eqn:Es.
    cbn [w_zone w_threads w_freed]. rewrite (total_of_insert _ _ _ _ _ Ht), Hu, settle_units. cbn [held abandoned].
    unfold units. rewrite (total_of_delete (A := range) _ _ _ _ Er). destruct r as [off n]. unfold roll_start in Es.
    destruct (_ || _); injection Es as <- <-; cbn [pc_units out_units snd settle]; (split_and!; [by apply Forall_insert|done|lia]).
  - destruct (held th !! i) as [r|] eqn:Er; [|done]. cbn [w_zone w_threads w_freed]. rewrite (total_of_insert _ _ _ _ _ Ht), Hu.
    split_and!; [by apply Forall_insert|done|]. unfold thread_units. cbn [t_pc pc_units held abandoned]. unfold units.
    rewrite (total_of_delete (A := range) _ _ _ _ Er), total_of_cons. lia.
Qed.

Lemma event_used w e : world_ok w -> event_ok e -> no_compaction e -> quiet w -> 0 <= used_count (w_zone w) < 2 ^ 32 ->
  quiet (do_event w e) /\ 0 <= used_count (w_zone (do_event w e)) < 2 ^ 32 /\
  used_count (w_zone (do_event w e)) = (used_count (w_zone w) + (world_units (do_event w e) - world_units w)) mod 2 ^ 32.
Proof.
  intros Hw He Hn Hq Hu. assert (Hsame : used_count (w_zone w) = (used_count (w_zone w) + (world_units w - world_units w)) mod 2 ^ 32).
  { rewrite Z.sub_diag, Z.add_0_r, Z.mod_small; lia. }
  destruct e as [t c|t]; cbn [do_event]; (destruct (w_threads w !! t) as [th|] eqn:Ht; [|done]).
  - destruct (is_idle th) eqn:Hi; [|done]. destruct (call_units w t th c Hn Hq Ht Hi) as (Hq' & Hz & Hu').
    by rewrite Hz, Hu'.
  - pose proof Hw as (Hz & Hts & _ & _). rewrite Forall_lookup in Hts. destruct (Hts _ _ Ht) as [Hp _].
    unfold quiet in Hq. pose proof Hq as Hq'. rewrite Forall_lookup in Hq'. specialize (Hq' _ _ Ht).
    assert (Ex : exec (w_zone w) (t_pc th) = access (w_zone w) (t_pc th)).
    { unfold exec. destruct (touched _ _) as [i|] eqn:Et; [|done]. by rewrite (proj2 (Nat.ltb_lt _ _)) by (by eapply touched_ok). }
    rewrite Ex. pose proof (access_used (w_zone w) (t_pc th) Hq' Hu) as Ha. destruct (access (w_zone w) (t_pc th)) as [[z p] o].
    cbn [fst snd] in Ha. destruct Ha as (Hc & Hu' & E). unfold world_units. cbn [w_zone w_threads w_freed].
    split_and!; [apply Forall_insert; [done|by destruct o]|lia|lia|].
    rewrite E, (total_of_insert _ _ _ _ _ Ht), settle_units. unfold thread_units at 2. f_equal. lia.
Qed.

Lemma run_used w es : world_ok w -> Forall event_ok es -> Forall no_compaction es -> quiet w -> 0 <= used_count (w_zone w) < 2 ^ 32 ->
  used_count (w_zone (run w es)) = (used_count (w_zone w) + (world_units (run w es) - world_units w)) mod 2 ^ 32.
Proof.
  intros Hw He Hn Hq Hu. revert w Hw Hq Hu. induction He as [|e es He Hes IH]; intros w Hw Hq Hu.
  { unfold run. cbn [foldl]. rewrite Z.sub_diag, Z.add_0_r, Z.mod_small; lia. }
  apply Forall_cons in Hn as [Hn Hns]. destruct (event_used w e Hw He Hn Hq Hu) as (Hq' & Hu' & E).
  change (run w (e :: es)) with (run (do_event w e) es). rewrite (IH Hns (do_event w e)); [|by apply event_keeps|done|done].
  rewrite E, Z.add_mod_idemp_l by lia. f_equal. lia.
Qed.

Lemma units_length rs : Forall (fun r => 0 <= r.2) rs -> units rs = Z.of_nat (length (ranges_bits rs)).
Proof.
  unfold units, total, ranges_bits. induction 1 as [|[off n] rs Hr _ IH]; [done|]. cbn [fmap list_fmap foldr concat snd].
  rewrite length_app. unfold range_bits at 1. cbn [fst snd] in *. rewrite length_seqZ.
  change (list_fmap range Z snd rs) with (snd <$> rs). change (list_fmap range (list Z) range_bits rs) with (range_bits <$> rs). lia.
Qed.

Lemma units_le cap rs : 0 <= cap -> NoDup (ranges_bits rs) -> Forall (fun r => 0 <= r.1 /\ 0 < r.2 /\ r.1 + r.2 <= cap) rs ->
  units rs <= cap.
Proof.
  intros Hc Hn Hr. rewrite units_length by (eapply Forall_impl; [exact Hr|]; simpl; lia).
  enough (length (ranges_bits rs) <= length (seqZ 0 cap))%nat by (rewrite length_seqZ in *; lia).
  apply submseteq_length, NoDup_submseteq; [done|]. intros b Hb. apply list_elem_of_In, List.in_concat in Hb as (l & Hl & Hb).
  apply list_elem_of_In in Hl, Hb. apply list_elem_of_fmap in Hl as (r & -> & Hr'). rewrite Forall_forall in Hr.
  specialize (Hr r Hr'). apply range_bits_elem in Hb. apply elem_of_seqZ. lia.
Qed.

Definition at_rest (w : world) : Prop := Forall (fun th => t_pc th = Idle /\ abandoned th = []) (w_threads w).

Lemma rest_units w : at_rest w -> world_units w = units (all_ranges w).
Proof.
  unfold at_rest, world_units, all_ranges, units. rewrite total_of_app. intros Hr. f_equal.
  induction Hr as [|th ts [Hp Ha] _ IH]; [done|]. cbn [fmap list_fmap concat]. rewrite total_of_app.
  change (list_fmap thread (list range) held ts) with (held <$> ts). rewrite <- IH, total_of_cons. unfold thread_units at 1.
  rewrite Hp, Ha. cbn [pc_units]. unfold units. change (total (A := range) snd []) with 0. lia.
Qed.

(** Without compaction the used counter is exact under every interleaving:
    it is, modulo [2 ^ 32], its recovered value plus the units gained since in
    ranges held and freed, in those whose rollback has not yet subtracted them, and
    in those whose rollback gave up.  If it was right at recovery then, once no
    operation is under way and no rollback gave up, it is the number of units held
    or freed, and that is at most the capacity. *)
Theorem zone_used_exact z owners freed es :
  zone_ok z -> recovered z owners freed -> 0 <= used_count z < 2 ^ 32 -> Forall event_ok es -> Forall no_compaction es ->
  let w := run (start z owners freed) es in
  used_count (w_zone w) = (used_count z + (world_units w - units (concat owners ++ freed))) mod 2 ^ 32 /\
  (used_count z = units (concat owners ++ freed) -> at_rest w ->
   used_count (w_zone w) = units (all_ranges w) /\ units (all_ranges w) <= unit_capacity z).
Proof.
  intros Hz Hre Hu He Hn w. pose proof (start_ok z owners freed Hz Hre) as Hs. pose proof (run_keeps _ _ Hs He) as Hw. fold w in Hw.
  assert (at_rest (start z owners freed)) as Hrest by (apply Forall_forall; by intros th (rs & -> & _)%list_elem_of_fmap).
  assert (E : used_count (w_zone w) = (used_count z + (world_units w - units (concat owners ++ freed))) mod 2 ^ 32).
  { unfold w. rewrite (run_used (start z owners freed) es), (rest_units (start z owners freed)), start_ranges; try done.
    eapply Forall_impl; [exact Hrest|]. by intros th [-> _]. }
  split; [done|]. intros E0 Hr. assert (Hle : units (all_ranges w) <= unit_capacity z).
  { pose proof (all_ranges_ok w Hw) as Hall. pose proof (run_geometry (start z owners freed) es) as Hgeo. fold w in Hgeo.
    destruct Hw as (_ & _ & _ & Hg). destruct (owned_ranges w) as [l Hl]. rewrite Hl in Hg. apply good_app_r in Hg as [Hnd _].
    apply units_le; [apply Hz|done|]. cbn [start w_zone] in Hgeo. unfold ranges_ok, span_ok in Hall. by rewrite Hgeo in Hall. }
  split; [|done]. rewrite E, E0, rest_units by done.
  replace (units (concat owners ++ freed) + (units (all_ranges w) - units (concat owners ++ freed))) with (units (all_ranges w)) by lia.
  apply Z.mod_small. destruct Hz as (_ & Hcap & _ & _).
  split; [|change (2 ^ 32) with 4294967296; change (2 ^ 30) with 1073741824 in Hcap; lia].
  rewrite units_length; [lia|]. eapply Forall_impl; [exact (all_ranges_ok w Hw)|]. intros r (_ & Hr' & _). lia.
Qed.

(** ** Concrete schedules *)

Definition steps (t n : nat) : list event := replicate n (Step t).

Lemma steps_ok t n : Forall event_ok (steps t n).
Proof. by apply Forall_replicate. Qed.

(** Two threads claim in the same word, turn by turn. *)
Definition turns : list event :=
  [Call 0 (CallAllocate 3 8); Call 1 (CallAllocate 2 8)] ++ concat (replicate 40 [Step 0; Step 1]).

Lemma turns_ok : Forall event_ok turns.
Proof. repeat first [apply Forall_nil_2 | apply Forall_cons_2; [first [exact I|cbn; lia]|]]. Qed.

(** A recovered zone in which block 4 is allocated and block 0 freed. *)
Definition used_zone : DdbZone := with_used (with_words (zone_new 128) [17; 0]) 2.

Lemma used_zone_ok : zone_ok used_zone.
Proof. unfold zone_ok, words_ok, word_ok. split_and!; try done. repeat (constructor; [done|]). constructor. Qed.

Lemma used_zone_recovered : recovered used_zone [[(4, 1)]; []] [(0, 1)].
Proof.
  split; [repeat (constructor; [done|]); constructor|]. split.
  - vm_compute. rewrite !NoDup_cons, !elem_of_cons, !elem_of_nil. split_and!; try lia. apply NoDup_nil_2.
  - repeat (constructor; [done|]). constructor.
Qed.

Lemma zone_no_overlap_witness :
  let w := run (start used_zone [[(4, 1)]; []] [(0, 1)]) turns in
  all_ranges w = [(5, 3); (4, 1); (1, 2); (0, 1)] /\ (forall b, 5 <= b < 8 -> get_bit (words (w_zone w)) b = true).
Proof.
  destruct (zone_no_overlap used_zone [[(4, 1)]; []] [(0, 1)] turns used_zone_ok used_zone_recovered turns_ok) as (_ & Hr & _).
  split; [vm_compute; reflexivity|]. apply (Hr (5, 3)). vm_compute. left.
Defined.

Lemma zone_used_exact_witness : used_count (w_zone (run (start used_zone [[(4, 1)]; []] [(0, 1)]) turns)) = 7.
Proof.
  destruct (zone_used_exact used_zone [[(4, 1)]; []] [(0, 1)] turns) as [E _];
    [exact used_zone_ok|exact used_zone_recovered|cbn; lia|exact turns_ok| |].
  - repeat first [apply Forall_nil_2 | apply Forall_cons_2; [exact I|]].
  - rewrite E. vm_compute. reflexivity.
Defined.

(** Thread 0 sets block 0 and loses block 1 to thread 1; while it undoes block 0,
    thread 1 sets block 2 in the same word, so the undo's compare-exchange fails
    and its result is ignored.  Both end with a range, and block 0 stays set
    although nobody holds it and the counter does not know it. *)
Definition lost_undo : list event :=
  [Call 0 (CallAllocate 2 1); Call 1 (CallAllocate 2 8)] ++
  steps 0 9 ++ steps 1 8 ++ steps 0 2 ++ steps 1 2 ++ steps 0 31 ++ steps 1 30.

Example undo_leaks_block :
  let w := run (start (zone_new 64) [[]; []] []) lost_undo in
  at_rest w /\ all_ranges w = [(3, 2); (1, 2)] /\ used_count (w_zone w) = 4 /\ get_bit (words (w_zone w)) 0 = true.
Proof. vm_compute. split_and!; repeat constructor. Qed.

(** A rollback of a range the thread holds gives up because another block of the
    word was claimed between its load and its compare-exchange. *)
Definition lost_rollback : list event :=
  [Call 0 (CallAllocate 1 8)] ++ steps 0 20 ++ [Call 0 (CallRollback 0); Call 1 (CallAllocate 1 8)] ++
  steps 0 2 ++ steps 1 20 ++ steps 0 10.

Example rollback_gives_up :
  let w := run (start (zone_new 64) [[]; []] []) lost_rollback in
  (abandoned <$> w_threads w) = [[(0, 1)]; []] /\ get_bit (words (w_zone w)) 0 = true.
Proof. vm_compute. done. Qed.

(** A compaction stores its count of set bits between a rollback's last clear and
    its subtraction: the counter wraps, and the empty zone refuses to allocate. *)
Definition compacted_rollback : list event :=
  [Call 0 (CallAllocate 2 8)] ++ steps 0 20 ++ [Call 0 (CallRollback 0); Call 1 (CallCompact 5 (fun _ => true))] ++
  steps 0 6 ++ steps 1 20 ++ steps 0 10.

Example compaction_wraps_counter :
  let w := run (start (zone_new 64) [[]; []] []) compacted_rollback in
  words (w_zone w) = [0] /\ used_count (w_zone w) = 2 ^ 32 - 2 /\
  all_ranges (run w ([Call 0 (CallAllocate 1 8)] ++ steps 0 30)) = [].
Proof. vm_compute. done. Qed.

End ZoneAlloc.
