(* ===== verification/Gf256.v ===== *)
(** * The field of the erasure code

    GF(2^8) as [src/lib/crowdb-common/rust/src/ec_isal.rs] computes in it: the
    log and exponent tables and the product through them, proved equal to the
    product of polynomials over GF(2) modulo 0x11d, and the algebra of rows,
    columns and matrices the codec needs. *)

From stdpp Require Import prelude list.
From Stdlib Require Import ZArith Lia.
From S2P Require Import Prelude.
From S2P Require Import Bytes.

Module Gf256.

(** ** The field *)

(** [table[i as usize]] *)
Definition at_ (l : bytes) (i : Z) : Z := default 0 (l !! Z.to_nat i).

Definition GF_POLY : Z := 0x11d.

(** One turn of the loop of [build_gf_tables]: the tables and [x : u16]. *)
Definition gf_table_turn (st : bytes * bytes * Z) (i : nat) : bytes * bytes * Z :=
  let '(exp, log, x) := st in
  let exp := <[i := Z.land x 255]> exp in
  let log := <[Z.to_nat x := Z.of_nat i]> log in
  let x := Z.shiftl x 1 mod 2 ^ 16 in
  let x := if Z.land x 0x100 =? 0 then x else Z.lxor x GF_POLY in
  (exp, log, x).

Definition build_gf_tables : bytes * bytes :=
  let '(exp, log, _) :=
    fold_left gf_table_turn (seq 0 255) (replicate 256 0, replicate 256 0, 1) in
  (<[255%nat := at_ exp 0]> exp, log).

Definition gf_mul (a b : Z) (exp log : bytes) : Z :=
  if (a =? 0) || (b =? 0) then 0
  else let l := (at_ log a + at_ log b) mod 255 in at_ exp l.

(** Multiplication by [x], and the product of two polynomials, modulo 0x11d. *)
Definition xtime (a : Z) : Z :=
  let d := 2 * a in if d <? 256 then d else Z.lxor d GF_POLY.

Fixpoint xtimes (n : nat) (a : Z) : Z :=
  match n with O => a | S n => xtime (xtimes n a) end.

Definition bit_times (a : Z) (b : Z) (i : nat) : Z :=
  if Z.testbit b (Z.of_nat i) then xtimes i a else 0.

Definition xor_sum (l : list Z) : Z := foldr Z.lxor 0 l.

Definition gmul (a b : Z) : Z := xor_sum (bit_times a b <$> seq 0 8).

(** The product of a row of coefficients and a column of bytes. *)
Definition dot (row col : bytes) : Z := xor_sum (zip_with gmul row col).

(** ** Matrices stored row by row *)

(** Row [r] of a matrix of [k] columns stored row by row. *)
Definition coef_row (k : nat) (a : bytes) (r : nat) : bytes := take k (drop (r * k) a).

(** The bytes at offset [b] of every shard. *)
Definition column (data : list bytes) (b : nat) : bytes :=
  (fun d => default 0 (d !! b)) <$> data.

Definition combine_row (row : bytes) (data : list bytes) (len : nat) : bytes :=
  (fun b => dot row (column data b)) <$> seq 0 len.

(** Entry [(i, j)] of the product of two [n * n] matrices is that of the identity. *)
Definition is_left_inverse (n : nat) (h g : bytes) : bool :=
  forallb (fun i => forallb (fun j =>
    dot (coef_row n h i) ((fun r => default 0 (coef_row n g r !! j)) <$> seq 0 n)
      =? (if (i =? j)%nat then 1 else 0)) (seq 0 n)) (seq 0 n).

Definition is_matrix (rows cols : nat) (a : bytes) : Prop :=
  length a = (rows * cols)%nat /\ Forall is_byte a.

(** ** The tables compute the field *)

Definition byte_list : list Z := Z.of_nat <$> seq 0 256.

Definition all_pairs (f : Z -> Z -> bool) : bool :=
  forallb (fun a => forallb (f a) byte_list) byte_list.

Lemma byte_list_spec a : is_byte a -> In a byte_list.
Proof.
  intros [? ?]. unfold byte_list. rewrite <- list_elem_of_In. apply list_elem_of_fmap.
  exists (Z.to_nat a). split; [lia|]. apply elem_of_seq. lia.
Qed.

Lemma all_pairs_spec f a b : all_pairs f = true -> is_byte a -> is_byte b -> f a b = true.
Proof.
  unfold all_pairs. intros H Ha%byte_list_spec Hb%byte_list_spec.
  rewrite forallb_forall in H. specialize (H a Ha). rewrite forallb_forall in H. auto.
Qed.

Lemma is_byte_land b : is_byte b <-> 0 <= b /\ Z.land b 255 = b.
Proof.
  unfold is_byte. change 255 with (Z.ones 8). rewrite Z.land_ones by lia. split.
  - intros ?. split; [lia|]. apply Z.mod_small. lia.
  - intros [? E]. pose proof (Z.mod_pos_bound b (2 ^ 8)). lia.
Qed.

Lemma lxor_byte a b : is_byte a -> is_byte b -> is_byte (Z.lxor a b).
Proof.
  rewrite !is_byte_land. intros [? Ha] [? Hb]. split; [apply Z.lxor_nonneg; lia|].
  rewrite Z.land_comm. apply Z.bits_inj'. intros n Hn.
  rewrite Z.land_spec, !Z.lxor_spec, <- Ha, <- Hb, !Z.land_spec.
  by destruct (Z.testbit a n), (Z.testbit b n), (Z.testbit 255 n).
Qed.

Lemma xtime_byte a : is_byte a -> is_byte (xtime a).
Proof.
  intros Ha%byte_list_spec.
  assert (forallb (fun a => (0 <=? xtime a) && (xtime a <? 256)) byte_list = true) as H by reflexivity.
  rewrite forallb_forall in H. specialize (H a Ha). unfold is_byte. lia.
Qed.

Lemma xtime_xor a b : is_byte a -> is_byte b -> xtime (Z.lxor a b) = Z.lxor (xtime a) (xtime b).
Proof.
  intros Ha Hb. apply Z.eqb_eq.
  apply (all_pairs_spec (fun a b => xtime (Z.lxor a b) =? Z.lxor (xtime a) (xtime b))); [|done..].
  by vm_compute.
Qed.

Lemma xtimes_byte n a : is_byte a -> is_byte (xtimes n a).
Proof. intros. induction n; simpl; auto using xtime_byte. Qed.

Lemma xtimes_xor n a b :
  is_byte a -> is_byte b -> xtimes n (Z.lxor a b) = Z.lxor (xtimes n a) (xtimes n b).
Proof.
  intros Ha Hb. induction n as [|n IH]; simpl; [done|]. rewrite IH. apply xtime_xor; by apply xtimes_byte.
Qed.

Lemma xtimes_0 n : xtimes n 0 = 0.
Proof. induction n as [|n IH]; simpl; [done|]. by rewrite IH. Qed.

Lemma xor_sum_byte l : Forall is_byte l -> is_byte (xor_sum l).
Proof. induction 1; simpl; [done|]. by apply lxor_byte. Qed.

Lemma xor_swap a b c d : Z.lxor (Z.lxor a b) (Z.lxor c d) = Z.lxor (Z.lxor a c) (Z.lxor b d).
Proof.
  rewrite !Z.lxor_assoc. f_equal. rewrite <- !Z.lxor_assoc. f_equal. apply Z.lxor_comm.
Qed.

Lemma xor_sum_xor {A} (f g : A -> Z) l :
  xor_sum ((fun x => Z.lxor (f x) (g x)) <$> l) = Z.lxor (xor_sum (f <$> l)) (xor_sum (g <$> l)).
Proof. unfold xor_sum in *. induction l as [|x l IH]; csimpl; [done|]. rewrite IH. apply xor_swap. Qed.

Lemma xor_sum_zero {A} (f : A -> Z) l : (forall x, x ∈ l -> f x = 0) -> xor_sum (f <$> l) = 0.
Proof.
  unfold xor_sum. induction l as [|x l IH]; csimpl; intros H; [done|].
  rewrite H by set_solver. apply IH. set_solver.
Qed.

Lemma bit_times_byte a b i : is_byte a -> is_byte (bit_times a b i).
Proof. intros. unfold bit_times. destruct (Z.testbit _ _); [by apply xtimes_byte|done]. Qed.

Lemma gmul_byte a b : is_byte a -> is_byte (gmul a b).
Proof. intros. apply xor_sum_byte, Forall_fmap, Forall_true. intros i. by apply bit_times_byte. Qed.

Lemma gmul_xor_r a b c : gmul a (Z.lxor b c) = Z.lxor (gmul a b) (gmul a c).
Proof.
  unfold gmul. rewrite <- xor_sum_xor. f_equal. apply list_fmap_ext. intros _ i _.
  unfold bit_times. rewrite Z.lxor_spec.
  destruct (Z.testbit b _), (Z.testbit c _); simpl; by rewrite ?Z.lxor_nilpotent, ?Z.lxor_0_r.
Qed.

Lemma gmul_xor_l a b c :
  is_byte a -> is_byte b -> gmul (Z.lxor a b) c = Z.lxor (gmul a c) (gmul b c).
Proof.
  intros Ha Hb. unfold gmul. rewrite <- xor_sum_xor. f_equal. apply list_fmap_ext. intros _ i _.
  unfold bit_times. destruct (Z.testbit c _); [by apply xtimes_xor|done].
Qed.

Lemma gmul_0_r a : gmul a 0 = 0.
Proof. unfold gmul, bit_times. apply xor_sum_zero. intros i _. by rewrite Z.bits_0. Qed.

Lemma gmul_0_l a : gmul 0 a = 0.
Proof.
  unfold gmul, bit_times. apply xor_sum_zero. intros i _. rewrite xtimes_0.
  by destruct (Z.testbit _ _).
Qed.

Lemma gmul_1_l b : is_byte b -> gmul 1 b = b.
Proof.
  intros Hb%byte_list_spec.
  assert (forallb (fun b => gmul 1 b =? b) byte_list = true) as H by reflexivity.
  rewrite forallb_forall in H. apply Z.eqb_eq. auto.
Qed.

Lemma gmul_xtime a b : is_byte a -> is_byte b -> gmul a (xtime b) = xtime (gmul a b).
Proof.
  intros Ha Hb. apply Z.eqb_eq.
  apply (all_pairs_spec (fun a b => gmul a (xtime b) =? xtime (gmul a b))); [|done..].
  by vm_compute.
Qed.

Lemma gmul_xtimes n a b : is_byte a -> is_byte b -> gmul a (xtimes n b) = xtimes n (gmul a b).
Proof.
  intros Ha Hb. induction n as [|n IH]; simpl; [done|].
  rewrite gmul_xtime by (done || by apply xtimes_byte). by rewrite IH.
Qed.

Lemma gmul_xor_sum a l : gmul a (xor_sum l) = xor_sum (gmul a <$> l).
Proof. unfold xor_sum. induction l as [|x l IH]; csimpl; [apply gmul_0_r|]. by rewrite gmul_xor_r, IH. Qed.

Lemma gmul_assoc a b c : is_byte a -> is_byte b -> gmul (gmul a b) c = gmul a (gmul b c).
Proof.
  intros Ha Hb. unfold gmul at 1 4. rewrite gmul_xor_sum, <- list_fmap_compose. f_equal.
  apply list_fmap_ext. intros _ i _. unfold bit_times, compose.
  destruct (Z.testbit c _); [by rewrite gmul_xtimes|by rewrite gmul_0_r].
Qed.

(** Multiplication through the log and exponent tables is the product of the
    two polynomials over GF(2) modulo 0x11d. *)
Lemma gf_mul_product a b :
  is_byte a -> is_byte b ->
  gf_mul a b build_gf_tables.1 build_gf_tables.2 = gmul a b.
Proof.
  intros Ha Hb. apply Z.eqb_eq.
  apply (all_pairs_spec (fun a b => gf_mul a b build_gf_tables.1 build_gf_tables.2 =? gmul a b)); [|done..].
  by vm_compute.
Qed.

(** ** Rows, columns and matrices *)

Abbreviation at0 l j := (default 0 (l !! j%nat)) (only parsing).

Lemma at0_byte l j : Forall is_byte l -> is_byte (at0 l j).
Proof.
  intros H. destruct (l !! j) as [x|] eqn:E; simpl; [|done]. by apply (Forall_lookup_1 _ _ _ _ H E).
Qed.

Lemma at0_seq (f : nat -> Z) n j : (j < n)%nat -> at0 (f <$> seq 0 n) j = f j.
Proof. intros. by rewrite list_lookup_fmap, lookup_seq_lt by done. Qed.

Lemma seq_fmap_ext {A} (f g : nat -> A) n :
  (forall i, (i < n)%nat -> f i = g i) -> f <$> seq 0 n = g <$> seq 0 n.
Proof.
  intros H. apply list_fmap_ext. intros i x [-> ?]%lookup_seq. by apply H.
Qed.

Lemma at0_all l n : length l = n -> (fun j => at0 l j) <$> seq 0 n = l.
Proof.
  intros <-. apply list_eq. intros i. rewrite list_lookup_fmap.
  destruct (decide (i < length l)%nat).
  - rewrite lookup_seq_lt by done. simpl. destruct (lookup_lt_is_Some_2 l i) as [x ->]; done.
  - rewrite !lookup_ge_None_2; rewrite ?length_seq; [done|lia..].
Qed.

Lemma seq_length {A} (f : nat -> A) n : length (f <$> seq 0 n) = n.
Proof. by rewrite length_fmap, length_seq. Qed.

Lemma seq_Forall {A} (P : A -> Prop) (f : nat -> A) n :
  (forall i, (i < n)%nat -> P (f i)) -> Forall P (f <$> seq 0 n).
Proof. intros H. apply Forall_fmap, Forall_seq. intros j ?. apply H. lia. Qed.

Lemma dot_seq k row col :
  length row = k -> length col = k ->
  dot row col = xor_sum ((fun j => gmul (at0 row j) (at0 col j)) <$> seq 0 k).
Proof.
  intros Hr Hc. unfold dot. f_equal. rewrite <- (at0_all row k), <- (at0_all col k) at 1 by done.
  rewrite zip_with_fmap_l, zip_with_fmap_r, zip_with_diag. done.
Qed.

Lemma dot_byte row col : Forall is_byte row -> is_byte (dot row col).
Proof.
  intros H. apply xor_sum_byte. revert col. induction H as [|x l Hx Hl IH]; intros [|y col]; simpl; auto.
  constructor; auto using gmul_byte.
Qed.

Lemma xor_sum_exchange (f : nat -> nat -> Z) l k :
  xor_sum ((fun i => xor_sum (f i <$> k)) <$> l) =
  xor_sum ((fun j => xor_sum ((fun i => f i j) <$> l)) <$> k).
Proof.
  induction l as [|i l IH]; cbn [fmap list_fmap].
  { symmetry. apply xor_sum_zero. done. }
  change (Z.lxor (xor_sum (f i <$> k)) (xor_sum ((fun i => xor_sum (f i <$> k)) <$> l)) =
    xor_sum ((fun j => Z.lxor (f i j) (xor_sum ((fun i => f i j) <$> l))) <$> k)).
  by rewrite IH, xor_sum_xor.
Qed.

Lemma gmul_xor_sum_l l c :
  Forall is_byte l -> gmul (xor_sum l) c = xor_sum ((fun x => gmul x c) <$> l).
Proof.
  unfold xor_sum. induction 1 as [|x l Hx Hl IH]; csimpl; [apply gmul_0_l|].
  rewrite gmul_xor_l by (done || by apply xor_sum_byte). by rewrite IH.
Qed.

(** [u * (G * d) = (u * G) * d]. *)
Lemma mat_vec_assoc n k u (G : nat -> bytes) d :
  length u = n -> Forall is_byte u -> length d = k ->
  (forall r, (r < n)%nat -> length (G r) = k /\ Forall is_byte (G r)) ->
  dot u ((fun r => dot (G r) d) <$> seq 0 n) =
  dot ((fun j => dot u ((fun r => at0 (G r) j) <$> seq 0 n)) <$> seq 0 k) d.
Proof.
  intros Hu Bu Hd HG. rewrite (dot_seq n), (dot_seq k) by (rewrite ?seq_length; done).
  transitivity (xor_sum ((fun r => xor_sum ((fun j =>
    gmul (gmul (at0 u r) (at0 (G r) j)) (at0 d j)) <$> seq 0 k)) <$> seq 0 n)).
  { f_equal. apply seq_fmap_ext. intros r Hr. destruct (HG r Hr) as [HGl HGb].
    rewrite at0_seq, (dot_seq k), gmul_xor_sum, <- list_fmap_compose by done. f_equal.
    apply seq_fmap_ext. intros j Hj. simpl. symmetry. apply gmul_assoc; by apply at0_byte. }
  rewrite xor_sum_exchange. f_equal. apply seq_fmap_ext. intros j Hj.
  rewrite at0_seq, (dot_seq n), gmul_xor_sum_l, <- list_fmap_compose by (rewrite ?seq_length;
    auto using seq_Forall, gmul_byte, at0_byte). f_equal.
  apply seq_fmap_ext. intros r Hr. simpl. by rewrite at0_seq.
Qed.

Lemma xor_sum_single (f : nat -> Z) n i :
  (i < n)%nat -> (forall j, (j < n)%nat -> j <> i -> f j = 0) -> xor_sum (f <$> seq 0 n) = f i.
Proof.
  revert f i. induction n as [|n IH]; intros f i Hi Hf; [lia|].
  rewrite <- cons_seq, <- fmap_S_seq, fmap_cons, <- list_fmap_compose.
  change (Z.lxor (f 0%nat) (xor_sum ((f ∘ S) <$> seq 0 n)) = f i). destruct i as [|i].
  - rewrite xor_sum_zero; [apply Z.lxor_0_r|]. intros j Hj%elem_of_seq. apply Hf; lia.
  - rewrite Hf, Z.lxor_0_l by lia. apply (IH (f ∘ S) i); [lia|]. intros j ??. apply Hf; lia.
Qed.

(** A row of the identity picks its entry. *)
Lemma dot_unit k i (row : nat -> Z) d :
  (i < k)%nat -> length d = k -> Forall is_byte d ->
  (forall j, (j < k)%nat -> row j = if (i =? j)%nat then 1 else 0) ->
  dot (row <$> seq 0 k) d = at0 d i.
Proof.
  intros Hi Hd Bd Hr. rewrite (dot_seq k) by (rewrite ?seq_length; done).
  rewrite (xor_sum_single _ k i Hi).
  - rewrite at0_seq, Hr, Nat.eqb_refl by done. apply gmul_1_l. by apply at0_byte.
  - intros j Hj Hn. rewrite at0_seq, Hr by done. case_match eqn:E; [by apply Nat.eqb_eq in E|].
    apply gmul_0_l.
Qed.

Lemma coef_row_length rows k a r :
  length a = (rows * k)%nat -> (r < rows)%nat -> length (coef_row k a r) = k.
Proof. intros. unfold coef_row. rewrite length_take, length_drop. nia. Qed.

Lemma coef_row_byte k a r : Forall is_byte a -> Forall is_byte (coef_row k a r).
Proof. intros. unfold coef_row. by apply Forall_take, Forall_drop. Qed.

Lemma coef_row_seq rows k a r :
  length a = (rows * k)%nat -> (r < rows)%nat ->
  (fun col => at0 a (r * k + col)) <$> seq 0 k = coef_row k a r.
Proof.
  intros Ha Hr. rewrite <- (at0_all (coef_row k a r) k) by eauto using coef_row_length.
  apply seq_fmap_ext. intros i Hi. unfold coef_row. by rewrite lookup_take_lt, lookup_drop by done.
Qed.

Lemma coef_row_flat_map {A} k (f : A -> bytes) l r x :
  (forall x, x ∈ l -> length (f x) = k) -> l !! r = Some x -> coef_row k (flat_map f l) r = f x.
Proof.
  revert r. induction l as [|y l IH]; intros r Hl Hx; [done|]. unfold coef_row. simpl.
  destruct r as [|r]; simplify_eq/=.
  - rewrite drop_0, take_app_length'; [done|]. symmetry. apply Hl. set_solver.
  - assert (length (f y) = k) as Hy by (apply Hl; set_solver). rewrite drop_app_ge, Hy by lia.
    replace (k + r * k - k)%nat with (r * k)%nat by lia. apply IH; [set_solver|done].
Qed.

Lemma flat_map_length_const {A} k (f : A -> bytes) l :
  (forall x, x ∈ l -> length (f x) = k) -> length (flat_map f l) = (length l * k)%nat.
Proof.
  induction l as [|y l IH]; intros Hl; simpl; [done|].
  rewrite length_app, IH, Hl by set_solver. lia.
Qed.

Lemma flat_map_Forall {A} (P : Z -> Prop) (f : A -> bytes) l :
  (forall x, x ∈ l -> Forall P (f x)) -> Forall P (flat_map f l).
Proof.
  induction l as [|y l IH]; intros Hl; simpl; [done|].
  apply Forall_app. split; [apply Hl|apply IH]; set_solver.
Qed.

Lemma left_inverse_spec n h g i j :
  is_left_inverse n h g = true -> (i < n)%nat -> (j < n)%nat ->
  dot (coef_row n h i) ((fun r => at0 (coef_row n g r) j) <$> seq 0 n) = if (i =? j)%nat then 1 else 0.
Proof.
  unfold is_left_inverse. intros H Hi Hj. rewrite forallb_forall in H.
  assert (forall m, (m < n)%nat -> In m (seq 0 n)) as Hin by (intros; apply in_seq; lia).
  specialize (H i (Hin i Hi)). rewrite forallb_forall in H. specialize (H j (Hin j Hj)).
  by apply Z.eqb_eq.
Qed.

(** Row [i] of the inverse recovers entry [i] of [d] from [G * d]. *)
Lemma inverse_recovers n h g d i :
  is_matrix n n h -> is_matrix n n g -> is_left_inverse n h g = true ->
  (i < n)%nat -> length d = n -> Forall is_byte d ->
  dot (coef_row n h i) ((fun r => dot (coef_row n g r) d) <$> seq 0 n) = at0 d i.
Proof.
  intros [Hh Bh] [Hg Bg] Hinv Hi Hd Bd.
  rewrite (mat_vec_assoc n n); eauto using coef_row_length, coef_row_byte.
  apply (dot_unit n); [done..|]. intros j Hj. by apply left_inverse_spec.
Qed.

End Gf256.
