(* ===== verification/Ec.v ===== *)
(** * Erasure coding of a stripe

    [src/lib/crowdb-common/rust/src/ec.rs] and [ec_isal.rs]: splitting an
    object into data shards, Reed-Solomon parity over GF(2^8), reconstruction
    of lost shards and the incremental parity of a stripe that is written one
    shard at a time.  The isa-l library the crate calls through its foreign
    interface is the record [IsaL]; [IsaLSpec] is what its manual says of the
    five functions.  Products are those of GF(2)[x] modulo the polynomial
    0x11d, written out in [gmul]; the log and exponent tables of the crate are
    proved to compute them. *)

From stdpp Require Import prelude list.
From Stdlib Require Import ZArith Lia.
From S2P Require Import Prelude.
From S2P Require Import Bytes.
From S2P Require Import Gf256.

Module Ec.
Import Gf256.

(** ** isa-l *)

(** The functions of the foreign interface.  Counts and lengths are the [i32]
    arguments; a buffer an argument points to is passed as its contents from
    the pointer on, and the contents after the call are returned. *)
Class IsaL := {
  gf_gen_rs_matrix : Z -> Z -> bytes;
  gf_invert_matrix : bytes -> Z -> bytes;
  ec_init_tables : Z -> Z -> bytes -> bytes;
  ec_encode_data : Z -> Z -> Z -> bytes -> list bytes -> list bytes -> list bytes;
  ec_encode_data_update : Z -> Z -> Z -> Z -> bytes -> bytes -> list bytes -> list bytes;
}.

(** What the manual says: the generator matrix starts with the identity; a
    matrix that has an inverse is inverted; encoding multiplies the matrix the
    tables were made from with the sources; the update adds the contribution
    of source [vec_i] to the first [len] bytes of each output. *)
Class IsaLSpec (I : IsaL) : Prop := {
  gen_matrix m k : (0 < k <= m)%nat -> Z.of_nat m < 2 ^ 31 ->
    is_matrix m k (gf_gen_rs_matrix (Z.of_nat m) (Z.of_nat k));
  gen_identity m k i j : (0 < k <= m)%nat -> Z.of_nat m < 2 ^ 31 -> (i < k)%nat -> (j < k)%nat ->
    coef_row k (gf_gen_rs_matrix (Z.of_nat m) (Z.of_nat k)) i !! j =
      Some (if (i =? j)%nat then 1 else 0);
  invert_matrix n g h : is_matrix n n g -> is_matrix n n h -> is_left_inverse n h g = true ->
    Z.of_nat n < 2 ^ 31 ->
    is_matrix n n (gf_invert_matrix g (Z.of_nat n)) /\
    is_left_inverse n (gf_invert_matrix g (Z.of_nat n)) g = true;
  encode_data len k rows a data coding :
    is_matrix rows k a -> Z.of_nat len < 2 ^ 31 -> Z.of_nat (k + rows) < 2 ^ 31 ->
    length data = k -> Forall (fun d => length d = len /\ Forall is_byte d) data ->
    length coding = rows -> Forall (fun c => length c = len) coding ->
    ec_encode_data (Z.of_nat len) (Z.of_nat k) (Z.of_nat rows)
      (ec_init_tables (Z.of_nat k) (Z.of_nat rows) a) data coding =
    (fun r => combine_row (coef_row k a r) data len) <$> seq 0 rows;
  encode_data_update k rows i a data coding :
    is_matrix rows k a -> Z.of_nat (length data) < 2 ^ 31 -> Z.of_nat (k + rows) < 2 ^ 31 ->
    (i < k)%nat -> Forall is_byte data ->
    length coding = rows -> Forall (fun c => (length data <= length c)%nat) coding ->
    ec_encode_data_update (Z.of_nat (length data)) (Z.of_nat k) (Z.of_nat rows) (Z.of_nat i)
      (ec_init_tables (Z.of_nat k) (Z.of_nat rows) a) data coding =
    imap (fun r c => zip_with (fun p d => Z.lxor p (gmul (default 0 (coef_row k a r !! i)) d)) c data
                       ++ drop (length data) c) coding;
}.

(** [x as i32] *)
Definition as_i32 (z : Z) : Z :=
  let w := z mod 2 ^ 32 in if w <? 2 ^ 31 then w else w - 2 ^ 32.

(** ** [ec_isal.rs] *)

Section backend.
Context `{I : IsaL}.

Definition isal_encode (data : list bytes) (data_num code_num : nat) : list bytes :=
  let shard_size := match data with s :: _ => length s | [] => O end in
  let parity := replicate code_num (replicate shard_size 0) in
  let k := as_i32 (Z.of_nat data_num) in
  let rows := as_i32 (Z.of_nat code_num) in
  let m := as_i32 (k + rows) in
  let matrix := gf_gen_rs_matrix m k in
  let gftbls := ec_init_tables k rows (drop (data_num * data_num) matrix) in
  ec_encode_data (as_i32 (Z.of_nat shard_size)) k rows gftbls data parity.

(** The pointers handed over are those of the parity buffers plus [offset]. *)
Definition isal_encode_update_at (data : bytes) (data_index : nat) (parity : list bytes)
    (data_num code_num offset : nat) : list bytes :=
  let k := as_i32 (Z.of_nat data_num) in
  let rows := as_i32 (Z.of_nat code_num) in
  let m := as_i32 (k + rows) in
  let matrix := gf_gen_rs_matrix m k in
  let gftbls := ec_init_tables k rows (drop (data_num * data_num) matrix) in
  let parity_ptrs := drop offset <$> parity in
  zip_with (fun before after => take offset before ++ after) parity
    (ec_encode_data_update (as_i32 (Z.of_nat (length data))) k rows
       (as_i32 (Z.of_nat data_index)) gftbls data parity_ptrs).

(** The first [data_num] indices below [total] that are not lost. *)
Definition surviving_of (lost : list nat) (total data_num : nat) : list nat :=
  take data_num (List.filter (fun i => negb (bool_decide (i ∈ lost))) (seq 0 total)).

Definition lost_of {A} (shards : list (option A)) : list nat :=
  fst <$> List.filter (fun p => match p.2 with None => true | Some _ => false end)
            (zip (seq 0 (length shards)) shards).

(** Row [lost_idx] of the decode matrix. *)
Definition decode_row (encode_matrix g_inv exp log : bytes) (data_num lost_idx : nat) : bytes :=
  if (lost_idx <? data_num)%nat
  then (fun col => default 0 (g_inv !! (lost_idx * data_num + col)%nat)) <$> seq 0 data_num
  else (fun col =>
    fold_left (fun s j => Z.lxor s
      (gf_mul (default 0 (encode_matrix !! (lost_idx * data_num + j)%nat))
              (default 0 (g_inv !! (j * data_num + col)%nat)) exp log)) (seq 0 data_num) 0)
    <$> seq 0 data_num.

(** The matrix of the surviving rows. *)
Definition surviving_matrix (encode_matrix : bytes) (surviving : list nat) (data_num : nat) : bytes :=
  resize (data_num * data_num) 0
    (flat_map (fun src =>
       (fun col => default 0 (encode_matrix !! (src * data_num + col)%nat)) <$> seq 0 data_num)
     surviving).

Definition isal_decode (shards : list (option bytes)) (data_num code_num : nat) : list bytes :=
  let total := (data_num + code_num)%nat in
  let shard_size := foldr Nat.max O (length <$> omap id shards) in
  let lost := lost_of shards in
  let buffers := (fun s => match s with
                           | Some b => resize shard_size 0 b
                           | None => replicate shard_size 0
                           end) <$> shards in
  match lost with
  | [] => buffers
  | _ =>
      let '(exp, log) := build_gf_tables in
      let k := as_i32 (Z.of_nat data_num) in
      let m := as_i32 (Z.of_nat total) in
      let encode_matrix := gf_gen_rs_matrix m k in
      let surviving := surviving_of lost total data_num in
      let g := surviving_matrix encode_matrix surviving data_num in
      let g_inv := gf_invert_matrix g k in
      let decode_matrix :=
        flat_map (decode_row encode_matrix g_inv exp log data_num) lost in
      let rows := as_i32 (Z.of_nat (length lost)) in
      let gftbls := ec_init_tables k rows decode_matrix in
      let input := (fun i => default [] (buffers !! i)) <$> surviving in
      let outputs := (fun i => default [] (buffers !! i)) <$> lost in
      let outputs := ec_encode_data (as_i32 (Z.of_nat shard_size)) k rows gftbls input outputs in
      fold_left (fun bufs '(i, out) => <[i := out]> bufs) (zip lost outputs) buffers
  end.

End backend.

(** ** [ec.rs] *)

(** The messages of [EcError::Backend], one constructor per format string. *)
Inductive BackendMessage :=
| AlreadyComplete
| EmptyView
| LengthOverflows
| EmptyShard
| ShortShardNotFinal
| IncompatibleLength (shard_len size : nat)
| Incomplete (received data_num : nat)
| NoShards
| WrongBlockCount (expected got : nat)
| NoDataShards
| TooManyShards (got data_num : nat)
| UnequalShards.

Inductive EcError :=
| InvalidScheme (data_num code_num : nat)
| NotDivisible (data_len data_num : nat)
| TooManyLost (lost code_num : nat)
| MissingBlock (index : nat)
| Backend (message : BackendMessage).

Record EcScheme := { data_num : nat; code_num : nat }.

Definition total_blocks (scheme : EcScheme) : nat :=
  Z.to_nat (wrap64 (Z.of_nat scheme.(data_num) + Z.of_nat scheme.(code_num))).

Definition validate_scheme (scheme : EcScheme) : result unit EcError :=
  if (scheme.(data_num) =? 0)%nat || (scheme.(code_num) =? 0)%nat
  then Err (InvalidScheme scheme.(data_num) scheme.(code_num)) else Ok ().

Record IncrementalParity := {
  scheme : EcScheme;
  shard_size : option nat;
  shards_received : nat;
  short_shard_seen : bool;
  parity : list bytes;
}.

Definition new_incremental (s : EcScheme) : result IncrementalParity EcError :=
  let? _ := validate_scheme s in
  Ok {| scheme := s; shard_size := None; shards_received := 0;
        short_shard_seen := false; parity := [] |}.

(** The [try_fold] over the views: every view nonempty, the sum in [usize]. *)
Fixpoint views_len (total : Z) (views : list bytes) : result Z EcError :=
  match views with
  | [] => Ok total
  | view :: views =>
      if (length view =? 0)%nat then Err (Backend EmptyView)
      else if u64_max <? total + Z.of_nat (length view) then Err (Backend LengthOverflows)
      else views_len (total + Z.of_nat (length view)) views
  end.

Section codec.
Context `{I : IsaL}.

(** Folding the views of shard [index] into the parity, one after the other. *)
Fixpoint fold_views (s : EcScheme) (index offset : nat) (views : list bytes)
    (parity : list bytes) : list bytes :=
  match views with
  | [] => parity
  | view :: views =>
      fold_views s index (offset + length view) views
        (isal_encode_update_at view index parity s.(data_num) s.(code_num) offset)
  end.

(** Every error is returned before the first assignment to [self]. *)
Definition push_views_inner (p : IncrementalParity) (views : list bytes) (allow_short : bool)
    : IncrementalParity * result unit EcError :=
  if (p.(scheme).(data_num) <=? p.(shards_received))%nat then (p, Err (Backend AlreadyComplete))
  else match views_len 0 views with
  | Err e => (p, Err e)
  | Ok total =>
    let shard_len := Z.to_nat total in
    if (shard_len =? 0)%nat then (p, Err (Backend EmptyShard))
    else if p.(short_shard_seen) then (p, Err (Backend ShortShardNotFinal))
    else
      let accepted :=
        match p.(shard_size) with
        | None => Ok (shard_len, replicate p.(scheme).(code_num) (replicate shard_len 0))
        | Some size =>
            if (size <? shard_len)%nat || (negb allow_short && negb (size =? shard_len)%nat)
            then Err (Backend (IncompatibleLength shard_len size))
            else Ok (size, p.(parity))
        end in
      match accepted with
      | Err e => (p, Err e)
      | Ok (size, parity) =>
          ({| scheme := p.(scheme); shard_size := Some size;
              shards_received := p.(shards_received) + 1;
              short_shard_seen := (shard_len <? size)%nat;
              parity := fold_views p.(scheme) p.(shards_received) 0 views parity |}, Ok ())
      end
  end.

Definition push (p : IncrementalParity) (shard : bytes) := push_views_inner p [shard] false.

Definition push_partial (p : IncrementalParity) (shard : bytes) := push_views_inner p [shard] true.

Definition push_views (p : IncrementalParity) (views : list bytes) := push_views_inner p views true.

Definition is_complete (p : IncrementalParity) : bool :=
  (p.(shards_received) =? p.(scheme).(data_num))%nat.

Definition finish (p : IncrementalParity) : result (list bytes) EcError :=
  if negb (is_complete p)
  then Err (Backend (Incomplete p.(shards_received) p.(scheme).(data_num)))
  else Ok p.(parity).

Definition finish_partial (p : IncrementalParity) : result (list bytes) EcError :=
  if (p.(shards_received) =? 0)%nat then Err (Backend NoShards) else Ok p.(parity).

(** Shard [i] of the object, zero-padded. *)
Definition split_shard (data : bytes) (shard_size i : nat) : bytes :=
  let start := (i * shard_size)%nat in
  let stop := Nat.min (start + shard_size) (length data) in
  resize shard_size 0
    (if (start <? stop)%nat then take (stop - start) (drop start data) else []).

Definition div_ceil (a b : nat) : nat := (a / b + if (a mod b =? 0)%nat then 0 else 1)%nat.

Definition encode (s : EcScheme) (data : bytes) : result (list bytes) EcError :=
  if (s.(data_num) =? 0)%nat || (s.(code_num) =? 0)%nat
  then Err (InvalidScheme s.(data_num) s.(code_num))
  else
    let shard_size := div_ceil (length data) s.(data_num) in
    let shards := split_shard data shard_size <$> seq 0 s.(data_num) in
    let parity := isal_encode shards s.(data_num) s.(code_num) in
    Ok (shards ++ parity).

Definition decode (s : EcScheme) (blocks : list (option bytes)) : result (list bytes) EcError :=
  if (s.(data_num) =? 0)%nat || (s.(code_num) =? 0)%nat
  then Err (InvalidScheme s.(data_num) s.(code_num))
  else
    let total := total_blocks s in
    if negb (length blocks =? total)%nat
    then Err (Backend (WrongBlockCount total (length blocks)))
    else
      let lost := length (List.filter (fun b => match b with None => true | Some _ => false end) blocks) in
      if (s.(code_num) <? lost)%nat then Err (TooManyLost lost s.(code_num))
      else if (lost =? 0)%nat then Ok (default [] <$> blocks)
      else Ok (isal_decode blocks s.(data_num) s.(code_num)).

Definition encode_parity (s : EcScheme) (data : bytes) : result (list bytes) EcError :=
  let? shards := encode s data in Ok (drop s.(data_num) shards).

Definition decode_data (s : EcScheme) (blocks : list (option bytes)) : result bytes EcError :=
  let? shards := decode s blocks in Ok (concat (take s.(data_num) shards)).

Definition encode_parity_from_shards (s : EcScheme) (data_shards : list bytes)
    : result (list bytes) EcError :=
  if (s.(data_num) =? 0)%nat || (s.(code_num) =? 0)%nat
  then Err (InvalidScheme s.(data_num) s.(code_num))
  else match data_shards with
  | [] => Err (Backend NoDataShards)
  | first :: rest =>
      if (s.(data_num) <? length data_shards)%nat
      then Err (Backend (TooManyShards (length data_shards) s.(data_num)))
      else
        let shard_size := length first in
        if existsb (fun d => negb (length d =? shard_size)%nat) rest
        then Err (Backend UnequalShards)
        else
          let full := (fun i => default (replicate shard_size 0) (data_shards !! i))
                        <$> seq 0 s.(data_num) in
          Ok (isal_encode full s.(data_num) s.(code_num))
  end.

End codec.

Lemma as_i32_id n : Z.of_nat n < 2 ^ 31 -> as_i32 (Z.of_nat n) = Z.of_nat n.
Proof.
  intros. unfold as_i32. rewrite Z.mod_small by lia.
  destruct (Z.ltb_spec (Z.of_nat n) (2 ^ 31)); lia.
Qed.

(** ** Encoding is the product with the generator matrix *)

Section stripe.
Context `{HI : IsaLSpec}.

Definition generator (k c : nat) : bytes :=
  gf_gen_rs_matrix (Z.of_nat (k + c)) (Z.of_nat k).

(** The [k + c] shards of the stripe whose data shards are [data]. *)
Definition codeword (k c : nat) (data : list bytes) (size : nat) : list bytes :=
  (fun i => combine_row (coef_row k (generator k c) i) data size) <$> seq 0 (k + c).

(** [n] data shards of [size] bytes each. *)
Definition shards_ok (n size : nat) (data : list bytes) : Prop :=
  length data = n /\ Forall (fun d => length d = size /\ Forall is_byte d) data.

Context (k c size : nat) (data : list bytes).
Hypothesis Hk : (0 < k)%nat.
Hypothesis Hkc : Z.of_nat (k + c) < 2 ^ 31.
Hypothesis Hsize : Z.of_nat size < 2 ^ 31.
Hypothesis Hdata : shards_ok k size data.

Lemma generator_matrix : is_matrix (k + c) k (generator k c).
Proof using HI Hk Hkc. clear Hsize Hdata size. apply gen_matrix; [lia|done]. Qed.

Lemma column_length b : length (column data b) = k.
Proof. unfold column. rewrite length_fmap. apply Hdata. Qed.

Lemma column_byte b : Forall is_byte (column data b).
Proof.
  apply Forall_fmap. eapply Forall_impl; [apply Hdata|]. simpl. intros d [_ Hd]. by apply at0_byte.
Qed.

Lemma combine_row_length row : length (combine_row row data size) = size.
Proof. apply seq_length. Qed.

Lemma combine_row_byte row : Forall is_byte row -> Forall is_byte (combine_row row data size).
Proof. intros. apply seq_Forall. intros. by apply dot_byte. Qed.

Lemma codeword_lookup i :
  (i < k + c)%nat ->
  codeword k c data size !! i = Some (combine_row (coef_row k (generator k c) i) data size).
Proof. intros. unfold codeword. by rewrite list_lookup_fmap, lookup_seq_lt. Qed.

Lemma codeword_length : length (codeword k c data size) = (k + c)%nat.
Proof. apply seq_length. Qed.

Lemma codeword_ok : shards_ok (k + c) size (codeword k c data size).
Proof.
  split; [apply codeword_length|]. apply seq_Forall. intros i Hi.
  split; [apply combine_row_length|]. apply combine_row_byte, coef_row_byte, generator_matrix.
Qed.

(** The identity on top leaves the data shards as they are. *)
Lemma combine_row_data i : (i < k)%nat ->
  Some (combine_row (coef_row k (generator k c) i) data size) = data !! i.
Proof.
  intros Hi. destruct Hdata as [Hn Hd]. destruct (lookup_lt_is_Some_2 data i) as [d E]; [lia|].
  rewrite E. f_equal. rewrite Forall_forall in Hd.
  destruct (Hd d) as [Hs Bd]; [by eapply list_elem_of_lookup_2|].
  rewrite <- (at0_all d size) by done. apply seq_fmap_ext. intros b Hb.
  rewrite <- (at0_all (coef_row k (generator k c) i) k)
    by (eapply coef_row_length; [apply generator_matrix|lia]).
  rewrite (dot_unit k i); [|done|apply column_length|apply column_byte|].
  - unfold column. by rewrite list_lookup_fmap, E.
  - intros j Hj. unfold generator. by rewrite gen_identity by lia.
Qed.

Lemma codeword_split : codeword k c data size =
  data ++ ((fun r => combine_row (coef_row k (generator k c) (k + r)) data size) <$> seq 0 c).
Proof.
  unfold codeword. rewrite seq_app, fmap_app. f_equal.
  - apply list_eq. intros i. rewrite list_lookup_fmap. destruct (decide (i < k)%nat) as [Hi|Hi].
    + rewrite lookup_seq_lt by done. simpl. by rewrite combine_row_data.
    + destruct Hdata. rewrite !lookup_ge_None_2; rewrite ?length_seq; [done|lia..].
  - replace (0 + k)%nat with (k + 0)%nat by lia. by rewrite <- fmap_add_seq, <- list_fmap_compose.
Qed.

Lemma parity_matrix : is_matrix c k (drop (k * k) (generator k c)).
Proof.
  destruct generator_matrix as [Hl Hb]. split; [rewrite length_drop; lia|by apply Forall_drop].
Qed.

Lemma parity_row r : coef_row k (drop (k * k) (generator k c)) r = coef_row k (generator k c) (k + r).
Proof. clear Hk Hkc Hsize Hdata size. unfold coef_row. rewrite drop_drop. do 2 f_equal. lia. Qed.

Lemma isal_encode_codeword : isal_encode data k c = drop k (codeword k c data size).
Proof.
  destruct Hdata as [Hn Hd]. rewrite codeword_split, drop_app_length' by done.
  assert (match data with s :: _ => length s | [] => O end = size) as Hs.
  { destruct data as [|d l]; simpl in Hn; [lia|]. inversion Hd as [|?? []]; done. }
  unfold isal_encode. rewrite Hs, !as_i32_id, <- Nat2Z.inj_add, as_i32_id by lia.
  rewrite encode_data; try done; [|apply parity_matrix|by rewrite length_replicate|].
  - apply seq_fmap_ext. intros r Hr. by rewrite parity_row.
  - apply Forall_replicate. apply length_replicate.
Qed.

End stripe.

(** ** Which blocks are lost *)

(** [blocks] is the list [shards] with some of them lost. *)
Definition survives (blocks : list (option bytes)) (shards : list bytes) : Prop :=
  Forall2 (fun b s => b = None \/ b = Some s) blocks shards.

Definition lost_count {A} (blocks : list (option A)) : nat :=
  length (List.filter (fun b => match b with None => true | Some _ => false end) blocks).

Lemma lost_of_spec {A} (blocks : list (option A)) i : i ∈ lost_of blocks <-> blocks !! i = Some None.
Proof.
  unfold lost_of. rewrite list_elem_of_fmap. split.
  - intros ([j b] & -> & H). rewrite list_elem_of_In, List.filter_In, <- list_elem_of_In in H.
    destruct H as [H Hb]. destruct b; [done|]. apply list_elem_of_lookup in H as [n H].
    apply lookup_zip_with_Some in H as (x & y & [= -> ->] & Hx & Hy).
    apply lookup_seq in Hx as [-> _]. done.
  - intros H. exists (i, None). split; [done|].
    rewrite list_elem_of_In, List.filter_In, <- list_elem_of_In. split; [|done].
    apply list_elem_of_lookup. exists i. apply lookup_zip_with_Some.
    exists i, None. split_and!; [done|apply lookup_seq; split; [done|by eapply lookup_lt_Some]|done].
Qed.

Lemma zip_seq_filter {A} (p : A -> bool) n (l : list A) :
  snd <$> List.filter (fun q => p q.2) (zip (seq n (length l)) l) = List.filter p l.
Proof.
  revert n. induction l as [|x l IH]; intros n; simpl; [done|].
  destruct (p x); simpl; [f_equal|]; apply IH.
Qed.

Lemma lost_of_length {A} (blocks : list (option A)) : length (lost_of blocks) = lost_count blocks.
Proof.
  unfold lost_of, lost_count. rewrite <- (zip_seq_filter _ 0 blocks), !length_fmap. done.
Qed.

Lemma lost_of_NoDup {A} (blocks : list (option A)) : NoDup (lost_of blocks).
Proof.
  unfold lost_of.
  assert (forall n (l : list (option A)) p, NoDup (fst <$> List.filter p (zip (seq n (length l)) l))) as H; [|apply H].
  intros n l p. revert n. induction l as [|x l IH]; intros n; simpl; [constructor|].
  destruct (p (n, x)); [|apply IH]. simpl. constructor; [|apply IH].
  intros ([j y] & E & H)%list_elem_of_fmap. simpl in E. subst j.
  rewrite list_elem_of_In, List.filter_In, <- list_elem_of_In in H. destruct H as [H _].
  apply elem_of_zip_l, elem_of_seq in H. lia.
Qed.

Definition survivors (lost : list nat) (total : nat) : list nat :=
  List.filter (fun i => negb (bool_decide (i ∈ lost))) (seq 0 total).

Lemma elem_of_survivors lost total i : i ∈ survivors lost total <-> (i < total)%nat /\ i ∉ lost.
Proof.
  unfold survivors. rewrite list_elem_of_In, List.filter_In, in_seq, negb_true_iff, bool_decide_eq_false.
  naive_solver lia.
Qed.

Lemma survivors_length lost total :
  NoDup lost -> (forall i, i ∈ lost -> (i < total)%nat) ->
  (length (survivors lost total) + length lost)%nat = total.
Proof.
  intros Hn Hl. rewrite <- length_app. transitivity (length (seq 0 total)); [|apply length_seq].
  apply Permutation_length, NoDup_Permutation.
  - apply NoDup_app. split_and!; [apply NoDup_lfilter, NoDup_seq| |done].
    intros i [_ Hi]%elem_of_survivors. done.
  - apply NoDup_seq.
  - intros i. rewrite elem_of_app, elem_of_survivors, elem_of_seq.
    destruct (decide (i ∈ lost)); naive_solver lia.
Qed.

(** Writing the reconstructed shards back. *)
Lemma restore_fold (shards : list bytes) l bufs :
  length bufs = length shards ->
  (forall i out, (i, out) ∈ l -> shards !! i = Some out) ->
  (forall i, i ∉ l.*1 -> bufs !! i = shards !! i) ->
  fold_left (fun bufs '(i, out) => <[i := out]> bufs) l bufs = shards.
Proof.
  revert bufs. induction l as [|[i out] l IH]; intros bufs Hlen Hl Hb; simpl.
  { apply list_eq. intros i. apply Hb. set_solver. }
  apply IH; [by rewrite length_insert|set_solver|]. intros j Hj.
  destruct (decide (j = i)) as [->|Hne].
  - rewrite (Hl i out) by set_solver. apply list_lookup_insert_eq.
    rewrite Hlen. apply (lookup_lt_Some _ _ out). apply Hl. set_solver.
  - rewrite list_lookup_insert_ne by done. apply Hb. set_solver.
Qed.

Lemma xor_fold (f : nat -> Z) l s :
  fold_left (fun s j => Z.lxor s (f j)) l s = Z.lxor s (xor_sum (f <$> l)).
Proof.
  unfold xor_sum. revert s. induction l as [|j l IH]; intros s; csimpl; [by rewrite Z.lxor_0_r|].
  by rewrite IH, Z.lxor_assoc.
Qed.

(** ** Reconstruction *)

Section recovery.
Context `{HI : IsaLSpec} (k c size : nat) (data : list bytes) (blocks : list (option bytes)).
Hypothesis Hk : (0 < k)%nat.
Hypothesis Hkc : Z.of_nat (k + c) < 2 ^ 31.
Hypothesis Hsize : Z.of_nat size < 2 ^ 31.
Hypothesis Hdata : shards_ok k size data.
Hypothesis Hblocks : survives blocks (codeword k c data size).
Hypothesis Hlost : (lost_count blocks <= c)%nat.

#[local] Abbreviation E := (generator k c).
#[local] Abbreviation lost := (lost_of blocks).
#[local] Abbreviation surviving := (surviving_of lost (k + c) k).
#[local] Abbreviation shard i := (combine_row (coef_row k E i%nat) data size).

Lemma blocks_length : length blocks = (k + c)%nat.
Proof. rewrite (Forall2_length _ _ _ Hblocks). apply codeword_length. Qed.

Lemma block_lookup i b : blocks !! i = Some b -> (i < k + c)%nat /\ (b = None \/ b = Some (shard i)).
Proof.
  intros Hb. assert (i < k + c)%nat as Hi by (rewrite <- blocks_length; by eapply lookup_lt_Some).
  split; [done|]. destruct (Forall2_lookup_l _ _ _ _ _ Hblocks Hb) as (s & Hs & H).
  rewrite codeword_lookup in Hs by done. by simplify_eq.
Qed.

Lemma lost_lt i : i ∈ lost -> (i < k + c)%nat.
Proof. intros Hi%lost_of_spec. by apply block_lookup in Hi as [? _]. Qed.

Lemma surviving_length : length surviving = k.
Proof.
  pose proof (survivors_length lost (k + c) (lost_of_NoDup _) lost_lt) as H.
  rewrite lost_of_length in H. unfold surviving_of. rewrite length_take.
  unfold survivors in H. lia.
Qed.

Lemma surviving_block i : i ∈ surviving -> (i < k + c)%nat /\ blocks !! i = Some (Some (shard i)).
Proof.
  intros Hi. assert (i ∈ survivors lost (k + c)) as [Hlt Hn]%elem_of_survivors.
  { apply (subseteq_take k). exact Hi. }
  split; [done|]. destruct (lookup_lt_is_Some_2 blocks i) as [b Hb]; [by rewrite blocks_length|].
  rewrite lost_of_spec in Hn. destruct (block_lookup i b Hb) as [_ [->| ->]]; done.
Qed.

Lemma decoded_size : foldr Nat.max O (length <$> omap id blocks) = size.
Proof.
  assert (forall n, n ∈ length <$> omap id blocks -> n = size) as Hall.
  { intros n (b & -> & (o & Ho & Hb)%list_elem_of_omap)%list_elem_of_fmap. simpl in Hb. subst o.
    apply list_elem_of_lookup in Ho as [i Hi]. apply block_lookup in Hi as [_ [|[= ->]]]; [done|].
    apply combine_row_length. }
  assert (size ∈ length <$> omap id blocks) as Hin.
  { destruct surviving as [|i l] eqn:Es; [pose proof surviving_length as H; rewrite Es in H; simpl in H; lia|].
    destruct (surviving_block i) as [_ Hb]; [rewrite Es; set_solver|].
    apply list_elem_of_fmap. exists (shard i). split; [by rewrite combine_row_length|].
    apply list_elem_of_omap. exists (Some (shard i)). split; [by eapply list_elem_of_lookup_2|done]. }
  induction (length <$> omap id blocks) as [|n l IH]; [by apply not_elem_of_nil in Hin|].
  simpl. assert (n = size) as -> by (apply Hall; set_solver).
  destruct l as [|n' l]; [simpl; lia|]. rewrite IH; [lia|set_solver|].
  rewrite (Hall n') by set_solver. set_solver.
Qed.

Definition buffer_of (s : option bytes) : bytes :=
  match s with Some b => resize size 0 b | None => replicate size 0 end.

Lemma surviving_buffer i : i ∈ surviving -> (buffer_of <$> blocks) !! i = Some (shard i).
Proof.
  intros [_ Hb]%surviving_block. rewrite list_lookup_fmap, Hb. simpl.
  by rewrite resize_all_alt by (symmetry; apply combine_row_length).
Qed.

Lemma surviving_matrix_row r i :
  surviving !! r = Some i -> coef_row k (surviving_matrix E surviving k) r = coef_row k E i.
Proof.
  intros Hr. unfold surviving_matrix. rewrite resize_all_alt.
  - rewrite (coef_row_flat_map k _ _ _ i); [|intros; apply seq_length|done].
    apply (coef_row_seq (k + c)); [apply generator_matrix; done|].
    by apply surviving_block; eapply list_elem_of_lookup_2.
  - rewrite (flat_map_length_const k); [|intros; apply seq_length]. by rewrite surviving_length.
Qed.

Lemma surviving_matrix_ok : is_matrix k k (surviving_matrix E surviving k).
Proof.
  unfold surviving_matrix. split; [apply length_resize|].
  apply Forall_resize; [done|]. apply flat_map_Forall. intros i _. apply seq_Forall.
  intros j _. by apply at0_byte, generator_matrix.
Qed.

(** The bytes of the survivors are the product of their matrix and the data. *)
Lemma surviving_column b :
  (b < size)%nat ->
  column ((fun i => default [] ((buffer_of <$> blocks) !! i)) <$> surviving) b =
  (fun r => dot (coef_row k (surviving_matrix E surviving k) r) (column data b)) <$> seq 0 k.
Proof.
  intros Hb. apply list_eq. intros r. unfold column at 1. rewrite !list_lookup_fmap.
  destruct (surviving !! r) as [i|] eqn:Hr; simpl.
  - assert (r < k)%nat by (rewrite <- surviving_length; by eapply lookup_lt_Some).
    rewrite lookup_seq_lt by done. simpl. f_equal. rewrite (surviving_matrix_row r i Hr).
    rewrite surviving_buffer by (by eapply list_elem_of_lookup_2). simpl.
    unfold combine_row. by rewrite at0_seq.
  - apply lookup_ge_None in Hr. rewrite surviving_length in Hr.
    by rewrite lookup_ge_None_2 by (rewrite length_seq; lia).
Qed.

Context (g_inv : bytes).
Hypothesis Hinv : is_matrix k k g_inv.
Hypothesis Hleft : is_left_inverse k g_inv (surviving_matrix E surviving k) = true.

#[local] Abbreviation drow i := (decode_row E g_inv build_gf_tables.1 build_gf_tables.2 k i).

Lemma decode_row_length i : length (drow i) = k.
Proof. unfold decode_row. case_match; apply seq_length. Qed.

Lemma decode_row_lost i :
  (i < k + c)%nat ->
  drow i = if (i <? k)%nat then coef_row k g_inv i
    else (fun col => dot (coef_row k E i) ((fun r => at0 (coef_row k g_inv r) col) <$> seq 0 k)) <$> seq 0 k.
Proof.
  intros Hi. unfold decode_row. destruct (Nat.ltb_spec i k) as [Hl|Hl].
  - apply (coef_row_seq k); [apply Hinv|done].
  - destruct (generator_matrix k c Hk Hkc) as [HE BE]. apply seq_fmap_ext. intros col Hcol.
    rewrite xor_fold, Z.lxor_0_l, (dot_seq k) by (rewrite ?seq_length; eauto using coef_row_length).
    f_equal. apply seq_fmap_ext. intros j Hj. rewrite gf_mul_product by (apply at0_byte; done || apply Hinv).
    rewrite at0_seq by done. unfold coef_row. by rewrite !lookup_take_lt, !lookup_drop by done.
Qed.

Lemma decode_row_byte i : (i < k + c)%nat -> Forall is_byte (drow i).
Proof.
  intros Hi. rewrite decode_row_lost by done. case_match.
  - apply coef_row_byte, Hinv.
  - apply seq_Forall. intros. apply dot_byte, coef_row_byte. by apply generator_matrix.
Qed.

(** A decode row applied to the survivors gives the lost shard. *)
Lemma decode_row_recovers i :
  (i < k + c)%nat ->
  combine_row (drow i) ((fun i => default [] ((buffer_of <$> blocks) !! i)) <$> surviving) size = shard i.
Proof.
  intros Hi. unfold combine_row. apply seq_fmap_ext. intros b Hb. rewrite surviving_column by done.
  destruct (generator_matrix k c Hk Hkc) as [HE BE].
  assert (length (column data b) = k) as Hl by (by eapply column_length).
  assert (Forall is_byte (column data b)) as Bl by (by eapply column_byte).
  rewrite decode_row_lost by done. destruct (Nat.ltb_spec i k) as [Hik|Hik].
  - rewrite (inverse_recovers k); auto using surviving_matrix_ok.
    rewrite <- (at0_all (coef_row k E i) k) by (eapply coef_row_length; eauto).
    symmetry. apply dot_unit; auto. intros j Hj. unfold generator. by rewrite gen_identity by lia.
  - rewrite <- (mat_vec_assoc k k); [|by eapply coef_row_length|by apply coef_row_byte|apply seq_length|].
    + f_equal. rewrite <- (at0_all (column data b) k Hl) at 1. apply seq_fmap_ext. intros j Hj.
      by apply inverse_recovers; auto using surviving_matrix_ok.
    + intros r Hr. split; [by eapply coef_row_length; [apply Hinv|]|apply coef_row_byte, Hinv].
Qed.

End recovery.

(** A block that was not lost keeps its bytes. *)
Lemma kept_buffers `{HI : IsaLSpec} k c size data blocks i :
  survives blocks (codeword k c data size) -> i ∉ lost_of blocks ->
  (buffer_of size <$> blocks) !! i = codeword k c data size !! i.
Proof.
  intros Hb Hi. rewrite list_lookup_fmap. destruct (blocks !! i) as [b|] eqn:Eb; simpl.
  - destruct (block_lookup k c size data blocks Hb i b Eb) as [Hik [->| ->]].
    + exfalso. by apply Hi, lost_of_spec.
    + rewrite codeword_lookup by done. simpl.
      by rewrite resize_all_alt by (symmetry; apply combine_row_length).
  - symmetry. apply lookup_ge_None. apply lookup_ge_None in Eb.
    by rewrite <- (Forall2_length _ _ _ Hb).
Qed.

(** The survivors' rows of the generator matrix can be inverted. *)
Definition recoverable `{I : IsaL} (k c : nat) (blocks : list (option bytes)) : Prop :=
  exists h, is_matrix k k h /\
    is_left_inverse k h (surviving_matrix (generator k c) (surviving_of (lost_of blocks) (k + c) k) k) = true.

Lemma match_nonempty {A B} (l : list A) (x y : B) :
  l <> [] -> match l with [] => x | _ :: _ => y end = y.
Proof. by destruct l. Qed.

#[local] Opaque build_gf_tables.

Lemma isal_decode_recovers `{HI : IsaLSpec} k c size data blocks :
  (0 < k)%nat -> Z.of_nat (k + c) < 2 ^ 31 -> Z.of_nat size < 2 ^ 31 -> shards_ok k size data ->
  survives blocks (codeword k c data size) -> (lost_count blocks <= c)%nat ->
  recoverable k c blocks ->
  isal_decode blocks k c = codeword k c data size.
Proof.
  intros Hk Hkc Hsize Hdata Hb Hlost (h & Hh & Hleft). unfold isal_decode. cbv zeta.
  rewrite (decoded_size k c size data) by done. fold (buffer_of size).
  destruct (invert_matrix k (surviving_matrix (generator k c)
    (surviving_of (lost_of blocks) (k + c) k) k) h) as [Hm Hinv];
    [by eapply surviving_matrix_ok|done..|lia|].
  pose proof (lost_of_length blocks) as Hll.
  pose proof (fun i => kept_buffers k c size data blocks i Hb) as Hkeep.
  destruct (decide (lost_of blocks = [])) as [El|El].
  { rewrite El. apply list_eq. intros i. apply Hkeep. rewrite El. set_solver. }
  rewrite match_nonempty by done. rewrite (surjective_pairing build_gf_tables).
  rewrite !as_i32_id by lia. fold (generator k c).
  rewrite encode_data.
  - apply restore_fold.
    + rewrite length_fmap. by apply Forall2_length in Hb.
    + intros i out [r Hr]%list_elem_of_lookup. apply lookup_zip_with_Some in Hr as (i' & o & [= <- <-] & Hi & Ho).
      apply list_lookup_fmap_Some in Ho as (r' & -> & [-> _]%lookup_seq).
      rewrite (coef_row_flat_map k _ _ _ i); [|intros; by apply decode_row_length|done].
      assert (i < k + c)%nat by (eapply lost_lt; [done|by eapply list_elem_of_lookup_2]).
      by rewrite codeword_lookup, (decode_row_recovers k c size data).
    + intros i Hi. apply Hkeep. rewrite fst_zip in Hi; [done|]. by rewrite seq_length.
  - split.
    + apply flat_map_length_const. intros; by apply decode_row_length.
    + apply flat_map_Forall. intros i Hi. eapply (decode_row_byte k c); [done..|]. by eapply lost_lt.
  - lia.
  - lia.
  - rewrite length_fmap. by eapply surviving_length.
  - apply Forall_fmap, Forall_forall. intros i Hi. simpl.
    rewrite (surviving_buffer k c size data) by done. simpl.
    split; [apply combine_row_length|]. by apply combine_row_byte, coef_row_byte, generator_matrix.
  - by rewrite length_fmap.
  - apply Forall_fmap, Forall_forall. intros i Hi%lost_of_spec. simpl.
    rewrite list_lookup_fmap, Hi. apply length_replicate.
Qed.

(** ** Splitting an object *)

Lemma div_ceil_spec a b : (0 < b)%nat -> (a <= b * div_ceil a b < a + b)%nat.
Proof.
  intros Hb. unfold div_ceil. pose proof (Nat.div_mod_eq a b). pose proof (Nat.mod_upper_bound a b).
  destruct (Nat.eqb_spec (a mod b) 0); nia.
Qed.

Lemma split_shard_eq data size i :
  split_shard data size i = resize size 0 (take size (drop (i * size) data)).
Proof.
  unfold split_shard. f_equal. destruct (Nat.ltb_spec (i * size) (Nat.min (i * size + size) (length data))).
  - destruct (decide (i * size + size <= length data)%nat); [f_equal; lia|].
    rewrite !take_ge; rewrite ?length_drop; [done|lia..].
  - destruct (decide (size = 0%nat)) as [->|]; [by rewrite take_0|]. by rewrite drop_ge, take_nil by lia.
Qed.

Lemma split_shards_ok data size n :
  Forall is_byte data -> shards_ok n size (split_shard data size <$> seq 0 n).
Proof.
  intros Hb. split; [apply seq_length|]. apply seq_Forall. intros i _. rewrite split_shard_eq.
  split; [apply length_resize|]. apply Forall_resize; [done|]. by apply Forall_take, Forall_drop.
Qed.

(** The data shards one after the other are the object, zero-padded. *)
Lemma split_shards_concat data size n :
  concat (split_shard data size <$> seq 0 n) = resize (n * size) 0 data.
Proof.
  revert data. induction n as [|n IH]; intros data; [by rewrite resize_0|].
  rewrite <- cons_seq, <- fmap_S_seq, fmap_cons, <- list_fmap_compose. cbn [concat].
  transitivity (split_shard data size 0 ++ concat (split_shard (drop size data) size <$> seq 0 n)).
  { f_equal. f_equal. apply seq_fmap_ext. intros i _. simpl. rewrite !split_shard_eq, drop_drop. do 3 f_equal. }
  rewrite IH, split_shard_eq. simpl. rewrite drop_0. apply list_eq. intros i.
  destruct (decide (i < size)%nat) as [Hi|Hi].
  - rewrite lookup_app_l by (rewrite length_resize; done).
    destruct (decide (i < length data)%nat).
    + rewrite !lookup_resize by (rewrite ?length_take; lia). by rewrite lookup_take_lt.
    + rewrite !lookup_resize_new by (rewrite ?length_take; lia). done.
  - rewrite lookup_app_r by (rewrite length_resize; lia). rewrite length_resize.
    destruct (decide (i < size + n * size)%nat).
    + destruct (decide (i < length data)%nat).
      * rewrite !lookup_resize by (rewrite ?length_drop; lia). rewrite lookup_drop. f_equal. lia.
      * rewrite !lookup_resize_new by (rewrite ?length_drop; lia). done.
    + rewrite !lookup_resize_old by lia. done.
Qed.

Definition scheme_ok (s : EcScheme) : Prop :=
  (0 < s.(data_num))%nat /\ (0 < s.(code_num))%nat /\ Z.of_nat (s.(data_num) + s.(code_num)) < 2 ^ 31.

Lemma scheme_ok_valid {A} s (x y : A) :
  scheme_ok s -> (if (s.(data_num) =? 0)%nat || (s.(code_num) =? 0)%nat then x else y) = y.
Proof. intros (? & ? & _). by destruct (Nat.eqb_spec s.(data_num) 0), (Nat.eqb_spec s.(code_num) 0); try lia. Qed.

Lemma encode_codeword `{HI : IsaLSpec} s data :
  scheme_ok s -> Forall is_byte data ->
  Z.of_nat (div_ceil (length data) s.(data_num)) < 2 ^ 31 ->
  let size := div_ceil (length data) s.(data_num) in
  encode s data =
    Ok (codeword s.(data_num) s.(code_num) (split_shard data size <$> seq 0 s.(data_num)) size).
Proof.
  intros Hs Hb Hsize size. unfold encode. rewrite scheme_ok_valid by done. destruct Hs as (Hk & Hc & Hkc).
  pose proof (split_shards_ok data size s.(data_num) Hb) as Hd. cbv zeta. fold size. f_equal.
  rewrite (isal_encode_codeword _ _ size) by done. rewrite codeword_split by done.
  by rewrite drop_app_length' by (by rewrite seq_length).
Qed.

Lemma total_blocks_sum s : scheme_ok s -> total_blocks s = (s.(data_num) + s.(code_num))%nat.
Proof. intros (_ & _ & ?). unfold total_blocks, wrap64. rewrite Z.mod_small; lia. Qed.

Lemma survives_none_lost blocks shards :
  survives blocks shards -> lost_count blocks = O -> default [] <$> blocks = shards.
Proof.
  unfold lost_count. induction 1 as [|b x bs xs [->| ->] _ IH]; simpl; [done..|].
  intros H. f_equal. by apply IH.
Qed.

(** Decoding what survives of a codeword: the reconstruction where the number
    of lost blocks allows it, the error otherwise. *)
Lemma decode_codeword `{HI : IsaLSpec} s data size blocks :
  scheme_ok s -> Z.of_nat size < 2 ^ 31 -> shards_ok s.(data_num) size data ->
  survives blocks (codeword s.(data_num) s.(code_num) data size) ->
  if (lost_count blocks <=? s.(code_num))%nat
  then recoverable s.(data_num) s.(code_num) blocks ->
    decode s blocks = Ok (codeword s.(data_num) s.(code_num) data size) /\
    decode_data s blocks = Ok (concat data)
  else decode s blocks = Err (TooManyLost (lost_count blocks) s.(code_num)).
Proof.
  intros Hs Hsize Hd Hb. unfold decode_data.
  assert (decode s blocks =
    if (s.(code_num) <? lost_count blocks)%nat then Err (TooManyLost (lost_count blocks) s.(code_num))
    else if (lost_count blocks =? 0)%nat then Ok (default [] <$> blocks)
    else Ok (isal_decode blocks s.(data_num) s.(code_num))) as ->.
  { unfold decode. rewrite scheme_ok_valid, total_blocks_sum by done.
    rewrite (Forall2_length _ _ _ Hb), codeword_length, Nat.eqb_refl. done. }
  destruct Hs as (Hk & Hc & Hkc).
  destruct (Nat.leb_spec (lost_count blocks) s.(code_num)) as [Hl|Hl].
  2: { by rewrite (proj2 (Nat.ltb_lt _ _)) by lia. }
  intros Hrec. rewrite (proj2 (Nat.ltb_ge _ _)) by lia.
  assert ((if (lost_count blocks =? 0)%nat then Ok (default [] <$> blocks)
    else Ok (isal_decode blocks s.(data_num) s.(code_num))) =
    Ok (E := EcError) (codeword s.(data_num) s.(code_num) data size)) as ->.
  { destruct (Nat.eqb_spec (lost_count blocks) 0); f_equal; [by apply survives_none_lost|].
    by apply isal_decode_recovers. }
  split; [done|]. simpl. do 2 f_equal. rewrite codeword_split by done. destruct Hd as [Hn _]. by apply take_app_length'.
Qed.

(** ** Incremental parity *)

Lemma dot_insert row col i y :
  length row = length col -> (i < length col)%nat ->
  dot row (<[i := Z.lxor (at0 col i) y]> col) = Z.lxor (dot row col) (gmul (at0 row i) y).
Proof.
  unfold dot, xor_sum. revert row i. induction col as [|x col IH]; intros [|r row] i Hl Hi; simpl in *; try lia.
  destruct i as [|i]; simpl.
  - rewrite gmul_xor_r, !Z.lxor_assoc. f_equal. apply Z.lxor_comm.
  - rewrite IH by lia. by rewrite Z.lxor_assoc.
Qed.

Section incremental.
Context `{HI : IsaLSpec} (s : EcScheme) (size : nat).
Hypothesis Hs : scheme_ok s.
Hypothesis Hsize : Z.of_nat size < 2 ^ 31.

#[local] Abbreviation k := s.(data_num).
#[local] Abbreviation c := s.(code_num).

(** The parity shards of [k] data shards of [size] bytes. *)
Definition parity_of (data : list bytes) : list bytes :=
  (fun r => combine_row (coef_row k (generator k c) (k + r)) data size) <$> seq 0 c.

Lemma resize_grow (pre view : bytes) b :
  (length pre + length view <= size)%nat -> (b < size)%nat ->
  at0 (resize size 0 (pre ++ view)) b =
  Z.lxor (at0 (resize size 0 pre) b)
    (if (length pre <=? b)%nat then at0 view (b - length pre) else 0).
Proof.
  intros Hl Hb. destruct (Nat.leb_spec (length pre) b) as [Hp|Hp].
  - rewrite (lookup_resize_new pre) by lia. simpl. rewrite Z.lxor_0_l.
    destruct (decide (b < length pre + length view)%nat).
    + rewrite lookup_resize by (rewrite ?length_app; lia). by rewrite lookup_app_r.
    + rewrite lookup_resize_new by (rewrite ?length_app; lia).
      by rewrite (lookup_ge_None_2 view) by lia.
  - rewrite Z.lxor_0_r, !lookup_resize by (rewrite ?length_app; lia). by rewrite lookup_app_l.
Qed.

(** Adding a view to shard [i] changes a parity byte by its product. *)
Lemma combine_row_grow row data i pre view b :
  length row = length data -> data !! i = Some (resize size 0 pre) ->
  (length pre + length view <= size)%nat -> (b < size)%nat ->
  dot row (column (<[i := resize size 0 (pre ++ view)]> data) b) =
  Z.lxor (dot row (column data b))
    (gmul (at0 row i) (if (length pre <=? b)%nat then at0 view (b - length pre) else 0)).
Proof.
  intros Hr Hi Hl Hb. unfold column. rewrite list_fmap_insert, resize_grow by done.
  rewrite <- dot_insert; rewrite ?length_fmap; [|done|by eapply lookup_lt_Some].
  do 3 f_equal. by rewrite list_lookup_fmap, Hi.
Qed.

Lemma update_at_parity data i pre view :
  shards_ok k size data -> (i < k)%nat -> data !! i = Some (resize size 0 pre) ->
  (length pre + length view <= size)%nat -> Forall is_byte view ->
  isal_encode_update_at view i (parity_of data) k c (length pre) =
  parity_of (<[i := resize size 0 (pre ++ view)]> data).
Proof.
  intros Hd Hik Hi Hl Bv. destruct Hs as (Hk & Hc & Hkc). unfold isal_encode_update_at.
  rewrite (as_i32_id k), (as_i32_id c), <- Nat2Z.inj_add, !as_i32_id by lia. cbv zeta. fold (generator k c).
  rewrite encode_data_update; [|by apply parity_matrix|lia|lia|done|done|by unfold parity_of; rewrite length_fmap, seq_length|].
  2: { apply Forall_fmap, seq_Forall. intros r _. simpl. rewrite length_drop, combine_row_length. lia. }
  apply list_eq. intros r. unfold parity_of.
  rewrite lookup_zip_with, list_lookup_imap, !list_lookup_fmap.
  destruct (decide (r < c)%nat) as [Hr|Hr].
  2: { by rewrite (lookup_ge_None_2 (seq 0 c)) by (rewrite length_seq; lia). }
  rewrite lookup_seq_lt by done. simpl. rewrite parity_row. f_equal.
  set (row := coef_row k (generator k c) (k + r)).
  assert (length row = k) as Hrow by (apply (coef_row_length (k + c)); [by apply generator_matrix|lia]).
  set (P := combine_row row data size). assert (length P = size) as HP by apply seq_length.
  rewrite <- (at0_all (take (length pre) P ++ _) size).
  2: { rewrite !length_app, length_zip_with, length_take, !length_drop. lia. }
  apply seq_fmap_ext. intros b Hb. rewrite (combine_row_grow row data i pre view b) by (done || by rewrite Hrow, (proj1 Hd)).
  assert (forall b, (b < size)%nat -> P !! b = Some (dot row (column data b))) as HPb.
  { intros b' Hb'. unfold P, combine_row. by rewrite list_lookup_fmap, lookup_seq_lt. }
  destruct (Nat.leb_spec (length pre) b) as [Hp|Hp].
  - rewrite lookup_app_r by (rewrite length_take; lia). rewrite length_take, HP.
    replace (b - length pre `min` size)%nat with (b - length pre)%nat by lia.
    destruct (view !! (b - length pre)%nat) as [v|] eqn:Ev; simpl.
    + rewrite lookup_app_l by (rewrite length_zip_with, length_drop; apply lookup_lt_Some in Ev; lia).
      rewrite lookup_zip_with, Ev, lookup_drop. replace (length pre + (b - length pre))%nat with b by lia.
      by rewrite HPb.
    + apply lookup_ge_None in Ev.
      rewrite lookup_app_r by (rewrite length_zip_with, length_drop; lia).
      rewrite length_zip_with, length_drop, !lookup_drop, gmul_0_r, Z.lxor_0_r.
      replace (_ + _)%nat with b by lia. by rewrite HPb.
  - rewrite lookup_app_l, lookup_take_lt, HPb by (rewrite ?length_take; lia). simpl.
    by rewrite gmul_0_r, Z.lxor_0_r.
Qed.

Lemma shards_ok_insert n data i d :
  shards_ok n size data -> length d = size -> Forall is_byte d -> shards_ok n size (<[i := d]> data).
Proof.
  intros [Hn Hd] ??. split; [by rewrite length_insert|]. by apply Forall_insert.
Qed.

Lemma fold_views_parity views data i pre :
  shards_ok k size data -> (i < k)%nat -> data !! i = Some (resize size 0 pre) ->
  (length pre + length (concat views) <= size)%nat -> Forall is_byte pre -> Forall (Forall is_byte) views ->
  fold_views s i (length pre) views (parity_of data) =
  parity_of (<[i := resize size 0 (pre ++ concat views)]> data).
Proof.
  revert data pre. induction views as [|view views IH]; intros data pre Hd Hik Hi Hl Bp Bv; simpl in *.
  { rewrite app_nil_r. by rewrite list_insert_id. }
  rewrite length_app in Hl. apply Forall_cons in Bv as [Bw Bv].
  assert (Forall is_byte (pre ++ view)) by (by apply Forall_app).
  rewrite update_at_parity, <- length_app by (done || lia).
  rewrite IH; try done.
  - by rewrite list_insert_insert_eq, app_assoc.
  - apply shards_ok_insert; [done|apply length_resize|by apply Forall_resize].
  - apply list_lookup_insert_eq. rewrite (proj1 Hd). done.
  - rewrite length_app. lia.
Qed.

(** All [k] data shards of a stripe of which [done] have been written. *)
Definition full_stripe (done : list bytes) : list bytes :=
  (resize size 0 <$> done) ++ replicate (k - length done) (replicate size 0).

Definition after_pushes (done : list bytes) (short : bool) : IncrementalParity :=
  {| scheme := s; shard_size := Some size; shards_received := length done;
     short_shard_seen := short; parity := parity_of (full_stripe done) |}.

Lemma full_stripe_ok done :
  (length done <= k)%nat -> Forall (Forall is_byte) done -> shards_ok k size (full_stripe done).
Proof.
  intros Hl Hb. split.
  - unfold full_stripe. rewrite length_app, length_fmap, length_replicate. lia.
  - apply Forall_app. split.
    + apply Forall_fmap. eapply Forall_impl; [exact Hb|]. intros d Hd. split; [apply length_resize|].
      by apply Forall_resize.
    + apply Forall_replicate. split; [apply length_replicate|]. by apply Forall_replicate.
Qed.

Lemma full_stripe_snoc done d :
  (length done < k)%nat ->
  full_stripe (done ++ [d]) = <[length done := resize size 0 d]> (full_stripe done).
Proof.
  intros Hl. unfold full_stripe. rewrite fmap_app, length_app. simpl.
  replace (k - length done)%nat with (S (k - (length done + 1)))%nat by lia. simpl.
  rewrite insert_app_r_alt; rewrite length_fmap; [|done]. rewrite Nat.sub_diag. simpl.
  by rewrite <- app_assoc.
Qed.

Lemma full_stripe_next done :
  (length done < k)%nat -> full_stripe done !! length done = Some (resize size 0 []).
Proof.
  intros Hl. unfold full_stripe. rewrite lookup_app_r; rewrite length_fmap; [|done].
  rewrite Nat.sub_diag, resize_nil. apply lookup_replicate_2. lia.
Qed.

Lemma parity_of_nothing : parity_of (full_stripe []) = replicate c (replicate size 0).
Proof.
  unfold full_stripe, parity_of. simpl. rewrite Nat.sub_0_r. apply list_eq_same_length with (n := c).
  { apply length_replicate. } { apply seq_length. }
  intros r x y Hr. rewrite list_lookup_fmap, lookup_seq_lt, lookup_replicate_2 by done.
  intros [= <-] [= <-]. apply list_eq_same_length with (n := size).
  { apply length_replicate. } { apply seq_length. }
  intros b x y Hb. unfold combine_row. rewrite list_lookup_fmap, lookup_seq_lt, lookup_replicate_2 by done.
  intros [= <-] [= <-]. unfold dot, column. rewrite fmap_replicate, lookup_replicate_2 by done. simpl.
  generalize (coef_row k (generator k c) (k + r)). generalize k. unfold xor_sum.
  intros n row. revert n. induction row as [|x row IH]; intros [|n]; simpl; [done..|].
  rewrite gmul_0_r. apply IH.
Qed.

Lemma views_len_ok t views :
  0 <= t -> Forall (fun v => v <> []) views -> t + Z.of_nat (length (concat views)) <= u64_max ->
  views_len t views = Ok (t + Z.of_nat (length (concat views))).
Proof.
  intros Ht Hv. revert t Ht. induction Hv as [|v views Hv _ IH]; intros t Ht Hl; simpl in *.
  { f_equal. lia. }
  rewrite length_app in *. destruct (Nat.eqb_spec (length v) 0) as [E|_].
  { by apply nil_length_inv in E. }
  destruct (Z.ltb_spec u64_max (t + Z.of_nat (length v))); [lia|].
  rewrite IH by lia. f_equal. lia.
Qed.

(** One more shard is accepted and folded in. *)
Lemma push_accepts p done views allow_short :
  (length done < k)%nat -> Forall (Forall is_byte) done -> Forall (Forall is_byte) views ->
  Forall (fun v => v <> []) views -> (0 < length (concat views) <= size)%nat ->
  (allow_short = true \/ length (concat views) = size) ->
  (p = after_pushes done false \/
   done = [] /\ new_incremental s = Ok p /\ length (concat views) = size) ->
  push_views_inner p views allow_short =
    (after_pushes (done ++ [concat views]) (length (concat views) <? size)%nat, Ok ()).
Proof.
  intros Hl Bd Bv Hv Hlen Hshort Hp.
  assert (new_incremental s = Ok {| scheme := s; shard_size := None; shards_received := 0;
    short_shard_seen := false; parity := [] |}) as Hnew.
  { unfold new_incremental, validate_scheme. by rewrite scheme_ok_valid by done. }
  assert (p.(scheme) = s /\ p.(shards_received) = length done /\ p.(short_shard_seen) = false /\
    (p.(shard_size) = Some size /\ p.(parity) = parity_of (full_stripe done) \/
     p.(shard_size) = None /\ done = [] /\ length (concat views) = size)) as (E1 & E2 & E3 & E4).
  { destruct Hp as [->|(-> & Hn & Hz)]; [simpl; tauto|]. rewrite Hnew in Hn. simplify_eq. simpl. tauto. }
  unfold push_views_inner. rewrite E1, E2, E3.
  destruct (Nat.leb_spec k (length done)); [lia|].
  assert (2 ^ 31 < u64_max) by done. rewrite views_len_ok by (done || lia). rewrite Z.add_0_l, Nat2Z.id.
  destruct (Nat.eqb_spec (length (concat views)) 0); [lia|].
  assert (fold_views s (length done) 0 views (parity_of (full_stripe done)) =
    parity_of (full_stripe (done ++ [concat views]))) as Hfold.
  { rewrite full_stripe_snoc by done. apply (fold_views_parity views _ _ []); simpl; try done.
    - apply full_stripe_ok; [lia|done].
    - by apply full_stripe_next.
    - lia. }
  unfold after_pushes. rewrite length_app. simpl.
  destruct E4 as [[-> ->]|(-> & -> & Ez)].
  - destruct (Nat.ltb_spec size (length (concat views))); [lia|]. simpl.
    assert (negb allow_short && negb (size =? length (concat views))%nat = false) as ->.
    { destruct Hshort as [->| ->]; [done|]. rewrite Nat.eqb_refl. apply andb_false_r. }
    by rewrite Hfold.
  - rewrite Ez, Nat.ltb_irrefl. simpl. rewrite <- parity_of_nothing. simpl in Hfold. by rewrite Hfold.
Qed.

End incremental.

(** A rejected push leaves the encoder as it was. *)
Lemma push_rejected `{I : IsaL} p views allow_short p' e :
  push_views_inner p views allow_short = (p', Err e) -> p' = p.
Proof. unfold push_views_inner. intros H. repeat case_match; by simplify_eq. Qed.

(** Pushing the shards of a stripe one after the other. *)
Fixpoint push_all `{I : IsaL} (p : IncrementalParity) (stripe : list (list bytes))
    : result IncrementalParity EcError :=
  match stripe with
  | [] => Ok p
  | views :: stripe =>
      let '(p, r) := push_views p views in
      let? _ := r in push_all p stripe
  end.

Lemma push_all_app `{I : IsaL} p a b :
  push_all p (a ++ b) = (let? q := push_all p a in push_all q b).
Proof.
  revert p. induction a as [|v a IH]; intros p; simpl; [done|].
  destruct (push_views p v) as [q [[]|e]]; simpl; [apply IH|done].
Qed.

Lemma encode_full_stripe `{HI : IsaLSpec} s size done :
  scheme_ok s -> Z.of_nat size < 2 ^ 31 -> done <> [] -> (length done <= s.(data_num))%nat ->
  Forall (Forall is_byte) done ->
  encode_parity_from_shards s (resize size 0 <$> done) = Ok (parity_of s size (full_stripe s size done)).
Proof.
  intros Hs Hsize Hne Hl Hb. pose proof (full_stripe_ok s size done Hl Hb) as Hf.
  unfold encode_parity_from_shards. rewrite scheme_ok_valid by done.
  assert ((fun i => default (replicate size 0) ((resize size 0 <$> done) !! i)) <$> seq 0 s.(data_num) =
    full_stripe s size done) as Hfull.
  { apply list_eq_same_length with (n := s.(data_num)); [apply Hf|apply seq_length|].
    intros i x y Hi. rewrite list_lookup_fmap, lookup_seq_lt by done. unfold full_stripe. intros [= <-].
    destruct (decide (i < length done)%nat).
    - rewrite lookup_app_l by (by rewrite length_fmap). intros ->. done.
    - rewrite lookup_app_r, length_fmap by (rewrite length_fmap; lia).
      rewrite lookup_replicate_2 by lia. intros [= <-].
      by rewrite lookup_ge_None_2 by (rewrite length_fmap; lia). }
  destruct done as [|d done]; [done|]. cbn [fmap list_fmap] in *.
  rewrite (proj2 (Nat.ltb_ge _ _)) by (simpl in *; rewrite length_fmap; lia).
  rewrite length_resize. destruct (existsb _ _) eqn:E.
  { apply existsb_exists in E as (x & Hx & E). apply list_elem_of_In, list_elem_of_fmap in Hx as (y & -> & _).
    by rewrite length_resize, Nat.eqb_refl in E. }
  rewrite Hfull. f_equal. destruct Hs as (Hk & Hc & Hkc).
  rewrite (isal_encode_codeword _ _ size), codeword_split by done. destruct Hf as [Hn _]. by rewrite drop_app_length' by (by rewrite Hn).
Qed.

(** Full-size shards, from a fresh encoder or from one that has only taken such. *)
Lemma push_all_full `{HI : IsaLSpec} s size stripe done p :
  scheme_ok s -> Z.of_nat size < 2 ^ 31 -> (0 < size)%nat ->
  (length done + length stripe <= s.(data_num))%nat -> Forall (Forall is_byte) done ->
  Forall (Forall (fun v => v <> [] /\ Forall is_byte v)) stripe ->
  Forall (fun views => length (concat views) = size) stripe ->
  (p = after_pushes s size done false \/ done = [] /\ new_incremental s = Ok p) ->
  exists q, push_all p stripe = Ok q /\
    (q = after_pushes s size (done ++ (concat (A := Z) <$> stripe)) false \/
     done ++ (concat (A := Z) <$> stripe) = [] /\ new_incremental s = Ok q).
Proof.
  intros Hs Hsize Hz. revert done p.
  induction stripe as [|views stripe IH]; intros done p Hl Bd Bv Hlen Hp; simpl in *.
  { rewrite app_nil_r. eauto. }
  apply Forall_cons in Bv as [Bw Bv], Hlen as [Hw Hlen].
  assert (Forall (Forall is_byte) views) as Bw' by (eapply Forall_impl; [exact Bw|naive_solver]).
  assert (Forall (fun v => v <> []) views) as Hw' by (eapply Forall_impl; [exact Bw|naive_solver]).
  unfold push_views.
  rewrite (push_accepts s size Hs Hsize p done views true) by (try done; try lia; auto; naive_solver).
  rewrite Hw, Nat.ltb_irrefl. simpl.
  destruct (IH (done ++ [concat views]) (after_pushes s size (done ++ [concat views]) false)) as (q & Hq & H);
    [rewrite length_app; simpl; lia| |done|done|by left|].
  - apply Forall_app. split; [done|]. constructor; [|done]. by apply Forall_concat.
  - exists q. split; [done|]. rewrite <- app_assoc in H. exact H.
Qed.

End Ec.
