(* ===== verification/EcSchemes.v ===== *)
(** * The erasure-coding schemes of the system

    The schemes the services and their tests use ([EcScheme::new] in
    [crowdb-access-server], [crowdb-access-s3], [crowdb-access-iceberg] and the
    tests of [crowdb-common]): with the Vandermonde rows isa-l documents, every
    choice of surviving blocks can be inverted, so decoding never fails for
    them.  The inverses are found by elimination and checked entry by entry.
    The file also holds a reference instance of the foreign functions. *)

From stdpp Require Import prelude list pmap.
From Stdlib Require Import ZArith Lia.
From S2P Require Import Prelude Bytes Gf256 Ec.

Module EcSchemes.
Import Gf256 Ec.

(** ** Products through trees, for evaluation *)

Definition tree_of (l : list (Z * Z)) : Pmap Z :=
  foldr (fun '(i, x) t => <[Z.to_pos (i + 1) := x]> t) ∅ l.

Definition pow_list : list Z := (fun i => xtimes i 1) <$> seq 0 255.

Definition exp_tree : Pmap Z := Eval vm_compute in tree_of (zip (Z.of_nat <$> seq 0 255) pow_list).

Definition log_tree : Pmap Z := Eval vm_compute in tree_of (zip pow_list (Z.of_nat <$> seq 0 255)).

Definition tree_at (t : Pmap Z) (i : Z) : Z := default 0 (t !! Z.to_pos (i + 1)).

Definition mul (a b : Z) : Z :=
  if (a =? 0) || (b =? 0) then 0
  else let s := tree_at log_tree a + tree_at log_tree b in
       tree_at exp_tree (if s <? 255 then s else s - 255).

Lemma mul_gmul a b : is_byte a -> is_byte b -> mul a b = gmul a b.
Proof.
  intros Ha Hb. apply Z.eqb_eq. apply (all_pairs_spec (fun a b => mul a b =? gmul a b)); [|done..].
  by vm_compute.
Qed.

Definition inv (a : Z) : Z :=
  let s := tree_at log_tree a in tree_at exp_tree (if s =? 0 then 0 else 255 - s).

(** ** Elimination *)

Definition head_of (row : bytes) : Z := match row with x :: _ => x | [] => 0 end.

Definition eliminate (pivot row : bytes) : bytes :=
  zip_with (fun x y => Z.lxor x (mul (head_of row) y)) (tail row) (tail pivot).

Fixpoint split_pivot (rows : list bytes) : option (bytes * list bytes) :=
  match rows with
  | [] => None
  | row :: rows =>
      if head_of row =? 0
      then match split_pivot rows with Some (p, rest) => Some (p, row :: rest) | None => None end
      else Some (row, rows)
  end.

(** Every turn consumes a column: rows above and below lose their head. *)
Fixpoint eliminate_all (fuel : nat) (above below : list bytes) : list bytes :=
  match fuel with
  | O => above
  | S fuel =>
      match split_pivot below with
      | None => above
      | Some (p, rest) =>
          let p := mul (inv (head_of p)) <$> p in
          eliminate_all fuel ((eliminate p <$> above) ++ [tail p]) (eliminate p <$> rest)
      end
  end.

Definition unit_row (n i : nat) : bytes := (fun j => if (i =? j)%nat then 1 else 0) <$> seq 0 n.

Definition gauss (n : nat) (g : bytes) : bytes :=
  concat (eliminate_all n [] ((fun i => coef_row n g i ++ unit_row n i) <$> seq 0 n)).

(** ** The check of an inverse *)

Definition mul_dot (row col : bytes) : Z := xor_sum (zip_with mul row col).

Definition checks (n : nat) (h g : bytes) : bool :=
  (length h =? n * n)%nat && forallb (fun b => (0 <=? b) && (b <? 256)) h &&
  forallb (fun i => forallb (fun j =>
    mul_dot (coef_row n h i) ((fun r => default 0 (coef_row n g r !! j)) <$> seq 0 n)
      =? (if (i =? j)%nat then 1 else 0)) (seq 0 n)) (seq 0 n).

Lemma mul_dot_dot row col : Forall is_byte row -> Forall is_byte col -> mul_dot row col = dot row col.
Proof.
  intros Hr. unfold mul_dot, dot. revert col.
  induction Hr as [|x row Hx Hr IH]; intros col Hc; [done|]. destruct Hc as [|y col Hy Hc]; [done|].
  simpl. unfold xor_sum in *. simpl. by rewrite mul_gmul, IH.
Qed.

Lemma forallb_eq {A} (f g : A -> bool) l : (forall x, f x = g x) -> forallb f l = forallb g l.
Proof. intros H. induction l as [|x l IH]; simpl; [done|]. by rewrite H, IH. Qed.

Lemma checks_spec n h g :
  Forall is_byte g -> checks n h g = true -> is_matrix n n h /\ is_left_inverse n h g = true.
Proof.
  unfold checks. intros Bg [[Hl Hb]%andb_prop Hc]%andb_prop.
  assert (Forall is_byte h) as Bh.
  { apply Forall_forall. intros b Hin. rewrite forallb_forall in Hb.
    specialize (Hb b (proj1 (list_elem_of_In _ _) Hin)). unfold is_byte. lia. }
  split; [split; [by apply Nat.eqb_eq|done]|]. unfold is_left_inverse. rewrite <- Hc.
  apply forallb_eq. intros i. apply forallb_eq. intros j. f_equal. symmetry. apply mul_dot_dot.
  - by apply coef_row_byte.
  - apply seq_Forall. intros r _. by apply at0_byte, coef_row_byte.
Qed.

(** ** The documented generator matrix

    The identity, then rows of powers of [2^(i - k + e)]; the first parity row
    is all ones for [e = 0]. *)

Definition rs_row (e k i : nat) : bytes :=
  if (i <? k)%nat then unit_row k i else (fun j => xtimes ((i - k + e) * j) 1) <$> seq 0 k.

Definition rs_matrix (e m k : nat) : bytes := flat_map (rs_row e k) (seq 0 m).

Lemma rs_row_length e k i : length (rs_row e k i) = k.
Proof. unfold rs_row. case_match; apply seq_length. Qed.

Lemma rs_row_byte e k i : Forall is_byte (rs_row e k i).
Proof.
  unfold rs_row, unit_row. case_match; apply seq_Forall; intros j _; [by case_match|].
  by apply xtimes_byte.
Qed.

Lemma rs_matrix_ok e m k : is_matrix m k (rs_matrix e m k).
Proof.
  unfold rs_matrix. split.
  - rewrite (flat_map_length_const k), length_seq; [done|]. intros; apply rs_row_length.
  - apply flat_map_Forall. intros; apply rs_row_byte.
Qed.

Lemma rs_matrix_row e m k i : (i < m)%nat -> coef_row k (rs_matrix e m k) i = rs_row e k i.
Proof.
  intros Hi. apply coef_row_flat_map; [intros; apply rs_row_length|by rewrite lookup_seq_lt].
Qed.

(** ** Every choice of survivors *)

Fixpoint choose {A} (k : nat) (l : list A) : list (list A) :=
  match k, l with
  | O, _ => [[]]
  | S _, [] => []
  | S k', x :: l' => (cons x <$> choose k' l') ++ choose k l'
  end.

Lemma choose_sublist {A} (l : list A) k c :
  c `sublist_of` l -> length c = k -> c ∈ choose k l.
Proof.
  intros H. revert k. induction H as [|x c l H IH|x c l H IH]; intros k Hk; subst k.
  - simpl. set_solver.
  - simpl. apply elem_of_app. left. apply list_elem_of_fmap. eauto.
  - destruct (length c) as [|n] eqn:En; simpl.
    + destruct c; [set_solver|done].
    + apply elem_of_app. right. rewrite <- En. by apply IH.
Qed.

Lemma lfilter_sublist {A} (p : A -> bool) l : List.filter p l `sublist_of` l.
Proof. induction l as [|x l IH]; simpl; [constructor|]. destruct (p x); by constructor. Qed.

Definition all_recoverable (e k c : nat) : bool :=
  forallb (fun rows =>
    let g := flat_map (rs_row e k) rows in checks k (gauss k g) g) (choose k (seq 0 (k + c))).

Definition schemes : list (nat * nat) := [(1, 1); (2, 1); (4, 1); (4, 2); (6, 3); (8, 2); (8, 4)]%nat.

Lemma schemes_ok s : (s.(data_num), s.(code_num)) ∈ schemes -> scheme_ok s.
Proof.
  destruct s as [k c]. unfold schemes, scheme_ok. simpl. intros Hin.
  repeat (apply elem_of_cons in Hin as [[= -> ->]|Hin]; [lia|]). by apply not_elem_of_nil in Hin.
Qed.

Lemma schemes_recoverable : forallb (fun '(k, c) => all_recoverable 0 k c && all_recoverable 1 k c) schemes = true.
Proof. by vm_compute. Qed.

Lemma flat_map_ext_elem {A B} (f g : A -> list B) l :
  (forall x, x ∈ l -> f x = g x) -> flat_map f l = flat_map g l.
Proof.
  induction l as [|x l IH]; simpl; intros H; [done|]. rewrite H, IH by set_solver. done.
Qed.

(** What the manual says of the coefficients. *)
Class IsaLVandermonde (I : IsaL) : Prop :=
  gen_vandermonde : exists e, (e <= 1)%nat /\ forall m k, (0 < k <= m)%nat -> Z.of_nat m < 2 ^ 31 ->
    gf_gen_rs_matrix (Z.of_nat m) (Z.of_nat k) = rs_matrix e m k.

Lemma all_recoverable_spec e k c rows :
  all_recoverable e k c = true -> rows `sublist_of` seq 0 (k + c) -> length rows = k ->
  exists h, is_matrix k k h /\ is_left_inverse k h (flat_map (rs_row e k) rows) = true.
Proof.
  unfold all_recoverable. intros H Hs Hl. rewrite forallb_forall in H.
  specialize (H rows (proj1 (list_elem_of_In _ _) (choose_sublist _ _ _ Hs Hl))).
  eexists. apply checks_spec; [|exact H]. apply flat_map_Forall. intros; apply rs_row_byte.
Qed.

Lemma scheme_recoverable `{HV : IsaLVandermonde} (s : EcScheme) blocks :
  (s.(data_num), s.(code_num)) ∈ schemes ->
  length blocks = (s.(data_num) + s.(code_num))%nat -> (lost_count blocks <= s.(code_num))%nat ->
  recoverable s.(data_num) s.(code_num) blocks.
Proof.
  intros Hin Hb Hl. destruct gen_vandermonde as (e & He & Hgen). destruct s as [k c]. simpl in *.
  destruct (schemes_ok {| data_num := k; code_num := c |} Hin) as (Hk & _ & Hkc). simpl in Hk, Hkc.
  assert (all_recoverable e k c = true) as Hall.
  { pose proof schemes_recoverable as H. rewrite forallb_forall in H.
    specialize (H (k, c) (proj1 (list_elem_of_In _ _) Hin)). simpl in H.
    apply andb_prop in H as [H0 H1]. destruct e as [|[|e]]; [done|done|lia]. }
  set (rows := surviving_of (lost_of blocks) (k + c) k).
  assert (rows `sublist_of` seq 0 (k + c)) as Hsub.
  { unfold rows, surviving_of. etrans; [apply sublist_take|apply lfilter_sublist]. }
  assert (length rows = k) as Hr.
  { unfold rows, surviving_of. rewrite length_take. fold (survivors (lost_of blocks) (k + c)).
    pose proof (survivors_length (lost_of blocks) (k + c) (lost_of_NoDup _)) as H.
    rewrite lost_of_length in H. assert (forall i, i ∈ lost_of blocks -> (i < k + c)%nat) as Hlt; [|specialize (H Hlt); lia].
    intros i Hi%lost_of_spec. rewrite <- Hb. by eapply lookup_lt_Some. }
  destruct (all_recoverable_spec e k c rows Hall Hsub Hr) as (h & Hh & Hleft). exists h.
  split; [done|]. fold rows. rewrite <- Hleft. f_equal. unfold surviving_matrix.
  assert (forall i, i ∈ rows -> (fun col => default 0 (generator k c !! (i * k + col)%nat)) <$> seq 0 k
    = rs_row e k i) as Hrow.
  { intros i Hi%(sublist_subseteq _ _ Hsub)%elem_of_seq. unfold generator. rewrite Hgen by lia.
    rewrite (coef_row_seq (k + c)); [|apply rs_matrix_ok|lia]. apply rs_matrix_row. lia. }
  rewrite (flat_map_ext_elem _ (rs_row e k)) by done. apply resize_all_alt.
  rewrite (flat_map_length_const k); [by rewrite Hr|]. intros; apply rs_row_length.
Qed.

(** ** A reference instance of the foreign functions *)

Fixpoint all_lists (n : nat) : list bytes :=
  match n with
  | O => [[]]
  | S n => flat_map (fun b => cons b <$> all_lists n) byte_list
  end.

Lemma all_lists_spec l : Forall is_byte l -> l ∈ all_lists (length l).
Proof.
  induction 1 as [|b l Hb _ IH]; cbn [length all_lists]; [set_solver|].
  apply list_elem_of_In, in_flat_map. exists b. split; [by apply byte_list_spec|].
  apply list_elem_of_In, list_elem_of_fmap. eauto.
Qed.

Lemma all_lists_ok n l : l ∈ all_lists n -> length l = n /\ Forall is_byte l.
Proof.
  revert l. induction n as [|n IH]; intros l; cbn [all_lists]; [by intros ->%list_elem_of_singleton|].
  intros (b & Hb & Hl)%list_elem_of_In%in_flat_map.
  apply list_elem_of_In, list_elem_of_fmap in Hl as (l' & -> & Hl'). destruct (IH l' Hl') as [<- ?].
  split; [done|]. constructor; [|done]. unfold byte_list in Hb.
  apply list_elem_of_In, list_elem_of_fmap in Hb as (i & -> & Hi%elem_of_seq). unfold is_byte. lia.
Qed.

(** Elimination where it succeeds, any inverse otherwise. *)
Definition invert (n : nat) (g : bytes) : bytes :=
  if checks n (gauss n g) g then gauss n g
  else default [] (List.find (fun h => is_left_inverse n h g) (all_lists (n * n))).

Lemma invert_ok n g h :
  is_matrix n n g -> is_matrix n n h -> is_left_inverse n h g = true ->
  is_matrix n n (invert n g) /\ is_left_inverse n (invert n g) g = true.
Proof.
  intros [Hg Bg] [Hh Bh] Hl. unfold invert. destruct (checks _ _ _) eqn:E; [by apply checks_spec|].
  destruct (List.find _ _) as [h'|] eqn:F; simpl.
  - apply List.find_some in F as [Hin F]. split; [|done]. by apply all_lists_ok, list_elem_of_In.
  - exfalso. eapply List.find_none in F; [by rewrite Hl in F|].
    apply list_elem_of_In. rewrite <- Hh. by apply all_lists_spec.
Qed.

Definition reference_isal : IsaL := {|
  gf_gen_rs_matrix m k := rs_matrix 0 (Z.to_nat m) (Z.to_nat k);
  gf_invert_matrix g n := invert (Z.to_nat n) g;
  ec_init_tables _ _ a := a;
  ec_encode_data len k rows a data _ :=
    (fun r => combine_row (coef_row (Z.to_nat k) a r) data (Z.to_nat len)) <$> seq 0 (Z.to_nat rows);
  ec_encode_data_update _ k _ i a data coding :=
    imap (fun r c =>
      zip_with (fun p d => Z.lxor p (gmul (default 0 (coef_row (Z.to_nat k) a r !! Z.to_nat i)) d)) c data
        ++ drop (length data) c) coding;
|}.

Lemma reference_spec : IsaLSpec reference_isal.
Proof.
  split; simpl.
  - intros m k Hk Hm. rewrite !Nat2Z.id. apply rs_matrix_ok.
  - intros m k i j Hk Hm Hi Hj. rewrite !Nat2Z.id, rs_matrix_row by lia. unfold rs_row, unit_row.
    destruct (Nat.ltb_spec i k); [|lia]. by rewrite list_lookup_fmap, lookup_seq_lt.
  - intros n g h Hg Hh Hl Hn. rewrite Nat2Z.id. by apply (invert_ok n g h).
  - intros len k rows a data coding **. by rewrite !Nat2Z.id.
  - intros k rows i a data coding **. by rewrite !Nat2Z.id.
Qed.

Lemma reference_vandermonde : IsaLVandermonde reference_isal.
Proof. exists 0%nat. split; [lia|]. intros m k **. simpl. by rewrite !Nat2Z.id. Qed.

Lemma div_ceil_le a b : (0 < b)%nat -> (div_ceil a b <= a)%nat.
Proof. intros Hb. pose proof (div_ceil_spec a b Hb). destruct a; nia. Qed.

(** ** The theorems *)

(** C21. An object of at most 2^31 - 1 bytes per shard encodes into
    [data_num + code_num] shards of equal size, the data shards first.  From
    any of the blocks that survive, when no more than [code_num] are lost and
    the survivors' rows of the generator matrix are invertible, [decode]
    returns exactly the shards that were written, lost parity included, and
    [decode_data] the object followed by its zero padding; when more are lost
    [decode] answers [TooManyLost] with the count. *)
Theorem decode_recovers `{HI : IsaLSpec} s data :
  scheme_ok s -> Forall is_byte data ->
  Z.of_nat (div_ceil (length data) s.(data_num)) < 2 ^ 31 ->
  exists shards, encode s data = Ok shards /\
    shards_ok (s.(data_num) + s.(code_num)) (div_ceil (length data) s.(data_num)) shards /\
    forall blocks, survives blocks shards ->
      if (lost_count blocks <=? s.(code_num))%nat
      then recoverable s.(data_num) s.(code_num) blocks ->
        decode s blocks = Ok shards /\
        decode_data s blocks =
          Ok (data ++ replicate (s.(data_num) * div_ceil (length data) s.(data_num) - length data) 0)
      else decode s blocks = Err (TooManyLost (lost_count blocks) s.(code_num)).
Proof.
  intros Hs Hb Hsize. rewrite encode_codeword by done. cbv zeta.
  set (size := div_ceil _ _) in *. eexists. split; [done|].
  pose proof (split_shards_ok data size s.(data_num) Hb) as Hd. destruct (Hs) as (Hk & Hc & Hkc).
  split; [by apply codeword_ok|]. intros blocks Hbl.
  pose proof (decode_codeword s _ size blocks Hs Hsize Hd Hbl) as H. case_match; [|done].
  intros Hrec. destruct (H Hrec) as [-> ->]. split; [done|]. f_equal.
  rewrite split_shards_concat, resize_ge; [done|]. by apply div_ceil_spec.
Qed.

Lemma decode_recovers_witness :
  @decode reference_isal {| data_num := 2; code_num := 1 |} [None; Some [250; 0]; Some [253; 9]] =
  Ok [[7; 9]; [250; 0]; [253; 9]].
Proof.
  destruct (@decode_recovers reference_isal reference_spec {| data_num := 2; code_num := 1 |} [7; 9; 250])
    as (shards & H & _ & Hdec);
    [unfold scheme_ok; simpl; lia|repeat constructor; unfold is_byte; lia|done|].
  assert (shards = [[7; 9]; [250; 0]; [253; 9]]) as ->.
  { vm_compute in H. by injection H as <-. }
  apply (Hdec [None; Some [250; 0]; Some [253; 9]]).
  - repeat (constructor; [auto|]). constructor.
  - exists [1; 1; 1; 0]. split; [split; [done|repeat constructor; unfold is_byte; lia]|by vm_compute].
Defined.

(** C23. For each of the schemes the system uses, 8+4 (the default), 8+2, 6+3,
    4+2, 4+1, 2+1 and 1+1, and with the generator matrix isa-l documents, every
    loss of at most [code_num] blocks is recovered: [decode] returns the
    shards that were written and [decode_data] the object with its padding. *)
Theorem schemes_always_recover `{HI : IsaLSpec} {HV : IsaLVandermonde I0} s data blocks shards :
  (s.(data_num), s.(code_num)) ∈ schemes -> Forall is_byte data -> Z.of_nat (length data) < 2 ^ 31 ->
  encode s data = Ok shards -> survives blocks shards -> (lost_count blocks <= s.(code_num))%nat ->
  decode s blocks = Ok shards /\
  decode_data s blocks =
    Ok (data ++ replicate (s.(data_num) * div_ceil (length data) s.(data_num) - length data) 0).
Proof.
  intros Hin Hb Hlen He Hsv Hl.
  assert (scheme_ok s) as Hs by (by apply schemes_ok).
  assert (Z.of_nat (div_ceil (length data) s.(data_num)) < 2 ^ 31) as Hsize.
  { pose proof (div_ceil_le (length data) s.(data_num)). destruct Hs. lia. }
  rewrite encode_codeword in He by done. injection He as <-.
  set (size := div_ceil _ _) in *. pose proof (split_shards_ok data size s.(data_num) Hb) as Hd.
  pose proof (decode_codeword s _ size blocks Hs Hsize Hd Hsv) as H.
  rewrite (proj2 (Nat.leb_le _ _)) in H by done. destruct H as [-> ->].
  { apply scheme_recoverable; [done|..|done].
    rewrite (Forall2_length _ _ _ Hsv). apply codeword_length. }
  split; [done|]. rewrite split_shards_concat, resize_ge; [done|]. apply div_ceil_spec. apply Hs.
Qed.

Lemma schemes_always_recover_witness :
  @decode reference_isal {| data_num := 4; code_num := 2 |}
    [None; Some [2]; Some [3]; None; Some [4]; Some [0x29]] =
  Ok [[1]; [2]; [3]; [4]; [4]; [0x29]].
Proof.
  apply (@schemes_always_recover reference_isal reference_spec reference_vandermonde
    {| data_num := 4; code_num := 2 |} [1; 2; 3; 4]).
  - apply (list_elem_of_lookup_2 _ 3). done.
  - repeat constructor; unfold is_byte; lia.
  - done.
  - by vm_compute.
  - repeat (constructor; [auto|]). constructor.
  - by apply Nat.leb_le.
Defined.

(** C24. Pushing the shards of a stripe one at a time, each as any sequence of
    nonempty views, the last one possibly shorter, accepts every shard and ends
    with exactly the parity [encode_parity_from_shards] computes in one go from
    the zero-padded shards; [finish] returns it when all data shards were
    pushed and refuses before. *)
Theorem incremental_matches_batch `{HI : IsaLSpec} s size init lastv p0 :
  scheme_ok s -> Z.of_nat size < 2 ^ 31 -> (length init < s.(data_num))%nat ->
  Forall (Forall (fun v => v <> [] /\ Forall is_byte v)) (init ++ [lastv]) ->
  Forall (fun views => length (concat views) = size) init ->
  (0 < length (concat lastv) <= size)%nat -> (init = [] -> length (concat lastv) = size) ->
  new_incremental s = Ok p0 ->
  exists p parity, push_all p0 (init ++ [lastv]) = Ok p /\
    encode_parity_from_shards s (resize size 0 <$> (concat (A := Z) <$> init ++ [lastv])) = Ok parity /\
    finish_partial p = Ok parity /\
    finish p = if (length init + 1 =? s.(data_num))%nat then Ok parity
               else Err (Backend (Incomplete (length init + 1) s.(data_num))).
Proof.
  intros Hs Hsize Hl Bv Hinit Hlast Hfirst Hnew. apply Forall_app in Bv as [Bi Bl].
  rewrite Forall_singleton in Bl.
  destruct (push_all_full s size init [] p0) as (q & Hq & Hst);
    [done|done|lia|simpl; lia|done|done|done|by right|].
  simpl in Hst. set (done_ := concat (A := Z) <$> init) in *.
  assert (Forall (Forall is_byte) done_) as Bd.
  { apply Forall_fmap. eapply Forall_impl; [exact Bi|]. intros views Hv. simpl. apply Forall_concat.
    eapply Forall_impl; [exact Hv|naive_solver]. }
  assert (Forall (Forall is_byte) lastv) as Bl' by (eapply Forall_impl; [exact Bl|naive_solver]).
  assert (length done_ = length init) as Hdl by apply length_fmap.
  assert (push_views q lastv = (after_pushes s size (done_ ++ [concat lastv])
    (length (concat lastv) <? size)%nat, Ok ())) as Hpush.
  { apply push_accepts; auto; [lia|eapply Forall_impl; [exact Bl|naive_solver]|].
    destruct Hst as [->|[Hd Hq']]; [by left|right]. split_and!; [done..|]. apply Hfirst.
    by apply fmap_nil_inv in Hd. }
  eexists _, _. split_and!.
  - rewrite push_all_app, Hq. simpl. by rewrite Hpush.
  - rewrite fmap_app. apply encode_full_stripe; [done|done| | |].
    + intros [_ ?]%app_nil. done.
    + fold done_. rewrite length_app. simpl. lia.
    + apply Forall_app. split; [done|]. apply Forall_singleton. by apply Forall_concat.
  - unfold finish_partial, after_pushes. simpl. rewrite length_app, Nat.add_comm. done.
  - unfold finish, is_complete, after_pushes. simpl. rewrite length_app, Hdl. simpl. by destruct (_ =? _)%nat.
Qed.

Lemma incremental_matches_batch_witness :
  exists p parity,
    @push_all reference_isal {| scheme := {| data_num := 2; code_num := 2 |}; shard_size := None;
        shards_received := 0; short_shard_seen := false; parity := [] |} [[[1]; [2; 3]]; [[4; 5]]] = Ok p /\
    finish_partial p = Ok parity.
Proof.
  destruct (@incremental_matches_batch reference_isal reference_spec {| data_num := 2; code_num := 2 |} 3
    [[[1]; [2; 3]]] [[4; 5]] {| scheme := {| data_num := 2; code_num := 2 |}; shard_size := None;
        shards_received := 0; short_shard_seen := false; parity := [] |})
    as (p & parity & H1 & _ & H2 & _); [unfold scheme_ok; simpl; lia|done|simpl; lia| | | | |done|].
  - repeat constructor; try done; unfold is_byte; lia.
  - repeat constructor.
  - simpl. lia.
  - done.
  - by exists p, parity.
Defined.

End EcSchemes.
