(* ===== verification/Frame.v ===== *)
(** * Chunk frames

    Models [src/lib/crowdb-protocol/src/frame.rs] with its modules
    [encoding.rs], [parsing.rs] and [revision.rs]: the self-validating frame a
    chunk is made of, written around a payload and verified on the way back,
    whether its bytes lie in one buffer or in several.

    Byte counts ([usize], [u64], [u16]) are [Z]; a range index [l[a..b]] is
    [sub l a b].  The checksum goes through [crc32c_update] of
    [src/lib/crowdb-common/rust/src/ec_isal.rs] to isa-l's [crc32_iscsi], the
    parameter [upd] with the two facts of [Crc32c]. *)

From stdpp Require Import prelude list.
From Stdlib Require Import ZArith Lia.
From S2P Require Import Prelude Roles Bytes WalRecord KeyEncoding.

Module Frame.
Import KeyEncoding.
Export WalRecord(Crc32c, crc_range, crc_app).

(** ** Sizes and ranges *)

Definition len {A} (l : list A) : Z := Z.of_nat (length l).

(** [&l[a..b]] *)
Definition sub {A} (l : list A) (a b : Z) : list A := take (Z.to_nat (b - a)) (drop (Z.to_nat a) l).

Definition checked_add (a b : Z) : option Z := if a + b <=? u64_max then Some (a + b) else None.

Definition checked_mul (a b : Z) : option Z := if a * b <=? u64_max then Some (a * b) else None.

Definition div_ceil (a b : Z) : Z := a / b + if a mod b =? 0 then 0 else 1.

Abbreviation FRAME_HEADER_PREFIX_BYTES := 14.
Abbreviation FRAME_FOOTER_BYTES := 20.
Abbreviation MAX_FRAME_BYTES := 65536.
Abbreviation FRAME_V2_HEADER_BYTES := 15.
Abbreviation FRAME_GROUP_HEADER_BYTES := 27.
Abbreviation MAX_FRAME_V2_PAYLOAD_BYTES := 65501.
Abbreviation MAX_FRAME_GROUP_PAYLOAD_BYTES := 65489.
Abbreviation I32_MAX := 2147483647.

(** ** Data *)

Inductive FrameMagic := RepoSmallV2 | RepoLargeV2 | StreamV2 | BtreePageV2 | PageIndexV2.

#[export] Instance FrameMagic_eq_dec : EqDecision FrameMagic.
Proof. solve_decision. Defined.

Definition magic_u16 (m : FrameMagic) : Z :=
  match m with
  | RepoSmallV2 => 0x0102
  | RepoLargeV2 => 0x0202
  | StreamV2 => 0x0302
  | BtreePageV2 => 0x0402
  | PageIndexV2 => 0x0502
  end.

Inductive FrameError :=
| Incomplete (required_bytes : Z)
| UnknownMagic (value : Z)
| PayloadTooLarge
| InvalidPayloadOffset (offset : Z)
| LengthOverflow
| FrameTooLarge
| InvalidRegionLength
| ChunkIdMismatch
| ChecksumMismatch
| InvalidLocationRange
| NonContiguousLocation
| InvalidRole
| InvalidGroup.

Definition magic_try_from (value : Z) : result FrameMagic FrameError :=
  if value =? 0x0102 then Ok RepoSmallV2
  else if value =? 0x0202 then Ok RepoLargeV2
  else if value =? 0x0302 then Ok StreamV2
  else if value =? 0x0402 then Ok BtreePageV2
  else if value =? 0x0502 then Ok PageIndexV2
  else Err (UnknownMagic value).

Record FrameHeaderPrefix := mkHeader {
  magic : FrameMagic;
  payload_offset : Z;
  payload_size : Z;
  write_time_ms : Z;
}.

Inductive FrameRole :=
| Ordinary
| Head (logical_length frame_count : Z)
| Follower (head_offset ordinal : Z).

#[export] Instance FrameRole_eq_dec : EqDecision FrameRole.
Proof. solve_decision. Defined.

#[export] Instance ChunkId_eq_dec : EqDecision ChunkId.
Proof. solve_decision. Defined.

Record ParsedFrame := mkParsed {
  header : FrameHeaderPrefix;
  role : FrameRole;
  payload : bytes;
  chunk_id : ChunkId;
  physical_length : Z;
}.

Record ParsedFrameViews := mkParsedViews {
  v_header : FrameHeaderPrefix;
  v_role : FrameRole;
  v_chunk_id : ChunkId;
  v_physical_length : Z;
}.

(** ** Parsing the header *)

Definition parse_header (data : bytes) : result FrameHeaderPrefix FrameError :=
  if len data <? FRAME_HEADER_PREFIX_BYTES then Err (Incomplete FRAME_HEADER_PREFIX_BYTES)
  else
    let? magic := magic_try_from (from_le_bytes (sub data 0 2)) in
    let payload_offset := from_le_bytes (sub data 2 4) in
    if payload_offset <? FRAME_HEADER_PREFIX_BYTES then Err (InvalidPayloadOffset payload_offset)
    else if negb ((payload_offset =? FRAME_V2_HEADER_BYTES) || (payload_offset =? FRAME_GROUP_HEADER_BYTES))
    then Err (InvalidPayloadOffset payload_offset)
    else Ok {| magic := magic; payload_offset := payload_offset;
               payload_size := from_le_bytes (sub data 4 6);
               write_time_ms := from_le_bytes (sub data 6 14) |}.

Definition frame_length (h : FrameHeaderPrefix) : result Z FrameError :=
  let? length := ok_or (s ← checked_add h.(payload_offset) h.(payload_size);
                        checked_add s FRAME_FOOTER_BYTES) LengthOverflow in
  if MAX_FRAME_BYTES <? length then Err FrameTooLarge else Ok length.

Definition parse_role (h : FrameHeaderPrefix) (data : bytes) : result FrameRole FrameError :=
  let size := h.(payload_offset) in
  if len data <? size then Err (Incomplete size)
  else
    let tag := default 0 (data !! 14%nat) in
    if (size =? FRAME_V2_HEADER_BYTES) && (tag =? 0) && negb (bool_decide (h.(magic) = StreamV2))
    then Ok Ordinary
    else if (size =? FRAME_GROUP_HEADER_BYTES) && ((tag =? 1) || (tag =? 2))
            && bool_decide (h.(magic) = StreamV2)
    then
      let value := from_le_bytes (sub data 15 23) in
      let count := from_le_bytes (sub data 23 27) in
      if (count =? 0) || ((tag =? 1) && (value =? 0)) then Err InvalidGroup
      else if tag =? 1 then Ok (Head value count) else Ok (Follower value count)
    else Err InvalidRole.

(** ** The codec *)

Section codec.
Context (upd : Z -> bytes -> Z).

(** The loop of [crc32c_update]: at most [cap] bytes per foreign call. *)
Fixpoint crc_loop (cap : Z) (fuel : nat) (crc : Z) (data : bytes) : Z :=
  match fuel, data with
  | O, _ | _, [] => crc
  | S fuel, _ =>
      let length := Z.min (len data) cap in
      crc_loop cap fuel (upd crc (sub data 0 length)) (drop (Z.to_nat length) data)
  end.

Definition crc32c_update (crc : Z) (data : bytes) : Z := crc_loop I32_MAX (length data) crc data.

Definition crc32c_parts (parts : list bytes) : Z := foldl crc32c_update 0 parts.

(** The first fifteen bytes of the region are assigned. *)
Definition write_header_region (region : bytes) (h : FrameHeaderPrefix) : bytes :=
  to_le_bytes 2 (magic_u16 h.(magic)) ++ to_le_bytes 2 h.(payload_offset)
    ++ to_le_bytes 2 h.(payload_size) ++ to_le_bytes 8 h.(write_time_ms) ++ [0] ++ drop 15 region.

Definition set_frame_chunk_id (id : ChunkId) (footer_region : bytes) : result bytes FrameError :=
  if negb (len footer_region =? FRAME_FOOTER_BYTES) then Err InvalidRegionLength
  else Ok (take 4 footer_region ++ to_be_bytes 8 id.(chunk_high) ++ to_be_bytes 8 id.(chunk_low)).

(** The two regions after the call; every error precedes the first write. *)
Definition prepare_frame_regions (m : FrameMagic) (payload : bytes) (write_time_ms : Z)
    (header_region footer_region : bytes) : result (bytes * bytes) FrameError :=
  if bool_decide (m = StreamV2) then Err InvalidRole
  else if negb (len header_region =? FRAME_V2_HEADER_BYTES) || negb (len footer_region =? FRAME_FOOTER_BYTES)
  then Err InvalidRegionLength
  else if 65535 <? len payload then Err PayloadTooLarge
  else
    let h := mkHeader m FRAME_V2_HEADER_BYTES (len payload) write_time_ms in
    let? _ := frame_length h in
    let header_region := write_header_region header_region h in
    let checksum := crc32c_parts [header_region; payload] in
    Ok (header_region, to_le_bytes 4 checksum ++ drop 4 footer_region).

Definition encode_frame_regions (m : FrameMagic) (id : ChunkId) (payload : bytes) (write_time_ms : Z)
    (header_region footer_region : bytes) : result (bytes * bytes) FrameError :=
  let? (header_region, footer_region) :=
    prepare_frame_regions m payload write_time_ms header_region footer_region in
  let? footer_region := set_frame_chunk_id id footer_region in
  Ok (header_region, footer_region).

Definition encode_frame (m : FrameMagic) (id : ChunkId) (payload : bytes) (write_time_ms : Z)
    : result bytes FrameError :=
  let? (header, footer) :=
    encode_frame_regions m id payload write_time_ms (replicate 15 0) (replicate 20 0) in
  Ok (header ++ payload ++ footer).

(** [try_fold] with [checked_add] over the lengths of the views. *)
Fixpoint views_total (total : Z) (views : list bytes) : result Z FrameError :=
  match views with
  | [] => Ok total
  | view :: views =>
      let? total := ok_or (checked_add total (len view)) LengthOverflow in views_total total views
  end.

Definition encode_frame_views (m : FrameMagic) (id : ChunkId) (payload : list bytes) (write_time_ms : Z)
    : result (list bytes) FrameError :=
  if bool_decide (m = StreamV2) then Err InvalidRole
  else
    let? length := views_total 0 payload in
    if 65535 <? length then Err PayloadTooLarge
    else
      let h := mkHeader m FRAME_V2_HEADER_BYTES length write_time_ms in
      let? _ := frame_length h in
      let header_region := write_header_region (replicate 15 0) h in
      let checksum := crc32c_parts (header_region :: payload) in
      let? footer_region := set_frame_chunk_id id (to_le_bytes 4 checksum ++ drop 4 (replicate 20 0)) in
      Ok ([header_region] ++ payload ++ [footer_region]).

(** [payload.chunks(n)] *)
Fixpoint chunks_fuel (fuel : nat) (n : Z) (l : bytes) : list bytes :=
  match fuel, l with
  | O, _ | _, [] => []
  | S fuel, _ => sub l 0 n :: chunks_fuel fuel n (drop (Z.to_nat n) l)
  end.

Definition chunks (n : Z) (l : bytes) : list bytes := chunks_fuel (length l) n l.

Fixpoint encode_parts (m : FrameMagic) (id : ChunkId) (write_time_ms : Z) (parts : list bytes)
    : result (list bytes) FrameError :=
  match parts with
  | [] => Ok []
  | part :: parts =>
      let? frame := encode_frame m id part write_time_ms in
      let? frames := encode_parts m id write_time_ms parts in
      Ok (frame :: frames)
  end.

Definition encode_frames (m : FrameMagic) (id : ChunkId) (payload : bytes) (write_time_ms : Z)
    : result (list bytes) FrameError :=
  encode_parts m id write_time_ms (chunks MAX_FRAME_V2_PAYLOAD_BYTES payload).

Definition parse_frame (data : bytes) (expected_chunk_id : ChunkId) : result ParsedFrame FrameError :=
  let? h := parse_header data in
  let? length := frame_length h in
  if len data <? length then Err (Incomplete length)
  else
    let footer_start := length - FRAME_FOOTER_BYTES in
    let checksum := from_le_bytes (sub data footer_start (footer_start + 4)) in
    let? r := parse_role h data in
    let crc := crc32c_parts [sub data 0 footer_start] in
    if negb (crc =? checksum) then Err ChecksumMismatch
    else
      let id := mkChunkId (from_be_bytes (sub data (footer_start + 4) (footer_start + 12)))
                          (from_be_bytes (sub data (footer_start + 12) length)) in
      if negb (bool_decide (id = expected_chunk_id)) then Err ChunkIdMismatch
      else
        let payload_start := h.(payload_offset) in
        let payload_end := payload_start + h.(payload_size) in
        Ok {| header := h; role := r; payload := sub data payload_start payload_end;
              chunk_id := id; physical_length := length |}.

(** ** Frames that span several buffers *)

(** The loop of [copy_view_range]; [copied] is the filled part of the target. *)
Fixpoint copy_views (views : list bytes) (start target cursor : Z) (copied : bytes)
    : result bytes FrameError :=
  match views with
  | [] => Err (Incomplete (sat_add64 start target))
  | view :: views =>
      let view_end := sat_add64 cursor (len view) in
      let copied :=
        if (start <? view_end) && (len copied <? target) then
          let from := sat_sub64 start cursor in
          let count := Z.min (len view - from) (target - len copied) in
          copied ++ sub view from (from + count)
        else copied in
      if len copied =? target then Ok copied else copy_views views start target view_end copied
  end.

Definition copy_view_range (views : list bytes) (start target : Z) : result bytes FrameError :=
  copy_views views start target 0 [].

(** The checksum loop of [parse_frame_views]. *)
Fixpoint crc_views (views : list bytes) (footer_start cursor crc : Z) : Z :=
  match views with
  | [] => crc
  | view :: views =>
      let included := Z.min (sat_sub64 footer_start cursor) (len view) in
      let crc := if 0 <? included then crc32c_update crc (sub view 0 included) else crc in
      let cursor := sat_add64 cursor (len view) in
      if footer_start <=? cursor then crc else crc_views views footer_start cursor crc
  end.

Definition parse_frame_views (views : list bytes) (expected_chunk_id : ChunkId)
    : result ParsedFrameViews FrameError :=
  let? header_bytes := copy_view_range views 0 FRAME_HEADER_PREFIX_BYTES in
  let? h := parse_header header_bytes in
  let? length := frame_length h in
  let available := foldl (fun total view => sat_add64 total (len view)) 0 views in
  if available <? length then Err (Incomplete length)
  else
    let footer_start := length - FRAME_FOOTER_BYTES in
    let? footer := copy_view_range views footer_start FRAME_FOOTER_BYTES in
    let expected_crc := from_le_bytes (sub footer 0 4) in
    let crc := crc_views views footer_start 0 0 in
    let? extension := copy_view_range views 0 h.(payload_offset) in
    let? r := parse_role h extension in
    if negb (crc =? expected_crc) then Err ChecksumMismatch
    else
      let id := mkChunkId (from_be_bytes (sub footer 4 12)) (from_be_bytes (sub footer 12 20)) in
      if negb (bool_decide (id = expected_chunk_id)) then Err ChunkIdMismatch
      else Ok {| v_header := h; v_role := r; v_chunk_id := id; v_physical_length := length |}.

End codec.

(** ** Lengths and ranges *)

Lemma len_nonneg {A} (l : list A) : 0 <= len l.
Proof. unfold len. lia. Qed.

Lemma len_app {A} (l k : list A) : len (l ++ k) = len l + len k.
Proof. unfold len. rewrite length_app. lia. Qed.

Lemma len_le n z : len (to_le_bytes n z) = Z.of_nat n.
Proof. unfold len. by rewrite to_le_bytes_length. Qed.

Lemma len_be n z : len (to_be_bytes n z) = Z.of_nat n.
Proof. unfold len. by rewrite to_be_bytes_length. Qed.

Lemma len_sub {A} (l : list A) a b : 0 <= a <= b -> b <= len l -> len (sub l a b) = b - a.
Proof. unfold len, sub. rewrite length_take, length_drop. lia. Qed.

Lemma sub_app_l {A} (l k : list A) a b : 0 <= a -> b <= len l -> sub (l ++ k) a b = sub l a b.
Proof.
  unfold len, sub. intros Ha Hb. destruct (decide (a <= len l)) as [H|H]; unfold len in H.
  - rewrite drop_app_le by lia. apply take_app_le. rewrite length_drop. lia.
  - replace (Z.to_nat (b - a)) with O by lia. by rewrite !take_0.
Qed.

Lemma sub_app_r {A} (l k : list A) a b : len l <= a -> sub (l ++ k) a b = sub k (a - len l) (b - len l).
Proof.
  unfold len, sub. intros Ha. rewrite drop_app_ge by lia.
  do 2 f_equal; lia.
Qed.

Lemma sub_all {A} (l : list A) b : b = len l -> sub l 0 b = l.
Proof. unfold len, sub. intros ->. rewrite drop_0, take_ge by lia. done. Qed.

Lemma sub_prefix {A} (l k : list A) b : b = len l -> sub (l ++ k) 0 b = l.
Proof. intros ->. rewrite sub_app_l by lia. by apply sub_all. Qed.

Lemma sub_join {A} (l : list A) a b c : 0 <= a <= b -> b <= c -> sub l a b ++ sub l b c = sub l a c.
Proof.
  intros Hab Hbc. unfold sub.
  replace (Z.to_nat b) with (Z.to_nat a + Z.to_nat (b - a))%nat by lia.
  rewrite <- drop_drop. generalize (drop (Z.to_nat a) l). intros k.
  rewrite take_take_drop. f_equal. lia.
Qed.

Lemma sub_sub {A} (l : list A) o c a b :
  0 <= o -> 0 <= a <= b -> b <= c - o -> sub (sub l o c) a b = sub l (o + a) (o + b).
Proof.
  intros Ho Ha Hb. unfold sub.
  replace (Z.to_nat (c - o)) with (Z.to_nat a + Z.to_nat (c - o - a))%nat by lia.
  rewrite <- take_drop_commute, drop_drop, take_take. f_equal; [lia|]. f_equal. lia.
Qed.

Lemma sub_Forall {A} (P : A -> Prop) l a b : Forall P l -> Forall P (sub l a b).
Proof. intros. by apply Forall_take, Forall_drop. Qed.

Lemma sub_lookup {A} (l : list A) a b i :
  0 <= a -> Z.of_nat i < b - a -> sub l a b !! i = l !! (Z.to_nat a + i)%nat.
Proof. intros Ha Hi. unfold sub. rewrite lookup_take_lt, lookup_drop by lia. done. Qed.

(** ** The checksum *)

Section checksum.
Context (upd : Z -> bytes -> Z) `{!Crc32c upd}.

Lemma crc_loop_spec cap fuel crc data :
  1 <= cap -> (length data <= fuel)%nat ->
  crc_loop upd cap fuel crc data = match data with [] => crc | _ => upd crc data end.
Proof.
  intros Hcap. revert crc data. induction fuel as [|fuel IH]; intros crc [|b data] Hl; try done.
  { cbn [length] in Hl. lia. }
  cbn [crc_loop]. assert (1 <= len (b :: data)) by (unfold len; cbn [length]; lia).
  set (n := Z.min (len (b :: data)) cap). rewrite IH by (rewrite length_drop; cbn [length] in *; lia).
  unfold sub. rewrite drop_0, Z.sub_0_r.
  destruct (drop (Z.to_nat n) (b :: data)) as [|c rest] eqn:E.
  - f_equal. apply take_ge. apply (f_equal length) in E. rewrite length_drop in E. cbn [length] in *. lia.
  - rewrite crc_app, <- E, take_drop. done.
Qed.

Lemma crc_update_spec crc data :
  crc32c_update upd crc data = match data with [] => crc | _ => upd crc data end.
Proof. apply crc_loop_spec; lia. Qed.

Lemma crc_update_app crc a b :
  crc32c_update upd (crc32c_update upd crc a) b = crc32c_update upd crc (a ++ b).
Proof.
  rewrite !crc_update_spec. destruct a as [|x a]; [done|]. destruct b as [|y b].
  - by rewrite app_nil_r.
  - cbn [app]. by rewrite crc_app.
Qed.

Lemma crc_parts_concat parts crc : foldl (crc32c_update upd) crc parts = crc32c_update upd crc (concat parts).
Proof.
  revert crc. induction parts as [|p parts IH]; intros crc; simpl; [by rewrite crc_update_spec|].
  by rewrite IH, crc_update_app.
Qed.

Lemma crc_update_range crc data : 0 <= crc < 2 ^ 32 -> 0 <= crc32c_update upd crc data < 2 ^ 32.
Proof. intros H. rewrite crc_update_spec. destruct data; [done|by apply crc_range]. Qed.

End checksum.

(** ** What a frame looks like *)

Definition header_bytes (h : FrameHeaderPrefix) : bytes :=
  to_le_bytes 2 (magic_u16 h.(magic)) ++ to_le_bytes 2 h.(payload_offset)
    ++ to_le_bytes 2 h.(payload_size) ++ to_le_bytes 8 h.(write_time_ms).

(** The bytes between the fixed prefix and the payload. *)
Definition role_bytes (r : FrameRole) : bytes :=
  match r with
  | Ordinary => [0]
  | Head value count => [1] ++ to_le_bytes 8 value ++ to_le_bytes 4 count
  | Follower value count => [2] ++ to_le_bytes 8 value ++ to_le_bytes 4 count
  end.

Definition frame_of (upd : Z -> bytes -> Z) (p : ParsedFrame) : bytes :=
  let body := header_bytes p.(header) ++ role_bytes p.(role) ++ p.(payload) in
  body ++ to_le_bytes 4 (crc32c_update upd 0 body)
    ++ to_be_bytes 8 p.(chunk_id).(chunk_high) ++ to_be_bytes 8 p.(chunk_id).(chunk_low).

Definition role_ok (m : FrameMagic) (r : FrameRole) : Prop :=
  match r with
  | Ordinary => m <> StreamV2
  | Head value count => m = StreamV2 /\ 0 < value < 2 ^ 64 /\ 0 < count < 2 ^ 32
  | Follower value count => m = StreamV2 /\ 0 <= value < 2 ^ 64 /\ 0 < count < 2 ^ 32
  end.

(** The frames that exist: fields in range, sizes that agree, at most 64 KiB. *)
Record frame_ok (p : ParsedFrame) : Prop := {
  ok_role : role_ok p.(header).(magic) p.(role);
  ok_offset : p.(header).(payload_offset) = 14 + len (role_bytes p.(role));
  ok_size : p.(header).(payload_size) = len p.(payload);
  ok_time : 0 <= p.(header).(write_time_ms) < 2 ^ 64;
  ok_id : 0 <= p.(chunk_id).(chunk_high) < 2 ^ 64 /\ 0 <= p.(chunk_id).(chunk_low) < 2 ^ 64;
  ok_bytes : Forall is_byte p.(payload);
  ok_length : p.(physical_length) = p.(header).(payload_offset) + p.(header).(payload_size) + 20;
  ok_max : p.(physical_length) <= MAX_FRAME_BYTES;
}.

Lemma len_header h : len (header_bytes h) = 14.
Proof. unfold header_bytes. rewrite !len_app, !len_le. done. Qed.

Lemma len_role r : len (role_bytes r) = match r with Ordinary => 1 | _ => 13 end.
Proof. destruct r; simpl; rewrite ?len_app, ?len_le; try done; unfold len; simpl; rewrite ?length_app, ?to_le_bytes_length; done. Qed.

Lemma len_frame upd p : frame_ok p -> len (frame_of upd p) = p.(physical_length).
Proof.
  intros H. unfold frame_of. rewrite !len_app, len_le, !len_be, len_header.
  rewrite (ok_length _ H), (ok_offset _ H), (ok_size _ H). lia.
Qed.

Lemma magic_round m : magic_try_from (magic_u16 m) = Ok m.
Proof. by destruct m. Qed.

Lemma magic_range m : 0 <= magic_u16 m < 2 ^ 16.
Proof. destruct m; simpl; lia. Qed.

Lemma magic_back v m : magic_try_from v = Ok m -> v = magic_u16 m.
Proof. unfold magic_try_from. intros H. repeat (zcase_step; [by simplify_eq/=|]). done. Qed.

(** ** A frame parses to itself *)

Lemma len_one {A} (x : A) : len [x] = 1.
Proof. done. Qed.

Ltac len_simp := rewrite ?len_app, ?len_le, ?len_be, ?len_header, ?len_one.

(** Evaluate the differences of literals. *)
Ltac sub_literals :=
  repeat match goal with
  | |- context [?x - ?n] =>
      let y := eval vm_compute in (x - n) in
      lazymatch y with Z0 => idtac | Zpos _ => idtac end;
      progress change (x - n) with y
  end.

(** Walk to the field at a constant range of a concatenation. *)
Ltac sub_field :=
  repeat match goal with
  | |- context [sub (?l ++ ?k) ?a ?b] =>
      first [ rewrite (sub_prefix l k b) by (len_simp; lia)
            | rewrite (sub_app_r l k a b) by (len_simp; lia); len_simp; sub_literals ]
  | |- context [sub ?l 0 ?b] => rewrite (sub_all l b) by (len_simp; lia)
  end.

Lemma from_le_u n z : 0 <= z < width n -> from_le_bytes (to_le_bytes n z) = z.
Proof. apply from_to_le. Qed.

Lemma width_2 : width 2 = 2 ^ 16. Proof. done. Qed.
Lemma width_4 : width 4 = 2 ^ 32. Proof. done. Qed.
Lemma width_8 : width 8 = 2 ^ 64. Proof. done. Qed.

Lemma parse_header_of h rest :
  h.(payload_offset) = FRAME_V2_HEADER_BYTES \/ h.(payload_offset) = FRAME_GROUP_HEADER_BYTES ->
  0 <= h.(payload_size) < 2 ^ 16 -> 0 <= h.(write_time_ms) < 2 ^ 64 ->
  parse_header (header_bytes h ++ rest) = Ok h.
Proof.
  intros Ho Hz Ht. destruct h as [m o z t]. cbn [payload_offset payload_size write_time_ms] in *.
  unfold parse_header. rewrite len_app, len_header. pose proof (len_nonneg rest).
  destruct (Z.ltb_spec (14 + len rest) 14); [lia|].
  unfold header_bytes. cbn [magic payload_offset payload_size write_time_ms]. rewrite <- !app_assoc.
  sub_field. pose proof (magic_range m).
  rewrite !from_le_u by (rewrite ?width_2, ?width_8; lia). rewrite magic_round. cbn [result_bind].
  destruct (Z.ltb_spec o 14); [lia|]. destruct Ho as [->| ->]; done.
Qed.

Lemma frame_length_of h L :
  0 <= h.(payload_offset) -> 0 <= h.(payload_size) ->
  L = h.(payload_offset) + h.(payload_size) + 20 -> L <= MAX_FRAME_BYTES -> frame_length h = Ok L.
Proof.
  intros ?? -> ?. unfold frame_length, checked_add, u64_max.
  destruct (Z.leb_spec (payload_offset h + payload_size h) (2 ^ 64 - 1)); [|lia]. simpl.
  destruct (Z.leb_spec (payload_offset h + payload_size h + 20) (2 ^ 64 - 1)); [|lia]. simpl.
  zcase_step; [lia|done].
Qed.

Lemma parse_role_prefix h data rest :
  h.(payload_offset) = FRAME_V2_HEADER_BYTES \/ h.(payload_offset) = FRAME_GROUP_HEADER_BYTES ->
  h.(payload_offset) <= len data -> parse_role h (data ++ rest) = parse_role h data.
Proof.
  intros Ho Hl. unfold parse_role. rewrite len_app. pose proof (len_nonneg rest).
  destruct (Z.ltb_spec (len data + len rest) (payload_offset h)); [lia|].
  destruct (Z.ltb_spec (len data) (payload_offset h)); [lia|].
  rewrite lookup_app_l by (unfold len in *; destruct Ho; lia).
  destruct Ho as [->|Ho]; [done|]. rewrite Ho in *. by rewrite !sub_app_l by lia.
Qed.

Lemma parse_role_of h r rest :
  role_ok h.(magic) r -> h.(payload_offset) = 14 + len (role_bytes r) ->
  parse_role h (header_bytes h ++ role_bytes r ++ rest) = Ok r.
Proof.
  intros Hr Ho. rewrite len_role in Ho.
  rewrite app_assoc, parse_role_prefix; [|destruct r; rewrite Ho; auto|].
  2: { rewrite len_app, len_header, len_role. destruct r; lia. }
  unfold parse_role. rewrite len_app, len_header, len_role, Ho.
  zcase_step; [destruct r; lia|].
  rewrite lookup_app_r by (pose proof (len_header h); unfold len in *; lia).
  replace (14 - length (header_bytes h))%nat with O by (pose proof (len_header h); unfold len in *; lia).
  destruct r as [|v n|v n]; simpl in Hr; unfold role_bytes; [by rewrite (bool_decide_eq_false_2 _ Hr)|..];
    destruct Hr as (Hm & Hv & Hn); rewrite (bool_decide_eq_true_2 _ Hm); sub_field;
    rewrite !from_le_u by (rewrite ?width_4, ?width_8; lia);
    simpl; by repeat (zcase_step; [lia|]).
Qed.

Section exact.
Context (upd : Z -> bytes -> Z) `{!Crc32c upd}.

Definition body_of (p : ParsedFrame) : bytes := header_bytes p.(header) ++ role_bytes p.(role) ++ p.(payload).

Lemma len_body p : frame_ok p -> len (body_of p) = p.(physical_length) - 20.
Proof.
  intros H. unfold body_of. rewrite !len_app, len_header, (ok_length _ H), (ok_offset _ H), (ok_size _ H). lia.
Qed.

Lemma ok_offsets p : frame_ok p ->
  p.(header).(payload_offset) = FRAME_V2_HEADER_BYTES \/ p.(header).(payload_offset) = FRAME_GROUP_HEADER_BYTES.
Proof. intros H. rewrite (ok_offset _ H), len_role. destruct (role p); auto. Qed.

Lemma crc_value data : 0 <= crc32c_update upd 0 data < 2 ^ 32.
Proof. apply crc_update_range; [done|lia]. Qed.

Lemma parse_header_frame p rest : frame_ok p -> parse_header (body_of p ++ rest) = Ok p.(header).
Proof.
  intros H. unfold body_of. rewrite <- app_assoc. pose proof (len_nonneg (payload p)).
  pose proof (ok_offsets _ H). pose proof (ok_length _ H). pose proof (ok_max _ H). pose proof (ok_size _ H).
  apply parse_header_of; [done| |apply (ok_time _ H)]. lia.
Qed.

Lemma frame_length_frame p : frame_ok p -> frame_length p.(header) = Ok p.(physical_length).
Proof.
  intros H. pose proof (ok_offsets _ H). pose proof (len_nonneg (payload p)). pose proof (ok_size _ H).
  apply frame_length_of; [lia|lia|apply (ok_length _ H)|apply (ok_max _ H)].
Qed.

Lemma parse_frame_of p rest id :
  frame_ok p ->
  parse_frame upd (frame_of upd p ++ rest) id =
    if bool_decide (p.(chunk_id) = id) then Ok p else Err ChunkIdMismatch.
Proof.
  intros H. unfold parse_frame.
  assert (frame_of upd p = body_of p ++ to_le_bytes 4 (crc32c_update upd 0 (body_of p))
    ++ to_be_bytes 8 (chunk_high (chunk_id p)) ++ to_be_bytes 8 (chunk_low (chunk_id p))) as Ef by done.
  pose proof (len_frame upd p H) as HL. pose proof (len_body p H) as HB.
  rewrite Ef in *. rewrite <- !app_assoc in *.
  rewrite parse_header_frame by done. cbn [result_bind]. rewrite frame_length_frame by done. cbn [result_bind].
  rewrite app_assoc, len_app in HL. pose proof (len_nonneg rest).
  destruct (Z.ltb_spec (len (body_of p ++ to_le_bytes 4 (crc32c_update upd 0 (body_of p)) ++
    to_be_bytes 8 (chunk_high (chunk_id p)) ++ to_be_bytes 8 (chunk_low (chunk_id p)) ++ rest))
    (physical_length p)) as [Hlt|_].
  { rewrite !len_app, len_le, !len_be in *. lia. }
  rewrite (sub_prefix (body_of p)) by lia.
  rewrite !(sub_app_r (body_of p)) by lia. rewrite HB.
  replace (physical_length p - 20 - (physical_length p - 20)) with 0 by lia.
  replace (physical_length p - 20 + 4 - (physical_length p - 20)) with 4 by lia.
  replace (physical_length p - 20 + 12 - (physical_length p - 20)) with 12 by lia.
  replace (physical_length p - (physical_length p - 20)) with 20 by lia.
  sub_field. destruct (ok_id _ H) as [Hh Hlow].
  rewrite from_le_u by (rewrite width_4; apply crc_value). rewrite !from_to_be by (rewrite width_8; done).
  unfold body_of at 1. rewrite <- !app_assoc, parse_role_of by apply H. cbn [result_bind].
  unfold crc32c_parts. cbn [foldl]. rewrite Z.eqb_refl. cbn [negb].
  replace (mkChunkId (chunk_high (chunk_id p)) (chunk_low (chunk_id p))) with (chunk_id p) by by destruct (chunk_id p).
  case_bool_decide; [|done]. cbn [negb]. f_equal.
  pose proof (ok_offset _ H) as Ho. pose proof (ok_size _ H) as Hz. destruct p as [h r pl i L].
  cbn [Frame.header Frame.role Frame.payload Frame.chunk_id Frame.physical_length] in *. f_equal.
  unfold body_of. cbn [Frame.header Frame.role Frame.payload]. rewrite <- !app_assoc, app_assoc.
  rewrite sub_app_r; rewrite len_app, len_header, Ho; [|lia]. rewrite Hz.
  replace (14 + len (role_bytes r) - (14 + len (role_bytes r))) with 0 by lia.
  apply sub_prefix. lia.
Qed.

(** ** What parses is a frame *)

Lemma to_le_from_sub data a b n :
  Forall is_byte data -> 0 <= a -> b <= len data -> b - a = Z.of_nat n ->
  to_le_bytes n (from_le_bytes (sub data a b)) = sub data a b /\ 0 <= from_le_bytes (sub data a b) < width n.
Proof.
  intros Hb Ha Hl Hn.
  assert (length (sub data a b) = n) as <- by (pose proof (len_sub data a b); unfold len in *; lia).
  assert (Forall is_byte (sub data a b)) by (by apply sub_Forall).
  split; [by apply to_from_le|by apply from_le_bound].
Qed.

Lemma to_be_from_sub data a b n :
  Forall is_byte data -> 0 <= a -> b <= len data -> b - a = Z.of_nat n ->
  to_be_bytes n (from_be_bytes (sub data a b)) = sub data a b /\ 0 <= from_be_bytes (sub data a b) < width n.
Proof.
  intros Hb Ha Hl Hn.
  assert (length (reverse (sub data a b)) = n) as <-
    by (rewrite length_reverse; pose proof (len_sub data a b); unfold len in *; lia).
  assert (Forall is_byte (reverse (sub data a b))) by (by apply Forall_reverse, sub_Forall).
  unfold to_be_bytes, from_be_bytes. split; [|by apply from_le_bound].
  rewrite to_from_le by done. apply reverse_involutive.
Qed.

Lemma parse_header_sound data h :
  Forall is_byte data -> parse_header data = Ok h ->
  FRAME_HEADER_PREFIX_BYTES <= len data /\ sub data 0 14 = header_bytes h /\
  (h.(payload_offset) = FRAME_V2_HEADER_BYTES \/ h.(payload_offset) = FRAME_GROUP_HEADER_BYTES) /\
  0 <= h.(payload_size) < 2 ^ 16 /\ 0 <= h.(write_time_ms) < 2 ^ 64.
Proof.
  intros Hb. unfold parse_header. zcase_step; [done|].
  destruct (magic_try_from _) as [m|] eqn:Em; [|done]. cbn [result_bind]. apply magic_back in Em.
  zcase_step; [done|]. destruct (_ || _) eqn:Eo; [|done]. cbn [negb]. intros [= <-].
  destruct (to_le_from_sub data 0 2 2) as [E0 _]; [done|lia..|].
  destruct (to_le_from_sub data 2 4 2) as [E2 _]; [done|lia..|].
  destruct (to_le_from_sub data 4 6 2) as [E4 R4]; [done|lia..|].
  destruct (to_le_from_sub data 6 14 8) as [E6 R6]; [done|lia..|]. rewrite width_2 in R4. rewrite width_8 in R6.
  split; [lia|]. split; [|split; [cbn [payload_offset]; lia|done]].
  unfold header_bytes. cbn [magic payload_offset payload_size write_time_ms].
  rewrite <- Em, E0, E2, E4, E6. by rewrite !sub_join by lia.
Qed.

Lemma sub_one (data : bytes) a : 0 <= a < len data -> sub data a (a + 1) = [default 0 (data !! Z.to_nat a)].
Proof.
  intros H. unfold sub. replace (Z.to_nat (a + 1 - a)) with 1%nat by lia.
  destruct (lookup_lt_is_Some_2 data (Z.to_nat a)) as [x Hx]; [unfold len in *; lia|].
  rewrite Hx. simpl. by rewrite (drop_S _ _ _ Hx).
Qed.

Lemma parse_role_sound data h r :
  Forall is_byte data ->
  (h.(payload_offset) = FRAME_V2_HEADER_BYTES \/ h.(payload_offset) = FRAME_GROUP_HEADER_BYTES) ->
  parse_role h data = Ok r ->
  role_ok h.(magic) r /\ h.(payload_offset) = 14 + len (role_bytes r) /\
  h.(payload_offset) <= len data /\ sub data 14 h.(payload_offset) = role_bytes r.
Proof.
  intros Hb Ho. unfold parse_role. zcase_step; [done|]. rewrite len_role.
  pose proof (sub_one data 14) as H1. change (Z.to_nat 14) with 14%nat in H1. change (14 + 1) with 15 in H1.
  set (tag := default 0 (data !! 14%nat)) in *.
  destruct (_ && _ && _) eqn:E1.
  { intros [= <-]. apply andb_prop in E1 as [[E1 E2]%andb_prop E3]. apply negb_true_iff, bool_decide_eq_false in E3.
    apply Z.eqb_eq in E1, E2. rewrite E1 in *.
    split; [exact E3|]. split; [done|]. split; [lia|]. by rewrite H1, E2 by lia. }
  clear E1. destruct (_ && _ && _) eqn:E2; [|done]. apply andb_prop in E2 as [[E2 E3]%andb_prop E4].
  apply bool_decide_eq_true in E4. apply Z.eqb_eq in E2. rewrite E2 in *.
  destruct (to_le_from_sub data 15 23 8) as [F1 R1]; [done|lia..|].
  destruct (to_le_from_sub data 23 27 4) as [F2 R2]; [done|lia..|]. rewrite width_8 in R1. rewrite width_4 in R2.
  assert (sub data 14 27 = [tag] ++ sub data 15 23 ++ sub data 23 27) as Hsub
    by (rewrite <- H1 by lia; by rewrite !sub_join by lia).
  destruct ((from_le_bytes (sub data 23 27) =? 0) || _) eqn:E5; [done|]. apply orb_false_iff in E5 as [E5 E6]. apply Z.eqb_neq in E5.
  destruct (Z.eqb_spec tag 1) as [Et|Et]; intros [= <-]; unfold role_ok, role_bytes.
  - rewrite Et in *. cbn [andb] in E6. apply Z.eqb_neq in E6. split_and!; try done; try lia. by rewrite Hsub, F1, F2.
  - assert (tag = 2) as Et2 by lia. rewrite Et2 in *. split_and!; try done; try lia. by rewrite Hsub, F1, F2.
Qed.

Lemma frame_length_sound h L : frame_length h = Ok L ->
  L = h.(payload_offset) + h.(payload_size) + 20 /\ L <= MAX_FRAME_BYTES.
Proof.
  unfold frame_length, checked_add. zcase_step; [|done]. simpl. zcase_step; [|done]. simpl.
  zcase_step; [done|]. intros [= <-]. lia.
Qed.

Lemma parse_frame_sound data id p :
  Forall is_byte data -> parse_frame upd data id = Ok p ->
  frame_ok p /\ p.(chunk_id) = id /\ exists rest, data = frame_of upd p ++ rest.
Proof.
  intros Hb. unfold parse_frame. destruct (parse_header data) as [h|] eqn:Eh; [|done]. cbn [result_bind].
  destruct (frame_length h) as [L|] eqn:El; [|done]. cbn [result_bind]. zcase_step; [done|].
  destruct (parse_role h data) as [r|] eqn:Er; [|done]. cbn [result_bind]. zcase_step; [|done]. cbn [negb].
  case_bool_decide as Hid; [|done]. cbn [negb]. intros [= <-].
  apply parse_header_sound in Eh as (Hl & Hh & Ho & Hz & Ht); [|done].
  apply frame_length_sound in El as [EL Hmax].
  apply parse_role_sound in Er as (Hr & Ho' & Hol & Hrb); [|done..].
  destruct (to_le_from_sub data (L - 20) (L - 20 + 4) 4) as [F1 _]; [done|lia..|].
  destruct (to_be_from_sub data (L - 20 + 4) (L - 20 + 12) 8) as [F2 R2]; [done|lia..|].
  destruct (to_be_from_sub data (L - 20 + 12) L 8) as [F3 R3]; [done|lia..|]. rewrite width_8 in R2, R3.
  assert (len (sub data (payload_offset h) (payload_offset h + payload_size h)) = payload_size h) as Hlp
    by (rewrite len_sub; lia).
  split; [split; cbn; try done; try lia; by apply sub_Forall|]. split; [done|].
  exists (drop (Z.to_nat L) data). unfold frame_of. cbn [Frame.header Frame.role Frame.payload Frame.chunk_id chunk_high chunk_low].
  rewrite <- Hh, <- Hrb, !sub_join by lia.
  replace (payload_offset h + payload_size h) with (L - 20) by lia.
  unfold crc32c_parts in *. cbn [foldl] in *.
  match goal with H : crc32c_update _ _ _ = _ |- _ => rewrite H end.
  rewrite F1, F2, F3, !sub_join by lia. unfold sub. rewrite drop_0, Z.sub_0_r. by rewrite take_drop.
Qed.

(** ** Encoding *)

Definition ordinary_frame (m : FrameMagic) (id : ChunkId) (payload : bytes) (t : Z) : ParsedFrame :=
  {| header := mkHeader m FRAME_V2_HEADER_BYTES (len payload) t; role := Ordinary; payload := payload;
     chunk_id := id; physical_length := 15 + len payload + 20 |}.

Definition id_ok (id : ChunkId) : Prop := 0 <= id.(chunk_high) < 2 ^ 64 /\ 0 <= id.(chunk_low) < 2 ^ 64.

Lemma ordinary_frame_ok m id payload t :
  m <> StreamV2 -> id_ok id -> Forall is_byte payload -> 0 <= t < 2 ^ 64 ->
  len payload <= MAX_FRAME_V2_PAYLOAD_BYTES -> frame_ok (ordinary_frame m id payload t).
Proof. intros. split; cbn; try done. lia. Qed.

(** The outcome of encoding an ordinary frame, by payload size. *)
Definition encode_outcome (m : FrameMagic) (id : ChunkId) (payload : bytes) (t : Z) : result bytes FrameError :=
  if bool_decide (m = StreamV2) then Err InvalidRole
  else if 65535 <? len payload then Err PayloadTooLarge
  else if MAX_FRAME_V2_PAYLOAD_BYTES <? len payload then Err FrameTooLarge
  else Ok (frame_of upd (ordinary_frame m id payload t)).

Lemma frame_length_ordinary m n t :
  0 <= n <= 65535 ->
  frame_length (mkHeader m 15 n t) = if MAX_FRAME_V2_PAYLOAD_BYTES <? n then Err FrameTooLarge else Ok (15 + n + 20).
Proof.
  intros Hn. destruct (Z.ltb_spec MAX_FRAME_V2_PAYLOAD_BYTES n).
  - unfold frame_length, checked_add, u64_max. cbn [payload_offset payload_size].
    destruct (Z.leb_spec (15 + n) (2 ^ 64 - 1)); [|lia]. cbn [mbind option_bind].
    destruct (Z.leb_spec (15 + n + 20) (2 ^ 64 - 1)); [|lia]. cbn [ok_or result_bind].
    destruct (Z.ltb_spec 65536 (15 + n + 20)); [done|lia].
  - apply frame_length_of; cbn [payload_offset payload_size]; lia.
Qed.

Lemma write_header_region_bytes h : write_header_region (replicate 15 0) h = header_bytes h ++ [0].
Proof. unfold write_header_region, header_bytes. rewrite <- !app_assoc. done. Qed.

Lemma set_chunk_id_crc id crc :
  set_frame_chunk_id id (to_le_bytes 4 crc ++ drop 4 (replicate 20 0)) =
  Ok (to_le_bytes 4 crc ++ to_be_bytes 8 id.(chunk_high) ++ to_be_bytes 8 id.(chunk_low)).
Proof.
  unfold set_frame_chunk_id. rewrite len_app, len_le. cbn [negb].
  change (Z.of_nat 4 + len (drop 4 (replicate 20 0))) with 20. cbn [Z.eqb Pos.eqb negb].
  by rewrite take_app_length' by (by rewrite to_le_bytes_length).
Qed.

Lemma encode_frame_exact m id payload t : encode_frame upd m id payload t = encode_outcome m id payload t.
Proof.
  unfold encode_frame, encode_frame_regions, prepare_frame_regions, encode_outcome.
  case_bool_decide; [done|]. cbn [orb negb].
  change (len (replicate 15 0)) with 15. change (len (replicate 20 0)) with 20. cbn [Z.eqb Pos.eqb negb orb].
  destruct (Z.ltb_spec 65535 (len payload)); [done|]. pose proof (len_nonneg payload).
  rewrite frame_length_ordinary by lia. zcase_step; [done|]. cbn [result_bind].
  rewrite set_chunk_id_crc, write_header_region_bytes. cbn [result_bind]. f_equal.
  unfold crc32c_parts. cbn [foldl]. rewrite crc_update_app by done.
  unfold frame_of, ordinary_frame. cbn [Frame.header Frame.role Frame.payload Frame.chunk_id role_bytes].
  by rewrite <- !app_assoc.
Qed.

Lemma views_total_spec total views :
  0 <= total -> total + len (concat views) <= u64_max ->
  views_total total views = Ok (total + len (concat views)).
Proof.
  revert total. induction views as [|v views IH]; intros total Ht Hl; simpl.
  { f_equal. change (len (@nil Z)) with 0. lia. }
  simpl in Hl. rewrite len_app in Hl. pose proof (len_nonneg v). pose proof (len_nonneg (concat views)).
  unfold checked_add. zcase_step; [|lia]. cbn [ok_or result_bind]. rewrite IH by lia. rewrite len_app. f_equal. lia.
Qed.

(** Encoding views is encoding their concatenation. *)
Lemma encode_frame_views_exact m id views t :
  len (concat views) <= u64_max ->
  match encode_frame_views upd m id views t with
  | Ok out => encode_frame upd m id (concat views) t = Ok (concat out)
  | Err e => encode_frame upd m id (concat views) t = Err e
  end.
Proof.
  intros Hl. rewrite encode_frame_exact. unfold encode_frame_views, encode_outcome.
  case_bool_decide; [done|]. rewrite views_total_spec by lia. cbn [result_bind]. rewrite Z.add_0_l.
  destruct (Z.ltb_spec 65535 (len (concat views))); [done|]. pose proof (len_nonneg (concat views)).
  rewrite frame_length_ordinary by lia. zcase_step; [done|]. cbn [result_bind].
  rewrite set_chunk_id_crc. cbn [result_bind]. rewrite write_header_region_bytes. f_equal.
  unfold crc32c_parts. rewrite crc_parts_concat by done. rewrite !concat_app.
  unfold frame_of, ordinary_frame. cbn [Frame.header Frame.role Frame.payload Frame.chunk_id role_bytes concat].
  by rewrite !app_nil_r, <- !app_assoc.
Qed.

(** ** Frames over several buffers *)

Lemma copy_views_spec views start target pre copied :
  0 <= start -> 0 < target -> start + target <= u64_max ->
  len pre + len (concat views) <= u64_max ->
  copied = take (Z.to_nat target) (drop (Z.to_nat start) pre) -> len copied < target ->
  copy_views views start target (len pre) copied =
    let all := pre ++ concat views in
    if start + target <=? len all then Ok (sub all start (start + target))
    else Err (Incomplete (start + target)).
Proof.
  intros Hs Ht Hm. revert pre copied.
  induction views as [|v views IH]; intros pre copied Hl Hc Hlt; cbn [copy_views concat] in *.
  { rewrite app_nil_r. cbv zeta. destruct (Z.leb_spec (start + target) (len pre)).
    - exfalso. subst copied. revert Hlt. unfold len in *. rewrite length_take, length_drop. lia.
    - unfold sat_add64. rewrite Z.min_l by lia. done. }
  rewrite len_app in Hl. pose proof (len_nonneg v). pose proof (len_nonneg (concat views)).
  assert (sat_add64 (len pre) (len v) = len (pre ++ v)) as -> by (unfold sat_add64; rewrite len_app; lia).
  match goal with |- (if len ?x =? _ then _ else _) = _ => set (copied' := x) end.
  assert (copied' = take (Z.to_nat target) (drop (Z.to_nat start) (pre ++ v))) as Hc'.
  { unfold copied', sat_sub64. rewrite len_app. subst copied.
    destruct (decide (start <= len pre)) as [Hsp|Hsp].
    - rewrite drop_app_le by (unfold len in *; lia).
      assert (take (Z.to_nat target) (drop (Z.to_nat start) pre) = drop (Z.to_nat start) pre) as Ed.
      { apply take_ge. revert Hlt. unfold len in *. rewrite length_take, length_drop. lia. }
      rewrite Ed in *. rewrite take_app_ge by (unfold len in *; lia).
      destruct (Z.ltb_spec start (len pre + len v)).
      + destruct (Z.ltb_spec (len (drop (Z.to_nat start) pre)) target); [|lia]. cbn [andb]. f_equal.
        rewrite Z.max_r by lia. unfold sub. rewrite drop_0.
        destruct (decide (len v <= target - len (drop (Z.to_nat start) pre))).
        * rewrite Z.min_l by lia. rewrite !take_ge by (unfold len in *; lia). done.
        * rewrite Z.min_r by lia. f_equal. unfold len in *. lia.
      + cbn [andb]. assert (v = []) as -> by (destruct v; [done|unfold len in *; cbn [length] in *; lia]).
        by rewrite take_nil, app_nil_r.
    - rewrite (drop_ge pre), take_nil by (unfold len in *; lia). rewrite drop_app_ge by (unfold len in *; lia).
      change (len (@nil Z)) with 0. destruct (Z.ltb_spec start (len pre + len v)).
      + destruct (Z.ltb_spec 0 target); [|lia]. cbn [andb app]. rewrite Z.max_l by lia. unfold sub.
        replace (Z.to_nat (start - len pre)) with (Z.to_nat start - length pre)%nat by (unfold len; lia).
        destruct (decide (len v - (start - len pre) <= target)).
        * rewrite Z.min_l by lia. rewrite !take_ge; [done|rewrite length_drop; unfold len in *; lia..].
        * rewrite Z.min_r by lia. f_equal. lia.
      + cbn [andb]. rewrite drop_ge by (unfold len in *; lia). by rewrite take_nil. }
  clearbody copied'. rewrite app_assoc.
  destruct (Z.eqb_spec (len copied') target) as [He|He].
  - assert (start + target <= len (pre ++ v)) as Hle.
    { subst copied'. revert He. unfold len in *. rewrite length_take, length_drop. lia. }
    cbv zeta. rewrite len_app. destruct (Z.leb_spec (start + target) (len (pre ++ v) + len (concat views))); [|lia].
    f_equal. rewrite sub_app_l by lia. rewrite Hc'. unfold sub. f_equal. lia.
  - apply IH; [rewrite len_app; lia|done|]. subst copied'. revert He. unfold len. rewrite length_take. lia.
Qed.

Lemma copy_view_range_spec views start target :
  0 <= start -> 0 < target -> start + target <= u64_max -> len (concat views) <= u64_max ->
  copy_view_range views start target =
    if start + target <=? len (concat views) then Ok (sub (concat views) start (start + target))
    else Err (Incomplete (start + target)).
Proof.
  intros. apply (copy_views_spec views start target []); try done.
  by rewrite drop_nil, take_nil.
Qed.

Lemma crc_views_spec views F pre :
  0 < F -> len pre < F -> len pre + len (concat views) <= u64_max ->
  crc_views upd views F (len pre) (crc32c_update upd 0 pre) =
  crc32c_update upd 0 (take (Z.to_nat F) (pre ++ concat views)).
Proof.
  intros HF. revert pre. induction views as [|v views IH]; intros pre Hp Hl; cbn [crc_views concat] in *.
  { rewrite app_nil_r, take_ge by (unfold len in *; lia). done. }
  rewrite len_app in Hl. pose proof (len_nonneg v). pose proof (len_nonneg (concat views)).
  assert (sat_add64 (len pre) (len v) = len (pre ++ v)) as -> by (unfold sat_add64; rewrite len_app; lia).
  unfold sat_sub64. rewrite Z.max_l by lia. rewrite app_assoc.
  set (n := Z.min (F - len pre) (len v)).
  assert ((if 0 <? n then crc32c_update upd (crc32c_update upd 0 pre) (sub v 0 n) else crc32c_update upd 0 pre) =
    crc32c_update upd 0 (take (Z.to_nat F) (pre ++ v))) as ->.
  { rewrite take_app_ge by (unfold len in *; lia). rewrite <- crc_update_app by done.
    unfold sub. rewrite drop_0, Z.sub_0_r. destruct (Z.ltb_spec 0 n) as [Hn|Hn].
    - f_equal. destruct (decide (len v <= F - len pre)); unfold n.
      + rewrite Z.min_r by lia. rewrite !take_ge by (unfold len in *; lia). done.
      + rewrite Z.min_l by lia. f_equal. unfold len. lia.
    - assert (v = []) as -> by (destruct v; [done|unfold n, len in *; cbn [length] in *; lia]).
      by rewrite take_nil, (crc_update_spec upd _ []). }
  destruct (Z.leb_spec F (len (pre ++ v))).
  - rewrite (take_app_le (pre ++ v)) by (unfold len in *; lia). done.
  - rewrite take_ge by (unfold len in *; lia). apply IH; rewrite ?len_app in *; lia.
Qed.

Definition view_of (p : ParsedFrame) : ParsedFrameViews :=
  {| v_header := p.(header); v_role := p.(role); v_chunk_id := p.(chunk_id);
     v_physical_length := p.(physical_length) |}.

Lemma parse_header_prefix a b : FRAME_HEADER_PREFIX_BYTES <= len a -> parse_header (a ++ b) = parse_header a.
Proof.
  intros Ha. unfold parse_header. rewrite len_app. pose proof (len_nonneg b).
  destruct (Z.ltb_spec (len a + len b) 14); [lia|]. destruct (Z.ltb_spec (len a) 14); [lia|].
  by rewrite !sub_app_l by lia.
Qed.

Lemma parse_header_offset data h : parse_header data = Ok h ->
  h.(payload_offset) = FRAME_V2_HEADER_BYTES \/ h.(payload_offset) = FRAME_GROUP_HEADER_BYTES.
Proof.
  unfold parse_header. zcase_step; [done|]. destruct (magic_try_from _); [|done]. cbn [result_bind].
  zcase_step; [done|]. destruct (_ || _) eqn:Eo; [|done]. cbn [negb]. intros [= <-]. cbn [payload_offset]. lia.
Qed.

Lemma available_spec (views : list bytes) total :
  0 <= total -> total + len (concat views) <= u64_max ->
  foldl (fun total view => sat_add64 total (len view)) total views = total + len (concat views).
Proof.
  revert total. induction views as [|v views IH]; intros total Ht Hl; cbn [foldl concat] in *.
  { change (len (@nil Z)) with 0. lia. }
  rewrite len_app in *. pose proof (len_nonneg v). pose proof (len_nonneg (concat views)).
  unfold sat_add64 in *. rewrite Z.min_l by lia. rewrite IH by lia. lia.
Qed.

Lemma parse_views_exact views id :
  len (concat views) <= u64_max -> Forall is_byte (concat views) ->
  parse_frame_views upd views id = (let? p := parse_frame upd (concat views) id in Ok (view_of p)).
Proof.
  intros Hl Hb. unfold parse_frame_views, parse_frame. set (all := concat views) in *.
  assert (14 <= u64_max) by (unfold u64_max; lia).
  rewrite copy_view_range_spec by (fold all; lia). fold all. rewrite Z.add_0_l.
  destruct (Z.leb_spec 14 (len all)) as [H14|H14].
  2: { cbn [result_bind]. unfold parse_header. destruct (Z.ltb_spec (len all) 14); [done|lia]. }
  cbn [result_bind].
  assert (parse_header (sub all 0 14) = parse_header all) as ->.
  { transitivity (parse_header (sub all 0 14 ++ sub all 14 (len all))).
    - symmetry. apply parse_header_prefix. rewrite len_sub; lia.
    - by rewrite sub_join, sub_all by lia. }
  destruct (parse_header all) as [h|e] eqn:Eh; [|done]. cbn [result_bind].
  destruct (frame_length h) as [L|e] eqn:El; [|done]. cbn [result_bind].
  pose proof (parse_header_offset _ _ Eh) as Ho. apply parse_header_sound in Eh as (_ & _ & _ & Hz & _); [|done].
  apply frame_length_sound in El as [EL Hmax].
  rewrite available_spec by (fold all; lia). fold all. rewrite Z.add_0_l. zcase_step; [done|].
  rewrite copy_view_range_spec by (fold all; lia). fold all. replace (L - 20 + 20) with L by lia.
  destruct (Z.leb_spec L (len all)); [|lia]. cbn [result_bind].
  rewrite copy_view_range_spec by (fold all; lia). fold all. rewrite Z.add_0_l.
  destruct (Z.leb_spec (payload_offset h) (len all)); [|lia]. cbn [result_bind].
  assert (parse_role h (sub all 0 (payload_offset h)) = parse_role h all) as ->.
  { transitivity (parse_role h (sub all 0 (payload_offset h) ++ sub all (payload_offset h) (len all))).
    - symmetry. apply parse_role_prefix; [done|]. rewrite len_sub; lia.
    - by rewrite sub_join, sub_all by lia. }
  destruct (parse_role h all) as [r|e]; [|done]. cbn [result_bind].
  assert (crc_views upd views (L - 20) 0 0 = crc32c_parts upd [sub all 0 (L - 20)]) as ->.
  { transitivity (crc_views upd views (L - 20) (len (@nil Z)) (crc32c_update upd 0 [])).
    { by rewrite (crc_update_spec upd 0 []). }
    rewrite (crc_views_spec views (L - 20) []); [|lia|change (len (@nil Z)) with 0; fold all; lia..].
    cbn [app]. fold all.
    unfold crc32c_parts, sub. cbn [foldl]. by rewrite drop_0, Z.sub_0_r. }
  rewrite !sub_sub by lia. rewrite !Z.add_0_r. replace (L - 20 + 20) with L by lia.
  destruct (Z.eqb_spec (crc32c_parts upd [sub all 0 (L - 20)]) (from_le_bytes (sub all (L - 20) (L - 20 + 4))));
    [|done]. cbn [negb]. case_bool_decide; done.
Qed.

(** A torn frame is told apart from a corrupt one. *)
Lemma parse_frame_torn p id n :
  frame_ok p -> 0 <= n < p.(physical_length) ->
  parse_frame upd (sub (frame_of upd p) 0 n) id =
    Err (Incomplete (if n <? FRAME_HEADER_PREFIX_BYTES then FRAME_HEADER_PREFIX_BYTES else p.(physical_length))).
Proof.
  intros H Hn. pose proof (len_frame upd p H) as HL. unfold parse_frame.
  assert (len (sub (frame_of upd p) 0 n) = n) as Hl by (rewrite len_sub; lia).
  destruct (Z.ltb_spec n 14) as [H14|H14].
  { unfold parse_header. destruct (Z.ltb_spec (len (sub (frame_of upd p) 0 n)) 14); [done|lia]. }
  assert (parse_header (sub (frame_of upd p) 0 n) = Ok (header p)) as ->.
  { transitivity (parse_header (sub (frame_of upd p) 0 n ++ sub (frame_of upd p) n (len (frame_of upd p)))).
    - symmetry. apply parse_header_prefix. lia.
    - rewrite sub_join, sub_all by lia. by apply parse_header_frame. }
  cbn [result_bind]. rewrite frame_length_frame by done. cbn [result_bind]. rewrite Hl.
  destruct (Z.ltb_spec n (physical_length p)); [done|lia].
Qed.

End exact.

#[export] Existing Instance WalRecord.crc_ref_ok.

(** C26. An ordinary frame is written for every payload of at most 65501 bytes
    under every magic but the stream's.  Else it is refused: the stream magic with
    [InvalidRole], more than 65535 bytes with [PayloadTooLarge], and the lengths
    between with [FrameTooLarge].  Parsing a frame, whatever bytes follow, returns
    its header, payload and length; under any other chunk id it is refused; any
    proper prefix of it is reported incomplete.
    Conversely whatever parses is, byte for byte, the frame of what it parses
    to: sizes, role, checksum and chunk id all agree with the bytes. *)
Theorem frame_codec_exact upd `{!Crc32c upd} :
  (forall m id payload t, id_ok id -> Forall is_byte payload -> 0 <= t < 2 ^ 64 ->
    match encode_frame upd m id payload t with
    | Ok f =>
        m <> StreamV2 /\ len payload <= MAX_FRAME_V2_PAYLOAD_BYTES /\ len f = len payload + 35 /\
        (forall rest id', parse_frame upd (f ++ rest) id' =
          if bool_decide (id' = id) then Ok (ordinary_frame m id payload t) else Err ChunkIdMismatch) /\
        (forall id' n, 0 <= n < len f -> exists k, parse_frame upd (sub f 0 n) id' = Err (Incomplete k))
    | Err e =>
        m = StreamV2 /\ e = InvalidRole \/ m <> StreamV2 /\ 65535 < len payload /\ e = PayloadTooLarge \/
        m <> StreamV2 /\ MAX_FRAME_V2_PAYLOAD_BYTES < len payload <= 65535 /\ e = FrameTooLarge
    end) /\
  (forall data id p, Forall is_byte data -> parse_frame upd data id = Ok p ->
    frame_ok p /\ p.(chunk_id) = id /\ exists rest, data = frame_of upd p ++ rest).
Proof.
  split; [|intros data id p; by apply parse_frame_sound].
  intros m id payload t Hid Hb Ht. rewrite encode_frame_exact by done. unfold encode_outcome.
  case_bool_decide; [by left|]. destruct (Z.ltb_spec 65535 (len payload)); [by right; left|].
  zcase_step; [by right; right|].
  assert (frame_ok (ordinary_frame m id payload t)) as Hok by (by apply ordinary_frame_ok).
  split; [done|]. split; [lia|]. pose proof (len_frame upd _ Hok) as HL. split; [rewrite HL; cbn; lia|]. split.
  - intros rest id'. rewrite parse_frame_of by done. cbn [chunk_id ordinary_frame].
    do 2 case_bool_decide; congruence.
  - intros id' n Hn. eexists. apply parse_frame_torn; [done..|]. by rewrite <- HL.
Qed.

Lemma frame_codec_exact_witness :
  parse_frame WalRecord.crc_ref
    (match encode_frame WalRecord.crc_ref RepoSmallV2 (mkChunkId 1 2) [7; 8; 9] 5 with Ok f => f | Err _ => [] end)
    (mkChunkId 1 2) = Ok (ordinary_frame RepoSmallV2 (mkChunkId 1 2) [7; 8; 9] 5).
Proof.
  destruct (frame_codec_exact WalRecord.crc_ref) as [H _].
  specialize (H RepoSmallV2 (mkChunkId 1 2) [7; 8; 9] 5).
  destruct (encode_frame WalRecord.crc_ref RepoSmallV2 (mkChunkId 1 2) [7; 8; 9] 5) as [f|e] eqn:E;
    [|vm_compute in E; discriminate E].
  destruct H as (_ & _ & _ & H & _); [unfold id_ok; cbn; lia|repeat constructor; unfold is_byte; lia|lia|].
  specialize (H [] (mkChunkId 1 2)). rewrite app_nil_r in H. exact H.
Defined.

(** Framing a payload that lies in several views writes the bytes that
    framing their concatenation writes, and fails exactly as it does; verifying
    a frame spread over any views in order answers what verifying the
    contiguous bytes answers, errors included. *)
Theorem frame_views_transparent upd `{!Crc32c upd} views :
  len (concat views) <= u64_max -> Forall is_byte (concat views) ->
  (forall m id t,
    match encode_frame_views upd m id views t with
    | Ok out => encode_frame upd m id (concat views) t = Ok (concat out)
    | Err e => encode_frame upd m id (concat views) t = Err e
    end) /\
  (forall id, parse_frame_views upd views id = (let? p := parse_frame upd (concat views) id in Ok (view_of p))).
Proof.
  intros Hl Hb. split; [intros; by apply encode_frame_views_exact|intros; by apply parse_views_exact].
Qed.

Lemma frame_views_transparent_witness :
  parse_frame_views WalRecord.crc_ref [[2; 1]; []; [15]] (mkChunkId 1 2) = Err (Incomplete 14).
Proof.
  destruct (frame_views_transparent WalRecord.crc_ref [[2; 1]; []; [15]]) as [_ H];
    [unfold len, u64_max; cbn; lia|repeat constructor; unfold is_byte; lia|].
  exact (H (mkChunkId 1 2)).
Defined.

End Frame.
