(* ===== verification/FrameGeometry.v ===== *)
(** * Where frames lie in a chunk

    Models [src/lib/crowdb-protocol/src/frame/geometry.rs] and the layouts of
    [revision.rs]: how many bytes the frames of a logical length occupy, which
    complete frames hold a logical subrange, and the merging of adjacent
    locations.  All arithmetic is checked [u64] arithmetic. *)

From stdpp Require Import prelude list list_numbers.
From Stdlib Require Import ZArith Lia.
From S2P Require Import Prelude Roles Bytes WalRecord KeyEncoding Frame.

Module FrameGeometry.
Import KeyEncoding Frame.

Record ChunkLocation := mkLocation {
  loc_chunk : ChunkId;
  frame_offset : Z;
  logical_length : Z;
}.

Definition frame_count (logical_length : Z) : Z := div_ceil logical_length MAX_FRAME_V2_PAYLOAD_BYTES.

Definition framed_physical_length (logical_length : Z) : result Z FrameError :=
  if logical_length =? 0 then Ok 0
  else
    let full := logical_length / MAX_FRAME_V2_PAYLOAD_BYTES in
    let tail := logical_length mod MAX_FRAME_V2_PAYLOAD_BYTES in
    let? full_bytes := ok_or (checked_mul full MAX_FRAME_BYTES) LengthOverflow in
    if tail =? 0 then Ok full_bytes
    else ok_or (v ← checked_add full_bytes FRAME_V2_HEADER_BYTES; v ← checked_add v tail;
                checked_add v FRAME_FOOTER_BYTES) LengthOverflow.

Definition location_length (l : ChunkLocation) : result Z FrameError :=
  framed_physical_length l.(logical_length).

Definition end_offset (l : ChunkLocation) : result Z FrameError :=
  let? length := location_length l in
  ok_or (checked_add l.(frame_offset) length) LengthOverflow.

Definition physical_range_for_subrange (l : ChunkLocation) (start stop : Z) : result (Z * Z) FrameError :=
  if (stop <? start) || (l.(logical_length) <? stop) then Err InvalidLocationRange
  else if stop <=? start then Ok (l.(frame_offset), l.(frame_offset))
  else
    let first := start / MAX_FRAME_V2_PAYLOAD_BYTES in
    let last := (stop - 1) / MAX_FRAME_V2_PAYLOAD_BYTES in
    let? first_bytes := ok_or (checked_mul first MAX_FRAME_BYTES) LengthOverflow in
    let? from := ok_or (checked_add l.(frame_offset) first_bytes) LengthOverflow in
    let? to :=
      if last + 1 =? frame_count l.(logical_length) then end_offset l
      else
        let? bytes := ok_or (checked_mul (last + 1) MAX_FRAME_BYTES) LengthOverflow in
        ok_or (checked_add l.(frame_offset) bytes) LengthOverflow in
    Ok (from, to).

(** The loop of [merge_adjacent_locations]; [merged] is kept in reverse, so its
    head is [merged.last_mut()]. *)
Fixpoint merge_loop (merged locations : list ChunkLocation) : result (list ChunkLocation) FrameError :=
  match locations with
  | [] => Ok (reverse merged)
  | location :: locations =>
      match merged with
      | previous :: rest =>
          if bool_decide (previous.(loc_chunk) = location.(loc_chunk))
             && (previous.(logical_length) mod MAX_FRAME_V2_PAYLOAD_BYTES =? 0) then
            let? stop := end_offset previous in
            if stop =? location.(frame_offset) then
              let? total := ok_or (checked_add previous.(logical_length) location.(logical_length))
                              LengthOverflow in
              merge_loop (mkLocation previous.(loc_chunk) previous.(frame_offset) total :: rest) locations
            else merge_loop (location :: merged) locations
          else merge_loop (location :: merged) locations
      | [] => merge_loop [location] locations
      end
  end.

Definition merge_adjacent_locations (locations : list ChunkLocation)
    : result (list ChunkLocation) FrameError := merge_loop [] locations.

(** [windows(2)] *)
Fixpoint validate_contiguous_locations (locations : list ChunkLocation) : result unit FrameError :=
  match locations with
  | a :: ((b :: _) as rest) =>
      if (a.(logical_length) =? 0) || (b.(logical_length) =? 0) then Err NonContiguousLocation
      else validate_contiguous_locations rest
  | _ => Ok ()
  end.

Inductive FrameLayout := OrdinaryV2 | StreamGroupV2.

Definition header_size (l : FrameLayout) : Z :=
  match l with OrdinaryV2 => FRAME_V2_HEADER_BYTES | StreamGroupV2 => FRAME_GROUP_HEADER_BYTES end.

Definition payload_capacity (l : FrameLayout) : Z := MAX_FRAME_BYTES - header_size l - FRAME_FOOTER_BYTES.

Definition layout_length (l : FrameLayout) (logical_length : Z) : result Z FrameError :=
  let count := div_ceil logical_length (payload_capacity l) in
  ok_or (overhead ← checked_mul count (header_size l + FRAME_FOOTER_BYTES);
         checked_add logical_length overhead) LengthOverflow.

Definition physical_range (l : FrameLayout) (location : ChunkLocation) (start stop : Z)
    : result (Z * Z) FrameError :=
  if (stop <? start) || (location.(logical_length) <? stop) then Err InvalidLocationRange
  else if stop <=? start then Ok (location.(frame_offset), location.(frame_offset))
  else
    let first := start / payload_capacity l in
    let last := (stop - 1) / payload_capacity l in
    let? from := ok_or (checked_mul first MAX_FRAME_BYTES) LengthOverflow in
    let? to :=
      if last + 1 =? div_ceil location.(logical_length) (payload_capacity l)
      then layout_length l location.(logical_length)
      else ok_or (checked_mul (last + 1) MAX_FRAME_BYTES) LengthOverflow in
    let? from := ok_or (checked_add location.(frame_offset) from) LengthOverflow in
    let? to := ok_or (checked_add location.(frame_offset) to) LengthOverflow in
    Ok (from, to).

(** ** Lengths without the overflow checks *)

(** The bytes [n] logical bytes occupy in frames of [h] header bytes. *)
Definition occupied (l : FrameLayout) (n : Z) : Z :=
  n + div_ceil n (payload_capacity l) * (header_size l + 20).

Lemma ceil_spec a b : 0 <= a -> 0 < b -> b * (div_ceil a b - 1) < a <= b * div_ceil a b \/ a = 0 /\ div_ceil a b = 0.
Proof.
  intros Ha Hb. unfold div_ceil. pose proof (Z.div_mod a b). pose proof (Z.mod_pos_bound a b Hb).
  pose proof (Z.div_pos a b Ha Hb). destruct (Z.eqb_spec (a mod b) 0); [|left; nia].
  destruct (decide (a = 0)) as [->|]; [right; rewrite Z.div_0_l; lia|left; nia].
Qed.

Lemma capacity_pos l : 0 < payload_capacity l.
Proof. destruct l; done. Qed.

Lemma layout_length_exact l n :
  0 <= n -> layout_length l n = if occupied l n <=? u64_max then Ok (occupied l n) else Err LengthOverflow.
Proof.
  intros Hn. unfold layout_length, occupied.
  assert (0 <= div_ceil n (payload_capacity l)).
  { pose proof (capacity_pos l). pose proof (ceil_spec n (payload_capacity l)). nia. }
  assert (0 < header_size l + 20) by (destruct l; done). unfold checked_mul, checked_add.
  destruct (Z.leb_spec (div_ceil n (payload_capacity l) * (header_size l + 20)) u64_max); cbn [mbind option_bind].
  - by destruct (Z.leb_spec (n + div_ceil n (payload_capacity l) * (header_size l + 20)) u64_max).
  - destruct (Z.leb_spec (n + div_ceil n (payload_capacity l) * (header_size l + 20)) u64_max); [lia|done].
Qed.

Lemma framed_exact n :
  0 <= n -> framed_physical_length n = if occupied OrdinaryV2 n <=? u64_max then Ok (occupied OrdinaryV2 n) else Err LengthOverflow.
Proof.
  intros Hn. unfold framed_physical_length, occupied, div_ceil, payload_capacity, header_size, checked_mul, checked_add, u64_max.
  change (65536 - 15 - 20) with 65501. change (15 + 20) with 35.
  pose proof (Z.div_mod n 65501). pose proof (Z.mod_pos_bound n 65501).
  destruct (Z.eqb_spec n 0) as [->|Hz]; [done|].
  destruct (Z.leb_spec (n / 65501 * 65536) (2 ^ 64 - 1)); cbn [ok_or result_bind].
  - destruct (Z.eqb_spec (n mod 65501) 0).
    + replace (n + (n / 65501 + 0) * 35) with (n / 65501 * 65536) by lia.
      destruct (Z.leb_spec (n / 65501 * 65536) (2 ^ 64 - 1)); [done|lia].
    + replace (n + (n / 65501 + 1) * 35) with (n / 65501 * 65536 + 15 + n mod 65501 + 20) by lia.
      repeat (zcase_step; cbn [mbind option_bind ok_or]; try done; try lia).
  - destruct (Z.eqb_spec (n mod 65501) 0); zcase_step; try done; lia.
Qed.

Lemma framed_is_layout n : 0 <= n -> framed_physical_length n = layout_length OrdinaryV2 n.
Proof. intros. by rewrite framed_exact, layout_length_exact. Qed.

(** Split on the overflow checks. *)
Ltac overflow_cases :=
  repeat (match goal with
          | |- context [?a <=? u64_max] => destruct (Z.leb_spec a u64_max)
          end; cbn [ok_or result_bind mbind option_bind]; try lia; try done).

(** ** Ranges of complete frames *)

(** The end of frame [j] of [n] logical bytes, from the start of the first. *)
Definition frame_end (l : FrameLayout) (n j : Z) : Z :=
  if j + 1 =? div_ceil n (payload_capacity l) then occupied l n else (j + 1) * MAX_FRAME_BYTES.

Definition range_outcome (l : FrameLayout) (location : ChunkLocation) (start stop : Z) : result (Z * Z) FrameError :=
  let off := location.(frame_offset) in
  let n := location.(logical_length) in
  if (stop <? start) || (n <? stop) then Err InvalidLocationRange
  else if stop <=? start then Ok (off, off)
  else
    let to := off + frame_end l n ((stop - 1) / payload_capacity l) in
    if to <=? u64_max then Ok (off + start / payload_capacity l * MAX_FRAME_BYTES, to) else Err LengthOverflow.

Lemma occupied_full l n :
  0 <= n -> n <= occupied l n /\
  occupied l n <= div_ceil n (payload_capacity l) * MAX_FRAME_BYTES /\
  (n <> 0 -> (div_ceil n (payload_capacity l) - 1) * MAX_FRAME_BYTES < occupied l n).
Proof.
  intros Hn. pose proof (capacity_pos l). pose proof (ceil_spec n (payload_capacity l)) as H'. unfold occupied.
  assert (payload_capacity l + (header_size l + 20) = MAX_FRAME_BYTES) by (destruct l; done).
  assert (0 < header_size l + 20) by (destruct l; done). set (c := div_ceil _ _) in *.
  destruct H' as [H'|[-> ->]]; [done|done| |lia]. nia.
Qed.

(** The last frame of a nonempty range is one of the frames, not before the first. *)
Lemma range_frames l n start stop :
  0 <= start < stop -> stop <= n ->
  0 <= start / payload_capacity l <= (stop - 1) / payload_capacity l /\
  (stop - 1) / payload_capacity l < div_ceil n (payload_capacity l) /\
  start / payload_capacity l * MAX_FRAME_BYTES < frame_end l n ((stop - 1) / payload_capacity l).
Proof.
  intros Hs Hn. pose proof (capacity_pos l). set (q := payload_capacity l) in *.
  assert (0 <= start / q <= (stop - 1) / q) as Hfl.
  { split; [apply Z.div_pos; lia|apply Z.div_le_mono; lia]. }
  assert ((stop - 1) / q < div_ceil n q) as Hlast.
  { pose proof (Z.div_mod (stop - 1) q). pose proof (Z.mod_pos_bound (stop - 1) q).
    pose proof (ceil_spec n q). nia. }
  split; [done|]. split; [done|]. unfold frame_end. fold q.
  destruct (Z.eqb_spec ((stop - 1) / q + 1) (div_ceil n q)) as [E|E]; [|lia].
  destruct (occupied_full l n) as (_ & _ & H'); [lia|]. fold q in H'. specialize (H' ltac:(lia)). lia.
Qed.

Lemma physical_range_exact l location start stop :
  0 <= location.(frame_offset) -> 0 <= start ->
  physical_range l location start stop = range_outcome l location start stop.
Proof.
  intros Ho Hs. unfold physical_range, range_outcome. destruct location as [id off n]. cbn [frame_offset logical_length] in *.
  destruct (_ || _) eqn:Eb; [done|]. apply orb_false_iff in Eb as [E1 E2]. destruct (Z.leb_spec stop start); [done|].
  destruct (range_frames l n start stop) as (Hfl & Hlt & Hfe); [lia|lia|]. unfold frame_end in *.
  set (q := payload_capacity l) in *. unfold checked_mul, checked_add.
  destruct (Z.eqb_spec ((stop - 1) / q + 1) (div_ceil n q)); [rewrite layout_length_exact by lia|]; overflow_cases.
Qed.

(** The two range functions agree on ordinary frames, errors included. *)
Lemma subrange_is_layout location start stop :
  0 <= location.(frame_offset) -> 0 <= start -> 0 <= location.(logical_length) ->
  physical_range_for_subrange location start stop = physical_range OrdinaryV2 location start stop.
Proof.
  intros Ho Hs Hn. rewrite physical_range_exact by done. destruct location as [id off n].
  unfold physical_range_for_subrange, range_outcome, end_offset, location_length, frame_count.
  cbn [frame_offset logical_length] in *.
  destruct (_ || _) eqn:Eb; [done|]. apply orb_false_iff in Eb as [E1 E2]. destruct (Z.leb_spec stop start); [done|].
  destruct (range_frames OrdinaryV2 n start stop) as (Hfl & Hlt & Hfe); [lia|lia|]. unfold frame_end in *.
  change (payload_capacity OrdinaryV2) with 65501 in *. rewrite framed_exact by done. unfold checked_mul, checked_add.
  destruct (Z.eqb_spec ((stop - 1) / 65501 + 1) (div_ceil n 65501)); overflow_cases.
Qed.

(** ** The frames of an object *)

Section chunking.
Context (n : Z) (Hn : 0 < n).

Lemma chunks_fuel_enough fuel l : (length l <= fuel)%nat -> chunks_fuel fuel n l = chunks n l.
Proof using Hn.
  unfold chunks. revert fuel. induction l as [l IH] using (induction_ltof1 _ (@length Z)).
  intros fuel Hf. destruct l as [|b l]; [by destruct fuel|]. destruct fuel as [|fuel]; [cbn [length] in *; lia|].
  cbn [chunks_fuel length]. f_equal.
  assert (length (drop (Z.to_nat n) (b :: l)) <= length l)%nat by (rewrite length_drop; cbn [length]; lia).
  transitivity (chunks_fuel (length (drop (Z.to_nat n) (b :: l))) n (drop (Z.to_nat n) (b :: l)));
    [|symmetry]; apply IH; unfold ltof; cbn [length] in *; lia.
Qed.

Lemma chunks_cons l : l <> [] -> chunks n l = sub l 0 n :: chunks n (drop (Z.to_nat n) l).
Proof using Hn.
  destruct l as [|b l]; [done|]. intros _. unfold chunks at 1. cbn [chunks_fuel length]. f_equal.
  apply chunks_fuel_enough. rewrite length_drop. cbn [length]. lia.
Qed.

Lemma chunks_concat l : concat (chunks n l) = l.
Proof using Hn.
  induction l as [l IH] using (induction_ltof1 _ (@length Z)). destruct (decide (l = [])) as [->|Hl]; [done|].
  rewrite chunks_cons by done. cbn [concat]. rewrite IH.
  - unfold sub. by rewrite drop_0, Z.sub_0_r, take_drop.
  - unfold ltof. rewrite length_drop. destruct l; [done|]. cbn [length]. lia.
Qed.

Lemma div_ceil_step a : n <= a -> div_ceil a n = 1 + div_ceil (a - n) n.
Proof using Hn.
  intros Ha. unfold div_ceil. replace (a - n) with (a + (-1) * n) by lia.
  rewrite Z.div_add, Z.mod_add by lia. lia.
Qed.

Lemma div_ceil_one a : 0 < a <= n -> div_ceil a n = 1.
Proof using Hn. intros Ha. pose proof (ceil_spec a n). nia. Qed.

Lemma chunks_len l : len (chunks n l) = div_ceil (len l) n.
Proof using Hn.
  induction l as [l IH] using (induction_ltof1 _ (@length Z)). destruct (decide (l = [])) as [->|Hl].
  { unfold div_ceil. change (len (@nil Z)) with 0. rewrite Z.div_0_l, Z.mod_0_l by lia. done. }
  assert (0 < len l) by (unfold len; destruct l; [done|cbn [length]; lia]).
  rewrite chunks_cons by done. change (len (?x :: ?y)) with (len ([x] ++ y)).
  rewrite (len_app [_]), len_one, IH.
  2: { unfold ltof. rewrite length_drop. destruct l; [done|]. cbn [length]. lia. }
  destruct (decide (n <= len l)).
  - rewrite (div_ceil_step (len l)) by done. do 2 f_equal. unfold len in *. rewrite length_drop. lia.
  - rewrite (div_ceil_one (len l)) by lia. rewrite drop_ge by (unfold len in *; lia).
    change (len (@nil Z)) with 0. unfold div_ceil. rewrite Z.div_0_l, Z.mod_0_l by lia. done.
Qed.

Lemma chunks_lookup l i c :
  chunks n l !! i = Some c -> c = sub l (Z.of_nat i * n) (Z.of_nat i * n + n) /\ Z.of_nat i * n < len l.
Proof using Hn.
  revert i. induction l as [l IH] using (induction_ltof1 _ (@length Z)). intros i.
  destruct (decide (l = [])) as [->|Hl]; [done|]. rewrite chunks_cons by done.
  assert (0 < len l) by (unfold len; destruct l; [done|cbn [length]; lia]).
  destruct i as [|i]; [intros [= <-]; split; [done|lia]|]. cbn [lookup list_lookup]. intros Hc.
  apply IH in Hc as [-> Hlt]; [|unfold ltof; rewrite length_drop; unfold len in *; lia].
  unfold len in Hlt. rewrite length_drop in Hlt. split; [|unfold len; lia].
  unfold sub. rewrite drop_drop. f_equal; [lia|]. f_equal. lia.
Qed.

Lemma chunks_size l c : c ∈ chunks n l -> 0 < len c <= n.
Proof using Hn.
  intros [i Hi]%list_elem_of_lookup. apply chunks_lookup in Hi as [-> Hlt].
  unfold len, sub in *. rewrite length_take, length_drop. lia.
Qed.

Lemma concat_take_chunks i l :
  concat (take i (chunks n l)) = take (Z.to_nat (Z.of_nat i * n)) l.
Proof using Hn.
  revert l. induction i as [|i IH]; intros l; [by rewrite !take_0|].
  destruct (decide (l = [])) as [->|Hl]; [by rewrite take_nil|].
  rewrite chunks_cons by done. cbn [take concat]. rewrite IH. unfold sub. rewrite drop_0, Z.sub_0_r.
  rewrite take_take_drop. f_equal. lia.
Qed.

Lemma concat_drop_chunks i l :
  concat (drop i (chunks n l)) = drop (Z.to_nat (Z.of_nat i * n)) l.
Proof using Hn.
  pose proof (chunks_concat l) as H. rewrite <- (take_drop i (chunks n l)), concat_app, concat_take_chunks in H.
  apply (app_inv_head (take (Z.to_nat (Z.of_nat i * n)) l)). by rewrite H, take_drop.
Qed.

Lemma concat_sub_chunks i j l :
  0 <= i <= j -> concat (sub (chunks n l) i j) = sub l (i * n) (j * n).
Proof using Hn.
  intros Hij. unfold sub at 1. rewrite take_drop_commute.
  pose proof (concat_take_chunks (Z.to_nat j) l) as Hj.
  rewrite <- (take_drop (Z.to_nat i) (take (Z.to_nat j) (chunks n l))), concat_app, take_take in Hj.
  rewrite Nat.min_l, concat_take_chunks in Hj by lia.
  rewrite !Z2Nat.id in Hj by lia.
  replace (Z.to_nat i + Z.to_nat (j - i))%nat with (Z.to_nat j) by lia.
  assert (take (Z.to_nat (j * n)) l = take (Z.to_nat (i * n)) l ++ sub l (i * n) (j * n)) as Hs.
  { unfold sub. rewrite take_take_drop. f_equal. nia. }
  rewrite Hs in Hj. by apply app_inv_head in Hj.
Qed.

End chunking.

(** Reading frames one after the other and joining their payloads. *)
Fixpoint read_frames (upd : Z -> bytes -> Z) (fuel : nat) (id : ChunkId) (data : bytes) : result bytes FrameError :=
  match fuel, data with
  | O, _ | _, [] => Ok []
  | S fuel, _ =>
      let? p := parse_frame upd data id in
      let? rest := read_frames upd fuel id (drop (Z.to_nat p.(physical_length)) data) in
      Ok (p.(payload) ++ rest)
  end.

Section objects.
Context (upd : Z -> bytes -> Z) `{!Crc32c upd} (m : FrameMagic) (id : ChunkId) (t : Z).
Hypothesis Hm : m <> StreamV2.
Hypothesis Hid : id_ok id.
Hypothesis Ht : 0 <= t < 2 ^ 64.

#[local] Abbreviation frame part := (frame_of upd (ordinary_frame m id part t)).

Lemma encode_parts_exact parts :
  (forall p, p ∈ parts -> len p <= MAX_FRAME_V2_PAYLOAD_BYTES) ->
  encode_parts upd m id t parts = Ok ((fun part => frame part) <$> parts).
Proof.
  induction parts as [|p parts IH]; intros Hp; [done|]. cbn [encode_parts].
  rewrite encode_frame_exact by done. unfold encode_outcome. rewrite bool_decide_eq_false_2 by done.
  assert (len p <= 65501) by (apply Hp; set_solver).
  destruct (Z.ltb_spec 65535 (len p)); [lia|]. destruct (Z.ltb_spec 65501 (len p)); [lia|]. cbn [result_bind].
  rewrite IH by (intros; apply Hp; set_solver). done.
Qed.

Lemma read_frames_parts parts fuel :
  (forall p, p ∈ parts -> len p <= MAX_FRAME_V2_PAYLOAD_BYTES /\ Forall is_byte p) -> (length parts <= fuel)%nat ->
  read_frames upd fuel id (concat ((fun part => frame part) <$> parts)) = Ok (concat parts).
Proof.
  revert fuel. induction parts as [|p parts IH]; intros fuel Hp Hf; [by destruct fuel|].
  destruct fuel as [|fuel]; [cbn [length] in Hf; lia|]. rewrite fmap_cons. cbn [concat].
  destruct (Hp p) as [Hl Hb]; [set_solver|].
  assert (frame_ok (ordinary_frame m id p t)) as Hok by (by apply ordinary_frame_ok).
  pose proof (len_frame upd _ Hok) as HL. cbn [physical_length ordinary_frame] in HL.
  destruct (frame p ++ _) as [|x rest] eqn:E.
  { exfalso. apply (f_equal len) in E. rewrite len_app, HL in E. change (len (@nil Z)) with 0 in E.
    pose proof (len_nonneg p). pose proof (len_nonneg (concat ((fun part => frame part) <$> parts))). lia. }
  cbn [read_frames]. rewrite <- E. rewrite parse_frame_of, bool_decide_eq_true_2 by done. cbn [result_bind].
  rewrite drop_app_length' by (cbn [physical_length ordinary_frame]; unfold len in *; lia).
  rewrite (IH fuel); [done|intros q Hq; apply Hp, elem_of_cons; by right|cbn [length] in Hf; lia].
Qed.

Lemma len_frame_part p : len p <= MAX_FRAME_V2_PAYLOAD_BYTES -> Forall is_byte p -> len (frame p) = 35 + len p.
Proof. intros. rewrite len_frame by (by apply ordinary_frame_ok). cbn. lia. Qed.

Lemma len_frames parts :
  (forall p, p ∈ parts -> len p <= MAX_FRAME_V2_PAYLOAD_BYTES /\ Forall is_byte p) ->
  len (concat ((fun part => frame part) <$> parts)) = len (concat parts) + 35 * len parts.
Proof.
  induction parts as [|p parts IH]; intros Hp; [done|]. rewrite fmap_cons. cbn [concat].
  destruct (Hp p) as [Hl Hb]; [set_solver|]. rewrite !len_app, len_frame_part by done.
  change (len (p :: parts)) with (len ([p] ++ parts)). rewrite len_app, len_one.
  rewrite IH by set_solver. lia.
Qed.

#[local] Abbreviation parts payload := (chunks MAX_FRAME_V2_PAYLOAD_BYTES payload).
#[local] Abbreviation stored l := (concat ((fun part => frame part) <$> l)).

Lemma parts_ok payload p :
  Forall is_byte payload -> p ∈ parts payload -> len p <= MAX_FRAME_V2_PAYLOAD_BYTES /\ Forall is_byte p.
Proof.
  intros Hb Hp. split; [by apply (chunks_size 65501 ltac:(lia)) in Hp as [_ ?]|].
  apply list_elem_of_lookup in Hp as [i Hi]. apply chunks_lookup in Hi as [-> _]; [|done]. by apply sub_Forall.
Qed.

Lemma stored_prefix payload i :
  Forall is_byte payload -> 0 <= i <= len (parts payload) ->
  len (stored (take (Z.to_nat i) (parts payload))) = Z.min (i * MAX_FRAME_V2_PAYLOAD_BYTES) (len payload) + 35 * i.
Proof.
  intros Hb Hi. rewrite len_frames.
  2: { intros p Hp. apply parts_ok with payload; [done|]. eapply subseteq_take; exact Hp. }
  rewrite concat_take_chunks by done. unfold len in *. rewrite !length_take. lia.
Qed.

(** The bytes of frames [i] to [j] of the object. *)
Lemma stored_range payload i j :
  Forall is_byte payload -> 0 <= i <= j -> j < div_ceil (len payload) MAX_FRAME_V2_PAYLOAD_BYTES ->
  sub (stored (parts payload)) (i * MAX_FRAME_BYTES) (frame_end OrdinaryV2 (len payload) j) =
  stored (sub (parts payload) i (j + 1)).
Proof.
  intros Hb Hij Hj. set (l := parts payload).
  assert (len l = div_ceil (len payload) 65501) as Hlen by (by apply chunks_len).
  assert (l = take (Z.to_nat i) l ++ sub l i (j + 1) ++ drop (Z.to_nat (j + 1)) l) as Hsplit.
  { unfold sub. replace (drop (Z.to_nat (j + 1)) l) with (drop (Z.to_nat (j + 1 - i)) (drop (Z.to_nat i) l)).
    - by rewrite !take_drop.
    - rewrite drop_drop. f_equal. lia. }
  pose proof (ceil_spec (len payload) 65501) as Hd. pose proof (len_nonneg payload).
  assert (len (stored (take (Z.to_nat i) l)) = i * 65536) as H1.
  { unfold l. rewrite stored_prefix by (done || (fold l; lia)). lia. }
  assert (len (stored (take (Z.to_nat (j + 1)) l)) = frame_end OrdinaryV2 (len payload) j) as H2.
  { unfold l. rewrite stored_prefix by (done || (fold l; lia)). unfold frame_end, occupied.
    change (payload_capacity OrdinaryV2) with 65501. change (header_size OrdinaryV2 + 20) with 35.
    destruct (Z.eqb_spec (j + 1) (div_ceil (len payload) 65501)); lia. }
  assert (len (stored (take (Z.to_nat (j + 1)) l)) =
    len (stored (take (Z.to_nat i) l)) + len (stored (sub l i (j + 1)))) as H3.
  { rewrite <- len_app, <- concat_app, <- fmap_app. do 3 f_equal. unfold sub. rewrite take_take_drop. f_equal. lia. }
  rewrite Hsplit at 1. rewrite !fmap_app, !concat_app. rewrite sub_app_r by lia. rewrite H1, Z.sub_diag.
  apply sub_prefix. lia.
Qed.

End objects.

(** C27. An object is written as consecutive frames that read back to it.
    [framed_physical_length] is the number of bytes they take, or the overflow
    error; the two functions that map a logical subrange to a physical range
    agree, and the frames of the range they give hold the subrange with less
    than one frame's payload to spare on either side. *)
Theorem object_frames_exact upd `{!Crc32c upd} m id payload t :
  m <> StreamV2 -> id_ok id -> Forall is_byte payload -> 0 <= t < 2 ^ 64 ->
  exists frames, encode_frames upd m id payload t = Ok frames /\
    len frames = frame_count (len payload) /\
    read_frames upd (length frames) id (concat frames) = Ok payload /\
    framed_physical_length (len payload) =
      (if len (concat frames) <=? u64_max then Ok (len (concat frames)) else Err LengthOverflow) /\
    forall off a b, 0 <= off -> 0 <= a ->
      let location := mkLocation id off (len payload) in
      physical_range_for_subrange location a b = physical_range OrdinaryV2 location a b /\
      match physical_range_for_subrange location a b with
      | Ok (lo, hi) =>
          a <= b <= len payload /\
          exists before after,
            read_frames upd (length frames) id (sub (concat frames) (lo - off) (hi - off)) =
              Ok (before ++ sub payload a b ++ after) /\
            len before < MAX_FRAME_V2_PAYLOAD_BYTES /\ len after < MAX_FRAME_V2_PAYLOAD_BYTES
      | Err InvalidLocationRange => b < a \/ len payload < b
      | Err e => e = LengthOverflow /\ u64_max < off + len (concat frames)
      end.
Proof.
  intros Hm Hid Hb Ht. set (l := chunks MAX_FRAME_V2_PAYLOAD_BYTES payload).
  exists ((fun part => frame_of upd (ordinary_frame m id part t)) <$> l).
  assert (forall p, p ∈ l -> len p <= MAX_FRAME_V2_PAYLOAD_BYTES /\ Forall is_byte p) as Hp
    by (intros; by apply parts_ok with payload).
  assert (len l = div_ceil (len payload) 65501) as Hlen by (by apply chunks_len).
  assert (concat l = payload) as Hcat by (by apply chunks_concat).
  assert (len (concat ((fun part => frame_of upd (ordinary_frame m id part t)) <$> l)) =
    occupied OrdinaryV2 (len payload)) as Hocc.
  { rewrite len_frames by done. rewrite Hcat, Hlen. unfold occupied.
    change (payload_capacity OrdinaryV2) with 65501. change (header_size OrdinaryV2 + 20) with 35. lia. }
  pose proof (len_nonneg payload) as Hpl. rewrite length_fmap.
  split; [unfold encode_frames; apply encode_parts_exact; [done..|intros; by apply Hp]|].
  split; [unfold len; rewrite length_fmap; exact Hlen|].
  split; [rewrite read_frames_parts by done; by rewrite Hcat|].
  split; [rewrite Hocc; by apply framed_exact|].
  intros off a b Ho Ha location. rewrite subrange_is_layout by done. split; [done|].
  rewrite physical_range_exact by done. unfold range_outcome, location. cbn [frame_offset logical_length].
  destruct (Z.ltb_spec b a); cbn [orb]; [by left|]. destruct (Z.ltb_spec (len payload) b); [by right|].
  destruct (Z.leb_spec b a).
  { split; [lia|]. exists [], []. rewrite Z.sub_diag. assert (a = b) as -> by lia.
    unfold sub. rewrite !Z.sub_diag, !take_0. split; [|done]. by destruct (length l). }
  change (payload_capacity OrdinaryV2) with 65501.
  destruct (range_frames OrdinaryV2 (len payload) a b) as (Hij & Hj & _); [lia..|].
  change (payload_capacity OrdinaryV2) with 65501 in *. set (i := a / 65501) in *. set (j := (b - 1) / 65501) in *.
  assert (frame_end OrdinaryV2 (len payload) j <= occupied OrdinaryV2 (len payload)) as Hend.
  { unfold frame_end. change (payload_capacity OrdinaryV2) with 65501. zcase_step; [lia|].
    destruct (occupied_full OrdinaryV2 (len payload)) as (_ & _ & H'); [done|].
    change (payload_capacity OrdinaryV2) with 65501 in H'. lia. }
  zcase_step; [|split; [done|lia]]. split; [lia|].
  exists (sub payload (i * 65501) a), (sub payload b ((j + 1) * 65501)).
  replace (off + i * 65536 - off) with (i * 65536) by lia.
  replace (off + frame_end OrdinaryV2 (len payload) j - off) with (frame_end OrdinaryV2 (len payload) j) by lia.
  unfold l. rewrite stored_range by done.
  pose proof (Z.div_mod a 65501 ltac:(done)). pose proof (Z.mod_pos_bound a 65501 ltac:(done)).
  pose proof (Z.div_mod (b - 1) 65501 ltac:(done)). pose proof (Z.mod_pos_bound (b - 1) 65501 ltac:(done)).
  split; [|unfold len, sub; rewrite !length_take, !length_drop; unfold i, j, len in *; lia].
  assert (forall p, p ∈ sub l i (j + 1) -> len p <= MAX_FRAME_V2_PAYLOAD_BYTES /\ Forall is_byte p).
  { intros p Hp'. apply Hp. unfold sub in Hp'. eapply subseteq_drop, subseteq_take; exact Hp'. }
  assert (length (sub l i (j + 1)) <= length l)%nat by (unfold sub; rewrite length_take, length_drop; lia).
  fold l. rewrite read_frames_parts by done. unfold l. rewrite concat_sub_chunks by lia.
  by rewrite !sub_join by lia.
Qed.

Lemma object_frames_exact_witness :
  exists frames, encode_frames WalRecord.crc_ref BtreePageV2 (mkChunkId 1 2) [3; 4] 9 = Ok frames /\ len frames = 1.
Proof.
  destruct (object_frames_exact WalRecord.crc_ref BtreePageV2 (mkChunkId 1 2) [3; 4] 9) as (frames & H & Hl & _);
    [done|unfold id_ok; cbn; lia|repeat constructor; unfold is_byte; lia|lia|].
  exists frames. by split.
Defined.

(** ** Merging locations *)

(** The frames of a location: chunk, physical offset and payload bytes. *)
Definition frames_of (l : ChunkLocation) : list (ChunkId * Z * Z) :=
  (fun i => (l.(loc_chunk), l.(frame_offset) + i * MAX_FRAME_BYTES,
             Z.min MAX_FRAME_V2_PAYLOAD_BYTES (l.(logical_length) - i * MAX_FRAME_V2_PAYLOAD_BYTES)))
    <$> seqZ 0 (frame_count l.(logical_length)).

Definition location_ok (l : ChunkLocation) : Prop := 0 <= l.(frame_offset) /\ 0 <= l.(logical_length).

Definition mergeable (a b : ChunkLocation) : Prop :=
  a.(loc_chunk) = b.(loc_chunk) /\ a.(logical_length) mod MAX_FRAME_V2_PAYLOAD_BYTES = 0 /\
  end_offset a = Ok b.(frame_offset).

Lemma end_offset_value l stop :
  location_ok l -> end_offset l = Ok stop -> stop = l.(frame_offset) + occupied OrdinaryV2 l.(logical_length).
Proof.
  intros [Ho Hl]. unfold end_offset, location_length. rewrite framed_exact by done.
  zcase_step; cbn [result_bind]; [|done]. unfold checked_add. zcase_step; cbn [ok_or]; [|done]. by intros [= <-].
Qed.

Lemma frames_of_join id off n k :
  0 <= n -> 0 <= k -> n mod MAX_FRAME_V2_PAYLOAD_BYTES = 0 ->
  frames_of (mkLocation id off (n + k)) =
  frames_of (mkLocation id off n) ++ frames_of (mkLocation id (off + occupied OrdinaryV2 n) k).
Proof.
  intros Hn Hk Hm. unfold frames_of, frame_count, occupied, payload_capacity, header_size.
  cbn [loc_chunk frame_offset logical_length]. change (65536 - 15 - 20) with 65501. change (15 + 20) with 35.
  pose proof (Z.div_mod n 65501 ltac:(done)) as Hd. rewrite Hm in Hd. set (q := n / 65501) in *.
  assert (div_ceil n 65501 = q) as -> by (unfold div_ceil; fold q; rewrite Hm; simpl; lia).
  assert (div_ceil (n + k) 65501 = q + div_ceil k 65501) as ->.
  { unfold div_ceil. replace (n + k) with (k + q * 65501) by lia. rewrite Z.div_add, Z.mod_add by lia. lia. }
  assert (0 <= div_ceil k 65501) by (pose proof (ceil_spec k 65501); lia).
  rewrite seqZ_app, fmap_app by lia. f_equal.
  - apply list_fmap_ext. intros _ i Hi%list_elem_of_lookup_2%elem_of_seqZ. f_equal. lia.
  - replace (0 + q) with (q + 0) by lia. rewrite <- (fmap_add_seqZ q 0), <- list_fmap_compose.
    apply list_fmap_ext. intros _ i _. simpl. f_equal; [f_equal|]; lia.
Qed.

Definition unmerged (rev : list ChunkLocation) : Prop :=
  forall i a b, rev !! i = Some b -> rev !! S i = Some a -> ~ mergeable a b.

Lemma unmerged_cons x rev :
  unmerged rev -> (forall a, head rev = Some a -> ~ mergeable a x) -> unmerged (x :: rev).
Proof.
  intros Hu Hx [|i] a b; simpl; [|apply Hu]. intros [= <-] Ha. apply Hx. by destruct rev.
Qed.

Lemma merge_loop_exact rev locations :
  Forall location_ok rev -> Forall location_ok locations -> unmerged rev ->
  match merge_loop rev locations with
  | Ok merged =>
      concat (frames_of <$> merged) = concat (frames_of <$> reverse rev) ++ concat (frames_of <$> locations) /\
      Forall location_ok merged /\ unmerged (reverse merged)
  | Err e => e = LengthOverflow
  end.
Proof.
  revert rev. induction locations as [|x locations IH]; intros rev Hr Hl Hu; cbn [merge_loop].
  { rewrite app_nil_r, reverse_involutive. split; [done|]. split; [by apply Forall_reverse|done]. }
  apply Forall_cons in Hl as [Hx Hl]. rewrite fmap_cons. cbn [concat].
  assert (forall rev, Forall location_ok rev -> unmerged (x :: rev) ->
    match merge_loop (x :: rev) locations with
    | Ok merged =>
        concat (frames_of <$> merged) =
          concat (frames_of <$> reverse rev) ++ frames_of x ++ concat (frames_of <$> locations) /\
        Forall location_ok merged /\ unmerged (reverse merged)
    | Err e => e = LengthOverflow
    end) as Hpush.
  { intros rev' Hr' Hu'. specialize (IH (x :: rev') (Forall_cons_2 _ _ _ Hx Hr') Hl Hu').
    destruct (merge_loop _ _); [|done]. rewrite reverse_cons, fmap_app, concat_app in IH. simpl in IH.
    rewrite app_nil_r, <- app_assoc in IH. exact IH. }
  destruct rev as [|prev rev]; [apply Hpush; [done|]; by intros [|?] ???|].
  destruct (_ && _) eqn:Em.
  - apply andb_prop in Em as [Ec%bool_decide_eq_true Ez%Z.eqb_eq].
    apply Forall_cons in Hr as [Hp Hr]. destruct (end_offset prev) as [stop|e] eqn:Ee; cbn [result_bind].
    2: { revert Ee. unfold end_offset, location_length. rewrite framed_exact by apply Hp.
         zcase_step; cbn [result_bind]; [|by intros [= <-]]. unfold checked_add. zcase_step; [done|by intros [= <-]]. }
    destruct (Z.eqb_spec stop (frame_offset x)) as [Est|Est].
    + unfold checked_add at 1. zcase_step; cbn [ok_or result_bind]; [|done].
      specialize (IH (mkLocation (loc_chunk prev) (frame_offset prev) (logical_length prev + logical_length x) :: rev)).
      destruct Hp as [Hp1 Hp2], Hx as [Hx1 Hx2].
      destruct (merge_loop _ _) as [merged|e'].
      * destruct IH as (IH & Hm & Hum); [constructor; [split; simpl; lia|done]|done| |].
        { intros [|i] a b; simpl; [|apply (Hu (S i))]. intros [= <-] Ha Hme. eapply (Hu 0%nat a prev); done. }
        split; [|done]. rewrite IH, !reverse_cons, !fmap_app, !concat_app. simpl. rewrite !app_nil_r, <- !app_assoc. f_equal.
        rewrite frames_of_join by done. rewrite <- app_assoc. f_equal. f_equal.
        apply end_offset_value in Ee; [|done]. by rewrite <- Ee, Ec, Est.
      * apply IH; [constructor; [split; simpl; lia|done]|done|].
        intros [|i] a b; simpl; [|apply (Hu (S i))]. intros [= <-] Ha Hme. eapply (Hu 0%nat a prev); done.
    + apply Hpush; [by constructor|]. apply unmerged_cons; [done|]. intros a [= <-] (_ & _ & He). congruence.
  - apply Hpush; [done|]. apply unmerged_cons; [done|]. intros a [= <-] (Hc & Hz & _).
    rewrite Hc, Hz, bool_decide_eq_true_2 in Em by done. done.
Qed.

(** C28. Merging adjacent locations neither moves nor drops a frame: the merged
    locations cover exactly the frames of the original ones, in order, and no
    two neighbours of the result could still be merged; the only error is the
    overflow of a length. *)
Theorem merge_keeps_frames locations :
  Forall location_ok locations ->
  match merge_adjacent_locations locations with
  | Ok merged =>
      concat (frames_of <$> merged) = concat (frames_of <$> locations) /\ Forall location_ok merged /\
      forall i a b, merged !! i = Some a -> merged !! S i = Some b -> ~ mergeable a b
  | Err e => e = LengthOverflow
  end.
Proof.
  intros Hl. unfold merge_adjacent_locations.
  assert (match merge_loop [] locations with
    | Ok merged => concat (frames_of <$> merged) = concat (frames_of <$> locations) /\
        Forall location_ok merged /\ unmerged (reverse merged)
    | Err e => e = LengthOverflow end) as H by (apply (merge_loop_exact []); [done..|]; by intros [|?] ???).
  destruct (merge_loop [] locations) as [merged|e]; [|done]. destruct H as (H1 & H2 & H3). split; [done|]. split; [done|].
  intros i a b Ha Hb. apply (H3 (length merged - S (S i))%nat a b).
  - rewrite reverse_lookup by (apply lookup_lt_Some in Hb; lia).
    rewrite <- Hb. f_equal. apply lookup_lt_Some in Hb. lia.
  - rewrite reverse_lookup by (apply lookup_lt_Some in Hb; lia).
    rewrite <- Ha. f_equal. apply lookup_lt_Some in Hb. lia.
Qed.

Lemma merge_keeps_frames_witness :
  merge_adjacent_locations [mkLocation (mkChunkId 1 2) 0 65501; mkLocation (mkChunkId 1 2) 65536 7] =
    Ok [mkLocation (mkChunkId 1 2) 0 65508] /\
  concat (frames_of <$> [mkLocation (mkChunkId 1 2) 0 65508]) =
    [(mkChunkId 1 2, 0, 65501); (mkChunkId 1 2, 65536, 7)].
Proof.
  pose proof (merge_keeps_frames [mkLocation (mkChunkId 1 2) 0 65501; mkLocation (mkChunkId 1 2) 65536 7]) as H.
  assert (merge_adjacent_locations [mkLocation (mkChunkId 1 2) 0 65501; mkLocation (mkChunkId 1 2) 65536 7] =
    Ok [mkLocation (mkChunkId 1 2) 0 65508]) as E by reflexivity.
  split; [exact E|]. rewrite E in H. destruct H as [H _]; [repeat constructor; simpl; lia|].
  rewrite H. reflexivity.
Defined.

(** The validation looks at pairs only: one empty location passes. *)
Example single_empty_location_passes id off : validate_contiguous_locations [mkLocation id off 0] = Ok ().
Proof. done. Qed.

End FrameGeometry.
