(* ===== verification/FrameGroup.v ===== *)
(** * Append groups

    Models [src/lib/crowdb-protocol/src/frame/group.rs]: a Stream append is
    written as a head frame and its followers, and is valid only as a whole.
    The validator is the bounded state that follows the frames of one append.

    [append_of] gives the bytes of an append; the encoder writes exactly these
    bytes, and the parser accepts a byte string exactly when it begins with the
    bytes of some append at that offset. *)

From stdpp Require Import prelude list list_numbers.
From Stdlib Require Import ZArith Lia.
From S2P Require Import Prelude Roles Bytes WalRecord KeyEncoding Frame FrameGeometry.

Module FrameGroup.
Import KeyEncoding Frame FrameGeometry.

Record ParsedAppendGroup := mkGroup {
  group_logical_length : Z;
  group_physical_length : Z;
  group_frame_count : Z;
}.

Record AppendGroupValidator := mkValidator {
  head_offset : Z;
  next_offset : Z;
  v_logical_length : Z;
  v_frame_count : Z;
  observed : Z;
  v_write_time_ms : Z;
  v_chunk : ChunkId;
}.

Definition is_complete (v : AppendGroupValidator) : bool := v.(observed) =? v.(v_frame_count).

Definition expected_role (v : AppendGroupValidator) : FrameRole :=
  if v.(observed) =? 0 then Head v.(v_logical_length) v.(v_frame_count)
  else Follower v.(head_offset) v.(observed).

(** The validator is assigned only when every check has passed. *)
Definition validator_push (v : AppendGroupValidator) (offset : Z) (frame : ParsedFrame)
    : result AppendGroupValidator FrameError :=
  let remaining := sat_sub64 v.(v_logical_length) (v.(observed) * MAX_FRAME_GROUP_PAYLOAD_BYTES) in
  if (v.(v_frame_count) <=? v.(observed))
     || negb (offset =? v.(next_offset))
     || negb (bool_decide (frame.(header).(magic) = StreamV2))
     || negb (bool_decide (frame.(role) = expected_role v))
     || negb (bool_decide (frame.(chunk_id) = v.(v_chunk)))
     || negb (frame.(header).(payload_offset) =? FRAME_GROUP_HEADER_BYTES)
     || negb (frame.(physical_length) =? FRAME_GROUP_HEADER_BYTES + len frame.(payload) + FRAME_FOOTER_BYTES)
     || negb (frame.(header).(write_time_ms) =? v.(v_write_time_ms))
     || negb (len frame.(payload) =? Z.min remaining MAX_FRAME_GROUP_PAYLOAD_BYTES)
  then Err InvalidGroup
  else
    let? next := ok_or (checked_add offset frame.(physical_length)) LengthOverflow in
    Ok (mkValidator v.(head_offset) next v.(v_logical_length) v.(v_frame_count) (v.(observed) + 1)
          v.(v_write_time_ms) v.(v_chunk)).

Definition validator_new (head_offset : Z) (head : ParsedFrame) : result AppendGroupValidator FrameError :=
  match head.(role) with
  | Head logical_length frame_count =>
      if negb (bool_decide (head.(header).(magic) = StreamV2))
         || negb (frame_count =? div_ceil logical_length MAX_FRAME_GROUP_PAYLOAD_BYTES)
      then Err InvalidGroup
      else
        let? length := layout_length StreamGroupV2 logical_length in
        let? _ := ok_or (checked_add head_offset length) LengthOverflow in
        validator_push
          (mkValidator head_offset head_offset logical_length frame_count 0
             head.(header).(write_time_ms) head.(chunk_id)) head_offset head
  | _ => Err InvalidGroup
  end.

Definition validator_finish (v : AppendGroupValidator) : result ParsedAppendGroup FrameError :=
  if negb (is_complete v) then Err InvalidGroup
  else Ok (mkGroup v.(v_logical_length) (v.(next_offset) - v.(head_offset)) v.(v_frame_count)).

Section groups.
Context (upd : Z -> bytes -> Z).

(** The header, payload view and footer of frame [ordinal] of an append. *)
Definition group_frame_views (id : ChunkId) (head_offset : Z) (payload : bytes) (write_time_ms frame_count ordinal : Z)
    : result (list bytes) FrameError :=
  let start := ordinal * MAX_FRAME_GROUP_PAYLOAD_BYTES in
  let stop := Z.min (sat_add64 start MAX_FRAME_GROUP_PAYLOAD_BYTES) (len payload) in
  let part := sub payload start stop in
  if 65535 <? len part then Err PayloadTooLarge
  else
    let header := write_header_region (replicate 27 0)
                    (mkHeader StreamV2 FRAME_GROUP_HEADER_BYTES (len part) write_time_ms) in
    let role := if ordinal =? 0 then 1 else 2 in
    let value := if ordinal =? 0 then len payload else head_offset in
    let? number := if ordinal =? 0 then Ok frame_count
                   else if ordinal <? 2 ^ 32 then Ok ordinal else Err LengthOverflow in
    let header := take 14 header ++ [role] ++ to_le_bytes 8 value ++ to_le_bytes 4 number in
    let footer := to_le_bytes 4 (crc32c_parts upd [header; part]) ++ drop 4 (replicate 20 0) in
    let? footer := set_frame_chunk_id id footer in
    Ok [header; part; footer].

(** The loop over [(0..payload.len()).step_by(..).enumerate()]. *)
Fixpoint group_views (id : ChunkId) (head_offset : Z) (payload : bytes) (write_time_ms frame_count : Z)
    (ordinals : list Z) : result (list bytes) FrameError :=
  match ordinals with
  | [] => Ok []
  | ordinal :: ordinals =>
      let? views := group_frame_views id head_offset payload write_time_ms frame_count ordinal in
      let? rest := group_views id head_offset payload write_time_ms frame_count ordinals in
      Ok (views ++ rest)
  end.

Definition encode_append_group_views (id : ChunkId) (head_offset : Z) (payload : bytes) (write_time_ms : Z)
    : result (list bytes) FrameError :=
  let logical_length := len payload in
  let count := div_ceil (len payload) MAX_FRAME_GROUP_PAYLOAD_BYTES in
  if 2 ^ 32 <=? count then Err LengthOverflow
  else if count =? 0 then Err InvalidGroup
  else
    let? length := layout_length StreamGroupV2 logical_length in
    let? _ := ok_or (checked_add head_offset length) LengthOverflow in
    let? _ := ok_or (checked_mul count 3) LengthOverflow in
    group_views id head_offset payload write_time_ms count (seqZ 0 count).

(** The loop of [parse_append_group]: every turn takes a frame off [data], whose
    length bounds the number of turns. *)
Fixpoint group_loop (fuel : nat) (data : bytes) (id : ChunkId) (head_offset cursor : Z) (v : AppendGroupValidator)
    : result AppendGroupValidator FrameError :=
  if is_complete v then Ok v
  else match fuel with
  | O => Err InvalidGroup
  | S fuel =>
      let? frame := parse_frame upd (drop (Z.to_nat cursor) data) id in
      let? offset := ok_or (checked_add head_offset cursor) LengthOverflow in
      let? v := validator_push v offset frame in
      let? cursor := ok_or (checked_add cursor frame.(physical_length)) LengthOverflow in
      group_loop fuel data id head_offset cursor v
  end.

Definition parse_append_group (data : bytes) (id : ChunkId) (head_offset : Z)
    : result ParsedAppendGroup FrameError :=
  let? head := parse_frame upd data id in
  let cursor := head.(physical_length) in
  let? v := validator_new head_offset head in
  let? v := group_loop (length data) data id head_offset cursor v in
  validator_finish v.

End groups.

(** ** The bytes of an append *)

Abbreviation CAP := MAX_FRAME_GROUP_PAYLOAD_BYTES.

(** Frame [k] of an append of [n] bytes at offset [h], holding [part]. *)
Definition gframe (id : ChunkId) (h n t k : Z) (part : bytes) : ParsedFrame :=
  {| header := mkHeader StreamV2 FRAME_GROUP_HEADER_BYTES (len part) t;
     role := if k =? 0 then Head n (div_ceil n CAP) else Follower h k;
     payload := part; chunk_id := id; physical_length := 27 + len part + 20 |}.

Section bytes_of.
Context (upd : Z -> bytes -> Z).

Fixpoint group_bytes (id : ChunkId) (h n t k : Z) (parts : list bytes) : bytes :=
  match parts with
  | [] => []
  | part :: parts => frame_of upd (gframe id h n t k part) ++ group_bytes id h n t (k + 1) parts
  end.

Definition append_of (id : ChunkId) (h t : Z) (payload : bytes) : bytes :=
  group_bytes id h (len payload) t 0 (chunks CAP payload).

End bytes_of.

(** Where frame [k] begins, from the head; the end of the append for the frame after the last. *)
Definition pos (n k : Z) : Z := Z.min (k * MAX_FRAME_BYTES) (occupied StreamGroupV2 n).

(** The validator that has seen [k] frames. *)
Definition vstate (id : ChunkId) (h n t k : Z) : AppendGroupValidator :=
  mkValidator h (h + pos n k) n (div_ceil n CAP) k t id.

Record append_ok (id : ChunkId) (h n t : Z) : Prop := {
  ap_id : id_ok id;
  ap_time : 0 <= t < 2 ^ 64;
  ap_head : 0 <= h;
  ap_size : 0 < n;
  ap_count : div_ceil n CAP < 2 ^ 32;
  ap_end : h + occupied StreamGroupV2 n <= u64_max;
}.

Lemma occupied_group n : occupied StreamGroupV2 n = n + div_ceil n CAP * 47.
Proof. done. Qed.

Lemma count_spec n : 0 < n -> CAP * (div_ceil n CAP - 1) < n <= CAP * div_ceil n CAP.
Proof. intros Hn. destruct (ceil_spec n CAP) as [?|[? _]]; lia. Qed.

(** A frame that is not the last is full; the last holds what remains. *)
Lemma part_room n k : 0 < n -> 0 <= k -> 
  (k < div_ceil n CAP <-> 0 < n - k * CAP) /\
  (k < div_ceil n CAP -> pos n k = k * MAX_FRAME_BYTES /\
     pos n (k + 1) = k * MAX_FRAME_BYTES + 47 + Z.min (n - k * CAP) CAP) /\
  (k = div_ceil n CAP -> pos n k = occupied StreamGroupV2 n).
Proof.
  intros Hn Hk. pose proof (count_spec n Hn). unfold pos. rewrite occupied_group.
  set (c := div_ceil n CAP) in *. split; [lia|]. split; [|lia].
  intros Hlt. split; [lia|]. destruct (decide (k + 1 = c)); lia.
Qed.

Lemma pos_bounds n k : 0 < n -> 0 <= k -> 0 <= pos n k <= occupied StreamGroupV2 n.
Proof. intros Hn Hk. pose proof (count_spec n Hn). unfold pos. rewrite occupied_group. lia. Qed.

(** A full part, or a last one, is a chunk of its own. *)
Lemma chunks_join part rest :
  0 < len part <= CAP -> len part = CAP \/ len rest = 0 -> chunks CAP (part ++ rest) = part :: chunks CAP rest.
Proof.
  intros Hl Hor. rewrite chunks_cons.
  2: lia.
  2: { intros E. apply (f_equal len) in E. rewrite len_app in E. change (len (@nil Z)) with 0 in E. unfold len in *. lia. }
  destruct (decide (len part = CAP)) as [E|E].
  - rewrite sub_prefix by done. by rewrite drop_app_length' by (unfold len in E; lia).
  - assert (rest = []) as -> by (apply nil_length_inv; unfold len in *; lia).
    rewrite app_nil_r. unfold sub. rewrite drop_0, take_ge, drop_ge by (unfold len in *; lia). done.
Qed.

Lemma chunks_snoc done part k :
  0 < len part <= CAP -> 0 <= k -> len done = k * CAP ->
  chunks CAP (done ++ part) = chunks CAP done ++ [part] /\ len (chunks CAP done) = k.
Proof.
  intros Hl Hk. revert done. pattern k. apply natlike_ind; [| |done].
  - intros done Hd. assert (done = []) as -> by (apply nil_length_inv; unfold len in *; lia).
    split; [|done]. cbn [app]. rewrite <- (app_nil_r part) at 1. rewrite chunks_join by (done || by right). done.
  - clear k Hk. intros k Hk IH done Hd.
    rewrite <- (take_drop (Z.to_nat CAP) done) in Hd |- *. set (a := take _ done) in *. set (b := drop _ done) in *.
    assert (len a = CAP) as Ha.
    { unfold a, b in *. rewrite take_drop in Hd. unfold len in *. rewrite length_take. lia. }
    rewrite len_app in Hd. destruct (IH b) as [IH1 IH2]; [lia|].
    rewrite <- app_assoc, (chunks_join a (b ++ part)), (chunks_join a b) by lia. cbn [app]. rewrite IH1. split; [done|].
    unfold len in *. cbn [length]. lia.
Qed.

Section groups_exact.
Context (upd : Z -> bytes -> Z) `{!Crc32c upd}.
Context (id : ChunkId) (h n t : Z) (Hap : append_ok id h n t).

Lemma gframe_ok k part :
  0 <= k < div_ceil n CAP -> Forall is_byte part -> len part <= CAP -> frame_ok (gframe id h n t k part).
Proof using Hap.
  destruct Hap as [Hid Ht Hh Hn Hc He]. intros Hk Hb Hl. rewrite occupied_group in He. unfold u64_max in He.
  pose proof (count_spec n Hn).
  split; unfold gframe; cbn [header role payload chunk_id physical_length magic payload_offset payload_size write_time_ms];
    try done; try lia.
  - destruct (Z.eqb_spec k 0); cbn [role_ok]; (split; [done|]); lia.
  - rewrite len_role. by destruct (k =? 0).
Qed.

(** The validator accepts frame [k] at its place ... *)
Lemma validator_accepts k part :
  0 <= k < div_ceil n CAP -> len part = Z.min (n - k * CAP) CAP ->
  validator_push (vstate id h n t k) (h + pos n k) (gframe id h n t k part) = Ok (vstate id h n t (k + 1)).
Proof using Hap.
  destruct Hap as [Hid Ht Hh Hn Hc He]. intros Hk Hl.
  destruct (part_room n k Hn) as (Hroom & Hpos & _); [lia|]. pose proof (pos_bounds n (k + 1) Hn ltac:(lia)).
  destruct Hpos as [Hp Hp1]; [lia|]. unfold validator_push, vstate, expected_role, gframe.
  cbn [v_logical_length observed v_frame_count next_offset v_chunk v_write_time_ms head_offset
       header role payload chunk_id physical_length magic payload_offset payload_size write_time_ms]. rewrite Hl.
  destruct (Z.leb_spec (div_ceil n CAP) k); [lia|]. rewrite !bool_decide_eq_true_2 by (done || by destruct (k =? 0)).
  rewrite !Z.eqb_refl. cbn [negb orb]. unfold sat_sub64.
  replace (Z.max (n - k * CAP) 0) with (n - k * CAP) by lia. rewrite Z.eqb_refl. cbn [negb orb].
  unfold checked_add. rewrite Hp. destruct (Z.leb_spec (h + k * 65536 + (27 + Z.min (n - k * CAP) CAP + 20)) u64_max); [|lia].
  cbn [ok_or result_bind]. rewrite Hp1. do 2 f_equal; lia.
Qed.

(** ... and nothing else. *)
Lemma push_sound k offset frame v :
  0 <= k -> frame_ok frame -> validator_push (vstate id h n t k) offset frame = Ok v ->
  k < div_ceil n CAP /\ offset = h + pos n k /\ v = vstate id h n t (k + 1) /\
  frame = gframe id h n t k frame.(payload) /\ len frame.(payload) = Z.min (n - k * CAP) CAP.
Proof using Hap.
  intros Hk Hf Hpush. pose proof Hap as [Hid Ht Hh Hn Hc He]. pose proof (ok_size _ Hf) as HS.
  assert (k < div_ceil n CAP /\ offset = h + pos n k /\ frame = gframe id h n t k frame.(payload) /\
          len frame.(payload) = Z.min (n - k * CAP) CAP) as (Hlt & -> & Hfr & Hl).
  { revert Hpush. unfold validator_push, vstate, expected_role.
    cbn [v_logical_length observed v_frame_count next_offset v_chunk v_write_time_ms head_offset].
    destruct frame as [[m o z w] r pl i L].
    cbn [header role payload chunk_id physical_length magic payload_offset payload_size write_time_ms] in *.
    destruct (Z.leb_spec (div_ceil n CAP) k) as [|Hlt]; [done|]. cbn [orb].
    destruct (Z.eqb_spec offset (h + pos n k)) as [->|]; [|done]. cbn [negb orb].
    case_bool_decide as E1; [|done]. cbn [negb orb]. case_bool_decide as E2; [|done]. cbn [negb orb].
    case_bool_decide as E3; [|done]. cbn [negb orb].
    destruct (Z.eqb_spec o 27) as [->|]; [|done]. cbn [negb orb].
    destruct (Z.eqb_spec L (27 + len pl + 20)) as [->|]; [|done]. cbn [negb orb].
    destruct (Z.eqb_spec w t) as [->|]; [|done]. cbn [negb orb].
    destruct (Z.eqb_spec (len pl) (Z.min (sat_sub64 n (k * CAP)) CAP)) as [E|]; [|done]. intros _.
    destruct (part_room n k Hn Hk) as [Hroom _]. unfold sat_sub64 in E. split; [done|]. split; [done|].
    split; [|lia]. unfold gframe. rewrite E1, E2, E3, HS. by destruct (k =? 0). }
  rewrite Hfr, validator_accepts in Hpush by (done || lia). injection Hpush as <-. done.
Qed.

(** *** Validating a whole append *)

Lemma group_loop_accepts rest k data cursor tail fuel :
  0 <= k -> Forall is_byte rest -> len rest = Z.max (n - k * CAP) 0 -> k <= div_ceil n CAP ->
  cursor = pos n k -> drop (Z.to_nat cursor) data = group_bytes upd id h n t k (chunks CAP rest) ++ tail ->
  (length (chunks CAP rest) <= fuel)%nat ->
  group_loop upd fuel data id h cursor (vstate id h n t k) = Ok (vstate id h n t (div_ceil n CAP)).
Proof using Hap Crc32c0.
  pose proof Hap as [Hid Ht Hh Hn Hc He].
  revert k rest cursor tail. induction fuel as [|fuel IH]; intros k rest cursor tail Hk Hb Hl Hkc -> Hd Hf;
    destruct (part_room n k Hn Hk) as (Hroom & Hpos & Hlast).
  - destruct (decide (k = div_ceil n CAP)) as [->|]; [unfold group_loop, is_complete; cbn; by rewrite Z.eqb_refl|].
    pose proof (chunks_len CAP ltac:(lia) rest) as HL. pose proof (count_spec (len rest)). unfold len in HL at 1. lia.
  - cbn [group_loop]. unfold is_complete at 1. cbn [vstate observed v_frame_count].
    destruct (Z.eqb_spec k (div_ceil n CAP)) as [->|Hne]; [done|].
    destruct Hpos as [Hp Hp1]; [lia|]. pose proof (pos_bounds n k Hn Hk). pose proof (pos_bounds n (k + 1) Hn ltac:(lia)).
    rewrite chunks_cons in Hd, Hf by first [lia | intros ->; change (len (@nil Z)) with 0 in Hl; lia].
    cbn [group_bytes length] in Hd, Hf. set (part := sub rest 0 CAP) in *.
    assert (len part = Z.min (n - k * CAP) CAP) as Hpl.
    { unfold part, sub, len in *. rewrite drop_0, Z.sub_0_r, length_take. lia. }
    assert (frame_ok (gframe id h n t k part)) as Hok by (apply gframe_ok; [lia|by apply sub_Forall|lia]).
    pose proof (len_frame upd _ Hok) as HF. cbn [gframe physical_length] in HF.
    rewrite Hd, <- app_assoc, parse_frame_of, bool_decide_eq_true_2 by done. cbn [result_bind].
    unfold checked_add at 1. destruct (Z.leb_spec (h + pos n k) u64_max); [|lia]. cbn [ok_or result_bind].
    rewrite validator_accepts by (done || lia). cbn [result_bind gframe physical_length].
    unfold checked_add. destruct (Z.leb_spec (pos n k + (27 + len part + 20)) u64_max); [|lia]. cbn [ok_or result_bind].
    eapply (IH (k + 1) (drop (Z.to_nat CAP) rest)).
    + lia.
    + by apply Forall_drop.
    + unfold len in *. rewrite length_drop. lia.
    + lia.
    + lia.
    + replace (Z.to_nat (pos n k + (27 + len part + 20))) with
        (Z.to_nat (pos n k) + length (frame_of upd (gframe id h n t k part)))%nat by (unfold len in *; lia).
      rewrite <- drop_drop, Hd, <- app_assoc, drop_app_length. done.
    + lia.
Qed.

(** Conversely, what the loop accepts is the rest of an append. *)
Lemma group_loop_sound fuel k data cursor v :
  0 <= k <= div_ceil n CAP -> Forall is_byte data -> cursor = pos n k ->
  group_loop upd fuel data id h cursor (vstate id h n t k) = Ok v ->
  v = vstate id h n t (div_ceil n CAP) /\
  exists rest tail, Forall is_byte rest /\ len rest = Z.max (n - k * CAP) 0 /\
    drop (Z.to_nat cursor) data = group_bytes upd id h n t k (chunks CAP rest) ++ tail.
Proof using Hap Crc32c0.
  pose proof Hap as [Hid Ht Hh Hn Hc He].
  revert k cursor. induction fuel as [|fuel IH]; intros k cursor Hk Hb -> ; cbn [group_loop];
    unfold is_complete at 1; cbn [vstate observed v_frame_count];
    (destruct (Z.eqb_spec k (div_ceil n CAP)) as [->|Hne];
      [intros [= <-]; split; [done|]; exists [], (drop (Z.to_nat (pos n (div_ceil n CAP))) data);
       pose proof (count_spec n Hn); split; [done|]; split; [change (len (@nil Z)) with 0; lia|done]|]); [done|].
  destruct (part_room n k Hn) as (Hroom & Hpos & _); [lia|]. destruct Hpos as [Hp Hp1]; [lia|].
  destruct (parse_frame upd _ id) as [frame|] eqn:Ep; [|done]. cbn [result_bind].
  apply parse_frame_sound in Ep as (Hok & _ & tail & Hd); [|first [by apply Forall_drop | exact _]..].
  destruct (checked_add h _) as [offset|]; [|done]. cbn [ok_or result_bind].
  destruct (validator_push _ _ _) as [v1|] eqn:Ev; [|done]. cbn [result_bind].
  apply push_sound in Ev as (Hlt & _ & -> & Hfr & Hl); [|lia|done].
  pose proof (len_frame upd _ Hok) as HF. assert (Forall is_byte (payload frame)) as Hpb by apply Hok.
  set (part := payload frame) in *. rewrite Hfr in Hd, HF |- *. cbn [gframe physical_length] in HF |- *.
  unfold checked_add. destruct (Z.leb_spec (pos n k + (27 + len part + 20)) u64_max); [|done]. cbn [ok_or result_bind].
  intros Hg. apply IH in Hg as (-> & rest & tail' & Hrb & Hrl & Hrd); [|lia|done|lia].
  split; [done|]. exists (part ++ rest), tail'. split; [by apply Forall_app|]. split; [rewrite len_app; lia|].
  rewrite chunks_join by lia.
  cbn [group_bytes]. rewrite <- app_assoc. rewrite Hd at 1. f_equal. rewrite <- Hrd.
  replace (Z.to_nat (pos n k + (27 + len part + 20))) with
    (Z.to_nat (pos n k) + length (frame_of upd (gframe id h n t k part)))%nat by (unfold len in *; lia).
  rewrite <- drop_drop, Hd, drop_app_length. done.
Qed.

Lemma vstate_0 : mkValidator h h n (div_ceil n CAP) 0 t id = vstate id h n t 0.
Proof using Hap.
  pose proof Hap as [Hid Ht Hh Hn Hc He]. pose proof (pos_bounds n 0 Hn). unfold vstate, pos in *. f_equal. lia.
Qed.

Lemma new_accepts part :
  len part = Z.min n CAP -> validator_new h (gframe id h n t 0 part) = Ok (vstate id h n t 1).
Proof using Hap.
  pose proof Hap as [Hid Ht Hh Hn Hc He]. intros Hl. pose proof (count_spec n Hn).
  unfold validator_new. cbn [gframe role Z.eqb header magic write_time_ms chunk_id]. rewrite Z.eqb_refl.
  rewrite layout_length_exact by lia.
  rewrite occupied_group in *.
  destruct (Z.leb_spec (n + div_ceil n CAP * 47) u64_max); [|lia]. cbn [negb orb bool_decide result_bind].
  rewrite bool_decide_eq_true_2 by done. cbn [negb orb]. unfold checked_add.
  destruct (Z.leb_spec (h + (n + div_ceil n CAP * 47)) u64_max); [|lia]. cbn [ok_or result_bind].
  rewrite vstate_0. replace h with (h + pos n 0) at 2.
  - apply (validator_accepts 0 part); lia.
  - pose proof (pos_bounds n 0 Hn). unfold pos. rewrite occupied_group. lia.
Qed.

Lemma finish_accepts :
  validator_finish (vstate id h n t (div_ceil n CAP)) =
    Ok (mkGroup n (occupied StreamGroupV2 n) (div_ceil n CAP)).
Proof using Hap.
  pose proof Hap as [Hid Ht Hh Hn Hc He]. unfold validator_finish, is_complete. cbn. rewrite Z.eqb_refl. cbn [negb].
  do 2 f_equal. pose proof (count_spec n Hn). destruct (part_room n (div_ceil n CAP) Hn) as (_ & _ & H'); [lia|].
  rewrite H' by done. lia.
Qed.

End groups_exact.

Lemma new_sound h head v :
  0 <= h -> frame_ok head -> validator_new h head = Ok v ->
  exists n t, append_ok head.(chunk_id) h n t /\ v = vstate head.(chunk_id) h n t 1 /\
    head = gframe head.(chunk_id) h n t 0 head.(payload) /\ len head.(payload) = Z.min n CAP /\
    head.(role) = Head n (div_ceil n CAP).
Proof.
  intros Hh Hf. pose proof (ok_role _ Hf) as Hr. unfold validator_new.
  destruct (role head) as [|n c|] eqn:Er; [done| |done]. cbn [role_ok] in Hr. destruct Hr as (Hm & Hn & Hc).
  rewrite (bool_decide_eq_true_2 _ Hm). cbn [negb orb].
  destruct (Z.eqb_spec c (div_ceil n CAP)) as [->|]; [|done]. cbn [negb]. rewrite layout_length_exact by lia.
  destruct (Z.leb_spec (occupied StreamGroupV2 n) u64_max); cbn [result_bind]; [|done]. unfold checked_add.
  destruct (Z.leb_spec (h + occupied StreamGroupV2 n) u64_max); cbn [ok_or result_bind]; [|done].
  assert (append_ok (chunk_id head) h n (write_time_ms (header head))) as Hap.
  { split; [apply Hf|apply Hf|lia..]. }
  rewrite (vstate_0 _ _ _ _ Hap). intros Hp. apply (push_sound _ _ _ _ Hap) in Hp as (_ & _ & -> & Hfr & Hl); [|done|done].
  exists n, (write_time_ms (header head)). split; [done|]. split; [done|]. split; [done|]. split; [|done].
  rewrite Hl. f_equal. lia.
Qed.

(** ** The encoder and the parser *)

Section codec_exact.
Context (upd : Z -> bytes -> Z) `{!Crc32c upd}.

Lemma append_cons id h t payload :
  payload <> [] ->
  append_of upd id h t payload =
    frame_of upd (gframe id h (len payload) t 0 (sub payload 0 CAP)) ++
    group_bytes upd id h (len payload) t 1 (chunks CAP (drop (Z.to_nat CAP) payload)).
Proof. intros Hp. unfold append_of. by rewrite chunks_cons by (done || lia). Qed.

Lemma group_bytes_snoc id h n t k parts p :
  group_bytes upd id h n t k (parts ++ [p]) =
    group_bytes upd id h n t k parts ++ frame_of upd (gframe id h n t (k + len parts) p).
Proof.
  revert k. induction parts as [|q parts IH]; intros k; cbn [app group_bytes].
  - by rewrite app_nil_r, Z.add_0_r.
  - rewrite IH, <- app_assoc. do 4 f_equal. unfold len. cbn [length]. lia.
Qed.

Lemma group_bytes_len id h n t k parts : (length parts <= length (group_bytes upd id h n t k parts))%nat.
Proof.
  revert k. induction parts as [|p parts IH]; intros k; [done|]. cbn [group_bytes length]. unfold frame_of.
  rewrite !length_app, to_le_bytes_length. specialize (IH (k + 1)). lia.
Qed.

Lemma parse_group_accepts id h t payload tail :
  append_ok id h (len payload) t -> Forall is_byte payload ->
  parse_append_group upd (append_of upd id h t payload ++ tail) id h =
    Ok (mkGroup (len payload) (occupied StreamGroupV2 (len payload)) (div_ceil (len payload) CAP)).
Proof using Crc32c0.
  intros Hap Hb. pose proof Hap as [Hid Ht Hh Hn Hc He]. pose proof (count_spec _ Hn).
  assert (payload <> []) as Hne by (intros ->; done). unfold parse_append_group.
  rewrite append_cons, <- app_assoc by done. set (n := len payload) in *. set (part := sub payload 0 CAP).
  assert (len part = Z.min n CAP) as Hpl by (unfold part, sub, n, len; rewrite drop_0, Z.sub_0_r, length_take; lia).
  assert (frame_ok (gframe id h n t 0 part)) as Hok by (apply gframe_ok; [done|lia|by apply sub_Forall|lia]).
  rewrite parse_frame_of, bool_decide_eq_true_2 by done. cbn [result_bind]. rewrite new_accepts by done. cbn [result_bind].
  pose proof (len_frame upd _ Hok) as HF. cbn [gframe physical_length] in HF |- *.
  destruct (part_room n 0 Hn) as (_ & Hpos & _); [lia|]. destruct Hpos as [_ Hp1]; [lia|].
  rewrite (group_loop_accepts _ _ _ _ _ Hap (drop (Z.to_nat CAP) payload) 1 _ _ tail).
  - cbn [result_bind]. by apply finish_accepts.
  - lia.
  - by apply Forall_drop.
  - unfold n, len. rewrite length_drop. lia.
  - lia.
  - change (0 + 1) with 1 in Hp1. lia.
  - rewrite drop_app_length' by (unfold len in *; lia). done.
  - rewrite !length_app.
    pose proof (group_bytes_len id h n t 1 (chunks CAP (drop (Z.to_nat CAP) payload))). lia.
Qed.

Lemma parse_group_sound data id h g :
  Forall is_byte data -> 0 <= h -> parse_append_group upd data id h = Ok g ->
  exists t payload tail, append_ok id h (len payload) t /\ Forall is_byte payload /\
    data = append_of upd id h t payload ++ tail.
Proof using Crc32c0.
  intros Hb Hh. unfold parse_append_group. destruct (parse_frame upd data id) as [head|] eqn:Ep; [|done].
  apply parse_frame_sound in Ep as (Hok & Hid' & tail & Hd); [|first [done | exact _]..]. cbn [result_bind].
  destruct (validator_new h head) as [v|] eqn:Ev; [|done]. cbn [result_bind].
  apply new_sound in Ev as (n & t & Hap & -> & Hfr & Hl & _); [|done..].
  assert (Forall is_byte (payload head)) as Hpb by apply Hok. rewrite Hid' in *. pose proof Hap as [_ _ _ Hn _ _].
  pose proof (count_spec n Hn). pose proof (len_frame upd _ Hok) as HF. set (part := payload head) in *.
  destruct (part_room n 0 Hn) as (_ & Hpos & _); [lia|]. destruct Hpos as [_ Hp1]; [lia|].
  change (0 + 1) with 1 in Hp1. rewrite Hfr in Hd, HF |- *. cbn [gframe physical_length] in HF |- *.
  destruct (group_loop _ _ _ _ _ _ _) as [v|] eqn:Eg; [|done]. intros _.
  apply (group_loop_sound _ _ _ _ _ Hap) in Eg as (_ & rest & tail' & Hrb & Hrl & Hrd); [|lia|done|lia].
  exists t, (part ++ rest), tail'. replace (len (part ++ rest)) with n by (rewrite len_app; lia).
  split; [done|]. split; [by apply Forall_app|]. unfold append_of. rewrite chunks_join by lia.
  replace (len (part ++ rest)) with n by (rewrite len_app; lia). cbn [group_bytes]. rewrite <- app_assoc.
  rewrite Hd at 1. f_equal. change (0 + 1) with 1. rewrite <- Hrd, Hd, drop_app_length' by (unfold len in *; lia). done.
Qed.

(** The length of the frames from [k] on. *)
Lemma len_group id h n t k rest :
  append_ok id h n t -> 0 <= k <= div_ceil n CAP -> Forall is_byte rest -> len rest = Z.max (n - k * CAP) 0 ->
  len (group_bytes upd id h n t k (chunks CAP rest)) = occupied StreamGroupV2 n - pos n k.
Proof.
  intros Hap. pose proof Hap as [_ _ _ Hn _ _]. pose proof (count_spec n Hn). revert k.
  induction rest as [rest IH] using (induction_ltof1 _ (@length Z)). intros k Hk Hb Hl.
  destruct (part_room n k Hn) as (Hroom & Hpos & Hlast); [lia|].
  destruct (decide (rest = [])) as [->|Hne].
  { change (len (@nil Z)) with 0 in Hl. change (len (group_bytes upd id h n t k (chunks CAP []))) with 0. rewrite Hlast by lia. lia. }
  assert (0 < len rest) by (destruct rest; [done|unfold len; cbn [length]; lia]).
  destruct Hpos as [Hp Hp1]; [lia|]. rewrite chunks_cons by (done || lia). cbn [group_bytes].
  assert (len (sub rest 0 CAP) = Z.min (n - k * CAP) CAP) as Hpl.
  { unfold sub, len in *. rewrite drop_0, Z.sub_0_r, length_take. lia. }
  rewrite len_app, len_frame by (apply gframe_ok; [done|lia|by apply sub_Forall|lia]). cbn [gframe physical_length].
  rewrite (IH (drop (Z.to_nat CAP) rest)).
  - lia.
  - unfold ltof, len in *. rewrite length_drop. lia.
  - lia.
  - by apply Forall_drop.
  - unfold len in *. rewrite length_drop. lia.
Qed.

Lemma len_append id h t payload :
  append_ok id h (len payload) t -> Forall is_byte payload ->
  len (append_of upd id h t payload) = occupied StreamGroupV2 (len payload).
Proof.
  intros Hap Hb. pose proof Hap as [_ _ _ Hn _ _]. pose proof (count_spec _ Hn). unfold append_of.
  rewrite len_group by (done || lia). pose proof (pos_bounds (len payload) 0 Hn). unfold pos in *. lia.
Qed.

(** *** The encoder *)

Lemma group_frame_exact id h payload t k :
  append_ok id h (len payload) t -> 0 <= k < div_ceil (len payload) CAP ->
  exists views, group_frame_views upd id h payload t (div_ceil (len payload) CAP) k = Ok views /\
    concat views = frame_of upd (gframe id h (len payload) t k (sub (drop (Z.to_nat (k * CAP)) payload) 0 CAP)).
Proof using Crc32c0.
  intros Hap Hk. pose proof Hap as [_ _ _ Hn Hc He]. pose proof (count_spec _ Hn). rewrite occupied_group in He.
  unfold group_frame_views. unfold u64_max in He.
  assert (sub payload (k * CAP) (Z.min (sat_add64 (k * CAP) CAP) (len payload)) =
          sub (drop (Z.to_nat (k * CAP)) payload) 0 CAP) as ->.
  { unfold sub. rewrite drop_0. unfold sat_add64, u64_max.
    rewrite <- (take_ge (drop (Z.to_nat (k * CAP)) payload) (Z.to_nat (len payload - k * CAP))) at 2
      by (rewrite length_drop; unfold len; lia).
    rewrite take_take. f_equal. lia. }
  set (part := sub (drop _ _) 0 CAP).
  assert (len part <= CAP) as Hpl by (unfold part, sub, len; rewrite length_take; lia).
  destruct (Z.ltb_spec 65535 (len part)); [lia|]. unfold write_header_region. cbn [magic payload_offset payload_size write_time_ms].
  set (hd := to_le_bytes 2 (magic_u16 StreamV2) ++ _).
  assert (take 14 hd = header_bytes (mkHeader StreamV2 27 (len part) t)) as ->.
  { unfold hd, header_bytes. cbn [magic payload_offset payload_size write_time_ms].
    rewrite !app_assoc, <- (app_assoc _ [0]). rewrite take_app_length'; [done|].
    rewrite !length_app, !to_le_bytes_length. done. }
  assert ((if k =? 0 then Ok (div_ceil (len payload) CAP) else if k <? 2 ^ 32 then Ok k else Err LengthOverflow)
          = Ok (E := FrameError) (if k =? 0 then div_ceil (len payload) CAP else k)) as ->.
  { destruct (k =? 0); [done|]. destruct (Z.ltb_spec k (2 ^ 32)); [done|lia]. }
  cbn [result_bind]. set (head := header_bytes _ ++ _).
  assert (head = header_bytes (mkHeader StreamV2 27 (len part) t) ++
                 role_bytes (if k =? 0 then Head (len payload) (div_ceil (len payload) CAP) else Follower h k)) as ->.
  { unfold head. f_equal. by destruct (k =? 0). }
  unfold set_frame_chunk_id. rewrite len_app, len_le. cbn [drop replicate Z.eqb]. 
  eexists. split; [done|]. unfold frame_of, gframe. cbn [header role Frame.payload chunk_id].
  cbn [concat]. unfold crc32c_parts. rewrite crc_parts_concat by exact _. cbn [concat].
  rewrite !app_nil_r, take_app_length' by by rewrite to_le_bytes_length. by rewrite <- !app_assoc.
Qed.


Lemma group_views_exact id h payload t m k :
  append_ok id h (len payload) t -> Forall is_byte payload -> 0 <= k -> Z.of_nat m = div_ceil (len payload) CAP - k ->
  exists views, group_views upd id h payload t (div_ceil (len payload) CAP) (seqZ k (Z.of_nat m)) = Ok views /\
    concat views = group_bytes upd id h (len payload) t k (chunks CAP (drop (Z.to_nat (k * CAP)) payload)).
Proof using Crc32c0.
  intros Hap Hb. pose proof Hap as [_ _ _ Hn _ _]. pose proof (count_spec _ Hn).
  revert k. induction m as [|m IH]; intros k Hk Hm.
  { exists []. split; [done|]. rewrite drop_ge by (unfold len in *; lia). done. }
  rewrite seqZ_cons by lia. replace (Z.pred (Z.of_nat (S m))) with (Z.of_nat m) by lia. cbn [group_views].
  destruct (group_frame_exact id h payload t k Hap) as (views & -> & Hv); [lia|]. cbn [result_bind].
  destruct (IH (Z.succ k)) as (rest & -> & Hr); [lia|lia|]. cbn [result_bind].
  exists (views ++ rest). split; [done|]. rewrite concat_app, Hv, Hr, (chunks_cons CAP ltac:(lia) (drop (Z.to_nat (k * CAP)) payload)).
  - cbn [group_bytes]. rewrite drop_drop. do 4 f_equal; lia.
  - intros E. apply (f_equal length) in E. rewrite length_drop in E. cbn [length] in E. unfold len in *. lia.
Qed.

(** What encoding an append returns, by its size and offset. *)
Lemma encode_group_exact id h payload t :
  id_ok id -> 0 <= h -> 0 <= t < 2 ^ 64 -> Forall is_byte payload ->
  let n := len payload in
  if (2 ^ 32 <=? div_ceil n CAP) then encode_append_group_views upd id h payload t = Err LengthOverflow
  else if n =? 0 then encode_append_group_views upd id h payload t = Err InvalidGroup
  else if u64_max <? h + occupied StreamGroupV2 n
  then encode_append_group_views upd id h payload t = Err LengthOverflow
  else append_ok id h n t /\
       exists views, encode_append_group_views upd id h payload t = Ok views /\
         concat views = append_of upd id h t payload.
Proof using Crc32c0.
  intros Hid Hh Ht Hb n. unfold encode_append_group_views. fold n. pose proof (len_nonneg payload) as Hn. fold n in Hn.
  destruct (Z.leb_spec (2 ^ 32) (div_ceil n CAP)) as [|Hc]; [done|].
  destruct (Z.eqb_spec n 0) as [->|Hz]; [done|]. pose proof (count_spec n ltac:(lia)).
  destruct (Z.eqb_spec (div_ceil n CAP) 0); [lia|]. rewrite layout_length_exact by lia.
  rewrite occupied_group. destruct (Z.ltb_spec u64_max (h + (n + div_ceil n CAP * 47))) as [Ho|Ho].
  { destruct (Z.leb_spec (n + div_ceil n CAP * 47) u64_max); cbn [result_bind]; [|done]. unfold checked_add.
    destruct (Z.leb_spec (h + (n + div_ceil n CAP * 47)) u64_max); [lia|done]. }
  assert (append_ok id h n t) as Hap by (split; try done; rewrite ?occupied_group; lia). split; [done|].
  destruct (Z.leb_spec (n + div_ceil n CAP * 47) u64_max); [|lia]. cbn [result_bind]. unfold checked_add, checked_mul.
  destruct (Z.leb_spec (h + (n + div_ceil n CAP * 47)) u64_max); [|lia]. cbn [ok_or result_bind].
  destruct (Z.leb_spec (div_ceil n CAP * 3) u64_max); [|unfold u64_max in *; lia]. cbn [ok_or result_bind].
  destruct (group_views_exact id h payload t (Z.to_nat (div_ceil n CAP)) 0 Hap Hb) as (views & Hv & Hc'); [lia|fold n; lia|].
  exists views. rewrite Z2Nat.id in Hv by lia. by rewrite drop_0 in Hc'.
Qed.

End codec_exact.

(** C29. Stream appends on disk.  For a chunk id, a head offset and a write time
    in range, [encode_append_group_views] refuses an append of more than
    2^32 - 1 frames, an empty one and one whose end does not fit in a [u64]; any other is
    written as exactly [append_of] - a head frame and consecutive followers,
    every frame but the last full - whose length is the layout's physical
    length.  [parse_append_group] accepts a byte string if and only if it
    begins with the bytes of some append of this chunk at this very head
    offset, and it then reports that append's logical length, physical length
    and frame count. *)
Theorem append_group_exact upd `{!Crc32c upd} id h :
  id_ok id -> 0 <= h ->
  (forall payload t, 0 <= t < 2 ^ 64 -> Forall is_byte payload ->
     let n := len payload in
     if 2 ^ 32 <=? div_ceil n CAP then encode_append_group_views upd id h payload t = Err LengthOverflow
     else if n =? 0 then encode_append_group_views upd id h payload t = Err InvalidGroup
     else if u64_max <? h + occupied StreamGroupV2 n
     then encode_append_group_views upd id h payload t = Err LengthOverflow
     else exists views, encode_append_group_views upd id h payload t = Ok views /\
            concat views = append_of upd id h t payload /\
            Ok (len (concat views)) = layout_length StreamGroupV2 n) /\
  (forall data g, Forall is_byte data ->
     parse_append_group upd data id h = Ok g <->
     exists t payload tail, append_ok id h (len payload) t /\ Forall is_byte payload /\
       data = append_of upd id h t payload ++ tail /\
       g = mkGroup (len payload) (occupied StreamGroupV2 (len payload)) (div_ceil (len payload) CAP)).
Proof.
  intros Hid Hh. split.
  - intros payload t Ht Hb n. pose proof (encode_group_exact upd id h payload t Hid Hh Ht Hb) as H. cbv zeta in H. fold n in H.
    destruct (2 ^ 32 <=? _); [done|]. destruct (n =? 0); [done|]. destruct (u64_max <? _); [done|].
    destruct H as (Hap & views & Hv & Hc). exists views. split; [done|]. split; [done|].
    rewrite Hc, len_append, layout_length_exact by (done || apply len_nonneg). pose proof Hap as [_ _ _ _ _ He].
    fold n. destruct (Z.leb_spec (occupied StreamGroupV2 n) u64_max); [done|lia].
  - intros data g Hb. split.
    + intros Hp. pose proof Hp as (t & payload & tail & Hap & Hpb & ->)%parse_group_sound; [|done..].
      exists t, payload, tail. rewrite parse_group_accepts in Hp by done. by injection Hp as <-.
    + intros (t & payload & tail & Hap & Hpb & -> & ->). by apply parse_group_accepts.
Qed.

Lemma append_group_exact_witness :
  parse_append_group WalRecord.crc_ref (append_of WalRecord.crc_ref (mkChunkId 1 2) 100 7 [5; 6] ++ [9]) (mkChunkId 1 2) 100 =
    Ok (mkGroup 2 49 1).
Proof.
  eapply (append_group_exact WalRecord.crc_ref (mkChunkId 1 2) 100).
  - split; cbn; lia.
  - lia.
  - apply Forall_forall. intros x Hx. vm_compute in Hx. repeat (apply elem_of_cons in Hx as [->|Hx]; [done|]). by apply elem_of_nil in Hx.
  - exists 7, [5; 6], [9]. split; [split; vm_compute; intuition discriminate|].
    split; [repeat constructor; unfold is_byte; lia|done].
Defined.

End FrameGroup.
