(* ===== verification/FrameScan.v ===== *)
(** * The prefix scan

    Models [src/lib/crowdb-protocol/src/frame/scan.rs] with its modules
    [input.rs] and [complete.rs]: a scanner that is fed a chunk's bytes in
    bounded windows finds the prefix of complete appends (or of ordinary
    frames) and the digest of exactly these bytes.

    The scanner's methods are state-passing functions with errors ([M]).  The
    SHA-256 state is the list of bytes fed to it; [summary] applies the digest
    function, a parameter, to that list. *)

From stdpp Require Import prelude list list_numbers.
From Stdlib Require Import ZArith Lia.
From S2P Require Import Prelude Roles Bytes WalRecord KeyEncoding Frame FrameGeometry FrameGroup.

Module FrameScan.
Import KeyEncoding Frame FrameGeometry FrameGroup.

(** ** The scanner *)

Inductive FrameScanMode := OrdinaryMode | Grouped.

#[export] Instance FrameScanMode_eq_dec : EqDecision FrameScanMode.
Proof. solve_decision. Defined.

Record FrameScanConfig := mkConfig {
  cfg_chunk_id : ChunkId;
  mode : FrameScanMode;
  physical_start : Z;
  physical_limit : Z;
  required_end : Z;
  logical_start : Z;
  max_append_bytes : Z;
}.

Inductive FrameScanStop := Running | Failed | Unwritten | IncompleteAtCapacity | ExactCapacity.

#[export] Instance FrameScanStop_eq_dec : EqDecision FrameScanStop.
Proof. solve_decision. Defined.

Record ScannedFrameExtent := mkExtent {
  e_physical_offset : Z;
  e_physical_length : Z;
  e_logical_offset : Z;
  e_logical_length : Z;
}.

Record FrameScanSummary := mkSummary {
  observed_end : Z;
  s_physical_end : Z;
  s_logical_end : Z;
  s_complete_extents : Z;
  s_frames_parsed : Z;
  digest : bytes;
  s_stop : FrameScanStop;
}.

Record FrameScanBatch := mkBatch { consumed : Z; extents : list ScannedFrameExtent }.

Inductive FrameScanError :=
| FailedObservation
| InvalidBounds
| OutOfOrder
| FrameAt (offset : Z) (source : FrameError)
| RequiredPrefix (required observed : Z)
| CheckpointBoundary (required observed : Z)
| IncompleteObservation (observed limit : Z).

Record PendingGroup := mkPending {
  validator : AppendGroupValidator;
  g_physical_start : Z;
  g_logical_length : Z;
  g_hash : bytes;
}.

Record FramePrefixScanner := mkScanner {
  config : FrameScanConfig;
  input_end : Z;
  physical_end : Z;
  logical_end : Z;
  complete_extents : Z;
  frames_parsed : Z;
  buffer : bytes;
  group : option PendingGroup;
  hash : bytes;
  stop : FrameScanStop;
}.

(** Assignments to a field. *)
Definition set_input (f : Z -> Z) (g : bytes -> bytes) (s : FramePrefixScanner) : FramePrefixScanner :=
  mkScanner s.(config) (f s.(input_end)) s.(physical_end) s.(logical_end) s.(complete_extents)
    s.(frames_parsed) (g s.(buffer)) s.(group) s.(hash) s.(stop).

Definition set_stop (x : FrameScanStop) (s : FramePrefixScanner) : FramePrefixScanner :=
  mkScanner s.(config) s.(input_end) s.(physical_end) s.(logical_end) s.(complete_extents)
    s.(frames_parsed) s.(buffer) s.(group) s.(hash) x.

Definition set_group (x : option PendingGroup) (s : FramePrefixScanner) : FramePrefixScanner :=
  mkScanner s.(config) s.(input_end) s.(physical_end) s.(logical_end) s.(complete_extents)
    s.(frames_parsed) s.(buffer) x s.(hash) s.(stop).

Definition set_hash (x : bytes) (s : FramePrefixScanner) : FramePrefixScanner :=
  mkScanner s.(config) s.(input_end) s.(physical_end) s.(logical_end) s.(complete_extents)
    s.(frames_parsed) s.(buffer) s.(group) x s.(stop).

Definition count_frame (s : FramePrefixScanner) : FramePrefixScanner :=
  mkScanner s.(config) s.(input_end) s.(physical_end) s.(logical_end) s.(complete_extents)
    (s.(frames_parsed) + 1) s.(buffer) s.(group) s.(hash) s.(stop).

Definition set_ends (physical logical : Z) (s : FramePrefixScanner) : FramePrefixScanner :=
  mkScanner s.(config) s.(input_end) physical logical (s.(complete_extents) + 1)
    s.(frames_parsed) s.(buffer) s.(group) s.(hash) s.(stop).

(** Methods: the state after the call and what it returns. *)
Definition M (A : Type) : Type := FramePrefixScanner -> FramePrefixScanner * result A FrameScanError.

#[export] Instance M_ret : MRet M := fun _ x s => (s, Ok x).
#[export] Instance M_bind : MBind M := fun _ _ k m s =>
  match m s with (s, Ok x) => k x s | (s, Err e) => (s, Err e) end.

Definition raise {A} (e : FrameScanError) : M A := fun s => (s, Err e).
Definition get : M FramePrefixScanner := fun s => (s, Ok s).
Definition modify (f : FramePrefixScanner -> FramePrefixScanner) : M unit := fun s => (f s, Ok ()).

(** [.map_err(|error| frame_error(offset, error))?] *)
Definition lift {A} (offset : Z) (r : result A FrameError) : M A :=
  fun s => (s, match r with Ok x => Ok x | Err e => Err (FrameAt offset e) end).

Definition scanner_new (c : FrameScanConfig) : result FramePrefixScanner FrameScanError :=
  if (c.(required_end) <? c.(physical_start)) || (c.(physical_limit) <? c.(required_end))
     || (c.(max_append_bytes) =? 0)
  then Err InvalidBounds
  else Ok (mkScanner c c.(physical_start) c.(physical_start) c.(logical_start) 0 0 [] None [] Running).

Definition check_required : M unit := fun s =>
  if s.(physical_end) <? s.(config).(required_end)
  then (s, Err (RequiredPrefix s.(config).(required_end) s.(physical_end)))
  else (s, Ok ()).

(** [a.checked_add(b).map_or(true, |end| end > limit)] *)
Definition exceeds (a b limit : Z) : bool :=
  match checked_add a b with Some stop => limit <? stop | None => true end.

Definition complete_scan_extent (physical_offset physical_length logical_length : Z) : M ScannedFrameExtent :=
  stop ← lift physical_offset (ok_or (checked_add physical_offset physical_length) LengthOverflow);
  s ← get;
  if bool_decide (s.(config).(mode) = Grouped) && (s.(physical_end) <? s.(config).(required_end))
     && (s.(config).(required_end) <? stop)
  then raise (CheckpointBoundary s.(config).(required_end) stop)
  else
    let logical_offset := s.(logical_end) in
    logical ← lift physical_offset (ok_or (checked_add logical_offset logical_length) LengthOverflow);
    _ ← modify (set_ends stop logical);
    mret (mkExtent physical_offset physical_length logical_offset logical_length).

Abbreviation MAX_FRAME_SCAN_INPUT_BYTES := 1048576.
Abbreviation MAX_FRAME_SCAN_EXTENTS := 1024.

Section scanner.
Context (upd : Z -> bytes -> Z) (sha256 : bytes -> bytes).

Definition accept_scan_frame (offset : Z) (data : bytes) : M (option ScannedFrameExtent) :=
  s ← get;
  frame ← lift offset (parse_frame upd data s.(config).(cfg_chunk_id));
  _ ← modify count_frame;
  if bool_decide (s.(config).(mode) = OrdinaryMode) then
    if negb (bool_decide (frame.(role) = Ordinary)) || bool_decide (frame.(header).(magic) = StreamV2)
    then raise (FrameAt offset InvalidRole)
    else
      _ ← modify (fun s => set_hash (s.(hash) ++ data) s);
      e ← complete_scan_extent offset frame.(physical_length) (len frame.(payload)); mret (Some e)
  else if negb (bool_decide (frame.(header).(magic) = StreamV2)) then raise (FrameAt offset InvalidRole)
  else
    _ ← match s.(group) with
        | Some g =>
            v ← lift offset (validator_push g.(validator) offset frame);
            modify (set_group (Some (mkPending v g.(g_physical_start) g.(g_logical_length) (g.(g_hash) ++ data))))
        | None =>
            match frame.(role) with
            | Head logical_length _ =>
                physical_length ← lift offset (layout_length StreamGroupV2 logical_length);
                if (s.(config).(max_append_bytes) <? logical_length)
                   || exceeds offset physical_length s.(config).(physical_limit)
                then raise (FrameAt offset InvalidGroup)
                else
                  v ← lift offset (validator_new offset frame);
                  modify (set_group (Some (mkPending v offset logical_length (s.(hash) ++ data))))
            | _ => raise (FrameAt offset InvalidGroup)
            end
        end;
    s ← get;
    match s.(group) with
    | Some g =>
        if negb (is_complete g.(validator)) then mret None
        else
          _ ← modify (set_group None);
          parsed ← lift offset (validator_finish g.(validator));
          _ ← modify (set_hash g.(g_hash));
          e ← complete_scan_extent g.(g_physical_start) parsed.(group_physical_length) g.(g_logical_length);
          mret (Some e)
    | None => mret None
    end.

Definition copy_scan_input (input : bytes) (consumed target : Z) : M Z := fun s =>
  let count := Z.min (sat_sub64 target (len s.(buffer))) (len input - consumed) in
  (set_input (fun e => e + count) (fun b => b ++ sub input consumed (consumed + count)) s, Ok (consumed + count)).

(** The loop of [push_input]; a turn that does not leave it takes a frame, so
    the length of the input bounds the number of turns. *)
Fixpoint scan_loop (fuel : nat) (input : bytes) (max_extents consumed : Z) (found : list ScannedFrameExtent)
    : M FrameScanBatch :=
  match fuel with
  | O => mret (mkBatch consumed found)
  | S fuel =>
      s ← get;
      if (consumed <? len input) && (len found <? max_extents) && bool_decide (s.(stop) = Running) then
        consumed ← copy_scan_input input consumed FRAME_HEADER_PREFIX_BYTES;
        s ← get;
        if len s.(buffer) <? FRAME_HEADER_PREFIX_BYTES then mret (mkBatch consumed found)
        else
          let frame_start := s.(input_end) - len s.(buffer) in
          if forallb (fun byte => byte =? 0) s.(buffer) then
            _ ← modify (set_stop Unwritten);
            _ ← check_required;
            mret (mkBatch consumed found)
          else
            h ← lift frame_start (parse_header s.(buffer));
            length ← lift frame_start (frame_length h);
            if exceeds frame_start length s.(config).(physical_limit)
            then raise (FrameAt frame_start InvalidRegionLength)
            else
              consumed ← copy_scan_input input consumed length;
              s ← get;
              if len s.(buffer) <? length then mret (mkBatch consumed found)
              else
                let data := s.(buffer) in
                _ ← modify (set_input (fun e => e) (fun _ => []));
                extent ← accept_scan_frame frame_start data;
                scan_loop fuel input max_extents consumed (found ++ option_list extent)
      else mret (mkBatch consumed found)
  end.

Definition push_input (offset : Z) (input : bytes) (max_extents : Z) : M FrameScanBatch := fun s =>
  if (max_extents =? 0) || (MAX_FRAME_SCAN_EXTENTS <? max_extents)
     || (MAX_FRAME_SCAN_INPUT_BYTES <? len input) || exceeds offset (len input) s.(config).(physical_limit)
  then (s, Err InvalidBounds)
  else if negb (offset =? s.(input_end)) then (s, Err OutOfOrder)
  else scan_loop (S (length input)) input max_extents 0 [] s.

(** A failed call leaves the scanner in [Failed]. *)
Definition guarded {A} (m : M A) : M A := fun s =>
  if bool_decide (s.(stop) = Failed) then (s, Err FailedObservation)
  else match m s with
       | (s, Err e) => (set_stop Failed s, Err e)
       | r => r
       end.

Definition push (offset : Z) (input : bytes) (max_extents : Z) : M FrameScanBatch :=
  guarded (push_input offset input max_extents).

Definition summary (s : FramePrefixScanner) : FrameScanSummary :=
  mkSummary s.(input_end) s.(physical_end) s.(logical_end) s.(complete_extents) s.(frames_parsed)
    (sha256 s.(hash)) s.(stop).

Definition finish_observation : M FrameScanSummary :=
  s ← get;
  _ ← (if bool_decide (s.(stop) = Running) then
         if negb (s.(input_end) =? s.(config).(physical_limit))
         then raise (IncompleteObservation s.(input_end) s.(config).(physical_limit))
         else modify (set_stop (match s.(buffer), s.(group) with
                                | [], None => ExactCapacity
                                | _, _ => IncompleteAtCapacity
                                end))
       else mret ());
  _ ← check_required;
  _ ← modify (fun s => set_input (fun e => e) (fun _ => []) (set_group None s));
  s ← get;
  mret (summary s).

Definition finish : M FrameScanSummary := guarded finish_observation.

End scanner.

(** ** One byte at a time

    [feed] is the scanner without windows: it takes the bytes one by one.  A
    call of [push] does what [feed] does on the bytes it consumes, so the
    windows and the extent budget of the calls do not change what is found. *)

Section automaton.
Context (upd : Z -> bytes -> Z).

(** The checks on a buffer that holds a header: [None] is unwritten space,
    [Some n] a frame of [n] bytes. *)
Definition inspect : M (option Z) :=
  s ← get;
  let frame_start := s.(input_end) - len s.(buffer) in
  if forallb (fun byte => byte =? 0) s.(buffer) then
    _ ← modify (set_stop Unwritten);
    _ ← check_required;
    mret None
  else
    h ← lift frame_start (parse_header s.(buffer));
    length ← lift frame_start (frame_length h);
    if exceeds frame_start length s.(config).(physical_limit)
    then raise (FrameAt frame_start InvalidRegionLength)
    else mret (Some length).

Definition accept_now : M (list ScannedFrameExtent) :=
  s ← get;
  let frame_start := s.(input_end) - len s.(buffer) in
  let data := s.(buffer) in
  _ ← modify (set_input (fun e => e) (fun _ => []));
  extent ← accept_scan_frame upd frame_start data;
  mret (option_list extent).

Definition add_input (x : bytes) : FramePrefixScanner -> FramePrefixScanner :=
  set_input (fun e => e + len x) (fun b => b ++ x).

Definition feed1 (b : Z) : M (list ScannedFrameExtent) :=
  _ ← modify (add_input [b]);
  s ← get;
  if len s.(buffer) <? FRAME_HEADER_PREFIX_BYTES then mret []
  else
    o ← inspect;
    match o with
    | None => mret []
    | Some length => if len s.(buffer) <? length then mret [] else accept_now
    end.

Fixpoint feed (data : bytes) : M (list ScannedFrameExtent) :=
  match data with
  | [] => mret []
  | b :: data =>
      s ← get;
      if bool_decide (s.(stop) = Running) then
        found ← feed1 b;
        rest ← feed data;
        mret (found ++ rest)
      else mret []
  end.

Lemma feed_stopped data s : s.(stop) <> Running -> feed data s = (s, Ok []).
Proof.
  intros H. destruct data; [done|]. cbn [feed]. unfold mbind, M_bind, get. by rewrite bool_decide_eq_false_2.
Qed.

Lemma feed_cons b data s :
  s.(stop) = Running ->
  feed (b :: data) s =
    match feed1 b s with
    | (s1, Ok es) => match feed data s1 with (s2, Ok fs) => (s2, Ok (es ++ fs)) | (s2, Err e) => (s2, Err e) end
    | (s1, Err e) => (s1, Err e)
    end.
Proof. intros H. cbn [feed]. unfold mbind, M_bind, get, mret, M_ret. by rewrite bool_decide_eq_true_2. Qed.

Lemma feed_app x y s :
  feed (x ++ y) s =
    match feed x s with
    | (s1, Ok es) => match feed y s1 with (s2, Ok fs) => (s2, Ok (es ++ fs)) | (s2, Err e) => (s2, Err e) end
    | (s1, Err e) => (s1, Err e)
    end.
Proof.
  revert s. induction x as [|b x IH]; intros s; cbn [app].
  { cbn [feed]. unfold mret, M_ret. by destruct (feed y s) as [s2 [fs|e]]. }
  destruct (decide (s.(stop) = Running)) as [Hr|Hr].
  2: { by rewrite !feed_stopped by done. }
  rewrite !feed_cons by done. destruct (feed1 b s) as [s1 [es|e]]; [|done].
  rewrite IH. destruct (feed x s1) as [s2 [fs|e]]; [|done].
  destruct (feed y s2) as [s3 [gs|e]]; [|done]. by rewrite app_assoc.
Qed.

Lemma add_input_add x y s : add_input y (add_input x s) = add_input (x ++ y) s.
Proof. unfold add_input, set_input. cbn. rewrite app_assoc, len_app, Z.add_assoc. done. Qed.

Lemma add_input_nil s : add_input [] s = s.
Proof. unfold add_input, set_input. change (len (@nil Z)) with 0. rewrite app_nil_r, Z.add_0_r. by destruct s. Qed.

(** What happens once the byte has been put in the buffer. *)
Lemma feed1_eq b s : feed1 b s =
  let s := add_input [b] s in
  if len s.(buffer) <? FRAME_HEADER_PREFIX_BYTES then (s, Ok [])
  else match inspect s with
       | (s1, Ok None) => (s1, Ok [])
       | (s1, Ok (Some length)) => if len s.(buffer) <? length then (s1, Ok []) else accept_now s1
       | (s1, Err e) => (s1, Err e)
       end.
Proof.
  unfold feed1, mbind, M_bind, modify, get, mret, M_ret. cbv zeta. destruct (_ <? _); [done|].
  destruct (inspect _) as [s1 [[n|]|e]]; [|done..]. by destruct (_ <? _).
Qed.

(** Bytes that do not complete a header. *)
Lemma feed_short x s :
  s.(stop) = Running -> len s.(buffer) + len x < FRAME_HEADER_PREFIX_BYTES -> feed x s = (add_input x s, Ok []).
Proof.
  revert s. induction x as [|b x IH]; intros s Hr Hl; [by rewrite add_input_nil|].
  change (len (b :: x)) with (len ([b] ++ x)) in Hl. rewrite len_app, len_one in Hl. pose proof (len_nonneg x).
  assert (len (buffer (add_input [b] s)) = len (buffer s) + 1) as Hb by (cbn; by rewrite len_app).
  rewrite feed_cons, feed1_eq by done. cbv zeta. rewrite Hb.
  destruct (Z.ltb_spec (len (buffer s) + 1) 14); [|lia].
  rewrite IH by (done || lia). by rewrite add_input_add.
Qed.

Lemma inspect_eq s : inspect s =
  let frame_start := s.(input_end) - len s.(buffer) in
  if forallb (fun byte => byte =? 0) s.(buffer) then
    if s.(physical_end) <? s.(config).(required_end)
    then (set_stop Unwritten s, Err (RequiredPrefix s.(config).(required_end) s.(physical_end)))
    else (set_stop Unwritten s, Ok None)
  else (s, match parse_header s.(buffer) with
           | Err e => Err (FrameAt frame_start e)
           | Ok h => match frame_length h with
                     | Err e => Err (FrameAt frame_start e)
                     | Ok length => if exceeds frame_start length s.(config).(physical_limit)
                                    then Err (FrameAt frame_start InvalidRegionLength) else Ok (Some length)
                     end
           end).
Proof.
  unfold inspect, mbind, M_bind, get, lift, modify, raise, check_required, mret, M_ret. cbv zeta.
  destruct (forallb _ _); [cbn [set_stop physical_end config]; by destruct (_ <? _)|].
  destruct (parse_header _) as [h|e]; [|done]. destruct (frame_length h) as [n|e]; [|done]. by destruct (exceeds _ _ _).
Qed.

(** A frame length that has been read stays what it is while bytes arrive. *)
Lemma inspect_more x s n :
  FRAME_HEADER_PREFIX_BYTES <= len s.(buffer) -> inspect s = (s, Ok (Some n)) ->
  inspect (add_input x s) = (add_input x s, Ok (Some n)).
Proof.
  intros Hl. rewrite !inspect_eq. cbn [add_input set_input buffer input_end config physical_end]. cbv zeta.
  rewrite forallb_app, parse_header_prefix by done.
  replace (input_end s + len x - len (buffer s ++ x)) with (input_end s - len (buffer s)) by (rewrite len_app; lia).
  destruct (forallb _ (buffer s)) eqn:Ez; cbn [andb]; [by destruct (_ <? _)|].
  intros H. f_equal. by injection H.
Qed.

Lemma inspect_some s s' n :
  Forall is_byte s.(buffer) -> inspect s = (s', Ok (Some n)) -> s' = s /\ 34 < n.
Proof.
  intros Hb. rewrite inspect_eq. cbv zeta. destruct (forallb _ _); [by destruct (_ <? _)|].
  destruct (parse_header (buffer s)) as [h|e] eqn:Eh; [|done]. destruct (frame_length h) as [k|e] eqn:El; [|done].
  destruct (exceeds _ _ _); [done|]. intros [= <- <-]. split; [done|].
  apply frame_length_sound in El as [-> _]. apply parse_header_sound in Eh as (_ & _ & Ho & Hz & _); [|done]. lia.
Qed.

(** The bytes of a frame up to its end. *)
Lemma feed_part x s n :
  s.(stop) = Running -> FRAME_HEADER_PREFIX_BYTES <= len s.(buffer) -> inspect s = (s, Ok (Some n)) ->
  len s.(buffer) + len x < n -> feed x s = (add_input x s, Ok []).
Proof.
  revert s. induction x as [|b x IH]; intros s Hr H14 Hi Hl; [by rewrite add_input_nil|].
  change (len (b :: x)) with (len ([b] ++ x)) in Hl. rewrite len_app, len_one in Hl. pose proof (len_nonneg x).
  assert (len (buffer (add_input [b] s)) = len (buffer s) + 1) as Hb by (cbn; by rewrite len_app).
  pose proof (inspect_more [b] s n H14 Hi) as Hi'.
  rewrite feed_cons, feed1_eq by done. cbv zeta. rewrite Hb, Hi'.
  destruct (Z.ltb_spec (len (buffer s) + 1) 14); [lia|]. destruct (Z.ltb_spec (len (buffer s) + 1) n); [|lia].
  rewrite IH by (done || lia). by rewrite add_input_add.
Qed.

Lemma feed_frame_end x s n :
  s.(stop) = Running -> FRAME_HEADER_PREFIX_BYTES <= len s.(buffer) -> inspect s = (s, Ok (Some n)) ->
  x <> [] -> len s.(buffer) + len x = n -> feed x s = accept_now (add_input x s).
Proof.
  intros Hr H14 Hi Hne Hl. destruct (exists_last Hne) as (y & b & ->). rewrite len_app, len_one in Hl.
  rewrite feed_app, (feed_part y s n) by (done || lia). pose proof (inspect_more y s n H14 Hi) as Hi'.
  pose proof (len_nonneg y).
  rewrite feed_cons, feed1_eq by done. cbv zeta. rewrite add_input_add.
  assert (len (buffer (add_input (y ++ [b]) s)) = n) as -> by (cbn; rewrite !len_app, len_one; lia).
  destruct (Z.ltb_spec n 14); [lia|]. rewrite (inspect_more (y ++ [b]) s n H14 Hi). rewrite Z.ltb_irrefl.
  cbn [feed]. unfold mret, M_ret. destruct (accept_now _) as [s1 [es|e]]; [|done]. cbn [app]. by rewrite app_nil_r.
Qed.

(** The bytes that complete a header. *)
Lemma feed_header x s :
  s.(stop) = Running -> len s.(buffer) < FRAME_HEADER_PREFIX_BYTES ->
  len s.(buffer) + len x = FRAME_HEADER_PREFIX_BYTES -> Forall is_byte (s.(buffer) ++ x) ->
  feed x s = match inspect (add_input x s) with (s1, Ok _) => (s1, Ok []) | (s1, Err e) => (s1, Err e) end.
Proof.
  intros Hr Hlt Hl Hb. assert (x <> []) as Hne by (intros ->; change (len (@nil Z)) with 0 in Hl; lia).
  destruct (exists_last Hne) as (y & b & ->). rewrite len_app, len_one in Hl. pose proof (len_nonneg y).
  rewrite feed_app, feed_short by (done || lia). rewrite feed_cons, feed1_eq by done. cbv zeta. rewrite add_input_add.
  assert (len (buffer (add_input (y ++ [b]) s)) = 14) as -> by (cbn; rewrite !len_app, len_one; lia).
  rewrite Z.ltb_irrefl. destruct (inspect (add_input (y ++ [b]) s)) as [s1 [[n|]|e]] eqn:Ei; cbn [feed app];
    unfold mret, M_ret; [|done..].
  apply inspect_some in Ei as [-> Hn]; [|done]. destruct (Z.ltb_spec 14 n); [done|lia].
Qed.

(** *** What accepting a frame leaves alone *)

Definition keeps {A} (m : M A) : Prop := forall s,
  (m s).1.(buffer) = s.(buffer) /\ (m s).1.(stop) = s.(stop) /\
  (m s).1.(input_end) = s.(input_end) /\ (m s).1.(config) = s.(config).

Lemma keeps_bind {A B} (m : M A) (k : A -> M B) : keeps m -> (forall x, keeps (k x)) -> keeps (m ≫= k).
Proof.
  intros Hm Hk s. unfold mbind, M_bind. specialize (Hm s). destruct (m s) as [s1 [x|e]]; cbn [fst] in *; [|done].
  specialize (Hk x s1). intuition congruence.
Qed.

Lemma keeps_ret {A} (x : A) : keeps (mret x). Proof. done. Qed.
Lemma keeps_raise {A} e : keeps (A := A) (raise e). Proof. done. Qed.
Lemma keeps_get : keeps get. Proof. done. Qed.
Lemma keeps_lift {A} o (r : result A FrameError) : keeps (lift o r). Proof. done. Qed.
Lemma keeps_count : keeps (modify count_frame). Proof. done. Qed.
Lemma keeps_group x : keeps (modify (set_group x)). Proof. done. Qed.
Lemma keeps_hash f : keeps (modify (fun s => set_hash (f s) s)). Proof. done. Qed.
Lemma keeps_hash' x : keeps (modify (set_hash x)). Proof. done. Qed.
Lemma keeps_ends a b : keeps (modify (set_ends a b)). Proof. done. Qed.

Create HintDb scan discriminated.
#[local] Hint Resolve keeps_bind keeps_ret keeps_raise keeps_get keeps_lift keeps_count keeps_group
  keeps_hash keeps_hash' keeps_ends : scan.

Ltac keeps_tac :=
  repeat first [ apply keeps_bind | progress intros | solve [eauto with scan] | case_match ].

Lemma keeps_complete a b c : keeps (complete_scan_extent a b c).
Proof. unfold complete_scan_extent. keeps_tac. Qed.

#[local] Hint Resolve keeps_complete : scan.

Lemma keeps_accept offset data : keeps (accept_scan_frame upd offset data).
Proof. unfold accept_scan_frame. keeps_tac. Qed.

Lemma accept_now_eq s : accept_now s =
  match accept_scan_frame upd (s.(input_end) - len s.(buffer)) s.(buffer) (set_input (fun e => e) (fun _ => []) s) with
  | (s1, Ok extent) => (s1, Ok (option_list extent))
  | (s1, Err e) => (s1, Err e)
  end.
Proof. done. Qed.

Lemma accept_now_after s s' r :
  accept_now s = (s', r) -> s'.(buffer) = [] /\ s'.(stop) = s.(stop) /\ s'.(input_end) = s.(input_end) /\ s'.(config) = s.(config).
Proof.
  rewrite accept_now_eq.
  pose proof (keeps_accept (input_end s - len (buffer s)) (buffer s) (set_input (fun e => e) (fun _ => []) s)) as H.
  destruct (accept_scan_frame _ _ _ _) as [s1 [o|e]]; cbn [fst] in H; intros [= <- <-]; exact H.
Qed.

(** *** The windows *)

(** A scanner between calls: it has stopped, or its buffer is the beginning of a frame. *)
Definition between (s : FramePrefixScanner) : Prop :=
  s.(stop) = Running -> Forall is_byte s.(buffer) /\
    (len s.(buffer) < FRAME_HEADER_PREFIX_BYTES \/
     FRAME_HEADER_PREFIX_BYTES <= len s.(buffer) /\
     exists n, inspect s = (s, Ok (Some n)) /\ len s.(buffer) < n).

Definition window (input : bytes) (c target : Z) (s : FramePrefixScanner) : Z :=
  c + Z.min (sat_sub64 target (len s.(buffer))) (len input - c).

Lemma copy_eq input c target s :
  0 <= c <= len input ->
  copy_scan_input input c target s =
    (add_input (sub input c (window input c target s)) s, Ok (window input c target s)).
Proof.
  intros Hc. unfold copy_scan_input, add_input, window.
  set (n := Z.min _ _). assert (0 <= n <= len input - c) by (unfold n, sat_sub64; lia).
  rewrite len_sub by lia. unfold set_input. do 2 f_equal. lia.
Qed.

Lemma scan_loop_eq fuel input max c found s :
  0 <= c <= len input ->
  scan_loop upd (S fuel) input max c found s =
    if (c <? len input) && (len found <? max) && bool_decide (s.(stop) = Running) then
      let c1 := window input c FRAME_HEADER_PREFIX_BYTES s in
      let s1 := add_input (sub input c c1) s in
      if len s1.(buffer) <? FRAME_HEADER_PREFIX_BYTES then (s1, Ok (mkBatch c1 found))
      else match inspect s1 with
      | (s2, Err e) => (s2, Err e)
      | (s2, Ok None) => (s2, Ok (mkBatch c1 found))
      | (s2, Ok (Some n)) =>
          let c2 := window input c1 n s2 in
          let s3 := add_input (sub input c1 c2) s2 in
          if len s3.(buffer) <? n then (s3, Ok (mkBatch c2 found))
          else match accept_now s3 with
          | (s4, Err e) => (s4, Err e)
          | (s4, Ok es) => scan_loop upd fuel input max c2 (found ++ es) s4
          end
      end
    else (s, Ok (mkBatch c found)).
Proof.
  intros Hc. cbn [scan_loop]. unfold mbind at 1, M_bind at 1, get at 1.
  destruct (_ && _ && _); [|done]. unfold mbind at 1, M_bind at 1. rewrite copy_eq by done.
  set (c1 := window input c 14 s). assert (c <= c1 <= len input) by (unfold c1, window, sat_sub64; lia).
  cbv zeta. set (s1 := add_input (sub input c c1) s). unfold mbind at 1, M_bind at 1, get at 1.
  destruct (len (buffer s1) <? 14); [done|]. rewrite inspect_eq. cbv zeta.
  destruct (forallb _ _).
  { unfold mbind, M_bind, modify, check_required. cbn [set_stop physical_end config]. by destruct (_ <? _). }
  unfold mbind at 1, M_bind at 1, lift at 1. destruct (parse_header (buffer s1)) as [h|e]; [|done].
  unfold mbind at 1, M_bind at 1, lift at 1. destruct (frame_length h) as [n|e]; [|done].
  destruct (exceeds _ _ _); [done|]. unfold mbind at 1, M_bind at 1. rewrite copy_eq by lia.
  set (c2 := window input c1 n s1). set (s3 := add_input (sub input c1 c2) s1).
  unfold mbind at 1, M_bind at 1, get at 1. destruct (len (buffer s3) <? n); [done|].
  unfold mbind, M_bind, modify. rewrite accept_now_eq.
  replace (input_end s1 - len (buffer s1)) with (input_end s3 - len (buffer s3)).
  - by destruct (accept_scan_frame _ _ _ _) as [s4 [o|e]].
  - unfold s3. cbn. rewrite len_app. lia.
Qed.

Lemma add_input_stop x s : stop (add_input x s) = stop s. Proof. done. Qed.

Lemma add_input_len x s : len (buffer (add_input x s)) = len (buffer s) + len x.
Proof. cbn. apply len_app. Qed.

Lemma sub_split {A} (l : list A) a b c : 0 <= a <= b -> b <= c -> sub l a c = sub l a b ++ sub l b c.
Proof. intros. symmetry. by apply sub_join. Qed.

(** The header of the next frame: either the input ends first, or [inspect]
    runs on the completed header. *)
Lemma feed_to_header input c s :
  stop s = Running -> between s -> Forall is_byte input -> 0 <= c <= len input ->
  let c1 := window input c FRAME_HEADER_PREFIX_BYTES s in
  let s1 := add_input (sub input c c1) s in
  c <= c1 <= len input /\ Forall is_byte (buffer s1) /\
  if len (buffer s1) <? FRAME_HEADER_PREFIX_BYTES
  then c1 = len input /\ feed (sub input c c1) s = (s1, Ok [])
  else feed (sub input c c1) s = (match inspect s1 with (s2, Ok _) => (s2, Ok []) | (s2, Err e) => (s2, Err e) end).
Proof.
  intros Hr Hs Hb Hc. destruct (Hs Hr) as [Bs Hbuf]. cbv zeta. set (c1 := window _ _ _ _).
  assert (c <= c1 <= len input) as Hc1 by (unfold c1, window, sat_sub64; lia). split; [done|].
  assert (Forall is_byte (buffer (add_input (sub input c c1) s))) as Bs1 by (apply Forall_app; auto using sub_Forall).
  split; [done|]. rewrite add_input_len, len_sub by lia. pose proof (len_nonneg (buffer s)).
  destruct (Z.ltb_spec (len (buffer s) + (c1 - c)) 14) as [H14|H14].
  - split; [unfold c1, window, sat_sub64 in *; lia|]. apply feed_short; [done|]. rewrite len_sub; lia.
  - destruct Hbuf as [Hlt|(Hge & n & Hi & Hn)].
    + apply feed_header; [done..| |done]. rewrite len_sub by lia. unfold c1, window, sat_sub64 in *. lia.
    + assert (c1 = c) as -> by (unfold c1, window, sat_sub64; lia).
      assert (sub input c c = []) as -> by (unfold sub; by rewrite Z.sub_diag).
      rewrite add_input_nil, Hi. done.
Qed.

(** One call of the loop is [feed] on what it consumes, and it stops only at
    the end of the input, at the extent budget or when the scan is over. *)
Lemma scan_loop_feed fuel input max c found s :
  between s -> Forall is_byte input -> 0 <= c <= len input -> len input - c < Z.of_nat fuel ->
  exists c', c <= c' <= len input /\
    match feed (sub input c c') s with
    | (s', Ok es) =>
        scan_loop upd fuel input max c found s = (s', Ok (mkBatch c' (found ++ es))) /\ between s' /\
        s'.(input_end) = s.(input_end) + (c' - c) /\
        (c' = len input \/ max <= len (found ++ es) \/ stop s' <> Running)
    | (s', Err e) => scan_loop upd fuel input max c found s = (s', Err e)
    end.
Proof.
  revert c found s. induction fuel as [|fuel IH]; intros c found s Hs Hb Hc Hf; [lia|].
  rewrite scan_loop_eq by done.
  assert (sub input c c = []) as Hcc by (unfold sub; by rewrite Z.sub_diag).
  destruct (_ && _ && _) eqn:Econd.
  2: { exists c. rewrite Hcc. cbn [feed]. unfold mret, M_ret. rewrite app_nil_r. split; [lia|]. split; [done|]. split; [done|]. split; [lia|].
       destruct (Z.ltb_spec c (len input)); [|left; lia]. destruct (Z.ltb_spec (len found) max); [|right; left; lia].
       right; right. intros Hr. rewrite bool_decide_eq_true_2 in Econd by done. done. }
  apply andb_prop in Econd as [[E1 E2]%andb_prop Hr%bool_decide_eq_true].
  destruct (feed_to_header input c s Hr Hs Hb Hc) as (Hc1 & Bs1 & Hfeed). cbv zeta in *.
  set (c1 := window input c 14 s) in *. set (s1 := add_input (sub input c c1) s) in *.
  assert (input_end s1 = input_end s + (c1 - c)) as Hend1 by (unfold s1, add_input; cbn [set_input input_end]; rewrite len_sub; lia).
  destruct (len (buffer s1) <? 14) eqn:E14.
  { destruct Hfeed as [Hend Hfeed]. exists c1. rewrite Hfeed, app_nil_r. split; [done|]. split; [done|].
    split; [intros _; split; [done|]; left; lia|]. split; [|by left]. apply Hend1. }
  destruct (inspect s1) as [s2 [[n|]|e]] eqn:Ei.
  2: { exists c1. rewrite Hfeed, app_nil_r. split; [done|]. split; [done|].
       assert (stop s2 <> Running /\ input_end s2 = input_end s1) as [Hst Hie].
       { revert Ei. rewrite inspect_eq. cbv zeta. destruct (forallb _ _).
         - destruct (physical_end s1 <? required_end (config s1)); [done|]. by intros [= <-].
         - repeat case_match; done. }
       split; [done|]. split; [by rewrite Hie|]. by right; right. }
  2: { exists c1. by rewrite Hfeed. }
  destruct (inspect_some s1 s2 n Bs1 Ei) as [-> Hn34].
  set (c2 := window input c1 n s1) in *. set (s3 := add_input (sub input c1 c2) s1) in *.
  pose proof (len_nonneg (buffer s1)) as Hl1.
  assert (c1 <= c2 <= len input) as Hc2 by (unfold c2, window, sat_sub64; lia).
  assert (len (buffer s3) = len (buffer s1) + (c2 - c1)) as Hl3 by (unfold s3; rewrite add_input_len, len_sub; lia).
  assert (input_end s3 = input_end s + (c2 - c)) as Hend3 by (unfold s3, add_input; cbn [set_input input_end]; rewrite len_sub; lia).
  assert (Forall is_byte (buffer s3)) as Bs3 by (apply Forall_app; auto using sub_Forall).
  assert (stop s1 = Running) as Hr1 by done.
  destruct (Z.ltb_spec (len (buffer s3)) n) as [Hlt|Hge].
  { exists c2. rewrite (sub_split input c c1 c2), feed_app, Hfeed by lia.
    rewrite (feed_part _ s1 n) by (done || (rewrite ?len_sub; lia)). fold s3. rewrite app_nil_r.
    split; [lia|]. split; [done|]. split; [|split; [lia|left; unfold c2, window, sat_sub64 in *; lia]].
    intros _. split; [done|]. right. split; [lia|]. exists n. split; [|done]. apply inspect_more; [lia|done]. }
  assert (len (buffer s1) < n) as Hlt1.
  { destruct (Hs Hr) as [_ [Hlt|(H14 & k & Hk & Hkn)]].
    - assert (len (buffer s1) = len (buffer s) + (c1 - c)) as -> by (unfold s1; rewrite add_input_len, len_sub; lia).
      unfold c1, window, sat_sub64. lia.
    - assert (c1 = c) as Ec by (unfold c1, window, sat_sub64; lia).
      assert (s1 = s) as Es by (unfold s1; rewrite Ec, Hcc; apply add_input_nil). rewrite Es in *. congruence. }
  assert (feed (sub input c1 c2) s1 = accept_now s3) as Hacc.
  { apply (feed_frame_end _ s1 n); [done|lia|done| |rewrite len_sub by lia; unfold c2, window, sat_sub64 in *; lia].
    intros Hnil. apply (f_equal len) in Hnil. rewrite len_sub in Hnil by lia. change (len (@nil Z)) with 0 in Hnil.
    unfold c2, window, sat_sub64 in *. lia. }
  destruct (accept_now s3) as [s4 [es|e]] eqn:Ea.
  2: { exists c2. rewrite (sub_split input c c1 c2), feed_app, Hfeed, Hacc by lia. split; [lia|done]. }
  destruct (accept_now_after s3 s4 (Ok es) Ea) as (Hb4 & Hst4 & Hie4 & _).
  destruct (IH c2 (found ++ es) s4) as (c' & Hc' & IHc); [|done|lia|unfold c2, window, sat_sub64 in *; lia|].
  { intros _. rewrite Hb4. split; [done|]. left. done. }
  exists c'. split; [lia|]. rewrite (sub_split input c c2 c'), (sub_split input c c1 c2), !feed_app, Hfeed, Hacc by lia.
  destruct (feed (sub input c2 c') s4) as [s' [fs|e]]; [|done]. cbn [app]. rewrite app_assoc.
  destruct IHc as (-> & Hb' & Hie' & Hor). split; [done|]. split; [done|]. split; [lia|done].
Qed.

(** The bytes taken by successive successful calls of [push], and the extents they returned. *)
Inductive scans : FramePrefixScanner -> bytes -> list ScannedFrameExtent -> FramePrefixScanner -> Prop :=
| scans_nil s : scans s [] [] s
| scans_push s input max s1 batch data es s2 :
    Forall is_byte input -> push upd s.(input_end) input max s = (s1, Ok batch) -> scans s1 data es s2 ->
    scans s (sub input 0 batch.(consumed) ++ data) (batch.(extents) ++ es) s2.

Lemma push_feed s input max s1 batch :
  between s -> Forall is_byte input -> push upd s.(input_end) input max s = (s1, Ok batch) ->
  between s1 /\ feed (sub input 0 batch.(consumed)) s = (s1, Ok batch.(extents)) /\
  0 <= batch.(consumed) <= len input /\ s1.(input_end) = s.(input_end) + batch.(consumed) /\
  (batch.(consumed) = len input \/ max <= len batch.(extents) \/ stop s1 <> Running).
Proof.
  intros Hs Hb. unfold push, guarded, push_input. case_bool_decide; [done|]. destruct (_ || _ || _ || _) eqn:E; [done|].
  rewrite Z.eqb_refl. cbn [negb].
  destruct (scan_loop_feed (S (length input)) input max 0 [] s Hs Hb) as (c & Hc & H');
    [pose proof (len_nonneg input); lia|unfold len; lia|].
  destruct (feed (sub input 0 c) s) as [s' [es|e]] eqn:Ef.
  - destruct H' as (-> & Hbt & Hie & Hwhy). intros [= <- <-]. cbn [consumed extents app] in *. split; [done|]. split; [done|].
    split; [lia|]. split; [lia|done].
  - rewrite H'. done.
Qed.

Lemma scans_feed s data es s2 :
  between s -> scans s data es s2 ->
  feed data s = (s2, Ok es) /\ between s2 /\ Forall is_byte data /\ s2.(input_end) = s.(input_end) + len data.
Proof.
  intros Hs H. induction H as [s|s input max s1 batch data es s2 Hb Hp _ IH].
  { split; [done|]. split; [done|]. split; [done|]. change (len (@nil Z)) with 0. lia. }
  destruct (push_feed s input max s1 batch Hs Hb Hp) as (Hs1 & Hf & Hc & Hie & _). destruct (IH Hs1) as (IHf & IHs & IHb & IHe).
  split; [by rewrite feed_app, Hf, IHf|]. split; [done|].
  split; [by apply Forall_app; split; [apply sub_Forall|]|]. rewrite len_app, len_sub by lia. lia.
Qed.

(** Conversely, bytes that [feed] takes can be pushed window by window. *)
Lemma push_window s data s2 es :
  between s -> s.(stop) = Running -> Forall is_byte data -> data <> [] -> len data <= MAX_FRAME_SCAN_INPUT_BYTES ->
  s.(input_end) + len data <= Z.min s.(config).(physical_limit) u64_max -> feed data s = (s2, Ok es) ->
  exists s1 batch, push upd s.(input_end) data MAX_FRAME_SCAN_EXTENTS s = (s1, Ok batch) /\ 0 < batch.(consumed).
Proof.
  intros Hs Hr Hb Hne Hl Hlim Hf. unfold push, guarded, push_input. rewrite Hr. rewrite bool_decide_eq_false_2 by done.
  cbn [Z.eqb orb]. destruct (Z.ltb_spec 1048576 (len data)); [lia|]. unfold exceeds, checked_add.
  destruct (Z.leb_spec (input_end s + len data) u64_max); [|lia].
  destruct (Z.ltb_spec (physical_limit (config s)) (input_end s + len data)); [lia|]. rewrite Z.eqb_refl. cbn [orb negb Z.ltb Z.compare Pos.compare Pos.compare_cont].
  destruct (scan_loop_feed (S (length data)) data 1024 0 [] s Hs Hb) as (c & Hc & H');
    [pose proof (len_nonneg data); lia|unfold len; lia|].
  assert (data = sub data 0 c ++ sub data c (len data)) as Hsplit by (rewrite sub_join, sub_all; [done|done|lia..]).
  rewrite Hsplit, feed_app in Hf. destruct (feed (sub data 0 c) s) as [s' [es'|e]] eqn:Ef; [|done].
  destruct H' as (-> & _ & Hie & Hor). exists s', (mkBatch c es'). split; [done|]. cbn [consumed].
  destruct (decide (c = 0)) as [->|]; [|lia]. exfalso. change (sub data 0 0) with (@nil Z) in Ef. injection Ef as <- <-.
  assert (0 < len data) by (unfold len; destruct data; [done|cbn [length]; lia]).
  change (len ([] ++ [])) with 0 in Hor. destruct Hor as [?|[?|?]]; [lia|lia|done].
Qed.

Lemma feed_config data s : (feed data s).1.(config) = s.(config).
Proof.
  revert s. induction data as [|b data IH]; intros s; [done|].
  destruct (decide (s.(stop) = Running)) as [Hr|Hr]; [|by rewrite feed_stopped].
  rewrite feed_cons by done. assert ((feed1 b s).1.(config) = s.(config)) as H1.
  { rewrite feed1_eq. cbv zeta. destruct (_ <? _); [done|]. destruct (inspect _) as [s1 r] eqn:Ei.
    assert (config s1 = config s) as <-.
    { rewrite inspect_eq in Ei. cbv zeta in Ei. destruct (forallb _ _); [by destruct (_ <? _); injection Ei as <- _|].
      by injection Ei as <- _. }
    destruct r as [[n|]|e]; [|done..]. destruct (_ <? _); [done|].
    destruct (accept_now s1) as [s2 r] eqn:Ea. by apply accept_now_after in Ea as (_ & _ & _ & Hc). }
  destruct (feed1 b s) as [s1 [es|e]]; cbn [fst] in *; [|done]. rewrite <- H1, <- (IH s1).
  by destruct (feed data s1) as [s2 [fs|e]].
Qed.

Lemma feed_scans s data s2 es :
  between s -> Forall is_byte data ->
  s.(input_end) + len data <= Z.min s.(config).(physical_limit) u64_max -> feed data s = (s2, Ok es) ->
  exists pre post, data = pre ++ post /\ scans s pre es s2 /\ (post = [] \/ s2.(stop) <> Running).
Proof.
  revert s es. induction data as [data IH] using (induction_ltof1 _ (@length Z)). intros s es Hs Hb Hlim Hf.
  destruct (decide (s.(stop) = Running)) as [Hr|Hr].
  2: { rewrite feed_stopped in Hf by done. injection Hf as <- <-. exists [], data. split; [done|]. split; [constructor|by right]. }
  destruct (decide (data = [])) as [->|Hne].
  { injection Hf as <- <-. exists [], []. split; [done|]. split; [constructor|by left]. }
  assert (0 < len data) by (unfold len; destruct data; [done|cbn [length]; lia]).
  set (w := Z.min (len data) MAX_FRAME_SCAN_INPUT_BYTES). assert (0 < w <= len data) by (unfold w; lia).
  assert (data = sub data 0 w ++ sub data w (len data)) as Hw by (rewrite sub_join, sub_all; [done|done|lia..]).
  assert (len (sub data 0 w) = w) as Hlw by (rewrite len_sub; lia).
  pose proof Hf as Hf'. rewrite Hw, feed_app in Hf'. destruct (feed (sub data 0 w) s) as [s' [es'|e]] eqn:Ew; [|done].
  destruct (push_window s (sub data 0 w) s' es') as (s1 & batch & Hp & Hc); [done|done|by apply sub_Forall| |unfold w in *; lia|lia|done|].
  { intros E. rewrite E in Hlw. change (len (@nil Z)) with 0 in Hlw. lia. }
  destruct (push_feed s (sub data 0 w) MAX_FRAME_SCAN_EXTENTS s1 batch Hs) as (Hs1 & Hfb & Hcb & Hie & _); [by apply sub_Forall|done|].
  set (c := consumed batch) in *. rewrite sub_sub in Hfb by lia. rewrite !Z.add_0_l in Hfb.
  assert (data = sub data 0 c ++ sub data c (len data)) as Hsplit by (rewrite sub_join, sub_all; [done|done|lia..]).
  rewrite Hsplit, feed_app, Hfb in Hf. destruct (feed (sub data c (len data)) s1) as [s3 [fs|e]] eqn:E3; [|done].
  injection Hf as -> <-. pose proof (feed_config (sub data 0 c) s) as Hcfg. rewrite Hfb in Hcfg. cbn [fst] in Hcfg.
  destruct (IH (sub data c (len data))) with (s := s1) (es := fs) as (pre & post & Hpre & Hscan & Hor).
  - unfold ltof. assert (len (sub data c (len data)) < len data) by (rewrite len_sub; lia). unfold len in *. lia.
  - done.
  - by apply sub_Forall.
  - rewrite len_sub by lia. rewrite Hcfg. lia.
  - done.
  - exists (sub data 0 c ++ pre), post. split; [by rewrite <- app_assoc, <- Hpre|]. split; [|done].
    replace (sub data 0 c) with (sub (sub data 0 w) 0 c) by (rewrite sub_sub by lia; done).
    eapply scans_push; [by apply sub_Forall|done|done].
Qed.

End automaton.

(** ** What a chunk holds *)

(** A complete unit of a chunk: an ordinary frame, or a whole Stream append. *)
Inductive Unit :=
| UFrame (m : FrameMagic) (t : Z) (payload : bytes)
| UAppend (t : Z) (payload : bytes).

Definition unit_payload (a : Unit) : bytes := match a with UFrame _ _ p | UAppend _ p => p end.

Definition unit_frames (a : Unit) : Z := match a with UFrame _ _ _ => 1 | UAppend _ p => div_ceil (len p) CAP end.

Section units.
Context (upd : Z -> bytes -> Z) (cfg : FrameScanConfig).

#[local] Abbreviation id := cfg.(cfg_chunk_id).

Definition unit_bytes (off : Z) (a : Unit) : bytes :=
  match a with
  | UFrame m t p => frame_of upd (ordinary_frame m id p t)
  | UAppend t p => append_of upd id off t p
  end.

(** The units a scan with this configuration takes at an offset. *)
Definition unit_ok (off : Z) (a : Unit) : Prop :=
  Forall is_byte (unit_payload a) /\ off + len (unit_bytes off a) <= cfg.(physical_limit) /\
  match a with
  | UFrame m t p => cfg.(mode) = OrdinaryMode /\ m <> StreamV2 /\ 0 <= t < 2 ^ 64 /\ len p <= MAX_FRAME_V2_PAYLOAD_BYTES
  | UAppend t p =>
      cfg.(mode) = Grouped /\ append_ok id off (len p) t /\ len p <= cfg.(max_append_bytes) /\
      ~ (off < cfg.(required_end) < off + len (unit_bytes off a))
  end.

(** Consecutive units from an offset. *)
Fixpoint stored (off : Z) (units : list Unit) : bytes :=
  match units with
  | [] => []
  | a :: units => unit_bytes off a ++ stored (off + len (unit_bytes off a)) units
  end.

Fixpoint extents_of (off logical : Z) (units : list Unit) : list ScannedFrameExtent :=
  match units with
  | [] => []
  | a :: units =>
      mkExtent off (len (unit_bytes off a)) logical (len (unit_payload a))
        :: extents_of (off + len (unit_bytes off a)) (logical + len (unit_payload a)) units
  end.

Fixpoint units_ok (off logical : Z) (units : list Unit) : Prop :=
  match units with
  | [] => True
  | a :: units =>
      unit_ok off a /\ logical + len (unit_payload a) <= u64_max /\
      units_ok (off + len (unit_bytes off a)) (logical + len (unit_payload a)) units
  end.

Definition logical_of (units : list Unit) : Z := len (concat (unit_payload <$> units)).

Definition frames_of_units (units : list Unit) : Z := foldr (fun a n => unit_frames a + n) 0 units.

Lemma stored_app off l k : stored off (l ++ k) = stored off l ++ stored (off + len (stored off l)) k.
Proof.
  revert off. induction l as [|a l IH]; intros off; cbn [app stored].
  - change (len (@nil Z)) with 0. by rewrite Z.add_0_r.
  - by rewrite IH, <- app_assoc, len_app, Z.add_assoc.
Qed.

Lemma logical_app l k : logical_of (l ++ k) = logical_of l + logical_of k.
Proof. unfold logical_of. by rewrite fmap_app, concat_app, len_app. Qed.

Lemma logical_one a : logical_of [a] = len (unit_payload a).
Proof. unfold logical_of. cbn. by rewrite app_nil_r. Qed.

Lemma frames_app l k : frames_of_units (l ++ k) = frames_of_units l + frames_of_units k.
Proof. induction l as [|a l IH]; cbn; [done|]. unfold frames_of_units in *. lia. Qed.

Lemma extents_app off logical l k :
  extents_of off logical (l ++ k) =
    extents_of off logical l ++ extents_of (off + len (stored off l)) (logical + logical_of l) k.
Proof.
  revert off logical. induction l as [|a l IH]; intros off logical; cbn [app extents_of stored].
  - unfold logical_of. cbn. change (len (@nil Z)) with 0. by rewrite !Z.add_0_r.
  - rewrite IH, len_app. change (a :: l) with ([a] ++ l). rewrite logical_app, logical_one, !Z.add_assoc. done.
Qed.

Lemma units_ok_app off logical l k :
  units_ok off logical (l ++ k) <->
  units_ok off logical l /\ units_ok (off + len (stored off l)) (logical + logical_of l) k.
Proof.
  revert off logical. induction l as [|a l IH]; intros off logical; cbn [app units_ok stored].
  - unfold logical_of. cbn. change (len (@nil Z)) with 0. rewrite !Z.add_0_r. tauto.
  - rewrite IH, len_app. change (a :: l) with ([a] ++ l). rewrite logical_app, logical_one, !Z.add_assoc. tauto.
Qed.

Lemma len_units_app {A} (l : list A) a : len (l ++ [a]) = len l + 1.
Proof. by rewrite len_app, len_one. Qed.

(** *** The scanner in the middle of a chunk *)

Abbreviation E_ units := (cfg.(physical_start) + len (stored cfg.(physical_start) units)).
Abbreviation L_ units := (cfg.(logical_start) + logical_of units).

(** An append of [n] bytes of which [k] frames, with the payload [done], have been taken. *)
Record Partial := mkPartial { p_n : Z; p_t : Z; p_k : Z; p_done : bytes }.

Definition partial_bytes (units : list Unit) (p : option Partial) : bytes :=
  match p with
  | None => []
  | Some p => group_bytes upd id (E_ units) p.(p_n) p.(p_t) 0 (chunks CAP p.(p_done))
  end.

Definition mid (units : list Unit) (p : option Partial) (buf : bytes) : FramePrefixScanner :=
  match p with
  | None =>
      mkScanner cfg (E_ units + len buf) (E_ units) (L_ units) (len units) (frames_of_units units) buf None
        (stored cfg.(physical_start) units) Running
  | Some q =>
      mkScanner cfg (E_ units + pos q.(p_n) q.(p_k) + len buf) (E_ units) (L_ units) (len units)
        (frames_of_units units + q.(p_k)) buf
        (Some (mkPending (vstate id (E_ units) q.(p_n) q.(p_t) q.(p_k)) (E_ units) q.(p_n)
                 (stored cfg.(physical_start) units ++ partial_bytes units p)))
        (stored cfg.(physical_start) units) Running
  end.

Definition mid_ok (units : list Unit) (p : option Partial) : Prop :=
  units_ok cfg.(physical_start) cfg.(logical_start) units /\
  match p with
  | None => True
  | Some q =>
      cfg.(mode) = Grouped /\ append_ok id (E_ units) q.(p_n) q.(p_t) /\ Forall is_byte q.(p_done) /\
      len q.(p_done) = q.(p_k) * CAP /\ 0 < q.(p_k) < div_ceil q.(p_n) CAP /\
      q.(p_n) <= cfg.(max_append_bytes) /\ E_ units + occupied StreamGroupV2 q.(p_n) <= cfg.(physical_limit)
  end.

Lemma complete_eq off n ll s : complete_scan_extent off n ll s =
  if u64_max <? off + n then (s, Err (FrameAt off LengthOverflow))
  else if bool_decide (s.(config).(mode) = Grouped) && (s.(physical_end) <? s.(config).(required_end))
          && (s.(config).(required_end) <? off + n)
  then (s, Err (CheckpointBoundary s.(config).(required_end) (off + n)))
  else if u64_max <? s.(logical_end) + ll then (s, Err (FrameAt off LengthOverflow))
  else (set_ends (off + n) (s.(logical_end) + ll) s, Ok (mkExtent off n s.(logical_end) ll)).
Proof.
  unfold complete_scan_extent, mbind, M_bind, lift, get, raise, modify, mret, M_ret, checked_add.
  rewrite !(Z.leb_antisym u64_max). destruct (u64_max <? off + n); [done|]. cbn [negb ok_or].
  destruct (_ && _ && _); [done|]. by destruct (u64_max <? logical_end s + ll).
Qed.

Lemma taken_unit units a :
  mid (units ++ [a]) None [] =
    let e := E_ units + len (unit_bytes (E_ units) a) in
    mkScanner cfg e e (L_ units + len (unit_payload a)) (len units + 1) (frames_of_units units + unit_frames a) [] None
      (stored cfg.(physical_start) units ++ unit_bytes (E_ units) a) Running.
Proof.
  unfold mid. rewrite len_units_app, stored_app, logical_app, logical_one, frames_app. cbn [stored frames_of_units foldr].
  rewrite app_nil_r, len_app, !Z.add_0_r, !Z.add_assoc. done.
Qed.

(** The scanner once the last byte of a unit is in, before the extent is recorded. *)
Definition filled (units : list Unit) (a : Unit) : FramePrefixScanner :=
  mkScanner cfg (E_ units + len (unit_bytes (E_ units) a)) (E_ units) (L_ units) (len units)
    (frames_of_units units + unit_frames a) [] None
    (stored cfg.(physical_start) units ++ unit_bytes (E_ units) a) Running.

Definition record_unit (units : list Unit) (a : Unit) : FramePrefixScanner * result (list ScannedFrameExtent) FrameScanError :=
  match complete_scan_extent (E_ units) (len (unit_bytes (E_ units) a)) (len (unit_payload a)) (filled units a) with
  | (s, Ok e) => (s, Ok [e])
  | (s, Err e) => (s, Err e)
  end.

(** What the extent's bounds require. *)
Definition room (units : list Unit) (a : Unit) : Prop :=
  E_ units + len (unit_bytes (E_ units) a) <= u64_max /\ L_ units + len (unit_payload a) <= u64_max /\
  ~ (cfg.(mode) = Grouped /\ E_ units < cfg.(required_end) < E_ units + len (unit_bytes (E_ units) a)).

Lemma record_ok units a :
  room units a -> record_unit units a = (mid (units ++ [a]) None [], Ok (extents_of (E_ units) (L_ units) [a])).
Proof.
  intros (He & Hl & Hc). unfold record_unit. rewrite complete_eq. change (physical_end (filled units a)) with (E_ units).
  change (logical_end (filled units a)) with (L_ units). change (config (filled units a)) with cfg. set (e := E_ units + _) in *.
  destruct (Z.ltb_spec u64_max e); [lia|].
  destruct (_ && _ && _) eqn:Eb; [apply andb_prop in Eb as [[E1%bool_decide_eq_true E2]%andb_prop E3]; exfalso; apply Hc; split; [done|lia]|].
  destruct (Z.ltb_spec u64_max (L_ units + len (unit_payload a))); [lia|]. by rewrite taken_unit.
Qed.

Lemma record_sound units a s es : record_unit units a = (s, Ok es) -> room units a.
Proof.
  unfold record_unit, room. rewrite complete_eq. change (physical_end (filled units a)) with (E_ units).
  change (logical_end (filled units a)) with (L_ units). change (config (filled units a)) with cfg. set (e := E_ units + _). destruct (Z.ltb_spec u64_max e); [done|].
  destruct (_ && _ && _) eqn:Eb; [done|]. destruct (Z.ltb_spec u64_max (L_ units + len (unit_payload a))); [done|].
  intros _. split; [done|]. split; [done|]. intros (Hm & H1). rewrite bool_decide_eq_true_2 in Eb by done. lia.
Qed.

Section accepting.
Context `{!Crc32c upd} (Hid : id_ok id).

(** Accepting an ordinary frame. *)
Lemma accept_frame units m t p :
  cfg.(mode) = OrdinaryMode -> Forall is_byte p -> m <> StreamV2 -> 0 <= t < 2 ^ 64 ->
  len p <= MAX_FRAME_V2_PAYLOAD_BYTES ->
  accept_now upd (mid units None (unit_bytes (E_ units) (UFrame m t p))) = record_unit units (UFrame m t p).
Proof using Crc32c0 Hid.
  intros Hmode Hb Hm Ht Hl. rewrite accept_now_eq. cbn [mid input_end buffer unit_bytes].
  assert (frame_ok (ordinary_frame m id p t)) as Hok by (by apply ordinary_frame_ok).
  set (data := frame_of upd _). replace (E_ units + len data - len data) with (E_ units) by lia.
  unfold accept_scan_frame, mbind, M_bind, get, lift, modify, raise, mret, M_ret.
  cbn [set_input config]. rewrite <- (app_nil_r data) at 1. unfold data at 1.
  rewrite parse_frame_of, bool_decide_eq_true_2 by done. rewrite Hmode. cbn [bool_decide].
  rewrite bool_decide_eq_true_2 by done. cbn [ordinary_frame role header magic physical_length payload].
  rewrite bool_decide_eq_true_2, bool_decide_eq_false_2 by done. cbn [negb orb].
  unfold record_unit. cbn [unit_bytes unit_payload]. fold data.
  replace (15 + len p + 20) with (len data) by (unfold data; rewrite len_frame by done; done).
  cbn [count_frame set_hash config input_end physical_end logical_end complete_extents frames_parsed buffer group hash stop].
  fold (filled units (UFrame m t p)).
  by destruct (complete_scan_extent _ _ _ _) as [s1 [e|e]].
Qed.

(** The frames seen so far of an append. *)
Definition seen (p : option Partial) (n t k : Z) (done : bytes) : Prop :=
  p = None /\ k = 0 /\ done = [] \/ p = Some (mkPartial n t k done) /\ 0 < k.

(** In group mode a frame joins its append, which is closed when complete. *)
Definition join_group (offset : Z) (data : bytes) (frame : ParsedFrame) : M unit := fun s =>
  match s.(group) with
  | Some g =>
      v ← lift offset (validator_push g.(validator) offset frame);
      modify (set_group (Some (mkPending v g.(g_physical_start) g.(g_logical_length) (g.(g_hash) ++ data))))
  | None =>
      match frame.(role) with
      | Head logical_length _ =>
          physical_length ← lift offset (layout_length StreamGroupV2 logical_length);
          if (s.(config).(max_append_bytes) <? logical_length)
             || exceeds offset physical_length s.(config).(physical_limit)
          then raise (FrameAt offset InvalidGroup)
          else
            v ← lift offset (validator_new offset frame);
            modify (set_group (Some (mkPending v offset logical_length (s.(hash) ++ data))))
      | _ => raise (FrameAt offset InvalidGroup)
      end
  end s.

Definition close_group (offset : Z) : M (option ScannedFrameExtent) := fun s =>
  match s.(group) with
  | Some g =>
      if negb (is_complete g.(validator)) then mret None
      else
        _ ← modify (set_group None);
        parsed ← lift offset (validator_finish g.(validator));
        _ ← modify (set_hash g.(g_hash));
        e ← complete_scan_extent g.(g_physical_start) parsed.(group_physical_length) g.(g_logical_length);
        mret (Some e)
  | None => mret None
  end s.

Lemma accept_grouped offset data s frame :
  parse_frame upd data s.(config).(cfg_chunk_id) = Ok frame -> s.(config).(mode) = Grouped ->
  frame.(header).(magic) = StreamV2 ->
  accept_scan_frame upd offset data s =
    match join_group offset data frame (count_frame s) with
    | (s1, Ok _) => close_group offset s1
    | (s1, Err e) => (s1, Err e)
    end.
Proof.
  intros Hp Hm Hg. unfold accept_scan_frame. unfold mbind at 1 2 3, M_bind at 1 2 3, get at 1, lift at 1, modify at 1.
  rewrite Hp, Hm, Hg. done.
Qed.

Section part.
Context (units : list Unit) (p : option Partial) (n t k : Z) (done part : bytes).
Hypothesis Hmode : cfg.(mode) = Grouped.
Hypothesis Hap : append_ok id (E_ units) n t.
Hypothesis Hmax : n <= cfg.(max_append_bytes).
Hypothesis Hlim : E_ units + occupied StreamGroupV2 n <= cfg.(physical_limit).
Hypothesis Hseen : seen p n t k done.
Hypothesis Hk : 0 <= k < div_ceil n CAP.
Hypothesis Hdl : len done = k * CAP.
Hypothesis Hdb : Forall is_byte done.
Hypothesis Hpb : Forall is_byte part.
Hypothesis Hpl : len part = Z.min (n - k * CAP) CAP.

#[local] Abbreviation data := (frame_of upd (gframe id (E_ units) n t k part)).
#[local] Abbreviation next := (Some (mkPartial n t (k + 1) (done ++ part))).

Lemma part_ok : frame_ok (gframe id (E_ units) n t k part) /\ len data = 27 + len part + 20.
Proof using All.
  assert (frame_ok (gframe id (E_ units) n t k part)) as Hok by (apply gframe_ok; [done|lia|done|lia]).
  split; [done|]. by rewrite len_frame.
Qed.

Lemma part_bytes : partial_bytes units p ++ data = partial_bytes units next.
Proof using All.
  pose proof Hap as [_ _ _ Hn _ _]. pose proof (count_spec n Hn).
  destruct (chunks_snoc done part k) as [Hc1 Hc2]; [lia..|]. cbn [partial_bytes p_n p_t p_done].
  rewrite Hc1, group_bytes_snoc, Hc2. destruct Hseen as [(-> & -> & ->)|[-> _]]; done.
Qed.

(** The scanner in which the frame has joined its append. *)
Definition joined : FramePrefixScanner :=
  mkScanner cfg (E_ units + pos n (k + 1)) (E_ units) (L_ units) (len units) (frames_of_units units + (k + 1)) []
    (Some (mkPending (vstate id (E_ units) n t (k + 1)) (E_ units) n
             (stored cfg.(physical_start) units ++ partial_bytes units next)))
    (stored cfg.(physical_start) units) Running.

Lemma join_part :
  join_group (E_ units + pos n k) data (gframe id (E_ units) n t k part)
    (count_frame (set_input (fun e => e) (fun _ => []) (mid units p data))) = (joined, Ok ()).
Proof using All.
  pose proof Hap as [_ _ Hh Hn _ He]. destruct (part_room n k Hn) as (_ & Hpos & _); [lia|]. destruct Hpos as [Hp Hp1]; [lia|].
  destruct part_ok as [Hok HF]. pose proof part_bytes as Hg. unfold join_group, lift, mbind, M_bind, modify, raise, joined.
  rewrite <- Hg. destruct Hseen as [(-> & -> & ->)|[-> Hk0]].
  - assert (pos n 0 = 0) as Hp0 by lia. cbn [mid set_input count_frame group gframe role config hash]. rewrite Z.eqb_refl.
    rewrite layout_length_exact by lia. destruct (Z.leb_spec (occupied StreamGroupV2 n) u64_max); [|lia].
    unfold exceeds, checked_add. rewrite Hp0, Z.add_0_r.
    destruct (Z.leb_spec (E_ units + occupied StreamGroupV2 n) u64_max); [|lia].
    destruct (Z.ltb_spec (max_append_bytes cfg) n); [lia|].
    destruct (Z.ltb_spec (physical_limit cfg) (E_ units + occupied StreamGroupV2 n)); [lia|]. cbn [orb].
    rewrite new_accepts by (done || lia). unfold set_group, count_frame, set_input.
    cbn [config input_end physical_end logical_end complete_extents frames_parsed buffer group hash stop].
    do 2 f_equal; lia.
  - cbn [mid set_input count_frame group validator g_physical_start g_logical_length g_hash p_n p_t p_k].
    rewrite validator_accepts by (done || lia). rewrite <- app_assoc. unfold set_group, count_frame, set_input.
    cbn [config input_end physical_end logical_end complete_extents frames_parsed buffer group hash stop].
    do 2 f_equal; lia.
Qed.

(** Accepting the next frame of an append. *)
Lemma accept_part :
  accept_now upd (mid units p data) =
    if k + 1 =? div_ceil n CAP then record_unit units (UAppend t (done ++ part)) else (mid units next [], Ok []).
Proof using All.
  pose proof Hap as [_ _ Hh Hn _ He]. destruct (part_room n k Hn) as (_ & Hpos & _); [lia|]. destruct Hpos as [Hp Hp1]; [lia|].
  destruct part_ok as [Hok HF]. rewrite accept_now_eq.
  assert (input_end (mid units p data) - len (buffer (mid units p data)) = E_ units + pos n k) as ->.
  { destruct Hseen as [(-> & -> & ->)|[-> _]]; cbn [mid input_end buffer p_n p_k]; lia. }
  assert (buffer (mid units p data) = data) as -> by (by destruct p).
  rewrite (accept_grouped _ _ _ (gframe id (E_ units) n t k part)); [| |by destruct p|done].
  2: { replace (config _) with cfg by (by destruct p). rewrite <- (app_nil_r data), parse_frame_of by done.
       by rewrite bool_decide_eq_true_2. }
  rewrite join_part. unfold close_group, joined. cbn [group validator].
  change (is_complete (vstate id (E_ units) n t (k + 1))) with (k + 1 =? div_ceil n CAP). destruct (Z.eqb_spec (k + 1) (div_ceil n CAP)) as [Ec|Ec]; cbn [negb].
  2: { unfold mret, M_ret. cbn [mid option_list p_n p_t p_k]. change (len (@nil Z)) with 0. by rewrite Z.add_0_r. }
  unfold mbind, M_bind, modify, lift, mret, M_ret. rewrite Ec, finish_accepts by done.
  cbn [group_physical_length g_hash g_physical_start g_logical_length].
  assert (len (done ++ part) = n) as Hall by (rewrite len_app; pose proof (count_spec n Hn); lia).
  assert (append_ok id (E_ units) (len (done ++ part)) t /\ Forall is_byte (done ++ part)) as [Hap' Hb']
    by (rewrite Hall; auto using Forall_app_2).
  assert (append_of upd id (E_ units) t (done ++ part) = partial_bytes units next) as Hbytes by (unfold append_of; by rewrite Hall).
  match goal with |- context [complete_scan_extent _ _ _ ?x] => replace x with (filled units (UAppend t (done ++ part))) end.
  - unfold record_unit. cbn [unit_bytes unit_payload]. rewrite len_append, Hall by done.
    by destruct (complete_scan_extent _ _ _ _) as [s1 [e|e]].
  - unfold filled, set_hash, set_group. cbn [unit_bytes unit_frames config input_end physical_end logical_end complete_extents
      frames_parsed buffer group hash stop]. rewrite len_append, Hbytes, Hall, Ec by done.
    do 2 f_equal. symmetry. apply part_room; lia.
Qed.

End part.

(** What one accepted frame leads to. *)
Definition advances (units : list Unit) (p : option Partial) (buf : bytes)
    (s : FramePrefixScanner) (es : list ScannedFrameExtent) : Prop :=
  exists new p', s = mid (units ++ new) p' [] /\ mid_ok (units ++ new) p' /\
    stored cfg.(physical_start) (units ++ new) ++ partial_bytes (units ++ new) p' =
      stored cfg.(physical_start) units ++ partial_bytes units p ++ buf /\
    es = extents_of (E_ units) (L_ units) new.

Lemma mid_config units p buf : config (mid units p buf) = cfg. Proof. by destruct p. Qed.
Lemma mid_buffer units p buf : buffer (mid units p buf) = buf. Proof. by destruct p. Qed.

Lemma record_advances units p buf a s es :
  record_unit units a = (s, Ok es) -> mid_ok units p -> unit_ok (E_ units) a ->
  partial_bytes units p ++ buf = unit_bytes (E_ units) a -> advances units p buf s es.
Proof.
  intros Hr Hm Ha Hb. pose proof (record_sound _ _ _ _ Hr) as Hroom. rewrite record_ok in Hr by done.
  injection Hr as <- <-. exists [a], None. split; [done|]. split.
  - split; [|done]. apply units_ok_app. split; [apply Hm|]. cbn [units_ok]. split; [done|]. split; [apply Hroom|done].
  - split; [|done]. rewrite stored_app, Hb. cbn [stored partial_bytes]. by rewrite !app_nil_r.
Qed.

Lemma part_advances units p n t k done part s es :
  cfg.(mode) = Grouped -> append_ok id (E_ units) n t -> n <= cfg.(max_append_bytes) ->
  E_ units + occupied StreamGroupV2 n <= cfg.(physical_limit) -> seen p n t k done -> 0 <= k < div_ceil n CAP ->
  len done = k * CAP -> Forall is_byte done -> Forall is_byte part -> len part = Z.min (n - k * CAP) CAP ->
  mid_ok units p ->
  accept_now upd (mid units p (frame_of upd (gframe id (E_ units) n t k part))) = (s, Ok es) ->
  advances units p (frame_of upd (gframe id (E_ units) n t k part)) s es.
Proof using Crc32c0 Hid.
  intros Hmode Hap Hmax Hlim Hseen Hk Hdl Hdb Hpb Hpl Hm Ha.
  rewrite (accept_part _ _ _ _ _ done) in Ha by done. pose proof Hap as [_ _ Hh Hn _ He].
  pose proof (count_spec n Hn).
  pose proof (part_bytes units p n t k done part) as Hg. do 10 (specialize (Hg ltac:(done))).
  destruct (Z.eqb_spec (k + 1) (div_ceil n CAP)) as [Ec|Ec].
  - assert (len (done ++ part) = n) as Hall by (rewrite len_app; lia).
    apply (record_advances _ _ _ (UAppend t (done ++ part))); [done|done| |].
    + pose proof (record_sound _ _ _ _ Ha) as (_ & _ & Hc). split; [by apply Forall_app|].
      cbn [unit_bytes] in *. rewrite len_append in Hc |- * by (rewrite ?Hall; auto using Forall_app_2).
      rewrite Hall in *. split; [done|]. split; [done|]. split; [done|]. split; [done|]. tauto.
    + rewrite Hg. cbn [partial_bytes p_n p_t p_done unit_bytes]. unfold append_of. by rewrite Hall.
  - injection Ha as <- <-. exists [], (Some (mkPartial n t (k + 1) (done ++ part))). rewrite app_nil_r.
    split; [done|]. split; [|by rewrite Hg]. split; [apply Hm|]. cbn [p_n p_t p_k p_done].
    split; [done|]. split; [done|]. split; [by apply Forall_app|]. split; [rewrite len_app; lia|]. split; [lia|]. done.
Qed.

Section accepted.
Context (units : list Unit) (p : option Partial) (f : ParsedFrame) (s : FramePrefixScanner) (es : list ScannedFrameExtent).
Hypothesis Hm : mid_ok units p.
Hypothesis Hok : frame_ok f.
Hypothesis Hfid : f.(chunk_id) = id.
Hypothesis Ha : accept_now upd (mid units p (frame_of upd f)) = (s, Ok es).

#[local] Abbreviation offset := (input_end (mid units p (frame_of upd f)) - len (frame_of upd f)).
#[local] Abbreviation emptied := (set_input (fun e => e) (fun _ => []) (mid units p (frame_of upd f))).

Lemma accepted_eq :
  config emptied = cfg /\ parse_frame upd (frame_of upd f) id = Ok f /\
  exists r, accept_scan_frame upd offset (frame_of upd f) emptied = (s, Ok r).
Proof using All.
  split; [by destruct p|]. split.
  - rewrite <- (app_nil_r (frame_of upd f)), parse_frame_of by done. by rewrite bool_decide_eq_true_2.
  - rewrite accept_now_eq, mid_buffer in Ha. destruct (accept_scan_frame _ _ _ _) as [s1 [r|e]]; [|done].
    injection Ha as -> _. by exists r.
Qed.

Lemma accepted_ordinary :
  cfg.(mode) = OrdinaryMode -> E_ units + len (partial_bytes units p) + len (frame_of upd f) <= cfg.(physical_limit) ->
  advances units p (frame_of upd f) s es.
Proof using All.
  intros Hmode Hlim. destruct accepted_eq as (Hcfg & Ep & r & Ha').
  destruct p as [q|]; [destruct Hm as [_ (? & _)]; congruence|].
  assert (role f = Ordinary /\ magic (header f) <> StreamV2) as [Hr Hs].
  { revert Ha'. unfold accept_scan_frame, mbind, M_bind, get, lift, modify, raise. rewrite Hcfg, Ep, Hmode.
    rewrite bool_decide_eq_true_2 by done. case_bool_decide as E1; [|done]. case_bool_decide as E2; [done|]. done. }
  pose proof (ok_offset _ Hok) as Ho. pose proof (ok_size _ Hok) as Hz. pose proof (ok_length _ Hok) as HL.
  pose proof (ok_max _ Hok). pose proof (ok_time _ Hok). assert (Forall is_byte (payload f)) by apply Hok.
  rewrite Hr in Ho. change (len (role_bytes Ordinary)) with 1 in Ho.
  set (a := UFrame (magic (header f)) (write_time_ms (header f)) (payload f)).
  assert (frame_of upd f = unit_bytes (E_ units) a) as Hu.
  { unfold a. cbn [unit_bytes]. f_equal. clear Ep Ha' Ha a. destruct f as [[m o z w] r' pl i L]. unfold ordinary_frame.
    cbn [header role payload chunk_id physical_length magic payload_offset payload_size write_time_ms] in *.
    rewrite Ho, Hz, Hr, Hfid, HL. do 2 f_equal; lia. }
  rewrite Hu in Ha, Hlim |- *. unfold a in Ha. rewrite accept_frame in Ha by (done || lia).
  apply (record_advances _ _ _ a); [done|done| |done]. split; [done|]. change (len (partial_bytes units None)) with 0 in Hlim.
  split; [lia|]. unfold a. split; [done|]. split; [done|]. split; [done|]. lia.
Qed.

Lemma accepted_group : cfg.(mode) = Grouped -> 0 <= E_ units -> advances units p (frame_of upd f) s es.
Proof using All.
  intros Hmode He. destruct accepted_eq as (Hcfg & Ep & r & Ha').
  assert (Forall is_byte (payload f)) as HB by apply Hok.
  assert (magic (header f) = StreamV2) as Hs.
  { revert Ha'. unfold accept_scan_frame, mbind, M_bind, get, lift, modify, raise. rewrite Hcfg, Ep, Hmode.
    rewrite bool_decide_eq_false_2 by done. by case_bool_decide. }
  rewrite (accept_grouped _ _ _ f) in Ha' by first [done | by rewrite Hcfg].
  destruct (join_group offset _ f (count_frame emptied)) as [s1 [[]|e]] eqn:Ej; [clear Ha'|done].
  revert Ej. unfold join_group, lift, mbind, M_bind, modify, raise. destruct p as [q|].
  - pose proof Hm as [Hu (_ & Hap & Hdb & Hdl & Hk & Hmax & Hlimit)]. cbn [mid set_input count_frame group validator].
    destruct (validator_push _ _ f) as [v|] eqn:Ev; [intros _|done].
    apply (push_sound _ _ _ _ Hap) in Ev as (_ & _ & _ & Hf & Hpl); [|lia|done]. rewrite Hf in Ha |- *.
    apply (part_advances units (Some q) q.(p_n) q.(p_t) q.(p_k) q.(p_done)); try done; try lia.
    right. split; [by destruct q|lia].
  - cbn [mid set_input count_frame group config input_end]. destruct (role f) as [|n c|] eqn:Er; [done| |done].
    destruct (layout_length StreamGroupV2 n) as [pl|] eqn:El; [|done].
    destruct (Z.ltb_spec (max_append_bytes cfg) n) as [|Hmax]; [done|]. cbn [orb].
    assert (E_ units + len (frame_of upd f) - len (frame_of upd f) = E_ units) as -> by lia.
    destruct (exceeds (E_ units) pl (physical_limit cfg)) eqn:Ee; [done|].
    destruct (validator_new (E_ units) f) as [v|] eqn:Ev; [intros _|done].
    apply new_sound in Ev as (n' & t & Hap & _ & Hf & Hpl & Hr); [|done..]. rewrite Hfid in *.
    rewrite Er in Hr. injection Hr as <- _. pose proof Hap as [_ _ _ Hn _ He']. pose proof (count_spec n Hn).
    assert (E_ units + occupied StreamGroupV2 n <= physical_limit cfg).
    { rewrite layout_length_exact in El by lia. destruct (Z.leb_spec (occupied StreamGroupV2 n) u64_max); [|lia].
      injection El as <-. unfold exceeds, checked_add in Ee.
      destruct (Z.leb_spec (E_ units + occupied StreamGroupV2 n) u64_max); lia. }
    rewrite Hf in Ha |- *. apply (part_advances units None n t 0 []); try done; try lia. by left.
Qed.

End accepted.

(** Whatever frame is accepted, the scanner moves on by a frame of a unit. *)
Lemma accept_sound units p buf s es :
  mid_ok units p -> 0 <= E_ units -> Forall is_byte buf ->
  E_ units + len (partial_bytes units p) + len buf <= cfg.(physical_limit) ->
  (forall f, parse_frame upd buf id = Ok f -> len buf = f.(physical_length)) ->
  accept_now upd (mid units p buf) = (s, Ok es) -> advances units p buf s es.
Proof using Crc32c0 Hid.
  intros Hm He Hb Hlim Hlen Ha. destruct (parse_frame upd buf id) as [f|e] eqn:Ep.
  2: { exfalso. rewrite accept_now_eq, mid_buffer in Ha. revert Ha. unfold accept_scan_frame, mbind, M_bind, get, lift.
       cbn [set_input config]. by rewrite mid_config, Ep. }
  specialize (Hlen f eq_refl). pose proof Ep as (Hok & Hfid & rest & Hbuf)%parse_frame_sound; [|first [done|exact _]..].
  pose proof (len_frame upd f Hok) as HF. assert (rest = []) as ->.
  { apply nil_length_inv. rewrite Hbuf, len_app in Hlen. unfold len in *. lia. }
  rewrite app_nil_r in Hbuf. rewrite Hbuf in *. destruct (mode cfg) eqn:Emode.
  - by apply accepted_ordinary.
  - by apply accepted_group.
Qed.

(** *** What the scanner has taken is what the chunk holds *)

Lemma len_frame_of f : len (frame_of upd f) = 34 + len (role_bytes f.(role)) + len f.(payload).
Proof. unfold frame_of. rewrite !len_app, len_le, !len_be, len_header. lia. Qed.

Lemma len_full_frames h n t k parts :
  (forall q, q ∈ parts -> len q = CAP) -> len (group_bytes upd id h n t k parts) = len parts * MAX_FRAME_BYTES.
Proof.
  revert k. induction parts as [|q parts IH]; intros k Hq; [done|]. cbn [group_bytes].
  rewrite len_app, IH, len_frame_of by (intros; apply Hq; set_solver). cbn [gframe role payload].
  rewrite (Hq q) by set_solver. rewrite len_role. change (len (q :: parts)) with (len ([q] ++ parts)). rewrite len_app, len_one.
  destruct (k =? 0); lia.
Qed.

Lemma full_chunks k done : 0 <= k -> len done = k * CAP -> len (chunks CAP done) = k /\ forall q, q ∈ chunks CAP done -> len q = CAP.
Proof.
  intros Hk Hd. split.
  - rewrite chunks_len, Hd by lia. unfold div_ceil. rewrite Z.div_mul, Z.mod_mul by lia. cbn. lia.
  - intros q [i Hi]%list_elem_of_lookup. apply chunks_lookup in Hi as [-> Hlt]; [|lia]. rewrite len_sub; lia.
Qed.

Lemma len_partial units q : mid_ok units (Some q) -> len (partial_bytes units (Some q)) = pos q.(p_n) q.(p_k).
Proof.
  intros [_ (_ & Hap & _ & Hdl & Hk & _)]. pose proof Hap as [_ _ _ Hn _ _]. cbn [partial_bytes].
  destruct (full_chunks q.(p_k) q.(p_done)) as [Hc Hq]; [lia|done|]. rewrite len_full_frames, Hc by done.
  destruct (part_room q.(p_n) q.(p_k)) as (_ & Hpos & _); [lia|lia|]. destruct Hpos; lia.
Qed.

Lemma mid_input_end units p buf :
  mid_ok units p -> input_end (mid units p buf) = E_ units + len (partial_bytes units p) + len buf.
Proof. intros Hm. destruct p as [q|]; [rewrite len_partial by done|]; cbn [mid input_end]; [done|]. change (len (partial_bytes units None)) with 0. lia. Qed.

Lemma mid_add units p buf x : add_input x (mid units p buf) = mid units p (buf ++ x).
Proof. destruct p; unfold add_input, set_input, mid; cbn; rewrite len_app, !Z.add_assoc; done. Qed.

Lemma parse_frame_length buf i f :
  parse_frame upd buf i = Ok f -> parse_header buf = Ok f.(header) /\ frame_length f.(header) = Ok f.(physical_length).
Proof.
  unfold parse_frame. destruct (parse_header buf) as [h|]; [|done]. cbn [result_bind].
  destruct (frame_length h) as [L|] eqn:El; [|done]. cbn [result_bind]. destruct (_ <? L); [done|].
  destruct (parse_role h buf); [|done]. cbn [result_bind]. destruct (negb _); [done|]. destruct (negb _); [done|].
  by intros [= <-].
Qed.

(** The bytes taken, the extents returned and the scanner after them. *)
Definition scanned (img : bytes) (es : list ScannedFrameExtent) (s : FramePrefixScanner) : Prop :=
  exists units p buf, mid_ok units p /\
    img = stored cfg.(physical_start) units ++ partial_bytes units p ++ buf /\
    es = extents_of cfg.(physical_start) cfg.(logical_start) units /\ Forall is_byte buf /\
    (s = mid units p buf /\ between s \/
     s = set_stop Unwritten (mid units p buf) /\ buf = replicate 14 0 /\ cfg.(required_end) <= E_ units).

Lemma zeros_replicate (l : bytes) n : len l = Z.of_nat n -> forallb (fun byte => byte =? 0) l = true -> l = replicate n 0.
Proof.
  unfold len. intros Hl Hz. assert (n = length l) as -> by lia. clear Hl. induction l as [|b l IH]; [done|].
  cbn [forallb] in Hz. apply andb_prop in Hz as [->%Z.eqb_eq Hz]. cbn [length replicate]. by rewrite <- IH.
Qed.

Hypothesis Hstart : 0 <= cfg.(physical_start).

Lemma scanned_byte img es b s s' es' :
  scanned img es s -> s.(stop) = Running -> is_byte b -> feed1 upd b s = (s', Ok es') -> scanned (img ++ [b]) (es ++ es') s'.
Proof using Crc32c0 Hid Hstart.
  intros (units & p & buf & Hm & -> & -> & Hb & [(-> & Hbt)|(-> & _ & _)]) Hr Hbyte; [|done].
  rewrite feed1_eq. cbv zeta. rewrite mid_add, mid_buffer. set (buf' := buf ++ [b]) in *.
  assert (Forall is_byte buf') as Hb' by (apply Forall_app; split; [done|by constructor]).
  assert (len buf' = len buf + 1) as Hl by (unfold buf'; by rewrite len_app).
  assert ((stored cfg.(physical_start) units ++ partial_bytes units p ++ buf) ++ [b] =
          stored cfg.(physical_start) units ++ partial_bytes units p ++ buf') as -> by (unfold buf'; by rewrite <- !app_assoc).
  specialize (Hbt Hr). rewrite mid_buffer in Hbt. destruct Hbt as [_ Hbt].
  destruct (Z.ltb_spec (len buf') 14) as [H14|H14].
  { intros [= <- <-]. exists units, p, buf'. rewrite app_nil_r. split; [done|]. split; [done|]. split; [done|]. split; [done|].
    left. split; [done|]. intros _. rewrite mid_buffer. split; [done|]. by left. }
  assert (forall n, 14 <= len buf -> inspect (mid units p buf) = (mid units p buf, Ok (Some n)) ->
            inspect (mid units p buf') = (mid units p buf', Ok (Some n))) as Hmore.
  { intros n Hn Hi. unfold buf'. rewrite <- mid_add. apply inspect_more; [by rewrite mid_buffer|done]. }
  destruct (inspect (mid units p buf')) as [s1 [[n|]|e]] eqn:Ei; [| |done].
  - pose proof Ei as [-> Hn]%inspect_some; [|by rewrite mid_buffer].
    destruct (Z.ltb_spec (len buf') n) as [Hlt|Hge].
    { intros [= <- <-]. exists units, p, buf'. rewrite app_nil_r. split; [done|]. split; [done|]. split; [done|]. split; [done|].
      left. split; [done|]. intros _. rewrite mid_buffer. split; [done|]. right. split; [done|]. by exists n. }
    intros Ha. assert (len buf' = n) as Hexact.
    { destruct Hbt as [?|(? & n' & Hi & ?)]; [lia|]. specialize (Hmore n' ltac:(done) Hi). assert (n = n') by congruence. lia. }
    rewrite inspect_eq, mid_buffer, mid_config in Ei. cbv zeta in Ei. destruct (forallb _ buf'); [by destruct (_ <? _)|].
    destruct (parse_header buf') as [hd|] eqn:Eh; [|done]. destruct (frame_length hd) as [L|] eqn:El; [|done].
    destruct (exceeds _ L _) eqn:Ee; [done|]. injection Ei as ->. rewrite mid_input_end in Ee by done.
    apply accept_sound in Ha as (new & p' & -> & Hm' & Hst & ->); [|done| |done| |].
    + exists (units ++ new), p', []. rewrite app_nil_r. split; [done|]. split; [done|].
      split; [by rewrite extents_app|]. split; [done|]. left. split; [done|]. intros _. rewrite mid_buffer.
      split; [done|]. by left.
    + pose proof (len_nonneg (stored (physical_start cfg) units)). lia.
    + unfold exceeds, checked_add in Ee. destruct (_ <=? u64_max); [|done]. lia.
    + intros f [Hf1 Hf2]%parse_frame_length. congruence.
  - intros [= <- <-]. exists units, p, buf'. rewrite app_nil_r. split; [done|]. split; [done|]. split; [done|]. split; [done|].
    right. destruct Hbt as [Hlt|(H14' & n & Hi & _)]; [|specialize (Hmore n H14' Hi); congruence].
    rewrite inspect_eq, mid_buffer, mid_config in Ei. cbv zeta in Ei. destruct (forallb _ buf') eqn:Ez.
    + assert (physical_end (mid units p buf') = E_ units) as Hpe by (by destruct p). rewrite Hpe in Ei.
      destruct (Z.ltb_spec (E_ units) (required_end cfg)); [done|]. injection Ei as <-. split; [done|].
      split; [apply zeros_replicate; [lia|done]|lia].
    + by destruct (parse_header buf') as [hd|]; [destruct (frame_length hd) as [L|]; [destruct (exceeds _ L _)|]|].
Qed.

Lemma scanned_feed data img es s s' es' :
  scanned img es s -> Forall is_byte data -> feed upd data s = (s', Ok es') ->
  exists pre post, data = pre ++ post /\ scanned (img ++ pre) (es ++ es') s' /\ (post = [] \/ s'.(stop) <> Running).
Proof using Crc32c0 Hid Hstart.
  revert img es s es'. induction data as [|b data IH]; intros img es s es' Hs Hb Hf.
  { exists [], []. injection Hf as <- <-. rewrite !app_nil_r. auto. }
  destruct (decide (s.(stop) = Running)) as [Hr|Hr].
  2: { rewrite feed_stopped in Hf by done. injection Hf as <- <-. exists [], (b :: data). rewrite !app_nil_r. auto. }
  apply Forall_cons in Hb as [Hb1 Hb]. rewrite feed_cons in Hf by done.
  destruct (feed1 upd b s) as [s1 [es1|e]] eqn:E1; [|done]. destruct (feed upd data s1) as [s2 [es2|e]] eqn:E2; [|done].
  injection Hf as -> <-. pose proof (scanned_byte _ _ _ _ _ _ Hs Hr Hb1 E1) as Hs1.
  destruct (IH _ _ _ _ Hs1 Hb E2) as (pre & post & -> & Hs2 & Hor). exists (b :: pre), post.
  split; [done|]. split; [|done]. by rewrite <- !app_assoc in Hs2.
Qed.

(** *** A chunk that holds units is scanned to the end of the last *)

Lemma frame_not_zero f x : forallb (fun byte => byte =? 0) (header_bytes f.(header) ++ x) = false.
Proof. unfold header_bytes. rewrite <- !app_assoc. by destruct (magic (header f)). Qed.

(** The bytes of a frame, from an empty buffer. *)
Lemma feed_frame units p f :
  mid_ok units p -> frame_ok f ->
  E_ units + len (partial_bytes units p) + len (frame_of upd f) <= Z.min cfg.(physical_limit) u64_max ->
  feed upd (frame_of upd f) (mid units p []) = accept_now upd (mid units p (frame_of upd f)).
Proof using Crc32c0 Hid Hstart.
  intros Hm Hok Hlim. pose proof (len_frame upd f Hok) as HF. pose proof (ok_length _ Hok). pose proof (ok_offsets _ Hok).
  pose proof (ok_size _ Hok). pose proof (len_nonneg (payload f)).
  assert (exists rest, frame_of upd f = header_bytes (header f) ++ rest /\ Forall is_byte (header_bytes (header f))) as (rest & Hf & Hb).
  { unfold frame_of. rewrite <- !app_assoc. eexists. split; [done|]. unfold header_bytes.
    repeat apply Forall_app_2; apply to_le_bytes_ok. }
  pose proof (len_header (header f)) as H14. rewrite Hf, len_app in HF.
  assert (rest <> []) as Hne by (intros ->; change (len (@nil Z)) with 0 in HF; lia).
  assert (inspect (mid units p (header_bytes (header f))) = (mid units p (header_bytes (header f)), Ok (Some f.(physical_length)))) as Hi.
  { rewrite inspect_eq, mid_buffer, mid_config. cbv zeta. rewrite <- (app_nil_r (header_bytes (header f))) at 1.
    rewrite frame_not_zero.
    assert (parse_header (header_bytes (header f)) = Ok (header f)) as ->.
    { rewrite <- (parse_header_prefix _ rest), <- Hf by lia. unfold frame_of. rewrite <- !app_assoc.
      pose proof (parse_header_frame f [] Hok) as Hp. rewrite app_nil_r in Hp. unfold body_of in Hp.
      rewrite parse_header_prefix in Hp |- * by lia. done. }
    rewrite frame_length_frame by done. rewrite mid_input_end by done.
    rewrite Hf, len_app in Hlim. unfold exceeds, checked_add.
    destruct (Z.leb_spec (E_ units + len (partial_bytes units p) + len (header_bytes (header f)) - len (header_bytes (header f)) + physical_length f) u64_max); [|lia].
    destruct (Z.ltb_spec (physical_limit cfg) (E_ units + len (partial_bytes units p) + len (header_bytes (header f)) - len (header_bytes (header f)) + physical_length f)); [lia|done]. }
  rewrite Hf, feed_app, feed_header; rewrite ?mid_buffer, ?mid_add, ?app_nil_l; try done; try (by destruct p).
  rewrite Hi. rewrite (feed_frame_end upd rest _ f.(physical_length)); rewrite ?mid_buffer, ?mid_add; try done; try lia; try (by destruct p).
  by destruct (accept_now upd _) as [s1 [es|e]].
Qed.

Lemma feed_append_rest units p n t k done rest :
  cfg.(mode) = Grouped -> append_ok id (E_ units) n t -> n <= cfg.(max_append_bytes) ->
  E_ units + occupied StreamGroupV2 n <= cfg.(physical_limit) -> seen p n t k done -> 0 <= k < div_ceil n CAP ->
  len done = k * CAP -> Forall is_byte done -> Forall is_byte rest -> len rest = n - k * CAP -> mid_ok units p ->
  feed upd (group_bytes upd id (E_ units) n t k (chunks CAP rest)) (mid units p []) = record_unit units (UAppend t (done ++ rest)).
Proof using Crc32c0 Hid Hstart.
  intros Hmode Hap Hmax Hlim. pose proof Hap as [_ _ Hh Hn _ He]. pose proof (count_spec n Hn).
  revert p k done. induction rest as [rest IH] using (induction_ltof1 _ (@length Z)).
  intros p k done Hseen Hk Hdl Hdb Hrb Hrl Hm.
  destruct (part_room n k Hn) as (Hroom & Hpos & _); [lia|]. destruct Hpos as [Hp Hp1]; [lia|].
  pose proof (pos_bounds n (k + 1) Hn ltac:(lia)).
  rewrite chunks_cons; [|lia|intros ->; change (len (@nil Z)) with 0 in Hrl; lia].
  cbn [group_bytes]. set (part := sub rest 0 CAP). set (rest' := drop (Z.to_nat CAP) rest).
  assert (len part = Z.min (n - k * CAP) CAP) as Hpl.
  { unfold part, sub, len in *. rewrite drop_0, Z.sub_0_r, length_take. lia. }
  assert (part ++ rest' = rest) as Hpr by (unfold part, rest', sub; by rewrite drop_0, Z.sub_0_r, take_drop).
  assert (Forall is_byte part) as Hpb by (by apply sub_Forall).
  assert (frame_ok (gframe id (E_ units) n t k part)) as Hok by (apply gframe_ok; [done|lia|done|lia]).
  assert (len (partial_bytes units p) = pos n k) as Hpart.
  { destruct Hseen as [(-> & -> & ->)|[-> _]]; [change (len (partial_bytes units None)) with 0; lia|by rewrite len_partial]. }
  rewrite feed_app, feed_frame; [|done|done|].
  2: { rewrite Hpart, len_frame by done. cbn [gframe physical_length]. lia. }
  rewrite (accept_part _ _ _ _ _ done) by done.
  destruct (Z.eqb_spec (k + 1) (div_ceil n CAP)) as [Ec|Ec].
  - assert (rest' = []) as Hnil.
    { apply nil_length_inv. unfold rest'. rewrite length_drop. unfold len in *. lia. }
    rewrite Hnil in *. rewrite app_nil_r in Hpr. rewrite Hpr. change (chunks CAP []) with (@nil bytes). cbn [group_bytes feed].
    unfold mret, M_ret. destruct (record_unit units _) as [s1 [es|e]]; [|done]. by rewrite app_nil_r.
  - assert (ltof _ (@length Z) rest' rest) as Hlt by (unfold ltof, rest', len in *; rewrite length_drop; lia).
    rewrite (IH rest' Hlt _ _ (done ++ part)); try done.
    + rewrite <- app_assoc, Hpr. cbn [app]. by destruct (record_unit units _) as [s1 [es|e]].
    + right. split; [done|lia].
    + lia.
    + rewrite len_app. lia.
    + by apply Forall_app.
    + by apply Forall_drop.
    + unfold rest', len in *. rewrite length_drop. lia.
    + split; [apply Hm|]. cbn [p_n p_t p_k p_done]. split; [done|]. split; [done|]. split; [by apply Forall_app|].
      split; [rewrite len_app; lia|]. split; [lia|]. done.
Qed.

Lemma feed_unit units a :
  mid_ok units None -> unit_ok (E_ units) a -> L_ units + len (unit_payload a) <= u64_max ->
  E_ units + len (unit_bytes (E_ units) a) <= u64_max ->
  feed upd (unit_bytes (E_ units) a) (mid units None []) =
    (mid (units ++ [a]) None [], Ok (extents_of (E_ units) (L_ units) [a])).
Proof using Crc32c0 Hid Hstart.
  intros Hm (Hb & Hlim & Ha) Hl He. rewrite <- record_ok.
  2: { split; [done|]. split; [done|]. intros [Hg Hc]. destruct a; [destruct Ha as [Ha _]; congruence|]. tauto. }
  destruct a as [m t p|t p]; cbn [unit_bytes unit_payload] in *.
  - destruct Ha as (Hmode & Hs & Ht & Hp).
    rewrite feed_frame; [|done|by apply ordinary_frame_ok|change (len (partial_bytes units None)) with 0; lia].
    by rewrite <- (accept_frame units m t p).
  - destruct Ha as (Hmode & Hap & Hmax & _). pose proof Hap as [_ _ Hh Hn _ Hend]. pose proof (count_spec _ Hn).
    rewrite len_append in Hlim by done. unfold append_of.
    apply (feed_append_rest units None (len p) t 0 []); try done; try lia. by left.
Qed.

Lemma feed_units units0 units :
  mid_ok units0 None -> units_ok (E_ units0) (L_ units0) units -> cfg.(physical_limit) <= u64_max ->
  feed upd (stored (E_ units0) units) (mid units0 None []) =
    (mid (units0 ++ units) None [], Ok (extents_of (E_ units0) (L_ units0) units)).
Proof using Crc32c0 Hid Hstart.
  intros Hm Hu Hmax. revert units0 Hm Hu. induction units as [|a units IH]; intros units0 Hm Hu.
  { by rewrite app_nil_r. }
  cbn [stored units_ok] in *. destruct Hu as (Ha & Hl & Hu). pose proof Ha as (_ & Hlim & _).
  assert (E_ (units0 ++ [a]) = E_ units0 + len (unit_bytes (E_ units0) a)) as HE.
  { rewrite stored_app, len_app. cbn [stored]. rewrite app_nil_r. lia. }
  assert (L_ (units0 ++ [a]) = L_ units0 + len (unit_payload a)) as HL by (rewrite logical_app, logical_one; lia).
  rewrite feed_app, feed_unit by (done || lia). rewrite <- HE. rewrite IH.
  - rewrite <- app_assoc. cbn [app extents_of]. by rewrite HE, HL.
  - split; [|done]. apply units_ok_app. split; [apply Hm|]. cbn [units_ok]. done.
  - by rewrite HE, HL.
Qed.

End accepting.

End units.

(** ** A scan from start to finish *)

Lemma scanner_new_mid upd cfg s : scanner_new cfg = Ok s -> s = mid upd cfg [] None [].
Proof.
  unfold scanner_new. destruct (_ || _ || _); [done|]. intros [= <-]. unfold mid. cbn [stored].
  change (len (@nil Z)) with 0. change (logical_of []) with 0. by rewrite !Z.add_0_r.
Qed.

Lemma between_empty s : s.(buffer) = [] -> between s.
Proof. intros Hb _. rewrite Hb. split; [done|]. by left. Qed.

Section whole.
Context (upd : Z -> bytes -> Z) `{!Crc32c upd} (sha256 : bytes -> bytes) (cfg : FrameScanConfig).
Hypothesis Hid : id_ok cfg.(cfg_chunk_id).
Hypothesis Hstart : 0 <= cfg.(physical_start).

Lemma scanned_new : scanned upd cfg [] [] (mid upd cfg [] None []).
Proof. exists [], None, []. split; [by split|]. split; [done|]. split; [done|]. split; [done|]. left. split; [done|by apply between_empty]. Qed.

Lemma scanned_end img es s : scanned upd cfg img es s -> s.(input_end) = cfg.(physical_start) + len img.
Proof.
  intros (units & p & buf & Hm & -> & _ & _ & Hs). rewrite !len_app.
  assert (input_end s = input_end (mid upd cfg units p buf)) as -> by (destruct Hs as [[-> _]|[-> _]]; done).
  rewrite mid_input_end by done. lia.
Qed.

(** Every run of successful pushes has scanned what it consumed. *)
Lemma scans_scanned s0 data es s : scanner_new cfg = Ok s0 -> scans upd s0 data es s -> scanned upd cfg data es s.
Proof using Hid Hstart Crc32c0.
  intros ->%(scanner_new_mid upd) Hsc. destruct (scans_feed upd _ _ _ _ (between_empty (mid upd cfg [] None []) eq_refl) Hsc) as (Hf & _ & Hb & Hie).
  destruct (scanned_feed upd cfg Hid Hstart data _ _ _ _ _ scanned_new Hb Hf) as (pre & post & -> & Hs & _).
  pose proof (scanned_end _ _ _ Hs) as He. cbn [app] in *. rewrite He in Hie. rewrite len_app in Hie.
  cbn [mid input_end stored] in Hie. change (len (@nil Z)) with 0 in Hie.
  assert (post = []) as -> by (apply nil_length_inv; unfold len in *; lia). by rewrite app_nil_r.
Qed.

Lemma finish_eq s : finish sha256 s =
  let s1 := match s.(stop) with
            | Running => set_stop (match s.(buffer), s.(group) with [], None => ExactCapacity | _, _ => IncompleteAtCapacity end) s
            | _ => s
            end in
  if bool_decide (s.(stop) = Failed) then (s, Err FailedObservation)
  else if bool_decide (s.(stop) = Running) && negb (s.(input_end) =? s.(config).(physical_limit))
  then (set_stop Failed s, Err (IncompleteObservation s.(input_end) s.(config).(physical_limit)))
  else if s.(physical_end) <? s.(config).(required_end)
  then (set_stop Failed s1, Err (RequiredPrefix s.(config).(required_end) s.(physical_end)))
  else let s2 := set_input (fun e => e) (fun _ => []) (set_group None s1) in (s2, Ok (summary sha256 s2)).
Proof.
  unfold finish, guarded, finish_observation, mbind, M_bind, get, raise, modify, check_required, mret, M_ret.
  destruct s as [c ie pe le ce fp bf g hs st]. destruct st; cbn [stop input_end config]; cbv zeta;
    rewrite ?bool_decide_eq_true_2, ?bool_decide_eq_false_2 by done; cbn [andb set_stop physical_end config];
    try (by destruct (pe <? required_end c)).
  destruct (ie =? physical_limit c); cbn [negb]; [|done]. cbn [set_stop physical_end config buffer group].
  change (bool_decide (Running = Running)) with true. cbn [andb set_stop physical_end config].
  by destruct (pe <? required_end c).
Qed.

(** The end of a scan, from what has been scanned. *)
Lemma finish_scanned img es s s' sum :
  scanned upd cfg img es s -> finish sha256 s = (s', Ok sum) ->
  exists units begun rest, img = stored upd cfg cfg.(physical_start) units ++ partial_bytes upd cfg units begun ++ rest /\
    mid_ok upd cfg units begun /\
    es = extents_of upd cfg cfg.(physical_start) cfg.(logical_start) units /\
    sum.(observed_end) = cfg.(physical_start) + len img /\
    sum.(s_physical_end) = cfg.(physical_start) + len (stored upd cfg cfg.(physical_start) units) /\
    cfg.(required_end) <= sum.(s_physical_end) /\
    sum.(s_logical_end) = cfg.(logical_start) + logical_of units /\ sum.(s_complete_extents) = len units /\
    sum.(digest) = sha256 (stored upd cfg cfg.(physical_start) units) /\
    match sum.(s_stop) with
    | Unwritten => rest = replicate 14 0
    | ExactCapacity => begun = None /\ rest = [] /\ cfg.(physical_start) + len img = cfg.(physical_limit)
    | IncompleteAtCapacity => (begun <> None \/ rest <> []) /\ cfg.(physical_start) + len img = cfg.(physical_limit)
    | Running | Failed => False
    end.
Proof using Crc32c0 Hid.
  intros Hs Hf. pose proof (scanned_end _ _ _ Hs) as He. destruct Hs as (units & p & buf & Hm & Himg & -> & Hb & Hcase).
  rewrite finish_eq in Hf. cbv zeta in Hf. rewrite He in Hf.
  set (m := mid upd cfg units p buf) in *. set (e := cfg.(physical_start) + len (stored upd cfg cfg.(physical_start) units)).
  assert (config m = cfg /\ stop m = Running /\ physical_end m = e /\ logical_end m = cfg.(logical_start) + logical_of units /\
    complete_extents m = len units /\ hash m = stored upd cfg cfg.(physical_start) units /\ buffer m = buf /\
    (group m = None <-> p = None)) as (H1 & H2 & H3 & H4 & H5 & H6 & H7 & H8).
  { unfold m, e. by destruct p. }
  exists units, p, buf. split; [done|]. split; [done|]. split; [done|].
  destruct Hcase as [(-> & _)|(-> & Hz & Hreq)].
  - rewrite H1, H2, H3, H7 in Hf. rewrite bool_decide_eq_false_2, bool_decide_eq_true_2 in Hf by done. cbn [andb] in Hf.
    destruct (Z.eqb_spec (cfg.(physical_start) + len img) (physical_limit cfg)) as [Hl|]; cbn [negb] in Hf; [|done].
    destruct (Z.ltb_spec e (required_end cfg)); [done|]. injection Hf as _ <-.
    unfold summary. cbn [observed_end s_physical_end s_logical_end s_complete_extents digest s_stop].
    cbn [set_input set_group set_stop input_end physical_end logical_end complete_extents hash stop].
    rewrite He, H3, H4, H5, H6. do 6 (split; [done|]).
    destruct buf as [|x buf]; [destruct (group m) as [g|] eqn:Eg|].
    + split; [|done]. left. intros ->. destruct H8 as [_ H8]. by specialize (H8 eq_refl).
    + split; [by apply H8|done].
    + split; [by right|done].
  - cbn [set_stop stop physical_end config] in Hf. rewrite H1, H3 in Hf.
    rewrite !bool_decide_eq_false_2 in Hf by done. cbn [andb] in Hf. destruct (Z.ltb_spec e (required_end cfg)); [done|].
    injection Hf as _ <-. unfold summary. cbn [observed_end s_physical_end s_logical_end s_complete_extents digest s_stop].
    cbn [set_input set_group set_stop input_end physical_end logical_end complete_extents hash stop] in He |- *.
    rewrite He, H3, H4, H5, H6. by do 6 (split; [done|]).
Qed.

(** Whatever units the bytes begin with have been reported. *)
Lemma scans_complete data es s units tail :
  cfg.(physical_limit) <= u64_max -> scans upd (mid upd cfg [] None []) data es s ->
  units_ok upd cfg cfg.(physical_start) cfg.(logical_start) units ->
  data = stored upd cfg cfg.(physical_start) units ++ tail ->
  extents_of upd cfg cfg.(physical_start) cfg.(logical_start) units `prefix_of` es.
Proof using Crc32c0 Hid Hstart.
  intros Hmax Hsc Hu ->. destruct (scans_feed upd _ _ _ _ (between_empty (mid upd cfg [] None []) eq_refl) Hsc) as (Hf & _).
  pose proof (feed_units upd cfg Hid Hstart [] units) as Hfu. cbn [stored app] in Hfu. change (len (@nil Z)) with 0 in Hfu.
  change (logical_of []) with 0 in Hfu. rewrite !Z.add_0_r in Hfu.
  rewrite feed_app, Hfu in Hf by (done || by split). destruct (feed upd tail _) as [s2 [more|]]; [|done].
  injection Hf as _ <-. by eexists.
Qed.

(** Units followed by unwritten space. *)
Lemma feed_unwritten units :
  units_ok upd cfg cfg.(physical_start) cfg.(logical_start) units -> cfg.(physical_limit) <= u64_max ->
  let e := cfg.(physical_start) + len (stored upd cfg cfg.(physical_start) units) in
  cfg.(required_end) <= e ->
  feed upd (stored upd cfg cfg.(physical_start) units ++ replicate 14 0) (mid upd cfg [] None []) =
    (set_stop Unwritten (mid upd cfg units None (replicate 14 0)),
     Ok (extents_of upd cfg cfg.(physical_start) cfg.(logical_start) units)).
Proof using Crc32c0 Hid Hstart.
  intros Hu Hmax e Hreq. assert (physical_start cfg + len (stored upd cfg (physical_start cfg) []) = physical_start cfg) as He
    by (cbn [stored]; change (len (@nil Z)) with 0; lia).
  assert (logical_start cfg + logical_of [] = logical_start cfg) as HL by (change (logical_of []) with 0; lia).
  pose proof (feed_units upd cfg Hid Hstart [] units) as Hf. rewrite He, HL in Hf.
  rewrite feed_app, Hf by (done || by split). cbn [app].
  rewrite feed_header; rewrite ?mid_buffer; [|done|done|done|by repeat constructor].
  rewrite mid_add, inspect_eq, mid_buffer, mid_config. cbn [app forallb replicate Z.eqb andb]. cbv zeta.
  change (physical_end (mid upd cfg units None _)) with e.
  destruct (Z.ltb_spec e (required_end cfg)); [lia|]. by rewrite app_nil_r.
Qed.

(** Bytes that [feed] takes to their end can be pushed, and every way to push them ends there. *)
Lemma feed_all_scans data es s :
  cfg.(physical_limit) <= u64_max -> cfg.(physical_start) + len data <= cfg.(physical_limit) -> Forall is_byte data ->
  feed upd data (mid upd cfg [] None []) = (s, Ok es) -> s.(input_end) = cfg.(physical_start) + len data ->
  scans upd (mid upd cfg [] None []) data es s /\
  forall es' s', scans upd (mid upd cfg [] None []) data es' s' -> es' = es /\ s' = s.
Proof using.
  intros Hmax Hlim Hb Hf He. assert (between (mid upd cfg [] None [])) as Hbt by by apply between_empty. split.
  - destruct (feed_scans upd _ data s es Hbt Hb) as (pre & post & -> & Hsc & _); [|done|].
    { cbn [mid input_end config stored]. change (len (@nil Z)) with 0. lia. }
    destruct (scans_feed upd _ _ _ _ Hbt Hsc) as (_ & _ & _ & Hie). rewrite He, len_app in Hie.
    cbn [mid input_end stored] in Hie. change (len (@nil Z)) with 0 in Hie.
    assert (post = []) as -> by (apply nil_length_inv; unfold len in *; lia). by rewrite app_nil_r.
  - intros es' s' Hsc. destruct (scans_feed upd _ _ _ _ Hbt Hsc) as (Hf' & _). rewrite Hf in Hf'. by simplify_eq.
Qed.

End whole.

Lemma unit_bytes_ok upd cfg off a : Forall is_byte (unit_payload a) -> Forall is_byte (unit_bytes upd cfg off a).
Proof.
  assert (forall f, Forall is_byte (payload f) -> Forall is_byte (frame_of upd f)) as Hf.
  { intros f Hf. unfold frame_of, header_bytes. repeat apply Forall_app_2; auto using to_le_bytes_ok, be_range.
    destruct (role f); cbn [role_bytes]; repeat apply Forall_app_2; auto using to_le_bytes_ok; repeat constructor; unfold is_byte; lia. }
  destruct a as [m t p|t p]; cbn [unit_payload unit_bytes]; intros Hb; [by apply Hf|]. unfold append_of.
  assert (Forall (Forall is_byte) (chunks CAP p)) as Hc.
  { apply Forall_forall. intros q [i Hi]%list_elem_of_lookup. apply chunks_lookup in Hi as [-> _]; [|lia]. by apply sub_Forall. }
  generalize 0 (len p). induction Hc as [|q parts Hq _ IH]; intros k n; cbn [group_bytes]; [done|].
  apply Forall_app. split; [by apply Hf|by apply IH].
Qed.

Lemma stored_bytes upd cfg off logical units : units_ok upd cfg off logical units -> Forall is_byte (stored upd cfg off units).
Proof.
  revert off logical. induction units as [|a units IH]; intros off logical; cbn [stored units_ok]; [done|].
  intros ((Hb & _) & _ & Hu). apply Forall_app. split; [by apply unit_bytes_ok|by eapply IH].
Qed.

(** C30. A finished scan reports the complete units a chunk begins with, and no
    others.  However the bytes of a chunk are cut into windows and extent budgets,
    if the pushes and [finish] succeed then the bytes consumed begin with the
    encodings of consecutive units - ordinary frames, or whole Stream appends in
    group mode - each intact, of this chunk and at its own offset; the extents
    returned are exactly these units'; any units the configuration admits that the
    bytes begin with are among them; the summary's ends, count and digest are
    those of exactly their bytes; and the required prefix is covered.  The stop
    tells what follows the units and the first frames of an append that was begun:
    fourteen zero bytes, nothing at a full chunk, or part of a unit at the limit. *)
Theorem scan_reports_stored_prefix upd `{!Crc32c upd} sha256 cfg s0 data es s s' sum :
  id_ok cfg.(cfg_chunk_id) -> 0 <= cfg.(physical_start) -> cfg.(physical_limit) <= u64_max ->
  scanner_new cfg = Ok s0 -> scans upd s0 data es s -> finish sha256 s = (s', Ok sum) ->
  (exists units begun rest, data = stored upd cfg cfg.(physical_start) units ++ partial_bytes upd cfg units begun ++ rest /\
    mid_ok upd cfg units begun /\
    es = extents_of upd cfg cfg.(physical_start) cfg.(logical_start) units /\
    sum.(observed_end) = cfg.(physical_start) + len data /\
    sum.(s_physical_end) = cfg.(physical_start) + len (stored upd cfg cfg.(physical_start) units) /\
    cfg.(required_end) <= sum.(s_physical_end) /\
    sum.(s_logical_end) = cfg.(logical_start) + logical_of units /\ sum.(s_complete_extents) = len units /\
    sum.(digest) = sha256 (stored upd cfg cfg.(physical_start) units) /\
    match sum.(s_stop) with
    | Unwritten => rest = replicate 14 0
    | ExactCapacity => begun = None /\ rest = [] /\ cfg.(physical_start) + len data = cfg.(physical_limit)
    | IncompleteAtCapacity => (begun <> None \/ rest <> []) /\ cfg.(physical_start) + len data = cfg.(physical_limit)
    | Running | Failed => False
    end) /\
  (forall units tail, units_ok upd cfg cfg.(physical_start) cfg.(logical_start) units ->
     data = stored upd cfg cfg.(physical_start) units ++ tail ->
     extents_of upd cfg cfg.(physical_start) cfg.(logical_start) units `prefix_of` es).
Proof.
  intros Hid Hstart Hmax Hn Hsc Hf. split.
  - eapply finish_scanned; [done|done| |done]. by eapply scans_scanned.
  - apply (scanner_new_mid upd) in Hn as ->. intros units tail Hu Hd. by eapply scans_complete.
Qed.

(** A chunk with one small append, then unwritten space. *)
Definition demo_config : FrameScanConfig := mkConfig (mkChunkId 1 2) Grouped 0 1000 49 10 100.
Definition demo_units : list Unit := [UAppend 7 [5; 6]].
Definition demo_image : bytes := stored WalRecord.crc_ref demo_config 0 demo_units ++ replicate 14 0.
Definition demo_scanner : FramePrefixScanner := mkScanner demo_config 0 0 10 0 0 [] None [] Running.

Lemma demo_units_ok : units_ok WalRecord.crc_ref demo_config 0 10 demo_units.
Proof.
  split; [|split; [done|done]]. split; [repeat constructor; unfold is_byte; lia|].
  split; [vm_compute; discriminate|]. split; [done|].
  split; [split; vm_compute; intuition discriminate|]. split; [vm_compute; discriminate|]. vm_compute. intuition discriminate.
Qed.

Lemma demo_bytes : Forall is_byte demo_image.
Proof. apply Forall_app. split; [eapply stored_bytes, demo_units_ok|by apply Forall_replicate]. Qed.

Lemma demo_scan :
  scans WalRecord.crc_ref demo_scanner demo_image [mkExtent 0 49 10 2] (push WalRecord.crc_ref 0 demo_image 5 demo_scanner).1.
Proof.
  pose proof (scans_push WalRecord.crc_ref demo_scanner demo_image 5 (push WalRecord.crc_ref 0 demo_image 5 demo_scanner).1
    (mkBatch 63 [mkExtent 0 49 10 2]) [] [] _ demo_bytes ltac:(vm_compute; reflexivity) (scans_nil _ _)) as H.
  cbn [consumed extents app] in H. rewrite app_nil_r in H. by rewrite sub_all in H by (vm_compute; reflexivity).
Qed.

Lemma scan_reports_stored_prefix_witness :
  extents_of WalRecord.crc_ref demo_config 0 10 demo_units `prefix_of` [mkExtent 0 49 10 2] /\
  exists units begun rest, demo_image = stored WalRecord.crc_ref demo_config 0 units ++ partial_bytes WalRecord.crc_ref demo_config units begun ++ rest /\
    len units = 1 /\ rest = replicate 14 0.
Proof.
  set (s := (push WalRecord.crc_ref 0 demo_image 5 demo_scanner).1).
  destruct (scan_reports_stored_prefix WalRecord.crc_ref (fun b => b) demo_config demo_scanner demo_image
              [mkExtent 0 49 10 2] s (finish (fun b => b) s).1
              (mkSummary 63 49 12 1 1 (stored WalRecord.crc_ref demo_config 0 demo_units) Unwritten))
    as ((units & begun & rest & H1 & _ & _ & _ & _ & _ & _ & H2 & _ & H3) & Hall).
  - split; cbn; lia.
  - done.
  - vm_compute. discriminate.
  - vm_compute; reflexivity.
  - exact demo_scan.
  - vm_compute; reflexivity.
  - split; [exact (Hall demo_units (replicate 14 0) demo_units_ok eq_refl)|].
    exists units, begun, rest. split; [exact H1|]. split; [symmetry; exact H2|exact H3].
Defined.

(** C31. A scan finds every complete unit.  When a chunk holds consecutive units
    that the configuration admits and that cover the required end, then its bytes
    can be pushed window by window to the stop; every way of pushing them returns
    exactly the units' extents and the same scanner; and [finish] returns the
    units' ends, count, frame count and digest.  The scan stops as unwritten after
    fourteen zero bytes, at exact capacity when the units end at the limit, and as
    incomplete when one to thirteen bytes, zeros or not, are left before it. *)
Theorem scan_finds_every_unit upd `{!Crc32c upd} sha256 cfg s0 units :
  id_ok cfg.(cfg_chunk_id) -> 0 <= cfg.(physical_start) -> cfg.(physical_limit) <= u64_max ->
  scanner_new cfg = Ok s0 -> units_ok upd cfg cfg.(physical_start) cfg.(logical_start) units ->
  let image := stored upd cfg cfg.(physical_start) units in
  let e := cfg.(physical_start) + len image in
  let es := extents_of upd cfg cfg.(physical_start) cfg.(logical_start) units in
  cfg.(required_end) <= e ->
  let found data end_of_input why := exists s,
    scans upd s0 data es s /\
    (forall es' s', scans upd s0 data es' s' -> es' = es /\ s' = s) /\
    (finish sha256 s).2 =
      Ok (mkSummary end_of_input e (cfg.(logical_start) + logical_of units) (len units) (frames_of_units units) (sha256 image) why) in
  (e + 14 <= cfg.(physical_limit) -> found (image ++ replicate 14 0) (e + 14) Unwritten) /\
  (e = cfg.(physical_limit) -> found image e ExactCapacity) /\
  (forall rest, Forall is_byte rest -> 0 < len rest < 14 -> e + len rest = cfg.(physical_limit) ->
     found (image ++ rest) (e + len rest) IncompleteAtCapacity).
Proof.
  intros Hid Hstart Hmax Hn Hu image e es Hreq found. apply (scanner_new_mid upd) in Hn as ->.
  pose proof (stored_bytes _ _ _ _ _ Hu) as Hb.
  assert (feed upd image (mid upd cfg [] None []) = (mid upd cfg units None [], Ok es)) as Hunits.
  { pose proof (feed_units upd cfg Hid Hstart [] units) as Hf. cbn [stored app] in Hf. change (len (@nil Z)) with 0 in Hf.
    change (logical_of []) with 0 in Hf. rewrite !Z.add_0_r in Hf. apply Hf; [by split|done|done]. }
  split; [intros He|split; [intros He|intros rest Hrest Hlen He]].
  - exists (set_stop Unwritten (mid upd cfg units None (replicate 14 0))).
    apply Logic.and_assoc. split.
    + apply feed_all_scans; [done| |apply Forall_app; split; [done|by apply Forall_replicate]|by apply feed_unwritten|];
        rewrite len_app; change (len (replicate 14 0)) with 14; [subst image; lia|].
      cbn [set_stop mid input_end]. change (len (replicate 14 0)) with 14. fold image. lia.
    + rewrite finish_eq. cbn [set_stop mid stop input_end config physical_end buffer group]. cbv zeta. fold image e.
      rewrite !bool_decide_eq_false_2 by done. cbn [andb]. destruct (Z.ltb_spec e (required_end cfg)); [lia|]. done.
  - exists (mid upd cfg units None []). apply Logic.and_assoc. split.
    + apply feed_all_scans; [done|subst image; lia|done|exact Hunits|].
      cbn [mid input_end]. change (len (@nil Z)) with 0. fold image. lia.
    + rewrite finish_eq. cbn [mid stop input_end config physical_end buffer group]. cbv zeta. fold image e.
      change (len (@nil Z)) with 0. rewrite Z.add_0_r, He, Z.eqb_refl. rewrite bool_decide_eq_false_2 by done.
      rewrite andb_false_r. destruct (Z.ltb_spec (physical_limit cfg) (required_end cfg)); [lia|].
      done.
  - exists (mid upd cfg units None rest). apply Logic.and_assoc. split.
    + apply feed_all_scans; [done|rewrite len_app; subst image; lia|by apply Forall_app| |].
      * rewrite feed_app, Hunits, feed_short, mid_add by (rewrite ?mid_buffer; first [done|change (len (@nil Z)) with 0; lia]). by rewrite app_nil_r.
      * cbn [mid input_end]. rewrite len_app. fold image. lia.
    + rewrite finish_eq. cbn [mid stop input_end config physical_end buffer group]. cbv zeta. fold image e.
      rewrite He, Z.eqb_refl. rewrite bool_decide_eq_false_2 by done. rewrite andb_false_r.
      destruct (Z.ltb_spec e (required_end cfg)); [lia|]. destruct rest as [|x rest]; [change (len (@nil Z)) with 0 in Hlen; lia|].
      by rewrite <- He.
Qed.

Lemma scan_finds_every_unit_witness :
  exists s, scans WalRecord.crc_ref demo_scanner demo_image (extents_of WalRecord.crc_ref demo_config 0 10 demo_units) s.
Proof.
  destruct (scan_finds_every_unit WalRecord.crc_ref (fun b => b) demo_config demo_scanner demo_units) as [H _].
  - split; cbn; lia.
  - done.
  - vm_compute. discriminate.
  - vm_compute; reflexivity.
  - exact demo_units_ok.
  - vm_compute. discriminate.
  - destruct H as (s & Hs & _); [vm_compute; discriminate|]. exists s. exact Hs.
Defined.

End FrameScan.
