(* ===== verification/StreamMappings.v ===== *)
(** * Append lengths of a Stream chunk

    Models [src/lib/crowdb-protocol/src/chunk_stream/chunk_record/mappings.rs]
    and [mappings/block.rs]: a chunk record keeps the lengths of its appends in
    compressed blocks of at most 256, with seek samples in memory, one per
    block.  [locate] finds the append that holds a logical offset and where its
    head frame lies.

    Lengths are [u32], offsets [u64]; a cursor into the encoded bytes is
    threaded through the readers. *)

From stdpp Require Import prelude list list_numbers strings.
From Stdlib Require Import ZArith Lia.
From S2P Require Import Prelude Roles Bytes WalRecord KeyEncoding Frame FrameGeometry FrameGroup.

Module StreamMappings.
Import KeyEncoding Frame FrameGeometry FrameGroup.

Inductive StreamChunkRecordError := Invalid (what : string).

Abbreviation MAX_STREAM_CHUNK_BYTES := 268435456.
Abbreviation MAX_STREAM_CHUNK_RECORD_BYTES := 25165824.
Abbreviation BLOCK_ENTRIES := 256.
Abbreviation MAX_ENTRIES := 5592405.

(** ** Blocks *)

(** [32 - length.leading_zeros()] *)
Definition bits (z : Z) : Z := if z =? 0 then 0 else Z.log2 z + 1.

(** The loop that pushes a length seven bits at a time; a [u32] takes at most
    four turns. *)
Fixpoint varint (fuel : nat) (value : Z) : bytes :=
  match fuel with
  | S fuel => if 128 <=? value then Z.lor (value mod 256) 128 :: varint fuel (Z.shiftr value 7) else [value mod 256]
  | O => [value mod 256]
  end.

Definition encode_block (lengths : list Z) : result bytes StreamChunkRecordError :=
  if (len lengths =? 0) || (BLOCK_ENTRIES <? len lengths) || existsb (Z.eqb 0) lengths
  then Err (Invalid "mapping block lengths")
  else
    let first := default 0 (lengths !! 0%nat) in
    Ok (to_le_bytes 2 (len lengths) ++
        if forallb (fun length => length =? first) lengths then 0 :: to_le_bytes 4 first
        else if foldr Z.add 0 ((fun length => div_ceil (bits length) 7) <$> lengths) <? len lengths * 4
        then 1 :: concat (varint 4 <$> lengths)
        else 2 :: concat (to_le_bytes 4 <$> lengths)).

(** [bytes.get(a..b)] *)
Definition get_range (data : bytes) (a b : Z) : option bytes :=
  if (a <=? b) && (b <=? len data) then Some (sub data a b) else None.

Definition read_u32 (data : bytes) (cursor : Z) : result (Z * Z) StreamChunkRecordError :=
  let? stop := ok_or (checked_add cursor 4) (Invalid "mapping cursor overflow") in
  let? value := ok_or (get_range data cursor stop) (Invalid "truncated mapping length") in
  Ok (from_le_bytes value, cursor + 4).

(** The loop of [read_varint]; no bit is shifted out of the [u32]. *)
Fixpoint varint_loop (ordinals : list Z) (data : bytes) (cursor acc : Z) : result (Z * Z) StreamChunkRecordError :=
  match ordinals with
  | [] => Err (Invalid "mapping varint overflow")
  | ordinal :: ordinals =>
      let? value := ok_or (data !! Z.to_nat cursor) (Invalid "truncated mapping varint") in
      let cursor := cursor + 1 in
      if (ordinal =? 4) && (15 <? value) then Err (Invalid "mapping varint overflow")
      else
        let acc := Z.lor acc (Z.shiftl (Z.land value 127) (ordinal * 7)) in
        if value <? 128 then
          if (0 <? ordinal) && (value =? 0) then Err (Invalid "noncanonical mapping varint")
          else Ok (acc, cursor)
        else varint_loop ordinals data cursor acc
  end.

Definition read_varint (data : bytes) (cursor : Z) : result (Z * Z) StreamChunkRecordError :=
  varint_loop [0; 1; 2; 3; 4] data cursor 0.

(** [for _ in 0..count { lengths.push(read(bytes, cursor)?) }] *)
Fixpoint read_many (read : bytes -> Z -> result (Z * Z) StreamChunkRecordError) (count : nat) (data : bytes) (cursor : Z)
    : result (list Z * Z) StreamChunkRecordError :=
  match count with
  | O => Ok ([], cursor)
  | S count =>
      let? (x, cursor) := read data cursor in
      let? (xs, cursor) := read_many read count data cursor in
      Ok (x :: xs, cursor)
  end.

Definition decode_block (data : bytes) (cursor : Z) : result (list Z * Z) StreamChunkRecordError :=
  let? stop := ok_or (checked_add cursor 3) (Invalid "mapping cursor overflow") in
  let? header := ok_or (get_range data cursor stop) (Invalid "truncated mapping block") in
  let cursor := cursor + 3 in
  let count := from_le_bytes (sub header 0 2) in
  if (count =? 0) || (BLOCK_ENTRIES <? count) then Err (Invalid "mapping block count")
  else
    let kind := default 0 (header !! 2%nat) in
    let? (lengths, cursor) :=
      if kind =? 0 then
        let? (x, cursor) := read_u32 data cursor in Ok (replicate (Z.to_nat count) x, cursor)
      else if kind =? 1 then read_many read_varint (Z.to_nat count) data cursor
      else if kind =? 2 then read_many read_u32 (Z.to_nat count) data cursor
      else Err (Invalid "mapping encoding") in
    if existsb (Z.eqb 0) lengths then Err (Invalid "empty append") else Ok (lengths, cursor).

(** ** Mappings *)

Record StreamMappings := mkMappings { count : Z; encoded : bytes }.

Record StreamMapping := mkMapping { map_logical_start : Z; map_logical_end : Z; map_physical_start : Z }.

Record SeekSample := mkSample { sample_logical : Z; sample_physical : Z; sample_encoded : Z }.

Record StreamMappingIndex := mkIndex { samples : list SeekSample; ix_logical_end : Z; ix_physical_end : Z }.

Definition advance_physical (physical length : Z) : result Z StreamChunkRecordError :=
  if length =? 0 then Err (Invalid "empty append")
  else
    let? length :=
      match layout_length StreamGroupV2 length with Ok x => Ok x | Err _ => Err (Invalid "frame geometry") end in
    match checked_add physical length with
    | Some stop => if stop <=? MAX_STREAM_CHUNK_BYTES then Ok stop else Err (Invalid "physical chunk overflow")
    | None => Err (Invalid "physical chunk overflow")
    end.

(** The inner loop of [index]. *)
Fixpoint advance_all (lengths : list Z) (logical physical : Z) : result (Z * Z) StreamChunkRecordError :=
  match lengths with
  | [] => Ok (logical, physical)
  | length :: lengths =>
      let? logical := ok_or (checked_add logical length) (Invalid "logical overflow") in
      let? physical := advance_physical physical length in
      advance_all lengths logical physical
  end.

(** The loop of [index]: a turn takes at least one length, so the count bounds
    the turns. *)
Fixpoint index_loop (fuel : nat) (m : StreamMappings) (index : StreamMappingIndex) (cursor taken : Z)
    : result (StreamMappingIndex * Z) StreamChunkRecordError :=
  if taken <? m.(count) then
    match fuel with
    | O => Err (Invalid "mapping count")
    | S fuel =>
        let samples := index.(samples) ++ [mkSample index.(ix_logical_end) index.(ix_physical_end) cursor] in
        let? (lengths, cursor) := decode_block m.(encoded) cursor in
        if negb (len lengths =? Z.min (m.(count) - taken) BLOCK_ENTRIES)
        then Err (Invalid "noncanonical mapping block count")
        else if 2 ^ 32 <=? taken + len lengths then Err (Invalid "mapping count overflow")
        else if m.(count) <? taken + len lengths then Err (Invalid "mapping count differs")
        else
          let? (logical, physical) := advance_all lengths index.(ix_logical_end) index.(ix_physical_end) in
          index_loop fuel m (mkIndex samples logical physical) cursor (taken + len lengths)
    end
  else Ok (index, cursor).

Definition index (m : StreamMappings) (start stop : Z) : result StreamMappingIndex StreamChunkRecordError :=
  if (MAX_ENTRIES <? m.(count)) || (MAX_STREAM_CHUNK_RECORD_BYTES <? len m.(encoded))
  then Err (Invalid "mapping budget")
  else
    let? (ix, cursor) := index_loop (Z.to_nat m.(count)) m (mkIndex [] start 0) 0 0 in
    if negb (cursor =? len m.(encoded)) || negb (ix.(ix_logical_end) =? stop)
    then Err (Invalid "mapping coverage or trailing bytes")
    else Ok ix.

Fixpoint encode_blocks (blocks : list (list Z)) : result bytes StreamChunkRecordError :=
  match blocks with
  | [] => Ok []
  | block :: blocks =>
      let? b := encode_block block in
      let? rest := encode_blocks blocks in
      Ok (b ++ rest)
  end.

(** [try_fold] with [checked_add] *)
Fixpoint sum_lengths (total : Z) (lengths : list Z) : option Z :=
  match lengths with
  | [] => Some total
  | length :: lengths => total ← checked_add total length; sum_lengths total lengths
  end.

Definition new (lengths : list Z) : result StreamMappings StreamChunkRecordError :=
  if MAX_ENTRIES <? len lengths then Err (Invalid "mapping count")
  else
    let? encoded := encode_blocks (chunks BLOCK_ENTRIES lengths) in
    let result := mkMappings (len lengths) encoded in
    let? stop := ok_or (sum_lengths 0 lengths) (Invalid "logical overflow") in
    let? _ := index result 0 stop in
    Ok result.

(** The loop of [lengths]. *)
Fixpoint lengths_loop (fuel : nat) (m : StreamMappings) (output : list Z) (cursor : Z)
    : result (list Z * Z) StreamChunkRecordError :=
  if len output <? m.(count) then
    match fuel with
    | O => Err (Invalid "mapping count")
    | S fuel =>
        let? (block, cursor) := decode_block m.(encoded) cursor in
        if negb (len block =? Z.min (m.(count) - len output) BLOCK_ENTRIES)
        then Err (Invalid "noncanonical mapping block count")
        else lengths_loop fuel m (output ++ block) cursor
    end
  else Ok (output, cursor).

Definition lengths (m : StreamMappings) : result (list Z) StreamChunkRecordError :=
  if MAX_ENTRIES <? m.(count) then Err (Invalid "mapping count")
  else
    let? (output, cursor) := lengths_loop (Z.to_nat m.(count)) m [] 0 in
    if negb (cursor =? len m.(encoded)) then Err (Invalid "mapping trailing bytes") else Ok output.

(** [partition_point] on a list whose elements that satisfy the predicate come first. *)
Fixpoint partition_point {A} (f : A -> bool) (l : list A) : nat :=
  match l with
  | x :: l => if f x then S (partition_point f l) else O
  | [] => O
  end.

(** The loop of [locate]. *)
Fixpoint locate_loop (lengths : list Z) (offset logical physical : Z) : result StreamMapping StreamChunkRecordError :=
  match lengths with
  | [] => Err (Invalid "seek sample coverage")
  | length :: lengths =>
      let? stop := ok_or (checked_add logical length) (Invalid "logical overflow") in
      if offset <? stop then Ok (mkMapping logical stop physical)
      else
        let? physical := advance_physical physical length in
        locate_loop lengths offset stop physical
  end.

Definition locate (ix : StreamMappingIndex) (m : StreamMappings) (offset : Z)
    : result StreamMapping StreamChunkRecordError :=
  if ix.(ix_logical_end) <=? offset then Err (Invalid "offset beyond mappings")
  else match partition_point (fun sample => sample.(sample_logical) <=? offset) ix.(samples) with
  | O => Err (Invalid "offset before mappings")
  | S index =>
      match ix.(samples) !! index with
      | None => Err (Invalid "offset before mappings")
      | Some sample =>
          let? (lengths, _) := decode_block m.(encoded) sample.(sample_encoded) in
          locate_loop lengths offset sample.(sample_logical) sample.(sample_physical)
      end
  end.

(** ** Variable-length integers *)

Definition is_u32 (z : Z) : Prop := 0 <= z < 2 ^ 32.

(** An append length. *)
Definition length_ok (z : Z) : Prop := 0 < z < 2 ^ 32.

Lemma byte_facts b : is_byte b ->
  Z.land (Z.lor b 128) 127 = b mod 128 /\ 128 <= Z.lor b 128 < 256 /\ Z.land b 127 = b mod 128 /\
  (128 <= b -> Z.lor b 128 = b).
Proof.
  intros Hb. assert (forallb (fun b => (Z.land (Z.lor b 128) 127 =? b mod 128) && (128 <=? Z.lor b 128) && (Z.lor b 128 <? 256)
    && (Z.land b 127 =? b mod 128) && ((b <? 128) || (Z.lor b 128 =? b))) (Z.of_nat <$> List.seq 0 256) = true) as H by (vm_compute; reflexivity).
  rewrite forallb_forall in H. specialize (H b).
  assert (In b (Z.of_nat <$> List.seq 0 256)) as Hin.
  { apply list_elem_of_In, list_elem_of_fmap. exists (Z.to_nat b). unfold is_byte in Hb. split; [lia|]. apply elem_of_seq. lia. }
  specialize (H Hin). rewrite !andb_true_iff in H. lia.
Qed.

Lemma lor_shift acc b n : 0 <= n -> 0 <= acc < 2 ^ n -> 0 <= b -> Z.lor acc (Z.shiftl b n) = acc + b * 2 ^ n.
Proof.
  intros Hn Ha Hb. rewrite <- Z.shiftl_mul_pow2 by done. rewrite <- Z.add_lor_land.
  assert (Z.land acc (Z.shiftl b n) = 0) as ->; [|lia].
  apply Z.bits_inj'. intros i Hi. rewrite Z.land_spec, Z.bits_0, Z.shiftl_spec by done.
  destruct (decide (i < n)) as [Hlt|Hge]; [rewrite (Z.testbit_neg_r b) by lia; apply andb_false_r|].
  destruct (decide (acc = 0)) as [->|]; [by rewrite Z.bits_0|]. rewrite (Z.bits_above_log2 acc); [done|lia|].
  apply Z.log2_lt_pow2; [lia|]. eapply Z.lt_le_trans; [apply Ha|]. apply Z.pow_le_mono_r; lia.
Qed.

(** The ordinals from [4 - n] on. *)
Fixpoint ordinals (n : nat) : list Z :=
  match n with O => [4] | S m => (4 - Z.of_nat n) :: ordinals m end.

Lemma lookup_mid {A} (pre : list A) x post : (pre ++ x :: post) !! Z.to_nat (len pre) = Some x.
Proof. unfold len. rewrite Nat2Z.id. by apply list_lookup_middle. Qed.

Lemma varint_read n v acc pre post :
  (n <= 4)%nat -> 0 <= v < 2 ^ (7 * Z.of_nat n + 4) -> 0 <= acc < 2 ^ (7 * (4 - Z.of_nat n)) -> n = 4%nat \/ 0 < v ->
  varint_loop (ordinals n) (pre ++ varint n v ++ post) (len pre) acc =
    Ok (acc + v * 2 ^ (7 * (4 - Z.of_nat n)), len pre + len (varint n v)).
Proof.
  revert v acc pre. induction n as [|n IH]; intros v acc pre Hn Hv Ha Hnz.
  - cbn [varint ordinals varint_loop app]. rewrite lookup_mid. cbn [ok_or result_bind].
    change (7 * Z.of_nat 0 + 4) with 4 in Hv. change (2 ^ 4) with 16 in Hv. rewrite (Z.mod_small v 256) by lia.
    destruct (byte_facts v) as (_ & _ & -> & _); [unfold is_byte; lia|]. rewrite (Z.mod_small v 128) by lia.
    destruct (Z.ltb_spec 15 v); [lia|]. cbn [andb Z.eqb Pos.eqb]. destruct (Z.ltb_spec v 128); [|lia].
    destruct (Z.eqb_spec v 0); [lia|]. cbn [andb Z.ltb Z.compare]. rewrite lor_shift by (change (4 * 7) with (7 * (4 - Z.of_nat 0)); lia). done.
  - set (o := 4 - Z.of_nat (S n)) in *. assert (0 <= o < 4) by lia.
    assert (Forall is_byte [v mod 256]) as Hb by (constructor; [apply Z.mod_pos_bound; lia|done]). apply Forall_inv in Hb.
    cbn [ordinals]. fold o. cbn [varint_loop]. unfold varint; fold varint. destruct (Z.leb_spec 128 v) as [Hge|Hlt]; cbn [app].
    + rewrite lookup_mid. cbn [ok_or result_bind]. destruct (byte_facts _ Hb) as (-> & Hr & _).
      destruct (Z.eqb_spec o 4); [lia|]. cbn [andb]. destruct (Z.ltb_spec (Z.lor (v mod 256) 128) 128); [lia|].
      assert (v mod 256 mod 128 = v mod 128) as -> by (apply Z.mod_mod_divide; by exists 2).
      pose proof (Z.mod_pos_bound v 128 ltac:(lia)). pose proof (Z.div_mod v 128 ltac:(lia)).
      rewrite lor_shift by (rewrite ?(Z.mul_comm o 7); lia).
      assert (2 ^ (7 * (4 - Z.of_nat n)) = 2 ^ (o * 7) * 128) as Hp.
      { replace (7 * (4 - Z.of_nat n)) with (o * 7 + 7) by lia. rewrite Z.pow_add_r by lia. done. }
      assert (2 ^ (7 * Z.of_nat (S n) + 4) = 2 ^ (7 * Z.of_nat n + 4) * 128) as Hp2.
      { replace (7 * Z.of_nat (S n) + 4) with (7 * Z.of_nat n + 4 + 7) by lia. rewrite Z.pow_add_r by lia. done. }
      rewrite Z.shiftr_div_pow2 by lia. change (2 ^ 7) with 128.
      replace (pre ++ Z.lor (v mod 256) 128 :: varint n (v / 128) ++ post) with
        ((pre ++ [Z.lor (v mod 256) 128]) ++ varint n (v / 128) ++ post) by (by rewrite <- app_assoc).
      replace (len pre + 1) with (len (pre ++ [Z.lor (v mod 256) 128])) by (by rewrite len_app, len_one).
      rewrite (Z.mul_comm o 7) in *. rewrite IH.
      * f_equal. rewrite len_app, len_one. f_equal.
        -- rewrite Hp. nia.
        -- change (Z.lor (v mod 256) 128 :: varint n (v / 128)) with ([Z.lor (v mod 256) 128] ++ varint n (v / 128)).
           rewrite len_app, len_one. lia.
      * lia.
      * split; [apply Z.div_pos; lia|]. apply Z.div_lt_upper_bound; lia.
      * rewrite Hp. nia.
      * right. apply Z.div_str_pos. lia.
    + rewrite lookup_mid. cbn [ok_or result_bind]. rewrite (Z.mod_small v 256) by lia.
      destruct (byte_facts v) as (_ & _ & -> & _); [unfold is_byte; lia|]. rewrite (Z.mod_small v 128) by lia.
      destruct (Z.eqb_spec o 4); [lia|]. cbn [andb]. destruct (Z.ltb_spec v 128); [|lia].
      rewrite lor_shift by (rewrite ?(Z.mul_comm o 7); lia). rewrite (Z.mul_comm o 7).
      destruct (Z.ltb_spec 0 o); cbn [andb]; [|done]. destruct (Z.eqb_spec v 0); [lia|done].
Qed.

Lemma read_varint_of v pre post :
  is_u32 v -> read_varint (pre ++ varint 4 v ++ post) (len pre) = Ok (v, len pre + len (varint 4 v)).
Proof.
  intros Hv. unfold read_varint. change [0; 1; 2; 3; 4] with (ordinals 4).
  rewrite varint_read; [do 2 f_equal; change (2 ^ _) with 1; lia|lia|exact Hv|done|by left].
Qed.

Lemma read_u32_of v pre post :
  is_u32 v -> len (pre ++ to_le_bytes 4 v ++ post) <= u64_max ->
  read_u32 (pre ++ to_le_bytes 4 v ++ post) (len pre) = Ok (v, len pre + len (to_le_bytes 4 v)).
Proof.
  intros Hv Hl. rewrite !len_app, len_le in Hl. pose proof (len_nonneg post). unfold read_u32, checked_add, get_range.
  destruct (Z.leb_spec (len pre + 4) u64_max); [|lia]. cbn [ok_or result_bind]. rewrite !len_app, len_le.
  destruct (Z.leb_spec (len pre) (len pre + 4)); [|lia].
  destruct (Z.leb_spec (len pre + 4) (len pre + (Z.of_nat 4 + len post))); [|lia]. cbn [andb ok_or result_bind].
  rewrite sub_app_r by lia. replace (len pre - len pre) with 0 by lia. rewrite sub_prefix by (rewrite len_le; lia).
  rewrite from_to_le by (rewrite width_4; done). done.
Qed.

(** ** Blocks *)

Lemma read_many_of read enc ls pre post :
  (forall v pre post, v ∈ ls -> len (pre ++ enc v ++ post) <= u64_max ->
     read (pre ++ enc v ++ post) (len pre) = Ok (v, len pre + len (enc v))) ->
  len (pre ++ concat (enc <$> ls) ++ post) <= u64_max ->
  read_many read (length ls) (pre ++ concat (enc <$> ls) ++ post) (len pre) =
    Ok (ls, len pre + len (concat (enc <$> ls))).
Proof.
  intros Hread. revert pre. induction ls as [|v ls IH]; intros pre Hl; cbn [fmap list_fmap concat length read_many].
  { change (len (@nil Z)) with 0. by rewrite Z.add_0_r. }
  cbn [fmap list_fmap concat] in Hl. rewrite <- app_assoc in Hl |- *. rewrite Hread by (set_solver || done). cbn [result_bind].
  rewrite app_assoc in Hl |- *. rewrite <- len_app. rewrite IH; [|intros; apply Hread; set_solver|done].
  cbn [result_bind]. by rewrite !len_app, Z.add_assoc.
Qed.

Lemma existsb_zero ls : Forall length_ok ls -> existsb (Z.eqb 0) ls = false.
Proof. induction 1 as [|x ls Hx _ IH]; cbn [existsb]; [done|]. rewrite IH, orb_false_r. unfold length_ok in Hx. lia. Qed.

Lemma zero_exists ls : Forall is_u32 ls -> existsb (Z.eqb 0) ls = false -> Forall length_ok ls.
Proof.
  induction 1 as [|x ls Hx _ IH]; cbn [existsb]; [done|]. intros [H1 H2]%orb_false_iff. constructor; [|by apply IH].
  unfold is_u32, length_ok in *. lia.
Qed.

Lemma forallb_replicate x ls : forallb (fun y => y =? x) ls = true -> replicate (length ls) x = ls.
Proof.
  induction ls as [|y ls IH]; cbn [forallb length replicate]; [done|]. intros [->%Z.eqb_eq H]%andb_prop. by rewrite IH.
Qed.

Lemma len_concat_const {A} (f : A -> bytes) n ls : (forall x, x ∈ ls -> len (f x) = n) -> len (concat (f <$> ls)) = len ls * n.
Proof.
  induction ls as [|x ls IH]; intros Hf; cbn [fmap list_fmap concat]; [done|]. rewrite len_app, IH, Hf by set_solver.
  unfold len. cbn [length]. lia.
Qed.

(** A block reads back, wherever it lies. *)
Lemma mapping_decode_encode ls b pre post :
  Forall length_ok ls -> encode_block ls = Ok b -> len (pre ++ b ++ post) <= u64_max ->
  decode_block (pre ++ b ++ post) (len pre) = Ok (ls, len pre + len b).
Proof.
  intros Hok. assert (is_u32 (default 0 (ls !! 0%nat))) as Hfirst.
  { unfold is_u32. destruct Hok as [|x l Hx _]; cbn; [|unfold length_ok in Hx]; lia. }
  unfold encode_block. rewrite existsb_zero, orb_false_r by done.
  destruct (_ || _) eqn:Ec; [done|]. apply orb_false_iff in Ec as [Hnz Hmax].
  set (same := forallb _ ls). set (small := _ <? len ls * 4). intros Hb Hl.
  set (kind := if same then 0 else if small then 1 else 2).
  set (rest := if same then to_le_bytes 4 (default 0 (ls !! 0%nat))
               else if small then concat (varint 4 <$> ls) else concat (to_le_bytes 4 <$> ls)).
  assert (b = to_le_bytes 2 (len ls) ++ kind :: rest) as -> by (unfold kind, rest; destruct same, small; congruence).
  assert (forall a, len (pre ++ (to_le_bytes 2 (len ls) ++ kind :: rest) ++ a) = len pre + 3 + len rest + len a) as Hlen.
  { intros a. rewrite !len_app, len_le. change (kind :: rest) with ([kind] ++ rest). rewrite len_app, len_one. lia. }
  pose proof (Hlen post) as HL. pose proof (len_nonneg rest). pose proof (len_nonneg post). pose proof (len_nonneg pre).
  unfold decode_block, checked_add, get_range. rewrite HL in Hl.
  destruct (Z.leb_spec (len pre + 3) u64_max); [|lia]. cbn [ok_or result_bind]. rewrite HL.
  destruct (Z.leb_spec (len pre) (len pre + 3)); [|lia].
  destruct (Z.leb_spec (len pre + 3) (len pre + 3 + len rest + len post)); [|lia]. cbn [andb ok_or result_bind].
  assert (sub (pre ++ (to_le_bytes 2 (len ls) ++ kind :: rest) ++ post) (len pre) (len pre + 3) = to_le_bytes 2 (len ls) ++ [kind]) as ->.
  { rewrite sub_app_r by lia. replace (len pre - len pre) with 0 by lia. replace (len pre + 3 - len pre) with 3 by lia.
    rewrite <- app_assoc. cbn [app]. change (kind :: rest ++ post) with ([kind] ++ rest ++ post). rewrite app_assoc.
    apply sub_prefix. by rewrite len_app, len_le. }
  pose proof (len_nonneg ls). rewrite sub_prefix by (by rewrite len_le). rewrite from_to_le by (rewrite width_2; lia).
  rewrite Hnz, Hmax. cbn [orb]. rewrite lookup_app_r by (by rewrite to_le_bytes_length). rewrite to_le_bytes_length.
  change (default 0 ([kind] !! (2 - 2)%nat)) with kind.
  set (data := pre ++ _) in *. set (head := pre ++ to_le_bytes 2 (len ls) ++ [kind]).
  assert (data = head ++ rest ++ post) as Hd.
  { unfold data, head. rewrite <- !app_assoc. cbn [app]. done. }
  assert (len head = len pre + 3) as Hh by (unfold head; rewrite !len_app, len_le; done).
  assert (len data <= u64_max) as Hdl by (unfold data; rewrite Hlen; lia).
  assert (Z.to_nat (len ls) = length ls) as -> by (unfold len; lia).
  assert (len (to_le_bytes 2 (len ls) ++ kind :: rest) = 3 + len rest) as ->.
  { rewrite len_app, len_le. change (kind :: rest) with ([kind] ++ rest). rewrite len_app, len_one. lia. }
  assert (Forall is_u32 ls) as Hu by (eapply Forall_impl; [exact Hok|]; unfold length_ok, is_u32; lia).
  rewrite Forall_forall in Hu. rewrite <- Hh, Hd in *. unfold kind, rest in *.
  destruct same eqn:Eall; [|destruct small];
    [change (0 =? 0) with true|change (1 =? 0) with false; change (1 =? 1) with true
    |change (2 =? 0) with false; change (2 =? 1) with false; change (2 =? 2) with true]; cbv iota.
  - rewrite read_u32_of by done. cbn [result_bind].
    rewrite forallb_replicate by done. rewrite existsb_zero by done. do 2 f_equal. lia.
  - rewrite read_many_of by first [done | intros; apply read_varint_of, Hu; done]. cbn [result_bind].
    rewrite existsb_zero by done. do 2 f_equal. lia.
  - rewrite read_many_of by first [done | intros; apply read_u32_of; [by apply Hu|done]]. cbn [result_bind].
    rewrite existsb_zero by done. do 2 f_equal. lia.
Qed.

(** ** What the readers return *)

Lemma varint_range n data c acc w c' :
  (n <= 4)%nat -> Forall is_byte data -> 0 <= c -> 0 <= acc < 2 ^ (7 * (4 - Z.of_nat n)) ->
  varint_loop (ordinals n) data c acc = Ok (w, c') -> is_u32 w /\ c < c' <= len data.
Proof.
  revert c acc. induction n as [|n IH]; intros c acc Hn Hb Hc Ha.
  all: cbn [ordinals varint_loop]; destruct (data !! Z.to_nat c) as [b|] eqn:El; [|done]; cbn [ok_or result_bind].
  all: assert (is_byte b) as Hbb by (by eapply Forall_lookup_1).
  all: assert (c + 1 <= len data) as Hlen by (apply lookup_lt_Some in El; unfold len; lia).
  all: destruct (byte_facts b Hbb) as (_ & _ & -> & _); pose proof (Z.mod_pos_bound b 128 ltac:(lia)).
  - change (4 =? 4) with true. cbn [andb]. destruct (Z.ltb_spec 15 b); [done|]. rewrite Z.mod_small in * by (unfold is_byte in Hbb; lia).
    destruct (Z.ltb_spec b 128); [|lia]. unfold is_byte in Hbb. change (7 * (4 - Z.of_nat 0)) with 28 in Ha. change (4 * 7) with 28.
    change (0 <? 4) with true. rewrite lor_shift by lia. cbn [andb]. destruct (Z.eqb_spec b 0); [done|]. intros [= <- <-].
    unfold is_u32. change (2 ^ 28) with 268435456 in *. change (2 ^ 32) with 4294967296. lia.
  - set (o := 4 - Z.of_nat (S n)) in *. assert (0 <= o < 4) by lia. destruct (Z.eqb_spec o 4); [lia|]. cbn [andb].
    rewrite lor_shift by (rewrite ?(Z.mul_comm o 7); lia). rewrite (Z.mul_comm o 7).
    assert (2 ^ (7 * (4 - Z.of_nat n)) = 2 ^ (7 * o) * 128) as Hp.
    { replace (7 * (4 - Z.of_nat n)) with (7 * o + 7) by lia. rewrite Z.pow_add_r by lia. done. }
    assert (0 <= acc + b mod 128 * 2 ^ (7 * o) < 2 ^ (7 * (4 - Z.of_nat n))) as Ha' by (rewrite Hp; nia).
    destruct (b <? 128).
    + destruct (_ && _); [done|]. intros [= <- <-]. split; [|lia]. unfold is_u32.
      assert (2 ^ (7 * (4 - Z.of_nat n)) <= 2 ^ 32) by (apply Z.pow_le_mono_r; lia). lia.
    + intros Hl. apply IH in Hl; [|lia|done|lia|done]. destruct Hl; split; [done|lia].
Qed.

Lemma read_varint_range data c x c' :
  Forall is_byte data -> 0 <= c -> read_varint data c = Ok (x, c') -> is_u32 x /\ c <= c' <= len data.
Proof. intros Hb Hc H. apply (varint_range 4) in H as [? ?]; [|lia|done..]. split; [done|lia]. Qed.

Lemma read_u32_range data c x c' :
  Forall is_byte data -> 0 <= c -> read_u32 data c = Ok (x, c') -> is_u32 x /\ c <= c' <= len data.
Proof.
  intros Hb Hc. unfold read_u32, get_range. destruct (checked_add c 4) as [s|] eqn:Ea; [|done]. cbn [ok_or result_bind].
  unfold checked_add in Ea. destruct (_ <=? u64_max); [|done]. injection Ea as <-.
  destruct (_ && _) eqn:E; [|done]. apply andb_prop in E as [E1 E2]. cbn [ok_or result_bind]. intros [= <- <-].
  split; [|lia]. pose proof (from_le_bound (sub data c (c + 4)) ltac:(by apply sub_Forall)) as H.
  assert (length (sub data c (c + 4)) = 4%nat) as Hl by (pose proof (len_sub data c (c + 4)); unfold len in *; lia).
  rewrite Hl, width_4 in H. done.
Qed.

Lemma read_many_range read n data c xs c' :
  (forall c x c', 0 <= c -> read data c = Ok (x, c') -> is_u32 x /\ c <= c' <= len data) ->
  0 <= c <= len data -> read_many read n data c = Ok (xs, c') -> Forall is_u32 xs /\ length xs = n /\ c <= c' <= len data.
Proof.
  intros Hread. revert c xs. induction n as [|n IH]; intros c xs Hc; cbn [read_many].
  { intros [= <- <-]. split; [done|]. split; [done|lia]. }
  destruct (read data c) as [[x c1]|] eqn:Er; [|done]. cbn [result_bind]. apply Hread in Er as [Hx Hc1]; [|lia].
  destruct (read_many read n data c1) as [[ys c2]|] eqn:Em; [|done]. cbn [result_bind]. intros [= <- <-].
  apply IH in Em as (Hy & Hn & Hc2); [|lia]. split; [by constructor|]. cbn [length]. split; [lia|lia].
Qed.

Lemma decode_range data c ls c' :
  Forall is_byte data -> 0 <= c -> decode_block data c = Ok (ls, c') ->
  Forall length_ok ls /\ 0 < len ls <= BLOCK_ENTRIES /\ c + 3 <= c' <= len data.
Proof.
  intros Hb Hc. unfold decode_block, get_range. destruct (checked_add c 3) as [s|] eqn:Ea; [|done]. cbn [ok_or result_bind].
  unfold checked_add in Ea. destruct (_ <=? u64_max); [|done]. injection Ea as <-.
  destruct (_ && _) eqn:E; [|done]. apply andb_prop in E as [E1 E2]. cbn [ok_or result_bind].
  set (header := sub data c (c + 3)). set (n := from_le_bytes (sub header 0 2)).
  destruct (_ || _) eqn:En; [done|]. apply orb_false_iff in En as [En1 En2].
  pose proof (from_le_bound (sub header 0 2) ltac:(by repeat apply sub_Forall)) as Hn. fold n in Hn.
  set (r := if _ =? 0 then _ else _). destruct r as [[xs c1]|] eqn:Er; [|done]. cbn [result_bind].
  destruct (existsb _ xs) eqn:Ez; [done|]. intros [= <- <-]. unfold r in Er. clear r.
  assert (Forall is_u32 xs /\ length xs = Z.to_nat n /\ c + 3 <= c1 <= len data) as (Hu & Hlen & Hc1).
  { repeat case_match; try done.
    - destruct (read_u32 data (c + 3)) as [[x c2]|] eqn:E3; [|done]. cbn [result_bind] in Er. injection Er as <- <-.
      apply read_u32_range in E3 as [Hx Hc2]; [|done|lia]. split; [by apply Forall_replicate|]. split; [apply length_replicate|done].
    - apply read_many_range in Er; [done| |lia]. intros. by eapply read_varint_range.
    - apply read_many_range in Er; [done| |lia]. intros. by eapply read_u32_range. }
  split; [by apply zero_exists|]. split; [unfold len; lia|done].
Qed.

(** ** All blocks of a record *)

(** The blocks with the cursors they begin at. *)
Fixpoint all_blocks (fuel : nat) (m : StreamMappings) (cursor taken : Z) : result (list (Z * list Z) * Z) StreamChunkRecordError :=
  if taken <? m.(count) then
    match fuel with
    | O => Err (Invalid "mapping count")
    | S fuel =>
        let? (block, next) := decode_block m.(encoded) cursor in
        if negb (len block =? Z.min (m.(count) - taken) BLOCK_ENTRIES)
        then Err (Invalid "noncanonical mapping block count")
        else
          let? (blocks, stop) := all_blocks fuel m next (taken + len block) in
          Ok ((cursor, block) :: blocks, stop)
    end
  else Ok ([], cursor).

Abbreviation joined blocks := (concat (snd <$> blocks)).

Lemma lengths_blocks fuel m output cursor :
  lengths_loop fuel m output cursor =
    let? (blocks, stop) := all_blocks fuel m cursor (len output) in Ok (output ++ joined blocks, stop).
Proof.
  revert output cursor. induction fuel as [|fuel IH]; intros output cursor; cbn [lengths_loop all_blocks];
    destruct (_ <? _); cbn [result_bind]; try done; try (cbn [fmap list_fmap concat]; by rewrite app_nil_r).
  destruct (decode_block _ cursor) as [[block next]|]; [|done]. cbn [result_bind]. destruct (negb _); [done|].
  rewrite IH, len_app. destruct (all_blocks fuel m next _) as [[blocks stop]|]; [|done]. cbn [result_bind].
  cbn [fmap list_fmap concat snd]. by rewrite app_assoc.
Qed.

Definition lsum (ls : list Z) : Z := foldr Z.add 0 ls.
Definition psum (ls : list Z) : Z := foldr (fun l n => occupied StreamGroupV2 l + n) 0 ls.

Lemma lsum_app a b : lsum (a ++ b) = lsum a + lsum b.
Proof. induction a as [|x a IH]; cbn [app]; [done|]. unfold lsum in *. cbn [foldr]. lia. Qed.

Lemma psum_app a b : psum (a ++ b) = psum a + psum b.
Proof. induction a as [|x a IH]; cbn [app]; [done|]. unfold psum in *. cbn [foldr]. lia. Qed.

Lemma occupied_u32 l : length_ok l -> l < occupied StreamGroupV2 l <= u64_max.
Proof.
  intros Hl. unfold length_ok in Hl. rewrite occupied_group. pose proof (count_spec l ltac:(lia)). unfold u64_max.
  change (2 ^ 32) with 4294967296 in Hl. change (2 ^ 64) with 18446744073709551616. lia.
Qed.

Lemma sums_nonneg ls : Forall length_ok ls -> 0 <= lsum ls <= psum ls /\ lsum ls <= len ls * 2 ^ 32 /\ len ls <= lsum ls.
Proof.
  induction 1 as [|x ls Hx _ IH]; [done|]. unfold lsum, psum, len in *. cbn [foldr length].
  pose proof (occupied_u32 x Hx). unfold length_ok in Hx. lia.
Qed.

Lemma advance_physical_exact physical l :
  length_ok l -> 0 <= physical <= MAX_STREAM_CHUNK_BYTES ->
  advance_physical physical l =
    if physical + occupied StreamGroupV2 l <=? MAX_STREAM_CHUNK_BYTES then Ok (physical + occupied StreamGroupV2 l)
    else Err (Invalid "physical chunk overflow").
Proof.
  intros Hl Hp. pose proof (occupied_u32 l Hl) as Ho. unfold advance_physical. unfold length_ok in Hl.
  destruct (Z.eqb_spec l 0); [lia|]. rewrite layout_length_exact by lia.
  destruct (Z.leb_spec (occupied StreamGroupV2 l) u64_max); [|lia]. cbn [result_bind]. unfold checked_add.
  destruct (Z.leb_spec (physical + occupied StreamGroupV2 l) u64_max); [done|].
  destruct (Z.leb_spec (physical + occupied StreamGroupV2 l) MAX_STREAM_CHUNK_BYTES); [unfold u64_max in *; lia|done].
Qed.

Lemma advance_all_exact ls logical physical :
  Forall length_ok ls -> 0 <= physical <= MAX_STREAM_CHUNK_BYTES -> 0 <= logical -> logical + lsum ls <= u64_max ->
  advance_all ls logical physical =
    if physical + psum ls <=? MAX_STREAM_CHUNK_BYTES then Ok (logical + lsum ls, physical + psum ls)
    else Err (Invalid "physical chunk overflow").
Proof.
  intros Hls. revert logical physical. induction Hls as [|x ls Hx Hls IH]; intros logical physical Hp Hlo Hl.
  { cbn [advance_all lsum psum foldr]. rewrite !Z.add_0_r. destruct (Z.leb_spec physical MAX_STREAM_CHUNK_BYTES); [done|lia]. }
  cbn [advance_all]. unfold lsum, psum in *. cbn [foldr] in *. fold (lsum ls) (psum ls) in *.
  destruct (sums_nonneg ls Hls) as [Hs _]. pose proof (occupied_u32 x Hx). unfold checked_add.
  destruct (Z.leb_spec (logical + x) u64_max); [|lia]. cbn [ok_or result_bind]. rewrite advance_physical_exact by done.
  destruct (Z.leb_spec (physical + occupied StreamGroupV2 x) MAX_STREAM_CHUNK_BYTES); cbn [result_bind].
  - unfold length_ok in Hx. rewrite IH by lia. by rewrite !Z.add_assoc.
  - destruct (Z.leb_spec (physical + (occupied StreamGroupV2 x + psum ls)) MAX_STREAM_CHUNK_BYTES); [lia|done].
Qed.

Lemma advance_all_sound ls logical physical l' p' :
  Forall length_ok ls -> 0 <= physical <= MAX_STREAM_CHUNK_BYTES -> 0 <= logical <= u64_max ->
  advance_all ls logical physical = Ok (l', p') ->
  l' = logical + lsum ls /\ p' = physical + psum ls /\ l' <= u64_max /\ p' <= MAX_STREAM_CHUNK_BYTES.
Proof.
  intros Hls. revert logical physical. induction Hls as [|x ls Hx Hls IH]; intros logical physical Hp Hlo; cbn [advance_all].
  { intros [= <- <-]. cbn [lsum psum foldr]. lia. }
  unfold checked_add. destruct (Z.leb_spec (logical + x) u64_max); cbn [ok_or result_bind]; [|done].
  rewrite advance_physical_exact by done. pose proof (occupied_u32 x Hx).
  destruct (Z.leb_spec (physical + occupied StreamGroupV2 x) MAX_STREAM_CHUNK_BYTES); cbn [result_bind]; [|done].
  unfold length_ok in Hx. intros H'. apply IH in H'; [|lia|lia]. unfold lsum, psum in *. cbn [foldr]. lia.
Qed.

(** The samples of blocks that begin at these bounds. *)
Fixpoint samples_of (blocks : list (Z * list Z)) (logical physical : Z) : list SeekSample :=
  match blocks with
  | [] => []
  | (cursor, block) :: blocks =>
      mkSample logical physical cursor :: samples_of blocks (logical + lsum block) (physical + psum block)
  end.

(** What [all_blocks] returns. *)
Lemma all_blocks_range fuel m cursor taken blocks stop :
  Forall is_byte m.(encoded) -> 0 <= cursor <= len m.(encoded) -> 0 <= taken <= m.(count) ->
  all_blocks fuel m cursor taken = Ok (blocks, stop) ->
  Forall length_ok (joined blocks) /\ taken + len (joined blocks) = m.(count) /\ cursor <= stop <= len m.(encoded) /\
  (forall c b, (c, b) ∈ blocks -> exists c', decode_block m.(encoded) c = Ok (b, c')).
Proof.
  intros Hb. revert cursor taken blocks. induction fuel as [|fuel IH]; intros cursor taken blocks Hc Hd; cbn [all_blocks];
    (destruct (Z.ltb_spec taken (count m)) as [Hlt|Hge];
      [|intros [= <- <-]; split; [done|]; split; [cbn [fmap list_fmap concat]; change (len (@nil Z)) with 0; lia|];
        split; [lia|intros c b Hin; by apply elem_of_nil in Hin]]); [done|].
  destruct (decode_block (encoded m) cursor) as [[block next]|] eqn:Ed; [|done]. cbn [result_bind].
  destruct (Z.eqb_spec (len block) (Z.min (count m - taken) BLOCK_ENTRIES)) as [Hl|]; [|done]. cbn [negb].
  destruct (all_blocks fuel m next _) as [[bs s']|] eqn:Ea; [|done]. cbn [result_bind]. intros [= <- <-].
  pose proof (decode_range _ cursor _ _ Hb ltac:(lia) Ed) as (Hok & Hlen & Hnext).
  apply IH in Ea as (Hls & Hsum & Hs & Hall); [|lia|lia]. cbn [fmap list_fmap concat snd].
  split; [by apply Forall_app|]. rewrite len_app. split; [lia|]. split; [lia|].
  intros c b [[= -> ->]|Hin]%elem_of_cons; [by exists next|by apply Hall].
Qed.

Lemma index_loop_blocks fuel m ix cursor taken ix' stop :
  Forall is_byte m.(encoded) -> 0 <= cursor <= len m.(encoded) -> 0 <= taken <= m.(count) ->
  0 <= ix.(ix_logical_end) <= u64_max -> 0 <= ix.(ix_physical_end) <= MAX_STREAM_CHUNK_BYTES ->
  index_loop fuel m ix cursor taken = Ok (ix', stop) ->
  exists blocks, all_blocks fuel m cursor taken = Ok (blocks, stop) /\
    ix' = mkIndex (ix.(samples) ++ samples_of blocks ix.(ix_logical_end) ix.(ix_physical_end))
            (ix.(ix_logical_end) + lsum (joined blocks)) (ix.(ix_physical_end) + psum (joined blocks)) /\
    ix'.(ix_logical_end) <= u64_max /\ ix'.(ix_physical_end) <= MAX_STREAM_CHUNK_BYTES.
Proof.
  intros Hb. revert ix cursor taken. induction fuel as [|fuel IH]; intros ix cursor taken Hc Hd Hlo Hph; cbn [index_loop all_blocks];
    (destruct (Z.ltb_spec taken (count m)) as [Hlt|Hge];
      [|intros [= <- <-]; exists []; cbn [samples_of fmap list_fmap concat lsum psum foldr];
        rewrite app_nil_r, !Z.add_0_r; split; [done|]; split; [by destruct ix|lia]]); [done|].
  destruct (decode_block (encoded m) cursor) as [[block next]|] eqn:Ed; [|done]. cbn [result_bind].
  destruct (Z.eqb_spec (len block) (Z.min (count m - taken) BLOCK_ENTRIES)) as [Hl|]; [|done]. cbn [negb].
  destruct (2 ^ 32 <=? _); [done|]. destruct (_ <? taken + len block); [done|].
  pose proof (decode_range _ cursor _ _ Hb ltac:(lia) Ed) as (Hok & Hlen & Hnext).
  destruct (advance_all block _ _) as [[lo ph]|] eqn:Ea; [|done]. cbn [result_bind].
  apply advance_all_sound in Ea as (-> & -> & Hlo' & Hph'); [|done..]. destruct (sums_nonneg block Hok) as [Hs _].
  intros Hi. apply IH in Hi as (blocks & -> & -> & Hlast); [|lia|lia|cbn [ix_logical_end]; lia|cbn [ix_physical_end]; lia].
  cbn [result_bind]. exists ((cursor, block) :: blocks). split; [done|]. cbn [samples ix_logical_end ix_physical_end] in *.
  cbn [samples_of fmap list_fmap concat snd]. rewrite lsum_app, psum_app, <- app_assoc, !Z.add_assoc. done.
Qed.

Lemma index_blocks_loop fuel m ix cursor taken blocks stop :
  Forall is_byte m.(encoded) -> 0 <= cursor <= len m.(encoded) -> 0 <= taken <= m.(count) -> m.(count) < 2 ^ 32 ->
  0 <= ix.(ix_logical_end) -> ix.(ix_logical_end) + lsum (joined blocks) <= u64_max ->
  0 <= ix.(ix_physical_end) <= MAX_STREAM_CHUNK_BYTES ->
  all_blocks fuel m cursor taken = Ok (blocks, stop) ->
  index_loop fuel m ix cursor taken =
    if ix.(ix_physical_end) + psum (joined blocks) <=? MAX_STREAM_CHUNK_BYTES
    then Ok (mkIndex (ix.(samples) ++ samples_of blocks ix.(ix_logical_end) ix.(ix_physical_end))
               (ix.(ix_logical_end) + lsum (joined blocks)) (ix.(ix_physical_end) + psum (joined blocks)), stop)
    else Err (Invalid "physical chunk overflow").
Proof.
  intros Hb. revert ix cursor taken blocks. induction fuel as [|fuel IH]; intros ix cursor taken blocks Hc Hd Hcnt Hlo Hl Hph Hall.
  all: pose proof (all_blocks_range _ _ _ _ _ _ Hb Hc Hd Hall) as (Hok & _ & _ & _); revert Hall; cbn [index_loop all_blocks].
  all: destruct (Z.ltb_spec taken (count m)) as [Hlt|Hge];
    [|intros [= <- <-]; cbn [samples_of fmap list_fmap concat lsum psum foldr]; rewrite app_nil_r, !Z.add_0_r;
      destruct (Z.leb_spec (ix_physical_end ix) MAX_STREAM_CHUNK_BYTES); [by destruct ix|lia]].
  { done. }
  destruct (decode_block (encoded m) cursor) as [[block next]|] eqn:Ed; [|done]. cbn [result_bind].
  destruct (Z.eqb_spec (len block) (Z.min (count m - taken) BLOCK_ENTRIES)) as [Hlen|]; [|done]. cbn [negb].
  destruct (all_blocks fuel m next _) as [[bs s']|] eqn:Ea; [|done]. cbn [result_bind]. intros [= <- <-].
  destruct (Z.leb_spec (2 ^ 32) (taken + len block)); [lia|]. destruct (Z.ltb_spec (count m) (taken + len block)); [lia|].
  pose proof (decode_range _ cursor _ _ Hb ltac:(lia) Ed) as (Hbok & Hblen & Hnext).
  cbn [fmap list_fmap concat snd samples_of] in *. rewrite lsum_app in *. rewrite psum_app. apply Forall_app in Hok as [_ Hbs].
  destruct (sums_nonneg block Hbok) as [Hs _]. destruct (sums_nonneg _ Hbs) as [Hs2 _].
  rewrite advance_all_exact by (done || lia). 
  destruct (Z.leb_spec (ix_physical_end ix + psum block) MAX_STREAM_CHUNK_BYTES); cbn [result_bind].
  - rewrite (IH _ _ _ bs); cbn [samples ix_logical_end ix_physical_end]; try done; try lia.
    by rewrite <- app_assoc, !Z.add_assoc.
  - destruct (Z.leb_spec (ix_physical_end ix + (psum block + psum (joined bs))) MAX_STREAM_CHUNK_BYTES); [lia|done].
Qed.

(** ** Writing the blocks *)

Lemma varint_bytes n v : Forall is_byte (varint n v).
Proof.
  assert (forall v, is_byte (v mod 256)) as Hb by (intros; apply Z.mod_pos_bound; lia).
  revert v. induction n as [|n IH]; intros v; unfold varint; fold varint; [by constructor|].
  destruct (128 <=? v); [|by constructor]. constructor; [|done]. destruct (byte_facts _ (Hb v)) as (_ & Hr & _). unfold is_byte. lia.
Qed.

Lemma bits_shift v : 128 <= v -> bits v = bits (v / 128) + 7.
Proof.
  intros Hv. unfold bits. pose proof (Z.div_str_pos v 128). destruct (Z.eqb_spec v 0); [lia|].
  destruct (Z.eqb_spec (v / 128) 0); [lia|]. change 128 with (2 ^ 7). rewrite <- Z.shiftr_div_pow2 by lia.
  rewrite Z.log2_shiftr by lia. assert (7 <= Z.log2 v) by (change 7 with (Z.log2 128); apply Z.log2_le_mono; lia). lia.
Qed.

(** A varint is as long as the encoder reckons. *)
Lemma varint_len n v : 0 < v < 2 ^ (7 * Z.of_nat n + 7) -> len (varint n v) <= div_ceil (bits v) 7.
Proof.
  assert (forall v, 0 < v -> 1 <= div_ceil (bits v) 7) as Hone.
  { intros x Hx. assert (0 < bits x) by (unfold bits; destruct (Z.eqb_spec x 0); [lia|]; pose proof (Z.log2_nonneg x); lia).
    destruct (ceil_spec (bits x) 7) as [?|[? _]]; lia. }
  revert v. induction n as [|n IH]; intros v Hv; unfold varint; fold varint; [apply Hone; lia|].
  destruct (Z.leb_spec 128 v); [|apply Hone; lia]. change (?x :: ?y) with ([x] ++ y). rewrite len_app, len_one.
  rewrite Z.shiftr_div_pow2 by lia. change (2 ^ 7) with 128. rewrite bits_shift by done.
  assert (0 <= bits (v / 128)) by (unfold bits; destruct (_ =? 0); [lia|]; pose proof (Z.log2_nonneg (v / 128)); lia).
  rewrite (div_ceil_step 7) by lia. replace (bits (v / 128) + 7 - 7) with (bits (v / 128)) by lia.
  assert (0 < v / 128 < 2 ^ (7 * Z.of_nat n + 7)) as Hq; [|specialize (IH _ Hq); lia].
  split; [apply Z.div_str_pos; lia|]. apply Z.div_lt_upper_bound; [lia|].
  replace (7 * Z.of_nat (S n) + 7) with (7 + (7 * Z.of_nat n + 7)) in Hv by lia. rewrite Z.pow_add_r in Hv by lia. lia.
Qed.

Lemma varints_len ls :
  Forall length_ok ls -> len (concat (varint 4 <$> ls)) <= foldr Z.add 0 ((fun l => div_ceil (bits l) 7) <$> ls).
Proof.
  induction 1 as [|x ls Hx _ IH]; [done|]. rewrite !fmap_cons. cbn [concat foldr]. rewrite len_app.
  pose proof (varint_len 4 x). unfold length_ok in Hx. change (2 ^ (7 * Z.of_nat 4 + 7)) with 34359738368 in *.
  change (2 ^ 32) with 4294967296 in Hx. lia.
Qed.

Lemma encode_block_ok ls :
  Forall length_ok ls -> 0 < len ls <= BLOCK_ENTRIES ->
  exists b, encode_block ls = Ok b /\ Forall is_byte b /\ 0 < len b <= 3 + 4 * len ls.
Proof.
  intros Hok Hl. unfold encode_block. rewrite existsb_zero by done.
  destruct (Z.eqb_spec (len ls) 0); [lia|]. destruct (Z.ltb_spec BLOCK_ENTRIES (len ls)); [lia|]. cbn [orb].
  eexists. split; [done|]. rewrite Forall_app, len_app, len_le.
  pose proof (varints_len ls Hok). pose proof (len_concat_const (to_le_bytes 4) 4 ls ltac:(intros; apply len_le)).
  assert (forall {A} x (l : list A), len (x :: l) = 1 + len l) as Hcons by (intros; unfold len; cbn [length]; lia).
  destruct (forallb _ ls); [|destruct (Z.ltb_spec (foldr Z.add 0 ((fun l => div_ceil (bits l) 7) <$> ls)) (len ls * 4))];
    rewrite Hcons, ?len_le; (split; [split; [apply to_le_bytes_ok|constructor; [unfold is_byte; lia|]]|]);
    try (pose proof (len_nonneg (concat (varint 4 <$> ls))); lia).
  - apply to_le_bytes_ok.
  - apply Forall_concat, Forall_fmap, Forall_forall. intros. apply varint_bytes.
  - apply Forall_concat, Forall_fmap, Forall_forall. intros. apply to_le_bytes_ok.
Qed.

Lemma encode_blocks_ok ls :
  Forall length_ok ls ->
  exists enc, encode_blocks (chunks BLOCK_ENTRIES ls) = Ok enc /\ Forall is_byte enc /\
    len enc <= 4 * len ls + 3 * div_ceil (len ls) BLOCK_ENTRIES /\
    forall pre taken fuel, 0 <= taken -> (length ls <= fuel)%nat -> len (pre ++ enc) <= u64_max ->
      exists blocks, all_blocks fuel (mkMappings (taken + len ls) (pre ++ enc)) (len pre) taken = Ok (blocks, len pre + len enc) /\
        joined blocks = ls.
Proof.
  induction ls as [ls IH] using (induction_ltof1 _ (@length Z)). intros Hok. destruct (decide (ls = [])) as [->|Hne].
  { exists []. split; [done|]. split; [done|]. split; [done|]. intros pre taken fuel Ht _ _. exists [].
    change (len (@nil Z)) with 0. rewrite !Z.add_0_r. destruct fuel; cbn [all_blocks count]; rewrite Z.ltb_irrefl; done. }
  assert (0 < len ls) as Hpos by (destruct ls; [done|unfold len; cbn [length]; lia]).
  rewrite chunks_cons by (done || lia). set (block := sub ls 0 BLOCK_ENTRIES). set (rest := drop (Z.to_nat BLOCK_ENTRIES) ls).
  assert (block ++ rest = ls) as Hsplit by (unfold block, rest, sub; by rewrite drop_0, Z.sub_0_r, take_drop).
  assert (len block = Z.min (len ls) BLOCK_ENTRIES) as Hbl.
  { unfold block, sub, len. rewrite drop_0, Z.sub_0_r, length_take. lia. }
  assert (len rest = len ls - len block) as Hrl by (rewrite <- Hsplit, len_app; lia).
  rewrite <- Hsplit in Hok. apply Forall_app in Hok as [Hbok Hrok].
  destruct (encode_block_ok block Hbok) as (b & Hb & Hbb & Hblen); [lia|].
  destruct (IH rest) as (enc & He & Heb & Hel & Hread); [unfold ltof, len in *; lia|done|].
  exists (b ++ enc). cbn [encode_blocks]. rewrite Hb, He. cbn [result_bind]. split; [done|]. split; [by apply Forall_app|]. split.
  { rewrite len_app. destruct (decide (BLOCK_ENTRIES <= len ls)).
    - rewrite (div_ceil_step BLOCK_ENTRIES ltac:(lia) (len ls)) by lia. replace (len ls - BLOCK_ENTRIES) with (len rest) by lia. lia.
    - rewrite (div_ceil_one BLOCK_ENTRIES ltac:(lia) (len ls)) by lia. replace (len rest) with 0 in * by lia.
      change (div_ceil 0 BLOCK_ENTRIES) with 0 in Hel. lia. }
  intros pre taken fuel Ht Hf Hmax. destruct fuel as [|fuel]; [unfold len in Hpos; lia|]. cbn [all_blocks count encoded].
  destruct (Z.ltb_spec taken (taken + len ls)); [|lia]. rewrite (mapping_decode_encode block b pre enc) by done. cbn [result_bind].
  destruct (Z.eqb_spec (len block) (Z.min (taken + len ls - taken) BLOCK_ENTRIES)); [|lia]. cbn [negb].
  destruct (Hread (pre ++ b) (taken + len block) fuel) as (blocks & Hall & Hj); [lia| |by rewrite <- app_assoc|].
  { unfold len in *. lia. }
  replace (taken + len block + len rest) with (taken + len ls) in Hall by lia. rewrite <- app_assoc, len_app in Hall.
  rewrite Hall. cbn [result_bind]. exists ((len pre, block) :: blocks). rewrite len_app. split; [do 2 f_equal; lia|].
  cbn [fmap list_fmap concat snd]. by rewrite Hj, Hsplit.
Qed.

Lemma encode_blocks_zero ls :
  Forall is_u32 ls -> existsb (Z.eqb 0) ls = true -> encode_blocks (chunks BLOCK_ENTRIES ls) = Err (Invalid "mapping block lengths").
Proof.
  induction ls as [ls IH] using (induction_ltof1 _ (@length Z)). intros Hu Hz. destruct (decide (ls = [])) as [->|Hne]; [done|].
  assert (0 < len ls) as Hpos by (destruct ls; [done|unfold len; cbn [length]; lia]).
  rewrite chunks_cons by (done || lia). set (block := sub ls 0 BLOCK_ENTRIES). set (rest := drop (Z.to_nat BLOCK_ENTRIES) ls).
  assert (block ++ rest = ls) as Hsplit by (unfold block, rest, sub; by rewrite drop_0, Z.sub_0_r, take_drop).
  assert (len block = Z.min (len ls) BLOCK_ENTRIES) as Hbl.
  { unfold block, sub, len. rewrite drop_0, Z.sub_0_r, length_take. lia. }
  rewrite <- Hsplit in Hu, Hz. apply Forall_app in Hu as [Hbu Hru]. cbn [encode_blocks].
  destruct (existsb (Z.eqb 0) block) eqn:Ezb.
  - unfold encode_block. rewrite Ezb, orb_true_r. done.
  - destruct (encode_block_ok block) as (b & -> & _); [by apply zero_exists|lia|]. cbn [result_bind].
    rewrite existsb_app, Ezb in Hz. cbn [orb] in Hz. rewrite (IH rest); [done| |done|done].
    unfold ltof. rewrite <- Hsplit, length_app. unfold len in *. lia.
Qed.

Lemma sum_lengths_exact total ls :
  Forall length_ok ls -> 0 <= total -> total + lsum ls <= u64_max -> sum_lengths total ls = Some (total + lsum ls).
Proof.
  intros Hok. revert total. induction Hok as [|x ls Hx Hok IH]; intros total Ht Hl; cbn [sum_lengths].
  { cbn. f_equal. lia. }
  unfold lsum in *. cbn [foldr] in *. fold (lsum ls) in *. destruct (sums_nonneg ls Hok) as [Hs _]. unfold length_ok in Hx.
  unfold checked_add. destruct (Z.leb_spec (total + x) u64_max); [|lia]. cbn [mbind option_bind]. rewrite IH by lia.
  f_equal. lia.
Qed.

(** ** Building an index *)

(** What a record with these lengths holds. *)
Definition holds (m : StreamMappings) (ls : list Z) (blocks : list (Z * list Z)) : Prop :=
  m.(count) = len ls /\ Forall is_byte m.(encoded) /\ len m.(encoded) <= MAX_STREAM_CHUNK_RECORD_BYTES /\
  len ls <= MAX_ENTRIES /\ Forall length_ok ls /\ joined blocks = ls /\
  all_blocks (Z.to_nat m.(count)) m 0 0 = Ok (blocks, len m.(encoded)).

Lemma holds_lengths m ls blocks : holds m ls blocks -> lengths m = Ok ls.
Proof.
  intros (Hc & _ & _ & Hmax & _ & Hj & Hall). unfold lengths. destruct (Z.ltb_spec MAX_ENTRIES (count m)); [lia|].
  rewrite lengths_blocks. change (len (@nil Z)) with 0. rewrite Hall. cbn [result_bind app]. rewrite Z.eqb_refl. cbn [negb]. by rewrite Hj.
Qed.

Lemma holds_index m ls blocks start :
  holds m ls blocks -> 0 <= start -> start + lsum ls <= u64_max ->
  index m start (start + lsum ls) =
    if psum ls <=? MAX_STREAM_CHUNK_BYTES then Ok (mkIndex (samples_of blocks start 0) (start + lsum ls) (psum ls))
    else Err (Invalid "physical chunk overflow").
Proof.
  intros (Hc & Hb & Hbudget & Hmax & Hok & Hj & Hall) Hs Hl. pose proof (len_nonneg ls). pose proof (len_nonneg m.(encoded)).
  unfold index. destruct (Z.ltb_spec MAX_ENTRIES (count m)); [lia|].
  destruct (Z.ltb_spec MAX_STREAM_CHUNK_RECORD_BYTES (len (encoded m))); [lia|]. cbn [orb].
  rewrite (index_blocks_loop _ m _ _ _ blocks (len m.(encoded))); cbn [ix_logical_end ix_physical_end samples]; rewrite ?Hj; try done; try lia.
  rewrite Z.add_0_l. cbn [app]. destruct (psum ls <=? MAX_STREAM_CHUNK_BYTES); cbn [result_bind]; [|done].
  cbn [ix_logical_end]. rewrite !Z.eqb_refl. done.
Qed.

(** A record that passes [index] holds lengths that tile the range. *)
Lemma index_holds m start stop ix :
  Forall is_byte m.(encoded) -> 0 <= m.(count) -> 0 <= start <= u64_max -> index m start stop = Ok ix ->
  exists ls blocks, holds m ls blocks /\ stop = start + lsum ls /\ stop <= u64_max /\ psum ls <= MAX_STREAM_CHUNK_BYTES /\
    ix = mkIndex (samples_of blocks start 0) stop (psum ls).
Proof.
  intros Hb Hn Hs. unfold index. destruct (Z.ltb_spec MAX_ENTRIES (count m)); [done|].
  destruct (Z.ltb_spec MAX_STREAM_CHUNK_RECORD_BYTES (len (encoded m))); [done|]. cbn [orb].
  pose proof (len_nonneg m.(encoded)). destruct (index_loop _ m _ 0 0) as [[ix' cursor]|] eqn:Ei; [|done]. cbn [result_bind].
  apply index_loop_blocks in Ei as (blocks & Hall & -> & Hlo & Hph); [|done|lia|lia|done|done].
  cbn [ix_logical_end ix_physical_end samples app] in *. destruct (Z.eqb_spec cursor (len (encoded m))) as [->|]; [|done].
  destruct (Z.eqb_spec (start + lsum (joined blocks)) stop) as [He|]; [|done]. cbn [negb orb]. intros [= <-].
  pose proof (all_blocks_range _ m 0 0 _ _ Hb ltac:(lia) ltac:(lia) Hall) as (Hok & Hc & _).
  exists (joined blocks), blocks. rewrite Z.add_0_l in *. subst stop. split; [|done].
  split; [done|]. split; [done|]. split; [done|]. split; [lia|]. done.
Qed.

(** ** Seeking *)

Lemma locate_loop_finds ls offset logical physical :
  Forall length_ok ls -> 0 <= logical <= offset -> offset < logical + lsum ls -> logical + lsum ls <= u64_max ->
  0 <= physical -> physical + psum ls <= MAX_STREAM_CHUNK_BYTES ->
  exists i l, ls !! i = Some l /\ logical + lsum (take i ls) <= offset < logical + lsum (take i ls) + l /\
    locate_loop ls offset logical physical =
      Ok (mkMapping (logical + lsum (take i ls)) (logical + lsum (take i ls) + l) (physical + psum (take i ls))).
Proof.
  intros Hok. revert logical physical. induction Hok as [|x ls Hx Hok IH]; intros logical physical Hlo Hoff Hmax Hp Hpm.
  { cbn in Hoff. lia. }
  cbn [locate_loop]. unfold lsum, psum in *. cbn [foldr] in *. fold (lsum ls) (psum ls) in *. pose proof Hx as Hx0. unfold length_ok in Hx0.
  destruct (sums_nonneg ls Hok) as [Hs _]. pose proof (occupied_u32 x Hx).
  unfold checked_add. destruct (Z.leb_spec (logical + x) u64_max); [|lia]. cbn [ok_or result_bind].
  destruct (Z.ltb_spec offset (logical + x)).
  { exists 0%nat, x. cbn [take foldr]. rewrite !Z.add_0_r. split; [done|]. split; [lia|done]. }
  rewrite advance_physical_exact by (done || lia).
  destruct (Z.leb_spec (physical + occupied StreamGroupV2 x) MAX_STREAM_CHUNK_BYTES); [|lia]. cbn [result_bind].
  destruct (IH (logical + x) (physical + occupied StreamGroupV2 x)) as (i & l & Hi & Hr & ->); [lia..|].
  exists (S i), l. cbn [take foldr lookup list_lookup]. fold (lsum (take i ls)) (psum (take i ls)) in *. rewrite !Z.add_assoc. done.
Qed.

Lemma partition_first blocks logical physical offset :
  offset < logical -> partition_point (fun sample => sample.(sample_logical) <=? offset) (samples_of blocks logical physical) = O.
Proof.
  intros Ho. destruct blocks as [|[c b] bs]; cbn [samples_of partition_point sample_logical]; [done|].
  destruct (Z.leb_spec logical offset); [lia|done].
Qed.

(** The sample before an offset is that of the block that holds it. *)
Lemma seek_block blocks logical physical offset :
  logical <= offset < logical + lsum (joined blocks) ->
  exists pre c b post, blocks = pre ++ (c, b) :: post /\
    logical + lsum (joined pre) <= offset < logical + lsum (joined pre) + lsum b /\
    partition_point (fun sample => sample.(sample_logical) <=? offset) (samples_of blocks logical physical) = S (length pre) /\
    samples_of blocks logical physical !! length pre =
      Some (mkSample (logical + lsum (joined pre)) (physical + psum (joined pre)) c).
Proof.
  revert logical physical. induction blocks as [|[c b] bs IH]; intros logical physical Ho; [cbn in Ho; lia|].
  cbn [fmap list_fmap concat snd] in Ho. rewrite lsum_app in Ho. cbn [samples_of partition_point sample_logical].
  destruct (Z.leb_spec logical offset); [|lia]. destruct (decide (offset < logical + lsum b)).
  - exists [], c, b, bs. split; [done|]. cbn [fmap list_fmap concat lsum psum foldr length lookup list_lookup].
    rewrite !Z.add_0_r. split; [lia|]. rewrite partition_first by lia. done.
  - destruct (IH (logical + lsum b) (physical + psum b)) as (pre & c' & b' & post & -> & Hr & Hp & Hl); [lia|].
    exists ((c, b) :: pre), c', b', post. split; [done|]. cbn [fmap list_fmap concat snd length lookup list_lookup].
    rewrite lsum_app, psum_app, !Z.add_assoc. split; [lia|]. split; [by rewrite Hp|done].
Qed.

(** [locate] on the index of a record. *)
Lemma locate_finds m ls blocks start offset :
  holds m ls blocks -> 0 <= start <= offset -> offset < start + lsum ls -> start + lsum ls <= u64_max ->
  psum ls <= MAX_STREAM_CHUNK_BYTES ->
  exists i l, ls !! i = Some l /\ start + lsum (take i ls) <= offset < start + lsum (take i ls) + l /\
    locate (mkIndex (samples_of blocks start 0) (start + lsum ls) (psum ls)) m offset =
      Ok (mkMapping (start + lsum (take i ls)) (start + lsum (take i ls) + l) (psum (take i ls))).
Proof.
  intros (Hc & Hb & Hbudget & Hmax & Hok & Hj & Hall) Hs Ho Hu Hp. pose proof (len_nonneg ls). pose proof (len_nonneg m.(encoded)).
  pose proof (all_blocks_range _ m 0 0 _ _ Hb ltac:(lia) ltac:(lia) Hall) as (_ & _ & _ & Hdec).
  destruct (seek_block blocks start 0 offset) as (pre & c & b & post & -> & Hr & Hpp & Hsm); [rewrite Hj; lia|].
  destruct (Hdec c b) as [c' Hd]; [set_solver|]. rewrite fmap_app, fmap_cons, concat_app in Hj. cbn [concat snd] in Hj.
  unfold locate. cbn [ix_logical_end samples]. destruct (Z.leb_spec (start + lsum ls) offset); [lia|].
  rewrite Hpp, Hsm. cbn [sample_encoded sample_logical sample_physical]. rewrite Hd. cbn [result_bind]. rewrite Z.add_0_l.
  rewrite <- Hj in *. apply Forall_app in Hok as [Hpre [Hbok Hpost]%Forall_app]. rewrite !lsum_app, !psum_app in *.
  destruct (sums_nonneg _ Hpre) as [? _]. destruct (sums_nonneg _ Hpost) as [? _].
  destruct (locate_loop_finds b offset (start + lsum (joined pre)) (psum (joined pre))) as (i & l & Hi & Hrng & ->); [done|lia..|].
  exists (length (joined pre) + i)%nat, l. rewrite lookup_app_r by lia. replace (length (joined pre) + i - length (joined pre))%nat with i by lia.
  rewrite lookup_app_l by (by eapply lookup_lt_Some). split; [done|].
  rewrite take_app_add. rewrite take_app_le by (apply Nat.lt_le_incl; by eapply lookup_lt_Some).
  rewrite lsum_app, psum_app, !Z.add_assoc. done.
Qed.

Lemma holds_new ls :
  Forall length_ok ls -> len ls <= MAX_ENTRIES ->
  exists m blocks, encode_blocks (chunks BLOCK_ENTRIES ls) = Ok m.(encoded) /\ m.(count) = len ls /\ holds m ls blocks.
Proof.
  intros Hok Hmax. pose proof (len_nonneg ls). destruct (encode_blocks_ok ls Hok) as (enc & He & Hb & Hlen & Hread).
  assert (len enc <= MAX_STREAM_CHUNK_RECORD_BYTES) as Hbudget.
  { destruct (ceil_spec (len ls) BLOCK_ENTRIES) as [?|[? ?]]; lia. }
  destruct (Hread [] 0 (Z.to_nat (len ls))) as (blocks & Hall & Hj); [lia|unfold len; lia|cbn [app]; unfold u64_max; lia|].
  exists (mkMappings (len ls) enc), blocks. do 2 (split; [done|]).
  change (len (@nil Z)) with 0 in Hall. rewrite !Z.add_0_l in Hall. cbn [app] in Hall.
  do 6 (split; [done|]). exact Hall.
Qed.

(** [new] on every list of lengths. *)
Lemma new_cases ls :
  Forall is_u32 ls ->
  (MAX_ENTRIES < len ls /\ new ls = Err (Invalid "mapping count")) \/
  (len ls <= MAX_ENTRIES /\ 0 ∈ ls /\ new ls = Err (Invalid "mapping block lengths")) \/
  (len ls <= MAX_ENTRIES /\ (0 ∉ ls) /\ MAX_STREAM_CHUNK_BYTES < psum ls /\ new ls = Err (Invalid "physical chunk overflow")) \/
  (len ls <= MAX_ENTRIES /\ (0 ∉ ls) /\ psum ls <= MAX_STREAM_CHUNK_BYTES /\ exists m blocks, new ls = Ok m /\ holds m ls blocks).
Proof.
  intros Hu. unfold new. destruct (Z.ltb_spec MAX_ENTRIES (len ls)) as [Hgt|Hle]; [by left|right].
  destruct (existsb (Z.eqb 0) ls) eqn:Ez.
  { left. split; [done|]. split; [|by rewrite encode_blocks_zero].
    apply existsb_exists in Ez as (x & Hx & <-%Z.eqb_eq). by apply list_elem_of_In. }
  right. assert (Forall length_ok ls) as Hok by (by apply zero_exists).
  assert (0 ∉ ls) as Hnz by (rewrite Forall_forall in Hok; intros H%Hok; unfold length_ok in H; lia).
  destruct (holds_new ls Hok Hle) as (m & blocks & -> & Hc & Hh). cbn [result_bind].
  destruct (sums_nonneg ls Hok) as (Hs & Hsu & _). assert (lsum ls <= u64_max) as Hl.
  { unfold u64_max. change (2 ^ 32) with 4294967296 in Hsu. change (2 ^ 64) with 18446744073709551616. lia. }
  rewrite sum_lengths_exact by (done || lia). cbn [ok_or result_bind]. rewrite <- Hc.
  replace (mkMappings (count m) (encoded m)) with m by (by destruct m). rewrite (holds_index m ls blocks 0) by (done || lia).
  destruct (Z.leb_spec (psum ls) MAX_STREAM_CHUNK_BYTES); cbn [result_bind]; [right|left]; do 3 (split; [done || lia|]); [|done].
  by exists m, blocks.
Qed.

(** ** Properties *)

(** C32. Encoding append lengths, on every list of [u32] lengths.  [new] reports
    too many lengths, an empty append, and appends whose frames do not fit a
    chunk, in that order; otherwise it builds mappings whose blocks read back as
    exactly the given lengths, and whose index at any logical start that leaves
    room ends at the sum of the lengths and at the physical length of the
    appends' frames.  The byte budget of a record never stops it. *)
Theorem mappings_roundtrip (ls : list Z) :
  Forall is_u32 ls ->
  (MAX_ENTRIES < len ls -> new ls = Err (Invalid "mapping count")) /\
  (len ls <= MAX_ENTRIES ->
    (0 ∈ ls -> new ls = Err (Invalid "mapping block lengths")) /\
    ((0 ∉ ls) -> MAX_STREAM_CHUNK_BYTES < psum ls -> new ls = Err (Invalid "physical chunk overflow")) /\
    ((0 ∉ ls) -> psum ls <= MAX_STREAM_CHUNK_BYTES ->
      exists m, new ls = Ok m /\ lengths m = Ok ls /\
        forall start, 0 <= start -> start + lsum ls <= u64_max ->
          exists ix, index m start (start + lsum ls) = Ok ix /\ ix.(ix_logical_end) = start + lsum ls /\
            ix.(ix_physical_end) = psum ls)).
Proof.
  intros Hu. destruct (new_cases ls Hu) as [[? ->]|[(? & ? & ->)|[(? & ? & ? & ->)|(? & ? & ? & m & blocks & -> & Hh)]]];
    (split; [intros; first [done | lia]|intros; split; [intros; first [done | lia]|split; intros; try first [done | lia]]]).
  exists m. split; [done|]. split; [by eapply holds_lengths|]. intros start Hs Hl.
  rewrite (holds_index m ls blocks) by done. destruct (Z.leb_spec (psum ls) MAX_STREAM_CHUNK_BYTES); [|lia]. by eexists.
Qed.

Lemma mappings_roundtrip_witness :
  Forall is_u32 [7; 65501; 70000] /\ exists m, new [7; 65501; 70000] = Ok m /\ lengths m = Ok [7; 65501; 70000].
Proof.
  assert (Forall is_u32 [7; 65501; 70000]) as Hu by (repeat constructor; vm_compute; congruence). split; [exact Hu|].
  destruct (mappings_roundtrip _ Hu) as [_ H]. destruct H as (_ & _ & H); [vm_compute; congruence|].
  destruct H as (m & Hn & Hl & _); [apply (bool_decide_unpack _); vm_compute; exact I|vm_compute; congruence|]. exists m. split; [exact Hn|exact Hl].
Defined.

(** C33. Finding an append.  Whatever bytes a record holds, if [index] admits its
    mappings for a logical range then the decoded lengths tile exactly that
    range, and [locate], which decodes only the block chosen by the seek
    samples, answers every offset of the range with the one append that holds
    it: its logical bounds, and the physical start given by the frames of the
    appends before it.  Offsets past the range or before it are refused. *)
Theorem locate_exact (m : StreamMappings) (start stop : Z) (ix : StreamMappingIndex) (offset : Z) :
  Forall is_byte m.(encoded) -> 0 <= m.(count) -> 0 <= start <= u64_max -> index m start stop = Ok ix ->
  exists ls, lengths m = Ok ls /\ stop = start + lsum ls /\ ix.(ix_physical_end) = psum ls /\
    (stop <= offset -> locate ix m offset = Err (Invalid "offset beyond mappings")) /\
    (offset < start -> locate ix m offset = Err (Invalid "offset before mappings")) /\
    (start <= offset < stop -> exists i l, ls !! i = Some l /\
      start + lsum (take i ls) <= offset < start + lsum (take i ls) + l /\
      locate ix m offset = Ok (mkMapping (start + lsum (take i ls)) (start + lsum (take i ls) + l) (psum (take i ls)))).
Proof.
  intros Hb Hc Hs Hi. apply index_holds in Hi as (ls & blocks & Hh & -> & Hstop & Hp & ->); [|done..].
  exists ls. split; [by eapply holds_lengths|]. split; [done|]. split; [done|]. split; [|split].
  - intros Ho. unfold locate. cbn [ix_logical_end]. destruct (Z.leb_spec (start + lsum ls) offset); [done|lia].
  - intros Ho. unfold locate. cbn [ix_logical_end samples]. rewrite partition_first by done.
    destruct Hh as (_ & _ & _ & _ & Hok & _). destruct (sums_nonneg ls Hok) as [? _].
    destruct (Z.leb_spec (start + lsum ls) offset); [lia|done].
  - intros Ho. apply locate_finds; [done|lia..].
Qed.

Definition demo_mappings : StreamMappings := mkMappings 3 [3; 0; 1; 7; 221; 255; 3; 240; 162; 4].

Lemma locate_exact_witness :
  exists ix, index demo_mappings 100 135608 = Ok ix /\ locate ix demo_mappings 107 = Ok (mkMapping 107 65608 54).
Proof.
  destruct (index demo_mappings 100 135608) as [ix|e] eqn:E; [|vm_compute in E; discriminate E]. exists ix. split; [reflexivity|].
  destruct (locate_exact demo_mappings 100 135608 ix 107) as (ls & Hl & _ & _ & _ & _ & H);
    [repeat constructor; vm_compute; congruence|vm_compute; congruence|split; vm_compute; congruence|exact E|].
  assert (ls = [7; 65501; 70000]) as -> by (vm_compute in Hl; congruence).
  destruct H as (i & l & Hi & Hr & ->); [split; [vm_compute; congruence|vm_compute; reflexivity]|].
  destruct i as [|[|[|i]]]; cbn in Hi; try discriminate Hi; injection Hi as <-; destruct Hr as [H1 H2]; vm_compute in H1, H2 |- *; congruence.
Defined.

End StreamMappings.
