(* ===== verification/StreamChunk.v ===== *)
(** * Stream chunk records

    Models [src/lib/crowdb-protocol/src/chunk_stream/chunk_record.rs] and
    [chunk_record/codec.rs]: the metadata record of one chunk of a Stream, its
    validation, and the checksummed envelope it is stored in.  [bincode] is the
    parameter [Bincode] with the laws the codec relies on, [crc32c] the
    parameter [upd] of the frame codec. *)

From stdpp Require Import prelude list list_numbers strings countable.
From Stdlib Require Import ZArith Lia.
From S2P Require Import Prelude Roles Bytes WalRecord KeyEncoding ChunkSlots BinaryKeys Frame FrameGeometry StreamMappings.

Module StreamChunk.
Import KeyEncoding ChunkSlots BinaryKeys Frame FrameGeometry StreamMappings.

Inductive StreamPurpose := WalPurpose | StreamPurpose_.

(** [ChunkType::Wal as u8], [ChunkType::Stream as u8] *)
Definition purpose_chunk_type (p : StreamPurpose) : Z := match p with WalPurpose => 1 | StreamPurpose_ => 4 end.

Definition matches (p : StreamPurpose) (id : ChunkId) : bool := chunk_type id =? purpose_chunk_type p.

Inductive StreamChunkState := CandidateState | ActiveState | SealedState | DeletingState.

Record StreamChunkRecord := mkRecord {
  stream_id : StreamName;
  purpose : StreamPurpose;
  chunk_id : ChunkId;
  state : StreamChunkState;
  logical_start : option Z;
  logical_end : option Z;
  sequence : Z;
  writer_epoch : Z;
  generation : Z;
  owner_session : bytes;
  trim_offset : Z;
  closed : bool;
  mappings : StreamMappings;
}.

#[export] Instance StreamPurpose_eq_dec : EqDecision StreamPurpose.
Proof. solve_decision. Defined.
#[export] Instance StreamChunkState_eq_dec : EqDecision StreamChunkState.
Proof. solve_decision. Defined.
#[export] Instance StreamName_eq_dec : EqDecision StreamName.
Proof. solve_decision. Defined.
#[export] Instance StreamMappings_eq_dec : EqDecision StreamMappings.
Proof. solve_decision. Defined.
#[export] Instance StreamChunkRecord_eq_dec : EqDecision StreamChunkRecord.
Proof. solve_decision. Defined.

Abbreviation zero_session := (replicate 16 0).

Definition validate (r : StreamChunkRecord) : result StreamMappingIndex StreamChunkRecordError :=
  if negb (matches r.(purpose) r.(chunk_id)) || (r.(writer_epoch) =? 0) || bool_decide (r.(owner_session) = zero_session)
  then Err (Invalid "identity or purpose")
  else if bool_decide (r.(state) = CandidateState) then
    if bool_decide (is_Some r.(logical_start)) || bool_decide (is_Some r.(logical_end)) || r.(closed)
       || negb (r.(generation) =? 0) || negb (r.(mappings).(count) =? 0) || negb (r.(trim_offset) =? 0)
    then Err (Invalid "candidate has attached progress")
    else index r.(mappings) 0 0
  else
    let? start := ok_or r.(logical_start) (Invalid "missing logical start") in
    let? stop := ok_or r.(logical_end) (Invalid "missing logical end") in
    if (stop <? start) || (r.(generation) =? 0) || (stop <? r.(trim_offset))
       || (r.(closed) && bool_decide (r.(state) = ActiveState))
    then Err (Invalid "logical bounds or state")
    else index r.(mappings) start stop.

(** ** Envelope *)

(** [bincode::serialize] of a record, and the bounded deserializer. *)
Class Bincode := {
  serialize : StreamChunkRecord -> option bytes;
  deserialize : Z -> bytes -> option StreamChunkRecord;
}.

(** The Rust types of the fields. *)
Definition typed (r : StreamChunkRecord) : Prop :=
  is_u64 (stream_high r.(stream_id)) /\ is_u64 (stream_low r.(stream_id)) /\
  is_u64 (chunk_high r.(chunk_id)) /\ is_u64 (chunk_low r.(chunk_id)) /\
  (forall z, r.(logical_start) = Some z -> is_u64 z) /\ (forall z, r.(logical_end) = Some z -> is_u64 z) /\
  is_u64 r.(sequence) /\ is_u64 r.(writer_epoch) /\ is_u64 r.(generation) /\ is_u64 r.(trim_offset) /\
  0 <= r.(mappings).(count) /\ Forall is_byte r.(mappings).(encoded).

(** What the codec relies on: bytes read back as the record they were written
    from, within their own length, and a record that was read has its types. *)
Class BincodeLaws `{Bincode} : Prop := {
  serialize_bytes : forall r b, serialize r = Some b -> Forall is_byte b;
  deserialize_serialize : forall r b, typed r -> serialize r = Some b -> deserialize (len b) b = Some r;
  deserialize_typed : forall n b r, deserialize n b = Some r -> typed r;
}.

(** [b"CSCR\x01\x00\x00\x00"] *)
Definition HEADER : bytes := [67; 83; 67; 82; 1; 0; 0; 0].

Section codec.
Context (upd : Z -> bytes -> Z) `{!Crc32c upd} `{Bincode}.

Definition encode_stream_chunk_record (r : StreamChunkRecord) : result bytes StreamChunkRecordError :=
  let? _ := validate r in
  let? body := ok_or (serialize r) (Invalid "record encoding") in
  if MAX_STREAM_CHUNK_RECORD_BYTES - 16 <? len body then Err (Invalid "record byte budget")
  else
    let bytes := HEADER ++ to_le_bytes 4 (len body) ++ body in
    let checksum := upd 0 bytes in
    Ok (bytes ++ to_le_bytes 4 checksum).

Definition decode_stream_chunk_record (data : bytes) : result StreamChunkRecord StreamChunkRecordError :=
  if (len data <? 16) || (MAX_STREAM_CHUNK_RECORD_BYTES <? len data) || negb (bool_decide (sub data 0 8 = HEADER))
  then Err (Invalid "record envelope")
  else
    let length := from_le_bytes (sub data 8 12) in
    if negb (length =? len data - 16) then Err (Invalid "record length")
    else
      let checksum := from_le_bytes (sub data (len data - 4) (len data)) in
      if negb (checksum =? upd 0 (sub data 0 (len data - 4))) then Err (Invalid "record checksum")
      else
        let? record := ok_or (deserialize length (sub data 12 (len data - 4))) (Invalid "record decoding") in
        let? _ := validate record in
        Ok record.

(** ** The codec *)

Lemma encode_inv r b :
  encode_stream_chunk_record r = Ok b ->
  exists ix body, validate r = Ok ix /\ serialize r = Some body /\ len body <= MAX_STREAM_CHUNK_RECORD_BYTES - 16 /\
    b = (HEADER ++ to_le_bytes 4 (len body) ++ body) ++ to_le_bytes 4 (upd 0 (HEADER ++ to_le_bytes 4 (len body) ++ body)).
Proof.
  unfold encode_stream_chunk_record. destruct (validate r) as [ix|]; [|done]. cbn [result_bind].
  destruct (serialize r) as [body|]; [|done]. cbn [ok_or result_bind].
  destruct (Z.ltb_spec (MAX_STREAM_CHUNK_RECORD_BYTES - 16) (len body)); [done|]. intros Hb.
  exists ix, body. do 3 (split; [done|]). congruence.
Qed.

Lemma decode_encode_record `{!BincodeLaws} r b :
  typed r -> encode_stream_chunk_record r = Ok b -> decode_stream_chunk_record b = Ok r.
Proof using All.
  intros Ht Henc. apply encode_inv in Henc as (ix & body & Hv & Hs & Hlen & ->).
  set (bytes := HEADER ++ to_le_bytes 4 (len body) ++ body). set (sum := to_le_bytes 4 (upd 0 bytes)).
  assert (len bytes = 12 + len body) as Hb by (unfold bytes; rewrite !len_app, len_le; change (len HEADER) with 8; lia).
  assert (len sum = 4) as Hsum by apply len_le. assert (len (bytes ++ sum) = 16 + len body) as Hd by (rewrite len_app; lia).
  pose proof (len_nonneg body). unfold decode_stream_chunk_record. rewrite Hd.
  destruct (Z.ltb_spec (16 + len body) 16); [lia|].
  destruct (Z.ltb_spec MAX_STREAM_CHUNK_RECORD_BYTES (16 + len body)); [lia|]. cbn [orb].
  assert (sub (bytes ++ sum) 0 8 = HEADER) as ->.
  { rewrite sub_app_l by lia. unfold bytes. by rewrite sub_prefix. }
  rewrite bool_decide_eq_true_2 by done. cbn [negb].
  assert (sub (bytes ++ sum) 8 12 = to_le_bytes 4 (len body)) as ->.
  { rewrite sub_app_l by lia. unfold bytes. rewrite sub_app_r by (change (len HEADER) with 8; lia). change (len HEADER) with 8.
    rewrite sub_prefix by (rewrite len_le; lia). done. }
  rewrite from_to_le by (rewrite width_4; lia). destruct (Z.eqb_spec (len body) (16 + len body - 16)); [|lia]. cbn [negb].
  assert (sub (bytes ++ sum) (16 + len body - 4) (16 + len body) = sum) as ->.
  { rewrite sub_app_r by lia. replace (16 + len body - 4 - len bytes) with 0 by lia. apply sub_all. lia. }
  assert (sub (bytes ++ sum) 0 (16 + len body - 4) = bytes) as -> by (apply sub_prefix; lia).
  unfold sum. rewrite from_to_le by (rewrite width_4; apply crc_range; lia). rewrite Z.eqb_refl. cbn [negb].
  fold sum. assert (sub (bytes ++ sum) 12 (16 + len body - 4) = body) as ->.
  { rewrite sub_app_l by lia. unfold bytes. rewrite app_assoc, sub_app_r by (rewrite len_app, len_le; change (len HEADER) with 8; lia).
    rewrite len_app, len_le. change (len HEADER) with 8. change (12 - (8 + Z.of_nat 4)) with 0. apply sub_all. lia. }
  rewrite (deserialize_serialize r body) by done. cbn [ok_or result_bind]. by rewrite Hv.
Qed.

Lemma decode_valid `{!BincodeLaws} b r :
  decode_stream_chunk_record b = Ok r -> typed r /\ exists ix, validate r = Ok ix.
Proof using All.
  unfold decode_stream_chunk_record. destruct (_ || _); [done|]. destruct (negb _); [done|]. destruct (negb _); [done|].
  destruct (deserialize _ _) as [r'|] eqn:Ed; [|done]. cbn [ok_or result_bind].
  destruct (validate r') as [ix|] eqn:Ev; [|done]. cbn [result_bind]. intros [= <-]. split; [by eapply deserialize_typed|by exists ix].
Qed.

End codec.

(** ** What validation shows *)

(** An attached record with its bounds and append lengths. *)
Record attached (r : StreamChunkRecord) (start stop : Z) (ls : list Z) : Prop := mkAttached {
  at_state : r.(state) <> CandidateState;
  at_start : r.(logical_start) = Some start;
  at_stop : r.(logical_end) = Some stop;
  at_lengths : lengths r.(mappings) = Ok ls;
  at_tile : stop = start + lsum ls;
  at_ok : Forall length_ok ls;
  at_trim : r.(trim_offset) <= stop;
  at_range : 0 <= start <= stop /\ stop <= u64_max;
}.

Lemma validate_attached r ix :
  typed r -> validate r = Ok ix -> r.(state) <> CandidateState ->
  exists start stop ls blocks, attached r start stop ls /\ holds r.(mappings) ls blocks /\
    ix = mkIndex (samples_of blocks start 0) stop (psum ls) /\ psum ls <= MAX_STREAM_CHUNK_BYTES.
Proof.
  intros Ht Hv Hst. unfold validate in Hv. destruct (_ || _); [done|]. rewrite bool_decide_eq_false_2 in Hv by done.
  destruct (logical_start r) as [start|] eqn:Es; [|done]. destruct (logical_end r) as [stop|] eqn:Ee; [|done].
  cbn [ok_or result_bind] in Hv. destruct (_ || _) eqn:Eb; [done|]. rewrite !orb_false_iff in Eb. destruct Eb as [[[E1 E2] E3] E4].
  destruct Ht as (_ & _ & _ & _ & Hus & Hue & _ & _ & _ & Hut & Hc & Hb). specialize (Hus _ Es). specialize (Hue _ Ee).
  unfold is_u64 in *. apply index_holds in Hv as (ls & blocks & Hh & Hstop & Hmax & Hp & ->); [|done|lia|lia].
  exists start, stop, ls, blocks. split; [|done]. split; try done; [by eapply holds_lengths|apply Hh|lia|lia].
Qed.

Lemma validate_candidate r ix :
  typed r -> validate r = Ok ix -> r.(state) = CandidateState -> r.(logical_start) = None /\ r.(logical_end) = None.
Proof.
  intros Ht Hv Hst. unfold validate in Hv. destruct (_ || _); [done|]. rewrite bool_decide_eq_true_2 in Hv by done.
  destruct (_ || _) eqn:Eb; [done|]. rewrite !orb_false_iff in Eb. destruct Eb as [[[[[E1 E2] _] _] _] _].
  split; [destruct (logical_start r)|destruct (logical_end r)]; try done;
    match goal with H : bool_decide (is_Some (Some _)) = false |- _ => by apply bool_decide_eq_false in H; destruct H end.
Qed.

End StreamChunk.
