(* ===== verification/StreamStore.v ===== *)
(** * The Stream chunk record store

    Models [src/lib/crowdb-chunk-stream/src/records.rs], its submodules
    [publication.rs], [candidate.rs], [collection.rs], [pin.rs], [cache.rs] and
    [backend.rs], and the in-memory backend [memory/record_backend.rs].

    The operations are asynchronous: between two calls of the backend any other
    task may run.  An operation is therefore a program [prog], a tree of the
    calls it makes (the trait [RecordBackend], the clocks, the record cache, the
    chunk store), whose branches are the replies.  Retry loops are bounded in
    the code and recurse on that bound; [maintain], which loops until it is
    stopped, takes the list of its stop signals. *)

From stdpp Require Import prelude gmap list list_numbers strings sorting.
From Stdlib Require Import ZArith Lia.
From S2P Require Import Prelude Roles Bytes WalRecord KeyEncoding ChunkSlots BinaryKeys Frame FrameGeometry StreamMappings StreamChunk.

Module StreamStore.
Import KeyEncoding ChunkSlots BinaryKeys Frame FrameGeometry StreamMappings StreamChunk.

(** ** Backend *)

(** [crowdb_kv_client::Error]; the errors the store does not tell apart are [OtherError]. *)
Inductive Error := CasFailed (current_revision : Z) | CasBusy | OutcomeUnknown | OtherError (what : string).

Inductive StreamError :=
| InvalidRequest (what : string) | Backpressure | StaleWriter | WriteStalled
| ReadUnavailable (what : string) | Corruption (what : string).

Inductive BatchOp := Put (key value : bytes) | Delete (key : bytes).

Definition op_key (op : BatchOp) : bytes := match op with Put key _ => key | Delete key => key end.

Record MemoryRecord := mkMemory { value : bytes; revision : Z }.

(** The records of one metadata group. *)
Record MemoryState := mkState { metadata_records : gmap bytes MemoryRecord; metadata_revision : Z }.

Record ScanOutcome := mkScan { items : list (bytes * bytes); commit_slots : list Z; truncated : bool }.

Definition get (s : MemoryState) (key : bytes) : option MemoryRecord := s.(metadata_records) !! key.

Definition key_le (a b : bytes * MemoryRecord) : Prop := lex_lt b.1 a.1 = false.

#[export] Instance key_le_dec a b : Decision (key_le a b).
Proof. unfold key_le. apply _. Defined.

(** [BTreeMap::iter] *)
Definition iter (s : MemoryState) : list (bytes * MemoryRecord) := merge_sort key_le (map_to_list s.(metadata_records)).

Definition scan (s : MemoryState) (prefix after : bytes) (limit : Z) (reverse : bool) : ScanOutcome :=
  let found := filter (fun e => bool_decide (prefix `prefix_of` e.1) &&
    (bool_decide (after = []) || if reverse then lex_lt e.1 after else lex_lt after e.1) = true) (iter s) in
  let found := if reverse then rev found else found in
  let page := take (Z.to_nat limit) found in
  mkScan ((fun e => (e.1, e.2.(value))) <$> page) ((fun e => e.2.(revision)) <$> page) (bool_decide (limit < len found)).

Definition apply_op (next : Z) (m : gmap bytes MemoryRecord) (op : BatchOp) : gmap bytes MemoryRecord :=
  match op with Put key v => <[key := mkMemory v next]> m | Delete key => delete key m end.

Definition apply_ops (m : gmap bytes MemoryRecord) (next : Z) (ops : list BatchOp) : gmap bytes MemoryRecord :=
  foldl (apply_op next) m ops.

(** The injected faults: a refusal before the comparison, and a reply lost
    after the batch was applied. *)
Inductive Fault := NoFault | Refuse (e : Error) | LoseResponse.

Definition batch (s : MemoryState) (ops : list BatchOp) (key : bytes) (expected : Z) (fault : Fault)
    : MemoryState * result Z Error :=
  if negb (existsb (fun op => bool_decide (op_key op = key)) ops)
  then (s, Err (OtherError "conditional batch must mutate its guarded key"))
  else match fault with
  | Refuse e => (s, Err e)
  | _ =>
      let current := match get s key with Some r => r.(revision) | None => 0 end in
      if negb (current =? expected) then (s, Err (CasFailed current))
      else match checked_add s.(metadata_revision) 1 with
      | None => (s, Err (OtherError "test metadata revision overflows"))
      | Some next =>
          (mkState (apply_ops s.(metadata_records) next ops) next,
           match fault with LoseResponse => Err OutcomeUnknown | _ => Ok next end)
      end
  end.

(** ** Snapshots, the cache and read pins *)

Record StreamChunkRecordSnapshot := mkSnapshot {
  ss_record : StreamChunkRecord;
  ss_index : StreamMappingIndex;
  ss_key : bytes;
  ss_revision : Z;
}.

Record RecordCache := mkCache { slots : list (option StreamChunkRecordSnapshot); next_slot : Z }.

Abbreviation SLOTS := 32%nat.
Abbreviation SLOT_BYTES := 1048576.

Definition cache_default : RecordCache := mkCache (replicate SLOTS None) 0.

Definition opt_le (start : option Z) (offset : Z) : bool := match start with Some s => s <=? offset | None => false end.
Definition opt_gt (stop : option Z) (offset : Z) : bool := match stop with Some e => offset <? e | None => false end.

Fixpoint find_slot (l : list (option StreamChunkRecordSnapshot)) (id : StreamName) (offset : Z)
    : option StreamChunkRecordSnapshot :=
  match l with
  | [] => None
  | Some s :: l =>
      if bool_decide (s.(ss_record).(stream_id) = id) && opt_le s.(ss_record).(logical_start) offset
         && opt_gt s.(ss_record).(logical_end) offset
      then Some s else find_slot l id offset
  | None :: l => find_slot l id offset
  end.

Definition cache_find (c : RecordCache) (id : StreamName) (offset : Z) : option StreamChunkRecordSnapshot :=
  find_slot c.(slots) id offset.

(** [resident_bytes] is the memory of an index, which depends on its allocation. *)
Definition cache_insert (resident_bytes : StreamMappingIndex -> Z) (c : RecordCache) (s : StreamChunkRecordSnapshot)
    : RecordCache :=
  if SLOT_BYTES <? len s.(ss_record).(mappings).(encoded) + resident_bytes s.(ss_index) then c
  else mkCache (<[Z.to_nat (c.(next_slot) mod 32) := Some s]> c.(slots)) (wrap64 (c.(next_slot) + 1)).

Record PinRecord := mkPin {
  pin_id : bytes;
  pin_stream : StreamName;
  pin_begin : Z;
  pin_end : Z;
  pin_active : option ChunkId;
  pin_expires : Z;
}.

#[export] Instance PinRecord_eq_dec : EqDecision PinRecord.
Proof. solve_decision. Defined.

Abbreviation LEASE_MS := 60000.
Abbreviation PIN_GRACE_MS := 31000.

(** [serde_json] on a pin. *)
Class PinJson := { to_vec : PinRecord -> option bytes; from_slice : bytes -> option PinRecord }.

Definition pin_prefix (stream : StreamName) : bytes :=
  [CROWDB_KEY_MAGIC; 0; 30] ++ to_be_bytes 8 (stream_high stream) ++ to_be_bytes 8 (stream_low stream).

Definition pin_key (pin : PinRecord) : bytes := pin_prefix pin.(pin_stream) ++ pin.(pin_id).

(** ** Programs *)

Inductive prog (A : Type) : Type :=
| Ret (a : A)
| Get (key : bytes) (k : result (option MemoryRecord) Error -> prog A)
| Scan (prefix after : bytes) (limit : Z) (reverse : bool) (k : result ScanOutcome Error -> prog A)
| Batch (ops : list BatchOp) (guard : bytes) (expected : Z) (k : result Z Error -> prog A)
| Find (id : StreamName) (offset : Z) (k : option StreamChunkRecordSnapshot -> prog A)
| Insert (s : StreamChunkRecordSnapshot) (k : prog A)
| NowMs (k : Z -> prog A)
| InstantNow (k : Z -> prog A)
| LoadDeadline (h : nat) (k : Z -> prog A)
| StoreDeadline (h : nat) (d : Z) (k : prog A)
| NewPin (pin : PinRecord) (d : Z) (k : nat -> prog A)
| DropPin (h : nat) (k : prog A)
| ReleaseTrimmed (id : ChunkId) (stop physical_end : Z) (k : result Z StreamError -> prog A).

#[global] Arguments Ret {A} a.
#[global] Arguments Get {A} key k.
#[global] Arguments Scan {A} prefix after limit reverse k.
#[global] Arguments Batch {A} ops guard expected k.
#[global] Arguments Find {A} id offset k.
#[global] Arguments Insert {A} s k.
#[global] Arguments NowMs {A} k.
#[global] Arguments InstantNow {A} k.
#[global] Arguments LoadDeadline {A} h k.
#[global] Arguments StoreDeadline {A} h d k.
#[global] Arguments NewPin {A} pin d k.
#[global] Arguments DropPin {A} h k.
#[global] Arguments ReleaseTrimmed {A} id stop physical_end k.

Fixpoint bind {A B} (p : prog A) (f : A -> prog B) : prog B :=
  match p with
  | Ret a => f a
  | Get key k => Get key (fun x => bind (k x) f)
  | Scan prefix after limit reverse k => Scan prefix after limit reverse (fun x => bind (k x) f)
  | Batch ops guard expected k => Batch ops guard expected (fun x => bind (k x) f)
  | Find id offset k => Find id offset (fun x => bind (k x) f)
  | Insert s k => Insert s (bind k f)
  | NowMs k => NowMs (fun x => bind (k x) f)
  | InstantNow k => InstantNow (fun x => bind (k x) f)
  | LoadDeadline h k => LoadDeadline h (fun x => bind (k x) f)
  | StoreDeadline h d k => StoreDeadline h d (bind k f)
  | NewPin pin d k => NewPin pin d (fun x => bind (k x) f)
  | DropPin h k => DropPin h (bind k f)
  | ReleaseTrimmed id stop physical_end k => ReleaseTrimmed id stop physical_end (fun x => bind (k x) f)
  end.

Abbreviation task A := (prog (result A StreamError)).

(** [.await?] *)
Definition try {A B} (p : task A) (f : A -> task B) : task B :=
  bind p (fun r => match r with Ok a => f a | Err e => Ret (Err e) end).

Definition lift {A} (r : result A StreamError) : task A := Ret r.

Notation "x <- p ;; q" := (bind p (fun x => q)) (at level 100, p at next level, right associativity).
Notation "x <-? p ;; q" := (try p (fun x => q)) (at level 100, p at next level, right associativity).

Definition corrupt {A} (reason : string) : result A StreamError := Err (Corruption reason).

Definition codec {A} (r : result A StreamChunkRecordError) : result A StreamError :=
  match r with Ok a => Ok a | Err (Invalid what) => Err (Corruption what) end.

Definition storage_error (e : Error) : StreamError :=
  match e with
  | CasBusy | CasFailed _ => Backpressure
  | OutcomeUnknown => WriteStalled
  | OtherError what => ReadUnavailable what
  end.

Definition stored {A} (r : result A Error) : result A StreamError :=
  match r with Ok a => Ok a | Err e => Err (storage_error e) end.

Definition kv_get (key : bytes) : task (option MemoryRecord) := Get key (fun r => Ret (stored r)).
Definition kv_scan (prefix after : bytes) (limit : Z) (reverse : bool) : task ScanOutcome :=
  Scan prefix after limit reverse (fun r => Ret (stored r)).
Definition kv_batch (ops : list BatchOp) (guard : bytes) (expected : Z) : prog (result Z Error) := Batch ops guard expected Ret.
Definition now_ms : prog Z := NowMs Ret.
Definition instant : prog Z := InstantNow Ret.

(** The default [scan_keys]. *)
Definition kv_scan_keys (prefix after : bytes) (limit : Z) : task ScanOutcome :=
  records <-? kv_scan prefix after limit false;;
  Ret (Ok (mkScan ((fun i => (i.1, [])) <$> records.(items)) records.(commit_slots) records.(truncated))).

Section store.
Context (upd : Z -> bytes -> Z) `{Bincode} `{PinJson}.

Definition decode (key data : bytes) (revision : Z) (id : StreamName) : result StreamChunkRecordSnapshot StreamError :=
  let? key_value := match from_bytes (K := StreamChunkRecordKey) key with Ok k => Ok k | Err _ => corrupt "record key" end in
  let? record := codec (decode_stream_chunk_record upd data) in
  if negb (bool_decide (key_value.(scrk_stream_id) = id)) || negb (bool_decide (record.(stream_id) = id)) || (revision =? 0)
  then corrupt "record identity"
  else
    let? _ := match key_value.(scrk_order) with
              | Attached start =>
                  if bool_decide (record.(state) <> CandidateState) && bool_decide (record.(logical_start) = Some start)
                  then Ok () else corrupt "record key/order differs from value"
              | Candidate sequence =>
                  if bool_decide (record.(state) = CandidateState) && (record.(StreamChunk.sequence) =? sequence)
                  then Ok () else corrupt "record key/order differs from value"
              end in
    let? index := codec (validate record) in
    Ok (mkSnapshot record index key revision).

Definition record_key (r : StreamChunkRecord) : result StreamChunkRecordKey StreamError :=
  if bool_decide (r.(state) = CandidateState) then Ok (mkStreamChunkRecordKey r.(stream_id) (Candidate r.(sequence)))
  else match r.(logical_start) with
       | Some start => Ok (mkStreamChunkRecordKey r.(stream_id) (Attached start))
       | None => corrupt "attached start is absent"
       end.

Definition load_tail (id : StreamName) : task (option StreamChunkRecordSnapshot) :=
  records <-? kv_scan (attached_prefix id) [] 1 true;;
  if (1 <? len records.(items)) || negb (len records.(items) =? len records.(commit_slots))
  then lift (corrupt "tail scan shape")
  else match zip records.(items) records.(commit_slots) with
  | ((key, data), revision) :: _ => lift (let? s := decode key data revision id in Ok (Some s))
  | [] => Ret (Ok None)
  end.

Definition load_key (key : StreamChunkRecordKey) : task (option StreamChunkRecordSnapshot) :=
  let bytes := to_bytes key in
  found <-? kv_get bytes;;
  match found with
  | None => Ret (Ok None)
  | Some r => lift (let? s := decode bytes r.(value) r.(revision) key.(scrk_stream_id) in Ok (Some s))
  end.

Definition locate_for_read (id : StreamName) (offset : Z) : task (StreamChunkRecordSnapshot * bool) :=
  Find id offset (fun cached =>
  match cached with
  | Some s => Ret (Ok (s, true))
  | None =>
      let before := to_bytes (mkStreamChunkRecordKey id (Attached offset)) ++ [0] in
      records <-? kv_scan (attached_prefix id) before 1 true;;
      match zip records.(items) records.(commit_slots) with
      | [] => Ret (Err (ReadUnavailable "Stream chunk record is absent"))
      | ((key, data), revision) :: _ =>
          s <-? lift (decode key data revision id);;
          if negb (opt_gt s.(ss_record).(logical_end) offset) || bool_decide (s.(ss_record).(state) = DeletingState)
          then lift (corrupt "logical offset is not covered by the chunk record")
          else Insert s (Ret (Ok (s, false)))
      end
  end).

(** ** Publication *)

Definition put (r : StreamChunkRecord) : result BatchOp StreamError :=
  let? key := record_key r in
  let? data := codec (encode_stream_chunk_record upd r) in
  Ok (Put (to_bytes key) data).

(** [Option<u64>] is ordered with [None] first. *)
Definition opt_lt (a b : option Z) : bool :=
  match a, b with None, Some _ => true | Some x, Some y => x <? y | _, None => false end.

(** [next_lengths.starts_with(&base_lengths)] *)
Definition validate_prefix (base next : StreamChunkRecord) : result unit StreamError :=
  let? base_lengths := codec (lengths base.(mappings)) in
  let? next_lengths := codec (lengths next.(mappings)) in
  if negb (bool_decide (base_lengths `prefix_of` next_lengths))
  then corrupt "checkpoint changes acknowledged append boundaries" else Ok ().

Definition validate_transition (expected : option StreamChunkRecordSnapshot) (tail : StreamChunkRecord)
    (previous : option StreamChunkRecord) : result unit StreamError :=
  let? _ := codec (validate tail) in
  if bool_decide (tail.(state) = CandidateState) || bool_decide (tail.(state) = DeletingState)
  then corrupt "invalid tail state"
  else match expected with
  | None =>
      if (tail.(generation) =? 1) && (tail.(sequence) =? 0) && bool_decide (tail.(logical_start) = Some 0)
         && bool_decide (tail.(logical_end) = Some 0)
      then Ok () else corrupt "initial tail bounds"
  | Some expected =>
      let base := expected.(ss_record) in
      if negb (bool_decide (base.(stream_id) = tail.(stream_id))) || negb (bool_decide (base.(purpose) = tail.(purpose)))
         || (tail.(writer_epoch) <? base.(writer_epoch))
         || negb (bool_decide (checked_add base.(generation) 1 = Some tail.(generation)))
         || (tail.(trim_offset) <? base.(trim_offset)) || opt_lt tail.(logical_end) base.(logical_end)
         || (base.(closed) && negb tail.(closed))
      then corrupt "tail transition regresses or changes scope"
      else if bool_decide (base.(chunk_id) = tail.(chunk_id)) then
        if bool_decide (is_Some previous) || negb (tail.(sequence) =? base.(sequence))
           || negb (bool_decide (tail.(logical_start) = base.(logical_start)))
        then corrupt "same-chunk transition changes attachment"
        else validate_prefix base tail
      else
        let? previous := match previous with Some p => Ok p | None => corrupt "missing finalized predecessor" end in
        let? _ := codec (validate previous) in
        if negb (bool_decide (previous.(chunk_id) = base.(chunk_id)))
           || negb (bool_decide (previous.(logical_start) = base.(logical_start)))
           || negb (bool_decide (previous.(stream_id) = base.(stream_id)))
           || negb (bool_decide (previous.(purpose) = base.(purpose)))
           || negb (previous.(sequence) =? base.(sequence))
           || negb (previous.(writer_epoch) =? tail.(writer_epoch))
           || negb (bool_decide (previous.(owner_session) = tail.(owner_session)))
           || negb (previous.(generation) =? tail.(generation))
           || negb (bool_decide (previous.(state) = SealedState))
           || negb (bool_decide (previous.(logical_end) = tail.(logical_start)))
           || opt_lt previous.(logical_end) base.(logical_end)
           || negb (bool_decide (checked_add base.(sequence) 1 = Some tail.(sequence)))
           || base.(closed) || negb (bool_decide (tail.(state) = ActiveState))
        then corrupt "predecessor/successor continuity"
        else validate_prefix base previous
  end.

(** After a refused or a lost batch: the publication took effect, may be tried
    again at the revision found, or lost its tail. *)
Definition publish_recheck (expected : option StreamChunkRecordSnapshot) (tail : StreamChunkRecord)
    (candidate : option StreamChunkRecordSnapshot) (again : Z -> task StreamChunkRecordSnapshot) : task StreamChunkRecordSnapshot :=
  let lost (c : StreamChunkRecordSnapshot) :=
    if tail.(writer_epoch) <=? c.(ss_record).(writer_epoch) then Ret (Err StaleWriter) else Ret (Err WriteStalled) in
  current <-? load_tail tail.(stream_id);;
  match current with
  | Some c =>
      if bool_decide (c.(ss_record) = tail) then Ret (Ok c)
      else match expected with
      | Some e =>
          if bool_decide (c.(ss_record) = e.(ss_record)) then
            match candidate with
            | Some candidate =>
                key <-? lift (record_key candidate.(ss_record));;
                registered <-? load_key key;;
                if match registered with
                   | Some r => negb (bool_decide (r.(ss_record) = candidate.(ss_record)))
                   | None => true
                   end
                then Ret (Err StaleWriter) else again c.(ss_revision)
            | None => again c.(ss_revision)
            end
          else lost c
      | None => lost c
      end
  | None => Ret (Err WriteStalled)
  end.

(** The loop over the attempts. *)
Fixpoint publish_loop (attempts : nat) (expected : option StreamChunkRecordSnapshot) (tail : StreamChunkRecord)
    (candidate : option StreamChunkRecordSnapshot) (ops : list BatchOp) (key value guard : bytes) (revision : Z)
    : task StreamChunkRecordSnapshot :=
  match attempts with
  | O => Ret (Err Backpressure)
  | S attempts =>
      r <- kv_batch ops guard revision;;
      match r with
      | Ok outcome => lift (decode key value outcome tail.(stream_id))
      | Err CasBusy => publish_loop attempts expected tail candidate ops key value guard revision
      | Err (CasFailed _) | Err OutcomeUnknown =>
          publish_recheck expected tail candidate (publish_loop attempts expected tail candidate ops key value guard)
      | Err error => Ret (Err (storage_error error))
      end
  end.

(** The operations of a publication, and the checks made while they are collected. *)
Definition publish_ops (tail : StreamChunkRecord) (previous : option StreamChunkRecord)
    (candidate : option StreamChunkRecordSnapshot) : result (bytes * bytes * list BatchOp) StreamError :=
  let? key := record_key tail in
  let key := to_bytes key in
  let? data := codec (encode_stream_chunk_record upd tail) in
  let? ops := match previous with
              | Some previous =>
                  let? old_key := record_key previous in
                  if negb (bool_decide (to_bytes old_key = key)) then let? op := put previous in Ok [op]
                  else if negb (bool_decide (previous.(logical_start) = previous.(logical_end)))
                  then corrupt "nonempty predecessor key reused" else Ok []
              | None => Ok []
              end in
  let? ops := match candidate with
              | Some candidate =>
                  let c := candidate.(ss_record) in
                  if negb (bool_decide (c.(state) = CandidateState)) || negb (bool_decide (c.(chunk_id) = tail.(chunk_id)))
                     || negb (c.(sequence) =? tail.(sequence)) || negb (bool_decide (c.(stream_id) = tail.(stream_id)))
                     || negb (c.(writer_epoch) =? tail.(writer_epoch))
                     || negb (bool_decide (c.(owner_session) = tail.(owner_session)))
                  then corrupt "candidate identity differs from attachment"
                  else Ok (ops ++ [Delete candidate.(ss_key)])
              | None => Ok ops
              end in
  Ok (key, data, ops ++ [Put key data]).

Definition publish (expected : option StreamChunkRecordSnapshot) (tail : StreamChunkRecord)
    (previous : option StreamChunkRecord) (candidate : option StreamChunkRecordSnapshot) : task StreamChunkRecordSnapshot :=
  _ <-? lift (validate_transition expected tail previous);;
  guarded <-? lift (match expected, candidate with
                    | Some e, _ => Ok e
                    | None, Some c => Ok c
                    | None, None => corrupt "missing attachment guard"
                    end);;
  let attach :=
    ops <-? lift (publish_ops tail previous candidate);;
    let '(key, data, ops) := ops in
    publish_loop 8 expected tail candidate ops key data guarded.(ss_key) guarded.(ss_revision) in
  match expected with
  | Some _ => attach
  | None =>
      current <-? load_tail tail.(stream_id);;
      match current with
      | Some c => Ret (if bool_decide (c.(ss_record) = tail) then Ok c else Err StaleWriter)
      | None => attach
      end
  end.

Fixpoint fenced_loop (attempts : nat) (ops : list BatchOp) (guard : bytes) (revision : Z) : task unit :=
  match attempts with
  | O => Ret (Err Backpressure)
  | S attempts =>
      r <- kv_batch ops guard revision;;
      match r with
      | Ok _ => Ret (Ok ())
      | Err CasBusy => fenced_loop attempts ops guard revision
      | Err error => Ret (Err (storage_error error))
      end
  end.

Definition fenced_batch (expected : StreamChunkRecordSnapshot) (ops : list BatchOp) : task unit :=
  op <-? lift (put expected.(ss_record));;
  fenced_loop 8 (ops ++ [op]) expected.(ss_key) expected.(ss_revision).

(** ** Candidates *)

Definition reserve_initial (candidate : StreamChunkRecord) (previous : option StreamChunkRecordSnapshot)
    : task StreamChunkRecordSnapshot :=
  _ <-? lift (codec (validate candidate));;
  if negb (bool_decide (candidate.(state) = CandidateState)) || negb (candidate.(sequence) =? 0)
  then lift (corrupt "initial reservation state or sequence")
  else
    tail <-? load_tail candidate.(stream_id);;
    if bool_decide (is_Some tail) then Ret (Err StaleWriter)
    else
      key <-? lift (record_key candidate);;
      _ <-? lift (match previous with
                  | Some previous =>
                      if negb (bool_decide (previous.(ss_key) = to_bytes key))
                      then corrupt "initial reservation guard belongs to another stream"
                      else if candidate.(writer_epoch) <? previous.(ss_record).(writer_epoch) then Err StaleWriter else Ok ()
                  | None => Ok ()
                  end);;
      let revision := match previous with Some previous => previous.(ss_revision) | None => 0 end in
      op <-? lift (put candidate);;
      r <- kv_batch [op] (to_bytes key) revision;;
      match r with
      | Ok _ | Err (CasFailed _) | Err OutcomeUnknown =>
          registered <-? load_key key;;
          match registered with
          | None => Ret (Err StaleWriter)
          | Some registered =>
              Ret (if bool_decide (registered.(ss_record) = candidate) then Ok registered else Err StaleWriter)
          end
      | Err error => Ret (Err (storage_error error))
      end.

Definition register_candidate (candidate : StreamChunkRecord) : task StreamChunkRecordSnapshot :=
  if negb (bool_decide (candidate.(state) = CandidateState)) then lift (corrupt "reservation state")
  else
    _ <-? lift (codec (validate candidate));;
    tail <-? load_tail candidate.(stream_id);;
    match tail with
    | None => Ret (Err WriteStalled)
    | Some tail =>
        let t := tail.(ss_record) in
        if negb (t.(writer_epoch) =? candidate.(writer_epoch)) || negb (bool_decide (t.(owner_session) = candidate.(owner_session)))
           || t.(closed) || negb (bool_decide (checked_add t.(sequence) 1 = Some candidate.(sequence)))
        then Ret (Err StaleWriter)
        else
          let key := mkStreamChunkRecordKey candidate.(stream_id) (Candidate candidate.(sequence)) in
          current <-? load_key key;;
          match current with
          | Some current => Ret (if bool_decide (current.(ss_record) = candidate) then Ok current else Err Backpressure)
          | None =>
              op <-? lift (put candidate);;
              _ <-? fenced_batch tail [op];;
              registered <-? load_key key;;
              Ret (match registered with Some s => Ok s | None => Err WriteStalled end)
          end
    end.

Fixpoint decode_all (l : list (bytes * bytes * Z)) (id : StreamName) : result (list StreamChunkRecordSnapshot) StreamError :=
  match l with
  | [] => Ok []
  | ((key, data), revision) :: l =>
      let? s := decode key data revision id in
      let? rest := decode_all l id in
      Ok (s :: rest)
  end.

Definition candidates (id : StreamName) : task (list StreamChunkRecordSnapshot) :=
  records <-? kv_scan (candidate_prefix id) [] 8 false;;
  if records.(truncated) || negb (len records.(items) =? len records.(commit_slots))
  then lift (corrupt "candidate count exceeds bound")
  else lift (decode_all (zip records.(items) records.(commit_slots)) id).

Fixpoint remove_loop (attempts : nat) (id : StreamName) (key : StreamChunkRecordKey) (chunk : ChunkId) : task unit :=
  match attempts with
  | O => Ret (Err Backpressure)
  | S attempts =>
      tail <-? load_tail id;;
      match tail with
      | None => Ret (Err WriteStalled)
      | Some tail =>
          current <-? load_key key;;
          match current with
          | None => Ret (Ok ())
          | Some current =>
              if negb (bool_decide (current.(ss_record).(chunk_id) = chunk)) then Ret (Err StaleWriter)
              else
                r <- fenced_batch tail [Delete (to_bytes key)];;
                match r with
                | Ok _ => Ret (Ok ())
                | Err Backpressure | Err WriteStalled => remove_loop attempts id key chunk
                | Err error => Ret (Err error)
                end
          end
      end
  end.

Definition remove_candidate (id : StreamName) (sequence : Z) (chunk : ChunkId) : task unit :=
  remove_loop 16 id (mkStreamChunkRecordKey id (Candidate sequence)) chunk.

(** ** Read pins *)

Definition pin_put (pin : PinRecord) : result BatchOp StreamError :=
  match to_vec pin with Some v => Ok (Put (pin_key pin) v) | None => corrupt "read pin encoding" end.

Fixpoint decode_pins (l : list (bytes * bytes)) (stream : StreamName) : result (list PinRecord) StreamError :=
  match l with
  | [] => Ok []
  | (key, v) :: l =>
      if 1024 <? len v then corrupt "read pin length"
      else
        let? pin := match from_slice v with Some pin => Ok pin | None => corrupt "read pin encoding" end in
        if negb (bool_decide (pin.(pin_stream) = stream)) || (pin.(pin_end) <? pin.(pin_begin))
           || negb (bool_decide (key = pin_key pin))
        then corrupt "read pin identity"
        else
          let? rest := decode_pins l stream in
          Ok (pin :: rest)
  end.

Definition read_pins (stream : StreamName) : task (list PinRecord) :=
  records <-? kv_scan (pin_prefix stream) [] 512 false;;
  if records.(truncated) then lift (corrupt "read pin budget") else lift (decode_pins records.(items) stream).

(** [pins.iter().filter(|pin| pin.expires.saturating_add(PIN_GRACE_MS) <= now_ms()).take(n)] *)
Fixpoint expired_pins (n : nat) (pins : list PinRecord) : prog (list PinRecord) :=
  match n, pins with
  | S m, pin :: pins =>
      now <- now_ms;;
      if sat_add64 pin.(pin_expires) PIN_GRACE_MS <=? now
      then rest <- expired_pins m pins;; Ret (pin :: rest)
      else expired_pins n pins
  | _, _ => Ret []
  end.

Definition prune_pins (tail : StreamChunkRecordSnapshot) (pins : list PinRecord) : task bool :=
  expired <- expired_pins 32 pins;;
  match expired with
  | [] => Ret (Ok false)
  | _ => _ <-? fenced_batch tail ((fun pin => Delete (pin_key pin)) <$> expired);; Ret (Ok true)
  end.

Fixpoint register_loop (attempts : nat) (record : PinRecord) : task unit :=
  match attempts with
  | O => Ret (Err Backpressure)
  | S attempts =>
      current <-? load_tail record.(pin_stream);;
      match current with
      | None => Ret (Err WriteStalled)
      | Some current =>
          if (record.(pin_begin) <? current.(ss_record).(trim_offset))
             || opt_lt current.(ss_record).(logical_end) (Some record.(pin_end))
          then Ret (Err (ReadUnavailable "captured Stream interval was retired"))
          else
            pins <-? read_pins record.(pin_stream);;
            expired <- expired_pins 32 pins;;
            if 512 <=? len pins - len expired then Ret (Err Backpressure)
            else
              op <-? lift (pin_put record);;
              r <- fenced_batch current (((fun pin => Delete (pin_key pin)) <$> expired) ++ [op]);;
              match r with
              | Ok _ => Ret (Ok ())
              | Err Backpressure => register_loop attempts record
              | Err WriteStalled =>
                  found <-? kv_get (pin_key record);;
                  match found with
                  | Some f =>
                      match from_slice f.(value) with
                      | None => lift (corrupt "read pin encoding")
                      | Some observed =>
                          if bool_decide (observed = record) then Ret (Ok ()) else register_loop attempts record
                      end
                  | None => register_loop attempts record
                  end
              | Err error => Ret (Err error)
              end
      end
  end.

Definition register_pin (record : PinRecord) : task unit := register_loop 16 record.

Definition matches_pin (pin : PinRecord) : task bool :=
  found <-? kv_get (pin_key pin);;
  match found with
  | None => Ret (Ok false)
  | Some f =>
      if 1024 <? len f.(value) then lift (corrupt "read pin length")
      else match from_slice f.(value) with
      | None => lift (corrupt "read pin encoding")
      | Some observed => Ret (Ok (bool_decide (observed = pin)))
      end
  end.

Fixpoint release_loop (attempts : nat) (pin : PinRecord) : prog unit :=
  match attempts with
  | O => Ret ()
  | S attempts =>
      tail <- load_tail pin.(pin_stream);;
      match tail with
      | Ok (Some tail) =>
          r <- fenced_batch tail [Delete (pin_key pin)];;
          match r with Err Backpressure => release_loop attempts pin | _ => Ret () end
      | _ => Ret ()
      end
  end.

Definition release_pin (pin : PinRecord) : prog unit := release_loop 8 pin.

Definition renew (pin : PinRecord) (expires : Z) : PinRecord :=
  mkPin pin.(pin_id) pin.(pin_stream) pin.(pin_begin) pin.(pin_end) pin.(pin_active) expires.

(** The deadline of a pin that is lost is now. *)
Definition lost_pin (h : nat) : prog unit := now <- instant;; StoreDeadline h now (Ret ()).

(** The renewal of a pin that was found under the tail captured before. *)
Definition renew_pin (tail : StreamChunkRecordSnapshot) (h : nat) (started : Z) (pin : PinRecord)
    (again : PinRecord -> prog unit) : prog unit :=
  now <- now_ms;;
  if pin.(pin_expires) <=? now then lost_pin h
  else
    now <- now_ms;;
    let next := renew pin (sat_add64 now LEASE_MS) in
    match pin_put next with
    | Err _ => lost_pin h
    | Ok op =>
        r <- fenced_batch tail [op];;
        committed <- match r with
                     | Ok _ => Ret true
                     | Err WriteStalled => m <- matches_pin next;; Ret (match m with Ok b => b | Err _ => false end)
                     | Err _ => Ret false
                     end;;
        if committed : bool then
          now <- instant;;
          LoadDeadline h (fun deadline =>
          if deadline <=? now then lost_pin h else StoreDeadline h (started + (LEASE_MS - 1000)) (again next))
        else again pin
    end.

(** The task of a pin; a signal says whether the pin was dropped when the task
    next woke. *)
Fixpoint maintain (stops : list bool) (h : nat) (pin : PinRecord) : prog unit :=
  match stops with
  | [] => Ret ()
  | true :: _ => DropPin h (release_pin pin)
  | false :: stops =>
      started <- instant;;
      LoadDeadline h (fun deadline =>
      if deadline <=? started then lost_pin h
      else
        tail <- load_tail pin.(pin_stream);;
        match tail with
        | Ok (Some tail) =>
            matched <- matches_pin pin;;
            match matched with
            | Err _ => maintain stops h pin
            | Ok false => lost_pin h
            | Ok true => renew_pin tail h started pin (maintain stops h)
            end
        | _ => maintain stops h pin
        end)
  end.

(** [StreamReadPin::check] *)
Definition check_pin (h : nat) : task unit :=
  now <- instant;;
  LoadDeadline h (fun deadline =>
  Ret (if deadline <=? now then Err (ReadUnavailable "Stream read lease expired") else Ok ())).

(** [pin_read]; [id] is the nonce drawn for the pin. *)
Definition pin_read (id : bytes) (captured : StreamChunkRecordSnapshot) : task nat :=
  started <- instant;;
  stop <-? lift (match captured.(ss_record).(logical_end) with Some e => Ok e | None => corrupt "pin tail missing" end);;
  now <- now_ms;;
  let record := mkPin id captured.(ss_record).(stream_id) captured.(ss_record).(trim_offset) stop
                  (Some captured.(ss_record).(chunk_id)) (sat_add64 now LEASE_MS) in
  _ <-? register_pin record;;
  NewPin record (started + (LEASE_MS - 1000)) (fun h => _ <-? check_pin h;; Ret (Ok h)).

(** ** Collection *)

Record StreamCollectionResult := mkCollection { c_records : Z; c_physical_bytes : Z; c_next : option Z }.

(** Whether a pin that is not expired protects the record. *)
Fixpoint pinned (pins : list PinRecord) (chunk : ChunkId) (start stop : Z) : prog bool :=
  match pins with
  | [] => Ret false
  | pin :: pins =>
      now <- now_ms;;
      if (now <? sat_add64 pin.(pin_expires) PIN_GRACE_MS) &&
         (bool_decide (pin.(pin_active) = Some chunk) || ((pin.(pin_begin) <? stop) && (start <? pin.(pin_end))))
      then Ret true else pinned pins chunk start stop
  end.

Definition set_state (r : StreamChunkRecord) (s : StreamChunkState) : StreamChunkRecord :=
  mkRecord r.(stream_id) r.(purpose) r.(chunk_id) s r.(logical_start) r.(logical_end) r.(sequence) r.(writer_epoch)
    r.(generation) r.(owner_session) r.(trim_offset) r.(closed) r.(mappings).

Fixpoint collect_loop (keys : list bytes) (stream : StreamName) (retained_generation byte_budget : Z)
    (tail : StreamChunkRecordSnapshot) (pins : list PinRecord) (more : bool) (result : StreamCollectionResult)
    (decoded_bytes : Z) : task StreamCollectionResult :=
  match keys with
  | [] => Ret (Ok (if more then result else mkCollection result.(c_records) result.(c_physical_bytes) None))
  | key :: keys =>
      if byte_budget <=? decoded_bytes then Ret (Ok result)
      else
        found <-? kv_get key;;
        match found with
        | None => Ret (Err Backpressure)
        | Some f =>
            let decoded_bytes := sat_add64 decoded_bytes (len f.(value)) in
            snapshot <-? lift (decode key f.(value) f.(revision) stream);;
            let record := snapshot.(ss_record) in
            start <-? lift (match record.(logical_start) with Some s => Ok s | None => corrupt "collection start missing" end);;
            stop <-? lift (match record.(logical_end) with Some e => Ok e | None => corrupt "collection end missing" end);;
            let result := mkCollection result.(c_records) result.(c_physical_bytes) (Some start) in
            let continue :=
              collect_loop keys stream retained_generation byte_budget tail pins more result decoded_bytes in
            if bool_decide (record.(chunk_id) = tail.(ss_record).(chunk_id))
               || (tail.(ss_record).(trim_offset) <? stop) || (retained_generation <=? record.(generation))
               || negb (bool_decide (record.(state) = SealedState) || bool_decide (record.(state) = DeletingState))
            then continue
            else
              held <- pinned pins record.(chunk_id) start stop;;
              if held : bool then continue
              else
                _ <-? (if bool_decide (record.(state) = DeletingState) then Ret (Ok ())
                       else op <-? lift (put (set_state record DeletingState));; fenced_batch tail [op]);;
                reclaimed <-? ReleaseTrimmed record.(chunk_id) stop snapshot.(ss_index).(ix_physical_end) Ret;;
                current <-? load_tail stream;;
                match current with
                | None => Ret (Err WriteStalled)
                | Some current =>
                    _ <-? fenced_batch current [Delete key];;
                    Ret (Ok (mkCollection (result.(c_records) + 1) (sat_add64 result.(c_physical_bytes) reclaimed) result.(c_next)))
                end
        end
  end.

Definition collect (stream : StreamName) (retained_generation : Z) (after : option Z) (max_records byte_budget : Z)
    : task StreamCollectionResult :=
  if (max_records =? 0) || (128 <? max_records) || (byte_budget =? 0)
  then Ret (Err (InvalidRequest "Stream collection budget"))
  else
    tail <-? load_tail stream;;
    match tail with
    | None => Ret (Err WriteStalled)
    | Some tail =>
        pins <-? read_pins stream;;
        pruned <-? prune_pins tail pins;;
        if pruned : bool then Ret (Ok (mkCollection 0 0 after))
        else
          let after := match after with
                       | Some start => to_bytes (mkStreamChunkRecordKey stream (Attached start))
                       | None => []
                       end in
          records <-? kv_scan_keys (attached_prefix stream) after max_records;;
          collect_loop records.(items).*1 stream retained_generation byte_budget tail pins records.(truncated)
            (mkCollection 0 0 None) 0
    end.

End store.

End StreamStore.
