(* ===== verification/StreamView.v ===== *)
(** * The record store as a typed map

    The backend maps byte keys to byte values.  This file gives its meaning as
    a map from record keys to records and a map from pins to pins, and shows
    that the reads, scans and conditional batches of [StreamStore] act on that
    meaning: a key is read back as the record it was written from, a reverse
    scan finds the last attached record, and a batch of encoded operations is
    the same change of the typed maps. *)

From stdpp Require Import prelude sorting gmap list list_numbers strings countable.
From Stdlib Require Import ZArith Lia.
From S2P Require Import Prelude Roles Bytes WalRecord KeyEncoding ChunkSlots BinaryKeys Frame FrameGeometry StreamMappings StreamChunk StreamStore.

Module StreamView.
Import KeyEncoding ChunkSlots BinaryKeys Frame FrameGeometry StreamMappings StreamChunk StreamStore.

#[export] Instance StreamName_countable : Countable StreamName.
Proof.
  refine (inj_countable' (fun s => (stream_high s, stream_low s)) (fun p => mkStreamName p.1 p.2) _). by intros [].
Defined.

#[export] Instance Order_eq_dec : EqDecision StreamChunkRecordOrder.
Proof. solve_decision. Defined.

#[export] Instance Order_countable : Countable StreamChunkRecordOrder.
Proof.
  refine (inj_countable' (fun o => match o with Attached z => inl z | Candidate z => inr z end)
    (fun s => match s with inl z => Attached z | inr z => Candidate z end) _). by intros [].
Defined.

#[export] Instance RecordKey_eq_dec : EqDecision StreamChunkRecordKey.
Proof. solve_decision. Defined.

#[export] Instance RecordKey_countable : Countable StreamChunkRecordKey.
Proof.
  refine (inj_countable' (fun k => (scrk_stream_id k, scrk_order k)) (fun p => mkStreamChunkRecordKey p.1 p.2) _). by intros [].
Defined.

Abbreviation akey st a := (mkStreamChunkRecordKey st (Attached a)).
Abbreviation ckey st a := (mkStreamChunkRecordKey st (Candidate a)).

(** ** Keys *)

Definition name_ok (s : StreamName) : Prop := is_u64 (stream_high s) /\ is_u64 (stream_low s).
Definition skey_ok (k : StreamChunkRecordKey) : Prop :=
  name_ok (scrk_stream_id k) /\ is_u64 (match scrk_order k with Attached z => z | Candidate z => z end).

#[local] Instance no_hash : Xxh64 := fun _ _ => 0.

Lemma u64_width z : is_u64 z <-> 0 <= z < width 8.
Proof. unfold is_u64, u64_max, width. change (8 * Z.of_nat 8) with 64. change (2 ^ 64) with 18446744073709551616. lia. Qed.

Lemma skey_any k : skey_ok k -> key_ok (KStreamChunkRecord k).
Proof.
  intros [[Hh Hl] Hv]. rewrite u64_width in *. split; [|done]. destruct k as [st [v|v]]; cbn in *;
    repeat constructor; unfold in_range, u64; cbn [fst snd]; try done; change (width 1) with 256; lia.
Qed.

Lemma skey_roundtrip k : skey_ok k -> from_bytes (to_bytes k) = Ok k.
Proof.
  intros Hk. pose proof (any_roundtrip _ (skey_any k Hk)) as H. unfold decode_as in H. cbn [kind_of any_to_bytes] in H.
  destruct (from_bytes (to_bytes k)) as [k'|]; [|done]. cbn [result_bind] in H. congruence.
Qed.

Lemma skey_inj k k' : skey_ok k -> skey_ok k' -> to_bytes k = to_bytes k' -> k = k'.
Proof. intros Hk Hk' E. apply skey_roundtrip in Hk, Hk'. rewrite E, Hk' in Hk. congruence. Qed.

Lemma name_scan st : name_ok st -> scan_ok (AttachedOfStream st) /\ scan_ok (CandidatesOfStream st).
Proof.
  intros [Hh Hl]. rewrite u64_width in *. unfold scan_ok. cbn [scan_fields]. unfold u64.
  split; repeat constructor; unfold in_range; cbn [fst snd]; try done; change (width 1) with 256; lia.
Qed.

Lemma skey_attached st k :
  name_ok st -> skey_ok k -> attached_prefix st `prefix_of` to_bytes k <-> exists a, k = akey st a.
Proof.
  intros Hs Hk. pose proof (scan_exact _ _ (proj1 (name_scan st Hs)) (skey_any k Hk)) as H. cbn [scan_prefix any_to_bytes scan_selects] in H.
  rewrite H. destruct k as [st' o]; cbn. split; [intros (-> & v & ->); by exists v|intros (a & [= -> ->]); eauto].
Qed.

Lemma skey_candidate st k :
  name_ok st -> skey_ok k -> candidate_prefix st `prefix_of` to_bytes k <-> exists a, k = ckey st a.
Proof.
  intros Hs Hk. pose proof (scan_exact _ _ (proj2 (name_scan st Hs)) (skey_any k Hk)) as H. cbn [scan_prefix any_to_bytes scan_selects] in H.
  rewrite H. destruct k as [st' o]; cbn. split; [intros (-> & v & ->); by exists v|intros (a & [= -> ->]); eauto].
Qed.

Lemma skey_lt st a b :
  skey_ok (akey st a) -> skey_ok (akey st b) -> lex_lt (to_bytes (akey st a)) (to_bytes (akey st b)) = (a <? b).
Proof.
  intros Ha Hb. pose proof (key_order _ _ (skey_any _ Ha) (skey_any _ Hb) eq_refl) as H. cbn [any_to_bytes] in H. rewrite H.
  cbn. rewrite !Z.ltb_irrefl, !Z.eqb_refl. cbn. by rewrite andb_false_r, orb_false_r.
Qed.

Lemma skey_shape (k : StreamChunkRecordKey) : exists rest, to_bytes k = 192 :: 0 :: 28 :: rest.
Proof. destruct k as [st []]; eexists; unfold to_bytes, encode_to, StreamChunkRecordKey_binary, encode_u64; cbn; reflexivity. Qed.

Lemma be_len n z : length (to_be_bytes n z) = n.
Proof. unfold to_be_bytes. by rewrite length_reverse, to_le_bytes_length. Qed.

Lemma skey_len (k : StreamChunkRecordKey) : length (to_bytes k) = 28%nat.
Proof.
  destruct k as [st []]; unfold to_bytes, encode_to, StreamChunkRecordKey_binary, encode_u64, stream_prefix, encode_u64, encode_header;
    cbn [scrk_order scrk_stream_id]; rewrite !length_app, !be_len; done.
Qed.

Lemma lex_lt_last (x y : bytes) : length x = length y -> lex_lt x (y ++ [0]) = lex_lt x y || bool_decide (x = y).
Proof.
  revert y. induction x as [|a x IH]; intros [|b y] Hl; try done. cbn [app lex_lt]. rewrite IH by (by injection Hl).
  destruct (Z.ltb_spec a b); [done|]. destruct (Z.eqb_spec a b) as [->|Hne]; cbn [orb andb].
  - f_equal. apply bool_decide_ext. split; [by intros ->|by intros [= ->]].
  - rewrite bool_decide_eq_false_2; [done|congruence].
Qed.

(** ** Pins *)

Definition pin_typed (p : PinRecord) : Prop :=
  name_ok p.(pin_stream) /\ length p.(pin_id) = 16%nat /\ is_u64 p.(pin_begin) /\ is_u64 p.(pin_end) /\ is_u64 p.(pin_expires).

Lemma pin_prefix_shape st : pin_prefix st = 192 :: 0 :: 30 :: to_be_bytes 8 (stream_high st) ++ to_be_bytes 8 (stream_low st).
Proof. reflexivity. Qed.

Lemma pin_prefix_len st : length (pin_prefix st) = 19%nat.
Proof. rewrite pin_prefix_shape. cbn [length]. rewrite length_app, !be_len. done. Qed.

Lemma pin_prefix_inj st st' : name_ok st -> name_ok st' -> pin_prefix st = pin_prefix st' -> st = st'.
Proof.
  intros [Hh Hl] [Hh' Hl']. rewrite u64_width in *. unfold pin_prefix. intros E%app_inv_head.
  apply app_inj_1 in E as [E1%be_inj E2%be_inj]; [|done..|by rewrite !be_len]. destruct st, st'; cbn in *. congruence.
Qed.

Lemma pin_key_inj p q : pin_typed p -> pin_typed q -> pin_key p = pin_key q -> pin_stream p = pin_stream q /\ pin_id p = pin_id q.
Proof.
  intros (Hp & _) (Hq & _). unfold pin_key. intros E. apply app_inj_1 in E as [E1%pin_prefix_inj E2]; [done..|by rewrite !pin_prefix_len].
Qed.

Lemma pin_prefix_of st p : name_ok st -> pin_typed p -> pin_prefix st `prefix_of` pin_key p <-> pin_stream p = st.
Proof.
  intros Hs (Hp & _). split; [|intros <-; by apply prefix_app_r].
  intros [k E]. unfold pin_key in E. apply app_inj_1 in E as [E _]; [by apply pin_prefix_inj|by rewrite !pin_prefix_len].
Qed.

Lemma skey_not_pin (k : StreamChunkRecordKey) p : to_bytes k <> pin_key p.
Proof. destruct (skey_shape k) as [rest ->]. unfold pin_key. rewrite pin_prefix_shape. by intros [=]. Qed.

Lemma pin_not_scan st p : ~ attached_prefix st `prefix_of` pin_key p /\ ~ candidate_prefix st `prefix_of` pin_key p.
Proof.
  unfold pin_key. rewrite pin_prefix_shape. unfold attached_prefix, candidate_prefix, stream_prefix, encode_u64, encode_header.
  split; intros [k E]; apply (f_equal (fun l => nth 2 l 0)) in E; by vm_compute in E.
Qed.

Lemma skey_not_pins st (k : StreamChunkRecordKey) : ~ pin_prefix st `prefix_of` to_bytes k.
Proof. destruct (skey_shape k) as [rest ->]. rewrite pin_prefix_shape. intros [x E]. apply (f_equal (fun l => nth 2 l 0)) in E. by vm_compute in E. Qed.

(** ** The order of keys *)

Lemma lex_lt_irrefl a : lex_lt a a = false.
Proof. induction a as [|x a IH]; cbn [lex_lt]; [done|]. rewrite Z.ltb_irrefl, Z.eqb_refl, IH. done. Qed.

Lemma lex_le_trans a b c : lex_lt b a = false -> lex_lt c b = false -> lex_lt c a = false.
Proof.
  revert b c. induction a as [|x a IH]; intros [|y b] [|z c]; cbn [lex_lt]; try done.
  rewrite !orb_false_iff, !andb_false_iff. intros [H1 H2] [H3 H4]. split; [lia|].
  destruct (Z.eqb_spec z x); [right|by left]. destruct H2 as [?|H2]; [lia|]. destruct H4 as [?|H4]; [lia|]. by eapply IH.
Qed.

Lemma lex_le_total a b : lex_lt b a = false \/ lex_lt a b = false.
Proof.
  revert b. induction a as [|x a IH]; intros [|y b]; cbn [lex_lt]; try auto. destruct (IH b) as [H|H]; rewrite ?H, ?andb_false_r, ?orb_false_r;
    destruct (Z.ltb_spec x y), (Z.ltb_spec y x); cbn [orb]; try lia; auto;
    destruct (Z.eqb_spec x y), (Z.eqb_spec y x); try lia; cbn [andb]; auto.
Qed.

#[export] Instance key_le_trans : Transitive key_le.
Proof. intros x y z. unfold key_le. apply lex_le_trans. Qed.

#[export] Instance key_le_total : Total key_le.
Proof. intros x y. unfold key_le. apply lex_le_total. Qed.

Lemma elem_of_iter s k e : (k, e) ∈ iter s <-> s.(metadata_records) !! k = Some e.
Proof. unfold iter. rewrite merge_sort_Permutation. apply elem_of_map_to_list. Qed.

Lemma StronglySorted_filter {A} (R : A -> A -> Prop) (P : A -> Prop) `{!forall x, Decision (P x)} l :
  StronglySorted R l -> StronglySorted R (filter P l).
Proof.
  induction 1 as [|x l Hs IH Hx]; [constructor|]. rewrite filter_cons. destruct (decide (P x)); [|done]. constructor; [done|].
  rewrite list.Forall_forall in Hx |- *. intros y [_ Hy]%list_elem_of_filter. by apply Hx.
Qed.

Lemma sorted_last l x l' : StronglySorted key_le l -> rev l = x :: l' -> forall y, y ∈ l -> key_le y x \/ y = x.
Proof.
  intros Hs E. assert (l = rev l' ++ [x]) as -> by (rewrite <- (rev_involutive l), E; done). clear E.
  intros y [Hy| ->%list_elem_of_singleton]%elem_of_app; [left|by right].
  induction (rev l') as [|z k IH]; [by apply elem_of_nil in Hy|]. cbn [app] in Hs. inversion_clear Hs as [|? ? Hs' Hz].
  apply elem_of_cons in Hy as [->|Hy]; [|by apply IH]. rewrite list.Forall_forall in Hz. apply Hz. set_solver.
Qed.

(** The selection of a scan. *)
Definition selects (prefix after : bytes) (reverse : bool) (key : bytes) : Prop :=
  prefix `prefix_of` key /\ (after = [] \/ (if reverse then lex_lt key after else lex_lt after key) = true).

Lemma select_spec (prefix after : bytes) (reverse : bool) (e : bytes * MemoryRecord) :
  bool_decide (prefix `prefix_of` e.1) && (bool_decide (after = []) || if reverse then lex_lt e.1 after else lex_lt after e.1) = true
  <-> selects prefix after reverse e.1.
Proof. rewrite andb_true_iff, orb_true_iff, !bool_decide_eq_true. done. Qed.

(** A reverse scan of one finds the last selected key. *)
Lemma scan_last s prefix after :
  (scan s prefix after 1 true = mkScan [] [] false /\ forall k e, s.(metadata_records) !! k = Some e -> ~ selects prefix after true k) \/
  exists k e t, scan s prefix after 1 true = mkScan [(k, e.(value))] [e.(revision)] t /\ s.(metadata_records) !! k = Some e /\
    selects prefix after true k /\ forall k' e', s.(metadata_records) !! k' = Some e' -> selects prefix after true k' -> lex_lt k k' = false.
Proof.
  unfold scan. set (found := filter _ (iter s)).
  assert (StronglySorted key_le found) as Hs by (apply StronglySorted_filter, StronglySorted_merge_sort; apply _).
  assert (forall k e, (k, e) ∈ found <-> s.(metadata_records) !! k = Some e /\ selects prefix after true k) as Hin.
  { intros k e. unfold found. rewrite list_elem_of_filter, elem_of_iter. cbv beta. rewrite (select_spec prefix after true (k, e)). cbn [fst]. tauto. }
  destruct (rev found) as [|[k e] l] eqn:Er.
  - left. split; [done|]. intros k e Hk Hsel. assert (found = []) as Hf by (by rewrite <- (rev_involutive found), Er).
    assert ((k, e) ∈ found) as H' by (by apply Hin). rewrite Hf in H'. by apply elem_of_nil in H'.
  - right. exists k, e. assert ((k, e) ∈ found) as Hk by (rewrite <- (rev_involutive found), Er; cbn; set_solver).
    apply Hin in Hk as [Hk Hsel]. change (Z.to_nat 1) with 1%nat. cbn [take fmap list_fmap fst snd]. eexists. split; [done|]. split; [done|].
    split; [done|]. intros k' e' Hk' Hsel'. destruct (sorted_last _ _ _ Hs Er (k', e')) as [Hle|[= -> ->]]; [by apply Hin|done|apply lex_lt_irrefl].
Qed.

(** A forward scan that is not truncated finds every selected key. *)
Lemma scan_complete s prefix after limit k v :
  0 <= limit -> (scan s prefix after limit false).(truncated) = false ->
  (k, v) ∈ (scan s prefix after limit false).(items) <->
    exists e, s.(metadata_records) !! k = Some e /\ v = e.(value) /\ selects prefix after false k.
Proof.
  intros Hl. unfold scan. cbn [truncated items]. intros Ht%bool_decide_eq_false. rewrite take_ge by (unfold len in Ht; lia).
  rewrite list_elem_of_fmap. split.
  - intros ([k' e] & [= -> ->] & Hin). apply list_elem_of_filter in Hin as [Hs Hin]. apply (select_spec prefix after false) in Hs. apply elem_of_iter in Hin. eauto.
  - intros (e & Hk & -> & Hs). exists (k, e). split; [done|]. apply list_elem_of_filter. rewrite elem_of_iter. cbv beta. by rewrite (select_spec prefix after false (k, e)).
Qed.

(** A forward scan finds only selected keys. *)
Lemma scan_sound s prefix after limit k v :
  (k, v) ∈ (scan s prefix after limit false).(items) ->
    exists e, s.(metadata_records) !! k = Some e /\ v = e.(value) /\ selects prefix after false k.
Proof.
  unfold scan. cbn [items]. set (found := filter _ (iter s)). intros ([k' e] & [= -> ->] & Hin)%list_elem_of_fmap.
  assert ((k', e) ∈ found) as H' by (rewrite <- (take_drop (Z.to_nat limit) found), elem_of_app; by left). clear Hin.
  unfold found in H'. apply list_elem_of_filter in H' as [Hs Hin%elem_of_iter]. apply (select_spec prefix after false) in Hs. eauto.
Qed.

(** ** The typed store *)

Record tstore := mkT {
  recs : gmap StreamChunkRecordKey (StreamChunkRecord * Z);
  pins : gmap (StreamName * bytes) (PinRecord * Z);
  trev : Z;
}.

(** A pin is read back as written, and is short. *)
Class PinJsonLaws `{PinJson} : Prop := {
  from_to_vec : forall p v, pin_typed p -> to_vec p = Some v -> from_slice v = Some p;
  to_vec_len : forall p v, pin_typed p -> to_vec p = Some v -> len v <= 1024;
}.

Definition rec_ok (k : StreamChunkRecordKey) (r : StreamChunkRecord) : Prop :=
  typed r /\ record_key r = Ok k /\ exists ix, validate r = Ok ix.

Definition pin_ok (p : PinRecord) : Prop := pin_typed p /\ p.(pin_begin) <= p.(pin_end).

Abbreviation pkey p := (pin_stream p, pin_id p).

(** Changes of the typed store. *)
Inductive top := TPut (k : StreamChunkRecordKey) (r : StreamChunkRecord) | TDel (k : StreamChunkRecordKey)
| TPin (p : PinRecord) | TUnpin (p : PinRecord).

Definition tapply (next : Z) (V : tstore) (t : top) : tstore :=
  match t with
  | TPut k r => mkT (<[k := (r, next)]> V.(recs)) V.(pins) V.(trev)
  | TDel k => mkT (delete k V.(recs)) V.(pins) V.(trev)
  | TPin p => mkT V.(recs) (<[pkey p := (p, next)]> V.(pins)) V.(trev)
  | TUnpin p => mkT V.(recs) (delete (pkey p) V.(pins)) V.(trev)
  end.

Definition tapply_all (V : tstore) (next : Z) (ts : list top) : tstore :=
  let V' := foldl (tapply next) V ts in mkT V'.(recs) V'.(pins) next.

Lemma rec_ok_key k r : rec_ok k r ->
  skey_ok k /\ r.(stream_id) = k.(scrk_stream_id) /\
  match k.(scrk_order) with
  | Attached a => r.(state) <> CandidateState /\ r.(logical_start) = Some a
  | Candidate n => r.(state) = CandidateState /\ r.(sequence) = n
  end.
Proof.
  intros ((Hh & Hl & _ & _ & Hs & _ & Hn & _) & Hk & _). unfold record_key in Hk.
  destruct (bool_decide_reflect (state r = CandidateState)) as [Hst|Hst].
  - injection Hk as <-. cbn. done.
  - destruct (logical_start r) as [a|] eqn:Ea; [|done]. injection Hk as <-. cbn.
    split; [split; [done|]; by apply Hs|]. done.
Qed.

(** A snapshot of the record at a key. *)
Definition snap_of (k : StreamChunkRecordKey) (s : StreamChunkRecordSnapshot) : Prop :=
  rec_ok k s.(ss_record) /\ s.(ss_key) = to_bytes k /\ validate s.(ss_record) = Ok s.(ss_index).

(** The last attached record of a stream. *)
Definition is_tail (V : tstore) (st : StreamName) (a : Z) (r : StreamChunkRecord) (n : Z) : Prop :=
  V.(recs) !! akey st a = Some (r, n) /\ forall a' e, V.(recs) !! akey st a' = Some e -> a' <= a.

Definition no_tail (V : tstore) (st : StreamName) : Prop := forall a, V.(recs) !! akey st a = None.

Section view.
Context (upd : Z -> bytes -> Z) `{!Crc32c upd} `{BincodeLaws} `{PinJsonLaws}.

Record agree (m : gmap bytes MemoryRecord) (V : tstore) : Prop := mkAgree {
  agree_rec : forall k r n, V.(recs) !! k = Some (r, n) ->
    rec_ok k r /\ exists b, encode_stream_chunk_record upd r = Ok b /\ m !! to_bytes k = Some (mkMemory b n);
  agree_pin : forall k p n, V.(pins) !! k = Some (p, n) ->
    k = pkey p /\ pin_ok p /\ exists v, to_vec p = Some v /\ m !! pin_key p = Some (mkMemory v n);
  agree_all : forall key e, m !! key = Some e ->
    (exists k r, V.(recs) !! k = Some (r, e.(revision)) /\ key = to_bytes k) \/
    (exists p, V.(pins) !! pkey p = Some (p, e.(revision)) /\ key = pin_key p);
}.

Record repr (s : MemoryState) (V : tstore) : Prop := mkRepr {
  repr_agree : agree s.(metadata_records) V;
  repr_rev : V.(trev) = s.(metadata_revision);
  repr_recs : forall k r n, V.(recs) !! k = Some (r, n) -> 0 < n <= V.(trev);
  repr_pins : forall k p n, V.(pins) !! k = Some (p, n) -> 0 < n <= V.(trev);
  repr_pos : 0 <= V.(trev);
}.

Definition op_repr (op : BatchOp) (t : top) : Prop :=
  match t with
  | TPut k r => rec_ok k r /\ exists b, encode_stream_chunk_record upd r = Ok b /\ op = Put (to_bytes k) b
  | TDel k => skey_ok k /\ op = Delete (to_bytes k)
  | TPin p => pin_ok p /\ exists v, to_vec p = Some v /\ op = Put (pin_key p) v
  | TUnpin p => pin_typed p /\ op = Delete (pin_key p)
  end.

(** ** Batches *)

Lemma agree_put m V k r b n :
  agree m V -> rec_ok k r -> encode_stream_chunk_record upd r = Ok b ->
  agree (<[to_bytes k := mkMemory b n]> m) (tapply n V (TPut k r)).
Proof.
  intros [Ar Ap Aa] Hk Hb. pose proof (rec_ok_key _ _ Hk) as [Hok _]. split; cbn [tapply recs pins].
  - intros k' r' n' [[<- [= <- <-]]|[Hne Hr]]%lookup_insert_Some.
    + split; [done|]. exists b. by rewrite lookup_insert_eq.
    + apply Ar in Hr as (Hr & b' & Hb' & Hm). split; [done|]. exists b'. split; [done|]. rewrite lookup_insert_ne; [done|].
      intros E. apply Hne. apply skey_inj; [done| |done]. by apply rec_ok_key in Hr as [? _].
  - intros k' p n' Hp. apply Ap in Hp as (? & ? & v & ? & ?). do 2 (split; [done|]). exists v. split; [done|].
    rewrite lookup_insert_ne; [done|]. apply skey_not_pin.
  - intros key e [[<- <-]|[Hne He]]%lookup_insert_Some.
    + left. exists k, r. cbn. by rewrite lookup_insert_eq.
    + apply Aa in He as [(k' & r' & Hr & ->)|He]; [left|by right]. exists k', r'. split; [|done].
      rewrite lookup_insert_ne; [done|]. by intros ->.
Qed.

Lemma agree_del m V k n :
  agree m V -> skey_ok k -> agree (delete (to_bytes k) m) (tapply n V (TDel k)).
Proof.
  intros [Ar Ap Aa] Hok. split; cbn [tapply recs pins].
  - intros k' r' n' [Hne Hr]%lookup_delete_Some. apply Ar in Hr as (Hr & b' & Hb' & Hm). split; [done|]. exists b'. split; [done|].
    rewrite lookup_delete_ne; [done|]. intros E. apply Hne. apply skey_inj; [done| |done]. by apply rec_ok_key in Hr as [? _].
  - intros k' p n' Hp. apply Ap in Hp as (? & ? & v & ? & ?). do 2 (split; [done|]). exists v. split; [done|].
    rewrite lookup_delete_ne; [done|]. apply skey_not_pin.
  - intros key e [Hne He]%lookup_delete_Some. apply Aa in He as [(k' & r' & Hr & ->)|He]; [left|by right]. exists k', r'. split; [|done].
    rewrite lookup_delete_ne; [done|]. by intros ->.
Qed.

Lemma agree_pin_put m V p v n :
  agree m V -> pin_ok p -> to_vec p = Some v -> agree (<[pin_key p := mkMemory v n]> m) (tapply n V (TPin p)).
Proof.
  intros [Ar Ap Aa] Hp Hv. split; cbn [tapply recs pins].
  - intros k' r' n' Hr. apply Ar in Hr as (Hr & b' & Hb' & Hm). split; [done|]. exists b'. split; [done|].
    rewrite lookup_insert_ne; [done|]. apply not_eq_sym, skey_not_pin.
  - intros k' q n' [[<- [= <- <-]]|[Hne Hq]]%lookup_insert_Some.
    + do 2 (split; [done|]). exists v. by rewrite lookup_insert_eq.
    + apply Ap in Hq as (-> & Hq & v' & ? & ?). do 2 (split; [done|]). exists v'. split; [done|].
      rewrite lookup_insert_ne; [done|]. intros E. apply Hne. apply pin_key_inj in E as [-> ->]; [done|apply Hp|apply Hq].
  - intros key e [[<- <-]|[Hne He]]%lookup_insert_Some.
    + right. exists p. cbn. by rewrite lookup_insert_eq.
    + apply Aa in He as [He|(q & Hq & ->)]; [by left|right]. exists q. split; [|done]. rewrite lookup_insert_ne; [done|].
      intros E. apply Hne. unfold pin_key. congruence.
Qed.

Lemma agree_unpin m V p n :
  agree m V -> pin_typed p -> agree (delete (pin_key p) m) (tapply n V (TUnpin p)).
Proof.
  intros [Ar Ap Aa] Hp. split; cbn [tapply recs pins].
  - intros k' r' n' Hr. apply Ar in Hr as (Hr & b' & Hb' & Hm). split; [done|]. exists b'. split; [done|].
    rewrite lookup_delete_ne; [done|]. apply not_eq_sym, skey_not_pin.
  - intros k' q n' [Hne Hq]%lookup_delete_Some. apply Ap in Hq as (-> & Hq & v' & ? & ?). do 2 (split; [done|]). exists v'. split; [done|].
    rewrite lookup_delete_ne; [done|]. intros E. apply Hne. apply pin_key_inj in E as [-> ->]; [done|apply Hp|apply Hq].
  - intros key e [Hne He]%lookup_delete_Some. apply Aa in He as [He|(q & Hq & ->)]; [by left|right]. exists q. split; [|done].
    rewrite lookup_delete_ne; [done|]. intros E. apply Hne. unfold pin_key. congruence.
Qed.

Lemma agree_apply ops ts n : forall m V,
  agree m V -> Forall2 op_repr ops ts -> agree (apply_ops m n ops) (foldl (tapply n) V ts).
Proof.
  unfold apply_ops. revert ts. induction ops as [|op ops IH]; intros ts m V Ha Hf; inversion_clear Hf as [|? t ? ts' Ho Hf']; [done|].
  cbn [foldl]. apply IH; [|done]. destruct t; cbn in Ho.
  - destruct Ho as (Hk & b & Hb & ->). by apply agree_put.
  - destruct Ho as [Hk ->]. by apply agree_del.
  - destruct Ho as (Hp & v & Hv & ->). by apply agree_pin_put.
  - destruct Ho as [Hp ->]. by apply agree_unpin.
Qed.

Lemma tapply_bound n ts : forall V,
  (forall k r i, V.(recs) !! k = Some (r, i) -> 0 < i <= n) -> (forall k p i, V.(pins) !! k = Some (p, i) -> 0 < i <= n) -> 0 < n ->
  (forall k r i, (foldl (tapply n) V ts).(recs) !! k = Some (r, i) -> 0 < i <= n) /\
  (forall k p i, (foldl (tapply n) V ts).(pins) !! k = Some (p, i) -> 0 < i <= n).
Proof.
  induction ts as [|t ts IH]; intros V Hr Hp Hn; [done|]. cbn [foldl]. apply IH; [| |done]; destruct t; cbn [tapply recs pins]; try done.
  - intros k' r' i [[_ [= _ <-]]|[_ ?]]%lookup_insert_Some; [lia|by eapply Hr].
  - intros k' r' i [_ ?]%lookup_delete_Some. by eapply Hr.
  - intros k' r' i [[_ [= _ <-]]|[_ ?]]%lookup_insert_Some; [lia|by eapply Hp].
  - intros k' r' i [_ ?]%lookup_delete_Some. by eapply Hp.
Qed.

(** A batch that is applied. *)
Lemma repr_batch s V ops ts next :
  repr s V -> Forall2 op_repr ops ts -> next = s.(metadata_revision) + 1 ->
  repr (mkState (apply_ops s.(metadata_records) next ops) next) (tapply_all V next ts).
Proof.
  intros [Ha Hrev Hr Hp Hpos] Hf ->. set (next := metadata_revision s + 1).
  destruct (tapply_bound next ts V) as [Hr' Hp'].
  { intros k r i Hk%Hr. unfold next. lia. }
  { intros k r i Hk%Hp. unfold next. lia. }
  { unfold next. lia. }
  unfold tapply_all. split; cbn [recs pins trev metadata_records metadata_revision]; try done; [|unfold next; lia].
  destruct (agree_apply ops ts next _ _ Ha Hf) as [A1 A2 A3]. split; done.
Qed.

(** ** Reads *)

Lemma get_rec s V k :
  repr s V -> skey_ok k ->
  (V.(recs) !! k = None /\ get s (to_bytes k) = None) \/
  exists r n b, V.(recs) !! k = Some (r, n) /\ rec_ok k r /\ encode_stream_chunk_record upd r = Ok b /\
    get s (to_bytes k) = Some (mkMemory b n) /\ 0 < n <= V.(trev).
Proof.
  intros [[Ar Ap Aa] _ Hr _ _] Hk. unfold get. destruct (recs V !! k) as [[r n]|] eqn:E.
  - right. pose proof (Hr _ _ _ E). apply Ar in E as (? & b & ? & ?). by exists r, n, b.
  - left. split; [done|]. destruct (metadata_records s !! to_bytes k) as [e|] eqn:Em; [|done].
    apply Aa in Em as [(k' & r & Hk' & Ek)|(q & _ & Eq)]; [|by apply skey_not_pin in Eq].
    pose proof (Ar _ _ _ Hk') as [Hok _]. apply rec_ok_key in Hok as [Hok _]. apply skey_inj in Ek; [congruence|done..].
Qed.

Lemma get_pin s V p :
  repr s V -> pin_typed p ->
  (V.(pins) !! pkey p = None /\ get s (pin_key p) = None) \/
  exists q n v, V.(pins) !! pkey p = Some (q, n) /\ pkey q = pkey p /\ pin_ok q /\ to_vec q = Some v /\ from_slice v = Some q /\
    len v <= 1024 /\ get s (pin_key p) = Some (mkMemory v n).
Proof.
  intros [[Ar Ap Aa] _ _ _ _] Hp. unfold get. destruct (pins V !! pkey p) as [[q n]|] eqn:E.
  - right. apply Ap in E as (Ek & Hq & v & Hv & Hm). exists q, n, v. split; [done|]. split; [done|]. split; [done|]. split; [done|].
    split; [apply from_to_vec; [apply Hq|done]|]. split; [eapply to_vec_len; [apply Hq|done]|]. unfold pin_key in Hm |- *.
    injection Ek as -> ->. done.
  - left. split; [done|]. destruct (metadata_records s !! pin_key p) as [e|] eqn:Em; [|done].
    apply Aa in Em as [(k & r & _ & Ek)|(q & Hq & Eq)]; [by symmetry in Ek; apply skey_not_pin in Ek|].
    pose proof (Ap _ _ _ Hq) as (_ & Hok & _). apply pin_key_inj in Eq as [E1 E2]; [|done|apply Hok]. congruence.
Qed.

Lemma decode_ok k r b n :
  rec_ok k r -> encode_stream_chunk_record upd r = Ok b -> n <> 0 ->
  exists s, decode upd (to_bytes k) b n k.(scrk_stream_id) = Ok s /\ snap_of k s /\ s.(ss_record) = r /\ s.(ss_revision) = n.
Proof.
  intros Hok Hb Hn. pose proof (rec_ok_key _ _ Hok) as (Hk & Hst & Ho). pose proof Hok as (Ht & Hkey & ix & Hv).
  unfold decode. rewrite skey_roundtrip by done. cbn [result_bind].
  rewrite (decode_encode_record upd r b Ht Hb). cbn [codec result_bind].
  rewrite !bool_decide_eq_true_2 by done. destruct (Z.eqb_spec n 0); [done|]. cbn [negb orb].
  assert (match scrk_order k with
          | Attached start => if bool_decide (state r <> CandidateState) && bool_decide (logical_start r = Some start) then Ok ()
                              else corrupt "record key/order differs from value"
          | Candidate seq => if bool_decide (state r = CandidateState) && (StreamChunk.sequence r =? seq) then Ok ()
                             else corrupt "record key/order differs from value" end = Ok ()) as ->.
  { destruct (scrk_order k) as [a|c]; destruct Ho as [Ho1 Ho2].
    - by rewrite !bool_decide_eq_true_2.
    - rewrite bool_decide_eq_true_2 by done. by rewrite Ho2, Z.eqb_refl. }
  cbn [result_bind]. rewrite Hv. cbn [codec result_bind]. eexists. split; [done|]. split; [|done]. split; [done|]. done.
Qed.

Lemma selects_rec s V prefix after b key e :
  repr s V -> (forall p, ~ prefix `prefix_of` pin_key p) -> s.(metadata_records) !! key = Some e -> selects prefix after b key ->
  exists k r x, key = to_bytes k /\ V.(recs) !! k = Some (r, e.(revision)) /\ rec_ok k r /\
    encode_stream_chunk_record upd r = Ok x /\ e = mkMemory x e.(revision).
Proof.
  intros [[Ar Ap Aa] _ _ _ _] Hp Hm [Hpre _]. pose proof (Aa _ _ Hm) as [(k & r & Hk & ->)|(p & _ & ->)]; [|by apply Hp in Hpre].
  pose proof (Ar _ _ _ Hk) as (Hok & x & Hx & Hm'). exists k, r, x. do 4 (split; [done|]). congruence.
Qed.

Lemma tail_scan s V st :
  repr s V -> name_ok st ->
  (no_tail V st /\ scan s (attached_prefix st) [] 1 true = mkScan [] [] false) \/
  exists a r n x t, is_tail V st a r n /\ rec_ok (akey st a) r /\ encode_stream_chunk_record upd r = Ok x /\
    scan s (attached_prefix st) [] 1 true = mkScan [(to_bytes (akey st a), x)] [n] t.
Proof.
  intros Hr Hst. assert (forall p, ~ attached_prefix st `prefix_of` pin_key p) as Hp by (intros p; apply pin_not_scan).
  assert (forall a r n, V.(recs) !! akey st a = Some (r, n) -> exists x, s.(metadata_records) !! to_bytes (akey st a) = Some x /\
    selects (attached_prefix st) [] true (to_bytes (akey st a)) /\ skey_ok (akey st a)) as Hin.
  { intros a r n Hk. destruct Hr as [[Ar _ _] _ _ _ _]. apply Ar in Hk as (Hok & b & _ & Hm). apply rec_ok_key in Hok as [Hok _].
    eexists. split; [done|]. split; [|done]. split; [|by left]. apply skey_attached; [done..|]. by exists a. }
  destruct (scan_last s (attached_prefix st) []) as [[Hs Hnone]|(key & e & t & Hs & Hm & Hsel & Hmax)].
  - left. split; [|done]. intros a. destruct (recs V !! akey st a) as [[r n]|] eqn:E; [|done].
    apply Hin in E as (x & Hx & Hsel & _). by apply Hnone in Hx.
  - right. destruct (selects_rec _ _ _ _ _ _ _ Hr Hp Hm Hsel) as (k & r & x & -> & Hk & Hok & Hx & He).
    pose proof (rec_ok_key _ _ Hok) as [Hkk _]. destruct Hsel as [Hpre _]. apply skey_attached in Hpre as [a ->]; [|done..].
    exists a, r, (revision e), x, t. split; [|rewrite He in Hs; done]. split; [done|]. intros a' [r' n'] Hk'.
    apply Hin in Hk' as (e' & Hm' & Hsel' & Hk'). pose proof (Hmax _ _ Hm' Hsel') as Hle. rewrite skey_lt in Hle by done. lia.
Qed.

Lemma before_selects st a off :
  skey_ok (akey st a) -> skey_ok (akey st off) ->
  selects (attached_prefix st) (to_bytes (akey st off) ++ [0]) true (to_bytes (akey st a)) <-> a <= off.
Proof.
  intros Ha Ho. unfold selects. rewrite (skey_attached st (akey st a)) by (done || apply Ha).
  rewrite lex_lt_last by (by rewrite !skey_len). rewrite skey_lt by done. rewrite orb_true_iff, bool_decide_eq_true. split.
  - intros [_ [E|[?|E%skey_inj]]]; [by destruct (to_bytes (akey st off))|lia| |done..]. injection E. lia.
  - intros Hle. split; [by eexists|]. right. destruct (decide (a = off)) as [->|]; [by right|left; lia].
Qed.

Lemma locate_scan s V st off :
  repr s V -> skey_ok (akey st off) ->
  ((forall a e, V.(recs) !! akey st a = Some e -> off < a) /\
   scan s (attached_prefix st) (to_bytes (akey st off) ++ [0]) 1 true = mkScan [] [] false) \/
  exists a r n x t, V.(recs) !! akey st a = Some (r, n) /\ rec_ok (akey st a) r /\ a <= off /\
    (forall a' e, V.(recs) !! akey st a' = Some e -> a' <= off -> a' <= a) /\ encode_stream_chunk_record upd r = Ok x /\
    scan s (attached_prefix st) (to_bytes (akey st off) ++ [0]) 1 true = mkScan [(to_bytes (akey st a), x)] [n] t.
Proof.
  intros Hr Hoff. assert (name_ok st) as Hst by apply Hoff.
  assert (forall p, ~ attached_prefix st `prefix_of` pin_key p) as Hp by (intros p; apply pin_not_scan).
  assert (forall a r n, V.(recs) !! akey st a = Some (r, n) ->
    (exists x, s.(metadata_records) !! to_bytes (akey st a) = Some x) /\ skey_ok (akey st a)) as Hin.
  { intros a r n Hk. destruct Hr as [[Ar _ _] _ _ _ _]. apply Ar in Hk as (Hok & b & _ & Hm). apply rec_ok_key in Hok as [Hok _]. eauto. }
  destruct (scan_last s (attached_prefix st) (to_bytes (akey st off) ++ [0])) as [[Hs Hnone]|(key & e & t & Hs & Hm & Hsel & Hmax)].
  - left. split; [|done]. intros a [r n] E. apply Hin in E as [[x Hx] Hok]. apply Hnone in Hx. rewrite before_selects in Hx by done. lia.
  - right. destruct (selects_rec _ _ _ _ _ _ _ Hr Hp Hm Hsel) as (k & r & x & -> & Hk & Hok & Hx & He).
    pose proof (rec_ok_key _ _ Hok) as [Hkk _]. pose proof Hsel as [Hpre _]. apply skey_attached in Hpre as [a ->]; [|done..].
    apply before_selects in Hsel; [|done..]. exists a, r, (revision e), x, t. do 3 (split; [done|]). split; [|rewrite He in Hs; done].
    intros a' [r' n'] [[x' Hx'] Hok']%Hin Hle. pose proof (Hmax _ _ Hx') as Hlt. rewrite before_selects, skey_lt in Hlt by done. lia.
Qed.

(** The keys of a forward scan of attached records. *)
Lemma keys_scan s V st after limit key v :
  repr s V -> name_ok st -> (key, v) ∈ (scan s (attached_prefix st) after limit false).(items) ->
  exists a, key = to_bytes (akey st a) /\ skey_ok (akey st a).
Proof.
  intros Hr Hst Hin. apply scan_sound in Hin as (e & Hm & -> & Hsel).
  assert (forall p, ~ attached_prefix st `prefix_of` pin_key p) as Hp by (intros p; apply pin_not_scan).
  destruct (selects_rec _ _ _ _ _ _ _ Hr Hp Hm Hsel) as (k & r & x & -> & _ & Hok & _).
  apply rec_ok_key in Hok as [Hok _]. destruct Hsel as [[a ->]%skey_attached _]; [by exists a|done..].
Qed.

Lemma decode_pins_all st l : 
  (forall k v, (k, v) ∈ l -> exists p, pin_ok p /\ pin_stream p = st /\ to_vec p = Some v /\ k = pin_key p) ->
  exists ps, decode_pins l st = Ok ps /\
    forall p, p ∈ ps <-> exists k v, (k, v) ∈ l /\ pin_ok p /\ pin_stream p = st /\ to_vec p = Some v /\ k = pin_key p.
Proof.
  induction l as [|[k v] l IH]; intros Hl.
  { exists []. split; [done|]. intros p. split; [by intros ?%elem_of_nil|]. by intros (? & ? & ?%elem_of_nil & _). }
  destruct (Hl k v) as (p & Hp & Hst & Hv & ->); [by left|]. destruct IH as (ps & Hps & Hall); [intros; apply Hl; by right|].
  cbn [decode_pins]. pose proof (to_vec_len _ _ (proj1 Hp) Hv). destruct (Z.ltb_spec 1024 (len v)); [lia|].
  rewrite (from_to_vec p v) by (done || apply Hp). cbn [result_bind]. rewrite !bool_decide_eq_true_2 by done.
  destruct Hp as [Hp1 Hp2]. destruct (Z.ltb_spec (pin_end p) (pin_begin p)); [lia|]. cbn [negb orb]. rewrite Hps. cbn [result_bind].
  exists (p :: ps). split; [done|]. intros q. rewrite elem_of_cons, Hall. split.
  - intros [->|(k & v' & ? & ?)]; [exists (pin_key p), v; by split; [left|]|exists k, v'; by split; [right|]].
  - intros (k & v' & [[= -> ->]|Hin]%elem_of_cons & Hq & Hqs & Hqv & Ek); [left|right; by exists k, v'].
    pose proof (from_to_vec _ _ Hp1 Hv). pose proof (from_to_vec _ _ (proj1 Hq) Hqv). congruence.
Qed.

Lemma pins_scan s V st :
  repr s V -> name_ok st -> (scan s (pin_prefix st) [] 512 false).(truncated) = false ->
  exists ps, decode_pins (scan s (pin_prefix st) [] 512 false).(items) st = Ok ps /\
    forall p, p ∈ ps <-> pin_stream p = st /\ exists n, V.(pins) !! pkey p = Some (p, n).
Proof.
  intros Hr Hst Ht. pose proof Hr as [[Ar Ap Aa] _ _ _ _].
  assert (forall k v, (k, v) ∈ items (scan s (pin_prefix st) [] 512 false) <->
    exists p n, V.(pins) !! pkey p = Some (p, n) /\ pin_ok p /\ pin_stream p = st /\ to_vec p = Some v /\ k = pin_key p) as Hin.
  { intros k v. rewrite scan_complete by (done || lia). split.
    - intros (e & Hm & -> & Hpre & _). pose proof (Aa _ _ Hm) as [(k' & r & _ & ->)|(p & Hp & ->)]; [by apply skey_not_pins in Hpre|].
      pose proof (Ap _ _ _ Hp) as (_ & Hok & v & Hv & Hm'). exists p, (revision e). rewrite pin_prefix_of in Hpre by (done || apply Hok).
      do 3 (split; [done|]). split; [|done]. rewrite Hm in Hm'. injection Hm' as ->. done.
    - intros (p & n & Hp & Hok & <- & Hv & ->). pose proof (Ap _ _ _ Hp) as (_ & _ & v' & Hv' & Hm). exists (mkMemory v' n).
      split; [done|]. split; [cbn; congruence|]. split; [|by left]. by apply prefix_app_r. }
  destruct (decode_pins_all st (items (scan s (pin_prefix st) [] 512 false))) as (ps & Hps & Hall).
  { intros k v (p & n & _ & Hp)%Hin. by exists p. }
  exists ps. split; [done|]. intros p. rewrite Hall. split.
  - intros (k & v & (q & n & Hq & Hqok & Hqs & Hqv & Ek)%Hin & Hp & Hps' & Hv & Ek'). split; [done|]. exists n.
    assert (q = p) as ->; [|done]. pose proof (from_to_vec _ _ (proj1 Hqok) Hqv). pose proof (from_to_vec _ _ (proj1 Hp) Hv). congruence.
  - intros (Hps' & n & Hp). pose proof (Ap _ _ _ Hp) as (_ & Hok & v & Hv & _). exists (pin_key p), v. rewrite Hin.
    split; [by exists p, n|]. done.
Qed.

Lemma cands_scan s V st ss :
  repr s V -> name_ok st ->
  decode_all upd (zip (scan s (candidate_prefix st) [] 8 false).(items) (scan s (candidate_prefix st) [] 8 false).(commit_slots)) st = Ok ss ->
  forall c, c ∈ ss -> exists n, snap_of (ckey st n) c /\ V.(recs) !! ckey st n = Some (c.(ss_record), c.(ss_revision)).
Proof.
  intros Hr Hst. unfold scan. cbn [items commit_slots]. set (found := filter _ _).
  assert (forall e, e ∈ take (Z.to_nat 8) found -> exists n r x, e.1 = to_bytes (ckey st n) /\ value e.2 = x /\
    V.(recs) !! ckey st n = Some (r, revision e.2) /\ rec_ok (ckey st n) r /\ encode_stream_chunk_record upd r = Ok x) as Hin.
  { intros [k e] He. assert ((k, e) ∈ found) as H' by (rewrite <- (take_drop (Z.to_nat 8) found), elem_of_app; by left).
    apply list_elem_of_filter in H' as [Hs Hm%elem_of_iter]. apply (select_spec (candidate_prefix st) [] false) in Hs. cbn [fst] in Hs.
    destruct (selects_rec _ _ _ _ _ _ _ Hr (fun p => proj2 (pin_not_scan st p)) Hm Hs) as (k' & r & x & -> & Hk & Hok & Hx & He').
    pose proof (rec_ok_key _ _ Hok) as [Hkk _]. destruct Hs as [[n ->]%skey_candidate _]; [|done..]. exists n, r, x. cbn [fst snd].
    split; [done|]. split; [by rewrite He'|]. done. }
  revert ss Hin. generalize (take (Z.to_nat 8) found). clear found. induction l as [|[k e] l IH]; intros ss Hin.
  { intros [= <-] c Hc. by apply elem_of_nil in Hc. }
  destruct (Hin (k, e)) as (n & r & x & Ek & Ee & Hk & Hok & Hx); [by left|]. cbn [snd fst] in *. pose proof (repr_recs _ _ Hr _ _ _ Hk) as Hpos.
  destruct (decode_ok _ _ _ (revision e) Hok Hx) as (c0 & Hd & Hs0 & Hr0 & Hn0); [lia|]. cbn [scrk_stream_id] in Hd.
  rewrite !fmap_cons. cbn [zip_with decode_all fst snd]. rewrite Ek, Ee, Hd. cbn [result_bind].
  destruct (decode_all upd _ st) as [rest|] eqn:Er; [|done]. cbn [result_bind]. intros [= <-] c [->|Hc]%elem_of_cons.
  - exists n. rewrite Hr0, Hn0. done.
  - eapply IH; [|done|done]. intros e' He'. apply Hin. by right.
Qed.

End view.

End StreamView.
