(* ===== verification/StreamLogic.v ===== *)
(** * Concurrent operations on the record store

    The operations of [StreamStore] run concurrently against one backend.  This
    file gives the world they share, the invariant of that world, and the
    rely-guarantee rules that show an operation keeps the invariant whatever
    runs between its calls.

    The ghost part of the world is the history of every attached record and its
    last version, kept also after the record was collected. *)

From stdpp Require Import prelude gmap list list_numbers strings countable.
From Stdlib Require Import ZArith Lia.
From S2P Require Import Prelude Roles Bytes WalRecord KeyEncoding ChunkSlots BinaryKeys Frame FrameGeometry StreamMappings StreamChunk StreamStore StreamView.

Module StreamLogic.
Import KeyEncoding ChunkSlots BinaryKeys Frame FrameGeometry StreamMappings StreamChunk StreamStore StreamView.

(** ** Worlds *)

(** What the operations share besides the backend: the clock in milliseconds,
    the record cache of every store handle, and the deadlines of read pins. *)
Record env := mkEnv {
  clock : Z;
  caches : gmap nat RecordCache;
  readers : gmap nat (PinRecord * Z);
}.

Record tworld := mkTW {
  tv : tstore;
  hist : gmap (StreamName * Z) StreamChunkRecord;
  tenv : env;
}.

Definition end_of (r : StreamChunkRecord) : Z := default 0 r.(logical_end).

(** The next version of a record: the same chunk with more appends. *)
Record extends (r r' : StreamChunkRecord) : Prop := mkExtends {
  ext_start : r'.(logical_start) = r.(logical_start);
  ext_chunk : r'.(chunk_id) = r.(chunk_id);
  ext_lengths : exists ls ls', lengths r.(mappings) = Ok ls /\ lengths r'.(mappings) = Ok ls' /\ ls `prefix_of` ls';
}.

(** Records that differ in nothing a reader uses. *)
Record same_core (r r' : StreamChunkRecord) : Prop := mkCore {
  core_stream : r'.(stream_id) = r.(stream_id);
  core_start : r'.(logical_start) = r.(logical_start);
  core_end : r'.(logical_end) = r.(logical_end);
  core_chunk : r'.(chunk_id) = r.(chunk_id);
  core_mappings : r'.(mappings) = r.(mappings);
}.

(** A record that was attached at some time. *)
Definition known (tw : tworld) (r : StreamChunkRecord) : Prop :=
  forall a, r.(logical_start) = Some a -> a < end_of r ->
    exists r', tw.(hist) !! (r.(stream_id), a) = Some r' /\ extends r r'.

Definition covered (V : tstore) (st : StreamName) (off : Z) : Prop :=
  exists a r n, V.(recs) !! akey st a = Some (r, n) /\ r.(state) <> DeletingState /\ a <= off < end_of r.

Abbreviation CLOCK_MAX := (2 ^ 62).

(** The largest difference between a clock reading and the clock. *)
Class Skew := { skew : Z; skew_ok : 0 <= skew /\ 2 * skew <= PIN_GRACE_MS }.

Section logic.
Context `{Skew}.

(** No clock shows a time before the pin's lease and grace are over. *)
Definition expired (q : PinRecord) (now : Z) : Prop := q.(pin_expires) + PIN_GRACE_MS <= now + skew.

Definition same_interval (p q : PinRecord) : Prop :=
  pkey p = pkey q /\ p.(pin_begin) = q.(pin_begin) /\ p.(pin_end) = q.(pin_end) /\ p.(pin_active) = q.(pin_active).

(** ** The invariant *)

Record stream_inv (tw : tworld) (st : StreamName) (a : Z) (t : StreamChunkRecord) : Prop := mkStream {
  si_state : t.(state) = ActiveState \/ t.(state) = SealedState;
  si_other : forall b r m, tw.(tv).(recs) !! akey st b = Some (r, m) -> b <> a ->
    (r.(state) = SealedState \/ r.(state) = DeletingState) /\ b < end_of r;
  si_deleting : forall b r m, tw.(tv).(recs) !! akey st b = Some (r, m) -> r.(state) = DeletingState -> end_of r <= t.(trim_offset);
  si_cover : forall off, t.(trim_offset) <= off < end_of t -> covered tw.(tv) st off;
  si_last : forall b r, tw.(hist) !! (st, b) = Some r -> b <= a;
}.

Record inv (tw : tworld) : Prop := mkInv {
  inv_rev : 0 <= tw.(tv).(trev);
  inv_recs : forall k r m, tw.(tv).(recs) !! k = Some (r, m) -> rec_ok k r /\ 0 < m <= tw.(tv).(trev);
  inv_pins : forall k q m, tw.(tv).(pins) !! k = Some (q, m) -> k = pkey q /\ pin_ok q /\ q.(pin_expires) <= tw.(tenv).(clock) + skew + LEASE_MS;
  inv_clock : 0 <= tw.(tenv).(clock) <= CLOCK_MAX;
  inv_stream : forall st a t n, is_tail tw.(tv) st a t n -> stream_inv tw st a t;
  inv_current : forall st a r m, tw.(tv).(recs) !! akey st a = Some (r, m) ->
    exists r', tw.(hist) !! (st, a) = Some r' /\ same_core r r';
  inv_hist : forall st a r, tw.(hist) !! (st, a) = Some r -> rec_ok (akey st a) r;
  inv_disjoint : forall st a b r r', tw.(hist) !! (st, a) = Some r -> tw.(hist) !! (st, b) = Some r' -> a < b -> end_of r <= b;
  inv_none : forall st a, no_tail tw.(tv) st -> tw.(hist) !! (st, a) = None;
  inv_pinned : forall st id q m, tw.(tv).(pins) !! (st, id) = Some (q, m) -> ~ expired q tw.(tenv).(clock) ->
    (forall off, q.(pin_begin) <= off < q.(pin_end) -> covered tw.(tv) st off) /\
    (forall b r m, tw.(tv).(recs) !! akey st b = Some (r, m) -> r.(state) = DeletingState ->
       q.(pin_active) = Some r.(chunk_id) -> end_of r <= q.(pin_begin));
  inv_readers : forall h p d, tw.(tenv).(readers) !! h = Some (p, d) -> tw.(tenv).(clock) < d ->
    exists q m, tw.(tv).(pins) !! pkey p = Some (q, m) /\ same_interval p q /\ d + 1000 - skew <= q.(pin_expires);
  inv_caches : forall h c s, tw.(tenv).(caches) !! h = Some c -> Some s ∈ c.(slots) ->
    known tw s.(ss_record) /\ exists st a, snap_of (akey st a) s;
}.

(** ** What a step may do *)

Definition same_stream (V V' : tstore) (st : StreamName) : Prop :=
  (forall a, V'.(recs) !! akey st a = V.(recs) !! akey st a) /\ forall id, V'.(pins) !! (st, id) = V.(pins) !! (st, id).

(** The tail after a step, against the tail before it. *)
Record advances (t t' : StreamChunkRecord) : Prop := mkAdvances {
  adv_end : end_of t <= end_of t';
  adv_trim : t.(trim_offset) <= t'.(trim_offset);
  adv_generation : t.(generation) <= t'.(generation);
  adv_epoch : t.(writer_epoch) <= t'.(writer_epoch);
  adv_closed : t.(closed) = true -> t'.(closed) = true;
}.

(** A step of an actor that owns the pins [own]. *)
Record step_ok (own : StreamName * bytes -> Prop) (tw tw' : tworld) : Prop := mkStep {
  st_clock : tw.(tenv).(clock) <= tw'.(tenv).(clock);
  st_rev : tw.(tv).(trev) <= tw'.(tv).(trev);
  st_fresh : forall k r m, tw'.(tv).(recs) !! k = Some (r, m) -> m <= tw.(tv).(trev) -> tw.(tv).(recs) !! k = Some (r, m);
  st_fence : forall st a t n, is_tail tw.(tv) st a t n ->
    same_stream tw.(tv) tw'.(tv) st \/ forall r, tw'.(tv).(recs) !! akey st a <> Some (r, n);
  st_tail : forall st a t n, is_tail tw.(tv) st a t n ->
    exists a' t' n', is_tail tw'.(tv) st a' t' n' /\ a <= a' /\ advances t t';
  st_below : forall st a t n b r m, is_tail tw.(tv) st a t n -> b < a -> tw'.(tv).(recs) !! akey st b = Some (r, m) ->
    exists r0 m0, tw.(tv).(recs) !! akey st b = Some (r0, m0) /\ (r0.(state) = DeletingState -> r.(state) = DeletingState);
  st_init : forall st, no_tail tw.(tv) st -> no_tail tw'.(tv) st \/ tw'.(tv).(recs) !! ckey st 0 = None;
  st_hist : forall st a r, tw.(hist) !! (st, a) = Some r -> a < end_of r ->
    exists r', tw'.(hist) !! (st, a) = Some r' /\ extends r r';
  st_old : forall st a t n b r, is_tail tw.(tv) st a t n -> b < a -> tw.(hist) !! (st, b) = Some r -> tw'.(hist) !! (st, b) = Some r;
  st_new : forall st a r, tw'.(hist) !! (st, a) = Some r ->
    tw.(hist) !! (st, a) = Some r \/ exists r' m, tw'.(tv).(recs) !! akey st a = Some (r', m) /\ same_core r' r;
  st_pins : forall k, ~ own k -> tw'.(tv).(pins) !! k = tw.(tv).(pins) !! k \/
    (tw'.(tv).(pins) !! k = None /\ forall q m, tw.(tv).(pins) !! k = Some (q, m) -> expired q tw'.(tenv).(clock));
  st_readers : forall h p d, ~ own (pkey p) -> tw'.(tenv).(readers) !! h = Some (p, d) <-> tw.(tenv).(readers) !! h = Some (p, d);
}.

(** What others do to an actor that owns [own]. *)
Definition rely (own : StreamName * bytes -> Prop) : tworld -> tworld -> Prop := step_ok (fun k => ~ own k).

Definition assertion := tworld -> Prop.

Definition stable (own : StreamName * bytes -> Prop) (P : assertion) : Prop :=
  forall tw tw', inv tw -> inv tw' -> rely own tw tw' -> P tw -> P tw'.

Lemma step_ok_mono (own own' : StreamName * bytes -> Prop) tw tw' :
  (forall k, own k -> own' k) -> step_ok own tw tw' -> step_ok own' tw tw'.
Proof. intros Hsub []. split; eauto. Qed.

Lemma stable_and own P Q : stable own P -> stable own Q -> stable own (fun tw => P tw /\ Q tw).
Proof. intros HP HQ tw tw' Hi Hi' Hr [Hp Hq]. split; [exact (HP _ _ Hi Hi' Hr Hp)|exact (HQ _ _ Hi Hi' Hr Hq)]. Qed.

Lemma stable_or own P Q : stable own P -> stable own Q -> stable own (fun tw => P tw \/ Q tw).
Proof. intros HP HQ tw tw' Hi Hi' Hr [Hp|Hq]; [left; exact (HP _ _ Hi Hi' Hr Hp)|right; exact (HQ _ _ Hi Hi' Hr Hq)]. Qed.

Lemma stable_pure own (P : Prop) : stable own (fun _ => P).
Proof. intros tw tw' _ _ _ HP. exact HP. Qed.

Lemma stable_all own {A} (P : A -> assertion) : (forall x, stable own (P x)) -> stable own (fun tw => forall x, P x tw).
Proof. intros HP tw tw' Hi Hi' Hr Hp x. exact (HP x _ _ Hi Hi' Hr (Hp x)). Qed.

Lemma stable_ex own {A} (P : A -> assertion) : (forall x, stable own (P x)) -> stable own (fun tw => exists x, P x tw).
Proof. intros HP tw tw' Hi Hi' Hr [x Hp]. exists x. exact (HP x _ _ Hi Hi' Hr Hp). Qed.

End logic.

End StreamLogic.
