(* ===== verification/StreamSteps.v ===== *)
(** * Batches that keep the invariant

    Each conditional batch of the record store changes one stream.  [local_ok]
    collects what has to hold of that stream; [local_step] lifts it to the
    invariant and to the guarantee of a step.  The rest of the file shows it
    for every batch the operations issue: a fenced batch (candidates, pins,
    marking and removing trimmed records), the publications, and the initial
    reservation. *)

From stdpp Require Import prelude gmap list list_numbers strings countable.
From Stdlib Require Import ZArith Lia.
From S2P Require Import Prelude Roles Bytes WalRecord KeyEncoding ChunkSlots BinaryKeys Frame FrameGeometry StreamMappings StreamChunk StreamStore StreamView StreamLogic.

Module StreamSteps.
Import KeyEncoding ChunkSlots BinaryKeys Frame FrameGeometry StreamMappings StreamChunk StreamStore StreamView StreamLogic.

Section steps.
Context `{Skew}.

(** ** One stream at a time *)

Record local_ok (own : StreamName * bytes -> Prop) (st : StreamName) (tw tw' : tworld) : Prop := mkLocal {
  lo_env : tw'.(tenv) = tw.(tenv);
  lo_rev : tw.(tv).(trev) < tw'.(tv).(trev);
  lo_recs : forall k r m, tw'.(tv).(recs) !! k = Some (r, m) ->
    rec_ok k r /\ (m = tw'.(tv).(trev) \/ tw.(tv).(recs) !! k = Some (r, m));
  lo_pins : forall k q m, tw'.(tv).(pins) !! k = Some (q, m) ->
    k = pkey q /\ pin_ok q /\ q.(pin_expires) <= tw.(tenv).(clock) + skew + LEASE_MS;
  lo_other : forall st', st' <> st -> same_stream tw.(tv) tw'.(tv) st' /\ forall a, tw'.(hist) !! (st', a) = tw.(hist) !! (st', a);
  lo_tail : exists a t n, is_tail tw'.(tv) st a t n /\ stream_inv tw' st a t /\
    forall a0 t0 n0, is_tail tw.(tv) st a0 t0 n0 -> a0 <= a /\ advances t0 t;
  lo_current : forall a r m, tw'.(tv).(recs) !! akey st a = Some (r, m) ->
    exists r', tw'.(hist) !! (st, a) = Some r' /\ same_core r r';
  lo_hist : forall a r, tw'.(hist) !! (st, a) = Some r -> rec_ok (akey st a) r;
  lo_disjoint : forall a b r r', tw'.(hist) !! (st, a) = Some r -> tw'.(hist) !! (st, b) = Some r' -> a < b -> end_of r <= b;
  lo_pinned : forall id q m, tw'.(tv).(pins) !! (st, id) = Some (q, m) -> ~ expired q tw.(tenv).(clock) ->
    (forall off, q.(pin_begin) <= off < q.(pin_end) -> covered tw'.(tv) st off) /\
    (forall b r m, tw'.(tv).(recs) !! akey st b = Some (r, m) -> r.(state) = DeletingState ->
       q.(pin_active) = Some r.(chunk_id) -> end_of r <= q.(pin_begin));
  lo_readers : forall h p d, tw.(tenv).(readers) !! h = Some (p, d) -> pin_stream p = st -> tw.(tenv).(clock) < d ->
    exists q m, tw'.(tv).(pins) !! pkey p = Some (q, m) /\ same_interval p q /\ d + 1000 - skew <= q.(pin_expires);
  lo_fence : forall a t n, is_tail tw.(tv) st a t n -> forall r, tw'.(tv).(recs) !! akey st a <> Some (r, n);
  lo_below : forall a t n b r m, is_tail tw.(tv) st a t n -> b < a -> tw'.(tv).(recs) !! akey st b = Some (r, m) ->
    exists r0 m0, tw.(tv).(recs) !! akey st b = Some (r0, m0) /\ (r0.(state) = DeletingState -> r.(state) = DeletingState);
  lo_init : no_tail tw.(tv) st -> tw'.(tv).(recs) !! ckey st 0 = None;
  lo_extend : forall a r, tw.(hist) !! (st, a) = Some r -> a < end_of r ->
    exists r', tw'.(hist) !! (st, a) = Some r' /\ extends r r';
  lo_old : forall a t n b r, is_tail tw.(tv) st a t n -> b < a -> tw.(hist) !! (st, b) = Some r -> tw'.(hist) !! (st, b) = Some r;
  lo_new : forall a r, tw'.(hist) !! (st, a) = Some r ->
    tw.(hist) !! (st, a) = Some r \/ exists r' m, tw'.(tv).(recs) !! akey st a = Some (r', m) /\ same_core r' r;
  lo_step_pins : forall id, ~ own (st, id) -> tw'.(tv).(pins) !! (st, id) = tw.(tv).(pins) !! (st, id) \/
    (tw'.(tv).(pins) !! (st, id) = None /\ forall q m, tw.(tv).(pins) !! (st, id) = Some (q, m) -> expired q tw.(tenv).(clock));
}.

Lemma rec_attached a st r : rec_ok (akey st a) r -> exists ls, attached r a (end_of r) ls.
Proof.
  intros Hok. pose proof (rec_ok_key _ _ Hok) as (_ & _ & Hst & Hs). destruct Hok as (Ht & _ & ix & Hv). cbn in Hst, Hs.
  destruct (validate_attached r ix Ht Hv Hst) as (a' & e & ls & blocks & Ha & _). exists ls.
  assert (a' = a) as -> by (pose proof (at_start _ _ _ _ Ha); congruence).
  assert (end_of r = e) as -> by (unfold end_of; by rewrite (at_stop _ _ _ _ Ha)). done.
Qed.

Lemma extends_refl a st r : rec_ok (akey st a) r -> extends r r.
Proof. intros [ls Ha]%rec_attached. split; [done..|]. exists ls, ls. pose proof (at_lengths _ _ _ _ Ha). done. Qed.

Lemma extends_trans r r' r'' : extends r r' -> extends r' r'' -> extends r r''.
Proof.
  intros [Hs Hc (ls & ls1 & Hl & Hl1 & Hp)] [Hs' Hc' (ls1' & ls2 & Hl1' & Hl2 & Hp')]. split; [congruence..|].
  assert (ls1' = ls1) as -> by congruence. exists ls, ls2. split; [done|]. split; [done|]. by etrans.
Qed.

Lemma tail_unique V st a t n a' t' n' : is_tail V st a t n -> is_tail V st a' t' n' -> a' = a /\ t' = t /\ n' = n.
Proof. intros [H1 H2] [H3 H4]. pose proof (H2 _ _ H3). pose proof (H4 _ _ H1). assert (a' = a) as -> by lia. split; [done|]. split; congruence. Qed.

Lemma same_tail V V' st a t n : same_stream V V' st -> is_tail V st a t n <-> is_tail V' st a t n.
Proof. intros [Hs _]. unfold is_tail. rewrite Hs. split; intros [? Hm]; (split; [done|]); intros a' e He; eapply Hm; [by rewrite <- Hs|by rewrite Hs]. Qed.

Lemma same_covered V V' st off : same_stream V V' st -> covered V st off -> covered V' st off.
Proof. intros [Hs _] (a & r & n & Hr & Hd). exists a, r, n. by rewrite Hs. Qed.

Lemma same_no_tail V V' st : same_stream V V' st -> no_tail V' st <-> no_tail V st.
Proof. intros [Hs _]. unfold no_tail. by setoid_rewrite Hs. Qed.

Lemma advances_refl t : advances t t.
Proof. split; done || lia. Qed.

(** A history that grows keeps what is known. *)
Lemma known_mono tw tw' r :
  inv tw -> (forall st a r, tw.(hist) !! (st, a) = Some r -> a < end_of r -> exists r', tw'.(hist) !! (st, a) = Some r' /\ extends r r') ->
  known tw r -> (exists st a, rec_ok (akey st a) r) -> known tw' r.
Proof.
  intros Hi Hh Hk (st & a0 & Hok) a Ha He. destruct (Hk a Ha He) as (r1 & Hr1 & Hx). pose proof (inv_hist _ Hi _ _ _ Hr1) as Hok1.
  destruct (rec_attached _ _ _ Hok) as [ls Hl]. destruct (rec_attached _ _ _ Hok1) as [ls1 Hl1].
  destruct (Hh _ _ _ Hr1) as (r2 & Hr2 & Hx2); [|exists r2; split; [done|by eapply extends_trans]].
  assert (a0 = a) as -> by (pose proof (at_start _ _ _ _ Hl); congruence).
  destruct Hx as [_ _ (l & l1 & E & E1 & [k ->])]. pose proof (at_lengths _ _ _ _ Hl). pose proof (at_lengths _ _ _ _ Hl1).
  assert (l = ls) as -> by congruence. assert (ls1 = ls ++ k) as -> by congruence.
  pose proof (at_tile _ _ _ _ Hl). pose proof (at_tile _ _ _ _ Hl1). pose proof (at_ok _ _ _ _ Hl1) as [_ Hk1]%Forall_app.
  destruct (sums_nonneg k Hk1) as [? _]. rewrite lsum_app in *. lia.
Qed.

Lemma reader_expired d p q m tw :
  inv tw -> tw.(tenv).(clock) < d -> d + 1000 - skew <= q.(pin_expires) -> expired q tw.(tenv).(clock) ->
  tw.(tv).(pins) !! pkey p = Some (q, m) -> False.
Proof. intros Hi Hd Hq He _. unfold expired in He. pose proof skew_ok. lia. Qed.

Lemma local_step own st tw tw' : inv tw -> local_ok own st tw tw' -> inv tw' /\ step_ok own tw tw'.
Proof.
  intros Hi L. destruct L. assert (forall st0 a r, hist tw !! (st0, a) = Some r -> a < end_of r ->
    exists r', hist tw' !! (st0, a) = Some r' /\ extends r r') as Hext.
  { intros st0 a r Hr He. destruct (decide (st0 = st)) as [->|Hne]; [by apply lo_extend0|]. destruct (lo_other0 _ Hne) as [_ Hh].
    exists r. rewrite Hh. split; [done|]. eapply extends_refl, inv_hist; done. }
  split.
  - split; rewrite ?lo_env0.
    + pose proof (inv_rev _ Hi). lia.
    + intros k r m Hr. destruct (lo_recs0 _ _ _ Hr) as [Hok [->|Hold]]; (split; [done|]).
      * pose proof (inv_rev _ Hi). lia.
      * apply inv_recs in Hold as [_ ?]; [lia|done].
    + done.
    + apply Hi.
    + intros st0 a t n Ht. destruct (decide (st0 = st)) as [->|Hne].
      * destruct lo_tail0 as (a1 & t1 & n1 & Ht1 & Hs & _). by destruct (tail_unique _ _ _ _ _ _ _ _ Ht Ht1) as (-> & -> & ->).
      * destruct (lo_other0 _ Hne) as [Hsame Hh]. apply (same_tail _ _ _ _ _ _ Hsame) in Ht. destruct (inv_stream _ Hi _ _ _ _ Ht) as [S1 S2 S3 S4 S5].
        destruct Hsame as [Hs Hp]. split; [done|..].
        -- intros b r m. rewrite Hs. apply S2.
        -- intros b r m. rewrite Hs. apply S3.
        -- intros off Ho. eapply same_covered; [split; [exact Hs|exact Hp]|by apply S4].
        -- intros b r. rewrite Hh. apply S5.
    + intros st0 a r m. destruct (decide (st0 = st)) as [->|Hne]; [apply lo_current0|].
      destruct (lo_other0 _ Hne) as [[Hs _] Hh]. rewrite Hs, Hh. by apply inv_current.
    + intros st0 a r. destruct (decide (st0 = st)) as [->|Hne]; [apply lo_hist0|]. destruct (lo_other0 _ Hne) as [_ Hh]. rewrite Hh. by apply inv_hist.
    + intros st0 a b r r'. destruct (decide (st0 = st)) as [->|Hne]; [apply lo_disjoint0|].
      destruct (lo_other0 _ Hne) as [_ Hh]. rewrite !Hh. by apply inv_disjoint.
    + intros st0 a Hn. destruct (decide (st0 = st)) as [->|Hne].
      * destruct lo_tail0 as (a1 & t1 & n1 & [Ht1 _] & _). by rewrite Hn in Ht1.
      * destruct (lo_other0 _ Hne) as [Hsame Hh]. rewrite Hh. apply inv_none; [done|]. by apply (same_no_tail _ _ _ Hsame).
    + intros st0 id q m. destruct (decide (st0 = st)) as [->|Hne]; [apply lo_pinned0|].
      destruct (lo_other0 _ Hne) as [[Hs Hp] _]. rewrite Hp. intros Hq He. destruct (inv_pinned _ Hi _ _ _ _ Hq He) as [H1 H2]. split.
      * intros off Ho. eapply same_covered; [split; [exact Hs|exact Hp]|by apply H1].
      * intros b r m'. rewrite Hs. apply H2.
    + intros h p d Hh Hd. destruct (decide (pin_stream p = st)) as [E|Hne]; [by eapply lo_readers0|].
      destruct (lo_other0 _ Hne) as [[_ Hp] _]. destruct (inv_readers _ Hi _ _ _ Hh Hd) as (q & m & Hq & Hrest). exists q, m. by rewrite Hp.
    + intros h c s Hc Hs. destruct (inv_caches _ Hi _ _ _ Hc Hs) as [Hk (st0 & a & Hsn)]. split; [|by exists st0, a].
      eapply known_mono; [done|done|done|]. exists st0, a. apply Hsn.
  - split; rewrite ?lo_env0; try done; [lia|..].
    + intros k r m Hr Hm. destruct (lo_recs0 _ _ _ Hr) as [_ [->|?]]; [lia|done].
    + intros st0 a t n Ht. destruct (decide (st0 = st)) as [->|Hne]; [right; by eapply lo_fence0|left]. by destruct (lo_other0 _ Hne).
    + intros st0 a t n Ht. destruct (decide (st0 = st)) as [->|Hne].
      * destruct lo_tail0 as (a1 & t1 & n1 & Ht1 & _ & Hadv). exists a1, t1, n1. split; [done|]. by eapply Hadv.
      * destruct (lo_other0 _ Hne) as [Hsame _]. exists a, t, n. split; [by apply (same_tail _ _ _ _ _ _ Hsame)|]. split; [lia|apply advances_refl].
    + intros st0 a t n b r m Ht Hb. destruct (decide (st0 = st)) as [->|Hne]; [by eapply lo_below0|].
      destruct (lo_other0 _ Hne) as [[Hs _] _]. rewrite Hs. intros Hr. by exists r, m.
    + intros st0 Hn. destruct (decide (st0 = st)) as [->|Hne]; [right; by apply lo_init0|left].
      destruct (lo_other0 _ Hne) as [Hsame _]. by apply (same_no_tail _ _ _ Hsame).
    + intros st0 a t n b r Ht Hb. destruct (decide (st0 = st)) as [->|Hne]; [by eapply lo_old0|]. destruct (lo_other0 _ Hne) as [_ Hh]. by rewrite Hh.
    + intros st0 a r. destruct (decide (st0 = st)) as [->|Hne]; [apply lo_new0|left]. destruct (lo_other0 _ Hne) as [_ Hh]. by rewrite <- Hh.
    + intros [st0 id] Ho. destruct (decide (st0 = st)) as [->|Hne]; [by apply lo_step_pins0|left].
      destruct (lo_other0 _ Hne) as [[_ Hp] _]. by rewrite Hp.
Qed.

(** ** Fenced batches *)

Lemma core_refl r : same_core r r.
Proof. done. Qed.

Lemma core_trans r r' r'' : same_core r r' -> same_core r' r'' -> same_core r r''.
Proof. intros [] []. split; congruence. Qed.

Lemma core_sym r r' : same_core r r' -> same_core r' r.
Proof. intros []. split; congruence. Qed.

Lemma core_end r r' : same_core r r' -> end_of r' = end_of r.
Proof. intros []. unfold end_of. congruence. Qed.

(** A trimmed record that is marked, or that was marked and is removed. *)
Definition retires (tw : tworld) (V' : tstore) (st : StreamName) (t : StreamChunkRecord) (b : Z) : Prop :=
  exists r m, tw.(tv).(recs) !! akey st b = Some (r, m) /\ end_of r <= t.(trim_offset) /\
    (V'.(recs) !! akey st b = None /\ r.(state) = DeletingState \/
     V'.(recs) !! akey st b = Some (set_state r DeletingState, V'.(trev)) /\ r.(state) = SealedState /\
     forall id q m, V'.(pins) !! (st, id) = Some (q, m) ->
       expired q tw.(tenv).(clock) \/ q.(pin_active) <> Some r.(chunk_id) /\ ~ (q.(pin_begin) < end_of r /\ b < q.(pin_end))).

Definition pin_good (tw : tworld) (V' : tstore) (st : StreamName) (p : PinRecord) : Prop :=
  pin_ok p /\ p.(pin_expires) <= tw.(tenv).(clock) + skew + LEASE_MS /\
  (~ expired p tw.(tenv).(clock) ->
    (forall off, p.(pin_begin) <= off < p.(pin_end) -> covered V' st off) /\
    (forall b r m, V'.(recs) !! akey st b = Some (r, m) -> r.(state) = DeletingState ->
       p.(pin_active) = Some r.(chunk_id) -> end_of r <= p.(pin_begin))).

(** What a fenced batch does to its stream. *)
Record fenced (own : StreamName * bytes -> Prop) (st : StreamName) (tw : tworld) (V' : tstore) (a : Z) (t : StreamChunkRecord) : Prop := mkFenced {
  fe_rev : tw.(tv).(trev) < V'.(trev);
  fe_recs : forall k r m, V'.(recs) !! k = Some (r, m) -> rec_ok k r /\ (m = V'.(trev) \/ tw.(tv).(recs) !! k = Some (r, m));
  fe_other : forall st', st' <> st -> same_stream tw.(tv) V' st';
  fe_tail : V'.(recs) !! akey st a = Some (t, V'.(trev));
  fe_below : forall b, b <> a -> V'.(recs) !! akey st b = tw.(tv).(recs) !! akey st b \/ retires tw V' st t b;
  fe_pins : forall id, V'.(pins) !! (st, id) = tw.(tv).(pins) !! (st, id) \/
    (V'.(pins) !! (st, id) = None /\ forall q m, tw.(tv).(pins) !! (st, id) = Some (q, m) -> own (st, id) \/ expired q tw.(tenv).(clock)) \/
    exists p, V'.(pins) !! (st, id) = Some (p, V'.(trev)) /\ own (st, id) /\ pkey p = (st, id) /\ pin_good tw V' st p;
  fe_readers : forall h p d, tw.(tenv).(readers) !! h = Some (p, d) -> pin_stream p = st -> own (pkey p) -> tw.(tenv).(clock) < d ->
    exists q m, V'.(pins) !! pkey p = Some (q, m) /\ same_interval p q /\ d + 1000 - skew <= q.(pin_expires);
}.

Section fenced_ok.
Context (own : StreamName * bytes -> Prop) (st : StreamName) (tw : tworld) (V' : tstore) (a : Z) (t : StreamChunkRecord) (n : Z).
Context (Hi : inv tw) (Ht : is_tail tw.(tv) st a t n) (F : fenced own st tw V' a t).

Lemma fenced_old b r m : V'.(recs) !! akey st b = Some (r, m) -> b <> a ->
  exists r0 m0, tw.(tv).(recs) !! akey st b = Some (r0, m0) /\ (r = r0 \/ r = set_state r0 DeletingState /\ r0.(state) = SealedState /\
    end_of r0 <= t.(trim_offset)).
Proof using All.
  intros Hr Hb. destruct (fe_below _ _ _ _ _ _ F b Hb) as [E|(r0 & m0 & H0 & He & [[E _]|(E & Hs & _)])].
  - rewrite E in Hr. exists r, m. auto.
  - congruence.
  - rewrite Hr in E. injection E as -> ->. exists r0, m0. auto.
Qed.

Lemma fenced_cover off : covered tw.(tv) st off ->
  (forall b r m, tw.(tv).(recs) !! akey st b = Some (r, m) -> b <= off < end_of r ->
     V'.(recs) !! akey st b <> Some (set_state r DeletingState, V'.(trev)) \/ b = a) ->
  covered V' st off.
Proof using All.
  intros (b & r & m & Hr & Hd & Ho) Hno. destruct (decide (b = a)) as [->|Hb].
  - exists a, t, V'.(trev). destruct Ht as [Ht' _]. assert (r = t) as -> by congruence. split; [apply F|done].
  - destruct (fe_below _ _ _ _ _ _ F b Hb) as [E|(r0 & m0 & H0 & He & [[E Hx]|(E & Hs & _)])].
    + exists b, r, m. by rewrite E.
    + congruence.
    + assert (r0 = r) as -> by congruence. by destruct (Hno _ _ _ Hr Ho).
Qed.

Lemma fenced_stream : is_tail V' st a t V'.(trev) /\ stream_inv (mkTW V' tw.(hist) tw.(tenv)) st a t.
Proof using All.
  pose proof (inv_stream _ Hi _ _ _ _ Ht) as [S1 S2 S3 S4 S5]. split; [split|split]; cbn [tv hist].
  - apply F.
  - intros a' [r m] Hr. destruct (decide (a' = a)) as [->|Hne]; [done|]. destruct (fenced_old _ _ _ Hr Hne) as (r0 & m0 & H0 & _).
    by apply Ht in H0.
  - done.
  - intros b r m Hr Hb. destruct (fenced_old _ _ _ Hr Hb) as (r0 & m0 & H0 & [->|(-> & Hs & _)]); destruct (S2 _ _ _ H0 Hb) as [? ?]; [done|].
    split; [by right|done].
  - intros b r m Hr Hd. destruct (decide (b = a)) as [->|Hb].
    + pose proof (fe_tail _ _ _ _ _ _ F). assert (r = t) as -> by congruence. destruct S1; congruence.
    + destruct (fenced_old _ _ _ Hr Hb) as (r0 & m0 & H0 & [->|(-> & Hs & He)]); [by eapply S3|done].
  - intros off Ho. apply fenced_cover; [by apply S4|]. intros b r m Hr Hin. destruct (decide (b = a)) as [->|Hb]; [by right|left]. intros E.
    destruct (fenced_old _ _ _ E Hb) as (r0 & m0 & H0 & Hx). assert (r0 = r) as -> by congruence.
    destruct Hx as [Hx|(_ & _ & He)]; [|lia]. assert (state r = DeletingState) as Hd by (by rewrite <- Hx). pose proof (S3 _ _ _ H0 Hd). lia.
  - done.
Qed.

Lemma fenced_pinned id q m : V'.(pins) !! (st, id) = Some (q, m) -> ~ expired q tw.(tenv).(clock) ->
  (forall off, q.(pin_begin) <= off < q.(pin_end) -> covered V' st off) /\
  (forall b r m, V'.(recs) !! akey st b = Some (r, m) -> r.(state) = DeletingState ->
     q.(pin_active) = Some r.(chunk_id) -> end_of r <= q.(pin_begin)).
Proof using All.
  intros Hq He. destruct (fe_pins _ _ _ _ _ _ F id) as [E|[[E _]|(p & Hp & _ & _ & _ & _ & Hgood)]]; [|congruence|].
  2: { assert (p = q) as -> by congruence. by apply Hgood. }
  assert (forall b r m, tw.(tv).(recs) !! akey st b = Some (r, m) -> b <> a -> V'.(recs) !! akey st b = Some (set_state r DeletingState, V'.(trev)) ->
    r.(state) = DeletingState \/ q.(pin_active) <> Some r.(chunk_id) /\ ~ (q.(pin_begin) < end_of r /\ b < q.(pin_end))) as Hmark.
  { intros b r m' Hr Hb Hm. destruct (fe_below _ _ _ _ _ _ F b Hb) as [Eb|(r0 & m0 & H0 & _ & [[Eb _]|(Eb & Hs & Hfree)])].
    - left. rewrite Eb, Hr in Hm. injection Hm as Hm _. by rewrite Hm.
    - congruence.
    - right. assert (r0 = r) as -> by congruence. by destruct (Hfree _ _ _ Hq). }
  rewrite E in Hq. destruct (inv_pinned _ Hi _ _ _ _ Hq He) as [Hc Ha]. split.
  - intros off Ho. apply fenced_cover; [by apply Hc|]. intros b r m' Hr Hin. destruct (decide (b = a)) as [->|Hb]; [by right|left].
    intros Hm. destruct (Hmark _ _ _ Hr Hb Hm) as [Hd|[_ Hn]]; [|apply Hn; lia].
    destruct (Hc off Ho) as (b' & r' & m2 & Hr' & Hd' & Ho'). pose proof (inv_current _ Hi _ _ _ _ Hr) as (h1 & Hh1 & C1).
    pose proof (inv_current _ Hi _ _ _ _ Hr') as (h2 & Hh2 & C2). apply core_end in C1, C2.
    destruct (Z.lt_trichotomy b b') as [Hlt|[->|Hlt]]; [| |];
      [pose proof (inv_disjoint _ Hi _ _ _ _ _ Hh1 Hh2 Hlt); lia|congruence|pose proof (inv_disjoint _ Hi _ _ _ _ _ Hh2 Hh1 Hlt); lia].
  - intros b r m' Hr Hd Hact. destruct (decide (b = a)) as [->|Hb].
    + pose proof (fe_tail _ _ _ _ _ _ F). assert (r = t) as -> by congruence. pose proof (si_state _ _ _ _ (inv_stream _ Hi _ _ _ _ Ht)) as [?|?]; congruence.
    + destruct (fenced_old _ _ _ Hr Hb) as (r0 & m0 & H0 & [->|(-> & Hs & _)]); [by eapply Ha|].
      destruct (fe_below _ _ _ _ _ _ F b Hb) as [Eb|(r1 & m1 & H1 & _ & [[Eb _]|(Eb & _ & Hfree)])].
      * rewrite Eb, H0 in Hr. injection Hr as Hx _. rewrite Hx in Hs. done.
      * congruence.
      * assert (r1 = r0) as -> by congruence. rewrite <- E in Hq. destruct (Hfree _ _ _ Hq) as [?|[? _]]; done.
Qed.

Lemma fenced_ok : local_ok own st tw (mkTW V' tw.(hist) tw.(tenv)).
Proof using All.
  pose proof fenced_stream as [Htail Hstream]. split; cbn [tv hist tenv]; try done.
  - apply F.
  - apply F.
  - intros [st' id] q m Hq. destruct (decide (st' = st)) as [->|Hne].
    + destruct (fe_pins _ _ _ _ _ _ F id) as [E|[[E _]|(p & Hp & _ & Hk & Hgood)]]; [rewrite E in Hq; by eapply inv_pins|congruence|].
      assert (p = q) as -> by congruence. destruct Hgood as (? & ? & _). done.
    + destruct (fe_other _ _ _ _ _ _ F st' Hne) as [_ Hp]. rewrite Hp in Hq. by eapply inv_pins.
  - intros st' Hne. split; [by apply F|done].
  - exists a, t, V'.(trev). split; [done|]. split; [done|]. intros a0 t0 n0 H0. destruct (tail_unique _ _ _ _ _ _ _ _ Ht H0) as (-> & -> & _).
    split; [lia|apply advances_refl].
  - intros b r m Hr. destruct (decide (b = a)) as [->|Hb].
    + pose proof (fe_tail _ _ _ _ _ _ F). assert (r = t) as -> by congruence. eapply inv_current; [done|apply Ht].
    + destruct (fenced_old _ _ _ Hr Hb) as (r0 & m0 & H0 & Hx). destruct (inv_current _ Hi _ _ _ _ H0) as (r' & Hr' & Hc).
      exists r'. split; [done|]. destruct Hx as [->|(-> & _)]; [done|]. destruct Hc. by split.
  - by apply inv_hist.
  - by apply inv_disjoint.
  - apply fenced_pinned.
  - intros h p d Hh Hst Hd. destruct (inv_readers _ Hi _ _ _ Hh Hd) as (q & m & Hq & Hsame & He). rewrite Hst in Hq |- *.
    assert (pkey p = (st, pin_id p)) as Hk by (by rewrite Hst).
    destruct (fe_pins _ _ _ _ _ _ F (pin_id p)) as [E|[[E Hx]|(p' & _ & Ho & _)]].
    + exists q, m. by rewrite E.
    + destruct (Hx _ _ Hq) as [Ho|Hexp]; [rewrite <- Hk; eapply fe_readers; [done|done|done|by rewrite Hk|done]|].
      rewrite <- Hst in Hq. exfalso. by eapply reader_expired.
    + rewrite <- Hk. eapply fe_readers; [done|done|done|by rewrite Hk|done].
  - intros a0 t0 n0 H0 r Hr. destruct (tail_unique _ _ _ _ _ _ _ _ Ht H0) as (-> & -> & ->).
    pose proof (fe_tail _ _ _ _ _ _ F). pose proof (fe_rev _ _ _ _ _ _ F). destruct Ht as [Ht' _]. apply inv_recs in Ht' as [_ ?]; [|done].
    assert (n = V'.(trev)) by congruence. lia.
  - intros a0 t0 n0 b r m H0 Hb Hr. destruct (tail_unique _ _ _ _ _ _ _ _ Ht H0) as (-> & -> & ->).
    destruct (fenced_old _ _ _ Hr) as (r0 & m0 & Hr0 & Hx); [lia|]. exists r0, m0. split; [done|].
    destruct Hx as [->|(-> & _)]; done.
  - intros Hn. destruct Ht as [Ht' _]. by rewrite Hn in Ht'.
  - intros b r Hr _. exists r. split; [done|]. eapply extends_refl, inv_hist; done.
  - by left.
  - intros id Ho. destruct (fe_pins _ _ _ _ _ _ F id) as [E|[[E Hx]|(p' & _ & Ho' & _)]]; [by left| |done].
    right. split; [done|]. intros q m Hq. by destruct (Hx _ _ Hq).
Qed.

End fenced_ok.

(** ** Publications *)

Lemma extends_end st a r r' : rec_ok (akey st a) r -> rec_ok (akey st a) r' -> extends r r' -> end_of r <= end_of r'.
Proof.
  intros [ls Hl]%rec_attached [ls' Hl']%rec_attached [_ _ (l & l' & E & E' & [k ->])].
  pose proof (at_lengths _ _ _ _ Hl). pose proof (at_lengths _ _ _ _ Hl'). assert (l = ls) as -> by congruence. assert (ls' = ls ++ k) as -> by congruence.
  pose proof (at_tile _ _ _ _ Hl). pose proof (at_tile _ _ _ _ Hl'). pose proof (at_ok _ _ _ _ Hl') as [_ Hk]%Forall_app.
  destruct (sums_nonneg k Hk) as [? _]. rewrite lsum_app in *. lia.
Qed.

Lemma rec_range st a r : rec_ok (akey st a) r -> 0 <= a <= end_of r /\ r.(trim_offset) <= end_of r.
Proof. intros [ls Hl]%rec_attached. pose proof (at_range _ _ _ _ Hl). pose proof (at_trim _ _ _ _ Hl). lia. Qed.

Lemma core_extends r h r' : same_core r h -> extends r r' -> extends h r'.
Proof. intros [] [? ? (ls & ls' & ? & ? & ?)]. split; [congruence..|]. exists ls, ls'. split; [congruence|done]. Qed.

(** What a publication changes: the records at the old tail's start and at the
    new tail's start; [old] is what the old tail's key then holds. *)
Record published (st : StreamName) (tw : tworld) (V' : tstore) (a c : Z) (t old new : StreamChunkRecord) : Prop := mkPublished {
  pu_rev : tw.(tv).(trev) < V'.(trev);
  pu_recs : forall k r m, V'.(recs) !! k = Some (r, m) -> rec_ok k r /\ (m = V'.(trev) \/ tw.(tv).(recs) !! k = Some (r, m));
  pu_other : forall st', st' <> st -> same_stream tw.(tv) V' st';
  pu_pins : forall id, V'.(pins) !! (st, id) = tw.(tv).(pins) !! (st, id);
  pu_tail : V'.(recs) !! akey st c = Some (new, V'.(trev));
  pu_old : a < c -> V'.(recs) !! akey st a = Some (old, V'.(trev));
  pu_rest : forall b, b <> a -> b <> c -> V'.(recs) !! akey st b = tw.(tv).(recs) !! akey st b;
  pu_state : new.(state) = ActiveState \/ new.(state) = SealedState;
  pu_advances : advances t new;
  pu_extends : a < end_of t -> extends t old;
  pu_kind : a = c /\ (old = new \/ end_of t = a) \/ a < c /\ old.(state) = SealedState /\ end_of old = c;
}.

Section published_ok.
Context (own : StreamName * bytes -> Prop) (st : StreamName) (tw : tworld) (V' : tstore) (a c n : Z) (t old new : StreamChunkRecord).
Context (Hi : inv tw) (Ht : is_tail tw.(tv) st a t n) (P : published st tw V' a c t old new).

Definition published_hist : gmap (StreamName * Z) StreamChunkRecord :=
  <[(st, c) := new]> (if decide (a < c) then <[(st, a) := old]> tw.(hist) else tw.(hist)).

Lemma published_le : a <= c.
Proof using All. destruct (pu_kind _ _ _ _ _ _ _ _ P) as [[? _]|[? _]]; lia. Qed.

Lemma published_rec b r m : V'.(recs) !! akey st b = Some (r, m) ->
  b = c /\ r = new \/ b = a /\ a < c /\ r = old \/ b <> a /\ b < a /\ tw.(tv).(recs) !! akey st b = Some (r, m).
Proof using All.
  intros Hr. pose proof published_le. destruct (decide (b = c)) as [->|Hc].
  { left. pose proof (pu_tail _ _ _ _ _ _ _ _ P). split; congruence. }
  destruct (decide (b = a)) as [->|Ha].
  { right; left. split; [done|]. assert (a < c) as Hlt by lia. pose proof (pu_old _ _ _ _ _ _ _ _ P Hlt). split; congruence. }
  right; right. rewrite (pu_rest _ _ _ _ _ _ _ _ P) in Hr by done. destruct Ht as [_ Hmax]. pose proof (Hmax _ _ Hr).
  split; [done|]. split; [lia|done].
Qed.

Lemma published_hist_at b : published_hist !! (st, b) =
  if decide (b = c) then Some new else if decide (b = a /\ a < c) then Some old else tw.(hist) !! (st, b).
Proof using All.
  unfold published_hist. destruct (decide (b = c)) as [->|Hc]; [by rewrite lookup_insert_eq|]. rewrite lookup_insert_ne by congruence.
  destruct (decide (a < c)).
  - destruct (decide (b = a /\ a < c)) as [[-> _]|Hn]; [by rewrite lookup_insert_eq|]. rewrite lookup_insert_ne; [done|]. intros [= ->]. by apply Hn.
  - destruct (decide (b = a /\ a < c)) as [[_ ?]|_]; [lia|done].
Qed.

Lemma published_other st' b : st' <> st -> published_hist !! (st', b) = tw.(hist) !! (st', b).
Proof using All. intros Hne. unfold published_hist. destruct (decide (a < c)); rewrite !lookup_insert_ne by congruence; done. Qed.

Lemma published_oks : rec_ok (akey st c) new /\ (a < c -> rec_ok (akey st a) old) /\ rec_ok (akey st a) t.
Proof using All.
  split; [by eapply pu_recs, P|]. split; [intros Hlt; by eapply pu_recs, P|]. destruct Ht as [Ht' _]. by eapply inv_recs.
Qed.

(** The records of the history lie below the old tail's end. *)
Lemma published_below b r : tw.(hist) !! (st, b) = Some r -> b <= a /\ (b < a -> end_of r <= a) /\ (b = a -> end_of r = end_of t).
Proof using All.
  intros Hr. pose proof (si_last _ _ _ _ (inv_stream _ Hi _ _ _ _ Ht) _ _ Hr) as Hle. destruct Ht as [Ht' _].
  destruct (inv_current _ Hi _ _ _ _ Ht') as (h & Hh & Hc). split; [done|]. split.
  - intros Hlt. by eapply inv_disjoint.
  - intros ->. assert (h = r) as -> by congruence. by apply core_end.
Qed.

Lemma published_cover off : covered tw.(tv) st off -> covered V' st off.
Proof using All.
  intros (b & r & m & Hr & Hd & Ho). pose proof published_le. pose proof published_oks as (Hn & Hold & Hto).
  destruct (decide (b = a)) as [->|Hb].
  - destruct Ht as [Ht' _]. assert (r = t) as -> by congruence. destruct (pu_kind _ _ _ _ _ _ _ _ P) as [[-> Hk]|(Hlt & Hs & He)].
    + exists c, new, V'.(trev). split; [apply P|]. split; [destruct (pu_state _ _ _ _ _ _ _ _ P); congruence|].
      destruct (pu_advances _ _ _ _ _ _ _ _ P). lia.
    + exists a, old, V'.(trev). split; [by apply P|]. split; [congruence|].
      pose proof (extends_end st a t old Hto (Hold Hlt) (pu_extends _ _ _ _ _ _ _ _ P ltac:(lia))). lia.
  - exists b, r, m. destruct Ht as [_ Hmax]. pose proof (Hmax _ _ Hr). rewrite (pu_rest _ _ _ _ _ _ _ _ P) by (done || lia). done.
Qed.

Lemma published_tail : is_tail V' st c new V'.(trev).
Proof using All.
  split; [apply P|]. intros b [r m] Hr. pose proof published_le. apply published_rec in Hr as [[-> _]|[(-> & _)|(_ & ? & _)]]; lia.
Qed.

Lemma published_stream : stream_inv (mkTW V' published_hist tw.(tenv)) st c new.
Proof using All.
  pose proof (inv_stream _ Hi _ _ _ _ Ht) as [S1 S2 S3 S4 S5]. pose proof published_le. pose proof published_oks as (Hn & Hold & Hto).
  pose proof (rec_range _ _ _ Hto). pose proof (rec_range _ _ _ Hn). pose proof (pu_advances _ _ _ _ _ _ _ _ P) as [A1 A2 _ _ _].
  split; cbn [tv hist].
  - apply P.
  - intros b r m Hr Hb. apply published_rec in Hr as [[-> _]|[(-> & Hlt & ->)|(Hne & Hlt & Hr)]]; [done| |by eapply S2].
    destruct (pu_kind _ _ _ _ _ _ _ _ P) as [[? _]|(_ & Hs & He)]; [lia|]. split; [by left|lia].
  - intros b r m Hr Hd. apply published_rec in Hr as [[-> ->]|[(-> & Hlt & ->)|(Hne & Hlt & Hr)]].
    + destruct (pu_state _ _ _ _ _ _ _ _ P); congruence.
    + destruct (pu_kind _ _ _ _ _ _ _ _ P) as [[? _]|(_ & Hs & He)]; [lia|congruence].
    + pose proof (S3 _ _ _ Hr Hd). lia.
  - intros off Ho. destruct (decide (off < end_of t)) as [Hlt|Hge]; [apply published_cover, S4; lia|].
    destruct (decide (c <= off)).
    + exists c, new, V'.(trev). split; [apply P|]. split; [destruct (pu_state _ _ _ _ _ _ _ _ P); congruence|lia].
    + destruct (pu_kind _ _ _ _ _ _ _ _ P) as [[? _]|(Hac & Hs & He)]; [lia|].
      exists a, old, V'.(trev). split; [by apply P|]. split; [congruence|lia].
  - intros b r Hr. rewrite published_hist_at in Hr. destruct (decide (b = c)); [lia|]. destruct (decide (b = a /\ a < c)) as [[-> ?]|_]; [lia|].
    pose proof (S5 _ _ Hr). lia.
Qed.

Lemma published_ok : local_ok own st tw (mkTW V' published_hist tw.(tenv)).
Proof using All.
  pose proof published_le as Hac0. pose proof published_oks as (Hn & Hold & Hto). pose proof published_below as Hbelow.
  split; cbn [tv hist tenv]; try done.
  - apply P.
  - apply P.
  - intros [st' id] q m Hq. destruct (decide (st' = st)) as [->|Hne].
    + rewrite (pu_pins _ _ _ _ _ _ _ _ P) in Hq. by eapply inv_pins.
    + destruct (pu_other _ _ _ _ _ _ _ _ P st' Hne) as [_ Hp]. rewrite Hp in Hq. by eapply inv_pins.
  - intros st' Hne. split; [by apply P|]. intros b. by apply published_other.
  - exists c, new, V'.(trev). split; [apply published_tail|]. split; [apply published_stream|]. intros a0 t0 n0 Hz.
    destruct (tail_unique _ _ _ _ _ _ _ _ Ht Hz) as (-> & -> & _). split; [done|apply P].
  - intros b r m Hr. rewrite published_hist_at. apply published_rec in Hr as [[-> ->]|[(-> & Hlt & ->)|(Hne & Hlt & Hr)]].
    + rewrite decide_True by done. by exists new.
    + rewrite decide_False by lia. rewrite decide_True by done. by exists old.
    + rewrite decide_False by lia. rewrite decide_False by lia. by eapply inv_current.
  - intros b r. rewrite published_hist_at. destruct (decide (b = c)) as [->|]; [by intros [= <-]|].
    destruct (decide (b = a /\ a < c)) as [[-> ?]|_]; [intros [= <-]; auto|by apply inv_hist].
  - intros b d r r'. rewrite !published_hist_at. intros Hb Hd Hlt.
    destruct (decide (d = c)) as [->|Hdc].
    { rewrite decide_False in Hb by lia. destruct (decide (b = a /\ a < c)) as [[-> Hac]|Hn'].
      - injection Hb as <-. destruct (pu_kind _ _ _ _ _ _ _ _ P) as [[? _]|(_ & _ & He)]; lia.
      - destruct (Hbelow _ _ Hb) as (? & ? & ?). destruct (decide (b < a)); [lia|]. assert (b = a) by lia. exfalso. apply Hn'. lia. }
    destruct (decide (d = a /\ a < c)) as [[-> Hac]|Hn'].
    { rewrite decide_False in Hb by lia. rewrite decide_False in Hb by lia. destruct (Hbelow _ _ Hb) as (? & ? & ?). lia. }
    destruct (Hbelow _ _ Hd) as (? & _). rewrite decide_False in Hb by lia. rewrite decide_False in Hb by lia. by eapply inv_disjoint.
  - intros id q m Hq He. rewrite (pu_pins _ _ _ _ _ _ _ _ P) in Hq. destruct (inv_pinned _ Hi _ _ _ _ Hq He) as [H1 H2]. split.
    + intros off Ho. by apply published_cover, H1.
    + intros b r m' Hr Hd. apply published_rec in Hr as [[-> ->]|[(-> & Hlt & ->)|(Hne & Hlt & Hr)]]; [| |by eapply H2].
      * destruct (pu_state _ _ _ _ _ _ _ _ P); congruence.
      * destruct (pu_kind _ _ _ _ _ _ _ _ P) as [[? _]|(_ & ? & _)]; [lia|congruence].
  - intros h p d Hh Hst Hd. destruct (inv_readers _ Hi _ _ _ Hh Hd) as (q & m & Hq & Hrest). exists q, m.
    rewrite Hst in Hq |- *. by rewrite (pu_pins _ _ _ _ _ _ _ _ P).
  - intros a0 t0 n0 Hz r Hr. destruct (tail_unique _ _ _ _ _ _ _ _ Ht Hz) as (-> & -> & ->). pose proof (pu_rev _ _ _ _ _ _ _ _ P).
    destruct Ht as [Ht' _]. pose proof (inv_recs _ Hi _ _ _ Ht') as [_ ?]. destruct (decide (a < c)) as [Hlt|Hge].
    + pose proof (pu_old _ _ _ _ _ _ _ _ P Hlt). assert (n = V'.(trev)) by congruence. lia.
    + assert (c = a) as -> by lia. pose proof (pu_tail _ _ _ _ _ _ _ _ P). assert (n = V'.(trev)) by congruence. lia.
  - intros a0 t0 n0 b r m Hz Hb Hr. destruct (tail_unique _ _ _ _ _ _ _ _ Ht Hz) as (-> & -> & ->).
    apply published_rec in Hr as [[-> _]|[(-> & _)|(_ & _ & Hr)]]; [lia|lia|by exists r, m].
  - intros Hno. destruct Ht as [Ht' _]. by rewrite Hno in Ht'.
  - intros b r Hr He. rewrite published_hist_at. destruct (Hbelow _ _ Hr) as (Hle & Hb1 & Hb2). pose proof (inv_hist _ Hi _ _ _ Hr) as Hro.
    destruct (decide (b = a)) as [->|Hba].
    + rewrite Hb2 in He by done. pose proof (pu_extends _ _ _ _ _ _ _ _ P He) as Hx. destruct Ht as [Ht' _].
      destruct (inv_current _ Hi _ _ _ _ Ht') as (h & Hh & Hc). assert (h = r) as -> by congruence. pose proof (core_extends _ _ _ Hc Hx) as Hx'.
      destruct (pu_kind _ _ _ _ _ _ _ _ P) as [[-> [->|?]]|(Hlt & _)]; [rewrite decide_True by done; by exists new|lia|].
      rewrite decide_False by lia. rewrite decide_True by done. by exists old.
    + rewrite decide_False by lia. rewrite decide_False by lia. exists r. split; [done|]. by eapply extends_refl.
  - intros a0 t0 n0 b r Hz Hb Hr. destruct (tail_unique _ _ _ _ _ _ _ _ Ht Hz) as (-> & -> & ->). rewrite published_hist_at.
    rewrite decide_False by lia. by rewrite decide_False by lia.
  - intros b r. rewrite published_hist_at. destruct (decide (b = c)) as [->|]; [intros [= <-]; right; eexists new, _; split; [apply P|done]|].
    destruct (decide (b = a /\ a < c)) as [[-> Hlt]|_]; [intros [= <-]; right; eexists old, _; split; [by apply P|done]|by left].
  - intros id _. left. by rewrite (pu_pins _ _ _ _ _ _ _ _ P).
Qed.

End published_ok.

(** The first attachment of a stream. *)
Lemma first_ok own st tw V' new :
  inv tw -> no_tail tw.(tv) st -> tw.(tv).(trev) < V'.(trev) ->
  (forall k r m, V'.(recs) !! k = Some (r, m) -> rec_ok k r /\ (m = V'.(trev) \/ tw.(tv).(recs) !! k = Some (r, m))) ->
  (forall st', st' <> st -> same_stream tw.(tv) V' st') -> (forall id, V'.(pins) !! (st, id) = tw.(tv).(pins) !! (st, id)) ->
  V'.(recs) !! akey st 0 = Some (new, V'.(trev)) -> (forall b, b <> 0 -> V'.(recs) !! akey st b = None) -> V'.(recs) !! ckey st 0 = None ->
  (new.(state) = ActiveState \/ new.(state) = SealedState) -> end_of new = 0 -> new.(trim_offset) = 0 ->
  local_ok own st tw (mkTW V' (<[(st, 0) := new]> tw.(hist)) tw.(tenv)).
Proof.
  intros Hi Hno Hrev Hrecs Hother Hpins Htail Hrest Hcand Hst He Htrim.
  assert (forall b r, <[(st, 0) := new]> tw.(hist) !! (st, b) = Some r -> b = 0 /\ r = new) as Hh.
  { intros b r [[[= <-] <-]|[_ Hr]]%lookup_insert_Some; [done|]. by rewrite (inv_none _ Hi) in Hr. }
  assert (forall b r m, V'.(recs) !! akey st b = Some (r, m) -> b = 0 /\ r = new) as Hat.
  { intros b r m Hr. destruct (decide (b = 0)) as [->|Hb]; [split; congruence|]. by rewrite Hrest in Hr. }
  assert (is_tail V' st 0 new V'.(trev)) as Htl by (split; [done|]; intros b [r m] [-> _]%Hat; lia).
  assert (forall off, covered tw.(tv) st off -> covered V' st off) as Hcov by (intros off (b & r & m & Hr & _); by rewrite Hno in Hr).
  assert (rec_ok (akey st 0) new) as Hok by (by apply Hrecs in Htail as [? _]).
  split; cbn [tv hist tenv]; try done.
  - intros [st' id] q m Hq. destruct (decide (st' = st)) as [->|Hne]; [rewrite Hpins in Hq|destruct (Hother st' Hne) as [_ Hp]; rewrite Hp in Hq];
      by eapply inv_pins.
  - intros st' Hne. split; [by apply Hother|]. intros b. by rewrite lookup_insert_ne by congruence.
  - exists 0, new, V'.(trev). split; [done|]. split; [|intros a0 t0 n0 [Ht0 _]; by rewrite Hno in Ht0]. split; cbn [tv hist]; [done|..].
    + by intros b r m [-> _]%Hat.
    + intros b r m [-> ->]%Hat Hd. destruct Hst; congruence.
    + intros off. lia.
    + intros b r [-> _]%Hh. lia.
  - intros b r m [-> ->]%Hat. exists new. by rewrite lookup_insert_eq.
  - by intros b r [-> ->]%Hh.
  - intros b d r r' [-> _]%Hh [-> _]%Hh. lia.
  - intros id q m Hq Hexp. rewrite Hpins in Hq. destruct (inv_pinned _ Hi _ _ _ _ Hq Hexp) as [H1 _]. split; [auto|].
    intros b r m' [-> ->]%Hat Hd. destruct Hst; congruence.
  - intros h p d Hr Hps Hd. destruct (inv_readers _ Hi _ _ _ Hr Hd) as (q & m & Hq & Hrest'). exists q, m. rewrite Hps in Hq |- *. by rewrite Hpins.
  - intros a0 t0 n0 [Ht0 _]. by rewrite Hno in Ht0.
  - intros a0 t0 n0 b r m [Ht0 _]. by rewrite Hno in Ht0.
  - intros b r Hr. by rewrite (inv_none _ Hi) in Hr.
  - intros a0 t0 n0 b r [Ht0 _]. by rewrite Hno in Ht0.
  - intros b r [-> ->]%Hh. right. by eexists new, _.
  - intros id _. left. by rewrite Hpins.
Qed.

(** A batch that changes candidates only. *)
Lemma candidates_ok own tw V' :
  inv tw -> tw.(tv).(trev) < V'.(trev) ->
  (forall k r m, V'.(recs) !! k = Some (r, m) -> rec_ok k r /\ (m = V'.(trev) \/ tw.(tv).(recs) !! k = Some (r, m))) ->
  (forall st, same_stream tw.(tv) V' st) -> inv (mkTW V' tw.(hist) tw.(tenv)) /\ step_ok own tw (mkTW V' tw.(hist) tw.(tenv)).
Proof.
  intros Hi Hrev Hrecs Hs. assert (forall st a, V'.(recs) !! akey st a = tw.(tv).(recs) !! akey st a) as Ha by (intros st; apply Hs).
  assert (forall k, V'.(pins) !! k = tw.(tv).(pins) !! k) as Hp by (intros [st id]; apply Hs).
  assert (forall st a t n, is_tail V' st a t n <-> is_tail tw.(tv) st a t n) as Htl by (intros st a t n; symmetry; by apply same_tail).
  assert (forall st off, covered tw.(tv) st off -> covered V' st off) as Hcov by (intros st off; by apply same_covered).
  split; split; cbn [tv hist tenv]; try (setoid_rewrite Hp); try (apply Hi); try done; try lia.
  - pose proof (inv_rev _ Hi). lia.
  - intros k r m Hr. destruct (Hrecs _ _ _ Hr) as [Hok [->|Hold]]; (split; [done|]); [pose proof (inv_rev _ Hi); lia|].
    apply inv_recs in Hold as [_ ?]; [lia|done].
  - intros st a t n Ht%Htl. destruct (inv_stream _ Hi _ _ _ _ Ht) as [S1 S2 S3 S4 S5]. split; cbn [tv hist]; try setoid_rewrite Ha; auto.
  - setoid_rewrite Ha. apply Hi.
  - intros st a Hn. apply (inv_none _ Hi). by apply (same_no_tail _ _ _ (Hs st)).
  - intros st id q m Hq He. destruct (inv_pinned _ Hi _ _ _ _ Hq He) as [H1 H2]. setoid_rewrite Ha. split; [auto|done].
  - intros k r m Hr Hm. destruct (Hrecs _ _ _ Hr) as [_ [->|?]]; [lia|done].
  - left. apply Hs.
  - intros st a t n Ht. exists a, t, n. rewrite Htl. split; [done|]. split; [lia|apply advances_refl].
  - intros st a t n b r m Ht Hb. rewrite Ha. intros Hr. by exists r, m.
  - intros st Hn. left. by apply (same_no_tail _ _ _ (Hs st)).
  - intros st a r Hr _. exists r. split; [done|]. eapply extends_refl, inv_hist; done.
  - by left.
  - by left.
Qed.

End steps.

End StreamSteps.
