(* ===== verification/StreamRules.v ===== *)
(** * Rely-guarantee rules for programs

    [wp own p Q tw]: started in [tw], the program [p] of an actor that owns the
    pins [own] makes only steps that keep the invariant and that the others may
    rely on, whatever the others do between its calls; where it returns, [Q]
    holds of its result.  The rules below derive it for the calls the operations
    are made of. *)

From stdpp Require Import prelude gmap list list_numbers strings countable relations.
From Stdlib Require Import ZArith Lia.
From S2P Require Import Prelude Roles Bytes WalRecord KeyEncoding ChunkSlots BinaryKeys Frame FrameGeometry StreamMappings StreamChunk StreamStore StreamView StreamLogic StreamSteps.

Module StreamRules.
Import KeyEncoding ChunkSlots BinaryKeys Frame FrameGeometry StreamMappings StreamChunk StreamStore StreamView StreamLogic StreamSteps.

(** The pins an actor owns. *)
Definition owner := StreamName * bytes -> Prop.
Definition nobody : owner := fun _ => False.

Definition set_readers (tw : tworld) (f : gmap nat (PinRecord * Z)) : tworld :=
  mkTW tw.(tv) tw.(hist) (mkEnv tw.(tenv).(clock) tw.(tenv).(caches) f).

(** One call of a program: the replies are the same, the rest by induction. *)
Ltac wp_walk imp Hi Hw :=
  first
  [ solve [auto]
  | solve [intros; eapply imp; [exact Hi|eapply Hw; eassumption|auto]]
  | solve [intros ? ? ? ? Hr Hb; destruct (Hw _ _ _ _ Hr Hb) as (tw' & ? & ? & Hi' & ? & Hk); exists tw';
           repeat (split; [assumption|]); eapply imp; [exact Hi'|exact Hk|auto]]
  | solve [intros ? ? Hx; destruct (Hw _ _ Hx) as (Hi' & ? & Hk); repeat (split; [assumption|]); eapply imp; [exact Hi'|exact Hk|auto]]
  | solve [intros ? Hx; destruct (Hw _ Hx) as (Hi' & ? & ? & Hk); repeat (split; [assumption|]); eapply imp; [exact Hi'|exact Hk|auto]]
  | solve [destruct Hw as (? & ? & Hk); repeat (split; [assumption|]);
           first [eapply imp; [exact Hi|exact Hk|auto] | eapply imp; [eassumption|exact Hk|auto]]]
  | solve [destruct Hw as [? Hk]; split; [assumption|]; intros x; eapply imp; [exact Hi|exact (Hk x)|auto]] ].

Section rules.
Context (upd : Z -> bytes -> Z) `{!Crc32c upd} `{BincodeLaws} `{PinJsonLaws} `{Skew}.

(** The record at an offset, with the chunk that holds it, is marked as deleting
    or gone, and lies below the trim offset. *)
Definition reclaim_at (st : StreamName) (b : Z) (id : ChunkId) (stop : Z) (tw : tworld) : Prop :=
  exists r a t n, tw.(hist) !! (st, b) = Some r /\ r.(chunk_id) = id /\ end_of r = stop /\
    (forall r' m, tw.(tv).(recs) !! akey st b = Some (r', m) -> r'.(state) = DeletingState) /\
    is_tail tw.(tv) st a t n /\ b < a /\ stop <= t.(trim_offset).

Definition reclaimable (tw : tworld) (id : ChunkId) (stop : Z) : Prop := exists st b, reclaim_at st b id stop tw.

(** What a cached snapshot shows. *)
Definition cached (tw : tworld) (id : StreamName) (off : Z) (x : option StreamChunkRecordSnapshot) : Prop :=
  match x with
  | Some s => known tw s.(ss_record) /\ (exists st a, snap_of (akey st a) s) /\ s.(ss_record).(stream_id) = id /\
      opt_le s.(ss_record).(logical_start) off = true /\ opt_gt s.(ss_record).(logical_end) off = true
  | None => True
  end.

(** A reply of the backend to a read. *)
Definition answers {A} (x : result A Error) (a : A) : Prop := match x with Ok y => y = a | Err _ => True end.

(** Any number of steps of the others. *)
Definition relys (own : owner) : tworld -> tworld -> Prop := rtc (fun tw tw' => inv tw' /\ rely own tw tw').

Definition always (own : owner) (P : assertion) : assertion := fun tw => forall tw', relys own tw tw' -> P tw'.

Lemma relys_inv own tw tw' : inv tw -> relys own tw tw' -> inv tw'.
Proof. intros Hi. induction 1 as [|tw tw1 tw' [Hi1 _] _ IH]; [done|]. by apply IH. Qed.

Lemma stable_always own P tw : stable own P -> inv tw -> P tw -> always own P tw.
Proof.
  intros HP Hi Hp tw' Hr. revert Hi Hp. induction Hr as [|tw tw1 tw' [Hi1 Hr1] _ IH]; intros Hi Hp; [done|].
  apply IH; [done|]. exact (HP _ _ Hi Hi1 Hr1 Hp).
Qed.

Lemma relys_keep own (P : assertion) tw tw' : relys own tw tw' -> inv tw -> stable own P -> P tw -> P tw'.
Proof. intros Hr Hi HP Hp. by eapply stable_always. Qed.

Lemma always_here own P tw : always own P tw -> P tw.
Proof. intros HP. apply HP. apply rtc_refl. Qed.

Lemma step_refl own tw : inv tw -> step_ok own tw tw.
Proof.
  intros Hi. split; try done; try lia.
  - by left.
  - intros st a t m Ht. exists a, t, m. split; [done|]. split; [lia|apply advances_refl].
  - intros st a t m b r m' _ _ Hr. by exists r, m'.
  - by left.
  - intros st a r Hr _. exists r. split; [done|]. eapply extends_refl, inv_hist; done.
  - by left.
  - by left.
Qed.

Section wp.
Context (child : owner -> nat -> PinRecord -> assertion).

Fixpoint wp {A} (own : owner) (p : prog A) (Q : A -> assertion) (tw : tworld) {struct p} : Prop :=
  match p with
  | Ret a => Q a tw
  | Get key k => forall s x, repr upd s tw.(tv) -> answers x (get s key) -> always own (wp own (k x) Q) tw
  | Scan prefix after limit reverse k =>
      forall s x, repr upd s tw.(tv) -> answers x (scan s prefix after limit reverse) -> always own (wp own (k x) Q) tw
  | Batch ops guard expected k =>
      forall s s' x fault, repr upd s tw.(tv) -> batch s ops guard expected fault = (s', x) ->
        exists tw', repr upd s' tw'.(tv) /\ tw'.(tenv) = tw.(tenv) /\ inv tw' /\ step_ok own tw tw' /\ always own (wp own (k x) Q) tw'
  | Find id off k => forall x, cached tw id off x -> always own (wp own (k x) Q) tw
  | Insert s k => known tw s.(ss_record) /\ (exists st a, snap_of (akey st a) s) /\ always own (wp own k Q) tw
  | NowMs k => forall x, 0 <= x -> Z.abs (x - tw.(tenv).(clock)) <= skew -> always own (wp own (k x) Q) tw
  | InstantNow k => always own (wp own (k tw.(tenv).(clock)) Q) tw
  | LoadDeadline h k => forall p x, tw.(tenv).(readers) !! h = Some (p, x) -> always own (wp own (k x) Q) tw
  | StoreDeadline h d k => forall p d0, tw.(tenv).(readers) !! h = Some (p, d0) ->
      let tw' := set_readers tw (<[h := (p, d)]> tw.(tenv).(readers)) in
      inv tw' /\ step_ok own tw tw' /\ always own (wp own k Q) tw'
  | NewPin pin d k => forall h, tw.(tenv).(readers) !! h = None ->
      let tw' := set_readers tw (<[h := (pin, d)]> tw.(tenv).(readers)) in
      inv tw' /\ step_ok own tw tw' /\ child own h pin tw' /\ always nobody (wp nobody (k h) Q) tw'
  | DropPin h k =>
      let tw' := set_readers tw (delete h tw.(tenv).(readers)) in
      inv tw' /\ step_ok own tw tw' /\ always own (wp own k Q) tw'
  | ReleaseTrimmed id stop physical k => reclaimable tw id stop /\ forall x, always own (wp own (k x) Q) tw
  end.

Lemma always_impl own (P P' : assertion) tw :
  inv tw -> always own P tw -> (forall tw', inv tw' -> P tw' -> P' tw') -> always own P' tw.
Proof. intros Hi HP Himp tw' Hr. apply Himp; [by eapply relys_inv|]. by apply HP. Qed.

Lemma wp_mono {A} own (p : prog A) (Q Q' : A -> assertion) tw :
  inv tw -> wp own p Q tw -> (forall a tw', inv tw' -> Q a tw' -> Q' a tw') -> wp own p Q' tw.
Proof.
  revert own tw. induction p as [a|key k IH|pre aft lim rv k IH|ops g n k IH|id off k IH|s k IH|k IH|k IH|h k IH|h d k IH|pin d k IH|h k IH|id e ph k IH];
    intros own tw Hi Hw HQ; cbn [wp] in *; wp_walk always_impl Hi Hw.
Qed.

Lemma wp_map {A B} own (p : prog A) (g : A -> B) (Q : B -> assertion) tw :
  inv tw -> wp own p (fun a => Q (g a)) tw -> wp own (bind p (fun a => Ret (g a))) Q tw.
Proof.
  revert own tw. induction p as [a|key k IH|pre aft lim rv k IH|ops gd n k IH|id off k IH|s k IH|k IH|k IH|h k IH|h d k IH|pin d k IH|h k IH|id e ph k IH];
    intros own tw Hi Hw; cbn [wp bind] in *; wp_walk always_impl Hi Hw.
Qed.

End wp.

(** Programs that spawn no task. *)
Definition no_child : owner -> nat -> PinRecord -> assertion := fun _ _ _ _ => False.

Section bind.
Context (child : owner -> nat -> PinRecord -> assertion).

Lemma new_pin_absurd tw : exists h, tw.(tenv).(readers) !! h = None.
Proof. exists (fresh (dom tw.(tenv).(readers))). apply not_elem_of_dom, is_fresh. Qed.

Lemma wp_bind {A B} own (p : prog A) (f : A -> prog B) (Q : B -> assertion) tw :
  inv tw -> wp no_child own p (fun a tw' => inv tw' -> wp child own (f a) Q tw') tw -> wp child own (bind p f) Q tw.
Proof.
  revert tw. induction p as [a|key k IH|pre aft lim rv k IH|ops gd n k IH|id off k IH|s k IH|k IH|k IH|h k IH|h d k IH|pin d k IH|h k IH|id e ph k IH];
    intros tw Hi Hw; cbn [wp bind] in *; try wp_walk always_impl Hi Hw.
  destruct (new_pin_absurd tw) as [h Hh]. by destruct (Hw h Hh) as (_ & _ & [] & _).
Qed.

Lemma wp_ret {A} own (a : A) (Q : A -> assertion) tw : Q a tw -> wp child own (Ret a) Q tw.
Proof. done. Qed.

Lemma wp_try {A B} own (p : task A) (f : A -> task B) (Q : result B StreamError -> assertion) tw :
  inv tw -> wp no_child own p (fun r tw' => inv tw' -> match r with Ok a => wp child own (f a) Q tw' | Err e => Q (Err e) tw' end) tw ->
  wp child own (try p f) Q tw.
Proof.
  intros Hi Hp. unfold try. apply wp_bind; [done|]. eapply wp_mono; [done|exact Hp|]. intros [a|e] tw' Hi' Hw; [done|]. cbn [wp]. auto.
Qed.

Lemma wp_lift {A B} own (r : result A StreamError) (f : A -> task B) (Q : result B StreamError -> assertion) tw :
  match r with Ok a => wp child own (f a) Q tw | Err e => Q (Err e) tw end -> wp child own (try (lift r) f) Q tw.
Proof. unfold try, lift. cbn [bind]. by destruct r. Qed.

Lemma wp_child {A} own (p : prog A) Q tw : inv tw -> wp no_child own p Q tw -> wp child own p Q tw.
Proof.
  revert tw. induction p as [a|key k IH|pre aft lim rv k IH|ops gd n k IH|id off k IH|s k IH|k IH|k IH|h k IH|h d k IH|pin d k IH|h k IH|id e ph k IH];
    intros tw Hi Hw; cbn [wp] in *; try wp_walk always_impl Hi Hw.
  destruct (new_pin_absurd tw) as [h Hh]. by destruct (Hw h Hh) as (_ & _ & [] & _).
Qed.

(** ** Reads *)

Lemma wp_kv_get own key (Q : result (option MemoryRecord) StreamError -> assertion) tw :
  (forall s, repr upd s tw.(tv) -> always own (Q (Ok (get s key))) tw) -> (forall e, always own (Q (Err e)) tw) ->
  wp child own (kv_get key) Q tw.
Proof. intros Hok He. unfold kv_get. cbn [wp]. intros s [x|e] Hr Ha; cbn [wp stored]; [rewrite Ha; by apply Hok|apply He]. Qed.

Lemma wp_kv_scan own prefix after limit reverse (Q : result ScanOutcome StreamError -> assertion) tw :
  (forall s, repr upd s tw.(tv) -> always own (Q (Ok (scan s prefix after limit reverse))) tw) -> (forall e, always own (Q (Err e)) tw) ->
  wp child own (kv_scan prefix after limit reverse) Q tw.
Proof. intros Hok He. unfold kv_scan. cbn [wp]. intros s [x|e] Hr Ha; cbn [wp stored]; [rewrite Ha; by apply Hok|apply He]. Qed.

(** ** Batches *)

Lemma batch_cases s ops guard n fault s' x :
  batch s ops guard n fault = (s', x) ->
  (s' = s /\ exists e, x = Err e) \/
  (match get s guard with Some r => r.(revision) | None => 0 end = n /\
   s' = mkState (apply_ops s.(metadata_records) (s.(metadata_revision) + 1) ops) (s.(metadata_revision) + 1) /\
   (x = Ok (s.(metadata_revision) + 1) \/ x = Err OutcomeUnknown)).
Proof.
  unfold batch. destruct (negb _); [intros [= <- <-]; eauto|]. set (cur := match get s guard with Some r => _ | None => 0 end).
  assert (forall y, (let current := cur in if negb (current =? n) then (s, Err (CasFailed current)) else
    match checked_add (metadata_revision s) 1 with
    | None => (s, Err (OtherError "test metadata revision overflows"))
    | Some next => (mkState (apply_ops (metadata_records s) next ops) next, y next)
    end) = (s', x) -> (y (metadata_revision s + 1) = Ok (metadata_revision s + 1) \/ y (metadata_revision s + 1) = Err OutcomeUnknown) ->
    s' = s /\ (exists e, x = Err e) \/ cur = n /\
    s' = mkState (apply_ops s.(metadata_records) (s.(metadata_revision) + 1) ops) (s.(metadata_revision) + 1) /\
    (x = Ok (s.(metadata_revision) + 1) \/ x = Err OutcomeUnknown)) as Hmain.
  { intros y. cbv zeta. destruct (Z.eqb_spec cur n) as [->|]; cbn [negb]; [|intros [= <- <-]; eauto]. unfold checked_add.
    destruct (_ <=? _); [|intros [= <- <-]; eauto]. intros E Hy. right. split; [done|].
    assert (x = y (metadata_revision s + 1)) as -> by congruence. split; [congruence|done]. }
  destruct fault; [|intros [= <- <-]; eauto|]; intros E;
    [apply (Hmain (fun next => Ok next)); [done|by left]|apply (Hmain (fun _ => Err OutcomeUnknown)); [done|by right]].
Qed.

(** A batch under a guarded key: what it does to the typed store where the
    guard's revision is the expected one. *)
Lemma wp_kv_batch own ops ts k n (Q : result Z Error -> assertion) tw :
  inv tw -> Forall2 (op_repr upd) ops ts -> skey_ok k -> (forall e, always own (Q (Err e)) tw) ->
  ((n = 0 /\ tw.(tv).(recs) !! k = None \/ exists r, tw.(tv).(recs) !! k = Some (r, n)) ->
     exists h', let tw' := mkTW (tapply_all tw.(tv) (tw.(tv).(trev) + 1) ts) h' tw.(tenv) in
       inv tw' /\ step_ok own tw tw' /\ always own (Q (Ok (tw.(tv).(trev) + 1))) tw' /\ always own (Q (Err OutcomeUnknown)) tw') ->
  wp child own (kv_batch ops (to_bytes k) n) Q tw.
Proof.
  intros Hi Hops Hk He Hstep. unfold kv_batch. cbn [wp]. intros s s' x fault Hr Hb.
  apply batch_cases in Hb as [[-> [e ->]]|(Hcur & -> & Hx)].
  { exists tw. do 3 (split; [done|]). split; [by apply step_refl|apply He]. }
  pose proof (repr_rev _ _ _ Hr) as Hrev. destruct Hstep as (h' & Hi' & Hs' & HQ & HQe).
  { destruct (get_rec upd s _ k Hr Hk) as [[Hn Hg]|(r & m & b & Hn & _ & _ & Hg & _)]; rewrite Hg in Hcur; [left; done|right].
    cbn in Hcur. subst m. by exists r. }
  exists (mkTW (tapply_all tw.(tv) (tw.(tv).(trev) + 1) ts) h' tw.(tenv)). split; [cbn [tv]; rewrite Hrev; by apply repr_batch|].
  do 3 (split; [done|]). rewrite <- Hrev in Hx. by destruct Hx as [->| ->].
Qed.

End bind.

End rules.

End StreamRules.
