(* ===== verification/StreamOps.v ===== *)
(** * The operations are safe

    For every operation of the record store: whatever other operations do
    between its calls, and whatever replies are lost, its batches keep the
    invariant, and what it returns was true of the store.  A snapshot of a tail
    is worth the right to change the stream as long as the tail's revision
    stands: every change of the stream rewrites its tail. *)

From stdpp Require Import prelude gmap list list_numbers strings countable.
From Stdlib Require Import ZArith Lia.
From S2P Require Import Prelude Roles Bytes WalRecord KeyEncoding ChunkSlots BinaryKeys Frame FrameGeometry StreamMappings StreamChunk StreamStore StreamView StreamLogic StreamSteps StreamRules.

Module StreamOps.
Import KeyEncoding ChunkSlots BinaryKeys Frame FrameGeometry StreamMappings StreamChunk StreamStore StreamView StreamLogic StreamSteps StreamRules.

(** ** Typed batches *)

Definition top_stream (t : top) : StreamName :=
  match t with TPut k _ => k.(scrk_stream_id) | TDel k => k.(scrk_stream_id) | TPin p => p.(pin_stream) | TUnpin p => p.(pin_stream) end.

Definition touches_rec (k : StreamChunkRecordKey) (t : top) : Prop :=
  match t with TPut k' _ => k' = k | TDel k' => k' = k | _ => False end.

Definition touches_pin (k : StreamName * bytes) (t : top) : Prop :=
  match t with TPin p => pkey p = k | TUnpin p => pkey p = k | _ => False end.

Lemma tapply_recs V next ts k r m :
  (tapply_all V next ts).(recs) !! k = Some (r, m) -> m = next /\ TPut k r ∈ ts \/ V.(recs) !! k = Some (r, m).
Proof.
  unfold tapply_all. cbn [recs]. revert V. induction ts as [|t ts IH]; intros V; cbn [foldl]; [by right|]. intros Hr.
  apply IH in Hr as [[-> Hin]|Hr]; [left; split; [done|by right]|]. destruct t; cbn [tapply recs] in Hr; auto.
  - apply lookup_insert_Some in Hr as [[-> [= -> ->]]|[_ Hr]]; [left; split; [done|by left]|auto].
  - apply lookup_delete_Some in Hr as [_ Hr]. auto.
Qed.

Lemma tapply_rec_same V next ts k : (forall t, t ∈ ts -> ~ touches_rec k t) -> (tapply_all V next ts).(recs) !! k = V.(recs) !! k.
Proof.
  unfold tapply_all. cbn [recs]. revert V. induction ts as [|t ts IH]; intros V Hn; cbn [foldl]; [done|].
  rewrite IH by (intros; apply Hn; by right). assert (~ touches_rec k t) as Ht by (apply Hn; by left).
  destruct t; cbn [tapply recs touches_rec] in *; [by rewrite lookup_insert_ne|by rewrite lookup_delete_ne|done|done].
Qed.

Lemma tapply_pin_same V next ts k : (forall t, t ∈ ts -> ~ touches_pin k t) -> (tapply_all V next ts).(pins) !! k = V.(pins) !! k.
Proof.
  unfold tapply_all. cbn [pins]. revert V. induction ts as [|t ts IH]; intros V Hn; cbn [foldl]; [done|].
  rewrite IH by (intros; apply Hn; by right). assert (~ touches_pin k t) as Ht by (apply Hn; by left).
  destruct t; cbn [tapply pins touches_pin] in *; [done|done|by rewrite lookup_insert_ne|by rewrite lookup_delete_ne].
Qed.

Lemma tapply_snoc V next ts t : tapply_all V next (ts ++ [t]) = let V' := tapply next (tapply_all V next ts) t in mkT V'.(recs) V'.(pins) next.
Proof. unfold tapply_all. rewrite foldl_app. cbn [foldl]. by destruct t. Qed.

Lemma tapply_other V next ts st st' :
  (forall t, t ∈ ts -> top_stream t = st) -> st' <> st -> same_stream V (tapply_all V next ts) st'.
Proof.
  intros Hs Hne. split.
  - intros a. apply tapply_rec_same. intros t Ht Htouch. apply Hs in Ht. destruct t; cbn in *; try done; subst k; cbn in Ht; congruence.
  - intros id. apply tapply_pin_same. intros t Ht Htouch. apply Hs in Ht. destruct t; cbn in *; try done; congruence.
Qed.

Section ops.
Context (upd : Z -> bytes -> Z) `{!Crc32c upd} `{BincodeLaws} `{PinJsonLaws} `{Skew}.

Lemma ops_recs V ops ts next :
  Forall2 (op_repr upd) ops ts -> (forall k r m, V.(recs) !! k = Some (r, m) -> rec_ok k r) ->
  forall k r m, (tapply_all V next ts).(recs) !! k = Some (r, m) ->
    rec_ok k r /\ (m = (tapply_all V next ts).(trev) \/ V.(recs) !! k = Some (r, m)).
Proof.
  intros Hops HV k r m Hr. apply tapply_recs in Hr as [[-> Hin]|Hr]; [|split; [by eapply HV|by right]]. split; [|by left].
  apply list_elem_of_lookup in Hin as [i Hi]. destruct (Forall2_lookup_r _ _ _ _ _ Hops Hi) as (op & _ & Hop). apply Hop.
Qed.

(** ** Snapshots *)

(** The record was stored at this revision. *)
Definition rec_snap (k : StreamChunkRecordKey) (s : StreamChunkRecordSnapshot) : assertion := fun tw =>
  snap_of k s /\ 0 < s.(ss_revision) <= tw.(tv).(trev) /\ known tw s.(ss_record) /\
  forall r, tw.(tv).(recs) !! k = Some (r, s.(ss_revision)) -> r = s.(ss_record).

(** The record was the tail at this revision; while the revision stands, it is. *)
Definition tail_snap (st : StreamName) (a : Z) (s : StreamChunkRecordSnapshot) : assertion := fun tw =>
  rec_snap (akey st a) s tw /\
  (forall r, tw.(tv).(recs) !! akey st a = Some (r, s.(ss_revision)) -> is_tail tw.(tv) st a s.(ss_record) s.(ss_revision)) /\
  exists a' t' n', is_tail tw.(tv) st a' t' n' /\ a <= a' /\ advances s.(ss_record) t'.

Definition current (st : StreamName) (a : Z) (s : StreamChunkRecordSnapshot) (tw : tworld) : Prop :=
  exists r, tw.(tv).(recs) !! akey st a = Some (r, s.(ss_revision)).

(** What holds as long as the tail's revision stands. *)
Definition holding (st : StreamName) (a : Z) (s : StreamChunkRecordSnapshot) (phi : tworld -> Prop) : assertion := fun tw =>
  tail_snap st a s tw /\ (current st a s tw -> phi tw).

Lemma known_stable own r : (exists st a, rec_ok (akey st a) r) -> stable own (fun tw => known tw r).
Proof. intros Hok tw tw' Hi Hi' Hr Hk. exact (known_mono _ _ _ Hi (st_hist _ _ _ Hr) Hk Hok). Qed.

Lemma candidate_known tw st n s : snap_of (ckey st n) s -> known tw s.(ss_record).
Proof.
  intros [Hok _] a Ha _. pose proof (rec_ok_key _ _ Hok) as (_ & _ & Hst & _). destruct Hok as (Ht & _ & ix & Hv).
  destruct (validate_candidate _ _ Ht Hv Hst). congruence.
Qed.

Lemma rec_snap_stable own k s : stable own (rec_snap k s).
Proof.
  intros tw tw' Hi Hi' Hr (Hs & Hn & Hk & Hu). split; [done|]. split; [pose proof (st_rev _ _ _ Hr); lia|]. split.
  - destruct k as [st [a|n]]; [|by eapply candidate_known]. refine (known_stable own _ _ _ _ Hi Hi' Hr Hk). exists st, a. apply Hs.
  - intros r Hrec. apply Hu. exact (st_fresh _ _ _ Hr _ _ _ Hrec ltac:(lia)).
Qed.

Lemma advances_trans t t' t'' : advances t t' -> advances t' t'' -> advances t t''.
Proof. intros [] []. split; try lia. auto. Qed.

Lemma tail_snap_stable own st a s : stable own (tail_snap st a s).
Proof.
  intros tw tw' Hi Hi' Hr (Hs & Ht & a' & t' & n' & Ht' & Ha & Hadv). pose proof (rec_snap_stable own (akey st a) s _ _ Hi Hi' Hr Hs) as Hs'.
  split; [done|]. split.
  - intros r Hrec. destruct Hs as (_ & Hn & _). pose proof (st_fresh _ _ _ Hr _ _ _ Hrec ltac:(lia)) as Hold. pose proof (Ht _ Hold) as Htail.
    destruct (st_fence _ _ _ Hr _ _ _ _ Htail) as [Hsame|Hno]; [by apply (same_tail _ _ _ _ _ _ Hsame)|by apply Hno in Hrec].
  - destruct (st_tail _ _ _ Hr _ _ _ _ Ht') as (a2 & t2 & n2 & Ht2 & Ha2 & Hadv2). exists a2, t2, n2. split; [done|]. split; [lia|].
    by eapply advances_trans.
Qed.

Lemma holding_stable own st a s phi :
  (forall tw tw', inv tw -> inv tw' -> same_stream tw.(tv) tw'.(tv) st -> tw.(tenv).(clock) <= tw'.(tenv).(clock) -> phi tw -> phi tw') ->
  stable own (holding st a s phi).
Proof.
  intros Hphi tw tw' Hi Hi' Hr [Hs Hp]. split; [exact (tail_snap_stable own st a s _ _ Hi Hi' Hr Hs)|]. intros [r Hrec].
  destruct Hs as ((_ & Hn & _) & Ht & _). pose proof (st_fresh _ _ _ Hr _ _ _ Hrec ltac:(lia)) as Hold. pose proof (Ht _ Hold) as Htail.
  destruct (st_fence _ _ _ Hr _ _ _ _ Htail) as [Hsame|Hno]; [|by apply Hno in Hrec].
  eapply Hphi; [exact Hi|exact Hi'|exact Hsame|exact (st_clock _ _ _ Hr)|]. apply Hp. by exists r.
Qed.

Lemma recs_known tw st a r n : inv tw -> tw.(tv).(recs) !! akey st a = Some (r, n) -> known tw r.
Proof.
  intros Hi Hr a' Ha' He. pose proof (inv_recs _ Hi _ _ _ Hr) as [Hok _]. pose proof (rec_ok_key _ _ Hok) as (_ & Hst & _ & Hs).
  cbn in Hst, Hs. assert (a' = a) as -> by congruence. destruct (inv_current _ Hi _ _ _ _ Hr) as (h & Hh & [C1 C2 C3 C4 C5]).
  rewrite Hst. exists h. split; [done|]. destruct (rec_attached _ _ _ Hok) as [ls Hl]. split; [done|done|].
  exists ls, ls. pose proof (at_lengths _ _ _ _ Hl). split; [done|]. split; [congruence|done].
Qed.

(** ** Loading *)

Abbreviation wp := (wp upd no_child).

Lemma load_tail_wp own (P N : assertion) st tw :
  inv tw -> stable own P -> stable own N -> name_ok st -> P tw -> (no_tail tw.(tv) st -> N tw) ->
  wp own (load_tail upd st)
    (fun r tw => P tw /\ match r with Ok (Some s) => exists a, tail_snap st a s tw | Ok None => N tw | Err _ => True end) tw.
Proof.
  intros Hi HP HN Hst Hp Hnone. unfold load_tail. apply wp_try; [done|]. apply wp_kv_scan.
  2: { intros e tw' Hrel _. split; [by eapply relys_keep|done]. }
  intros s Hr tw' Hrel Hi'. pose proof (relys_keep _ _ _ _ Hrel Hi HP Hp) as Hp'.
  destruct (tail_scan upd s _ st Hr Hst) as [[Hn ->]|(a & r & n & b & t & Ht & Hok & Hb & ->)].
  { cbn. split; [done|]. eapply relys_keep; [done|done|done|]. by apply Hnone. }
  cbn [items commit_slots zip_with]. change (len [(to_bytes (akey st a), b)]) with 1. change (len [n]) with 1. cbn [Z.ltb Z.eqb Z.compare Pos.compare Pos.compare_cont Pos.eqb orb negb].
  pose proof (inv_recs _ Hi _ _ _ (proj1 Ht)) as [_ Hpos]. destruct (decode_ok upd _ _ _ n Hok Hb) as (sn & Hd & Hsn & <- & <-); [lia|].
  cbn [scrk_stream_id] in Hd. rewrite Hd. cbn [result_bind]. apply wp_ret. split; [done|]. exists a. eapply relys_keep; [done|done|apply tail_snap_stable|].
  split; [split; [done|]|].
  - split; [done|]. split; [exact (recs_known _ _ _ _ _ Hi (proj1 Ht))|]. intros r' Hr'. destruct Ht as [Ht _]. congruence.
  - split; [done|]. exists a, (ss_record sn), (ss_revision sn). split; [done|]. split; [lia|apply advances_refl].
Qed.

Lemma load_key_wp own (P : assertion) k tw :
  inv tw -> stable own P -> skey_ok k -> P tw ->
  wp own (load_key upd k) (fun r tw => P tw /\ match r with Ok (Some s) => rec_snap k s tw | _ => True end) tw.
Proof.
  intros Hi HP Hk Hp. unfold load_key. apply wp_try; [done|]. apply wp_kv_get.
  2: { intros e tw' Hrel _. split; [by eapply relys_keep|done]. }
  intros s Hr tw' Hrel Hi'. pose proof (relys_keep _ _ _ _ Hrel Hi HP Hp) as Hp'.
  destruct (get_rec upd s _ k Hr Hk) as [[Hn ->]|(r & n & b & Hn & Hok & Hb & -> & Hpos)]; [done|]. cbn [value revision].
  destruct (decode_ok upd _ _ _ n Hok Hb) as (sn & Hd & Hsn & <- & <-); [lia|]. rewrite Hd. cbn [result_bind]. apply wp_ret. split; [done|].
  eapply relys_keep; [done|done|apply rec_snap_stable|]. split; [done|]. split; [done|]. split; [|intros r' Hr'; congruence].
  destruct k as [st [a|c]]; [by eapply recs_known|by eapply candidate_known].
Qed.

(** ** Fenced batches *)

Lemma put_repr r op : typed r -> put upd r = Ok op -> exists k, rec_ok k r /\ op_repr upd op (TPut k r).
Proof.
  intros Ht. unfold put. destruct (record_key r) as [k|] eqn:Ek; [|done]. cbn [result_bind].
  destruct (encode_stream_chunk_record upd r) as [b|[w]] eqn:Eb; [|done]. cbn [codec result_bind]. intros Ho.
  assert (op = Put (to_bytes k) b) as -> by congruence. exists k.
  assert (rec_ok k r) as Hok by (apply encode_inv in Eb as (ix & _ & Hv & _); split; [done|]; split; [done|by exists ix]).
  split; [done|]. split; [done|]. by exists b.
Qed.

Lemma put_err r e : put upd r = Err e -> exists w, e = Corruption w.
Proof.
  unfold put, record_key, codec, corrupt. destruct (bool_decide _); [|destruct (logical_start r)]; cbn [result_bind];
    [| |intros [= <-]; eauto]; destruct (encode_stream_chunk_record upd r) as [b|[w]]; cbn [result_bind]; intros [= <-]; eauto.
Qed.

(** A fact about a stream that others' work on other streams and the clock keep. *)
Definition of_stream (st : StreamName) (phi : tworld -> Prop) : Prop :=
  forall tw tw', inv tw -> inv tw' -> same_stream tw.(tv) tw'.(tv) st -> tw.(tenv).(clock) <= tw'.(tenv).(clock) -> phi tw -> phi tw'.

Definition fence_result (P Q : assertion) (r : result unit StreamError) : assertion := fun tw =>
  match r with
  | Ok _ => Q tw
  | Err WriteStalled => P tw \/ Q tw
  | Err _ => P tw
  end.

Section fenced.
Context (own : owner) (st : StreamName) (a : Z) (s : StreamChunkRecordSnapshot) (P Q : assertion) (ts : list top).
Context (HP : stable own P) (HQ : stable own Q) (HPt : forall tw, P tw -> tail_snap st a s tw).
Context (Hstep : forall tw, inv tw -> is_tail tw.(tv) st a s.(ss_record) s.(ss_revision) -> P tw ->
  let V' := tapply_all tw.(tv) (tw.(tv).(trev) + 1) (ts ++ [TPut (akey st a) s.(ss_record)]) in
  fenced own st tw V' a s.(ss_record) /\ Q (mkTW V' tw.(hist) tw.(tenv))).

Lemma fenced_loop_wp ops attempts tw :
  inv tw -> Forall2 (op_repr upd) ops (ts ++ [TPut (akey st a) s.(ss_record)]) -> P tw ->
  wp own (fenced_loop attempts ops s.(ss_key) s.(ss_revision)) (fence_result P Q) tw.
Proof using All.
  revert tw. induction attempts as [|n IH]; intros tw Hi Hops Hh; cbn [fenced_loop]; [exact Hh|].
  pose proof (HPt _ Hh) as ((Hsn & Hrev & _) & Ht & _). pose proof Hsn as (Hok & Hkey & _). apply wp_bind; [done|]. rewrite Hkey.
  apply (wp_kv_batch upd no_child own ops (ts ++ [TPut (akey st a) s.(ss_record)])); [done|done|by apply rec_ok_key in Hok as [? _]| |].
  - intros e tw' Hrel Hi'. pose proof (relys_keep _ _ _ _ Hrel Hi HP Hh) as Hh'. rewrite <- Hkey. destruct e; [exact Hh'|by apply IH|by left|exact Hh'].
  - intros [[E _]|[r Hr]]; [lia|]. pose proof (Ht _ Hr) as Htl. destruct (Hstep tw Hi Htl Hh) as [Hf HQ'].
    destruct (local_step own st tw _ Hi (fenced_ok own st tw _ a (ss_record s) (ss_revision s) Hi Htl Hf)) as [Hi' Hs'].
    exists tw.(hist). split; [done|]. split; [done|]. split; intros tw' Hrel Hi2; [|right]; exact (relys_keep _ _ _ _ Hrel Hi' HQ HQ').
Qed.

Lemma fenced_wp ops tw :
  inv tw -> Forall2 (op_repr upd) ops ts -> P tw -> wp own (fenced_batch upd s ops) (fence_result P Q) tw.
Proof using All.
  intros Hi Hops Hh. pose proof (HPt _ Hh) as ((Hsn & _) & _). pose proof Hsn as (Hok & _). pose proof Hok as (Hty & Hkey & _). unfold fenced_batch.
  apply wp_lift. destruct (put upd (ss_record s)) as [op|e] eqn:Ep; [|apply put_err in Ep as [w ->]; exact Hh].
  apply put_repr in Ep as (k & Hk & Hop); [|done]. assert (k = akey st a) as -> by (destruct Hk as (_ & Hk & _); congruence).
  apply fenced_loop_wp; [done| |done]. apply Forall2_app; [done|]. by constructor.
Qed.

End fenced.

(** A fenced batch from its operations. *)
Lemma fenced_intro own st tw a t n ops ts :
  inv tw -> is_tail tw.(tv) st a t n -> Forall2 (op_repr upd) ops ts -> (forall x, x ∈ ts -> top_stream x = st) ->
  let V' := tapply_all tw.(tv) (tw.(tv).(trev) + 1) (ts ++ [TPut (akey st a) t]) in
  let V1 := tapply_all tw.(tv) (tw.(tv).(trev) + 1) ts in
  (forall b, b <> a -> V1.(recs) !! akey st b = tw.(tv).(recs) !! akey st b \/ retires tw V' st t b) ->
  (forall id, V1.(pins) !! (st, id) = tw.(tv).(pins) !! (st, id) \/
    (V1.(pins) !! (st, id) = None /\ forall q m, tw.(tv).(pins) !! (st, id) = Some (q, m) -> own (st, id) \/ expired q tw.(tenv).(clock)) \/
    exists p, V1.(pins) !! (st, id) = Some (p, V'.(trev)) /\ own (st, id) /\ pkey p = (st, id) /\ pin_good tw V' st p) ->
  (forall h p d, tw.(tenv).(readers) !! h = Some (p, d) -> pin_stream p = st -> own (pkey p) -> tw.(tenv).(clock) < d ->
    exists q m, V1.(pins) !! pkey p = Some (q, m) /\ same_interval p q /\ d + 1000 - skew <= q.(pin_expires)) ->
  fenced own st tw V' a t.
Proof.
  intros Hi Ht Hops Hstr V' V1 Hbelow Hpins Hread. pose proof (inv_recs _ Hi _ _ _ (proj1 Ht)) as [Hok _].
  assert (forall k, k <> akey st a -> V'.(recs) !! k = V1.(recs) !! k) as Hne.
  { intros k Hk. unfold V'. rewrite tapply_snoc. cbn. by rewrite lookup_insert_ne. }
  assert (V'.(pins) = V1.(pins)) as Hp by (unfold V'; rewrite tapply_snoc; reflexivity).
  split.
  - cbn. lia.
  - intros k r m Hr. destruct (decide (k = akey st a)) as [->|Hk].
    + unfold V' in Hr. rewrite tapply_snoc in Hr. cbn in Hr. rewrite lookup_insert_eq in Hr. injection Hr as <- <-. split; [done|by left].
    + rewrite Hne in Hr by done. change (trev V') with (trev V1). eapply ops_recs; [done| |done]. intros k' r' m' Hr'. by eapply inv_recs.
  - intros st' Hst. apply (tapply_other _ _ _ st); [|done]. intros x [Hx|Hx%list_elem_of_singleton]%elem_of_app; [by apply Hstr|by subst x].
  - unfold V'. rewrite tapply_snoc. cbn. by rewrite lookup_insert_eq.
  - intros b Hb. rewrite Hne by congruence. by apply Hbelow.
  - rewrite Hp. exact Hpins.
  - rewrite Hp. exact Hread.
Qed.

Lemma owned_readers own st tw : inv tw -> forall h p d, tw.(tenv).(readers) !! h = Some (p, d) -> pin_stream p = st -> own (pkey p) ->
  tw.(tenv).(clock) < d -> exists q m, tw.(tv).(pins) !! pkey p = Some (q, m) /\ same_interval p q /\ d + 1000 - skew <= q.(pin_expires).
Proof. intros Hi h p d Hh _ _ Hd. by eapply inv_readers. Qed.

(** ** Candidates *)

Definition on_candidates (st : StreamName) (t : top) : Prop := exists c, (exists r, t = TPut (ckey st c) r) \/ t = TDel (ckey st c).

Lemma fenced_candidates own st tw a t n ops ts :
  inv tw -> is_tail tw.(tv) st a t n -> Forall2 (op_repr upd) ops ts -> (forall x, x ∈ ts -> on_candidates st x) ->
  fenced own st tw (tapply_all tw.(tv) (tw.(tv).(trev) + 1) (ts ++ [TPut (akey st a) t])) a t.
Proof.
  intros Hi Ht Hops Hc. assert (forall id, (tapply_all tw.(tv) (tw.(tv).(trev) + 1) ts).(pins) !! id = tw.(tv).(pins) !! id) as Hp.
  { intros id. apply tapply_pin_same. intros x Hx. destruct (Hc x Hx) as [c [[r ->]| ->]]; by intros []. }
  eapply fenced_intro; [done|done|done|..].
  - intros x Hx. by destruct (Hc x Hx) as [c [[r ->]| ->]].
  - intros b Hb. left. apply tapply_rec_same. intros x Hx. destruct (Hc x Hx) as [c [[r ->]| ->]]; by intros [=].
  - intros id. left. apply Hp.
  - setoid_rewrite Hp. by apply owned_readers.
Qed.

Definition truth : assertion := fun _ => True.
Lemma truth_stable own : stable own truth.
Proof. done. Qed.

Lemma typed_name r : typed r -> name_ok (stream_id r).
Proof. intros (? & ? & _). done. Qed.

Lemma register_candidate_wp own c tw :
  inv tw -> typed c ->
  wp own (register_candidate upd c)
    (fun r tw => match r with Ok s => rec_snap (ckey (stream_id c) (sequence c)) s tw | Err _ => True end) tw.
Proof.
  intros Hi Hc. unfold register_candidate. destruct (bool_decide_reflect (state c = CandidateState)) as [Hst|]; cbn [negb]; [|done].
  assert (skey_ok (ckey (stream_id c) (sequence c))) as Hk by (destruct Hc as (? & ? & _ & _ & _ & _ & ? & _); done).
  apply wp_lift. destruct (codec (validate c)) as [ix|]; [|done]. apply wp_try; [done|].
  eapply wp_mono; [done|apply (load_tail_wp own truth truth (stream_id c)); try done; by apply typed_name|].
  intros [[tl|]|e] tw1 Hi1 [_ Ht] _; [|done|done]. destruct Ht as [a Ht]. destruct (_ || _); [done|]. apply wp_try; [done|].
  eapply wp_mono; [done|apply (load_key_wp own (tail_snap (stream_id c) a tl)); try done; apply tail_snap_stable|].
  intros [[cur|]|e] tw2 Hi2 [Ht2 Hr] _; [cbn; by destruct (bool_decide _)| |done]. apply wp_lift.
  destruct (put upd c) as [op|e] eqn:Ep; [|done]. apply put_repr in Ep as (k & Hok & Hop); [|done].
  assert (k = ckey (stream_id c) (sequence c)) as -> by (destruct Hok as (_ & Hok & _); unfold record_key in Hok; rewrite bool_decide_eq_true_2 in Hok by done; congruence).
  apply wp_try; [done|]. eapply wp_mono; [done|apply (fenced_wp own (stream_id c) a tl (tail_snap (stream_id c) a tl) truth [TPut (ckey (stream_id c) (sequence c)) c]); try done|].
  - apply tail_snap_stable.
  - intros tw3 Hi3 Htl _. split; [|done]. eapply fenced_candidates; [done|done|by constructor|].
    intros x ->%list_elem_of_singleton. eexists. left. by eexists.
  - by constructor.
  - intros [u|e] tw3 Hi3 _ _; [|done]. apply wp_try; [done|]. eapply wp_mono; [done|by apply (load_key_wp own truth)|].
    intros [[cur|]|e] tw4 Hi4 [_ Hc4] _; done.
Qed.

Lemma remove_loop_wp own attempts st n chunk tw :
  inv tw -> skey_ok (ckey st n) -> wp own (remove_loop upd attempts st (ckey st n) chunk) (fun _ _ => True) tw.
Proof.
  revert tw. induction attempts as [|m IH]; intros tw Hi Hk; cbn [remove_loop]; [done|]. apply wp_try; [done|].
  eapply wp_mono; [done|apply (load_tail_wp own truth truth st); try done; apply Hk|].
  intros [[tl|]|e] tw1 Hi1 [_ Ht] _; [|done|done]. destruct Ht as [a Ht]. apply wp_try; [done|].
  eapply wp_mono; [done|apply (load_key_wp own (tail_snap st a tl)); try done; apply tail_snap_stable|].
  intros [[cur|]|e] tw2 Hi2 [Ht2 _] _; [|done|done]. destruct (negb _); [done|]. apply wp_bind; [done|].
  eapply wp_mono; [done|apply (fenced_wp own st a tl (tail_snap st a tl) truth [TDel (ckey st n)]); try done|].
  - apply tail_snap_stable.
  - intros tw3 Hi3 Htl _. split; [|done]. eapply (fenced_candidates own st tw3 a _ _ [Delete (to_bytes (ckey st n))]); [done|done|by constructor|].
    intros x ->%list_elem_of_singleton. eexists. by right.
  - by constructor.
  - intros [u|[]] tw3 Hi3 _ _; try done; by apply IH.
Qed.

Lemma candidates_wp own st tw :
  inv tw -> name_ok st ->
  wp own (candidates upd st) (fun r tw => match r with Ok ss => forall c, c ∈ ss -> exists n, rec_snap (ckey st n) c tw | Err _ => True end) tw.
Proof.
  intros Hi Hst. unfold candidates. apply wp_try; [done|]. apply wp_kv_scan; [|done]. intros s Hr tw' Hrel Hi'. destruct (_ || _); [done|].
  unfold lift. apply wp_ret. destruct (decode_all _ _ _) as [ss|] eqn:Ed; [|done]. intros c Hc. destruct (cands_scan upd s _ st ss Hr Hst Ed c Hc) as (n & Hs & Hn).
  exists n. eapply relys_keep; [done|done|apply rec_snap_stable|]. pose proof (inv_recs _ Hi _ _ _ Hn) as [_ ?]. split; [done|]. split; [done|].
  split; [by eapply candidate_known|]. intros r Hr'. congruence.
Qed.

(** ** Publication *)

Lemma validate_prefix_ok r r' : validate_prefix r r' = Ok () ->
  exists ls ls', lengths r.(mappings) = Ok ls /\ lengths r'.(mappings) = Ok ls' /\ ls `prefix_of` ls'.
Proof.
  unfold validate_prefix, codec. destruct (lengths (mappings r)) as [ls|[]]; [|done]. destruct (lengths (mappings r')) as [ls'|[]]; [|done].
  cbn [result_bind]. destruct (bool_decide_reflect (ls `prefix_of` ls')); [|done]. intros _. by exists ls, ls'.
Qed.

Lemma codec_ok {A} (r : result A StreamChunkRecordError) x : codec r = Ok x -> r = Ok x.
Proof. destruct r as [y|[]]; cbn; congruence. Qed.

(** The checks of a publication on an existing tail. *)
Record transition (t new : StreamChunkRecord) (previous : option StreamChunkRecord) : Prop := mkTransition {
  tr_valid : exists ix, validate new = Ok ix;
  tr_state : new.(state) = ActiveState \/ new.(state) = SealedState;
  tr_stream : new.(stream_id) = t.(stream_id);
  tr_epoch : t.(writer_epoch) <= new.(writer_epoch);
  tr_generation : new.(generation) = t.(generation) + 1;
  tr_trim : t.(trim_offset) <= new.(trim_offset);
  tr_end : opt_lt new.(logical_end) t.(logical_end) = false;
  tr_closed : t.(closed) = true -> new.(closed) = true;
  tr_kind : new.(chunk_id) = t.(chunk_id) /\ previous = None /\ new.(logical_start) = t.(logical_start) /\ validate_prefix t new = Ok () \/
    exists p, previous = Some p /\ (exists ix, validate p = Ok ix) /\ p.(chunk_id) = t.(chunk_id) /\ p.(logical_start) = t.(logical_start) /\
      p.(stream_id) = t.(stream_id) /\ p.(state) = SealedState /\ p.(logical_end) = new.(logical_start) /\ validate_prefix t p = Ok ();
}.

Lemma tail_state_cases r : bool_decide (state r = CandidateState) || bool_decide (state r = DeletingState) = false ->
  state r = ActiveState \/ state r = SealedState.
Proof. rewrite orb_false_iff, !bool_decide_eq_false. destruct (state r); naive_solver. Qed.

Ltac bool_facts H :=
  rewrite ?orb_false_iff, ?andb_false_iff, ?negb_false_iff, ?bool_decide_eq_true, ?bool_decide_eq_false in H.

Lemma transition_ok s new previous :
  validate_transition (Some s) new previous = Ok () -> transition s.(ss_record) new previous.
Proof.
  unfold validate_transition. destruct (codec (validate new)) as [ix|] eqn:Ev; [|done]. cbn [result_bind]. apply codec_ok in Ev.
  destruct (_ || _) eqn:Es; [done|]. apply tail_state_cases in Es. set (t := ss_record s).
  destruct (_ || (closed t && _)) eqn:Eb; [done|]. bool_facts Eb. destruct Eb as [[[[[[E1 E2] E3] E4] E5] E6] E7].
  assert (generation new = generation t + 1) as Hg by (unfold checked_add in E4; destruct (_ <=? u64_max) in E4; congruence).
  intros Hrest. split; try done; [by exists ix|lia|lia|intros Hc; destruct E7 as [E7|E7]; congruence|].
  destruct (bool_decide_reflect (chunk_id t = chunk_id new)) as [Hc|Hc].
  - left. destruct (_ || _) eqn:Ek in Hrest; [done|]. bool_facts Ek. destruct Ek as [[K1 K2] K3]. split; [done|]. split; [|done].
    destruct previous; [exfalso; by apply K1|done].
  - right. destruct previous as [p|]; [|done]. cbn [result_bind] in Hrest. destruct (codec (validate p)) as [ixp|] eqn:Evp; [|done].
    apply codec_ok in Evp. cbn [result_bind] in Hrest. destruct (_ || _) eqn:Ek in Hrest; [done|]. bool_facts Ek.
    destruct Ek as [[[[[[[[[[[[[K1 K2] K3] K4] K5] K6] K7] K8] K9] K10] K11] K12] K13] K14]. exists p. by split_and!; [|exists ixp|..].
Qed.

Lemma typed_key r : typed r -> forall k, record_key r = Ok k -> skey_ok k.
Proof.
  intros (Hh & Hl & _ & _ & Hs & _ & Hn & _) k. unfold record_key. destruct (bool_decide _); [by intros [= <-]|].
  destruct (logical_start r) as [a|] eqn:E; [|done]. intros [= <-]. split; [done|]. by apply Hs.
Qed.

Lemma attached_key r k : record_key r = Ok k -> r.(state) <> CandidateState -> exists a, r.(logical_start) = Some a /\ k = akey r.(stream_id) a.
Proof.
  unfold record_key. destruct (bool_decide_reflect (state r = CandidateState)); [done|].
  destruct (logical_start r) as [a|]; [|done]. intros [= <-] _. by exists a.
Qed.

(** The operations of a publication. *)
Lemma publish_ops_repr new previous candidate key data ops :
  typed new -> new.(state) <> CandidateState -> (forall p, previous = Some p -> typed p) ->
  (forall c, candidate = Some c -> exists k, snap_of k c) -> publish_ops upd new previous candidate = Ok (key, data, ops) ->
  exists c pts cts, key = to_bytes (akey new.(stream_id) c) /\ rec_ok (akey new.(stream_id) c) new /\ new.(logical_start) = Some c /\
    encode_stream_chunk_record upd new = Ok data /\
    Forall2 (op_repr upd) ops (pts ++ cts ++ [TPut (akey new.(stream_id) c) new]) /\
    (previous = None /\ pts = [] \/ exists p kp, previous = Some p /\ record_key p = Ok kp /\
       (kp <> akey new.(stream_id) c /\ pts = [TPut kp p] /\ rec_ok kp p \/ kp = akey new.(stream_id) c /\ p.(logical_start) = p.(logical_end) /\ pts = [])) /\
    (candidate = None /\ cts = [] \/ exists d, candidate = Some d /\ cts = [TDel (ckey new.(stream_id) new.(sequence))] /\
       snap_of (ckey new.(stream_id) new.(sequence)) d).
Proof.
  intros Hn Hst Hp Hc. unfold publish_ops. destruct (record_key new) as [kn|] eqn:Ek; [|done]. cbn [result_bind].
  destruct (encode_stream_chunk_record upd new) as [b|[w]] eqn:Eb; [|done]. cbn [codec result_bind].
  pose proof (typed_key _ Hn _ Ek) as Hkn. destruct (attached_key _ _ Ek Hst) as (c & Hc0 & ->).
  assert (rec_ok (akey (stream_id new) c) new) as Hok.
  { apply encode_inv in Eb as (ix & _ & Hv & _). split; [done|]. split; [done|by exists ix]. }
  set (r1 := match previous with Some p => _ | None => _ end). destruct r1 as [pops|] eqn:Er1; [|done]. cbn [result_bind].
  assert (exists pts, Forall2 (op_repr upd) pops pts /\
    (previous = None /\ pts = [] \/ exists p kp, previous = Some p /\ record_key p = Ok kp /\
       (kp <> akey new.(stream_id) c /\ pts = [TPut kp p] /\ rec_ok kp p \/ kp = akey new.(stream_id) c /\ p.(logical_start) = p.(logical_end) /\ pts = []))) as (pts & Hpts & Hprev).
  { destruct previous as [p|]; [|subst r1; injection Er1 as <-; exists []; split; [done|by left]]. unfold r1 in Er1.
    destruct (record_key p) as [kp|] eqn:Ekp; [|done]. cbn [result_bind] in Er1. pose proof (typed_key _ (Hp _ eq_refl) _ Ekp) as Hkp.
    destruct (bool_decide_reflect (to_bytes kp = to_bytes (akey (stream_id new) c))) as [Heq|Hne]; cbn [negb] in Er1.
    - apply skey_inj in Heq; [|done..]. destruct (bool_decide_reflect (logical_start p = logical_end p)); [|done].
      injection Er1 as <-. exists []. split; [done|]. right. exists p, kp. split; [done|]. split; [done|]. by right.
    - destruct (put upd p) as [op|] eqn:Eput; [|done]. cbn [result_bind] in Er1. assert (pops = [op]) as -> by congruence.
      apply put_repr in Eput as (k' & Hk' & Hop); [|by apply Hp]. assert (k' = kp) as -> by (destruct Hk' as (_ & Hk' & _); congruence).
      exists [TPut kp p]. split; [by constructor|]. right. exists p, kp. split; [done|]. split; [done|]. left. split; [congruence|done]. }
  set (r2 := match candidate with Some c => _ | None => _ end). destruct r2 as [cops|] eqn:Er2; [|done]. cbn [result_bind]. intros Heq.
  assert (key = to_bytes (akey (stream_id new) c) /\ data = b /\ ops = cops ++ [Put (to_bytes (akey (stream_id new) c)) b]) as (-> & -> & ->)
    by (split_and!; congruence).
  assert (exists cts, Forall2 (op_repr upd) cops (pts ++ cts) /\ (candidate = None /\ cts = [] \/ exists d, candidate = Some d /\
    cts = [TDel (ckey new.(stream_id) new.(sequence))] /\ snap_of (ckey new.(stream_id) new.(sequence)) d)) as (cts & Hcts & Hcand).
  { destruct candidate as [d|]; [|subst r2; assert (cops = pops) as -> by congruence; exists []; rewrite app_nil_r; auto]. unfold r2 in Er2.
    destruct (_ || _) eqn:Eb2 in Er2; [done|]. bool_facts Eb2. destruct Eb2 as [[[[[B1 B2] B3] B4] B5] B6].
    destruct (Hc _ eq_refl) as (k & Hsn). pose proof Hsn as (Hdok & Hdkey & _). assert (k = ckey (stream_id new) (sequence new)) as ->.
    { destruct Hdok as (_ & Hdk & _). unfold record_key in Hdk. rewrite bool_decide_eq_true_2 in Hdk by done. assert (sequence (ss_record d) = sequence new) by lia. congruence. }
    exists [TDel (ckey (stream_id new) (sequence new))]. assert (cops = pops ++ [Delete (ss_key d)]) as -> by congruence.
    split; [|right; by exists d]. apply Forall2_app; [done|]. constructor; [|done]. split; [|by rewrite Hdkey]. by apply rec_ok_key in Hdok as [? _]. }
  exists c, pts, cts. do 4 (split; [done|]). split; [|done]. rewrite app_assoc. apply Forall2_app; [done|]. constructor; [|done]. split; [done|]. by exists b.
Qed.

(** What is returned for a record that was just attached. *)
Lemma new_tail_snap st c new tw sn :
  inv tw -> is_tail tw.(tv) st c new tw.(tv).(trev) -> snap_of (akey st c) sn -> sn.(ss_record) = new -> sn.(ss_revision) = tw.(tv).(trev) ->
  tail_snap st c sn tw.
Proof.
  intros Hi Ht Hsn <- Hn. pose proof (inv_recs _ Hi _ _ _ (proj1 Ht)) as [_ ?]. rewrite <- Hn in *. split; [split; [done|]|].
  - split; [lia|]. split; [exact (recs_known _ _ _ _ _ Hi (proj1 Ht))|]. intros r Hr. destruct Ht as [Ht _]. congruence.
  - split; [done|]. exists c, (ss_record sn), (ss_revision sn). split; [done|]. split; [lia|apply advances_refl].
Qed.

Section publish_step.
Context (own : owner) (tw : tworld) (a c n : Z) (t new : StreamChunkRecord) (previous : option StreamChunkRecord)
  (ops : list BatchOp) (pts cts : list top).
Context (Hi : inv tw) (Ht : is_tail tw.(tv) new.(stream_id) a t n) (T : transition t new previous).
Context (Hok : rec_ok (akey new.(stream_id) c) new) (Hc : new.(logical_start) = Some c).
Context (Hops : Forall2 (op_repr upd) ops (pts ++ cts ++ [TPut (akey new.(stream_id) c) new])).
Context (Hcts : cts = [] \/ cts = [TDel (ckey new.(stream_id) new.(sequence))]).

Abbreviation st := new.(stream_id).
Abbreviation V' := (tapply_all tw.(tv) (tw.(tv).(trev) + 1) (pts ++ cts ++ [TPut (akey st c) new])).

Lemma publish_rest p : (pts = [] \/ pts = [TPut (akey st a) p]) ->
  (forall b, b <> a -> b <> c -> V'.(recs) !! akey st b = tw.(tv).(recs) !! akey st b) /\
  (forall id, V'.(pins) !! (st, id) = tw.(tv).(pins) !! (st, id)) /\ (forall st', st' <> st -> same_stream tw.(tv) V' st') /\
  V'.(recs) !! akey st c = Some (new, V'.(trev)) /\ (a <> c -> pts = [TPut (akey st a) p] -> V'.(recs) !! akey st a = Some (p, V'.(trev))) /\
  (forall k r m, V'.(recs) !! k = Some (r, m) -> rec_ok k r /\ (m = V'.(trev) \/ tw.(tv).(recs) !! k = Some (r, m))).
Proof using All.
  intros Hpts. assert (forall x, x ∈ pts ++ cts ++ [TPut (akey st c) new] ->
    x = TPut (akey st a) p \/ x = TDel (ckey st (sequence new)) \/ x = TPut (akey st c) new) as Hin.
  { intros x. rewrite !elem_of_app, list_elem_of_singleton. destruct Hpts as [->| ->], Hcts as [->| ->];
      rewrite ?list_elem_of_singleton, ?elem_of_nil; naive_solver. }
  split; [|split; [|split; [|split; [|split]]]].
  - intros b Hb Hbc. apply tapply_rec_same. intros x Hx. destruct (Hin x Hx) as [->|[->| ->]]; cbn; congruence.
  - intros id. apply tapply_pin_same. intros x Hx. destruct (Hin x Hx) as [->|[->| ->]]; by intros [].
  - intros st' Hne. apply (tapply_other _ _ _ st); [|done]. intros x Hx. by destruct (Hin x Hx) as [->|[->| ->]].
  - rewrite app_assoc, tapply_snoc. cbn. by rewrite lookup_insert_eq.
  - intros Hac ->. rewrite app_assoc, tapply_snoc. cbn. rewrite lookup_insert_ne by congruence.
    destruct Hcts as [->| ->]; cbn; rewrite ?lookup_delete_ne by congruence; by rewrite lookup_insert_eq.
  - eapply ops_recs; [done|]. intros k r m Hr. by eapply inv_recs.
Qed.

Lemma publish_advances : advances t new.
Proof using All.
  destruct T. pose proof (inv_recs _ Hi _ _ _ (proj1 Ht)) as [Hto _]. destruct (rec_attached _ _ _ Hto) as [ls Hl]. destruct (rec_attached _ _ _ Hok) as [ls' Hl'].
  pose proof (at_stop _ _ _ _ Hl) as E. pose proof (at_stop _ _ _ _ Hl') as E'. rewrite E, E' in tr_end0. cbn in tr_end0. split; try done; lia.
Qed.

Lemma publish_step :
  (forall p, previous = Some p -> typed p) ->
  (previous = None /\ pts = [] \/ exists p kp, previous = Some p /\ record_key p = Ok kp /\
     (kp <> akey st c /\ pts = [TPut kp p] /\ rec_ok kp p \/ kp = akey st c /\ p.(logical_start) = p.(logical_end) /\ pts = [])) ->
  exists h', let tw' := mkTW V' h' tw.(tenv) in inv tw' /\ step_ok own tw tw' /\ is_tail V' st c new V'.(trev).
Proof using All.
  intros Hpt Hprev. pose proof publish_advances as Hadv. pose proof (inv_recs _ Hi _ _ _ (proj1 Ht)) as [Hto _].
  pose proof (rec_ok_key _ _ Hto) as (_ & Hts & Htst & Htl). cbn in Hts, Htst, Htl. pose proof (rec_range _ _ _ Hto) as Hr.
  assert (exists old, published st tw V' a c t old new) as [old Hpub].
  2: { destruct (local_step own st tw _ Hi (published_ok own st tw V' a c n t old new Hi Ht Hpub)) as [Hi' Hs']. eexists. split; [exact Hi'|].
       split; [exact Hs'|]. exact (published_tail own st tw V' a c n t old new Hi Ht Hpub). }
  destruct T. destruct tr_kind0 as [(Hch & Enone & Hs & (ls & ls' & E & E' & Hpre)%validate_prefix_ok)|(p & Esome & [ix Hv] & Hch & Hs & Hps & Hpst & Hpe & (ls & ls' & E & E' & Hpre)%validate_prefix_ok)].
  - destruct Hprev as [[_ Epts]|(p & kp & ? & _)]; [|congruence]. assert (c = a) as Hca by congruence.
    destruct (publish_rest new) as (P1 & P2 & P3 & P4 & _ & P6); [by left|]. exists new. split; try done; [cbn; lia|lia|..].
    + intros _. split; [done|done|]. by exists ls, ls'.
    + left. split; [done|by left].
  - destruct Hprev as [[? _]|(p' & kp & Esome' & Hkp & Hkind)]; [congruence|]. assert (p' = p) as -> by congruence. specialize (Hpt p Esome).
    destruct (attached_key _ _ Hkp) as (a' & Ha' & Ekp); [congruence|]. assert (kp = akey st a) as -> by congruence.
    assert (rec_ok (akey st a) p) as Hpok by (split; [done|]; split; [done|by exists ix]). pose proof (rec_range _ _ _ Hpok) as Hrp.
    assert (end_of p = c) as Hpc by (unfold end_of; by rewrite Hpe, Hc). assert (extends t p) as Hext by (split; [done|done|by exists ls, ls']).
    destruct Hkind as [(Hne & Epts & _)|(Heq & Hempty & Epts)].
    + assert (a <> c) as Hac0 by congruence. assert (a < c) as Hac by lia. destruct (publish_rest p) as (P1 & P2 & P3 & P4 & P5 & P6); [by right|].
      exists p. split; try done; [cbn; lia|intros _; apply P5; [lia|done]|by right].
    + assert (c = a) as Hca by congruence. destruct (publish_rest new) as (P1 & P2 & P3 & P4 & _ & P6); [by left|].
      pose proof (extends_end _ _ _ _ Hto Hpok Hext). exists new. split; try done; cbn; lia.
Qed.

End publish_step.

Definition published_result (new : StreamChunkRecord) (r : result StreamChunkRecordSnapshot StreamError) : assertion := fun tw =>
  match r with Ok s => s.(ss_record) = new /\ exists c, tail_snap new.(stream_id) c s tw | Err _ => True end.

(** The reply to an attachment that was applied. *)
Lemma attached_reply own new c data tw tw' :
  inv tw -> is_tail tw.(tv) new.(stream_id) c new tw.(tv).(trev) -> rec_ok (akey new.(stream_id) c) new ->
  encode_stream_chunk_record upd new = Ok data -> relys own tw tw' ->
  published_result new (decode upd (to_bytes (akey new.(stream_id) c)) data tw.(tv).(trev) new.(stream_id)) tw'.
Proof.
  intros Hi Ht Hok Hd Hrel. pose proof (inv_recs _ Hi _ _ _ (proj1 Ht)) as [_ ?].
  destruct (decode_ok upd _ _ _ (trev (tv tw)) Hok Hd) as (sn & Hdec & Hsn & Hr & Hn); [lia|]. cbn [scrk_stream_id] in Hdec. rewrite Hdec.
  split; [done|]. exists c. eapply relys_keep; [done|done|apply tail_snap_stable|]. by eapply new_tail_snap.
Qed.

Lemma publish_recheck_wp own expected new candidate again tw :
  inv tw -> typed new -> (forall d, candidate = Some d -> exists k, snap_of k d) ->
  (forall e c a tw, expected = Some e -> inv tw -> c.(ss_record) = e.(ss_record) -> tail_snap new.(stream_id) a c tw ->
     wp own (again c.(ss_revision)) (published_result new) tw) ->
  wp own (publish_recheck upd expected new candidate again) (published_result new) tw.
Proof.
  intros Hi Hty Hcand Hagain. unfold publish_recheck. apply wp_try; [done|].
  eapply wp_mono; [done|apply (load_tail_wp own truth truth); try done; by apply typed_name|].
  intros [[cur|]|er] tw1 Hi1 [_ Hcur] _; [|done|done]. destruct Hcur as [a Hcur].
  destruct (bool_decide_reflect (ss_record cur = new)) as [Heq|]; [apply wp_ret; split; [done|by exists a]|].
  destruct expected as [e|]; [|by destruct (_ <=? _)].
  destruct (bool_decide_reflect (ss_record cur = ss_record e)) as [Heq|]; [|by destruct (_ <=? _)].
  destruct candidate as [d|]; [|by eapply Hagain]. apply wp_lift. destruct (record_key (ss_record d)) as [kd|] eqn:Ekd; [|done].
  destruct (Hcand d eq_refl) as [k Hd]. assert (skey_ok kd) as Hkd by (destruct Hd as [(Htd & _) _]; by eapply typed_key).
  apply wp_try; [done|]. eapply wp_mono; [done|apply (load_key_wp own (tail_snap (stream_id new) a cur)); try done; apply tail_snap_stable|].
  intros [reg|er] tw2 Hi2 [Hcur2 _] _; [|done]. destruct (match reg with Some r => _ | None => true end); [done|]. by eapply Hagain.
Qed.

Section publish_loop.
Context (own : owner) (new : StreamChunkRecord) (candidate : option StreamChunkRecordSnapshot) (expected : option StreamChunkRecordSnapshot)
  (ops : list BatchOp) (ts : list top) (c : Z) (data : bytes).
Context (Hty : typed new) (Hok : rec_ok (akey new.(stream_id) c) new) (Hdata : encode_stream_chunk_record upd new = Ok data).
Context (Hops : Forall2 (op_repr upd) ops ts) (Hcand : forall d, candidate = Some d -> exists k, snap_of k d).

(** The loop, from what holds before an attempt and what an applied batch does. *)
Lemma publish_loop_wp guard (P : Z -> assertion) attempts n tw :
  skey_ok guard -> (forall n, stable own (P n)) ->
  (forall n tw, inv tw -> P n tw -> (n = 0 /\ tw.(tv).(recs) !! guard = None \/ exists r, tw.(tv).(recs) !! guard = Some (r, n)) ->
    exists h', let tw' := mkTW (tapply_all tw.(tv) (tw.(tv).(trev) + 1) ts) h' tw.(tenv) in
      inv tw' /\ step_ok own tw tw' /\ is_tail tw'.(tv) new.(stream_id) c new tw'.(tv).(trev)) ->
  (forall e s a tw, expected = Some e -> s.(ss_record) = e.(ss_record) -> tail_snap new.(stream_id) a s tw -> P s.(ss_revision) tw) ->
  inv tw -> P n tw ->
  wp own (publish_loop upd attempts expected new candidate ops (to_bytes (akey new.(stream_id) c)) data (to_bytes guard) n) (published_result new) tw.
Proof using All.
  intros Hg HP Hstep Hload. revert n tw. induction attempts as [|m IH]; intros n tw Hi Hp; cbn [publish_loop]; [done|]. apply wp_bind; [done|].
  assert (forall tw, inv tw -> wp own (publish_recheck upd expected new candidate
    (publish_loop upd m expected new candidate ops (to_bytes (akey (stream_id new) c)) data (to_bytes guard))) (published_result new) tw) as Hre.
  { intros tw1 Hi1. apply publish_recheck_wp; [done..|]. intros e s a tw2 He Hi2 Hs Ht. apply IH; [done|]. by eapply Hload. }
  eapply wp_kv_batch; [done|exact Hops|done| |].
  - intros [v| | |w] tw' Hrel Hi'; [by apply Hre|apply IH; [done|by eapply relys_keep]|by apply Hre|done].
  - intros Hcur. destruct (Hstep n tw Hi Hp Hcur) as (h' & Hi' & Hs' & Htail). exists h'. do 2 (split; [done|]). split; intros tw' Hrel Hi2; [|by apply Hre].
    exact (attached_reply own new c data _ _ Hi' Htail Hok Hdata Hrel).
Qed.

End publish_loop.

(** The snapshots a caller passes to a publication: the expected tail from a
    read of the tail, the candidate from a read of the candidate. *)
Definition publish_pre (expected : option StreamChunkRecordSnapshot) (new : StreamChunkRecord) (previous : option StreamChunkRecord)
    (candidate : option StreamChunkRecordSnapshot) : assertion := fun tw =>
  typed new /\ (forall p, previous = Some p -> typed p) /\
  (forall e, expected = Some e -> exists st a, tail_snap st a e tw) /\
  (forall d, candidate = Some d -> exists k, rec_snap k d tw) /\ (expected = None -> previous = None).

Lemma publish_pre_stable own expected new previous candidate : stable own (publish_pre expected new previous candidate).
Proof.
  repeat apply stable_and; try apply stable_pure; repeat (apply stable_all; intros ?); (apply stable_ex; intros ?);
    [apply stable_ex; intros ?; apply tail_snap_stable|apply rec_snap_stable].
Qed.

Lemma publish_next_wp own e new previous candidate tw :
  inv tw -> publish_pre (Some e) new previous candidate tw -> wp own (publish upd (Some e) new previous candidate) (published_result new) tw.
Proof.
  intros Hi (Hty & Hpt & He & Hcand & _). unfold publish. apply wp_lift. destruct (validate_transition _ _ _) as [[]|] eqn:Etr; [|done].
  apply transition_ok in Etr as T. apply wp_lift. cbv zeta. apply wp_lift. destruct (publish_ops upd new previous candidate) as [[[key data] ops]|] eqn:Eops; [|done].
  destruct (He e eq_refl) as (st & a & Hs). pose proof Hs as ((Hsn & _) & _). pose proof Hsn as (Heok & Hekey & _).
  assert (st = stream_id new) as -> by (rewrite (tr_stream _ _ _ T); by apply rec_ok_key in Heok as (_ & ? & _)).
  assert (forall d, candidate = Some d -> exists k, snap_of k d) as Hcs by (intros d [k [? _]]%Hcand; eauto).
  destruct (publish_ops_repr new previous candidate key data ops) as (c & pts & cts & -> & Hok & Hc & Hdata & Hops & Hprev & Hcts); try done.
  { destruct (tr_state _ _ _ T); congruence. }
  assert (cts = [] \/ cts = [TDel (ckey (stream_id new) (sequence new))]) as Hcts' by (destruct Hcts as [[_ ->]|(d & _ & -> & _)]; auto).
  rewrite Hekey. pose proof (rec_ok_key _ _ Heok) as [Hguard _].
  eapply (publish_loop_wp own new candidate (Some e) ops (pts ++ cts ++ [TPut (akey (stream_id new) c) new]) c data Hty Hok Hdata Hops Hcs
    (akey (stream_id new) a) (fun n tw => exists s, (s.(ss_record) = e.(ss_record) /\ s.(ss_revision) = n) /\ tail_snap (stream_id new) a s tw)); try done.
  - intros n. apply stable_ex. intros s. apply stable_and; [apply stable_pure|apply tail_snap_stable].
  - intros n tw1 Hi1 (s & [Hse Hsr] & Hst) Hcur. pose proof Hst as ((_ & Hrev & _) & Ht & _). rewrite Hse, Hsr in *.
    destruct Hcur as [[-> _]|[r Hr]]; [lia|]. apply Ht in Hr.
    eapply (publish_step own tw1 a c n (ss_record e) new previous ops pts cts); done.
  - intros e' s a' tw1 [= <-] Hse Hst. exists s. split; [done|]. pose proof Hst as (((Hsok & _) & _) & _). rewrite Hse in Hsok.
    assert (a' = a) as ->; [|done]. destruct Hsok as (_ & E & _), Heok as (_ & E' & _). congruence.
  - exists e. done.
Qed.

(** ** The first publication *)

(** The reservation was found with no record attached; while its revision
    stands, none is. *)
Definition unattached (st : StreamName) (d : StreamChunkRecordSnapshot) : assertion := fun tw =>
  rec_snap (ckey st 0) d tw /\ forall r, tw.(tv).(recs) !! ckey st 0 = Some (r, d.(ss_revision)) -> no_tail tw.(tv) st.

Lemma unattached_stable own st d : stable own (unattached st d).
Proof.
  intros tw tw' Hi Hi' Hr [Hs Hn]. split; [exact (rec_snap_stable own _ _ _ _ Hi Hi' Hr Hs)|]. intros r Hrec.
  destruct Hs as (_ & Hrev & _). pose proof (st_fresh _ _ _ Hr _ _ _ Hrec ltac:(lia)) as Hold.
  destruct (st_init _ _ _ Hr st (Hn _ Hold)) as [?|E]; [done|congruence].
Qed.

Lemma first_step own tw new ops :
  inv tw -> no_tail tw.(tv) new.(stream_id) -> rec_ok (akey new.(stream_id) 0) new -> (new.(state) = ActiveState \/ new.(state) = SealedState) ->
  end_of new = 0 -> Forall2 (op_repr upd) ops [TDel (ckey new.(stream_id) 0); TPut (akey new.(stream_id) 0) new] ->
  exists h', let tw' := mkTW (tapply_all tw.(tv) (tw.(tv).(trev) + 1) [TDel (ckey new.(stream_id) 0); TPut (akey new.(stream_id) 0) new]) h' tw.(tenv) in
    inv tw' /\ step_ok own tw tw' /\ is_tail tw'.(tv) new.(stream_id) 0 new tw'.(tv).(trev).
Proof.
  intros Hi Hno Hok Hst He Hops. set (V' := tapply_all _ _ _).
  assert (forall k r m, V'.(recs) !! k = Some (r, m) -> rec_ok k r /\ (m = V'.(trev) \/ tw.(tv).(recs) !! k = Some (r, m))) as Hrecs
    by (eapply ops_recs; [done|]; intros k r m Hr; by eapply inv_recs).
  assert (V'.(recs) !! akey new.(stream_id) 0 = Some (new, V'.(trev))) as Htail by (cbn; by rewrite lookup_insert_eq).
  assert (forall b, b <> 0 -> V'.(recs) !! akey new.(stream_id) b = None) as Hrest.
  { intros b Hb. cbn. rewrite lookup_insert_ne by congruence. rewrite lookup_delete_ne by congruence. apply Hno. }
  destruct (rec_attached _ _ _ Hok) as [ls Hl]. pose proof (at_trim _ _ _ _ Hl). pose proof Hok as [(_ & _ & _ & _ & _ & _ & _ & _ & _ & [Htr _] & _) _].
  exists (<[(stream_id new, 0) := new]> tw.(hist)). cbv zeta. apply and_assoc. split.
  - apply (local_step own (stream_id new)); [done|]. apply first_ok; try done.
    + cbn. lia.
    + intros st' Hne. apply (tapply_other _ _ _ (stream_id new)); [|done]. intros x [->|[->|[]%elem_of_nil]%elem_of_cons]%elem_of_cons; done.
    + cbn. rewrite lookup_insert_ne by congruence. by rewrite lookup_delete_eq.
    + lia.
  - split; [done|]. intros a' [r m] Hr. destruct (decide (a' = 0)) as [->|Hb]; [lia|]. cbn [tv] in Hr. by rewrite Hrest in Hr.
Qed.

Lemma publish_first_wp own new candidate tw :
  inv tw -> publish_pre None new None candidate tw -> wp own (publish upd None new None candidate) (published_result new) tw.
Proof.
  intros Hi (Hty & _ & _ & Hcand & _). unfold publish. apply wp_lift. destruct (validate_transition _ _ _) as [[]|] eqn:Etr; [|done].
  unfold validate_transition in Etr. destruct (codec (validate new)) as [ix|] eqn:Ev; [|done]. cbn [result_bind] in Etr.
  destruct (_ || _) eqn:Es in Etr; [done|]. apply tail_state_cases in Es. destruct (_ && _) eqn:Eb in Etr; [|done]. clear Etr.
  rewrite !andb_true_iff, !bool_decide_eq_true, !Z.eqb_eq in Eb. destruct Eb as [[[_ Hseq] Hstart] Hend].
  apply wp_lift. destruct candidate as [d|]; [|done]. cbv zeta. destruct (Hcand d eq_refl) as [kd Hd].
  assert (forall d', Some d = Some d' -> exists k, snap_of k d') as Hcs by (intros d' [= <-]; exists kd; apply Hd).
  apply wp_try; [done|]. eapply wp_mono; [done|apply (load_tail_wp own (rec_snap kd d) (fun tw => rec_snap kd d tw /\
    (kd = ckey (stream_id new) 0 -> unattached (stream_id new) d tw))); try done|].
  - apply rec_snap_stable.
  - apply stable_and; [apply rec_snap_stable|]. apply stable_all. intros _. apply unattached_stable.
  - by apply typed_name.
  - intros Hno. split; [done|]. intros ->. split; [done|]. done.
  - intros [[cur|]|er] tw1 Hi1 [_ Hcur] _; [|destruct Hcur as [_ Hun]|done].
    { apply wp_ret. destruct (bool_decide_reflect (ss_record cur = new)); [|done]. destruct Hcur as [a Hcur]. split; [done|by exists a]. }
    apply wp_lift. destruct (publish_ops upd new None (Some d)) as [[[key data] ops]|] eqn:Eops; [|done].
    destruct (publish_ops_repr new None (Some d) key data ops) as (c & pts & cts & -> & Hok & Hc & Hdata & Hops & Hprev & Hcts); try done.
    { destruct Es; congruence. }
    destruct Hprev as [[_ ->]|(p & _ & ? & _)]; [|done]. destruct Hcts as [[? _]|(d' & E & -> & Hsn)]; [done|]. assert (d' = d) as -> by congruence.
    assert (c = 0) as -> by congruence. rewrite Hseq in *. assert (kd = ckey (stream_id new) 0) as Ekd.
    { destruct Hd as [[(_ & E1 & _) _] _], Hsn as [(_ & E2 & _) _]. congruence. }
    pose proof (Hun Ekd) as Hun'. pose proof Hsn as (Hdok & Hdkey & _). rewrite Hdkey. pose proof (rec_ok_key _ _ Hdok) as [Hguard _].
    eapply (publish_loop_wp own new (Some d) None ops _ 0 data Hty Hok Hdata Hops Hcs (ckey (stream_id new) 0)
      (fun n tw => n = ss_revision d /\ unattached (stream_id new) d tw)); try done.
    + intros n. apply stable_and; [apply stable_pure|apply unattached_stable].
    + intros n tw2 Hi2 [-> Hun2] Hcur. pose proof Hun2 as ((_ & Hrev & _) & Hno). destruct Hcur as [[? _]|[r Hr]]; [lia|].
      eapply first_step; try done; [by eapply Hno|]. unfold end_of. by rewrite Hend.
Qed.

Lemma publish_wp own expected new previous candidate tw :
  inv tw -> publish_pre expected new previous candidate tw -> wp own (publish upd expected new previous candidate) (published_result new) tw.
Proof.
  intros Hi Hpre. destruct expected as [e|]; [by apply publish_next_wp|]. pose proof Hpre as (_ & _ & _ & _ & Hn).
  rewrite (Hn eq_refl) in *. by apply publish_first_wp.
Qed.

(** The reservation of a first chunk. *)
Lemma reserve_initial_wp own c previous tw :
  inv tw -> typed c ->
  wp own (reserve_initial upd c previous)
    (fun r tw => match r with Ok s => rec_snap (ckey (stream_id c) (sequence c)) s tw | Err _ => True end) tw.
Proof.
  intros Hi Hty. unfold reserve_initial. apply wp_lift. destruct (codec (validate c)) as [ix|]; [|done].
  destruct (_ || _) eqn:Eb; [done|]. bool_facts Eb. destruct Eb as [Hst Hseq]. apply wp_try; [done|].
  eapply wp_mono; [done|apply (load_tail_wp own truth truth); try done; by apply typed_name|].
  intros [tl|er] tw1 Hi1 _ _; [|done]. destruct (bool_decide (is_Some tl)); [done|]. apply wp_lift.
  destruct (record_key c) as [k|] eqn:Ek; [|done]. assert (k = ckey (stream_id c) (sequence c)) as ->.
  { unfold record_key in Ek. rewrite bool_decide_eq_true_2 in Ek by done. congruence. }
  pose proof (typed_key _ Hty _ Ek) as Hk. apply wp_lift. destruct (match previous with Some p => _ | None => Ok () end) as [[]|]; [|done].
  apply wp_lift. destruct (put upd c) as [op|] eqn:Ep; [|done]. apply put_repr in Ep as (k & Hok & Hop); [|done].
  assert (k = ckey (stream_id c) (sequence c)) as -> by (destruct Hok as (_ & E & _); congruence).
  assert (forall tw, inv tw -> wp own (registered <-? load_key upd (ckey (stream_id c) (sequence c));;
    match registered with
    | None => Ret (Err StaleWriter)
    | Some registered => Ret (if bool_decide (registered.(ss_record) = c) then Ok registered else Err StaleWriter)
    end) (fun r tw => match r with Ok s => rec_snap (ckey (stream_id c) (sequence c)) s tw | Err _ => True end) tw) as Hread.
  { intros tw2 Hi2. apply wp_try; [done|]. eapply wp_mono; [done|by apply (load_key_wp own truth)|].
    intros [[s|]|er] tw3 Hi3 [_ Hs] _; [|done|done]. by destruct (bool_decide _). }
  apply wp_bind; [done|]. eapply (wp_kv_batch upd no_child own [op] [TPut (ckey (stream_id c) (sequence c)) c]); [done|by constructor|done| |].
  - intros [v| | |w] tw2 Hrel Hi2; [by apply Hread|done|by apply Hread|done].
  - intros _. exists tw1.(hist). cbv zeta. apply and_assoc. split; [|by split; intros tw2 _ Hi2; apply Hread].
    apply candidates_ok; [done|cbn; lia| |].
    + eapply (ops_recs _ [op]); [by constructor|]. intros k r m Hr. by eapply inv_recs.
    + intros st. split; [|done]. intros a. apply tapply_rec_same. intros x ->%list_elem_of_singleton. by intros [=].
Qed.

End ops.

End StreamOps.
