(* ===== verification/StreamPins.v ===== *)
(** * Reads, read pins and collection are safe

    A located record was attached and covers the offset.  A read pin whose
    deadline has not passed keeps every record of its interval: the pin is
    stored, not expired, and a collection that saw it spares the interval, while
    one that did not see it loses the fence.  A chunk is released only after its
    record was marked. *)

From stdpp Require Import prelude gmap list list_numbers strings countable.
From Stdlib Require Import ZArith Lia.
From S2P Require Import Prelude Roles Bytes WalRecord KeyEncoding ChunkSlots BinaryKeys Frame FrameGeometry StreamMappings StreamChunk StreamStore StreamView StreamLogic StreamSteps StreamRules StreamOps.

Module StreamPins.
Import KeyEncoding ChunkSlots BinaryKeys Frame FrameGeometry StreamMappings StreamChunk StreamStore StreamView StreamLogic StreamSteps StreamRules
  StreamOps.

Section pins.
Context (upd : Z -> bytes -> Z) `{!Crc32c upd} `{BincodeLaws} `{PinJsonLaws} `{Skew}.

Abbreviation wp := (wp upd no_child).

(** ** Locating *)

Lemma cached_stable own id off x : stable own (fun tw => cached tw id off x).
Proof.
  intros tw tw' Hi Hi' Hr. destruct x as [s|]; [|done]. intros (Hk & (st & a & Hs) & Hrest). split; [|by split; [exists st, a|]].
  refine (known_stable own _ _ _ _ Hi Hi' Hr Hk). exists st, a. apply Hs.
Qed.

Lemma locate_wp own id off tw :
  inv tw -> skey_ok (akey id off) ->
  wp own (locate_for_read upd id off) (fun r tw => match r with Ok (s, _) => cached tw id off (Some s) | Err _ => True end) tw.
Proof.
  intros Hi Hoff. unfold locate_for_read. cbn [StreamRules.wp]. intros [s|] Hc tw1 Hrel1.
  { apply wp_ret. exact (relys_keep _ _ _ _ Hrel1 Hi (cached_stable own id off (Some s)) Hc). }
  pose proof (relys_inv _ _ _ Hi Hrel1) as Hi1. apply wp_try; [done|]. apply wp_kv_scan; [|done]. intros m Hr tw2 Hrel Hi2.
  destruct (locate_scan upd m _ id off Hr Hoff) as [[_ ->]|(a & r & n & b & t & Ha & Hok & Hle & _ & Hb & ->)]; [done|]. cbn [items commit_slots zip_with].
  apply wp_lift. pose proof (inv_recs _ Hi1 _ _ _ Ha) as [_ Hpos]. destruct (decode_ok upd _ _ _ n Hok Hb) as (sn & Hd & Hsn & <- & <-); [lia|].
  cbn [scrk_stream_id] in Hd. rewrite Hd. destruct (negb _ || _) eqn:Eb; [done|]. apply orb_false_iff in Eb as [Eg _]. apply negb_false_iff in Eg.
  assert (cached tw1 id off (Some sn)) as Hc1.
  { split; [by eapply recs_known|]. split; [by exists id, a|]. pose proof (rec_ok_key _ _ Hok) as (_ & ? & _ & Hs). cbn in Hs. split; [done|].
    split; [|done]. rewrite Hs. cbn. lia. }
  pose proof (relys_keep _ _ _ _ Hrel Hi1 (cached_stable own id off (Some sn)) Hc1) as Hc2. cbn [StreamRules.wp]. pose proof Hc2 as (Hk & Hs & _).
  split; [done|]. split; [done|]. intros tw3 Hrel3. exact (relys_keep _ _ _ _ Hrel3 Hi2 (cached_stable own id off (Some sn)) Hc2).
Qed.

(** ** Reading pins *)

Definition pins_are (st : StreamName) (ps : list PinRecord) (tw : tworld) : Prop :=
  forall p, p ∈ ps <-> pin_stream p = st /\ exists n, tw.(tv).(pins) !! pkey p = Some (p, n).

Lemma pins_are_stream st ps : of_stream st (pins_are st ps).
Proof.
  intros tw tw' _ _ [_ Hp] _ Hps p. rewrite (Hps p). split; intros [E [n Hn]]; (split; [done|]); exists n; rewrite E in Hn |- *; [by rewrite Hp|by rewrite <- Hp].
Qed.

Lemma read_pins_wp own (P : assertion) st a s tw :
  inv tw -> name_ok st -> stable own P -> P tw -> (P tw -> tail_snap st a s tw) ->
  wp own (read_pins st) (fun r tw => P tw /\ match r with Ok ps => Forall pin_typed ps /\ holding st a s (pins_are st ps) tw | Err _ => True end) tw.
Proof.
  intros Hi Hst HP Hp Ht. unfold read_pins. apply wp_try; [done|]. apply wp_kv_scan.
  2: { intros e tw' Hrel _. split; [by eapply relys_keep|done]. }
  intros m Hr tw1 Hrel Hi1. pose proof (relys_keep _ _ _ _ Hrel Hi HP Hp) as Hp1. destruct (truncated _) eqn:Etr; [done|].
  destruct (pins_scan upd m _ st Hr Hst Etr) as (ps & -> & Hps). split; [done|].
  split; [apply list.Forall_forall; intros p [_ [n Hn]]%Hps; by apply inv_pins in Hn as (_ & [? _] & _)|].
  refine (relys_keep own (holding st a s (pins_are st ps)) _ _ Hrel Hi (holding_stable own st a s _ (pins_are_stream st ps)) _).
  split; [auto|]. intros _. exact Hps.
Qed.

(** A reading of the clock. *)
Lemma now_wp own (P : assertion) (phi : Z -> assertion) tw :
  inv tw -> stable own P -> P tw -> (forall x, stable own (phi x)) ->
  (forall x, 0 <= x -> Z.abs (x - tw.(tenv).(clock)) <= skew -> phi x tw) ->
  wp own now_ms (fun x tw => P tw /\ phi x tw) tw.
Proof.
  intros Hi HP Hp Hphi Hx. unfold now_ms. cbn [StreamRules.wp]. intros x H0x Habs tw' Hrel. split; [by eapply relys_keep|].
  eapply relys_keep; [done|done|apply Hphi|]. by apply Hx.
Qed.

Lemma clock_stable own d : stable own (fun tw => d <= tw.(tenv).(clock)).
Proof. intros tw tw' _ _ Hr. pose proof (st_clock _ _ _ Hr). lia. Qed.

Lemma instant_wp own (P : assertion) tw :
  inv tw -> stable own P -> P tw -> wp own instant (fun x tw' => P tw' /\ x = tw.(tenv).(clock) /\ x <= tw'.(tenv).(clock)) tw.
Proof.
  intros Hi HP Hp. unfold instant. cbn [StreamRules.wp]. intros tw' Hrel. split; [by eapply relys_keep|]. split; [done|].
  exact (relys_keep _ _ _ _ Hrel Hi (clock_stable own _) (Z.le_refl _)).
Qed.

Lemma expired_stable own q : stable own (fun tw => expired q tw.(tenv).(clock)).
Proof. intros tw tw' _ _ Hr. unfold expired. pose proof (st_clock _ _ _ Hr). lia. Qed.

Definition all_expired (ps : list PinRecord) : assertion := fun tw => forall p, p ∈ ps -> expired p tw.(tenv).(clock).

Lemma all_expired_stable own ps : stable own (all_expired ps).
Proof. do 2 (apply stable_all; intros ?). apply expired_stable. Qed.

(** A clock reading is far from the end of its range. *)
Lemma sat_expiry q x now : 0 <= now <= CLOCK_MAX -> Z.abs (x - now) <= skew -> sat_add64 q PIN_GRACE_MS <= x -> q + PIN_GRACE_MS <= now + skew.
Proof. intros Hn Hx. unfold sat_add64. pose proof skew_ok as [? Hs]. change PIN_GRACE_MS with 31000 in *. unfold u64_max. lia. Qed.

Lemma expired_pins_wp own (P : assertion) n ps tw :
  inv tw -> stable own P -> P tw ->
  wp own (expired_pins n ps) (fun es tw => P tw /\ (forall p, p ∈ es -> p ∈ ps) /\ all_expired es tw) tw.
Proof.
  revert P n tw. induction ps as [|p ps IH]; intros P n tw Hi HP Hp; destruct n as [|n]; cbn [expired_pins];
    try (apply wp_ret; split; [done|]; split; intros ? Hin; by apply elem_of_nil in Hin).
  apply wp_bind; [done|]. eapply wp_mono; [done|apply (now_wp own P (fun x tw => sat_add64 (pin_expires p) PIN_GRACE_MS <= x -> expired p tw.(tenv).(clock))); try done|].
  - intros x. apply stable_all. intros _. apply expired_stable.
  - intros x Hx Habs. apply sat_expiry; [apply Hi|done].
  - intros x tw1 Hi1 [Hp1 Hx] _. destruct (Z.leb_spec (sat_add64 (pin_expires p) PIN_GRACE_MS) x) as [Hle|].
    + apply wp_bind; [done|]. eapply wp_mono; [done|apply (IH _ n tw1 Hi1 (stable_and _ _ _ HP (expired_stable own p))); auto|].
      intros es tw2 Hi2 ([Hp2 He] & Hsub & Hall) _. apply wp_ret. split; [done|]. split; intros q [->|Hq]%elem_of_cons; [by left|right; auto|done|auto].
    + eapply wp_mono; [done|by apply (IH P (S n))|]. intros es tw2 Hi2 (Hp2 & Hsub & Hall). split; [done|]. split; [|done]. intros q Hq. right. auto.
Qed.

(** ** Batches on pins *)

(** The owner of one pin. *)
Definition only (k : StreamName * bytes) : owner := fun k' => k' = k.

(** A pin that may be stored: what it protects is there. *)
Definition pin_fits (tw : tworld) (st : StreamName) (p : PinRecord) : Prop :=
  pin_stream p = st /\ pin_ok p /\ p.(pin_expires) <= tw.(tenv).(clock) + skew + LEASE_MS /\
  (~ expired p tw.(tenv).(clock) ->
    (forall off, p.(pin_begin) <= off < p.(pin_end) -> covered tw.(tv) st off) /\
    (forall b r m, tw.(tv).(recs) !! akey st b = Some (r, m) -> r.(state) = DeletingState ->
       p.(pin_active) = Some r.(chunk_id) -> end_of r <= p.(pin_begin))).

Definition pin_tops (es : list PinRecord) (pin : option PinRecord) : list top := (TUnpin <$> es) ++ (TPin <$> option_list pin).

Lemma pin_tops_in es pin t : t ∈ pin_tops es pin -> (exists e, e ∈ es /\ t = TUnpin e) \/ exists p, pin = Some p /\ t = TPin p.
Proof.
  unfold pin_tops. intros [(e & -> & He)%list_elem_of_fmap|(p & -> & Hp)%list_elem_of_fmap]%elem_of_app; [left; by exists e|right].
  destruct pin as [q|]; cbn in Hp; [apply list_elem_of_singleton in Hp as ->; by exists q|by apply elem_of_nil in Hp].
Qed.

Lemma unpin_pins V next es k :
  (tapply_all V next (TUnpin <$> es)).(pins) !! k = if decide (k ∈ ((fun p => pkey p) <$> es)) then None else V.(pins) !! k.
Proof.
  unfold tapply_all. cbn [pins]. revert V. induction es as [|e es IH]; intros V; cbn [fmap list_fmap foldl]; [by rewrite decide_False by apply not_elem_of_nil|].
  rewrite IH. cbn [tapply pins]. destruct (decide (k ∈ (fun p => pkey p) <$> es)) as [Hin|Hn]; [by rewrite decide_True by (right; done)|].
  destruct (decide (k = pkey e)) as [->|Hne]; [rewrite decide_True by left; by rewrite lookup_delete_eq|].
  rewrite decide_False by (by intros [?|?]%elem_of_cons). by rewrite lookup_delete_ne.
Qed.

Lemma pin_tops_pins V next es pin k :
  (tapply_all V next (pin_tops es pin)).(pins) !! k =
  match pin with
  | Some p => if decide (k = pkey p) then Some (p, next) else (tapply_all V next (TUnpin <$> es)).(pins) !! k
  | None => (tapply_all V next (TUnpin <$> es)).(pins) !! k
  end.
Proof.
  unfold pin_tops. destruct pin as [p|]; [|change (TPin <$> option_list None) with (@nil top); by rewrite app_nil_r].
  change (TPin <$> option_list (Some p)) with [TPin p]. rewrite tapply_snoc. cbn [pins tapply].
  destruct (decide (k = pkey p)) as [->|Hne]; [by rewrite lookup_insert_eq|by rewrite lookup_insert_ne].
Qed.

Lemma fenced_pins own st tw a t n ops es pin :
  inv tw -> is_tail tw.(tv) st a t n -> Forall2 (op_repr upd) ops (pin_tops es pin) ->
  (forall e, e ∈ es -> pin_stream e = st) -> (forall e q m, e ∈ es -> tw.(tv).(pins) !! pkey e = Some (q, m) -> own (pkey e) \/ expired q tw.(tenv).(clock)) ->
  (forall p, pin = Some p -> own (pkey p) /\ pin_fits tw st p) ->
  (forall h q d, tw.(tenv).(readers) !! h = Some (q, d) -> own (pkey q) -> tw.(tenv).(clock) < d ->
    (forall p, pin = Some p -> pkey q = pkey p -> same_interval q p /\ d + 1000 - skew <= p.(pin_expires)) /\
    ((exists p, pin = Some p /\ pkey q = pkey p) \/ forall e, e ∈ es -> pkey e <> pkey q)) ->
  fenced own st tw (tapply_all tw.(tv) (tw.(tv).(trev) + 1) (pin_tops es pin ++ [TPut (akey st a) t])) a t.
Proof.
  intros Hi Ht Hops Hes Hexp Hpin Hread. eapply fenced_intro; [done|done|done|..].
  - intros x [(e & He & ->)|(p & Hp & ->)]%pin_tops_in; cbn; [auto|]. destruct (Hpin p Hp) as [_ [? _]]. done.
  - intros b Hb. left. apply tapply_rec_same. intros x [(e & He & ->)|(p & Hp & ->)]%pin_tops_in; by intros [].
  - intros id. rewrite pin_tops_pins, unpin_pins. destruct pin as [p|]; [destruct (decide ((st, id) = pkey p)) as [E|_]|].
    2, 3: destruct (decide _) as [(e & E & He)%list_elem_of_fmap|]; [|by left]; right; left; split; [done|]; rewrite E; intros q m; by apply Hexp.
    right; right. exists p. destruct (Hpin p eq_refl) as (Ho & Hst & Hok & He & Hfit). rewrite E. do 3 (split; [done|]). do 2 (split; [done|]).
    intros Hn. destruct (Hfit Hn) as [Hc Hd]. set (V' := tapply_all _ _ _).
    assert (forall b, V'.(recs) !! akey st b = if decide (b = a) then Some (t, V'.(trev)) else tw.(tv).(recs) !! akey st b) as HV.
    { intros b. unfold V'. rewrite tapply_snoc. cbn. destruct (decide (b = a)) as [->|Hb]; [by rewrite lookup_insert_eq|].
      rewrite lookup_insert_ne by congruence. apply tapply_rec_same. intros x [(e & _ & ->)|(p' & _ & ->)]%pin_tops_in; by intros []. }
    destruct Ht as [Ht _]. split.
    + intros off (b & r & m & Hr & Hrest)%Hc. destruct (decide (b = a)) as [->|Hb].
      * exists a, t, V'.(trev). rewrite HV, decide_True by done. split; [done|]. congruence.
      * exists b, r, m. by rewrite HV, decide_False.
    + intros b r m. rewrite HV. destruct (decide (b = a)) as [->|Hb]; [intros [= <- <-]; by apply (Hd a _ n)|apply Hd].
  - intros h q d Hh Hqs Ho Hd. rewrite pin_tops_pins, unpin_pins. destruct (Hread h q d Hh Ho Hd) as [Hnew Hold].
    destruct pin as [p|]; [destruct (decide (pkey q = pkey p)) as [E|Hne]|].
    { exists p, (trev (tv tw) + 1). split; [done|]. by apply Hnew. }
    all: destruct Hold as [(p' & ? & ?)|Hold]; [congruence|]; rewrite decide_False by (intros (e & E & He)%list_elem_of_fmap; by apply (Hold e)); by eapply inv_readers.
Qed.

(** ** Registering a pin *)

(** The pin's key holds the pin or nothing. *)
Definition unclaimed (p : PinRecord) : assertion := fun tw =>
  tw.(tv).(pins) !! pkey p = None \/ exists m, tw.(tv).(pins) !! pkey p = Some (p, m).

(** The pin was stored; it is gone only after it expired. *)
Definition stored_pin (p : PinRecord) : assertion := fun tw =>
  (exists m, tw.(tv).(pins) !! pkey p = Some (p, m)) \/ tw.(tv).(pins) !! pkey p = None /\ expired p tw.(tenv).(clock).

Lemma own_pin own k tw tw' : own k -> rely own tw tw' -> tw'.(tv).(pins) !! k = tw.(tv).(pins) !! k \/
  (tw'.(tv).(pins) !! k = None /\ forall q m, tw.(tv).(pins) !! k = Some (q, m) -> expired q tw'.(tenv).(clock)).
Proof. intros Ho Hr. apply (st_pins _ _ _ Hr). auto. Qed.

Lemma unclaimed_stable own p : own (pkey p) -> stable own (unclaimed p).
Proof. intros Ho tw tw' _ _ Hr Hp. unfold unclaimed. destruct (own_pin own (pkey p) _ _ Ho Hr) as [->|[-> _]]; [done|by left]. Qed.

Lemma stored_stable own p : own (pkey p) -> stable own (stored_pin p).
Proof.
  intros Ho tw tw' Hi Hi' Hr Hp. unfold stored_pin. destruct (own_pin own (pkey p) _ _ Ho Hr) as [->|[-> Hx]].
  - destruct Hp as [?|[? He]]; [by left|right]. split; [done|]. exact (expired_stable own p _ _ Hi Hi' Hr He).
  - right. split; [done|]. destruct Hp as [[m Hm]|[_ He]]; [by eapply Hx|]. exact (expired_stable own p _ _ Hi Hi' Hr He).
Qed.

Lemma stored_unclaimed p tw : stored_pin p tw -> unclaimed p tw.
Proof. intros [?|[? _]]; [by right|by left]. Qed.

Definition expires_soon (p : PinRecord) : assertion := fun tw => p.(pin_expires) <= tw.(tenv).(clock) + skew + LEASE_MS.

Lemma soon_stable own p : stable own (expires_soon p).
Proof. intros tw tw' _ _ Hr. unfold expires_soon. pose proof (st_clock _ _ _ Hr). lia. Qed.

Lemma unpin_ops es : (forall e, e ∈ es -> pin_typed e) -> Forall2 (op_repr upd) ((fun pin => Delete (pin_key pin)) <$> es) (TUnpin <$> es).
Proof. intros Hes. apply Forall2_fmap, Forall_Forall2_diag, list.Forall_forall. intros e He. split; [by apply Hes|done]. Qed.

Lemma pin_ops es p v : (forall e, e ∈ es -> pin_typed e) -> pin_ok p -> to_vec p = Some v ->
  Forall2 (op_repr upd) (((fun pin => Delete (pin_key pin)) <$> es) ++ [Put (pin_key p) v]) (pin_tops es (Some p)).
Proof. intros Hes Hp Hv. apply Forall2_app; [by apply unpin_ops|]. constructor; [|done]. split; [done|]. by exists v. Qed.

(** A pin within the tail's bounds. *)
Lemma pin_fits_tail tw st a t n p :
  inv tw -> is_tail tw.(tv) st a t n -> pin_stream p = st -> pin_ok p -> expires_soon p tw ->
  t.(trim_offset) <= p.(pin_begin) -> p.(pin_end) <= end_of t -> pin_fits tw st p.
Proof.
  intros Hi Ht Hst Hok Hs Hb He. do 3 (split; [done|]). intros _. pose proof (inv_stream _ Hi _ _ _ _ Ht) as [S1 S2 S3 S4 S5]. split.
  - intros off Ho. apply S4. lia.
  - intros b r m Hr Hd _. pose proof (S3 _ _ _ Hr Hd). lia.
Qed.

(** The expired pins a batch removes are not a reader's. *)
Lemma expired_reader tw st ps e h q d :
  inv tw -> pins_are st ps tw -> e ∈ ps -> expired e tw.(tenv).(clock) -> tw.(tenv).(readers) !! h = Some (q, d) -> tw.(tenv).(clock) < d -> pkey e <> pkey q.
Proof.
  intros Hi Hps He Hx Hh Hd E. destruct (inv_readers _ Hi _ _ _ Hh Hd) as (q' & m & Hq & _ & Hd'). apply Hps in He as [_ [m' He]].
  rewrite E, Hq in He. injection He as -> _. by eapply reader_expired.
Qed.

(** [holding] while the tail is the one captured. *)
Lemma holding_here st a s phi tw : holding st a s phi tw -> is_tail tw.(tv) st a s.(ss_record) s.(ss_revision) -> phi tw.
Proof. intros [_ Hphi] [Ht _]. apply Hphi. by exists (ss_record s). Qed.

Definition no_reader (k : StreamName * bytes) : assertion := fun tw =>
  forall h q d, tw.(tenv).(readers) !! h = Some (q, d) -> pkey q <> k.

Lemma no_reader_stable k : stable (only k) (no_reader k).
Proof.
  intros tw tw' _ _ Hr Hn h q d Hq Hk. apply (Hn h q d); [|done]. apply (st_readers _ _ _ Hr); [|done]. unfold only. auto.
Qed.

(** A pin that its owner may store. *)
Definition claim (since : Z) (p : PinRecord) : assertion := fun tw =>
  ((unclaimed p tw /\ expires_soon p tw) /\ no_reader (pkey p) tw) /\ since <= tw.(tenv).(clock).

Lemma claim_stable since p : stable (only (pkey p)) (claim since p).
Proof.
  apply stable_and; [|apply clock_stable]. apply stable_and; [apply stable_and; [by apply unclaimed_stable|apply soon_stable]|apply no_reader_stable].
Qed.

Section register.
Context (p : PinRecord) (Hok : pin_ok p).
Abbreviation st := (pin_stream p).
Abbreviation own := (only (pkey p)).

Lemma register_step a s ps es v tw :
  inv tw -> is_tail tw.(tv) st a s.(ss_record) s.(ss_revision) -> pins_are st ps tw -> (forall e, e ∈ es -> e ∈ ps) -> all_expired es tw ->
  unclaimed p tw -> expires_soon p tw -> to_vec p = Some v -> s.(ss_record).(trim_offset) <= p.(pin_begin) -> p.(pin_end) <= end_of s.(ss_record) ->
  let V' := tapply_all tw.(tv) (tw.(tv).(trev) + 1) (pin_tops es (Some p) ++ [TPut (akey st a) s.(ss_record)]) in
  fenced own st tw V' a s.(ss_record) /\ stored_pin p (mkTW V' tw.(hist) tw.(tenv)).
Proof using All.
  intros Hi Ht Hps Hsub Hexp Hun Hsoon Hv Hb He V'. split.
  - eapply fenced_pins; [done|done|apply pin_ops; [|done|done]|..].
    + intros e [_ [n Hn]]%Hsub%Hps. by apply inv_pins in Hn as (_ & [? _] & _).
    + intros e He'. by apply Hsub, Hps in He' as [? _].
    + intros e q m He' Hq. right. pose proof (Hsub _ He') as [_ [m' Hm]]%Hps. assert (q = e) as -> by congruence. by apply Hexp.
    + intros p' [= <-]. split; [done|]. by eapply pin_fits_tail.
    + intros h q d Hh Ho Hd. split; [|left; by exists p]. intros p' [= <-] _. destruct (inv_readers _ Hi _ _ _ Hh Hd) as (q' & m & Hq & Hsame & Hd').
      rewrite Ho in Hq. destruct Hun as [Hun|[m' Hun]]; [congruence|]. assert (q' = p) as -> by congruence. done.
  - left. eexists. unfold V'. rewrite tapply_snoc. cbn [tv pins tapply]. rewrite pin_tops_pins. by rewrite decide_True.
Qed.

Lemma opt_lt_end o e : opt_lt o (Some e) = false -> exists x, o = Some x /\ e <= x.
Proof. destruct o as [x|]; cbn; [|done]. intros Hx. exists x. split; [done|lia]. Qed.

Lemma register_loop_wp c attempts tw :
  inv tw -> claim c p tw -> wp own (register_loop upd attempts p) (fun r tw => match r with Ok _ => stored_pin p tw /\ claim c p tw | Err _ => True end) tw.
Proof using All.
  assert (name_ok st) as Hst by (destruct Hok as [[? _] _]; done). assert (own (pkey p)) as Hown by done. pose proof (claim_stable c p) as HP.
  revert tw. induction attempts as [|m IH]; intros tw Hi Hcl; cbn [register_loop]; [done|]. apply wp_try; [done|].
  eapply wp_mono; [done|apply (load_tail_wp upd own _ truth st tw Hi HP (truth_stable own) Hst Hcl); done|].
  intros [[s|]|e] tw1 Hi1 [Hcl1 Ht] _; [|done|done]. destruct Ht as [a Ht]. destruct (_ || _) eqn:Eb; [done|].
  apply orb_false_iff in Eb as [Eb1 (x & Ex & Hx)%opt_lt_end]. assert (end_of (ss_record s) = x) as Hend by (unfold end_of; by rewrite Ex).
  apply wp_try; [done|]. eapply wp_mono; [done|apply (read_pins_wp own (fun tw => claim c p tw /\ tail_snap st a s tw) st a s); try done|].
  { apply stable_and; [done|apply tail_snap_stable]. }
  intros [ps|e] tw2 Hi2 [[Hcl2 _] Hps] _; [|done]. destruct Hps as [Hty Hps]. rewrite list.Forall_forall in Hty. apply wp_bind; [done|].
  eapply wp_mono; [done|apply (expired_pins_wp own (fun tw => claim c p tw /\ holding st a s (pins_are st ps) tw)); try done|].
  { apply stable_and; [done|apply holding_stable, pins_are_stream]. }
  intros es tw3 Hi3 ([Hcl3 Hps3] & Hsub & Hexp) _. destruct (_ <=? _); [done|]. apply wp_lift. unfold pin_put.
  destruct (to_vec p) as [v|] eqn:Ev; [|done]. apply wp_bind; [done|].
  set (P3 := fun tw => (claim c p tw /\ holding st a s (pins_are st ps) tw) /\ all_expired es tw). set (Q := fun tw => stored_pin p tw /\ claim c p tw).
  assert (forall tw, P3 tw \/ Q tw -> claim c p tw) as Hback by (intros tw4 [[[? _] _]|[_ ?]]; done).
  eapply wp_mono; [done|apply (fenced_wp upd own st a s P3 Q (pin_tops es (Some p))); try done|].
  - apply stable_and; [apply stable_and; [done|apply holding_stable, pins_are_stream]|apply all_expired_stable].
  - apply stable_and; [by apply stored_stable|done].
  - by intros tw4 [[_ [? _]] _].
  - intros tw4 Hi4 Htl [[[[[Hun4 Hsoon4] Hn4] Hc4] Hh] He4].
    destruct (register_step a s ps es v tw4 Hi4 Htl (holding_here _ _ _ _ _ Hh Htl) Hsub He4 Hun4 Hsoon4 Ev) as [? Hs]; [lia|lia|].
    split; [done|]. split; [done|]. split; [|done]. split; [|done]. split; [|done]. by apply stored_unclaimed.
  - apply pin_ops; auto.
  - intros [[]|e] tw4 Hi4 Hres _; [by apply wp_ret|].
    destruct e; try done; (pose proof (Hback tw4) as Hcl4; specialize (Hcl4 ltac:(first [exact Hres|left; exact Hres]))); [by apply IH|].
    apply wp_try; [done|]. apply wp_kv_get; [|done]. intros mm Hr tw5 Hrel Hi5. pose proof (relys_keep own _ _ _ Hrel Hi4 HP Hcl4) as Hcl5.
    destruct (get_pin upd mm _ p Hr) as [[_ ->]|(q & n & w & Hq & _ & _ & _ & Hw & _ & ->)]; [apply Hok|by apply IH|]. cbn [value]. rewrite Hw.
    destruct (bool_decide_reflect (q = p)) as [->|]; [|by apply IH]. apply wp_ret. split; [|done].
    refine (relys_keep own _ _ _ Hrel Hi4 (stored_stable own p Hown) _). left. by exists n.
Qed.

End register.

(** ** Maintaining a pin *)

(** The pin's task has its reader to itself. *)
Definition reader_at (h : nat) (p : PinRecord) (d : Z) : assertion := fun tw =>
  tw.(tenv).(readers) !! h = Some (p, d) /\ forall h' q d', tw.(tenv).(readers) !! h' = Some (q, d') -> pkey q = pkey p -> h' = h.

(** The pin's key holds the pin's interval or nothing. *)
Definition same_slot (p : PinRecord) : assertion := fun tw =>
  tw.(tv).(pins) !! pkey p = None \/ exists q m, tw.(tv).(pins) !! pkey p = Some (q, m) /\ same_interval p q.

Lemma reader_stable k h p d : pkey p = k -> stable (only k) (reader_at h p d).
Proof.
  intros Hk tw tw' _ _ Hr [Hh Hu]. assert (forall q, pkey q = k -> ~ ~ only k (pkey q)) as Ho by (intros q Hq; unfold only; auto). split.
  - apply (st_readers _ _ _ Hr); [by apply Ho|done].
  - intros h' q d' Hq Hkq. eapply Hu; [|done]. apply (st_readers _ _ _ Hr); [apply Ho; congruence|done].
Qed.

Lemma slot_stable k p : pkey p = k -> stable (only k) (same_slot p).
Proof. intros Hk tw tw' _ _ Hr Hp. unfold same_slot. destruct (own_pin (only k) (pkey p) _ _ Hk Hr) as [->|[-> _]]; [done|by left]. Qed.

Lemma same_interval_sym p q : same_interval p q -> same_interval q p.
Proof. by intros (? & ? & ? & ?). Qed.

Lemma same_interval_trans p q r : same_interval p q -> same_interval q r -> same_interval p r.
Proof. intros (? & ? & ? & ?) (? & ? & ? & ?). unfold same_interval. repeat split; congruence. Qed.

(** A step on the readers of one pin. *)
Lemma readers_step k tw f :
  inv tw -> (forall h p d, f !! h = Some (p, d) -> tw.(tenv).(readers) !! h = Some (p, d) \/ pkey p = k /\
    (tw.(tenv).(clock) < d -> exists q m, tw.(tv).(pins) !! pkey p = Some (q, m) /\ same_interval p q /\ d + 1000 - skew <= q.(pin_expires))) ->
  (forall h p d, tw.(tenv).(readers) !! h = Some (p, d) -> f !! h = Some (p, d) \/ pkey p = k) ->
  inv (set_readers tw f) /\ step_ok (only k) tw (set_readers tw f).
Proof.
  intros Hi Hf Hf'. pose proof (step_refl (only k) tw Hi) as R. split.
  - destruct Hi. split; cbn [set_readers tv hist tenv clock caches readers]; try done.
    + intros st a t n Ht. destruct (inv_stream0 _ _ _ _ Ht) as [S1 S2 S3 S4 S5]. by split.
    + intros h p d Hh Hd. destruct (Hf _ _ _ Hh) as [Hold|[_ Hnew]]; [by eapply inv_readers0|auto].
  - destruct R. split; cbn [set_readers tv hist tenv clock caches readers]; try done.
    intros h p d Hk. split; intros Hh; [destruct (Hf _ _ _ Hh) as [?|[? _]]; done|destruct (Hf' _ _ _ Hh) as [?|?]; done].
Qed.

Lemma matches_pin_wp own (P S : assertion) p tw :
  inv tw -> pin_typed p -> stable own P -> stable own S -> P tw ->
  (forall m, tw.(tv).(pins) !! pkey p = Some (p, m) -> S tw) ->
  wp own (matches_pin p) (fun r tw => P tw /\ (r = Ok true -> S tw)) tw.
Proof.
  intros Hi Hty HP HS Hp Hs. unfold matches_pin. apply wp_try; [done|]. apply wp_kv_get.
  2: { intros e tw' Hrel _. split; [by eapply relys_keep|done]. }
  intros mm Hr tw' Hrel Hi'. pose proof (relys_keep _ _ _ _ Hrel Hi HP Hp) as Hp'.
  destruct (get_pin upd mm _ p Hr Hty) as [[_ ->]|(q & n & w & Hq & _ & _ & _ & Hw & Hlen & ->)]; [by apply wp_ret|]. cbn [value].
  destruct (Z.ltb_spec 1024 (len w)); [lia|]. rewrite Hw. apply wp_ret. split; [done|]. intros [= Heq%bool_decide_eq_true].
  rewrite Heq in Hq. eapply relys_keep; [done|done|done|by eapply Hs].
Qed.

Lemma release_wp p attempts tw :
  inv tw -> pin_typed p -> no_reader (pkey p) tw -> wp (only (pkey p)) (release_loop upd attempts p) (fun _ _ => True) tw.
Proof.
  intros Hi Hty. revert tw Hi. induction attempts as [|m IH]; intros tw Hi Hn; cbn [release_loop]; [done|]. apply wp_bind; [done|].
  eapply wp_mono; [done|apply (load_tail_wp upd (only (pkey p)) (no_reader (pkey p)) truth (pin_stream p)); try done; [apply no_reader_stable|apply Hty]|].
  intros [[s|]|e] tw1 Hi1 [Hn1 Ht] _; [|done|done]. destruct Ht as [a Ht]. apply wp_bind; [done|].
  set (P := fun tw => no_reader (pkey p) tw /\ tail_snap (pin_stream p) a s tw).
  eapply wp_mono; [done|apply (fenced_wp upd (only (pkey p)) (pin_stream p) a s P (no_reader (pkey p)) (pin_tops [p] None)); try done|].
  - apply stable_and; [apply no_reader_stable|apply tail_snap_stable].
  - apply no_reader_stable.
  - by intros tw2 [_ ?].
  - intros tw2 Hi2 Htl [Hn2 _]. split; [|done]. eapply fenced_pins; [done|done|by apply (unpin_ops [p]); intros e ->%list_elem_of_singleton|..].
    + by intros e ->%list_elem_of_singleton.
    + intros e q m' ->%list_elem_of_singleton _. by left.
    + done.
    + intros h q d Hh Ho. by apply Hn2 in Hh.
  - by apply (unpin_ops [p]); intros e ->%list_elem_of_singleton.
  - intros [[]|e] tw2 Hi2 Hres _; [done|]. destruct e; try done. apply IH; [done|]. apply Hres.
Qed.

Section maintain.
Context (h : nat) (p0 : PinRecord).
Abbreviation k := (pkey p0).
Abbreviation st := (pin_stream p0).

Definition held (d : Z) : assertion := fun tw => (reader_at h p0 d tw /\ same_slot p0 tw) /\ d <= tw.(tenv).(clock) + LEASE_MS - 1000.

Lemma held_stable d : stable (only k) (held d).
Proof.
  apply stable_and; [apply stable_and; [by apply reader_stable|by apply slot_stable]|].
  intros tw tw' _ _ Hr. pose proof (st_clock _ _ _ Hr). lia.
Qed.

(** Setting the deadline. *)
Lemma store_wp d d' (q : prog unit) tw :
  inv tw -> held d tw -> d' <= tw.(tenv).(clock) + LEASE_MS - 1000 ->
  (tw.(tenv).(clock) < d' -> exists r m, tw.(tv).(pins) !! k = Some (r, m) /\ same_interval p0 r /\ d' + 1000 - skew <= r.(pin_expires)) ->
  (forall tw', inv tw' -> held d' tw' -> wp (only k) q (fun _ _ => True) tw') ->
  wp (only k) (StoreDeadline h d' q) (fun _ _ => True) tw.
Proof.
  intros Hi Hh Hd' Hnew Hq. cbn [StreamRules.wp]. intros p d0 Hr. pose proof Hh as [[[Hr0 Hu] Hs] _]. assert (p = p0) as -> by congruence. cbv zeta.
  destruct (readers_step k tw (<[h := (p0, d')]> tw.(tenv).(readers)) Hi) as [Hi' Hs'].
  - intros h' p d1 [[<- [= <- <-]]|[_ ?]]%lookup_insert_Some; [right; done|by left].
  - intros h' p d1 Hp. destruct (decide (h' = h)) as [->|Hne]; [right; congruence|left; by rewrite lookup_insert_ne].
  - do 2 (split; [done|]). intros tw' Hrel. apply Hq; [by eapply relys_inv|]. eapply relys_keep; [done|done|apply held_stable|]. split; [|done]. split; [|done].
    unfold reader_at. cbn [set_readers tenv readers]. split; [by rewrite lookup_insert_eq|]. intros h' q' d1 [[<- _]|[_ Hq']]%lookup_insert_Some; [done|]. by eapply Hu.
Qed.

Lemma lost_wp d tw : inv tw -> held d tw -> wp (only k) (lost_pin h) (fun _ _ => True) tw.
Proof.
  intros Hi Hh. apply wp_bind; [done|]. eapply wp_mono; [done|apply (instant_wp _ _ tw Hi (held_stable d) Hh)|].
  intros now tw' Hi' (Hh' & _ & Hc) _. eapply store_wp; [done|done|lia|lia|done].
Qed.

(** What the pin protects is there. *)
Definition protects (pin : PinRecord) (tw : tworld) : Prop :=
  (forall off, pin.(pin_begin) <= off < pin.(pin_end) -> covered tw.(tv) st off) /\
  (forall b r m, tw.(tv).(recs) !! akey st b = Some (r, m) -> r.(state) = DeletingState ->
     pin.(pin_active) = Some r.(chunk_id) -> end_of r <= pin.(pin_begin)).

Lemma protects_stream pin : of_stream st (protects pin).
Proof.
  intros tw tw' _ _ Hs _ [Hc Hd]. split; [intros off Ho; eapply same_covered; [done|auto]|]. destruct Hs as [Hs _]. intros b r m. rewrite Hs. apply Hd.
Qed.

(** A renewal. *)
Lemma renew_step a s next v d tw :
  inv tw -> is_tail tw.(tv) st a s.(ss_record) s.(ss_revision) -> protects next tw -> held d tw -> expires_soon next tw -> pin_ok next ->
  to_vec next = Some v -> same_interval p0 next -> d + 1000 - skew <= next.(pin_expires) ->
  let V' := tapply_all tw.(tv) (tw.(tv).(trev) + 1) (pin_tops [] (Some next) ++ [TPut (akey st a) s.(ss_record)]) in
  fenced (only k) st tw V' a s.(ss_record) /\ (held d (mkTW V' tw.(hist) tw.(tenv)) /\ stored_pin next (mkTW V' tw.(hist) tw.(tenv))).
Proof.
  intros Hi Ht Hprot Hh Hsoon Hok Hv Hsame Hd V'. pose proof Hsame as (Hk & Hb & He & Ha). assert (V'.(pins) !! k = Some (next, tw.(tv).(trev) + 1)) as Hpin.
  { unfold V'. rewrite tapply_snoc. cbn [tv pins tapply]. rewrite pin_tops_pins. by rewrite decide_True. }
  split; [|split].
  - eapply fenced_pins; [done|done|apply (pin_ops []); [by intros ? ?%elem_of_nil|done|done]|..].
    + by intros e ?%elem_of_nil.
    + by intros e q m ?%elem_of_nil.
    + intros p [= <-]. split; [done|]. split; [congruence|]. split; [done|]. split; [done|]. by intros _.
    + intros h' q d' Hq Ho Hd'. pose proof Hh as [[[Hr Hu] _] _]. pose proof (Hu _ _ _ Hq Ho) as ->. assert (q = p0) as -> by congruence. assert (d' = d) as -> by congruence.
      split; [|left; by exists next]. intros p [= <-] _. done.
  - destruct Hh as [[Hr _] Hc]. split; [|done]. split; [done|]. right. exists next, (tw.(tv).(trev) + 1). done.
  - left. exists (tw.(tv).(trev) + 1). cbn [tv]. by rewrite <- Hk.
Qed.

Lemma load_deadline_wp {A} (P : assertion) d (q : Z -> prog A) Q tw :
  inv tw -> stable (only k) P -> P tw -> (P tw -> held d tw) -> (forall tw', inv tw' -> P tw' -> wp (only k) (q d) Q tw') ->
  wp (only k) (LoadDeadline h q) Q tw.
Proof.
  intros Hi HP Hp Hh Hq. cbn [StreamRules.wp]. intros p x Hr tw' Hrel. pose proof (Hh Hp) as [[[Hr' _] _] _]. assert (x = d) as -> by congruence.
  apply Hq; [by eapply relys_inv|by eapply relys_keep].
Qed.

(** Held, at a time after [started]. *)
Definition since (started d : Z) : assertion := fun tw => held d tw /\ started <= tw.(tenv).(clock).

Lemma since_stable started d : stable (only k) (since started d).
Proof. apply stable_and; [apply held_stable|apply clock_stable]. Qed.

(** A renewed pin, and the deadline it allows. *)
Definition renewed (started d : Z) (next : PinRecord) : Prop :=
  pin_ok next /\ same_interval p0 next /\ d + 1000 - skew <= next.(pin_expires) /\ started + LEASE_MS - skew <= next.(pin_expires).

Lemma renew_batch_wp a s next v started d tw :
  inv tw -> since started d tw -> renewed started d next -> expires_soon next tw -> holding st a s (protects next) tw -> to_vec next = Some v ->
  wp (only k) (fenced_batch upd s [Put (pin_key next) v]) (fun r tw => inv tw ->
    wp (only k) (match r with
                 | Ok _ => Ret true
                 | Err WriteStalled => m <- matches_pin next;; Ret (match m with Ok b => b | Err _ => false end)
                 | Err _ => Ret false
                 end)
      (fun b tw => since started d tw /\ (b = true -> stored_pin next tw)) tw) tw.
Proof.
  intros Hi Hs (Hok & Hsame & Hd & Hst) Hsoon Hh Hv. assert (pkey next = k) as Hk by (by destruct Hsame as [-> _]).
  set (P := fun tw => (since started d tw /\ expires_soon next tw) /\ holding st a s (protects next) tw).
  set (Q := fun tw => since started d tw /\ stored_pin next tw).
  assert (stable (only k) Q) as HQ by (apply stable_and; [apply since_stable|by apply stored_stable]).
  eapply wp_mono; [done|apply (fenced_wp upd (only k) st a s P Q (pin_tops [] (Some next))); try done|].
  - apply stable_and; [apply stable_and; [apply since_stable|apply soon_stable]|apply holding_stable, protects_stream].
  - by intros tw1 [_ [? _]].
  - intros tw1 Hi1 Ht [[[Hh1 Hc1] Hsoon1] Hp1].
    destruct (renew_step a s next v d tw1 Hi1 Ht (holding_here _ _ _ _ _ Hp1 Ht) Hh1 Hsoon1 Hok Hv Hsame Hd) as (? & ? & ?). done.
  - apply (pin_ops []); [by intros ? ?%elem_of_nil|done|done].
  - intros [[]|e] tw1 Hi1 Hres _; [by apply wp_ret; destruct Hres|].
    assert (since started d tw1) as Hs1 by (destruct e; cbn in Hres; unfold P, Q in Hres; tauto). destruct e; try by apply wp_ret.
    apply wp_bind; [done|]. eapply wp_mono; [done|apply (matches_pin_wp (only k) (since started d) (stored_pin next)); try done|].
    + apply Hok.
    + apply since_stable.
    + by apply stored_stable.
    + intros m Hm. left. by exists m.
    + intros [b|e] tw2 Hi2 [Hs2 Hm] _; apply wp_ret; (split; [done|]); [intros ->; auto|done].
Qed.

(** The deadline after a renewal. *)
Lemma renew_deadline_wp next started d (q : prog unit) tw :
  inv tw -> since started d tw -> renewed started d next -> stored_pin next tw ->
  (forall d' tw', inv tw' -> held d' tw' -> wp (only k) q (fun _ _ => True) tw') ->
  wp (only k) (now <- instant;; LoadDeadline h (fun deadline =>
    if deadline <=? now then lost_pin h else StoreDeadline h (started + (LEASE_MS - 1000)) q))
    (fun _ _ => True) tw.
Proof.
  intros Hi Hs (Hok & Hsame & Hd & Hst) Hstored Hq. assert (pkey next = k) as Hk by (by destruct Hsame as [-> _]).
  assert (stable (only k) (fun tw => since started d tw /\ stored_pin next tw)) as HP by (apply stable_and; [apply since_stable|by apply stored_stable]).
  apply wp_bind; [done|]. eapply wp_mono; [done|apply (instant_wp _ _ tw Hi HP (conj Hs Hstored))|]. intros now tw1 Hi1 [Hp1 _] _.
  eapply (load_deadline_wp _ d); [done|exact HP|done|by intros [[? _] _]|]. intros tw2 Hi2 [[Hh2 Hc2] Hst2].
  destruct (d <=? now); [by eapply lost_wp|]. eapply store_wp; [done|done|lia| |intros tw' Hi' Hh'; by eapply Hq]. intros Hlt.
  destruct Hst2 as [[m Hm]|[_ He]]; [exists next, m; rewrite <- Hk; split; [done|]; split; [done|lia]|].
  unfold expired in He. pose proof skew_ok. lia.
Qed.

Definition pin_here (pin : PinRecord) (tw : tworld) : Prop := exists m, tw.(tv).(pins) !! pkey pin = Some (pin, m).

Lemma pin_here_stream pin : pkey pin = k -> of_stream st (pin_here pin).
Proof. intros Hk tw tw' _ _ [_ Hp] _ [m Hm]. exists m. by rewrite Hk, Hp, <- Hk. Qed.

Lemma renew_ok pin y started d tw :
  inv tw -> since started d tw -> pin_ok pin -> same_interval p0 pin -> 0 <= y -> Z.abs (y - tw.(tenv).(clock)) <= skew ->
  renewed started d (renew pin (sat_add64 y LEASE_MS)) /\ expires_soon (renew pin (sat_add64 y LEASE_MS)) tw.
Proof.
  intros Hi [[_ Hd] Hc] Hok Hsame Hy Habs. pose proof (inv_clock _ Hi). pose proof skew_ok. unfold renewed, expires_soon, renew. cbn [pin_expires].
  assert (sat_add64 y LEASE_MS = y + LEASE_MS) as -> by (unfold sat_add64, u64_max; lia).
  split; [|lia]. split; [|by split; [|lia]]. destruct Hok as [(O1 & O2 & O3 & O4 & O5) O6]. split; [|done].
  do 4 (split; [done|]). cbn. unfold is_u64, u64_max. lia.
Qed.

Lemma renew_pin_wp a s pin started d again tw :
  inv tw -> pin_ok pin -> same_interval p0 pin -> since started d tw -> holding st a s (pin_here pin) tw ->
  (forall pin d tw, inv tw -> pin_ok pin -> same_interval p0 pin -> held d tw -> wp (only k) (again pin) (fun _ _ => True) tw) ->
  wp (only k) (renew_pin upd s h started pin again) (fun _ _ => True) tw.
Proof.
  intros Hi Hok Hsame Hs Hm IH. assert (pkey pin = k) as Hk by (by destruct Hsame as [-> _]). unfold renew_pin. apply wp_bind; [done|].
  eapply wp_mono; [done|apply (now_wp (only k) (since started d) (fun x tw => x < pin_expires pin -> holding st a s (protects pin) tw)); try done|].
  { apply since_stable. }
  { intros x. apply stable_all. intros _. apply holding_stable, protects_stream. }
  { intros x Hx Habs Hlt. destruct Hm as [Ht Hcur]. split; [done|]. intros [m Hpin]%Hcur. rewrite Hk in Hpin. eapply inv_pinned; [done|done|].
    unfold expired. pose proof skew_ok. lia. }
  intros x tw1 Hi1 [Hs1 Hprot] _. destruct (Z.leb_spec (pin_expires pin) x); [eapply lost_wp; [done|apply Hs1]|]. specialize (Hprot ltac:(lia)).
  apply wp_bind; [done|]. eapply wp_mono; [done|apply (now_wp (only k) (fun tw => since started d tw /\ holding st a s (protects pin) tw)
    (fun y tw => renewed started d (renew pin (sat_add64 y LEASE_MS)) /\ expires_soon (renew pin (sat_add64 y LEASE_MS)) tw)); try done|].
  { apply stable_and; [apply since_stable|apply holding_stable, protects_stream]. }
  { intros y. apply stable_and; [apply stable_pure|apply soon_stable]. }
  { intros y Hy Habs. by apply renew_ok. }
  intros y tw2 Hi2 [[Hs2 Hp2] [Hren Hsoon]] _. set (next := renew pin (sat_add64 y LEASE_MS)) in *. cbv zeta. unfold pin_put.
  destruct (to_vec next) as [v|] eqn:Ev; [|eapply lost_wp; [done|apply Hs2]]. apply wp_bind; [done|].
  eapply wp_mono; [done|by apply (renew_batch_wp a s next v started d)|]. intros r tw3 Hi3 Hr _. apply wp_bind; [done|].
  eapply wp_mono; [done|by apply Hr|]. intros [|] tw4 Hi4 [Hs4 Hst4] _; [|eapply IH; [done|done|done|apply Hs4]].
  apply (renew_deadline_wp next started d); [done|done|done|auto|]. intros d' tw' Hi' Hh'. destruct Hren as (? & ? & _). by eapply IH.
Qed.

Lemma drop_wp pin d tw : inv tw -> pin_ok pin -> same_interval p0 pin -> held d tw -> wp (only k) (DropPin h (release_pin upd pin)) (fun _ _ => True) tw.
Proof.
  intros Hi Hok Hsame [[[Hr Hu] _] _]. assert (pkey pin = k) as Hk by (by destruct Hsame as [-> _]). cbn [StreamRules.wp]. cbv zeta.
  destruct (readers_step k tw (delete h tw.(tenv).(readers)) Hi) as [Hi' Hs'].
  - intros h' p d' [_ ?]%lookup_delete_Some. by left.
  - intros h' p d' Hp. destruct (decide (h' = h)) as [->|Hne]; [right; congruence|left; by rewrite lookup_delete_ne].
  - do 2 (split; [done|]). intros tw' Hrel. rewrite <- Hk in *. apply release_wp; [by eapply relys_inv|apply Hok|].
    eapply relys_keep; [done|done|apply no_reader_stable|]. unfold no_reader. cbn [set_readers tenv readers].
    intros h' q d' [Hne Hq]%lookup_delete_Some Hkq. apply Hne. symmetry. eapply Hu; [done|congruence].
Qed.

Lemma maintain_wp stops pin d tw :
  inv tw -> pin_ok pin -> same_interval p0 pin -> held d tw -> wp (only k) (maintain upd stops h pin) (fun _ _ => True) tw.
Proof.
  revert pin d tw. induction stops as [|[|] stops IH]; intros pin d tw Hi Hok Hsame Hh; cbn [maintain]; [done|by eapply drop_wp|].
  assert (pkey pin = k) as Hk by (by destruct Hsame as [-> _]).
  apply wp_bind; [done|]. eapply wp_mono; [done|apply (instant_wp _ _ tw Hi (held_stable d) Hh)|]. intros started tw1 Hi1 (Hh1 & _ & Hc1) _.
  eapply (load_deadline_wp (since started d) d); [done|apply since_stable|done|by intros [? _]|]. intros tw2 Hi2 Hs2.
  destruct (d <=? started); [eapply lost_wp; [done|apply Hs2]|]. assert (pin_stream pin = st) as Hst by congruence. rewrite Hst.
  apply wp_bind; [done|]. eapply wp_mono; [done|apply (load_tail_wp upd (only k) (since started d) truth st); try done; [apply since_stable|]|].
  { rewrite <- Hst. apply Hok. }
  intros [[s|]|e] tw3 Hi3 [Hs3 Ht] _; [|eapply IH; [done|done|done|apply Hs3]..]. destruct Ht as [a Ht]. apply wp_bind; [done|].
  eapply wp_mono; [done|apply (matches_pin_wp (only k) (since started d) (holding st a s (pin_here pin))); try done|].
  { apply Hok. }
  { apply since_stable. }
  { by apply holding_stable, pin_here_stream. }
  { intros m Hm. split; [done|]. intros _. by exists m. }
  intros [[|]|e] tw4 Hi4 [Hs4 Hm] _; [|eapply lost_wp; [done|apply Hs4]|eapply IH; [done|done|done|apply Hs4]].
  eapply renew_pin_wp; [done|done|done|done|by apply Hm|]. intros pin' d' tw' Hi' Hok' Hsame' Hh'. by eapply IH.
Qed.

End maintain.

(** ** Opening a pin *)

(** The task a pin spawns. *)
Definition maintained : owner -> nat -> PinRecord -> assertion := fun own h pin tw =>
  own = only (pkey pin) /\ forall stops, always own (wp own (maintain upd stops h pin) (fun _ _ => True)) tw.

(** A pin's key that nobody used. *)
Definition unused (k : StreamName * bytes) : assertion := fun tw => tw.(tv).(pins) !! k = None /\ no_reader k tw.

Lemma unused_stable k : stable (only k) (unused k).
Proof.
  apply stable_and; [|apply no_reader_stable]. intros tw tw' _ _ Hr Hn. by destruct (own_pin (only k) k _ _ eq_refl Hr) as [->|[-> _]].
Qed.

Lemma check_pin_wp own h tw : inv tw -> wp own (check_pin h) (fun _ _ => True) tw.
Proof. intros Hi. unfold check_pin, instant. cbn. by intros tw' _ p x _ tw'' _. Qed.

Lemma new_pin_step k p d h tw :
  inv tw -> pkey p = k -> stored_pin p tw -> no_reader k tw -> d + 1000 - skew <= p.(pin_expires) -> d <= tw.(tenv).(clock) + LEASE_MS - 1000 ->
  tw.(tenv).(readers) !! h = None ->
  let tw' := set_readers tw (<[h := (p, d)]> tw.(tenv).(readers)) in inv tw' /\ step_ok (only k) tw tw' /\ held h p d tw'.
Proof.
  intros Hi Hk Hst Hn Hd Hc Hh tw'. destruct (readers_step k tw (<[h := (p, d)]> tw.(tenv).(readers)) Hi) as [Hi' Hs'].
  - intros h' q d' [[<- [= <- <-]]|[_ ?]]%lookup_insert_Some; [|by left]. right. split; [done|]. intros Hlt.
    destruct Hst as [[m Hm]|[_ He]]; [by exists p, m|]. unfold expired in He. pose proof skew_ok. lia.
  - intros h' q d' Hq. left. rewrite lookup_insert_ne; [done|]. intros ->. congruence.
  - do 2 (split; [done|]). split; [|done]. split.
    + unfold reader_at, tw'. cbn [set_readers tenv readers]. split; [by rewrite lookup_insert_eq|].
      intros h' q d' [[<- _]|[_ Hq]]%lookup_insert_Some Hkq; [done|]. rewrite Hk in Hkq. by apply Hn in Hq.
    + destruct Hst as [[m Hm]|[Hm _]]; [right; by exists p, m|by left].
Qed.

Lemma pin_read_wp id captured a tw :
  let k := (captured.(ss_record).(stream_id), id) in
  inv tw -> length id = 16%nat -> snap_of (akey captured.(ss_record).(stream_id) a) captured -> unused k tw ->
  StreamRules.wp upd maintained (only k) (pin_read upd id captured) (fun _ _ => True) tw.
Proof.
  intros k Hi Hid Hsn Hun. unfold pin_read. apply wp_bind; [done|].
  eapply wp_mono; [done|apply (instant_wp _ _ tw Hi (unused_stable k) Hun)|]. intros started tw1 Hi1 (Hun1 & _ & Hc1) _.
  apply wp_lift. destruct (logical_end (ss_record captured)) as [stop|] eqn:Estop; [|done]. apply wp_bind; [done|].
  set (r := ss_record captured). set (rec := fun y => mkPin id (stream_id r) (trim_offset r) stop (Some (chunk_id r)) (sat_add64 y LEASE_MS)).
  eapply wp_mono; [done|apply (now_wp (only k) (fun tw => unused k tw /\ started <= tw.(tenv).(clock))
    (fun y tw => (pin_ok (rec y) /\ started + LEASE_MS - skew <= (rec y).(pin_expires)) /\ expires_soon (rec y) tw)); try done|].
  { apply stable_and; [apply unused_stable|apply clock_stable]. }
  { intros y. apply stable_and; [apply stable_pure|apply soon_stable]. }
  { intros y Hy Habs. pose proof (inv_clock _ Hi1). pose proof skew_ok. destruct Hsn as (Hok & _). pose proof (rec_range _ _ _ Hok) as [_ Htr].
    assert (sat_add64 y LEASE_MS = y + LEASE_MS) as Hsat by (unfold sat_add64, u64_max; lia).
    destruct Hok as [(T1 & T2 & _ & _ & _ & T3 & _ & _ & _ & T4 & _) _]. unfold end_of in Htr. rewrite Estop in Htr.
    unfold pin_ok, pin_typed, expires_soon, rec. cbn [pin_id pin_stream pin_begin pin_end pin_expires]. rewrite Hsat.
    split; [|lia]. split; [|lia]. split; [|exact Htr]. split; [done|]. split; [done|]. split; [done|]. split; [by apply T3|]. unfold is_u64, u64_max. lia. }
  intros y tw2 Hi2 [[Hun2 Hc2] [[Hok Hexp] Hsoon]] _. cbv zeta. apply wp_try; [done|].
  eapply wp_mono; [done|apply (register_loop_wp (rec y) Hok started 16 tw2 Hi2)|].
  { destruct Hun2 as [Hn Hr]. split; [|done]. split; [|done]. split; [by left|done]. }
  intros [[]|e] tw3 Hi3 Hst _; [|done]. destruct Hst as [Hst [[_ Hn] Hc3]]. cbn [StreamRules.wp]. intros h Hh. cbv zeta.
  destruct (new_pin_step k (rec y) (started + (LEASE_MS - 1000)) h tw3 Hi3 eq_refl Hst Hn) as (Hi' & Hs' & Hheld); [lia|lia|done|].
  do 2 (split; [done|]). split.
  - split; [done|]. intros stops tw' Hrel. eapply (maintain_wp h (rec y)); [by eapply relys_inv|done|done|].
    exact (relys_keep _ _ _ _ Hrel Hi' (held_stable h (rec y) _) Hheld).
  - intros tw' Hrel. assert (inv tw') as Hi'' by (by eapply relys_inv). apply wp_try; [done|].
    eapply wp_mono; [done|by apply check_pin_wp|]. by intros [[]|e].
Qed.

End pins.

End StreamPins.
