(* ===== verification/StreamCollect.v ===== *)
(** * Collection is safe

    A collection marks a trimmed record under the tail it read the pins with,
    and releases the chunk only then; the record is removed under the tail that
    is current after the release. *)

From stdpp Require Import prelude gmap list list_numbers strings countable.
From Stdlib Require Import ZArith Lia.
From S2P Require Import Prelude Roles Bytes WalRecord KeyEncoding ChunkSlots BinaryKeys Frame FrameGeometry StreamMappings StreamChunk StreamStore StreamView StreamLogic StreamSteps StreamRules StreamOps StreamPins.

Module StreamCollect.
Import KeyEncoding ChunkSlots BinaryKeys Frame FrameGeometry StreamMappings StreamChunk StreamStore StreamView StreamLogic StreamSteps StreamRules
  StreamOps StreamPins.

Section collect.
Context (upd : Z -> bytes -> Z) `{!Crc32c upd} `{BincodeLaws} `{PinJsonLaws} `{Skew}.

Abbreviation wp := (wp upd no_child).

Lemma reclaim_stable own st b id stop : stable own (reclaim_at st b id stop).
Proof.
  intros tw tw' Hi Hi' Hr (r & a & t & n & Hh & Hid & Hend & Hdel & Ht & Hb & Htrim).
  destruct (st_tail _ _ _ Hr _ _ _ _ Ht) as (a' & t' & n' & Ht' & Ha & Hadv). exists r, a', t', n'. split; [by eapply (st_old _ _ _ Hr)|].
  do 2 (split; [done|]). split; [|split; [done|]; split; [lia|]; pose proof (adv_trim _ _ Hadv); lia].
  intros r' m Hr'. destruct (st_below _ _ _ Hr _ _ _ _ _ _ _ Ht Hb Hr') as (r0 & m0 & Hold & Hd). apply Hd. by eapply Hdel.
Qed.

(** A record that is found marked. *)
Lemma deleting_reclaim tw st a t n b r m :
  inv tw -> is_tail tw.(tv) st a t n -> tw.(tv).(recs) !! akey st b = Some (r, m) -> r.(state) = DeletingState ->
  reclaim_at st b r.(chunk_id) (end_of r) tw.
Proof.
  intros Hi Ht Hr Hd. pose proof (inv_stream _ Hi _ _ _ _ Ht) as [S1 _ S3 _ _]. destruct (inv_current _ Hi _ _ _ _ Hr) as (h & Hh & Hc).
  exists h, a, t, n. split; [done|]. split; [apply Hc|]. split; [by apply core_end|]. split; [intros r' m' Hr'; congruence|]. split; [done|].
  split; [|by eapply S3]. pose proof (proj2 Ht _ _ Hr) as Hle. destruct (decide (b = a)) as [->|]; [|lia]. destruct Ht as [Ht _].
  assert (r = t) as -> by congruence. destruct S1; congruence.
Qed.

(** ** Pins *)

Definition spares (ps : list PinRecord) (chunk : ChunkId) (start stop : Z) : assertion := fun tw =>
  forall p, p ∈ ps -> expired p tw.(tenv).(clock) \/ p.(pin_active) <> Some chunk /\ ~ (p.(pin_begin) < stop /\ start < p.(pin_end)).

Lemma spares_stable own ps chunk start stop : stable own (spares ps chunk start stop).
Proof. do 2 (apply stable_all; intros ?). apply stable_or; [apply expired_stable|apply stable_pure]. Qed.

Lemma pinned_wp own (P : assertion) ps chunk start stop tw :
  inv tw -> stable own P -> P tw ->
  wp own (pinned ps chunk start stop) (fun held tw => P tw /\ (held = false -> spares ps chunk start stop tw)) tw.
Proof.
  revert P tw. induction ps as [|p ps IH]; intros P tw Hi HP Hp; cbn [pinned].
  { apply wp_ret. split; [done|]. intros _ p Hin. by apply elem_of_nil in Hin. }
  apply wp_bind; [done|]. set (free := fun tw => expired p tw.(tenv).(clock) \/ p.(pin_active) <> Some chunk /\ ~ (p.(pin_begin) < stop /\ start < p.(pin_end))).
  assert (stable own free) as Hfree by (apply stable_or; [apply expired_stable|apply stable_pure]).
  set (hit := fun x => (x <? sat_add64 (pin_expires p) PIN_GRACE_MS) &&
    (bool_decide (pin_active p = Some chunk) || ((pin_begin p <? stop) && (start <? pin_end p)))).
  eapply wp_mono; [done|apply (now_wp upd own P (fun x tw => hit x = false -> free tw)); try done|].
  - intros x. by apply stable_all.
  - intros x Hx Habs [Hf|Hf]%andb_false_iff; [left|right].
    + eapply sat_expiry; [apply Hi|done|lia].
    + apply orb_false_iff in Hf as [Hf1%bool_decide_eq_false Hf2]. split; [done|]. intros []. rewrite andb_false_iff in Hf2. lia.
  - intros x tw1 Hi1 [Hp1 Hx] _. fold (hit x). destruct (hit x) eqn:Eh; [by apply wp_ret|].
    eapply wp_mono; [done|apply (IH (fun tw => P tw /\ free tw)); [done|by apply stable_and|auto]|].
    intros held tw2 Hi2 [[Hp2 Hf2] Hs2]. split; [done|]. intros Hh q [->|Hq]%elem_of_cons; [done|by apply Hs2].
Qed.

Lemma prune_pins_wp own st a s ps tw :
  inv tw -> Forall pin_typed ps -> holding st a s (pins_are st ps) tw ->
  wp own (prune_pins upd s ps) (fun r tw => match r with Ok false => holding st a s (pins_are st ps) tw | _ => True end) tw.
Proof.
  intros Hi Hty Hh. rewrite list.Forall_forall in Hty. unfold prune_pins. apply wp_bind; [done|].
  assert (stable own (holding st a s (pins_are st ps))) as HP by apply holding_stable, pins_are_stream.
  eapply wp_mono; [done|by apply (expired_pins_wp upd own (holding st a s (pins_are st ps)))|]. intros es tw1 Hi1 (Hh1 & Hsub & Hexp) _.
  assert (wp own (_ <-? fenced_batch upd s ((fun pin => Delete (pin_key pin)) <$> es);; Ret (Ok true))
    (fun r tw => match r with Ok false => holding st a s (pins_are st ps) tw | _ => True end) tw1) as Hmain; [|by destruct es; [apply wp_ret|]].
  assert (Forall2 (op_repr upd) ((fun pin => Delete (pin_key pin)) <$> es) (pin_tops es None)) as Hops
    by (unfold pin_tops; rewrite app_nil_r; apply unpin_ops; auto).
  apply wp_try; [done|]. set (P := fun tw => holding st a s (pins_are st ps) tw /\ all_expired es tw).
  eapply wp_mono; [done|apply (fenced_wp upd own st a s P truth (pin_tops es None)); try done|].
  - apply stable_and; [done|apply all_expired_stable].
  - by intros tw2 [[? _] _].
  - intros tw2 Hi2 Ht [Hh2 He2]. split; [|done]. pose proof (holding_here _ _ _ _ _ Hh2 Ht) as Hps.
    apply (fenced_pins upd own st tw2 a (ss_record s) (ss_revision s) _ es None Hi2 Ht Hops).
    + by intros e [? _]%Hsub%Hps.
    + intros e q m He Hq. right. pose proof (Hsub _ He) as [_ [m' Hm]]%Hps. assert (q = e) as -> by congruence. by apply He2.
    + done.
    + intros h q d Hr _ Hd. split; [done|]. right. intros e He. eapply expired_reader; [done|done|by apply Hsub|by apply He2|done|done].
  - by intros [[]|e].
Qed.

(** ** Marking and removing a record *)

(** What a collection saw: the pins of the stream, and the record at [b]. *)
Definition seen (st : StreamName) (ps : list PinRecord) (b : Z) (r : StreamChunkRecord) (tw : tworld) : Prop :=
  pins_are st ps tw /\ exists n, tw.(tv).(recs) !! akey st b = Some (r, n).

Lemma seen_stream st ps b r : of_stream st (seen st ps b r).
Proof.
  intros tw tw' Hi Hi' Hs Hc [Hps [n Hn]]. split; [exact (pins_are_stream st ps tw tw' Hi Hi' Hs Hc Hps)|]. exists n. destruct Hs as [Hs _]. by rewrite Hs.
Qed.

Lemma typed_state r s : typed r -> typed (set_state r s).
Proof. done. Qed.

Section mark.
Context (own : owner) (st : StreamName) (a b : Z) (s : StreamChunkRecordSnapshot) (ps : list PinRecord) (r : StreamChunkRecord).
Context (Hok : rec_ok (akey st b) r) (Hsealed : r.(state) = SealedState) (Hend : end_of r <= s.(ss_record).(trim_offset)).
Context (Hchunk : r.(chunk_id) <> s.(ss_record).(chunk_id)).

Lemma mark_step op tw :
  inv tw -> is_tail tw.(tv) st a s.(ss_record) s.(ss_revision) -> seen st ps b r tw -> spares ps r.(chunk_id) b (end_of r) tw ->
  Forall2 (op_repr upd) [op] [TPut (akey st b) (set_state r DeletingState)] ->
  let V' := tapply_all tw.(tv) (tw.(tv).(trev) + 1) ([TPut (akey st b) (set_state r DeletingState)] ++ [TPut (akey st a) s.(ss_record)]) in
  fenced own st tw V' a s.(ss_record) /\ reclaim_at st b r.(chunk_id) (end_of r) (mkTW V' tw.(hist) tw.(tenv)).
Proof using All.
  intros Hi Ht [Hps [n Hn]] Hsp Hops V'. assert (b <> a) as Hba by (intros ->; destruct Ht as [Ht _]; congruence).
  assert (V'.(recs) !! akey st b = Some (set_state r DeletingState, V'.(trev))) as Hb
    by (cbn; rewrite lookup_insert_ne by congruence; by rewrite lookup_insert_eq).
  assert (fenced own st tw V' a s.(ss_record)) as Hf.
  { eapply fenced_intro; [done|done|exact Hops|..].
    - by intros x ->%list_elem_of_singleton.
    - intros b' Hb'. destruct (decide (b' = b)) as [->|Hne]; [right|left; cbn; by rewrite lookup_insert_ne by congruence].
      exists r, n. split; [done|]. split; [done|]. right. split; [done|]. split; [done|]. intros id q m Hq. apply Hsp, Hps.
      pose proof (inv_pins _ Hi _ _ _ Hq) as ([= E1 E2] & _). split; [done|]. exists m. rewrite E1, E2 in Hq. done.
    - intros id. by left.
    - by apply owned_readers. }
  split; [done|]. pose proof (fenced_stream own st tw V' a (ss_record s) (ss_revision s) Hi Ht Hf) as [Ht' _].
  destruct (inv_current _ Hi _ _ _ _ Hn) as (h & Hh & Hc). exists h, a, (ss_record s), V'.(trev). cbn [tv hist]. split; [done|]. split; [apply Hc|].
  split; [by apply core_end|]. split; [intros r' m' Hr'; by assert (r' = set_state r DeletingState) as -> by congruence|]. split; [done|].
  split; [|done]. pose proof (proj2 Ht _ _ Hn). lia.
Qed.

Lemma mark_wp tw :
  inv tw -> holding st a s (seen st ps b r) tw -> spares ps r.(chunk_id) b (end_of r) tw ->
  wp own (op <-? lift (put upd (set_state r DeletingState));; fenced_batch upd s [op])
    (fun x tw => match x with Ok _ => reclaim_at st b r.(chunk_id) (end_of r) tw | Err _ => True end) tw.
Proof using All.
  intros Hi Hh Hsp. apply wp_lift. destruct (put upd _) as [op|] eqn:Ep; [|done]. apply (put_repr upd) in Ep as (k & Hk & Hop); [|apply typed_state; apply Hok].
  assert (k = akey st b) as ->.
  { pose proof (rec_ok_key _ _ Hok) as (_ & Hst & _ & Hs). destruct Hk as (_ & Hk & _). unfold record_key in Hk.
    rewrite bool_decide_eq_false_2 in Hk by done. cbn in Hst, Hs, Hk. rewrite Hs, Hst in Hk. congruence. }
  set (P := fun tw => holding st a s (seen st ps b r) tw /\ spares ps r.(chunk_id) b (end_of r) tw).
  eapply wp_mono; [done|apply (fenced_wp upd own st a s P (reclaim_at st b r.(chunk_id) (end_of r)) [TPut (akey st b) (set_state r DeletingState)]); try done|].
  - apply stable_and; [apply holding_stable, seen_stream|apply spares_stable].
  - apply reclaim_stable.
  - by intros tw1 [[? _] _].
  - intros tw1 Hi1 Ht [Hh1 Hs1]. eapply mark_step; [done|done|by eapply holding_here|done|by constructor].
  - by constructor.
  - by intros [[]|e].
Qed.

End mark.

Lemma remove_step own st a b s id stop tw :
  inv tw -> is_tail tw.(tv) st a s.(ss_record) s.(ss_revision) -> reclaim_at st b id stop tw -> skey_ok (akey st b) ->
  fenced own st tw (tapply_all tw.(tv) (tw.(tv).(trev) + 1) ([TDel (akey st b)] ++ [TPut (akey st a) s.(ss_record)])) a s.(ss_record).
Proof.
  intros Hi Ht (r & a' & t & n & _ & _ & _ & Hdel & Ht' & Hb & _) Hk. destruct (tail_unique _ _ _ _ _ _ _ _ Ht Ht') as (-> & -> & _).
  eapply (fenced_intro upd own st tw a _ _ [Delete (to_bytes (akey st b))]); [done|done|by constructor|..].
  - by intros x ->%list_elem_of_singleton.
  - intros b' Hb'. destruct (decide (b' = b)) as [->|Hne]; [|left; cbn; by rewrite lookup_delete_ne by congruence].
    destruct (recs (tv tw) !! akey st b) as [[r' m]|] eqn:Er; [|left; cbn; by rewrite lookup_delete_eq]. right. exists r', m. split; [done|].
    split; [eapply si_deleting; [by eapply inv_stream|done|by eapply Hdel]|]. left. split; [|by eapply Hdel].
    cbn. rewrite lookup_insert_ne by congruence. by rewrite lookup_delete_eq.
  - intros id'. by left.
  - by apply owned_readers.
Qed.

Lemma remove_wp own st b id stop key (tl : StreamChunkRecordSnapshot) a res tw :
  inv tw -> reclaim_at st b id stop tw -> tail_snap st a tl tw -> skey_ok (akey st b) -> key = to_bytes (akey st b) ->
  wp own (_ <-? fenced_batch upd tl [Delete key];; Ret (Ok res)) (fun (_ : result StreamCollectionResult StreamError) _ => True) tw.
Proof.
  intros Hi Hr Ht Hk ->. apply wp_try; [done|]. set (P := fun tw => reclaim_at st b id stop tw /\ tail_snap st a tl tw).
  eapply wp_mono; [done|apply (fenced_wp upd own st a tl P truth [TDel (akey st b)]); try done|].
  - apply stable_and; [apply reclaim_stable|apply tail_snap_stable].
  - by intros tw1 [_ ?].
  - intros tw1 Hi1 Htl [Hr1 _]. split; [|done]. by eapply remove_step.
  - by constructor.
  - by intros [[]|e].
Qed.

(** ** The loop *)

Lemma collect_loop_wp own keys st gen budget a s ps more res dec tw :
  inv tw -> name_ok st -> (forall key, key ∈ keys -> exists b, key = to_bytes (akey st b) /\ skey_ok (akey st b)) ->
  holding st a s (pins_are st ps) tw ->
  wp own (collect_loop upd keys st gen budget s ps more res dec) (fun _ _ => True) tw.
Proof.
  revert res dec tw. induction keys as [|key keys IH]; intros res dec tw Hi Hst Hkeys Hh; cbn [collect_loop]; [done|].
  assert (forall res dec tw, inv tw -> holding st a s (pins_are st ps) tw ->
    wp own (collect_loop upd keys st gen budget s ps more res dec) (fun _ _ => True) tw) as Hnext
    by (intros; apply IH; try done; intros; apply Hkeys; by right).
  destruct (budget <=? dec); [done|]. destruct (Hkeys key) as (b & -> & Hb); [by left|]. apply wp_try; [done|]. apply wp_kv_get; [|done].
  intros m Hr tw1 Hrel Hi1. destruct (get_rec upd m _ (akey st b) Hr Hb) as [[_ ->]|(r & n & v & Hn & Hok & Hv & -> & Hpos)]; [done|]. cbn [value revision].
  apply wp_lift. destruct (decode_ok upd _ _ _ n Hok Hv) as (sn & Hd & Hsn & <- & <-); [lia|]. cbn [scrk_stream_id] in Hd. rewrite Hd. cbv zeta.
  set (r := ss_record sn) in *. apply wp_lift. pose proof (rec_ok_key _ _ Hok) as (_ & _ & _ & Hstart). cbn in Hstart. rewrite Hstart. apply wp_lift.
  destruct (logical_end r) as [stop|] eqn:Estop; [|done]. assert (end_of r = stop) as Hend by (unfold end_of; by rewrite Estop).
  set (sees := holding st a s (seen st ps b r)). assert (stable own sees) as Hsees by apply holding_stable, seen_stream.
  assert (sees tw) as Hh0 by (destruct Hh as [Htl Hc]; split; [done|]; intros Hcur; split; [auto|by exists (ss_revision sn)]).
  assert (forall tw, sees tw -> holding st a s (pins_are st ps) tw) as Hback by (intros tw2 [Htl Hc]; split; [done|]; intros Hcur; by apply Hc).
  assert (r.(state) = DeletingState -> reclaim_at st b (chunk_id r) stop tw) as Hdel.
  { intros Hdel. destruct Hh as [(_ & _ & a' & t' & n' & Ht' & _) _]. rewrite <- Hend. by eapply deleting_reclaim. }
  set (P := fun tw => sees tw /\ (r.(state) = DeletingState -> reclaim_at st b (chunk_id r) stop tw)).
  assert (stable own P) as HP by (apply stable_and; [done|]; apply stable_all; intros _; apply reclaim_stable).
  pose proof (relys_keep _ _ _ _ Hrel Hi HP (conj Hh0 Hdel)) as Hp1. destruct (_ || _) eqn:Eb; [apply Hnext; [done|apply Hback, Hp1]|].
  rewrite !orb_false_iff, negb_false_iff, orb_true_iff, !bool_decide_eq_true, bool_decide_eq_false in Eb. destruct Eb as [[[Hch Htrim] _] Hstate].
  apply wp_bind; [done|]. eapply wp_mono; [done|by apply (pinned_wp own P)|]. intros [|] tw2 Hi2 [Hp2 Hsp] _; [apply Hnext; [done|apply Hback, Hp2]|].
  apply wp_try; [done|]. apply (wp_mono upd no_child own _ (fun x tw => match x with Ok _ => reclaim_at st b (chunk_id r) stop tw | Err _ => True end)); [done| |].
  { destruct (bool_decide_reflect (state r = DeletingState)) as [Hds|Hds]; [apply wp_ret; by apply Hp2|]. rewrite <- Hend in *.
    eapply mark_wp; try done; [by destruct Hstate|lia|apply Hp2|auto]. }
  intros [[]|e] tw3 Hi3 Hr3 _; [|done]. apply wp_try; [done|]. cbn [StreamRules.wp]. split; [by exists st, b|]. intros x tw4 Hrel4 Hi4.
  pose proof (relys_keep _ _ _ _ Hrel4 Hi3 (reclaim_stable own st b (chunk_id r) stop) Hr3) as Hr4. destruct x as [got|e]; [|done]. apply wp_try; [done|].
  eapply wp_mono; [done|apply (load_tail_wp upd own (reclaim_at st b (chunk_id r) stop) truth); try done; apply reclaim_stable|].
  intros [[cur|]|e] tw5 Hi5 [Hr5 Ht] _; [|done|done]. destruct Ht as [a' Ht]. by eapply remove_wp.
Qed.

Lemma collect_wp own st gen after max_records budget tw :
  inv tw -> name_ok st -> wp own (collect upd st gen after max_records budget) (fun _ _ => True) tw.
Proof.
  intros Hi Hst. unfold collect. destruct (_ || _); [done|]. apply wp_try; [done|].
  eapply wp_mono; [done|by apply (load_tail_wp upd own truth truth st)|]. intros [[s|]|e] tw1 Hi1 [_ Ht] _; [|done|done]. destruct Ht as [a Ht].
  apply wp_try; [done|]. eapply wp_mono; [done|by apply (read_pins_wp upd own (tail_snap st a s) st a s tw1 Hi1 Hst (tail_snap_stable own st a s) Ht)|].
  intros [ps|e] tw2 Hi2 [_ Hps] _; [|done]. destruct Hps as [Hty Hps]. apply wp_try; [done|].
  eapply wp_mono; [done|by apply (prune_pins_wp own st a s ps)|]. intros [[|]|e] tw3 Hi3 Hps3 _; [done| |done]. cbv zeta. apply wp_try; [done|].
  unfold kv_scan_keys. apply wp_try; [done|]. set (from := match after with Some start => _ | None => [] end). apply wp_kv_scan; [|done].
  intros m Hr tw4 Hrel Hi4. apply wp_ret. intros _. cbn [items truncated]. eapply collect_loop_wp; [done|done| |].
  - intros key. rewrite <- list_fmap_compose. intros ([k v] & -> & Hin)%list_elem_of_fmap. by eapply keys_scan.
  - eapply relys_keep; [done|done|apply holding_stable, pins_are_stream|done].
Qed.

End collect.

End StreamCollect.
