(* ===== verification/StreamSystem.v ===== *)
(** * The record store under concurrent callers

    Any number of calls of the record store run at once against one backend,
    each through the cache of the handle it was made on, one backend call, clock
    reading or deadline access at a time, in any order; the backend may refuse
    a call or lose the reply of a batch it applied.  Pins spawn their tasks.
    [sound] is the invariant of these runs: every call in flight satisfies its
    rule of [StreamOps], [StreamPins] or [StreamCollect] in a world that agrees
    with the backend. *)

From stdpp Require Import prelude gmap list list_numbers strings countable relations.
From Stdlib Require Import ZArith Lia.
From S2P Require Import Prelude Roles Bytes WalRecord KeyEncoding ChunkSlots BinaryKeys Frame FrameGeometry StreamMappings StreamChunk StreamStore StreamView StreamLogic StreamSteps StreamRules StreamOps StreamPins StreamCollect.

Module StreamSystem.
Import KeyEncoding ChunkSlots BinaryKeys Frame FrameGeometry StreamMappings StreamChunk StreamStore StreamView StreamLogic StreamSteps StreamRules
  StreamOps StreamPins StreamCollect.

(** ** Calls *)

Inductive call :=
| LoadTail (id : StreamName)
| LocateForRead (id : StreamName) (offset : Z)
| Publish (expected : option StreamChunkRecordSnapshot) (tail : StreamChunkRecord) (previous : option StreamChunkRecord)
    (candidate : option StreamChunkRecordSnapshot)
| ReserveInitial (candidate : StreamChunkRecord) (previous : option StreamChunkRecordSnapshot)
| RegisterCandidate (candidate : StreamChunkRecord)
| Candidates (id : StreamName)
| RemoveCandidate (id : StreamName) (sequence : Z) (chunk : ChunkId)
| PinRead (nonce : bytes) (captured : StreamChunkRecordSnapshot)
| CheckPin (h : nat)
| Collect (stream : StreamName) (retained_generation : Z) (after : option Z) (max_records byte_budget : Z)
| Maintain (h : nat) (pin : PinRecord).

Inductive answer :=
| Tail (r : result (option StreamChunkRecordSnapshot) StreamError)
| Located (r : result (StreamChunkRecordSnapshot * bool) StreamError)
| Published (r : result StreamChunkRecordSnapshot StreamError)
| Reserved (r : result StreamChunkRecordSnapshot StreamError)
| Listed (r : result (list StreamChunkRecordSnapshot) StreamError)
| Pinned (r : result nat StreamError)
| Collected (r : result StreamCollectionResult StreamError)
| Finished (r : result unit StreamError).

(** A call in flight, with the store handle whose cache it uses. *)
Record proc := mkProc { p_call : call; p_cache : nat; p_code : prog answer }.

Record world := mkWorld { mem : MemoryState; wenv : env; procs : list proc }.

(** What is not decided by the code: refused and lost calls, the clock's error,
    the handle of a new pin and when it is dropped, and the chunk layer's reply. *)
Record choice := mkChoice { c_fault : Fault; c_now : Z; c_handle : nat; c_stops : list bool; c_reply : result Z StreamError }.

Section system.
Context (upd : Z -> bytes -> Z) `{!Crc32c upd} `{BincodeLaws} `{PinJsonLaws} `{Skew} (resident_bytes : StreamMappingIndex -> Z).

Definition code (c : call) : prog answer :=
  match c with
  | LoadTail id => r <- load_tail upd id;; Ret (Tail r)
  | LocateForRead id offset => r <- locate_for_read upd id offset;; Ret (Located r)
  | Publish expected tail previous candidate => r <- publish upd expected tail previous candidate;; Ret (Published r)
  | ReserveInitial candidate previous => r <- reserve_initial upd candidate previous;; Ret (Reserved r)
  | RegisterCandidate candidate => r <- register_candidate upd candidate;; Ret (Reserved r)
  | Candidates id => r <- candidates upd id;; Ret (Listed r)
  | RemoveCandidate id sequence chunk => r <- remove_candidate upd id sequence chunk;; Ret (Finished r)
  | PinRead nonce captured => r <- pin_read upd nonce captured;; Ret (Pinned r)
  | CheckPin h => r <- check_pin h;; Ret (Finished r)
  | Collect stream gen after max_records budget => r <- collect upd stream gen after max_records budget;; Ret (Collected r)
  | Maintain h pin => Ret (Finished (Ok ()))
  end.

Definition maintenance (h : nat) (pin : PinRecord) (stops : list bool) : prog answer :=
  r <- maintain upd stops h pin;; Ret (Finished (Ok r)).

(** One call of the program of a process. *)
Definition act (w : world) (i : nat) (c : choice) : option world :=
  match w.(procs) !! i with
  | None => None
  | Some p =>
      let resume m e k := mkWorld m e (<[i := mkProc p.(p_call) p.(p_cache) k]> w.(procs)) in
      let go k := Some (resume w.(mem) w.(wenv) k) in
      let env_caches f := mkEnv w.(wenv).(clock) f w.(wenv).(readers) in
      let env_readers f := mkEnv w.(wenv).(clock) w.(wenv).(caches) f in
      let reply {A} (a : A) := match c.(c_fault) with Refuse e => Err e | _ => Ok a end in
      match p.(p_code) with
      | Ret _ => None
      | Get key k => go (k (reply (get w.(mem) key)))
      | Scan prefix after limit reverse k => go (k (reply (scan w.(mem) prefix after limit reverse)))
      | Batch ops guard expected k =>
          let '(m, x) := batch w.(mem) ops guard expected c.(c_fault) in Some (resume m w.(wenv) (k x))
      | Find id offset k => go (k (cache_find (default cache_default (w.(wenv).(caches) !! p.(p_cache))) id offset))
      | Insert s k =>
          let cache := default cache_default (w.(wenv).(caches) !! p.(p_cache)) in
          Some (resume w.(mem) (env_caches (<[p.(p_cache) := cache_insert resident_bytes cache s]> w.(wenv).(caches))) k)
      | NowMs k =>
          if (0 <=? c.(c_now)) && (Z.abs (c.(c_now) - w.(wenv).(clock)) <=? skew) then go (k c.(c_now)) else None
      | InstantNow k => go (k w.(wenv).(clock))
      | LoadDeadline h k => match w.(wenv).(readers) !! h with Some (_, d) => go (k d) | None => None end
      | StoreDeadline h d k =>
          match w.(wenv).(readers) !! h with
          | Some (pin, _) => Some (resume w.(mem) (env_readers (<[h := (pin, d)]> w.(wenv).(readers))) k)
          | None => None
          end
      | NewPin pin d k =>
          match w.(wenv).(readers) !! c.(c_handle) with
          | Some _ => None
          | None =>
              let w' := resume w.(mem) (env_readers (<[c.(c_handle) := (pin, d)]> w.(wenv).(readers))) (k c.(c_handle)) in
              Some (mkWorld w'.(mem) w'.(wenv)
                (w'.(procs) ++ [mkProc (Maintain c.(c_handle) pin) p.(p_cache) (maintenance c.(c_handle) pin c.(c_stops))]))
          end
      | DropPin h k => Some (resume w.(mem) (env_readers (delete h w.(wenv).(readers))) k)
      | ReleaseTrimmed id stop physical_end k => go (k c.(c_reply))
      end
  end.

(** ** Callers *)

Definition finished (w : world) (c : call) (a : answer) : Prop :=
  exists i p, w.(procs) !! i = Some p /\ p.(p_call) = c /\ p.(p_code) = Ret a.

(** Tails come from a read of the tail or from a publication. *)
Definition from_tail (w : world) (s : StreamChunkRecordSnapshot) : Prop :=
  (exists id, finished w (LoadTail id) (Tail (Ok (Some s)))) \/
  exists expected tail previous candidate, finished w (Publish expected tail previous candidate) (Published (Ok s)).

Definition from_candidate (w : world) (s : StreamChunkRecordSnapshot) : Prop :=
  (exists c previous, finished w (ReserveInitial c previous) (Reserved (Ok s))) \/
  (exists c, finished w (RegisterCandidate c) (Reserved (Ok s))) \/
  exists id l, finished w (Candidates id) (Listed (Ok l)) /\ s ∈ l.

(** What callers keep to: arguments of their types, snapshots that were
    returned, no predecessor with a first record, and a nonce of its own for
    every pin. *)
Definition allowed (w : world) (c : call) : Prop :=
  match c with
  | LoadTail id | Candidates id | Collect id _ _ _ _ => name_ok id
  | LocateForRead id offset => skey_ok (akey id offset)
  | Publish expected tail previous candidate =>
      typed tail /\ (forall p, previous = Some p -> typed p) /\ (forall e, expected = Some e -> from_tail w e) /\
      (forall d, candidate = Some d -> from_candidate w d) /\ (expected = None -> previous = None)
  | ReserveInitial c _ | RegisterCandidate c => typed c
  | RemoveCandidate id sequence _ => skey_ok (ckey id sequence)
  | PinRead nonce captured => length nonce = 16%nat /\ from_tail w captured /\
      forall i p nonce' captured', w.(procs) !! i = Some p -> p.(p_call) = PinRead nonce' captured' -> nonce' <> nonce
  | CheckPin _ => True
  | Maintain _ _ => False
  end.

Inductive step (w : world) : world -> Prop :=
| step_call c cache : allowed w c -> step w (mkWorld w.(mem) w.(wenv) (w.(procs) ++ [mkProc c cache (code c)]))
| step_act i ch w' : act w i ch = Some w' -> step w w'
| step_clock t : w.(wenv).(clock) <= t <= CLOCK_MAX ->
    step w (mkWorld w.(mem) (mkEnv t w.(wenv).(caches) w.(wenv).(readers)) w.(procs)).

Definition start (t : Z) : world := mkWorld (mkState ∅ 0) (mkEnv t ∅ ∅) [].

Definition reachable (w : world) : Prop := exists t, 0 <= t <= CLOCK_MAX /\ rtc step (start t) w.

(** ** What every call shows *)

Definition post (c : call) (a : answer) : assertion := fun tw =>
  match c, a with
  | LoadTail id, Tail (Ok (Some s)) => exists b, tail_snap id b s tw
  | LocateForRead id offset, Located (Ok (s, _)) => cached tw id offset (Some s)
  | Publish _ tail _ _, Published r => published_result tail r tw
  | ReserveInitial _ _, Reserved (Ok s) | RegisterCandidate _, Reserved (Ok s) => exists k, rec_snap k s tw
  | Candidates _, Listed (Ok l) => forall s, s ∈ l -> exists k, rec_snap k s tw
  | _, _ => True
  end.

Definition pre (c : call) : assertion := fun tw =>
  match c with
  | LoadTail id | Candidates id | Collect id _ _ _ _ => name_ok id
  | LocateForRead id offset => skey_ok (akey id offset)
  | Publish expected tail previous candidate => publish_pre expected tail previous candidate tw
  | ReserveInitial c _ | RegisterCandidate c => typed c
  | RemoveCandidate id sequence _ => skey_ok (ckey id sequence)
  | PinRead nonce captured => (length nonce = 16%nat /\ exists b, snap_of (akey captured.(ss_record).(stream_id) b) captured) /\
      unused (captured.(ss_record).(stream_id), nonce) tw
  | CheckPin _ => True
  | Maintain _ _ => False
  end.

Definition own_of (o : option (StreamName * bytes)) : owner := match o with Some k => only k | None => nobody end.

Definition pin_of (c : call) : option (StreamName * bytes) :=
  match c with PinRead nonce captured => Some (captured.(ss_record).(stream_id), nonce) | _ => None end.

Abbreviation twp := (StreamRules.wp upd (maintained upd)).

Lemma pre_stable c : stable (own_of (pin_of c)) (pre c).
Proof.
  destruct c; cbn [pre pin_of own_of]; try apply stable_pure; [apply publish_pre_stable|]. apply stable_and; [apply stable_pure|apply unused_stable].
Qed.

Lemma answered own {A} (p : prog A) (f : A -> answer) (Q : A -> assertion) (R : answer -> assertion) tw :
  inv tw -> StreamRules.wp upd no_child own p Q tw -> (forall a tw, Q a tw -> R (f a) tw) -> twp own (bind p (fun a => Ret (f a))) R tw.
Proof.
  intros Hi Hp HR. apply wp_map; [done|]. apply wp_child; [done|]. eapply wp_mono; [done|exact Hp|]. auto.
Qed.

Lemma code_wp c tw : inv tw -> pre c tw -> twp (own_of (pin_of c)) (code c) (post c) tw.
Proof.
  intros Hi Hp. destruct c; cbn [pre] in Hp; cbn [pin_of own_of code].
  - eapply answered; [done|by apply (load_tail_wp upd nobody truth truth)|]. intros [[s|]|] tw' [_ Hs]; done.
  - eapply answered; [done|by apply locate_wp|]. by intros [[s b]|].
  - eapply answered; [done|by apply publish_wp|]. done.
  - eapply answered; [done|by apply reserve_initial_wp|]. intros [s|] tw' Hs; [by eexists|done].
  - eapply answered; [done|by apply register_candidate_wp|]. intros [s|] tw' Hs; [by eexists|done].
  - eapply answered; [done|by apply candidates_wp|]. intros [l|] tw' Hl; [intros s [n Hs]%Hl; by eexists|done].
  - eapply answered; [done|by apply remove_loop_wp|]. done.
  - destruct Hp as [[Hn [b Hb]] Hu]. apply wp_map; [done|]. eapply wp_mono; [done|by eapply pin_read_wp|]. done.
  - eapply answered; [done|by apply (check_pin_wp upd)|]. done.
  - eapply answered; [done|by apply collect_wp|]. done.
  - done.
Qed.

(** ** Soundness *)

(** The pin keys that calls were made with. *)
Definition used (w : world) (k : StreamName * bytes) : Prop := exists i p, w.(procs) !! i = Some p /\ pin_of p.(p_call) = Some k.

Record sound (w : world) (tw : tworld) (os : list (option (StreamName * bytes))) : Prop := mkSound {
  so_repr : repr upd w.(mem) tw.(tv);
  so_env : tw.(tenv) = w.(wenv);
  so_inv : inv tw;
  so_len : length os = length w.(procs);
  so_procs : forall i p o, w.(procs) !! i = Some p -> os !! i = Some o -> always (own_of o) (twp (own_of o) p.(p_code) (post p.(p_call))) tw;
  so_disjoint : forall i j k, os !! i = Some (Some k) -> os !! j = Some (Some k) -> i = j;
  so_owned : forall i k, os !! i = Some (Some k) -> used w k;
  so_pins : forall k, is_Some (tw.(tv).(pins) !! k) -> used w k;
  so_readers : forall h p d, tw.(tenv).(readers) !! h = Some (p, d) -> used w (pkey p);
}.

Lemma own_of_spec o k : own_of o k <-> o = Some k.
Proof. destruct o as [k'|]; cbn; [unfold only; split; congruence|split; done]. Qed.

Lemma always_step own own' P tw tw' :
  always own' P tw -> step_ok own tw tw' -> inv tw' -> (forall k, own k -> ~ own' k) -> always own' P tw'.
Proof. intros HP Hs Hi Hd tw2 Hr. apply HP. eapply rtc_l; [|exact Hr]. split; [done|]. by eapply step_ok_mono. Qed.

Lemma used_mono w w' k : (forall i p, w.(procs) !! i = Some p -> exists p', w'.(procs) !! i = Some p' /\ p'.(p_call) = p.(p_call)) -> used w k -> used w' k.
Proof. intros Hp (i & p & Hi & Hk). destruct (Hp _ _ Hi) as (p' & Hi' & E). exists i, p'. by rewrite E. Qed.

(** Pins and readers that appear are those of the actor. *)
Lemma step_used own tw tw' (U : StreamName * bytes -> Prop) :
  step_ok own tw tw' -> (forall k, own k -> U k) -> (forall k, is_Some (tw.(tv).(pins) !! k) -> U k) ->
  (forall h p d, tw.(tenv).(readers) !! h = Some (p, d) -> U (pkey p)) -> (forall k, Decision (own k)) ->
  (forall k, is_Some (tw'.(tv).(pins) !! k) -> U k) /\ (forall h p d, tw'.(tenv).(readers) !! h = Some (p, d) -> U (pkey p)).
Proof.
  intros Hs Hown Hp Hr Hdec. split.
  - intros k Hk. destruct (decide (own k)) as [Ho|Ho]; [by apply Hown|]. destruct (st_pins _ _ _ Hs k Ho) as [E|[E _]]; rewrite E in Hk; [auto|by destruct Hk].
  - intros h p d Hh. destruct (decide (own (pkey p))) as [Ho|Ho]; [by apply Hown|]. apply (st_readers _ _ _ Hs) in Hh; [eauto|done].
Qed.

#[local] Instance own_of_dec o k : Decision (own_of o k).
Proof. destruct o as [k'|]; cbn; [unfold only|unfold nobody]; apply _. Defined.

Lemma lookup_step {A} (i : nat) (l : list A) x c j y : (i < length l)%nat -> (<[i := x]> l ++ option_list c) !! j = Some y <->
  (j = i /\ y = x) \/ (j <> i /\ l !! j = Some y) \/ (j = length l /\ c = Some y).
Proof.
  intros Hlt. rewrite lookup_app_Some, length_insert. destruct (decide (j = i)) as [->|Hne].
  - rewrite list_lookup_insert_eq by done. naive_solver lia.
  - rewrite list_lookup_insert_ne by done. split.
    + intros [Hy|[Hle Hy]]; [auto|]. destruct c as [z|]; [|by cbn in Hy; rewrite lookup_nil in Hy]. cbn in Hy. apply list_lookup_singleton_Some in Hy as [? ->].
      right; right. split; [lia|done].
    + intros [[? _]|[[_ Hy]|[-> ->]]]; [done|by left|right]. split; [lia|]. cbn. by rewrite Nat.sub_diag.
Qed.

(** ** The cache and the clock *)

Lemma find_slot_some l id off s : find_slot l id off = Some s -> Some s ∈ l /\ s.(ss_record).(stream_id) = id /\
  opt_le s.(ss_record).(logical_start) off = true /\ opt_gt s.(ss_record).(logical_end) off = true.
Proof.
  induction l as [|[x|] l IH]; cbn [find_slot]; [done| |intros [? ?]%IH; split; [by right|done]].
  destruct (_ && _) eqn:E; [|intros [? ?]%IH; split; [by right|done]]. intros [= <-]. rewrite !andb_true_iff, bool_decide_eq_true in E. split; [by left|tauto].
Qed.

Lemma default_slots s : Some s ∈ cache_default.(slots) -> False.
Proof. unfold cache_default. cbn [slots]. intros [? _]%elem_of_replicate. done. Qed.

Lemma find_cached tw h id off : inv tw -> cached tw id off (cache_find (default cache_default (tw.(tenv).(caches) !! h)) id off).
Proof.
  intros Hi. unfold cache_find. destruct (find_slot _ id off) as [s|] eqn:E; [|done]. apply find_slot_some in E as (Hin & Hrest).
  destruct (caches (tenv tw) !! h) as [c|] eqn:Ec; cbn [from_option] in Hin.
  - destruct (inv_caches _ Hi _ _ _ Ec Hin) as [? ?]. done.
  - by apply default_slots in Hin.
Qed.

Lemma insert_slots c s x : Some x ∈ (cache_insert resident_bytes c s).(slots) -> x = s \/ Some x ∈ c.(slots).
Proof.
  unfold cache_insert. destruct (_ <? _); [auto|]. cbn [slots]. intros [j Hj]%list_elem_of_lookup.
  apply list_lookup_insert_Some in Hj as [(_ & [= ->] & _)|[_ Hj]]; [by left|right]. by eapply list_elem_of_lookup_2.
Qed.

Definition set_caches (tw : tworld) (f : gmap nat RecordCache) : tworld :=
  mkTW tw.(tv) tw.(hist) (mkEnv tw.(tenv).(clock) f tw.(tenv).(readers)).

Definition set_clock (tw : tworld) (t : Z) : tworld := mkTW tw.(tv) tw.(hist) (mkEnv t tw.(tenv).(caches) tw.(tenv).(readers)).

Lemma cache_step own tw h s :
  inv tw -> known tw s.(ss_record) -> (exists st a, snap_of (akey st a) s) ->
  let tw' := set_caches tw (<[h := cache_insert resident_bytes (default cache_default (tw.(tenv).(caches) !! h)) s]> tw.(tenv).(caches)) in
  inv tw' /\ step_ok own tw tw'.
Proof.
  intros Hi Hk Hs tw'. pose proof (step_refl own tw Hi) as R. split.
  - pose proof Hi as I. destruct I. split; cbn [set_caches tw' tv hist tenv clock caches readers]; try done.
    + intros st a t n Ht. destruct (inv_stream0 _ _ _ _ Ht) as [S1 S2 S3 S4 S5]. by split.
    + intros h' c x [[<- <-]|[_ Hc]]%lookup_insert_Some Hx; [|by eapply inv_caches0]. apply insert_slots in Hx as [->|Hx]; [done|].
      destruct (caches (tenv tw) !! h) as [c|] eqn:Ec; cbn [from_option] in Hx; [by eapply inv_caches0|]. by apply default_slots in Hx.
  - destruct R. by split.
Qed.

Lemma clock_step own tw t :
  inv tw -> tw.(tenv).(clock) <= t <= CLOCK_MAX -> inv (set_clock tw t) /\ step_ok own tw (set_clock tw t).
Proof.
  intros Hi Ht. pose proof (step_refl own tw Hi) as R. split.
  - pose proof Hi as I. destruct I. split; cbn [set_clock tv hist tenv clock caches readers]; try done; try lia.
    + intros k q m Hq. destruct (inv_pins0 _ _ _ Hq) as (? & ? & ?). split; [done|]. split; [done|lia].
    + intros st a t' n Ht'. destruct (inv_stream0 _ _ _ _ Ht') as [S1 S2 S3 S4 S5]. by split.
    + intros st id q m Hq He. eapply inv_pinned0; [done|]. unfold expired in *. lia.
    + intros h p d Hh Hd. eapply inv_readers0; [done|lia].
  - destruct R. split; try done; [cbn; lia|]. by left.
Qed.

Section act.
Context (w : world) (tw : tworld) (os : list (option (StreamName * bytes))) (i : nat) (p : proc) (o : option (StreamName * bytes)).
Context (S : sound w tw os) (Hp : w.(procs) !! i = Some p) (Ho : os !! i = Some o).

(** An actor's step, and a task it may leave its pin to. *)
Lemma sound_step k' m' e' tw' (child : option proc) :
  let rest := match child with Some _ => None | None => o end in
  repr upd m' tw'.(tv) -> tw'.(tenv) = e' -> inv tw' -> step_ok (own_of o) tw tw' ->
  always (own_of rest) (twp (own_of rest) k' (post p.(p_call))) tw' ->
  (forall q, child = Some q -> always (own_of o) (twp (own_of o) q.(p_code) (post q.(p_call))) tw') ->
  sound (mkWorld m' e' (<[i := mkProc p.(p_call) p.(p_cache) k']> w.(procs) ++ option_list child)) tw'
    (<[i := rest]> os ++ option_list ((fun _ => o) <$> child)).
Proof using All.
  intros rest Hr He Hi Hs Hk Hnew. destruct S as [S1 S2 S3 S4 S5 S6 S7 S8 S9].
  assert (i < length os)%nat as Hlen by (by eapply lookup_lt_Some). assert (i < length w.(procs))%nat as Hlen' by lia. set (w' := mkWorld m' e' _).
  assert (forall k, used w k -> used w' k) as Hused.
  { intros k (j & q & Hq & Hkq). destruct (decide (j = i)) as [->|Hne].
    - exists i, (mkProc p.(p_call) p.(p_cache) k'). cbn [procs w']. rewrite lookup_step by done. split; [by left|]. assert (q = p) as -> by congruence. done.
    - exists j, q. cbn [procs w']. rewrite lookup_step by done. auto. }
  assert (forall k, own_of o k -> used w' k) as Hown by (intros k E%own_of_spec; rewrite E in Ho; eauto).
  destruct (step_used (own_of o) tw tw' (used w') Hs Hown) as [Hpins Hreaders]; [auto|eauto|apply _|].
  assert (forall j k, (<[i := rest]> os ++ option_list ((fun _ => o) <$> child)) !! j = Some (Some k) ->
    j <> i /\ os !! j = Some (Some k) \/ o = Some k /\ j = match child with Some _ => length os | None => i end) as Hcase.
  { intros j k. rewrite lookup_step by done. unfold rest. destruct child as [q|]; cbn; naive_solver. }
  split; try done.
  - cbn [procs w']. rewrite !length_app, !length_insert, S4. by destruct child.
  - intros j q oj. cbn [procs w']. rewrite !lookup_step by done.
    intros [[-> ->]|[[Hne Hq]|[-> ->]]] [[Ej ->]|[[Hne' Hoj]|[Ej Ec]]]; try lia; try done.
    + eapply always_step; [by eapply S5|done|done|]. intros k E1%own_of_spec E2%own_of_spec. apply Hne. eapply S6; [by rewrite Hoj, E2|by rewrite Ho, E1].
    + apply lookup_lt_Some in Hq. lia.
    + apply lookup_lt_Some in Hoj. lia.
    + cbn in Ec. injection Ec as <-. by apply Hnew.
  - intros j1 j2 k [[Hn1 H1']|[E1 ->]]%Hcase [[Hn2 H2']|[E2 ->]]%Hcase; [by eapply S6| | |done].
    + exfalso. apply Hn1. eapply S6; [done|]. by rewrite Ho, E2.
    + exfalso. apply Hn2. eapply S6; [done|]. by rewrite Ho, E1.
  - intros j k [[_ Hj]|[E _]]%Hcase; [eauto|]. apply Hown. by apply own_of_spec.
Qed.

Lemma sound_go k' m' e' tw' :
  repr upd m' tw'.(tv) -> tw'.(tenv) = e' -> inv tw' -> step_ok (own_of o) tw tw' ->
  always (own_of o) (twp (own_of o) k' (post p.(p_call))) tw' ->
  sound (mkWorld m' e' (<[i := mkProc p.(p_call) p.(p_cache) k']> w.(procs))) tw' os.
Proof using All.
  intros Hr He Hi Hs Hk. pose proof (sound_step k' m' e' tw' None Hr He Hi Hs Hk) as Hsound. cbn in Hsound. rewrite !app_nil_r in Hsound.
  rewrite (list_insert_id os i o) in Hsound by done. apply Hsound. done.
Qed.

(** A call that changes nothing. *)
Lemma sound_same k' : always (own_of o) (twp (own_of o) k' (post p.(p_call))) tw ->
  sound (mkWorld w.(mem) w.(wenv) (<[i := mkProc p.(p_call) p.(p_cache) k']> w.(procs))) tw os.
Proof using All. intros Hk. apply sound_go; try apply S; [|done]. apply step_refl. apply S. Qed.

End act.

Lemma sound_act w w' tw os i c : sound w tw os -> act w i c = Some w' -> exists tw' os', sound w' tw' os' /\ step_ok (fun _ => True) tw tw'.
Proof.
  intros S Ha. unfold act in Ha. destruct (w.(procs) !! i) as [p|] eqn:Hp; [|done].
  destruct (os !! i) as [o|] eqn:Ho; [|apply lookup_ge_None in Ho; apply lookup_lt_Some in Hp; pose proof (so_len _ _ _ S); lia].
  pose proof (always_here _ _ _ (so_procs _ _ _ S _ _ _ Hp Ho)) as Hw. pose proof S as [Hr He Hi _ _ _ _ _ _].
  pose proof (step_refl (fun _ => True) tw Hi) as Hrefl.
  destruct (p_code p) as [a|key k|pre aft lim rv k|ops g n k|id off k|s k|k|k|h k|h d k|pin d k|h k|id e ph k] eqn:Ecode; cbn [StreamRules.wp] in Hw; try done.
  - injection Ha as <-. exists tw, os. split; [|done]. eapply sound_same; [done|done|done|]. eapply Hw; [done|]. by destruct (c_fault c).
  - injection Ha as <-. exists tw, os. split; [|done]. eapply sound_same; [done|done|done|]. eapply Hw; [done|]. by destruct (c_fault c).
  - destruct (batch (mem w) ops g n (c_fault c)) as [m x] eqn:Eb. injection Ha as <-. destruct (Hw _ _ _ _ Hr Eb) as (tw' & Hr' & He' & Hi' & Hs' & Hk).
    exists tw', os. split; [|by eapply step_ok_mono]. eapply sound_go; [done|done|done|done|congruence|done|done|done].
  - injection Ha as <-. exists tw, os. split; [|done]. eapply sound_same; [done|done|done|]. apply Hw. rewrite <- He. by apply find_cached.
  - injection Ha as <-. destruct Hw as (Hk & Hsn & Hw). rewrite <- He. destruct (cache_step nobody tw (p_cache p) s Hi Hk Hsn) as [Hi' Hs'].
    eexists _, os. split; [|by eapply step_ok_mono; [|exact Hs']]. eapply sound_go; [done|done|done|exact Hr|done|done|by eapply step_ok_mono; [|exact Hs']|].
    eapply always_step; [exact Hw|exact Hs'|done|]. by intros ? [].
  - destruct (_ && _) eqn:Eb; [|done]. injection Ha as <-. apply andb_true_iff in Eb as [E1 E2]. exists tw, os. split; [|done].
    eapply sound_same; [done|done|done|]. rewrite <- He in E2. apply Hw; lia.
  - injection Ha as <-. exists tw, os. split; [|done]. eapply sound_same; [done|done|done|]. by rewrite <- He.
  - destruct (readers (wenv w) !! h) as [[q x]|] eqn:Eh; [|done]. injection Ha as <-. exists tw, os. split; [|done]. eapply sound_same; [done|done|done|].
    rewrite <- He in Eh. by eapply Hw.
  - destruct (readers (wenv w) !! h) as [[q x]|] eqn:Eh; [|done]. injection Ha as <-. rewrite <- He in Eh |- *. destruct (Hw _ _ Eh) as (Hi' & Hs' & Hk).
    eexists _, os. split; [|by eapply step_ok_mono; [|exact Hs']]. by eapply sound_go; [..|exact Hi'|exact Hs'|exact Hk].
  - destruct (readers (wenv w) !! c_handle c) as [|] eqn:Eh; [done|]. injection Ha as <-. rewrite <- He in Eh |- *.
    destruct (Hw _ Eh) as (Hi' & Hs' & [Hown Hm] & Hk). eexists _, _. split; [|by eapply step_ok_mono; [|exact Hs']].
    eapply (sound_step w tw os i p o S Hp Ho _ _ _ _ (Some _)); [exact Hr|reflexivity|exact Hi'|exact Hs'|exact Hk|].
    intros q [= <-]. eapply always_impl; [exact Hi'|apply (Hm (c_stops c))|]. intros tw2 Hi2 Hw2. unfold maintenance. by eapply answered.
  - injection Ha as <-. destruct Hw as (Hi' & Hs' & Hk). rewrite <- He. eexists _, os. split; [|by eapply step_ok_mono; [|exact Hs']].
    by eapply sound_go; [..|exact Hi'|exact Hs'|exact Hk].
  - injection Ha as <-. destruct Hw as (_ & Hw). exists tw, os. split; [|done]. eapply sound_same; [done|done|done|]. apply Hw.
Qed.

Lemma finished_post w tw os c a : sound w tw os -> finished w c a -> post c a tw.
Proof.
  intros S (i & p & Hp & <- & Ecode). destruct (os !! i) as [o|] eqn:Ho; [|apply lookup_ge_None in Ho; apply lookup_lt_Some in Hp; pose proof (so_len _ _ _ S); lia].
  pose proof (always_here _ _ _ (so_procs _ _ _ S _ _ _ Hp Ho)) as Hw. by rewrite Ecode in Hw.
Qed.

Lemma from_tail_snap w tw os s : sound w tw os -> from_tail w s -> exists b, tail_snap s.(ss_record).(stream_id) b s tw.
Proof.
  intros S Hs. assert (exists st b, tail_snap st b s tw) as (st & b & Ht).
  { destruct Hs as [[id Hf]|(e & t & pr & c & Hf)]; apply (finished_post _ _ _ _ _ S) in Hf; [by eexists|]. destruct Hf as [_ Hf]. by eexists. }
  exists b. pose proof Ht as (((Hok & _) & _) & _). apply rec_ok_key in Hok as (_ & -> & _). done.
Qed.

Lemma allowed_pre w tw os c : sound w tw os -> allowed w c -> pre c tw.
Proof.
  intros S Ha. destruct c; cbn [allowed pre] in *; try done.
  - destruct Ha as (H1' & H2' & H3' & H4' & H5'). split; [done|]. split; [done|]. split; [|split; [|done]].
    + intros e He. apply H3' in He. destruct (from_tail_snap _ _ _ _ S He) as [b Hb]. by eexists _, b.
    + intros d Hd. apply H4' in Hd as [(c & pr & Hf)|[[c Hf]|(id & l & Hf & Hin)]]; apply (finished_post _ _ _ _ _ S) in Hf; [done|done|by apply Hf].
  - destruct Ha as (Hn & Hf & Hfresh). destruct (from_tail_snap _ _ _ _ S Hf) as (b & ((Hsn & _) & _)). split; [split; [done|by exists b]|].
    assert (~ used w (stream_id (ss_record captured), nonce)) as Hnu.
    { intros (i & p & Hp & Hk). destruct (p_call p) as [| | | | | | |n cap| | |] eqn:Ec; try done. cbn in Hk. apply (Hfresh i p n cap Hp Ec). congruence. }
    split.
    + destruct (pins (tv tw) !! (stream_id (ss_record captured), nonce)) eqn:E; [|done]. exfalso. apply Hnu, (so_pins _ _ _ S). by rewrite E.
    + intros h q d Hq Ek. apply Hnu. rewrite <- Ek. by eapply so_readers.
Qed.

Lemma sound_call w tw os c cache : sound w tw os -> allowed w c ->
  sound (mkWorld w.(mem) w.(wenv) (w.(procs) ++ [mkProc c cache (code c)])) tw (os ++ [pin_of c]).
Proof.
  intros S Ha. pose proof (allowed_pre _ _ _ _ S Ha) as Hpre. pose proof S as [S1 S2 S3 S4 S5 S6 S7 S8 S9].
  assert (forall k, used w k -> used (mkWorld w.(mem) w.(wenv) (w.(procs) ++ [mkProc c cache (code c)])) k) as Hused.
  { intros k (i & p & Hp & Hk). exists i, p. cbn [procs]. split; [by apply lookup_app_l_Some|done]. }
  assert (forall k, pin_of c = Some k -> ~ used w k) as Hfresh.
  { intros k Hk (i & p & Hp & Hkp). destruct c as [| | | | | | |n cap| | |]; try done. destruct Ha as (_ & _ & Hf).
    destruct (p_call p) as [| | | | | | |n' cap'| | |] eqn:Ec; try done. apply (Hf i p n' cap' Hp Ec). cbn in Hk, Hkp. congruence. }
  split; cbn [mem wenv procs]; try done; try (by eauto).
  - rewrite !length_app, S4. done.
  - intros i p o [Hp|[Hle Hp]]%lookup_app_Some [Ho|[Hle' Ho]]%lookup_app_Some.
    + by eapply S5.
    + apply lookup_lt_Some in Hp. lia.
    + apply lookup_lt_Some in Ho. lia.
    + apply list_lookup_singleton_Some in Hp as [_ <-], Ho as [_ <-]. cbn [p_code p_call]. intros tw' Hrel.
      apply code_wp; [by eapply relys_inv|]. eapply relys_keep; [done|done|apply pre_stable|done].
  - intros i j k [Hi|[Hle Hi]]%lookup_app_Some [Hj|[Hle' Hj]]%lookup_app_Some; [by eapply S6|..];
      try apply list_lookup_singleton_Some in Hi as [Hi0 Hi]; try apply list_lookup_singleton_Some in Hj as [Hj0 Hj].
    + exfalso. eapply Hfresh; [exact Hj|eauto].
    + exfalso. eapply Hfresh; [exact Hi|eauto].
    + lia.
  - intros i k [Hi|[Hle Hi]]%lookup_app_Some; [eauto|]. apply list_lookup_singleton_Some in Hi as [_ Hi].
    exists (length w.(procs)), (mkProc c cache (code c)). cbn [procs]. split; [|done]. by rewrite lookup_app_r, Nat.sub_diag by lia.
Qed.

Lemma sound_tick w tw os t : sound w tw os -> w.(wenv).(clock) <= t <= CLOCK_MAX ->
  sound (mkWorld w.(mem) (mkEnv t w.(wenv).(caches) w.(wenv).(readers)) w.(procs)) (set_clock tw t) os.
Proof.
  intros S Ht. pose proof S as [S1 S2 S3 S4 S5 S6 S7 S8 S9]. rewrite <- S2 in *. destruct (clock_step nobody tw t S3 Ht) as [Hi' Hs'].
  split; cbn [mem wenv procs set_clock tv tenv readers]; try done. intros i p o Hp Ho. eapply always_step; [by eapply S5|exact Hs'|done|]. by intros k [].
Qed.

Lemma sound_start t : 0 <= t <= CLOCK_MAX -> sound (start t) (mkTW (mkT ∅ ∅ 0) ∅ (mkEnv t ∅ ∅)) [].
Proof.
  intros Ht. split; cbn [start mem wenv procs tv tenv readers pins recs]; try done.
  - split; cbn [tv hist tenv clock caches readers recs pins trev]; try done; try (intros *; rewrite lookup_empty; done).
    intros st a t' n [Hl _]. cbn in Hl. by rewrite lookup_empty in Hl.
  - intros k. rewrite lookup_empty. by intros [].
Qed.

Lemma sound_next w w' tw os : sound w tw os -> step w w' -> exists tw' os', sound w' tw' os' /\ step_ok (fun _ => True) tw tw'.
Proof.
  intros S [c cache Ha|i ch w1 Ha|t Ht].
  - eexists tw, _. split; [by apply sound_call|]. apply step_refl, S.
  - by eapply sound_act.
  - eexists _, _. split; [by apply sound_tick|]. pose proof S as [_ S2 S3 _ _ _ _ _ _]. rewrite <- S2 in Ht. by apply clock_step.
Qed.

Theorem reachable_sound w : reachable w -> exists tw os, sound w tw os.
Proof.
  intros (t & Ht & Hr). assert (exists tw os, sound (start t) tw os) as Hs by (eexists _, _; by apply sound_start). revert Hs.
  induction Hr as [|w w1 w2 Hstep _ IH]; intros (tw & os & S); [by exists tw, os|]. apply IH.
  destruct (sound_next _ _ _ _ S Hstep) as (tw' & os' & S' & _). eauto.
Qed.

End system.

End StreamSystem.
