(* ===== verification/StreamSafety.v ===== *)
(** * What the record store promises its callers

    The theorems are about every world that concurrent callers can reach: tails
    that were acknowledged stay, retained and pinned offsets can be located,
    every answer about an offset names the same chunk and append, and a chunk is
    released only when neither the stream nor a live reader needs it. *)

From stdpp Require Import prelude gmap list list_numbers strings countable relations.
From Stdlib Require Import ZArith Lia.
From S2P Require Import Prelude Roles Bytes WalRecord KeyEncoding ChunkSlots BinaryKeys Frame FrameGeometry StreamMappings StreamChunk StreamStore StreamView StreamLogic StreamSteps StreamRules StreamOps StreamPins StreamCollect StreamSystem.

Module StreamSafety.
Import KeyEncoding ChunkSlots BinaryKeys Frame FrameGeometry StreamMappings StreamChunk StreamStore StreamView StreamLogic StreamSteps StreamRules
  StreamOps StreamPins StreamCollect StreamSystem.

(** A program run alone on a backend that answers every call, without a cache. *)
Fixpoint run {A} (m : MemoryState) (p : prog A) : option (MemoryState * A) :=
  match p with
  | Ret a => Some (m, a)
  | Get key k => run m (k (Ok (get m key)))
  | Scan prefix after limit reverse k => run m (k (Ok (scan m prefix after limit reverse)))
  | Batch ops guard expected k => let '(m', x) := batch m ops guard expected NoFault in run m' (k x)
  | Find _ _ k => run m (k None)
  | Insert _ k => run m k
  | _ => None
  end.

(** The snapshot has the offset, and its mappings find the append. *)
Definition serves (s : StreamChunkRecordSnapshot) (st : StreamName) (off : Z) (mp : StreamMapping) : Prop :=
  s.(ss_record).(stream_id) = st /\ opt_le s.(ss_record).(logical_start) off = true /\ opt_gt s.(ss_record).(logical_end) off = true /\
  locate s.(ss_index) s.(ss_record).(mappings) off = Ok mp /\ mp.(map_logical_start) <= off < mp.(map_logical_end).

(** ** Lists of lengths *)

Lemma prefix_lookup (ls L : list Z) i l : ls `prefix_of` L -> ls !! i = Some l -> L !! i = Some l /\ take i ls = take i L.
Proof.
  intros [k ->] Hi. split; [by apply lookup_app_l_Some|]. rewrite take_app_le; [done|]. apply lookup_lt_Some in Hi. lia.
Qed.

Lemma position_unique L i j x y off :
  Forall length_ok L -> L !! i = Some x -> L !! j = Some y ->
  lsum (take i L) <= off < lsum (take i L) + x -> lsum (take j L) <= off < lsum (take j L) + y -> i = j.
Proof.
  assert (forall i j x, Forall length_ok L -> L !! i = Some x -> (i < j)%nat -> lsum (take i L) + x <= lsum (take j L)) as Hlt.
  { intros i' j' x' Hok Hi Hij. replace (take j' L) with (take i' L ++ x' :: take (j' - S i') (drop (S i') L)).
    - rewrite lsum_app. change (lsum (x' :: take (j' - S i') (drop (S i') L))) with (x' + lsum (take (j' - S i') (drop (S i') L))).
      assert (Forall length_ok (take (j' - S i') (drop (S i') L))) as Hk by (by apply Forall_take, Forall_drop). destruct (sums_nonneg _ Hk). lia.
    - rewrite <- (take_drop_middle L i' x' Hi) at 3. rewrite take_app_ge by (rewrite length_take; lia). f_equal.
      rewrite length_take. apply lookup_lt_Some in Hi. replace (j' - i' `min` length L)%nat with (S (j' - S i')) by lia. done. }
  intros Hok Hi Hj Ho1 Ho2. destruct (Nat.lt_trichotomy i j) as [Hij|[->|Hij]]; [|done|].
  - pose proof (Hlt i j x Hok Hi Hij). lia.
  - pose proof (Hlt j i y Hok Hj Hij). lia.
Qed.

Section safety.
Context (upd : Z -> bytes -> Z) `{!Crc32c upd} `{BincodeLaws} `{PinJsonLaws} `{Skew} (resident_bytes : StreamMappingIndex -> Z).

Abbreviation reachable := (reachable upd resident_bytes).

(** ** A snapshot finds its offsets *)

Lemma snap_locate st a s off :
  snap_of (akey st a) s -> a <= off < end_of s.(ss_record) -> exists ls i l, lengths s.(ss_record).(mappings) = Ok ls /\ Forall length_ok ls /\ ls !! i = Some l /\
    a + lsum (take i ls) <= off < a + lsum (take i ls) + l /\
    locate s.(ss_index) s.(ss_record).(mappings) off = Ok (mkMapping (a + lsum (take i ls)) (a + lsum (take i ls) + l) (psum (take i ls))).
Proof.
  intros (Hok & _ & Hv) Ho. pose proof (rec_ok_key _ _ Hok) as (_ & _ & Hst & Hs). cbn in Hst, Hs. destruct Hok as (Hty & _).
  destruct (validate_attached _ _ Hty Hv Hst) as (start & stop & ls & blocks & Ha & Hh & Hix & Hp).
  pose proof (at_start _ _ _ _ Ha) as E1. pose proof (at_stop _ _ _ _ Ha) as E2. pose proof (at_tile _ _ _ _ Ha) as E3. pose proof (at_range _ _ _ _ Ha).
  assert (start = a) as -> by congruence. unfold end_of in Ho. rewrite E2 in Ho. cbn in Ho. rewrite Hix, E3.
  destruct (locate_finds _ _ _ a off Hh) as (i & l & Hi & Hr & Hl); [lia..|done|]. exists ls, i, l.
  split; [apply Ha|]. split; [apply Ha|]. done.
Qed.

Lemma snap_serves st a s off :
  snap_of (akey st a) s -> a <= off < end_of s.(ss_record) -> exists mp, serves s st off mp.
Proof.
  intros Hs Ho. destruct (snap_locate _ _ _ _ Hs Ho) as (ls & i & l & _ & _ & _ & Hr & Hl). eexists. pose proof Hs as (Hok & _).
  pose proof (rec_ok_key _ _ Hok) as (_ & Hst & _ & Hstart). cbn in Hst, Hstart. split; [done|]. rewrite Hstart. cbn [opt_le].
  split; [lia|]. split; [unfold end_of in Ho; destruct (logical_end (ss_record s)); cbn in *; [lia|]|split; [exact Hl|exact Hr]].
  destruct (rec_attached _ _ _ Hok) as [ls' Ha]. pose proof (at_range _ _ _ _ Ha). unfold end_of in *. cbn in Ho. lia.
Qed.

(** ** Reads of a reachable backend *)

Lemma run_load_tail m V st a r n :
  repr upd m V -> name_ok st -> is_tail V st a r n ->
  exists s, run m (load_tail upd st) = Some (m, Ok (Some s)) /\ snap_of (akey st a) s /\ s.(ss_record) = r /\ s.(ss_revision) = n.
Proof.
  intros Hr Hst Ht. unfold load_tail, kv_scan, try. cbn [bind run stored]. destruct (tail_scan upd m V st Hr Hst) as [[Hn _]|(a' & r' & n' & b & t & Ht' & Hok & Hb & ->)].
  { destruct Ht as [Ht _]. by rewrite Hn in Ht. }
  destruct (tail_unique _ _ _ _ _ _ _ _ Ht Ht') as (-> & -> & ->). cbn [items commit_slots zip_with]. change (len [(to_bytes (akey st a), b)]) with 1. change (len [n]) with 1.
  cbn [Z.ltb Z.eqb Z.compare Pos.compare Pos.compare_cont Pos.eqb orb negb]. pose proof (repr_recs _ _ _ Hr _ _ _ (proj1 Ht)) as Hpos.
  destruct (decode_ok upd _ _ _ n Hok Hb) as (s & Hd & Hsn & Hsr & Hsv); [lia|]. cbn [scrk_stream_id] in Hd. rewrite Hd. exists s. done.
Qed.

Lemma run_tail_is m V st s :
  repr upd m V -> name_ok st -> run m (load_tail upd st) = Some (m, Ok (Some s)) ->
  exists a, is_tail V st a s.(ss_record) s.(ss_revision) /\ snap_of (akey st a) s.
Proof.
  intros Hr Hst Hrun. destruct (tail_scan upd m V st Hr Hst) as [[Hn E]|(a & r & n & b & t & Ht & _)].
  - unfold load_tail, kv_scan, try in Hrun. cbn [bind run stored] in Hrun. rewrite E in Hrun. cbn [items commit_slots zip_with] in Hrun. change (len (@nil (bytes * bytes))) with 0 in Hrun. change (len (@nil Z)) with 0 in Hrun. cbn in Hrun. congruence.
  - destruct (run_load_tail m V st a r n Hr Hst Ht) as (s' & Hrun' & Hsn & <- & <-). assert (s' = s) as -> by congruence. by exists a.
Qed.

(** A covered offset is found. *)
Lemma run_locate m tw st off :
  repr upd m tw.(tv) -> inv tw -> skey_ok (akey st off) -> covered tw.(tv) st off ->
  exists s mp, run m (locate_for_read upd st off) = Some (m, Ok (s, false)) /\ s.(ss_record).(state) <> DeletingState /\ serves s st off mp.
Proof.
  intros Hr Hi Hoff (a & r & n & Hrec & Hd & Ho). unfold locate_for_read, kv_scan, try. cbn [run bind stored].
  destruct (locate_scan upd m _ st off Hr Hoff) as [[Hn _]|(a' & r' & n' & b & t & Ha' & Hok & Hle & Hmax & Hb & ->)]; [pose proof (Hn _ _ Hrec); lia|].
  assert (a' = a) as ->.
  { pose proof (Hmax _ _ Hrec ltac:(lia)). destruct (inv_current _ Hi _ _ _ _ Hrec) as (h1 & Hh1 & C1). destruct (inv_current _ Hi _ _ _ _ Ha') as (h2 & Hh2 & C2).
    destruct (decide (a' = a)); [done|]. pose proof (inv_disjoint _ Hi _ _ _ _ _ Hh1 Hh2 ltac:(lia)). rewrite (core_end _ _ C1) in *. lia. }
  assert (r' = r /\ n' = n) as [-> ->] by (split; congruence). cbn [items commit_slots zip_with]. pose proof (repr_recs _ _ _ Hr _ _ _ Hrec) as Hpos.
  destruct (decode_ok upd _ _ _ n Hok Hb) as (s & Hdec & Hsn & Hsr & Hsv); [lia|]. cbn [scrk_stream_id] in Hdec. rewrite Hdec. cbn [bind lift].
  destruct (snap_serves st a s off Hsn) as [mp Hs]; [by rewrite Hsr|]. pose proof Hs as (_ & _ & Hgt & _). rewrite Hgt, Hsr. rewrite bool_decide_eq_false_2 by done.
  cbn. exists s, mp. by rewrite Hsr.
Qed.

(** ** Tails *)

(** C11. An acknowledged tail is kept.  Take any tail that a caller obtained, by
    reading it or as the result of a publication, and any later moment of any
    interleaving of publications, reservations, pins and collections, with
    refused calls and lost replies: a read of the stream's tail then returns a
    record that ends, was trimmed, and counts generations and writer epochs at
    or after the one obtained, and that is closed if it was. *)
Theorem acknowledged_tail_kept w s :
  reachable w -> from_tail w s ->
  exists t, run w.(mem) (load_tail upd s.(ss_record).(stream_id)) = Some (w.(mem), Ok (Some t)) /\
    t.(ss_record).(stream_id) = s.(ss_record).(stream_id) /\ advances s.(ss_record) t.(ss_record).
Proof.
  intros (tw & os & S)%(reachable_sound upd resident_bytes) Hs. destruct (from_tail_snap _ _ _ _ _ S Hs) as (b & ((Hsn & _) & _ & a & r & n & Ht & _ & Hadv)).
  pose proof Hsn as (Hok & _). pose proof (rec_ok_key _ _ Hok) as ([Hname _] & _).
  destruct (run_load_tail _ _ _ _ _ _ (so_repr _ _ _ _ S) Hname Ht) as (t & Hrun & (Htok & _) & Htr & _). exists t. split; [done|].
  split; [by apply rec_ok_key in Htok as (_ & ? & _)|]. by rewrite Htr.
Qed.

(** ** Offsets *)

(** C13. Retained offsets can be read.  In every state concurrent callers can
    reach, each offset between the tail's trim offset and its end is located by
    a read: the record found belongs to the stream, is not being deleted, spans
    the offset, and its mappings give the append that holds the offset. *)
Theorem retained_located w st t off :
  reachable w -> name_ok st -> run w.(mem) (load_tail upd st) = Some (w.(mem), Ok (Some t)) ->
  t.(ss_record).(trim_offset) <= off < default 0 t.(ss_record).(logical_end) ->
  exists s mp, run w.(mem) (locate_for_read upd st off) = Some (w.(mem), Ok (s, false)) /\ s.(ss_record).(state) <> DeletingState /\ serves s st off mp.
Proof.
  intros (tw & os & S)%(reachable_sound upd resident_bytes) Hst Hrun Ho. destruct (run_tail_is _ _ _ _ (so_repr _ _ _ _ S) Hst Hrun) as (a & Ht & (Hok & _)).
  pose proof (so_inv _ _ _ _ S) as Hi. eapply run_locate; [apply S|done| |].
  - split; [done|]. destruct Hok as ((_ & _ & _ & _ & _ & He & _ & _ & _ & Htr & _) & _). destruct (logical_end (ss_record t)) as [e|]; cbn in Ho.
    + specialize (He e eq_refl). unfold is_u64 in *. cbn. lia.
    + unfold is_u64 in Htr. lia.
  - by apply (si_cover _ _ _ _ (inv_stream _ Hi _ _ _ _ Ht)).
Qed.

(** C14. A live read pin keeps its interval.  While the deadline of a pin has not
    passed, every offset of the interval it was opened on is located by a read,
    in a record that is not being deleted, however far the stream was trimmed
    and however many collections ran since; clocks may differ from each other
    by the grace period. *)
Theorem pinned_located w h p d off :
  reachable w -> w.(wenv).(readers) !! h = Some (p, d) -> w.(wenv).(clock) < d -> p.(pin_begin) <= off < p.(pin_end) ->
  exists s mp, run w.(mem) (locate_for_read upd p.(pin_stream) off) = Some (w.(mem), Ok (s, false)) /\ s.(ss_record).(state) <> DeletingState /\
    serves s p.(pin_stream) off mp.
Proof.
  intros (tw & os & S)%(reachable_sound upd resident_bytes) Hh Hd Ho. pose proof S as [Hr He Hi _ _ _ _ _ _]. rewrite <- He in *.
  destruct (inv_readers _ Hi _ _ _ Hh Hd) as (q & m & Hq & (Ek & Eb & Ee & _) & Hdq). pose proof (inv_pins _ Hi _ _ _ Hq) as (_ & [(Hn & _ & Hb & Hend & _) _] & _).
  assert (pin_stream q = pin_stream p) as Es by congruence. eapply run_locate; [done|done| |].
  - split; [by rewrite <- Es|]. unfold is_u64 in *. cbn. lia.
  - eapply inv_pinned; [done|exact Hq| |lia]. intros Hx. by eapply reader_expired.
Qed.

(** The snapshots callers obtained from the store. *)
Definition obtained (w : world) (s : StreamChunkRecordSnapshot) : Prop :=
  from_tail w s \/ exists id off hit, finished w (LocateForRead id off) (Located (Ok (s, hit))).

Lemma obtained_known w tw os s : sound upd w tw os -> obtained w s -> known tw s.(ss_record) /\ exists st a, snap_of (akey st a) s.
Proof.
  intros S [Hs|(id & off & hit & Hf)].
  - destruct (from_tail_snap _ _ _ _ _ S Hs) as (b & ((Hsn & _ & Hk & _) & _)). split; [done|by eexists _, b].
  - apply (finished_post _ _ _ _ _ _ S) in Hf. destruct Hf as (? & ? & _). done.
Qed.

(** A known snapshot's answer, in terms of the last version of its record. *)
Lemma known_locate tw s st off mp :
  inv tw -> known tw s.(ss_record) -> (exists st a, snap_of (akey st a) s) -> serves s st off mp ->
  exists a r L i l, tw.(hist) !! (st, a) = Some r /\ r.(chunk_id) = s.(ss_record).(chunk_id) /\ a <= off < end_of r /\
    lengths r.(mappings) = Ok L /\ Forall length_ok L /\ L !! i = Some l /\ a + lsum (take i L) <= off < a + lsum (take i L) + l /\
    mp = mkMapping (a + lsum (take i L)) (a + lsum (take i L) + l) (psum (take i L)).
Proof.
  intros Hi Hk (st' & a & Hsn) (Hst & Hle & Hgt & Hl & _). pose proof Hsn as (Hok & _). pose proof (rec_ok_key _ _ Hok) as (_ & Est & _ & Hstart). cbn in Est, Hstart.
  assert (st' = st) as -> by congruence. rewrite Hstart in Hle. cbn in Hle.
  assert (off < end_of (ss_record s)) as He by (unfold end_of; destruct (logical_end (ss_record s)); cbn in *; [lia|done]).
  destruct (Hk a Hstart) as (r & Hr & Hx); [lia|]. rewrite Hst in Hr. pose proof (inv_hist _ Hi _ _ _ Hr) as Hrok. pose proof (extends_end _ _ _ _ Hok Hrok Hx).
  destruct (snap_locate _ _ _ off Hsn) as (ls & i & l & Hls & _ & Hil & Hpos & Hloc); [lia|].
  destruct Hx as [_ Hch (ls' & L & E1 & E2 & Hpre)]. assert (ls' = ls) as -> by congruence. destruct (prefix_lookup _ _ _ _ Hpre Hil) as [HL Etake].
  destruct (rec_attached _ _ _ Hrok) as [L' Ha]. pose proof (at_lengths _ _ _ _ Ha). assert (L' = L) as -> by congruence.
  rewrite Etake in *. exists a, r, L, i, l. split; [done|]. split; [done|]. split; [lia|]. split; [done|]. split; [apply Ha|]. split; [done|]. split; [done|]. congruence.
Qed.

(** C12. Answers about an offset agree.  Any two snapshots that callers obtained,
    at any two moments, from tail reads, publications, located reads or a
    cache, place an offset that both hold in the same chunk and in the same
    append, with the same logical bounds and the same physical start: what was
    acknowledged is never rewritten, by any writer, and a cached record never
    misplaces an offset. *)
Theorem answers_agree w s s' st off mp mp' :
  reachable w -> obtained w s -> obtained w s' -> serves s st off mp -> serves s' st off mp' ->
  s.(ss_record).(chunk_id) = s'.(ss_record).(chunk_id) /\ mp = mp'.
Proof.
  intros (tw & os & S)%(reachable_sound upd resident_bytes) Hs Hs' Hm Hm'. pose proof (so_inv _ _ _ _ S) as Hi.
  destruct (obtained_known _ _ _ _ S Hs) as [Hk Hsn]. destruct (obtained_known _ _ _ _ S Hs') as [Hk' Hsn'].
  destruct (known_locate _ _ _ _ _ Hi Hk Hsn Hm) as (a & r & L & i & l & Hr & Hc & Ho & HL & Hok & Hl & Hp & ->).
  destruct (known_locate _ _ _ _ _ Hi Hk' Hsn' Hm') as (a' & r' & L' & i' & l' & Hr' & Hc' & Ho' & HL' & _ & Hl' & Hp' & ->).
  assert (a' = a) as ->.
  { destruct (Z.lt_trichotomy a a') as [Hlt|[->|Hlt]]; [|done|].
    - pose proof (inv_disjoint _ Hi _ _ _ _ _ Hr Hr' Hlt). lia.
    - pose proof (inv_disjoint _ Hi _ _ _ _ _ Hr' Hr Hlt). lia. }
  assert (r' = r) as -> by congruence. assert (L' = L) as -> by congruence. split; [congruence|].
  assert (i' = i) as -> by (eapply (position_unique L i' i l' l (off - a)); [done..|lia|lia]). congruence.
Qed.

(** ** Release *)

Lemma run_load_key m V k s :
  repr upd m V -> skey_ok k -> run m (load_key upd k) = Some (m, Ok (Some s)) -> V.(recs) !! k = Some (s.(ss_record), s.(ss_revision)).
Proof.
  intros Hr Hk. unfold load_key, kv_get, try. cbn [bind run stored].
  destruct (get_rec upd m V k Hr Hk) as [[_ ->]|(r & n & b & Hrec & Hok & Hb & -> & Hpos)]; [cbn; congruence|]. cbn [value revision].
  destruct (decode_ok upd _ _ _ n Hok Hb) as (s' & -> & _ & <- & <-); [lia|]. cbn. intros Hs. congruence.
Qed.

(** Some earlier state held, for the stream and the start, a record of this chunk
    that ended at [stop]. *)
Definition was_stored (w : world) (st : StreamName) (start : Z) (id : ChunkId) (stop : Z) : Prop :=
  exists w0 s, reachable w0 /\ rtc (step upd resident_bytes) w0 w /\
    run w0.(mem) (load_key upd (mkStreamChunkRecordKey st (Attached start))) = Some (w0.(mem), Ok (Some s)) /\
    s.(ss_record).(chunk_id) = id /\ s.(ss_record).(logical_start) = Some start /\ s.(ss_record).(logical_end) = Some stop.

Lemma run_load_rec m V k r n :
  repr upd m V -> skey_ok k -> V.(recs) !! k = Some (r, n) -> exists s, run m (load_key upd k) = Some (m, Ok (Some s)) /\ s.(ss_record) = r.
Proof.
  intros Hr Hk Hn. unfold load_key, kv_get, try. cbn [bind run stored].
  destruct (get_rec upd m V k Hr Hk) as [[Hnone _]|(r' & n' & b & Hrec & Hok & Hb & -> & Hpos)]; [congruence|]. cbn [value revision].
  destruct (decode_ok upd _ _ _ n' Hok Hb) as (s' & -> & _ & <- & _); [lia|]. cbn. exists s'. split; [done|congruence].
Qed.

(** A record whose last version is remembered was stored in that version. *)
Lemma history_stored w : reachable w -> exists tw os, sound upd w tw os /\
  forall st a r, tw.(hist) !! (st, a) = Some r -> was_stored w st a r.(chunk_id) (end_of r).
Proof.
  intros (t & Ht & Hr). revert w Hr. apply rtc_ind_r.
  { eexists _, _. split; [by apply sound_start|]. intros st a r. cbn. by rewrite lookup_empty. }
  intros w w' Hr Hstep (tw & os & S & Hpast). destruct (sound_next upd resident_bytes _ _ _ _ S Hstep) as (tw' & os' & S' & Hs).
  exists tw', os'. split; [done|]. intros st a r Hh. destruct (st_new _ _ _ Hs _ _ _ Hh) as [Hold|(r' & m & Hrec & [_ _ He Hc _])].
  - destruct (Hpast _ _ _ Hold) as (w0 & s & Hw0 & Hto & Hrest). exists w0, s. split; [done|]. split; [by eapply rtc_r|done].
  - pose proof (inv_recs _ (so_inv _ _ _ _ S') _ _ _ Hrec) as [Hok _]. pose proof (rec_ok_key _ _ Hok) as (Hk & _ & _ & Hst). cbn in Hst.
    destruct (run_load_rec _ _ _ _ _ (so_repr _ _ _ _ S') Hk Hrec) as (s & Hrun & Hsr). exists w', s. rewrite Hsr.
    destruct (rec_attached _ _ _ Hok) as [ls Ha]. pose proof (at_stop _ _ _ _ Ha) as Hstop.
    split; [exists t; split; [done|by eapply rtc_r]|]. split; [done|]. split; [done|]. split; [done|]. split; [done|]. unfold end_of in *. by rewrite He.
Qed.

(** An offset of a record that may be reclaimed is nobody's. *)
Lemma reclaim_unpinned tw st b id stop h q d off :
  inv tw -> reclaim_at st b id stop tw -> tw.(tenv).(readers) !! h = Some (q, d) -> tw.(tenv).(clock) < d -> q.(pin_stream) = st ->
  b <= off < stop -> ~ q.(pin_begin) <= off < q.(pin_end).
Proof.
  intros Hi (r & _ & _ & _ & Hh & _ & Hend & Hdel & _) Hq Hd Hst Hin Hpin.
  destruct (inv_readers _ Hi _ _ _ Hq Hd) as (q' & m & Hq' & (_ & Eb & Ee & _) & Hdq). rewrite Hst in Hq'.
  destruct (inv_pinned _ Hi _ _ _ _ Hq') as [Hcov _]; [intros Hx; rewrite <- Hst in Hq'; by eapply reader_expired|].
  destruct (Hcov off) as (b' & r' & m' & Hr' & Hnd & Ho); [lia|]. destruct (inv_current _ Hi _ _ _ _ Hr') as (h' & Hh' & Hc). pose proof (core_end _ _ Hc).
  destruct (Z.lt_trichotomy b b') as [Hlt|[->|Hlt]]; [pose proof (inv_disjoint _ Hi _ _ _ _ _ Hh Hh' Hlt); lia|by apply Hdel in Hr'|].
  pose proof (inv_disjoint _ Hi _ _ _ _ _ Hh' Hh Hlt). lia.
Qed.

(** C15. Only dead chunks are released.  Whenever a collection is about to hand a
    chunk to the chunk layer up to an end, a record of that chunk with that end
    was stored in a stream; it now lies below the stream's trim offset and is gone
    or marked as deleting, still with that chunk and that end; and no read pin
    whose deadline has not passed was opened on any offset of the record. *)
Theorem release_is_safe w i p id stop physical_end k :
  reachable w -> w.(procs) !! i = Some p -> p.(p_code) = ReleaseTrimmed id stop physical_end k ->
  exists st start t, was_stored w st start id stop /\
    run w.(mem) (load_tail upd st) = Some (w.(mem), Ok (Some t)) /\ stop <= t.(ss_record).(trim_offset) /\
    (forall s, run w.(mem) (load_key upd (mkStreamChunkRecordKey st (Attached start))) = Some (w.(mem), Ok (Some s)) ->
       s.(ss_record).(chunk_id) = id /\ s.(ss_record).(state) = DeletingState /\ s.(ss_record).(logical_end) = Some stop) /\
    (forall h q d off, w.(wenv).(readers) !! h = Some (q, d) -> w.(wenv).(clock) < d -> q.(pin_stream) = st ->
       start <= off < stop -> ~ q.(pin_begin) <= off < q.(pin_end)).
Proof.
  intros (tw & os & S & Hpast)%history_stored Hp Ecode. pose proof S as [Hr He Hi Hlen _ _ _ _ _]. rewrite <- He.
  destruct (os !! i) as [o|] eqn:Ho; [|apply lookup_ge_None in Ho; apply lookup_lt_Some in Hp; lia].
  pose proof (always_here _ _ _ (so_procs _ _ _ _ S _ _ _ Hp Ho)) as Hw. rewrite Ecode in Hw. destruct Hw as [(st & b & Hre) _].
  pose proof Hre as (r & a & t & n & Hh & Hid & Hend & Hdel & Ht & Hb & Htrim). pose proof (inv_hist _ Hi _ _ _ Hh) as Hrok. pose proof (rec_ok_key _ _ Hrok) as (Hkey & _).
  destruct (run_load_tail _ _ _ _ _ _ Hr (proj1 Hkey) Ht) as (ts & Hrun & _ & Hts & _). exists st, b, ts.
  split; [rewrite <- Hid, <- Hend; by apply Hpast|]. split; [done|]. split; [by rewrite Hts|]. split.
  - intros s Hs. apply (run_load_key _ _ _ _ Hr Hkey) in Hs. destruct (inv_current _ Hi _ _ _ _ Hs) as (h & Hh' & [_ _ C3 C4 _]). assert (h = r) as -> by congruence.
    split; [congruence|]. split; [by eapply Hdel|]. destruct (rec_attached _ _ _ Hrok) as [ls Ha]. pose proof (at_stop _ _ _ _ Ha). congruence.
  - intros h q d off Hq Hd Hst Hin. by eapply reclaim_unpinned.
Qed.

(** ** Publication *)

Lemma snap_eq k s s' : snap_of k s -> snap_of k s' -> s.(ss_record) = s'.(ss_record) -> s.(ss_revision) = s'.(ss_revision) -> s = s'.
Proof. destruct s, s'. intros (_ & K & V) (_ & K' & V'). cbn in *. intros -> ->. rewrite K, K'. f_equal. congruence. Qed.

(** The batch of a publication rewrites the expected tail. *)
Lemma guard_written t new previous a c pts cts ops :
  transition t new previous -> rec_ok (akey new.(stream_id) a) t -> new.(logical_start) = Some c ->
  Forall2 (op_repr upd) ops (pts ++ cts ++ [TPut (akey new.(stream_id) c) new]) ->
  (previous = None /\ pts = [] \/ exists p kp, previous = Some p /\ record_key p = Ok kp /\
     (kp <> akey new.(stream_id) c /\ pts = [TPut kp p] /\ rec_ok kp p \/ kp = akey new.(stream_id) c /\ p.(logical_start) = p.(logical_end) /\ pts = [])) ->
  existsb (fun op => bool_decide (op_key op = to_bytes (akey new.(stream_id) a))) ops = true.
Proof.
  intros T Hok Hc Hops Hprev. assert (exists r, TPut (akey new.(stream_id) a) r ∈ pts ++ cts ++ [TPut (akey new.(stream_id) c) new]) as [r Hin].
  { pose proof (rec_ok_key _ _ Hok) as (_ & Hst & _ & Hs). cbn in Hst, Hs. destruct T.
    destruct tr_kind0 as [(_ & _ & Hsame & _)|(p & -> & _ & _ & Hps & Hpst & Hstate & _)].
    - assert (c = a) as -> by congruence. exists new. rewrite !elem_of_app, list_elem_of_singleton. auto.
    - destruct Hprev as [[? _]|(p' & kp & [= <-] & Hkp & Hcase)]; [done|]. unfold record_key in Hkp. rewrite bool_decide_eq_false_2 in Hkp by congruence.
      rewrite Hps, Hs, Hpst, Hst in Hkp. injection Hkp as <-. destruct Hcase as [(_ & -> & _)|([= ->] & _)];
        [exists p; rewrite !elem_of_app, list_elem_of_singleton; auto|exists new; rewrite !elem_of_app, !list_elem_of_singleton; auto]. }
  apply list_elem_of_lookup in Hin as [j Hj]. destruct (Forall2_lookup_r _ _ _ _ _ Hops Hj) as (op & Hop & _ & b & _ & ->).
  apply existsb_exists. eexists. split; [by apply list_elem_of_In; eapply list_elem_of_lookup_2|]. by apply bool_decide_eq_true_2.
Qed.

(** C16. A publication takes effect.  A caller that publishes on the tail it just
    read, with a valid transition and a candidate it holds, and is not
    disturbed, gets a snapshot of exactly its record, and the stream's tail is
    then that snapshot. *)
Theorem publish_takes_effect w st e new previous candidate key data ops :
  reachable w -> name_ok st -> run w.(mem) (load_tail upd st) = Some (w.(mem), Ok (Some e)) ->
  typed new -> (forall p, previous = Some p -> typed p) -> (forall d, candidate = Some d -> from_candidate w d) ->
  validate_transition (Some e) new previous = Ok () -> publish_ops upd new previous candidate = Ok (key, data, ops) ->
  w.(mem).(metadata_revision) < u64_max ->
  exists m s, run w.(mem) (publish upd (Some e) new previous candidate) = Some (m, Ok s) /\ s.(ss_record) = new /\
    run m (load_tail upd st) = Some (m, Ok (Some s)).
Proof.
  intros (tw & os & S)%(reachable_sound upd resident_bytes) Hst Hrun Hty Hpt Hcand Htr Hops Hrev. pose proof S as [Hr _ Hi _ _ _ _ _ _].
  destruct (run_tail_is _ _ _ _ Hr Hst Hrun) as (a & Ht & Hsn). pose proof Hsn as (Hok & Hkey & _). pose proof (transition_ok _ _ _ Htr) as T.
  pose proof (rec_ok_key _ _ Hok) as (Hguard & Hest & _). cbn in Hest. assert (st = stream_id new) as -> by (rewrite (tr_stream _ _ _ T); congruence).
  assert (forall d, candidate = Some d -> exists k, snap_of k d) as Hcs.
  { intros d Hd. apply Hcand in Hd. destruct Hd as [(c & pr & Hf)|[[c Hf]|(id & l & Hf & Hin)]]; apply (finished_post _ _ _ _ _ _ S) in Hf;
      [destruct Hf as [k [? _]]|destruct Hf as [k [? _]]|destruct (Hf _ Hin) as [k [? _]]]; eauto. }
  destruct (publish_ops_repr upd new previous candidate key data ops Hty) as (c & pts & cts & -> & Hnok & Hc & Hdata & Hrops & Hprev & Hcts); try done.
  { destruct (tr_state _ _ _ T); congruence. }
  assert (cts = [] \/ cts = [TDel (ckey (stream_id new) (sequence new))]) as Hcts' by (destruct Hcts as [[_ ->]|(d & _ & -> & _)]; auto).
  destruct (publish_step upd nobody tw a c _ _ new previous ops pts cts Hi Ht T Hnok Hc Hrops Hcts' Hpt Hprev) as (h' & Hi' & _ & Htail).
  pose proof (repr_batch upd _ _ _ _ _ Hr Hrops eq_refl) as Hr'. rewrite (repr_rev _ _ _ Hr) in *. set (m := w.(mem)) in *. set (next := metadata_revision m + 1) in *.
  pose proof (repr_pos _ _ _ Hr). rewrite (repr_rev _ _ _ Hr) in *.
  destruct (run_load_tail _ _ _ _ _ _ Hr' Hst Htail) as (s & Hs & Hssn & Hsr & Hsv).
  exists (mkState (apply_ops m.(metadata_records) next ops) next), s. split; [|done]. unfold publish, try, lift. cbn [bind]. rewrite Htr. cbn [bind]. rewrite Hops. cbn [bind publish_loop].
  unfold kv_batch. cbn [bind run]. unfold batch. rewrite Hkey, (guard_written _ _ _ _ _ _ _ _ T Hok Hc Hrops Hprev). cbn [negb].
  destruct (get_rec upd m _ _ Hr Hguard) as [[Hn _]|(r & n & b & Hrec & _ & _ & -> & _)]; [destruct Ht as [Ht _]; congruence|].
  assert (n = ss_revision e) as -> by (destruct Ht as [Ht _]; congruence). cbn [revision]. rewrite Z.eqb_refl. cbn [negb].
  unfold checked_add. fold next. destruct (Z.leb_spec next u64_max); [|unfold next in *; lia]. cbn [run].
  destruct (decode_ok upd _ _ _ next Hnok Hdata) as (s' & Hdec & Hssn' & Hsr' & Hsv'); [unfold next; lia|]. cbn [scrk_stream_id] in Hdec. rewrite Hdec.
  assert (s' = s) as ->; [|done]. eapply snap_eq; [done|done|congruence|]. rewrite Hsv, Hsv'. done.
Qed.

End safety.

End StreamSafety.
