(* ===== verification/StreamDemo.v ===== *)
(** * A run of the record store

    A codec for records and pins that satisfies what the store relies on, and a
    run of the store with it: a stream is created, appended to, rolled over to a
    second chunk, pinned, trimmed and collected.  The theorems of
    [StreamSafety] are applied to its states. *)

From stdpp Require Import prelude gmap list list_numbers strings countable relations.
From Stdlib Require Import ZArith Lia.
From S2P Require Import Prelude Roles Bytes WalRecord KeyEncoding ChunkSlots BinaryKeys Frame FrameGeometry StreamMappings StreamChunk StreamStore StreamView StreamLogic StreamSteps StreamRules StreamOps StreamPins StreamCollect StreamSystem StreamSafety.

Module StreamDemo.
Import KeyEncoding ChunkSlots BinaryKeys Frame FrameGeometry StreamMappings StreamChunk StreamStore StreamView StreamLogic StreamSteps StreamRules
  StreamOps StreamPins StreamCollect StreamSystem StreamSafety.

(** ** Codecs *)

#[local] Instance is_u64_dec z : Decision (is_u64 z).
Proof. unfold is_u64. apply _. Defined.
#[local] Instance is_byte_dec z : Decision (is_byte z).
Proof. unfold is_byte. apply _. Defined.

(** A checksum: the sum of the bytes. *)
Definition checksum (c : Z) (data : bytes) : Z := foldl (fun c b => (c + b) mod 2 ^ 32) c data.

#[local] Instance checksum_ok : Crc32c checksum.
Proof.
  split; [|intros c l k; unfold checksum; by rewrite foldl_app]. intros c l. unfold checksum. revert c.
  induction l as [|b l IH]; intros c Hc; cbn [foldl]; [done|]. apply IH. by apply Z.mod_pos_bound.
Qed.

(** Lists of words as bytes. *)
Definition bytes_of (ws : list Z) : bytes := concat (to_le_bytes 8 <$> ws).

Fixpoint words_of (b : bytes) : list Z :=
  match b with
  | a :: b :: c :: d :: e :: f :: g :: h :: rest => from_le_bytes [a; b; c; d; e; f; g; h] :: words_of rest
  | _ => []
  end.

Lemma words_bytes ws : Forall is_u64 ws -> words_of (bytes_of ws) = ws.
Proof.
  induction 1 as [|w ws Hw _ IH]; [done|]. unfold bytes_of in *. rewrite fmap_cons. cbn [concat].
  pose proof (WalRecord.from_to_u64 w Hw) as Hr. pose proof (to_le_bytes_length 8 w) as Hl. destruct (to_le_bytes 8 w) as [|a [|b [|c [|d [|e [|f [|g [|h [|]]]]]]]]] eqn:E; try discriminate Hl.
  cbn [app words_of]. by rewrite Hr, IH.
Qed.

Lemma bytes_of_ok ws : Forall is_byte (bytes_of ws).
Proof. unfold bytes_of. induction ws as [|w ws IH]; [done|]. rewrite fmap_cons. cbn [concat]. apply Forall_app. split; [apply to_le_bytes_ok|done]. Qed.

Lemma bytes_of_len ws : len (bytes_of ws) = 8 * len ws.
Proof.
  unfold bytes_of, len. induction ws as [|w ws IH]; [done|]. rewrite fmap_cons. cbn [concat length]. rewrite length_app, to_le_bytes_length. lia.
Qed.

Definition of_option (o : option Z) : list Z := match o with Some z => [1; z] | None => [0; 0] end.
Definition to_option (f z : Z) : option Z := if f =? 1 then Some z else None.

Definition purpose_word (p : StreamPurpose) : Z := match p with WalPurpose => 0 | StreamPurpose_ => 1 end.
Definition state_word (s : StreamChunkState) : Z := match s with CandidateState => 0 | ActiveState => 1 | SealedState => 2 | DeletingState => 3 end.

Definition record_words (r : StreamChunkRecord) : list Z :=
  [stream_high r.(stream_id); stream_low r.(stream_id); purpose_word r.(purpose); chunk_high r.(chunk_id); chunk_low r.(chunk_id); state_word r.(state)] ++
  of_option r.(logical_start) ++ of_option r.(logical_end) ++
  [r.(sequence); r.(writer_epoch); r.(generation); r.(trim_offset); Z.b2z r.(closed); r.(mappings).(count); len r.(owner_session)] ++
  r.(owner_session) ++ r.(mappings).(encoded).

Definition record_of (ws : list Z) : option StreamChunkRecord :=
  match ws with
  | sh :: sl :: p :: ch :: cl :: st :: f1 :: s :: f2 :: e :: seq :: ep :: gen :: trim :: cl' :: cnt :: n :: rest =>
      Some (mkRecord (mkStreamName sh sl) (if p =? 0 then WalPurpose else StreamPurpose_) (mkChunkId ch cl)
        (if st =? 0 then CandidateState else if st =? 1 then ActiveState else if st =? 2 then SealedState else DeletingState)
        (to_option f1 s) (to_option f2 e) seq ep gen (take (Z.to_nat n) rest) trim (cl' =? 1) (mkMappings cnt (drop (Z.to_nat n) rest)))
  | _ => None
  end.

Lemma record_of_words r : record_of (record_words r) = Some r.
Proof.
  destruct r as [[sh sl] p [ch cl] st s e seq ep gen own trim clo [cnt enc]]. unfold record_words, record_of. cbn.
  assert (forall b : bool, (Z.b2z b =? 1) = b) as Hb by (by intros []). destruct s as [s|], e as [e|]; cbn; rewrite Hb; unfold len; rewrite Nat2Z.id, take_app_length, drop_app_length;
    by destruct p, st.
Qed.

Definition typedb (r : StreamChunkRecord) : bool :=
  bool_decide (Forall is_u64 ([stream_high r.(stream_id); stream_low r.(stream_id); chunk_high r.(chunk_id); chunk_low r.(chunk_id);
    default 0 r.(logical_start); default 0 r.(logical_end); r.(sequence); r.(writer_epoch); r.(generation); r.(trim_offset)])) &&
  (0 <=? r.(mappings).(count)) && bool_decide (Forall is_byte r.(mappings).(encoded)).

Lemma typedb_ok r : typedb r = true <-> typed r.
Proof.
  unfold typedb, typed. rewrite !andb_true_iff, !bool_decide_eq_true, Z.leb_le, !Forall_cons. split.
  - intros [[(H1 & H2 & H3 & H4 & H5 & H6 & H7 & H8 & H9 & H10 & _) Hc] He]. do 4 (split; [done|]).
    split; [intros z E; by rewrite E in H5|]. split; [intros z E; by rewrite E in H6|]. done.
  - intros (H1 & H2 & H3 & H4 & H5 & H6 & H7 & H8 & H9 & H10 & Hc & He). split; [split; [|done]|done]. do 4 (split; [done|]).
    split; [destruct (logical_start r); cbn; [by apply H5|done]|]. split; [destruct (logical_end r); cbn; [by apply H6|done]|]. done.
Qed.

#[local] Instance record_codec : Bincode := {|
  serialize r := if decide (Forall is_u64 (record_words r)) then Some (bytes_of (record_words r)) else None;
  deserialize _ b := match record_of (words_of b) with Some r => if typedb r then Some r else None | None => None end;
|}.

#[local] Instance record_codec_laws : BincodeLaws.
Proof.
  split; cbn [serialize deserialize record_codec].
  - intros r b. destruct (decide _); [|done]. intros [= <-]. apply bytes_of_ok.
  - intros r b Ht%typedb_ok. destruct (decide _) as [Hw|]; [|done]. intros [= <-]. by rewrite words_bytes, record_of_words, Ht.
  - intros n b r. destruct (record_of _) as [r'|]; [|done]. destruct (typedb r') eqn:E; [|done]. intros [= <-]. by apply typedb_ok.
Qed.

Definition pin_words (p : PinRecord) : list Z :=
  [stream_high p.(pin_stream); stream_low p.(pin_stream); p.(pin_begin); p.(pin_end); p.(pin_expires)] ++
  match p.(pin_active) with Some c => [1; chunk_high c; chunk_low c] | None => [0; 0; 0] end ++ p.(pin_id).

Definition pin_of_words (ws : list Z) : option PinRecord :=
  match ws with
  | sh :: sl :: b :: e :: x :: f :: ch :: cl :: id => Some (mkPin id (mkStreamName sh sl) b e (if f =? 1 then Some (mkChunkId ch cl) else None) x)
  | _ => None
  end.

#[local] Instance pin_codec : PinJson := {|
  to_vec p := if decide (Forall is_u64 (pin_words p)) then Some (bytes_of (pin_words p)) else None;
  from_slice b := pin_of_words (words_of b);
|}.

#[local] Instance pin_codec_laws : PinJsonLaws.
Proof.
  split; cbn [to_vec from_slice pin_codec]; intros p v Ht; destruct (decide _) as [Hw|]; try done; intros [= <-].
  - rewrite words_bytes by done. by destruct p as [id [sh sl] b e [[ch cl]|] x].
  - rewrite bytes_of_len. destruct Ht as (_ & Hid & _). unfold pin_words, len. rewrite length_app, length_app, Hid. destruct (pin_active p); cbn; lia.
Qed.

#[local] Instance skew_demo : Skew.
Proof. refine {| skew := 100 |}. lia. Defined.

(** ** A run *)

Abbreviation demo_step := (step checksum (fun _ => 0)).
Abbreviation demo_reachable := (reachable checksum (fun _ => 0)).

(** The backend answers, the clock is right, the pin's task has not woken. *)
Definition calm (w : world) : choice := mkChoice NoFault w.(wenv).(clock) 0 [] (Ok 0).

(** Runs a process up to its answer, or up to the release of a chunk. *)
Fixpoint finish (fuel : nat) (w : world) (i : nat) : world :=
  match fuel with
  | O => w
  | S fuel =>
      match w.(procs) !! i with
      | Some (mkProc _ _ (ReleaseTrimmed _ _ _ _)) => w
      | _ => match act checksum (fun _ => 0) w i (calm w) with Some w' => finish fuel w' i | None => w end
      end
  end.

Lemma finish_steps fuel w i : rtc demo_step w (finish fuel w i).
Proof.
  revert w. induction fuel as [|n IH]; intros w; cbn [finish]; [apply rtc_refl|].
  assert (rtc demo_step w match act checksum (fun _ => 0) w i (calm w) with Some w' => finish n w' i | None => w end) as Hact.
  { destruct (act _ _ w i (calm w)) as [w'|] eqn:E; [|apply rtc_refl]. eapply rtc_l; [by eapply step_act|apply IH]. }
  destruct (procs w !! i) as [[c h k]|]; [|done]. by destruct k; try apply rtc_refl.
Qed.

Definition call_on (w : world) (c : call) : world :=
  finish 64 (mkWorld w.(mem) w.(wenv) (w.(procs) ++ [mkProc c 0 (code checksum c)])) (length w.(procs)).

Lemma call_reachable w c : demo_reachable w -> allowed w c -> demo_reachable (call_on w c).
Proof.
  intros (t & Ht & Hr) Ha. exists t. split; [done|]. etrans; [exact Hr|]. eapply rtc_l; [by apply (step_call _ _ w c 0%nat)|]. apply finish_steps.
Qed.

Definition answer_at (w : world) (i : nat) : option answer :=
  match w.(procs) !! i with Some p => match p.(p_code) with Ret a => Some a | _ => None end | None => None end.

Lemma answer_finished w i c h k a : w.(procs) !! i = Some (mkProc c h k) -> k = Ret a -> finished w c a.
Proof. intros Hp ->. by exists i, (mkProc c h (Ret a)). Qed.

Definition no_record : StreamChunkRecord :=
  mkRecord (mkStreamName 0 0) WalPurpose (mkChunkId 0 0) CandidateState None None 0 0 0 [] 0 false (mkMappings 0 []).

Definition snapshot_at (w : world) (i : nat) : StreamChunkRecordSnapshot :=
  match answer_at w i with
  | Some (Tail (Ok (Some s))) | Some (Published (Ok s)) | Some (Reserved (Ok s)) | Some (Located (Ok (s, _))) => s
  | _ => mkSnapshot no_record (mkIndex [] 0 0) [] 0
  end.

(** The records of the run: two chunks of one stream. *)
Definition demo_stream : StreamName := mkStreamName 1 2.
Definition demo_chunk (n : Z) : ChunkId := mkChunkId (4 * 2 ^ 56) n.

Definition demo_record (chunk : Z) (s : StreamChunkState) (bounds : option (Z * Z)) (gen trim : Z) (m : StreamMappings) : StreamChunkRecord :=
  mkRecord demo_stream StreamPurpose_ (demo_chunk chunk) s (fst <$> bounds) (snd <$> bounds) chunk 1 gen (replicate 16 7) trim false m.

Definition demo_lengths (l : list Z) : StreamMappings := match new l with Ok m => m | Err _ => mkMappings 0 [] end.

Definition w0 : world := start 1000.
(** The first chunk is reserved and attached, and seven bytes are appended. *)
Definition w1 : world := Eval vm_compute in call_on w0 (ReserveInitial (demo_record 0 CandidateState None 0 0 (demo_lengths [])) None).
Definition w2 : world := Eval vm_compute in call_on w1 (Publish None (demo_record 0 ActiveState (Some (0, 0)) 1 0 (demo_lengths [])) None (Some (snapshot_at w1 0))).
Definition w3 : world := Eval vm_compute in call_on w2 (Publish (Some (snapshot_at w2 1)) (demo_record 0 ActiveState (Some (0, 7)) 2 0 (demo_lengths [7])) None None).
(** The second chunk is registered, and the first is sealed for it. *)
Definition w4 : world := Eval vm_compute in call_on w3 (RegisterCandidate (demo_record 1 CandidateState None 0 0 (demo_lengths []))).
Definition roll (w : world) (tail candidate : nat) : call :=
  Publish (Some (snapshot_at w tail)) (demo_record 1 ActiveState (Some (7, 7)) 3 0 (demo_lengths []))
    (Some (demo_record 0 SealedState (Some (0, 7)) 3 0 (demo_lengths [7]))) (Some (snapshot_at w candidate)).
(** Five more bytes, and the first chunk is trimmed. *)
Definition append_and_trim (w : world) (tail : nat) : call :=
  Publish (Some (snapshot_at w tail)) (demo_record 1 ActiveState (Some (7, 12)) 4 7 (demo_lengths [5])) None None.

Definition w5 : world := Eval vm_compute in call_on w4 (LoadTail demo_stream).
Definition w6 : world := Eval vm_compute in call_on w5 (roll w5 4 3).
Definition w7 : world := Eval vm_compute in call_on w6 (append_and_trim w6 5).
Definition w8 : world := call_on w7 (Collect demo_stream 9 None 8 100000).

(** The same with a pin on the first chunk. *)
Definition x6 : world := Eval vm_compute in call_on w5 (PinRead (replicate 16 5) (snapshot_at w5 4)).
Definition x7 : world := Eval vm_compute in call_on x6 (roll x6 4 3).
Definition x8 : world := Eval vm_compute in call_on x7 (append_and_trim x7 7).
Definition x9 : world := Eval vm_compute in call_on x8 (Collect demo_stream 9 None 8 100000).

Ltac by_run := vm_compute; reflexivity.
Ltac answered_at i := eapply (answer_finished _ i); [by_run|by_run].
Ltac typed_run := apply typedb_ok; by_run.
Ltac name_run := split; split; apply Z.leb_le; reflexivity.

Lemma w1_run : w1 = call_on w0 (ReserveInitial (demo_record 0 CandidateState None 0 0 (demo_lengths [])) None).
Proof. by_run. Qed.
Lemma w2_run : w2 = call_on w1 (Publish None (demo_record 0 ActiveState (Some (0, 0)) 1 0 (demo_lengths [])) None (Some (snapshot_at w1 0))).
Proof. by_run. Qed.
Lemma w3_run : w3 = call_on w2 (Publish (Some (snapshot_at w2 1)) (demo_record 0 ActiveState (Some (0, 7)) 2 0 (demo_lengths [7])) None None).
Proof. by_run. Qed.
Lemma w4_run : w4 = call_on w3 (RegisterCandidate (demo_record 1 CandidateState None 0 0 (demo_lengths []))).
Proof. by_run. Qed.
Lemma w5_run : w5 = call_on w4 (LoadTail demo_stream).
Proof. by_run. Qed.
Lemma w6_run : w6 = call_on w5 (roll w5 4 3).
Proof. by_run. Qed.
Lemma w7_run : w7 = call_on w6 (append_and_trim w6 5).
Proof. by_run. Qed.
Lemma x6_run : x6 = call_on w5 (PinRead (replicate 16 5) (snapshot_at w5 4)).
Proof. by_run. Qed.
Lemma x7_run : x7 = call_on x6 (roll x6 4 3).
Proof. by_run. Qed.
Lemma x8_run : x8 = call_on x7 (append_and_trim x7 7).
Proof. by_run. Qed.
Lemma x9_run : x9 = call_on x8 (Collect demo_stream 9 None 8 100000).
Proof. by_run. Qed.

Lemma reach0 : demo_reachable w0.
Proof. exists 1000. split; [lia|apply rtc_refl]. Qed.

Lemma reach1 : demo_reachable w1.
Proof. rewrite w1_run. apply call_reachable; [apply reach0|typed_run]. Qed.

Lemma reach2 : demo_reachable w2.
Proof.
  rewrite w2_run. apply call_reachable; [apply reach1|]. split; [typed_run|]. split; [done|]. split; [done|]. split; [|done]. intros d <-%(inj Some). left. eexists _, _. answered_at 0%nat.
Qed.

Lemma reach3 : demo_reachable w3.
Proof.
  rewrite w3_run. apply call_reachable; [apply reach2|]. split; [typed_run|]. split; [done|]. split; [|done]. intros e <-%(inj Some). right. eexists _, _, _, _. answered_at 1%nat.
Qed.

Lemma reach4 : demo_reachable w4.
Proof. rewrite w4_run. apply call_reachable; [apply reach3|typed_run]. Qed.

Lemma reach5 : demo_reachable w5.
Proof. rewrite w5_run. apply call_reachable; [apply reach4|name_run]. Qed.

Lemma reach6 : demo_reachable w6.
Proof.
  rewrite w6_run. apply call_reachable; [apply reach5|]. split; [typed_run|]. split; [intros p <-%(inj Some); typed_run|]. split; [|split; [|done]].
  - intros e <-%(inj Some). left. eexists. answered_at 4%nat.
  - intros d <-%(inj Some). right; left. eexists. answered_at 3%nat.
Qed.

Lemma reach7 : demo_reachable w7.
Proof.
  rewrite w7_run. apply call_reachable; [apply reach6|]. split; [typed_run|]. split; [done|]. split; [|done]. intros e <-%(inj Some). right. eexists _, _, _, _. answered_at 5%nat.
Qed.

Lemma reach8 : demo_reachable w8.
Proof. apply call_reachable; [apply reach7|name_run]. Qed.

Lemma fresh_nonce w nonce : forallb (fun p => match p_call p with PinRead _ _ => false | _ => true end) w.(procs) = true ->
  forall i p nonce' captured', w.(procs) !! i = Some p -> p.(p_call) = PinRead nonce' captured' -> nonce' <> nonce.
Proof.
  rewrite forallb_forall. intros Hall i p n c Hp Hc. specialize (Hall p). rewrite Hc in Hall. discriminate Hall. apply list_elem_of_In. by eapply list_elem_of_lookup_2.
Qed.

Lemma reach_pin6 : demo_reachable x6.
Proof.
  rewrite x6_run. apply call_reachable; [apply reach5|]. split; [done|]. split; [left; eexists; answered_at 4%nat|]. apply fresh_nonce. by_run.
Qed.

Lemma reach_pin7 : demo_reachable x7.
Proof.
  rewrite x7_run. apply call_reachable; [apply reach_pin6|]. split; [typed_run|]. split; [intros p <-%(inj Some); typed_run|]. split; [|split; [|done]].
  - intros e <-%(inj Some). left. eexists. answered_at 4%nat.
  - intros d <-%(inj Some). right; left. eexists. answered_at 3%nat.
Qed.

Lemma reach_pin8 : demo_reachable x8.
Proof.
  rewrite x8_run. apply call_reachable; [apply reach_pin7|]. split; [typed_run|]. split; [done|]. split; [|done]. intros e <-%(inj Some). right. eexists _, _, _, _. answered_at 7%nat.
Qed.

Lemma reach_pin9 : demo_reachable x9.
Proof. rewrite x9_run. apply call_reachable; [apply reach_pin8|name_run]. Qed.

Definition w9 : world := Eval vm_compute in call_on w7 (LocateForRead demo_stream 9).

Lemma w9_run : w9 = call_on w7 (LocateForRead demo_stream 9).
Proof. by_run. Qed.

Lemma reach9 : demo_reachable w9.
Proof. rewrite w9_run. apply call_reachable; [apply reach7|]. split; [name_run|]. split; apply Z.leb_le; reflexivity. Qed.

(** ** The theorems on the run *)

(** The first tail, long after it was replaced. *)
Lemma acknowledged_tail_kept_witness :
  let s := snapshot_at w7 1 in s.(ss_record).(logical_end) = Some 0 /\
  exists t, run w7.(mem) (load_tail checksum s.(ss_record).(stream_id)) = Some (w7.(mem), Ok (Some t)) /\
    t.(ss_record).(stream_id) = s.(ss_record).(stream_id) /\ advances s.(ss_record) t.(ss_record).
Proof.
  intros s. split; [by_run|]. apply (acknowledged_tail_kept checksum (fun _ => 0) w7 s); [apply reach7|]. right. eexists _, _, _, _. answered_at 1%nat.
Defined.

(** An offset of the second chunk. *)
Lemma retained_located_witness :
  exists s mp, run w7.(mem) (locate_for_read checksum demo_stream 9) = Some (w7.(mem), Ok (s, false)) /\
    s.(ss_record).(state) <> DeletingState /\ serves s demo_stream 9 mp.
Proof.
  apply (retained_located checksum (fun _ => 0) w7 demo_stream (snapshot_at w7 6) 9); [apply reach7|name_run|by_run|].
  split; [apply Z.leb_le|apply Z.ltb_lt]; by_run.
Defined.

Definition reader_at_0 (w : world) : PinRecord * Z :=
  default (mkPin [] demo_stream 0 0 None 0, 0) (w.(wenv).(readers) !! 0%nat).

(** An offset that was trimmed, and that a collection spared, for the reader. *)
Lemma pinned_located_witness :
  (snapshot_at x9 8).(ss_record).(trim_offset) = 7 /\
  exists s mp, run x9.(mem) (locate_for_read checksum (reader_at_0 x9).1.(pin_stream) 3) = Some (x9.(mem), Ok (s, false)) /\
    s.(ss_record).(state) <> DeletingState /\ serves s (reader_at_0 x9).1.(pin_stream) 3 mp.
Proof.
  split; [by_run|]. apply (pinned_located checksum (fun _ => 0) x9 0 (reader_at_0 x9).1 (reader_at_0 x9).2 3); [apply reach_pin9|by_run|..].
  - apply Z.ltb_lt. by_run.
  - split; [apply Z.leb_le|apply Z.ltb_lt]; by_run.
Defined.

Definition mapping_at (s : StreamChunkRecordSnapshot) (off : Z) : StreamMapping :=
  match locate s.(ss_index) s.(ss_record).(mappings) off with Ok mp => mp | Err _ => mkMapping 0 0 0 end.

(** A located read and the publication it reads from. *)
Lemma answers_agree_witness :
  (snapshot_at w9 6).(ss_record).(chunk_id) = (snapshot_at w9 7).(ss_record).(chunk_id) /\
  mapping_at (snapshot_at w9 6) 9 = mapping_at (snapshot_at w9 7) 9.
Proof.
  apply (answers_agree checksum (fun _ => 0) w9 (snapshot_at w9 6) (snapshot_at w9 7) demo_stream 9); [apply reach9|..].
  - left. right. eexists _, _, _, _. answered_at 6%nat.
  - right. eexists _, _, _. answered_at 7%nat.
  - do 4 (split; [by_run|]). split; [apply Z.leb_le|apply Z.ltb_lt]; by_run.
  - do 4 (split; [by_run|]). split; [apply Z.leb_le|apply Z.ltb_lt]; by_run.
Defined.

(** Whether a process is about to release a chunk. *)
Definition releasing (w : world) (i : nat) : option (ChunkId * Z) :=
  match w.(procs) !! i with
  | Some p => match p.(p_code) with ReleaseTrimmed id stop _ _ => Some (id, stop) | _ => None end
  | None => None
  end.

Lemma releasing_inv w i id stop : releasing w i = Some (id, stop) ->
  exists p physical_end k, w.(procs) !! i = Some p /\ p.(p_code) = ReleaseTrimmed id stop physical_end k.
Proof.
  unfold releasing. destruct (procs w !! i) as [p|]; [|done]. destruct (p_code p) eqn:E; try done. intros Hk. exists p. eexists _, _. split; [done|].
  assert (id0 = id /\ stop0 = stop) as [-> ->] by (split; congruence). exact E.
Qed.

(** The first chunk, after the trim. *)
Lemma release_is_safe_witness :
  releasing w8 7 = Some (demo_chunk 0, 7) /\
  exists st start t, was_stored checksum (fun _ => 0) w8 st start (demo_chunk 0) 7 /\
    run w8.(mem) (load_tail checksum st) = Some (w8.(mem), Ok (Some t)) /\ 7 <= t.(ss_record).(trim_offset) /\
    (forall s, run w8.(mem) (load_key checksum (mkStreamChunkRecordKey st (Attached start))) = Some (w8.(mem), Ok (Some s)) ->
       s.(ss_record).(chunk_id) = demo_chunk 0 /\ s.(ss_record).(state) = DeletingState /\ s.(ss_record).(logical_end) = Some 7) /\
    (forall h q d off, w8.(wenv).(readers) !! h = Some (q, d) -> w8.(wenv).(clock) < d -> q.(pin_stream) = st ->
       start <= off < 7 -> ~ q.(pin_begin) <= off < q.(pin_end)).
Proof.
  assert (releasing w8 7 = Some (demo_chunk 0, 7)) as Hr by by_run. split; [exact Hr|]. apply releasing_inv in Hr as (p & ph & k & Hp & Hk).
  exact (release_is_safe checksum (fun _ => 0) w8 7 p (demo_chunk 0) 7 ph k reach8 Hp Hk).
Defined.

(** The five bytes after the roll. *)
Lemma publish_takes_effect_witness :
  let new := demo_record 1 ActiveState (Some (7, 12)) 4 7 (demo_lengths [5]) in
  exists m s, run w6.(mem) (publish checksum (Some (snapshot_at w6 5)) new None None) = Some (m, Ok s) /\ s.(ss_record) = new /\
    run m (load_tail checksum demo_stream) = Some (m, Ok (Some s)).
Proof.
  intros new. destruct (publish_ops checksum new None None) as [[[key data] ops]|e] eqn:E; [|vm_compute in E; discriminate E].
  eapply (publish_takes_effect checksum (fun _ => 0) w6 demo_stream (snapshot_at w6 5) new None None key data ops);
    [apply reach6|name_run|by_run|typed_run|done|done|by_run|exact E|]. apply Z.ltb_lt. by_run.
Defined.

End StreamDemo.
