(* ===== verification/Multipart.v ===== *)
(** * Multipart uploads

    Models [src/lib/crowdb-access-multipart/src/lib.rs] and [state.rs], the part
    of multipart uploads that S3 and Iceberg share: the composer that strings
    the locations of finished parts together without touching their bytes, the
    selection of parts at completion, and the accounting of staged parts.

    MD5 is the third-party [md5]; its state is the list of bytes fed to it and
    [finish] applies the digest function, a parameter, to that list.

    [composition_exact]: every byte of a composed object is placed where its
    part has it.  [accounting_exact]: the counters of an upload are the number of
    its parts and the sum of their lengths.  [selection_exact]: which selections
    are admitted. *)

From stdpp Require Import prelude gmap fin_maps list sorting.
From Stdlib Require Import ZArith Lia.
From S2P Require Import Prelude Bytes KeyEncoding Frame.

Module Multipart.
Import KeyEncoding Frame.

(** ** Composition ([lib.rs]) *)

Inductive ComposeError := TooManyParts | InvalidLocations | LengthLimit | OffsetOverflow | Empty.

Record Location := mkLocation {
  chunk_id : option ChunkId;
  offset : Z;
  length : Z;
  logical_offset : Z;
  logical_length : Z;
}.

Record ComposedObject := mkObject {
  o_locations : list Location;
  o_length : Z;
  o_etag : bytes;
}.

Record MultipartComposer := mkComposer {
  locations : list Location;
  c_length : Z;
  max_length : Z;
  part_count : Z;
  md5_fed : bytes;
}.

Definition new (max_length : Z) : MultipartComposer := mkComposer [] 0 max_length 0 [].

(** The first loop of [push]: the cursor after the locations. *)
Fixpoint check_locations (base cursor : Z) (ls : list Location) : result Z ComposeError :=
  match ls with
  | [] => Ok cursor
  | l :: ls =>
      if bool_decide (l.(chunk_id) = None) || (l.(length) =? 0) || (l.(logical_length) =? 0)
         || negb (l.(logical_offset) =? cursor)
         || bool_decide (checked_add l.(offset) l.(length) = None)
      then Err InvalidLocations
      else
        let? cursor := ok_or (checked_add cursor l.(logical_length)) OffsetOverflow in
        let? _ := ok_or (checked_add base l.(logical_offset)) OffsetOverflow in
        check_locations base cursor ls
  end.

Definition adjust (base : Z) (l : Location) : Location :=
  mkLocation l.(chunk_id) l.(offset) l.(length) (l.(logical_offset) +w base) l.(logical_length).

(** A part: its length, its raw MD5 and its locations. *)
Record part := mkPart { p_length : Z; p_md5 : bytes; p_locations : list Location }.

(** The checks of [push], which come before its first assignment; the result is
    [next_length]. *)
Definition push_checks (c : MultipartComposer) (p : part) : result Z ComposeError :=
  if 10000 <=? c.(part_count) then Err TooManyParts
  else
    let? next_length := ok_or (checked_add c.(c_length) p.(p_length)) OffsetOverflow in
    if c.(max_length) <? next_length then Err LengthLimit
    else
      let? cursor := check_locations c.(c_length) 0 p.(p_locations) in
      if negb (cursor =? p.(p_length)) then Err InvalidLocations else Ok next_length.

(** [push]: the composer afterwards and the answer. *)
Definition push (c : MultipartComposer) (p : part) : MultipartComposer * result unit ComposeError :=
  match push_checks c p with
  | Err e => (c, Err e)
  | Ok next_length =>
      (mkComposer (c.(locations) ++ map (adjust c.(c_length)) p.(p_locations)) next_length c.(max_length)
         (c.(part_count) + 1) (c.(md5_fed) ++ p.(p_md5)), Ok tt)
  end.

(** [finish]; 45 is the hyphen. *)
Definition finish (md5 : bytes -> bytes) (c : MultipartComposer) : result ComposedObject ComposeError :=
  if c.(part_count) =? 0 then Err Empty
  else Ok (mkObject c.(locations) c.(c_length) (encode_hex (md5 c.(md5_fed)) ++ 45 :: show_dec c.(part_count))).

(** ** Selection and accounting ([state.rs]) *)

Inductive StateError :=
| EmptySelection | InvalidPartNumber | InvalidRevision | PartLimit | StagedLimit | InvalidAccounting.

Record SelectedPart := mkSelected { number : Z; revision : Z; digest : bytes }.

Record PartAccounting := mkAccounting { count : Z; staged_bytes : Z }.

Record MultipartBounds := mkBounds {
  max_parts : Z;
  max_part_bytes : Z;
  max_object_bytes : Z;
  max_staged_bytes : Z;
}.

Definition valid (b : MultipartBounds) : bool :=
  (0 <? b.(max_parts)) && (b.(max_parts) <=? 10000) && (0 <? b.(max_part_bytes))
  && (b.(max_part_bytes) <=? b.(max_object_bytes)) && (b.(max_object_bytes) <=? b.(max_staged_bytes)).

Definition live_at (created_ms expires_ms now_ms : Z) : bool := (created_ms <=? now_ms) && (now_ms <? expires_ms).

Definition next_revision (current : Z) : option Z := checked_add current 1.

Definition next_part_revision (previous : option Z) : option Z :=
  match previous with Some current => next_revision current | None => Some 1 end.

(** The loop of [validate_selected_parts]. *)
Fixpoint validate_loop (limit previous : Z) (parts : list SelectedPart) : result unit StateError :=
  match parts with
  | [] => Ok tt
  | p :: parts =>
      if (p.(number) <=? previous) || (limit <? p.(number)) then Err InvalidPartNumber
      else if p.(revision) =? 0 then Err InvalidRevision
      else validate_loop limit p.(number) parts
  end.

Definition validate_selected_parts (parts : list SelectedPart) (max_parts : Z) : result unit StateError :=
  if bool_decide (parts = []) then Err EmptySelection
  else if Z.min max_parts 10000 <? len parts then Err PartLimit
  else validate_loop (Z.min max_parts 10000) 0 parts.

Definition checked_add_u16 (a b : Z) : option Z := if a + b <? 2 ^ 16 then Some (a + b) else None.

Definition checked_sub (a b : Z) : option Z := if b <=? a then Some (a - b) else None.

Definition reserve_part_accounting (current : PartAccounting) (old_length : option Z)
    (new_length max_parts max_staged_bytes : Z) : result PartAccounting StateError :=
  let? count :=
    match checked_add_u16 current.(count) (if old_length is Some _ then 0 else 1) with
    | Some count => if count <=? Z.min max_parts 10000 then Ok count else Err PartLimit
    | None => Err PartLimit
    end in
  let? rest := ok_or (checked_sub current.(staged_bytes) (default 0 old_length)) InvalidAccounting in
  let? staged := ok_or (checked_add rest new_length) StagedLimit in
  if max_staged_bytes <? staged then Err StagedLimit
  else Ok (mkAccounting count staged).

(** ** What a composed object is

    [place ls x]: the location that holds the logical offset [x], by its chunk
    and physical range, and how far into it [x] lies. *)

Definition place (ls : list Location) (x : Z) : option (option ChunkId * Z * Z * Z) :=
  l ← head (filter (fun l => l.(logical_offset) <= x < l.(logical_offset) + l.(logical_length)) ls);
  Some (l.(chunk_id), l.(offset), l.(length), x - l.(logical_offset)).

(** A location a part may have. *)
Definition usable (l : Location) : Prop :=
  l.(chunk_id) <> None /\ 0 < l.(length) /\ l.(offset) + l.(length) <= u64_max /\ 0 < l.(logical_length).

(** [ls] are usable locations that tile the logical range from [a] to [b] in order. *)
Fixpoint tiles (a : Z) (ls : list Location) (b : Z) : Prop :=
  match ls with
  | [] => a = b
  | l :: ls => usable l /\ l.(logical_offset) = a /\ tiles (a + l.(logical_length)) ls b
  end.

Definition total (ps : list part) : Z := foldr (fun p n => p.(p_length) + n) 0 ps.

(** A part may follow [ps] in an object of at most [max] bytes. *)
Definition admits (max : Z) (ps : list part) (p : part) : Prop :=
  len ps < 10000 /\ total ps + p.(p_length) <= max /\ tiles 0 p.(p_locations) p.(p_length).

(** The values have their types: [u64] throughout. *)
Definition location_typed (l : Location) : Prop :=
  is_u64 l.(offset) /\ is_u64 l.(length) /\ is_u64 l.(logical_offset) /\ is_u64 l.(logical_length).

Definition part_typed (p : part) : Prop := is_u64 p.(p_length) /\ Forall location_typed p.(p_locations).

(** A composer that was given [parts], with the parts it refused left out. *)
Inductive composed (max : Z) : list part -> MultipartComposer -> Prop :=
| composed_new : composed max [] (new max)
| composed_push ps c p :
    composed max ps c -> part_typed p -> snd (push c p) = Ok tt -> composed max (ps ++ [p]) (fst (push c p))
| composed_refused ps c p e :
    composed max ps c -> part_typed p -> snd (push c p) = Err e -> composed max ps (fst (push c p)).

(** ** Lemmas on tilings *)

Lemma tiles_le a ls b : tiles a ls b -> a <= b.
Proof.
  revert a. induction ls as [|l ls IH]; intros a; simpl; [lia|].
  intros ((_ & _ & _ & ?) & _ & ?%IH). lia.
Qed.

Lemma tiles_app a ls b ls' c : tiles a ls b -> tiles b ls' c -> tiles a (ls ++ ls') c.
Proof.
  revert a. induction ls as [|l ls IH]; intros a; simpl; [by intros ->|].
  intros (? & ? & ?) ?. eauto.
Qed.

Lemma tiles_adjust a ls b base :
  0 <= a -> 0 <= base -> base + b <= u64_max -> tiles a ls b -> tiles (base + a) (map (adjust base) ls) (base + b).
Proof.
  revert a. induction ls as [|l ls IH]; intros a Ha Hbase Hb; simpl; [by intros ->|].
  intros (Hl & <- & Ht). pose proof (tiles_le _ _ _ Ht). pose proof Hl as (_ & _ & _ & ?).
  split; [done|]. rewrite wrap64_id by (unfold is_u64; lia). split; [lia|].
  rewrite <- Z.add_assoc. apply IH; [lia..|done].
Qed.

Lemma place_app_left a ls b ls' c x :
  tiles a ls b -> x < b -> tiles b ls' c -> place (ls ++ ls') x = place ls x.
Proof.
  intros _ Hx Ht. unfold place. rewrite filter_app.
  replace (filter _ ls') with (@nil Location); [by rewrite app_nil_r|].
  symmetry. clear -Hx Ht. revert b Hx Ht. induction ls' as [|l ls' IH]; intros b Hx; simpl; [done|].
  intros ((_ & _ & _ & ?) & <- & Ht). rewrite filter_cons_False by lia. eapply IH, Ht. lia.
Qed.

Lemma place_app_right a ls b ls' x : tiles a ls b -> b <= x -> place (ls ++ ls') x = place ls' x.
Proof.
  intros Ht Hx. unfold place. rewrite filter_app.
  replace (filter _ ls) with (@nil Location); [done|]. symmetry.
  revert a Ht. induction ls as [|l ls IH]; intros a; simpl; [done|].
  intros (? & <- & Ht). pose proof (tiles_le _ _ _ Ht). rewrite filter_cons_False by lia. eauto.
Qed.

Lemma place_adjust a ls b base x :
  0 <= a -> 0 <= base -> base + b <= u64_max -> tiles a ls b ->
  place (map (adjust base) ls) (base + x) = place ls x.
Proof.
  unfold place. revert a. induction ls as [|l ls IH]; intros a Ha Hbase Hb; simpl; [done|].
  intros (Hl & <- & Ht). pose proof (tiles_le _ _ _ Ht). pose proof Hl as (_ & _ & _ & ?).
  rewrite !filter_cons. cbn [adjust logical_offset logical_length].
  rewrite wrap64_id by (unfold is_u64; lia).
  destruct (decide _), (decide _); [..|lia|]; [|lia|].
  - simpl. do 2 f_equal. rewrite wrap64_id by (unfold is_u64; lia). lia.
  - eapply IH, Ht; lia.
Qed.

Lemma place_tiled a ls b x : tiles a ls b -> a <= x < b -> is_Some (place ls x).
Proof.
  unfold place. revert a. induction ls as [|l ls IH]; intros a; simpl; [lia|].
  intros (? & <- & Ht) Hx. rewrite filter_cons. destruct (decide _); [by eexists|]. eapply IH; [done|lia].
Qed.

(** ** What [push] checks *)

Lemma checked_add_some a b : a + b <= u64_max -> checked_add a b = Some (a + b).
Proof. intros. unfold checked_add. by rewrite (proj2 (Z.leb_le _ _)). Qed.

Lemma checked_add_inv a b c : checked_add a b = Some c -> c = a + b /\ a + b <= u64_max.
Proof. unfold checked_add. destruct (Z.leb_spec (a + b) u64_max); [|done]. by intros [= <-]. Qed.

Lemma check_locations_ok base cursor ls n :
  0 <= base -> 0 <= cursor -> base + n <= u64_max -> Forall location_typed ls ->
  check_locations base cursor ls = Ok n <-> tiles cursor ls n.
Proof.
  intros Hbase Hc Hn Hls. revert cursor Hc. induction Hls as [|l ls Hl Hls IH]; intros cursor Hc; simpl.
  { split; [by intros [= ->]|by intros ->]. }
  destruct Hl as (? & ? & ? & ?). unfold is_u64 in *. split.
  - case_match eqn:Hg; [done|]. repeat (apply orb_false_iff in Hg as [Hg ?]).
    destruct (checked_add cursor l.(logical_length)) as [next|] eqn:Hnext; [|done]. cbn [ok_or result_bind].
    apply checked_add_inv in Hnext as [-> ?].
    destruct (checked_add base l.(logical_offset)) eqn:?; [|done]. cbn [ok_or result_bind].
    intros ?%IH; [|lia]. destruct (checked_add l.(offset) l.(length)) eqn:Hend; [|done].
    apply checked_add_inv in Hend as [_ ?]. rewrite bool_decide_eq_false in Hg.
    unfold usable. repeat split; try done; lia.
  - intros ((? & ? & ? & ?) & Hat & Ht). pose proof (tiles_le _ _ _ Ht).
    rewrite bool_decide_eq_false_2 by done.
    rewrite (checked_add_some l.(offset)), (checked_add_some cursor), (checked_add_some base) by lia.
    cbn [ok_or result_bind].
    replace (_ || _) with false; [apply IH; [lia|done]|].
    symmetry. rewrite !orb_false_iff. repeat split; first [by apply bool_decide_eq_false_2|rewrite Hat, Z.eqb_refl; done|lia].
Qed.

Lemma parts_total_app ps ps' : total (ps ++ ps') = total ps + total ps'.
Proof. unfold total. induction ps as [|p ps IH]; simpl in *; lia. Qed.

Lemma parts_total_nonneg ps : Forall part_typed ps -> 0 <= total ps.
Proof. unfold total. induction 1 as [|p ps [[? ?] _]]; simpl in *; lia. Qed.

(** The state of a composer that holds the parts [ps]. *)
Record holds (max : Z) (ps : list part) (c : MultipartComposer) : Prop := {
  h_typed : Forall part_typed ps;
  h_length : c.(c_length) = total ps;
  h_max : c.(max_length) = max;
  h_total : total ps <= max;
  h_count : c.(part_count) = len ps;
  h_md5 : c.(md5_fed) = concat (map p_md5 ps);
  h_tiles : tiles 0 c.(locations) (total ps);
  h_place i p x : ps !! i = Some p -> 0 <= x < p.(p_length) ->
    place c.(locations) (total (take i ps) + x) = place p.(p_locations) x /\ is_Some (place p.(p_locations) x);
}.

Lemma push_checks_ok max ps c p :
  is_u64 max -> holds max ps c -> part_typed p ->
  (exists n, push_checks c p = Ok n) <-> admits max ps p.
Proof.
  intros [? ?] Hh [[? ?] Hls]. pose proof (parts_total_nonneg _ (h_typed _ _ _ Hh)).
  unfold push_checks, admits. rewrite (h_length _ _ _ Hh), (h_max _ _ _ Hh), (h_count _ _ _ Hh). split.
  - intros [n Hn]. destruct (Z.leb_spec 10000 (len ps)); [done|].
    destruct (checked_add (total ps) p.(p_length)) as [next|] eqn:Hnext; [|done]. cbn [ok_or result_bind] in Hn.
    apply checked_add_inv in Hnext as [-> ?]. destruct (Z.ltb_spec max (total ps + p.(p_length))); [done|].
    destruct (check_locations _ _ _) as [cursor|] eqn:Hc; [|done]. cbn [result_bind] in Hn.
    destruct (Z.eqb_spec cursor p.(p_length)) as [->|]; [|done].
    apply check_locations_ok in Hc; [done|lia..|done].
  - intros (? & ? & Ht). rewrite (proj2 (Z.leb_gt _ _)), checked_add_some by lia. cbn [ok_or result_bind].
    rewrite (proj2 (Z.ltb_ge _ _)) by lia.
    assert (check_locations (total ps) 0 p.(p_locations) = Ok p.(p_length)) as -> by (apply check_locations_ok; [lia..|done|done]).
    cbn [result_bind]. rewrite Z.eqb_refl. by eexists.
Qed.

Lemma push_checks_length c p n : push_checks c p = Ok n -> n = c.(c_length) + p.(p_length).
Proof.
  unfold push_checks. case_match; [done|].
  destruct (checked_add _ _) as [m|] eqn:Hm; [|done]. cbn [ok_or result_bind].
  apply checked_add_inv in Hm as [-> _]. case_match; [done|].
  destruct (check_locations _ _ _); [|done]. cbn [result_bind]. case_match; [done|]. by intros [= <-].
Qed.

Lemma composer_holds_new max : is_u64 max -> holds max [] (new max).
Proof. intros [? ?]. by split. Qed.

Lemma holds_push max ps c p n :
  is_u64 max -> holds max ps c -> part_typed p -> push_checks c p = Ok n -> holds max (ps ++ [p]) (fst (push c p)).
Proof.
  intros Hmax Hh Hp Hn. assert (admits max ps p) as (? & ? & Ht) by (eapply push_checks_ok; eauto).
  pose proof (parts_total_nonneg _ (h_typed _ _ _ Hh)). destruct Hmax as [? ?]. pose proof (h_tiles _ _ _ Hh) as Htiles.
  assert (tiles (total ps) (map (adjust (total ps)) p.(p_locations)) (total ps + p.(p_length))) as Hnew.
  { rewrite <- (Z.add_0_r (total ps)) at 1. apply tiles_adjust; [lia..|done]. }
  assert (total (ps ++ [p]) = total ps + p.(p_length)) as Htot by (rewrite parts_total_app; simpl; lia).
  unfold push. rewrite Hn. apply push_checks_length in Hn. rewrite (h_length _ _ _ Hh) in *.
  split; cbn [fst c_length max_length part_count md5_fed locations].
  - apply Forall_app; split; [apply Hh|by constructor].
  - by rewrite Htot.
  - apply Hh.
  - lia.
  - rewrite (h_count _ _ _ Hh). unfold len. rewrite length_app. simpl. lia.
  - rewrite (h_md5 _ _ _ Hh), map_app, concat_app. simpl. by rewrite app_nil_r.
  - rewrite Htot. by eapply tiles_app.
  - intros i q x Hi Hx. apply lookup_app_Some in Hi as [Hi|[Hge Hi]].
    + assert (i < Datatypes.length ps)%nat by (by eapply lookup_lt_Some).
      rewrite take_app_le by lia.
      assert (total ps = total (take i ps) + (q.(p_length) + total (drop (S i) ps))) as Hsplit.
      { rewrite <- (take_drop_middle _ _ _ Hi) at 1. by rewrite parts_total_app. }
      assert (0 <= total (drop (S i) ps)) by (apply parts_total_nonneg, Forall_drop, Hh).
      erewrite place_app_left; [by apply Hh|apply Hh|lia|apply Hnew].
    + apply list_lookup_singleton_Some in Hi as [Heq <-].
      rewrite take_app_length' by lia.
      erewrite place_app_right by (apply Hh || lia).
      erewrite place_adjust; [|shelve..|apply Ht]. Unshelve. all: try lia.
      split; [done|]. by eapply place_tiled.
Qed.

Lemma composed_holds max ps c : is_u64 max -> composed max ps c -> holds max ps c.
Proof.
  intros Hmax. induction 1 as [|ps c p _ IH Hp Hok|ps c p e _ IH Hp He].
  - by apply composer_holds_new.
  - unfold push in Hok. destruct (push_checks c p) eqn:Hn; [|done]. by eapply holds_push.
  - unfold push in *. by destruct (push_checks c p).
Qed.

(** C34. Composition of an object from parts, whatever was pushed and refused
    before: a part is taken exactly when fewer than 10000 parts were, the object
    stays within its limit, and the locations of the part are usable and tile its
    length in order; a refused part leaves the composer as it was.  [finish] fails
    only without parts.  The object has the sum of the lengths, its locations
    tile it, every byte lies where its part has it, and the entity tag is the
    digest of the parts' digests with their number. *)
Theorem composition_exact md5 max ps c :
  is_u64 max -> composed max ps c ->
  (forall p, part_typed p ->
     (snd (push c p) = Ok tt <-> admits max ps p) /\
     (forall e, snd (push c p) = Err e -> fst (push c p) = c)) /\
  match finish md5 c with
  | Err e => e = Empty /\ ps = []
  | Ok o =>
      ps <> [] /\ o.(o_length) = total ps /\ total ps <= max /\ tiles 0 o.(o_locations) (total ps) /\
      o.(o_etag) = encode_hex (md5 (concat (map p_md5 ps))) ++ 45 :: show_dec (len ps) /\
      forall i p x, ps !! i = Some p -> 0 <= x < p.(p_length) ->
        place o.(o_locations) (total (take i ps) + x) = place p.(p_locations) x /\
        is_Some (place p.(p_locations) x)
  end.
Proof.
  intros Hmax Hh%composed_holds; [|done]. split.
  - intros p Hp. rewrite <- (push_checks_ok _ _ _ _ Hmax Hh Hp). unfold push.
    destruct (push_checks c p) as [n|e]; simpl; split; try done.
    + split; eauto.
    + split; [done|by intros [? ?]].
  - unfold finish. rewrite (h_count _ _ _ Hh). destruct ps as [|p0 ps]; [done|].
    rewrite (proj2 (Z.eqb_neq _ _)) by (unfold len; simpl; lia). cbn [o_length o_locations o_etag].
    destruct Hh as [? Hl ? ? Hc Hm ? Hpl]. rewrite Hl, Hm. repeat split; try done; by eapply Hpl.
Qed.

(** ** Selection *)

Lemma validate_loop_ok limit previous parts :
  validate_loop limit previous parts = Ok tt <->
  Sorted Z.lt (previous :: map number parts) /\ Forall (fun p => p.(number) <= limit /\ p.(revision) <> 0) parts.
Proof.
  revert previous. induction parts as [|p parts IH]; intros previous; simpl.
  { split; [|done]. intros _. repeat constructor. }
  rewrite Forall_cons. destruct (Z.leb_spec p.(number) previous); simpl.
  { split; [done|]. intros [Hs _]. inv Hs. match goal with Hr : HdRel _ _ _ |- _ => inv Hr end. lia. }
  destruct (Z.ltb_spec limit p.(number)); [split; [done|]; intros [_ [[? ?] _]]; lia|].
  destruct (Z.eqb_spec p.(revision) 0); [split; [done|]; intros [_ [[? ?] _]]; lia|].
  rewrite IH. split.
  - intros [? ?]. split; [|done]. constructor; [done|]. by constructor.
  - intros [Hs [_ ?]]. by inv Hs.
Qed.

(** Strictly increasing numbers up to [limit] are no more than there is room for. *)
Lemma sorted_room limit previous (ns : list Z) :
  previous <= limit -> Sorted Z.lt (previous :: ns) -> Forall (fun n => n <= limit) ns -> previous + len ns <= limit.
Proof.
  unfold len. revert previous. induction ns as [|n ns IH]; intros previous Hp Hs Hf; simpl; [lia|].
  inv Hs. match goal with Hr : HdRel _ _ _ |- _ => inv Hr end. inv Hf.
  specialize (IH n ltac:(done) ltac:(done) ltac:(done)). lia.
Qed.

(** A selection is admitted exactly when it is not empty, its numbers increase
    strictly from 1 up to the limit of the upload and of the protocol, and no
    revision is zero.  The limit on the number of parts then holds of itself. *)
Theorem selection_exact parts max_parts :
  0 <= max_parts ->
  validate_selected_parts parts max_parts = Ok tt <->
  parts <> [] /\ Sorted Z.lt (0 :: map number parts) /\
  Forall (fun p => p.(number) <= Z.min max_parts 10000 /\ p.(revision) <> 0) parts.
Proof.
  intros Hmax. unfold validate_selected_parts. case_bool_decide as Hne.
  { split; [done|]. by intros [? _]. }
  destruct (Z.ltb_spec (Z.min max_parts 10000) (len parts)) as [Hlen|Hlen].
  - split; [done|]. intros (_ & Hs & Hf).
    pose proof (sorted_room (Z.min max_parts 10000) 0 (map number parts) ltac:(lia) Hs) as Hroom.
    unfold len in *. rewrite length_map in Hroom. enough (0 + Z.of_nat (Datatypes.length parts) <= Z.min max_parts 10000) by lia.
    apply Hroom, Forall_map. eapply Forall_impl; [done|]. by intros ? [? _].
  - rewrite validate_loop_ok. tauto.
Qed.

(** ** Accounting *)

(** The bytes of the stored parts, by part number. *)
Definition bytes_of (m : gmap Z Z) : Z := map_fold (fun _ n total => n + total) 0 m.

Lemma bytes_of_insert m n l : m !! n = None -> bytes_of (<[n := l]> m) = l + bytes_of m.
Proof. intros. unfold bytes_of. rewrite map_fold_insert_L; [done|lia|done]. Qed.

Lemma bytes_of_delete m n l : m !! n = Some l -> bytes_of m = l + bytes_of (delete n m).
Proof. intros. rewrite <- (insert_delete_id m n l) at 1 by done. by rewrite bytes_of_insert by apply lookup_delete_eq. Qed.

Lemma bytes_of_nonneg m : map_Forall (fun _ l => 0 <= l) m -> 0 <= bytes_of m.
Proof.
  induction m as [|n l m Hn IH] using map_ind; [done|]. rewrite map_Forall_insert by done.
  intros [? ?]. rewrite bytes_of_insert by done. specialize (IH ltac:(done)). lia.
Qed.

(** Storing part [n] anew moves the counters by what it replaces. *)
Lemma bytes_of_replace m n l : bytes_of (<[n := l]> m) = bytes_of m - default 0 (m !! n) + l.
Proof.
  destruct (m !! n) as [o|] eqn:Hn; simpl; [|rewrite bytes_of_insert by done; lia].
  rewrite <- insert_delete_eq, bytes_of_insert by apply lookup_delete_eq. rewrite (bytes_of_delete m n o) by done. lia.
Qed.

(** The counters of an upload that stores parts of the lengths [m]. *)
Definition accounts (m : gmap Z Z) : PartAccounting := mkAccounting (Z.of_nat (size m)) (bytes_of m).

(** From counters that are the number of the stored parts and the sum of their
    lengths, a reservation for a new or a replaced part gives those of the parts
    with it, refuses exactly what exceeds one of the two limits, and never finds
    the counters inconsistent. *)
Theorem accounting_exact m n l max_parts max_staged :
  map_Forall (fun _ l => 0 <= l) m -> is_u64 max_staged ->
  reserve_part_accounting (accounts m) (m !! n) l max_parts max_staged =
    let next := accounts (<[n := l]> m) in
    if Z.min max_parts 10000 <? next.(count) then Err PartLimit
    else if max_staged <? next.(staged_bytes) then Err StagedLimit
    else Ok next.
Proof.
  intros Hm [_ Hmax]. unfold reserve_part_accounting, accounts. cbn [count staged_bytes].
  assert (default 0 (m !! n) <= bytes_of m) as Hold.
  { destruct (m !! n) as [o|] eqn:Hn; simpl; [|by apply bytes_of_nonneg].
    rewrite (bytes_of_delete m n o) by done.
    assert (0 <= bytes_of (delete n m)) by (by apply bytes_of_nonneg, map_Forall_delete). lia. }
  rewrite bytes_of_replace.
  assert (Z.of_nat (size (<[n := l]> m)) = Z.of_nat (size m) + (if m !! n is Some _ then 0 else 1)) as ->.
  { rewrite map_size_insert. destruct (m !! n); simpl; lia. }
  set (c := Z.of_nat (size m) + _). unfold checked_add_u16. fold c.
  replace (if c <? 2 ^ 16 then Some c else None) with (if c <? 65536 then Some c else None) by done.
  destruct (Z.ltb_spec (Z.min max_parts 10000) c).
  { destruct (c <? 65536); [|done]. by rewrite (proj2 (Z.leb_gt _ _)). }
  rewrite (proj2 (Z.ltb_lt c _)), (proj2 (Z.leb_le c _)) by lia. cbn [result_bind].
  unfold checked_sub, checked_add. rewrite (proj2 (Z.leb_le _ _)) by done. cbn [ok_or result_bind].
  destruct (Z.leb_spec (bytes_of m - default 0 (m !! n) + l) u64_max); cbn [ok_or result_bind]; [done|].
  by rewrite (proj2 (Z.ltb_lt max_staged _)) by lia.
Qed.

(** ** An upload of two parts *)

Definition demo_part (chunk n : Z) (md5 : Z) : part :=
  mkPart n [md5] [mkLocation (Some (mkChunkId 1 chunk)) 100 (n + 34) 0 n].

Definition demo_bad : part := mkPart 5 [9] [mkLocation (Some (mkChunkId 1 3)) 100 39 1 5].

Definition demo_composer : MultipartComposer :=
  fst (push (fst (push (fst (push (new 12) (demo_part 2 7 17))) demo_bad)) (demo_part 1 5 34)).

Lemma demo_typed p : p ∈ [demo_part 2 7 17; demo_bad; demo_part 1 5 34] -> part_typed p.
Proof.
  rewrite !elem_of_cons. intros [->|[->|[->|[]%elem_of_nil]]];
    (split; [by split|]; apply Forall_singleton; repeat split; by vm_compute).
Qed.

Lemma demo_composed : composed 12 [demo_part 2 7 17; demo_part 1 5 34] demo_composer.
Proof.
  apply (composed_push 12 [demo_part 2 7 17]); [|apply demo_typed; set_solver|done].
  apply (composed_refused 12 [demo_part 2 7 17] _ demo_bad InvalidLocations); [|apply demo_typed; set_solver|done].
  apply (composed_push 12 [] (new 12) (demo_part 2 7 17)); [constructor|apply demo_typed; set_solver|done].
Qed.

Lemma composition_exact_witness :
  exists o, finish (fun b => b) demo_composer = Ok o /\ o.(o_length) = 12 /\
    place o.(o_locations) 9 = Some (Some (mkChunkId 1 1), 100, 39, 2).
Proof.
  destruct (composition_exact (fun b => b) 12 _ demo_composer ltac:(by split) demo_composed) as [_ Hf].
  destruct (finish (fun b => b) demo_composer) as [o|e] eqn:Ho; [|by destruct Hf].
  destruct Hf as (_ & Hl & _ & _ & _ & Hp). exists o. split; [done|]. split; [by rewrite Hl|].
  by destruct (Hp 1%nat (demo_part 1 5 34) 2 eq_refl ltac:(by split)) as [H9 _].
Defined.

End Multipart.
